(* ===== verification/_CoqProject ===== *)
-Q . S2P
Prelude.v
Float32.v
Neighbor.v
CandidatePool.v
PoolBatch.v
PoolSearch.v
VisitedSet.v
Queues.v
LockTable.v
Bytes.v
Layout.v
BinFile.v
PageCache.v
PageProof.v
CachedIO.v
FilterUtils.v
StringAttr.v
Attributes.v
LabelIndex.v
RangeIndex.v
Selector.v
StringIndex.v
StringProof.v
StringRefine.v
DocStore.v
FieldCodec.v
PipeSearch.v
PipeProof.v
GreedyPool.v
BeamSearch.v
BeamProof.v
CoroSearch.v
CoroProof.v
AttrInstances.v
FilterSearch.v
FilterProof.v
SqlParser.v
PicoJson.v
DslCompile.v
LocTable.v
PageSearch.v
PageSearchProof.v
InsertConc.v
Prune.v
MemIndex.v
MemSearch.v
MemProof.v
Consolidate.v
MemRefine.v
NgFix.v
NgFixProof.v
NgRefine.v
DirectInsert.v
DeleteMerge.v
