(* ===== verification/Prelude.v ===== *)
(** * PipeANN: verification library

    PipeANN is a graph index for nearest-neighbour search on SSD.  This library
    models its core in Rocq and proves it correct.  Every definition follows the
    source file named at the top of its file; [src/] paths are relative to the
    repository.

    ** The program and its parts

    A vector is a node of a graph.  Nodes lie in fixed-size records on 4 KB sectors;
    two tables map a node's id to its location and back.  A search walks the graph
    best-first through a bounded candidate pool while reads are in flight.  An
    insert searches, prunes the visited nodes to a neighbour list, writes the new
    node and moves its neighbours' records to free locations.  Deletions are
    collected and merged into a new file.  Attribute indexes and selectors restrict
    a search to the nodes that satisfy a filter, written in SQL or JSON.  Lock tables
    and lock-free queues let searches, inserts and background writers run together.

    ** Files, in dependency order

    - [Prelude]: machine integers, checked arrays, counting, tactics.
    - [Float32]: IEEE single precision on [SpecFloat]; its order as a key order.
    - [Neighbor]: candidates, their order, sorted insertion ([include/utils.h]).
    - [CandidatePool], [PoolBatch], [PoolSearch]: the candidate pool of a search
      ([include/candidate_pool.h]) as an array with cursors; every access that could
      leave the array is checked.
    - [VisitedSet]: the open-addressing set ([include/utils/visited_set.h]).
    - [Queues]: SPSC, MPSC and mutex queues ([include/utils/concurrent_queue.h]).
    - [LockTable]: spin lock, sparse lock table, sharded shared mutex
      ([include/utils/lock_table.h]) as transition systems.
    - [Bytes], [Layout], [BinFile]: little-endian bytes, the metadata sector and the
      placement of nodes ([include/ssd_index_defs.h]), bin files ([include/utils.h]).
    - [PageCache], [PageProof]: the page cache with its reference counts
      ([include/utils/page_cache.h]), what the readers do with it
      ([include/aligned_file_reader.h], [src/utils/linux_aligned_file_reader.cpp]) and
      the background thread that writes pages back ([src/update/direct_insert.cpp]).
    - [CachedIO]: buffered input and output files ([include/utils/cached_io.h]).
    - [FilterUtils], [StringAttr], [Attributes], [LabelIndex], [RangeIndex]: sorted
      id lists, string matching, attribute records, the label and range indexes
      ([include/filter/filter_utils.h], [include/filter/attribute.h]).
    - [Selector], [AttrInstances]: selector trees ([include/filter/selector.h])
      against a class of attribute indexes, and the instances of that class.
    - [StringIndex]: the string index, its two sorted files, buckets, pending inserts
      and merges ([include/filter/attribute.h]); [StringProof] holds the theory of its
      order, files and ranges, [StringRefine] its invariant and theorems.
    - [DocStore], [FieldCodec]: the document store over a class of key-value stores
      ([src/server/doc_store.h]) and the codes of scalar fields
      ([src/server/field_codec.h]).
    - [PipeSearch], [PipeProof]: the pipelined search loop, with its reads in flight,
      its ring of page buffers and its locks ([src/search/pipe_search_common.h],
      [src/search/pipe_search.cpp]), and its theorems.
    - [GreedyPool]: the pool of the searches that follow, with the ids seen and taken.
    - [BeamSearch], [BeamProof]: the beam search ([src/search/beam_search.cpp]);
      [CoroSearch], [CoroProof]: several of them in one thread
      ([src/search/coro_search.cpp]); [PageSearch], [PageSearchProof]: the search that
      uses every node of a page ([src/search/page_search.cpp]).
    - [FilterSearch], [FilterProof]: the choice of a filtered search by cost and the
      pre-, in- and post-filtered searches ([src/search/spec_filter_search.cpp]).
    - [SqlParser], [PicoJson], [DslCompile]: the filter language, from SQL text to JSON to
      selectors ([include/filter/dsl_compiler.h]), with the JSON parser in between
      ([include/utils/picojson.h]).
    - [LocTable]: id and location tables and the allocator ([src/ssd_index.cpp]).
    - [InsertConc]: concurrent inserts and search reads as a transition system
      ([src/update/direct_insert.cpp], [src/ssd_index.cpp]).
    - [Prune]: pruning and two-hop sampling ([include/utils/prune_neighbors.h]).
    - [MemIndex]: the in-memory index ([src/index.cpp]): search, build, insertion, lazy
      deletion, consolidation, tag file; [MemSearch], [MemProof] and [Consolidate] hold
      the theory of its search, of its invariant and of consolidation, [MemRefine] its
      theorems.
    - [NgFix]: the query-driven refinement of a built graph and [Index::build]
      ([src/index.cpp]); [NgFixProof] holds the theory of its path matrix and of the
      edges it chooses, [NgRefine] the refinement, the build and their theorems.
    - [DirectInsert]: [insert_in_place] of one insert, down to page buffers and
      merged writes ([src/update/direct_insert.cpp]).
    - [DeleteMerge]: [merge_deletes] and [reload] ([src/update/delete_merge.cpp]).

    ** How code becomes definitions

    A C++ operation is a function on a record of the fields it uses; [None] stands
    for a crash, an exit, an exception or an access out of range, so that a theorem
    that ends in [Some] also shows that none of these happens.  Integers are [Z] with
    their wrap-around written out where they can wrap.  Distances are IEEE values,
    NaN and signed zero included.  A loop whose recursion is not structural has fuel,
    and the theorem shows that the fuel suffices: the passes of pruning need at most
    500 rounds for any finite alpha, probes need at most the table size, the parser
    the length of its input.  Threads are steps of a relation.  Code outside the
    sources and choices of the environment (distance kernels, shuffles, hash
    iteration order, the key-value store, thread schedules) are parameters.  A theorem
    names in its comment the inputs it leaves out; where the code misbehaves on them, a
    theorem or a finding says how.

    ** What the theorems show

    - Search state: a batch merge into the pool equals the single inserts, the pool
      keeps the closest candidates in order and its cursors never pass an unvisited
      one; the visited set is a set.
    - Search: the pipelined loop ends under every order in which reads complete,
      releases its locks, and returns the closest of a set of nodes that is closed
      under the greedy rule; the beam, page and coroutine searches end with such a set
      too, the last one however the reads of its queries interleave; the filtered
      searches return members only, and a pre-filtered one the closest members.
    - Memory index: inserts, deletions and consolidations refine a map from tags to
      vectors, a search is a fixed point of the greedy walk, a build leaves every list
      within its degree, a consolidation keeps every surviving vector and patches every
      list, and tags survive saving when nothing is deleted.
    - Build: a built index holds the given vectors; the hardness matrix is the least
      rank that joins two nodes, the chosen edges connect all of them, and a refinement
      keeps full base lists.
    - Synchronisation: mutual exclusion of the three locks, FIFO of the queue between
      two threads, consistency and absence of deadlock of concurrent inserts, and
      that a record read by a search is not reused under it.
    - Storage: the metadata survives a restart, nodes lie in their records and never
      overlap on an index that was built, saved and loaded, the allocator hands out free
      records only.  Reads through the page cache, asynchronous ones included, get the last
      page written and the disk catches up; buffered files give back the chunks written.
    - Updates: an insert refines the insertion of a node into a graph; a merge
      yields a consistent index of exactly the surviving nodes; pruning obeys the
      alpha-RNG rule and its bounds.
    - Filters: a strict pre-filter returns exactly the members, a lax one and the
      in-filter test never lose one, the label and range indexes answer for the rows
      they were saved from and the vectors inserted since, the SQL parser inverts printing
      and ends on every input, the JSON parser reads back what the compiler renders, and a
      compiled filter means what its text says.
    - String index: any history of inserts and merges refines a set of rows, its
      files can be loaded again, and a saved index keeps the promises of the class the
      selectors are proved against.
    - Server: the document store refines a table of rows over any key-value store with
      the laws of its class, writes that fail included; codes of floats compare as the
      floats do.
    - Some theorems show behaviour that the code does not intend: a page overwritten
      by a concurrent insert, a page buffer reused under a search, an index that breaks
      once it is consolidated empty, a refine edge written over a base edge, filters lost
      in a merge, members missed below a negation, deletions undone by a save, an equality
      on strings answered with its prefix range, inserted strings lost to two
      tests, an old page put over a pending write, rows with the same id, a string
      literal cut at a control byte, a page used before it is read, nodes read at the wrong
      location.

    ** Not modelled

    Product quantisation and RaBitQ codes, distance kernels, graph partitioning and
    the PiPNN build, the system calls of the file readers, the journal (its bodies are
    commented out), the dynamic index, the collections, the Python and gRPC front ends
    and vendored libraries.  They are numerical kernels, I/O or glue, or parts that later
    files can add: the dynamic index would sit on [MemIndex], [DirectInsert] and
    [DeleteMerge].  The string index
    is modelled without its lock and for strings that end in a NUL byte, which its
    comparisons rely on.  [PageCache] takes a synchronous call as one step, an
    asynchronous read as three (send, transfer, poll) and a task of the background thread
    as two; a read that lands over a newer write is the subject of a theorem of its own.
    [PicoJson] takes [strtod] of anything but an integer that a double holds exactly as a
    parameter.  The theorem on [LabelIndex] stops before its merge.  [InsertConc] and
    [DirectInsert] take the result of the search as an argument with what they need of
    it as a hypothesis. *)

From Stdlib Require Export ZArith Lia Bool.
From stdpp Require Export base option list numbers sorting sets gmap.

(** ** Machine integers

    The C++ integer types are modelled in [Z] with their wrap-around written
    out.  [u32] and [u64] are the conversions to [uint32_t] and [uint64_t];
    [i32_of_u32] is [static_cast<int32_t>]. *)

Definition u32 (z : Z) : Z := (z mod 2 ^ 32)%Z.
Definition u64 (z : Z) : Z := (z mod 2 ^ 64)%Z.
Definition UINT32_MAX : Z := (2 ^ 32 - 1)%Z.
Definition INT_MAX : Z := (2 ^ 31 - 1)%Z.
Definition i32_of_u32 (z : Z) : Z := (if z <? 2 ^ 31 then z else z - 2 ^ 32)%Z.

Definition is_u32 (z : Z) : Prop := (0 <= z < 2 ^ 32)%Z.
Definition is_u64 (z : Z) : Prop := (0 <= z < 2 ^ 64)%Z.

Global Instance is_u32_dec z : Decision (is_u32 z).
Proof. unfold is_u32. apply _. Defined.
Global Instance is_u64_dec z : Decision (is_u64 z).
Proof. unfold is_u64. apply _. Defined.

Create HintDb machine discriminated.

Lemma u32_range z : is_u32 (u32 z).
Proof. unfold is_u32, u32. apply Z.mod_pos_bound. lia. Qed.

Lemma u64_range z : is_u64 (u64 z).
Proof. unfold is_u64, u64. apply Z.mod_pos_bound. lia. Qed.

Lemma u32_small z : is_u32 z → u32 z = z.
Proof. unfold is_u32, u32. intros. by apply Z.mod_small. Qed.

Lemma u64_small z : is_u64 z → u64 z = z.
Proof. unfold is_u64, u64. intros. by apply Z.mod_small. Qed.

#[export] Hint Resolve u32_range u64_range : machine.

(** ** Tactics *)

(** Turn the boolean comparisons of the context into propositions. *)
Ltac bool_to_prop :=
  repeat match goal with
    | H : andb _ _ = true |- _ => apply andb_true_iff in H; destruct H
    | H : orb _ _ = false |- _ => apply orb_false_iff in H; destruct H
    | H : negb _ = true |- _ => apply negb_true_iff in H
    | H : negb _ = false |- _ => apply negb_false_iff in H
    | H : Nat.ltb _ _ = true |- _ => apply Nat.ltb_lt in H
    | H : Nat.ltb _ _ = false |- _ => apply Nat.ltb_ge in H
    | H : Nat.leb _ _ = true |- _ => apply Nat.leb_le in H
    | H : Nat.leb _ _ = false |- _ => apply Nat.leb_gt in H
    | H : Nat.eqb _ _ = true |- _ => apply Nat.eqb_eq in H
    | H : Nat.eqb _ _ = false |- _ => apply Nat.eqb_neq in H
    | H : Z.ltb _ _ = true |- _ => apply Z.ltb_lt in H
    | H : Z.ltb _ _ = false |- _ => apply Z.ltb_ge in H
    | H : Z.leb _ _ = true |- _ => apply Z.leb_le in H
    | H : Z.leb _ _ = false |- _ => apply Z.leb_gt in H
    | H : Z.eqb _ _ = true |- _ => apply Z.eqb_eq in H
    | H : Z.eqb _ _ = false |- _ => apply Z.eqb_neq in H
    end.

(** Case analysis on the test of the first [if] of the goal. *)
Ltac case_if :=
  match goal with
  | |- context [if ?b then _ else _] => destruct b eqn:?; bool_to_prop
  end.

(** Open the hypotheses that say that an option computation returned. *)
Ltac inv_some :=
  repeat match goal with
    | H : Some _ = Some _ |- _ => injection H as H; subst
    | H : None = Some _ |- _ => discriminate H
    | H : mbind _ _ = Some _ |- _ => apply bind_Some in H as (? & ? & H)
    end.

(** ** Arrays

    A C++ array or [std::vector] is a list.  A read is [l !! i], a write is
    [vset], and [memmove] copies a block of one array; each returns [None] when
    the access is out of range, so that a computation that returns [Some] made
    no out-of-range access. *)

Section arrays.
Context {A : Type}.
Implicit Types l k : list A.

Definition vset (l : list A) (i : nat) (x : A) : option (list A) :=
  if Nat.ltb i (length l) then Some (<[i := x]> l) else None.

Definition memmove (l : list A) (dst src n : nat) : option (list A) :=
  if Nat.leb (src + n) (length l) && Nat.leb (dst + n) (length l)
  then Some (take dst l ++ take n (drop src l) ++ drop (dst + n) l)
  else None.

(** [std::vector::resize(n, x)]. *)
Definition vresize (l : list A) (n : nat) (x : A) : list A :=
  take n l ++ replicate (n - length l) x.

Lemma vset_Some l i x : i < length l → vset l i x = Some (<[i := x]> l).
Proof. intros. unfold vset. by rewrite (proj2 (Nat.ltb_lt _ _)). Qed.

Lemma memmove_Some l dst src n :
  src + n ≤ length l → dst + n ≤ length l →
  memmove l dst src n = Some (take dst l ++ take n (drop src l) ++ drop (dst + n) l).
Proof.
  intros. unfold memmove.
  rewrite (proj2 (Nat.leb_le _ _)), (proj2 (Nat.leb_le _ _)) by lia. done.
Qed.

Lemma memmove_length l dst src n l' :
  memmove l dst src n = Some l' → length l' = length l.
Proof.
  unfold memmove. case_if; intros; inv_some.
  rewrite !length_app, !length_take, !length_drop. lia.
Qed.

Lemma vresize_length l n x : length (vresize l n x) = n.
Proof. unfold vresize. rewrite length_app, length_take, length_replicate. lia. Qed.

Lemma take_vresize l n x i : i ≤ length l → i ≤ n → take i (vresize l n x) = take i l.
Proof.
  intros. unfold vresize. rewrite take_app_le by (rewrite length_take; lia).
  rewrite take_take. f_equal. lia.
Qed.

(** Moving the block [i, K) right by [d + 1] and writing [x] in front of it. *)
Lemma shift_block l i K d x :
  i ≤ K → K + d < length l →
  (l' ← memmove l (i + d + 1) i (K - i); vset l' (i + d) x)
  = Some (take (i + d) l ++ x :: take (K - i) (drop i l) ++ drop (K + d + 1) l).
Proof.
  intros Hi HK. rewrite memmove_Some by lia. simpl.
  rewrite vset_Some by (rewrite !length_app, !length_take, !length_drop; lia).
  f_equal.
  replace (i + d + 1 + (K - i)) with (K + d + 1) by lia.
  set (tl := take (K - i) (drop i l) ++ drop (K + d + 1) l).
  destruct (lookup_lt_is_Some_2 l (i + d)) as [y Hy]; [lia|].
  rewrite Nat.add_1_r, (take_S_r l (i + d) y Hy), <- app_assoc. simpl.
  rewrite insert_app_r_alt by (rewrite length_take; lia).
  rewrite length_take, Nat.min_l by lia. by rewrite Nat.sub_diag.
Qed.

(** The same as a statement on the first [K + 1] slots. *)
Lemma shift_insert_spec l i K x :
  i ≤ K → K < length l →
  ∃ l1 l2, memmove l (i + 1) i (K - i) = Some l1 ∧ vset l1 i x = Some l2
  ∧ take (S K) l2 = take i (take K l) ++ x :: drop i (take K l)
  ∧ drop (S K) l2 = drop (S K) l ∧ length l2 = length l.
Proof.
  intros Hi HK. pose proof (shift_block l i K 0 x Hi ltac:(lia)) as H.
  rewrite !Nat.add_0_r, (Nat.add_1_r K) in H.
  destruct (memmove l (i + 1) i (K - i)) as [l1|]; [|done]. simpl in H.
  exists l1. eexists. split; [done|]. split; [exact H|].
  rewrite take_take, Nat.min_l by lia. rewrite skipn_firstn_comm.
  set (a := take i l). set (m := take (K - i) (drop i l)). set (d := drop (S K) l).
  assert (length a = i) by (unfold a; rewrite length_take; lia).
  assert (length m = K - i) by (unfold m; rewrite length_take, length_drop; lia).
  assert (length d = length l - S K) by (unfold d; rewrite length_drop; lia).
  replace (a ++ x :: m ++ d) with ((a ++ x :: m) ++ d) by (by rewrite <- app_assoc).
  assert (length (a ++ x :: m) = S K) as Hlen by (rewrite length_app; simpl; lia).
  split; [|split].
  - by rewrite take_app_length' by done.
  - by rewrite drop_app_length' by done.
  - rewrite length_app, Hlen. lia.
Qed.

End arrays.

(** ** Counting

    The weight of a list of states, and how replacing one state changes it. *)
Definition count_by {A} (f : A → nat) (l : list A) : nat := sum_list_with f l.

Lemma count_by_insert {A} (f : A → nat) l i x y :
  l !! i = Some x → count_by f (<[i := y]> l) + f x = count_by f l + f y.
Proof.
  unfold count_by. revert i. induction l as [|z l IH]; intros [|i] Hi; simplify_eq/=; [lia|].
  specialize (IH i Hi). lia.
Qed.

Lemma count_by_app {A} (f : A → nat) l1 l2 : count_by f (l1 ++ l2) = count_by f l1 + count_by f l2.
Proof. apply sum_list_with_app. Qed.

Lemma count_by_lookup {A} (f : A → nat) l i x : l !! i = Some x → f x ≤ count_by f l.
Proof.
  unfold count_by. revert i. induction l as [|z l IH]; intros [|i] Hi; simplify_eq/=; [lia|].
  specialize (IH i Hi). lia.
Qed.

Lemma count_by_pair {A} (f : A → nat) l i j x y :
  i ≠ j → l !! i = Some x → l !! j = Some y → f x + f y ≤ count_by f l.
Proof.
  unfold count_by. revert i j. induction l as [|z l IH]; intros [|i] [|j] Hne Hi Hj; simplify_eq/=.
  - pose proof (count_by_lookup f l j y Hj). unfold count_by in *. lia.
  - pose proof (count_by_lookup f l i x Hi). unfold count_by in *. lia.
  - assert (f x + f y ≤ sum_list_with f l) by (apply (IH i j); congruence). lia.
Qed.

Lemma count_by_zero {A} (f : A → nat) l : (∀ i x, l !! i = Some x → f x = 0) → count_by f l = 0.
Proof.
  unfold count_by. induction l as [|x l IH]; intros Hf; simpl; [done|].
  rewrite (Hf 0 x), (IH (λ i, Hf (S i))); done.
Qed.
