(* ===== verification/Float32.v ===== *)
(** * IEEE-754 floats and doubles

    A C++ [float] is a [spec_float] of the standard library: executable
    IEEE-754 data with signed zeros, infinities and NaN.  The arithmetic
    operations are those of [SpecFloat] at precision 24 and exponent bound 128,
    the comparisons are [SFcompare]'s.  The file proves that the comparisons
    are a total preorder away from NaN, through a lexicographic key. *)

From Stdlib Require Import Floats.SpecFloat.
From S2P Require Import Prelude.

Abbreviation float := spec_float.

Definition f32_prec : Z := 24.
Definition f32_emax : Z := 128.

Definition fadd : float → float → float := SFadd f32_prec f32_emax.
Definition fsub : float → float → float := SFsub f32_prec f32_emax.
Definition fmul : float → float → float := SFmul f32_prec f32_emax.
Definition fdiv : float → float → float := SFdiv f32_prec f32_emax.

Definition flt (a b : float) : bool := SFltb a b.
Definition feq (a b : float) : bool := SFeqb a b.
Definition fle (a b : float) : bool := SFleb a b.
Definition fgt (a b : float) : bool := SFltb b a.
Definition fge (a b : float) : bool := SFleb b a.

(** [std::max(a, b)] is [a < b ? b : a]. *)
Definition fmax (a b : float) : float := if flt a b then b else a.

(** [std::numeric_limits<float>::max()] and [infinity()], and the constants
    the code writes as literals. *)
Definition FLT_MAX : float := S754_finite false 16777215 104.
Definition f_infinity : float := S754_infinity false.
Definition f_zero : float := S754_zero false.
Definition f_one : float := S754_finite false 8388608 (-23).

(** ** Doubles

    A C++ [double], at precision 53 and exponent bound 1024. *)

Definition double : Type := spec_float.
Definition dadd : double → double → double := SFadd 53 1024.
Definition dsub : double → double → double := SFsub 53 1024.
Definition dmul : double → double → double := SFmul 53 1024.
Definition ddiv : double → double → double := SFdiv 53 1024.
Definition dlt (a b : double) : bool := SFltb a b.
Definition dle (a b : double) : bool := SFleb a b.
Definition d_of_Z (z : Z) : double := binary_normalize 53 1024 z 0 false.
Definition d_zero : double := d_of_Z 0.
Definition d_one : double := d_of_Z 1.
(** [std::min(a, b)] is [b < a ? b : a]. *)
Definition dmin (a b : double) : double := if dlt b a then b else a.

(** A decimal literal [n / d]: the division rounds to the nearest double. *)
Definition ratio (n d : Z) : double := ddiv (d_of_Z n) (d_of_Z d).

(** The conversions [(unsigned) x] and [(uint64_t) x] of a number in range. *)
Definition sf_trunc (x : spec_float) : Z :=
  match x with S754_finite false m e => Z.shiftl (Z.pos m) e | _ => 0 end.
Definition d_to_unsigned (d : double) : Z := u32 (sf_trunc d).
Definition d_to_u64 (d : double) : Z := u64 (sf_trunc d).

Definition is_nan (a : float) : bool :=
  match a with S754_nan => true | _ => false end.

Abbreviation not_nan a := (is_nan a = false).

(** The position of a number on the line: class, exponent, mantissa. *)
Definition fkey (a : float) : Z * Z * Z :=
  match a with
  | S754_infinity true => (-2, 0, 0)
  | S754_finite true m e => (-1, - e, Z.neg m)
  | S754_zero _ => (0, 0, 0)
  | S754_finite false m e => (1, e, Z.pos m)
  | S754_infinity false => (2, 0, 0)
  | S754_nan => (3, 0, 0)
  end%Z.

Definition key_lt (x y : Z * Z * Z) : Prop :=
  (x.1.1 < y.1.1 ∨ x.1.1 = y.1.1 ∧ (x.1.2 < y.1.2 ∨ x.1.2 = y.1.2 ∧ x.2 < y.2))%Z.

Lemma key_lt_irrefl x : ¬ key_lt x x.
Proof. unfold key_lt. lia. Qed.

Lemma key_lt_trans x y z : key_lt x y → key_lt y z → key_lt x z.
Proof. unfold key_lt. lia. Qed.

Lemma key_lt_total x y : key_lt x y ∨ x = y ∨ key_lt y x.
Proof.
  destruct x as [[x1 x2] x3], y as [[y1 y2] y3]. unfold key_lt. simpl.
  destruct (Z.lt_total x1 y1) as [|[->|]]; [left; lia| |right; right; lia].
  destruct (Z.lt_total x2 y2) as [|[->|]]; [left; lia| |right; right; lia].
  destruct (Z.lt_total x3 y3) as [|[->|]]; [left; lia|by right; left|right; right; lia].
Qed.

(** [SFcompare] computes the order of the keys. *)
Definition cmp_spec (a b : float) (o : option comparison) : Prop :=
  match o with
  | Some Lt => key_lt (fkey a) (fkey b)
  | Some Eq => fkey a = fkey b
  | Some Gt => key_lt (fkey b) (fkey a)
  | None => False
  end.

Lemma SFcompare_spec a b : not_nan a → not_nan b → cmp_spec a b (SFcompare a b).
Proof.
  destruct a as [s|s| |s m e], b as [t|t| |t n f];
    intros Ha Hb; try discriminate; try (destruct s); try (destruct t);
    simpl; unfold key_lt; simpl; try lia; try reflexivity.
  all: destruct (Z.compare_spec e f); simpl; try lia.
  all: subst; change (Pos.compare_cont Eq m n) with (Pos.compare m n);
    destruct (Pos.compare_spec m n); simpl; subst; try lia; try reflexivity.
Qed.

Section order.
Implicit Types a b c : float.

Lemma flt_key a b : not_nan a → not_nan b → flt a b = true ↔ key_lt (fkey a) (fkey b).
Proof.
  intros Ha Hb. pose proof (SFcompare_spec a b Ha Hb) as H.
  unfold flt, SFltb. destruct (SFcompare a b) as [[]|]; simpl in H; try done.
  - rewrite H. split; [done|]. intros K. by apply key_lt_irrefl in K.
  - split; [done|]. intros K. by destruct (key_lt_irrefl _ (key_lt_trans _ _ _ K H)).
Qed.

Lemma feq_key a b : not_nan a → not_nan b → feq a b = true ↔ fkey a = fkey b.
Proof.
  intros Ha Hb. pose proof (SFcompare_spec a b Ha Hb) as H.
  unfold feq, SFeqb. destruct (SFcompare a b) as [[]|]; simpl in H; try done.
  - split; [done|]. intros K. rewrite K in H. by apply key_lt_irrefl in H.
  - split; [done|]. intros K. rewrite K in H. by apply key_lt_irrefl in H.
Qed.

Lemma fle_key a b :
  not_nan a → not_nan b → fle a b = true ↔ ¬ key_lt (fkey b) (fkey a).
Proof.
  intros Ha Hb. pose proof (SFcompare_spec a b Ha Hb) as H.
  unfold fle, SFleb. destruct (SFcompare a b) as [[]|]; simpl in H; try done.
  - rewrite H. split; [|done]. intros _. apply key_lt_irrefl.
  - split; [|done]. intros _ K. by destruct (key_lt_irrefl _ (key_lt_trans _ _ _ H K)).
Qed.

(** A comparison with a NaN is false. *)
Lemma flt_nan a b : flt a b = true → not_nan a ∧ not_nan b.
Proof. unfold flt, SFltb. by destruct a, b. Qed.

Lemma feq_nan a b : feq a b = true → not_nan a ∧ not_nan b.
Proof. unfold feq, SFeqb. by destruct a, b. Qed.

End order.

Lemma FLT_MAX_not_nan : not_nan FLT_MAX.
Proof. reflexivity. Qed.
