(* ===== verification/Neighbor.v ===== *)
(** * Graph neighbours and their order ([include/utils.h])

    [Neighbor] is the candidate record every search and every build step
    sorts: an id, a distance and the search bits.  The file holds its
    comparison operators, the reference notions of a sorted candidate list
    (insertion at the rank of an element, sorting) and the order lemmas. *)

From Stdlib Require Import Floats.SpecFloat.
From S2P Require Import Prelude Float32.

Record Neighbor := mkNeighbor {
  id : Z;
  distance : float;
  flag : bool;
  visited : bool;
  is_member : bool
}.

Global Instance float_eq_dec : EqDecision float.
Proof. solve_decision. Defined.
Global Instance Neighbor_eq_dec : EqDecision Neighbor.
Proof. solve_decision. Defined.

(** The two-argument constructor [Neighbor(id, distance)]. *)
Definition new_neighbor (i : Z) (d : float) : Neighbor := mkNeighbor i d true false false.

Definition set_visited (n : Neighbor) : Neighbor :=
  mkNeighbor (id n) (distance n) (flag n) true (is_member n).
Definition clear_flag (n : Neighbor) : Neighbor :=
  mkNeighbor (id n) (distance n) false (visited n) (is_member n).
Definition set_distance (d : float) (n : Neighbor) : Neighbor :=
  mkNeighbor (id n) d (flag n) (visited n) (is_member n).

(** [operator<], [operator>] and [operator>=]. *)
Definition nlt (a b : Neighbor) : bool :=
  flt (distance a) (distance b) || (feq (distance a) (distance b) && Z.ltb (id a) (id b)).
Definition ngt (a b : Neighbor) : bool :=
  fgt (distance a) (distance b) || (feq (distance a) (distance b) && Z.ltb (id b) (id a)).
Definition nge (a b : Neighbor) : bool :=
  fgt (distance a) (distance b) || (feq (distance a) (distance b) && Z.leb (id b) (id a)).

(** ** The order away from NaN *)

Definition ok (n : Neighbor) : Prop := not_nan (distance n).

(** The key a neighbour is sorted by. *)
Definition nkey (n : Neighbor) : Z * Z * Z * Z := (fkey (distance n), id n).

Definition nb_lt (a b : Neighbor) : Prop :=
  key_lt (fkey (distance a)) (fkey (distance b))
  ∨ fkey (distance a) = fkey (distance b) ∧ (id a < id b)%Z.

Create HintDb nbr discriminated.

Lemma nb_lt_irrefl a : ¬ nb_lt a a.
Proof. intros [H|[_ H]]; [by apply key_lt_irrefl in H|lia]. Qed.

Lemma nb_lt_trans a b c : nb_lt a b → nb_lt b c → nb_lt a c.
Proof.
  intros [H|[E H]] [K|[F K]]; unfold nb_lt.
  - left. by eapply key_lt_trans.
  - left. by rewrite <- F.
  - left. by rewrite E.
  - right. split; [congruence|lia].
Qed.

Lemma nb_lt_asym a b : nb_lt a b → ¬ nb_lt b a.
Proof. intros H K. by apply (nb_lt_irrefl a), (nb_lt_trans _ b). Qed.

Lemma nb_lt_total a b : nb_lt a b ∨ nkey a = nkey b ∨ nb_lt b a.
Proof.
  unfold nb_lt, nkey.
  destruct (key_lt_total (fkey (distance a)) (fkey (distance b))) as [|[E|]]; [by auto| |by auto].
  destruct (Z.lt_total (id a) (id b)) as [|[K|]]; [by auto| |by auto].
  right; left. congruence.
Qed.

Lemma nb_lt_ne_id a b : id a ≠ id b → ¬ nb_lt a b → nb_lt b a.
Proof.
  intros Hne H. destruct (nb_lt_total a b) as [|[E|]]; [done| |done].
  by injection E.
Qed.

Global Instance nb_lt_Transitive : Transitive nb_lt.
Proof. intros a b c. apply nb_lt_trans. Qed.

Section operators.
Context (a b : Neighbor) (Ha : ok a) (Hb : ok b).

Lemma nlt_spec : nlt a b = true ↔ nb_lt a b.
Proof.
  unfold nlt, nb_lt. rewrite orb_true_iff, andb_true_iff, Z.ltb_lt.
  rewrite flt_key, feq_key by done. done.
Qed.

Lemma ngt_spec : ngt a b = true ↔ nb_lt b a.
Proof.
  unfold ngt, nb_lt, fgt. rewrite orb_true_iff, andb_true_iff, Z.ltb_lt.
  rewrite feq_key by done. change (SFltb (distance b) (distance a)) with (flt (distance b) (distance a)).
  rewrite flt_key by done. naive_solver.
Qed.

Lemma nge_spec : nge a b = true ↔ ¬ nb_lt a b.
Proof.
  unfold nge, fgt. rewrite orb_true_iff, andb_true_iff, Z.leb_le.
  rewrite feq_key by done. change (SFltb (distance b) (distance a)) with (flt (distance b) (distance a)).
  rewrite flt_key by done. unfold nb_lt. split.
  - intros [H|[E H]] [K|[F K]].
    + by apply (key_lt_irrefl (fkey (distance a))), (key_lt_trans _ (fkey (distance b))).
    + rewrite F in H. by apply key_lt_irrefl in H.
    + rewrite E in K. by apply key_lt_irrefl in K.
    + lia.
  - intros H. destruct (key_lt_total (fkey (distance a)) (fkey (distance b))) as [K|[K|K]]; [tauto| |tauto].
    right. split; [done|]. destruct (Z.le_gt_cases (id b) (id a)); [done|]. destruct H. auto.
Qed.

Lemma nlt_false : nlt a b = false ↔ ¬ nb_lt a b.
Proof. rewrite <- nlt_spec. by destruct (nlt a b). Qed.
Lemma ngt_false : ngt a b = false ↔ ¬ nb_lt b a.
Proof. rewrite <- ngt_spec. by destruct (ngt a b). Qed.
Lemma nge_false : nge a b = false ↔ nb_lt a b.
Proof.
  pose proof nge_spec. destruct (nge a b); [naive_solver|].
  split; [|done]. intros _. destruct (nlt a b) eqn:E; [by apply nlt_spec|].
  apply nlt_false in E. naive_solver.
Qed.
End operators.

(** ** Sorted candidate lists *)

(** The candidates are strictly ascending in (distance, id). *)
Abbreviation nsorted := (StronglySorted nb_lt).

(** The position of [nn] in a sorted list: how many elements precede it. *)
Fixpoint rank (nn : Neighbor) (l : list Neighbor) : nat :=
  match l with
  | [] => 0
  | a :: l' => if nlt a nn then S (rank nn l') else 0
  end.

(** Reference insertion: [nn] goes in front of the first element that is not
    smaller. *)
Definition sorted_insert (nn : Neighbor) (l : list Neighbor) : list Neighbor :=
  take (rank nn l) l ++ nn :: drop (rank nn l) l.

(** [std::sort] by [operator<], as insertion sort (the result of [std::sort]
    is determined when no two elements compare equal). *)
Definition std_sort (l : list Neighbor) : list Neighbor := foldr sorted_insert [] l.

Section sorted_lists.
Implicit Types (l k : list Neighbor) (a x nn : Neighbor).

Lemma sorted_insert_nil nn : sorted_insert nn [] = [nn].
Proof. done. Qed.

Lemma sorted_insert_cons nn a l :
  sorted_insert nn (a :: l) = if nlt a nn then a :: sorted_insert nn l else nn :: a :: l.
Proof. unfold sorted_insert. simpl. by destruct (nlt a nn). Qed.

Lemma rank_le nn l : rank nn l ≤ length l.
Proof. induction l as [|a l IH]; simpl; [done|]. destruct (nlt a nn); lia. Qed.

Lemma rank_before nn l i a : l !! i = Some a → i < rank nn l → nlt a nn = true.
Proof.
  revert i. induction l as [|b l IH]; intros i Hi Hr; simpl in *; [lia|].
  destruct (nlt b nn) eqn:E; [|lia]. destruct i; simplify_eq/=; [done|].
  apply (IH i); [done|lia].
Qed.

Lemma rank_at nn l a : l !! rank nn l = Some a → nlt a nn = false.
Proof.
  induction l as [|b l IH]; simpl; [done|].
  destruct (nlt b nn) eqn:E; simpl; [done|]. intros; by simplify_eq.
Qed.

(** The rank is the only place where "smaller" turns into "not smaller". *)
Lemma rank_unique nn l i :
  i ≤ length l →
  (∀ j a, j < i → l !! j = Some a → nlt a nn = true) →
  (∀ a, l !! i = Some a → nlt a nn = false) →
  rank nn l = i.
Proof.
  intros Hi Hlt Hge. destruct (Nat.lt_total (rank nn l) i) as [H|[H|H]]; [|done|].
  - destruct (lookup_lt_is_Some_2 l (rank nn l)) as [a Ha]; [lia|].
    pose proof (Hlt _ _ H Ha). by rewrite (rank_at _ _ _ Ha) in *.
  - pose proof (rank_le nn l).
    destruct (lookup_lt_is_Some_2 l i) as [a Ha]; [lia|].
    pose proof (rank_before _ _ _ _ Ha H). by rewrite (Hge _ Ha) in *.
Qed.

Lemma sorted_insert_length nn l : length (sorted_insert nn l) = S (length l).
Proof.
  unfold sorted_insert. pose proof (rank_le nn l).
  rewrite length_app, length_cons, length_take, length_drop. lia.
Qed.

Lemma sorted_insert_Permutation nn l : sorted_insert nn l ≡ₚ nn :: l.
Proof.
  unfold sorted_insert. rewrite <- Permutation_middle. by rewrite take_drop.
Qed.

Lemma take_sorted_insert n nn l :
  take n (sorted_insert nn (take n l)) = take n (sorted_insert nn l).
Proof.
  revert n. induction l as [|a l IH]; intros [|n]; try done.
  simpl take at 2. rewrite !sorted_insert_cons. destruct (nlt a nn); simpl.
  - by rewrite IH.
  - f_equal. destruct n; simpl; [done|]. f_equal. rewrite take_take. f_equal. lia.
Qed.

Lemma std_sort_Permutation l : std_sort l ≡ₚ l.
Proof.
  induction l as [|a l IH]; [done|]. simpl. by rewrite sorted_insert_Permutation, IH.
Qed.

(** No element of [l] compares equal to [nn]. *)
Definition fresh nn l : Prop := id nn ∉ (id <$> l).

Lemma fresh_cons nn a l : fresh nn (a :: l) ↔ id nn ≠ id a ∧ fresh nn l.
Proof. unfold fresh. simpl. rewrite not_elem_of_cons. done. Qed.

Lemma fresh_app nn l k : fresh nn (l ++ k) ↔ fresh nn l ∧ fresh nn k.
Proof. unfold fresh. rewrite fmap_app, not_elem_of_app. done. Qed.

Lemma fresh_Permutation nn l k : l ≡ₚ k → fresh nn l → fresh nn k.
Proof. unfold fresh. by intros ->. Qed.

Lemma fresh_sublist nn l k : l `sublist_of` k → fresh nn k → fresh nn l.
Proof.
  unfold fresh. intros H Hk Hl. apply Hk. apply list_elem_of_fmap in Hl as (x & -> & Hx).
  apply list_elem_of_fmap_2. by eapply elem_of_sublist.
Qed.

Lemma fresh_lookup nn l i a : fresh nn l → l !! i = Some a → id nn ≠ id a.
Proof.
  unfold fresh. intros H Hi E. apply H. rewrite E. apply list_elem_of_fmap_2.
  by eapply list_elem_of_lookup_2.
Qed.

Lemma sorted_insert_sorted nn l :
  ok nn → Forall ok l → fresh nn l → nsorted l → nsorted (sorted_insert nn l).
Proof.
  intros Hnn. induction l as [|a l IH]; intros Hok Hf Hs.
  { repeat constructor. }
  apply Forall_cons in Hok as [Ha Hok]. apply fresh_cons in Hf as [Hne Hf].
  apply StronglySorted_inv in Hs as [Hs Hal].
  rewrite sorted_insert_cons. destruct (nlt a nn) eqn:E.
  - apply nlt_spec in E; [|done..]. constructor; [by apply IH|].
    rewrite sorted_insert_Permutation. by constructor.
  - apply nlt_false in E; [|done..].
    assert (nb_lt nn a) by (apply nb_lt_ne_id; [congruence|done]).
    constructor; [by constructor|]. constructor; [done|].
    eapply Forall_impl; [exact Hal|]. intros b Hb. by eapply nb_lt_trans.
Qed.

Lemma std_sort_sorted l :
  Forall ok l → NoDup (id <$> l) → nsorted (std_sort l).
Proof.
  induction l as [|a l IH]; simpl; intros Hok Hnd; [constructor|].
  apply Forall_cons in Hok as [Ha Hok]. apply NoDup_cons in Hnd as [Hn Hnd].
  apply sorted_insert_sorted; [done| | |by apply IH].
  - by rewrite std_sort_Permutation.
  - unfold fresh. by rewrite std_sort_Permutation.
Qed.

(** A sorted list is determined by its elements. *)
Lemma nsorted_unique l k : nsorted l → nsorted k → l ≡ₚ k → l = k.
Proof.
  apply (StronglySorted_unique_strong nb_lt).
  intros a b _ _ H K. by destruct (nb_lt_asym _ _ H K).
Qed.

Lemma nsorted_lookup l i j a b :
  nsorted l → l !! i = Some a → l !! j = Some b → i < j → nb_lt a b.
Proof.
  intros Hs. revert i j. induction Hs as [|c l Hs IH Hall]; intros i j Ha Hb Hij; [done|].
  destruct i, j; simplify_eq/=; try lia.
  - rewrite Forall_lookup in Hall. by eapply Hall.
  - eapply IH; [done..|lia].
Qed.

Lemma nsorted_NoDup l : nsorted l → NoDup l.
Proof.
  induction 1 as [|a l Hs IH Hall]; constructor; [|done].
  intros Ha. rewrite Forall_forall in Hall. apply (nb_lt_irrefl a). by apply Hall.
Qed.

Lemma nsorted_take l n : nsorted l → nsorted (take n l).
Proof.
  intros Hs. revert n. induction Hs as [|c l Hs IH Hall]; intros [|n]; simpl; try constructor; auto.
  by apply Forall_take.
Qed.

Lemma nsorted_drop l n : nsorted l → nsorted (drop n l).
Proof.
  intros Hs. revert n. induction Hs as [|c l Hs IH Hall]; intros [|n]; simpl; try constructor; auto.
Qed.

End sorted_lists.

#[export] Hint Resolve sorted_insert_sorted nsorted_take nsorted_drop : nbr.
