(* ===== verification/CandidatePool.v ===== *)
(** * The candidate pool of the graph searches ([include/candidate_pool.h])

    [CandidatePool] owns the array of candidates a search keeps sorted by
    (distance, id), and the two markers that walk it: [first_unvisited_], the
    expansion frontier, and [send_marker_], the read frontier.  The model keeps
    the whole backing array, with the slots past the live window, and every
    read, write and [memmove] is bounds checked: [None] is an out-of-range
    access.  Counters are [nat]: a pool is far smaller than [2^32], and the one
    subtraction that would wrap ([K - 1] at [K = 0] in [insert_into_pool]) is an
    out-of-range access in the model as in the code. *)

From S2P Require Import Prelude Float32 Neighbor.

Module Pool.

Record CandidatePool := mkPool {
  retset_ : list Neighbor;
  cur_list_size_ : nat;
  l_pool_ : nat;
  first_unvisited_ : nat;
  send_marker_ : nat
}.

(** The placeholder of unfilled slots. *)
Definition unfilled : Neighbor := new_neighbor 0 FLT_MAX.

Definition reset (l_pool capacity : nat) : CandidatePool :=
  mkPool (replicate (Nat.max capacity (l_pool + 1)) unfilled) 0 l_pool 0 0.

Definition size (p : CandidatePool) : nat := cur_list_size_ p.
Definition full (p : CandidatePool) : bool := Nat.eqb (cur_list_size_ p) (l_pool_ p).
Definition worst (p : CandidatePool) : option Neighbor := retset_ p !! (cur_list_size_ p - 1).

(** ** Insertion *)

(** The binary search of [insert_into_pool]. *)
Fixpoint bsearch (fuel : nat) (addr : list Neighbor) (nn : Neighbor) (lft rgt : nat)
    : option (nat * nat) :=
  if Nat.ltb 1 rgt && Nat.ltb lft (rgt - 1) then
    match fuel with
    | 0 => None
    | S fuel =>
        let mid := (lft + rgt) / 2 in
        a ← addr !! mid;
        if ngt a nn then bsearch fuel addr nn lft mid else bsearch fuel addr nn mid rgt
    end
  else Some (lft, rgt).

(** The walk back over the elements that are not smaller: [Some None] when it
    met the id of [nn]. *)
Fixpoint check_equal (addr : list Neighbor) (nn : Neighbor) (lft : nat) : option (option nat) :=
  match lft with
  | 0 => Some (Some 0)
  | S lft' =>
      a ← addr !! lft;
      if nlt a nn then Some (Some lft)
      else if Z.eqb (id a) (id nn) then Some None
      else check_equal addr nn lft'
  end.

Definition insert_into_pool (addr : list Neighbor) (K : nat) (nn : Neighbor)
    : option (nat * list Neighbor) :=
  a0 ← addr !! 0;
  if ngt a0 nn then
    addr1 ← memmove addr 1 0 K;
    addr2 ← vset addr1 0 nn;
    Some (0, addr2)
  else
    match K with
    | 0 => None
    | S rgt =>
        ar ← addr !! rgt;
        if nlt ar nn then
          addr1 ← vset addr K nn;
          Some (K, addr1)
        else
          '(lft, rgt) ← bsearch K addr nn 0 rgt;
          chk ← check_equal addr nn lft;
          match chk with
          | None => Some (K + 1, addr)
          | Some lft =>
              al ← addr !! lft;
              ar ← addr !! rgt;
              if Z.eqb (id al) (id nn) || Z.eqb (id ar) (id nn) then Some (K + 1, addr)
              else
                addr1 ← memmove addr (rgt + 1) rgt (K - rgt);
                addr2 ← vset addr1 rgt nn;
                Some (rgt, addr2)
          end
    end.

Definition insert (p : CandidatePool) (nn : Neighbor) : option (nat * CandidatePool) :=
  if Nat.eqb (cur_list_size_ p) 0 then
    rs ← vset (retset_ p) 0 nn;
    Some (0, mkPool rs 1 (l_pool_ p) 0 0)
  else
    w ← retset_ p !! (cur_list_size_ p - 1);
    if nge nn w && Nat.eqb (cur_list_size_ p) (l_pool_ p) then Some (l_pool_ p, p)
    else
      '(r, rs) ← insert_into_pool (retset_ p) (cur_list_size_ p) nn;
      let cur := if Nat.ltb (cur_list_size_ p) (l_pool_ p)
                 then S (cur_list_size_ p) else cur_list_size_ p in
      let rs := if Nat.ltb (cur_list_size_ p) (l_pool_ p) && Nat.leb (length rs) cur
                then vresize rs (2 * cur) unfilled else rs in
      Some (r, mkPool rs cur (l_pool_ p)
                 (if Nat.ltb r (first_unvisited_ p) then r else first_unvisited_ p)
                 (Nat.min (send_marker_ p) r)).

(** ** Batch insertion

    The parallel arrays [ids] and [dists] are one list of pairs: every
    statement of the code updates both at the same index. *)

Definition nb (x : Z * float) : Neighbor := new_neighbor x.1 x.2.

(** The compaction of a full pool: only candidates better than the worst. *)
Definition compact (w : Neighbor) (b : list (Z * float)) : list (Z * float) :=
  List.filter (λ x, nlt (nb x) w) b.

Definition pair_gt (y x : Z * float) : bool :=
  fgt y.2 x.2 || (feq y.2 x.2 && Z.ltb x.1 y.1).

(** The inner loop of the co-sort: shift right while greater, then store. *)
Fixpoint cosort_shift (b : list (Z * float)) (j : nat) (x : Z * float) : option (list (Z * float)) :=
  match j with
  | 0 => vset b 0 x
  | S j' =>
      y ← b !! j';
      if pair_gt y x then b' ← vset b j y; cosort_shift b' j' x
      else vset b j x
  end.

(** The outer loop of the co-sort, [n] rounds from index [i]. *)
Fixpoint cosort (n i : nat) (b : list (Z * float)) : option (list (Z * float)) :=
  match n with
  | 0 => Some b
  | S n' => x ← b !! i; b' ← cosort_shift b i x; cosort n' (S i) b'
  end.

(** The trim: [excess] times, drop the larger of the two last elements. *)
Fixpoint trim (rs : list Neighbor) (b : list (Z * float)) (excess retset_end new_end : nat)
    : option (nat * nat) :=
  match excess with
  | 0 => Some (retset_end, new_end)
  | S excess =>
      drop_pool ←
        (if Nat.eqb new_end 0 then Some true
         else if Nat.ltb 0 retset_end then
           a ← rs !! (retset_end - 1);
           x ← b !! (new_end - 1);
           Some (nge a (nb x))
         else Some false);
      if (drop_pool : bool) then trim rs b excess (retset_end - 1) new_end
      else trim rs b excess retset_end (new_end - 1)
  end.

(** [std::upper_bound] over a sorted range: the first element greater than
    [nn]. *)
Fixpoint upper_bound (nn : Neighbor) (l : list Neighbor) : nat :=
  match l with
  | [] => 0
  | a :: l' => if nlt nn a then 0 else S (upper_bound nn l')
  end.

(** The top-down merge of the first [j] batch elements into the first
    [seg_end] pool elements. *)
Fixpoint merge_down (rs : list Neighbor) (b : list (Z * float)) (j seg_end : nat)
    : option (list Neighbor * nat) :=
  match j with
  | 0 => Some (rs, seg_end)
  | S j' =>
      x ← b !! j';
      let pj := upper_bound (nb x) (take seg_end rs) in
      rs1 ← memmove rs (pj + j' + 1) pj (seg_end - pj);
      rs2 ← vset rs1 (pj + j') (nb x);
      merge_down rs2 b j' pj
  end.

Definition insert_batch (p : CandidatePool) (b : list (Z * float)) : option CandidatePool :=
  b ← (if full p then w ← worst p; Some (compact w b) else Some b);
  let n := length b in
  if Nat.eqb n 0 then Some p
  else
    b ← cosort (n - 1) 1 b;
    let tot := cur_list_size_ p + n in
    '(retset_end, new_end) ← trim (retset_ p) b (tot - l_pool_ p) (cur_list_size_ p) n;
    if Nat.eqb new_end 0 then Some p
    else
      '(rs, lowest) ← merge_down (retset_ p) b new_end retset_end;
      Some (mkPool rs (Nat.min tot (l_pool_ p)) (l_pool_ p)
              (if Nat.ltb lowest (first_unvisited_ p) then lowest else first_unvisited_ p)
              (Nat.min (send_marker_ p) lowest)).

(** ** Seeds *)

Definition seed (p : CandidatePool) (nn : Neighbor) : option CandidatePool :=
  rs ← vset (retset_ p) (cur_list_size_ p) nn;
  Some (mkPool rs (S (cur_list_size_ p)) (l_pool_ p) (first_unvisited_ p) (send_marker_ p)).

Fixpoint overwrite_distances (n i : nat) (rs : list Neighbor) (dists : list float)
    : option (list Neighbor) :=
  match n with
  | 0 => Some rs
  | S n' =>
      d ← dists !! i;
      a ← rs !! i;
      rs' ← vset rs i (set_distance d a);
      overwrite_distances n' (S i) rs' dists
  end.

Definition rescore_seeds (p : CandidatePool) (dists : list float) : option CandidatePool :=
  rs ← overwrite_distances (cur_list_size_ p) 0 (retset_ p) dists;
  Some (mkPool (std_sort (take (cur_list_size_ p) rs) ++ drop (cur_list_size_ p) rs)
          (cur_list_size_ p) (l_pool_ p) 0 0).

(** ** The frontiers *)

(** [while (i < cur && test(retset[i])) ++i], with [n] the distance to [cur]. *)
Fixpoint walk (test : Neighbor → bool) (rs : list Neighbor) (n i : nat) : option nat :=
  match n with
  | 0 => Some i
  | S n' => a ← rs !! i; if test a then walk test rs n' (S i) else Some i
  end.

Definition advance_to_flagged (p : CandidatePool) : option (nat * CandidatePool) :=
  i ← walk (λ a, negb (flag a)) (retset_ p) (cur_list_size_ p - send_marker_ p) (send_marker_ p);
  Some (i, mkPool (retset_ p) (cur_list_size_ p) (l_pool_ p) (first_unvisited_ p) i).

(** A [Neighbor *] into the pool is an index; [None] inside is [nullptr]. *)
Definition next_read_nbr (p : CandidatePool) : option (option nat * CandidatePool) :=
  '(i, p) ← advance_to_flagged p;
  Some (if Nat.ltb i (cur_list_size_ p) then Some i else None, p).

Definition skip_visited (p : CandidatePool) : option CandidatePool :=
  i ← walk visited (retset_ p) (cur_list_size_ p - first_unvisited_ p) (first_unvisited_ p);
  Some (mkPool (retset_ p) (cur_list_size_ p) (l_pool_ p) i (send_marker_ p)).

Definition update (p : CandidatePool) (i : nat) (f : Neighbor → Neighbor) : option CandidatePool :=
  a ← retset_ p !! i;
  rs ← vset (retset_ p) i (f a);
  Some (mkPool rs (cur_list_size_ p) (l_pool_ p) (first_unvisited_ p) (send_marker_ p)).

Fixpoint calc_loop (ready : Z → bool) (rs : list Neighbor) (n marker : nat) : option (option nat) :=
  match n with
  | 0 => Some None
  | S n' =>
      a ← rs !! marker;
      if negb (visited a) && ready (id a) then Some (Some marker)
      else calc_loop ready rs n' (S marker)
  end.

Definition next_calc_nbr (ready : Z → bool) (p : CandidatePool) : option (option nat * CandidatePool) :=
  o ← calc_loop ready (retset_ p) (cur_list_size_ p - first_unvisited_ p) (first_unvisited_ p);
  match o with
  | None => Some (None, p)
  | Some i => p' ← update p i (λ a, set_visited (clear_flag a)); Some (Some i, p')
  end.

Definition frontier (p : CandidatePool) : option (nat * CandidatePool) :=
  p ← skip_visited p;
  advance_to_flagged p.

Definition next_unvisited (p : CandidatePool) : option (option nat * CandidatePool) :=
  p ← skip_visited p;
  if Nat.leb (cur_list_size_ p) (first_unvisited_ p) then Some (None, p)
  else p' ← update p (first_unvisited_ p) set_visited; Some (Some (first_unvisited_ p), p').

Definition all_visited (p : CandidatePool) : option (bool * CandidatePool) :=
  p ← skip_visited p;
  Some (Nat.leb (cur_list_size_ p) (first_unvisited_ p), p).

(** [scan] with the accumulator its callers capture: the callback returns
    whether to stop. *)
Fixpoint scan_loop {S : Type} (fn : S → Neighbor → bool * S) (l : list Neighbor) (s : S) : S :=
  match l with
  | [] => s
  | a :: l' => let '(stop, s') := fn s a in if stop then s' else scan_loop fn l' s'
  end.

Definition scan {S : Type} (fn : S → Neighbor → bool * S) (p : CandidatePool) (s : S) : S :=
  scan_loop fn (take (cur_list_size_ p) (retset_ p)) s.

Definition drop_front (p : CandidatePool) (n : nat) : option CandidatePool :=
  rs ← memmove (retset_ p) 0 n (cur_list_size_ p - n);
  Some (mkPool rs (cur_list_size_ p - n) (l_pool_ p) 0 0).

(** ** The invariant *)

(** The live window. *)
Definition live (p : CandidatePool) : list Neighbor := take (cur_list_size_ p) (retset_ p).

(** The pool is within its bounds and its storage, and the live window is
    sorted and free of NaN. *)
Record wf (p : CandidatePool) : Prop := mkWf {
  wf_pos : 1 ≤ l_pool_ p;
  wf_cur : cur_list_size_ p ≤ l_pool_ p;
  wf_cap : l_pool_ p + 1 ≤ length (retset_ p);
  wf_ok : Forall ok (live p);
  wf_sorted : nsorted (live p);
  wf_fu : first_unvisited_ p ≤ cur_list_size_ p;
  wf_send : send_marker_ p ≤ cur_list_size_ p
}.

(** Everything before the calc marker is visited, everything before the read
    marker has its flag cleared. *)
Definition settled (p : CandidatePool) : Prop :=
  Forall (λ a, visited a = true) (take (first_unvisited_ p) (live p))
  ∧ Forall (λ a, flag a = false) (take (send_marker_ p) (live p)).

Section invariant_facts.
Context (p : CandidatePool) (Hwf : wf p).

Lemma live_length : length (live p) = cur_list_size_ p.
Proof. unfold live. rewrite length_take. destruct Hwf. lia. Qed.

Lemma live_lookup i a : live p !! i = Some a → retset_ p !! i = Some a ∧ i < cur_list_size_ p.
Proof.
  intros H. unfold live in H. apply lookup_take_Some in H as [? ?]. done.
Qed.

Lemma retset_lookup i :
  i < cur_list_size_ p → ∃ a, retset_ p !! i = Some a ∧ live p !! i = Some a ∧ ok a.
Proof.
  intros Hi. destruct (lookup_lt_is_Some_2 (live p) i) as [a Ha].
  { rewrite live_length. done. }
  exists a. split; [by apply live_lookup|]. split; [done|].
  pose proof (wf_ok p Hwf) as Hok. rewrite Forall_lookup in Hok. eauto.
Qed.

End invariant_facts.

Lemma wf_reset l c : 1 ≤ l → wf (reset l c).
Proof.
  intros. constructor; simpl; try (unfold live; simpl; constructor); try lia.
  rewrite length_replicate. lia.
Qed.

(** ** [insert_into_pool] inserts at the rank *)

Section insert_into_pool_correct.
Context (addr : list Neighbor) (K : nat) (nn : Neighbor).
Let P := take K addr.
Context (HK : 0 < K) (Hcap : K < length addr).
Context (Hok : Forall ok P) (Hnn : ok nn) (Hs : nsorted P) (Hf : fresh nn P).

Lemma prefix_lookup i : i < K → ∃ a, addr !! i = Some a ∧ P !! i = Some a ∧ ok a ∧ id a ≠ id nn.
Proof.
  intros Hi. destruct (lookup_lt_is_Some_2 addr i) as [a Ha]; [lia|].
  assert (P !! i = Some a) as HP by (unfold P; by rewrite lookup_take_lt).
  exists a. split_and!; [done..| |].
  - rewrite Forall_lookup in Hok. eauto.
  - pose proof (fresh_lookup _ _ _ _ Hf HP). done.
Qed.

(** [i] is the rank when its left neighbour is smaller and it is not. *)
Lemma rank_boundary i :
  i ≤ K →
  (∀ a, 0 < i → P !! (i - 1) = Some a → nb_lt a nn) →
  (∀ a, P !! i = Some a → ¬ nb_lt a nn) →
  rank nn P = i.
Proof.
  intros Hi Hlt Hge. apply rank_unique.
  - unfold P. rewrite length_take. lia.
  - intros j a Hj Ha.
    assert (ok a) by (rewrite Forall_lookup in Hok; eauto).
    apply nlt_spec; [done..|].
    destruct (prefix_lookup (i - 1)) as (b & _ & Hb & _); [lia|].
    specialize (Hlt b ltac:(lia) Hb).
    destruct (decide (j = i - 1)) as [->|]; [congruence|].
    eapply nb_lt_trans; [|exact Hlt]. eapply nsorted_lookup; [exact Hs|done..|lia].
  - intros a Ha. assert (ok a) by (rewrite Forall_lookup in Hok; eauto).
    apply nlt_false; eauto.
Qed.

Lemma bsearch_correct fuel l r :
  r - l ≤ fuel → l < r → r < K →
  (∃ a, P !! l = Some a ∧ nb_lt a nn) → (∃ a, P !! r = Some a ∧ nb_lt nn a) →
  ∃ l', bsearch fuel addr nn l r = Some (l', rank nn P) ∧ S l' = rank nn P ∧ l' < K.
Proof.
  revert l r. induction fuel as [|fuel IH]; intros l r Hfuel Hlr HrK Hl Hr; [lia|].
  cbn [bsearch]. case_if.
  - pose proof (Nat.div_mod_eq (l + r) 2). pose proof (Nat.mod_upper_bound (l + r) 2).
    set (mid := (l + r) / 2) in *.
    destruct (prefix_lookup mid) as (a & -> & Ha & Hoka & Hne); [lia|]. simpl.
    destruct (ngt a nn) eqn:Eg.
    + apply ngt_spec in Eg; [|done..]. apply IH; [lia..|done|]. eauto.
    + apply ngt_false in Eg; [|done..]. apply IH; [lia..| |done].
      exists a. split; [done|]. apply nb_lt_ne_id; [congruence|done].
  - destruct Hl as (a & Ha & Hal), Hr as (b & Hb & Hbr).
    assert (r = S l) as ->.
    { rewrite andb_false_iff in Heqb. destruct Heqb; bool_to_prop; lia. }
    assert (rank nn P = S l) as ->; [|by eauto with lia].
    apply rank_boundary; [lia| |].
    + intros c _ Hc. replace (S l - 1) with l in Hc by lia. congruence.
    + intros c Hc. assert (c = b) as -> by congruence. by apply nb_lt_asym.
Qed.

Lemma check_equal_correct i a :
  P !! i = Some a → nb_lt a nn → i < K → check_equal addr nn i = Some (Some i).
Proof.
  intros Hi Hlt HiK. destruct i as [|i]; [done|]. simpl.
  destruct (prefix_lookup (S i)) as (b & -> & Hb & Hokb & _); [done|]. simpl.
  assert (b = a) as -> by congruence.
  by rewrite (proj2 (nlt_spec a nn Hokb Hnn) Hlt).
Qed.

(** The result: position [rank nn P], and the first [K + 1] slots hold the
    reference insertion. *)
Lemma insert_into_pool_correct :
  ∃ addr', insert_into_pool addr K nn = Some (rank nn P, addr')
  ∧ take (S K) addr' = sorted_insert nn P ∧ length addr' = length addr.
Proof.
  set (r := rank nn P).
  assert (HrK : r ≤ K) by (unfold r; pose proof (rank_le nn P); unfold P in *;
                           rewrite length_take in *; lia).
  assert (rank nn (take K addr) = r) as HrP by done.
  destruct (shift_insert_spec addr r K nn HrK Hcap) as (l1 & l2 & Hmv & Hset & Htk & _ & Hlen).
  destruct (prefix_lookup 0) as (a0 & Ha0 & HP0 & Hok0 & Hne0); [done|].
  unfold insert_into_pool. rewrite Ha0. simpl.
  destruct (ngt a0 nn) eqn:E0.
  { apply ngt_spec in E0; [|done..].
    assert (r = 0) as Hr0.
    { apply rank_boundary; [lia..|]. intros a Ha. assert (a = a0) as -> by congruence.
      by apply nb_lt_asym. }
    rewrite Hr0 in *. rewrite Nat.sub_0_r in Hmv. simpl in Hmv. rewrite Hmv. simpl.
    rewrite Hset. simpl. eexists. split; [done|]. unfold sorted_insert. by fold r; rewrite Hr0. }
  apply ngt_false in E0; [|done..]. apply nb_lt_ne_id in E0; [|congruence].
  assert (∃ right, K = S right) as [right EK] by (exists (K - 1); lia).
  rewrite EK. cbv iota. rewrite <- EK.
  destruct (prefix_lookup right) as (ar & Har & HPr & Hokr & Hner); [lia|].
  rewrite Har. simpl. destruct (nlt ar nn) eqn:Er.
  { apply nlt_spec in Er; [|done..].
    assert (r = K) as Hr.
    { apply rank_boundary; [lia| |].
      - intros a _ Ha. replace (K - 1) with right in Ha by lia. congruence.
      - intros a Ha. apply lookup_lt_Some in Ha. unfold P in Ha. rewrite length_take in Ha. lia. }
    rewrite Hr in *. rewrite Nat.sub_diag in Hmv.
    rewrite memmove_Some in Hmv by lia. simpl in Hmv. rewrite Nat.add_0_r, take_drop in Hmv.
    inv_some. rewrite Hset. simpl. eexists. split; [done|]. unfold sorted_insert. by fold r; rewrite Hr. }
  apply nlt_false in Er; [|done..]. apply nb_lt_ne_id in Er; [|congruence].
  assert (0 < right).
  { destruct right; [|lia]. assert (ar = a0) as -> by congruence. by destruct (nb_lt_asym _ _ E0). }
  destruct (bsearch_correct K 0 right) as (l' & -> & Hl' & Hl'K); [lia..|eauto|eauto|].
  fold r in Hl' |- *. simpl.
  destruct (prefix_lookup l') as (al & Hal & HPl & Hokl & Hnel); [done|].
  assert (nb_lt al nn).
  { apply nlt_spec; [done..|]. eapply rank_before; [exact HPl|]. fold r. lia. }
  rewrite (check_equal_correct l' al) by done. simpl. rewrite Hal. simpl.
  assert (r < K).
  { destruct (decide (r = K)) as [Heq|]; [|lia].
    assert (nlt ar nn = true) as Hlt by (eapply rank_before; [exact HPr|]; fold r; lia).
    apply nlt_spec in Hlt; [|done..]. by destruct (nb_lt_asym _ _ Er). }
  destruct (prefix_lookup r) as (ap & Hap & HPp & Hokp & Hnep); [done|].
  rewrite Hap. simpl.
  rewrite (proj2 (Z.eqb_neq _ _) Hnel), (proj2 (Z.eqb_neq _ _) Hnep). simpl.
  rewrite Hmv. simpl. rewrite Hset. simpl. eauto.
Qed.
End insert_into_pool_correct.

(** ** [insert] *)

(** What the pool holds after inserting: the [l_pool_] closest of the union. *)
Definition top (n : nat) (nn : Neighbor) (l : list Neighbor) : list Neighbor :=
  take n (sorted_insert nn l).

(** The effect of one insertion on the state. *)
Record inserted (p p' : CandidatePool) (nn : Neighbor) : Prop := mkInserted {
  ins_wf : wf p';
  ins_lpool : l_pool_ p' = l_pool_ p;
  ins_live : live p' = top (l_pool_ p) nn (live p);
  ins_fu : first_unvisited_ p' = Nat.min (first_unvisited_ p) (rank nn (live p));
  ins_send : send_marker_ p' = Nat.min (send_marker_ p) (rank nn (live p))
}.

Section insert_correct.
Context (p : CandidatePool) (nn : Neighbor).
Context (Hwf : wf p) (Hnn : ok nn) (Hf : fresh nn (live p)).

Lemma top_wf : Forall ok (top (l_pool_ p) nn (live p)) ∧ nsorted (top (l_pool_ p) nn (live p)).
Proof.
  destruct Hwf. unfold top. split.
  - apply Forall_take. rewrite sorted_insert_Permutation. by constructor.
  - auto with nbr.
Qed.

(** A rejected candidate ranks behind the whole (full) window. *)
Lemma reject_rank w :
  worst p = Some w → 0 < cur_list_size_ p → nge nn w = true → rank nn (live p) = cur_list_size_ p.
Proof.
  intros Hw Hpos Hge. destruct (retset_lookup p Hwf (cur_list_size_ p - 1)) as (a & Ha & Hla & Hoka); [lia|].
  unfold worst in Hw. assert (a = w) as -> by congruence.
  apply nge_spec in Hge; [|done..].
  assert (nb_lt w nn).
  { apply nb_lt_ne_id; [|done]. by eapply fresh_lookup. }
  apply rank_unique.
  - by rewrite live_length.
  - intros j b Hj Hb. pose proof (wf_ok p Hwf) as Hok. rewrite Forall_lookup in Hok.
    apply nlt_spec; [eauto..|].
    destruct (decide (j = cur_list_size_ p - 1)) as [->|]; [congruence|].
    eapply nb_lt_trans; [|done]. eapply nsorted_lookup; [apply Hwf|done..|lia].
  - intros b Hb. apply lookup_lt_Some in Hb. rewrite live_length in Hb by done. lia.
Qed.

(** At a full pool the cutoff is exact: a candidate better than the worst has a
    rank inside the window. *)
Lemma accept_rank w :
  worst p = Some w → 0 < cur_list_size_ p → nge nn w = false → rank nn (live p) < cur_list_size_ p.
Proof.
  intros Hw Hpos Hge. destruct (retset_lookup p Hwf (cur_list_size_ p - 1)) as (a & Ha & Hla & Hoka); [lia|].
  unfold worst in Hw. assert (a = w) as -> by congruence.
  apply nge_false in Hge; [|done..].
  destruct (Nat.lt_ge_cases (rank nn (live p)) (cur_list_size_ p)); [done|].
  assert (nlt w nn = true) as Hlt by (eapply rank_before; [exact Hla|lia]).
  apply nlt_spec in Hlt; [|done..]. by destruct (nb_lt_asym _ _ Hlt).
Qed.

Lemma top_full : cur_list_size_ p = l_pool_ p → rank nn (live p) = l_pool_ p →
  top (l_pool_ p) nn (live p) = live p.
Proof.
  intros Hfull Hr. unfold top, sorted_insert. rewrite Hr.
  rewrite take_app_le by (rewrite length_take, live_length by done; lia).
  rewrite take_take, Nat.min_id. apply take_ge. rewrite live_length by done. lia.
Qed.

Lemma rank_le_cur : rank nn (live p) ≤ cur_list_size_ p.
Proof. pose proof (rank_le nn (live p)). by rewrite live_length in *. Qed.

(** The state [insert] builds from the array [insert_into_pool] returns. *)
Lemma inserted_state rs cur :
  take (S (cur_list_size_ p)) rs = sorted_insert nn (live p) →
  cur = Nat.min (S (cur_list_size_ p)) (l_pool_ p) →
  l_pool_ p + 1 ≤ length rs → rank nn (live p) < l_pool_ p →
  inserted p (mkPool rs cur (l_pool_ p)
                (if Nat.ltb (rank nn (live p)) (first_unvisited_ p)
                 then rank nn (live p) else first_unvisited_ p)
                (Nat.min (send_marker_ p) (rank nn (live p)))) nn.
Proof.
  intros Htake Hcur Hlen Hr. pose proof rank_le_cur.
  assert (Hlive : take cur rs = top (l_pool_ p) nn (live p)).
  { unfold top. rewrite <- Htake, take_take. f_equal. lia. }
  destruct top_wf as [Hok Hs].
  assert (Hfu : (if Nat.ltb (rank nn (live p)) (first_unvisited_ p)
                 then rank nn (live p) else first_unvisited_ p)
                = Nat.min (first_unvisited_ p) (rank nn (live p))) by (case_if; lia).
  rewrite Hfu. split; unfold live; simpl; try done.
  destruct Hwf. split; unfold live; simpl; try lia; by rewrite Hlive.
Qed.

Lemma insert_correct :
  ∃ p', insert p nn = Some (Nat.min (rank nn (live p)) (l_pool_ p), p') ∧ inserted p p' nn.
Proof.
  pose proof Hwf as [Hpos Hcur Hcap Hok Hs Hfu Hsend]. pose proof rank_le_cur as Hrk.
  unfold insert. case_if.
  - assert (live p = []) as Hl by (unfold live; by rewrite Heqb).
    rewrite vset_Some by lia. simpl. eexists. rewrite Hl. simpl. split; [done|].
    pose proof (inserted_state (<[0:=nn]> (retset_ p)) 1) as H. rewrite Hl in H.
    cbn [rank] in H. rewrite Nat.min_0_r in H.
    replace (first_unvisited_ p) with 0 in H by lia. cbn [Nat.ltb Nat.leb] in H.
    apply H; [|lia|by rewrite length_insert|lia].
    rewrite Heqb. destruct (retset_ p); [simpl in *; lia|done].
  - destruct (retset_lookup p Hwf (cur_list_size_ p - 1)) as (w & Hw & Hlw & Hokw); [lia|].
    rewrite Hw. simpl. case_if.
    + rewrite (reject_rank w) in * by (done || lia). rewrite H0, Nat.min_id.
      eexists. split; [done|].
      split; [done|done| | |].
      * symmetry. apply top_full; [done|]. rewrite (reject_rank w) by (done || lia). done.
      * rewrite (reject_rank w) by (done || lia). lia.
      * rewrite (reject_rank w) by (done || lia). lia.
    + assert (Hrl : rank nn (live p) < l_pool_ p).
      { destruct (decide (cur_list_size_ p = l_pool_ p)) as [E|]; [|lia].
        rewrite andb_false_iff in Heqb0. destruct Heqb0 as [Hg|]; [|bool_to_prop; lia].
        rewrite <- E. apply (accept_rank w); [done|lia|done]. }
      destruct (insert_into_pool_correct (retset_ p) (cur_list_size_ p) nn)
        as (rs & Hi & Htk & Hlen); [lia..|done|done|done|done|].
      fold (live p) in Hi, Htk. rewrite Hi. simpl.
      rewrite (Nat.min_l (rank nn (live p))) by lia. eexists. split; [done|].
      apply inserted_state.
      * case_if; [|done]. rewrite take_vresize; [done|lia|]. revert H0. case_if; lia.
      * case_if; lia.
      * case_if; [|lia]. rewrite vresize_length. revert H0. case_if; lia.
      * done.
Qed.
End insert_correct.

Lemma take_top k n nn l : k ≤ rank nn l → take k (top n nn l) = take (Nat.min k n) l.
Proof.
  intros Hk. unfold top, sorted_insert. pose proof (rank_le nn l).
  rewrite take_take, take_app_le by (rewrite length_take; lia).
  rewrite take_take. f_equal. lia.
Qed.

Lemma inserted_settled p p' nn : inserted p p' nn → settled p → settled p'.
Proof.
  intros [_ Hl Hlive Hfu Hsend] [Hv Hg]. unfold settled.
  rewrite Hlive, Hfu, Hsend, !take_top by lia.
  split.
  - replace (Nat.min _ (l_pool_ p)) with
      (Nat.min (Nat.min (rank nn (live p)) (l_pool_ p)) (first_unvisited_ p)) by lia.
    rewrite <- take_take. by apply Forall_take.
  - replace (Nat.min _ (l_pool_ p)) with
      (Nat.min (Nat.min (rank nn (live p)) (l_pool_ p)) (send_marker_ p)) by lia.
    rewrite <- take_take. by apply Forall_take.
Qed.

(** ** A sequence of insertions *)

Fixpoint insert_all (p : CandidatePool) (b : list (Z * float)) : option CandidatePool :=
  match b with
  | [] => Some p
  | x :: b' => '(_, p') ← insert p (nb x); insert_all p' b'
  end.

(** The reference: fold the sorted insertion over the batch. *)
Definition union (l : list Neighbor) (b : list (Z * float)) : list Neighbor :=
  foldl (λ l x, sorted_insert (nb x) l) l b.

(** The smallest rank of a batch element. *)
Definition min_rank (m : nat) (l : list Neighbor) (b : list (Z * float)) : nat :=
  foldr (λ x m, Nat.min (rank (nb x) l) m) m b.

Section sequences.
Implicit Types (l : list Neighbor) (b : list (Z * float)).

Lemma rank_take nn k l : rank nn (take k l) = Nat.min k (rank nn l).
Proof.
  revert k. induction l as [|a l IH]; intros [|k]; simpl; try done.
  destruct (nlt a nn); [|done]. by rewrite IH.
Qed.

Lemma rank_same_prefix nn k l l' :
  take k l = take k l' → Nat.min k (rank nn l) = Nat.min k (rank nn l').
Proof. intros H. by rewrite <- !rank_take, H. Qed.

Lemma min_rank_le m l b : min_rank m l b ≤ m.
Proof. induction b as [|x b IH]; simpl; lia. Qed.

Lemma min_rank_min m r l b : min_rank (Nat.min m r) l b = Nat.min r (min_rank m l b).
Proof. induction b as [|x b IH]; simpl; lia. Qed.

Lemma min_rank_same_prefix m l l' b :
  take m l = take m l' → min_rank m l b = min_rank m l' b.
Proof.
  intros H. induction b as [|x b IH]; simpl; [done|].
  pose proof (rank_same_prefix (nb x) _ _ _ H). pose proof (min_rank_le m l b). lia.
Qed.

Lemma take_union n l b : take n (union (take n l) b) = take n (union l b).
Proof.
  revert l. induction b as [|x b IH]; intros l; simpl; [by rewrite take_take, Nat.min_id|].
  rewrite <- IH, take_sorted_insert. by rewrite IH.
Qed.

Lemma union_Permutation l b : union l b ≡ₚ (nb <$> b) ++ l.
Proof.
  revert l. induction b as [|x b IH]; intros l; simpl; [done|].
  rewrite IH, sorted_insert_Permutation. by rewrite Permutation_middle.
Qed.

Lemma union_sorted l b :
  Forall ok l → Forall ok (nb <$> b) → NoDup (id <$> (nb <$> b) ++ l) → nsorted l →
  nsorted (union l b).
Proof.
  revert l. induction b as [|x b IH]; intros l Hl Hb Hnd Hs; simpl in *; [done|].
  apply Forall_cons in Hb as [Hx Hb]. apply NoDup_cons in Hnd as [Hn Hnd].
  assert (fresh (nb x) l) by (rewrite fmap_app in Hn; unfold fresh; set_solver).
  apply IH; [|done| |by apply sorted_insert_sorted].
  - rewrite sorted_insert_Permutation. by constructor.
  - rewrite sorted_insert_Permutation, <- Permutation_middle. by constructor.
Qed.

(** A batch the pool can take: no NaN, and ids distinct from each other and
    from the pool's (the searches' visited set guarantees it). *)
Definition batch_ok l b : Prop :=
  Forall ok (nb <$> b) ∧ NoDup (id <$> (nb <$> b) ++ l).

(** The state after a sequence of insertions. *)
Record batch_inserted (p p' : CandidatePool) (b : list (Z * float)) : Prop := mkBatchInserted {
  bi_wf : wf p';
  bi_lpool : l_pool_ p' = l_pool_ p;
  bi_live : live p' = take (l_pool_ p) (union (live p) b);
  bi_fu : first_unvisited_ p' = min_rank (first_unvisited_ p) (live p) b;
  bi_send : send_marker_ p' = min_rank (send_marker_ p) (live p) b
}.

Lemma batch_ok_cons l x b n :
  batch_ok l (x :: b) → ok (nb x) ∧ fresh (nb x) l ∧ batch_ok (top n (nb x) l) b.
Proof.
  intros [Hok Hnd]. simpl in *. apply Forall_cons in Hok as [Hx Hok].
  apply NoDup_cons in Hnd as [Hn Hnd]. rewrite fmap_app in Hn.
  split_and!; [done|unfold fresh; set_solver|]. split; [done|].
  assert (Hnd' : NoDup (id <$> (nb <$> b) ++ sorted_insert (nb x) l)).
  { rewrite sorted_insert_Permutation, <- Permutation_middle. simpl.
    constructor; [|done]. by rewrite fmap_app. }
  unfold top. rewrite <- (take_drop n (sorted_insert (nb x) l)), app_assoc, fmap_app in Hnd'.
  by apply NoDup_app in Hnd' as [? _].
Qed.

Lemma insert_all_correct p b :
  wf p → batch_ok (live p) b → ∃ p', insert_all p b = Some p' ∧ batch_inserted p p' b.
Proof.
  revert p. induction b as [|x b IH]; intros p Hwf Hb.
  { exists p. split; [done|]. split; simpl; try done.
    rewrite take_ge; [done|]. rewrite live_length by done. apply Hwf. }
  destruct (batch_ok_cons _ _ _ (l_pool_ p) Hb) as (Hx & Hf & Hb').
  destruct (insert_correct p (nb x) Hwf Hx Hf) as (p1 & Hi & [Hwf1 Hl1 Hlive1 Hfu1 Hs1]).
  destruct (IH p1 Hwf1) as (p' & Hp' & [Hwf' Hl' Hlive' Hfu' Hs']); [by rewrite Hlive1|].
  exists p'. simpl. rewrite Hi. simpl. split; [done|].
  assert (Hmark : ∀ m, m ≤ cur_list_size_ p →
    min_rank (Nat.min m (rank (nb x) (live p))) (live p1) b
    = Nat.min (rank (nb x) (live p)) (min_rank m (live p) b)).
  { intros m Hm. rewrite <- min_rank_min. apply min_rank_same_prefix.
    rewrite Hlive1, take_top by lia. f_equal. destruct Hwf. lia. }
  split; [done|congruence| | |].
  - rewrite Hlive', Hl1, Hlive1. unfold top. by rewrite take_union.
  - rewrite Hfu', Hfu1. apply Hmark, Hwf.
  - rewrite Hs', Hs1. apply Hmark, Hwf.
Qed.

End sequences.

(** ** The frontiers *)

Lemma walk_correct test rs n i :
  i + n ≤ length rs →
  ∃ j, walk test rs n i = Some j ∧ i ≤ j ≤ i + n
  ∧ (∀ k a, i ≤ k < j → rs !! k = Some a → test a = true)
  ∧ (j < i + n → ∃ a, rs !! j = Some a ∧ test a = false).
Proof.
  revert i. induction n as [|n IH]; intros i Hn; simpl.
  { exists i. split_and!; [done|lia|lia|intros; lia|intros; lia]. }
  destruct (lookup_lt_is_Some_2 rs i) as [a Ha]; [lia|]. rewrite Ha. simpl.
  destruct (test a) eqn:E.
  - destruct (IH (S i)) as (j & -> & Hj & Hall & Hend); [lia|].
    exists j. split_and!; [done|lia|lia| |intros; apply Hend; lia].
    intros k c Hk Hc. destruct (decide (k = i)) as [->|]; [congruence|]. apply (Hall k c); [lia|done].
  - exists i. split_and!; [done|lia|lia|intros; lia|]. eauto.
Qed.

(** Replacing a live candidate by one with the same key. *)
Lemma update_correct p i f :
  wf p → i < cur_list_size_ p → (∀ a, nkey (f a) = nkey a ∧ (ok a → ok (f a))) →
  ∃ p', update p i f = Some p' ∧ wf p' ∧ live p' = alter f i (live p)
  ∧ cur_list_size_ p' = cur_list_size_ p ∧ l_pool_ p' = l_pool_ p
  ∧ first_unvisited_ p' = first_unvisited_ p ∧ send_marker_ p' = send_marker_ p.
Proof.
  intros Hwf Hi Hf. destruct (retset_lookup p Hwf i Hi) as (a & Ha & Hla & Hoka).
  pose proof Hwf as [? ? ? Hok Hs ? ?].
  unfold update. rewrite Ha. simpl. rewrite vset_Some by lia. simpl.
  assert (Hlive : take (cur_list_size_ p) (<[i:=f a]> (retset_ p)) = alter f i (live p)).
  { rewrite take_insert_lt by done. fold (live p). symmetry.
    apply list_eq. intros k. destruct (decide (k = i)) as [->|].
    - rewrite list_lookup_alter_eq, Hla. simpl. symmetry. apply list_lookup_insert_eq.
      by rewrite live_length.
    - by rewrite list_lookup_alter_ne, list_lookup_insert_ne. }
  eexists. split; [done|]. split_and!; try done.
  split; unfold live; simpl; try done; [by rewrite length_insert| |].
  - rewrite Hlive. apply Forall_alter; [done|]. intros. by apply Hf.
  - rewrite Hlive. clear -Hs Hf. revert i.
    assert (Hk : ∀ a c, nb_lt a c → ∀ a' c', nkey a' = nkey a → nkey c' = nkey c → nb_lt a' c').
    { intros a c H a' c' E1 E2. unfold nkey in *. injection E1 as E1 F1. injection E2 as E2 F2.
      unfold nb_lt. by rewrite E1, F1, E2, F2. }
    induction Hs as [|c l Hs IH Hall]; intros i; [constructor|].
    destruct i as [|i]; simpl.
    + constructor; [done|]. eapply Forall_impl; [exact Hall|].
      intros x Hx. eapply Hk; [exact Hx|apply Hf|done].
    + constructor; [apply IH|]. apply Forall_alter; [done|].
      intros x _ Hx. eapply Hk; [exact Hx|done|apply Hf].
Qed.

Lemma set_visited_key a : nkey (set_visited a) = nkey a ∧ (ok a → ok (set_visited a)).
Proof. done. Qed.
Lemma clear_flag_key a : nkey (clear_flag a) = nkey a ∧ (ok a → ok (clear_flag a)).
Proof. done. Qed.
Lemma pick_key a :
  nkey (set_visited (clear_flag a)) = nkey a ∧ (ok a → ok (set_visited (clear_flag a))).
Proof. done. Qed.

(** The marker of the settled prefix may advance over settled candidates. *)
Lemma settled_extend (Q : Neighbor → Prop) (l : list Neighbor) i j :
  Forall Q (take i l) → (∀ k a, i ≤ k < j → l !! k = Some a → Q a) → Forall Q (take j l).
Proof.
  rewrite !Forall_lookup. intros H1 H2 k a Hk. apply lookup_take_Some in Hk as [Hk Hkj].
  destruct (Nat.lt_ge_cases k i); [|eauto]. apply (H1 k). by rewrite lookup_take_lt.
Qed.

Lemma skip_visited_correct p :
  wf p → settled p →
  ∃ p', skip_visited p = Some p' ∧ wf p' ∧ settled p'
  ∧ retset_ p' = retset_ p ∧ cur_list_size_ p' = cur_list_size_ p ∧ l_pool_ p' = l_pool_ p
  ∧ send_marker_ p' = send_marker_ p
  ∧ (first_unvisited_ p' < cur_list_size_ p →
     ∃ a, live p !! first_unvisited_ p' = Some a ∧ visited a = false).
Proof.
  intros Hwf [Hv Hg]. pose proof Hwf as [? ? ? ? ? ? ?]. unfold skip_visited.
  destruct (walk_correct visited (retset_ p) (cur_list_size_ p - first_unvisited_ p) (first_unvisited_ p))
    as (j & -> & Hj & Hall & Hend); [lia|]. simpl.
  eexists. split; [done|]. split_and!; try done.
  - split; try done; simpl; lia.
  - split; [|exact Hg]. eapply settled_extend; [exact Hv|].
    intros k a Hk Ha. eapply Hall; [exact Hk|]. by apply lookup_take_Some in Ha as [? _].
  - simpl. intros Hlt. destruct Hend as (a & Ha & Hva); [lia|]. exists a. split; [|done].
    unfold live. by rewrite lookup_take_lt.
Qed.

Lemma advance_to_flagged_correct p :
  wf p → settled p →
  ∃ i p', advance_to_flagged p = Some (i, p') ∧ wf p' ∧ settled p'
  ∧ retset_ p' = retset_ p ∧ cur_list_size_ p' = cur_list_size_ p ∧ l_pool_ p' = l_pool_ p
  ∧ first_unvisited_ p' = first_unvisited_ p ∧ send_marker_ p' = i ∧ i ≤ cur_list_size_ p
  ∧ (i < cur_list_size_ p → ∃ a, live p !! i = Some a ∧ flag a = true).
Proof.
  intros Hwf [Hv Hg]. pose proof Hwf as [? ? ? ? ? ? ?]. unfold advance_to_flagged.
  destruct (walk_correct (λ a, negb (flag a)) (retset_ p) (cur_list_size_ p - send_marker_ p) (send_marker_ p))
    as (j & -> & Hj & Hall & Hend); [lia|]. simpl.
  eexists _, _. split; [done|]. split_and!; try done.
  - split; try done; simpl; lia.
  - split; [exact Hv|]. eapply settled_extend; [exact Hg|].
    intros k a Hk Ha. apply lookup_take_Some in Ha as [Ha _].
    specialize (Hall k a Hk Ha). by apply negb_true_iff in Hall.
  - lia.
  - simpl. intros Hlt. destruct Hend as (a & Ha & Hva); [lia|]. exists a.
    apply negb_false_iff in Hva. split; [|done]. unfold live. by rewrite lookup_take_lt.
Qed.

End Pool.
