(* ===== verification/PoolBatch.v ===== *)
(** * Batch insertion into the candidate pool ([include/candidate_pool.h])

    [CandidatePool::insert_batch] merges a batch of candidates in one backward
    pass.  The file proves the contract its comment states: the final pool and
    markers are those of calling [insert] on each element.  The proof follows
    the passes of the code: compaction of a full pool, insertion co-sort, trim
    to the pool size, top-down merge by block moves. *)

From S2P Require Import Prelude Float32 Neighbor CandidatePool.
Import Pool.

(** ** Batch insertion: the compaction *)

Lemma rank_behind nn l :
  ok nn → Forall ok l → (∀ a, a ∈ l → nb_lt a nn) → rank nn l = length l.
Proof.
  intros Hnn Hok H. apply rank_unique; [done| |].
  - intros j a _ Ha. apply list_elem_of_lookup_2 in Ha.
    apply nlt_spec; [by eapply Forall_forall in Hok|done|by apply H].
  - intros a Ha. apply lookup_lt_Some in Ha. lia.
Qed.

Lemma take_insert_behind n nn l :
  n ≤ length l → rank nn (take n l) = n → take n (sorted_insert nn l) = take n l.
Proof.
  intros Hn Hr. rewrite <- take_sorted_insert. unfold sorted_insert. rewrite Hr.
  rewrite take_take, Nat.min_id, take_app_le by (rewrite length_take; lia).
  by rewrite take_take, Nat.min_id.
Qed.

Section compaction.
Context (n : nat) (w : Neighbor) (Hw : ok w).

(** The kept window has no element behind [w]. *)
Definition bounded_by (l : list Neighbor) : Prop :=
  n ≤ length l ∧ Forall ok l ∧ ∀ a, a ∈ take n l → ¬ nb_lt w a.

Lemma behind_window l x :
  bounded_by l → ok x → fresh x l → nlt x w = false → rank x (take n l) = n.
Proof.
  intros (Hn & Hok & Hb) Hx Hf Hlt. apply nlt_false in Hlt; [|done..].
  rewrite rank_behind.
  - rewrite length_take. lia.
  - done.
  - by apply Forall_take.
  - intros a Ha. apply list_elem_of_lookup_1 in Ha as Hi. destruct Hi as [i Hi].
    apply lookup_take_Some in Hi as [Hi _].
    apply nb_lt_ne_id; [by eapply fresh_lookup|]. intros Hxa. apply (Hb a Ha).
    destruct (nb_lt_total w x) as [Hwx|[E|Hwx]]; [by eapply nb_lt_trans| |done].
    unfold nkey in E. injection E as E1 E2. unfold nb_lt. by rewrite E1, E2.
Qed.

Lemma bounded_insert l x :
  bounded_by l → ok x → nlt x w = true → bounded_by (sorted_insert x l).
Proof.
  intros (Hn & Hok & Hb) Hx Hlt. apply nlt_spec in Hlt; [|done..]. split_and!.
  - rewrite sorted_insert_length. lia.
  - rewrite sorted_insert_Permutation. by constructor.
  - intros a Ha. rewrite <- take_sorted_insert in Ha.
    apply (elem_of_sublist _ (sorted_insert x (take n l))) in Ha; [|apply sublist_take].
    rewrite sorted_insert_Permutation in Ha. apply elem_of_cons in Ha as [->|Ha]; [|by apply Hb].
    by apply nb_lt_asym.
Qed.

Lemma compact_union l b :
  bounded_by l → batch_ok l b →
  take n (union l (compact w b)) = take n (union l b).
Proof.
  revert l. induction b as [|x b IH]; intros l Hl Hb; [done|]. simpl.
  destruct (batch_ok_cons _ _ _ (S (length l)) Hb) as (Hx & Hf & Hb').
  unfold top in Hb'. rewrite take_ge in Hb' by (rewrite sorted_insert_length; lia).
  destruct (nlt (nb x) w) eqn:E; simpl.
  - apply IH; [by apply bounded_insert|done].
  - rewrite <- (take_union n (sorted_insert (nb x) l)).
    rewrite take_insert_behind; [|apply Hl|by apply behind_window].
    rewrite take_union. apply IH; [done|].
    destruct Hb' as [Hok Hnd]. split; [done|].
    rewrite sorted_insert_Permutation, <- Permutation_middle in Hnd. by apply NoDup_cons in Hnd as [_ ?].
Qed.

Lemma compact_min_rank m l b :
  bounded_by l → batch_ok l b → m ≤ n →
  min_rank m l (compact w b) = min_rank m l b.
Proof.
  intros Hl [Hok Hnd] Hm. induction b as [|x b IH]; [done|]. simpl in *.
  apply Forall_cons in Hok as [Hx Hok]. apply NoDup_cons in Hnd as [Hn Hnd].
  specialize (IH Hok Hnd). destruct (nlt (nb x) w) eqn:E; simpl; [by rewrite IH|].
  rewrite IH. rewrite fmap_app in Hn.
  assert (rank (nb x) (take n l) = n) by (apply behind_window; [done..|unfold fresh; set_solver|done]).
  rewrite rank_take in *. pose proof (min_rank_le m l b). lia.
Qed.

Lemma compact_ok l b : batch_ok l b → batch_ok l (compact w b).
Proof.
  intros [Hok Hnd]. induction b as [|x b IH]; [done|]. simpl in *.
  apply Forall_cons in Hok as [Hx Hok]. apply NoDup_cons in Hnd as [Hn Hnd].
  destruct (IH Hok Hnd) as [Hok' Hnd'].
  destruct (nlt (nb x) w); [|done]. split; simpl; [by constructor|]. constructor; [|done].
  rewrite fmap_app in *. intros Hin. apply Hn.
  apply elem_of_app in Hin as [Hin|Hin]; apply elem_of_app; [left|by right].
  unfold compact in Hin. rewrite list_elem_of_fmap in Hin. destruct Hin as (y & -> & Hy).
  apply list_elem_of_fmap_2. rewrite list_elem_of_fmap in Hy. destruct Hy as (z & -> & Hz).
  apply list_elem_of_fmap_2. rewrite list_elem_of_In, filter_In, <- list_elem_of_In in Hz. tauto.
Qed.
End compaction.

(** ** Batch insertion: the co-sort *)

Section cosort_correct.
Implicit Types b : list (Z * float).

Lemma pair_gt_ngt y x : pair_gt y x = ngt (nb y) (nb x).
Proof. done. Qed.

Lemma sorted_insert_snoc nn l a :
  nlt a nn = false → sorted_insert nn (l ++ [a]) = sorted_insert nn l ++ [a].
Proof.
  intros Ha. induction l as [|c l IH]; simpl; [by rewrite sorted_insert_cons, Ha|].
  rewrite !sorted_insert_cons. destruct (nlt c nn); [|done]. by rewrite IH.
Qed.

Lemma sorted_insert_behind nn l :
  rank nn l = length l → sorted_insert nn l = l ++ [nn].
Proof. intros H. unfold sorted_insert. by rewrite H, drop_all, take_ge by lia. Qed.

Lemma nsorted_snoc l a x : nsorted (l ++ [a]) → nb_lt a x → ∀ c, c ∈ l ++ [a] → nb_lt c x.
Proof.
  intros Hs Hax c Hc. apply elem_of_app in Hc as [Hc|Hc%list_elem_of_singleton]; [|by subst].
  apply StronglySorted_app in Hs as (Hs & _ & _).
  eapply nb_lt_trans; [|exact Hax]. apply Hs; [done|]. by apply list_elem_of_singleton.
Qed.

Lemma cosort_shift_correct b j x :
  j < length b → ok (nb x) → Forall ok (nb <$> take j b) → fresh (nb x) (nb <$> take j b) →
  nsorted (nb <$> take j b) →
  ∃ b', cosort_shift b j x = Some b' ∧ nb <$> take (S j) b' = sorted_insert (nb x) (nb <$> take j b)
  ∧ drop (S j) b' = drop (S j) b ∧ length b' = length b.
Proof.
  revert b. induction j as [|j IH]; intros b Hj Hx Hok Hf Hs; simpl.
  { rewrite vset_Some by done. destruct b as [|y b]; [simpl in *; lia|]. by eexists. }
  destruct (lookup_lt_is_Some_2 b j) as [y Hy]; [lia|]. rewrite Hy. simpl.
  rewrite (take_S_r _ _ _ Hy), fmap_app in Hok, Hf, Hs |- *. simpl in *.
  apply Forall_app in Hok as [Hok Hy1]. apply Forall_cons in Hy1 as [Hy1 _].
  apply fresh_app in Hf as [Hf Hf1]. apply fresh_cons in Hf1 as [Hf1 _].
  rewrite pair_gt_ngt. destruct (ngt (nb y) (nb x)) eqn:E.
  - rewrite vset_Some by done. simpl.
    assert (Ht : take j (<[S j:=y]> b) = take j b) by (by rewrite take_insert_ge by lia).
    destruct (IH (<[S j:=y]> b)) as (b' & -> & Htk & Hdr & Hlen);
      rewrite ?length_insert, ?Ht; try done; [lia|by apply StronglySorted_app_1_l in Hs|].
    rewrite length_insert in Hlen. exists b'. split; [done|].
    assert (Hd : drop (S j) b' = y :: drop (S (S j)) b).
    { rewrite Hdr, (drop_S _ y (S j)) by (by apply list_lookup_insert_eq). f_equal.
      rewrite drop_insert_lt by lia. done. }
    split_and!; [| |lia].
    + apply ngt_spec in E; [|done..].
      rewrite sorted_insert_snoc by (apply nlt_false; [done..|]; by apply nb_lt_asym).
      rewrite (take_S_r b' (S j) y) by
        (by rewrite <- (Nat.add_0_r (S j)), <- lookup_drop, Hd).
      by rewrite fmap_app, Htk, Ht.
    + replace (S (S j)) with (S j + 1) at 1 by lia. rewrite <- drop_drop, Hd. done.
  - rewrite vset_Some by done. eexists. split; [done|]. rewrite length_insert.
    split_and!; [| |done].
    + apply ngt_false in E; [|done..]. apply nb_lt_ne_id in E; [|congruence].
      rewrite (take_S_r _ (S j) x) by (by apply list_lookup_insert_eq).
      rewrite take_insert_ge, fmap_app, (take_S_r _ _ _ Hy), fmap_app by lia. simpl.
      rewrite sorted_insert_behind; [done|]. apply rank_behind; [done|by apply Forall_app; auto|].
      by apply nsorted_snoc.
    + by rewrite drop_insert_lt by lia.
Qed.

Lemma cosort_correct n i b :
  i + n = length b → Forall ok (nb <$> b) → NoDup (id <$> (nb <$> b)) → nsorted (nb <$> take i b) →
  ∃ b', cosort n i b = Some b' ∧ nsorted (nb <$> b') ∧ (nb <$> b') ≡ₚ (nb <$> b).
Proof.
  revert i b. induction n as [|n IH]; intros i b Hn Hok Hnd Hs; simpl.
  { exists b. by rewrite take_ge in Hs by lia. }
  destruct (lookup_lt_is_Some_2 b i) as [x Hx]; [lia|]. rewrite Hx. simpl.
  pose proof (take_drop_middle _ _ _ Hx) as Hb.
  rewrite <- Hb, fmap_app in Hok, Hnd. rewrite fmap_cons in Hok, Hnd.
  apply Forall_app in Hok as [Hok1 Hok2]. apply Forall_cons in Hok2 as [Hokx Hok2].
  rewrite fmap_app in Hnd. pose proof Hnd as Hnd0. apply NoDup_app in Hnd as (Hnd1 & Hdis & Hnd2).
  destruct (cosort_shift_correct b i x) as (b1 & -> & Htk & Hdr & Hlen); [lia|done..| |done|].
  { unfold fresh. intros Hin. apply (Hdis _ Hin). simpl. set_solver. }
  simpl.
  assert (Hperm : (nb <$> b1) ≡ₚ (nb <$> b)).
  { rewrite <- (take_drop (S i) b1), <- Hb, !fmap_app, Htk, Hdr, sorted_insert_Permutation.
    simpl. by rewrite Permutation_middle. }
  destruct (IH (S i) b1) as (b' & -> & Hs' & Hp'); [lia| | | |].
  - rewrite Hperm, <- Hb, fmap_app, fmap_cons. apply Forall_app. auto.
  - rewrite Hperm, <- Hb, fmap_app, fmap_cons, fmap_app. done.
  - rewrite Htk. apply sorted_insert_sorted; [done..| |done].
    unfold fresh. intros Hin. apply (Hdis _ Hin). simpl. set_solver.
  - exists b'. split; [done|]. split; [done|]. by rewrite Hp'.
Qed.
End cosort_correct.

(** ** Batch insertion: the trim *)

Section trim_correct.
Context (rs P B : list Neighbor) (b : list (Z * float)).
Context (HB : B = nb <$> b) (HP : ∀ i a, P !! i = Some a → rs !! i = Some a).
Context (HPok : Forall ok P) (HBok : Forall ok B) (HPs : nsorted P) (HBs : nsorted B).
Context (Hdis : ∀ a y, a ∈ P → y ∈ B → id a ≠ id y).

(** Every dropped pool element is behind every kept batch element, and every
    dropped batch element behind every kept pool element. *)
Definition cut (re ne : nat) : Prop :=
  (∀ i a j y, re ≤ i → P !! i = Some a → j < ne → B !! j = Some y → nb_lt y a)
  ∧ (∀ i a j y, i < re → P !! i = Some a → ne ≤ j → B !! j = Some y → nb_lt a y).

Lemma sorted_le l i j a c :
  nsorted l → l !! i = Some a → l !! j = Some c → i ≤ j → a = c ∨ nb_lt a c.
Proof.
  intros Hs Ha Hc Hij. destruct (decide (i = j)) as [->|]; [left; congruence|right].
  eapply nsorted_lookup; [done..|lia].
Qed.

Lemma cut_drop_pool re ne a y :
  0 < re → P !! (re - 1) = Some a → B !! (ne - 1) = Some y → nb_lt y a → cut re ne → cut (re - 1) ne.
Proof.
  intros Hre Ha Hy Hya [H1 H2]. split.
  - intros i c j z Hi Hc Hj Hz. destruct (decide (i = re - 1)) as [->|].
    + assert (c = a) as -> by congruence.
      destruct (sorted_le B j (ne - 1) z y) as [->|]; [done..|lia|done|by eapply nb_lt_trans].
    + eapply (H1 i c j z); [lia|done..].
  - intros i c j z Hi. apply H2. lia.
Qed.

Lemma cut_drop_batch re ne :
  (∀ a y, P !! (re - 1) = Some a → B !! (ne - 1) = Some y → 0 < re → nb_lt a y) →
  0 < ne → re ≤ length P → cut re ne → cut re (ne - 1).
Proof.
  intros Hlt Hne Hre [H1 H2]. split.
  - intros i c j z Hi Hc Hj. apply (H1 i c j z Hi Hc). lia.
  - intros i c j z Hi Hc Hj Hz. destruct (decide (j = ne - 1)) as [->|].
    + destruct (lookup_lt_is_Some_2 P (re - 1)) as [a Ha]; [lia|].
      specialize (Hlt a z Ha Hz ltac:(lia)).
      destruct (sorted_le P i (re - 1) c a) as [->|]; [done..|lia|done|by eapply nb_lt_trans].
    + eapply (H2 i c j z); [done..|lia|done].
Qed.

Lemma trim_correct excess re ne :
  excess ≤ re + ne → re ≤ length P → ne ≤ length B → cut re ne →
  ∃ re' ne', trim rs b excess re ne = Some (re', ne')
  ∧ re' + ne' = re + ne - excess ∧ re' ≤ re ∧ ne' ≤ ne ∧ cut re' ne'.
Proof.
  revert re ne. induction excess as [|e IH]; intros re ne He Hre Hne Hcut; simpl.
  { exists re, ne. split_and!; [done|lia..|done]. }
  case_if; simpl.
  { destruct (IH (re - 1) ne) as (re' & ne' & -> & ? & ? & ? & ?); [lia..| |by eauto 10 with lia].
    destruct Hcut as [_ H2]. split; [intros; lia|]. intros i c j z Hi. apply H2. lia. }
  destruct (lookup_lt_is_Some_2 B (ne - 1)) as [y Hy]; [lia|].
  assert (∃ x, b !! (ne - 1) = Some x ∧ y = nb x) as (x & Hx & ->).
  { rewrite HB, list_lookup_fmap in Hy. apply fmap_Some in Hy as (x & ? & ?). eauto. }
  assert (Hdrop : (∀ a z, P !! (re - 1) = Some a → B !! (ne - 1) = Some z → 0 < re → nb_lt a z) →
    ∃ re' ne', trim rs b e re (ne - 1) = Some (re', ne')
    ∧ re' + ne' = re + ne - S e ∧ re' ≤ re ∧ ne' ≤ ne ∧ cut re' ne').
  { intros Hlt. destruct (IH re (ne - 1)) as (re' & ne' & -> & ? & ? & ? & ?); [lia..| |by eauto 10 with lia].
    apply cut_drop_batch; [done|lia|lia|done]. }
  case_if; simpl; [|by apply Hdrop; intros; lia].
  destruct (lookup_lt_is_Some_2 P (re - 1)) as [a Ha]; [lia|].
  rewrite (HP _ _ Ha), Hx. simpl.
  assert (ok a) by (rewrite Forall_lookup in HPok; eauto).
  assert (ok (nb x)) by (rewrite Forall_lookup in HBok; eauto).
  destruct (nge a (nb x)) eqn:E.
  - apply nge_spec in E; [|done..].
    destruct (IH (re - 1) ne) as (re' & ne' & -> & ? & ? & ? & ?); [lia..| |by eauto 10 with lia].
    eapply cut_drop_pool; [done..| |done]. apply nb_lt_ne_id; [|done].
    apply Hdis; by eapply list_elem_of_lookup_2.
  - apply nge_false in E; [|done..]. apply Hdrop. intros c z Hc Hz _. congruence.
Qed.

(** The kept elements are the first of the union. *)
Lemma cut_take re ne U K :
  re ≤ length P → ne ≤ length B → cut re ne →
  nsorted U → U ≡ₚ P ++ B → nsorted K → K ≡ₚ take re P ++ take ne B →
  NoDup (id <$> P ++ B) → take (re + ne) U = K.
Proof.
  intros Hre Hne [H1 H2] HU HUp HK HKp Hnd.
  set (R := std_sort (drop re P ++ drop ne B)).
  assert (HRp : R ≡ₚ drop re P ++ drop ne B) by apply std_sort_Permutation.
  assert (Hall : (take re P ++ take ne B) ++ (drop re P ++ drop ne B) ≡ₚ P ++ B).
  { rewrite <- (take_drop re P) at 3. rewrite <- (take_drop ne B) at 3. solve_Permutation. }
  assert (HRs : nsorted R).
  { apply std_sort_sorted.
    - apply Forall_app. split; by apply Forall_drop.
    - rewrite <- Hall, fmap_app in Hnd. by apply NoDup_app in Hnd as (_ & _ & ?). }
  assert (HKR : nsorted (K ++ R)).
  { apply StronglySorted_app_2; [|done..]. intros c d Hc Hd.
    rewrite HKp in Hc. rewrite HRp in Hd.
    apply elem_of_app in Hc as [(i & Hi)%list_elem_of_lookup|(i & Hi)%list_elem_of_lookup];
    apply elem_of_app in Hd as [(j & Hj)%list_elem_of_lookup|(j & Hj)%list_elem_of_lookup];
      apply lookup_take_Some in Hi as [Hi ?]; rewrite lookup_drop in Hj.
    - eapply nsorted_lookup; [exact HPs|done..|lia].
    - eapply (H2 i c (ne + j) d); [done..|lia|done].
    - eapply (H1 (re + j) d i c); [lia|done..].
    - eapply nsorted_lookup; [exact HBs|done..|lia]. }
  rewrite (nsorted_unique U (K ++ R)); [|done..|].
  - rewrite take_app_le, take_ge; [done| |]; rewrite HKp, length_app, !length_take; lia.
  - by rewrite HUp, HKp, HRp, Hall.
Qed.

End trim_correct.

(** ** Batch insertion: the merge *)

Lemma upper_bound_rank nn l : ok nn → Forall ok l → fresh nn l → upper_bound nn l = rank nn l.
Proof.
  intros Hnn. induction l as [|a l IH]; intros Hok Hf; simpl; [done|].
  apply Forall_cons in Hok as [Ha Hok]. apply fresh_cons in Hf as [Hne Hf].
  rewrite IH by done.
  destruct (nlt nn a) eqn:E1, (nlt a nn) eqn:E2; try done.
  - apply nlt_spec in E1, E2; try done. by destruct (nb_lt_asym _ _ E1).
  - apply nlt_false in E1, E2; try done. apply nb_lt_ne_id in E1; [done|congruence].
Qed.

Lemma rank_mono x nn l : ok x → ok nn → Forall ok l → nb_lt x nn → rank x l ≤ rank nn l.
Proof.
  intros Hx Hnn Hok Hlt. destruct (Nat.le_gt_cases (rank x l) (rank nn l)) as [|Hgt]; [done|].
  pose proof (rank_le x l).
  destruct (lookup_lt_is_Some_2 l (rank nn l)) as [a Ha]; [lia|].
  assert (ok a) by (rewrite Forall_lookup in Hok; eauto).
  pose proof (rank_before _ _ _ _ Ha Hgt) as H1. pose proof (rank_at _ _ _ Ha) as H2.
  apply nlt_spec in H1; [|done..]. apply nlt_false in H2; [|done..].
  destruct H2. by eapply nb_lt_trans.
Qed.

(** One step of the merge on the array. *)
Lemma merge_step (rs : list Neighbor) seg pj j nn :
  pj ≤ seg → seg + j < length rs →
  ∃ rs1 rs2, memmove rs (pj + j + 1) pj (seg - pj) = Some rs1 ∧ vset rs1 (pj + j) nn = Some rs2
  ∧ take pj rs2 = take pj rs
  ∧ drop (pj + j) rs2 = nn :: drop pj (take seg rs) ++ drop (seg + S j) rs
  ∧ length rs2 = length rs.
Proof.
  intros Hpj Hseg. pose proof (shift_block rs pj seg j nn Hpj Hseg) as H.
  destruct (memmove rs (pj + j + 1) pj (seg - pj)) as [rs1|] eqn:E; [|done]. simpl in H.
  exists rs1. eexists. split; [done|]. split; [exact H|].
  rewrite <- skipn_firstn_comm. replace (seg + j + 1) with (seg + S j) by lia.
  split_and!.
  - rewrite take_app_le by (rewrite length_take; lia). rewrite take_take. f_equal. lia.
  - rewrite drop_app_length' by (rewrite length_take; lia). done.
  - rewrite !length_app. simpl. rewrite !length_app, !length_drop, !length_take. lia.
Qed.

Lemma merge_down_correct rs b j seg :
  let P := take seg rs in let B := nb <$> take j b in
  seg + j ≤ length rs → j ≤ length b → Forall ok (P ++ B) → nsorted P → nsorted B →
  (∀ a y, a ∈ P → y ∈ B → id a ≠ id y) →
  ∃ rs' low, merge_down rs b j seg = Some (rs', low)
  ∧ nsorted (take (seg + j) rs') ∧ take (seg + j) rs' ≡ₚ P ++ B
  ∧ drop (seg + j) rs' = drop (seg + j) rs ∧ length rs' = length rs
  ∧ (j = 0 → low = seg) ∧ (∀ x, 0 < j → b !! 0 = Some x → low = rank (nb x) P).
Proof.
  revert rs seg. induction j as [|j IH]; intros rs seg P B Hlen Hj Hok HP HB Hdis; simpl.
  { exists rs, seg. rewrite Nat.add_0_r. unfold B. simpl. rewrite app_nil_r.
    split_and!; [done..|lia]. }
  destruct (lookup_lt_is_Some_2 b j) as [x Hx]; [lia|]. rewrite Hx. simpl.
  set (nn := nb x). set (B' := nb <$> take j b).
  assert (HBe : B = B' ++ [nn]) by (unfold B; by rewrite (take_S_r _ _ _ Hx), fmap_app).
  apply Forall_app in Hok as [HokP HokB]. rewrite HBe in HB, HokB, Hdis |- *.
  apply Forall_app in HokB as [HokB' HokN]. apply Forall_cons in HokN as [HokN _].
  apply StronglySorted_app in HB as (HBn & HB & _).
  assert (Hfn : fresh nn P).
  { unfold fresh. intros (a & Ha & Hin)%list_elem_of_fmap. apply (Hdis a nn); [done|set_solver|done]. }
  rewrite upper_bound_rank by done. fold P.
  set (pj := rank nn P).
  assert (Hpj : pj ≤ seg).
  { pose proof (rank_le nn P). unfold pj, P in *. rewrite length_take in *. lia. }
  destruct (merge_step rs seg pj j nn Hpj) as (rs1 & rs2 & -> & Hset & Htk & Hdr & Hlen2); [lia|].
  simpl. rewrite Hset. simpl.
  assert (Htk' : take pj rs2 = take pj P).
  { rewrite Htk. unfold P. rewrite take_take. f_equal. lia. }
  pose proof (IH rs2 pj) as IH'. simpl in IH'. rewrite Htk' in IH'.
  destruct IH' as (rs' & low & -> & Hs' & Hp' & Hd' & Hl' & Hlow0 & Hlow);
    [lia|lia|apply Forall_app; split; [by apply Forall_take|done]|by apply nsorted_take|done| |].
  { intros a y Ha Hy. apply Hdis; [|set_solver]. eapply elem_of_sublist; [done|apply sublist_take]. }
  exists rs', low. split; [done|].
  assert (Htake : take (seg + S j) rs' = take (pj + j) rs' ++ nn :: drop pj P).
  { rewrite <- (take_drop (pj + j) rs') at 1. rewrite Hd', Hdr. fold P.
    rewrite app_comm_cons, app_assoc, take_app_le; [apply take_ge|];
      rewrite !length_app; simpl; rewrite !length_take, !length_drop; unfold P; rewrite length_take; lia. }
  assert (Hsi : nsorted (sorted_insert nn P)) by (by apply sorted_insert_sorted).
  unfold sorted_insert in Hsi. fold pj in Hsi.
  apply StronglySorted_app in Hsi as (Hcross & _ & HsR).
  rewrite Htake. split_and!.
  - apply StronglySorted_app_2; [|done|done]. intros c d Hc Hd. rewrite Hp' in Hc.
    apply elem_of_app in Hc as [Hc|Hc]; [by apply Hcross|].
    assert (nb_lt c nn) by (apply HBn; [done|by apply list_elem_of_singleton]).
    apply elem_of_cons in Hd as [->|Hd]; [done|].
    apply StronglySorted_inv in HsR as [_ HsR]. rewrite Forall_forall in HsR.
    eapply nb_lt_trans; [done|]. by apply HsR.
  - rewrite Hp'. transitivity ((take pj P ++ drop pj P) ++ B' ++ [nn]); [solve_Permutation|].
    by rewrite take_drop.
  - replace (seg + S j) with (pj + j + S (length (drop pj P))) at 1
      by (rewrite length_drop; unfold P; rewrite length_take; lia).
    rewrite <- drop_drop, Hd', Hdr. simpl. by rewrite drop_app_length.
  - lia.
  - lia.
  - intros z _ Hz. destruct (decide (j = 0)) as [->|Hj0].
    { rewrite Hlow0 by done. unfold pj, nn. congruence. }
    rewrite (Hlow z), rank_take by (done || lia). apply Nat.min_r.
    assert (Hzin : nb z ∈ B').
    { apply list_elem_of_fmap_2, (list_elem_of_lookup_2 _ 0). rewrite lookup_take_lt; [done|lia]. }
    apply rank_mono; [by eapply Forall_forall in HokB'|done..|].
    apply HBn; [done|by apply list_elem_of_singleton].
Qed.

(** ** Batch insertion *)

Lemma min_rank_id m l b : (∀ x, x ∈ b → m ≤ rank (nb x) l) → min_rank m l b = m.
Proof.
  induction b as [|x b IH]; intros H; simpl; [done|].
  rewrite IH by set_solver. pose proof (H x ltac:(set_solver)). lia.
Qed.

Lemma min_rank_glb k m l b :
  k ≤ m → (∀ x, x ∈ b → k ≤ rank (nb x) l) → k ≤ min_rank m l b.
Proof.
  intros Hk. induction b as [|x b IH]; intros H; simpl; [done|].
  pose proof (H x ltac:(set_solver)). pose proof (IH ltac:(set_solver)). lia.
Qed.

Lemma min_rank_elem m l b z : z ∈ b → min_rank m l b ≤ rank (nb z) l.
Proof. induction b as [|x b IH]; simpl; [set_solver|]. intros [->|Hz]%elem_of_cons; [lia|]. specialize (IH Hz). lia. Qed.

Lemma min_rank_least m l b z :
  z ∈ b → (∀ x, x ∈ b → rank (nb z) l ≤ rank (nb x) l) → min_rank m l b = Nat.min m (rank (nb z) l).
Proof.
  intros Hz H. apply Nat.le_antisymm.
  - pose proof (min_rank_le m l b). pose proof (min_rank_elem m l b z Hz). lia.
  - apply min_rank_glb; [lia|]. intros x Hx. pose proof (H x Hx). lia.
Qed.

Lemma batch_inserted_nil p : wf p → batch_inserted p p [].
Proof.
  intros Hwf. split; simpl; try done.
  rewrite take_ge; [done|]. rewrite live_length by done. apply Hwf.
Qed.

Section batch_correct.
Context (p : CandidatePool) (Hwf : wf p).

(** What the sorted batch gives the trim and the merge. *)
Lemma sorted_batch b b' :
  batch_ok (live p) b → (nb <$> b') ≡ₚ (nb <$> b) →
  Forall ok (nb <$> b') ∧ NoDup (id <$> live p ++ (nb <$> b'))
  ∧ (∀ a y, a ∈ live p → y ∈ nb <$> b' → id a ≠ id y)
  ∧ nsorted (union (live p) b) ∧ union (live p) b ≡ₚ live p ++ (nb <$> b').
Proof.
  intros [Hok Hnd] Hp.
  assert (Hnd' : NoDup (id <$> live p ++ (nb <$> b'))) by (by rewrite Permutation_app_comm, Hp).
  split_and!; [by rewrite Hp|done| | |].
  - intros a y Ha Hy E. rewrite fmap_app in Hnd'. apply NoDup_app in Hnd' as (_ & Hd & _).
    apply (Hd (id a)); [by apply list_elem_of_fmap_2|]. rewrite E. by apply list_elem_of_fmap_2.
  - apply union_sorted; [apply Hwf|done..|apply Hwf].
  - by rewrite union_Permutation, Hp, Permutation_app_comm.
Qed.

(** The batch falls behind the (full) pool. *)
Lemma batch_behind b b' re :
  batch_ok (live p) b → (nb <$> b') ≡ₚ (nb <$> b) → nsorted (nb <$> b') →
  re = Nat.min (cur_list_size_ p + length b') (l_pool_ p) → re ≤ cur_list_size_ p → 0 < length b' →
  cut (live p) (nb <$> b') re 0 → batch_inserted p p b.
Proof.
  intros Hb Hp Hs Hre Hle Hpos Hcut.
  destruct (sorted_batch b b' Hb Hp) as (Hok & Hnd & Hdis & HU & HUp).
  pose proof (live_length p Hwf) as Hlen. pose proof Hwf as [_ Hcur _ HokP HsP Hfu Hsend].
  assert (HL : cur_list_size_ p = l_pool_ p) by lia.
  assert (Hrank : ∀ x, x ∈ b → rank (nb x) (live p) = l_pool_ p).
  { intros x Hx. assert (Hin : nb x ∈ nb <$> b') by (rewrite Hp; by apply list_elem_of_fmap_2).
    rewrite rank_behind; [lia|by eapply Forall_forall in Hok|done|].
    intros a (i & Hi)%list_elem_of_lookup. apply list_elem_of_lookup in Hin as (j & Hj).
    pose proof (lookup_lt_Some _ _ _ Hi). destruct Hcut as [_ H2].
    eapply (H2 i a j); [lia|done|lia|done]. }
  split; [done|done| | |].
  - symmetry.
    pose proof (cut_take (live p) (nb <$> b') HokP Hok HsP Hs re 0 (union (live p) b) (live p)) as H.
    rewrite Nat.add_0_r in H. replace re with (l_pool_ p) in * by lia.
    apply H; [lia|lia|done|done|done|done| |done].
    rewrite take_ge by lia. simpl. by rewrite app_nil_r.
  - symmetry. apply min_rank_id. intros x Hx. rewrite Hrank by done. lia.
  - symmetry. apply min_rank_id. intros x Hx. rewrite Hrank by done. lia.
Qed.

(** The state [insert_batch] builds from the merged array. *)
Lemma batch_merged b b' re ne rs low z :
  batch_ok (live p) b → (nb <$> b') ≡ₚ (nb <$> b) → nsorted (nb <$> b') →
  re + ne = Nat.min (cur_list_size_ p + length b') (l_pool_ p) →
  re ≤ cur_list_size_ p → ne ≤ length b' → 0 < ne → b' !! 0 = Some z →
  cut (live p) (nb <$> b') re ne →
  nsorted (take (re + ne) rs) → take (re + ne) rs ≡ₚ take re (live p) ++ (nb <$> take ne b') →
  length rs = length (retset_ p) → low = rank (nb z) (take re (live p)) →
  batch_inserted p (mkPool rs (re + ne) (l_pool_ p)
    (if Nat.ltb low (first_unvisited_ p) then low else first_unvisited_ p)
    (Nat.min (send_marker_ p) low)) b.
Proof.
  intros Hb Hp Hs Hsum Hre Hne Hpos Hz Hcut HsK HpK Hlrs Hlow.
  destruct (sorted_batch b b' Hb Hp) as (Hok & Hnd & Hdis & HU & HUp).
  pose proof (live_length p Hwf) as Hlen. pose proof Hwf as [_ Hcur _ HokP HsP Hfu Hsend].
  assert (Hlive : take (re + ne) rs = take (l_pool_ p) (union (live p) b)).
  { rewrite <- (cut_take (live p) (nb <$> b') HokP Hok HsP Hs re ne (union (live p) b) (take (re + ne) rs));
      try done; [|lia|rewrite length_fmap; lia|by rewrite HpK, fmap_take].
    rewrite Hsum, Nat.min_comm, <- take_take. f_equal. apply take_ge.
    rewrite HUp, length_app, length_fmap. lia. }
  assert (Hzin : nb z ∈ nb <$> b') by (by eapply list_elem_of_fmap_2, list_elem_of_lookup_2).
  assert (Hokz : ok (nb z)) by (by eapply Forall_forall in Hok).
  assert (Hrz : rank (nb z) (live p) ≤ re).
  { destruct (Nat.le_gt_cases (rank (nb z) (live p)) re) as [|Hgt]; [done|].
    pose proof (rank_le (nb z) (live p)).
    destruct (lookup_lt_is_Some_2 (live p) re) as [a Ha]; [lia|].
    assert (ok a) by (rewrite Forall_lookup in HokP; eauto).
    pose proof (rank_before _ _ _ _ Ha Hgt) as Hlt. apply nlt_spec in Hlt; [|done..].
    destruct Hcut as [H1 _]. destruct (nb_lt_asym _ _ Hlt).
    eapply (H1 re a 0); [done|done|done|]. by rewrite list_lookup_fmap, Hz. }
  assert (low = rank (nb z) (live p)) as -> by (rewrite Hlow, rank_take; lia).
  assert (Hmr : ∀ m, min_rank m (live p) b = Nat.min m (rank (nb z) (live p))).
  { intros m.
    assert (∃ z', z' ∈ b ∧ nb z' = nb z) as (z' & Hz' & Ez).
    { rewrite Hp in Hzin. apply list_elem_of_fmap in Hzin as (z' & ? & ?). eauto. }
    rewrite <- Ez. apply min_rank_least; [done|]. intros x Hx. rewrite Ez.
    assert (nb x ∈ nb <$> b') as Hxin by (rewrite Hp; by apply list_elem_of_fmap_2).
    assert (ok (nb x)) by (by eapply Forall_forall in Hok).
    apply list_elem_of_lookup in Hxin as (j & Hj).
    destruct (sorted_le (nb <$> b') 0 j (nb z) (nb x)) as [->|]; try done; [|lia|by apply rank_mono].
    by rewrite list_lookup_fmap, Hz. }
  split; simpl; [|done|done| |].
  - split; simpl; unfold live; simpl; try lia; try apply Hwf.
    + destruct Hwf. lia.
    + rewrite HpK. apply Forall_app. split; [by apply Forall_take|]. rewrite fmap_take. by apply Forall_take.
    + done.
    + case_if; lia.
  - rewrite Hmr. case_if; lia.
  - symmetry. apply Hmr.
Qed.

Lemma merge_batch b :
  batch_ok (live p) b →
  ∃ p', (if Nat.eqb (length b) 0 then Some p else
         b1 ← cosort (length b - 1) 1 b;
         '(retset_end, new_end) ←
            trim (retset_ p) b1 (cur_list_size_ p + length b - l_pool_ p) (cur_list_size_ p) (length b);
         if Nat.eqb new_end 0 then Some p
         else '(rs, lowest) ← merge_down (retset_ p) b1 new_end retset_end;
              Some (mkPool rs (Nat.min (cur_list_size_ p + length b) (l_pool_ p)) (l_pool_ p)
                (if Nat.ltb lowest (first_unvisited_ p) then lowest else first_unvisited_ p)
                (Nat.min (send_marker_ p) lowest))) = Some p' ∧ batch_inserted p p' b.
Proof.
  intros Hb. pose proof (live_length p Hwf) as Hlen. pose proof Hb as [Hok Hnd]. case_if.
  { exists p. split; [done|]. apply nil_length_inv in Heqb0. subst. by apply batch_inserted_nil. }
  assert (Hpos : 0 < length b) by lia.
  destruct (cosort_correct (length b - 1) 1 b) as (b' & -> & Hs & Hp); [lia|done| | |].
  { rewrite fmap_app in Hnd. by apply NoDup_app in Hnd as [? _]. }
  { destruct b as [|x b]; [simpl in *; lia|]. simpl. repeat constructor. }
  simpl. destruct (sorted_batch b b' Hb Hp) as (Hok' & Hnd' & Hdis & HU & HUp).
  assert (Hlb : length b = length b').
  { apply Permutation_length in Hp. by rewrite !length_fmap in Hp. }
  rewrite Hlb. pose proof Hwf as [? Hcur ? HokP HsP ? ?].
  destruct (trim_correct (retset_ p) (live p) (nb <$> b') b' eq_refl) with
    (excess := cur_list_size_ p + length b' - l_pool_ p) (re := cur_list_size_ p) (ne := length b')
    as (re & ne & -> & Hsum & Hre & Hne & Hcut); try done; [|lia|lia|by rewrite length_fmap| |].
  { intros i a Hi. by apply live_lookup in Hi as [? _]. }
  { split; intros i a j y Hi Ha Hj Hy; apply lookup_lt_Some in Ha, Hy; rewrite ?length_fmap in *; lia. }
  simpl. case_if.
  { subst ne. exists p. split; [done|]. eapply (batch_behind b b' re); try done; lia. }
  destruct (lookup_lt_is_Some_2 b' 0) as [z Hz]; [lia|].
  assert (Htk : take re (retset_ p) = take re (live p)) by (unfold live; rewrite take_take; f_equal; lia).
  pose proof (merge_down_correct (retset_ p) b' ne re) as Hm. simpl in Hm. rewrite Htk in Hm.
  destruct Hm as (rs & low & -> & HsK & HpK & _ & Hlrs & _ & Hlow); [lia|lia| | | | |].
  - apply Forall_app. split; [by apply Forall_take|]. rewrite fmap_take. by apply Forall_take.
  - by apply nsorted_take.
  - rewrite fmap_take. by apply nsorted_take.
  - intros a y Ha Hy. apply Hdis; [|rewrite fmap_take in Hy]; eapply elem_of_sublist; try done; apply sublist_take.
  - simpl. eexists. split; [done|].
    replace (Nat.min _ (l_pool_ p)) with (re + ne) by lia.
    eapply (batch_merged b b' re ne rs low z); try done; [lia..|]. apply Hlow; [lia|done].
Qed.

Lemma bounded_live w :
  full p = true → worst p = Some w → 0 < cur_list_size_ p → bounded_by (l_pool_ p) w (live p).
Proof.
  unfold full, worst. intros Hfull Hw Hpos. bool_to_prop. pose proof (live_length p Hwf).
  split_and!; [lia|apply Hwf|]. intros a Ha Hlt. rewrite take_ge in Ha by lia.
  apply list_elem_of_lookup in Ha as (i & Hi). pose proof (lookup_lt_Some _ _ _ Hi).
  assert (Hlw : live p !! (cur_list_size_ p - 1) = Some w).
  { unfold live. rewrite lookup_take_lt; [done|lia]. }
  destruct (sorted_le (live p) i (cur_list_size_ p - 1) a w) as [->|Haw];
    [apply Hwf|done|done|lia|by apply nb_lt_irrefl in Hlt|]. by destruct (nb_lt_asym _ _ Hlt).
Qed.

Lemma insert_batch_correct b :
  batch_ok (live p) b → ∃ p', insert_batch p b = Some p' ∧ batch_inserted p p' b.
Proof.
  intros Hb. unfold insert_batch. destruct (full p) eqn:Hfull.
  - pose proof Hwf as [? ? ? ? ? ? ?].
    assert (cur_list_size_ p = l_pool_ p) by (unfold full in Hfull; by bool_to_prop).
    destruct (retset_lookup p Hwf (cur_list_size_ p - 1)) as (w & Hw & Hlw & Hokw); [lia|].
    unfold worst. rewrite Hw. simpl.
    assert (Hbd : bounded_by (l_pool_ p) w (live p)) by (apply bounded_live; [done|done|lia]).
    destruct (merge_batch (compact w b)) as (p' & Heq & [? ? Hl Hf Hse]); [by apply compact_ok|].
    exists p'. split; [exact Heq|]. split; [done|done| | |].
    + by rewrite Hl, compact_union.
    + rewrite Hf. apply (compact_min_rank (l_pool_ p)); [done..|lia].
    + rewrite Hse. apply (compact_min_rank (l_pool_ p)); [done..|lia].
  - by apply merge_batch.
Qed.
End batch_correct.
