(* ===== verification/PoolSearch.v ===== *)
(** * What the searches rely on the candidate pool for ([include/candidate_pool.h])

    The operations a search drives the pool with, as a transition system: every
    pool a search can reach keeps the window sorted and both frontiers sound.
    On top of the invariant: the synchronous frontier hands out the closest
    unvisited candidate and terminates, the asynchronous one the closest ready
    candidate, seeds are re-sorted, and the one deviation, a duplicate insert. *)

From S2P Require Import Prelude Float32 Neighbor CandidatePool PoolBatch.
Import Pool.

(** ** Picking candidates *)

Lemma calc_loop_correct ready rs n i :
  i + n ≤ length rs →
  ∃ o, calc_loop ready rs n i = Some o ∧
  match o with
  | Some j => i ≤ j < i + n ∧ (∃ a, rs !! j = Some a ∧ visited a = false ∧ ready (id a) = true)
              ∧ ∀ k a, i ≤ k < j → rs !! k = Some a → visited a = true ∨ ready (id a) = false
  | None => ∀ k a, i ≤ k < i + n → rs !! k = Some a → visited a = true ∨ ready (id a) = false
  end.
Proof.
  revert i. induction n as [|n IH]; intros i Hn; simpl.
  { eexists. split; [done|]. simpl. intros; lia. }
  destruct (lookup_lt_is_Some_2 rs i) as [a Ha]; [lia|]. rewrite Ha. simpl. case_if.
  { eexists. split; [done|]. simpl. split_and!; [lia|lia|by eauto|intros; lia]. }
  assert (Hi : visited a = true ∨ ready (id a) = false).
  { apply andb_false_iff in Heqb as [H|H]; [left; by apply negb_false_iff|by right]. }
  destruct (IH (S i)) as (o & -> & Ho); [lia|]. eexists. split; [done|].
  destruct o as [j|]; simpl in *.
  - destruct Ho as (? & ? & Hall). split_and!; [lia|lia|done|].
    intros k c Hk Hc. destruct (decide (k = i)) as [->|]; [by simplify_eq|]. eapply Hall; [|done]. lia.
  - intros k c Hk Hc. destruct (decide (k = i)) as [->|]; [by simplify_eq|]. eapply Ho; [|done]. lia.
Qed.

(** Changing a candidate at or behind the marker leaves the settled prefix. *)
Lemma settled_alter (Q : Neighbor → Prop) f i m (l : list Neighbor) :
  (∀ a, Q a → Q (f a)) → Forall Q (take m l) → Forall Q (take m (alter f i l)).
Proof.
  rewrite !Forall_lookup. intros Hf H k a Hk. apply lookup_take_Some in Hk as [Hk Hkm].
  destruct (decide (k = i)) as [->|Hne].
  - rewrite list_lookup_alter_eq in Hk. apply fmap_Some in Hk as (c & Hc & ->).
    apply Hf, (H i). by rewrite lookup_take_lt.
  - rewrite list_lookup_alter_ne in Hk by done. apply (H k). by rewrite lookup_take_lt.
Qed.

Lemma update_settled p i f :
  wf p → settled p → i < cur_list_size_ p →
  (∀ a, nkey (f a) = nkey a ∧ (ok a → ok (f a))) →
  (∀ a, visited a = true → visited (f a) = true) → (∀ a, flag a = false → flag (f a) = false) →
  ∃ p', update p i f = Some p' ∧ wf p' ∧ settled p' ∧ live p' = alter f i (live p)
  ∧ l_pool_ p' = l_pool_ p.
Proof.
  intros Hwf [Hv Hg] Hi Hf Hfv Hff.
  destruct (update_correct p i f Hwf Hi Hf) as (p' & Hp' & Hwf' & Hlive & _ & Hl & Hfu & Hsend).
  exists p'. split_and!; try done.
  unfold settled. rewrite Hlive, Hfu, Hsend. split; by apply settled_alter.
Qed.

Lemma live_eq p p' :
  retset_ p' = retset_ p → cur_list_size_ p' = cur_list_size_ p → live p' = live p.
Proof. unfold live. by intros -> ->. Qed.

(** The number of candidates still to expand. *)
Definition unvisited_count (l : list Neighbor) : nat :=
  length (List.filter (λ a, negb (visited a)) l).

Lemma unvisited_count_pick f i l a :
  l !! i = Some a → visited a = false → visited (f a) = true →
  S (unvisited_count (alter f i l)) = unvisited_count l.
Proof.
  revert i. induction l as [|c l IH]; intros i Hi Ha Hfa; [done|].
  destruct i as [|i]; simpl in *.
  - simplify_eq. unfold unvisited_count. simpl. by rewrite Ha, Hfa.
  - specialize (IH i Hi Ha Hfa). change (list_alter f i l) with (alter f i l).
    unfold unvisited_count in *. cbn [List.filter]. destruct (negb (visited c)); cbn [length]; lia.
Qed.

Lemma unvisited_count_zero l : unvisited_count l = 0 ↔ Forall (λ a, visited a = true) l.
Proof.
  induction l as [|a l IH]; [done|]. unfold unvisited_count in *. simpl. rewrite Forall_cons, <- IH.
  destruct (visited a); simpl; naive_solver.
Qed.

Section picking.
Context (p : CandidatePool) (Hwf : wf p) (Hset : settled p).

(** No candidate of the window before the calc marker is unvisited. *)
Lemma settled_prefix k a :
  k < first_unvisited_ p → live p !! k = Some a → visited a = true.
Proof.
  intros Hk Ha. destruct Hset as [Hv _]. rewrite Forall_lookup in Hv.
  apply (Hv k). by rewrite lookup_take_lt.
Qed.

Lemma next_unvisited_correct :
  ∃ o p', next_unvisited p = Some (o, p') ∧ wf p' ∧ settled p' ∧ l_pool_ p' = l_pool_ p ∧
  match o with
  | Some i => (∃ a, live p !! i = Some a ∧ visited a = false)
              ∧ (∀ k a, k < i → live p !! k = Some a → visited a = true)
              ∧ live p' = alter set_visited i (live p)
  | None => live p' = live p ∧ Forall (λ a, visited a = true) (live p)
  end.
Proof.
  destruct (skip_visited_correct p Hwf Hset)
    as (p1 & Hp1 & Hwf1 & Hset1 & Hrs & Hcur & Hl & _ & Hend).
  unfold next_unvisited. rewrite Hp1. simpl. pose proof (live_eq p p1 Hrs Hcur) as Hlive.
  assert (Hpre : ∀ k a, k < first_unvisited_ p1 → live p !! k = Some a → visited a = true).
  { intros k a Hk Ha. destruct Hset1 as [Hv _]. rewrite Hlive, Forall_lookup in Hv.
    apply (Hv k). by rewrite lookup_take_lt. }
  case_if.
  - eexists _, _. split; [done|]. split_and!; try done.
    apply Forall_lookup. intros k a Ha. apply (Hpre k a); [|done].
    apply lookup_lt_Some in Ha. rewrite live_length in Ha by done. lia.
  - destruct (update_settled p1 (first_unvisited_ p1) set_visited Hwf1 Hset1)
      as (p' & -> & Hwf' & Hset' & Hlive' & Hl'); [lia|apply set_visited_key|done|done|].
    simpl. eexists _, _. split; [done|]. split_and!; try done; [congruence|apply Hend; lia|by rewrite Hlive', Hlive].
Qed.

Lemma next_calc_nbr_correct ready :
  ∃ o p', next_calc_nbr ready p = Some (o, p') ∧ wf p' ∧ settled p' ∧ l_pool_ p' = l_pool_ p ∧
  match o with
  | Some i => (∃ a, live p !! i = Some a ∧ visited a = false ∧ ready (id a) = true)
              ∧ (∀ k a, k < i → live p !! k = Some a → visited a = true ∨ ready (id a) = false)
              ∧ live p' = alter (λ a, set_visited (clear_flag a)) i (live p)
  | None => p' = p ∧ ∀ k a, live p !! k = Some a → visited a = true ∨ ready (id a) = false
  end.
Proof.
  unfold next_calc_nbr. pose proof Hwf as [? ? ? ? ? ? ?].
  destruct (calc_loop_correct ready (retset_ p) (cur_list_size_ p - first_unvisited_ p) (first_unvisited_ p))
    as (o & -> & Ho); [lia|]. simpl. destruct o as [i|].
  - destruct Ho as (Hi & (a & Ha & Hva & Hra) & Hall).
    destruct (update_settled p i (λ a, set_visited (clear_flag a)) Hwf Hset)
      as (p' & -> & Hwf' & Hset' & Hlive' & Hl'); [lia|apply pick_key|done|done|].
    simpl. eexists _, _. split; [done|]. split_and!; try done.
    + exists a. split; [|done]. unfold live. rewrite lookup_take_lt; [done|lia].
    + intros k c Hk Hc. destruct (Nat.lt_ge_cases k (first_unvisited_ p)).
      * left. by apply (settled_prefix k).
      * apply (Hall k); [lia|]. by apply live_lookup in Hc as [? _].
  - eexists _, _. split; [done|]. split_and!; try done.
    intros k c Hc. destruct (Nat.lt_ge_cases k (first_unvisited_ p)).
    + left. by apply (settled_prefix k).
    + apply live_lookup in Hc as [? ?]. apply (Ho k); [lia|done].
Qed.
End picking.

(** ** Dropping a prefix, seeds *)

Lemma drop_front_correct p n :
  wf p → n ≤ cur_list_size_ p →
  ∃ p', drop_front p n = Some p' ∧ wf p' ∧ settled p' ∧ live p' = drop n (live p)
  ∧ l_pool_ p' = l_pool_ p.
Proof.
  intros Hwf Hn. pose proof Hwf as [? ? ? Hok Hs ? ?]. unfold drop_front.
  rewrite memmove_Some by lia. simpl. eexists. split; [done|].
  set (rs := take (cur_list_size_ p - n) (drop n (retset_ p)) ++ drop (cur_list_size_ p - n) (retset_ p)).
  assert (Hlive : take (cur_list_size_ p - n) rs = drop n (live p)).
  { unfold rs, live. rewrite skipn_firstn_comm. rewrite take_app_le, take_take by
      (rewrite length_take, length_drop; lia). f_equal. lia. }
  split_and!; try done.
  split; unfold live; simpl; fold rs; rewrite ?Hlive; auto with nbr; try lia.
  - unfold rs. rewrite length_app, length_take, !length_drop. lia.
  - by apply Forall_drop.
Qed.

Lemma overwrite_distances_correct n i rs ds :
  i + n ≤ length rs → i + n ≤ length ds →
  ∃ rs', overwrite_distances n i rs ds = Some rs'
  ∧ rs' = take i rs ++ zip_with set_distance (take n (drop i ds)) (take n (drop i rs)) ++ drop (i + n) rs.
Proof.
  revert i rs. induction n as [|n IH]; intros i rs Hr Hd; simpl.
  { exists rs. split; [done|]. by rewrite Nat.add_0_r, take_drop. }
  destruct (lookup_lt_is_Some_2 ds i) as [d Hdi]; [lia|].
  destruct (lookup_lt_is_Some_2 rs i) as [a Ha]; [lia|].
  rewrite Hdi, Ha. simpl. rewrite vset_Some by lia. simpl.
  destruct (IH (S i) (<[i:=set_distance d a]> rs)) as (rs' & -> & ->); [rewrite ?length_insert; lia..|].
  eexists. split; [done|].
  rewrite (drop_S _ _ _ Hdi), (drop_S _ _ _ Ha). simpl.
  rewrite (take_S_r _ _ (set_distance d a)) by (apply list_lookup_insert_eq; lia).
  rewrite take_insert_ge, !drop_insert_lt by lia.
  replace (i + S n) with (S (i + n)) by lia. by rewrite <- app_assoc.
Qed.

(** The rescored seeds, in sorted order. *)
Definition rescored (p : CandidatePool) (ds : list float) : list Neighbor :=
  zip_with set_distance (take (cur_list_size_ p) ds) (live p).

Lemma rescored_ids ds l : length l ≤ length ds → id <$> zip_with set_distance ds l = id <$> l.
Proof.
  revert ds. induction l as [|a l IH]; intros [|d ds] H; simpl in *; try done; [lia|].
  f_equal. apply IH. lia.
Qed.

Lemma rescore_seeds_correct p ds :
  1 ≤ l_pool_ p → cur_list_size_ p ≤ l_pool_ p → l_pool_ p + 1 ≤ length (retset_ p) →
  cur_list_size_ p ≤ length ds → Forall (λ d, not_nan d) ds → NoDup (id <$> live p) →
  ∃ p', rescore_seeds p ds = Some p' ∧ wf p' ∧ settled p'
  ∧ live p' = std_sort (rescored p ds) ∧ live p' ≡ₚ rescored p ds.
Proof.
  intros Hpos Hcur Hcap Hds Hnan Hnd. unfold rescore_seeds.
  destruct (overwrite_distances_correct (cur_list_size_ p) 0 (retset_ p) ds) as (rs' & -> & ->); [lia..|].
  simpl. rewrite !drop_0. fold (live p).
  assert (Hlen : length (live p) = cur_list_size_ p) by (unfold live; rewrite length_take; lia).
  change (zip_with set_distance (take (cur_list_size_ p) ds) (live p)) with (rescored p ds).
  assert (Hlr : length (rescored p ds) = cur_list_size_ p).
  { unfold rescored. rewrite length_zip_with, length_take. lia. }
  rewrite take_app_le, take_ge by lia. rewrite drop_app_ge by lia.
  assert (Hls : length (std_sort (rescored p ds)) = cur_list_size_ p).
  { by rewrite (Permutation_length (std_sort_Permutation _)). }
  eexists. split; [done|].
  assert (Hlive : take (cur_list_size_ p)
    (std_sort (rescored p ds) ++ drop (cur_list_size_ p - length (rescored p ds)) (drop (cur_list_size_ p) (retset_ p)))
    = std_sort (rescored p ds)) by (rewrite take_app_le, take_ge by lia; done).
  assert (Hok : Forall ok (rescored p ds)).
  { unfold rescored. apply Forall_zip_with_fst with (P := λ d, not_nan d); [by apply Forall_take|].
    apply Forall_true. intros a d Hd. done. }
  split_and!; try done; [split; unfold live; simpl; rewrite ?Hlive; try lia|].
  - rewrite length_app, !length_drop. lia.
  - by rewrite std_sort_Permutation.
  - apply std_sort_sorted; [done|]. unfold rescored. rewrite rescored_ids; [done|].
    rewrite length_take. lia.
  - unfold live. simpl. rewrite Hlive. apply std_sort_Permutation.
Qed.

(** ** Duplicates *)

Section duplicate.
Context (addr : list Neighbor) (K : nat) (nn a : Neighbor) (i : nat).
Let P := take K addr.
Context (Hcap : K < length addr) (Hok : Forall ok P) (Hs : nsorted P) (Ha : P !! i = Some a).
Context (Hid : id a = id nn) (Hd : distance a = distance nn).

Lemma dup_ok : ok nn.
Proof. unfold ok. rewrite <- Hd. rewrite Forall_lookup in Hok. by apply (Hok i). Qed.

Lemma dup_lt c : (nb_lt c nn ↔ nb_lt c a) ∧ (nb_lt nn c ↔ nb_lt a c).
Proof. unfold nb_lt. by rewrite Hid, Hd. Qed.

Lemma dup_lookup k : k < K → ∃ c, addr !! k = Some c ∧ P !! k = Some c ∧ ok c.
Proof.
  intros Hk. destruct (lookup_lt_is_Some_2 addr k) as [c Hc]; [lia|].
  assert (P !! k = Some c) by (unfold P; by rewrite lookup_take_lt).
  exists c. split_and!; try done. rewrite Forall_lookup in Hok. eauto.
Qed.

(** Being smaller than the duplicate is being in front of it. *)
Lemma dup_pos k c : P !! k = Some c → (nb_lt c nn ↔ k < i) ∧ (nb_lt nn c ↔ i < k).
Proof.
  intros Hc. destruct (dup_lt c) as [-> ->].
  destruct (Nat.lt_total k i) as [H|[->|H]].
  - pose proof (nsorted_lookup _ _ _ _ _ Hs Hc Ha H) as Hlt. pose proof (nb_lt_asym _ _ Hlt).
    split; split; try done; lia.
  - assert (c = a) as -> by congruence. pose proof (nb_lt_irrefl a). split; split; try done; lia.
  - pose proof (nsorted_lookup _ _ _ _ _ Hs Ha Hc H) as Hlt. pose proof (nb_lt_asym _ _ Hlt).
    split; split; try done; lia.
Qed.

Lemma bsearch_duplicate fuel l r :
  r - l ≤ fuel → l ≤ i ≤ r → r < K →
  ∃ l' r', bsearch fuel addr nn l r = Some (l', r') ∧ l' ≤ i ≤ r' ∧ r' < K ∧ (r' ≤ S l').
Proof.
  revert l r. induction fuel as [|fuel IH]; intros l r Hf Hi Hr; cbn [bsearch]; case_if.
  - lia.
  - exists l, r. split; [done|]. apply andb_false_iff in Heqb as [?|?]; bool_to_prop; lia.
  - pose proof (Nat.div_mod_eq (l + r) 2). pose proof (Nat.mod_upper_bound (l + r) 2).
    set (mid := (l + r) / 2) in *.
    destruct (dup_lookup mid) as (c & -> & Hc & Hokc); [lia|]. simpl.
    destruct (dup_pos mid c Hc) as [_ Hgt]. pose proof dup_ok.
    destruct (ngt c nn) eqn:E.
    + apply ngt_spec, Hgt in E; [|done..]. apply IH; lia.
    + apply ngt_false in E; [|done..]. rewrite Hgt in E. apply IH; lia.
  - exists l, r. split; [done|]. apply andb_false_iff in Heqb as [?|?]; bool_to_prop; lia.
Qed.

Lemma insert_into_pool_duplicate : insert_into_pool addr K nn = Some (K + 1, addr).
Proof.
  pose proof dup_ok as Hnn.
  assert (HiK : i < K) by (apply lookup_lt_Some in Ha; unfold P in Ha; rewrite length_take in Ha; lia).
  destruct (dup_lookup 0) as (a0 & Ha0 & HP0 & Hok0); [lia|].
  destruct (dup_pos 0 a0 HP0) as [_ H0].
  unfold insert_into_pool. rewrite Ha0. simpl.
  destruct (ngt a0 nn) eqn:E0; [apply ngt_spec, H0 in E0; [|done..]; lia|].
  assert (∃ right, K = S right) as [right EK] by (exists (K - 1); lia).
  rewrite EK. cbv iota. rewrite <- EK.
  destruct (dup_lookup right) as (ar & Har & HPr & Hokr); [lia|].
  destruct (dup_pos right ar HPr) as [Hr _]. rewrite Har. simpl.
  destruct (nlt ar nn) eqn:Er; [apply nlt_spec, Hr in Er; [|done..]; lia|].
  destruct (bsearch_duplicate K 0 right) as (l & r & -> & Hi & HrK & Hadj); [lia..|]. simpl.
  assert (Hchk : check_equal addr nn l = Some None
                 ∨ check_equal addr nn l = Some (Some l) ∧ (i = r ∨ l = i)).
  { destruct (dup_lookup l) as (c & Hc & HPc & Hokc); [lia|].
    destruct (dup_pos l c HPc) as [Hlt _].
    destruct l as [|l']; [right; split; [done|lia]|]. simpl. rewrite Hc. simpl.
    destruct (nlt c nn) eqn:E.
    - right. apply nlt_spec, Hlt in E; [|done..]. split; [done|lia].
    - left. apply nlt_false in E; [|done..]. rewrite Hlt in E. assert (S l' = i) as Eq by lia.
      assert (c = a) as -> by congruence. by rewrite Hid, Z.eqb_refl. }
  destruct Hchk as [->|[-> Hir]]; [done|]. simpl.
  destruct (dup_lookup l) as (c & Hc & HPc & _); [lia|].
  destruct (dup_lookup r) as (e & He & HPe & _); [lia|].
  rewrite Hc, He. simpl.
  assert (Z.eqb (id c) (id nn) || Z.eqb (id e) (id nn) = true) as ->; [|done].
  apply orb_true_iff. destruct Hir as [<-|<-]; [right|left]; apply Z.eqb_eq; congruence.
Qed.
End duplicate.

(** ** The pool as a transition system *)

(** The operations a search performs on its pool, in any order: insertions of
    new candidates, issuing the read of the next flagged candidate (which
    clears its flag), picking a landed or an unvisited candidate, the frontier
    walks, and dropping a promoted prefix. *)
Inductive pool_step : CandidatePool → CandidatePool → Prop :=
  | step_insert p nn r p' :
      ok nn → fresh nn (live p) → insert p nn = Some (r, p') → pool_step p p'
  | step_insert_batch p b p' :
      batch_ok (live p) b → insert_batch p b = Some p' → pool_step p p'
  | step_issue_read p p1 i p' :
      next_read_nbr p = Some (Some i, p1) → update p1 i clear_flag = Some p' → pool_step p p'
  | step_no_read p p' : next_read_nbr p = Some (None, p') → pool_step p p'
  | step_calc ready p o p' : next_calc_nbr ready p = Some (o, p') → pool_step p p'
  | step_frontier p i p' : frontier p = Some (i, p') → pool_step p p'
  | step_next_unvisited p o p' : next_unvisited p = Some (o, p') → pool_step p p'
  | step_all_visited p r p' : all_visited p = Some (r, p') → pool_step p p'
  | step_drop_front p n p' : n ≤ cur_list_size_ p → drop_front p n = Some p' → pool_step p p'.

Lemma batch_inserted_settled p p' b : wf p → batch_inserted p p' b → settled p → settled p'.
Proof.
  intros Hwf [_ _ Hlive Hfu Hsend] [Hv Hg]. unfold settled. rewrite Hlive, Hfu, Hsend.
  assert (Hpre : ∀ m (Q : Neighbor → Prop), m ≤ cur_list_size_ p → Forall Q (take m (live p)) →
    Forall Q (take (min_rank m (live p) b) (take (l_pool_ p) (union (live p) b)))).
  2: { pose proof Hwf as [_ _ _ _ _ ? ?]. split; by apply Hpre. }
  intros m Q Hm HQ. pose proof Hwf as [_ Hcl _ _ _ _ _].
  assert (Hu : take (min_rank m (live p) b) (union (live p) b) = take (min_rank m (live p) b) (live p)).
  { clear HQ Hlive Hfu Hsend. generalize (live p) as l. revert m Hm. induction b as [|x b IH]; intros m Hm l; [done|].
    simpl. set (k := Nat.min (rank (nb x) l) (min_rank m l b)).
    assert (Hk : take k (sorted_insert (nb x) l) = take k l).
    { pose proof (take_top k k (nb x) l) as H. unfold top in H. rewrite take_take, Nat.min_id in H.
      apply H. unfold k. lia. }
    assert (Hkm : min_rank (Nat.min m (rank (nb x) l)) l b = k) by (rewrite min_rank_min; done).
    pose proof (IH (Nat.min m (rank (nb x) l)) ltac:(lia) (sorted_insert (nb x) l)) as H.
    rewrite (min_rank_same_prefix _ (sorted_insert (nb x) l) l), Hkm in H; [by rewrite H, Hk|].
    pose proof (take_top (Nat.min m (rank (nb x) l)) (Nat.min m (rank (nb x) l)) (nb x) l) as H'.
    unfold top in H'. rewrite take_take, Nat.min_id in H'. apply H'. lia. }
  pose proof (min_rank_le m (live p) b). rewrite take_take, Nat.min_l by lia.
  rewrite Hu. replace (min_rank m (live p) b) with (Nat.min (min_rank m (live p) b) m) by lia.
  rewrite <- take_take. by apply Forall_take.
Qed.

Lemma pool_step_inv p p' : pool_step p p' → wf p ∧ settled p → wf p' ∧ settled p'.
Proof.
  intros Hstep [Hwf Hset]. destruct Hstep as
    [p nn r p' Hok Hf Hi|p b p' Hb Hi|p p1 i p' Hr Hu|p p' Hr|ready p o p' Hc|p i p' Hfr
    |p o p' Hn|p r p' Ha|p n p' Hn Hdr].
  - destruct (insert_correct p nn Hwf Hok Hf) as (q & Hq & Hins). simplify_eq.
    split; [apply Hins|by eapply inserted_settled].
  - destruct (insert_batch_correct p Hwf b Hb) as (q & Hq & Hins). simplify_eq.
    split; [apply Hins|by eapply batch_inserted_settled].
  - unfold next_read_nbr in Hr.
    destruct (advance_to_flagged_correct p Hwf Hset)
      as (j & q & Hq & Hwf1 & Hset1 & Hrs & Hcur & _ & _ & _ & _ & _).
    rewrite Hq in Hr. simpl in Hr. destruct (Nat.ltb j (cur_list_size_ q)) eqn:E; simplify_eq.
    bool_to_prop. destruct (update_settled p1 i clear_flag Hwf1 Hset1 E clear_flag_key)
      as (q & Hq' & ? & ? & _ & _); [done..|]. by simplify_eq.
  - unfold next_read_nbr in Hr.
    destruct (advance_to_flagged_correct p Hwf Hset) as (j & q & Hq & ? & ? & _).
    rewrite Hq in Hr. simpl in Hr. destruct (Nat.ltb j (cur_list_size_ q)); by simplify_eq.
  - destruct (next_calc_nbr_correct p Hwf Hset ready) as (o' & q & Hq & ? & ? & _). by simplify_eq.
  - unfold frontier in Hfr. destruct (skip_visited_correct p Hwf Hset) as (q & Hq & Hwf1 & Hset1 & _).
    rewrite Hq in Hfr. simpl in Hfr.
    destruct (advance_to_flagged_correct q Hwf1 Hset1) as (j & q' & Hq' & ? & ? & _). by simplify_eq.
  - destruct (next_unvisited_correct p Hwf Hset) as (o' & q & Hq & ? & ? & _). by simplify_eq.
  - unfold all_visited in Ha. destruct (skip_visited_correct p Hwf Hset) as (q & Hq & ? & ? & _).
    rewrite Hq in Ha. simpl in Ha. by simplify_eq.
  - destruct (drop_front_correct p n Hwf Hn) as (q & Hq & ? & ? & _). by simplify_eq.
Qed.

(** ** The properties *)

(** C9: [insert_batch] is equivalent to calling [insert] on each element of the
    batch.  For a well-formed pool and a batch without NaN whose ids are distinct
    and not in the pool, both run without an out-of-range access and end with the
    same live window, size and markers. *)
Theorem insert_batch_matches_inserts p b :
  wf p → batch_ok (live p) b →
  ∃ p1 p2, insert_batch p b = Some p1 ∧ insert_all p b = Some p2
  ∧ live p1 = live p2 ∧ cur_list_size_ p1 = cur_list_size_ p2
  ∧ first_unvisited_ p1 = first_unvisited_ p2 ∧ send_marker_ p1 = send_marker_ p2 ∧ wf p1.
Proof.
  intros Hwf Hb.
  destruct (insert_batch_correct p Hwf b Hb) as (p1 & H1 & [W1 L1 V1 F1 S1]).
  destruct (insert_all_correct p b Hwf Hb) as (p2 & H2 & [W2 L2 V2 F2 S2]).
  exists p1, p2. split_and!; try congruence.
  rewrite <- (live_length p1 W1), <- (live_length p2 W2). congruence.
Qed.

(** [insert] of a new candidate is memory safe, keeps the pool sorted and
    within [l_pool_], and leaves exactly the [l_pool_] closest candidates of the
    old window and the new one; the returned index is where the candidate now is,
    or [l_pool_] when the pool was full of better ones, and neither frontier
    skips an unsettled candidate. *)
Theorem insert_keeps_closest p nn :
  wf p → settled p → ok nn → fresh nn (live p) →
  ∃ r p', insert p nn = Some (r, p') ∧ wf p' ∧ settled p'
  ∧ live p' = take (l_pool_ p) (sorted_insert nn (live p))
  ∧ (r < l_pool_ p → live p' !! r = Some nn)
  ∧ (r = l_pool_ p → live p' = live p).
Proof.
  intros Hwf Hset Hnn Hf.
  destruct (insert_correct p nn Hwf Hnn Hf) as (p' & Hi & Hins).
  pose proof Hins as [Hwf' Hl Hlive Hfu Hsend]. pose proof (rank_le nn (live p)) as Hrk.
  rewrite live_length in Hrk by done. pose proof (wf_cur p Hwf).
  eexists _, p'. split; [exact Hi|]. split_and!; try done; [by eapply inserted_settled| |].
  - intros Hr. rewrite Hlive. unfold top. rewrite lookup_take_lt by done.
    rewrite Nat.min_l by lia. unfold sorted_insert.
    rewrite lookup_app_r; rewrite length_take, live_length, Nat.min_l by done; [|lia].
    by rewrite Nat.sub_diag.
  - intros Hr. rewrite Hlive. apply top_full; [done..|lia|lia].
Qed.

(** C22: every pool a search reaches from [reset] by the pool operations, in any
    order, is well formed, its calc marker has only visited candidates in front of
    it and its read marker only candidates whose flag is cleared. *)
Theorem reachable_pool_sound l c p :
  1 ≤ l → rtc pool_step (reset l c) p → wf p ∧ settled p.
Proof.
  intros Hl Hr. revert p Hr. apply (rtc_ind_r (λ p, wf p ∧ settled p) (reset l c)).
  - split; [by apply wf_reset|]. by split.
  - intros q q' _ Hstep Hq. by eapply pool_step_inv.
Qed.

(** [next_unvisited] returns the closest unvisited candidate and marks it, so
    one candidate fewer remains; it returns none exactly when all are visited, so
    a search that stops inserting ends after [unvisited_count] more calls. *)
Theorem next_unvisited_closest p :
  wf p → settled p →
  ∃ o p', next_unvisited p = Some (o, p') ∧ wf p' ∧ settled p' ∧
  match o with
  | Some i => (∃ a, live p !! i = Some a ∧ visited a = false)
              ∧ (∀ k a, k < i → live p !! k = Some a → visited a = true)
              ∧ live p' = alter set_visited i (live p)
              ∧ S (unvisited_count (live p')) = unvisited_count (live p)
  | None => live p' = live p ∧ unvisited_count (live p) = 0
  end.
Proof.
  intros Hwf Hset.
  destruct (next_unvisited_correct p Hwf Hset) as (o & p' & H & Hwf' & Hset' & _ & Ho).
  exists o, p'. split_and!; try done. destruct o as [i|].
  - destruct Ho as ((a & Ha & Hva) & Hall & Hlive). split_and!; [by eauto|done|done|].
    rewrite Hlive. by apply (unvisited_count_pick _ _ _ a).
  - destruct Ho as [Hlive Hall]. split; [done|]. by apply unvisited_count_zero.
Qed.

(** [next_calc_nbr] returns the closest candidate that is unvisited and whose
    page has landed, marking it visited and clearing its flag, and [nullptr] only
    when there is no such candidate in the pool. *)
Theorem next_calc_nbr_closest_ready p ready :
  wf p → settled p →
  ∃ o p', next_calc_nbr ready p = Some (o, p') ∧ wf p' ∧ settled p' ∧
  match o with
  | Some i => (∃ a, live p !! i = Some a ∧ visited a = false ∧ ready (id a) = true)
              ∧ (∀ k a, k < i → live p !! k = Some a → visited a = true ∨ ready (id a) = false)
              ∧ live p' = alter (λ a, set_visited (clear_flag a)) i (live p)
  | None => p' = p ∧ ∀ k a, live p !! k = Some a → visited a = true ∨ ready (id a) = false
  end.
Proof.
  intros Hwf Hset.
  destruct (next_calc_nbr_correct p Hwf Hset ready) as (o & p' & H & Hwf' & Hset' & _ & Ho).
  exists o, p'. by split_and!.
Qed.

(** [rescore_seeds] restores the invariant from unsorted seeds: the window is
    the sorted list of the seeds with their new distances, their flag and visited
    bits kept, and both markers are rewound. *)
Theorem rescore_seeds_restores p ds :
  1 ≤ l_pool_ p → cur_list_size_ p ≤ l_pool_ p → l_pool_ p + 1 ≤ length (retset_ p) →
  cur_list_size_ p ≤ length ds → Forall (λ d, not_nan d) ds → NoDup (id <$> live p) →
  ∃ p', rescore_seeds p ds = Some p' ∧ wf p' ∧ settled p' ∧ nsorted (live p')
  ∧ live p' ≡ₚ rescored p ds.
Proof.
  intros H1 H2 H3 H4 H5 H6.
  destruct (rescore_seeds_correct p ds H1 H2 H3 H4 H5 H6) as (p' & H & Hwf & Hset & _ & Hp).
  exists p'. split_and!; try done. apply Hwf.
Qed.

(** inserting a candidate that is already in a pool that is not full reports
    the duplicate with the index [size + 1] but still enlarges the window: the
    slot behind it, whatever it holds (the placeholder with id 0 after [reset]),
    becomes a live candidate. *)
Theorem insert_duplicate_grows p nn i a :
  wf p → cur_list_size_ p < l_pool_ p → live p !! i = Some a →
  id a = id nn → distance a = distance nn →
  ∃ p' x, insert p nn = Some (cur_list_size_ p + 1, p')
  ∧ retset_ p !! cur_list_size_ p = Some x ∧ live p' = live p ++ [x].
Proof.
  intros Hwf Hcur Ha Hid Hd. pose proof Hwf as [? ? ? Hok Hs ? ?].
  pose proof (lookup_lt_Some _ _ _ Ha) as Hi. rewrite live_length in Hi by done.
  destruct (lookup_lt_is_Some_2 (retset_ p) (cur_list_size_ p)) as [x Hx]; [lia|].
  destruct (retset_lookup p Hwf (cur_list_size_ p - 1)) as (w & Hw & _); [lia|].
  unfold insert. rewrite (proj2 (Nat.eqb_neq _ _)) by lia. rewrite Hw. simpl.
  rewrite (proj2 (Nat.eqb_neq _ _)), andb_false_r by lia.
  rewrite (insert_into_pool_duplicate (retset_ p) (cur_list_size_ p) nn a i) by (done || lia).
  simpl. rewrite (proj2 (Nat.ltb_lt _ _)) by lia.
  rewrite (proj2 (Nat.leb_gt _ _)) by lia. simpl.
  eexists _, x. split; [done|]. split; [done|]. unfold live. simpl. by apply take_S_r.
Qed.

(** ** Witnesses *)

(** A pool of size 3 that holds three candidates, and one with room left. *)
Definition f_of (n : positive) : float := SpecFloat.binary_normalize f32_prec f32_emax (Zpos n) 0 false.

Definition ex_room : CandidatePool :=
  mkPool [new_neighbor 7 (f_of 2); new_neighbor 4 (f_of 5); unfilled; unfilled; unfilled] 2 4 0 0.
Definition ex_full : CandidatePool :=
  mkPool [set_visited (new_neighbor 7 (f_of 2)); new_neighbor 4 (f_of 5); new_neighbor 9 (f_of 8); unfilled]
    3 3 1 0.
Definition ex_batch : list (Z * float) := [(1%Z, f_of 9); (2%Z, f_of 3); (5%Z, f_of 1); (8%Z, f_of 2)].

Ltac solve_nsorted :=
  repeat (constructor; [|repeat (constructor; [by apply nlt_spec|]); constructor]); constructor.

Lemma ex_room_wf : wf ex_room.
Proof.
  constructor; simpl; try lia; [repeat constructor|]. unfold live; simpl. solve_nsorted.
Qed.

Lemma ex_full_wf : wf ex_full ∧ settled ex_full.
Proof.
  split; [|split; repeat constructor].
  constructor; simpl; try lia; [repeat constructor|]. unfold live; simpl. solve_nsorted.
Qed.

Lemma ex_batch_ok : batch_ok (live ex_full) ex_batch.
Proof. split; [repeat constructor|]. by apply (bool_decide_unpack _). Qed.

Lemma insert_batch_matches_inserts_witness :
  insert_batch ex_full ex_batch
  = Some (mkPool [new_neighbor 5 (f_of 1); set_visited (new_neighbor 7 (f_of 2)); new_neighbor 8 (f_of 2);
                  unfilled] 3 3 0 0)
  ∧ ∃ p1 p2, insert_batch ex_full ex_batch = Some p1 ∧ insert_all ex_full ex_batch = Some p2
    ∧ live p1 = live p2 ∧ cur_list_size_ p1 = cur_list_size_ p2
    ∧ first_unvisited_ p1 = first_unvisited_ p2 ∧ send_marker_ p1 = send_marker_ p2 ∧ wf p1.
Proof.
  split; [vm_compute; reflexivity|].
  apply insert_batch_matches_inserts; [apply ex_full_wf|apply ex_batch_ok].
Defined.

Lemma insert_keeps_closest_witness :
  ∃ r p', insert ex_full (new_neighbor 3 (f_of 4)) = Some (r, p') ∧ wf p' ∧ settled p'
  ∧ live p' = take 3 (sorted_insert (new_neighbor 3 (f_of 4)) (live ex_full))
  ∧ (r < 3 → live p' !! r = Some (new_neighbor 3 (f_of 4)))
  ∧ (r = 3 → live p' = live ex_full).
Proof.
  apply (insert_keeps_closest ex_full); [apply ex_full_wf..|reflexivity|].
  by apply (bool_decide_unpack _).
Defined.

Lemma reachable_pool_sound_witness :
  ∃ p, rtc pool_step (reset 3 4) p ∧ live p = [new_neighbor 3 (f_of 4)] ∧ wf p ∧ settled p.
Proof.
  assert (Hr : rtc pool_step (reset 3 4)
    (mkPool [new_neighbor 3 (f_of 4); unfilled; unfilled; unfilled] 1 3 0 0)).
  { eapply rtc_once, (step_insert _ (new_neighbor 3 (f_of 4)) 0); [reflexivity| |vm_compute; reflexivity].
    by apply (bool_decide_unpack _). }
  eexists.
  split; [exact Hr|]. split; [reflexivity|]. apply (reachable_pool_sound 3 4); [lia|exact Hr].
Defined.

Lemma next_unvisited_closest_witness :
  ∃ o p', next_unvisited ex_full = Some (o, p') ∧ wf p' ∧ settled p' ∧
  match o with
  | Some i => (∃ a, live ex_full !! i = Some a ∧ visited a = false)
              ∧ (∀ k a, k < i → live ex_full !! k = Some a → visited a = true)
              ∧ live p' = alter set_visited i (live ex_full)
              ∧ S (unvisited_count (live p')) = unvisited_count (live ex_full)
  | None => live p' = live ex_full ∧ unvisited_count (live ex_full) = 0
  end.
Proof. apply (next_unvisited_closest ex_full); apply ex_full_wf. Defined.

Lemma next_calc_nbr_closest_ready_witness :
  next_calc_nbr (λ i, Z.eqb i 9) ex_full
  = Some (Some 2, mkPool [set_visited (new_neighbor 7 (f_of 2)); new_neighbor 4 (f_of 5);
                          set_visited (clear_flag (new_neighbor 9 (f_of 8))); unfilled] 3 3 1 0)
  ∧ ∃ o p', next_calc_nbr (λ i, Z.eqb i 9) ex_full = Some (o, p') ∧ wf p' ∧ settled p' ∧
  match o with
  | Some i => (∃ a, live ex_full !! i = Some a ∧ visited a = false ∧ Z.eqb (id a) 9 = true)
              ∧ (∀ k a, k < i → live ex_full !! k = Some a → visited a = true ∨ Z.eqb (id a) 9 = false)
              ∧ live p' = alter (λ a, set_visited (clear_flag a)) i (live ex_full)
  | None => p' = ex_full ∧ ∀ k a, live ex_full !! k = Some a → visited a = true ∨ Z.eqb (id a) 9 = false
  end.
Proof.
  split; [vm_compute; reflexivity|].
  apply (next_calc_nbr_closest_ready ex_full (λ i, Z.eqb i 9)); apply ex_full_wf.
Defined.

Lemma rescore_seeds_restores_witness :
  ∃ p', rescore_seeds ex_room [f_of 9; f_of 1] = Some p' ∧ wf p' ∧ settled p' ∧ nsorted (live p')
  ∧ live p' ≡ₚ rescored ex_room [f_of 9; f_of 1].
Proof.
  apply (rescore_seeds_restores ex_room [f_of 9; f_of 1]); simpl; try lia; [repeat constructor|].
  by apply (bool_decide_unpack _).
Defined.

Lemma insert_duplicate_grows_witness :
  ∃ p' x, insert ex_room (new_neighbor 4 (f_of 5)) = Some (3, p')
  ∧ retset_ ex_room !! 2 = Some x ∧ live p' = live ex_room ++ [x].
Proof.
  apply (insert_duplicate_grows ex_room (new_neighbor 4 (f_of 5)) 1 (new_neighbor 4 (f_of 5)));
    [apply ex_room_wf|simpl; lia|reflexivity..].
Defined.
