(* ===== verification/VisitedSet.v ===== *)
(** * The per-query visited set ([include/utils/visited_set.h])

    [FlatVisitedSet] is an insert-only hash set of 32-bit ids: open addressing,
    linear probing, a power-of-two table, growth at load factor 1/2, and the
    value [0xFFFFFFFF] as the empty marker with a side flag.  The file proves
    that it implements a finite set: [insert] terminates and reports exactly
    whether the id was new, for every id and across growth. *)

From S2P Require Import Prelude.

Module VisitedSet.

Definition kEmpty : Z := UINT32_MAX.

Record FlatVisitedSet := mkSet {
  slots_ : list Z;
  mask_ : Z;
  size_ : nat;
  has_empty_key_ : bool
}.

(** The capacity loop of the constructor: [while (cap < min_capacity) cap <<= 1]
    ([None]: the doubling of [size_t] never reaches [min_capacity]). *)
Fixpoint capacity_loop (fuel : nat) (cap min_capacity : Z) : option Z :=
  if Z.ltb cap min_capacity then
    match fuel with
    | 0 => None
    | S fuel => capacity_loop fuel (u64 (Z.shiftl cap 1)) min_capacity
    end
  else Some cap.

Definition make (min_capacity : Z) : option FlatVisitedSet :=
  cap ← capacity_loop 64 8 min_capacity;
  Some (mkSet (replicate (Z.to_nat cap) kEmpty) (cap - 1) 0 false).

Definition clear (s : FlatVisitedSet) : FlatVisitedSet :=
  mkSet (if Nat.eqb (size_ s) 0 then slots_ s else replicate (length (slots_ s)) kEmpty)
    (mask_ s) 0 false.

Definition slot_of (mask key : Z) : Z := Z.land (u32 (key * 0x9E3779B1)) mask.

(** [i = (i + 1) & mask_]. *)
Definition next_slot (mask : Z) (i : nat) : nat := Z.to_nat (Z.land (Z.of_nat i + 1) mask).

(** The probe of [grow]: the first empty slot. *)
Fixpoint probe_empty (fuel : nat) (slots : list Z) (mask : Z) (i : nat) : option nat :=
  match fuel with
  | 0 => None
  | S fuel =>
      v ← slots !! i;
      if Z.eqb v kEmpty then Some i else probe_empty fuel slots mask (next_slot mask i)
  end.

Fixpoint rehash (old slots : list Z) (mask : Z) : option (list Z) :=
  match old with
  | [] => Some slots
  | v :: old' =>
      if Z.eqb v kEmpty then rehash old' slots mask
      else
        i ← probe_empty (length slots) slots mask (Z.to_nat (slot_of mask v));
        slots' ← vset slots i v;
        rehash old' slots' mask
  end.

Definition grow (s : FlatVisitedSet) : option FlatVisitedSet :=
  let n := length (slots_ s) * 2 in
  let mask := (Z.of_nat n - 1)%Z in
  slots ← rehash (slots_ s) (replicate n kEmpty) mask;
  Some (mkSet slots mask (size_ s) (has_empty_key_ s)).

(** The probe of [insert]: the index where it stops and whether the key is
    there. *)
Fixpoint probe (fuel : nat) (slots : list Z) (mask key : Z) (i : nat) : option (nat * bool) :=
  match fuel with
  | 0 => None
  | S fuel =>
      v ← slots !! i;
      if Z.eqb v key then Some (i, true)
      else if Z.eqb v kEmpty then Some (i, false)
      else probe fuel slots mask key (next_slot mask i)
  end.

Definition insert (s : FlatVisitedSet) (key : Z) : option (bool * FlatVisitedSet) :=
  if Z.eqb key kEmpty then
    Some (negb (has_empty_key_ s), mkSet (slots_ s) (mask_ s) (size_ s) true)
  else
    '(i, found) ← probe (length (slots_ s)) (slots_ s) (mask_ s) key (Z.to_nat (slot_of (mask_ s) key));
    if (found : bool) then Some (false, s)
    else
      slots ← vset (slots_ s) i key;
      let s' := mkSet slots (mask_ s) (S (size_ s)) (has_empty_key_ s) in
      if Nat.ltb (length slots) (2 * S (size_ s)) then s'' ← grow s'; Some (true, s'')
      else Some (true, s').

(** ** The abstract set *)

Definition occupied (slots : list Z) : list Z := List.filter (λ v, negb (Z.eqb v kEmpty)) slots.

Definition keys (s : FlatVisitedSet) : gset Z :=
  list_to_set (occupied (slots_ s)) ∪ (if has_empty_key_ s then {[kEmpty]} else ∅).

(** ** Tables *)

(** A table of [n = 2^k] slots; [at_ h d] is the [d]-th slot of the probe
    sequence from [h]. *)
Definition at_ (n h d : nat) : nat := (h + d) mod n.
Definition home (mask v : Z) : nat := Z.to_nat (slot_of mask v).

(** Everything stored is reachable by its probe sequence, and stored once. *)
Record table (mask : Z) (slots : list Z) : Prop := mkTable {
  tb_pow : ∃ k : nat, length slots = 2 ^ k;
  tb_mask : mask = (Z.of_nat (length slots) - 1)%Z;
  tb_chain : ∀ j v, slots !! j = Some v → v ≠ kEmpty →
    ∃ d, d < length slots ∧ j = at_ (length slots) (home mask v) d
    ∧ ∀ d', d' < d → slots !! at_ (length slots) (home mask v) d' ≠ Some kEmpty;
  tb_once : NoDup (occupied slots)
}.

Section tables.
Context (mask : Z) (slots : list Z) (Ht : table mask slots).
Let n := length slots.

Lemma table_pos : 0 < n.
Proof. destruct (tb_pow _ _ Ht) as [k Hk]. unfold n. rewrite Hk. apply Nat.neq_0_lt_0, Nat.pow_nonzero. lia. Qed.

Lemma land_mask z : (0 ≤ z)%Z → Z.land z mask = (z mod Z.of_nat n)%Z.
Proof.
  intros Hz. rewrite (tb_mask _ _ Ht). destruct (tb_pow _ _ Ht) as [k Hk]. unfold n. rewrite Hk.
  rewrite Nat2Z.inj_pow. change (Z.of_nat 2) with 2%Z.
  replace (2 ^ Z.of_nat k - 1)%Z with (Z.ones (Z.of_nat k)) by (rewrite Z.ones_equiv; lia).
  apply Z.land_ones. lia.
Qed.

Lemma next_slot_at i : next_slot mask i = (i + 1) mod n.
Proof.
  unfold next_slot. rewrite land_mask by lia. pose proof table_pos.
  rewrite <- (Nat2Z.id ((i + 1) mod n)). f_equal. rewrite Nat2Z.inj_mod. f_equal. lia.
Qed.

Lemma next_slot_probe h d : next_slot mask (at_ n h d) = at_ n h (S d).
Proof.
  rewrite next_slot_at. unfold at_. pose proof table_pos.
  rewrite Nat.Div0.add_mod_idemp_l. f_equal. lia.
Qed.

Lemma at_lt h d : at_ n h d < n.
Proof. apply Nat.mod_upper_bound. pose proof table_pos. lia. Qed.

Lemma home_lt v : home mask v < n.
Proof.
  unfold home, slot_of. pose proof (u32_range (v * 0x9E3779B1)) as Hr. unfold is_u32 in Hr.
  rewrite land_mask by lia. pose proof table_pos.
  pose proof (Z.mod_pos_bound (u32 (v * 0x9E3779B1)) (Z.of_nat n)). lia.
Qed.

Lemma at_home v : at_ n (home mask v) 0 = home mask v.
Proof. unfold at_. rewrite Nat.add_0_r. apply Nat.mod_small, home_lt. Qed.

(** The probe sequence visits every slot. *)
Lemma at_surj h j : j < n → ∃ d, d < n ∧ at_ n h d = j.
Proof.
  intros Hj. pose proof table_pos. exists ((j + (n - h mod n)) mod n).
  split; [apply Nat.mod_upper_bound; lia|]. unfold at_.
  rewrite Nat.Div0.add_mod_idemp_r.
  pose proof (Nat.div_mod_eq h n). pose proof (Nat.mod_upper_bound h n).
  replace (h + (j + (n - h mod n))) with (j + (h / n + 1) * n) by lia.
  rewrite Nat.Div0.mod_add. by apply Nat.mod_small.
Qed.
End tables.

Lemma occupied_insert slots j key :
  slots !! j = Some kEmpty → key ≠ kEmpty → occupied (<[j := key]> slots) ≡ₚ key :: occupied slots.
Proof.
  intros Hj Hk. pose proof (lookup_lt_Some _ _ _ Hj).
  rewrite insert_take_drop by done. rewrite <- (take_drop_middle _ _ _ Hj) at 3.
  unfold occupied. rewrite !List.filter_app. simpl.
  rewrite (proj2 (Z.eqb_neq _ _) Hk). simpl. by rewrite <- Permutation_middle.
Qed.

Lemma elem_of_occupied slots v : v ∈ occupied slots ↔ v ∈ slots ∧ v ≠ kEmpty.
Proof.
  unfold occupied. rewrite !list_elem_of_In, List.filter_In, negb_true_iff, Z.eqb_neq. done.
Qed.

Lemma exists_empty slots : length (occupied slots) < length slots → ∃ j, slots !! j = Some kEmpty.
Proof.
  induction slots as [|v slots IH]; simpl; [lia|]. intros H.
  destruct (Z.eqb v kEmpty) eqn:E; bool_to_prop; [exists 0; by subst|].
  simpl in H. destruct IH as [j Hj]; [lia|]. by exists (S j).
Qed.

Lemma probe_empty_probe fuel slots mask i :
  probe_empty fuel slots mask i = fst <$> probe fuel slots mask kEmpty i.
Proof.
  revert i. induction fuel as [|fuel IH]; intros i; simpl; [done|].
  destruct (slots !! i) as [v|]; simpl; [|done]. destruct (Z.eqb v kEmpty); [done|]. apply IH.
Qed.

Section probing.
Context (mask : Z) (slots : list Z) (Ht : table mask slots).
Let n := length slots.

(** The probe from the [d]-th slot stops at the first slot that holds the key or
    is empty. *)
Lemma probe_steps key h fuel d d1 :
  d ≤ d1 < d + fuel → slots !! at_ n h d1 = Some kEmpty →
  ∃ d0 b, probe fuel slots mask key (at_ n h d) = Some (at_ n h d0, b)
  ∧ d ≤ d0 ≤ d1
  ∧ slots !! at_ n h d0 = Some (if (b : bool) then key else kEmpty)
  ∧ (b = false → key ≠ kEmpty)
  ∧ ∀ d', d ≤ d' < d0 → slots !! at_ n h d' ≠ Some kEmpty ∧ slots !! at_ n h d' ≠ Some key.
Proof.
  revert d. induction fuel as [|fuel IH]; intros d Hd He; [lia|]. simpl.
  destruct (lookup_lt_is_Some_2 slots (at_ n h d)) as [v Hv]; [by apply (at_lt mask)|].
  rewrite Hv. simpl. destruct (Z.eqb v key) eqn:E1; bool_to_prop.
  { exists d, true. subst v. split_and!; [done|lia|lia|done|done|intros; lia]. }
  destruct (Z.eqb v kEmpty) eqn:E2; bool_to_prop.
  { exists d, false. subst v. split_and!; [done|lia|lia|done|congruence|intros; lia]. }
  rewrite (next_slot_probe mask slots Ht). fold n.
  assert (d ≠ d1) by (intros ->; congruence).
  destruct (IH (S d)) as (d0 & b & -> & Hd0 & Hs & Hb & Hall); [lia|done|].
  exists d0, b. split_and!; try done; [lia|lia|].
  intros d' Hd'. destruct (decide (d' = d)) as [->|]; [rewrite Hv; split; congruence|]. apply Hall. lia.
Qed.

Lemma probe_home key :
  length (occupied slots) < n →
  ∃ d0 b, probe n slots mask key (home mask key) = Some (at_ n (home mask key) d0, b)
  ∧ d0 < n ∧ slots !! at_ n (home mask key) d0 = Some (if (b : bool) then key else kEmpty)
  ∧ (b = false → key ≠ kEmpty)
  ∧ ∀ d', d' < d0 → slots !! at_ n (home mask key) d' ≠ Some kEmpty
                    ∧ slots !! at_ n (home mask key) d' ≠ Some key.
Proof.
  intros Hocc. destruct (exists_empty slots Hocc) as [j Hj].
  destruct (at_surj mask slots Ht (home mask key) j) as (d1 & Hd1 & <-); [by eapply lookup_lt_Some|].
  destruct (probe_steps key (home mask key) n 0 d1) as (d0 & b & Hp & Hd & Hs & Hb & Hall);
    [unfold n; lia|done|].
  unfold n in Hp at 2. rewrite (at_home mask slots Ht) in Hp.
  exists d0, b. split_and!; try done; [unfold n; lia|]. intros d' Hd'. apply Hall. lia.
Qed.

(** The probe finds a key exactly when the table stores it. *)
Lemma probe_found key d0 b :
  key ≠ kEmpty →
  slots !! at_ n (home mask key) d0 = Some (if (b : bool) then key else kEmpty) →
  (∀ d', d' < d0 → slots !! at_ n (home mask key) d' ≠ Some kEmpty
                   ∧ slots !! at_ n (home mask key) d' ≠ Some key) →
  b = true ↔ key ∈ occupied slots.
Proof.
  intros Hk Hs Hall. rewrite elem_of_occupied. split.
  - intros ->. split; [|done]. by eapply list_elem_of_lookup_2.
  - intros [Hin _]. destruct b; [done|].
    apply list_elem_of_lookup in Hin as [j Hj].
    destruct (tb_chain _ _ Ht j key Hj Hk) as (d & Hd & -> & Hchain).
    destruct (Nat.lt_total d d0) as [H|[->|H]].
    + by destruct (Hall d H) as [_ []].
    + unfold n in Hs. congruence.
    + by destruct (Hchain d0 H).
Qed.

(** Storing an absent key in the empty slot its probe ends at. *)
Lemma table_store key d0 :
  key ≠ kEmpty → key ∉ occupied slots → d0 < n →
  slots !! at_ n (home mask key) d0 = Some kEmpty →
  (∀ d', d' < d0 → slots !! at_ n (home mask key) d' ≠ Some kEmpty) →
  table mask (<[at_ n (home mask key) d0 := key]> slots).
Proof.
  intros Hk Hnin Hd0 Hs Hall. set (j0 := at_ n (home mask key) d0) in *.
  assert (Hj0 : j0 < length slots) by (by eapply lookup_lt_Some).
  destruct Ht as [Hpow Hmask Hchain Honce]. split; rewrite ?length_insert; try done.
  - assert (Hkeep : ∀ j, slots !! j ≠ Some kEmpty → <[j0:=key]> slots !! j ≠ Some kEmpty).
    { intros j Hj. destruct (decide (j = j0)) as [->|]; [by destruct Hj|].
      by rewrite list_lookup_insert_ne. }
    intros j v Hj Hv. destruct (decide (j = j0)) as [->|Hne].
    + rewrite list_lookup_insert_eq in Hj by done. simplify_eq.
      exists d0. split_and!; [done|done|]. intros d' Hd'. apply Hkeep. by apply Hall.
    + rewrite list_lookup_insert_ne in Hj by done.
      destruct (Hchain j v Hj Hv) as (d & Hd & Hjd & Hc).
      exists d. split_and!; [done|done|]. intros d' Hd'. apply Hkeep. by apply Hc.
  - rewrite occupied_insert by done. by constructor.
Qed.
End probing.

Lemma rehash_correct old slots mask :
  table mask slots → NoDup (occupied old ++ occupied slots) →
  length (occupied old) + length (occupied slots) < length slots →
  ∃ slots', rehash old slots mask = Some slots' ∧ table mask slots'
  ∧ length slots' = length slots ∧ occupied slots' ≡ₚ occupied old ++ occupied slots.
Proof.
  revert slots. induction old as [|v old IH]; intros slots Ht Hnd Hlen; simpl; [by exists slots|].
  unfold occupied in Hnd, Hlen at 1. simpl in Hnd, Hlen. fold (occupied old) in Hnd, Hlen.
  fold (occupied slots) in Hnd. destruct (Z.eqb v kEmpty) eqn:E; simpl in *; [by apply IH|].
  bool_to_prop. apply NoDup_cons in Hnd as [Hv Hnd].
  assert (Hvs : v ∉ occupied slots) by set_solver.
  destruct (exists_empty slots) as [j Hj]; [lia|].
  destruct (at_surj mask slots Ht (home mask v) j) as (d1 & Hd1 & Hjd); [by eapply lookup_lt_Some|].
  rewrite <- Hjd in Hj.
  destruct (probe_steps mask slots Ht kEmpty (home mask v) (length slots) 0 d1)
    as (d0 & b & Hp & Hd & Hs & Hb & Hall); [lia|done|].
  rewrite (at_home mask slots Ht) in Hp. rewrite probe_empty_probe. fold (home mask v).
  rewrite Hp. simpl.
  assert (Hs' : slots !! at_ (length slots) (home mask v) d0 = Some kEmpty) by (by destruct b).
  rewrite vset_Some by (by eapply lookup_lt_Some). simpl.
  assert (Ht' : table mask (<[at_ (length slots) (home mask v) d0 := v]> slots)).
  { apply table_store; try done; [lia|]. intros d' Hd'. apply Hall. lia. }
  pose proof (occupied_insert slots _ v Hs' E) as Hocc.
  destruct (IH _ Ht') as (slots' & -> & Ht'' & Hl & Hp').
  - rewrite Hocc. rewrite <- Permutation_middle. by constructor.
  - rewrite Hocc. simpl. rewrite length_insert. lia.
  - exists slots'. rewrite length_insert in Hl. split_and!; try done.
    rewrite Hp', Hocc. by rewrite <- Permutation_middle.
Qed.

(** ** The set *)

Record inv (s : FlatVisitedSet) : Prop := mkInv {
  inv_table : table (mask_ s) (slots_ s);
  inv_size : size_ s = length (occupied (slots_ s));
  inv_load : 2 * size_ s ≤ length (slots_ s)
}.

Lemma occupied_replicate n : occupied (replicate n kEmpty) = [].
Proof. by induction n. Qed.

Lemma empty_table (k : nat) : table (Z.of_nat (2 ^ k) - 1) (replicate (2 ^ k) kEmpty).
Proof.
  split; rewrite ?length_replicate.
  - by exists k.
  - done.
  - intros j v Hj Hv. apply lookup_replicate in Hj as [-> _]. done.
  - rewrite occupied_replicate. constructor.
Qed.

Lemma grow_correct s :
  table (mask_ s) (slots_ s) → size_ s = length (occupied (slots_ s)) → size_ s ≤ length (slots_ s) →
  ∃ s', grow s = Some s' ∧ inv s' ∧ keys s' = keys s ∧ has_empty_key_ s' = has_empty_key_ s.
Proof.
  intros Ht Hsize Hle. unfold grow. destruct (tb_pow _ _ Ht) as [k Hk].
  assert (Hn : length (slots_ s) * 2 = 2 ^ (S k)) by (rewrite Hk; simpl; lia).
  rewrite Hn. pose proof (empty_table (S k)) as Ht'.
  assert (Hpos : 0 < 2 ^ k) by (apply Nat.neq_0_lt_0, Nat.pow_nonzero; lia).
  destruct (rehash_correct (slots_ s) _ _ Ht') as (slots' & -> & Ht'' & Hl & Hp).
  - rewrite occupied_replicate, app_nil_r. apply Ht.
  - rewrite occupied_replicate, length_replicate. simpl. lia.
  - simpl. eexists. split; [done|].
    rewrite occupied_replicate, app_nil_r in Hp. rewrite length_replicate in Hl.
    split; [|split; [|done]].
    + split; simpl; [done|by rewrite Hp|]. rewrite Hl. simpl. lia.
    + unfold keys. simpl. f_equal. apply set_eq. intros x. rewrite !elem_of_list_to_set. by rewrite Hp.
Qed.

Lemma keys_store s j key :
  slots_ s !! j = Some kEmpty → key ≠ kEmpty →
  keys (mkSet (<[j := key]> (slots_ s)) (mask_ s) (S (size_ s)) (has_empty_key_ s)) = {[key]} ∪ keys s.
Proof.
  intros Hj Hk. unfold keys. simpl. apply set_eq. intros x.
  pose proof (occupied_insert _ _ _ Hj Hk) as Hp.
  rewrite !elem_of_union, !elem_of_list_to_set, Hp. set_solver.
Qed.

(** On any table that satisfies the invariant [insert] terminates, returns true
    exactly when the id was not in the set, and adds exactly that id, the empty
    marker included, also when the insertion grows the table. *)
Lemma visited_insert_correct s key :
  inv s → ∃ s', insert s key = Some (bool_decide (key ∉ keys s), s')
  ∧ inv s' ∧ keys s' = {[key]} ∪ keys s.
Proof.
  intros [Ht Hsize Hload]. unfold insert. destruct (Z.eqb key kEmpty) eqn:E; bool_to_prop.
  - subst key. eexists. split; [|split].
    + f_equal. f_equal. unfold keys. destruct (has_empty_key_ s); simpl; symmetry;
        [apply bool_decide_eq_false_2; set_solver|apply bool_decide_eq_true_2].
      intros Hin. apply elem_of_union in Hin as [Hin|Hin]; [|set_solver].
      apply elem_of_list_to_set, elem_of_occupied in Hin. tauto.
    + by split.
    + unfold keys. simpl. destruct (has_empty_key_ s); set_solver.
  - pose proof (table_pos _ _ Ht) as Hpos.
    destruct (probe_home _ _ Ht key) as (d0 & b & Hp & Hd0 & Hs & Hb & Hall); [lia|].
    fold (home (mask_ s) key). rewrite Hp. simpl.
    pose proof (probe_found _ _ Ht key d0 b E Hs Hall) as Hfound.
    assert (Hkey : key ∈ keys s ↔ key ∈ occupied (slots_ s)).
    { unfold keys. destruct (has_empty_key_ s); set_solver. }
    destruct b.
    + assert (key ∈ keys s) by (apply Hkey, Hfound; done).
      rewrite bool_decide_eq_false_2 by tauto. eexists. split; [done|]. split; [done|]. set_solver.
    + assert (Hnin : key ∉ keys s) by (rewrite Hkey, <- Hfound; done).
      rewrite bool_decide_eq_true_2 by done.
      rewrite vset_Some by (by eapply lookup_lt_Some). simpl.
      pose proof (keys_store s _ key Hs E) as Hks.
      assert (Ht' : table (mask_ s) (<[at_ (length (slots_ s)) (home (mask_ s) key) d0 := key]> (slots_ s))).
      { apply table_store; try done; [by rewrite <- Hkey|]. intros d' Hd'. by apply Hall. }
      pose proof (occupied_insert _ _ key Hs E) as Hocc.
      rewrite length_insert. case_if.
      * edestruct grow_correct as (s'' & Hg & Hinv & Hkg & _); [..|rewrite Hg]; simpl.
        -- done.
        -- rewrite Hocc. simpl. lia.
        -- rewrite length_insert. lia.
        -- eexists. split; [done|]. split; [done|]. by rewrite Hkg, Hks.
      * eexists. split; [done|]. split; [|done]. split; simpl; [done|rewrite Hocc; simpl; lia|].
        rewrite length_insert. lia.
Qed.

(** The capacity loop reaches a power of two: 64 doublings of [size_t] are enough
    for any [min_capacity] up to [2^63]. *)
Lemma capacity_loop_correct fuel (k : nat) min_cap :
  k ≤ 63 → 63 ≤ k + fuel → (min_cap ≤ 2 ^ 63)%Z →
  ∃ k' : nat, capacity_loop fuel (2 ^ Z.of_nat k) min_cap = Some (2 ^ Z.of_nat k')%Z
  ∧ k ≤ k' ∧ (min_cap ≤ 2 ^ Z.of_nat k')%Z.
Proof.
  revert k. induction fuel as [|fuel IH]; intros k Hk Hf Hm; simpl; case_if; try (by exists k).
  - assert (k = 63) as -> by lia. change (Z.of_nat 63) with 63%Z in *. lia.
  - assert (k ≠ 63). { intros ->. change (Z.of_nat 63) with 63%Z in *. lia. }
    rewrite Z.shiftl_mul_pow2 by lia.
    replace (2 ^ Z.of_nat k * 2 ^ 1)%Z with (2 ^ Z.of_nat (S k))%Z
      by (rewrite Nat2Z.inj_succ, Z.pow_succ_r by lia; lia).
    rewrite u64_small.
    + destruct (IH (S k)) as (k' & ? & ? & ?); [lia..|]. exists k'. split_and!; try done. lia.
    + split; [apply Z.pow_nonneg; lia|]. apply Z.pow_lt_mono_r; lia.
Qed.

Lemma make_correct min_cap :
  (min_cap ≤ 2 ^ 63)%Z →
  ∃ s, make min_cap = Some s ∧ inv s ∧ keys s = ∅ ∧ (min_cap ≤ Z.of_nat (length (slots_ s)))%Z.
Proof.
  intros Hm. unfold make.
  destruct (capacity_loop_correct 64 3 min_cap) as (k & Hc & _ & Hle); [lia..|].
  change (2 ^ Z.of_nat 3)%Z with 8%Z in Hc. rewrite Hc. simpl.
  replace (2 ^ Z.of_nat k)%Z with (Z.of_nat (2 ^ k)) in *
    by (rewrite Nat2Z.inj_pow; done).
  rewrite Nat2Z.id. eexists. split; [done|]. split_and!.
  - split; simpl; rewrite ?occupied_replicate; [apply empty_table|done|lia].
  - unfold keys. simpl. rewrite occupied_replicate. set_solver.
  - simpl. by rewrite length_replicate.
Qed.

Lemma occupied_nil_empty slots : length (occupied slots) = 0 → slots = replicate (length slots) kEmpty.
Proof.
  induction slots as [|v slots IH]; simpl; [done|].
  destruct (Z.eqb v kEmpty) eqn:E; simpl; [|done]. bool_to_prop. subst. intros. by f_equal; apply IH.
Qed.

Lemma clear_correct s :
  inv s → inv (clear s) ∧ keys (clear s) = ∅ ∧ length (slots_ (clear s)) = length (slots_ s).
Proof.
  intros [Ht Hsize _].
  assert (slots_ (clear s) = replicate (length (slots_ s)) kEmpty) as Hs.
  { simpl. case_if; [|done]. apply occupied_nil_empty. lia. }
  destruct (tb_pow _ _ Ht) as [k Hk]. split_and!.
  - split; rewrite Hs.
    + simpl. rewrite (tb_mask _ _ Ht), Hk. apply empty_table.
    + by rewrite occupied_replicate.
    + simpl. lia.
  - unfold keys. rewrite Hs, occupied_replicate. set_solver.
  - by rewrite Hs, length_replicate.
Qed.

(** ** Runs

    A pooled query buffer calls [insert] and [clear] in any order; [run] collects
    what the inserts returned, and [run_spec] is the same run over a set. *)
Inductive op := Insert (key : Z) | Clear.

Fixpoint run (s : FlatVisitedSet) (ops : list op) : option (list bool) :=
  match ops with
  | [] => Some []
  | Insert key :: ops => '(b, s') ← insert s key; (b ::.) <$> run s' ops
  | Clear :: ops => run (clear s) ops
  end.

Fixpoint run_spec (X : gset Z) (ops : list op) : list bool :=
  match ops with
  | [] => []
  | Insert key :: ops => bool_decide (key ∉ X) :: run_spec ({[key]} ∪ X) ops
  | Clear :: ops => run_spec ∅ ops
  end.

Lemma run_correct s ops : inv s → run s ops = Some (run_spec (keys s) ops).
Proof.
  revert s. induction ops as [|[key|] ops IH]; intros s Hs; [done|..]; cbn [run run_spec].
  - destruct (visited_insert_correct s key Hs) as (s' & -> & Hs' & <-). simpl. by rewrite (IH s').
  - destruct (clear_correct s Hs) as (Hc & Hk & _). rewrite (IH _ Hc). by rewrite Hk.
Qed.

(** C23: [FlatVisitedSet] implements a set of 32-bit ids: built with any initial
    capacity up to [2^63], every sequence of [insert] and [clear] terminates, and
    each [insert] returns true exactly when its id was not inserted since the last
    [clear], the empty marker included, across growth of the table. *)
Theorem visited_set_refines_set min_cap ops :
  (min_cap ≤ 2 ^ 63)%Z →
  ∃ s, make min_cap = Some s ∧ run s ops = Some (run_spec ∅ ops).
Proof.
  intros Hm. destruct (make_correct min_cap Hm) as (s & Hs & Hinv & Hk & _).
  exists s. split; [done|]. rewrite <- Hk. by apply run_correct.
Qed.

Lemma visited_set_refines_set_witness :
  (∃ s, make 8 = Some s ∧ run s (Insert 7 :: Insert kEmpty :: Insert 7 :: Insert kEmpty :: Clear :: [Insert 7])
        = Some (run_spec ∅ (Insert 7 :: Insert kEmpty :: Insert 7 :: Insert kEmpty :: Clear :: [Insert 7])))
  ∧ run_spec ∅ (Insert 7 :: Insert kEmpty :: Insert 7 :: Insert kEmpty :: Clear :: [Insert 7])
    = [true; true; false; false; true].
Proof.
  split; [|by vm_compute].
  apply (visited_set_refines_set 8 (Insert 7 :: Insert kEmpty :: Insert 7 :: Insert kEmpty :: Clear :: [Insert 7])).
  lia.
Defined.

End VisitedSet.
