(* ===== verification/Queues.v ===== *)
(** * The queues of the I/O and merge threads ([include/utils/concurrent_queue.h])

    [SPSCQueue] is a lock-free ring of one producer and one consumer,
    [MPSCQueue] one ring per producer with a round-robin consumer,
    [ConcurrentQueue] a mutex-protected [std::queue].

    The ring is modelled twice: as whole calls ([push], [pop], [pop_all_fn]) and
    as a step relation in which the producer and the consumer interleave at every
    access of a shared location ([step]).  The atomics are release/acquire pairs
    with one writer each, so an interleaving of the accesses is an execution of
    the code.  The step relation is shown to be a FIFO queue without a race on a
    slot, and the calls to be its atomic summary. *)

From S2P Require Import Prelude.

Module Queues.

(** ** ConcurrentQueue: each operation runs under [mut] *)
Section concurrent_queue.
Context {T : Type}.

Record ConcurrentQueue := mkCQ { cq_q : list T; null_T : T }.

Definition cq_size (c : ConcurrentQueue) : nat := length (cq_q c).
Definition cq_empty (c : ConcurrentQueue) : bool := Nat.eqb (cq_size c) 0.
Definition cq_push (c : ConcurrentQueue) (x : T) : ConcurrentQueue := mkCQ (cq_q c ++ [x]) (null_T c).
Definition cq_insert (c : ConcurrentQueue) (xs : list T) : ConcurrentQueue := foldl cq_push c xs.
Definition cq_pop (c : ConcurrentQueue) : T * ConcurrentQueue :=
  match cq_q c with
  | [] => (null_T c, c)
  | x :: q => (x, mkCQ q (null_T c))
  end.

Lemma cq_insert_app c xs : cq_insert c xs = mkCQ (cq_q c ++ xs) (null_T c).
Proof.
  revert c. induction xs as [|x xs IH]; intros [q n]; simpl; [by rewrite app_nil_r|].
  unfold cq_insert in *. simpl. rewrite IH. simpl. by rewrite <- app_assoc.
Qed.
End concurrent_queue.
Arguments ConcurrentQueue T : clear implicits.

(** ** SPSCQueue: whole calls *)
Section spsc.
Context {T : Type}.

Record SPSCQueue := mkQ { sq_head : nat; sq_tail : nat; cap : nat; sq_data : list T }.

(** [new T[cap]]: [d] stands for the elements' initial values. *)
Definition make (d : T) (cap : nat) : SPSCQueue := mkQ 0 0 cap (replicate cap d).

Definition next (cap t : nat) : nat := (t + 1) mod cap.

Definition push (q : SPSCQueue) (x : T) : option (bool * SPSCQueue) :=
  let t := sq_tail q in
  if Nat.eqb (next (cap q) t) (sq_head q) then Some (false, q)
  else
    data ← vset (sq_data q) t x;
    Some (true, mkQ (sq_head q) (next (cap q) t) (cap q) data).

(** [None] in the first component: the call returned false. *)
Definition pop (q : SPSCQueue) : option (option T * SPSCQueue) :=
  let h := sq_head q in
  if Nat.eqb h (sq_tail q) then Some (None, q)
  else
    x ← sq_data q !! h;
    Some (Some x, mkQ (next (cap q) h) (sq_tail q) (cap q) (sq_data q)).

(** The loop of [pop_all_fn]: the elements handed to [func], in order. *)
Fixpoint pop_all_loop (fuel : nat) (data : list T) (cap h t : nat) : option (list T * nat) :=
  if Nat.eqb h t then Some ([], h)
  else match fuel with
       | 0 => None
       | S fuel =>
           x ← data !! h;
           '(xs, h') ← pop_all_loop fuel data cap (next cap h) t;
           Some (x :: xs, h')
       end.

Definition pop_all_fn (q : SPSCQueue) : option (list T * SPSCQueue) :=
  let h := sq_head q in
  let t := sq_tail q in
  if Nat.eqb h t then Some ([], q)
  else
    '(xs, h') ← pop_all_loop (cap q) (sq_data q) (cap q) h t;
    Some (xs, mkQ h' (sq_tail q) (cap q) (sq_data q)).

(** ** SPSCQueue: the interleaved accesses

    The program counters hold the locals of the calls in progress. *)
Inductive producer :=
  | PIdle
  | PTail (x : T) (t : nat)               (* loaded sq_tail *)
  | PRoom (x : T) (t nxt : nat)           (* loaded sq_head, not full *)
  | PWrote (x : T) (nxt : nat).           (* stored sq_data[t] *)

Inductive consumer :=
  | CIdle
  | CHead (h : nat)                       (* pop: loaded sq_head *)
  | CTail (h t : nat)                     (* pop: loaded sq_tail *)
  | CGot (h : nat)                        (* pop: read sq_data[h] *)
  | CAllHead (h : nat)                    (* pop_all_fn: loaded sq_head *)
  | CAll (h t : nat).                     (* pop_all_fn: at the loop test *)

(** [sent] and [rcvd] record the elements of the pushes that returned true and
    the elements handed to the consumer. *)
Record sys := mkSys {
  q_ : SPSCQueue; prod_ : producer; cons_ : consumer; sent : list T; rcvd : list T
}.

Inductive step : sys → sys → Prop :=
  | push_load_tail q c ss rs x :
      step (mkSys q PIdle c ss rs) (mkSys q (PTail x (sq_tail q)) c ss rs)
  | push_full q c ss rs x t :
      next (cap q) t = sq_head q →
      step (mkSys q (PTail x t) c ss rs) (mkSys q PIdle c ss rs)
  | push_load_head q c ss rs x t :
      next (cap q) t ≠ sq_head q →
      step (mkSys q (PTail x t) c ss rs) (mkSys q (PRoom x t (next (cap q) t)) c ss rs)
  | push_write q c ss rs x t nxt data :
      vset (sq_data q) t x = Some data →
      step (mkSys q (PRoom x t nxt) c ss rs)
           (mkSys (mkQ (sq_head q) (sq_tail q) (cap q) data) (PWrote x nxt) c ss rs)
  | push_store_tail q c ss rs x nxt :
      step (mkSys q (PWrote x nxt) c ss rs)
           (mkSys (mkQ (sq_head q) nxt (cap q) (sq_data q)) PIdle c (ss ++ [x]) rs)
  | pop_load_head q p ss rs :
      step (mkSys q p CIdle ss rs) (mkSys q p (CHead (sq_head q)) ss rs)
  | pop_load_tail q p ss rs h :
      step (mkSys q p (CHead h) ss rs) (mkSys q p (CTail h (sq_tail q)) ss rs)
  | pop_empty q p ss rs h t :
      h = t → step (mkSys q p (CTail h t) ss rs) (mkSys q p CIdle ss rs)
  | pop_read q p ss rs h t x :
      h ≠ t → sq_data q !! h = Some x →
      step (mkSys q p (CTail h t) ss rs) (mkSys q p (CGot h) ss (rs ++ [x]))
  | pop_store_head q p ss rs h :
      step (mkSys q p (CGot h) ss rs)
           (mkSys (mkQ (next (cap q) h) (sq_tail q) (cap q) (sq_data q)) p CIdle ss rs)
  | all_load_head q p ss rs :
      step (mkSys q p CIdle ss rs) (mkSys q p (CAllHead (sq_head q)) ss rs)
  | all_empty q p ss rs h :
      h = sq_tail q → step (mkSys q p (CAllHead h) ss rs) (mkSys q p CIdle ss rs)
  | all_load_tail q p ss rs h :
      h ≠ sq_tail q →
      step (mkSys q p (CAllHead h) ss rs) (mkSys q p (CAll h (sq_tail q)) ss rs)
  | all_read q p ss rs h t x :
      h ≠ t → sq_data q !! h = Some x →
      step (mkSys q p (CAll h t) ss rs) (mkSys q p (CAll (next (cap q) h) t) ss (rs ++ [x]))
  | all_store_head q p ss rs h t :
      h = t →
      step (mkSys q p (CAll h t) ss rs)
           (mkSys (mkQ h (sq_tail q) (cap q) (sq_data q)) p CIdle ss rs).

Definition init (d : T) (cap : nat) : sys := mkSys (make d cap) PIdle CIdle [] [].

(** ** The invariant

    [c] counts the head slots released, [length sent] the slots published; the
    ring holds [sent] between them. *)
Record ring (q : SPSCQueue) (ss : list T) (c : nat) : Prop := mkRing {
  rg_len : length (sq_data q) = cap q;
  rg_cap : 0 < cap q;
  rg_head : sq_head q = c mod cap q;
  rg_tail : sq_tail q = length ss mod cap q;
  rg_le : c ≤ length ss;
  rg_room : length ss - c < cap q;
  rg_data : ∀ k x, c ≤ k → ss !! k = Some x → sq_data q !! (k mod cap q) = Some x
}.

Definition prod_ok (q : SPSCQueue) (ss : list T) (c : nat) (p : producer) : Prop :=
  match p with
  | PIdle => True
  | PTail _ t => t = sq_tail q
  | PRoom _ t nxt => t = sq_tail q ∧ nxt = next (cap q) t ∧ length ss - c + 1 < cap q
  | PWrote x nxt => nxt = next (cap q) (sq_tail q) ∧ length ss - c + 1 < cap q
                    ∧ sq_data q !! sq_tail q = Some x
  end.

(** [i] counts the elements read and not yet released. *)
Definition cons_ok (q : SPSCQueue) (ss : list T) (c i : nat) (p : consumer) : Prop :=
  match p with
  | CIdle => i = 0
  | CHead h | CAllHead h => i = 0 ∧ h = sq_head q
  | CTail h t => i = 0 ∧ h = sq_head q ∧ ∃ k, c ≤ k ≤ length ss ∧ t = k mod cap q
  | CGot h => i = 1 ∧ h = sq_head q ∧ c + 1 ≤ length ss
  | CAll h t => h = (c + i) mod cap q ∧ ∃ k, c + i ≤ k ≤ length ss ∧ t = k mod cap q
  end.

Definition sys_inv (s : sys) : Prop :=
  ∃ c i, ring (q_ s) (sent s) c ∧ prod_ok (q_ s) (sent s) c (prod_ s)
  ∧ cons_ok (q_ s) (sent s) c i (cons_ s) ∧ rcvd s = take (c + i) (sent s) ∧ c + i ≤ length (sent s).

Lemma next_mod n k : 0 < n → next n (k mod n) = (k + 1) mod n.
Proof. intros. unfold next. by rewrite Nat.Div0.add_mod_idemp_l. Qed.

(** Positions less than a ring apart share a slot only when equal. *)
Lemma mod_inj n a b : 0 < n → a ≤ b → b - a < n → a mod n = b mod n → a = b.
Proof.
  intros Hn Hle Hd He.
  pose proof (Nat.div_mod_eq a n). pose proof (Nat.div_mod_eq b n).
  rewrite He in *. assert (b / n = a / n); nia.
Qed.

(** The producer's checks see the head at worst too early, which only makes the
    ring look fuller. *)
Lemma room_of_head q ss c :
  ring q ss c → next (cap q) (sq_tail q) ≠ sq_head q → length ss - c + 1 < cap q.
Proof.
  intros [Hl Hc Hh Ht Hle Hr Hd] Hne. rewrite Ht, next_mod, Hh in Hne by done.
  destruct (decide (length ss - c + 1 = cap q)) as [He|]; [|lia]. destruct Hne.
  replace (length ss + 1) with (c + 1 * cap q) by lia. by rewrite Nat.Div0.mod_add.
Qed.

Lemma ring_write q ss c x :
  ring q ss c → length ss - c + 1 < cap q →
  ∃ data, vset (sq_data q) (sq_tail q) x = Some data
  ∧ ring (mkQ (sq_head q) (sq_tail q) (cap q) data) ss c ∧ data !! sq_tail q = Some x.
Proof.
  intros [Hl Hc Hh Ht Hle Hr Hd] Hroom.
  assert (Hlt : sq_tail q < length (sq_data q)) by (rewrite Ht, Hl; apply Nat.mod_upper_bound; lia).
  rewrite vset_Some by done. eexists. split; [done|]. split; [|by rewrite list_lookup_insert_eq].
  split; simpl; try done; [by rewrite length_insert|].
  intros k y Hk Hy. pose proof (lookup_lt_Some _ _ _ Hy).
  rewrite list_lookup_insert_ne; [by apply Hd|]. rewrite Ht. intros He.
  apply eq_sym, mod_inj in He; lia.
Qed.

Lemma ring_publish q ss c x :
  ring q ss c → length ss - c + 1 < cap q → sq_data q !! sq_tail q = Some x →
  ring (mkQ (sq_head q) (next (cap q) (sq_tail q)) (cap q) (sq_data q)) (ss ++ [x]) c.
Proof.
  intros [Hl Hc Hh Ht Hle Hr Hd] Hroom Hx. split; simpl; rewrite ?length_app; simpl; try done; try lia.
  - by rewrite Ht, next_mod.
  - intros k y Hk Hy. apply lookup_app_Some in Hy as [Hy|[Hge Hy]]; [by apply Hd|].
    apply list_lookup_singleton_Some in Hy as [Hz <-].
    assert (k = length ss) as -> by lia. by rewrite <- Ht.
Qed.

Lemma ring_read q ss c k : ring q ss c → c ≤ k < length ss → ∃ x, ss !! k = Some x ∧ sq_data q !! (k mod cap q) = Some x.
Proof.
  intros Hr Hk. destruct (lookup_lt_is_Some_2 ss k) as [x Hx]; [lia|].
  exists x. split; [done|]. by apply (rg_data _ _ _ Hr); [lia|].
Qed.

Lemma ring_release q ss c c' :
  ring q ss c → c ≤ c' ≤ length ss →
  ring (mkQ (c' mod cap q) (sq_tail q) (cap q) (sq_data q)) ss c'.
Proof.
  intros [Hl Hc Hh Ht Hle Hr Hd] Hc'. split; simpl; try done; try lia.
  intros k x Hk Hx. apply Hd; [lia|done].
Qed.

(** The snapshot positions of the consumer stay ahead of its reads. *)
Lemma snapshot_ne q ss c a k :
  ring q ss c → c ≤ a ≤ k → k ≤ length ss → a mod cap q ≠ k mod cap q → a < k.
Proof. intros _ Ha Hk Hne. destruct (decide (a = k)) as [->|]; [done|lia]. Qed.

Lemma take_snoc (ss : list T) k x : ss !! k = Some x → take k ss ++ [x] = take (k + 1) ss.
Proof. intros Hx. by rewrite Nat.add_1_r, (take_S_r _ _ _ Hx). Qed.

Lemma cons_ok_publish q ss c i p x nxt :
  cons_ok q ss c i p → cons_ok (mkQ (sq_head q) nxt (cap q) (sq_data q)) (ss ++ [x]) c i p.
Proof.
  destruct p; simpl; rewrite ?length_app; simpl; intros; destruct_and?; split_and?; try done; try lia;
    match goal with H : ∃ k, _ |- _ => destruct H as (k & ? & ?); exists k end; split; try done; lia.
Qed.

Lemma prod_ok_release q ss c c' h p :
  c ≤ c' → prod_ok q ss c p → prod_ok (mkQ h (sq_tail q) (cap q) (sq_data q)) ss c' p.
Proof. destruct p; simpl; intros; destruct_and?; split_and?; try done; lia. Qed.

Lemma step_inv s s' : sys_inv s → step s s' → sys_inv s'.
Proof.
  intros (c & i & Hr & Hp & Hc & Hrc & Hci) Hst.
  destruct Hst; simpl in *; destruct_and?; subst.
  - by exists c, i.
  - by exists c, i.
  - exists c, i. simpl. split_and!; try done. by apply room_of_head.
  - destruct (ring_write _ _ _ x Hr) as (data' & Hv & Hr' & Hx); [done|]. simplify_eq.
    exists c, i. simpl. split_and!; done.
  - exists c, i. simpl. split_and!; try done.
    + by apply ring_publish.
    + by apply cons_ok_publish.
    + by rewrite take_app_le by lia.
    + rewrite length_app. lia.
  - by exists c, 0.
  - exists c, 0. simpl. split_and!; try done. exists (length ss). pose proof Hr as [].
    split; [lia|done].
  - by exists c, 0.
  - destruct_and?. destruct H4 as (k & Hk & ->). subst. rewrite Nat.add_0_r in *.
    pose proof Hr as Hr'. destruct Hr' as [Hl Hcp Hh Ht Hle Hrm Hd]. rewrite Hh in *.
    assert (c < k) by (eapply (snapshot_ne q ss c c k); [done|lia|lia|done]).
    destruct (ring_read _ _ _ c Hr) as (y & Hy & Hyd); [lia|]. simplify_eq.
    exists c, 1. simpl. split_and!; try done; try lia. by rewrite take_snoc.
  - exists (c + 1), 0. simpl. rewrite Nat.add_0_r. split_and!; try done.
    + pose proof Hr as [Hl Hcp Hh Ht Hle Hrm Hd]. rewrite Hh, next_mod by done. apply (ring_release _ _ c); [done|lia].
    + apply (prod_ok_release _ _ c); [lia|done].
  - by exists c, 0.
  - by exists c, 0.
  - exists c, 0. simpl. rewrite Nat.add_0_r in *. pose proof Hr as [].
    split_and!; try done. exists (length ss). split; [lia|done].
  - destruct H2 as (k & Hk & ->). pose proof Hr as [Hl Hcp Hh Ht Hle Hrm Hd].
    assert (c + i < k) by (eapply (snapshot_ne q ss c (c + i) k); [done|lia|lia|done]).
    destruct (ring_read _ _ _ (c + i) Hr) as (y & Hy & Hyd); [lia|]. simplify_eq.
    exists c, (i + 1). simpl. rewrite Nat.add_assoc. split_and!; try done; try lia.
    + by rewrite next_mod.
    + exists k. split; [lia|done].
    + by rewrite take_snoc.
  - exists (c + i), 0. simpl. rewrite Nat.add_0_r. split_and!; try done.
    + apply (ring_release _ _ c); [done|lia].
    + apply (prod_ok_release _ _ c); [lia|done].
Qed.

Lemma init_inv d n : 0 < n → sys_inv (init d n).
Proof.
  intros Hn. exists 0, 0. simpl. split_and!; try done.
  split; simpl; rewrite ?length_replicate; try done; try lia.
  - by rewrite Nat.Div0.mod_0_l.
  - by rewrite Nat.Div0.mod_0_l.
Qed.

Lemma reachable_inv d n s : 0 < n → rtc step (init d n) s → sys_inv s.
Proof.
  intros Hn. revert s. apply rtc_ind_r; [by apply init_inv|]. eauto using step_inv.
Qed.

Lemma step_cap s s' : step s s' → cap (q_ s') = cap (q_ s).
Proof. by destruct 1. Qed.

Lemma reachable_cap d n s : rtc step (init d n) s → cap (q_ s) = n.
Proof. revert s. apply rtc_ind_r; [done|]. intros s1 s2 _ Hst <-. by apply step_cap. Qed.

(** The slot the consumer reads next. *)
Definition reads (p : consumer) : option nat :=
  match p with
  | CTail h t | CAll h t => if Nat.eqb h t then None else Some h
  | _ => None
  end.

(** The slot the producer writes next. *)
Definition writes (p : producer) : option nat :=
  match p with PRoom _ t _ => Some t | _ => None end.

Lemma reads_slot q ss c i p h :
  ring q ss c → cons_ok q ss c i p → reads p = Some h → h = (c + i) mod cap q ∧ c + i < length ss.
Proof.
  intros Hr Hc. pose proof (rg_head _ _ _ Hr).
  destruct p; simpl in *; try done; case_if; try done; intros ?; simplify_eq; destruct_and?; subst.
  - destruct H3 as (k & Hk & ->). rewrite Nat.add_0_r. split; [done|].
    enough (c < k) by lia. eapply (snapshot_ne q ss c c k); [done|lia|lia|congruence].
  - destruct H1 as (k & Hk & ->). split; [done|].
    enough (c + i < k) by lia. eapply (snapshot_ne q ss c (c + i) k); [done|lia|lia|congruence].
Qed.

(** ** Whole calls on a ring *)

(** The elements a ring holds. *)
Definition holds (q : SPSCQueue) (l : list T) : Prop := ∃ ss c, ring q ss c ∧ l = drop c ss.

Lemma push_correct q l x :
  holds q l →
  ∃ q', push q x = Some (bool_decide (length l + 1 < cap q), q') ∧ cap q' = cap q
  ∧ holds q' (if bool_decide (length l + 1 < cap q) then l ++ [x] else l).
Proof.
  intros (ss & c & Hr & ->). rewrite length_drop. unfold push. case_if.
  - assert (length ss - c + 1 = cap q) as He.
    { destruct Hr as [Hl Hc Hh Ht Hle Hr Hd]. rewrite Ht, next_mod, Hh in Heqb by done.
      destruct (decide (length ss + 1 - c < cap q)); [|lia].
      apply eq_sym, mod_inj in Heqb; lia. }
    rewrite bool_decide_eq_false_2 by lia. exists q. split_and!; try done. by exists ss, c.
  - pose proof (room_of_head _ _ _ Hr Heqb) as Hroom.
    rewrite bool_decide_eq_true_2 by done.
    destruct (ring_write _ _ _ x Hr Hroom) as (data & -> & Hr' & Hx). simpl.
    eexists. split; [done|]. split; [done|]. exists (ss ++ [x]), c.
    split; [by apply (ring_publish _ _ _ _ Hr')|]. rewrite drop_app_le; [done|apply Hr].
Qed.

Lemma holds_front q ss c :
  ring q ss c → c < length ss → (c mod cap q =? length ss mod cap q) = false.
Proof.
  intros [Hl Hc Hh Ht Hle Hr Hd] Hlt. apply Nat.eqb_neq. intros He. apply mod_inj in He; lia.
Qed.

Lemma pop_correct q l :
  holds q l → ∃ q', pop q = Some (head l, q') ∧ cap q' = cap q ∧ holds q' (tail l).
Proof.
  intros (ss & c & Hr & ->). pose proof Hr as [Hl Hc Hh Ht Hle Hrm Hd]. unfold pop. rewrite Hh, Ht.
  destruct (decide (c = length ss)) as [->|].
  - rewrite Nat.eqb_refl, drop_all. exists q. split_and!; try done. exists ss, (length ss).
    by rewrite drop_all.
  - rewrite (holds_front _ _ _ Hr) by lia. destruct (ring_read _ _ _ c Hr) as (x & Hx & ->); [lia|].
    simpl. rewrite (drop_S _ _ _ Hx). eexists. split; [done|]. split; [done|].
    exists ss, (S c). split; [|done]. rewrite next_mod, Nat.add_1_r by done.
    rewrite <- Ht. apply (ring_release _ _ c); [done|lia].
Qed.

Lemma pop_all_loop_correct q ss c k fuel :
  ring q ss c → c ≤ k ≤ length ss → length ss - k ≤ fuel →
  pop_all_loop fuel (sq_data q) (cap q) (k mod cap q) (length ss mod cap q)
  = Some (drop k ss, length ss mod cap q).
Proof.
  intros Hr. pose proof Hr as [Hl Hc Hh Ht Hle Hrm Hd].
  revert k. induction fuel as [|fuel IH]; intros k Hk Hf; simpl; case_if.
  - apply mod_inj in Heqb; [|lia..]. subst. by rewrite drop_all.
  - assert (k = length ss) by lia. congruence.
  - apply mod_inj in Heqb; [|lia..]. subst. by rewrite drop_all.
  - assert (k ≠ length ss) by congruence.
    destruct (ring_read _ _ _ k Hr) as (x & Hx & ->); [lia|]. simpl.
    rewrite next_mod, Nat.add_1_r by done. rewrite IH by lia. simpl. by rewrite (drop_S _ _ _ Hx).
Qed.

Lemma pop_all_fn_correct q l :
  holds q l → ∃ q', pop_all_fn q = Some (l, q') ∧ cap q' = cap q ∧ holds q' [].
Proof.
  intros (ss & c & Hr & ->). pose proof Hr as [Hl Hc Hh Ht Hle Hrm Hd]. unfold pop_all_fn. rewrite Hh, Ht.
  destruct (decide (c = length ss)) as [->|].
  - rewrite Nat.eqb_refl, drop_all. exists q. split_and!; try done. exists ss, (length ss).
    by rewrite drop_all.
  - rewrite (holds_front _ _ _ Hr) by lia. rewrite (pop_all_loop_correct _ _ c) by (done || lia). simpl.
    eexists. split; [done|]. split; [done|]. exists ss, (length ss). rewrite drop_all. split; [|done].
    rewrite <- Ht at 2. apply (ring_release _ _ c); [done|lia].
Qed.

Lemma make_holds d n : 0 < n → holds (make d n) [].
Proof.
  intros Hn. destruct (init_inv d n Hn) as (c & i & Hr & _ & _ & _ & Hi). simpl in *.
  exists [], c. split; [done|]. by destruct c.
Qed.

(** C29: with one producer and one consumer interleaved at every shared access,
    [SPSCQueue] is a FIFO queue: what the consumer has received ([pop] or
    [pop_all_fn]) is always a prefix of what was pushed successfully, at most
    [cap - 1] elements are in flight, every data access is in bounds, and the slot
    the producer writes next is never one the consumer is reading. *)
Theorem spsc_concurrent_fifo d n s :
  0 < n → rtc step (init d n) s →
  rcvd s `prefix_of` sent s
  ∧ length (sent s) < length (rcvd s) + n
  ∧ (∀ t, writes (prod_ s) = Some t → t < length (sq_data (q_ s)) ∧ reads (cons_ s) ≠ Some t)
  ∧ (∀ h, reads (cons_ s) = Some h →
       sq_data (q_ s) !! h = sent s !! length (rcvd s) ∧ h < length (sq_data (q_ s))).
Proof.
  intros Hn Hs. pose proof (reachable_cap _ _ _ Hs) as Hcap.
  destruct (reachable_inv _ _ _ Hn Hs) as (c & i & Hr & Hp & Hc & Hrc & Hci).
  pose proof Hr as [Hl Hpos Hh Ht Hle Hrm Hd]. rewrite Hcap in *.
  assert (length (rcvd s) = c + i) as Hlen by (rewrite Hrc, length_take; lia).
  assert (Hread : ∀ h, reads (cons_ s) = Some h → h = (c + i) mod n ∧ c + i < length (sent s)).
  { intros h Hh'. rewrite <- Hcap. by eapply reads_slot. }
  split_and!.
  - rewrite Hrc. apply prefix_take.
  - lia.
  - intros t Hw. destruct (prod_ s) as [| |x t' nxt|]; simpl in *; simplify_eq.
    destruct Hp as (-> & _ & Hroom). rewrite Ht, Hl.
    split; [apply Nat.mod_upper_bound; lia|]. intros Hrd. destruct (Hread _ Hrd) as [He Hlt].
    apply eq_sym, mod_inj in He; lia.
  - intros h Hrd. destruct (Hread _ Hrd) as [-> Hlt]. rewrite Hlen, Hl.
    split; [|apply Nat.mod_upper_bound; lia].
    destruct (ring_read _ _ _ (c + i) Hr) as (x & Hx & Hxd); [lia|]. rewrite Hcap in Hxd. congruence.
Qed.

End spsc.
Arguments SPSCQueue T : clear implicits.
Arguments sys T : clear implicits.

(** A run of the ring: a push, then a pop that overlaps a second push. *)
Lemma spsc_concurrent_fifo_witness :
  ∃ s, rtc step (init 0 2) s ∧ sent s = [7] ∧ rcvd s = [7] ∧ rcvd s `prefix_of` sent s.
Proof.
  set (q1 := mkQ 0 1 2 [7; 0]).
  assert (rtc step (init 0 2) (mkSys q1 (PTail 8 1) (CGot 0) [7] [7])) as Hrun.
  { eapply rtc_l; [apply (push_load_tail _ _ _ _ 7)|].
    eapply rtc_l; [apply push_load_head; done|].
    eapply rtc_l; [by apply push_write|].
    eapply rtc_l; [apply push_store_tail|].
    eapply rtc_l; [apply pop_load_head|].
    eapply rtc_l; [apply (push_load_tail _ _ _ _ 8)|].
    eapply rtc_l; [apply pop_load_tail|].
    eapply rtc_l; [by apply pop_read with (x := 7)|]. apply rtc_refl. }
  eexists. split; [exact Hrun|]. split; [done|]. split; [done|].
  apply (spsc_concurrent_fifo 0 2 _ ltac:(lia) Hrun).
Defined.

(** ** MPSCQueue

    One ring per producer.  [None]: an access out of bounds of [qp]. *)
Section mpsc.
Context {T : Type}.

Record MPSCQueue := mkMP { n_producers : nat; cur : nat; qp : list (SPSCQueue T) }.

Definition mp_make (d : T) (n_producers cap_per_producer : nat) : MPSCQueue :=
  mkMP n_producers 0 (replicate n_producers (make d (cap_per_producer + 1))).

Definition mp_push (m : MPSCQueue) (x : T) (producer_id : nat) : option (bool * MPSCQueue) :=
  q ← qp m !! producer_id;
  '(b, q') ← push q x;
  qs ← vset (qp m) producer_id q';
  Some (b, mkMP (n_producers m) (cur m) qs).

(** The loop of [pop]: at most [i] more rings are tried. *)
Fixpoint mp_pop_loop (i : nat) (m : MPSCQueue) : option (option T * MPSCQueue) :=
  match i with
  | 0 => Some (None, m)
  | S i =>
      let t := cur m in
      let cur' := (cur m + 1) mod n_producers m in
      q ← qp m !! t;
      '(r, q') ← pop q;
      qs ← vset (qp m) t q';
      let m' := mkMP (n_producers m) cur' qs in
      match r with
      | Some x => Some (Some x, m')
      | None => mp_pop_loop i m'
      end
  end.

Definition mp_pop (m : MPSCQueue) : option (option T * MPSCQueue) := mp_pop_loop (n_producers m) m.

(** [pop_all_fn]: the calls [func(x, producer_id)] in order. *)
Fixpoint mp_pop_all (qs : list (SPSCQueue T)) (i : nat) : option (list (T * nat) * list (SPSCQueue T)) :=
  match qs with
  | [] => Some ([], [])
  | q :: qs =>
      '(xs, q') ← pop_all_fn q;
      '(ys, qs') ← mp_pop_all qs (S i);
      Some (map (λ x, (x, i)) xs ++ ys, q' :: qs')
  end.

Definition mp_pop_all_fn (m : MPSCQueue) : option (list (T * nat) * MPSCQueue) :=
  '(xs, qs) ← mp_pop_all (qp m) 0;
  Some (xs, mkMP (n_producers m) (cur m) qs).

(** The queues of the producers, and the specification of the round robin: the
    first non-empty queue in cyclic order from [cur]. *)
Record mp_holds (m : MPSCQueue) (ls : list (list T)) : Prop := mkMPHolds {
  mh_n : length (qp m) = n_producers m;
  mh_cur : cur m < n_producers m;
  mh_queues : Forall2 holds (qp m) ls
}.

Definition slot (m : MPSCQueue) (k : nat) : nat := (cur m + k) mod n_producers m.

Lemma mp_pop_loop_correct i m ls :
  mp_holds m ls → i ≤ n_producers m →
  ∃ r m', mp_pop_loop i m = Some (r, m') ∧
    match r with
    | None => m' = mkMP (n_producers m) (slot m i) (qp m) ∧ ∀ k, k < i → ls !! slot m k = Some []
    | Some x => ∃ k l, k < i ∧ ls !! slot m k = Some (x :: l)
        ∧ (∀ k', k' < k → ls !! slot m k' = Some [])
        ∧ cur m' = slot m (S k) ∧ mp_holds m' (<[slot m k := l]> ls)
    end.
Proof.
  revert m. induction i as [|i IH]; intros m Hm Hi; simpl.
  { exists None, m. split; [done|]. split; [|intros; lia]. destruct Hm as [_ Hcur _].
    unfold slot. rewrite Nat.add_0_r, Nat.mod_small by done. by destruct m. }
  destruct Hm as [Hn Hcur Hq]. pose proof (Forall2_length _ _ _ Hq) as Hlen.
  assert (slot m 0 = cur m) as H0 by (unfold slot; rewrite Nat.add_0_r; by apply Nat.mod_small).
  destruct (lookup_lt_is_Some_2 (qp m) (cur m)) as [q Hqc]; [lia|].
  destruct (lookup_lt_is_Some_2 ls (cur m)) as [l Hl]; [lia|].
  pose proof (Forall2_lookup_lr _ _ _ _ _ _ Hq Hqc Hl) as Hql.
  rewrite Hqc. simpl. destruct (pop_correct q l Hql) as (q' & Hpop & _ & Hq').
  rewrite Hpop. simpl. rewrite vset_Some by lia. simpl.
  set (m' := mkMP (n_producers m) ((cur m + 1) mod n_producers m) (<[cur m := q']> (qp m))).
  assert (Hslot : ∀ k, slot m' k = slot m (S k)).
  { intros k. unfold slot, m'. simpl. rewrite Nat.Div0.add_mod_idemp_l. f_equal. lia. }
  assert (Hm' : mp_holds m' (<[cur m := tail l]> ls)).
  { split; simpl; [by rewrite length_insert|apply Nat.mod_upper_bound; lia|].
    by apply Forall2_insert. }
  destruct l as [|x l]; simpl in *.
  - assert (q' = q) as ->.
    { revert Hpop. unfold pop. case_if; [by intros; simplify_eq|].
      destruct (sq_data q !! sq_head q); intros; simplify_eq/=. }
    rewrite list_insert_id in Hm' by done.
    destruct (IH m' Hm') as (r & m'' & -> & Hr); [simpl; lia|]. exists r, m''. split; [done|].
    assert (Hfirst : ∀ k, k < S i → (∀ k', k' < k → ls !! slot m' k' = Some []) →
              ∀ k', k' < S k → ls !! slot m k' = Some []).
    { intros k Hk Hall k' Hk'. destruct k' as [|k']; [by rewrite H0|].
      rewrite <- Hslot. apply Hall. lia. }
    destruct r as [x|].
    + destruct Hr as (k & l & Hk & Hlk & Hall & Hc & Hh). exists (S k), l.
      rewrite !Hslot in *. split_and!; try done; [lia|]. by apply Hfirst; [lia|].
    + destruct Hr as [-> Hall]. rewrite Hslot. split; [|by apply Hfirst; [lia|]].
      subst m'. simpl. by rewrite list_insert_id.
  - exists (Some x), m'. split; [done|]. exists 0, l. rewrite H0. split_and!; try done; try lia.
Qed.

Lemma mp_make_holds d n k : 0 < n → mp_holds (mp_make d n k) (replicate n []).
Proof.
  intros Hn. split; simpl; rewrite ?length_replicate; [done..|].
  apply Forall2_replicate, make_holds. lia.
Qed.

Lemma mp_push_correct m ls x p l :
  mp_holds m ls → ls !! p = Some l →
  ∃ b m', mp_push m x p = Some (b, m') ∧ cur m' = cur m ∧ n_producers m' = n_producers m
  ∧ mp_holds m' (if (b : bool) then <[p := l ++ [x]]> ls else ls).
Proof.
  intros [Hn Hcur Hq] Hl. pose proof (Forall2_length _ _ _ Hq) as Hlen.
  pose proof (lookup_lt_Some _ _ _ Hl).
  unfold mp_push. destruct (lookup_lt_is_Some_2 (qp m) p) as [q Hqp]; [lia|]. rewrite Hqp. simpl.
  pose proof (Forall2_lookup_lr _ _ _ _ _ _ Hq Hqp Hl) as Hql.
  destruct (push_correct q l x Hql) as (q' & -> & _ & Hq'). simpl.
  rewrite vset_Some by lia. simpl. eexists _, _. split; [done|]. split_and!; [done..|].
  split; simpl; [by rewrite length_insert|done|].
  case_bool_decide; [by apply Forall2_insert|].
  rewrite <- (list_insert_id ls p l) by done. by apply Forall2_insert.
Qed.

Lemma mp_pop_all_correct qs ls i :
  Forall2 holds qs ls →
  ∃ qs', mp_pop_all qs i
    = Some (concat (imap (λ j l, map (λ x, (x, i + j)) l) ls), qs')
  ∧ Forall2 holds qs' (replicate (length ls) []).
Proof.
  intros Hq. revert i. induction Hq as [|q l qs ls Hql Hq IH]; intros i; simpl; [by exists []|].
  destruct (pop_all_fn_correct q l Hql) as (q' & -> & _ & Hq'). simpl.
  destruct (IH (S i)) as (qs' & -> & Hqs'). simpl. eexists. split; [|by constructor].
  do 3 f_equal; [by rewrite Nat.add_0_r|]. f_equal. apply imap_ext. intros j l' _. simpl.
  by rewrite Nat.add_succ_r.
Qed.

(** the consumer of [MPSCQueue] round-robins: [pop] takes the oldest element
    of the first non-empty producer queue in cyclic order from [cur], leaves every
    other queue as it was and moves [cur] just past that producer; it reports
    empty only when every queue is empty, leaving the whole state unchanged.  No
    access leaves the queue array. *)
Theorem mpsc_pop_round_robin m ls :
  mp_holds m ls →
  ∃ r m', mp_pop m = Some (r, m') ∧
    match r with
    | None => m' = m ∧ ∀ l, l ∈ ls → l = []
    | Some x => ∃ k l, k < n_producers m ∧ ls !! slot m k = Some (x :: l)
        ∧ (∀ k', k' < k → ls !! slot m k' = Some [])
        ∧ cur m' = slot m (S k) ∧ mp_holds m' (<[slot m k := l]> ls)
    end.
Proof.
  intros Hm. unfold mp_pop.
  destruct (mp_pop_loop_correct (n_producers m) m ls Hm) as (r & m' & -> & Hr); [lia|].
  exists r, m'. split; [done|]. destruct r as [x|]; [done|]. destruct Hr as [-> Hall].
  destruct Hm as [Hn Hcur Hq]. pose proof (Forall2_length _ _ _ Hq) as Hlen. split.
  - assert (slot m (n_producers m) = cur m) as ->; [|by destruct m].
    unfold slot. replace (cur m + n_producers m) with (cur m + 1 * n_producers m) by lia.
    rewrite Nat.Div0.mod_add. by apply Nat.mod_small.
  - intros l Hl. apply list_elem_of_lookup in Hl as [j Hj]. pose proof (lookup_lt_Some _ _ _ Hj).
    assert (slot m ((j + (n_producers m - cur m)) mod n_producers m) = j) as Hs.
    { unfold slot. rewrite Nat.Div0.add_mod_idemp_r.
      replace (cur m + (j + (n_producers m - cur m))) with (j + 1 * n_producers m) by lia.
      rewrite Nat.Div0.mod_add. apply Nat.mod_small. lia. }
    rewrite <- Hs, Hall in Hj; [congruence|]. apply Nat.mod_upper_bound. lia.
Qed.
End mpsc.

(** Two producers, of which only the second has pushed. *)
Lemma mpsc_pop_round_robin_witness :
  ∃ m1 r m2, mp_push (mp_make 0 2 3) 9 1 = Some (true, m1) ∧ mp_pop m1 = Some (r, m2) ∧ r = Some 9.
Proof.
  assert (mp_holds (mkMP 2 0 [make 0 4; mkQ 0 1 4 [9; 0; 0; 0]]) [[]; [9]]) as Hm.
  { split; [done|simpl; lia|]. constructor; [by apply make_holds; lia|]. constructor; [|constructor].
    exists [9], 0. split; [|done]. split; simpl; try done; try lia.
    intros [|k] x _ Hx; simpl in *; [by simplify_eq|done]. }
  pose proof (mpsc_pop_round_robin _ _ Hm) as (r & m' & Hp & Hr).
  eexists _, r, m'. split; [by vm_compute|]. split; [exact Hp|].
  vm_compute in Hp. by simplify_eq.
Defined.

End Queues.
