(* ===== verification/LockTable.v ===== *)
(** * Locks ([include/utils/lock_table.h])

    [RWSpinLock] is modelled at the granularity of its atomic accesses,
    [SparseLockTable] (a lock per key, created on demand and deleted with its
    last holder or waiter) over a heap of locks, [LockTable] (hashed buckets) and
    [ReaderOptSharedMutex] (128 striped mutexes) over their arrays.  Lock
    ownership is not tied to a thread (page locks are taken by insert threads and
    released by background I/O), so a client below is one acquisition. *)

From S2P Require Import Prelude.

Module Locks.

(** ** RWSpinLock: [state_] is 0 when free, -1 when write-held, else the number of
    readers.  The operations as functions on [state_]; [None]: EBUSY. *)
Definition tryrdlock (state : Z) : option Z :=
  if (0 <=? state)%Z && (state <? INT_MAX)%Z then Some (state + 1)%Z else None.

Definition trywrlock (state : Z) : option Z :=
  if (state =? 0)%Z then Some (-1)%Z else None.

Definition unlock (state : Z) : Z :=
  if (state =? -1)%Z then 0%Z else (state - 1)%Z.

(** *** Access by access: a client's program counter *)
Inductive client :=
  | Out
  | RdLoaded (state : Z)     (* tryrdlock: holds a loaded state *)
  | WrLoaded (state : Z)     (* trywrlock: holds a loaded state *)
  | Reading
  | Writing
  | UnlockStore              (* unlock: loaded -1 *)
  | UnlockSub.               (* unlock: loaded another state *)

Record spin := mkSpin { state_ : Z; clients : list client }.

Definition set_client (s : spin) (i : nat) (c : client) : spin := mkSpin (state_ s) (<[i := c]> (clients s)).

Inductive spin_step : spin → spin → Prop :=
  | rd_load s i :
      clients s !! i = Some Out → spin_step s (set_client s i (RdLoaded (state_ s)))
  | rd_cas_ok s i st :
      clients s !! i = Some (RdLoaded st) → (0 ≤ st < INT_MAX)%Z → state_ s = st →
      spin_step s (mkSpin (st + 1) (<[i := Reading]> (clients s)))
  | rd_cas_fail s i st :   (* compare_exchange_weak may fail spuriously; it reloads *)
      clients s !! i = Some (RdLoaded st) → (0 ≤ st < INT_MAX)%Z →
      spin_step s (set_client s i (RdLoaded (state_ s)))
  | rd_busy s i st :
      clients s !! i = Some (RdLoaded st) → ¬ (0 ≤ st < INT_MAX)%Z → spin_step s (set_client s i Out)
  | wr_load s i :
      clients s !! i = Some Out → spin_step s (set_client s i (WrLoaded (state_ s)))
  | wr_cas_ok s i :
      clients s !! i = Some (WrLoaded 0) → state_ s = 0%Z →
      spin_step s (mkSpin (-1) (<[i := Writing]> (clients s)))
  | wr_busy s i st :
      clients s !! i = Some (WrLoaded st) → st ≠ 0%Z ∨ state_ s ≠ st → spin_step s (set_client s i Out)
  | un_load s i c :
      clients s !! i = Some c → c = Reading ∨ c = Writing →
      spin_step s (set_client s i (if (state_ s =? -1)%Z then UnlockStore else UnlockSub))
  | un_store s i :
      clients s !! i = Some UnlockStore → spin_step s (mkSpin 0 (<[i := Out]> (clients s)))
  | un_sub s i :
      clients s !! i = Some UnlockSub → spin_step s (mkSpin (state_ s - 1) (<[i := Out]> (clients s))).

(** What a client contributes to the readers and to the writers. *)
Definition reads (c : client) : nat := match c with Reading | UnlockSub => 1 | _ => 0 end.
Definition writes (c : client) : nat := match c with Writing | UnlockStore => 1 | _ => 0 end.

Definition rw_ok (st : Z) (readers writers : nat) : Prop :=
  (st = (-1)%Z ∧ writers = 1 ∧ readers = 0)
  ∨ ((0 ≤ st ≤ INT_MAX)%Z ∧ st = Z.of_nat readers ∧ writers = 0).

Definition spin_inv (s : spin) : Prop :=
  rw_ok (state_ s) (count_by reads (clients s)) (count_by writes (clients s)).

Lemma spin_step_inv s s' : spin_inv s → spin_step s s' → spin_inv s'.
Proof.
  unfold spin_inv, rw_ok. intros Hinv Hst.
  destruct Hst; simpl;
    match goal with H : clients s !! ?i = Some _ |- context [<[?i := ?c']> _] =>
      pose proof (count_by_insert reads _ i _ c' H) as Hr;
      pose proof (count_by_insert writes _ i _ c' H) as Hw;
      pose proof (count_by_lookup reads _ i _ H);
      pose proof (count_by_lookup writes _ i _ H) end;
    try match goal with H : _ = Reading ∨ _ |- _ =>
      destruct H as [-> | ->]; destruct (Z.eqb_spec (state_ s) (-1)) end;
    simpl in *; unfold INT_MAX in *; lia.
Qed.

Lemma spin_reachable_inv n s : rtc spin_step (mkSpin 0 (replicate n Out)) s → spin_inv s.
Proof.
  revert s. apply rtc_ind_r.
  - right. simpl. rewrite !count_by_zero by (intros i c Hc; by apply lookup_replicate in Hc as [-> _]).
    unfold INT_MAX. lia.
  - intros s s' _ Hst Hs. by eapply spin_step_inv.
Qed.

(** [RWSpinLock] excludes writers at the granularity of its atomic accesses,
    for any number of clients and spurious compare-exchange failures: while one
    client is in its write section no other client is in any section, [state_]
    never leaves [-1 .. INT_MAX], and the two-access [unlock] restores 0 when the
    last section ends. *)
Theorem rwspin_mutual_exclusion n s :
  rtc spin_step (mkSpin 0 (replicate n Out)) s →
  (∀ i j c, i ≠ j → clients s !! i = Some Writing → clients s !! j = Some c → c ≠ Writing ∧ c ≠ Reading)
  ∧ (-1 ≤ state_ s ≤ INT_MAX)%Z
  ∧ ((∀ i c, clients s !! i = Some c → reads c = 0 ∧ writes c = 0) → state_ s = 0%Z).
Proof.
  intros Hs. pose proof (spin_reachable_inv n s Hs) as Hinv. unfold spin_inv, rw_ok in Hinv. split_and!.
  - intros i j c Hij Hi Hj. split; intros ->.
    + pose proof (count_by_pair writes _ i j _ _ Hij Hi Hj). simpl in *. lia.
    + pose proof (count_by_lookup writes _ i _ Hi). pose proof (count_by_lookup reads _ j _ Hj). simpl in *. lia.
  - unfold INT_MAX in *. lia.
  - unfold INT_MAX in *. lia.
  - intros Hout. rewrite !count_by_zero in Hinv by (intros i c Hc; by destruct (Hout i c Hc)). lia.
Qed.

Lemma rwspin_mutual_exclusion_witness :
  ∃ s, rtc spin_step (mkSpin 0 (replicate 2 Out)) s ∧ clients s = [Writing; WrLoaded 0]
  ∧ (-1 ≤ state_ s ≤ INT_MAX)%Z.
Proof.
  assert (rtc spin_step (mkSpin 0 (replicate 2 Out)) (mkSpin (-1) [Writing; WrLoaded 0])) as Hrun.
  { eapply rtc_l; [by apply (wr_load _ 0)|].
    eapply rtc_l; [by apply (wr_load _ 1)|].
    eapply rtc_l; [by apply (wr_cas_ok _ 0)|]. apply rtc_refl. }
  eexists. split; [exact Hrun|]. split; [done|].
  apply (rwspin_mutual_exclusion 2 _ Hrun).
Defined.

(** ** SparseLockTable

    [locks_] maps a key to its lock and the number of its holders and waiters;
    [heap] holds the live [RWSpinLock]s.  Each operation on the map runs under the
    key's bucket lock; a blocked [lock] spins outside it. *)
Section sparse.
Context {K : Type} `{Countable K}.
Implicit Types k : K.

Record SparseLockTable := mkSLT { locks_ : gmap K (nat * nat); heap : gmap nat Z }.

(** The [NEWLY_INSERTED] case of every [upsert]. *)
Definition entry (t : SparseLockTable) k : nat * nat * SparseLockTable :=
  match locks_ t !! k with
  | Some (p, c) => (p, c, t)
  | None =>
      let p := fresh (dom (heap t)) in
      (p, 0, mkSLT (<[k := (p, 0)]> (locks_ t)) (<[p := 0%Z]> (heap t)))
  end.

(** [None]: the lock was freed. *)
Definition try_lock (f : Z → option Z) (t : SparseLockTable) k : option (bool * SparseLockTable) :=
  let '(p, c, t) := entry t k in
  st ← heap t !! p;
  match f st with
  | Some st' => Some (true, mkSLT (<[k := (p, S c)]> (locks_ t)) (<[p := st']> (heap t)))
  | None => Some (false, t)
  end.

Definition sp_tryrdlock := try_lock tryrdlock.
Definition sp_trywrlock := try_lock trywrlock.

(** The [upsert] of [lock]: pin the lock and return it. *)
Definition pin (t : SparseLockTable) k : nat * SparseLockTable :=
  let '(p, c, t) := entry t k in
  (p, mkSLT (<[k := (p, S c)]> (locks_ t)) (heap t)).

(** One attempt of the spin loop of [lock] on a pinned lock. *)
Definition spin_attempt (t : SparseLockTable) (p : nat) (write : bool) : option (bool * SparseLockTable) :=
  st ← heap t !! p;
  match (if write then trywrlock st else tryrdlock st) with
  | Some st' => Some (true, mkSLT (locks_ t) (<[p := st']> (heap t)))
  | None => Some (false, t)
  end.

(** [None]: the trap on a count of 0, or a freed lock. *)
Definition sp_unlock (t : SparseLockTable) k : option SparseLockTable :=
  match locks_ t !! k with
  | None => Some t
  | Some (p, c) =>
      if Nat.eqb c 0 then None
      else
        st ← heap t !! p;
        let h := <[p := unlock st]> (heap t) in
        let h := if Nat.eqb c 1 then delete p h else h in
        let c := c - 1 in
        Some (mkSLT (if Nat.eqb c 0 then delete k (locks_ t) else <[k := (p, c)]> (locks_ t)) h)
  end.

Definition sp_size (t : SparseLockTable) : nat := size (locks_ t).

(** *** Clients

    An acquisition of a key that waits on, or holds, the lock at an address. *)
Inductive acq :=
  | Waiting (k : K) (p : nat) (write : bool)
  | Holding (k : K) (p : nat) (write : bool)
  | Released.

Inductive sp_step : SparseLockTable * list acq → SparseLockTable * list acq → Prop :=
  | s_try t t' toks k p (write b : bool) :
      (if write then sp_trywrlock t k else sp_tryrdlock t k) = Some (b, t') →
      p = (entry t k).1.1 →
      sp_step (t, toks) (t', if b then toks ++ [Holding k p write] else toks)
  | s_pin t t' toks k p write :
      pin t k = (p, t') → sp_step (t, toks) (t', toks ++ [Waiting k p write])
  | s_spin t t' toks i k p (write b : bool) :
      toks !! i = Some (Waiting k p write) → spin_attempt t p write = Some (b, t') →
      sp_step (t, toks) (t', if b then <[i := Holding k p write]> toks else toks)
  | s_unlock t t' toks i k p write :
      toks !! i = Some (Holding k p write) → sp_unlock t k = Some t' →
      sp_step (t, toks) (t', <[i := Released]> toks).

(** *** The invariant *)
Definition on k (a : acq) : bool :=
  match a with Waiting k' _ _ | Holding k' _ _ => bool_decide (k' = k) | Released => false end.
Definition pins k (a : acq) : nat := if on k a then 1 else 0.
Definition rd k (a : acq) : nat :=
  match a with Holding _ _ false => if on k a then 1 else 0 | _ => 0 end.
Definition wr k (a : acq) : nat :=
  match a with Holding _ _ true => if on k a then 1 else 0 | _ => 0 end.

(** The lock of a live acquisition is the one the table holds for its key. *)
Definition live (locks : gmap K (nat * nat)) (a : acq) : Prop :=
  match a with
  | Waiting k p _ | Holding k p _ => ∃ c, locks !! k = Some (p, c)
  | Released => True
  end.

Record sp_inv (t : SparseLockTable) (toks : list acq) : Prop := mkSpInv {
  sp_entry : ∀ k p c, locks_ t !! k = Some (p, c) →
    c = count_by (pins k) toks ∧ 1 ≤ c
    ∧ ∃ st, heap t !! p = Some st ∧ rw_ok st (count_by (rd k) toks) (count_by (wr k) toks);
  sp_live : ∀ i a, toks !! i = Some a → live (locks_ t) a;
  sp_heap : ∀ p st, heap t !! p = Some st → ∃ k c, locks_ t !! k = Some (p, c);
  sp_inj : ∀ k1 k2 p c1 c2, locks_ t !! k1 = Some (p, c1) → locks_ t !! k2 = Some (p, c2) → k1 = k2
}.

(** A key's lock, existing or just created. *)
Definition lock_of (t : SparseLockTable) k (p c : nat) (st : Z) : Prop :=
  (locks_ t !! k = Some (p, c) ∧ heap t !! p = Some st)
  ∨ (locks_ t !! k = None ∧ c = 0 ∧ heap t !! p = None ∧ st = 0%Z).

Lemma entry_lock_of t toks k p c t' :
  sp_inv t toks → entry t k = (p, c, t') →
  ∃ st, lock_of t k p c st ∧ heap t' !! p = Some st ∧ c = count_by (pins k) toks
  ∧ rw_ok st (count_by (rd k) toks) (count_by (wr k) toks)
  ∧ (∀ v, <[k := v]> (locks_ t') = <[k := v]> (locks_ t))
  ∧ (∀ v, <[p := v]> (heap t') = <[p := v]> (heap t))
  ∧ (locks_ t !! k ≠ None → t' = t) ∧ (locks_ t !! k = None → st = 0%Z) ∧ heap t' = <[p := st]> (heap t).
Proof.
  intros Hinv. unfold entry. destruct (locks_ t !! k) as [[p' c']|] eqn:Hk; intros ?; simplify_eq.
  - destruct (sp_entry _ _ Hinv _ _ _ Hk) as (Hc & _ & st & Hst & Hrw).
    exists st. split_and!; try done; [by left|]. by rewrite insert_id.
  - assert (heap t !! fresh (dom (heap t)) = None) as Hf.
    { apply not_elem_of_dom, is_fresh. }
    assert (∀ a, a ∈ toks → on k a = false) as Hon.
    { intros a Ha. apply list_elem_of_lookup in Ha as [i Hi].
      pose proof (sp_live _ _ Hinv _ _ Hi) as Hl.
      destruct a; simpl in *; try done; destruct Hl as [c Hc]; apply bool_decide_eq_false_2; congruence. }
    assert (Hz : ∀ f, (∀ a, on k a = false → f a = 0) → count_by f toks = 0).
    { intros f Hf'. apply count_by_zero. intros i a Hi. apply Hf', Hon.
      by eapply list_elem_of_lookup_2. }
    exists 0%Z. rewrite !Hz; try by (intros []; unfold pins, rd, wr; simpl; repeat case_if).
    split_and!; try done; simpl.
    + by right.
    + apply lookup_insert_eq.
    + right. unfold INT_MAX. lia.
    + intros v. by rewrite insert_insert_eq.
    + intros v. by rewrite insert_insert_eq.
Qed.

(** Replacing the lock of a key and the acquisitions of that key. *)
Lemma sp_inv_update t toks k p c c' st st' toks' :
  sp_inv t toks → lock_of t k p c st →
  (∀ k', k' ≠ k → count_by (pins k') toks' = count_by (pins k') toks
     ∧ count_by (rd k') toks' = count_by (rd k') toks ∧ count_by (wr k') toks' = count_by (wr k') toks) →
  c' = count_by (pins k) toks' → 1 ≤ c' →
  rw_ok st' (count_by (rd k) toks') (count_by (wr k) toks') →
  (∀ i a, toks' !! i = Some a → live (<[k := (p, c')]> (locks_ t)) a) →
  sp_inv (mkSLT (<[k := (p, c')]> (locks_ t)) (<[p := st']> (heap t))) toks'.
Proof.
  intros Hinv Hof Hoth Hc' Hpos Hrw Hlive.
  assert (Hp : ∀ k1 c1, locks_ t !! k1 = Some (p, c1) → k1 = k).
  { intros k1 c1 Hk1. destruct Hof as [[Hk _]|(_ & _ & Hnone & _)]; [by eapply sp_inj|].
    destruct (sp_entry _ _ Hinv _ _ _ Hk1) as (_ & _ & st1 & Hst1 & _). congruence. }
  split; simpl.
  - intros k1 p1 c1. destruct (decide (k1 = k)) as [->|Hne].
    + rewrite lookup_insert_eq. intros ?; simplify_eq. split_and!; try done. exists st'.
      by rewrite lookup_insert_eq.
    + rewrite lookup_insert_ne by done. intros Hk1. destruct (Hoth k1 Hne) as (-> & -> & ->).
      destruct (sp_entry _ _ Hinv _ _ _ Hk1) as (? & ? & st1 & Hst1 & ?).
      split_and!; try done. exists st1. rewrite lookup_insert_ne; [done|]. intros ->. by apply Hne, (Hp _ c1).
  - done.
  - intros p1 st1. destruct (decide (p1 = p)) as [->|Hne].
    + intros _. exists k, c'. by rewrite lookup_insert_eq.
    + rewrite lookup_insert_ne by done. intros Hst1. destruct (sp_heap _ _ Hinv _ _ Hst1) as (k1 & c1 & Hk1).
      exists k1, c1. rewrite lookup_insert_ne; [done|]. intros ->.
      destruct Hof as [[Hk _]|(Hk & _)]; congruence.
  - intros k1 k2 p1 c1 c2. destruct (decide (k1 = k)) as [->|Hne1], (decide (k2 = k)) as [->|Hne2]; try done;
      rewrite ?lookup_insert_eq, ?lookup_insert_ne by done; intros; simplify_eq.
    + by apply eq_sym, (Hp _ c2).
    + by apply (Hp _ c1).
    + by eapply sp_inj.
Qed.

Lemma pins_wait k p w : pins k (Waiting k p w) = 1.
Proof. unfold pins. simpl. by rewrite bool_decide_eq_true_2. Qed.
Lemma pins_hold k p w : pins k (Holding k p w) = 1.
Proof. unfold pins. simpl. by rewrite bool_decide_eq_true_2. Qed.
Lemma rd_hold k p w : rd k (Holding k p w) = if w then 0 else 1.
Proof. unfold rd. simpl. by rewrite bool_decide_eq_true_2. Qed.
Lemma wr_hold k p w : wr k (Holding k p w) = if w then 1 else 0.
Proof. unfold wr. simpl. by rewrite bool_decide_eq_true_2. Qed.

Definition same_counts k' (l l' : list acq) : Prop :=
  count_by (pins k') l' = count_by (pins k') l
  ∧ count_by (rd k') l' = count_by (rd k') l ∧ count_by (wr k') l' = count_by (wr k') l.

Definition key_of (a : acq) : option K :=
  match a with Waiting k _ _ | Holding k _ _ => Some k | Released => None end.

(** An acquisition counts for its own key only. *)
Lemma counts_other k' a : key_of a ≠ Some k' → pins k' a = 0 ∧ rd k' a = 0 ∧ wr k' a = 0.
Proof.
  intros Hne. assert (on k' a = false) as Ho.
  { destruct a; simpl in *; try done; apply bool_decide_eq_false_2; congruence. }
  unfold pins. destruct a as [k p w|k p []|]; simpl in *; rewrite ?Ho; done.
Qed.

Lemma same_counts_app k' l a : key_of a ≠ Some k' → same_counts k' l (l ++ [a]).
Proof.
  intros Hne. destruct (counts_other k' a Hne) as (H1 & H2 & H3).
  unfold same_counts. rewrite !count_by_app. unfold count_by. simpl. lia.
Qed.

Lemma same_counts_insert k' l i a b :
  l !! i = Some a → key_of a ≠ Some k' → key_of b ≠ Some k' → same_counts k' l (<[i := b]> l).
Proof.
  intros Hi Ha Hb. destruct (counts_other k' a Ha) as (H1 & H2 & H3).
  destruct (counts_other k' b Hb) as (H4 & H5 & H6). unfold same_counts.
  pose proof (count_by_insert (pins k') _ _ _ b Hi).
  pose proof (count_by_insert (rd k') _ _ _ b Hi).
  pose proof (count_by_insert (wr k') _ _ _ b Hi). lia.
Qed.

Lemma live_insert locks k p c c' a :
  (locks !! k = Some (p, c) ∨ locks !! k = None) → live locks a → live (<[k := (p, c')]> locks) a.
Proof.
  intros Hk. destruct a as [k' p' w|k' p' w|]; simpl; try done; intros [c1 Hc1];
    (destruct (decide (k' = k)) as [->|Hne];
     [rewrite lookup_insert_eq; destruct Hk; simplify_eq; by eexists
     |rewrite lookup_insert_ne by done; by eexists]).
Qed.

Lemma lock_of_live t k p c st : lock_of t k p c st → locks_ t !! k = Some (p, c) ∨ locks_ t !! k = None.
Proof. intros [[? _]|[? _]]; [by left|by right]. Qed.

Lemma try_ok st st' (w : bool) (r v : nat) :
  rw_ok st r v → (if w then trywrlock st else tryrdlock st) = Some st' →
  rw_ok st' (if w then r else S r) (if w then S v else v).
Proof.
  intros Hrw. unfold tryrdlock, trywrlock. destruct w; case_if; intros; simplify_eq;
    unfold rw_ok, INT_MAX in *; lia.
Qed.

(** A new acquisition of a key through [entry]. *)
Lemma sp_inv_add t toks k p c t1 a st' :
  sp_inv t toks → entry t k = (p, c, t1) → (a = Waiting k p false ∨ a = Waiting k p true ∨ a = Holding k p false ∨ a = Holding k p true) →
  (∀ st, heap t1 !! p = Some st →
    rw_ok st (count_by (rd k) toks) (count_by (wr k) toks) →
    rw_ok st' (count_by (rd k) toks + rd k a) (count_by (wr k) toks + wr k a)) →
  sp_inv (mkSLT (<[k := (p, S c)]> (locks_ t1)) (<[p := st']> (heap t1))) (toks ++ [a]).
Proof.
  intros Hinv He Ha Hst'.
  destruct (entry_lock_of _ _ _ _ _ _ Hinv He) as (st & Hof & Hp & Hc & Hrw & Hl & Hh & _).
  rewrite Hl, Hh.
  assert (key_of a = Some k ∧ pins k a = 1) as [Hkey Hpin].
  { destruct Ha as [->|[->|[->| ->]]]; by rewrite ?pins_wait, ?pins_hold. }
  apply (sp_inv_update t toks k p c (S c) st st'); try done.
  - intros k' Hne. apply same_counts_app. congruence.
  - rewrite count_by_app. unfold count_by at 2. simpl. lia.
  - lia.
  - rewrite !count_by_app. unfold count_by at 2 4. simpl. rewrite !Nat.add_0_r. by apply (Hst' st).
  - intros i b Hb. apply lookup_app_Some in Hb as [Hb|[_ Hb]].
    + apply (live_insert _ _ _ c); [by eapply lock_of_live|]. by eapply sp_live.
    + apply list_lookup_singleton_Some in Hb as [_ <-].
      destruct Ha as [->|[->|[->| ->]]]; simpl; eexists; by rewrite lookup_insert_eq.
Qed.

Lemma sp_try_inv t t' toks k (w b : bool) :
  sp_inv t toks → (if w then sp_trywrlock t k else sp_tryrdlock t k) = Some (b, t') →
  sp_inv t' (if b then toks ++ [Holding k (entry t k).1.1 w] else toks).
Proof.
  intros Hinv Ht.
  assert (try_lock (if w then trywrlock else tryrdlock) t k = Some (b, t')) as Ht' by (by destruct w).
  clear Ht. unfold try_lock in Ht'. destruct (entry t k) as [[p c] t1] eqn:He. simpl.
  destruct (entry_lock_of _ _ _ _ _ _ Hinv He) as (st & Hof & Hp & Hc & Hrw & Hl & Hh & Hsame & Hnew & _).
  rewrite Hp in Ht'. simpl in Ht'.
  destruct ((if w then trywrlock else tryrdlock) st) as [st'|] eqn:Hf; simplify_eq.
  - eapply sp_inv_add; [done|done|destruct w; tauto|]. intros st1 Hst1 Hrw1. simplify_eq.
    assert (rw_ok st' (if w then count_by (rd k) toks else S (count_by (rd k) toks))
              (if w then S (count_by (wr k) toks) else count_by (wr k) toks)) as Ho.
    { apply (try_ok st); [done|]. by destruct w. }
    rewrite rd_hold, wr_hold. by destruct w; rewrite ?Nat.add_0_r, ?Nat.add_1_r.
  - destruct (decide (locks_ t !! k = None)) as [Hn|Hn]; [|by rewrite Hsame].
    rewrite Hnew in Hf by done. by destruct w.
Qed.

Lemma sp_pin_inv t t' toks k p w : sp_inv t toks → pin t k = (p, t') → sp_inv t' (toks ++ [Waiting k p w]).
Proof.
  intros Hinv. unfold pin. destruct (entry t k) as [[p' c] t1] eqn:He. intros ?; simplify_eq.
  destruct (entry_lock_of _ _ _ _ _ _ Hinv He) as (st & Hof & Hp & Hc & Hrw & Hl & Hh & Hsame & Hnew & Hht).
  rewrite <- (insert_id (heap t1) p st) by done.
  eapply sp_inv_add; [done|done|destruct w; tauto|]. intros st1 Hst1. simplify_eq.
  simpl. by rewrite !Nat.add_0_r.
Qed.

Lemma sp_spin_inv t t' toks i k p (w b : bool) :
  sp_inv t toks → toks !! i = Some (Waiting k p w) → spin_attempt t p w = Some (b, t') →
  sp_inv t' (if b then <[i := Holding k p w]> toks else toks).
Proof.
  intros Hinv Hi Hs. pose proof (sp_live _ _ Hinv _ _ Hi) as [c Hk].
  destruct (sp_entry _ _ Hinv _ _ _ Hk) as (Hc & Hpos & st & Hst & Hrw).
  unfold spin_attempt in Hs. rewrite Hst in Hs. simpl in Hs.
  destruct (if w then trywrlock st else tryrdlock st) as [st'|] eqn:Hf; simplify_eq; [|done].
  rewrite <- (insert_id (locks_ t) k (p, count_by (pins k) toks)) by done.
  pose proof (try_ok _ _ _ _ _ Hrw Hf) as Ho.
  pose proof (count_by_insert (pins k) _ _ _ (Holding k p w) Hi) as H1.
  pose proof (count_by_insert (rd k) _ _ _ (Holding k p w) Hi) as H2.
  pose proof (count_by_insert (wr k) _ _ _ (Holding k p w) Hi) as H3.
  rewrite pins_wait, pins_hold in H1. rewrite rd_hold in H2. rewrite wr_hold in H3. simpl in H2, H3.
  eapply (sp_inv_update t toks k p _ _ st st'); [done|by left|..].
  - intros k' Hne. eapply same_counts_insert; [done|simpl; congruence..].
  - lia.
  - done.
  - rewrite Nat.add_0_r in H2, H3. rewrite H2, H3.
    by destruct w; rewrite ?Nat.add_0_r, ?Nat.add_1_r.
  - intros j a Hj. rewrite insert_id by done. apply list_lookup_insert_Some in Hj as [(_ & <- & _)|[_ Hj]].
    + simpl. by eexists.
    + by eapply sp_live.
Qed.

(** The last acquisition of a key takes its lock with it. *)
Lemma sp_inv_delete t toks i k p w :
  sp_inv t toks → toks !! i = Some (Holding k p w) → locks_ t !! k = Some (p, 1) →
  (∀ k', k' ≠ k → same_counts k' toks (<[i := Released]> toks)) →
  count_by (pins k) (<[i := Released]> toks) = 0 →
  sp_inv (mkSLT (delete k (locks_ t)) (delete p (heap t))) (<[i := Released]> toks).
Proof.
  intros Hinv Hi Hk Hoth Hz.
  assert (Hp : ∀ k1 c1, locks_ t !! k1 = Some (p, c1) → k1 = k) by (intros; by eapply sp_inj).
  split; simpl.
  - intros k1 p1 c1 Hk1. apply lookup_delete_Some in Hk1 as [Hne Hk1].
    destruct (Hoth k1) as (-> & -> & ->); [done|].
    destruct (sp_entry _ _ Hinv _ _ _ Hk1) as (? & ? & st1 & Hst1 & ?).
    split_and!; try done. exists st1. rewrite lookup_delete_ne; [done|]. intros ->. by apply Hne, eq_sym, (Hp _ c1).
  - intros j a Hj. assert (Hna : key_of a ≠ Some k).
    { intros Hka. pose proof (count_by_lookup (pins k) _ _ _ Hj) as Hle. rewrite Hz in Hle.
      destruct a; simplify_eq/=; rewrite ?pins_wait, ?pins_hold in Hle; lia. }
    apply list_lookup_insert_Some in Hj as [(_ & <- & _)|[_ Hj]]; [done|].
    pose proof (sp_live _ _ Hinv _ _ Hj) as Hl.
    destruct a; simpl in *; try done; destruct Hl as [c Hc]; exists c; rewrite lookup_delete_ne; congruence.
  - intros p1 st1 Hst1. apply lookup_delete_Some in Hst1 as [Hne Hst1].
    destruct (sp_heap _ _ Hinv _ _ Hst1) as (k1 & c1 & Hk1). exists k1, c1.
    rewrite lookup_delete_ne; [done|]. congruence.
  - intros k1 k2 p1 c1 c2 H1 H2. apply lookup_delete_Some in H1 as [_ H1].
    apply lookup_delete_Some in H2 as [_ H2]. by eapply sp_inj.
Qed.

Lemma sp_unlock_inv t toks i k p w :
  sp_inv t toks → toks !! i = Some (Holding k p w) →
  ∃ t', sp_unlock t k = Some t' ∧ sp_inv t' (<[i := Released]> toks).
Proof.
  intros Hinv Hi. pose proof (sp_live _ _ Hinv _ _ Hi) as [c Hk].
  destruct (sp_entry _ _ Hinv _ _ _ Hk) as (Hc & Hpos & st & Hst & Hrw).
  pose proof (count_by_insert (pins k) _ _ _ Released Hi) as H1.
  pose proof (count_by_insert (rd k) _ _ _ Released Hi) as H2.
  pose proof (count_by_insert (wr k) _ _ _ Released Hi) as H3.
  rewrite pins_hold in H1. rewrite rd_hold in H2. rewrite wr_hold in H3.
  change (pins k Released) with 0 in H1. change (rd k Released) with 0 in H2. change (wr k Released) with 0 in H3.
  assert (Hun : rw_ok (unlock st) (count_by (rd k) (<[i := Released]> toks)) (count_by (wr k) (<[i := Released]> toks))).
  { unfold unlock. unfold rw_ok, INT_MAX in *. case_if; destruct w; lia. }
  assert (Hoth : ∀ k', k' ≠ k → same_counts k' toks (<[i := Released]> toks)).
  { intros k' Hne. eapply same_counts_insert; [done|simpl; congruence|done]. }
  unfold sp_unlock. rewrite Hk. case_if; [lia|]. rewrite Hst. simpl.
  eexists. split; [done|]. destruct (decide (c = 1)) as [->|Hne].
  - simpl. rewrite delete_insert_eq. eapply sp_inv_delete; [done..|lia].
  - rewrite (proj2 (Nat.eqb_neq c 1)) by done. rewrite (proj2 (Nat.eqb_neq (c - 1) 0)) by lia.
    eapply (sp_inv_update t toks k p c _ st); [done|by left|done|lia|lia|done|].
    intros j a Hj. apply (live_insert _ _ _ c); [by left|].
    apply list_lookup_insert_Some in Hj as [(_ & <- & _)|[_ Hj]]; [done|]. by eapply sp_live.
Qed.

Lemma sp_step_inv t toks t' toks' : sp_inv t toks → sp_step (t, toks) (t', toks') → sp_inv t' toks'.
Proof.
  intros Hinv Hst. inversion Hst; subst.
  - by eapply sp_try_inv.
  - by eapply sp_pin_inv.
  - by eapply sp_spin_inv.
  - edestruct sp_unlock_inv as (t1 & Ht1 & Hi); [done|done|]. by simplify_eq.
Qed.

Lemma sp_reachable_inv t toks : rtc sp_step (mkSLT ∅ ∅, []) (t, toks) → sp_inv t toks.
Proof.
  intros Hr. change (sp_inv (t, toks).1 (t, toks).2). revert Hr. generalize (t, toks).
  apply rtc_ind_r.
  - split; simpl; intros *; rewrite ?lookup_empty, ?lookup_nil; done.
  - intros [t1 toks1] [t2 toks2] _ Hst Hi. by eapply sp_step_inv.
Qed.

(** C14: [SparseLockTable] never lets a lock die under a client: in every
    interleaving of tries, blocking locks, spins and unlocks, each waiting or
    holding acquisition refers to a live lock, the one the table keeps for its
    key; the holders of a key are either one writer or readers only; [unlock] of a
    held key neither traps nor touches freed memory; and once nobody waits or
    holds, the table is empty and no lock is leaked. *)
Theorem sparse_lock_table_safe t toks :
  rtc sp_step (mkSLT ∅ ∅, []) (t, toks) →
  (∀ i k p w, toks !! i = Some (Waiting k p w) ∨ toks !! i = Some (Holding k p w) →
     is_Some (heap t !! p) ∧ fst <$> locks_ t !! k = Some p)
  ∧ (∀ i j k p p' w, i ≠ j → toks !! i = Some (Holding k p true) → toks !! j ≠ Some (Holding k p' w))
  ∧ (∀ i k p w, toks !! i = Some (Holding k p w) → is_Some (sp_unlock t k))
  ∧ ((∀ i a, toks !! i = Some a → a = Released) → locks_ t = ∅ ∧ heap t = ∅).
Proof.
  intros Hr. apply sp_reachable_inv in Hr as Hinv. split_and!.
  - intros i k p w Hi. assert (∃ c, locks_ t !! k = Some (p, c)) as [c Hk].
    { destruct Hi as [Hi|Hi]; apply (sp_live _ _ Hinv _ _ Hi). }
    destruct (sp_entry _ _ Hinv _ _ _ Hk) as (_ & _ & st & -> & _). by rewrite Hk.
  - intros i j k p p' w Hij Hi Hj. pose proof (sp_live _ _ Hinv _ _ Hi) as [c Hk].
    destruct (sp_entry _ _ Hinv _ _ _ Hk) as (_ & _ & st & _ & Hrw).
    pose proof (count_by_pair (wr k) _ i j _ _ Hij Hi Hj) as H1.
    pose proof (count_by_lookup (rd k) _ j _ Hj) as H2.
    rewrite !wr_hold in H1. rewrite rd_hold in H2. destruct w; unfold rw_ok in Hrw; lia.
  - intros i k p w Hi. destruct (sp_unlock_inv _ _ _ _ _ _ Hinv Hi) as (t' & -> & _). done.
  - intros Hall. assert (locks_ t = ∅) as Hl.
    { apply map_empty. intros k. destruct (locks_ t !! k) as [[p c]|] eqn:Hk; [|done].
      destruct (sp_entry _ _ Hinv _ _ _ Hk) as (Hc & Hpos & _).
      rewrite count_by_zero in Hc; [lia|]. intros i a Hi. by rewrite (Hall i a Hi). }
    split; [done|]. apply map_empty. intros p. destruct (heap t !! p) as [st|] eqn:Hp; [|done].
    destruct (sp_heap _ _ Hinv _ _ Hp) as (k & c & Hk). by rewrite Hl, lookup_empty in Hk.
Qed.

End sparse.

(** A writer holds key 5 while a reader waits on the same lock. *)
Lemma sparse_lock_table_safe_witness :
  ∃ (t : SparseLockTable (K := nat)) toks, rtc sp_step (mkSLT ∅ ∅, []) (t, toks)
  ∧ toks = [Holding 5 0 true; Waiting 5 0 false] ∧ is_Some (heap t !! 0).
Proof.
  assert (∃ t, rtc sp_step (mkSLT (K := nat) ∅ ∅, []) (t, [Holding 5 0 true; Waiting 5 0 false])) as [t Hr].
  { eexists. eapply rtc_l; [eapply (s_try _ _ _ 5 _ true true); vm_compute; reflexivity|].
    eapply rtc_l; [eapply (s_pin _ _ _ 5 _ false); vm_compute; reflexivity|].
    simpl. match goal with |- context [Waiting 5 ?p false] => replace p with 0 by done end.
    apply rtc_refl. }
  exists t, [Holding 5 0 true; Waiting 5 0 false]. split; [exact Hr|]. split; [done|].
  destruct (sparse_lock_table_safe _ _ Hr) as (Hlive & _).
  apply (Hlive 1 5 0 false). by left.
Defined.

(** ** LockTable: hashed buckets of reader-writer locks

    A [pthread_rwlock_t] is the number of its readers, or -1; an operation that
    would block returns [None]. *)
Section lock_table.
Open Scope Z_scope.

Definition c1 : Z := 0xcc9e2d51.
Definition c2 : Z := 0x1b873593.

Definition fmix (h : Z) : Z :=
  let h := Z.lxor h (Z.shiftr h 16) in
  let h := u32 (h * 0x85ebca6b) in
  let h := Z.lxor h (Z.shiftr h 13) in
  let h := u32 (h * 0xc2b2ae35) in
  Z.lxor h (Z.shiftr h 16).

Definition Rotate32 (val shift : Z) : Z :=
  if shift =? 0 then val else Z.lor (Z.shiftr val shift) (u32 (Z.shiftl val (32 - shift))).

Definition Mur (a h : Z) : Z :=
  let a := u32 (a * c1) in
  let a := Rotate32 a 17 in
  let a := u32 (a * c2) in
  let h := Z.lxor h a in
  let h := Rotate32 h 19 in
  u32 (h * 5 + 0xe6546b64).

(** [static_cast<uint32_t>(static_cast<signed char>(c))]. *)
Definition sign_extend (c : Z) : Z := u32 (if c <? 128 then c else c - 256).

Definition Hash32Len0to4 (s : list Z) : Z :=
  let '(b, c) := foldl (λ '(b, c) v, let b := u32 (b * c1 + sign_extend v) in (b, Z.lxor c b)) (0, 9) s in
  fmix (Mur b (Mur (u32 (Z.of_nat (length s))) c)).

(** The bytes of a [uint32_t], little-endian. *)
Definition bytes_of_u32 (x : Z) : list Z :=
  map (λ i, Z.shiftr x (8 * i) mod 256) [0; 1; 2; 3].

Definition Hash (x : Z) : Z := Hash32Len0to4 (bytes_of_u32 (u32 x)).

Record LockTable := mkLT { lt_size : Z; lt_locks : list Z }.

Definition lt_make (size : nat) : LockTable := mkLT (Z.of_nat size) (replicate size 0).
Definition pos (t : LockTable) (key : Z) : Z := Hash key mod lt_size t.
Definition slot_of (t : LockTable) (key : Z) : nat := Z.to_nat (pos t key).

Definition update (t : LockTable) (i : nat) (st : Z) : LockTable :=
  mkLT (lt_size t) (<[i := st]> (lt_locks t)).

(** Returns the lock taken, as its index. *)
Definition lt_rdlock (t : LockTable) (key : Z) : option (nat * LockTable) :=
  st ← lt_locks t !! slot_of t key;
  if 0 <=? st then Some (slot_of t key, update t (slot_of t key) (st + 1)) else None.

Definition lt_wrlock (t : LockTable) (key : Z) : option (nat * LockTable) :=
  st ← lt_locks t !! slot_of t key;
  if st =? 0 then Some (slot_of t key, update t (slot_of t key) (-1)) else None.

Definition lt_tryrdlock (t : LockTable) (key : Z) : bool * LockTable :=
  match lt_rdlock t key with Some (_, t') => (true, t') | None => (false, t) end.

Definition lt_trywrlock (t : LockTable) (key : Z) : bool * LockTable :=
  match lt_wrlock t key with Some (_, t') => (true, t') | None => (false, t) end.

Definition lt_unlock_at (t : LockTable) (i : nat) : option LockTable :=
  st ← lt_locks t !! i;
  Some (update t i (unlock st)).

Definition lt_unlock (t : LockTable) (key : Z) : option LockTable := lt_unlock_at t (slot_of t key).

Lemma slot_of_lt t key : 0 < lt_size t → (slot_of t key < Z.to_nat (lt_size t))%nat.
Proof. intros Hs. unfold slot_of, pos. pose proof (Z.mod_pos_bound (Hash key) (lt_size t)). lia. Qed.

Lemma slot_of_update t i st key : slot_of (update t i st) key = slot_of t key.
Proof. unfold slot_of, pos, update. cbn [lt_size]. reflexivity. Qed.

Local Opaque slot_of.

(** Locking a bucket through a key and unlocking it through the returned lock or
    through the key restores the table. *)
Lemma lt_lock_unlock t key i t' :
  lt_rdlock t key = Some (i, t') ∨ lt_wrlock t key = Some (i, t') →
  lt_unlock t' key = Some t ∧ lt_unlock_at t' i = Some t.
Proof.
  unfold lt_rdlock, lt_wrlock. intros H.
  destruct (lt_locks t !! slot_of t key) as [st|] eqn:Hst; simpl in H; [|by destruct H].
  pose proof (lookup_lt_Some _ _ _ Hst) as Hlt.
  assert (i = slot_of t key ∧ ∃ st', t' = update t i st' ∧ unlock st' = st) as (-> & st' & -> & Hun).
  { destruct H as [H|H]; revert H; case_if; intros; simplify_eq; (split; [done|]); eexists; (split; [done|]);
      unfold unlock; case_if; lia. }
  unfold lt_unlock, lt_unlock_at.
  rewrite slot_of_update. simpl.
  rewrite list_lookup_insert_eq by done. simpl. unfold update. simpl.
  rewrite list_insert_insert_eq, Hun, list_insert_id by done. by destruct t.
Qed.
End lock_table.

(** ** ReaderOptSharedMutex: one of 128 mutexes for a reader, all for a writer *)
Definition N : nat := 128.
Definition shard (idx : nat) : nat := idx mod N.

Lemma shard_lt idx : shard idx < N.
Proof. apply Nat.mod_upper_bound. done. Qed.

Local Opaque shard N.

Inductive ro_client :=
  | RIdle
  | RHold (idx : nat)
  | WLocking (i : nat)       (* holds the mutexes below [i]; [N]: in the section *)
  | WUnlocking (i : nat).    (* released the mutexes below [i] *)

Record ro := mkRO { ro_locks : list Z; ro_clients : list ro_client }.

Inductive ro_step : ro → ro → Prop :=
  | ro_lock_shared s j idx st :
      ro_clients s !! j = Some RIdle → ro_locks s !! shard idx = Some st → (0 ≤ st)%Z →
      ro_step s (mkRO (<[shard idx := (st + 1)%Z]> (ro_locks s)) (<[j := RHold idx]> (ro_clients s)))
  | ro_unlock_shared s j idx st :
      ro_clients s !! j = Some (RHold idx) → ro_locks s !! shard idx = Some st →
      ro_step s (mkRO (<[shard idx := (st - 1)%Z]> (ro_locks s)) (<[j := RIdle]> (ro_clients s)))
  | ro_lock s j :
      ro_clients s !! j = Some RIdle → ro_step s (mkRO (ro_locks s) (<[j := WLocking 0]> (ro_clients s)))
  | ro_lock_next s j i :
      ro_clients s !! j = Some (WLocking i) → i < N → ro_locks s !! i = Some 0%Z →
      ro_step s (mkRO (<[i := (-1)%Z]> (ro_locks s)) (<[j := WLocking (S i)]> (ro_clients s)))
  | ro_unlock s j :
      ro_clients s !! j = Some (WLocking N) →
      ro_step s (mkRO (ro_locks s) (<[j := WUnlocking 0]> (ro_clients s)))
  | ro_unlock_next s j i :
      ro_clients s !! j = Some (WUnlocking i) → i < N →
      ro_step s (mkRO (<[i := 0%Z]> (ro_locks s)) (<[j := WUnlocking (S i)]> (ro_clients s)))
  | ro_unlock_done s j :
      ro_clients s !! j = Some (WUnlocking N) →
      ro_step s (mkRO (ro_locks s) (<[j := RIdle]> (ro_clients s))).

Definition ro_reads (m : nat) (c : ro_client) : nat :=
  match c with RHold idx => if Nat.eqb (shard idx) m then 1 else 0 | _ => 0 end.
Definition ro_writes (m : nat) (c : ro_client) : nat :=
  match c with
  | WLocking i => if Nat.ltb m i then 1 else 0
  | WUnlocking i => if Nat.leb i m then 1 else 0
  | _ => 0
  end.

Definition mutex_ok (st : Z) (readers writers : nat) : Prop :=
  (st = (-1)%Z ∧ writers = 1 ∧ readers = 0) ∨ (st = Z.of_nat readers ∧ writers = 0).

Definition ro_inv (s : ro) : Prop :=
  length (ro_locks s) = N ∧
  ∀ m st, ro_locks s !! m = Some st →
    mutex_ok st (count_by (ro_reads m) (ro_clients s)) (count_by (ro_writes m) (ro_clients s)).

Lemma ro_step_inv s s' : ro_inv s → ro_step s s' → ro_inv s'.
Proof.
  intros [Hlen Hok] Hst.
  destruct Hst; (split; [simpl; by rewrite ?length_insert|]); simpl; intros m st1 Hm;
  match goal with Hc : ro_clients s !! ?j = Some _ |- context [<[?j := ?c']> _] =>
    pose proof (count_by_insert (ro_reads m) _ _ _ c' Hc) as Hr;
    pose proof (count_by_insert (ro_writes m) _ _ _ c' Hc) as Hw;
    pose proof (count_by_lookup (ro_reads m) _ _ _ Hc) as Hr1;
    pose proof (count_by_lookup (ro_writes m) _ _ _ Hc) as Hw1 end;
  try (apply list_lookup_insert_Some in Hm as [(<- & <- & _)|[Hne Hm]]);
  try pose proof (Hok _ _ Hm) as Ho; try (pose proof (lookup_lt_Some _ _ _ Hm));
  try match goal with Hl : ro_locks s !! ?i = Some ?st |- _ =>
    assert_fails (unify Hl Hm); pose proof (Hok _ _ Hl) as Ho' end;
  unfold mutex_ok in *; cbn [ro_reads ro_writes] in *;
  repeat match goal with H : context [if ?b then _ else _] |- _ => destruct b eqn:?; bool_to_prop end;
  try lia.
  destruct (lookup_lt_is_Some_2 (ro_locks s) i) as [st Hl]; [lia|].
  pose proof (Hok _ _ Hl). lia.
Qed.

Definition ro_init (n : nat) : ro := mkRO (replicate N 0%Z) (replicate n RIdle).

Lemma ro_reachable_inv n s : rtc ro_step (ro_init n) s → ro_inv s.
Proof.
  revert s. apply rtc_ind_r.
  - split; simpl; [apply length_replicate|]. intros m st Hm.
    apply lookup_replicate in Hm as [-> _]. right.
    rewrite !count_by_zero by (intros i c Hc; by apply lookup_replicate in Hc as [-> _]). done.
  - intros s s' _ Hst Hs. by eapply ro_step_inv.
Qed.

(** The writer that has locked the most mutexes. *)
Lemma furthest_writer (cs : list ro_client) :
  (∀ j i, cs !! j ≠ Some (WLocking i)) ∨
  ∃ j i, cs !! j = Some (WLocking i) ∧ ∀ j' i', cs !! j' = Some (WLocking i') → i' ≤ i.
Proof.
  induction cs as [|c cs IH]; [by left|].
  assert ((∃ i, c = WLocking i) ∨ ∀ i, c ≠ WLocking i) as [[i0 ->]|Hc]
    by (destruct c; [right|right|left|right]; naive_solver).
  - right. destruct IH as [Hno|(j & i & Hj & Hmax)].
    + exists 0, i0. split; [done|]. intros [|j'] i' Hj'; simplify_eq/=; [done|]. by destruct (Hno j' i').
    + destruct (decide (i ≤ i0)).
      * exists 0, i0. split; [done|]. intros [|j'] i' Hj'; simplify_eq/=; [done|].
        etrans; [by eapply Hmax|done].
      * exists (S j), i. split; [done|]. intros [|j'] i' Hj'; simplify_eq/=; [lia|eauto].
  - destruct IH as [Hno|(j & i & Hj & Hmax)]; [left|right].
    + intros [|j] i; simpl; [|done]. intros ?; simplify_eq. by apply (Hc i).
    + exists (S j), i. split; [done|]. intros [|j'] i' Hj'; simplify_eq/=; [by destruct (Hc i')|eauto].
Qed.

(** [ReaderOptSharedMutex] is a shared mutex: while a writer is in its section
    (it holds all 128 mutexes) no reader and no other writer is, whatever shard
    each reader picked; and it cannot deadlock: when nobody is inside or leaving,
    the writer furthest in its ascending acquisition can take its next mutex. *)
Theorem reader_opt_exclusion n s :
  rtc ro_step (ro_init n) s →
  (∀ j j' idx, ro_clients s !! j = Some (WLocking N) → ro_clients s !! j' ≠ Some (RHold idx))
  ∧ (∀ j j', j ≠ j' → ro_clients s !! j = Some (WLocking N) → ro_clients s !! j' ≠ Some (WLocking N))
  ∧ ((∃ j i, ro_clients s !! j = Some (WLocking i)) →
     (∀ j c, ro_clients s !! j = Some c → c = RIdle ∨ ∃ i, i < N ∧ c = WLocking i) →
     ∃ j i, ro_clients s !! j = Some (WLocking i)
       ∧ ro_step s (mkRO (<[i := (-1)%Z]> (ro_locks s)) (<[j := WLocking (S i)]> (ro_clients s)))).
Proof.
  intros Hs. apply ro_reachable_inv in Hs as [Hlen Hok].
  assert (Hm : ∀ m, m < N → ∃ st, ro_locks s !! m = Some st).
  { intros m Hm. apply lookup_lt_is_Some_2. lia. }
  assert (Hw1 : ∀ m, m < N → ro_writes m (WLocking N) = 1).
  { intros m Hm'. simpl. by rewrite (proj2 (Nat.ltb_lt _ _)). }
  split_and!.
  - intros j j' idx Hj Hj'. destruct (Hm (shard idx) (shard_lt idx)) as [st Hst].
    pose proof (Hok _ _ Hst) as Ho. unfold mutex_ok in Ho.
    pose proof (count_by_lookup (ro_writes (shard idx)) _ _ _ Hj) as H1.
    pose proof (count_by_lookup (ro_reads (shard idx)) _ _ _ Hj') as H2.
    rewrite Hw1 in H1 by apply shard_lt. simpl in H2. rewrite Nat.eqb_refl in H2. lia.
  - intros j j' Hne Hj Hj'. pose proof (shard_lt 0) as H0.
    destruct (Hm _ H0) as [st Hst]. pose proof (Hok _ _ Hst) as Ho. unfold mutex_ok in Ho.
    pose proof (count_by_pair (ro_writes (shard 0)) _ _ _ _ _ Hne Hj Hj') as H1.
    rewrite Hw1 in H1 by done. lia.
  - intros (j0 & i0 & Hj0) Hall.
    destruct (furthest_writer (ro_clients s)) as [Hno|(j & i & Hj & Hmax)]; [by destruct (Hno j0 i0)|].
    destruct (Hall _ _ Hj) as [?|(i' & Hi & ?)]; simplify_eq. exists j, i'. split; [done|].
    apply ro_lock_next; [done|done|]. destruct (Hm i' Hi) as [st Hst]. rewrite Hst. f_equal.
    pose proof (Hok _ _ Hst) as Ho. unfold mutex_ok in Ho.
    rewrite !count_by_zero in Ho; [lia|..]; intros j1 c Hc;
      destruct (Hall _ _ Hc) as [->|(i1 & Hi1 & ->)]; try done.
    simpl. rewrite (proj2 (Nat.ltb_ge _ _)); [done|]. by eapply Hmax.
Qed.

Lemma reader_opt_exclusion_witness :
  ∃ s, rtc ro_step (ro_init 2) s ∧ ro_clients s = [RHold 3; WLocking 0]
  ∧ ∀ j' idx, ro_clients s !! 1 = Some (WLocking N) → ro_clients s !! j' ≠ Some (RHold idx).
Proof.
  assert (∃ s, rtc ro_step (ro_init 2) s ∧ ro_clients s = [RHold 3; WLocking 0]) as (s & Hs & Hc).
  { eexists. split; [|shelve]. eapply rtc_l; [by apply (ro_lock _ 1)|].
    eapply rtc_l; [by eapply (ro_lock_shared _ 0 3 0%Z)|]. apply rtc_refl.
    Unshelve. done. }
  exists s. split; [done|]. split; [done|].
  intros j' idx. apply (reader_opt_exclusion 2 s Hs).
Defined.

End Locks.
