(* ===== verification/Bytes.v ===== *)
(** * Byte-level encodings

    Files, pages and packed attribute buffers are lists of bytes; a byte is a [Z]
    below 256.  Integers are stored little-endian, as the program writes them with
    [out.write((char * ) &x, sizeof(x))] and [memcpy] on the supported targets. *)

From S2P Require Import Prelude.

Open Scope Z_scope.

Definition is_byte (b : Z) : Prop := 0 <= b < 256.

Fixpoint le_bytes (n : nat) (z : Z) : list Z :=
  match n with
  | O => []
  | S n => z mod 256 :: le_bytes n (z / 256)
  end.

Fixpoint le_value (bs : list Z) : Z :=
  match bs with
  | [] => 0
  | b :: bs => b + 256 * le_value bs
  end.

(** [in.read((char * ) &x, n)]: the value and the rest of the stream; [None]: the
    stream is too short. *)
Definition read_le (n : nat) (bs : list Z) : option (Z * list Z) :=
  if Nat.leb n (length bs) then Some (le_value (take n bs), drop n bs) else None.

(** [in.read(buf, n)]. *)
Definition read_bytes (n : nat) (bs : list Z) : option (list Z * list Z) :=
  if Nat.leb n (length bs) then Some (take n bs, drop n bs) else None.

Lemma le_bytes_length n z : length (le_bytes n z) = n.
Proof. revert z. induction n as [|n IH]; intros z; simpl; [done|]. by rewrite IH. Qed.

Lemma le_bytes_is_byte n z : Forall is_byte (le_bytes n z).
Proof.
  revert z. induction n as [|n IH]; intros z; simpl; constructor; [|done].
  unfold is_byte. apply Z.mod_pos_bound. lia.
Qed.

Lemma le_value_bytes n z : 0 <= z < 256 ^ Z.of_nat n -> le_value (le_bytes n z) = z.
Proof.
  revert z. induction n as [|n IH]; intros z Hz; cbn [le_bytes le_value]; [simpl in Hz; lia|].
  rewrite IH; [pose proof (Z.div_mod z 256); lia|].
  rewrite Nat2Z.inj_succ, Z.pow_succ_r in Hz by lia.
  split; [apply Z.div_pos; lia|]. apply Z.div_lt_upper_bound; lia.
Qed.

Lemma le_value_range bs : Forall is_byte bs -> 0 <= le_value bs < 256 ^ Z.of_nat (length bs).
Proof.
  induction 1 as [|b bs Hb _ IH]; cbn [le_value length]; [simpl; lia|].
  rewrite Nat2Z.inj_succ, Z.pow_succ_r by lia. unfold is_byte in Hb. lia.
Qed.

Lemma le_bytes_value bs : Forall is_byte bs -> le_bytes (length bs) (le_value bs) = bs.
Proof.
  induction 1 as [|b bs Hb _ IH]; cbn [le_value length le_bytes]; [done|]. unfold is_byte in Hb.
  f_equal.
  - rewrite (Z.mul_comm 256), Z.mod_add by lia. by apply Z.mod_small.
  - rewrite (Z.mul_comm 256), Z.div_add, Z.div_small by lia. apply IH.
Qed.

Lemma read_le_app n z rest :
  0 <= z < 256 ^ Z.of_nat n -> read_le n (le_bytes n z ++ rest) = Some (z, rest).
Proof.
  intros Hz. unfold read_le. rewrite length_app, le_bytes_length, (proj2 (Nat.leb_le _ _)) by lia.
  rewrite take_app_length', drop_app_length' by (by rewrite le_bytes_length). by rewrite le_value_bytes.
Qed.

Lemma read_bytes_app n bs rest : length bs = n -> read_bytes n (bs ++ rest) = Some (bs, rest).
Proof.
  intros Hn. unfold read_bytes. rewrite length_app, (proj2 (Nat.leb_le _ _)) by lia.
  by rewrite take_app_length', drop_app_length'.
Qed.

Lemma read_u32_app z rest : is_u32 z -> read_le 4 (le_bytes 4 z ++ rest) = Some (z, rest).
Proof. intros Hz. apply read_le_app. unfold is_u32 in Hz. simpl. lia. Qed.

Lemma read_u64_app z rest : is_u64 z -> read_le 8 (le_bytes 8 z ++ rest) = Some (z, rest).
Proof. intros Hz. apply read_le_app. unfold is_u64 in Hz. simpl. lia. Qed.

#[export] Hint Rewrite read_u32_app read_u64_app read_bytes_app using done : bytes.

(** ** Files *)

(** [seekp(off); write(bs)]: a gap before [off] is filled with zeros. *)
Definition write_at (file : list Z) (off : nat) (bs : list Z) : list Z :=
  take off file ++ replicate (off - length file) 0 ++ bs ++ drop (off + length bs) file.

(** The bytes [st, ed) of a file. *)
Definition region (file : list Z) (st ed : nat) : list Z := take (ed - st) (drop st file).

Lemma write_at_length file off bs :
  length (write_at file off bs) = Nat.max (length file) (off + length bs).
Proof. unfold write_at. rewrite !length_app, length_take, length_replicate, length_drop. lia. Qed.

Lemma region_write_at_same file off bs : region (write_at file off bs) off (off + length bs) = bs.
Proof.
  unfold region, write_at. rewrite app_assoc.
  rewrite drop_app_length' by (rewrite length_app, length_take, length_replicate; lia).
  rewrite take_app_le by lia. apply take_ge. lia.
Qed.

Lemma region_write_at_before file off bs st ed :
  (ed <= off)%nat -> (ed <= length file)%nat -> region (write_at file off bs) st ed = region file st ed.
Proof.
  intros Ho Hl. unfold region, write_at. destruct (decide (st <= ed)%nat) as [Hs|Hs].
  - rewrite <- !skipn_firstn_comm. f_equal.
    rewrite take_app_le by (rewrite length_take; lia). rewrite take_take. f_equal. lia.
  - replace (ed - st)%nat with 0%nat by lia. done.
Qed.

(** The words of a region, and reading them back. *)
Definition words (ws : list Z) : list Z := concat (map (le_bytes 4) ws).

Fixpoint words_at (bs : list Z) : list Z :=
  match bs with
  | b0 :: b1 :: b2 :: b3 :: bs' => le_value [b0; b1; b2; b3] :: words_at bs'
  | _ => []
  end.

Lemma words_length ws : length (words ws) = (4 * length ws)%nat.
Proof. unfold words. induction ws as [|w ws IH]; simpl; [done|]. simpl in IH. lia. Qed.

Lemma words_at_words ws : Forall is_u32 ws -> words_at (words ws) = ws.
Proof.
  induction 1 as [|w ws Hw _ IH]; [done|]. unfold words. cbn [map concat]. fold (words ws).
  pose proof (le_value_bytes 4 w) as Hv. cbn [le_bytes] in *. cbn [app words_at].
  rewrite Hv by (unfold is_u32 in Hw; simpl; lia). by rewrite IH.
Qed.

Lemma words_at_length bs : length (words_at bs) = (length bs / 4)%nat.
Proof.
  remember (length bs) as n eqn:Hn. revert bs Hn. induction (lt_wf n) as [n _ IH]. intros bs Hn.
  destruct bs as [|b0 [|b1 [|b2 [|b3 bs]]]]; subst n; try done. cbn [words_at length].
  rewrite (IH (length bs)) by (simpl; lia || done).
  replace (S (S (S (S (length bs))))) with (length bs + 1 * 4)%nat by lia.
  rewrite Nat.div_add by lia. lia.
Qed.

Lemma region_write_at_inside file off bs a b :
  (a <= b <= length bs)%nat -> region (write_at file off bs) (off + a) (off + b) = region bs a b.
Proof.
  intros Hb. unfold region, write_at. rewrite app_assoc.
  rewrite <- (drop_drop _ a off), drop_app_length' by (rewrite length_app, length_take, length_replicate; lia).
  rewrite drop_app_le by lia. rewrite take_app_le by (rewrite length_drop; lia). f_equal. lia.
Qed.

Lemma words_app a b : words (a ++ b) = words a ++ words b.
Proof. unfold words. by rewrite map_app, concat_app. Qed.

Lemma region_words ws i n :
  (i + n <= length ws)%nat -> region (words ws) (4 * i) (4 * (i + n)) = words (take n (drop i ws)).
Proof.
  intros Hi. unfold region.
  rewrite <- (take_drop i ws) at 1. rewrite words_app.
  rewrite drop_app_length' by (rewrite words_length, length_take; lia).
  rewrite <- (take_drop n (drop i ws)) at 1. rewrite words_app.
  apply take_app_length'. rewrite words_length, length_take, length_drop. lia.
Qed.

Lemma read_word ws i rest w :
  Forall is_u32 ws -> ws !! i = Some w -> exists s, read_le 4 (drop (4 * i) (words ws ++ rest)) = Some (w, s).
Proof.
  intros Hu Hi. pose proof (lookup_lt_Some _ _ _ Hi) as Hlt.
  rewrite <- (take_drop_middle _ _ _ Hi), words_app. unfold words at 2. cbn [map concat].
  rewrite <- !app_assoc. rewrite drop_app_length' by (rewrite words_length, length_take; lia).
  rewrite read_u32_app by (apply (Forall_lookup_1 _ _ _ _ Hu Hi)). eauto.
Qed.
