(* ===== verification/Layout.v ===== *)
(** * On-disk layout ([include/ssd_index_defs.h])

    The metadata sector, the placement of fixed-size nodes in sectors, and the
    fields of a node.  [exit(-1)] is [None].  All arithmetic is on [uint64_t]. *)

From S2P Require Import Prelude Bytes.

Module Layout.
Open Scope Z_scope.

Definition SECTOR_LEN : Z := 4096.
Definition DIV_ROUND_UP (x y : Z) : Z := x / y + (if x mod y =? 0 then 0 else 1).
Definition ROUND_UP (x y : Z) : Z := u64 ((x / y + (if x mod y =? 0 then 0 else 1)) * y).

(** [RaBitQQuantizer<T, 8>]. *)
Definition sizeof_Header : Z := 16.
Definition pad_dim (dim : Z) : Z := ROUND_UP dim 128.
Definition rabitq8_vector_size (dim : Z) : Z := u64 (sizeof_Header + u64 (pad_dim dim * 8) / 8).

Inductive VectorType := RAW | RABITQ8.

Definition vector_type_value (t : VectorType) : Z := match t with RAW => 0 | RABITQ8 => 1 end.
Definition vector_type_of (z : Z) : option VectorType :=
  if z =? 0 then Some RAW else if z =? 1 then Some RABITQ8 else None.

Record SSDIndexMetadata := mkMeta {
  nr : Z; nc : Z;
  npoints : Z; data_dim : Z; entry_point : Z; max_node_len : Z; nnodes_per_sector : Z;
  npts_cur_shard : Z; attr_size : Z; max_npts : Z; range : Z; R_ood : Z; vector_type : VectorType;
  normal_node_len : Z; range_dense : Z; entry_point_id : Z
}.

Section metadata.
(** [sizeof(T)]. *)
Context (sizeof_T : Z).

Definition vector_bytes (m : SSDIndexMetadata) : Z :=
  match vector_type m with
  | RAW => u64 (data_dim m * sizeof_T)
  | RABITQ8 => rabitq8_vector_size (data_dim m)
  end.

Definition init_temporary_fields (m : SSDIndexMetadata) : option SSDIndexMetadata :=
  let vb := vector_bytes m in
  if (max_node_len m <? vb) || (u64 (max_node_len m - vb) <? attr_size m)
     || (u64 (max_node_len m - vb - attr_size m) <? 4)
  then None
  else
    let dense := u64 (u64 (max_node_len m - vb - attr_size m) / 4 - 1) in
    let r := if (range m =? 0) || (dense <=? range m) then dense else range m in
    let ood := if r <? R_ood m then 0 else R_ood m in
    Some (mkMeta (nr m) (nc m) (npoints m) (data_dim m) (entry_point m) (max_node_len m)
            (nnodes_per_sector m) (npts_cur_shard m) (attr_size m) (npoints m) r ood (vector_type m)
            (u64 (max_node_len m - u64 (u64 (dense - r) * 4))) dense (u32 (entry_point m))).

(** The constructor. *)
Definition make (npoints data_dim entry_point max_node_len nnodes_per_sector range attr_size R_ood : Z)
    (vt : VectorType) : option SSDIndexMetadata :=
  init_temporary_fields
    (mkMeta 0 0 npoints data_dim entry_point max_node_len nnodes_per_sector npoints attr_size 0 range R_ood vt
       0 0 0).

(** The metadata of an index that [save_from_mem] writes; [SECTOR_LEN / max_node_len]
    is a division by zero for an empty record. *)
Definition save_from_mem_meta (nd dim ep range target_range_dense attr_size R_ood : Z) (vt : VectorType)
    : option SSDIndexMetadata :=
  let range_dense := Z.max target_range_dense range in
  let vec_bytes := match vt with RABITQ8 => ROUND_UP (rabitq8_vector_size dim) 4 | RAW => u64 (dim * sizeof_T) end in
  let max_node_len := u64 (u64 (u64 (u64 (range_dense + 1) * 4) + vec_bytes) + attr_size) in
  if max_node_len =? 0 then None
  else make nd dim ep max_node_len (SECTOR_LEN / max_node_len) range attr_size R_ood vt.

(** *** Reading and writing the metadata sector *)

(** [nr >= n ? read : 0]. *)
Definition read_if (b : bool) (bs : list Z) : option (Z * list Z) :=
  if b then read_le 8 bs else Some (0, bs).

Definition load_from_disk_index (file : list Z) (sharded : bool) : option SSDIndexMetadata :=
  '(nr, s) ← read_le 4 file;
  '(nc, s) ← read_le 4 s;
  '(npoints, s) ← read_le 8 s;
  '(data_dim, s) ← read_le 8 s;
  '(entry_point, s) ← read_le 8 s;
  '(max_node_len, s) ← read_le 8 s;
  '(nnodes_per_sector, s) ← read_le 8 s;
  '(npts_cur_shard, s) ← read_le 8 s;
  '(attr_size, s) ← read_le 8 s;
  '(range, s) ← read_le 8 s;
  '(R_ood, s) ← read_if (9 <=? nr) s;
  '(vt, s) ← read_if (10 <=? nr) s;
  vector_type ← vector_type_of vt;
  let npts_cur_shard := if (sharded : bool) then npts_cur_shard else npoints in
  let '(attr_size, range) := if nr <? 7 then (0, 0) else (attr_size, range) in
  init_temporary_fields
    (mkMeta nr nc npoints data_dim entry_point max_node_len nnodes_per_sector npts_cur_shard attr_size 0 range
       R_ood vector_type 0 0 0).

Definition meta_bytes (m : SSDIndexMetadata) : list Z :=
  le_bytes 4 10 ++ le_bytes 4 1 ++ le_bytes 8 (npoints m) ++ le_bytes 8 (data_dim m)
  ++ le_bytes 8 (entry_point m) ++ le_bytes 8 (max_node_len m) ++ le_bytes 8 (nnodes_per_sector m)
  ++ le_bytes 8 (npts_cur_shard m) ++ le_bytes 8 (attr_size m) ++ le_bytes 8 (range m)
  ++ le_bytes 8 (R_ood m) ++ le_bytes 8 (vector_type_value (vector_type m)).

(** The file is opened without truncation: the first sector is replaced. *)
Definition save_to_disk_index (m : SSDIndexMetadata) (file : list Z) : list Z :=
  meta_bytes m ++ replicate (Z.to_nat SECTOR_LEN - length (meta_bytes m)) 0
  ++ drop (Z.to_nat SECTOR_LEN) file.

(** *** Placement *)
Definition io_size (m : SSDIndexMetadata) : Z :=
  u64 (SECTOR_LEN * (if 0 <? nnodes_per_sector m then 1 else DIV_ROUND_UP (normal_node_len m) SECTOR_LEN)).
Definition io_size_dense (m : SSDIndexMetadata) : Z :=
  u64 (SECTOR_LEN * (if 0 <? nnodes_per_sector m then 1 else DIV_ROUND_UP (max_node_len m) SECTOR_LEN)).
Definition nodes_per_io (m : SSDIndexMetadata) : Z :=
  if 0 <? nnodes_per_sector m then nnodes_per_sector m else 1.
Definition loc_sector_no (m : SSDIndexMetadata) (loc : Z) : Z :=
  u64 (1 + (if 0 <? nnodes_per_sector m then loc / nnodes_per_sector m
            else u64 (loc * DIV_ROUND_UP (max_node_len m) SECTOR_LEN))).
Definition sector_to_loc (m : SSDIndexMetadata) (sector_no sector_off : Z) : Z :=
  if nnodes_per_sector m =? 0 then u64 (sector_no - 1) / DIV_ROUND_UP (max_node_len m) SECTOR_LEN
  else u64 (u64 (sector_no - 1) * nnodes_per_sector m + sector_off).
Definition u_loc_offset (m : SSDIndexMetadata) (loc : Z) : Z := u64 (loc * max_node_len m).
Definition u_loc_offset_nbr (m : SSDIndexMetadata) (loc : Z) : Z :=
  u64 (loc * max_node_len m + vector_bytes m).

(** The fields of a node, as offsets into its page buffer. *)
Record DiskNode := mkNode {
  coords : Z; nnbrs : Z; n_dense_nbrs : Z; nbrs : Z; attrs : Z; dense_nbrs : Z
}.

Definition disk_node (m : SSDIndexMetadata) (loc : Z) : DiskNode :=
  let c := if nnodes_per_sector m =? 0 then 0
           else u64 ((loc mod nnodes_per_sector m) * max_node_len m) in
  let vb := vector_bytes m in
  mkNode c (c + vb) (c + vb + 2) (c + vb + 4) (c + vb + u64 (u64 (1 + range m) * 4))
    (c + vb + u64 (u64 (1 + range m) * 4) + attr_size m).

(** ** Well-formed metadata: what [init_temporary_fields] establishes *)

Record fields_ok (m : SSDIndexMetadata) : Prop := mkFieldsOk {
  fo_npoints : is_u64 (npoints m);
  fo_dim : is_u64 (data_dim m);
  fo_entry : is_u64 (entry_point m);
  fo_len : is_u64 (max_node_len m);
  fo_nnps : is_u64 (nnodes_per_sector m);
  fo_shard : is_u64 (npts_cur_shard m);
  fo_attr : is_u64 (attr_size m);
  fo_range : is_u64 (range m);
  fo_ood : is_u64 (R_ood m)
}.

Lemma vector_bytes_u64 m : is_u64 (vector_bytes m).
Proof. unfold vector_bytes, rabitq8_vector_size. destruct (vector_type m); apply u64_range. Qed.

(** The node record splits into the vector, the degree word, [range] neighbours,
    the attributes and [range_dense - range] dense neighbours. *)
Record layout_ok (m : SSDIndexMetadata) : Prop := mkLayoutOk {
  lo_fit : vector_bytes m + 4 * (1 + range_dense m) + attr_size m <= max_node_len m;
  lo_tight : max_node_len m < vector_bytes m + 4 * (2 + range_dense m) + attr_size m;
  lo_range : 0 <= range m <= range_dense m;
  lo_zero : range m = 0 → range_dense m = 0;
  lo_normal : normal_node_len m = max_node_len m - 4 * (range_dense m - range m);
  lo_ood : 0 <= R_ood m <= range m;
  lo_entry : entry_point_id m = u32 (entry_point m);
  lo_npts : max_npts m = npoints m
}.

(** The check that precedes the computation, without the wrap-around. *)
Lemma init_check m :
  fields_ok m →
  ((max_node_len m <? vector_bytes m) || (u64 (max_node_len m - vector_bytes m) <? attr_size m)
   || (u64 (max_node_len m - vector_bytes m - attr_size m) <? 4)) = false →
  vector_bytes m + attr_size m + 4 <= max_node_len m
  ∧ u64 (max_node_len m - vector_bytes m - attr_size m) = max_node_len m - vector_bytes m - attr_size m.
Proof.
  intros [] Hc. pose proof (vector_bytes_u64 m) as Hv. unfold is_u64 in *. bool_to_prop.
  rewrite (u64_small (max_node_len m - vector_bytes m)) in * by (unfold is_u64; lia).
  rewrite (u64_small (max_node_len m - vector_bytes m - attr_size m)) in * by (unfold is_u64; lia). lia.
Qed.

Lemma init_layout_ok m m' :
  fields_ok m → init_temporary_fields m = Some m' →
  fields_ok m' ∧ layout_ok m' ∧ vector_bytes m' = vector_bytes m.
Proof.
  intros Hf. unfold init_temporary_fields.
  match goal with |- context [if ?b then None else _] => destruct b eqn:Hc end; [done|].
  intros ?; simplify_eq. apply init_check in Hc as [Hle Hu]; [|done]. rewrite !Hu.
  pose proof Hf as []. pose proof (vector_bytes_u64 m) as Hv. unfold is_u64 in *.
  set (d := (max_node_len m - vector_bytes m - attr_size m) / 4 - 1).
  set (q := (max_node_len m - vector_bytes m - attr_size m)) in *.
  assert (0 <= d /\ 4 * (1 + d) <= q < 4 * (2 + d)) as [Hd Hq].
  { pose proof (Z.div_mod q 4). pose proof (Z.mod_pos_bound q 4). unfold d. lia. }
  rewrite (u64_small d) by (unfold is_u64; lia).
  set (r := if (range m =? 0) || (d <=? range m) then d else range m).
  assert ((0 <= r <= d) ∧ (r = 0 → d = 0)) as [Hr Hr0].
  { unfold r. destruct (Z.eqb_spec (range m) 0); simpl; [lia|]. destruct (Z.leb_spec d (range m)); lia. }
  rewrite !(u64_small (d - r)), !(u64_small ((d - r) * 4)), !(u64_small (max_node_len m - (d - r) * 4))
    by (unfold is_u64; lia).
  split_and!.
  - split; simpl; try done; unfold is_u64; [lia|]. case_if; lia.
  - split; simpl; unfold vector_bytes; simpl; fold (vector_bytes m); try done; try lia. case_if; lia.
  - done.
Qed.

(** [init_temporary_fields] leaves well-formed metadata as it is. *)
Lemma init_fixed m : fields_ok m → layout_ok m → init_temporary_fields m = Some m.
Proof.
  intros [] []. pose proof (vector_bytes_u64 m) as Hv. unfold is_u64 in *.
  unfold init_temporary_fields.
  rewrite (u64_small (max_node_len m - vector_bytes m)) by (unfold is_u64; lia).
  rewrite (u64_small (max_node_len m - vector_bytes m - attr_size m)) by (unfold is_u64; lia).
  match goal with |- context [if ?b then None else _] => destruct b eqn:Hc end.
  { apply orb_true_iff in Hc as [Hc|Hc]; [apply orb_true_iff in Hc as [Hc|Hc]|]; bool_to_prop; lia. }
  clear Hc. set (q := max_node_len m - vector_bytes m - attr_size m) in *.
  assert (q / 4 - 1 = range_dense m) as ->.
  { pose proof (Z.div_mod q 4). pose proof (Z.mod_pos_bound q 4). lia. }
  rewrite (u64_small (range_dense m)) by (unfold is_u64; lia).
  assert ((if (range m =? 0) || (range_dense m <=? range m) then range_dense m else range m) = range m) as ->.
  { case_if; [|done]. apply orb_true_iff in Heqb as [Hb|Hb]; bool_to_prop; lia. }
  rewrite (proj2 (Z.ltb_ge _ _)) by lia.
  rewrite (u64_small (range_dense m - range m)), (u64_small ((range_dense m - range m) * 4)), u64_small
    by (unfold is_u64; lia).
  destruct m; simpl in *; subst. do 2 f_equal; lia.
Qed.

Lemma vector_type_round_trip t : vector_type_of (vector_type_value t) = Some t.
Proof. by destruct t. Qed.

Lemma meta_bytes_length m : length (meta_bytes m) = 88%nat.
Proof. unfold meta_bytes. by rewrite !length_app, !le_bytes_length. Qed.

(** What a metadata sector written by [save_to_disk_index] reads back to. *)
Definition reloaded (m : SSDIndexMetadata) (sharded : bool) : SSDIndexMetadata :=
  mkMeta 10 1 (npoints m) (data_dim m) (entry_point m) (max_node_len m) (nnodes_per_sector m)
    (if sharded then npts_cur_shard m else npoints m) (attr_size m) (npoints m) (range m) (R_ood m)
    (vector_type m) (normal_node_len m) (range_dense m) (entry_point_id m).

Lemma load_save m file sharded :
  fields_ok m → layout_ok m →
  load_from_disk_index (save_to_disk_index m file) sharded = Some (reloaded m sharded).
Proof.
  intros Hf Hl. unfold save_to_disk_index.
  generalize (replicate (Z.to_nat SECTOR_LEN - length (meta_bytes m)) 0 ++ drop (Z.to_nat SECTOR_LEN) file) as rest.
  intros rest. unfold load_from_disk_index, meta_bytes.
  rewrite <- !app_assoc. pose proof Hf as [].
  do 2 (rewrite read_u32_app by done; cbn [mbind option_bind]).
  do 8 (rewrite read_u64_app by done; cbn [mbind option_bind]).
  change (read_if (9 <=? 10)) with (read_le 8). change (read_if (10 <=? 10)) with (read_le 8).
  rewrite read_u64_app by done. cbn [mbind option_bind].
  rewrite read_u64_app by (by destruct (vector_type m)). cbn [mbind option_bind].
  rewrite vector_type_round_trip. cbn [mbind option_bind].
  rewrite <- (init_fixed (reloaded m sharded)); [reflexivity|..].
  - split; simpl; try done. by destruct sharded.
  - destruct Hl. by split.
Qed.

(** metadata built by the constructor survives a restart: loading the first
    sector that [save_to_disk_index] wrote over any existing file yields the same
    metadata, derived fields included, up to the format words and, for an
    unsharded load, the shard size reset to the number of points. *)
Theorem metadata_round_trip npoints data_dim entry_point max_node_len nnps range attr_size R_ood vt m file sharded :
  is_u64 npoints → is_u64 data_dim → is_u64 entry_point → is_u64 max_node_len → is_u64 nnps →
  is_u64 range → is_u64 attr_size → is_u64 R_ood →
  make npoints data_dim entry_point max_node_len nnps range attr_size R_ood vt = Some m →
  load_from_disk_index (save_to_disk_index m file) sharded = Some (reloaded m sharded)
  ∧ length (save_to_disk_index m file) = Nat.max (Z.to_nat SECTOR_LEN) (length file)
  ∧ drop (Z.to_nat SECTOR_LEN) (save_to_disk_index m file) = drop (Z.to_nat SECTOR_LEN) file.
Proof.
  intros ???????? Hm. unfold make in Hm.
  apply init_layout_ok in Hm as (Hf & Hl & _); [|by split].
  split; [by apply load_save|]. pose proof (meta_bytes_length m) as Hlen.
  unfold save_to_disk_index. rewrite Hlen. split.
  - rewrite !length_app, Hlen, length_replicate, length_drop. unfold SECTOR_LEN. lia.
  - rewrite app_assoc. apply drop_app_length'.
    rewrite length_app, Hlen, length_replicate. unfold SECTOR_LEN. lia.
Qed.

(** ** Nodes in sectors *)

Lemma div_round_up_bound x y : 0 <= x → 0 < y → x <= y * DIV_ROUND_UP x y < x + y.
Proof.
  intros Hx Hy. unfold DIV_ROUND_UP. pose proof (Z.div_mod x y). pose proof (Z.mod_pos_bound x y).
  case_if; lia.
Qed.

Lemma round_up_spec x y :
  0 <= x → 0 < y → x + y < 2 ^ 64 → x <= ROUND_UP x y < x + y ∧ ROUND_UP x y = y * DIV_ROUND_UP x y.
Proof.
  intros Hx Hy Hov. pose proof (div_round_up_bound x y Hx Hy) as Hd. unfold ROUND_UP. fold (DIV_ROUND_UP x y).
  rewrite u64_small by (unfold is_u64; lia). lia.
Qed.

(** The bounds under which sector arithmetic does not wrap: a node shorter than
    [2^31] bytes and 32-bit locations (sector number below [2^52]). *)
Record placement_ok (m : SSDIndexMetadata) : Prop := mkPlacementOk {
  po_len : 0 < max_node_len m < 2 ^ 31;
  po_nnps : 0 <= nnodes_per_sector m;
  po_fit : nnodes_per_sector m * max_node_len m <= SECTOR_LEN
}.

(** The first byte on disk of the node at [loc], and of its page buffer. *)
Definition page_addr (m : SSDIndexMetadata) (loc : Z) : Z := loc_sector_no m loc * SECTOR_LEN.
Definition node_addr (m : SSDIndexMetadata) (loc : Z) : Z := page_addr m loc + coords (disk_node m loc).

Definition sectors_per_node (m : SSDIndexMetadata) : Z := DIV_ROUND_UP (max_node_len m) SECTOR_LEN.

Lemma sectors_per_node_bound m :
  placement_ok m → 0 < sectors_per_node m < 2 ^ 20 ∧ max_node_len m <= SECTOR_LEN * sectors_per_node m.
Proof.
  intros []. pose proof (div_round_up_bound (max_node_len m) SECTOR_LEN) as Hb.
  unfold sectors_per_node. unfold SECTOR_LEN in *. lia.
Qed.

Lemma nnps_bound m : placement_ok m → nnodes_per_sector m <= SECTOR_LEN.
Proof. intros []. unfold SECTOR_LEN in *. nia. Qed.

Lemma loc_sector_no_eq m loc :
  placement_ok m → is_u32 loc →
  loc_sector_no m loc =
    1 + (if 0 <? nnodes_per_sector m then loc / nnodes_per_sector m else loc * sectors_per_node m).
Proof.
  intros Hp Hloc. destruct (sectors_per_node_bound m Hp) as [Hs _]. destruct Hp. unfold is_u32 in Hloc.
  unfold loc_sector_no. fold (sectors_per_node m).
  rewrite (u64_small (loc * sectors_per_node m)) by (unfold is_u64; nia).
  apply u64_small. unfold is_u64. case_if; [|nia].
  assert (0 <= loc / nnodes_per_sector m) by (apply Z.div_pos; lia).
  assert (loc / nnodes_per_sector m <= loc) by (apply Z.div_le_upper_bound; nia). lia.
Qed.

Lemma coords_eq m loc :
  placement_ok m → is_u32 loc →
  coords (disk_node m loc)
  = if 0 <? nnodes_per_sector m then (loc mod nnodes_per_sector m) * max_node_len m else 0.
Proof.
  intros Hp Hloc. destruct Hp. simpl. unfold SECTOR_LEN in *.
  destruct (Z.eqb_spec (nnodes_per_sector m) 0) as [->|Hne]; [done|].
  rewrite (proj2 (Z.ltb_lt _ _)) by lia. pose proof (Z.mod_pos_bound loc (nnodes_per_sector m)).
  apply u64_small. unfold is_u64. nia.
Qed.

(** Consecutive fields: each starts where the previous one ends. *)
Definition contiguous (d : DiskNode) (m : SSDIndexMetadata) : Prop :=
  nnbrs d = coords d + vector_bytes m ∧ n_dense_nbrs d = nnbrs d + 2 ∧ nbrs d = n_dense_nbrs d + 2
  ∧ attrs d = nbrs d + 4 * range m ∧ dense_nbrs d = attrs d + attr_size m.

Lemma node_within_record m loc :
  fields_ok m → layout_ok m → placement_ok m → is_u32 loc →
  let d := disk_node m loc in
  contiguous d m ∧ 0 <= coords d
  ∧ dense_nbrs d <= coords d + normal_node_len m
  ∧ dense_nbrs d + 4 * (range_dense m - range m) <= coords d + max_node_len m
  ∧ coords d + normal_node_len m <= io_size m
  ∧ coords d + max_node_len m <= io_size_dense m.
Proof.
  intros Hf Hl Hp Hloc. pose proof (coords_eq m loc Hp Hloc) as Hc.
  pose proof (vector_bytes_u64 m) as Hv. pose proof (nnps_bound m Hp) as Hn.
  pose proof Hf as []. pose proof Hl as []. pose proof Hp as []. unfold is_u64, SECTOR_LEN in *.
  assert (0 <= coords (disk_node m loc)
    ∧ (0 < nnodes_per_sector m → coords (disk_node m loc) + max_node_len m <= 4096)
    ∧ (nnodes_per_sector m = 0 → coords (disk_node m loc) = 0)) as (Hc0 & Hc1 & Hc2).
  { rewrite Hc. destruct (Z.ltb_spec 0 (nnodes_per_sector m)); [|lia].
    pose proof (Z.mod_pos_bound loc (nnodes_per_sector m)). split_and!; [nia| |lia]. intros _. nia. }
  pose proof (div_round_up_bound (normal_node_len m) 4096) as Hd1.
  pose proof (div_round_up_bound (max_node_len m) 4096) as Hd2.
  assert (u64 (u64 (1 + range m) * 4) = 4 + 4 * range m) as Hr.
  { rewrite (u64_small (1 + range m)), u64_small by (unfold is_u64; lia). lia. }
  unfold contiguous, io_size, io_size_dense, SECTOR_LEN. simpl in *. rewrite Hr.
  set (c := if nnodes_per_sector m =? 0 then 0 else u64 (loc mod nnodes_per_sector m * max_node_len m)) in *.
  split_and!; try lia.
  - destruct (Z.ltb_spec 0 (nnodes_per_sector m)); rewrite u64_small by (unfold is_u64; lia); lia.
  - destruct (Z.ltb_spec 0 (nnodes_per_sector m)); rewrite u64_small by (unfold is_u64; lia); lia.
Qed.

(** What [save_from_mem] computes, for sizes that do not wrap. *)
Lemma vec_bytes_bound dim vt m :
  0 < sizeof_T <= 8 → 0 <= dim < 2 ^ 26 → data_dim m = dim → vector_type m = vt →
  0 <= vector_bytes m <= 2 ^ 29 + 2 ^ 10
  ∧ (match vt with RABITQ8 => ROUND_UP (rabitq8_vector_size dim) 4 | RAW => u64 (dim * sizeof_T) end) = vector_bytes m.
Proof.
  intros HT Hd Ed Et. unfold vector_bytes. rewrite Ed, Et. destruct vt.
  { rewrite u64_small by (unfold is_u64; nia). split; [nia|done]. }
  destruct (round_up_spec dim 128) as [Hp Ep]; [lia..|]. unfold rabitq8_vector_size, sizeof_Header. fold (pad_dim dim) in *.
  rewrite (u64_small (pad_dim dim * 8)), Z.div_mul, u64_small by (unfold is_u64; lia). split; [lia|].
  destruct (round_up_spec (16 + pad_dim dim) 4) as [Hq Eq]; [lia..|]. lia.
Qed.

Lemma save_from_mem_meta_ok nd dim ep range0 trd attr ood vt :
  0 < sizeof_T <= 8 → is_u64 nd → 0 <= dim < 2 ^ 26 → is_u64 ep → 0 <= range0 < 2 ^ 16 → 0 <= trd < 2 ^ 16 →
  0 <= attr < 2 ^ 30 → 0 <= ood < 2 ^ 16 →
  ∃ m, save_from_mem_meta nd dim ep range0 trd attr ood vt = Some m
  ∧ fields_ok m ∧ layout_ok m ∧ placement_ok m ∧ data_dim m = dim ∧ attr_size m = attr
  ∧ range_dense m = Z.max trd range0 ∧ range m = if range0 =? 0 then Z.max trd range0 else range0.
Proof.
  intros HT Hn Hd He Hr Ht Ha Ho. unfold save_from_mem_meta, make.
  set (rd := Z.max trd range0). assert (0 <= rd < 2 ^ 16 ∧ range0 <= rd) as [Hrd Hle] by (unfold rd; lia).
  set (len := u64 (u64 (u64 (u64 (rd + 1) * 4) + _) + attr)).
  set (m0 := mkMeta 0 0 nd dim ep len (SECTOR_LEN / len) nd attr 0 range0 ood vt 0 0 0).
  destruct (vec_bytes_bound dim vt m0 HT Hd eq_refl eq_refl) as [Hv Ev].
  assert (len = 4 * (rd + 1) + vector_bytes m0 + attr) as El.
  { unfold len. rewrite Ev, (u64_small (rd + 1)), (u64_small ((rd + 1) * 4)), (u64_small ((rd + 1) * 4 + vector_bytes m0)), u64_small
      by (unfold is_u64; lia). lia. }
  rewrite (proj2 (Z.eqb_neq _ _)) by lia.
  assert (0 <= SECTOR_LEN / len <= SECTOR_LEN ∧ SECTOR_LEN / len * len <= SECTOR_LEN) as [Hnn Hfit].
  { unfold SECTOR_LEN. pose proof (Z.mul_div_le 4096 len). split; [|lia].
    split; [apply Z.div_pos; lia|]. apply Z.div_le_upper_bound; nia. }
  assert (fields_ok m0) as Hf0.
  { assert (SECTOR_LEN < 2 ^ 64) by done. unfold is_u64 in *.
    split; unfold m0; cbn [npoints data_dim entry_point max_node_len nnodes_per_sector npts_cur_shard attr_size range R_ood]; unfold is_u64; lia. }
  destruct (init_temporary_fields m0) as [m|] eqn:Em.
  - destruct (init_layout_ok m0 m Hf0 Em) as (Hf & Hl & Evb). exists m. split; [done|].
    unfold init_temporary_fields in Em. case_match; [done|]. injection Em as <-. simpl in *.
    assert (u64 (u64 (len - vector_bytes m0 - attr) / 4 - 1) = rd) as Edense.
    { rewrite (u64_small (len - vector_bytes m0 - attr)) by (unfold is_u64; lia).
      replace (len - vector_bytes m0 - attr) with ((rd + 1) * 4) by lia. rewrite Z.div_mul by lia.
      rewrite u64_small by (unfold is_u64; lia). lia. }
    split_and!; [done|done| |done|done|done|].
    + split; cbn [max_node_len nnodes_per_sector]; lia.
    + rewrite Edense. destruct (Z.eqb_spec range0 0); simpl; [done|]. destruct (Z.leb_spec rd range0); lia.
  - exfalso. unfold init_temporary_fields in Em. cbv zeta in Em. simpl in Em.
    rewrite (u64_small (len - vector_bytes m0)), (u64_small (len - vector_bytes m0 - attr)) in Em by (unfold is_u64; lia).
    rewrite !(proj2 (Z.ltb_ge _ _)) in Em by lia. done.
Qed.

(** C36: on an index that [save_from_mem] writes and a later run loads, every field of
    every disk node stays inside the node's record and inside the buffer one I/O
    reads.  For RAW and RABITQ8 vectors of fewer than [2^26] dimensions of at most
    eight bytes, 16-bit degrees and fewer than [2^30] attribute bytes, the metadata it
    computes (the record length from the vector, the degrees and the attributes, and
    [SECTOR_LEN / max_node_len] records per sector) passes the checks of the
    constructor and of loading.  With the loaded metadata the vector, the two degree
    counters, [range] neighbour ids, the attributes and the dense neighbours follow
    each other without overlap; the part before the dense neighbours lies within
    [io_size] (the compact read) and the whole node within [io_size_dense].  (Loading
    does not check that a foreign file's [nnodes_per_sector] fits its record
    length.) *)
Theorem disk_node_within_record nd dim ep range0 trd attr ood vt file sharded loc :
  0 < sizeof_T <= 8 → is_u64 nd → 0 <= dim < 2 ^ 26 → is_u64 ep → 0 <= range0 < 2 ^ 16 → 0 <= trd < 2 ^ 16 →
  0 <= attr < 2 ^ 30 → 0 <= ood < 2 ^ 16 → is_u32 loc →
  ∃ m0 m, save_from_mem_meta nd dim ep range0 trd attr ood vt = Some m0
  ∧ load_from_disk_index (save_to_disk_index m0 file) sharded = Some m
  ∧ range_dense m = Z.max trd range0 ∧ attr_size m = attr
  ∧ let d := disk_node m loc in
    contiguous d m ∧ 0 <= coords d
    ∧ dense_nbrs d <= coords d + normal_node_len m
    ∧ dense_nbrs d + 4 * (range_dense m - range m) <= coords d + max_node_len m
    ∧ coords d + normal_node_len m <= io_size m
    ∧ coords d + max_node_len m <= io_size_dense m.
Proof.
  intros HT Hn Hd He Hr Ht Ha Ho Hloc.
  destruct (save_from_mem_meta_ok nd dim ep range0 trd attr ood vt) as (m & Em & Hf & Hl & Hp & _ & Ea & Er & _); [done..|].
  exists m, (reloaded m sharded). split_and!; [done|by apply load_save|done|done|].
  apply node_within_record; [|by destruct Hl|by destruct Hp|done].
  destruct Hf. split; try done. simpl. by destruct sharded.
Qed.

(** locations partition the data region: no node overlaps the metadata sector
    or another node, and the sector and offset of a location determine it
    ([sector_to_loc] inverts [loc_sector_no]), in both the packed and the
    multi-sector layout. *)
Theorem locations_partition_disk m loc loc' :
  placement_ok m → is_u32 loc → is_u32 loc' →
  SECTOR_LEN <= node_addr m loc
  ∧ sector_to_loc m (loc_sector_no m loc)
      (if nnodes_per_sector m =? 0 then 0 else loc mod nnodes_per_sector m) = loc
  ∧ (loc < loc' → node_addr m loc + max_node_len m <= node_addr m loc').
Proof.
  intros Hp Hl Hl'. unfold node_addr, page_addr. rewrite !coords_eq, !loc_sector_no_eq by done.
  destruct (sectors_per_node_bound m Hp) as [Hs Hs']. pose proof (nnps_bound m Hp) as Hn.
  destruct Hp. unfold is_u32, SECTOR_LEN in *. unfold sector_to_loc. fold (sectors_per_node m).
  destruct (Z.ltb_spec 0 (nnodes_per_sector m)) as [Hpos|Hz].
  - rewrite (proj2 (Z.eqb_neq _ _)) by lia. set (n := nnodes_per_sector m) in *.
    pose proof (Z.div_mod loc n). pose proof (Z.mod_pos_bound loc n).
    pose proof (Z.div_mod loc' n). pose proof (Z.mod_pos_bound loc' n).
    assert (0 <= loc / n) by (apply Z.div_pos; lia).
    assert (0 <= loc' / n) by (apply Z.div_pos; lia).
    split_and!.
    + nia.
    + replace (1 + loc / n - 1) with (loc / n) by lia.
      rewrite (u64_small (loc / n)) by (unfold is_u64; nia). rewrite u64_small by (unfold is_u64; nia). nia.
    + intros Hlt. destruct (Z.eq_dec (loc / n) (loc' / n)) as [He|Hne]; [rewrite He in *; nia|].
      assert (loc / n < loc' / n) by nia. nia.
  - assert (nnodes_per_sector m = 0) as -> by lia. cbn [Z.eqb]. split_and!; [nia| |nia].
    replace (1 + loc * sectors_per_node m - 1) with (loc * sectors_per_node m) by lia.
    rewrite u64_small by (unfold is_u64; nia). apply Z.div_mul. lia.
Qed.

End metadata.

(** A 128-dimensional float index of 1000 points: nodes of 768 bytes, five per
    sector, up to 48 neighbours and 15 dense ones, an 8-byte attribute record. *)
Definition example_meta : SSDIndexMetadata :=
  mkMeta 0 0 1000 128 7 768 5 1000 0 1000 48 0 RAW 708 63 7.

Lemma metadata_round_trip_witness :
  make 4 1000 128 7 768 5 48 0 0 RAW = Some example_meta
  ∧ load_from_disk_index 4 (save_to_disk_index example_meta []) false = Some (reloaded example_meta false).
Proof.
  assert (make 4 1000 128 7 768 5 48 0 0 RAW = Some example_meta) as Hm by reflexivity.
  split; [exact Hm|].
  apply (metadata_round_trip 4 1000 128 7 768 5 48 0 0 RAW example_meta [] false); try exact Hm; unfold is_u64; lia.
Defined.

(** A like index as [save_from_mem] lays it out: records of 256 + 512 + 8 bytes, five
    per sector. *)
Lemma disk_node_within_record_witness :
  ∃ m0 m, save_from_mem_meta 4 1000 128 7 48 63 8 0 RAW = Some m0
  ∧ load_from_disk_index 4 (save_to_disk_index m0 []) false = Some m
  ∧ dense_nbrs (disk_node 4 m 3) + 4 * (range_dense m - range m) <= coords (disk_node 4 m 3) + max_node_len m.
Proof.
  destruct (disk_node_within_record 4 1000 128 7 48 63 8 0 RAW [] false 3) as (m0 & m & E0 & E & _ & _ & _ & _ & _ & H & _);
    [unfold is_u64, is_u32; lia..|].
  exists m0, m. exact (conj E0 (conj E H)).
Defined.

Lemma locations_partition_disk_witness :
  node_addr 4 example_meta 6 = 8960 ∧ node_addr 4 example_meta 4 + 768 <= node_addr 4 example_meta 6.
Proof.
  split; [reflexivity|].
  apply (locations_partition_disk 4 example_meta 4 6).
  - split; vm_compute; intuition congruence.
  - unfold is_u32. lia.
  - unfold is_u32. lia.
  - lia.
Defined.

End Layout.
