(* ===== verification/BinFile.v ===== *)
(** * The bin format ([include/utils.h], lines 149-299)

    Vector files, PQ tables, tags and attribute filters share one format: two
    32-bit counts, then the elements.  Ground-truth files ([load_truthset]) are
    bin files whose kind is recognised by their size. *)

From S2P Require Import Prelude Bytes.

Module BinFile.
Open Scope Z_scope.

(** [save_bin<T>]: the existing file is kept around the written range; [data] is
    the bytes of [npts * ndims] elements.  Returns the count it reports. *)
Definition save_bin (sizeof_T : Z) (file : list Z) (data : list Z) (npts ndims : Z) (offset : nat) : list Z * Z :=
  let header := le_bytes 4 (u32 npts) ++ le_bytes 4 (u32 ndims) in
  (write_at file offset (header ++ data), u64 (npts * ndims * sizeof_T + 8)).

(** The overload of [load_bin_impl] for vectors; [None]: it throws. *)
Definition load_bin (sizeof_T : Z) (file : list Z) (offset : nat) : option (list Z * Z * Z) :=
  '(npts, s) ← read_le 4 (drop offset file);
  '(dim, s) ← read_le 4 s;
  '(data, s) ← read_bytes (Z.to_nat (u64 (npts * dim * sizeof_T))) s;
  Some (data, npts, dim).

(** [int] to [size_t]. *)
Definition size_of_int (z : Z) : Z := u64 (i32_of_u32 z).

Definition get_bin_metadata (file : list Z) (offset : nat) : option (Z * Z) :=
  '(nrows, s) ← read_le 4 (drop offset file);
  '(ncols, s) ← read_le 4 s;
  Some (size_of_int nrows, size_of_int ncols).

Definition truthset_type (actual npts dim : Z) : option Z :=
  let n := u64 (npts * dim * 4) in
  let t := None in
  let t := if actual =? u64 (2 * npts * dim * 4 + 8) then Some 1 else t in
  let t := if actual =? u64 (npts * dim * 4 + 8) then Some 2 else t in
  let t := if actual =? u64 (3 * npts * dim * 4 + 8) then Some 3 else t in
  t.

(** The ids, and the distances and tags when the file has them (4-byte elements);
    [None]: the size matches no format. *)
Definition load_truthset (file : list Z) : option (list Z * option (list Z) * option (list Z) * Z * Z) :=
  '(npts, s) ← read_le 4 file;
  '(dim, s) ← read_le 4 s;
  ty ← truthset_type (Z.of_nat (length file)) npts dim;
  let n := Z.to_nat (u64 (npts * dim * 4)) in
  '(ids, s) ← read_bytes n s;
  '(dists, s) ← (if (ty =? 1) || (ty =? 3) then '(d, s) ← read_bytes n s; Some (Some d, s) else Some (None, s));
  '(tags, s) ← (if ty =? 3 then '(d, s) ← read_bytes n s; Some (Some d, s) else Some (None, s));
  Some (ids, dists, tags, npts, dim).

Lemma save_load_bin sizeof_T file data npts ndims offset :
  is_u32 npts → is_u32 ndims → 0 < sizeof_T → npts * ndims * sizeof_T + 8 < 2 ^ 64 →
  Z.of_nat (length data) = npts * ndims * sizeof_T → (offset <= length file)%nat →
  let '(file', n) := save_bin sizeof_T file data npts ndims offset in
  load_bin sizeof_T file' offset = Some (data, npts, ndims)
  ∧ take offset file' = take offset file
  ∧ n = Z.of_nat (length data) + 8
  ∧ length file' = Nat.max (length file) (offset + Z.to_nat n).
Proof.
  intros Hn Hd HT Hov Hlen Hoff. unfold save_bin. rewrite !u32_small by done.
  unfold is_u32 in *. assert (0 <= npts * ndims * sizeof_T) by nia.
  rewrite u64_small by (unfold is_u64; lia). split_and!.
  - unfold load_bin, write_at. replace (offset - length file)%nat with 0%nat by lia. simpl replicate.
    rewrite app_nil_l, drop_app_length' by (rewrite length_take; lia).
    rewrite <- !app_assoc. rewrite read_u32_app by done. cbn [mbind option_bind].
    rewrite read_u32_app by done. cbn [mbind option_bind].
    rewrite u64_small by (unfold is_u64; lia). rewrite <- Hlen, Nat2Z.id.
    by rewrite read_bytes_app.
  - unfold write_at. rewrite take_app_le by (rewrite length_take; lia). by rewrite take_take, Nat.min_id.
  - lia.
  - rewrite write_at_length, !length_app, !le_bytes_length. lia.
Qed.

(** the bin format round-trips at any offset of any file: reading what
    [save_bin] wrote returns the same elements and counts, leaves the bytes in
    front of the offset alone, and the reported size is the number of bytes
    written. *)
Theorem bin_round_trip sizeof_T file data npts ndims offset :
  is_u32 npts → is_u32 ndims → 0 < sizeof_T → npts * ndims * sizeof_T + 8 < 2 ^ 64 →
  Z.of_nat (length data) = npts * ndims * sizeof_T → (offset <= length file)%nat →
  let '(file', n) := save_bin sizeof_T file data npts ndims offset in
  load_bin sizeof_T file' offset = Some (data, npts, ndims)
  ∧ take offset file' = take offset file
  ∧ n = Z.of_nat (length data) + 8
  ∧ length file' = Nat.max (length file) (offset + Z.to_nat n).
Proof. apply save_load_bin. Qed.

Lemma bin_round_trip_witness :
  let '(file', n) := save_bin 1 [9; 9] [1; 2; 3; 4; 5; 6] 2 3 2 in
  load_bin 1 file' 2 = Some ([1; 2; 3; 4; 5; 6], 2, 3) ∧ take 2 file' = [9; 9] ∧ n = 14.
Proof.
  pose proof (bin_round_trip 1 [9; 9] [1; 2; 3; 4; 5; 6] 2 3 2) as H.
  simpl in H |- *. destruct H as (H1 & H2 & H3 & _); try (unfold is_u32; lia); try done; try lia.
Defined.

(** The kinds of a ground-truth file with at least one entry are told apart. *)
Lemma truthset_type_spec npts dim k :
  0 < npts * dim → 3 * (npts * dim) * 4 + 8 < 2 ^ 64 → 1 <= k <= 3 →
  truthset_type (k * (npts * dim) * 4 + 8) npts dim
  = Some (if k =? 1 then 2 else if k =? 2 then 1 else 3).
Proof.
  intros Hp Hov Hk. unfold truthset_type.
  rewrite !u64_small by (unfold is_u64; lia).
  assert (k = 1 ∨ k = 2 ∨ k = 3) as [->|[->| ->]] by lia;
    repeat (match goal with |- context [?a =? ?b] => destruct (Z.eqb_spec a b) end); try lia; done.
Qed.

End BinFile.
