(* ===== verification/PageCache.v ===== *)
(** * The page cache and the reader's use of it ([include/utils/page_cache.h],
    [include/aligned_file_reader.h], [src/utils/linux_aligned_file_reader.cpp])

    Inserts write pages to the cache first; a background thread writes them to disk and
    drops the references.  A page stays in the cache while somebody refers to it.  The
    disk is a function from block numbers to sectors. *)

From S2P Require Import Prelude Bytes Layout.

Module PageCache.
Open Scope Z_scope.

Notation sector := (list Z) (only parsing).

Definition SECTOR_LEN : Z := Layout.SECTOR_LEN.

Record PageCacheItem := mkItem { buf : sector; ref_cnt : Z }.

Definition ref (v : PageCacheItem) : PageCacheItem := mkItem (buf v) (u64 (ref_cnt v + 1)).
Definition unref (v : PageCacheItem) : PageCacheItem := mkItem (buf v) (u64 (ref_cnt v - 1)).

(** The union of the block number and the file descriptor, read as 64 bits. *)
Definition PageCacheKey (fd block_no : Z) : Z := u32 block_no + 2 ^ 32 * u32 fd.

Notation cache := (gmap Z PageCacheItem) (only parsing).

Definition get (key : Z) (r : bool) (c : cache) : option sector * cache :=
  match c !! key with
  | Some v => (Some (buf v), if r then <[key := ref v]> c else c)
  | None => (None, c)
  end.

Definition put (key : Z) (value : sector) (r : bool) (c : cache) : cache :=
  let v := default (mkItem [] 0) (c !! key) in
  let v := if r then ref v else v in
  <[key := mkItem value (ref_cnt v)]> c.

Definition deref (key : Z) (c : cache) : cache :=
  match c !! key with
  | Some v => if ref_cnt (unref v) =? 0 then delete key c else <[key := unref v]> c
  | None => c
  end.

Definition clear (c : cache) : cache := ∅.

(** ** Requests *)

Record IORequest := mkReq { offset : Z; len : Z; data : list Z }.

Definition sector_at (bs : list Z) (i : Z) : option sector :=
  if (i + 1) * SECTOR_LEN <=? Z.of_nat (length bs)
  then Some (region bs (Z.to_nat (i * SECTOR_LEN)) (Z.to_nat ((i + 1) * SECTOR_LEN))) else None.

(** The blocks of a write: the loop runs while [i < len]. *)
Definition wbc_blocks (r : IORequest) : option (list (Z * sector)) :=
  mapM (λ i, s ← sector_at (data r) i; Some ((offset r + i * SECTOR_LEN) / SECTOR_LEN, s)) (seqZ 0 (Layout.DIV_ROUND_UP (len r) SECTOR_LEN)).

(** The blocks of a request that was read. *)
Definition read_blocks (r : IORequest) (bs : list Z) : option (list (Z * sector)) :=
  mapM (λ i, s ← sector_at bs i; Some (offset r / SECTOR_LEN + i, s)) (seqZ 0 (len r / SECTOR_LEN)).

Definition put_blocks (fd : Z) (bl : list (Z * sector)) (c : cache) : cache :=
  foldl (λ c b, put (PageCacheKey fd b.1) b.2 true c) c bl.

Definition keys_of (fd : Z) (bl : list (Z * sector)) : list Z := map (λ b, PageCacheKey fd b.1) bl.

(** [wbc_write]: the pages go to the cache; the keys are the references taken. *)
Definition wbc_write (fd : Z) (reqs : list IORequest) (c : cache) : option (list (Z * sector) * list Z * cache) :=
  bls ← mapM wbc_blocks reqs;
  let bl := concat bls in
  Some (bl, keys_of fd bl, put_blocks fd bl c).

Definition deref_all (refs : list Z) (c : cache) : cache := foldl (λ c k, deref k c) c refs.

(** [read_from_cache]: sector by sector until one is missing. *)
Fixpoint cache_sectors (fd : Z) (n : nat) (blk : Z) (r : bool) (c : cache) : option (list Z) * cache :=
  match n with
  | O => (Some [], c)
  | S n =>
      match get (PageCacheKey fd blk) r c with
      | (None, c) => (None, c)
      | (Some s, c) => let '(rest, c) := cache_sectors fd n (blk + 1) r c in (app s <$> rest, c)
      end
  end.
Definition read_from_cache (fd : Z) (q : IORequest) (r : bool) (c : cache) : option (list Z) * cache :=
  cache_sectors fd (Z.to_nat (len q / SECTOR_LEN)) (offset q / SECTOR_LEN) r c.

(** The bytes the disk has for a request. *)
Definition disk_read (disk : Z → sector) (q : IORequest) : list Z :=
  concat (map disk (seqZ (offset q / SECTOR_LEN) (len q / SECTOR_LEN))).

Definition aligned (q : IORequest) : bool := (offset q mod SECTOR_LEN =? 0) && (len q mod SECTOR_LEN =? 0).

(** The first loop of [read_alloc]: what each request found in the cache. *)
Fixpoint lookup_all (fd : Z) (r : bool) (reqs : list IORequest) (c : cache) : option (list (IORequest * option (list Z)) * cache) :=
  match reqs with
  | [] => Some ([], c)
  | q :: reqs =>
      if aligned q then
        let '(hit, c) := read_from_cache fd q r c in
        '(rest, c) ← lookup_all fd r reqs c;
        Some ((q, hit) :: rest, c)
      else None
  end.

(** The bytes read, the references taken and the cache. *)
Definition read_alloc (fd : Z) (disk : Z → sector) (r : bool) (reqs : list IORequest) (c : cache)
    : option (list (list Z) * list Z * cache) :=
  '(found, c) ← lookup_all fd r reqs c;
  let bytes := map (λ x : IORequest * option (list Z), default (disk_read disk x.1) x.2) found in
  if r then
    missed ← mapM (λ x : IORequest * option (list Z), match x.2 with Some _ => Some [] | None => read_blocks x.1 (disk_read disk x.1) end) found;
    let refs := concat (map (λ q, map (λ i, PageCacheKey fd (offset q / SECTOR_LEN + i)) (seqZ 0 (len q / SECTOR_LEN))) reqs) in
    Some (bytes, refs, put_blocks fd (concat missed) c)
  else Some (bytes, [], c).

(** [send_read] of one request: from the cache, or from the disk. *)
Definition send_read (fd : Z) (disk : Z → sector) (q : IORequest) (c : cache) : list Z :=
  default (disk_read disk q) (read_from_cache fd q false c).1.

(** [poll_alloc]: the requests that have landed, with the bytes they got. *)
Definition poll_alloc (fd : Z) (landed : list (IORequest * list Z)) (c : cache) : option (list Z * cache) :=
  bls ← mapM (λ x : IORequest * list Z, read_blocks x.1 x.2) landed;
  let bl := concat bls in
  Some (keys_of fd bl, put_blocks fd bl c).

(** ** The system: foreground reads and writes, background flushes *)

Definition write_disk (bl : list (Z * sector)) (disk : Z → sector) : Z → sector :=
  foldl (λ d b, λ x, if x =? b.1 then b.2 else d x) disk bl.

(** A task of the background thread: the writes and the references to drop. *)
Record task := mkTask { writes : list (Z * sector); pages_to_deref : list Z }.

(** [flushed]: the writes of the first task are on disk.  [inflight]: the reads that
    insertion searches sent to the device, with the bytes of those that have landed.
    [held]: the references the foreground has to drop. *)
Record sys := mkSys {
  pages : cache;
  disk : Z → sector;
  tasks : list task;
  flushed : bool;
  inflight : list (IORequest * option (list Z));
  held : list Z
}.

(** [ERead] and [EWrite] are the [read_alloc] and the [wbc_write] of an insert, which
    also queues its task; [ESearch] is the read of a search; [ESend] and [EPoll] are the
    [send_read] and the [poll_alloc] of an insertion search, and [EDevice i] the device
    that reads the [i]-th request in flight in between; [EFlush] is a step of the
    background thread, which writes the pages of a task and then drops its references;
    [ERelease] is a [deref] of the foreground. *)
Inductive event :=
  | ERead (reqs : list IORequest)
  | EWrite (reqs : list IORequest)
  | ESearch (q : IORequest)
  | ESend (q : IORequest)
  | EDevice (i : nat)
  | EPoll
  | EFlush
  | ERelease (k : Z).

Definition init (d : Z → sector) : sys := mkSys ∅ d [] false [] [].

Fixpoint drop_key (k : Z) (l : list Z) : list Z :=
  match l with [] => [] | x :: l => if x =? k then l else x :: drop_key k l end.

Definition bg_step (s : sys) : sys :=
  match tasks s with
  | [] => s
  | t :: ts =>
      if flushed s
      then mkSys (deref_all (pages_to_deref t) (pages s)) (disk s) ts false (inflight s) (held s)
      else mkSys (pages s) (write_disk (writes t) (disk s)) (tasks s) true (inflight s) (held s)
  end.

(** The device transfers a request once. *)
Definition device_read (d : Z → sector) (x : IORequest * option (list Z)) : IORequest * option (list Z) :=
  match x.2 with Some _ => x | None => (x.1, Some (disk_read d x.1)) end.

Definition landed_of (fly : list (IORequest * option (list Z))) : list (IORequest * list Z) :=
  omap (λ x : IORequest * option (list Z), pair x.1 <$> x.2) fly.
Definition waiting_of (fly : list (IORequest * option (list Z))) : list (IORequest * option (list Z)) :=
  filter (λ x, x.2 = None) fly.

(** One event: the requests it answers with their bytes, and the next state. *)
Definition step (fd : Z) (e : event) (s : sys) : option (list (IORequest * list Z) * sys) :=
  match e with
  | ERead reqs =>
      '(bytes, refs, c) ← read_alloc fd (disk s) true reqs (pages s);
      Some (zip reqs bytes, mkSys c (disk s) (tasks s) (flushed s) (inflight s) (refs ++ held s))
  | EWrite reqs =>
      '(bl, refs, c) ← wbc_write fd reqs (pages s);
      Some ([], mkSys c (disk s) (tasks s ++ [mkTask bl refs]) (flushed s) (inflight s) (held s))
  | ESearch q => Some ([(q, send_read fd (disk s) q (pages s))], s)
  | ESend q =>
      match (read_from_cache fd q false (pages s)).1 with
      | Some bytes => Some ([(q, bytes)], s)
      | None => Some ([], mkSys (pages s) (disk s) (tasks s) (flushed s) (inflight s ++ [(q, None)]) (held s))
      end
  | EDevice i =>
      Some ([], mkSys (pages s) (disk s) (tasks s) (flushed s) (alter (device_read (disk s)) i (inflight s)) (held s))
  | EPoll =>
      let landed := landed_of (inflight s) in
      '(refs, c) ← poll_alloc fd landed (pages s);
      Some (landed, mkSys c (disk s) (tasks s) (flushed s) (waiting_of (inflight s)) (refs ++ held s))
  | EFlush => Some ([], bg_step s)
  | ERelease k => Some ([], mkSys (deref k (pages s)) (disk s) (tasks s) (flushed s) (inflight s) (drop_key k (held s)))
  end.

Fixpoint run (fd : Z) (es : list event) (s : sys) : option (list (list (IORequest * list Z)) * sys) :=
  match es with
  | [] => Some ([], s)
  | e :: es => '(r, s) ← step fd e s; '(rs, s) ← run fd es s; Some (r :: rs, s)
  end.

End PageCache.
