(* ===== verification/PageProof.v ===== *)
(** * The page cache is coherent

    Reads through the cache see the last write of every page, whatever the background
    thread has written to disk and whatever references are still held; a page leaves the
    cache when its last reference goes. *)

From S2P Require Import Prelude Bytes Layout PageCache.

Module PageProof.
Import PageCache.
Open Scope Z_scope.

(** ** References *)

Definition cnt (k : Z) (refs : list Z) : Z := Z.of_nat (length (filter (λ x, x = k) refs)).

Lemma cnt_cons k x refs : cnt k (x :: refs) = cnt k refs + (if decide (x = k) then 1 else 0).
Proof. unfold cnt. rewrite filter_cons. destruct (decide (x = k)); simpl; lia. Qed.

#[global] Instance cnt_perm k : Proper ((≡ₚ) ==> (=)) (cnt k).
Proof. intros l l' H. unfold cnt. by rewrite H. Qed.

Lemma cnt_bound k refs : 0 <= cnt k refs <= Z.of_nat (length refs).
Proof. unfold cnt. pose proof (length_filter (λ x, x = k) refs). lia. Qed.

Lemma cnt_in k refs : k ∈ refs → 0 < cnt k refs.
Proof.
  induction refs as [|x refs IH]; [set_solver|]. rewrite elem_of_cons, cnt_cons. pose proof (cnt_bound k refs).
  intros [->|Hin]; [rewrite decide_True by done; lia|]. specialize (IH Hin). destruct (decide (x = k)); lia.
Qed.

(** Every page of the cache has the contents [view] and as many references as [refs]. *)
Definition coherent (c : gmap Z PageCacheItem) (view : Z → list Z) (refs : list Z) : Prop :=
  ∀ k, match c !! k with
       | Some it => buf it = view k ∧ ref_cnt it = cnt k refs ∧ 0 < cnt k refs
       | None => cnt k refs = 0
       end.

#[global] Instance coherent_perm c view : Proper ((≡ₚ) ==> iff) (coherent c view).
Proof. intros l l' H. unfold coherent. split; intros Hc k; specialize (Hc k); destruct (c !! k); by rewrite ?H in *. Qed.

Lemma coherent_ext c view view' refs : (∀ k, k ∈ refs → view k = view' k) → coherent c view refs → coherent c view' refs.
Proof.
  intros He H k. specialize (H k). destruct (c !! k) as [it|]; [|done]. destruct H as (Hb & Hr & Hc). split_and!; [|done|done].
  rewrite Hb. apply He. unfold cnt in Hc. destruct (filter (λ x, x = k) refs) as [|x l] eqn:E; [simpl in Hc; lia|].
  assert (x ∈ filter (λ x, x = k) refs) as Hx by (rewrite E; by left). apply list_elem_of_filter in Hx as [-> Hx]. done.
Qed.

Lemma coherent_get c view refs k :
  coherent c view refs → Z.of_nat (length refs) + 1 < 2 ^ 64 →
  match c !! k with
  | Some it => get k true c = (Some (view k), <[k := ref it]> c) ∧ coherent (<[k := ref it]> c) view (k :: refs)
  | None => get k true c = (None, c)
  end.
Proof.
  intros H Hb. unfold get. pose proof (H k) as Hk. destruct (c !! k) as [it|] eqn:E; [|done]. destruct Hk as (Hv & Hr & Hc).
  rewrite Hv. split; [done|]. intros k'. rewrite cnt_cons. destruct (decide (k = k')) as [<-|Hne].
  - rewrite lookup_insert_eq. simpl. rewrite Hr. pose proof (cnt_bound k refs). unfold u64. rewrite Z.mod_small by lia. split_and!; [done|done|lia].
  - rewrite lookup_insert_ne by done. rewrite Z.add_0_r. apply H.
Qed.

Lemma coherent_put c view refs k v :
  coherent c view refs → Z.of_nat (length refs) + 1 < 2 ^ 64 → coherent (put k v true c) (λ x, if x =? k then v else view x) (k :: refs).
Proof.
  intros H Hb k'. unfold put. rewrite cnt_cons. pose proof (cnt_bound k refs). destruct (decide (k = k')) as [<-|Hne].
  - rewrite lookup_insert_eq, Z.eqb_refl. simpl. specialize (H k).
    destruct (c !! k) as [it|]; simpl; [destruct H as (_ & -> & _)|rewrite H]; unfold u64; rewrite Z.mod_small by lia; split_and!; (done || lia).
  - rewrite lookup_insert_ne by done. rewrite Z.add_0_r, (proj2 (Z.eqb_neq k' k)) by congruence. apply H.
Qed.

Lemma coherent_deref c view refs k :
  coherent c view (k :: refs) → Z.of_nat (length refs) + 1 < 2 ^ 64 → coherent (deref k c) view refs.
Proof.
  intros H Hb k'. unfold deref. pose proof (H k) as Hk. pose proof (H k') as Hk'. rewrite cnt_cons in Hk, Hk'.
  rewrite decide_True in Hk by done. pose proof (cnt_bound k refs). destruct (c !! k) as [it|] eqn:E; [|lia]. destruct Hk as (Hv & Hr & Hc).
  assert (ref_cnt (unref it) = cnt k refs) as Hu by (simpl; rewrite Hr; unfold u64; rewrite Z.mod_small by lia; lia).
  rewrite Hu. destruct (Z.eqb_spec (cnt k refs) 0) as [Hz|Hz]; (destruct (decide (k = k')) as [<-|Hne];
    [|rewrite ?lookup_delete_ne, ?lookup_insert_ne by done; by rewrite Z.add_0_r in Hk']).
  - by rewrite lookup_delete_eq.
  - rewrite lookup_insert_eq. split_and!; [done|done|lia].
Qed.

Lemma coherent_deref_all l : ∀ c view refs,
  coherent c view (l ++ refs) → Z.of_nat (length (l ++ refs)) < 2 ^ 64 → coherent (deref_all l c) view refs.
Proof.
  induction l as [|k l IH]; intros c view refs H Hb; [done|]. unfold deref_all. cbn [foldl]. apply IH; [|simpl in Hb; lia].
  apply coherent_deref; [exact H|]. simpl in Hb. lia.
Qed.

Lemma coherent_empty c view : coherent c view [] → c = ∅.
Proof. intros H. apply map_eq. intros k. specialize (H k). rewrite lookup_empty. destruct (c !! k); [destruct H as (_ & _ & H); done|done]. Qed.

(** ** Blocks *)

Definition block_of (k : Z) : Z := k mod 2 ^ 32.

(** The contents of memory by key. *)
Definition mview (M : Z → list Z) (k : Z) : list Z := M (block_of k).

Lemma key_block fd b : is_u32 b → block_of (PageCacheKey fd b) = b.
Proof.
  intros Hb. unfold block_of, PageCacheKey, u32, is_u32 in *. rewrite (Z.mul_comm (2 ^ 32)), Z.mod_add, Z.mod_mod, Z.mod_small by lia. done.
Qed.

Lemma key_inj fd b b' : is_u32 b → is_u32 b' → PageCacheKey fd b = PageCacheKey fd b' → b = b'.
Proof. intros Hb Hb' E. rewrite <- (key_block fd b), <- (key_block fd b') by done. by rewrite E. Qed.

(** A reference to a page of the file. *)
Definition is_key (fd k : Z) : Prop := ∃ b, is_u32 b ∧ k = PageCacheKey fd b.

Definition block_ok (b : Z * list Z) : Prop := is_u32 b.1 ∧ Z.of_nat (length b.2) = SECTOR_LEN.

Lemma keys_are_keys fd bl : Forall block_ok bl → Forall (is_key fd) (keys_of fd bl).
Proof. intros H. apply Forall_fmap. eapply Forall_impl; [exact H|]. intros b [Hb _]. by exists b.1. Qed.

Lemma write_disk_app a b d : write_disk (a ++ b) d = write_disk b (write_disk a d).
Proof. apply foldl_app. Qed.

Lemma write_disk_other bl d x : x ∉ bl.*1 → write_disk bl d x = d x.
Proof.
  revert d. induction bl as [|b bl IH]; intros d Hx; [done|]. apply not_elem_of_cons in Hx as [Hne Hx].
  change (write_disk (b :: bl) d) with (write_disk bl (λ y, if y =? b.1 then b.2 else d y)). rewrite IH by done.
  by rewrite (proj2 (Z.eqb_neq x b.1)).
Qed.

Lemma write_disk_ext bl d d' x : d x = d' x → write_disk bl d x = write_disk bl d' x.
Proof.
  revert d d'. induction bl as [|b bl IH]; intros d d' Hx; [done|].
  change (write_disk (b :: bl) ?d) with (write_disk bl (λ y, if y =? b.1 then b.2 else d y)). apply IH. by rewrite Hx.
Qed.

Lemma coherent_put_blocks fd bl : ∀ c M refs,
  coherent c (mview M) refs → Forall block_ok bl → Forall (is_key fd) refs → Z.of_nat (length refs + length bl) < 2 ^ 64 →
  coherent (put_blocks fd bl c) (mview (write_disk bl M)) (keys_of fd bl ++ refs).
Proof.
  induction bl as [|b bl IH]; intros c M refs H Hbl Hk Hb; [done|]. apply Forall_cons in Hbl as [Hbo Hbl].
  change (put_blocks fd (b :: bl) c) with (put_blocks fd bl (put (PageCacheKey fd b.1) b.2 true c)).
  change (write_disk (b :: bl) M) with (write_disk bl (λ x, if x =? b.1 then b.2 else M x)).
  change (keys_of fd (b :: bl)) with (PageCacheKey fd b.1 :: keys_of fd bl). cbn [app]. rewrite Permutation_middle.
  apply IH; [|done|constructor; [by exists b.1; destruct Hbo|done]|simpl in *; lia].
  eapply coherent_ext; [|apply coherent_put; [exact H|simpl in *; lia]]. destruct Hbo as [Hbo _].
  intros k [->|Hin]%elem_of_cons; unfold mview; [by rewrite Z.eqb_refl, key_block, Z.eqb_refl by done|].
  rewrite Forall_forall in Hk. destruct (Hk k Hin) as (b' & Hb' & ->). rewrite key_block by done.
  destruct (Z.eqb_spec b' b.1) as [->|Hne]; [by rewrite Z.eqb_refl|]. rewrite (proj2 (Z.eqb_neq _ _)); [done|]. intros E. by apply key_inj in E.
Qed.

(** ** Requests *)

Lemma mapM_pure {A B} (f : A → option B) (g : A → B) l : (∀ x, x ∈ l → f x = Some (g x)) → mapM f l = Some (map g l).
Proof.
  intros H. apply mapM_Some, Forall2_fmap_r, Forall_Forall2_diag, Forall_forall. done.
Qed.

Definition block (q : IORequest) : Z := offset q / SECTOR_LEN.
Definition sectors (q : IORequest) : Z := len q / SECTOR_LEN.
Definition blocks (q : IORequest) : list Z := seqZ (block q) (sectors q).
Definition keys (fd : Z) (q : IORequest) : list Z := map (PageCacheKey fd) (blocks q).

(** The bytes of a request in a memory of pages. *)
Definition content (M : Z → list Z) (q : IORequest) : list Z := concat (map M (blocks q)).

(** Whole sectors with 32-bit numbers. *)
Definition req_ok (q : IORequest) : Prop :=
  offset q mod SECTOR_LEN = 0 ∧ len q mod SECTOR_LEN = 0 ∧ 0 <= offset q ∧ 0 <= len q ∧ offset q + len q <= 2 ^ 32 * SECTOR_LEN.

(** The cache holds all sectors of the request or none. *)
Definition whole (fd : Z) (c : gmap Z PageCacheItem) (q : IORequest) : Prop :=
  (∀ k, k ∈ keys fd q → is_Some (c !! k)) ∨ (∀ k, k ∈ keys fd q → c !! k = None).

Lemma blocks_u32 q b : req_ok q → b ∈ blocks q → is_u32 b.
Proof.
  intros (Ho & Hl & Ho0 & Hl0 & Hm) Hb%elem_of_seqZ. unfold block, sectors, is_u32 in *. change SECTOR_LEN with 4096 in *.
  assert (0 <= offset q / 4096) by (apply Z.div_pos; lia). assert (0 <= len q / 4096) by (apply Z.div_pos; lia).
  pose proof (Z.div_mod (offset q) 4096). pose proof (Z.div_mod (len q) 4096). lia.
Qed.

Lemma content_ext M M' q : (∀ b, b ∈ blocks q → M b = M' b) → content M q = content M' q.
Proof. intros H. unfold content. f_equal. apply map_ext_in. intros b Hb. by apply H, list_elem_of_In. Qed.

Lemma concat_length (M : Z → list Z) l :
  (∀ b, Z.of_nat (length (M b)) = SECTOR_LEN) → Z.of_nat (length (concat (map M l))) = Z.of_nat (length l) * SECTOR_LEN.
Proof. intros HM. induction l as [|b l IH]; [done|]. cbn [map concat]. rewrite length_app. cbn [length]. pose proof (HM b). lia. Qed.

(** A sector of a run of sectors. *)
Lemma sector_at_content M q i :
  (∀ b, Z.of_nat (length (M b)) = SECTOR_LEN) → 0 <= i < sectors q → sector_at (content M q) i = Some (M (block q + i)).
Proof.
  intros HM Hi. unfold content, blocks. replace (sectors q) with (i + (1 + (sectors q - i - 1))) by lia.
  rewrite seqZ_app, (seqZ_app _ 1) by lia. change (seqZ (block q + i) 1) with [block q + i].
  rewrite !map_app, !concat_app. cbn [map concat]. rewrite app_nil_r.
  pose proof (concat_length M (seqZ (block q) i) HM) as Hl. rewrite length_seqZ, Z2Nat.id in Hl by lia.
  pose proof (HM (block q + i)) as Hb. unfold sector_at, region. change SECTOR_LEN with 4096 in *.
  rewrite (proj2 (Z.leb_le _ _)) by (rewrite !length_app; lia). f_equal.
  rewrite drop_app_length' by lia. rewrite take_app_length' by lia. done.
Qed.

Definition request_blocks (M : Z → list Z) (q : IORequest) : list (Z * list Z) := map (λ b, (b, M b)) (blocks q).

Lemma read_blocks_content M q :
  (∀ b, Z.of_nat (length (M b)) = SECTOR_LEN) → read_blocks q (content M q) = Some (request_blocks M q).
Proof.
  intros HM. unfold read_blocks. fold (sectors q) (block q).
  rewrite (mapM_pure _ (λ i, (block q + i, M (block q + i)))).
  - f_equal. unfold request_blocks, blocks.
    replace (seqZ (block q) (sectors q)) with (map (Z.add (block q)) (seqZ 0 (sectors q))); [by rewrite map_map|].
    etransitivity; [apply (fmap_add_seqZ (block q) 0 (sectors q))|]. by rewrite Z.add_0_r.
  - intros i Hi%elem_of_seqZ. by rewrite sector_at_content by (done || lia).
Qed.

Lemma keys_blocks fd M q : keys_of fd (request_blocks M q) = keys fd q.
Proof. unfold keys_of, request_blocks, keys. by rewrite map_map. Qed.

Lemma request_blocks_ok M q :
  (∀ b, Z.of_nat (length (M b)) = SECTOR_LEN) → req_ok q → Forall block_ok (request_blocks M q).
Proof. intros HM Hq. apply Forall_fmap, Forall_forall. intros b Hb. split; [by eapply blocks_u32|apply HM]. Qed.

(** ** The cache *)

(** All sectors are there: the bytes, and a reference to each. *)
Lemma sectors_hit fd n : ∀ blk c M refs,
  coherent c (mview M) refs → (∀ b, b ∈ seqZ blk (Z.of_nat n) → is_u32 b ∧ is_Some (c !! PageCacheKey fd b)) →
  Z.of_nat (length refs + n) < 2 ^ 64 →
  ∃ c', cache_sectors fd n blk true c = (Some (concat (map M (seqZ blk (Z.of_nat n)))), c')
  ∧ coherent c' (mview M) (map (PageCacheKey fd) (seqZ blk (Z.of_nat n)) ++ refs) ∧ (∀ k, is_Some (c' !! k) ↔ is_Some (c !! k)).
Proof.
  induction n as [|n IH]; intros blk c M refs H Hin Hb; [by exists c|].
  rewrite seqZ_cons in Hin |- * by lia. replace (Z.pred (Z.of_nat (S n))) with (Z.of_nat n) in * by lia. rewrite <- Z.add_1_r in *. cbn [cache_sectors].
  destruct (Hin blk) as [Hu [it Hit]]; [by left|].
  pose proof (coherent_get c (mview M) refs (PageCacheKey fd blk) H ltac:(lia)) as Hg. rewrite Hit in Hg. destruct Hg as [-> Hc].
  assert (∀ k, is_Some (<[PageCacheKey fd blk := ref it]> c !! k) ↔ is_Some (c !! k)) as Hsame.
  { intros k. rewrite lookup_insert_is_Some. destruct (decide (PageCacheKey fd blk = k)) as [<-|]; [|naive_solver]. rewrite Hit. split; [by eexists|by left]. }
  destruct (IH (blk + 1) _ M _ Hc) as (c' & -> & Hc' & Hs); [|simpl; lia|].
  { intros b Hb'. destruct (Hin b) as [? ?]; [by right|]. split; [done|]. by apply Hsame. }
  exists c'. split_and!.
  - cbn [map concat]. unfold mview. by rewrite key_block.
  - cbn [map app]. by rewrite Permutation_middle.
  - intros k. by rewrite Hs.
Qed.

Lemma sectors_miss fd n blk r c :
  (0 < n)%nat → c !! PageCacheKey fd blk = None → cache_sectors fd n blk r c = (None, c).
Proof. intros Hn Hc. destruct n as [|n]; [lia|]. cbn [cache_sectors]. unfold get. by rewrite Hc. Qed.

Lemma sectors_peek fd n : ∀ blk c M refs,
  coherent c (mview M) refs → (∀ b, b ∈ seqZ blk (Z.of_nat n) → is_u32 b ∧ is_Some (c !! PageCacheKey fd b)) →
  cache_sectors fd n blk false c = (Some (concat (map M (seqZ blk (Z.of_nat n)))), c).
Proof.
  induction n as [|n IH]; intros blk c M refs H Hin; [done|].
  rewrite seqZ_cons in Hin |- * by lia. replace (Z.pred (Z.of_nat (S n))) with (Z.of_nat n) in * by lia. rewrite <- Z.add_1_r in *. cbn [cache_sectors].
  destruct (Hin blk) as [Hu [it Hit]]; [by left|]. unfold get. rewrite Hit. pose proof (H (PageCacheKey fd blk)) as Hk. rewrite Hit in Hk.
  rewrite (IH (blk + 1) c M refs H) by (intros b Hb; apply Hin; by right). destruct Hk as (-> & _). cbn [map concat]. unfold mview. by rewrite key_block.
Qed.

(** A request without a sector is always a hit. *)
Lemma request_cases fd (c : gmap Z PageCacheItem) q :
  whole fd c q → (∀ b, b ∈ blocks q → is_Some (c !! PageCacheKey fd b)) ∨ (0 < sectors q ∧ ∀ b, b ∈ blocks q → c !! PageCacheKey fd b = None).
Proof.
  unfold whole, keys. intros [H|H]; [left; intros b Hb; apply H; by apply list_elem_of_fmap_2|].
  destruct (decide (0 < sectors q)) as [Hp|Hn]; [right; split; [done|]; intros b Hb; apply H; by apply list_elem_of_fmap_2|].
  left. intros b Hb%elem_of_seqZ. lia.
Qed.

Lemma request_span fd (c : gmap Z PageCacheItem) q :
  req_ok q → (∀ b, b ∈ blocks q → is_Some (c !! PageCacheKey fd b)) →
  Z.of_nat (Z.to_nat (len q / SECTOR_LEN)) = sectors q
  ∧ ∀ b, b ∈ seqZ (block q) (sectors q) → is_u32 b ∧ is_Some (c !! PageCacheKey fd b).
Proof.
  intros Hq Hin. split.
  - rewrite Z2Nat.id; [done|]. destruct Hq as (_ & _ & _ & Hl & _). change SECTOR_LEN with 4096. apply Z.div_pos; lia.
  - intros b Hb. split; [by eapply blocks_u32|by apply Hin].
Qed.

Lemma first_block q : 0 < sectors q → block q ∈ blocks q.
Proof. intros H. apply elem_of_seqZ. lia. Qed.

(** What [send_read] finds. *)
Lemma peek_request fd c M refs q :
  coherent c (mview M) refs → req_ok q → whole fd c q →
  (read_from_cache fd q false c).1 = Some (content M q)
  ∨ (read_from_cache fd q false c).1 = None ∧ ∀ k, k ∈ keys fd q → k ∉ refs.
Proof.
  intros H Hq Hw. unfold read_from_cache. fold (block q). destruct (request_cases fd c q Hw) as [Hin|[Hp Hno]].
  - destruct (request_span fd c q Hq Hin) as [Hn Hs]. left. rewrite (sectors_peek fd _ _ c M refs H) by (by rewrite Hn). by rewrite Hn.
  - right. rewrite sectors_miss; [|unfold sectors in Hp; lia|by apply Hno, first_block]. split; [done|].
    intros k (b & -> & Hb)%list_elem_of_fmap Hk%cnt_in. pose proof (H (PageCacheKey fd b)) as Hc. rewrite (Hno b Hb) in Hc. lia.
Qed.

Definition hit_keys (fd : Z) (found : list (IORequest * option (list Z))) : list Z :=
  concat (map (λ x : IORequest * option (list Z), match x.2 with Some _ => keys fd x.1 | None => [] end) found).

Definition n_blocks (reqs : list IORequest) : nat := length (concat (map blocks reqs)).

Lemma keys_length fd q : length (keys fd q) = length (blocks q).
Proof. apply length_map. Qed.

Lemma lookup_all_ok fd reqs : ∀ c M refs,
  coherent c (mview M) refs → Forall req_ok reqs → Forall (whole fd c) reqs → Z.of_nat (length refs + n_blocks reqs) < 2 ^ 64 →
  ∃ found c', lookup_all fd true reqs c = Some (found, c') ∧ found.*1 = reqs ∧ coherent c' (mview M) (hit_keys fd found ++ refs)
  ∧ Forall (λ x : IORequest * option (list Z), x.2 = Some (content M x.1) ∨ x.2 = None ∧ ∀ k, k ∈ keys fd x.1 → k ∉ refs) found.
Proof.
  induction reqs as [|q reqs IH]; intros c M refs H Hq Hw Hb; [by exists [], c|].
  apply Forall_cons in Hq as [Hq1 Hq], Hw as [Hw1 Hw]. cbn [lookup_all]. unfold n_blocks in *. cbn [map concat] in Hb. rewrite length_app in Hb.
  assert (aligned q = true) as ->.
  { unfold aligned. destruct Hq1 as (-> & -> & _). done. }
  unfold read_from_cache. fold (block q). destruct (request_cases fd c q Hw1) as [Hin|[Hp Hno]].
  - destruct (request_span fd c q Hq1 Hin) as [Hn Hs].
    destruct (sectors_hit fd (Z.to_nat (len q / SECTOR_LEN)) (block q) c M refs H) as (c1 & -> & Hc1 & Hsame); [by rewrite Hn| |].
    { unfold blocks in Hb. rewrite length_seqZ in Hb. unfold sectors in Hb. lia. }
    rewrite Hn in *. fold (blocks q) in *. fold (keys fd q) in Hc1. fold (content M q).
    destruct (IH c1 M _ Hc1 Hq) as (found & c' & -> & Hf & Hc' & Hfo).
    { eapply Forall_impl; [exact Hw|]. intros x [Hx|Hx]; [left|right]; intros k Hk; specialize (Hx k Hk); [by apply Hsame|].
      apply eq_None_not_Some. intros Hs'%Hsame. rewrite Hx in Hs'. by apply is_Some_None in Hs'. }
    { rewrite length_app, keys_length. lia. }
    cbn [mbind option_bind]. eexists _, c'. split; [done|]. split; [by rewrite fmap_cons, Hf|]. split.
    + unfold hit_keys. cbn [map concat snd fst]. fold (hit_keys fd found). by rewrite (Permutation_app_comm (keys fd q)), <- app_assoc.
    + constructor; [by left|]. eapply Forall_impl; [exact Hfo|]. intros x [Hx|[Hx Hn']]; [by left|right; split; [done|]].
      intros k Hk. specialize (Hn' k Hk). set_solver.
  - rewrite sectors_miss; [|unfold sectors in Hp; lia|by apply Hno, first_block].
    destruct (IH c M _ H Hq Hw) as (found & c' & -> & Hf & Hc' & Hfo); [lia|]. cbn [mbind option_bind].
    eexists _, c'. split; [done|]. split; [by rewrite fmap_cons, Hf|]. split; [done|]. constructor; [|done]. right. split; [done|].
    intros k (b & -> & Hb')%list_elem_of_fmap Hk%cnt_in. pose proof (H (PageCacheKey fd b)) as Hc. rewrite (Hno b Hb') in Hc. lia.
Qed.

(** ** Writes *)

Definition write_ok (q : IORequest) : Prop :=
  offset q mod SECTOR_LEN = 0 ∧ len q mod SECTOR_LEN = 0 ∧ 0 <= offset q ∧ 0 <= len q ∧ Z.of_nat (length (data q)) = len q
  ∧ offset q + len q <= 2 ^ 32 * SECTOR_LEN.

(** The pages of a write. *)
Definition write_blocks (q : IORequest) : list (Z * list Z) :=
  map (λ i, (block q + i, region (data q) (Z.to_nat (i * SECTOR_LEN)) (Z.to_nat ((i + 1) * SECTOR_LEN)))) (seqZ 0 (sectors q)).

Lemma write_count q : write_ok q → Layout.DIV_ROUND_UP (len q) SECTOR_LEN = sectors q ∧ len q = sectors q * SECTOR_LEN ∧ offset q = block q * SECTOR_LEN.
Proof.
  intros (Ho & Hl & Ho0 & Hl0 & _). unfold Layout.DIV_ROUND_UP, sectors, block. change SECTOR_LEN with 4096 in *.
  pose proof (Z.div_mod (len q) 4096). pose proof (Z.div_mod (offset q) 4096). split; [|lia]. rewrite Hl. cbn [Z.eqb]. lia.
Qed.

Lemma wbc_blocks_ok q : write_ok q → wbc_blocks q = Some (write_blocks q) ∧ Forall block_ok (write_blocks q).
Proof.
  intros Hq. destruct (write_count q Hq) as (Hn & Hl & Ho). destruct Hq as (_ & _ & Ho0 & Hl0 & Hd & Hmax).
  assert (Hreg : ∀ i, i ∈ seqZ 0 (sectors q) → 0 <= i < sectors q ∧ (i + 1) * SECTOR_LEN <= Z.of_nat (length (data q))).
  { intros i Hi%elem_of_seqZ. rewrite Hd, Hl. change SECTOR_LEN with 4096. split; [lia|]. nia. }
  split.
  - unfold wbc_blocks. rewrite Hn. apply mapM_pure. intros i Hi. destruct (Hreg i Hi) as [Hi0 Hib]. unfold sector_at.
    rewrite (proj2 (Z.leb_le _ _)) by done. cbn [mbind option_bind]. do 2 f_equal. rewrite Ho, <- Z.mul_add_distr_r. by apply Z.div_mul.
  - apply Forall_fmap, Forall_forall. intros i Hi. destruct (Hreg i Hi) as [Hi0 Hib]. split; simpl.
    + unfold is_u32. rewrite Ho, Hl in Hmax. change SECTOR_LEN with 4096 in *. assert (0 <= block q) by (unfold block; change SECTOR_LEN with 4096; apply Z.div_pos; lia). lia.
    + unfold region. rewrite length_take, length_drop. change SECTOR_LEN with 4096 in *. lia.
Qed.

(** ** The system *)

Definition pend (s : sys) : list (Z * list Z) := concat (map writes (tasks s)).
Definition trefs (s : sys) : list Z := concat (map pages_to_deref (tasks s)).

Definition task_ok (fd : Z) (t : task) : Prop := pages_to_deref t = keys_of fd (writes t) ∧ Forall block_ok (writes t).

(** A read in flight: its pages have no pending write and are on disk. *)
Definition fly_ok (s : sys) (M : Z → list Z) (x : IORequest * option (list Z)) : Prop :=
  req_ok x.1 ∧ (∀ b, b ∈ blocks x.1 → disk s b = M b ∧ b ∉ (pend s).*1) ∧ (∀ v, x.2 = Some v → v = content M x.1).

(** The system stands for the memory [M]. *)
Record sys_ok (fd : Z) (s : sys) (M : Z → list Z) : Prop := mkSysOk {
  ok_mem : ∀ b, is_u32 b → write_disk (pend s) (disk s) b = M b;
  ok_flushed : flushed s = true → tasks s ≠ [] ∧ ∀ b, is_u32 b → write_disk (concat (map writes (tail (tasks s)))) (disk s) b = M b;
  ok_coh : coherent (pages s) (mview M) (held s ++ trefs s);
  ok_task : Forall (task_ok fd) (tasks s);
  ok_held : Forall (is_key fd) (held s);
  ok_fly : Forall (fly_ok s M) (inflight s);
  ok_len : ∀ b, Z.of_nat (length (disk s b)) = SECTOR_LEN
}.

Lemma trefs_keys fd s M : sys_ok fd s M → trefs s = keys_of fd (pend s) ∧ Forall block_ok (pend s).
Proof.
  intros H. pose proof (ok_task _ _ _ H) as Ht. unfold trefs, pend. induction Ht as [|t ts [Hr Hb] _ [IH1 IH2]]; simpl; [done|].
  rewrite Hr, IH1. unfold keys_of. rewrite map_app. split; [done|]. by apply Forall_app.
Qed.

Lemma all_keys fd s M : sys_ok fd s M → Forall (is_key fd) (held s ++ trefs s).
Proof.
  intros H. apply Forall_app. split; [apply (ok_held _ _ _ H)|]. destruct (trefs_keys fd s M H) as [-> Hb]. by apply keys_are_keys.
Qed.

(** A page without references is on disk and has no pending write. *)
Lemma unreferenced fd s M b :
  sys_ok fd s M → is_u32 b → PageCacheKey fd b ∉ held s ++ trefs s → disk s b = M b ∧ b ∉ (pend s).*1.
Proof.
  intros H Hb Hn. assert (b ∉ (pend s).*1) as Hp.
  { intros Hin. apply Hn, elem_of_app. right. destruct (trefs_keys fd s M H) as [-> _]. unfold keys_of.
    apply list_elem_of_fmap in Hin as (x & -> & Hx). by apply (list_elem_of_fmap_2 (λ b, PageCacheKey fd b.1)). }
  split; [|done]. rewrite <- (ok_mem _ _ _ H b Hb). symmetry. by apply write_disk_other.
Qed.

Lemma unreferenced_request fd s M q :
  sys_ok fd s M → req_ok q → (∀ k, k ∈ keys fd q → k ∉ held s ++ trefs s) →
  ∀ b, b ∈ blocks q → disk s b = M b ∧ b ∉ (pend s).*1.
Proof.
  intros H Hq Hk b Hb. eapply unreferenced; [done|by eapply blocks_u32|]. by apply Hk, list_elem_of_fmap_2.
Qed.

Lemma write_disk_same bl M : (∀ b, b ∈ bl → b.2 = M b.1) → ∀ x, write_disk bl M x = M x.
Proof.
  intros H x. revert M H. induction bl as [|b bl IH]; intros M H; [done|].
  change (write_disk (b :: bl) M x) with (write_disk bl (λ y, if y =? b.1 then b.2 else M y) x). rewrite IH.
  - destruct (Z.eqb_spec x b.1) as [->|]; [|done]. apply H. by left.
  - intros b' Hb'. simpl. destruct (Z.eqb_spec b'.1 b.1) as [E|]; [|apply H; by right]. rewrite (H b) by (by left). rewrite <- E. apply H. by right.
Qed.

(** A page that is written does not depend on the disk before. *)
Lemma write_disk_base bl d d' x : x ∈ bl.*1 → write_disk bl d x = write_disk bl d' x.
Proof.
  revert d d'. induction bl as [|b bl IH]; intros d d' Hin; [by apply elem_of_nil in Hin|].
  change (write_disk (b :: bl) ?d) with (write_disk bl (λ y, if y =? b.1 then b.2 else d y)).
  destruct (decide (x ∈ bl.*1)) as [Hx|Hx]; [by apply IH|]. rewrite !write_disk_other by done.
  apply elem_of_cons in Hin as [->|]; [by rewrite Z.eqb_refl|done].
Qed.

(** Writing the same pages again changes nothing. *)
Lemma write_disk_again bl d x : write_disk bl (write_disk bl d) x = write_disk bl d x.
Proof. destruct (decide (x ∈ bl.*1)) as [Hin|Hn]; [by apply write_disk_base|by rewrite write_disk_other]. Qed.

Definition miss_blocks (s : sys) (found : list (IORequest * option (list Z))) : list (Z * list Z) :=
  concat (map (λ x : IORequest * option (list Z), match x.2 with Some _ => [] | None => request_blocks (disk s) x.1 end) found).

Lemma found_keys fd s found :
  keys_of fd (miss_blocks s found) ++ hit_keys fd found ≡ₚ concat (map (keys fd) found.*1).
Proof.
  induction found as [|[q [v|]] found IH]; [done| |].
  - change (hit_keys fd ((q, Some v) :: found)) with (keys fd q ++ hit_keys fd found).
    change (miss_blocks s ((q, Some v) :: found)) with (miss_blocks s found).
    rewrite (Permutation_app_comm (keys fd q)), app_assoc, IH. cbn [fmap list_fmap map concat fst]. apply Permutation_app_comm.
  - change (hit_keys fd ((q, None) :: found)) with (hit_keys fd found).
    change (miss_blocks s ((q, None) :: found)) with (request_blocks (disk s) q ++ miss_blocks s found).
    unfold keys_of. rewrite map_app. fold (keys_of fd (request_blocks (disk s) q)) (keys_of fd (miss_blocks s found)).
    rewrite keys_blocks, <- app_assoc, IH. done.
Qed.

Lemma miss_blocks_elem s found b :
  b ∈ miss_blocks s found ↔ ∃ x, x ∈ found ∧ x.2 = None ∧ b ∈ request_blocks (disk s) x.1.
Proof.
  unfold miss_blocks. induction found as [|[q [v|]] found IH]; cbn [map concat snd fst].
  - split; [by intros ?%elem_of_nil|]. by intros (x & ?%elem_of_nil & _).
  - cbn [app]. rewrite IH. setoid_rewrite elem_of_cons. split; [intros (x & ? & ? & ?); eauto|].
    intros (x & [->|?] & E & ?); [done|eauto].
  - rewrite elem_of_app, IH. setoid_rewrite elem_of_cons. split.
    + intros [?|(x & ? & ? & ?)]; [exists (q, None); auto|eauto].
    + intros (x & [->|?] & E & ?); [by left|right; eauto].
Qed.

Lemma ref_keys fd reqs :
  concat (map (λ q, map (λ i, PageCacheKey fd (offset q / SECTOR_LEN + i)) (seqZ 0 (len q / SECTOR_LEN))) reqs)
  = concat (map (keys fd) reqs).
Proof.
  f_equal. apply map_ext. intros q. unfold keys, blocks, block, sectors.
  rewrite <- (map_map (Z.add (offset q / SECTOR_LEN)) (PageCacheKey fd)). f_equal.
  etransitivity; [apply (fmap_add_seqZ (offset q / SECTOR_LEN) 0)|]. by rewrite Z.add_0_r.
Qed.

Lemma all_keys_length fd reqs : length (concat (map (keys fd) reqs)) = n_blocks reqs.
Proof. unfold n_blocks. induction reqs as [|q reqs IH]; [done|]. cbn [map concat]. by rewrite !length_app, IH, keys_length. Qed.

Lemma request_keys fd reqs : Forall req_ok reqs → Forall (is_key fd) (concat (map (keys fd) reqs)).
Proof.
  intros H. apply Forall_concat, Forall_fmap. eapply Forall_impl; [exact H|]. intros q Hq. apply Forall_fmap, Forall_forall.
  intros b Hb. exists b. split; [by eapply blocks_u32|done].
Qed.

(** Pages put with the contents they have keep the cache coherent. *)
Lemma put_same fd bl c M refs :
  coherent c (mview M) refs → Forall block_ok bl → Forall (is_key fd) refs → (∀ b, b ∈ bl → b.2 = M b.1) →
  Z.of_nat (length refs + length bl) < 2 ^ 64 → coherent (put_blocks fd bl c) (mview M) (keys_of fd bl ++ refs).
Proof.
  intros H Hbl Hk Hs Hb. eapply coherent_ext; [|by apply coherent_put_blocks]. intros k _. unfold mview. by apply write_disk_same.
Qed.

(** The references taken and those that may still be. *)
Definition fly_blocks (s : sys) : nat := n_blocks (inflight s).*1.
Definition total (s : sys) : nat := (length (held s ++ trefs s) + fly_blocks s)%nat.

Lemma page_read_ok fd s M reqs :
  sys_ok fd s M → Forall req_ok reqs → Forall (whole fd (pages s)) reqs → Z.of_nat (total s + n_blocks reqs) < 2 ^ 64 →
  ∃ s', step fd (ERead reqs) s = Some (map (λ q, (q, content M q)) reqs, s') ∧ sys_ok fd s' M ∧ (total s' <= total s + n_blocks reqs)%nat.
Proof.
  intros H Hq Hw Hb. unfold total in Hb. cbn [step]. unfold read_alloc.
  destruct (lookup_all_ok fd reqs _ M _ (ok_coh _ _ _ H) Hq Hw) as (found & c' & -> & Hf & Hc & Hfo); [lia|]. cbn [mbind option_bind].
  assert (Hone : ∀ x, x ∈ found → req_ok x.1).
  { intros x Hx. rewrite <- Hf, Forall_fmap, Forall_forall in Hq. by apply Hq. }
  assert (Hdisk : ∀ x, x ∈ found → x.2 = None → ∀ b, b ∈ blocks x.1 → disk s b = M b).
  { intros x Hx Hn b Hb'. rewrite Forall_forall in Hfo. destruct (Hfo x Hx) as [E|[_ Hni]]; [congruence|].
    by apply (unreferenced_request fd s M x.1 H (Hone x Hx) Hni). }
  rewrite (mapM_pure _ (λ x, match x.2 with Some _ => [] | None => request_blocks (disk s) x.1 end)).
  2: { intros x Hx. destruct x.2; [done|]. apply (read_blocks_content (disk s)), (ok_len _ _ _ H). }
  cbn [mbind option_bind]. fold (miss_blocks s found). rewrite ref_keys.
  assert (zip reqs (map (λ x : IORequest * option (list Z), default (disk_read (disk s) x.1) x.2) found) = map (λ q, (q, content M q)) reqs) as ->.
  { rewrite <- Hf. clear -Hfo Hdisk. induction Hfo as [|x found Hx Hfo IH]; [done|]. cbn [fmap list_fmap map zip zip_with].
    f_equal; [|apply IH; set_solver]. f_equal. destruct Hx as [->|[E _]]; [done|]. rewrite E. cbn [default]. apply content_ext. apply Hdisk; [by left|done]. }
  eexists. split; [done|].
  assert (Hmb : Forall block_ok (miss_blocks s found)).
  { apply Forall_forall. intros b (x & Hx & _ & Hb')%miss_blocks_elem. pose proof (request_blocks_ok (disk s) x.1 (ok_len _ _ _ H) (Hone x Hx)) as Hr.
    rewrite Forall_forall in Hr. by apply Hr. }
  pose proof (Permutation_length (found_keys fd s found)) as Hlen. rewrite length_app, Hf, all_keys_length in Hlen. unfold keys_of in Hlen. rewrite length_map in Hlen.
  pose proof H as [Hm Hfl Hcoh Ht Hh Hy Hl]. split; [split|]; cbn [pages held tasks inflight disk flushed]; try done.
  - change (trefs _) with (trefs s). rewrite <- app_assoc, <- Hf. setoid_rewrite <- (found_keys fd s found). rewrite <- app_assoc.
    apply put_same; [done|done| | |rewrite length_app; lia].
    + apply Forall_app. split; [|by apply (all_keys fd s M)]. apply (request_keys fd) in Hq. rewrite <- Hf in Hq. setoid_rewrite <- (found_keys fd s found) in Hq.
      by apply Forall_app in Hq as [_ Hq].
    + intros b (x & Hx & E & (y & -> & Hy')%list_elem_of_fmap)%miss_blocks_elem. by eapply Hdisk.
  - apply Forall_app. split; [by apply request_keys|done].
  - unfold total, fly_blocks. cbn [held inflight]. change (trefs _) with (trefs s). rewrite !length_app, all_keys_length. lia.
Qed.

Lemma search_ok fd s M q :
  sys_ok fd s M → req_ok q → whole fd (pages s) q → send_read fd (disk s) q (pages s) = content M q.
Proof.
  intros H Hq Hw. unfold send_read. destruct (peek_request fd (pages s) M _ q (ok_coh _ _ _ H) Hq Hw) as [->|[-> Hk]]; [done|].
  cbn [default]. apply content_ext. intros b Hb. by apply (unreferenced_request fd s M q H Hq Hk).
Qed.

Lemma send_ok fd s M q :
  sys_ok fd s M → req_ok q → whole fd (pages s) q →
  ∃ r s', step fd (ESend q) s = Some (r, s') ∧ (r = [] ∨ r = [(q, content M q)]) ∧ sys_ok fd s' M
  ∧ (total s' <= total s + length (blocks q))%nat.
Proof.
  intros H Hq Hw. cbn [step]. destruct (peek_request fd (pages s) M _ q (ok_coh _ _ _ H) Hq Hw) as [->|[-> Hk]].
  - eexists _, s. split_and!; [done|by right|done|lia].
  - eexists _, _. split_and!; [done|by left| |].
    + pose proof H as [Hm Hfl Hcoh Ht Hh Hy Hl]. split; cbn [pages held tasks inflight disk flushed]; try done.
      apply Forall_app. split; [done|]. apply Forall_singleton. split_and!; [done| |done]. by apply (unreferenced_request fd s M q H Hq Hk).
    + unfold total, fly_blocks. cbn [held inflight]. change (trefs _) with (trefs s). rewrite fmap_app. unfold n_blocks.
      rewrite map_app, concat_app. cbn [fmap list_fmap map concat fst]. rewrite app_nil_r, !length_app. lia.
Qed.

Lemma alter_fst {A B} (f : A * B → A * B) i l : (∀ x, (f x).1 = x.1) → (alter f i l).*1 = l.*1.
Proof. intros Hf. revert i. induction l as [|x l IH]; intros [|i]; cbn; try done; f_equal; [apply Hf|apply IH]. Qed.

Lemma device_ok fd s M i :
  sys_ok fd s M → ∃ s', step fd (EDevice i) s = Some ([], s') ∧ sys_ok fd s' M ∧ total s' = total s.
Proof.
  intros H. eexists. split; [done|]. pose proof H as [Hm Hfl Hcoh Ht Hh Hy Hl]. split.
  - split; cbn [pages held tasks inflight disk flushed]; try done. apply Forall_alter; [done|].
    intros [q got] _ (Hq & Hb & Hv). unfold device_read. cbn [fst snd] in *. destruct got as [v|]; [by split_and!|].
    split_and!; [done|done|]. intros v [= <-]. apply content_ext. intros b Hb'. by apply Hb.
  - unfold total, fly_blocks. cbn [held inflight]. change (trefs _) with (trefs s). rewrite alter_fst; [done|]. intros x. unfold device_read. by destruct x.2.
Qed.

Lemma n_blocks_cons q reqs : n_blocks (q :: reqs) = (length (blocks q) + n_blocks reqs)%nat.
Proof. unfold n_blocks. cbn [map concat]. apply length_app. Qed.

Lemma fly_split fly : (n_blocks (landed_of fly).*1 + n_blocks (waiting_of fly).*1 = n_blocks fly.*1)%nat.
Proof.
  induction fly as [|[q [v|]] fly IH]; [done| |].
  - change (landed_of ((q, Some v) :: fly)) with ((q, v) :: landed_of fly).
    unfold waiting_of. rewrite filter_cons_False by done. fold (waiting_of fly). rewrite !fmap_cons, !n_blocks_cons. cbn [fst]. lia.
  - change (landed_of ((q, None) :: fly)) with (landed_of fly).
    unfold waiting_of. rewrite filter_cons_True by done. fold (waiting_of fly). rewrite !fmap_cons, !n_blocks_cons. cbn [fst]. lia.
Qed.

Lemma landed_elem fly q v : (q, v) ∈ landed_of fly → (q, Some v) ∈ fly.
Proof. unfold landed_of. intros ([q' o] & Hx & E)%list_elem_of_omap. destruct o; simplify_eq/=. done. Qed.

Lemma poll_event_ok fd s M :
  sys_ok fd s M → Z.of_nat (total s) < 2 ^ 64 →
  ∃ r s', step fd EPoll s = Some (r, s') ∧ (∀ q v, (q, v) ∈ r → v = content M q) ∧ sys_ok fd s' M ∧ (total s' <= total s)%nat.
Proof.
  intros H Hb. pose proof H as [Hm Hfl Hcoh Ht Hh Hy Hl]. rewrite Forall_forall in Hy. cbn [step]. unfold poll_alloc.
  assert (Hland : ∀ q v, (q, v) ∈ landed_of (inflight s) → v = content M q ∧ req_ok q ∧ ∀ b, b ∈ blocks q → disk s b = M b).
  { intros q v Hq%landed_elem. destruct (Hy _ Hq) as (H1 & H2 & H3). split_and!; [by apply H3|done|]. intros b Hb'. by apply H2. }
  rewrite (mapM_pure _ (λ x, request_blocks (disk s) x.1)).
  2: { intros [q v] Hq. destruct (Hland q v Hq) as (-> & Hq1 & Hd). cbn [fst snd].
       rewrite (content_ext M (disk s)) by (intros b Hb'; by rewrite Hd). apply (read_blocks_content (disk s)), Hl. }
  cbn [mbind option_bind]. set (bl := concat _). eexists _, _. split; [done|]. split; [intros q v Hq; by apply Hland in Hq as [? _]|].
  assert (Hbl : ∀ b, b ∈ bl → b.2 = M b.1 ∧ block_ok b).
  { intros b. unfold bl. rewrite list_elem_of_In, in_concat. setoid_rewrite in_map_iff. intros (l & ([q v] & <- & Hq) & Hb').
    apply list_elem_of_In in Hq, Hb'. destruct (Hland q v Hq) as (_ & Hq1 & Hd). cbn [fst] in Hb'.
    pose proof (request_blocks_ok (disk s) q Hl Hq1) as Hr. rewrite Forall_forall in Hr. split; [|by apply Hr].
    apply list_elem_of_fmap in Hb' as (y & -> & Hy'). by apply Hd. }
  assert (Hkeys : keys_of fd bl = concat (map (keys fd) (landed_of (inflight s)).*1)).
  { unfold bl. clear. induction (landed_of (inflight s)) as [|x l IH]; [done|]. cbn [map concat fmap list_fmap]. rewrite <- IH, <- (keys_blocks fd (disk s)).
    unfold keys_of. by rewrite map_app. }
  assert (Hlen : length bl = n_blocks (landed_of (inflight s)).*1).
  { rewrite <- (all_keys_length fd), <- Hkeys. unfold keys_of. by rewrite length_map. }
  pose proof (fly_split (inflight s)) as Hsp. unfold total, fly_blocks in *.
  split; [split|]; cbn [pages held tasks inflight disk flushed]; try done.
  - change (trefs _) with (trefs s). rewrite <- app_assoc. apply put_same; [done| |by apply (all_keys fd s M)| |rewrite Hlen; lia].
    + apply Forall_forall. intros b Hb'. by apply Hbl.
    + intros b Hb'. by apply Hbl.
  - apply Forall_app. split; [|done]. rewrite Hkeys. apply request_keys, Forall_fmap, Forall_forall. intros [q v] Hq. by apply Hland in Hq as (_ & ? & _).
  - unfold waiting_of. apply Forall_forall. intros x [_ Hx]%list_elem_of_filter. by apply Hy.
  - change (trefs _) with (trefs s). rewrite !length_app. unfold keys_of. rewrite length_map, Hlen. rewrite !length_app in Hb. lia.
Qed.

Lemma wbc_all fd reqs c :
  Forall write_ok reqs →
  let bl := concat (map write_blocks reqs) in wbc_write fd reqs c = Some (bl, keys_of fd bl, put_blocks fd bl c) ∧ Forall block_ok bl.
Proof.
  intros Hw bl. rewrite Forall_forall in Hw. unfold wbc_write. rewrite (mapM_pure _ write_blocks) by (intros q Hq; by apply wbc_blocks_ok, Hw).
  split; [done|]. apply Forall_concat, Forall_fmap, Forall_forall. intros q Hq. by apply wbc_blocks_ok, Hw.
Qed.

Lemma trefs_app c d ts t f y h : trefs (mkSys c d (ts ++ [t]) f y h) = concat (map pages_to_deref ts) ++ pages_to_deref t.
Proof. unfold trefs. simpl. rewrite map_app, concat_app. simpl. by rewrite app_nil_r. Qed.

Lemma pend_app c d ts t f y h : pend (mkSys c d (ts ++ [t]) f y h) = concat (map writes ts) ++ writes t.
Proof. unfold pend. simpl. rewrite map_app, concat_app. simpl. by rewrite app_nil_r. Qed.

(** No read in flight asks for a page that is written. *)
Definition write_clear (s : sys) (reqs : list IORequest) : Prop :=
  ∀ b, b ∈ (concat (map write_blocks reqs)).*1 → b ∉ concat (map blocks (inflight s).*1).

Lemma write_ok_step fd s M reqs :
  let bl := concat (map write_blocks reqs) in
  sys_ok fd s M → Forall write_ok reqs → write_clear s reqs → Z.of_nat (total s + length bl) < 2 ^ 64 →
  ∃ s', step fd (EWrite reqs) s = Some ([], s') ∧ sys_ok fd s' (write_disk bl M) ∧ (total s' <= total s + length bl)%nat.
Proof.
  intros bl H Hw Hcl Hb. unfold write_clear in Hcl. fold bl in Hcl. unfold total in Hb. cbn [step]. destruct (wbc_all fd reqs (pages s) Hw) as [-> Hbl]. fold bl in Hbl |- *. cbn [mbind option_bind].
  eexists. split; [done|]. pose proof (all_keys fd s M H) as Hkeys. pose proof H as [Hm Hfl Hcoh Ht Hh Hy Hl]. split; [split|].
  - intros b Hu. rewrite pend_app. cbn [writes disk]. rewrite write_disk_app. apply write_disk_ext. by apply Hm.
  - cbn [flushed tasks disk]. intros Hf. destruct (Hfl Hf) as [Hne Hf']. destruct (tasks s) as [|t ts]; [done|]. split; [done|]. intros b Hu. cbn [app tail] in *.
    rewrite map_app, concat_app, write_disk_app. cbn [map concat writes]. rewrite app_nil_r. apply write_disk_ext. by apply Hf'.
  - rewrite trefs_app. cbn [pages held pages_to_deref]. rewrite app_assoc, Permutation_app_comm. apply coherent_put_blocks; [done|done|done|unfold trefs in *; lia].
  - apply Forall_app. split; [done|]. by apply Forall_singleton.
  - done.
  - cbn [inflight]. rewrite Forall_forall in Hy |- *. intros x Hx. destruct (Hy x Hx) as (Hq & Hd & Hv).
    assert (∀ b, b ∈ blocks x.1 → b ∉ bl.*1) as Hni.
    { intros b Hb' Hin. apply (Hcl b Hin). apply list_elem_of_In, in_concat. exists (blocks x.1). split; [|by apply list_elem_of_In].
      apply in_map, list_elem_of_In. by apply list_elem_of_fmap_2. }
    split_and!; [done| |].
    + intros b Hb'. rewrite write_disk_other by (by apply Hni). destruct (Hd b Hb') as [Hd1 Hd2]. split; [done|]. rewrite pend_app. cbn [writes].
      rewrite fmap_app, not_elem_of_app. split; [done|by apply Hni].
    + intros v Hv'. rewrite (Hv v Hv'). apply content_ext. intros b Hb'. symmetry. by apply write_disk_other, Hni.
  - done.
  - unfold total, fly_blocks. cbn [held inflight]. rewrite trefs_app, !length_app. cbn [pages_to_deref]. unfold keys_of, trefs. rewrite length_map. lia.
Qed.

Lemma write_disk_length bl d : Forall block_ok bl → (∀ b, Z.of_nat (length (d b)) = SECTOR_LEN) → ∀ b, Z.of_nat (length (write_disk bl d b)) = SECTOR_LEN.
Proof.
  intros Hbo. revert d. induction Hbo as [|x bl [_ Hx] _ IH]; intros d Hl b; [done|]. apply IH. intros b'. by destruct (b' =? x.1).
Qed.

Lemma flush_ok fd s M :
  sys_ok fd s M → Z.of_nat (total s) < 2 ^ 64 → sys_ok fd (bg_step s) M ∧ (total (bg_step s) <= total s)%nat.
Proof.
  intros H Hb. unfold bg_step. destruct (tasks s) as [|t ts] eqn:Et; [done|]. pose proof H as [Hm Hfl Hcoh Ht Hh Hy Hl].
  unfold total, fly_blocks, trefs, pend in *. rewrite Et in *. cbn [map concat tail] in *. apply Forall_cons in Ht as [[Hr Hbo] Ht].
  destruct (flushed s) eqn:Ef; cbn [pages disk tasks flushed inflight held map concat tail].
  - destruct (Hfl eq_refl) as [_ Hf']. split; [split|]; unfold trefs, pend; cbn [tasks held pages disk flushed inflight map concat]; try done.
    + apply coherent_deref_all; rewrite !app_assoc, (Permutation_app_comm (pages_to_deref t)), <- !app_assoc; [done|]. rewrite !length_app in *. lia.
    + eapply Forall_impl; [exact Hy|]. intros x (Hq & Hd & Hv). split_and!; [done| |done]. intros b Hb'. destruct (Hd b Hb') as [Hd1 Hd2]. split; [done|].
      unfold pend in *. rewrite Et in Hd2. cbn [map concat tasks] in *. rewrite fmap_app, not_elem_of_app in Hd2. apply Hd2.
    + rewrite !length_app. lia.
  - split; [split|]; unfold trefs, pend; cbn [tasks held pages disk flushed inflight map concat tail]; try done; rewrite ?Et; cbn [map concat tail]; try done.
    + intros b Hu. rewrite write_disk_app. rewrite <- (Hm b Hu), write_disk_app. apply write_disk_ext, write_disk_again.
    + intros _. split; [done|]. intros b Hu. by rewrite <- (Hm b Hu), write_disk_app.
    + by constructor.
    + eapply Forall_impl; [exact Hy|]. intros x (Hq & Hd & Hv). split_and!; [done| |done]. intros b Hb'. destruct (Hd b Hb') as [Hd1 Hd2].
      unfold pend in *. rewrite Et in Hd2. cbn [map concat tasks disk] in *. split; [|done].
      rewrite fmap_app, not_elem_of_app in Hd2. rewrite write_disk_other; [done|apply Hd2].
    + by apply write_disk_length.
Qed.

Lemma drop_key_perm k l : k ∈ l → l ≡ₚ k :: drop_key k l.
Proof.
  induction l as [|x l IH]; [set_solver|]. simpl. destruct (Z.eqb_spec x k) as [->|Hne]; [done|]. intros [->|Hin]%elem_of_cons; [done|].
  rewrite (IH Hin) at 1. apply Permutation_swap.
Qed.

Lemma release_ok fd s M k :
  sys_ok fd s M → k ∈ held s → Z.of_nat (total s) < 2 ^ 64 →
  ∃ s', step fd (ERelease k) s = Some ([], s') ∧ sys_ok fd s' M ∧ (total s' <= total s)%nat.
Proof.
  intros H Hk Hb. cbn [step]. eexists. split; [done|]. pose proof (drop_key_perm k (held s) Hk) as Hp. pose proof H as [Hm Hfl Hcoh Ht Hh Hy Hl].
  unfold total, fly_blocks in *. split; [split; cbn [pages held tasks inflight disk flushed]; try done|].
  - change (trefs _) with (trefs s). rewrite Hp in Hcoh. apply coherent_deref; [exact Hcoh|]. rewrite Hp in Hb. simpl in Hb. lia.
  - rewrite Hp in Hh. by apply Forall_cons in Hh as [_ Hh].
  - cbn [held inflight]. change (trefs _) with (trefs s). rewrite !length_app. apply Permutation_length in Hp. simpl in Hp. lia.
Qed.

(** ** The specification: a memory of pages *)

Definition after (e : event) (M : Z → list Z) : Z → list Z :=
  match e with EWrite reqs => write_disk (concat (map write_blocks reqs)) M | _ => M end.

(** The answers of an event: the current pages, for the requests it has to answer. *)
Definition answers (e : event) (r : list (IORequest * list Z)) (M : Z → list Z) : Prop :=
  (∀ q v, (q, v) ∈ r → v = content M q)
  ∧ match e with
    | ERead reqs => r.*1 = reqs
    | ESearch q => r.*1 = [q]
    | ESend q => r = [] ∨ r.*1 = [q]
    | EPoll => True
    | _ => r = []
    end.

Fixpoint all_answers (es : list event) (rs : list (list (IORequest * list Z))) (M : Z → list Z) : Prop :=
  match es, rs with
  | [], [] => True
  | e :: es, r :: rs => answers e r M ∧ all_answers es rs (after e M)
  | _, _ => False
  end.

(** The memory after all writes. *)
Definition final (es : list event) (M : Z → list Z) : Z → list Z := foldl (λ M e, after e M) M es.

Definition event_ok (fd : Z) (e : event) (s : sys) : Prop :=
  match e with
  | ERead reqs => Forall req_ok reqs ∧ Forall (whole fd (pages s)) reqs
  | EWrite reqs => Forall write_ok reqs ∧ write_clear s reqs
  | ESearch q | ESend q => req_ok q ∧ whole fd (pages s) q
  | ERelease k => k ∈ held s
  | _ => True
  end.

(** Every event of the run is allowed in the state it meets. *)
Fixpoint events_ok (fd : Z) (es : list event) (s : sys) : Prop :=
  match es with
  | [] => True
  | e :: es => event_ok fd e s ∧ ∀ r s', step fd e s = Some (r, s') → events_ok fd es s'
  end.

(** The references an event may take. *)
Definition event_refs (e : event) : nat :=
  match e with
  | ERead reqs => n_blocks reqs
  | EWrite reqs => length (concat (map write_blocks reqs))
  | ESend q => length (blocks q)
  | _ => 0
  end.

Definition all_refs (es : list event) : nat := sum_list (map event_refs es).

Lemma page_step_ok fd e s M :
  sys_ok fd s M → event_ok fd e s → Z.of_nat (total s + event_refs e) < 2 ^ 64 →
  ∃ r s', step fd e s = Some (r, s') ∧ answers e r M ∧ sys_ok fd s' (after e M) ∧ (total s' <= total s + event_refs e)%nat.
Proof.
  intros H He Hb. destruct e as [reqs|reqs|q|q|i| | |k]; cbn [after event_ok event_refs] in *.
  - destruct He as [Hq Hw]. destruct (page_read_ok fd s M reqs H Hq Hw Hb) as (s' & E & H' & Ht). eexists _, s'. split_and!; [exact E| |done|done].
    split; [by intros q v (x & [= -> ->] & _)%list_elem_of_fmap|].
    rewrite <- list_fmap_compose. cbn. apply list_fmap_id.
  - destruct He as [Hw Hc]. destruct (write_ok_step fd s M reqs H Hw Hc Hb) as (s' & E & H' & Ht). eexists _, s'. split_and!; [exact E| |done|done].
    split; [by intros ? ? ?%elem_of_nil|done].
  - destruct He as [Hq Hw]. eexists _, s. split_and!; [done| |done|lia]. rewrite (search_ok fd s M q H Hq Hw).
    split; [|done]. by intros q' v [= -> ->]%list_elem_of_singleton.
  - destruct He as [Hq Hw]. destruct (send_ok fd s M q H Hq Hw) as (r & s' & E & Hr & H' & Ht). exists r, s'. split_and!; [done| |done|done].
    destruct Hr as [->| ->]; (split; [|by auto]); [by intros ? ? ?%elem_of_nil|by intros q' v [= -> ->]%list_elem_of_singleton].
  - destruct (device_ok fd s M i H) as (s' & E & H' & Ht). exists [], s'. split_and!; [done| |done|lia]. split; [by intros ? ? ?%elem_of_nil|done].
  - destruct (poll_event_ok fd s M H) as (r & s' & E & Hr & H' & Ht); [lia|]. exists r, s'. split_and!; [done|by split|done|lia].
  - destruct (flush_ok fd s M H) as [H' Ht]; [lia|]. eexists [], _. split_and!; [done| |done|lia]. split; [by intros ? ? ?%elem_of_nil|done].
  - destruct (release_ok fd s M k H He) as (s' & E & H' & Ht); [lia|]. exists [], s'. split_and!; [done| |done|lia]. split; [by intros ? ? ?%elem_of_nil|done].
Qed.

Lemma pages_run_ok fd es : ∀ s M,
  sys_ok fd s M → events_ok fd es s → Z.of_nat (total s + all_refs es) < 2 ^ 64 →
  ∃ rs s', run fd es s = Some (rs, s') ∧ all_answers es rs M ∧ sys_ok fd s' (final es M).
Proof.
  induction es as [|e es IH]; intros s M H He Hb; [by exists [], s|]. destruct He as [He Hes]. cbn [run].
  change (all_refs (e :: es)) with (event_refs e + all_refs es)%nat in Hb.
  destruct (page_step_ok fd e s M H He) as (r & s1 & E & Hr & H1 & Hl1); [lia|]. rewrite E. cbn [mbind option_bind].
  destruct (IH s1 _ H1 (Hes r s1 E)) as (rs & s' & -> & Hrs & H'); [lia|]. exists (r :: rs), s'. done.
Qed.

Lemma init_ok fd d : (∀ b, Z.of_nat (length (d b)) = SECTOR_LEN) → sys_ok fd (init d) d.
Proof. intros Hd. by split. Qed.

(** C13: the page cache is coherent.  Take any sequence of page reads and page writes of
    inserts, reads of searches, asynchronous reads of insertion searches (sent, transferred
    by the device and put into the cache by a later poll), steps of the background thread
    (write the pages of a task, then drop its references) and releases, each call one step.
    The requests are whole sectors with 32-bit numbers; a read asks for sectors of which
    the cache holds all or none (always so for one sector, all that an index reads whose
    nodes fit a sector); no page is written to the cache while an asynchronous read of it is
    in flight; only references that are held are released; and fewer than [2^64] are taken.
    ([stale_page_replaces_write] shows what happens when the second or the third condition
    fails; the code does not ensure them.)  Then no access fails, every read is answered
    with the last pages written, although the disk lags behind the cache; and once nothing
    is pending and every reference is gone, the cache is empty and the disk holds what was
    written. *)
Theorem page_cache_coherent fd d es :
  (∀ b, Z.of_nat (length (d b)) = SECTOR_LEN) → events_ok fd es (init d) → Z.of_nat (all_refs es) < 2 ^ 64 →
  ∃ rs s, run fd es (init d) = Some (rs, s) ∧ all_answers es rs d
  ∧ (held s = [] → tasks s = [] → pages s = ∅ ∧ ∀ b, is_u32 b → disk s b = final es d b).
Proof.
  intros Hd He Hb. destruct (pages_run_ok fd es (init d) d (init_ok fd d Hd) He) as (rs & s & Hr & Ha & H); [done|]. exists rs, s. split_and!; [done|done|].
  intros Hh0 Ht. pose proof H as [Hm _ Hc _ _ _ _]. unfold trefs, pend in *. rewrite Ht, ?Hh0 in *. split; [by eapply coherent_empty|done].
Qed.

Definition page (x : Z) : list Z := replicate 4096 x.
Definition zero_disk : Z → list Z := λ _, page 0.

Lemma page_length x : Z.of_nat (length (page x)) = SECTOR_LEN.
Proof. unfold page. by rewrite length_replicate. Qed.

(** Block 5 is written while block 6 is read asynchronously, both are read by an insert,
    the write reaches the disk, and the references go. *)
Definition page_run : list event :=
  [ESend (mkReq 24576 4096 []); EWrite [mkReq 20480 4096 (page 1)]; EDevice 0; ESearch (mkReq 20480 4096 []); EPoll;
   ERead [mkReq 20480 8192 []]; EFlush; EFlush; ERelease (PageCacheKey 3 5); ERelease (PageCacheKey 3 6); ERelease (PageCacheKey 3 6)].

(** The conditions, decided. *)
#[export] Instance req_ok_dec q : Decision (req_ok q).
Proof. unfold req_ok. apply _. Defined.
#[export] Instance write_ok_dec q : Decision (write_ok q).
Proof. unfold write_ok. apply _. Defined.

Definition wholeb (fd : Z) (c : gmap Z PageCacheItem) (q : IORequest) : bool :=
  forallb (λ k, bool_decide (is_Some (c !! k))) (keys fd q) || forallb (λ k, bool_decide (c !! k = None)) (keys fd q).

Definition event_okb (fd : Z) (e : event) (s : sys) : bool :=
  match e with
  | ERead reqs => forallb (λ q, bool_decide (req_ok q) && wholeb fd (pages s) q) reqs
  | EWrite reqs =>
      forallb (λ q, bool_decide (write_ok q)) reqs
      && forallb (λ b, bool_decide (b ∉ concat (map blocks (inflight s).*1))) (concat (map write_blocks reqs)).*1
  | ESearch q | ESend q => bool_decide (req_ok q) && wholeb fd (pages s) q
  | ERelease k => bool_decide (k ∈ held s)
  | _ => true
  end.

Fixpoint events_okb (fd : Z) (es : list event) (s : sys) : bool :=
  match es with
  | [] => true
  | e :: es => event_okb fd e s && match step fd e s with Some (_, s') => events_okb fd es s' | None => true end
  end.

Lemma forallb_decide {A} (P : A → Prop) `{∀ x, Decision (P x)} l : forallb (λ x, bool_decide (P x)) l = true → ∀ x, x ∈ l → P x.
Proof. intros Hl x Hx. rewrite forallb_forall in Hl. apply list_elem_of_In, Hl in Hx. by apply bool_decide_eq_true in Hx. Qed.

Lemma wholeb_sound fd c q : wholeb fd c q = true → whole fd c q.
Proof. intros [H|H]%orb_true_iff; [left|right]; by eapply (forallb_decide _ _ H). Qed.

Lemma event_okb_sound fd e s : event_okb fd e s = true → event_ok fd e s.
Proof.
  destruct e as [reqs|reqs|q|q|i| | |k]; cbn; try done.
  - intros H. rewrite forallb_forall in H. split; apply Forall_forall; intros q Hq%list_elem_of_In;
      apply H, andb_true_iff in Hq as [H1 H2]; [by apply bool_decide_eq_true in H1|by apply wholeb_sound].
  - intros [H1 H2]%andb_true_iff. split; [|intros b Hb; exact (forallb_decide _ _ H2 b Hb)]. apply Forall_forall. by apply (forallb_decide _ _ H1).
  - intros [H1%bool_decide_eq_true H2%wholeb_sound]%andb_true_iff. done.
  - intros [H1%bool_decide_eq_true H2%wholeb_sound]%andb_true_iff. done.
  - apply bool_decide_eq_true.
Qed.

Lemma events_okb_sound fd es s : events_okb fd es s = true → events_ok fd es s.
Proof.
  revert s. induction es as [|e es IH]; intros s; cbn [events_okb events_ok]; [done|]. intros [H1%event_okb_sound H2]%andb_true_iff. split; [done|].
  intros r s' E. rewrite E in H2. by apply IH.
Qed.

Definition answer_heads (r : option (list (list (IORequest * list Z)) * sys)) : option (list (list (option Z)) * bool) :=
  '(rs, s) ← r; Some (map (map (λ x : IORequest * list Z, head x.2)) rs, bool_decide (pages s = ∅)).

Lemma page_cache_coherent_witness :
  ∃ rs s, run 3 page_run (init zero_disk) = Some (rs, s) ∧ all_answers page_run rs zero_disk
  ∧ map (map (λ x : IORequest * list Z, head x.2)) rs = [[]; []; []; [Some 1]; [Some 0]; [Some 1]; []; []; []; []; []] ∧ bool_decide (pages s = ∅) = true.
Proof.
  destruct (page_cache_coherent 3 zero_disk page_run) as (rs & s & Hr & Ha & _).
  - intros b. apply page_length.
  - apply events_okb_sound. vm_compute. reflexivity.
  - vm_compute. reflexivity.
  - exists rs, s. split; [exact Hr|]. split; [exact Ha|].
    assert (answer_heads (run 3 page_run (init zero_disk)) = Some ([[]; []; []; [Some 1]; [Some 0]; [Some 1]; []; []; []; []; []], true)) as E
      by (vm_compute; reflexivity).
    rewrite Hr in E. cbn in E. injection E as E1 E2. split; [exact E1|exact E2].
Defined.

(** Two reads put an old page over a newer one.  A request of two sectors of which only
    the first is in the cache is read from disk whole, and the old first sector replaces the
    pending write; and a page that an insertion search asked the disk for before another
    insert wrote it replaces that write when it lands.  The next read of the page gets the
    old contents. *)
Theorem stale_page_replaces_write :
  let fd := 3 in
  let c := put (PageCacheKey fd 5) (page 1) true ∅ in
  (∃ bytes refs c', read_alloc fd zero_disk true [mkReq 20480 8192 []] c = Some (bytes, refs, c')
     ∧ (get (PageCacheKey fd 5) false c').1 = Some (page 0))
  ∧ ∃ refs c', poll_alloc fd [(mkReq 20480 4096 [], disk_read zero_disk (mkReq 20480 4096 []))] c = Some (refs, c')
     ∧ (get (PageCacheKey fd 5) false c').1 = Some (page 0).
Proof. split; [eexists _, _, _|eexists _, _]; (split; [vm_compute; reflexivity|vm_compute; reflexivity]). Qed.

End PageProof.
