(* ===== verification/CachedIO.v ===== *)
(** * Buffered files ([include/utils/cached_io.h])

    [cached_ifstream] reads a file through a buffer that is refilled while a whole buffer
    is left; [cached_ofstream] collects small writes.  Reads give the consecutive pieces of
    the file, and a closed output file holds what was written, so that a file written
    through one is read back through the other. *)

From S2P Require Import Prelude Bytes.

Module CachedIO.
Open Scope Z_scope.

(** ** Reading *)

(** The stream [reader] is the file and a position. *)
Record cached_ifstream := mkIn {
  in_file : list Z;
  in_pos : Z;
  in_cache_size : Z;
  in_buf : list Z;
  in_off : Z;
  in_fsize : Z
}.

(** [reader.read(n)]: the bytes and the new position; a read past the end fails. *)
Definition reader_read (file : list Z) (pos n : Z) : option (list Z * Z) :=
  if pos + n <=? Z.of_nat (length file) then Some (region file (Z.to_nat pos) (Z.to_nat (pos + n)), pos + n) else None.

Definition open_in (file : list Z) (cacheSize initial_offset : Z) : option cached_ifstream :=
  let fsize := Z.of_nat (length file) in
  let cacheSize := Z.min cacheSize (u64 (fsize - initial_offset)) in
  '(b, pos) ← reader_read file initial_offset cacheSize;
  Some (mkIn file pos cacheSize b 0 fsize).

Definition read (n_bytes : Z) (s : cached_ifstream) : option (list Z * cached_ifstream) :=
  if n_bytes <=? u64 (in_cache_size s - in_off s) then
    Some (region (in_buf s) (Z.to_nat (in_off s)) (Z.to_nat (in_off s + n_bytes)),
          mkIn (in_file s) (in_pos s) (in_cache_size s) (in_buf s) (in_off s + n_bytes) (in_fsize s))
  else
    let cached_bytes := u64 (in_cache_size s - in_off s) in
    if u64 (in_fsize s - in_pos s) <? u64 (n_bytes - cached_bytes) then None
    else
      let first := region (in_buf s) (Z.to_nat (in_off s)) (Z.to_nat (in_off s + cached_bytes)) in
      '(rest, pos) ← reader_read (in_file s) (in_pos s) (n_bytes - cached_bytes);
      let size_left := u64 (in_fsize s - pos) in
      if in_cache_size s <=? size_left then
        '(b, pos) ← reader_read (in_file s) pos (in_cache_size s);
        Some (first ++ rest, mkIn (in_file s) pos (in_cache_size s) b 0 (in_fsize s))
      else Some (first ++ rest, mkIn (in_file s) pos (in_cache_size s) (in_buf s) (in_cache_size s) (in_fsize s)).

Fixpoint reads (ns : list Z) (s : cached_ifstream) : option (list (list Z) * cached_ifstream) :=
  match ns with
  | [] => Some ([], s)
  | n :: ns => '(b, s) ← read n s; '(bs, s) ← reads ns s; Some (b :: bs, s)
  end.

(** ** Writing *)

Record cached_ofstream := mkOut {
  out_file : list Z;
  out_pos : Z;
  out_cache_size : Z;
  out_buf : list Z;
  out_off : Z;
  out_fsize : Z
}.

(** [writer.write] at the position of the stream; a write of nothing leaves the file. *)
Definition writer_write (bs : list Z) (s : cached_ofstream) : cached_ofstream :=
  mkOut (match bs with [] => out_file s | _ => write_at (out_file s) (Z.to_nat (out_pos s)) bs end) (out_pos s + Z.of_nat (length bs)) (out_cache_size s) (out_buf s) (out_off s)
    (out_fsize s + Z.of_nat (length bs)).

(** [open_file_to_write] keeps what an existing file holds. *)
Definition open_out (file : list Z) (cache_size initial_offset : Z) : cached_ofstream :=
  mkOut file initial_offset cache_size (replicate (Z.to_nat cache_size) 0) 0 initial_offset.

Definition cleared (s : cached_ofstream) : cached_ofstream :=
  mkOut (out_file s) (out_pos s) (out_cache_size s) (replicate (Z.to_nat (out_cache_size s)) 0) 0 (out_fsize s).

Definition flush_cache (s : cached_ofstream) : cached_ofstream := cleared (writer_write (take (Z.to_nat (out_off s)) (out_buf s)) s).

(** [memcpy] of the bytes into the buffer; [None] past its end. *)
Definition copy_in (b : list Z) (off : nat) (bs : list Z) : option (list Z) :=
  if Nat.leb (off + length bs) (length b) then Some (take off b ++ bs ++ drop (off + length bs) b) else None.

Definition write (bs : list Z) (s : cached_ofstream) : option cached_ofstream :=
  let n_bytes := Z.of_nat (length bs) in
  if n_bytes <=? u64 (out_cache_size s - out_off s) then
    b ← copy_in (out_buf s) (Z.to_nat (out_off s)) bs;
    Some (mkOut (out_file s) (out_pos s) (out_cache_size s) b (out_off s + n_bytes) (out_fsize s))
  else
    let s := writer_write (take (Z.to_nat (out_off s)) (out_buf s)) s in
    Some (cleared (writer_write bs s)).

Fixpoint write_all (bss : list (list Z)) (s : cached_ofstream) : option cached_ofstream :=
  match bss with [] => Some s | bs :: bss => s ← write bs s; write_all bss s end.

Definition close (s : cached_ofstream) : cached_ofstream := if 0 <? out_off s then flush_cache s else s.

Definition reset (s : cached_ofstream) : cached_ofstream :=
  let s := flush_cache s in mkOut (out_file s) 0 (out_cache_size s) (out_buf s) (out_off s) (out_fsize s).

(** ** Theory of reading *)

(** The position a reader has reached. *)
Definition at_pos (s : cached_ifstream) : Z := in_pos s - (in_cache_size s - in_off s).

Record in_ok (s : cached_ifstream) : Prop := mkInOk {
  i_size : in_fsize s = Z.of_nat (length (in_file s));
  i_u64 : is_u64 (in_fsize s);
  i_off : 0 <= in_off s <= in_cache_size s;
  i_pos : 0 <= at_pos s ∧ in_pos s <= in_fsize s;
  i_len : Z.of_nat (length (in_buf s)) = in_cache_size s;
  i_buf : drop (Z.to_nat (in_off s)) (in_buf s) = region (in_file s) (Z.to_nat (at_pos s)) (Z.to_nat (in_pos s))
}.

Lemma region_len (f : list Z) a b : (a <= b <= length f)%nat → length (region f a b) = (b - a)%nat.
Proof. intros H. unfold region. rewrite length_take, length_drop. lia. Qed.

Lemma region_app (f : list Z) a b c : (a <= b <= c)%nat → region f a b ++ region f b c = region f a c.
Proof.
  intros H. unfold region. replace (drop b f) with (drop (b - a) (drop a f)) by (rewrite drop_drop; f_equal; lia).
  rewrite take_take_drop. f_equal. lia.
Qed.

Lemma region_inside (f : list Z) a b x y : (x <= y)%nat → (a + y <= b)%nat → region (region f a b) x y = region f (a + x) (a + y).
Proof.
  intros Hx Hy. unfold region. rewrite skipn_firstn_comm, take_take, drop_drop. f_equal. lia.
Qed.

Lemma open_in_ok file c off :
  0 < c → 0 <= off <= Z.of_nat (length file) → is_u64 (Z.of_nat (length file)) →
  ∃ s, open_in file c off = Some s ∧ in_ok s ∧ at_pos s = off ∧ in_file s = file.
Proof.
  intros Hc Ho Hu. unfold open_in, reader_read. unfold is_u64 in Hu. unfold u64. rewrite (Z.mod_small (_ - _)) by lia.
  rewrite (proj2 (Z.leb_le _ _)) by lia. cbn [mbind option_bind]. eexists. split; [done|]. unfold at_pos. cbn.
  split; [|split; [lia|done]]. split; unfold at_pos; cbn; [done|done|lia|lia| |].
  - rewrite region_len by lia. lia.
  - change (Z.to_nat 0) with 0%nat. rewrite drop_0. f_equal; lia.
Qed.

(** A read of [n] bytes is the next [n] bytes of the file. *)
Lemma cached_read_ok n s :
  in_ok s → 0 <= n → at_pos s + n <= in_fsize s →
  ∃ s', read n s = Some (region (in_file s) (Z.to_nat (at_pos s)) (Z.to_nat (at_pos s + n)), s')
  ∧ in_ok s' ∧ at_pos s' = at_pos s + n ∧ in_file s' = in_file s ∧ in_fsize s' = in_fsize s.
Proof.
  intros [Hsz Hu Hoff [Hp0 Hp] Hlen Hbuf] Hn Hend. unfold is_u64 in Hu. unfold at_pos in *.
  assert (u64 (in_cache_size s - in_off s) = in_cache_size s - in_off s) as Hcb by (unfold u64; apply Z.mod_small; lia).
  assert (Hb : ∀ x, 0 <= x <= in_cache_size s - in_off s →
    region (in_buf s) (Z.to_nat (in_off s)) (Z.to_nat (in_off s + x)) = region (in_file s) (Z.to_nat (at_pos s)) (Z.to_nat (at_pos s + x))).
  { intros x Hx. unfold region at 1. rewrite Hbuf. fold (at_pos s). unfold region. rewrite take_take. f_equal. unfold at_pos. lia. }
  unfold at_pos in Hb. unfold read. rewrite Hcb. destruct (Z.leb_spec n (in_cache_size s - in_off s)) as [Hle|Hgt].
  - eexists. split; [by rewrite Hb by lia|]. cbn. split; [|split_and!; [lia|done|done]]. split; unfold at_pos; cbn; [done|done|lia|lia|done|].
    rewrite Z2Nat.inj_add, <- drop_drop, Hbuf by lia. unfold region. rewrite skipn_firstn_comm, drop_drop. f_equal; [|f_equal]; lia.
  - unfold u64. rewrite !Z.mod_small by lia. rewrite (proj2 (Z.ltb_ge _ _)) by lia. unfold reader_read. rewrite (proj2 (Z.leb_le _ _)) by lia.
    cbn [mbind option_bind]. rewrite Z.mod_small by lia.
    assert (Hout : region (in_buf s) (Z.to_nat (in_off s)) (Z.to_nat (in_off s + (in_cache_size s - in_off s)))
        ++ region (in_file s) (Z.to_nat (in_pos s)) (Z.to_nat (in_pos s + (n - (in_cache_size s - in_off s))))
        = region (in_file s) (Z.to_nat (in_pos s - (in_cache_size s - in_off s))) (Z.to_nat (in_pos s - (in_cache_size s - in_off s) + n))).
    { rewrite Hb by lia. rewrite Z.sub_add, region_app by lia. f_equal. lia. }
    rewrite Hout. destruct (Z.leb_spec (in_cache_size s) (in_fsize s - (in_pos s + (n - (in_cache_size s - in_off s))))) as [Hleft|Hleft].
    + rewrite (proj2 (Z.leb_le _ _)) by lia. cbn [mbind option_bind]. eexists. split; [done|]. cbn.
      split; [|split_and!; [lia|done|done]]. split; unfold at_pos; cbn; [done|done|lia|lia| |].
      * rewrite region_len by lia. lia.
      * change (Z.to_nat 0) with 0%nat. rewrite drop_0. f_equal; lia.
    + eexists. split; [done|]. cbn. split; [|split_and!; [lia|done|done]]. split; unfold at_pos; cbn; [done|done|lia|lia|done|].
      rewrite drop_ge by lia. rewrite Z.sub_diag, Z.sub_0_r. unfold region. by rewrite Nat.sub_diag, take_0.
Qed.

(** The crash of a read past the end. *)
Lemma read_past n s : in_ok s → 0 <= n → is_u64 n → in_fsize s < at_pos s + n → read n s = None.
Proof.
  intros [Hsz Hu Hoff [Hp0 Hp] Hlen Hbuf] Hn Hnu Hend. unfold is_u64 in *. unfold at_pos in *.
  unfold read, u64. rewrite !(Z.mod_small (in_cache_size s - in_off s)) by lia.
  rewrite (proj2 (Z.leb_gt _ _)) by lia. rewrite !Z.mod_small by lia. by rewrite (proj2 (Z.ltb_lt _ _)) by lia.
Qed.

(** The pieces of a file of the given sizes. *)
Fixpoint pieces (file : list Z) (pos : Z) (ns : list Z) : list (list Z) :=
  match ns with [] => [] | n :: ns => region file (Z.to_nat pos) (Z.to_nat (pos + n)) :: pieces file (pos + n) ns end.

Lemma cached_reads_ok ns : ∀ s,
  in_ok s → Forall (λ n, 0 <= n) ns → at_pos s + foldr Z.add 0 ns <= in_fsize s →
  ∃ s', reads ns s = Some (pieces (in_file s) (at_pos s) ns, s') ∧ in_ok s' ∧ at_pos s' = at_pos s + foldr Z.add 0 ns
  ∧ in_fsize s' = in_fsize s.
Proof.
  induction ns as [|n ns IH]; intros s H Hn Hend; [exists s; simpl; split_and!; [done|done|lia|done]|].
  apply Forall_cons in Hn as [Hn0 Hn]. cbn [foldr] in Hend.
  assert (0 <= foldr Z.add 0 ns) as Hpos by (clear -Hn; induction Hn; simpl; lia).
  destruct (cached_read_ok n s H Hn0) as (s1 & Hr & H1 & Ha1 & Hf1 & Hz1); [lia|]. cbn [reads]. rewrite Hr. cbn [mbind option_bind].
  destruct (IH s1 H1 Hn) as (s' & -> & H' & Ha' & Hz'); [rewrite Ha1, Hz1; lia|]. cbn [mbind option_bind]. exists s'. cbn [pieces foldr].
  rewrite Hf1, Ha1 in *. split_and!; [done|done|lia|congruence].
Qed.

(** ** Theory of writing *)

Lemma write_at_nil f off : (off <= length f)%nat → write_at f off [] = f.
Proof.
  intros H. unfold write_at. replace (off - length f)%nat with 0%nat by lia. simpl. rewrite Nat.add_0_r. apply take_drop.
Qed.

Lemma write_at_next f off a b :
  (off <= length f)%nat → write_at (write_at f off a) (off + length a) b = write_at f off (a ++ b).
Proof.
  intros H. unfold write_at. replace (off - length f)%nat with 0%nat by lia. cbn [replicate app].
  set (tl := drop (off + length a) f). assert (length (take off f ++ a) = off + length a)%nat as Hl by (rewrite length_app, length_take; lia).
  rewrite (app_assoc (take off f) a tl). replace (off + length a - length ((take off f ++ a) ++ tl))%nat with 0%nat by (rewrite length_app; lia).
  cbn [replicate app]. rewrite <- Hl, take_app_length, <- drop_drop, drop_app_length, <- !app_assoc. f_equal. f_equal. f_equal.
  unfold tl. rewrite drop_drop, length_app. f_equal. lia.
Qed.

(** [acc] has been written through [s], at [off0] of the file [f0]: a part is in the file,
    the rest in the buffer. *)
Record out_ok (f0 : list Z) (off0 : nat) (acc : list Z) (s : cached_ofstream) : Prop := mkOutOk {
  o_cache : is_u64 (out_cache_size s);
  o_len : Z.of_nat (length (out_buf s)) = out_cache_size s;
  o_off : 0 <= out_off s <= out_cache_size s;
  o_done : ∃ done, acc = done ++ take (Z.to_nat (out_off s)) (out_buf s) ∧ out_file s = write_at f0 off0 done
    ∧ out_pos s = Z.of_nat (off0 + length done) ∧ out_fsize s = out_pos s
}.

Lemma writer_write_ok f0 off0 done bs s :
  (off0 <= length f0)%nat → out_file s = write_at f0 off0 done → out_pos s = Z.of_nat (off0 + length done) → out_fsize s = out_pos s →
  let s' := writer_write bs s in
  out_file s' = write_at f0 off0 (done ++ bs) ∧ out_pos s' = Z.of_nat (off0 + length (done ++ bs)) ∧ out_fsize s' = out_pos s'.
Proof.
  intros Ho Hf Hp Hz. cbn. rewrite Hz, Hp, length_app. split; [|lia]. destruct bs as [|b bs]; [by rewrite app_nil_r|].
  rewrite Hf, Nat2Z.id. by apply write_at_next.
Qed.

Lemma cached_write_ok f0 off0 acc bs s :
  (off0 <= length f0)%nat → out_ok f0 off0 acc s → ∃ s', write bs s = Some s' ∧ out_ok f0 off0 (acc ++ bs) s' ∧ out_cache_size s' = out_cache_size s.
Proof.
  intros Ho [Hc Hl Hoff (done & -> & Hf & Hp & Hz)]. unfold write. unfold is_u64 in Hc.
  assert (u64 (out_cache_size s - out_off s) = out_cache_size s - out_off s) as -> by (unfold u64; apply Z.mod_small; lia).
  destruct (Z.leb_spec (Z.of_nat (length bs)) (out_cache_size s - out_off s)) as [Hle|Hgt].
  - unfold copy_in. rewrite (proj2 (Nat.leb_le _ _)) by lia. cbn [mbind option_bind]. eexists. split; [done|]. split; [|done].
    split; cbn; [done| |lia|].
    + rewrite !length_app, length_take, length_drop. lia.
    + exists done. split; [|done]. rewrite <- app_assoc. f_equal. rewrite app_assoc. symmetry. 
      replace (Z.to_nat (out_off s + Z.of_nat (length bs))) with (length (take (Z.to_nat (out_off s)) (out_buf s) ++ bs))
        by (rewrite length_app, length_take; lia). apply take_app_length.
  - destruct (writer_write_ok f0 off0 done (take (Z.to_nat (out_off s)) (out_buf s)) s Ho Hf Hp Hz) as (Hf1 & Hp1 & Hz1).
    destruct (writer_write_ok f0 off0 _ bs _ Ho Hf1 Hp1 Hz1) as (Hf2 & Hp2 & Hz2).
    eexists. split; [done|]. split; [|done]. split; [done| |cbn; lia|].
    + cbn. rewrite length_replicate. lia.
    + eexists. cbn [cleared out_file out_pos out_fsize out_off out_buf]. split; [|split_and!; [exact Hf2|exact Hp2|exact Hz2]].
      change (Z.to_nat 0) with 0%nat. by rewrite take_0, app_nil_r.
Qed.

Lemma write_all_ok f0 off0 bss : ∀ acc s,
  (off0 <= length f0)%nat → out_ok f0 off0 acc s → ∃ s', write_all bss s = Some s' ∧ out_ok f0 off0 (acc ++ concat bss) s'.
Proof.
  induction bss as [|bs bss IH]; intros acc s Ho H; [exists s; by rewrite app_nil_r|]. cbn [write_all concat].
  destruct (cached_write_ok f0 off0 acc bs s Ho H) as (s1 & -> & H1 & _). cbn [mbind option_bind]. destruct (IH _ s1 Ho H1) as (s' & -> & H').
  exists s'. by rewrite <- app_assoc in H'.
Qed.

Lemma close_ok f0 off0 acc s :
  (off0 <= length f0)%nat → out_ok f0 off0 acc s → out_file (close s) = write_at f0 off0 acc ∧ out_fsize (close s) = Z.of_nat (off0 + length acc).
Proof.
  intros Ho [Hc Hl Hoff (done & -> & Hf & Hp & Hz)]. unfold close. destruct (Z.ltb_spec 0 (out_off s)) as [Hlt|Hge].
  - destruct (writer_write_ok f0 off0 done (take (Z.to_nat (out_off s)) (out_buf s)) s Ho Hf Hp Hz) as (Hf1 & Hp1 & Hz1).
    unfold flush_cache. cbn [cleared out_file out_fsize]. split; [exact Hf1|]. by rewrite Hz1, Hp1.
  - assert (out_off s = 0) as -> by lia. change (Z.to_nat 0) with 0%nat. rewrite take_0, app_nil_r. split; [done|]. by rewrite Hz, Hp.
Qed.

Lemma open_out_ok f0 c off0 : 0 <= c → is_u64 c → (off0 <= length f0)%nat → out_ok f0 off0 [] (open_out f0 c (Z.of_nat off0)).
Proof.
  intros Hc Hu Ho. split; cbn; [done|rewrite length_replicate; lia|lia|]. exists []. change (Z.to_nat 0) with 0%nat. rewrite take_0.
  split_and!; [done|by rewrite write_at_nil|simpl; lia|done].
Qed.

Lemma pieces_concat chunks rest : ∀ pre,
  pieces (pre ++ concat chunks ++ rest) (Z.of_nat (length pre)) (map (λ c, Z.of_nat (length c)) chunks) = chunks.
Proof.
  induction chunks as [|c chunks IH]; intros pre; [done|]. cbn [map pieces concat]. f_equal.
  - unfold region. rewrite <- Nat2Z.inj_add, !Nat2Z.id, drop_app_length. replace (_ + _ - _)%nat with (length c) by lia. rewrite <- app_assoc. apply take_app_length.
  - specialize (IH (pre ++ c)). rewrite length_app, Nat2Z.inj_add, <- app_assoc in IH. rewrite <- app_assoc. exact IH.
Qed.

Lemma concat_sizes chunks : foldr Z.add 0 (map (λ c : list Z, Z.of_nat (length c)) chunks) = Z.of_nat (length (concat chunks)).
Proof. induction chunks as [|c chunks IH]; simpl; [done|]. rewrite IH, length_app. lia. Qed.

(** C28: Buffered files round-trip for every buffer size on either side: chunks written
    through the output buffer and closed are the bytes of the file (over the start of what it
    held before), and reading chunks of the same sizes through the input buffer gives them
    back; a read past the end stops the program. *)
Theorem buffered_file_round_trip f0 chunks c c' :
  0 < c → is_u64 c → 0 < c' → is_u64 (Z.of_nat (Nat.max (length f0) (length (concat chunks)))) →
  ∃ s r r', write_all chunks (open_out f0 c 0) = Some s
  ∧ out_file (close s) = concat chunks ++ drop (length (concat chunks)) f0
  ∧ out_fsize (close s) = Z.of_nat (length (concat chunks))
  ∧ open_in (out_file (close s)) c' 0 = Some r
  ∧ reads (map (λ x, Z.of_nat (length x)) chunks) r = Some (chunks, r')
  ∧ ∀ n, is_u64 n → Z.of_nat (Nat.max (length f0) (length (concat chunks))) < Z.of_nat (length (concat chunks)) + n → read n r' = None.
Proof.
  intros Hc Hcu Hc' Hu. destruct (write_all_ok f0 0 chunks [] (open_out f0 c 0)) as (s & Hw & Hs); [lia|apply (open_out_ok f0 c 0); [lia|done|lia]|].
  destruct (close_ok f0 0 _ s ltac:(lia) Hs) as [Hf Hz]. cbn [app] in Hf, Hz.
  assert (out_file (close s) = concat chunks ++ drop (length (concat chunks)) f0) as Hfile by (rewrite Hf; unfold write_at; by rewrite take_0).
  assert (Hlen : length (out_file (close s)) = Nat.max (length f0) (length (concat chunks))) by (rewrite Hfile, length_app, length_drop; lia).
  destruct (open_in_ok (out_file (close s)) c' 0) as (r & Hr & Hok & Hat & Hin); [done|lia|by rewrite Hlen|].
  destruct (cached_reads_ok (map (λ x, Z.of_nat (length x)) chunks) r) as (r' & Hrd & Hok' & Hat' & Hz'); [done|apply Forall_fmap, Forall_forall; intros; simpl; lia| |].
  { rewrite concat_sizes, Hat, (i_size _ Hok), Hin, Hlen. lia. }
  exists s, r, r'. split_and!; [done|done|done|done| |].
  - rewrite Hrd, Hin, Hat, Hfile. do 2 f_equal. apply (pieces_concat chunks _ []).
  - intros n Hn Hend. apply read_past; [done|unfold is_u64 in Hn; lia|done|]. rewrite Hat', concat_sizes, Hat, Hz', (i_size _ Hok), Hin, Hlen. lia.
Qed.

(** Three chunks through a buffer of two bytes, over a file of one, read with a buffer of
    four. *)
Lemma buffered_file_round_trip_witness :
  ∃ s r r', write_all [[1]; [2; 3; 4]; [5]] (open_out [9] 2 0) = Some s ∧ out_file (close s) = [1; 2; 3; 4; 5]
  ∧ open_in (out_file (close s)) 4 0 = Some r ∧ reads [1; 3; 1] r = Some ([[1]; [2; 3; 4]; [5]], r').
Proof.
  destruct (buffered_file_round_trip [9] [[1]; [2; 3; 4]; [5]] 2 4) as (s & r & r' & Hw & Hf & _ & Ho & Hr & _); [lia|done|lia|done|].
  exists s, r, r'. split_and!; [exact Hw|exact Hf|exact Ho|exact Hr].
Defined.

End CachedIO.
