(* ===== verification/FilterUtils.v ===== *)
(** * Sorted id lists ([include/filter/filter_utils.h])

    The union and intersection merges every pre-filter is built from.  A
    [VectorIDList] is a list of 32-bit ids; [id_list] is the representation the
    callers maintain: strictly increasing. *)

From S2P Require Import Prelude.
From stdpp Require Import sorting.

Module Ids.
Open Scope Z_scope.

(** The loop state is what remains of [a] from [i] and of [b] from [j]. *)
Fixpoint or_sorted_unique (a : list Z) : list Z → list Z :=
  fix go (b : list Z) : list Z :=
    match a, b with
    | [], _ => b
    | _, [] => a
    | x :: a', y :: b' =>
        if x <? y then x :: or_sorted_unique a' b
        else if y <? x then y :: go b'
        else x :: or_sorted_unique a' b'
    end.

Fixpoint and_sorted_unique (a : list Z) : list Z → list Z :=
  fix go (b : list Z) : list Z :=
    match a, b with
    | [], _ => []
    | _, [] => []
    | x :: a', y :: b' =>
        if x <? y then and_sorted_unique a' b
        else if y <? x then go b'
        else x :: and_sorted_unique a' b'
    end.

Definition id_list (l : list Z) : Prop := StronglySorted Z.lt l.

(** The boolean test of [std::binary_search] on a sorted list. *)
Definition binary_search (l : list Z) (x : Z) : bool := existsb (Z.eqb x) l.

Lemma binary_search_elem l x : binary_search l x = true ↔ x ∈ l.
Proof.
  unfold binary_search. rewrite existsb_exists. setoid_rewrite Z.eqb_eq.
  rewrite list_elem_of_In. naive_solver.
Qed.

Lemma id_list_cons x l : id_list (x :: l) ↔ (∀ y, y ∈ l → x < y) ∧ id_list l.
Proof.
  unfold id_list. split.
  - intros H. inversion H as [|? ? Hs Hf]; subst. split; [|done]. by apply Forall_forall.
  - intros [Hf Hs]. constructor; [done|]. by apply Forall_forall.
Qed.

Lemma or_elem a b x : x ∈ or_sorted_unique a b ↔ x ∈ a ∨ x ∈ b.
Proof.
  revert b. induction a as [|u a IHa]; intros b; [destruct b; simpl; set_solver|].
  induction b as [|v b IHb]; [simpl; set_solver|]. simpl in *.
  destruct (Z.ltb_spec u v); [rewrite elem_of_cons, IHa; set_solver|].
  destruct (Z.ltb_spec v u); [rewrite elem_of_cons, IHb; set_solver|].
  assert (u = v) as -> by lia. rewrite elem_of_cons, IHa. set_solver.
Qed.

Lemma or_sorted a b : id_list a → id_list b → id_list (or_sorted_unique a b).
Proof.
  revert b. induction a as [|u a IHa]; intros b Ha Hb; [by destruct b|].
  induction b as [|v b IHb]; [done|]. simpl in *.
  apply id_list_cons in Ha as Ha'. destruct Ha' as [Hu Ha'].
  apply id_list_cons in Hb as Hb'. destruct Hb' as [Hv Hb'].
  destruct (Z.ltb_spec u v).
  - apply id_list_cons. split; [|by apply IHa]. intros y Hy. apply or_elem in Hy as [Hy|Hy]; [by apply Hu|].
    apply elem_of_cons in Hy as [->|Hy]; [done|]. specialize (Hv y Hy). lia.
  - destruct (Z.ltb_spec v u).
    + apply id_list_cons. split; [|by apply IHb]. intros y Hy.
      apply (or_elem (u :: a)) in Hy as [Hy|Hy]; [|by apply Hv].
      apply elem_of_cons in Hy as [->|Hy]; [done|]. specialize (Hu y Hy). lia.
    + assert (u = v) as -> by lia. apply id_list_cons. split; [|by apply IHa].
      intros y Hy. apply or_elem in Hy as [Hy|Hy]; [by apply Hu|by apply Hv].
Qed.

Lemma and_subset a b x : x ∈ and_sorted_unique a b → x ∈ a ∧ x ∈ b.
Proof.
  revert b. induction a as [|u a IHa]; intros b; [destruct b; simpl; set_solver|].
  induction b as [|v b IHb]; [simpl; set_solver|]. simpl in *.
  destruct (Z.ltb_spec u v); [intros Hx%IHa; set_solver|].
  destruct (Z.ltb_spec v u); [intros Hx%IHb; set_solver|].
  assert (u = v) as -> by lia. rewrite elem_of_cons. intros [->|Hx%IHa]; set_solver.
Qed.

Lemma and_elem a b x : id_list a → id_list b → x ∈ and_sorted_unique a b ↔ x ∈ a ∧ x ∈ b.
Proof.
  intros Ha Hb. split; [apply and_subset|]. revert b Ha Hb.
  induction a as [|u a IHa]; intros b Ha Hb [Hxa Hxb]; [set_solver|].
  apply id_list_cons in Ha as Ha'. destruct Ha' as [Hu Ha'].
  induction b as [|v b IHb]; [set_solver|].
  apply id_list_cons in Hb as Hb'. destruct Hb' as [Hv Hb']. simpl in *.
  apply elem_of_cons in Hxa. pose proof Hxb as Hxb0. apply elem_of_cons in Hxb0.
  destruct (Z.ltb_spec u v).
  - apply IHa; [done|done|]. split; [|done]. destruct Hxa as [->|]; [|done].
    destruct Hxb0 as [->|Hb1]; [lia|]. specialize (Hv u Hb1). lia.
  - destruct (Z.ltb_spec v u).
    + apply IHb; [done|]. destruct Hxb0 as [->|]; [|done].
      destruct Hxa as [->|Hxa]; [lia|]. specialize (Hu v Hxa). lia.
    + assert (u = v) as -> by lia. apply elem_of_cons.
      destruct Hxa as [->|Hxa]; [by left|]. destruct Hxb0 as [->|Hxb0]; [by left|].
      right. by apply IHa.
Qed.

Lemma and_sorted a b : id_list a → id_list b → id_list (and_sorted_unique a b).
Proof.
  revert b. induction a as [|u a IHa]; intros b Ha Hb; [destruct b; constructor|].
  apply id_list_cons in Ha as Ha'. destruct Ha' as [Hu Ha'].
  induction b as [|v b IHb]; [constructor|].
  apply id_list_cons in Hb as Hb'. destruct Hb' as [Hv Hb']. simpl in *.
  destruct (Z.ltb_spec u v); [by apply IHa|]. destruct (Z.ltb_spec v u); [by apply IHb|].
  apply id_list_cons. split; [|by apply IHa]. intros y Hy. apply and_subset in Hy as [Hy _]. by apply Hu.
Qed.

Lemma id_list_app a b :
  id_list a → id_list b → (∀ x y, x ∈ a → y ∈ b → x < y) → id_list (a ++ b).
Proof.
  intros Ha Hb Hab. induction a as [|x a IH]; [done|].
  apply id_list_cons in Ha as [Hx Ha]. rewrite <- app_comm_cons. apply id_list_cons. split.
  - intros y [Hy|Hy]%elem_of_app; [by apply Hx|]. apply Hab; [by left|done].
  - apply IH; [done|]. intros u w Hu Hw. apply Hab; [by right|done].
Qed.

Lemma id_list_NoDup l : id_list l → NoDup l.
Proof.
  induction l as [|x l IH]; [constructor|]. intros [Hx Hl]%id_list_cons. constructor; [|auto].
  intros Hin. specialize (Hx x Hin). lia.
Qed.

Lemma id_list_unique l l' : id_list l → id_list l' → (∀ x, x ∈ l ↔ x ∈ l') → l = l'.
Proof.
  intros Hl Hl' H. assert (AntiSymm (=) Z.lt) by (intros x y ? ?; lia).
  apply (StronglySorted_unique Z.lt); [done|done|]. apply NoDup_Permutation; auto using id_list_NoDup.
Qed.

Lemma id_list_seqZ m n : id_list (seqZ m n).
Proof.
  destruct (Z.le_gt_cases n 0); [rewrite seqZ_nil by lia; constructor|].
  revert m. pattern n. apply natlike_ind; [| |lia].
  - intros m. rewrite seqZ_nil by lia. constructor.
  - intros k Hk IH m. rewrite seqZ_cons by lia. apply id_list_cons. split.
    + intros y Hy%elem_of_seqZ. lia.
    + rewrite Z.pred_succ. apply IH.
Qed.

Lemma id_list_length l a n : id_list l → a <= n → (∀ x, x ∈ l → a <= x < n) → Z.of_nat (length l) <= n - a.
Proof.
  revert a. induction l as [|x l IH]; intros a Hl Ha Hb; simpl; [lia|].
  apply id_list_cons in Hl as [Hx Hl]. pose proof (Hb x ltac:(by left)).
  assert (Z.of_nat (length l) <= n - (x + 1)); [|lia]. apply IH; [done|lia|].
  intros y Hy. specialize (Hx y Hy). specialize (Hb y ltac:(by right)). lia.
Qed.

(** Merging many lists, as the callers do. *)
Lemma or_fold_elem ls acc x :
  x ∈ foldl or_sorted_unique acc ls ↔ x ∈ acc ∨ ∃ l, l ∈ ls ∧ x ∈ l.
Proof.
  revert acc. induction ls as [|l ls IH]; intros acc; simpl; [set_solver|].
  rewrite IH, or_elem. set_solver.
Qed.

Lemma or_fold_sorted ls acc :
  id_list acc → Forall id_list ls → id_list (foldl or_sorted_unique acc ls).
Proof.
  intros Ha Hl. revert acc Ha. induction Hl as [|l ls Hl _ IH]; intros acc Ha; simpl; [done|].
  by apply IH, or_sorted.
Qed.

Lemma and_fold_elem ls acc x :
  id_list acc → Forall id_list ls →
  x ∈ foldl and_sorted_unique acc ls ↔ x ∈ acc ∧ ∀ l, l ∈ ls → x ∈ l.
Proof.
  intros Ha Hl. revert acc Ha. induction Hl as [|l ls Hl _ IH]; intros acc Ha; simpl; [set_solver|].
  rewrite IH, and_elem by eauto using and_sorted. set_solver.
Qed.

Lemma and_fold_sorted ls acc :
  id_list acc → Forall id_list ls → id_list (foldl and_sorted_unique acc ls).
Proof.
  intros Ha Hl. revert acc Ha. induction Hl as [|l ls Hl _ IH]; intros acc Ha; simpl; [done|].
  by apply IH, and_sorted.
Qed.

End Ids.
