(* ===== verification/StringAttr.v ===== *)
(** * String attributes ([include/filter/attribute.h], lines 24-92 and 1533-1573)

    An [Attribute] is a vector of 32-bit words; a string is packed into it
    little-endian and padded with NUL bytes to a multiple of four.  The file
    covers packing, prefix ranges, the comparison [str_attr_less] and the LIKE
    matcher. *)

From S2P Require Import Prelude Bytes.

Module StringAttr.
Open Scope Z_scope.

Notation Attribute := (list Z) (only parsing).
Notation bytes := (list Z) (only parsing).

(** The bytes of a vector of words. *)
Definition attr_bytes (a : Attribute) : bytes := concat (map (le_bytes 4) a).

Definition pad_of (s : bytes) : nat := ((4 - length s mod 4) mod 4)%nat.

Definition pack_string_attr (s : bytes) : Attribute := words_at (s ++ replicate (pad_of s) 0).

(** [while (len < n && p[len] != 0) len++]. *)
Fixpoint until_nul (s : bytes) : bytes :=
  match s with
  | [] => []
  | c :: s => if c =? 0 then [] else c :: until_nul s
  end.

Definition string_attr_view (a : Attribute) : bytes := until_nul (attr_bytes a).
Definition string_attr_to_string (a : Attribute) : bytes := string_attr_view a.
Definition reverse_string_attr (a : Attribute) : Attribute := pack_string_attr (rev (string_attr_view a)).

(** The loop of [next_string_attr_prefix] from index [i - 1] down. *)
Fixpoint next_prefix_loop (i : nat) (b : bytes) : Attribute :=
  match i with
  | O => []
  | S i =>
      let c := nth i b 0 in
      if c =? 255 then next_prefix_loop i b else pack_string_attr (take i b ++ [c + 1])
  end.

Definition next_string_attr_prefix (prefix : Attribute) : Attribute :=
  next_prefix_loop (length (string_attr_view prefix)) (string_attr_view prefix).

Fixpoint bytes_eqb (s t : bytes) : bool :=
  match s, t with
  | [], [] => true
  | a :: s, b :: t => (a =? b) && bytes_eqb s t
  | _, _ => false
  end.

Definition string_attr_starts_with (s prefix : Attribute) : bool :=
  let sv := string_attr_view s in
  let pv := string_attr_view prefix in
  Nat.leb (length pv) (length sv) && bytes_eqb (take (length pv) sv) pv.

Definition string_attr_ends_with (s suffix : Attribute) : bool :=
  let sv := string_attr_view s in
  let pv := string_attr_view suffix in
  Nat.leb (length pv) (length sv) && bytes_eqb (drop (length sv - length pv) sv) pv.

(** [std::strcmp] on two buffers ([None]: it reads past the end of one of them). *)
Fixpoint strcmp (a b : bytes) : option comparison :=
  match a, b with
  | x :: a, y :: b =>
      if x =? y then (if x =? 0 then Some Eq else strcmp a b) else Some (x ?= y)
  | _, _ => None
  end.

(** The memory [str_attr_less] hands to [strcmp]. *)
Definition c_str (a : Attribute) : bytes := match a with [] => [0] | _ => attr_bytes a end.

Definition str_attr_less (a b : Attribute) : option bool :=
  c ← strcmp (c_str a) (c_str b);
  Some (match c with Lt => true | _ => false end).

(** ** LIKE *)
Definition PERCENT : Z := 37.
Definition UNDERSCORE : Z := 95.

(** The matching loop; [star] and [mark] as in the code.  [None]: out of fuel. *)
Fixpoint like_loop (fuel : nat) (s p : bytes) (i j : nat) (star : option nat) (mark : nat) : option bool :=
  match fuel with
  | O => None
  | S fuel =>
      match s !! i with
      | None => Some (forallb (Z.eqb PERCENT) (drop j p))
      | Some c =>
          let pj := p !! j in
          if match pj with Some d => (d =? UNDERSCORE) || (d =? c) | None => false end
          then like_loop fuel s p (S i) (S j) star mark
          else if match pj with Some d => d =? PERCENT | None => false end
          then like_loop fuel s p i (S j) (Some j) i
          else match star with
               | Some st => like_loop fuel s p (S mark) (S st) star (S mark)
               | None => Some false
               end
      end
  end.

Definition like_fuel (s p : bytes) : nat := ((length s + 2) * (length s + length p + 1) + 1)%nat.
Definition like_match (s p : bytes) : option bool := like_loop (like_fuel s p) s p 0 0 None 0.

Definition is_wild (c : Z) : bool := (c =? PERCENT) || (c =? UNDERSCORE).

Fixpoint fixed_prefix_len (p : bytes) : nat :=
  match p with
  | [] => 0
  | c :: p => if is_wild c then 0 else S (fixed_prefix_len p)
  end.

Definition like_fixed_prefix (pattern : Attribute) : Attribute :=
  let p := string_attr_view pattern in pack_string_attr (take (fixed_prefix_len p) p).

(** The loop counts the bytes behind the last wildcard from the end. *)
Definition like_fixed_suffix (pattern : Attribute) : Attribute :=
  let p := string_attr_view pattern in
  pack_string_attr (drop (length p - fixed_prefix_len (rev p)) p).

(** ** Packing *)

(** A string without NUL bytes. *)
Definition text (s : bytes) : Prop := Forall (λ c, 0 < c < 256) s.

Lemma words_bytes s : (length s mod 4 = 0)%nat → Forall is_byte s → attr_bytes (words_at s) = s.
Proof.
  intros Hm Hb. remember (length s / 4)%nat as k eqn:Hk.
  assert (Hl : (length s = 4 * k)%nat) by (pose proof (Nat.div_mod_eq (length s) 4); lia).
  clear Hk Hm. revert s Hb Hl. induction k as [|k IH]; intros s Hb Hl; [by destruct s|].
  destruct s as [|b0 [|b1 [|b2 [|b3 s]]]]; simpl in Hl; try lia.
  apply Forall_cons in Hb as [H0 Hb]. apply Forall_cons in Hb as [H1 Hb].
  apply Forall_cons in Hb as [H2 Hb]. apply Forall_cons in Hb as [H3 Hb].
  unfold attr_bytes. cbn [words_at map concat]. fold (attr_bytes (words_at s)).
  assert (Forall is_byte [b0; b1; b2; b3]) as Hw by (by rewrite !Forall_cons, Forall_nil).
  pose proof (le_bytes_value [b0; b1; b2; b3] Hw) as E.
  change (length [b0; b1; b2; b3]) with 4%nat in E. rewrite E. by rewrite IH by (done || lia).
Qed.

Lemma pad_of_mod s : ((length s + pad_of s) mod 4 = 0)%nat.
Proof.
  unfold pad_of. pose proof (Nat.div_mod_eq (length s) 4) as Hd.
  pose proof (Nat.mod_upper_bound (length s) 4).
  rewrite Nat.Div0.add_mod_idemp_r.
  replace (length s + (4 - length s mod 4))%nat with ((length s / 4 + 1) * 4)%nat by lia.
  apply Nat.Div0.mod_mul.
Qed.

Lemma pack_bytes s : Forall is_byte s → attr_bytes (pack_string_attr s) = s ++ replicate (pad_of s) 0.
Proof.
  intros Hs. apply words_bytes.
  - rewrite length_app, length_replicate. apply pad_of_mod.
  - apply Forall_app. split; [done|]. apply Forall_replicate. unfold is_byte. lia.
Qed.

Lemma text_is_byte s : text s → Forall is_byte s.
Proof. intros Hs. eapply Forall_impl; [exact Hs|]. intros c Hc. unfold is_byte. simpl in Hc. lia. Qed.

Lemma until_nul_text s : Forall is_byte s → text (until_nul s).
Proof.
  intros H. induction H as [|c s Hc _ IH]; simpl; [constructor|]. unfold is_byte in Hc.
  case_if; [constructor|]. constructor; [lia|done].
Qed.

Lemma until_nul_app s rest : text s → until_nul (s ++ 0 :: rest) = s.
Proof.
  induction 1 as [|c s Hc _ IH]; simpl; [done|]. rewrite (proj2 (Z.eqb_neq _ _)) by lia. by rewrite IH.
Qed.

Lemma until_nul_id s : text s → until_nul s = s.
Proof.
  induction 1 as [|c s Hc _ IH]; simpl; [done|]. rewrite (proj2 (Z.eqb_neq _ _)) by lia. by rewrite IH.
Qed.

Lemma view_pack s : text s → string_attr_view (pack_string_attr s) = s.
Proof.
  intros Hs. unfold string_attr_view. rewrite pack_bytes by (by apply text_is_byte).
  destruct (pad_of s) as [|n]; simpl; [by rewrite app_nil_r, until_nul_id|by apply until_nul_app].
Qed.

(** ** Prefix ranges *)

(** Lexicographic order of byte strings. *)
Fixpoint lex_lt (s t : bytes) : bool :=
  match s, t with
  | _, [] => false
  | [], _ :: _ => true
  | a :: s, b :: t => (a <? b) || ((a =? b) && lex_lt s t)
  end.

Lemma bytes_eqb_eq s t : bytes_eqb s t = true ↔ s = t.
Proof.
  revert t. induction s as [|a s IH]; intros [|b t]; simpl; try done.
  rewrite andb_true_iff, Z.eqb_eq, IH. naive_solver.
Qed.

Lemma starts_with_prefix s p :
  string_attr_starts_with s p = true ↔ string_attr_view p `prefix_of` string_attr_view s.
Proof.
  unfold string_attr_starts_with. rewrite andb_true_iff, Nat.leb_le, bytes_eqb_eq. split.
  - intros [_ <-]. apply prefix_take.
  - intros [k ->]. rewrite length_app, take_app_length. split; [lia|done].
Qed.

Lemma ends_with_suffix s p :
  string_attr_ends_with s p = true ↔ string_attr_view p `suffix_of` string_attr_view s.
Proof.
  unfold string_attr_ends_with. rewrite andb_true_iff, Nat.leb_le, bytes_eqb_eq. split.
  - intros [_ <-]. eexists. symmetry. apply take_drop.
  - intros [k ->]. rewrite length_app. split; [lia|].
    replace (length k + length (string_attr_view p) - length (string_attr_view p))%nat with (length k) by lia.
    by rewrite drop_app_length.
Qed.

(** A string below another one's prefix range is below the prefix. *)
Lemma lex_app p s t : lex_lt (p ++ s) (p ++ t) = lex_lt s t.
Proof. induction p as [|a p IH]; simpl; [done|]. by rewrite Z.ltb_irrefl, Z.eqb_refl, IH. Qed.

Lemma lex_nil s : lex_lt s [] = false.
Proof. by destruct s. Qed.

(** The bytes between [q ++ [c] ++ 255...] and [q ++ [c + 1]]. *)
Lemma lex_range q c k s :
  text s → 0 < c < 255 →
  (lex_lt s (q ++ c :: replicate k 255) = false ∧ lex_lt s (q ++ [c + 1]) = true)
  ↔ (q ++ c :: replicate k 255) `prefix_of` s.
Proof.
  revert s. induction q as [|a q IH]; intros s Hs Hc; simpl.
  - destruct s as [|b s]; simpl.
    { split; [intros [? _]; done|]. intros [? ?]; done. }
    apply Forall_cons in Hs as [Hb Hs].
    assert (Hk : lex_lt s (replicate k 255) = false ↔ replicate k 255 `prefix_of` s).
    { clear Hb. revert s Hs. induction k as [|k IHk]; intros s Hs; simpl.
      - rewrite lex_nil. split; [intros _; apply prefix_nil|done].
      - destruct s as [|d s]; simpl; [split; [done|intros [? ?]; done]|].
        apply Forall_cons in Hs as [Hd Hs].
        rewrite orb_false_iff, Z.ltb_ge. destruct (Z.eqb_spec d 255) as [->|Hne]; simpl.
        + rewrite IHk by done. split; [intros [_ H]; by apply prefix_cons|].
          intros H. split; [lia|by apply prefix_cons_inv_2 in H].
        + split; [intros [H _]; lia|]. intros H. by apply prefix_cons_inv_1 in H. }
    rewrite lex_nil, andb_false_r, orb_false_r, orb_false_iff, Z.ltb_ge, Z.ltb_lt.
    destruct (Z.eqb_spec b c) as [->|Hne]; simpl.
    + rewrite Hk. split; [intros [[_ H] _]; by apply prefix_cons|].
      intros H. split_and!; [lia|by apply prefix_cons_inv_2 in H|lia].
    + split; [intros [[? _] ?]; lia|]. intros H. by apply prefix_cons_inv_1 in H.
  - destruct s as [|b s]; simpl.
    { split; [intros [? _]; done|]. intros [? ?]; done. }
    apply Forall_cons in Hs as [Hb Hs]. rewrite orb_false_iff, orb_true_iff, !Z.ltb_ge, !Z.ltb_lt.
    destruct (Z.eqb_spec b a) as [->|Hne]; simpl.
    + specialize (IH s Hs Hc). split.
      * intros [[_ H1] [H2|H2]]; [lia|]. apply prefix_cons, IH. done.
      * intros H%prefix_cons_inv_2%IH. naive_solver lia.
    + split; [intros [[? _] [?|?]]; [lia|done]|]. intros H. by apply prefix_cons_inv_1 in H.
Qed.

(** Every string splits into a head and a block of trailing 255s. *)
Lemma next_prefix_loop_spec i (b : bytes) :
  text b → (i <= length b)%nat →
  (next_prefix_loop i b = [] ∧ take i b = replicate i 255)
  ∨ ∃ q c k, take i b = q ++ c :: replicate k 255 ∧ c ≠ 255
     ∧ next_prefix_loop i b = pack_string_attr (q ++ [c + 1]) ∧ 0 < c < 255 ∧ text q.
Proof.
  intros Hb. induction i as [|i IH]; intros Hi; [by left|]. cbn [next_prefix_loop].
  destruct (lookup_lt_is_Some_2 b i) as [c Hc]; [lia|].
  rewrite (nth_lookup_Some _ _ _ _ Hc), (take_S_r _ _ _ Hc).
  assert (0 < c < 256) as Hcr by (apply (Forall_lookup_1 _ _ _ _ Hb Hc)).
  case_if.
  - subst c. destruct (IH ltac:(lia)) as [[-> Ht]|(q & c & k & Ht & Hne & -> & Hr & Hq)].
    + left. split; [done|]. rewrite Ht, <- (replicate_cons_app i 255). done.
    + right. exists q, c, (S k). split_and!; try done; try lia. rewrite Ht, <- app_assoc. simpl.
      by rewrite <- replicate_cons_app.
  - right. exists (take i b), c, 0%nat. split_and!; try done; try lia. by apply Forall_take.
Qed.

Lemma lex_all_255 n s : text s → lex_lt s (replicate n 255) = false ↔ replicate n 255 `prefix_of` s.
Proof.
  revert s. induction n as [|n IH]; intros s Hs; simpl.
  - rewrite lex_nil. split; [intros _; apply prefix_nil|done].
  - destruct s as [|d s]; simpl; [split; [done|intros [? ?]; done]|].
    apply Forall_cons in Hs as [Hd Hs]. rewrite orb_false_iff, Z.ltb_ge.
    destruct (Z.eqb_spec d 255) as [->|Hne]; simpl.
    + rewrite IH by done. split; [intros [_ H]; by apply prefix_cons|].
      intros H. split; [lia|by apply prefix_cons_inv_2 in H].
    + split; [intros [H _]; lia|]. intros H. by apply prefix_cons_inv_1 in H.
Qed.

Lemma attr_view_text a : text (string_attr_view a).
Proof.
  apply until_nul_text. unfold attr_bytes. induction a as [|w a IH]; cbn [map concat]; [constructor|].
  apply Forall_app. split; [|done]. apply (le_bytes_is_byte 4).
Qed.

(** the half-open range [prefix, next_string_attr_prefix(prefix)) contains
    exactly the strings that start with the prefix, an empty upper bound standing
    for no bound: the range scans of the string index are exact for prefix and
    (on reversed strings) suffix queries. *)
Theorem prefix_range_exact s prefix :
  string_attr_starts_with s prefix
  = negb (lex_lt (string_attr_view s) (string_attr_view prefix))
    && match next_string_attr_prefix prefix with
       | [] => true
       | hi => lex_lt (string_attr_view s) (string_attr_view hi)
       end.
Proof.
  apply eq_true_iff_eq. rewrite starts_with_prefix, andb_true_iff, negb_true_iff.
  pose proof (attr_view_text s) as Hs. pose proof (attr_view_text prefix) as Hp.
  unfold next_string_attr_prefix. set (p := string_attr_view prefix) in *.
  destruct (next_prefix_loop_spec (length p) p Hp ltac:(lia)) as [[-> Ht]|(q & c & k & Ht & Hne & -> & Hr & Hq)];
    rewrite take_ge in Ht by lia.
  - rewrite Ht. rewrite lex_all_255 by done. tauto.
  - rewrite Ht. destruct (pack_string_attr (q ++ [c + 1])) as [|w ws] eqn:Hpk.
    { exfalso. assert (Hv : string_attr_view (pack_string_attr (q ++ [c + 1])) = q ++ [c + 1]).
      { apply view_pack, Forall_app. split; [done|]. constructor; [lia|constructor]. }
      rewrite Hpk in Hv. by destruct q. }
    rewrite <- Hpk, view_pack, lex_range by (try apply Forall_app; split_and?; repeat constructor; done || lia).
    done.
Qed.

(** ** Comparison *)

(** [strcmp] on two NUL-terminated strings. *)
Lemma strcmp_terminated s t r1 r2 :
  text s → text t →
  ∃ c, strcmp (s ++ 0 :: r1) (t ++ 0 :: r2) = Some c ∧ (c = Lt ↔ lex_lt s t = true).
Proof.
  intros Hs. revert t. induction Hs as [|a s Ha _ IH]; intros [|b t] Ht; simpl.
  - by exists Eq.
  - apply Forall_cons in Ht as [Hb _]. destruct b as [|b|b]; [lia| |lia]. by exists Lt.
  - destruct a as [|a|a]; [lia| |lia]. by exists Gt.
  - apply Forall_cons in Ht as [Hb Ht]. destruct (Z.eqb_spec a b) as [->|Hne].
    + rewrite (proj2 (Z.eqb_neq b 0)) by lia. rewrite Z.ltb_irrefl. simpl. by apply IH.
    + eexists. split; [done|]. simpl. rewrite orb_false_r, Z.ltb_lt. apply Z.compare_lt_iff.
Qed.

(** The buffer of a packed string ends in a NUL byte unless its length is a
    positive multiple of four. *)
Lemma c_str_terminated s :
  text s → (s = [] ∨ (length s mod 4 ≠ 0)%nat) → ∃ r, c_str (pack_string_attr s) = s ++ 0 :: r.
Proof.
  intros Hs [->|Hm]; [by exists []|].
  assert (c_str (pack_string_attr s) = attr_bytes (pack_string_attr s)) as ->.
  { destruct (pack_string_attr s) eqn:Hp; [|done]. exfalso.
    pose proof (view_pack s Hs) as Hv. rewrite Hp in Hv. simpl in Hv. subst s. done. }
  rewrite pack_bytes by (by apply text_is_byte).
  assert (pad_of s ≠ 0)%nat.
  { unfold pad_of. pose proof (Nat.mod_upper_bound (length s) 4). rewrite Nat.mod_small; lia. }
  destruct (pad_of s) as [|n]; [done|]. by exists (replicate n 0).
Qed.

Lemma strcmp_overread s : text s → strcmp s s = None.
Proof.
  induction 1 as [|a s Ha _ IH]; simpl; [done|].
  by rewrite Z.eqb_refl, (proj2 (Z.eqb_neq a 0)) by lia.
Qed.

Lemma str_attr_less_correct s t :
  text s → text t → (s = [] ∨ (length s mod 4 ≠ 0)%nat) → (t = [] ∨ (length t mod 4 ≠ 0)%nat) →
  str_attr_less (pack_string_attr s) (pack_string_attr t) = Some (lex_lt s t).
Proof.
  intros Hs Ht Hls Hlt. unfold str_attr_less.
  destruct (c_str_terminated s Hs Hls) as [r1 ->]. destruct (c_str_terminated t Ht Hlt) as [r2 ->].
  destruct (strcmp_terminated s t r1 r2 Hs Ht) as (c & -> & Hc). simpl. f_equal.
  apply eq_true_iff_eq. rewrite <- Hc. by destruct c.
Qed.

(** [str_attr_less] orders strings lexicographically when both packed
    buffers end in a NUL byte; a non-empty string whose length is a multiple of
    four is packed without one, and comparing it with itself reads past the end of
    the vector. *)
Theorem str_attr_less_overreads s t :
  text s → text t →
  ((s = [] ∨ (length s mod 4 ≠ 0)%nat) → (t = [] ∨ (length t mod 4 ≠ 0)%nat) →
     str_attr_less (pack_string_attr s) (pack_string_attr t) = Some (lex_lt s t))
  ∧ (s ≠ [] → (length s mod 4 = 0)%nat → str_attr_less (pack_string_attr s) (pack_string_attr s) = None).
Proof.
  intros Hs Ht. split; [by apply str_attr_less_correct|]. intros Hne Hm. unfold str_attr_less.
  assert (c_str (pack_string_attr s) = s) as ->.
  { assert (attr_bytes (pack_string_attr s) = s) as Hb.
    { rewrite pack_bytes by (by apply text_is_byte). unfold pad_of. rewrite Hm. simpl. by rewrite app_nil_r. }
    destruct (pack_string_attr s) eqn:Hp; [by simpl in Hb; subst|]. exact Hb. }
  by rewrite strcmp_overread.
Qed.

(** "abc" < "abd"; "abcd" with itself. *)
Lemma str_attr_less_overreads_witness :
  str_attr_less (pack_string_attr [97; 98; 99]) (pack_string_attr [97; 98; 100]) = Some true
  ∧ str_attr_less (pack_string_attr [97; 98; 99; 100]) (pack_string_attr [97; 98; 99; 100]) = None.
Proof.
  assert (text [97; 98; 99]) as H1 by (unfold text; rewrite !Forall_cons; split_and!; (lia || constructor)).
  assert (text [97; 98; 100]) as H2 by (unfold text; rewrite !Forall_cons; split_and!; (lia || constructor)).
  assert (text [97; 98; 99; 100]) as H3 by (unfold text; rewrite !Forall_cons; split_and!; (lia || constructor)).
  split.
  - apply (str_attr_less_overreads _ _ H1 H2); right; done.
  - apply (str_attr_less_overreads _ _ H3 H3); done.
Defined.

(** ** LIKE: the specification

    [%] matches any run of characters, [_] any one character. *)
Inductive like : bytes → bytes → Prop :=
  | like_nil : like [] []
  | like_percent s1 s2 p : like s2 p → like (s1 ++ s2) (PERCENT :: p)
  | like_underscore c s p : like s p → like (c :: s) (UNDERSCORE :: p)
  | like_char c s p : c ≠ PERCENT → c ≠ UNDERSCORE → like s p → like (c :: s) (c :: p).

Lemma percent_ne_underscore : PERCENT ≠ UNDERSCORE.
Proof. done. Qed.

Local Opaque PERCENT UNDERSCORE.

Lemma like_percent_drop s p : like s (PERCENT :: p) ↔ ∃ k, like (drop k s) p.
Proof.
  split.
  - intros H. inversion H; subst; [|done]. exists (length s1). by rewrite drop_app_length.
  - intros [k Hk]. rewrite <- (take_drop k s). by constructor.
Qed.

(** A step over one character that is not a wildcard run. *)
Definition char_ok (d c : Z) : Prop := d ≠ PERCENT ∧ (d = UNDERSCORE ∨ d = c).

Lemma like_cons c s d p : d ≠ PERCENT → like (c :: s) (d :: p) ↔ char_ok d c ∧ like s p.
Proof.
  intros Hd. unfold char_ok. split.
  - intros H. inversion H; subst; try done; split_and!; auto.
  - intros [[_ [->| ->]] H]; [by constructor|].
    destruct (decide (c = UNDERSCORE)) as [->|]; by constructor.
Qed.

Lemma like_nil_percents p : like [] p ↔ forallb (Z.eqb PERCENT) p = true.
Proof.
  induction p as [|d p IH]; simpl; [split; [done|constructor]|]. rewrite andb_true_iff, Z.eqb_eq. split.
  - intros H. inversion H as [|s1 s2 p' Hp Hs| |]; subst. split; [done|]. apply IH.
    by apply app_eq_nil in Hs as [-> ->].
  - intros [<- H%IH]. apply (like_percent [] []). done.
Qed.

(** Every percent-free piece consumes as many characters as it has. *)
Lemma like_piece q p s :
  PERCENT ∉ q → like s (q ++ p) → (length q <= length s)%nat ∧ like (drop (length q) s) p.
Proof.
  revert s. induction q as [|d q IH]; intros s Hq H; simpl; [split; [lia|by rewrite drop_0]|].
  apply not_elem_of_cons in Hq as [Hd Hq]. destruct s as [|c s].
  - apply like_nil_percents in H. simpl in H. rewrite andb_true_iff, Z.eqb_eq in H. by destruct H.
  - apply like_cons in H as [_ H]; [|done]. destruct (IH s Hq H) as [Hl Hk]. simpl. split; [lia|done].
Qed.

(** The loop's invariant: the text since [mark] matched, piece by piece, the
    percent-free pattern since [star]. *)
Record like_inv (s p : bytes) (i j : nat) (star : option nat) (mark : nat) : Prop := mkLikeInv {
  li_i : (i <= length s)%nat;
  li_j : (j <= length p)%nat;
  li_star : match star with
            | None => True
            | Some st => ∃ q, drop (S st) p = q ++ drop j p ∧ PERCENT ∉ q ∧ i = (mark + length q)%nat
                         ∧ (S st + length q = j)%nat
            end
}.

(** What the remaining iterations decide. *)
Definition like_rest (s p : bytes) (i j : nat) (star : option nat) (mark : nat) : Prop :=
  like (drop i s) (drop j p)
  ∨ match star with
    | None => False
    | Some st => ∃ k, (0 < k)%nat ∧ (mark + k <= length s)%nat ∧ like (drop (mark + k) s) (drop (S st) p)
    end.

Definition like_measure (s p : bytes) (i j : nat) (star : option nat) (mark : nat) : nat :=
  (match star with None => length s + 1 | Some _ => length s - mark end * (length s + length p + 1)
   + (length s - i) + (length p - j))%nat.

Section like_steps.
Context (s p : bytes) (i j : nat) (star : option nat) (mark : nat).
Hypothesis Hinv : like_inv s p i j star mark.

(** At the end of the text no later restart can succeed. *)
Lemma like_rest_end : (length s <= i)%nat →
  like_rest s p i j star mark ↔ forallb (Z.eqb PERCENT) (drop j p) = true.
Proof.
  intros Hi. destruct Hinv as [Hi' _ Hst]. unfold like_rest. rewrite drop_ge by lia.
  rewrite like_nil_percents. split; [intros [H|H]; [done|]|by left].
  destruct star as [st|]; [|done]. destruct H as (k & Hk & Hle & H).
  destruct Hst as (q & Hq & Hnp & -> & _). rewrite Hq in H.
  apply like_piece in H as [Hl _]; [|done]. rewrite length_drop in Hl. lia.
Qed.

Lemma like_rest_char c d :
  s !! i = Some c → p !! j = Some d → d ≠ PERCENT → d = UNDERSCORE ∨ d = c →
  like_rest s p i j star mark ↔ like_rest s p (S i) (S j) star mark.
Proof.
  intros Hc Hd Hnp Hok. unfold like_rest. rewrite (drop_S _ _ _ Hc), (drop_S _ _ _ Hd).
  rewrite like_cons by done. unfold char_ok. tauto.
Qed.

(** A new run of [%] subsumes every restart of the previous one. *)
Lemma like_rest_percent :
  (i < length s)%nat → p !! j = Some PERCENT →
  like_rest s p i j star mark ↔ like_rest s p i (S j) (Some j) i.
Proof.
  intros Hi Hd. destruct Hinv as [_ _ Hst]. unfold like_rest. rewrite (drop_S _ _ _ Hd).
  rewrite like_percent_drop. split.
  - assert (∀ k, like (drop (i + k) s) (drop (S j) p) →
      like (drop i s) (drop (S j) p)
      ∨ ∃ k, (0 < k)%nat ∧ (i + k <= length s)%nat ∧ like (drop (i + k) s) (drop (S j) p)) as Hgo.
    { intros [|k] H; [left; by rewrite Nat.add_0_r in H|right].
      destruct (decide (i + S k <= length s)%nat); [exists (S k); split_and!; [lia|done|done]|].
      exists (length s - i)%nat. split_and!; [lia|lia|].
      rewrite drop_ge in H by lia. by rewrite drop_ge by lia. }
    intros [[k H]|H].
    + apply (Hgo k). by rewrite drop_drop in H.
    + destruct star as [st|]; [|done]. destruct H as (k & Hk & Hle & H).
      destruct Hst as (q & Hq & Hnp & Hiq & _). rewrite Hq in H.
      apply like_piece in H as [Hl H]; [|done]. rewrite (drop_S _ _ _ Hd) in H.
      apply like_percent_drop in H as [k2 H]. rewrite !drop_drop in H.
      apply (Hgo (k + k2)%nat).
      match type of H with like (drop ?n s) _ => replace n with (i + (k + k2))%nat in H by lia end. exact H.
  - intros [H|(k & _ & _ & H)]; left; [exists 0%nat; rewrite drop_0; exact H|exists k; by rewrite drop_drop].
Qed.

Lemma like_rest_restart st :
  (i < length s)%nat → star = Some st → ¬ like (drop i s) (drop j p) →
  like_rest s p i j star mark ↔ like_rest s p (S mark) (S st) star (S mark).
Proof.
  intros Hi -> Hno. destruct Hinv as [_ _ (q & Hq & Hnp & Hiq & _)]. unfold like_rest. split.
  - intros [H|(k & Hk & Hle & H)]; [done|]. destruct k as [|[|k]]; [lia| |].
    + left. by rewrite Nat.add_1_r in H.
    + right. exists (S k). split_and!; [lia|lia|]. by replace (S mark + S k)%nat with (mark + S (S k))%nat by lia.
  - intros [H|(k & Hk & Hle & H)]; right.
    + exists 1%nat. rewrite Nat.add_1_r. split_and!; [lia|lia|done].
    + exists (S k). replace (mark + S k)%nat with (S mark + k)%nat by lia. split_and!; [lia|lia|done].
Qed.
End like_steps.

Lemma like_loop_correct fuel s p i j star mark :
  PERCENT ∉ s → like_inv s p i j star mark → (like_measure s p i j star mark < fuel)%nat →
  ∃ b, like_loop fuel s p i j star mark = Some b ∧ (b = true ↔ like_rest s p i j star mark).
Proof.
  intros Hns. revert i j star mark. induction fuel as [|fuel IH]; intros i j star mark Hinv Hm; [lia|].
  cbn [like_loop]. pose proof Hinv as [Hi Hj Hst].
  destruct (s !! i) as [c|] eqn:Hc.
  2:{ apply lookup_ge_None in Hc. eexists. split; [done|]. by rewrite like_rest_end. }
  pose proof (lookup_lt_Some _ _ _ Hc) as Hlt.
  assert (c ≠ PERCENT) as Hcp by (intros ->; by apply list_elem_of_lookup_2 in Hc).
  destruct (match p !! j with Some d => (d =? UNDERSCORE) || (d =? c) | None => false end) eqn:E1.
  { destruct (p !! j) as [d|] eqn:Hd; [|done]. pose proof (lookup_lt_Some _ _ _ Hd).
    assert (d = UNDERSCORE ∨ d = c) as Hok by (apply orb_true_iff in E1; rewrite !Z.eqb_eq in E1; done).
    assert (d ≠ PERCENT) as Hdp by (destruct Hok as [->| ->]; [apply not_eq_sym, percent_ne_underscore|done]).
    setoid_rewrite (like_rest_char s p i j star mark c d Hc Hd Hdp Hok). apply IH.
    - split; [lia|lia|]. destruct star as [st|]; [|done]. destruct Hst as (q & Hq & Hnp & -> & Hsj).
      exists (q ++ [d]). rewrite length_app. simpl. split_and!; [|set_solver|lia|lia].
      rewrite Hq, (drop_S _ _ _ Hd), <- app_assoc. done.
    - unfold like_measure in *. destruct star; lia. }
  destruct (match p !! j with Some d => d =? PERCENT | None => false end) eqn:E2.
  { destruct (p !! j) as [d|] eqn:Hd; [|done]. pose proof (lookup_lt_Some _ _ _ Hd).
    apply Z.eqb_eq in E2 as ->. setoid_rewrite (like_rest_percent s p i j star mark Hinv Hlt Hd). apply IH.
    - split; [lia|lia|]. exists []. simpl. split_and!; [done|set_solver|lia|lia].
    - unfold like_measure in *. destruct star as [st|]; [destruct Hst as (q & _ & _ & -> & _)|]; nia. }
  assert (Hno : ¬ like (drop i s) (drop j p)).
  { rewrite (drop_S _ _ _ Hc). destruct (p !! j) as [d|] eqn:Hd.
    - rewrite (drop_S _ _ _ Hd). apply orb_false_iff in E1 as [E1 E1']. bool_to_prop.
      rewrite like_cons by done. unfold char_ok. by intros [[_ [?|?]] _].
    - apply lookup_ge_None in Hd. rewrite (drop_ge p) by lia. intros H. inversion H. }
  destruct star as [st|] eqn:Hs.
  - destruct Hst as (q & Hq & Hnp & Hiq & Hsj).
    setoid_rewrite (like_rest_restart s p i j (Some st) mark Hinv st Hlt eq_refl Hno). apply IH.
    + split; [lia|lia|]. exists []. simpl. split_and!; [done|set_solver|lia|lia].
    + unfold like_measure in *. nia.
  - exists false. split; [done|]. unfold like_rest. split; [done|]. by intros [?|?].
Qed.

(** On any text the loop returns. *)
Lemma like_loop_total fuel s p i j star mark :
  (i <= length s)%nat → (j <= length p)%nat → (∀ st, star = Some st → (mark <= i)%nat ∧ (st < length p)%nat) →
  (like_measure s p i j star mark < fuel)%nat → ∃ b, like_loop fuel s p i j star mark = Some b.
Proof.
  revert i j star mark. induction fuel as [|fuel IH]; intros i j star mark Hi Hj Hst Hm; [lia|].
  cbn [like_loop]. destruct (s !! i) as [c|] eqn:Hc; [|eauto].
  pose proof (lookup_lt_Some _ _ _ Hc) as Hlt.
  assert (∀ d, p !! j = Some d → (j < length p)%nat) as Hjp by (intros d; apply lookup_lt_Some).
  destruct (match p !! j with Some d => (d =? UNDERSCORE) || (d =? c) | None => false end) eqn:E1.
  { destruct (p !! j) as [d|] eqn:Hd; [|done]. specialize (Hjp d eq_refl). apply IH; [lia|lia| |].
    - intros st ->. destruct (Hst st eq_refl). lia.
    - unfold like_measure in *. destruct star; lia. }
  destruct (match p !! j with Some d => d =? PERCENT | None => false end) eqn:E2.
  { destruct (p !! j) as [d|] eqn:Hd; [|done]. specialize (Hjp d eq_refl). apply IH; [lia|lia| |].
    - intros st [= <-]. lia.
    - unfold like_measure in *. destruct star as [st|]; [destruct (Hst st eq_refl)|]; nia. }
  destruct star as [st|]; [|eauto]. destruct (Hst st eq_refl). apply IH; [lia|lia| |].
  - intros st' [= <-]. lia.
  - unfold like_measure in *. nia.
Qed.

Lemma like_match_total s p : ∃ b, like_match s p = Some b.
Proof.
  apply like_loop_total; [lia|lia|done|]. unfold like_measure, like_fuel. nia.
Qed.

Lemma like_match_spec s p :
  PERCENT ∉ s → ∃ b, like_match s p = Some b ∧ (b = true ↔ like s p).
Proof.
  intros Hns. destruct (like_loop_correct (like_fuel s p) s p 0 0 None 0) as (b & Hb & Hr); [done|..].
  - split; [lia|lia|done].
  - unfold like_measure, like_fuel. nia.
  - exists b. split; [done|]. rewrite Hr. unfold like_rest. rewrite !drop_0. tauto.
Qed.

(** Patterns without wildcards, and with one [%] at an end. *)
Definition plain (p : bytes) : Prop := PERCENT ∉ p ∧ UNDERSCORE ∉ p.

Lemma like_plain_app q p s : plain q → like s (q ++ p) ↔ ∃ s', s = q ++ s' ∧ like s' p.
Proof.
  intros [Hp Hu]. revert s. induction q as [|d q IH]; intros s; simpl; [naive_solver|].
  apply not_elem_of_cons in Hp as [Hp Hp'], Hu as [Hu Hu']. destruct s as [|c s].
  - rewrite like_nil_percents. simpl. rewrite andb_true_iff, Z.eqb_eq. naive_solver.
  - rewrite like_cons by done. rewrite IH by done. unfold char_ok. split.
    + intros [[_ [Hd|Hd]] (s' & -> & H)]; [by rewrite Hd in Hu|]. subst. by exists s'.
    + intros (s' & [= -> ->] & H). split; [split; [done|by right]|]. by exists s'.
Qed.

Lemma like_nil_inv s : like s [] ↔ s = [].
Proof. split; [by inversion 1|]. intros ->. constructor. Qed.

Lemma like_any s : like s [PERCENT].
Proof. rewrite <- (app_nil_r s). constructor. constructor. Qed.

Lemma like_exact p s : plain p → like s p ↔ s = p.
Proof.
  intros Hp. rewrite <- (app_nil_r p) at 1. rewrite like_plain_app by done. setoid_rewrite like_nil_inv. split.
  - intros (s' & -> & ->). by rewrite app_nil_r.
  - intros ->. exists []. by rewrite app_nil_r.
Qed.

Lemma like_prefix p s : plain p → like s (p ++ [PERCENT]) ↔ p `prefix_of` s.
Proof.
  intros Hp. rewrite like_plain_app by done. split.
  - intros (s' & -> & _). by exists s'.
  - intros [s' ->]. exists s'. split; [done|apply like_any].
Qed.

Lemma like_suffix p s : plain p → like s (PERCENT :: p) ↔ p `suffix_of` s.
Proof.
  intros Hp. rewrite like_percent_drop. setoid_rewrite (like_exact p _ Hp). split.
  - intros [k <-]. exists (take k s). by rewrite take_drop.
  - intros [s' ->]. exists (length s'). by rewrite drop_app_length.
Qed.

(** [like_match] implements LIKE on every text that contains no [%]: it
    terminates and returns true exactly when the pattern matches, [%] standing for
    any run and [_] for any character, although it keeps only the last [%] to
    restart from. *)
Theorem like_match_correct s p :
  PERCENT ∉ s → ∃ b, like_match s p = Some b ∧ (b = true ↔ like s p).
Proof.
  apply like_match_spec.
Qed.

(** "abcb" LIKE "a%b". *)
Lemma like_match_correct_witness :
  like_match [97; 98; 99; 98] [97; 37; 98] = Some true ∧ like [97; 98; 99; 98] [97; 37; 98].
Proof.
  assert (like_match [97; 98; 99; 98] [97; 37; 98] = Some true) as Hm by reflexivity.
  split; [exact Hm|].
  destruct (like_match_correct [97; 98; 99; 98] [97; 37; 98]) as (b & Hb & Hr).
  { apply (bool_decide_unpack _). by vm_compute. }
  rewrite Hm in Hb. injection Hb as <-. by apply Hr.
Defined.

(** a literal [%] in the text defeats the [%] wildcard: the equal-character
    test comes first and consumes it as an ordinary character, so the text "%a"
    does not match the pattern "%", which matches every text. *)
Theorem like_match_percent_text :
  like_match [PERCENT; 97] [PERCENT] = Some false ∧ ∀ s, like s [PERCENT].
Proof.
  split; [reflexivity|]. intros s. rewrite <- (app_nil_r s). apply like_percent, like_nil.
Qed.

End StringAttr.
