(* ===== verification/Attributes.v ===== *)
(** * Attribute records ([include/filter/attribute.h], lines 125-204, 2129-2296)

    The attributes of a vector are key-value pairs, serialised into the node
    record on disk and read back for exact verification.  An
    [std::unordered_map] is a finite map; the order in which it is iterated is
    unspecified, so [serialize] is a function of any enumeration of the map. *)

From S2P Require Import Prelude Bytes StringAttr.

Module Attributes.
Open Scope Z_scope.

Notation Attributes := (gmap Z (list Z)) (only parsing).

Definition find (a : Attributes) (key : Z) : bool := match a !! key with Some _ => true | None => false end.
Definition get (a : Attributes) (key : Z) : option (list Z) := a !! key.
Definition set (a : Attributes) (key : Z) (attr : list Z) : Attributes := <[key := attr]> a.
Definition remove (a : Attributes) (key : Z) : Attributes := delete key a.
Definition clear (a : Attributes) : Attributes := ∅.

(** An iteration order of the map. *)
Definition enumerates (l : list (Z * list Z)) (a : Attributes) : Prop := l ≡ₚ map_to_list a.

Definition serialized_size (l : list (Z * list Z)) : nat :=
  (4 * (1 + sum_list_with (λ '(_, attr), 2 + length attr) l))%nat.

Definition serialize_entry (e : Z * list Z) : list Z :=
  let '(key, attr) := e in
  le_bytes 4 key ++ le_bytes 4 (u32 (Z.of_nat (length attr))) ++ words attr.

Definition serialize (l : list (Z * list Z)) : list Z :=
  le_bytes 4 (u32 (Z.of_nat (length l))) ++ concat (map serialize_entry l).

(** [memcpy] of [n] words. *)
Fixpoint read_words (n : nat) (buf : list Z) : option (list Z * list Z) :=
  match n with
  | O => Some ([], buf)
  | S n =>
      '(w, buf) ← read_le 4 buf;
      '(ws, buf) ← read_words n buf;
      Some (w :: ws, buf)
  end.

(** The loop of [deserialize]; [None]: it reads past the end of the buffer. *)
Fixpoint deserialize_loop (size : nat) (buf : list Z) (ret : Attributes) : option Attributes :=
  match size with
  | O => Some ret
  | S size =>
      '(key, buf) ← read_le 4 buf;
      '(n_attrs, buf) ← read_le 4 buf;
      '(attr, buf) ← read_words (Z.to_nat n_attrs) buf;
      deserialize_loop size buf (set ret key attr)
  end.

Definition deserialize (buf : list Z) : option Attributes :=
  '(size, buf) ← read_le 4 buf;
  deserialize_loop (Z.to_nat size) buf ∅.

(** ** The writers: what ends up in the [attr_size] bytes of a node record *)

(** [AttrIndexWriter]: one index per key, [get] its value of a vector, [max_attrs]
    its longest row.  The map [attrs_] is a [std::map]: iterated by key. *)
Record AttrIndexWriter := mkAIW {
  aiw_attrs : list (Z * ((Z → list Z) * nat));
  aiw_attr_size : nat
}.

Definition aiw_size (w : AttrIndexWriter) : nat :=
  if Nat.eqb (aiw_attr_size w) 0
  then (4 * (1 + sum_list_with (λ '(_, (_, max_attrs)), 2 + max_attrs) (aiw_attrs w)))%nat
  else aiw_attr_size w.

Definition aiw_row (w : AttrIndexWriter) (id : Z) : Attributes :=
  foldl (λ a '(key, (get, _)), set a key (get id)) ∅ (aiw_attrs w).

(** The common part of the [write]s: clear the buffer and serialise into it unless
    the record is too small. *)
Definition write_record (size : nat) (l : list (Z * list Z)) : list Z :=
  if Nat.ltb size (serialized_size l) then replicate size 0
  else serialize l ++ replicate (size - serialized_size l) 0.

Definition aiw_write (w : AttrIndexWriter) (order : Attributes → list (Z * list Z)) (id : Z) : list Z :=
  write_record (aiw_size w) (order (aiw_row w id)).

(** [AttrVecWriter]. *)
Definition avw_size (order : Attributes → list (Z * list Z)) (attrs_vec : list Attributes) (attr_size : nat) : nat :=
  if Nat.eqb attr_size 0
  then foldl (λ sz a, Nat.max sz (serialized_size (order a))) 4%nat attrs_vec
  else attr_size.

Definition avw_write (order : Attributes → list (Z * list Z)) (attrs_vec : list Attributes) (attr_size : nat)
    (id : nat) : option (list Z) :=
  a ← attrs_vec !! id;
  Some (write_record (avw_size order attrs_vec attr_size) (order a)).

(** [ZeroAttrWriter]. *)
Definition zero_write (attr_size : nat) : list Z := replicate attr_size 0.

(** ** Round trip *)

(** What the format can hold. *)
Record entry_ok (e : Z * list Z) : Prop := mkEntryOk {
  eo_key : is_u32 e.1;
  eo_len : Z.of_nat (length e.2) < 2 ^ 32;
  eo_words : Forall is_u32 e.2
}.

Lemma serialize_length l : length (serialize l) = serialized_size l.
Proof.
  unfold serialize, serialized_size. rewrite length_app, le_bytes_length.
  assert (length (concat (map serialize_entry l)) = 4 * sum_list_with (λ '(_, attr), 2 + length attr) l)%nat as ->;
    [|lia].
  induction l as [|[key attr] l IH]; [done|]. cbn [map concat sum_list_with]. rewrite length_app, IH.
  unfold serialize_entry. rewrite !length_app, !le_bytes_length, words_length. lia.
Qed.

Lemma read_words_app ws rest :
  Forall is_u32 ws → read_words (length ws) (words ws ++ rest) = Some (ws, rest).
Proof.
  induction 1 as [|w ws Hw _ IH]; [done|]. unfold words. cbn [length read_words map concat]. fold (words ws).
  rewrite <- app_assoc, read_u32_app by done. cbn [mbind option_bind]. by rewrite IH.
Qed.

Lemma deserialize_loop_app l rest acc :
  Forall entry_ok l →
  deserialize_loop (length l) (concat (map serialize_entry l) ++ rest) acc
  = Some (foldl (λ a '(key, attr), set a key attr) acc l).
Proof.
  intros Hl. revert acc. induction Hl as [|[key attr] l [Hk Hn Hw] _ IH]; intros acc; [done|].
  cbn [length deserialize_loop map concat foldl]. unfold serialize_entry at 1. simpl in Hk, Hn, Hw.
  rewrite <- !app_assoc. rewrite read_u32_app by done. cbn [mbind option_bind].
  rewrite u32_small by (unfold is_u32; lia).
  rewrite read_u32_app by (unfold is_u32; lia). cbn [mbind option_bind].
  rewrite Nat2Z.id, read_words_app by done. cbn [mbind option_bind]. apply IH.
Qed.

(** Folding an enumeration back gives the map. *)
Lemma foldl_set l (acc : gmap Z (list Z)) :
  NoDup l.*1 → foldl (λ a '(key, attr), set a key attr) acc l = (list_to_map l : gmap Z (list Z)) ∪ acc.
Proof.
  revert acc. induction l as [|[key attr] l IH]; intros acc Hnd; simpl; [by rewrite (left_id_L ∅ (∪))|].
  apply NoDup_cons in Hnd as [Hk Hnd]. rewrite IH by done. unfold set.
  assert ((list_to_map l : gmap Z (list Z)) !! key = None) as Hn by (by apply not_elem_of_list_to_map_1).
  by rewrite <- (insert_union_r _ _ _ _ Hn), insert_union_l.
Qed.

Lemma enumerates_nodup l a : enumerates l a → NoDup l.*1 ∧ (list_to_map l : gmap Z (list Z)) = a.
Proof.
  intros Hl. assert (NoDup l.*1) as Hnd.
  { rewrite Hl. apply NoDup_fst_map_to_list. }
  split; [done|]. rewrite <- (list_to_map_to_list a). by apply list_to_map_proper.
Qed.

Lemma deserialize_serialize l a rest :
  enumerates l a → Forall entry_ok l → Z.of_nat (length l) < 2 ^ 32 →
  deserialize (serialize l ++ rest) = Some a.
Proof.
  intros He Hl Hn. destruct (enumerates_nodup l a He) as [Hnd Hm].
  unfold deserialize, serialize. rewrite <- app_assoc, u32_small by (unfold is_u32; lia).
  rewrite read_u32_app by (unfold is_u32; lia). cbn [mbind option_bind].
  rewrite Nat2Z.id, deserialize_loop_app by done. rewrite foldl_set by done.
  by rewrite Hm, (right_id_L ∅ (∪)).
Qed.

Lemma write_record_round_trip size l a :
  enumerates l a → Forall entry_ok l → Z.of_nat (length l) < 2 ^ 32 → (serialized_size l <= size)%nat →
  length (write_record size l) = size ∧ deserialize (write_record size l) = Some a.
Proof.
  intros He Hl Hn Hs. unfold write_record. rewrite (proj2 (Nat.ltb_ge _ _)) by lia. split.
  - rewrite length_app, serialize_length, length_replicate. lia.
  - by apply deserialize_serialize.
Qed.

(** ** The writers' records *)

(** Rows whose keys, lengths and values fit the format. *)
Definition row_ok (a : Attributes) : Prop :=
  Z.of_nat (size (a : gmap Z (list Z))) < 2 ^ 32
  ∧ ∀ key attr, (a : gmap Z (list Z)) !! key = Some attr → entry_ok (key, attr).

Lemma enumerates_ok l a :
  enumerates l a → row_ok a → Forall entry_ok l ∧ Z.of_nat (length l) < 2 ^ 32.
Proof.
  intros He [Hs Ho]. split.
  - apply Forall_forall. intros [key attr] Hin. apply Ho. apply elem_of_map_to_list.
    unfold enumerates in He. by rewrite <- He.
  - unfold enumerates in He. by rewrite He, length_map_to_list.
Qed.

Lemma size_bound_le sz (f : Attributes → nat) l a :
  (sz <= foldl (λ sz a, Nat.max sz (f a)) sz l)%nat
  ∧ (a ∈ l → f a <= foldl (λ sz a, Nat.max sz (f a)) sz l)%nat.
Proof.
  revert sz. induction l as [|b l IH]; intros sz; simpl; [split; [lia|set_solver]|].
  destruct (IH (Nat.max sz (f b))) as [H1 H2]. split; [lia|].
  intros [->|Ha]%elem_of_cons; [|by apply H2]. lia.
Qed.

(** with the inferred record size, [AttrVecWriter] never truncates: for any
    iteration order of the attribute maps, each vector's record has exactly
    [attr_size] bytes and deserialises to that vector's attributes. *)
Theorem attr_vec_writer_round_trip (order : Attributes → list (Z * list Z)) attrs_vec id a :
  (∀ a, enumerates (order a) a) → Forall row_ok attrs_vec → attrs_vec !! id = Some a →
  ∃ buf, avw_write order attrs_vec 0 id = Some buf
  ∧ length buf = avw_size order attrs_vec 0 ∧ deserialize buf = Some a.
Proof.
  intros Hord Hrows Hid. unfold avw_write. rewrite Hid. simpl. eexists. split; [done|].
  destruct (enumerates_ok (order a) a (Hord a)) as [Hl Hn].
  { apply (Forall_lookup_1 _ _ _ _ Hrows Hid). }
  apply write_record_round_trip; try done.
  unfold avw_size. rewrite Nat.eqb_refl.
  apply (size_bound_le 4 (λ a, serialized_size (order a)) attrs_vec a).
  by eapply list_elem_of_lookup_2.
Qed.

(** Two rows, [{1 -> [7; 8]}] and the empty one. *)
Lemma attr_vec_writer_round_trip_witness :
  ∃ buf, avw_write map_to_list [{[1 := [7; 8]]}; ∅] 0 0 = Some buf ∧ length buf = 20%nat
  ∧ deserialize buf = Some {[1 := [7; 8]]}.
Proof.
  destruct (attr_vec_writer_round_trip map_to_list [{[1 := [7; 8]]}; ∅] 0 {[1 := [7; 8]]})
    as (buf & Hw & Hl & Hd).
  - intros a. unfold enumerates. reflexivity.
  - assert (row_ok {[1 := [7; 8]]}) as H1.
    { split; [by vm_compute|]. intros key attr [<- <-]%lookup_singleton_Some.
      split; simpl; [unfold is_u32; lia|lia|]. rewrite !Forall_cons. unfold is_u32.
      split_and!; try lia. constructor. }
    assert (row_ok ∅) as H2 by (split; [by vm_compute|]; intros key attr Hk; by rewrite lookup_empty in Hk).
    constructor; [exact H1|]. constructor; [exact H2|constructor].
  - reflexivity.
  - exists buf. split; [exact Hw|]. split; [rewrite Hl; reflexivity|exact Hd].
Defined.

End Attributes.
