(* ===== verification/LabelIndex.v ===== *)
(** * The label attribute index ([include/filter/attribute.h], lines 334-1013)

    [InvertedLabelAttrIndex] keeps, per label, the sorted list of the vectors that
    carry it, on disk, plus the inserts since the last merge ([delta_]) and one
    Bloom filter per vector for the labels that are too frequent ("hot") to scan.
    A file is a list of bytes, a [std::map] or [cuckoohash_map] a finite map, and
    [AlignedFileReader::read_fd] a read of the file's bytes.  [None] is an access
    out of bounds. *)

From S2P Require Import Prelude Bytes BinFile FilterUtils.
From stdpp Require Import sorting.

Module Label.
Import Ids.
Open Scope Z_scope.

(** ** BloomFilter *)
Definition mix_hash (k : Z) : Z :=
  let k := Z.lxor k (Z.shiftr k 16) in
  let k := u32 (k * 0x85ebca6b) in
  let k := Z.lxor k (Z.shiftr k 13) in
  let k := u32 (k * 0xc2b2ae35) in
  Z.lxor k (Z.shiftr k 16).

Definition num_hash_functions (filter_bytes : Z) : Z :=
  let bits := u32 (filter_bytes * 8) in
  Z.max 2 (Z.min 8 (bits / 8)).

(** The bit of the [i]-th hash function, in a filter of [size] bytes. *)
Definition bloom_bit (size label i : Z) : Z :=
  let h1 := mix_hash label in
  let h2 := mix_hash (Z.lxor label 0x9e3779b9) in
  u32 (h1 + u32 (i * h2)) mod u32 (size * 8).

Definition bloom_bits (size label : Z) : list Z :=
  map (λ i, bloom_bit size label (Z.of_nat i)) (seq 0 (Z.to_nat (num_hash_functions size))).

(** [data[bit / 8] |= 1u << (bit % 8)], [base] the start of the slice. *)
Definition set_bit (data : list Z) (base bit : Z) : option (list Z) :=
  let i := Z.to_nat (base + bit / 8) in
  b ← data !! i;
  vset data i (Z.lor b (Z.shiftl 1 (bit mod 8))).

Definition test_bit (data : list Z) (base bit : Z) : option bool :=
  b ← data !! Z.to_nat (base + bit / 8);
  Some (negb (Z.land b (Z.shiftl 1 (bit mod 8)) =? 0)).

Definition bloom_add (data : list Z) (base size label : Z) : option (list Z) :=
  foldl (λ acc bit, data ← acc; set_bit data base bit) (Some data) (bloom_bits size label).

Fixpoint test_bits (data : list Z) (base : Z) (bits : list Z) : option bool :=
  match bits with
  | [] => Some true
  | bit :: bits => b ← test_bit data base bit; if (b : bool) then test_bits data base bits else Some false
  end.

Definition bloom_contains (data : list Z) (base size label : Z) : option bool :=
  test_bits data base (bloom_bits size label).

(** ** The index *)
Record InvertedLabelAttrIndex := mkLabel {
  n_vectors : Z;
  base_n_vectors_ : Z;
  label_loc_ : list (Z * Z);
  labels_ : list (list Z);
  max_attrs_ : nat;
  bloom_filters_ : list Z;
  bloom_bytes_per_point_ : Z;
  delta_ : gmap Z (list Z);
  delta_bytes_ : Z;
  file : list Z;                (* [filename] *)
  filter_file : list Z          (* [filename + ".filter"] *)
}.

Definition kApproxFilterThreshold : Z := 65536.
Definition SECTOR_LEN : Z := 4096.
Definition ROUND_UP (x y : Z) : Z := (x / y + (if x mod y =? 0 then 0 else 1)) * y.

Definition load_from_rows (t : InvertedLabelAttrIndex) (rows : list (list Z)) : InvertedLabelAttrIndex :=
  mkLabel (Z.of_nat (length rows)) (Z.of_nat (length rows)) (label_loc_ t) rows
    (foldl (λ m row, Nat.max m (length row)) 0%nat rows)
    (bloom_filters_ t) (bloom_bytes_per_point_ t) (delta_ t) (delta_bytes_ t) (file t) (filter_file t).

(** *** Files *)
Fixpoint read_locs (n : nat) (s : list Z) : option (list (Z * Z)) :=
  match n with
  | O => Some []
  | S n =>
      '(st, s) ← read_le 8 s;
      '(ed, s) ← read_le 8 s;
      locs ← read_locs n s;
      Some ((st, ed) :: locs)
  end.

Definition read_label_locs (t : InvertedLabelAttrIndex) : option (list (Z * Z)) :=
  '(n_labels, s) ← read_le 8 (file t);
  read_locs (Z.to_nat n_labels) s.

(** The ids of a label's list on disk. *)
Definition read_list (f : list Z) (loc : Z * Z) : list Z :=
  words_at (region f (Z.to_nat loc.1) (Z.to_nat loc.2)).

Definition push_label (rows : list (list Z)) (label : Z) (id : Z) : option (list (list Z)) :=
  row ← rows !! Z.to_nat id;
  vset rows (Z.to_nat id) (row ++ [label]).

Definition push_list (acc : option (list (list Z))) (label : Z) (ids : list Z) : option (list (list Z)) :=
  foldl (λ acc id, rows ← acc; push_label rows label id) acc ids.

Definition load_attrs (t : InvertedLabelAttrIndex) : option InvertedLabelAttrIndex :=
  locs ← read_label_locs t;
  rows ← foldl (λ acc '(i, loc), push_list acc (Z.of_nat i) (read_list (file t) loc))
           (Some (replicate (Z.to_nat (base_n_vectors_ t)) [])) (zip (seq 0 (length locs)) locs);
  Some (mkLabel (n_vectors t) (base_n_vectors_ t) locs rows (max_attrs_ t) (bloom_filters_ t)
          (bloom_bytes_per_point_ t) (delta_ t) (delta_bytes_ t) (file t) (filter_file t)).

Definition load_approx (t : InvertedLabelAttrIndex) : option InvertedLabelAttrIndex :=
  locs ← read_label_locs t;
  '(data, npts, dim) ← BinFile.load_bin 1 (filter_file t) 0;
  Some (mkLabel (n_vectors t) (base_n_vectors_ t) locs (labels_ t) (max_attrs_ t) data dim
          (delta_ t) (delta_bytes_ t) (file t) (filter_file t)).

Definition get (t : InvertedLabelAttrIndex) (vector_id : Z) : option (list Z) := labels_ t !! Z.to_nat vector_id.

(** The start of a vector's filter: the product is a [uint32_t]. *)
Definition bloom_base (t : InvertedLabelAttrIndex) (vector_id : Z) : Z :=
  u32 (vector_id * bloom_bytes_per_point_ t).

Definition bf_add (t : InvertedLabelAttrIndex) (data : list Z) (vector_id label : Z) : option (list Z) :=
  bloom_add data (bloom_base t vector_id) (bloom_bytes_per_point_ t) label.
Definition bf_contains (t : InvertedLabelAttrIndex) (vector_id label : Z) : option bool :=
  bloom_contains (bloom_filters_ t) (bloom_base t vector_id) (bloom_bytes_per_point_ t) label.

Definition save_approx (t : InvertedLabelAttrIndex) : list Z :=
  (BinFile.save_bin 1 (filter_file t)
     (take (Z.to_nat (n_vectors t * bloom_bytes_per_point_ t)) (bloom_filters_ t))
     (n_vectors t) (bloom_bytes_per_point_ t) 0).1.

(** The offsets of [save_inverted]. *)
Fixpoint locs_from (cur : Z) (vector_ids : list (list Z)) : list (Z * Z) :=
  match vector_ids with
  | [] => []
  | ids :: rest =>
      let len := Z.of_nat (length ids) * 4 in
      (cur, cur + len) :: locs_from (cur + ROUND_UP len SECTOR_LEN) rest
  end.

Definition header_bytes (locs : list (Z * Z)) : list Z :=
  le_bytes 8 (Z.of_nat (length locs))
  ++ concat (map (λ '(st, ed), le_bytes 8 st ++ le_bytes 8 ed) locs).

Definition save_inverted (vector_ids : list (list Z)) : list (Z * Z) * list Z :=
  let n_labels := length vector_ids in
  let locs := locs_from (ROUND_UP (8 + 2 * Z.of_nat n_labels * 8) SECTOR_LEN) vector_ids in
  let f := foldl (λ f '(loc, ids), write_at f (Z.to_nat (loc : Z * Z).1) (words ids))
             (header_bytes locs) (zip locs vector_ids) in
  (locs, f).

Definition max_label (rows : list (list Z)) : Z := foldl (foldl Z.max) 0 rows.

(** [vector_ids[label].push_back(i)] for every label of row [i]. *)
Definition invert_row (acc : option (list (list Z))) (i : Z) (row : list Z) : option (list (list Z)) :=
  foldl (λ acc label, lists ← acc; l ← lists !! Z.to_nat label; vset lists (Z.to_nat label) (l ++ [i])) acc row.

(** [vector_ids(max_label_id + 1)]: the size is a [uint32_t]. *)
Definition invert (rows : list (list Z)) : option (list (list Z)) :=
  foldl (λ acc '(i, row), invert_row acc (Z.of_nat i) row)
    (Some (replicate (Z.to_nat (u32 (max_label rows + 1))) []))
    (zip (seq 0 (length rows)) rows).

(** Hot labels go into the filters of their vectors. *)
Definition build_bloom (t : InvertedLabelAttrIndex) (vector_ids : list (list Z)) : option (list Z) :=
  foldl (λ acc '(label, ids),
           if Z.of_nat (length ids) <? kApproxFilterThreshold then acc
           else foldl (λ acc id, data ← acc; bf_add t data id (Z.of_nat label)) acc ids)
    (Some (replicate (Z.to_nat (n_vectors t * bloom_bytes_per_point_ t)) 0))
    (zip (seq 0 (length vector_ids)) vector_ids).

Definition save (t : InvertedLabelAttrIndex) : option InvertedLabelAttrIndex :=
  vector_ids ← invert (labels_ t);
  bloom ← build_bloom t vector_ids;
  let '(locs, f) := save_inverted vector_ids in
  let t := mkLabel (n_vectors t) (n_vectors t) locs (labels_ t) (max_attrs_ t) bloom
             (bloom_bytes_per_point_ t) (delta_ t) (delta_bytes_ t) f (filter_file t) in
  Some (mkLabel (n_vectors t) (base_n_vectors_ t) (label_loc_ t) (labels_ t) (max_attrs_ t) (bloom_filters_ t)
          (bloom_bytes_per_point_ t) (delta_ t) (delta_bytes_ t) (file t) (save_approx t)).

(** *** Estimates *)
Definition estimate_label_cnt (t : InvertedLabelAttrIndex) (label : Z) : Z :=
  match label_loc_ t !! Z.to_nat label with
  | None => 0
  | Some (st, ed) => u32 (u64 (ed - st) / 4)
  end.

Definition is_cold_label (t : InvertedLabelAttrIndex) (label : Z) : bool :=
  estimate_label_cnt t label <? kApproxFilterThreshold.

Definition estimate_count (t : InvertedLabelAttrIndex) (query : list Z) : Z :=
  Z.min (foldl (λ c label, u32 (c + estimate_label_cnt t label)) 0 query) (n_vectors t).

Definition estimate_prefilter_reads (t : InvertedLabelAttrIndex) (query : list Z) : Z :=
  u32 (estimate_count t query * 4 / SECTOR_LEN).

Definition estimate_count_and (t : InvertedLabelAttrIndex) (query : list Z) : Z :=
  match query with
  | [] => 0
  | q :: query => foldl (λ m label, Z.min m (estimate_label_cnt t label)) (estimate_label_cnt t q) query
  end.

(** The AND query reads as much as the OR query. *)
Definition estimate_prefilter_reads_and (t : InvertedLabelAttrIndex) (query : list Z) : Z :=
  u32 (estimate_count t query * 4 / SECTOR_LEN).

Definition cold_labels (t : InvertedLabelAttrIndex) (query : list Z) : list Z :=
  List.filter (is_cold_label t) query.

Definition estimate_infilter_reads (t : InvertedLabelAttrIndex) (query : list Z) : Z :=
  u32 (foldl (λ c label, u32 (c + estimate_label_cnt t label)) 0 (cold_labels t query) * 4 / SECTOR_LEN).

Definition estimate_infilter_reads_and (t : InvertedLabelAttrIndex) (query : list Z) : Z :=
  u32 (foldl (λ c label, u32 (c + estimate_label_cnt t label)) 0 (cold_labels t query) * 4 / SECTOR_LEN).

(** *** Pre-filtering *)

(** A label's vectors: the list on disk, then the pending inserts. *)
Definition label_list (t : InvertedLabelAttrIndex) (label : Z) : list Z :=
  match label_loc_ t !! Z.to_nat label with
  | None => []
  | Some loc => read_list (file t) loc ++ match delta_ t !! label with Some ids => ids | None => [] end
  end.

(** [std::sort] by length. *)
Definition by_size (a b : list Z) : Prop := (length a <= length b)%nat.
Global Instance by_size_dec a b : Decision (by_size a b).
Proof. unfold by_size. apply _. Defined.

Definition nonempty (l : list Z) : bool := match l with [] => false | _ => true end.

Definition pre_filter (t : InvertedLabelAttrIndex) (query : list Z) : list Z :=
  foldl or_sorted_unique [] (merge_sort by_size (List.filter nonempty (map (label_list t) query))).

Definition pre_filter_and (t : InvertedLabelAttrIndex) (query : list Z) : list Z :=
  let lists := map (label_list t) query in
  if forallb nonempty lists then
    match merge_sort by_size lists with
    | [] => []
    | l :: ls => foldl and_sorted_unique l ls
    end
  else [].

(** *** In-filtering *)
Definition prepare_in_filter (t : InvertedLabelAttrIndex) (query : list Z) : list Z :=
  pre_filter t (cold_labels t query).

Definition prepare_in_filter_and (t : InvertedLabelAttrIndex) (query : list Z) : list Z :=
  match cold_labels t query with [] => [] | cold => pre_filter_and t cold end.

(** The hot labels of a query, tested in the vector's filter. *)
Fixpoint any_hot (t : InvertedLabelAttrIndex) (id : Z) (query : list Z) : option bool :=
  match query with
  | [] => Some false
  | label :: query =>
      if is_cold_label t label then any_hot t id query
      else b ← bf_contains t id label; if (b : bool) then Some true else any_hot t id query
  end.

Fixpoint all_hot (t : InvertedLabelAttrIndex) (id : Z) (query : list Z) : option bool :=
  match query with
  | [] => Some true
  | label :: query =>
      if is_cold_label t label then all_hot t id query
      else b ← bf_contains t id label; if (b : bool) then all_hot t id query else Some false
  end.

Definition is_member_approx (t : InvertedLabelAttrIndex) (target_id : Z) (query cold_list : list Z) : option bool :=
  if binary_search cold_list target_id then Some true else any_hot t target_id query.

Definition is_member_approx_and (t : InvertedLabelAttrIndex) (target_id : Z) (query cold_list : list Z) : option bool :=
  if existsb (is_cold_label t) query && negb (binary_search cold_list target_id) then Some false
  else all_hot t target_id query.

(** *** Updates *)

(** [id_map.empty() ? old_id : id_map.find(old_id)]. *)
Definition remap_id (id_map : gmap Z Z) (old_id : Z) : option Z :=
  if decide (id_map = ∅) then Some old_id else id_map !! old_id.

Definition merged_ids (t : InvertedLabelAttrIndex) (id_map : gmap Z Z) (label : Z) : list Z :=
  let base := match label_loc_ t !! Z.to_nat label with Some loc => read_list (file t) loc | None => [] end in
  let delta := match delta_ t !! label with Some ids => ids | None => [] end in
  omap (remap_id id_map) (base ++ delta).

(** [std::sort] then [std::unique]. *)
Fixpoint dedup (l : list Z) : list Z :=
  match l with
  | x :: (y :: _) as l' => if x =? y then dedup l' else x :: dedup l'
  | _ => l
  end.

(** [vector_ids.resize(label + 1)], then [vector_ids[label]]: the size is a [uint32_t]. *)
Definition grow_lists (label : Z) (_ : list Z) (acc : option nat) : option nat :=
  n ← acc;
  let n := if Nat.leb n (Z.to_nat label) then Z.to_nat (u32 (label + 1)) else n in
  if Nat.ltb (Z.to_nat label) n then Some n else None.

Definition n_lists (t : InvertedLabelAttrIndex) : option nat :=
  map_fold grow_lists (Some (length (label_loc_ t))) (delta_ t).

Definition merged_lists (t : InvertedLabelAttrIndex) (id_map : gmap Z Z) : option (list (list Z)) :=
  n ← n_lists t;
  Some (map (λ label, dedup (merge_sort Z.le (merged_ids t id_map (Z.of_nat label)))) (seq 0 n)).

(** [attr_counts[id]++]. *)
Definition count_attrs (acc : option (list nat * nat)) (ids : list Z) : option (list nat * nat) :=
  foldl (λ acc id,
           '(counts, m) ← acc; c ← counts !! Z.to_nat id;
           counts ← vset counts (Z.to_nat id) (S c); Some (counts, Nat.max m (S c))) acc ids.

(** The copy loop of [remap_approx]. *)
Definition copy_filter (t : InvertedLabelAttrIndex) (id_map : gmap Z Z) (acc : option (list Z)) (old_id : Z)
    : option (list Z) :=
  remapped ← acc;
  match remap_id id_map old_id with
  | None => Some remapped
  | Some new_id =>
      let k := Z.to_nat (bloom_bytes_per_point_ t) in
      let dst := Z.to_nat (u32 (new_id * bloom_bytes_per_point_ t)) in
      let src := Z.to_nat (u32 (old_id * bloom_bytes_per_point_ t)) in
      if Nat.leb (src + k) (length (bloom_filters_ t)) && Nat.leb (dst + k) (length remapped)
      then Some (take dst remapped ++ take k (drop src (bloom_filters_ t)) ++ drop (dst + k) remapped)
      else None
  end.

Definition remap_approx (t : InvertedLabelAttrIndex) (id_map : gmap Z Z) : option (list Z) :=
  let new_n := if decide (id_map = ∅) then n_vectors t else Z.of_nat (size id_map) in
  let old_n := Z.min (Z.of_nat (length (bloom_filters_ t)) / bloom_bytes_per_point_ t) (n_vectors t) in
  foldl (λ acc i, copy_filter t id_map acc (Z.of_nat i))
    (Some (replicate (Z.to_nat (new_n * bloom_bytes_per_point_ t)) 0)) (seq 0 (Z.to_nat old_n)).

Definition do_merge (t : InvertedLabelAttrIndex) (id_map : gmap Z Z) : option InvertedLabelAttrIndex :=
  let merged_size := if decide (id_map = ∅) then n_vectors t else Z.of_nat (size id_map) in
  vector_ids ← merged_lists t id_map;
  '(_, max_attrs) ← foldl count_attrs (Some (replicate (Z.to_nat merged_size) 0%nat, 0%nat)) vector_ids;
  let '(locs, f) := save_inverted vector_ids in
  let t := mkLabel merged_size merged_size locs (labels_ t) max_attrs (bloom_filters_ t)
             (bloom_bytes_per_point_ t) (delta_ t) (delta_bytes_ t) f (filter_file t) in
  bloom ← remap_approx t id_map;
  let t := mkLabel (n_vectors t) (base_n_vectors_ t) (label_loc_ t) (labels_ t) (max_attrs_ t) bloom
             (bloom_bytes_per_point_ t) (delta_ t) (delta_bytes_ t) (file t) (filter_file t) in
  Some (mkLabel (n_vectors t) (base_n_vectors_ t) (label_loc_ t) (labels_ t) (max_attrs_ t) (bloom_filters_ t)
          (bloom_bytes_per_point_ t) ∅ 0 (file t) (save_approx t)).

Definition merge := do_merge.

Definition resize_locs (locs : list (Z * Z)) (label : Z) : list (Z * Z) :=
  if Nat.leb (length locs) (Z.to_nat label) then vresize locs (Z.to_nat (u32 (label + 1))) (0, 0) else locs.

Definition push_delta (d : gmap Z (list Z)) (label vector_id : Z) : gmap Z (list Z) :=
  <[label := (match d !! label with Some ids => ids | None => [] end) ++ [vector_id]]> d.

Definition insert (t : InvertedLabelAttrIndex) (vector_id : Z) (attr : list Z) : option InvertedLabelAttrIndex :=
  let locs := foldl resize_locs (label_loc_ t) attr in
  let delta := foldl (λ d label, push_delta d label vector_id) (delta_ t) attr in
  let delta_bytes := delta_bytes_ t + 8 * Z.of_nat (length attr) in
  let n := Z.max (n_vectors t) (vector_id + 1) in
  let req_size := u32 (bloom_bytes_per_point_ t * u32 (vector_id + 1)) in
  let bloom := if Z.of_nat (length (bloom_filters_ t)) <=? req_size
               then vresize (bloom_filters_ t) (Z.to_nat (Z.max (3 * req_size / 2) 1024)) 0
               else bloom_filters_ t in
  bloom ← foldl (λ acc label, data ← acc; bf_add t data vector_id label) (Some bloom) attr;
  let t := mkLabel n (base_n_vectors_ t) locs (labels_ t) (Nat.max (max_attrs_ t) (length attr)) bloom
             (bloom_bytes_per_point_ t) delta delta_bytes (file t) (filter_file t) in
  if Z.max (4 * 1024 * 1024) (bloom_bytes_per_point_ t * base_n_vectors_ t / 8) <=? delta_bytes
  then do_merge t ∅ else Some t.

(** *** Files from rows and back *)

(** [create_empty_attr_index] of a label index; [fs] the inverted file and the filter file. *)
Definition create_empty_attr_index (fs : list Z * list Z) (n : Z) : InvertedLabelAttrIndex :=
  mkLabel n n [] [] 0 [] 4 ∅ 0 fs.1 fs.2.

Definition save_attr_index_from_rows (rows : list (list Z)) : option (list Z * list Z) :=
  t ← save (load_from_rows (create_empty_attr_index ([], []) (Z.of_nat (length rows))) rows);
  Some (file t, filter_file t).

Definition load_attr_index_from_file (fs : list Z * list Z) (n : Z) : option InvertedLabelAttrIndex :=
  load_approx (create_empty_attr_index fs n).

(** ** Bloom filters have no false negatives *)

(** Every bit of [d] is set in [d']. *)
Definition bits_sub (d d' : list Z) : Prop :=
  (length d <= length d')%nat ∧ ∀ i b, d !! i = Some b → ∃ b', d' !! i = Some b' ∧ Z.land b b' = b.

Global Instance bits_sub_preorder : PreOrder bits_sub.
Proof.
  split.
  - intros d. split; [done|]. intros i b Hb. exists b. split; [done|]. apply Z.land_diag.
  - intros d1 d2 d3 [Hl1 H1] [Hl2 H2]. split; [lia|]. intros i b Hb.
    destruct (H1 i b Hb) as (b2 & Hb2 & E1). destruct (H2 i b2 Hb2) as (b3 & Hb3 & E2).
    exists b3. split; [done|]. rewrite <- E1 at 1. by rewrite <- Z.land_assoc, E2.
Qed.

Lemma land_lor_absorb b m : Z.land b (Z.lor b m) = b.
Proof.
  apply Z.bits_inj'. intros n _. rewrite Z.land_spec, Z.lor_spec. by destruct (Z.testbit b n), (Z.testbit m n).
Qed.

Lemma land_lor_right b m : Z.land (Z.lor b m) m = m.
Proof.
  apply Z.bits_inj'. intros n _. rewrite Z.land_spec, Z.lor_spec. by destruct (Z.testbit b n), (Z.testbit m n).
Qed.

Lemma one_shiftl_ne k : 0 <= k → Z.shiftl 1 k ≠ 0.
Proof. intros Hk. rewrite Z.shiftl_mul_pow2 by done. pose proof (Z.pow_pos_nonneg 2 k). lia. Qed.

(** A bit of the slice at [base] in range. *)
Definition bit_in (data : list Z) (base bit : Z) : Prop := (Z.to_nat (base + bit / 8) < length data)%nat.

Lemma set_bit_spec data base bit :
  bit_in data base bit →
  ∃ data', set_bit data base bit = Some data' ∧ bits_sub data data' ∧ test_bit data' base bit = Some true.
Proof.
  intros Hin. unfold set_bit, test_bit. destruct (lookup_lt_is_Some_2 _ _ Hin) as [b Hb].
  rewrite Hb. cbn [mbind option_bind]. rewrite vset_Some by done. eexists. split; [done|]. split.
  - split; [by rewrite length_insert|]. intros i c Hc.
    destruct (decide (i = Z.to_nat (base + bit / 8))) as [->|Hne].
    + rewrite list_lookup_insert_eq by done. simplify_eq. eexists. split; [done|]. apply land_lor_absorb.
    + rewrite list_lookup_insert_ne by done. exists c. split; [done|]. apply Z.land_diag.
  - rewrite list_lookup_insert_eq by done. cbn [mbind option_bind]. rewrite land_lor_right.
    rewrite (proj2 (Z.eqb_neq _ _)); [done|]. apply one_shiftl_ne. apply Z.mod_pos_bound. lia.
Qed.

Lemma test_bit_mono d d' base bit :
  bits_sub d d' → test_bit d base bit = Some true → test_bit d' base bit = Some true.
Proof.
  intros [_ Hs]. unfold test_bit. destruct (d !! _) as [b|] eqn:Hb; [|done].
  destruct (Hs _ _ Hb) as (b' & -> & E). cbn [mbind option_bind].
  set (m := Z.shiftl 1 (bit mod 8)). intros H. f_equal. injection H as H. apply negb_true_iff, Z.eqb_neq in H.
  apply negb_true_iff, Z.eqb_neq. intros H0. apply H. rewrite <- E, <- Z.land_assoc, H0. apply Z.land_0_r.
Qed.

Lemma test_bits_mono d d' base bits :
  bits_sub d d' → test_bits d base bits = Some true → test_bits d' base bits = Some true.
Proof.
  intros Hs. induction bits as [|bit bits IH]; simpl; [done|].
  destruct (test_bit d base bit) as [[|]|] eqn:E; try done. cbn [mbind option_bind].
  rewrite (test_bit_mono _ _ _ _ Hs E). cbn [mbind option_bind]. apply IH.
Qed.

Lemma set_bits_spec bits data base :
  Forall (bit_in data base) bits →
  ∃ data', foldl (λ acc bit, data ← acc; set_bit data base bit) (Some data) bits = Some data'
  ∧ bits_sub data data' ∧ test_bits data' base bits = Some true.
Proof.
  revert data. induction bits as [|bit bits IH]; intros data Hin; cbn [foldl].
  { exists data. split; [done|]. split; [reflexivity|done]. }
  apply Forall_cons in Hin as [Hb Hin]. cbn [mbind option_bind].
  destruct (set_bit_spec data base bit Hb) as (d1 & Hset & Hs1 & Ht1). rewrite Hset.
  destruct (IH d1) as (d2 & Hf & Hs2 & Ht2).
  { eapply Forall_impl; [exact Hin|]. intros bit' Hb'. unfold bit_in in *. destruct Hs1 as [Hl1 _]. lia. }
  exists d2. split; [done|]. split; [by etrans|]. simpl.
  rewrite (test_bit_mono _ _ _ _ Hs2 Ht1). done.
Qed.

(** The filter of a vector lies inside the array. *)
Record slice_ok (data : list Z) (base size : Z) : Prop := mkSliceOk {
  so_base : 0 <= base;
  so_size : 0 < size < 2 ^ 29;
  so_fit : base + size <= Z.of_nat (length data)
}.

Lemma bloom_bits_in data base size label :
  slice_ok data base size → Forall (bit_in data base) (bloom_bits size label).
Proof.
  intros [Hb Hs Hf]. apply Forall_forall. intros bit Hin. unfold bloom_bits in Hin.
  apply list_elem_of_fmap in Hin as (i & -> & _). unfold bit_in, bloom_bit.
  rewrite (u32_small (size * 8)) by (unfold is_u32; lia).
  set (h := u32 (mix_hash label + _)). pose proof (Z.mod_pos_bound h (size * 8) ltac:(lia)) as Hm.
  assert (0 <= h mod (size * 8) / 8) by (apply Z.div_pos; lia).
  assert (h mod (size * 8) / 8 < size) by (apply Z.div_lt_upper_bound; lia). lia.
Qed.

Lemma bloom_add_spec data base size label :
  slice_ok data base size →
  ∃ data', bloom_add data base size label = Some data' ∧ bits_sub data data'
  ∧ bloom_contains data' base size label = Some true.
Proof. intros Hs. apply set_bits_spec. by apply bloom_bits_in. Qed.

Lemma bloom_contains_mono d d' base size label :
  bits_sub d d' → bloom_contains d base size label = Some true → bloom_contains d' base size label = Some true.
Proof. apply test_bits_mono. Qed.

Lemma bloom_contains_Some data base size label :
  slice_ok data base size → is_Some (bloom_contains data base size label).
Proof.
  intros Hs. pose proof (bloom_bits_in data base size label Hs) as Hin. unfold bloom_contains.
  induction Hin as [|bit bits Hb _ IH]; simpl; [done|].
  unfold test_bit. destruct (lookup_lt_is_Some_2 _ _ Hb) as [b ->]. cbn [mbind option_bind].
  destruct (negb _); [done|by eexists].
Qed.

Lemma slice_ok_sub d d' base size : bits_sub d d' → slice_ok d base size → slice_ok d' base size.
Proof. intros [Hl _] [Hb Hs Hf]. split; [done|done|lia]. Qed.

(** ** Search *)

(** The invariant the searches rely on: sorted lists, and a filter per vector that
    covers the hot labels of the vector. *)
Record label_ok (t : InvertedLabelAttrIndex) : Prop := mkLabelOk {
  lk_sorted : ∀ l, 0 <= l → id_list (label_list t l);
  lk_ids : ∀ l v, 0 <= l → v ∈ label_list t l → 0 <= v < n_vectors t;
  lk_slice : ∀ v, 0 <= v < n_vectors t →
    slice_ok (bloom_filters_ t) (bloom_base t v) (bloom_bytes_per_point_ t);
  lk_delta : ∀ l ids, 0 <= l → delta_ t !! l = Some ids → (Z.to_nat l < length (label_loc_ t))%nat;
  lk_bloom : ∀ l v, 0 <= l → v ∈ label_list t l → is_cold_label t l = false → bf_contains t v l = Some true
}.

Lemma nonempty_false l : nonempty l = false ↔ l = [].
Proof. by destruct l. Qed.

Lemma merge_sort_elem (ls : list (list Z)) l : l ∈ merge_sort by_size ls ↔ l ∈ ls.
Proof. by rewrite (merge_sort_Permutation by_size ls). Qed.

Section search.
Context (t : InvertedLabelAttrIndex) (Hok : label_ok t).

Lemma lists_sorted query :
  (∀ l, l ∈ query → 0 <= l) → Forall id_list (map (label_list t) query).
Proof.
  intros Hq. apply Forall_forall. intros l Hl. apply list_elem_of_fmap in Hl as (q & -> & Hl).
  by apply (lk_sorted _ Hok), Hq.
Qed.

Lemma pre_filter_spec query :
  (∀ l, l ∈ query → 0 <= l) →
  id_list (pre_filter t query) ∧ ∀ v, v ∈ pre_filter t query ↔ ∃ l, l ∈ query ∧ v ∈ label_list t l.
Proof.
  intros Hpos. unfold pre_filter. set (ls := List.filter nonempty (map (label_list t) query)).
  assert (Hls : ∀ l, l ∈ ls ↔ l ∈ map (label_list t) query ∧ l ≠ []).
  { intros l. unfold ls. rewrite !list_elem_of_In, List.filter_In. by destruct l; simpl; split; intros [? ?]. }
  split.
  - apply or_fold_sorted; [constructor|]. apply Forall_forall. intros l Hl%merge_sort_elem%Hls.
    pose proof (lists_sorted query Hpos) as Hs. rewrite Forall_forall in Hs. by apply Hs, Hl.
  - intros v. rewrite or_fold_elem. setoid_rewrite merge_sort_elem. split.
    + intros [Hv|(l & [Hl _]%Hls & Hv)]; [set_solver|].
      apply list_elem_of_fmap in Hl as (q & -> & Hq). by exists q.
    + intros (q & Hq & Hv). right. exists (label_list t q). split; [|done]. apply Hls. split.
      * apply list_elem_of_fmap. by exists q.
      * intros He. rewrite He in Hv. set_solver.
Qed.

Lemma pre_filter_and_spec query :
  (∀ l, l ∈ query → 0 <= l) → query ≠ [] →
  id_list (pre_filter_and t query) ∧ ∀ v, v ∈ pre_filter_and t query ↔ ∀ l, l ∈ query → v ∈ label_list t l.
Proof.
  intros Hpos Hq. unfold pre_filter_and. set (ls := map (label_list t) query).
  assert (Hall : ∀ v, (∀ l, l ∈ ls → v ∈ l) ↔ ∀ l, l ∈ query → v ∈ label_list t l).
  { intros v. unfold ls. setoid_rewrite list_elem_of_fmap. naive_solver. }
  destruct (forallb nonempty ls) eqn:Hne.
  - pose proof (merge_sort_Permutation by_size ls) as Hp.
    assert (Forall id_list (merge_sort by_size ls)) as Hs by (rewrite Hp; by apply lists_sorted).
    destruct (merge_sort by_size ls) as [|l ls'] eqn:Hm.
    { apply Permutation_nil_l in Hp. unfold ls in Hp. by destruct query. }
    apply Forall_cons in Hs as [Hl Hs]. split; [by apply and_fold_sorted|]. intros v.
    rewrite and_fold_elem by done. rewrite <- Hall. setoid_rewrite <- Hp. set_solver.
  - split; [constructor|]. intros v. rewrite <- Hall. split; [set_solver|]. intros Hv. exfalso.
    assert (∃ l, l ∈ ls ∧ l = []) as (l & Hl & ->).
    { clear -Hne. induction ls as [|l ls IH]; [done|]. simpl in Hne. apply andb_false_iff in Hne as [H|H].
      - apply nonempty_false in H as ->. exists []. set_solver.
      - destruct (IH H) as (l' & Hl' & ->). exists []. set_solver. }
    specialize (Hv [] Hl). set_solver.
Qed.

Lemma any_hot_true v query l :
  l ∈ query → 0 <= l → is_cold_label t l = false → v ∈ label_list t l → any_hot t v query = Some true.
Proof.
  intros Hl Hp Hc Hv. pose proof (lk_bloom _ Hok _ _ Hp Hv Hc) as Hb. pose proof (lk_ids _ Hok _ _ Hp Hv) as Hr.
  induction query as [|q query IH]; [set_solver|]. simpl.
  destruct (is_cold_label t q) eqn:Hq.
  - apply IH. apply elem_of_cons in Hl as [->|]; [congruence|done].
  - destruct (bloom_contains_Some _ _ _ q (lk_slice _ Hok v Hr)) as [b Hbq]. unfold bf_contains at 1.
    rewrite Hbq. cbn [mbind option_bind]. destruct b; [done|]. apply IH.
    apply elem_of_cons in Hl as [->|]; [|done]. unfold bf_contains in Hb. congruence.
Qed.

Lemma all_hot_true v query :
  0 <= v < n_vectors t → (∀ l, l ∈ query → 0 <= l ∧ v ∈ label_list t l) → all_hot t v query = Some true.
Proof.
  intros Hr Hv. induction query as [|q query IH]; [done|]. simpl.
  destruct (is_cold_label t q) eqn:Hq; [apply IH; set_solver|].
  rewrite (lk_bloom _ Hok q v) by (try done; set_solver). apply IH. set_solver.
Qed.

Lemma cold_elem l query : l ∈ cold_labels t query ↔ l ∈ query ∧ is_cold_label t l = true.
Proof. unfold cold_labels. by rewrite !list_elem_of_In, List.filter_In. Qed.

Lemma approx_spec v query l :
  (∀ l, l ∈ query → 0 <= l) → l ∈ query → v ∈ label_list t l →
  is_member_approx t v query (prepare_in_filter t query) = Some true.
Proof.
  intros Hq Hl Hv. unfold is_member_approx. destruct (binary_search _ v) eqn:Hb; [done|].
  apply (any_hot_true v query l Hl (Hq l Hl)); [|done]. apply not_true_is_false. intros Hc.
  apply not_true_iff_false in Hb. apply Hb. apply binary_search_elem.
  apply (pre_filter_spec (cold_labels t query)); [by intros l' [Hl' _]%cold_elem; apply Hq|].
  exists l. by rewrite cold_elem.
Qed.

Lemma approx_and_spec v query :
  (∀ l, l ∈ query → 0 <= l) → 0 <= v < n_vectors t → (∀ l, l ∈ query → v ∈ label_list t l) →
  is_member_approx_and t v query (prepare_in_filter_and t query) = Some true.
Proof.
  intros Hq Hr Hv. unfold is_member_approx_and. destruct (existsb (is_cold_label t) query) eqn:Hc; simpl.
  - assert (v ∈ prepare_in_filter_and t query) as Hin.
    { apply existsb_exists in Hc as (l & Hl & Hc). apply list_elem_of_In in Hl.
      unfold prepare_in_filter_and. destruct (cold_labels t query) as [|c cs] eqn:Hcs.
      { assert (l ∈ cold_labels t query) as H by (by apply cold_elem). rewrite Hcs in H. set_solver. }
      rewrite <- Hcs. apply pre_filter_and_spec;
        [by intros l' [Hl' _]%cold_elem; apply Hq|by rewrite Hcs|].
      intros l' [Hl' _]%cold_elem. by apply Hv. }
    rewrite (proj2 (binary_search_elem _ _) Hin). simpl. apply all_hot_true; auto.
  - apply all_hot_true; auto.
Qed.

(** The tests stay inside the filters. *)
Lemma hot_total v query : 0 <= v < n_vectors t → is_Some (any_hot t v query) ∧ is_Some (all_hot t v query).
Proof.
  intros Hr. induction query as [|q query [IH1 IH2]]; [simpl; eauto|]. simpl.
  destruct (is_cold_label t q); [done|].
  destruct (bloom_contains_Some _ _ _ q (lk_slice _ Hok v Hr)) as [b Hb]. unfold bf_contains. rewrite Hb. simpl.
  destruct b; eauto.
Qed.

Lemma approx_total v query cold :
  0 <= v < n_vectors t →
  is_Some (is_member_approx t v query cold) ∧ is_Some (is_member_approx_and t v query cold).
Proof.
  intros Hr. unfold is_member_approx, is_member_approx_and. destruct (hot_total v query Hr).
  split; case_match; eauto.
Qed.

End search.

(** ** Building *)

Lemma max_label_bound b rows : 0 < b → Forall (Forall (λ l, 0 <= l < b)) rows → 0 <= max_label rows < b.
Proof.
  intros Hb Hr. unfold max_label. assert (∃ m, m = 0 ∧ 0 <= m < b) as (m & E & Hm) by (exists 0; lia).
  rewrite <- E at 2 3. clear E. revert m Hm. induction Hr as [|row rows Hrow _ IH]; intros m Hm; cbn [foldl]; [done|]. apply IH.
  revert m Hm. induction Hrow as [|l row Hl _ IHr]; intros m Hm; cbn [foldl]; [done|]. apply IHr. lia.
Qed.

Lemma max_label_ge rows l row : row ∈ rows → l ∈ row → l <= max_label rows.
Proof.
  unfold max_label.
  assert (Hmono : ∀ row m, m <= foldl Z.max m row ∧ ∀ l, l ∈ row → l <= foldl Z.max m row).
  { clear. intros row. induction row as [|x row IH]; intros m; simpl; [split; [lia|set_solver]|].
    destruct (IH (Z.max m x)) as [H1 H2]. split; [lia|]. intros l [->|Hl]%elem_of_cons; [lia|by apply H2]. }
  assert (Hrows : ∀ rows m, m <= foldl (foldl Z.max) m rows
    ∧ ∀ row l, row ∈ rows → l ∈ row → l <= foldl (foldl Z.max) m rows).
  { clear -Hmono. intros rows. induction rows as [|row rows IH]; intros m; simpl; [split; [lia|set_solver]|].
    destruct (IH (foldl Z.max m row)) as [H1 H2]. destruct (Hmono row m) as [H3 H4]. split; [lia|].
    intros row' l [->|Hr]%elem_of_cons Hl; [specialize (H4 l Hl); lia|by eapply H2]. }
  intros Hr Hl. by eapply Hrows.
Qed.

(** The vectors from id [k] on that carry a label. *)
Fixpoint ids_from (k : Z) (rows : list (list Z)) (l : Z) : list Z :=
  match rows with
  | [] => []
  | row :: rows => (if decide (l ∈ row) then [k] else []) ++ ids_from (k + 1) rows l
  end.

Lemma ids_from_elem k rows l v :
  v ∈ ids_from k rows l ↔ ∃ i row, rows !! i = Some row ∧ l ∈ row ∧ v = k + Z.of_nat i.
Proof.
  revert k. induction rows as [|row rows IH]; intros k; simpl; [set_solver|].
  rewrite elem_of_app, IH. split.
  - intros [Hv|(i & row' & Hi & Hl & ->)]; [case_decide; [|set_solver]|].
    + apply list_elem_of_singleton in Hv as ->. exists 0%nat, row. split_and!; [done|done|lia].
    + exists (S i), row'. split_and!; [done|done|lia].
  - intros ([|i] & row' & Hi & Hl & ->); simplify_eq/=.
    + left. rewrite decide_True by done. apply list_elem_of_singleton. lia.
    + right. exists i, row'. split_and!; [done|done|lia].
Qed.

Lemma ids_from_sorted k rows l : id_list (ids_from k rows l).
Proof.
  revert k. induction rows as [|row rows IH]; intros k; simpl; [constructor|].
  case_decide; [|apply IH]. apply id_list_cons. split; [|apply IH].
  intros y (i & row' & _ & _ & ->)%ids_from_elem. lia.
Qed.

Lemma invert_row_spec row lists i :
  NoDup row → Forall (λ l, 0 <= l ∧ (Z.to_nat l < length lists)%nat) row →
  ∃ lists', invert_row (Some lists) i row = Some lists' ∧ length lists' = length lists
  ∧ ∀ l ids, lists !! l = Some ids →
      lists' !! l = Some (ids ++ if decide (Z.of_nat l ∈ row) then [i] else []).
Proof.
  intros Hnd. revert lists. induction Hnd as [|x row Hx _ IH]; intros lists Hr.
  { exists lists. split_and!; [done|done|]. intros l ids Hl. rewrite decide_False by set_solver.
    by rewrite app_nil_r. }
  apply Forall_cons in Hr as [[Hx0 Hxl] Hr]. unfold invert_row. cbn [foldl mbind option_bind].
  destruct (lookup_lt_is_Some_2 lists (Z.to_nat x)) as [old Hold]; [lia|]. rewrite Hold. cbn [mbind option_bind].
  rewrite vset_Some by lia.
  destruct (IH (<[Z.to_nat x := old ++ [i]]> lists)) as (lists' & Hf & Hl & Hspec).
  { by rewrite length_insert. }
  exists lists'. split; [exact Hf|]. split; [by rewrite Hl, length_insert|]. intros l ids Hid.
  destruct (decide (l = Z.to_nat x)) as [->|Hne].
  - rewrite Hold in Hid. injection Hid as <-.
    rewrite (Hspec (Z.to_nat x) (old ++ [i])) by (rewrite list_lookup_insert_eq; [done|lia]).
    rewrite decide_False by (rewrite Z2Nat.id by lia; done).
    rewrite decide_True by (rewrite Z2Nat.id by lia; set_solver). by rewrite app_nil_r.
  - rewrite (Hspec l ids) by (by rewrite list_lookup_insert_ne).
    assert (Z.of_nat l ≠ x) by lia. f_equal. f_equal. by apply decide_ext; set_solver.
Qed.

Lemma invert_loop_spec rows k lists :
  Forall NoDup rows → Forall (Forall (λ l, 0 <= l ∧ (Z.to_nat l < length lists)%nat)) rows →
  ∃ lists', foldl (λ acc '(i, row), invert_row acc (Z.of_nat i) row) (Some lists) (zip (seq k (length rows)) rows)
    = Some lists' ∧ length lists' = length lists
  ∧ ∀ l ids, lists !! l = Some ids → lists' !! l = Some (ids ++ ids_from (Z.of_nat k) rows (Z.of_nat l)).
Proof.
  intros Hnd. revert k lists. induction Hnd as [|row rows Hrow _ IH]; intros k lists Hr.
  { exists lists. split_and!; [done|done|]. intros l ids Hl. simpl. by rewrite app_nil_r. }
  apply Forall_cons in Hr as [Hr Hrs]. cbn [length seq zip zip_with foldl].
  destruct (invert_row_spec row lists (Z.of_nat k) Hrow Hr) as (l1 & -> & Hl1 & Hs1).
  destruct (IH (S k) l1) as (l2 & Hf & Hl2 & Hs2).
  { eapply Forall_impl; [exact Hrs|]. intros r. by rewrite Hl1. }
  exists l2. split; [exact Hf|]. split; [congruence|]. intros l ids Hid.
  rewrite (Hs2 l _ (Hs1 l ids Hid)). rewrite <- app_assoc. f_equal. f_equal. cbn [ids_from].
  by replace (Z.of_nat (S k)) with (Z.of_nat k + 1) by lia.
Qed.

(** What [invert] returns for rows of distinct labels. *)
Lemma invert_spec rows :
  Forall NoDup rows → Forall (Forall (λ l, 0 <= l < 2 ^ 32 - 1)) rows →
  ∃ lists, invert rows = Some lists ∧ length lists = (Z.to_nat (max_label rows) + 1)%nat
  ∧ ∀ l, (l < length lists)%nat → lists !! l = Some (ids_from 0 rows (Z.of_nat l)).
Proof.
  intros Hnd Hpos. unfold invert. pose proof (max_label_bound (2 ^ 32 - 1) rows ltac:(lia) Hpos) as Hm.
  rewrite u32_small by (unfold is_u32; lia). replace (Z.to_nat (max_label rows + 1)) with (Z.to_nat (max_label rows) + 1)%nat by lia.
  destruct (invert_loop_spec rows 0 (replicate (Z.to_nat (max_label rows) + 1) []) Hnd) as (lists & Hf & Hl & Hs).
  - apply Forall_forall. intros row Hrow. apply Forall_forall. intros l Hl'.
    rewrite Forall_forall in Hpos. specialize (Hpos row Hrow). rewrite Forall_forall in Hpos.
    specialize (Hpos l Hl'). pose proof (max_label_ge rows l row Hrow Hl'). rewrite length_replicate. lia.
  - rewrite length_replicate in Hl. exists lists. split; [exact Hf|]. split; [done|].
    intros l Hlt. rewrite (Hs l []); [done|]. apply lookup_replicate. split; [done|lia].
Qed.

(** ** The inverted file *)

Lemma round_up_ge x : 0 <= x → x <= ROUND_UP x SECTOR_LEN.
Proof.
  intros Hx. unfold ROUND_UP, SECTOR_LEN. pose proof (Z.div_mod x 4096). pose proof (Z.mod_pos_bound x 4096).
  case_if; lia.
Qed.

Lemma locs_from_length cur lists : length (locs_from cur lists) = length lists.
Proof. revert cur. induction lists as [|l lists IH]; intros cur; simpl; [done|]. by rewrite IH. Qed.

Lemma locs_from_lookup cur lists l ids :
  lists !! l = Some ids →
  ∃ st, locs_from cur lists !! l = Some (st, st + Z.of_nat (length ids) * 4) ∧ (0 <= cur → cur <= st).
Proof.
  revert cur l. induction lists as [|x lists IH]; intros cur [|l] Hl; simplify_eq/=; [by exists cur|].
  destruct (IH (cur + ROUND_UP (Z.of_nat (length x) * 4) SECTOR_LEN) l Hl) as (st & Hst & Hle).
  exists st. split; [done|]. intros Hc. pose proof (round_up_ge (Z.of_nat (length x) * 4) ltac:(lia)). lia.
Qed.

Definition write_lists (f : list Z) (locs : list (Z * Z)) (lists : list (list Z)) : list Z :=
  foldl (λ f '(loc, ids), write_at f (Z.to_nat (loc : Z * Z).1) (words ids)) f (zip locs lists).

(** The lists are written back to back, each at its own sectors: what lies in front
    stays, and every list reads back. *)
Lemma write_lists_spec lists cur f :
  0 <= cur → Forall (Forall is_u32) lists →
  let f' := write_lists f (locs_from cur lists) lists in
  (∀ st ed, (ed <= Z.to_nat cur)%nat → (ed <= length f)%nat → region f' st ed = region f st ed)
  ∧ (∀ l ids loc, lists !! l = Some ids → locs_from cur lists !! l = Some loc → read_list f' loc = ids)
  ∧ (length f <= length f')%nat.
Proof.
  intros Hc Hu. revert cur f Hc. induction Hu as [|x lists Hx _ IH]; intros cur f Hc; [done|].
  cbn zeta. unfold write_lists. cbn [locs_from zip zip_with foldl fst].
  set (f1 := write_at f (Z.to_nat cur) (words x)).
  set (cur' := cur + ROUND_UP (Z.of_nat (length x) * 4) SECTOR_LEN).
  pose proof (round_up_ge (Z.of_nat (length x) * 4) ltac:(lia)) as Hru.
  destruct (IH cur' f1 ltac:(unfold cur'; lia)) as (Hpre & Hrd & Hlen). fold (write_lists f1 (locs_from cur' lists) lists).
  pose proof (write_at_length f (Z.to_nat cur) (words x)) as Hl1. fold f1 in Hl1. rewrite words_length in Hl1.
  split_and!.
  - intros st ed He Hef. rewrite Hpre by (unfold cur'; lia). by apply region_write_at_before.
  - intros [|l] ids loc Hl Hloc; simplify_eq/=; [|by eapply Hrd].
    unfold read_list. simpl. rewrite Hpre by (unfold cur'; lia).
    replace (Z.to_nat (cur + Z.of_nat (length ids) * 4))%nat with (Z.to_nat cur + length (words ids))%nat
      by (rewrite words_length; lia).
    unfold f1. rewrite region_write_at_same. by apply words_at_words.
  - lia.
Qed.

Lemma save_inverted_read lists l ids loc :
  Forall (Forall is_u32) lists → lists !! l = Some ids → (save_inverted lists).1 !! l = Some loc →
  read_list (save_inverted lists).2 loc = ids.
Proof.
  intros Hu Hl. unfold save_inverted. cbn [fst snd]. intros Hloc.
  pose proof (round_up_ge (8 + 2 * Z.of_nat (length lists) * 8) ltac:(lia)) as Hru.
  destruct (write_lists_spec lists (ROUND_UP (8 + 2 * Z.of_nat (length lists) * 8) SECTOR_LEN)
    (header_bytes (locs_from (ROUND_UP (8 + 2 * Z.of_nat (length lists) * 8) SECTOR_LEN) lists))
    ltac:(lia) Hu) as (_ & Hr & _). by eapply Hr.
Qed.

Lemma save_inverted_locs lists : length (save_inverted lists).1 = length lists.
Proof. apply locs_from_length. Qed.

Lemma save_inverted_loc lists l ids :
  lists !! l = Some ids →
  ∃ st, (save_inverted lists).1 !! l = Some (st, st + Z.of_nat (length ids) * 4) ∧ 0 <= st.
Proof.
  intros Hl. destruct (locs_from_lookup (ROUND_UP (8 + 2 * Z.of_nat (length lists) * 8) SECTOR_LEN) _ _ _ Hl)
    as (st & Hst & Hle). exists st. split; [done|].
  pose proof (round_up_ge (8 + 2 * Z.of_nat (length lists) * 8) ltac:(lia)). lia.
Qed.

(** ** The filters *)
Section filters.
Context (t : InvertedLabelAttrIndex).

(** The array has a filter for every vector below [n], addressed without wrap. *)
Record bloom_space (data : list Z) (n : Z) : Prop := mkBloomSpace {
  bs_bytes : 0 < bloom_bytes_per_point_ t < 2 ^ 29;
  bs_fit : n * bloom_bytes_per_point_ t <= Z.of_nat (length data);
  bs_nowrap : n * bloom_bytes_per_point_ t <= 2 ^ 32
}.

Lemma bloom_base_eq data n v : bloom_space data n → 0 <= v < n → bloom_base t v = v * bloom_bytes_per_point_ t.
Proof. intros [] Hv. unfold bloom_base. apply u32_small. unfold is_u32. nia. Qed.

Lemma bloom_slice data n v :
  bloom_space data n → 0 <= v < n → slice_ok data (bloom_base t v) (bloom_bytes_per_point_ t).
Proof.
  intros Hs Hv. pose proof (bloom_base_eq data n v Hs Hv) as Hb. destruct Hs.
  rewrite Hb. split; [nia|done|nia].
Qed.

(** A family of (vector, label) insertions. *)
Lemma add_all_spec (adds : list (Z * Z)) data n :
  bloom_space data n → Forall (λ a, 0 <= a.1 < n) adds →
  ∃ data', foldl (λ acc a, data ← acc; bf_add t data a.1 a.2) (Some data) adds = Some data'
  ∧ bits_sub data data'
  ∧ ∀ v l, (v, l) ∈ adds → bloom_contains data' (bloom_base t v) (bloom_bytes_per_point_ t) l = Some true.
Proof.
  intros Hs Hadds. revert data Hs. induction Hadds as [|[v l] adds Hv _ IH]; intros data Hs; cbn [foldl].
  { exists data. split; [done|]. split; [reflexivity|set_solver]. }
  cbn [mbind option_bind fst snd] in *. unfold bf_add at 2.
  destruct (bloom_add_spec data _ _ l (bloom_slice data n v Hs Hv)) as (d1 & -> & Hs1 & Hc1).
  destruct (IH d1) as (d2 & Hf & Hs2 & Hc2).
  { destruct Hs, Hs1 as [Hl1 _]. split; [done|lia|done]. }
  exists d2. split; [exact Hf|]. split; [by etrans|]. intros v' l' [?|Hin]%elem_of_cons; simplify_eq.
  - by eapply bloom_contains_mono.
  - by apply Hc2.
Qed.

(** The insertions of [build_bloom]. *)
Definition hot_adds (k : nat) (lists : list (list Z)) : list (Z * Z) :=
  concat (map (λ '(label, ids),
                 if Z.of_nat (length ids) <? kApproxFilterThreshold then []
                 else map (λ id, (id, Z.of_nat label)) ids) (zip (seq k (length lists)) lists)).

Lemma build_bloom_adds lists :
  build_bloom t lists =
  foldl (λ acc a, data ← acc; bf_add t data a.1 a.2)
    (Some (replicate (Z.to_nat (n_vectors t * bloom_bytes_per_point_ t)) 0)) (hot_adds 0 lists).
Proof.
  unfold build_bloom. generalize (Some (replicate (Z.to_nat (n_vectors t * bloom_bytes_per_point_ t)) 0)).
  generalize 0%nat as k. induction lists as [|ids lists IH]; intros k acc; [done|].
  unfold hot_adds. cbn [length seq zip zip_with foldl map concat]. fold (hot_adds (S k) lists).
  rewrite foldl_app, IH. f_equal. case_if; [done|].
  clear. revert acc. induction ids as [|id ids IHi]; intros acc; cbn [foldl map]; [done|]. by rewrite IHi.
Qed.

Lemma hot_adds_elem k lists v l :
  (v, l) ∈ hot_adds k lists ↔
  ∃ i ids, lists !! i = Some ids ∧ l = Z.of_nat (k + i) ∧ v ∈ ids ∧ kApproxFilterThreshold <= Z.of_nat (length ids).
Proof.
  revert k. induction lists as [|x lists IH]; intros k.
  { split; [set_solver|]. intros (i & ids & Hi & _). done. }
  unfold hot_adds. cbn [length seq zip zip_with map concat]. fold (hot_adds (S k) lists).
  rewrite elem_of_app, IH. split.
  - intros [Hin|(i & ids & Hi & -> & Hv & Hh)].
    + revert Hin. case_if; [set_solver|]. intros (id & ? & Hid)%list_elem_of_fmap. simplify_eq.
      exists 0%nat, x. rewrite Nat.add_0_r. done.
    + exists (S i), ids. rewrite Nat.add_succ_r. done.
  - intros ([|i] & ids & Hi & -> & Hv & Hh); simplify_eq/=.
    + left. rewrite (proj2 (Z.ltb_ge _ _)) by done. apply list_elem_of_fmap. exists v.
      by rewrite Nat.add_0_r.
    + right. exists i, ids. by rewrite Nat.add_succ_r.
Qed.
End filters.

(** ** Saving *)

Definition new_index (bloom_bytes : Z) : InvertedLabelAttrIndex :=
  mkLabel 0 0 [] [] 0 [] bloom_bytes ∅ 0 [] [].

(** Rows of distinct labels below the largest 32-bit number, few enough for 32-bit filter
    offsets. *)
Record rows_ok (rows : list (list Z)) (bloom_bytes : Z) : Prop := mkRowsOk {
  ro_nodup : Forall NoDup rows;
  ro_labels : Forall (Forall (λ l, 0 <= l < 2 ^ 32 - 1)) rows;
  ro_bytes : 0 < bloom_bytes < 2 ^ 29;
  ro_size : Z.of_nat (length rows) * bloom_bytes <= 2 ^ 32;
  ro_count : Z.of_nat (length rows) < 2 ^ 32
}.

Lemma ids_from_length k rows l : (length (ids_from k rows l) <= length rows)%nat.
Proof.
  revert k. induction rows as [|row rows IH]; intros k; simpl; [lia|]. specialize (IH (k + 1)).
  case_decide; simpl; lia.
Qed.

Lemma estimate_of_loc t l st n :
  label_loc_ t !! Z.to_nat l = Some (st, st + n * 4) → 0 <= n < 2 ^ 32 → estimate_label_cnt t l = n.
Proof.
  intros Hl Hn. unfold estimate_label_cnt. rewrite Hl. replace (st + n * 4 - st) with (n * 4) by lia.
  rewrite u64_small by (unfold is_u64; lia). rewrite Z.div_mul by lia. apply u32_small. unfold is_u32. lia.
Qed.

Lemma save_correct rows bloom_bytes :
  rows_ok rows bloom_bytes →
  ∃ t, save (load_from_rows (new_index bloom_bytes) rows) = Some t
  ∧ label_ok t ∧ n_vectors t = Z.of_nat (length rows) ∧ delta_ t = ∅
  ∧ ∀ l, 0 <= l → label_list t l = ids_from 0 rows l.
Proof.
  intros [Hnd Hpos Hb Hsz Hcnt]. unfold save. cbn [labels_ load_from_rows new_index].
  destruct (invert_spec rows Hnd Hpos) as (lists & -> & Hlen & Hlists). cbn [mbind option_bind].
  assert (Hids : ∀ l ids, lists !! l = Some ids → ids = ids_from 0 rows (Z.of_nat l)).
  { intros l ids Hl. pose proof (lookup_lt_Some _ _ _ Hl) as Hlt. rewrite (Hlists l Hlt) in Hl. congruence. }
  assert (Hu : Forall (Forall is_u32) lists).
  { apply Forall_forall. intros ids (l & Hl)%list_elem_of_lookup. rewrite (Hids l ids Hl).
    apply Forall_forall. intros v (i & row & Hi & _ & ->)%ids_from_elem.
    pose proof (lookup_lt_Some _ _ _ Hi). unfold is_u32. lia. }
  set (t0 := load_from_rows (new_index bloom_bytes) rows).
  rewrite build_bloom_adds.
  destruct (add_all_spec t0 (hot_adds 0 lists)
    (replicate (Z.to_nat (n_vectors t0 * bloom_bytes_per_point_ t0)) 0) (n_vectors t0)) as (bloom & -> & Hsub & Hadd).
  { split; simpl; [done|rewrite length_replicate; lia|done]. }
  { apply Forall_forall. intros [v l] (i & ids & Hi & -> & Hv & _)%hot_adds_elem. simpl.
    rewrite (Hids i ids Hi) in Hv. apply ids_from_elem in Hv as (j & row & Hj & _ & ->).
    pose proof (lookup_lt_Some _ _ _ Hj). lia. }
  cbn [mbind option_bind]. destruct (save_inverted lists) as [locs f] eqn:Hsv.
  eexists. split; [reflexivity|]. cbn [n_vectors base_n_vectors_ label_loc_ bloom_filters_ bloom_bytes_per_point_ delta_ file].
  assert (Hloc : ∀ l, 0 <= l → match locs !! Z.to_nat l with None => [] | Some loc => read_list f loc end
                               = ids_from 0 rows l).
  { intros l Hl. destruct (locs !! Z.to_nat l) as [loc|] eqn:Hloc.
    - pose proof (lookup_lt_Some _ _ _ Hloc) as Hlt.
      assert (length locs = length lists) as Hll by (pose proof (save_inverted_locs lists); by rewrite Hsv in *).
      rewrite Hll in Hlt. pose proof (Hlists _ Hlt) as Hl'. rewrite Z2Nat.id in Hl' by done.
      pose proof (save_inverted_read lists (Z.to_nat l) _ loc Hu Hl') as Hr. rewrite Hsv in Hr. by apply Hr.
    - apply lookup_ge_None in Hloc.
      assert (length locs = length lists) as Hll by (pose proof (save_inverted_locs lists); by rewrite Hsv in *).
      destruct (ids_from 0 rows l) as [|v vs] eqn:He; [done|].
      assert (v ∈ ids_from 0 rows l) as Hv by (rewrite He; set_solver).
      apply ids_from_elem in Hv as (i & row & Hi & Hlr & _).
      pose proof (max_label_ge rows l row ltac:(by eapply list_elem_of_lookup_2) Hlr). lia. }
  assert (Hll : ∀ l, 0 <= l → label_list (mkLabel (n_vectors t0) (n_vectors t0) locs (labels_ t0) (max_attrs_ t0)
      bloom bloom_bytes ∅ 0 f (save_approx (mkLabel (n_vectors t0) (n_vectors t0) locs (labels_ t0) (max_attrs_ t0) bloom
      bloom_bytes ∅ 0 f []))) l = ids_from 0 rows l).
  { intros l Hl. rewrite <- (Hloc l Hl). unfold label_list. cbn [label_loc_ file delta_].
    destruct (locs !! Z.to_nat l); [|done]. by rewrite lookup_empty, app_nil_r. }
  split; [|split; [done|split; [done|exact Hll]]].
  assert (Hin : ∀ l v, v ∈ ids_from 0 rows l → 0 <= v < n_vectors t0).
  { intros l v (i & row & Hi & _ & ->)%ids_from_elem. pose proof (lookup_lt_Some _ _ _ Hi). simpl. lia. }
  split.
  - intros l Hl. rewrite Hll by done. apply ids_from_sorted.
  - intros l v Hl. rewrite Hll by done. apply Hin.
  - intros v Hv. apply (bloom_slice _ _ (n_vectors t0)); [|done].
    destruct Hsub as [Hbl _]. split; simpl; [done| |done]. rewrite length_replicate in Hbl. simpl in Hbl. lia.
  - intros l ids _ Hd. change ((∅ : gmap Z (list Z)) !! l = Some ids) in Hd. by rewrite lookup_empty in Hd.
  - intros l v Hl. rewrite Hll by done. intros Hv Hc. apply (Hadd v l). apply hot_adds_elem.
    destruct (lookup_lt_is_Some_2 lists (Z.to_nat l)) as [ids Hidl].
    { rewrite Hlen. apply ids_from_elem in Hv as (i & row & Hi & Hlr & _).
      pose proof (max_label_ge rows l row ltac:(by eapply list_elem_of_lookup_2) Hlr). lia. }
    exists (Z.to_nat l), ids. pose proof (Hids _ _ Hidl) as Heq. rewrite Z2Nat.id in Heq by done.
    split_and!; [done|lia|by rewrite Heq|]. apply Z.ltb_ge in Hc.
    destruct (save_inverted_loc lists (Z.to_nat l) ids Hidl) as (st & Hst & _). rewrite Hsv in Hst.
    rewrite (estimate_of_loc _ l st (Z.of_nat (length ids))) in Hc; [done|done|].
    rewrite Heq. pose proof (ids_from_length 0 rows l). lia.
Qed.

(** saving an index built from rows of distinct labels and searching it is
    exact: the inverted file holds, for every label, exactly the vectors whose row
    contains it, in increasing order, and the result satisfies the search
    invariant (every hot label is in the filters of its vectors). *)
Theorem label_save_correct rows bloom_bytes :
  rows_ok rows bloom_bytes →
  ∃ t, save (load_from_rows (new_index bloom_bytes) rows) = Some t ∧ label_ok t
  ∧ n_vectors t = Z.of_nat (length rows)
  ∧ ∀ l v, 0 <= l → v ∈ label_list t l ↔ 0 <= v ∧ ∃ row, rows !! Z.to_nat v = Some row ∧ l ∈ row.
Proof.
  intros Hr. destruct (save_correct rows bloom_bytes Hr) as (t & Hs & Hok & Hn & _ & Hl).
  exists t. split_and!; try done. intros l v Hl0. rewrite Hl, ids_from_elem by done. split.
  - intros (i & row & Hi & Hlr & ->). split; [lia|]. exists row. by rewrite Z.add_0_l, Nat2Z.id.
  - intros (Hv & row & Hi & Hlr). exists (Z.to_nat v), row. split_and!; [done|done|lia].
Qed.

(** Three vectors with labels [1; 2], [] and [2]. *)
Definition example_rows : list (list Z) := [[1; 2]; []; [2]].

Lemma example_rows_ok : rows_ok example_rows 4.
Proof.
  split; try done.
  - unfold example_rows. rewrite !Forall_cons. split_and!; try done; apply (bool_decide_unpack _); by vm_compute.
  - unfold example_rows. rewrite !Forall_cons. split_and!; try done; rewrite ?Forall_cons; split_and?; try done; lia.
Qed.

Lemma label_save_correct_witness :
  ∃ t, save (load_from_rows (new_index 4) example_rows) = Some t ∧ 2 ∈ label_list t 2.
Proof.
  destruct (label_save_correct example_rows 4 example_rows_ok) as (t & Hs & Hok & Hn & Hl).
  exists t. split; [exact Hs|]. apply (Hl 2 2); [lia|]. split; [lia|]. exists [2].
  split; [reflexivity|]. apply (bool_decide_unpack _). by vm_compute.
Defined.

(** ** Inserting *)

Lemma vresize_sub d n : (length d <= n)%nat → bits_sub d (vresize d n 0).
Proof.
  intros Hn. unfold bits_sub. rewrite vresize_length. split; [done|]. intros i b Hb. exists b.
  split; [|apply Z.land_diag]. unfold vresize. rewrite take_ge by lia. by apply lookup_app_l_Some.
Qed.

Lemma push_delta_all attr d v l :
  NoDup attr →
  foldl (λ d label, push_delta d label v) d attr !! l
  = if decide (l ∈ attr) then Some (match d !! l with Some ids => ids | None => [] end ++ [v]) else d !! l.
Proof.
  intros Hnd. revert d. induction Hnd as [|x attr Hx _ IH]; intros d; cbn [foldl]; [done|].
  rewrite IH. unfold push_delta. destruct (decide (l = x)) as [->|Hne].
  - rewrite decide_False by done. rewrite decide_True by set_solver. by rewrite lookup_insert_eq.
  - rewrite lookup_insert_ne by done. apply decide_ext. set_solver.
Qed.

Lemma resize_locs_spec attr locs :
  (∀ l, l ∈ attr → 0 <= l < 2 ^ 32 - 1) →
  (length locs <= length (foldl resize_locs locs attr))%nat
  ∧ (∀ l, l ∈ attr → (Z.to_nat l < length (foldl resize_locs locs attr))%nat)
  ∧ (∀ i, (i < length (foldl resize_locs locs attr))%nat →
       foldl resize_locs locs attr !! i = Some (match locs !! i with Some loc => loc | None => (0, 0) end)).
Proof.
  revert locs. induction attr as [|x attr IH]; intros locs Hx; cbn [foldl].
  { split_and!; [lia|set_solver|]. intros i Hi. by destruct (lookup_lt_is_Some_2 _ _ Hi) as [loc ->]. }
  destruct (IH (resize_locs locs x)) as (H1 & H2 & H3); [set_solver|]. specialize (Hx x ltac:(set_solver)).
  assert (Hr : (length locs <= length (resize_locs locs x))%nat ∧ (Z.to_nat x < length (resize_locs locs x))%nat
    ∧ ∀ i, match resize_locs locs x !! i with Some loc => loc | None => (0, 0) end
           = match locs !! i with Some loc => loc | None => (0, 0) end).
  { unfold resize_locs. rewrite u32_small by (unfold is_u32; lia). case_if; [|split_and!; [lia|lia|done]]. rewrite vresize_length. split_and!; [lia|lia|].
    intros i. unfold vresize. rewrite take_ge by lia.
    destruct (locs !! i) as [loc|] eqn:Hi; [by rewrite (lookup_app_l_Some _ _ _ _ Hi)|].
    apply lookup_ge_None in Hi. rewrite lookup_app_r by done.
    destruct (replicate _ _ !! _) eqn:Hrep; [|done]. by apply lookup_replicate in Hrep as [-> _]. }
  destruct Hr as (R1 & R2 & R3). split_and!; [lia| |].
  - intros l [->|Hl]%elem_of_cons; [lia|by apply H2].
  - intros i Hi. rewrite (H3 i Hi). by rewrite R3.
Qed.

Lemma read_list_empty f : read_list f (0, 0) = [].
Proof. done. Qed.

(** What an insertion may assume: a fresh id, distinct labels, room in 32-bit
    filter offsets, and no pending merge. *)
Record insert_pre (t : InvertedLabelAttrIndex) (v : Z) (attr : list Z) : Prop := mkInsertPre {
  ip_fresh : 0 <= n_vectors t <= v;
  ip_nodup : NoDup attr;
  ip_labels : ∀ l, l ∈ attr → 0 <= l < 2 ^ 32 - 1;
  ip_bytes : 0 < bloom_bytes_per_point_ t < 2 ^ 29;
  ip_room : (v + 1) * bloom_bytes_per_point_ t < 2 ^ 32;
  ip_nomerge : delta_bytes_ t + 8 * Z.of_nat (length attr)
    < Z.max (4 * 1024 * 1024) (bloom_bytes_per_point_ t * base_n_vectors_ t / 8)
}.

(** The filter array after the resize. *)
Lemma insert_resize t v attr :
  insert_pre t v attr →
  ∃ bloom, (if Z.of_nat (length (bloom_filters_ t)) <=? u32 (bloom_bytes_per_point_ t * u32 (v + 1))
            then vresize (bloom_filters_ t) (Z.to_nat (Z.max (3 * u32 (bloom_bytes_per_point_ t * u32 (v + 1)) / 2) 1024)) 0
            else bloom_filters_ t) = bloom
  ∧ bits_sub (bloom_filters_ t) bloom ∧ bloom_space t bloom (v + 1).
Proof.
  intros []. eexists. split; [reflexivity|].
  rewrite (u32_small (v + 1)) by (unfold is_u32; nia).
  rewrite (u32_small (bloom_bytes_per_point_ t * (v + 1))) by (unfold is_u32; nia).
  set (req := bloom_bytes_per_point_ t * (v + 1)). assert (0 <= req) by (unfold req; nia).
  assert (req <= 3 * req / 2) by (apply Z.div_le_lower_bound; lia).
  case_if.
  - split; [apply vresize_sub; lia|]. split; [done| |lia]. rewrite vresize_length. fold req. unfold req in *. lia.
  - split; [reflexivity|]. split; [done| |lia]. unfold req in *. lia.
Qed.

(** inserting a fresh vector with distinct labels (when no merge is due)
    succeeds, appends the vector to exactly the lists of its labels, and keeps the
    search invariant: the new vector is found by every query on its labels, cold
    or hot, at once. *)
Theorem label_insert_correct t v attr :
  label_ok t → insert_pre t v attr →
  ∃ t', insert t v attr = Some t' ∧ label_ok t' ∧ n_vectors t' = v + 1
  ∧ ∀ l, 0 <= l → label_list t' l = label_list t l ++ (if decide (l ∈ attr) then [v] else []).
Proof.
  intros Hok Hpre. unfold insert.
  destruct (insert_resize t v attr Hpre) as (bloom0 & -> & Hsub0 & Hsp0). pose proof Hpre as [].
  replace (foldl (λ acc label, data ← acc; bf_add t data v label) (Some bloom0) attr)
    with (foldl (λ acc a, data ← acc; bf_add t data a.1 a.2) (Some bloom0) (map (λ l, (v, l)) attr))
    by (generalize (Some bloom0); clear; induction attr as [|x attr IH]; intros acc; cbn [foldl map]; [done|apply IH]).
  destruct (add_all_spec t (map (λ l, (v, l)) attr) bloom0 (v + 1) Hsp0) as (bloom & -> & Hsub1 & Hadd).
  { apply Forall_forall. intros [v' l] (l' & ? & _)%list_elem_of_fmap. simplify_eq/=. lia. }
  cbn [mbind option_bind]. rewrite (proj2 (Z.leb_gt _ _)) by done.
  destruct (resize_locs_spec attr (label_loc_ t) ip_labels0) as (Rl & Ra & Rk).
  set (locs := foldl resize_locs (label_loc_ t) attr) in *.
  eexists. split; [reflexivity|]. rewrite Z.max_r by lia.
  match goal with |- label_ok ?x ∧ _ => set (t' := x) end.
  assert (Hll : ∀ l, 0 <= l → label_list t' l = label_list t l ++ (if decide (l ∈ attr) then [v] else [])).
  { intros l Hl. unfold label_list, t'. cbn [label_loc_ file delta_]. rewrite push_delta_all by done.
    destruct (locs !! Z.to_nat l) as [loc|] eqn:Hloc.
    - pose proof (lookup_lt_Some _ _ _ Hloc) as Hlt. rewrite (Rk _ Hlt) in Hloc.
      destruct (label_loc_ t !! Z.to_nat l) as [loc0|] eqn:Hl0; simplify_eq.
      + case_decide; [by rewrite app_assoc|by rewrite app_nil_r].
      + assert (delta_ t !! l = None) as ->.
        { apply eq_None_not_Some. intros [ids Hd]. apply lookup_ge_None in Hl0.
          pose proof (lk_delta _ Hok _ _ Hl Hd). lia. }
        rewrite read_list_empty. by case_decide.
    - apply lookup_ge_None in Hloc. rewrite decide_False by (intros Hin%Ra; lia).
      rewrite lookup_ge_None_2 by lia. done. }
  assert (Hcold : ∀ l, is_cold_label t' l = is_cold_label t l).
  { intros l. unfold is_cold_label, estimate_label_cnt, t'. cbn [label_loc_].
    destruct (locs !! Z.to_nat l) as [loc|] eqn:Hloc.
    - pose proof (lookup_lt_Some _ _ _ Hloc) as Hlt. rewrite (Rk _ Hlt) in Hloc.
      by destruct (label_loc_ t !! Z.to_nat l); simplify_eq.
    - apply lookup_ge_None in Hloc. by rewrite lookup_ge_None_2 by lia. }
  split; [|split; [done|exact Hll]]. split.
  - intros l Hl. rewrite Hll by done. pose proof (lk_sorted _ Hok l Hl) as Hs. case_decide; [|by rewrite app_nil_r].
    assert (Hlt : ∀ y, y ∈ label_list t l → y < v) by (intros y Hy; pose proof (lk_ids _ Hok l y Hl Hy); lia).
    clear -Hs Hlt. induction (label_list t l) as [|x xs IH]; simpl; [repeat constructor|].
    apply id_list_cons in Hs as [Hx Hs]. apply id_list_cons. split; [|apply IH; [done|set_solver]].
    intros y Hy. apply elem_of_app in Hy as [Hy|Hy]; [by apply Hx|]. apply list_elem_of_singleton in Hy as ->. set_solver.
  - intros l v' Hl. rewrite Hll by done. cbn [n_vectors t']. intros [Hv|Hv]%elem_of_app.
    + pose proof (lk_ids _ Hok l v' Hl Hv). lia.
    + case_decide; [apply list_elem_of_singleton in Hv as ->; lia|set_solver].
  - intros v' Hv'. apply (bloom_slice t' bloom (v + 1)); [|done].
    destruct Hsp0, Hsub1 as [Hl1 _]. split; [done|simpl in *; lia|done].
  - intros l ids Hl. cbn [delta_ label_loc_ t']. rewrite push_delta_all by done. case_decide; [intros _; by apply Ra|].
    intros Hd. pose proof (lk_delta _ Hok _ _ Hl Hd). lia.
  - intros l v' Hl. rewrite Hll by done. rewrite Hcold. intros [Hv|Hv]%elem_of_app Hc.
    + apply (bloom_contains_mono (bloom_filters_ t)); [by etrans|]. by apply (lk_bloom _ Hok).
    + case_decide; [|set_solver]. apply list_elem_of_singleton in Hv as ->. apply Hadd.
      apply list_elem_of_fmap. by exists l.
Qed.

Lemma label_insert_correct_witness :
  ∃ t t', save (load_from_rows (new_index 4) example_rows) = Some t ∧ insert t 3 [5; 2] = Some t'
  ∧ label_list t' 2 = [0; 2; 3].
Proof.
  destruct (save_correct example_rows 4 example_rows_ok) as (t & Hs & Hok & Hn & _ & Hl).
  assert ((λ t, (bloom_bytes_per_point_ t, delta_bytes_ t, base_n_vectors_ t))
            <$> save (load_from_rows (new_index 4) example_rows) = Some (4, 0, 3)) as Hv by (by vm_compute).
  rewrite Hs in Hv. injection Hv as Hb Hd Hbase.
  destruct (label_insert_correct t 3 [5; 2] Hok) as (t' & Hi & _ & _ & Hl').
  { split; rewrite ?Hn, ?Hb, ?Hd, ?Hbase; simpl; try lia.
    - apply (bool_decide_unpack _). by vm_compute.
    - intros l. rewrite !elem_of_cons. intros [->|[->|H]]; [lia..|set_solver]. }
  exists t, t'. split; [exact Hs|]. split; [exact Hi|]. rewrite Hl', Hl by lia. by vm_compute.
Defined.

(** ** From rows to queries *)

(** *** Reopening *)

Lemma set_bit_length data base bit data' : set_bit data base bit = Some data' → length data' = length data.
Proof.
  unfold set_bit. destruct (data !! _) as [b|]; [|done]. cbn [mbind option_bind]. unfold vset. case_match; [|done].
  intros [= <-]. apply length_insert.
Qed.

Lemma bloom_add_length data base size label data' : bloom_add data base size label = Some data' → length data' = length data.
Proof.
  unfold bloom_add. revert data. induction (bloom_bits size label) as [|bit bits IH]; intros data; cbn [foldl]; [by intros [= <-]|].
  cbn [mbind option_bind]. destruct (set_bit data base bit) as [d1|] eqn:E.
  - intros H%IH. by rewrite H, (set_bit_length _ _ _ _ E).
  - intros H. exfalso. clear -H. induction bits as [|x bits IH]; [done|]. by apply IH.
Qed.

Lemma adds_length t (adds : list (Z * Z)) data data' :
  foldl (λ acc a, data ← acc; bf_add t data a.1 a.2) (Some data) adds = Some data' → length data' = length data.
Proof.
  revert data. induction adds as [|a adds IH]; intros data; cbn [foldl]; [by intros [= <-]|].
  cbn [mbind option_bind]. destruct (bf_add t data a.1 a.2) as [d1|] eqn:E.
  - intros H%IH. by rewrite H, (bloom_add_length _ _ _ _ _ E).
  - intros H. exfalso. clear -H. induction adds as [|x adds IH]; [done|]. by apply IH.
Qed.

Lemma round_up_lt x : 0 <= x → ROUND_UP x SECTOR_LEN < x + 4096.
Proof.
  intros Hx. unfold ROUND_UP, SECTOR_LEN. pose proof (Z.div_mod x 4096). pose proof (Z.mod_pos_bound x 4096).
  case_if; bool_to_prop; lia.
Qed.

(** The offsets of lists of at most [n] ids. *)
Lemma locs_from_bound n lists cur :
  0 <= cur → Forall (λ ids : list Z, Z.of_nat (length ids) <= n) lists →
  cur + Z.of_nat (length lists) * (4 * n + 4096) < 2 ^ 64 →
  Forall (λ loc : Z * Z, is_u64 loc.1 ∧ is_u64 loc.2) (locs_from cur lists).
Proof.
  intros Hc Hl. revert cur Hc. induction Hl as [|ids lists Hn _ IH]; intros cur Hc Hb; cbn [locs_from length] in *; [constructor|].
  pose proof (round_up_ge (Z.of_nat (length ids) * 4) ltac:(lia)). pose proof (round_up_lt (Z.of_nat (length ids) * 4) ltac:(lia)).
  constructor.
  - unfold is_u64. cbn [fst snd]. nia.
  - apply IH; [lia|]. nia.
Qed.

Lemma read_locs_app locs rest :
  Forall (λ loc : Z * Z, is_u64 loc.1 ∧ is_u64 loc.2) locs →
  read_locs (length locs) (concat (map (λ '(st, ed), le_bytes 8 st ++ le_bytes 8 ed) locs) ++ rest) = Some locs.
Proof.
  induction 1 as [|[st ed] locs [Hst Hed] _ IH]; [done|]. cbn [length read_locs map concat]. rewrite <- !app_assoc.
  rewrite read_u64_app by done. cbn [mbind option_bind]. rewrite read_u64_app by done. cbn [mbind option_bind].
  by rewrite IH.
Qed.

Lemma header_length locs : length (header_bytes locs) = (8 + 16 * length locs)%nat.
Proof.
  unfold header_bytes. rewrite length_app, le_bytes_length. f_equal.
  induction locs as [|[st ed] locs IH]; [done|]. cbn [map concat length]. rewrite !length_app, !le_bytes_length, IH. lia.
Qed.

(** The table of offsets reads back. *)
Lemma read_saved_locs n lists :
  Forall (Forall is_u32) lists → Forall (λ ids : list Z, Z.of_nat (length ids) <= n) lists → 0 <= n →
  Z.of_nat (length lists) * (4 * n + 4112) + 4104 < 2 ^ 64 →
  ('(n_labels, s) ← read_le 8 (save_inverted lists).2; read_locs (Z.to_nat n_labels) s) = Some (save_inverted lists).1.
Proof.
  intros Hu Hn Hn0 Hb. unfold save_inverted. cbn [fst snd].
  set (cur := ROUND_UP (8 + 2 * Z.of_nat (length lists) * 8) SECTOR_LEN). set (locs := locs_from cur lists).
  pose proof (round_up_ge (8 + 2 * Z.of_nat (length lists) * 8) ltac:(lia)) as Hge.
  pose proof (round_up_lt (8 + 2 * Z.of_nat (length lists) * 8) ltac:(lia)) as Hlt. fold cur in Hge, Hlt.
  assert (length locs = length lists) as Hll by apply locs_from_length.
  destruct (write_lists_spec lists cur (header_bytes locs) ltac:(lia) Hu) as (Hpre & _ & _).
  fold locs in Hpre. fold (write_lists (header_bytes locs) locs lists).
  specialize (Hpre 0%nat (length (header_bytes locs)) ltac:(rewrite header_length; lia) ltac:(lia)).
  unfold region in Hpre. rewrite !drop_0, Nat.sub_0_r, (take_ge (header_bytes locs)) in Hpre by lia.
  rewrite <- (take_drop (length (header_bytes locs)) (write_lists _ _ _)), Hpre. unfold header_bytes at 1. rewrite <- app_assoc.
  rewrite read_u64_app by (unfold is_u64; nia). cbn [mbind option_bind]. rewrite Nat2Z.id. apply read_locs_app.
  apply (locs_from_bound n); [lia|done|nia].
Qed.

(** The inverted file of the rows is smaller than 2^64 bytes. *)
Definition file_fits (rows : list (list Z)) : Prop :=
  (max_label rows + 1) * (4 * Z.of_nat (length rows) + 4112) + 4104 < 2 ^ 64.

(** What the two files hold. *)
Lemma saved_files_load rows bytes t :
  rows_ok rows bytes → file_fits rows → save (load_from_rows (new_index bytes) rows) = Some t →
  read_label_locs t = Some (label_loc_ t)
  ∧ BinFile.load_bin 1 (filter_file t) 0 = Some (bloom_filters_ t, Z.of_nat (length rows), bytes)
  ∧ delta_ t = ∅ ∧ bloom_bytes_per_point_ t = bytes.
Proof.
  intros [Hnd Hpos Hb Hsz Hcnt] Hfit. unfold save. cbn [labels_ load_from_rows new_index].
  destruct (invert_spec rows Hnd Hpos) as (lists & -> & Hlen & Hlists). cbn [mbind option_bind].
  pose proof (max_label_bound (2 ^ 32 - 1) rows ltac:(lia) Hpos) as Hm.
  set (t0 := load_from_rows (new_index bytes) rows). rewrite build_bloom_adds.
  destruct (foldl _ _ (hot_adds 0 lists)) as [bloom|] eqn:Eb; [|done]. apply adds_length in Eb. cbn [mbind option_bind].
  rewrite length_replicate in Eb. cbn [t0 load_from_rows n_vectors bloom_bytes_per_point_ new_index] in Eb.
  assert (Hids : ∀ ids, ids ∈ lists → ∃ l, ids = ids_from 0 rows l).
  { intros ids (l & Hl)%list_elem_of_lookup. pose proof (lookup_lt_Some _ _ _ Hl) as Hlt. rewrite (Hlists l Hlt) in Hl. naive_solver. }
  destruct (save_inverted lists) as [locs f] eqn:Hsv. intros [= <-]. split_and!; [| |done|done].
  - unfold read_label_locs. cbn [file label_loc_].
    pose proof (read_saved_locs (Z.of_nat (length rows)) lists) as Hr. rewrite Hsv in Hr. apply Hr; [| |lia|unfold file_fits in Hfit; nia].
    + apply Forall_forall. intros ids (l & ->)%Hids. apply Forall_forall. intros v (i & row & Hi & _ & ->)%ids_from_elem.
      pose proof (lookup_lt_Some _ _ _ Hi). unfold is_u32. lia.
    + apply Forall_forall. intros ids (l & ->)%Hids. pose proof (ids_from_length 0 rows l). lia.
  - unfold save_approx. cbn [filter_file n_vectors bloom_bytes_per_point_ bloom_filters_]. rewrite take_ge by lia.
    destruct (BinFile.save_load_bin 1 [] bloom (Z.of_nat (length rows)) bytes 0) as [E _];
      [unfold is_u32; lia|unfold is_u32; lia|lia|lia|lia|done|exact E].
Qed.

Lemma reopened rows :
  rows_ok rows 4 → file_fits rows →
  ∃ fs t, save_attr_index_from_rows rows = Some fs ∧ load_attr_index_from_file fs (Z.of_nat (length rows)) = Some t
  ∧ label_ok t ∧ n_vectors t = Z.of_nat (length rows) ∧ base_n_vectors_ t = Z.of_nat (length rows)
  ∧ bloom_bytes_per_point_ t = 4 ∧ delta_bytes_ t = 0 ∧ ∀ l, 0 <= l → label_list t l = ids_from 0 rows l.
Proof.
  intros Hr Hfit. destruct (save_correct rows 4 Hr) as (t & Hs & Hok & Hn & _ & Hl).
  destruct (saved_files_load rows 4 t Hr Hfit Hs) as (Hlocs & Hbin & Hd & Hby).
  exists (file t, filter_file t). unfold save_attr_index_from_rows.
  change (load_from_rows (create_empty_attr_index ([], []) _) rows) with (load_from_rows (new_index 4) rows).
  rewrite Hs. unfold load_attr_index_from_file, load_approx.
  change (read_label_locs (create_empty_attr_index (file t, filter_file t) _)) with (read_label_locs t).
  rewrite Hlocs. cbn [mbind option_bind filter_file create_empty_attr_index snd]. rewrite Hbin. cbn [mbind option_bind].
  eexists. split; [done|]. split; [reflexivity|].
  match goal with |- label_ok ?x ∧ _ => set (u := x) end.
  assert (Hll : ∀ l, label_list u l = label_list t l) by (intros l; unfold label_list, u; cbn [label_loc_ file delta_ fst]; by rewrite Hd).
  assert (Hbf : ∀ v l, bf_contains u v l = bf_contains t v l)
    by (intros v l; unfold bf_contains, bloom_base, u; cbn [bloom_filters_ bloom_bytes_per_point_]; by rewrite Hby).
  split; [|split_and!; [done..|intros l Hl0; by rewrite Hll, Hl]].
  destruct Hok as [K1 K2 K3 K4 K5]. rewrite Hn in K2, K3. split.
  - intros l Hl0. rewrite Hll. by apply K1.
  - intros l v Hl0. rewrite Hll. by apply K2.
  - intros v Hv. specialize (K3 v Hv). unfold bloom_base, u in *. cbn [bloom_filters_ bloom_bytes_per_point_] in *. by rewrite Hby in K3.
  - intros l ids _ Hdl. change ((∅ : gmap Z (list Z)) !! l = Some ids) in Hdl. by rewrite lookup_empty in Hdl.
  - intros l v Hl0. rewrite Hll, Hbf. by apply K5.
Qed.

(** *** A run of insertions *)

Definition insert_all (t : InvertedLabelAttrIndex) (ins : list (Z * list Z)) : option InvertedLabelAttrIndex :=
  foldl (λ acc a, t ← acc; insert t a.1 a.2) (Some t) ins.

(** Ids from [n] on in increasing order, distinct labels. *)
Fixpoint inserts_ok (n : Z) (ins : list (Z * list Z)) : Prop :=
  match ins with
  | [] => True
  | (v, attr) :: ins =>
      n <= v ∧ (v + 1) * 4 < 2 ^ 32 ∧ NoDup attr ∧ Forall (λ l, 0 <= l < 2 ^ 32 - 1) attr ∧ inserts_ok (v + 1) ins
  end.

(** The bytes the insertions are counted as. *)
Definition pending_bytes (ins : list (Z * list Z)) : Z := 8 * Z.of_nat (length (concat ins.*2)).

(** The insert of a vector, fields of the result included. *)
Lemma insert_fields t v attr t' :
  insert_pre t v attr → insert t v attr = Some t' →
  base_n_vectors_ t' = base_n_vectors_ t ∧ bloom_bytes_per_point_ t' = bloom_bytes_per_point_ t
  ∧ delta_bytes_ t' = delta_bytes_ t + 8 * Z.of_nat (length attr).
Proof.
  intros [_ _ _ _ _ Hnm]. unfold insert. cbn zeta.
  match goal with |- mbind _ ?x = _ → _ => destruct x as [bloom|] end; [|done]. cbn [mbind option_bind].
  rewrite (proj2 (Z.leb_gt _ _)) by done. by intros [= <-].
Qed.

Lemma insert_all_ok ins : ∀ t,
  label_ok t → 0 <= n_vectors t → bloom_bytes_per_point_ t = 4 → inserts_ok (n_vectors t) ins →
  delta_bytes_ t + pending_bytes ins < Z.max (4 * 1024 * 1024) (4 * base_n_vectors_ t / 8) →
  ∃ t', insert_all t ins = Some t' ∧ label_ok t'
  ∧ n_vectors t' = foldl (λ _ a, a.1 + 1) (n_vectors t) ins
  ∧ ∀ l v, 0 <= l → v ∈ label_list t' l ↔ v ∈ label_list t l ∨ ∃ attr, (v, attr) ∈ ins ∧ l ∈ attr.
Proof.
  induction ins as [|[v attr] ins IH]; intros t Hok Hn Hb Hin Hp.
  { exists t. split_and!; try done. intros l v _. set_solver. }
  destruct Hin as (Hv & Hroom & Hnd & Hlab & Hin). unfold pending_bytes in Hp. cbn [fmap list_fmap snd concat] in Hp. rewrite length_app in Hp.
  assert (Hpre : insert_pre t v attr).
  { split; [lia|done|by rewrite Forall_forall in Hlab|rewrite Hb; lia|by rewrite Hb|rewrite Hb; lia]. }
  destruct (label_insert_correct t v attr Hok Hpre) as (t1 & Ht1 & Hok1 & Hn1 & Hl1).
  destruct (insert_fields t v attr t1 Hpre Ht1) as (Hb1 & Hb2 & Hb3).
  destruct (IH t1) as (t' & Ht' & Hok' & Hn' & Hl').
  { done. } { lia. } { congruence. } { by rewrite Hn1. } { rewrite Hb1, Hb3. unfold pending_bytes. lia. }
  exists t'. unfold insert_all. cbn [foldl mbind option_bind fst snd]. rewrite Ht1. split_and!; [exact Ht'|done|by rewrite Hn', Hn1|].
  intros l w Hl0. rewrite Hl', Hl1, elem_of_app by done. split.
  - intros [[Hw|Hw]|(a & Ha & Hla)]; [by left| |right; exists a; set_solver].
    right. case_decide; [|set_solver]. exists attr. set_solver.
  - intros [Hw|(a & [[= -> ->]|Ha]%elem_of_cons & Hla)]; [by left; left| |right; by exists a].
    left. right. rewrite decide_True by done. set_solver.
Qed.

(** Vector [v] has label [l]: in its row, or in the attribute it was inserted with. *)
Definition carries (rows : list (list Z)) (ins : list (Z * list Z)) (v l : Z) : Prop :=
  (0 <= v ∧ ∃ row, rows !! Z.to_nat v = Some row ∧ l ∈ row) ∨ ∃ attr, (v, attr) ∈ ins ∧ l ∈ attr.

(** C33: the label index is exact before a search and has no false negatives during it, from
    the rows to the queries: the rows are saved to the inverted file and the filter file, an
    index is opened on the two files, and vectors are inserted into it.  None of this is out
    of bounds, and then [pre_filter] returns in increasing order exactly the vectors whose
    row or inserted attribute has some label of the query, [pre_filter_and] those with all
    the labels of a non-empty query, and [is_member_approx] and [is_member_approx_and], given
    the list of their prepare phase, accept every such vector, hot labels included, and stay
    inside the filters for every vector.  Conditions: the labels of a row or an attribute are
    distinct and below the largest 32-bit number; inserted ids are increasing and start
    behind the rows; four bytes per vector stay below 2^32; the offsets of the inverted file
    fit 64 bits; and the insertions stay below the size at which the index merges them
    (merging loses filters: [label_merge_drops_filters]). *)
Theorem label_index_exact rows ins query :
  rows_ok rows 4 → file_fits rows → inserts_ok (Z.of_nat (length rows)) ins →
  pending_bytes ins < Z.max (4 * 1024 * 1024) (4 * Z.of_nat (length rows) / 8) →
  (∀ l, l ∈ query → 0 <= l) →
  ∃ fs t t', save_attr_index_from_rows rows = Some fs
  ∧ load_attr_index_from_file fs (Z.of_nat (length rows)) = Some t ∧ insert_all t ins = Some t'
  ∧ (id_list (pre_filter t' query) ∧ ∀ v, v ∈ pre_filter t' query ↔ ∃ l, l ∈ query ∧ carries rows ins v l)
  ∧ (query ≠ [] → id_list (pre_filter_and t' query)
       ∧ ∀ v, v ∈ pre_filter_and t' query ↔ ∀ l, l ∈ query → carries rows ins v l)
  ∧ (∀ v l, l ∈ query → carries rows ins v l → is_member_approx t' v query (prepare_in_filter t' query) = Some true)
  ∧ (∀ v, (∀ l, l ∈ query → carries rows ins v l) →
       is_member_approx_and t' v query (prepare_in_filter_and t' query) = Some true)
  ∧ (∀ v cold, 0 <= v < foldl (λ _ a, a.1 + 1) (Z.of_nat (length rows)) ins →
       is_Some (is_member_approx t' v query cold) ∧ is_Some (is_member_approx_and t' v query cold)).
Proof.
  intros Hr Hfit Hin Hp Hq. destruct (reopened rows Hr Hfit) as (fs & t & Hs & Ho & Hok & Hn & Hbn & Hb & Hd & Hl).
  destruct (insert_all_ok ins t Hok) as (t' & Hi & Hok' & Hn' & Hl'); [lia|done|by rewrite Hn|by rewrite Hd, Hbn|].
  exists fs, t, t'. do 3 (split; [done|]).
  assert (Hc : ∀ l v, l ∈ query → v ∈ label_list t' l ↔ carries rows ins v l).
  { intros l v Hlq. rewrite Hl', Hl, ids_from_elem by auto. unfold carries. apply or_iff_compat_r. split.
    - intros (i & row & Hrow & Hlr & ->). split; [lia|]. exists row. by rewrite Z.add_0_l, Nat2Z.id.
    - intros (Hv & row & Hrow & Hlr). exists (Z.to_nat v), row. split_and!; [done|done|lia]. }
  split_and!.
  - by apply pre_filter_spec.
  - intros v. destruct (pre_filter_spec t' Hok' query Hq) as [_ ->]. split; intros (l & Hlq & Hv); exists l; (split; [done|]); by apply Hc.
  - intros Hne. destruct (pre_filter_and_spec t' Hok' query Hq Hne) as [Hid He]. split; [done|]. intros v. rewrite He.
    split; intros H l Hlq; apply Hc; auto.
  - intros v l Hlq Hv%Hc; [|done]. by apply (approx_spec t' Hok' v query l).
  - intros v Hv. destruct query as [|q query]; [done|]. apply (approx_and_spec t' Hok' v); [done| |].
    + apply (lk_ids _ Hok' q); [apply Hq; by left|]. apply Hc; [by left|]. apply Hv. by left.
    + intros l Hlq. apply Hc; auto.
  - intros v cold Hv. rewrite Hn in Hn'. rewrite <- Hn' in Hv. apply (approx_total t' Hok' v query cold Hv).
Qed.

(** Three rows, and two vectors inserted, one with a label that the file does not have. *)
Lemma label_index_exact_witness :
  ∃ fs t t', save_attr_index_from_rows example_rows = Some fs ∧ load_attr_index_from_file fs 3 = Some t
  ∧ insert_all t [(3, [5; 2]); (6, [1])] = Some t' ∧ 3 ∈ pre_filter t' [2; 1] ∧ 0 ∈ pre_filter_and t' [2; 1] ∧ 3 ∉ pre_filter_and t' [2; 1].
Proof.
  pose proof (label_index_exact example_rows [(3, [5; 2]); (6, [1])] [2; 1] example_rows_ok) as H.
  destruct H as (fs & t & t' & Hs & Ho & Hi & (_ & Hor) & Hand & _).
  - apply Z.ltb_lt. by vm_compute.
  - cbn [inserts_ok]. split_and!; try done; try (apply (bool_decide_unpack _); by vm_compute).
  - by vm_compute.
  - intros l Hl. rewrite !elem_of_cons in Hl. destruct Hl as [->|[->|Hl]]; [lia..|set_solver].
  - exists fs, t, t'. do 3 (split; [done|]). destruct (Hand ltac:(done)) as [_ Ha]. split_and!.
    + apply Hor. exists 2. split; [set_solver|]. right. exists [5; 2]. set_solver.
    + apply Ha. intros l Hl. left. split; [lia|]. exists [1; 2]. split; [done|]. set_solver.
    + rewrite Ha. intros H. destruct (H 1 ltac:(set_solver)) as [(_ & row & Hrow & _)|(attr & Hin & Hl)]; [done|].
      rewrite !elem_of_cons in Hin. destruct Hin as [[= ->]|[[=]|Hin]]; set_solver.
Defined.

(** ** Merging with deletions *)

(** A vector's filter is all zeros. *)
Definition blank (t : InvertedLabelAttrIndex) (data : list Z) (v : Z) : Prop :=
  ∀ j, v * bloom_bytes_per_point_ t <= Z.of_nat j < (v + 1) * bloom_bytes_per_point_ t → data !! j = Some 0.

Lemma blank_contains data base size label :
  slice_ok data base size →
  (∀ j, base <= Z.of_nat j < base + size → data !! j = Some 0) →
  bloom_contains data base size label = Some false.
Proof.
  intros Hs Hz. pose proof (bloom_bits_in data base size label Hs) as Hin. destruct Hs as [Hb Hs Hf].
  unfold bloom_contains. assert (∃ bits, bloom_bits size label = bloom_bit size label 0 :: bits) as [bits Hbits].
  { unfold bloom_bits, num_hash_functions.
    assert (∃ n, Z.to_nat (Z.max 2 (Z.min 8 (u32 (size * 8) / 8))) = S n) as [n ->].
    { exists (Z.to_nat (Z.max 2 (Z.min 8 (u32 (size * 8) / 8))) - 1)%nat. lia. }
    by eexists. }
  rewrite Hbits. cbn [test_bits]. unfold test_bit, bloom_bit.
  rewrite (u32_small (size * 8)) by (unfold is_u32; lia).
  set (h := u32 (mix_hash label + _)). pose proof (Z.mod_pos_bound h (size * 8) ltac:(lia)) as Hm.
  assert (0 <= h mod (size * 8) / 8) by (apply Z.div_pos; lia).
  assert (h mod (size * 8) / 8 < size) by (apply Z.div_lt_upper_bound; lia).
  rewrite Hz by lia. cbn [mbind option_bind]. by rewrite Z.land_0_l.
Qed.

Section merge_filters.
Context (t : InvertedLabelAttrIndex) (id_map : gmap Z Z).
Hypothesis Hne : id_map ≠ ∅.
Hypothesis Hbytes : 0 < bloom_bytes_per_point_ t < 2 ^ 29.
Hypothesis Hnowrap : Z.of_nat (size id_map) * bloom_bytes_per_point_ t <= 2 ^ 32.
Hypothesis Hrange : ∀ o n, id_map !! o = Some n → 0 <= n < Z.of_nat (size id_map).

Lemma copy_filter_blank acc data i v :
  (∀ n, id_map !! i = Some n → n ≠ v) → 0 <= v < Z.of_nat (size id_map) →
  acc = Some data → blank t data v → ∀ data', copy_filter t id_map acc i = Some data' →
  blank t data' v ∧ length data' = length data.
Proof.
  intros Hv Hvr -> Hbl data'. unfold copy_filter. cbn [mbind option_bind].
  unfold remap_id. rewrite decide_False by done. destruct (id_map !! i) as [n|] eqn:Hn; [|by intros [= <-]].
  pose proof (Hrange _ _ Hn) as Hnr. pose proof (Hv n eq_refl) as Hnv.
  rewrite (u32_small (n * _)) by (unfold is_u32; nia).
  match goal with |- context [if ?b then _ else None] => destruct b eqn:Hc end; [|done]. bool_to_prop.
  intros [= <-]. set (k := Z.to_nat (bloom_bytes_per_point_ t)) in *.
  set (dst := Z.to_nat (n * bloom_bytes_per_point_ t)) in *.
  set (blk := take k (drop _ (bloom_filters_ t))).
  assert (length blk = k) as Hlb by (unfold blk; rewrite length_take, length_drop; lia).
  split; [|rewrite !length_app, length_take, length_drop, Hlb; lia].
  intros j Hj. specialize (Hbl j Hj). unfold k, dst in *.
  assert (v < n ∨ n < v) as [Hlt|Hlt] by lia.
  - rewrite lookup_app_l by (rewrite length_take; nia). rewrite lookup_take_lt by nia. done.
  - rewrite lookup_app_r by (rewrite length_take; nia). rewrite lookup_app_r by (rewrite length_take; nia).
    rewrite lookup_drop. rewrite <- Hbl. f_equal. rewrite Hlb, length_take. nia.
Qed.

Lemma remap_blank old v ids data data' :
  (∀ o n, o ≠ old → id_map !! o = Some n → n ≠ v) → 0 <= v < Z.of_nat (size id_map) →
  Forall (λ i : nat, Z.of_nat i ≠ old) ids →
  foldl (λ acc (i : nat), copy_filter t id_map acc (Z.of_nat i)) (Some data) ids = Some data' →
  blank t data v → blank t data' v ∧ length data' = length data.
Proof.
  intros Hinj Hvr Hids. revert data. induction Hids as [|i ids Hi _ IH]; intros data; cbn [foldl].
  { by intros [= <-]. }
  intros Hf Hbl. destruct (copy_filter t id_map (Some data) (Z.of_nat i)) as [d1|] eqn:Hc.
  2:{ exfalso. clear -Hf. induction ids as [|x ids IH]; cbn [foldl] in Hf; [done|]. by apply IH. }
  destruct (copy_filter_blank (Some data) data (Z.of_nat i) v) with (data' := d1) as [Hb1 Hl1]; try done.
  { intros n Hn. by eapply Hinj. }
  destruct (IH d1 Hf Hb1) as [Hb2 Hl2]. split; [done|congruence].
Qed.
End merge_filters.

(** a merge that renumbers vectors drops Bloom filters: [do_merge] lowers
    [n_vectors] to the number of survivors before [remap_approx] uses it as the
    number of old filters to copy, so a survivor whose old id is not below the
    number of survivors comes out with an empty filter, and every hot label it
    carries tests as absent. *)
Theorem label_merge_drops_filters t id_map t' old new l :
  do_merge t id_map = Some t' →
  id_map !! old = Some new → Z.of_nat (size id_map) <= old →
  (∀ o n, id_map !! o = Some n → 0 <= n < Z.of_nat (size id_map)) →
  (∀ o, id_map !! o = Some new → o = old) →
  0 < bloom_bytes_per_point_ t < 2 ^ 29 → Z.of_nat (size id_map) * bloom_bytes_per_point_ t <= 2 ^ 32 →
  bf_contains t' new l = Some false.
Proof.
  intros Hm Hold Hge Hrange Hinj Hb Hw.
  assert (id_map ≠ ∅) as Hne by (intros ->; by rewrite lookup_empty in Hold).
  unfold do_merge in Hm. rewrite decide_False in Hm by done.
  destruct (merged_lists t id_map) as [lists|]; [|done]. cbn [mbind option_bind] in Hm.
  destruct (foldl count_attrs _ _) as [[counts m]|]; [|done]. cbn [mbind option_bind] in Hm.
  destruct (save_inverted _) as [locs f].
  match type of Hm with mbind _ (remap_approx ?x _) = _ => set (t1 := x) in * end.
  destruct (remap_approx t1 id_map) as [bloom|] eqn:Hr; [|done]. cbn [mbind option_bind] in Hm.
  injection Hm as <-. unfold remap_approx in Hr. rewrite decide_False in Hr by done.
  pose proof (Hrange _ _ Hold) as Hnr.
  assert (Hsp : Z.of_nat (length (replicate (Z.to_nat (Z.of_nat (size id_map) * bloom_bytes_per_point_ t1)) 0))
                = Z.of_nat (size id_map) * bloom_bytes_per_point_ t) by (rewrite length_replicate; simpl; lia).
  eapply (remap_blank t1 id_map Hne Hb Hw Hrange old new) in Hr as [Hbl Hlen]; [|..|].
  - unfold bf_contains. cbn [bloom_filters_ bloom_bytes_per_point_].
    assert (Hs : bloom_space t1 bloom (Z.of_nat (size id_map))) by (split; [done|simpl; lia|done]).
    apply blank_contains; [by apply (bloom_slice t1 bloom (Z.of_nat (size id_map)))|].
    intros j Hj. apply Hbl. change (bloom_base _ new) with (bloom_base t1 new) in Hj.
    rewrite (bloom_base_eq t1 bloom _ new Hs Hnr) in Hj. cbn [bloom_bytes_per_point_ t1] in *. lia.
  - intros o n Ho Hn ->. apply Ho. by apply Hinj.
  - done.
  - apply Forall_forall. intros i Hi. apply elem_of_seq in Hi. simpl in Hi. lia.
  - intros j Hj. apply lookup_replicate. split; [done|]. cbn [bloom_bytes_per_point_ t1] in *. nia.
Qed.

(** Vector 1 carries label 9; vector 0 is deleted and vector 1 becomes vector 0. *)
Lemma label_merge_drops_filters_witness :
  ∃ t t', insert (new_index 4) 1 [9] = Some t ∧ bf_contains t 1 9 = Some true
  ∧ do_merge t {[1 := 0]} = Some t' ∧ label_list t' 9 = [0] ∧ bf_contains t' 0 9 = Some false.
Proof.
  destruct (insert (new_index 4) 1 [9]) as [t|] eqn:Hi; [|by vm_compute in Hi].
  destruct (do_merge t {[1 := 0]}) as [t'|] eqn:Hm;
    [|exfalso; vm_compute in Hi; injection Hi as <-; by vm_compute in Hm].
  exists t, t'. split; [done|]. split; [vm_compute in Hi; injection Hi as <-; by vm_compute|].
  split; [exact Hm|]. split.
  { vm_compute in Hi. injection Hi as <-. vm_compute in Hm. injection Hm as <-. by vm_compute. }
  apply (label_merge_drops_filters t {[1 := 0]} t' 1 0 9 Hm).
  - reflexivity.
  - by vm_compute.
  - intros o n [<- <-]%lookup_singleton_Some. rewrite map_size_singleton. lia.
  - intros o [<- _]%lookup_singleton_Some. done.
  - vm_compute in Hi. injection Hi as <-. simpl. lia.
  - vm_compute in Hi. injection Hi as <-. rewrite map_size_singleton. simpl. lia.
Defined.

End Label.
