(* ===== verification/RangeIndex.v ===== *)
(** * The range attribute index ([include/filter/attribute.h], lines 1015-1467)

    [SortedRangeAttrIndex] stores one 32-bit value per vector: on disk the values
    and the ids, both sorted by value; in memory a sampled histogram, the inserts
    since the last merge and an 8-bit bucket per vector.  A query is a half-open
    interval [l, r).  [None] is an access out of bounds or past the end of a
    file. *)

From S2P Require Import Prelude Bytes FilterUtils Layout.
From stdpp Require Import sorting.

Module Range.
Import Ids.
Open Scope Z_scope.

Definition SECTOR_LEN : Z := Layout.SECTOR_LEN.
Definition ROUND_UP (x y : Z) : Z := Layout.ROUND_UP x y.
Definition kHistogramBuckets : Z := 1000.
Definition kQuantizeBuckets : Z := 256.

Record SortedRangeAttrIndex := mkRange {
  n_vectors : Z;
  base_n_vectors_ : Z;
  histogram_ : list Z;
  attrs_ : list Z;
  stride : Z;
  ids_offset : Z;
  delta_ : gmap Z (list Z);
  delta_bytes_ : Z;
  bucket_ids_ : list Z;
  bucket_boundaries_ : list Z;
  file : list Z;
  quantize_file : list Z
}.

Definition new_index (n_vectors : Z) (f qf : list Z) : SortedRangeAttrIndex :=
  mkRange n_vectors n_vectors [] [] 0 (ROUND_UP (n_vectors * 4) SECTOR_LEN) ∅ 0 [] [] f qf.

(** The bytes [off, off + 4 n) of the file as words. *)
Definition read_block (f : list Z) (off n : Z) : option (list Z) :=
  if (off + 4 * n <=? Z.of_nat (length f)) then Some (words_at (region f (Z.to_nat off) (Z.to_nat (off + 4 * n))))
  else None.

(** [attrs_[sorted_ids[i]] = sorted_attrs[i]]. *)
Definition scatter (acc : option (list Z)) (e : Z * Z) : option (list Z) :=
  attrs ← acc; vset attrs (Z.to_nat e.2) e.1.

Definition load_attrs (t : SortedRangeAttrIndex) : option SortedRangeAttrIndex :=
  sorted_attrs ← read_block (file t) 0 (base_n_vectors_ t);
  sorted_ids ← read_block (file t) (ids_offset t) (base_n_vectors_ t);
  attrs ← foldl scatter (Some (vresize (attrs_ t) (Z.to_nat (base_n_vectors_ t)) 0)) (zip sorted_attrs sorted_ids);
  Some (mkRange (n_vectors t) (base_n_vectors_ t) (histogram_ t) attrs (stride t) (ids_offset t) (delta_ t)
          (delta_bytes_ t) (bucket_ids_ t) (bucket_boundaries_ t) (file t) (quantize_file t)).

Definition stride_of (n : Z) : Z := Z.max 1 (ROUND_UP (n / kHistogramBuckets) (SECTOR_LEN / 4)).

(** Every [stride]-th value: [for (i = 0; i < n; i += stride)]. *)
Definition sample_positions (n stride : Z) : list Z :=
  map (λ k, Z.of_nat k * stride) (seq 0 (Z.to_nat ((n + stride - 1) / stride))).

Definition sample_at (values : list Z) (positions : list Z) : option (list Z) :=
  mapM (λ i, values !! Z.to_nat i) positions.

Definition load_histogram (t : SortedRangeAttrIndex) : option SortedRangeAttrIndex :=
  let s := stride_of (base_n_vectors_ t) in
  h ← mapM (λ i, '(v, _) ← read_le 4 (drop (Z.to_nat (i * 4)) (file t)); Some v)
        (sample_positions (base_n_vectors_ t) s);
  Some (mkRange (n_vectors t) (base_n_vectors_ t) h (attrs_ t) s (ids_offset t) (delta_ t)
          (delta_bytes_ t) (bucket_ids_ t) (bucket_boundaries_ t) (file t) (quantize_file t)).

Definition get (t : SortedRangeAttrIndex) (vector_id : Z) : option (list Z) :=
  v ← attrs_ t !! Z.to_nat vector_id; Some [v].

Definition load_from_rows (t : SortedRangeAttrIndex) (rows : list (list Z)) : option SortedRangeAttrIndex :=
  attrs ← mapM head rows;
  let n := Z.of_nat (length rows) in
  Some (mkRange n n (histogram_ t) attrs (stride t) (ROUND_UP (n * 4) SECTOR_LEN) (delta_ t)
          (delta_bytes_ t) (bucket_ids_ t) (bucket_boundaries_ t) (file t) (quantize_file t)).

(** *** Files and buckets *)
Definition write_sorted_index (sorted_attrs sorted_ids : list Z) : Z * list Z :=
  let off := ROUND_UP (Z.of_nat (length sorted_attrs) * 4) SECTOR_LEN in
  (off, write_at (words sorted_attrs) (Z.to_nat off) (words sorted_ids)).

(** The boundaries: the value at rank [b * n / 256], and the largest value plus one. *)
Definition boundaries (n : Z) (sorted_attrs : list Z) : option (list Z) :=
  bs ← mapM (λ b, sorted_attrs !! Z.to_nat (Z.of_nat b * n / kQuantizeBuckets)) (seq 0 (Z.to_nat kQuantizeBuckets));
  last ← sorted_attrs !! Z.to_nat (n - 1);
  Some (bs ++ [u32 (last + 1)]).

Definition bucket_of_rank (n : Z) (i : nat) : Z :=
  u32 (Z.min (u32 (Z.of_nat i * kQuantizeBuckets / n)) (kQuantizeBuckets - 1)) mod 256.

Definition assign_buckets (n : Z) (acc : option (list Z)) (e : nat * Z) : option (list Z) :=
  ids ← acc; vset ids (Z.to_nat e.2) (bucket_of_rank n e.1).

Definition build_quantized_buckets (n : Z) (old : list Z) (sorted_attrs sorted_ids : list Z)
    : option (list Z * list Z) :=
  bounds ← boundaries n sorted_attrs;
  ids ← foldl (assign_buckets n) (Some (vresize old (Z.to_nat n) 0)) (zip (seq 0 (Z.to_nat n)) sorted_ids);
  Some (bounds, ids).

Definition save_quantized_buckets (bounds ids : list Z) : list Z :=
  le_bytes 4 kQuantizeBuckets ++ words (take 257 bounds) ++ le_bytes 4 (Z.of_nat (length ids)) ++ ids.

Definition load_quantized_buckets (f : list Z) : option (list Z * list Z) :=
  '(n_buckets, s) ← read_le 4 f;
  '(bs, s) ← read_bytes (Z.to_nat ((n_buckets + 1) * 4)) s;
  '(n_pts, s) ← read_le 4 s;
  '(ids, s) ← read_bytes (Z.to_nat n_pts) s;
  Some (words_at bs, ids).

(** [std::sort] on pairs (value, id). *)
Definition pair_le (a b : Z * Z) : Prop := a.1 < b.1 ∨ (a.1 = b.1 ∧ a.2 <= b.2).
Global Instance pair_le_dec a b : Decision (pair_le a b).
Proof. unfold pair_le. apply _. Defined.

Definition sorted_data (attrs : list Z) : list (Z * Z) :=
  merge_sort pair_le (zip attrs (map Z.of_nat (seq 0 (length attrs)))).

Definition save (t : SortedRangeAttrIndex) : option SortedRangeAttrIndex :=
  attrs ← (if n_vectors t <=? Z.of_nat (length (attrs_ t)) then Some (take (Z.to_nat (n_vectors t)) (attrs_ t)) else None);
  let data := sorted_data attrs in
  let '(off, f) := write_sorted_index data.*1 data.*2 in
  '(bounds, ids) ← build_quantized_buckets (n_vectors t) (bucket_ids_ t) data.*1 data.*2;
  Some (mkRange (n_vectors t) (base_n_vectors_ t) (histogram_ t) (attrs_ t) (stride t) off (delta_ t)
          (delta_bytes_ t) ids bounds f (save_quantized_buckets bounds ids)).

Definition load_approx (t : SortedRangeAttrIndex) : option SortedRangeAttrIndex :=
  t ← load_histogram t;
  '(bounds, ids) ← load_quantized_buckets (quantize_file t);
  Some (mkRange (n_vectors t) (base_n_vectors_ t) (histogram_ t) (attrs_ t) (stride t) (ids_offset t) (delta_ t)
          (delta_bytes_ t) ids bounds (file t) (quantize_file t)).

(** *** Queries *)

(** [std::lower_bound] / [std::upper_bound] on a sorted range. *)
Fixpoint lower_bound (l : list Z) (x : Z) : nat :=
  match l with
  | [] => 0
  | y :: l => if y <? x then S (lower_bound l x) else 0
  end.
Fixpoint upper_bound (l : list Z) (x : Z) : nat :=
  match l with
  | [] => 0
  | y :: l => if y <=? x then S (upper_bound l x) else 0
  end.

(** [l = query[0], r = query.size() > 1 ? query[1] : l + 1]. *)
Definition interval (query : list Z) : option (Z * Z) :=
  match query with
  | [] => None
  | [l] => Some (l, u32 (l + 1))
  | l :: r :: _ => Some (l, r)
  end.

Definition get_range (t : SortedRangeAttrIndex) (l r : Z) : nat * nat :=
  ((lower_bound (histogram_ t) l - 1)%nat, lower_bound (histogram_ t) r).

Definition estimate_count (t : SortedRangeAttrIndex) (query : list Z) : option Z :=
  '(l, r) ← interval query;
  let '(i1, i2) := get_range t l r in
  Some (u32 (Z.min (u64 ((Z.of_nat i2 - Z.of_nat i1) * stride t)) (base_n_vectors_ t))).

(** The sampled positions that bracket the interval. *)
Definition bracket (t : SortedRangeAttrIndex) (l r : Z) : Z * Z :=
  let '(i1, i2) := get_range t l r in
  (Z.of_nat i1 * stride t, Z.min (Z.of_nat i2 * stride t) (base_n_vectors_ t)).

Definition estimate_prefilter_reads (t : SortedRangeAttrIndex) (query : list Z) : option Z :=
  '(l, r) ← interval query;
  let '(idx_l, idx_r) := bracket t l r in
  Some (u32 (2 * Layout.DIV_ROUND_UP (u64 (u64 (idx_r - idx_l) * 4)) SECTOR_LEN)).

(** The ids of [delta_] whose value lies in the interval. *)
Definition delta_ids (t : SortedRangeAttrIndex) (l r : Z) : list Z :=
  concat (map snd (List.filter (λ e, (l <=? (e : Z * list Z).1) && (e.1 <? r)) (map_to_list (delta_ t)))).

Definition pre_filter (t : SortedRangeAttrIndex) (query : list Z) : option (list Z) :=
  '(l, r) ← interval query;
  let '(idx_l, idx_r) := bracket t l r in
  let n_elems := u64 (idx_r - idx_l) in
  result ← (if 0 <? n_elems then
              attr_buf ← read_block (file t) (idx_l * 4) n_elems;
              id_buf ← read_block (file t) (ids_offset t + idx_l * 4) n_elems;
              let start_idx := lower_bound attr_buf l in
              let end_idx := lower_bound attr_buf r in
              if Nat.leb start_idx end_idx then Some (take (end_idx - start_idx) (drop start_idx id_buf)) else None
            else Some []);
  Some (merge_sort Z.le (result ++ delta_ids t l r)).

Definition is_member_approx (t : SortedRangeAttrIndex) (target_id : Z) (query : list Z) : option bool :=
  '(l, r) ← interval query;
  bid ← bucket_ids_ t !! Z.to_nat target_id;
  lo ← bucket_boundaries_ t !! Z.to_nat bid;
  if lo <? r then hi ← bucket_boundaries_ t !! Z.to_nat (bid + 1); Some (l <? hi) else Some false.

(** *** Updates *)
Definition remap_id (id_map : gmap Z Z) (old_id : Z) : option Z :=
  if decide (id_map = ∅) then Some old_id else id_map !! old_id.

Definition remap_approx (ids : list Z) (id_map : gmap Z Z) : option (list Z) :=
  foldl (λ acc '(old_id, b),
           remapped ← acc;
           match remap_id id_map (Z.of_nat old_id) with
           | None => Some remapped
           | Some new_id => vset remapped (Z.to_nat new_id) b
           end)
    (Some (replicate (if decide (id_map = ∅) then length ids else size id_map) 0)) (zip (seq 0 (length ids)) ids).

Definition merged_data (id_map : gmap Z Z) (old_attrs old_ids : list Z) (delta : gmap Z (list Z)) : list (Z * Z) :=
  merge_sort pair_le
    (omap (λ e : Z * Z, (λ id, (e.1, id)) <$> remap_id id_map e.2) (zip old_attrs old_ids)
     ++ concat (map (λ e : Z * list Z, omap (λ id, (λ id', (e.1, id')) <$> remap_id id_map id) e.2) (map_to_list delta))).

Definition do_merge (t : SortedRangeAttrIndex) (id_map : gmap Z Z) : option SortedRangeAttrIndex :=
  let off := ROUND_UP (base_n_vectors_ t * 4) SECTOR_LEN in
  old_attrs ← read_block (file t) 0 (base_n_vectors_ t);
  old_ids ← read_block (file t) off (base_n_vectors_ t);
  let data := merged_data id_map old_attrs old_ids (delta_ t) in
  let merged_size := if decide (id_map = ∅) then n_vectors t else Z.of_nat (size id_map) in
  let s := stride_of merged_size in
  h ← sample_at data.*1 (sample_positions merged_size s);
  ids ← remap_approx (bucket_ids_ t) id_map;
  let '(off, f) := write_sorted_index data.*1 data.*2 in
  Some (mkRange merged_size merged_size h (attrs_ t) s off ∅ 0 ids (bucket_boundaries_ t) f
          (save_quantized_buckets (bucket_boundaries_ t) ids)).

Definition merge := do_merge.

Definition bucket_of_value (bounds : list Z) (value : Z) : Z :=
  let it := upper_bound bounds value in
  Z.min (if Nat.eqb it 0 then 0 else Z.of_nat it - 1) (kQuantizeBuckets - 1).

Definition push_delta (d : gmap Z (list Z)) (value vector_id : Z) : gmap Z (list Z) :=
  <[value := (match d !! value with Some ids => ids | None => [] end) ++ [vector_id]]> d.

Definition insert (t : SortedRangeAttrIndex) (vector_id : Z) (attr : list Z) : option SortedRangeAttrIndex :=
  value ← head attr;
  let ids := if Z.of_nat (length (bucket_ids_ t)) <=? vector_id
             then vresize (bucket_ids_ t) (Z.to_nat (Z.max (3 * vector_id / 2) 1024)) 0
             else bucket_ids_ t in
  ids ← vset ids (Z.to_nat vector_id) (bucket_of_value (bucket_boundaries_ t) value);
  let t' := mkRange (Z.max (n_vectors t) (vector_id + 1)) (base_n_vectors_ t) (histogram_ t) (attrs_ t) (stride t)
              (ids_offset t) (push_delta (delta_ t) value vector_id) (delta_bytes_ t + 8) ids
              (bucket_boundaries_ t) (file t) (quantize_file t) in
  if Z.max (4 * 1024 * 1024) (8 * base_n_vectors_ t / 8) <=? delta_bytes_ t' then do_merge t' ∅ else Some t'.

(** ** Sorted ranges *)

Lemma lower_bound_le l x : (lower_bound l x <= length l)%nat.
Proof. induction l as [|y l IH]; simpl; [lia|]. case_if; lia. Qed.

(** On a sorted list [lower_bound] separates the values below [x]. *)
Lemma lower_bound_spec l x i y :
  StronglySorted Z.le l → l !! i = Some y → (i < lower_bound l x)%nat ↔ y < x.
Proof.
  intros Hs. revert i. induction Hs as [|z l Hs IH Hf]; intros [|i] Hi; simplify_eq/=.
  - destruct (Z.ltb_spec y x); [split; lia|split; lia].
  - assert (z <= y) by (rewrite Forall_forall in Hf; apply Hf; by eapply list_elem_of_lookup_2).
    destruct (Z.ltb_spec z x); [|split; lia]. rewrite <- IH by done. lia.
Qed.

Lemma lower_bound_mono l x y : StronglySorted Z.le l → x <= y → (lower_bound l x <= lower_bound l y)%nat.
Proof.
  intros Hs Hxy. induction Hs as [|z l Hs IH Hf]; simpl; [lia|].
  destruct (Z.ltb_spec z x), (Z.ltb_spec z y); lia.
Qed.

Lemma sorted_lookup l i j x y :
  StronglySorted Z.le l → l !! i = Some x → l !! j = Some y → (i <= j)%nat → x <= y.
Proof.
  intros Hs. revert i j. induction Hs as [|z l Hs IH Hf]; intros [|i] [|j] Hi Hj Hij; simplify_eq/=; try lia.
  - rewrite Forall_forall in Hf. apply Hf. by eapply list_elem_of_lookup_2.
  - eapply IH; [exact Hi|exact Hj|lia].
Qed.

Lemma StronglySorted_take_drop l i n : StronglySorted Z.le l → StronglySorted Z.le (take n (drop i l)).
Proof.
  intros Hs. rewrite <- (take_drop i l) in Hs. apply StronglySorted_app_1_r in Hs.
  rewrite <- (take_drop n (drop i l)) in Hs. by apply StronglySorted_app_1_l in Hs.
Qed.

(** An index whose file, histogram and stride represent [data], the (value, id)
    pairs sorted by value. *)
Record range_ok (t : SortedRangeAttrIndex) (data : list (Z * Z)) : Prop := mkRangeOk {
  rk_base : base_n_vectors_ t = Z.of_nat (length data);
  rk_sorted : StronglySorted Z.le data.*1;
  rk_attrs : ∀ i n, (i + n <= length data)%nat →
    read_block (file t) (Z.of_nat i * 4) (Z.of_nat n) = Some (take n (drop i data.*1));
  rk_ids : ∀ i n, (i + n <= length data)%nat →
    read_block (file t) (ids_offset t + Z.of_nat i * 4) (Z.of_nat n) = Some (take n (drop i data.*2));
  rk_stride : 0 < stride t;
  rk_hist : ∀ k, histogram_ t !! k = data.*1 !! (k * Z.to_nat (stride t))%nat;
  rk_small : Z.of_nat (length data) < 2 ^ 32
}.

Lemma sorted_from_lookup l :
  (∀ i j x y, (i <= j)%nat → l !! i = Some x → l !! j = Some y → x <= y) → StronglySorted Z.le l.
Proof.
  induction l as [|z l IH]; intros H; constructor.
  - apply IH. intros i j x y Hij Hi Hj. apply (H (S i) (S j) x y); [lia|done|done].
  - apply Forall_forall. intros y (j & Hj)%list_elem_of_lookup. apply (H 0%nat (S j) z y); [lia|done|done].
Qed.

Section exact.
Context (t : SortedRangeAttrIndex) (data : list (Z * Z)) (Hok : range_ok t data).

Lemma hist_sorted : StronglySorted Z.le (histogram_ t).
Proof.
  apply sorted_from_lookup. intros i j x y Hij Hi Hj. rewrite (rk_hist _ _ Hok) in Hi, Hj.
  eapply sorted_lookup; [apply (rk_sorted _ _ Hok)|exact Hi|exact Hj|]. nia.
Qed.

(** Every value in [l, r) lies between the bracketing sampled positions. *)
Lemma bracket_covers l r p a :
  data.*1 !! p = Some a → l <= a < r →
  (bracket t l r).1 <= Z.of_nat p < (bracket t l r).2.
Proof.
  intros Hp Ha. pose proof (rk_stride _ _ Hok) as Hst. unfold bracket, get_range. simpl. split.
  - destruct (decide (lower_bound (histogram_ t) l = 0%nat)) as [->|Hne]; [simpl; lia|].
    set (i := (lower_bound (histogram_ t) l - 1)%nat).
    assert (Hi : (i < lower_bound (histogram_ t) l)%nat) by (unfold i; lia).
    pose proof (lower_bound_le (histogram_ t) l).
    destruct (lookup_lt_is_Some_2 (histogram_ t) i) as [h Hh]; [lia|].
    apply (lower_bound_spec _ _ _ _ hist_sorted Hh) in Hi. rewrite (rk_hist _ _ Hok) in Hh.
    destruct (decide (i * Z.to_nat (stride t) <= p)%nat); [nia|].
    pose proof (sorted_lookup _ _ _ _ _ (rk_sorted _ _ Hok) Hp Hh ltac:(lia)). lia.
  - apply Z.min_glb_lt_iff. split.
    + set (j := lower_bound (histogram_ t) r). destruct (decide (p < j * Z.to_nat (stride t))%nat); [nia|].
      exfalso. assert (is_Some (histogram_ t !! j)) as [h Hh].
      { rewrite (rk_hist _ _ Hok). apply lookup_lt_is_Some. apply lookup_lt_Some in Hp. lia. }
      assert (¬ h < r) as Hge.
      { rewrite <- (lower_bound_spec _ r _ _ hist_sorted Hh). unfold j. lia. }
      rewrite (rk_hist _ _ Hok) in Hh.
      pose proof (sorted_lookup _ _ _ _ _ (rk_sorted _ _ Hok) Hh Hp ltac:(lia)). lia.
    + rewrite (rk_base _ _ Hok). apply lookup_lt_Some in Hp. rewrite length_fmap in Hp. lia.
Qed.

Lemma bracket_ordered l r : l <= r → 0 <= (bracket t l r).1 ∧
  ((bracket t l r).1 <= (bracket t l r).2) ∧ (bracket t l r).2 <= Z.of_nat (length data).
Proof.
  intros Hlr. pose proof (rk_stride _ _ Hok) as Hst. unfold bracket, get_range. simpl.
  pose proof (lower_bound_mono _ _ _ hist_sorted Hlr) as Hm.
  pose proof (lower_bound_le (histogram_ t) l) as Hle. rewrite (rk_base _ _ Hok). split_and!; [nia| |lia].
  apply Z.min_glb; [nia|].
  destruct (decide (lower_bound (histogram_ t) l = 0%nat)) as [->|Hne]; [simpl; lia|].
  destruct (lookup_lt_is_Some_2 (histogram_ t) (lower_bound (histogram_ t) l - 1)%nat) as [h Hh]; [lia|].
  rewrite (rk_hist _ _ Hok) in Hh. apply lookup_lt_Some in Hh. rewrite length_fmap in Hh. nia.
Qed.

(** The ids selected from the two blocks that are read. *)
Definition selected (l r : Z) : list Z :=
  let '(idx_l, idx_r) := bracket t l r in
  let n := Z.to_nat (idx_r - idx_l) in
  let attr_buf := take n (drop (Z.to_nat idx_l) data.*1) in
  let id_buf := take n (drop (Z.to_nat idx_l) data.*2) in
  take (lower_bound attr_buf r - lower_bound attr_buf l) (drop (lower_bound attr_buf l) id_buf).

Lemma selected_elem l r v :
  l <= r → v ∈ selected l r ↔ ∃ a, (a, v) ∈ data ∧ l <= a < r.
Proof.
  intros Hlr. pose proof (bracket_ordered l r Hlr) as (H0 & H1 & H2).
  pose proof (bracket_covers l r) as Hcov. unfold selected.
  destruct (bracket t l r) as [idx_l idx_r]. simpl in *.
  set (n := Z.to_nat (idx_r - idx_l)). set (s := Z.to_nat idx_l).
  set (A := take n (drop s data.*1)). set (I := take n (drop s data.*2)).
  assert (HAs : StronglySorted Z.le A) by (apply StronglySorted_take_drop, (rk_sorted _ _ Hok)).
  assert (HA : ∀ i, (i < n)%nat → A !! i = data.*1 !! (s + i)%nat).
  { intros i Hi. unfold A. by rewrite lookup_take_lt, lookup_drop by done. }
  assert (HI : ∀ i, (i < n)%nat → I !! i = data.*2 !! (s + i)%nat).
  { intros i Hi. unfold I. by rewrite lookup_take_lt, lookup_drop by done. }
  assert (HlenA : length A = n) by (unfold A; rewrite length_take, length_drop, length_fmap; lia).
  pose proof (lower_bound_le A r) as Hlb. pose proof (lower_bound_mono A l r HAs Hlr) as Hlm.
  rewrite list_elem_of_lookup. split.
  - intros [k Hk]. apply lookup_take_Some in Hk as [Hk Hkn]. rewrite lookup_drop in Hk.
    set (i := (lower_bound A l + k)%nat) in *. rewrite HI in Hk by lia.
    apply list_lookup_fmap_Some in Hk as ([a v'] & ? & Hd). simplify_eq/=.
    assert (A !! i = Some a) as Ha by (rewrite HA by lia; rewrite list_lookup_fmap, Hd; done).
    exists a. split; [by eapply list_elem_of_lookup_2|].
    pose proof (lower_bound_spec A l i a HAs Ha). pose proof (lower_bound_spec A r i a HAs Ha). lia.
  - intros (a & [p Hp]%list_elem_of_lookup & Ha).
    assert (data.*1 !! p = Some a) as Hpa by (by rewrite list_lookup_fmap, Hp).
    pose proof (Hcov p a Hpa Ha) as Hr. set (i := (p - s)%nat).
    assert (A !! i = Some a) as HAi by (rewrite HA by lia; by replace (s + i)%nat with p by lia).
    pose proof (lower_bound_spec A l i a HAs HAi). pose proof (lower_bound_spec A r i a HAs HAi).
    exists (i - lower_bound A l)%nat. apply lookup_take_Some. split; [|lia].
    rewrite lookup_drop. replace (lower_bound A l + (i - lower_bound A l))%nat with i by lia.
    rewrite HI by lia. replace (s + i)%nat with p by lia. by rewrite list_lookup_fmap, Hp.
Qed.

Lemma delta_ids_elem l r v :
  v ∈ delta_ids t l r ↔ ∃ a ids, delta_ t !! a = Some ids ∧ v ∈ ids ∧ l <= a < r.
Proof.
  unfold delta_ids. rewrite elem_of_list_join || rewrite list_elem_of_In, in_concat. split.
  - intros (ids & (e & <- & He)%in_map_iff & Hv). apply List.filter_In in He as [He Hc]. bool_to_prop.
    destruct e as [a ids]. apply list_elem_of_In, elem_of_map_to_list in He.
    exists a, ids. split_and!; try done. by apply list_elem_of_In.
  - intros (a & ids & Ha & Hv & Hr). exists ids. split; [|by apply list_elem_of_In].
    apply in_map_iff. exists (a, ids). split; [done|]. apply List.filter_In. split.
    + by apply list_elem_of_In, elem_of_map_to_list.
    + simpl. apply andb_true_iff. rewrite Z.leb_le, Z.ltb_lt. lia.
Qed.

Lemma pre_filter_eq l r :
  l <= r → pre_filter t [l; r] = Some (merge_sort Z.le (selected l r ++ delta_ids t l r)).
Proof.
  intros Hlr. pose proof (bracket_ordered l r Hlr) as (H0 & H1 & H2). unfold pre_filter, selected.
  cbn [interval mbind option_bind]. destruct (bracket t l r) as [idx_l idx_r]. simpl in H0, H1, H2.
  pose proof (rk_small _ _ Hok). rewrite u64_small by (unfold is_u64; lia).
  destruct (Z.ltb_spec 0 (idx_r - idx_l)) as [Hpos|Hz].
  - pose proof (rk_attrs _ _ Hok (Z.to_nat idx_l) (Z.to_nat (idx_r - idx_l)) ltac:(lia)) as HA.
    pose proof (rk_ids _ _ Hok (Z.to_nat idx_l) (Z.to_nat (idx_r - idx_l)) ltac:(lia)) as HI.
    rewrite !Z2Nat.id in HA, HI by lia. rewrite HA. cbn [mbind option_bind]. rewrite HI. cbn [mbind option_bind].
    rewrite (proj2 (Nat.leb_le _ _)); [done|]. apply lower_bound_mono; [|done].
    apply StronglySorted_take_drop, (rk_sorted _ _ Hok).
  - replace (idx_r - idx_l) with 0 by lia. done.
Qed.

Lemma range_pre_filter_spec l r :
  l <= r →
  ∃ res, pre_filter t [l; r] = Some res ∧ Sorted Z.le res
  ∧ ∀ v, v ∈ res ↔ (∃ a, (a, v) ∈ data ∧ l <= a < r)
                  ∨ (∃ a ids, delta_ t !! a = Some ids ∧ v ∈ ids ∧ l <= a < r).
Proof.
  intros Hlr. eexists. split; [by apply pre_filter_eq|]. split; [apply Sorted_merge_sort; intros x y; lia|].
  intros v. rewrite (merge_sort_Permutation Z.le), elem_of_app, selected_elem, delta_ids_elem by done. done.
Qed.
End exact.

(** ** The files *)

Lemma write_sorted_blocks A I off f :
  length A = length I → Forall is_u32 A → Forall is_u32 I → Z.of_nat (length A) < 2 ^ 32 →
  write_sorted_index A I = (off, f) →
  (∀ i n, (i + n <= length A)%nat → read_block f (Z.of_nat i * 4) (Z.of_nat n) = Some (take n (drop i A)))
  ∧ (∀ i n, (i + n <= length A)%nat → read_block f (off + Z.of_nat i * 4) (Z.of_nat n) = Some (take n (drop i I)))
  ∧ off = ROUND_UP (Z.of_nat (length A) * 4) SECTOR_LEN ∧ (∃ rest, f = words A ++ rest).
Proof.
  intros HAI HuA HuI Hn Hw. unfold write_sorted_index in Hw. injection Hw as Hoff Hf.
  destruct (Layout.round_up_spec (Z.of_nat (length A) * 4) Layout.SECTOR_LEN) as [Hru _];
    [lia|unfold Layout.SECTOR_LEN; lia|unfold Layout.SECTOR_LEN; lia|].
  unfold ROUND_UP, SECTOR_LEN in Hoff. rewrite Hoff in Hru.
  pose proof (write_at_length (words A) (Z.to_nat off) (words I)) as Hlen.
  unfold ROUND_UP, SECTOR_LEN in Hf. rewrite Hoff in Hf. rewrite Hf in Hlen. rewrite !words_length in Hlen.
  split_and!.
  - intros i n Hi. unfold read_block. rewrite (proj2 (Z.leb_le _ _)) by lia. f_equal.
    replace (Z.to_nat (Z.of_nat i * 4)) with (4 * i)%nat by lia.
    replace (Z.to_nat (Z.of_nat i * 4 + 4 * Z.of_nat n)) with (4 * (i + n))%nat by lia.
    rewrite <- Hf, region_write_at_before by (rewrite ?words_length; lia). rewrite region_words by lia.
    apply words_at_words. by apply Forall_take, Forall_drop.
  - intros i n Hi. unfold read_block. rewrite (proj2 (Z.leb_le _ _)) by lia. f_equal.
    replace (Z.to_nat (off + Z.of_nat i * 4)) with (Z.to_nat off + 4 * i)%nat by lia.
    replace (Z.to_nat (off + Z.of_nat i * 4 + 4 * Z.of_nat n)) with (Z.to_nat off + 4 * (i + n))%nat by lia.
    rewrite <- Hf, region_write_at_inside by (rewrite ?words_length; lia). rewrite region_words by lia.
    apply words_at_words. by apply Forall_take, Forall_drop.
  - by symmetry.
  - rewrite <- Hf. unfold write_at. rewrite take_ge by (rewrite words_length; lia). eexists. reflexivity.
Qed.

Lemma mapM_lookup {A B} (f : A → option B) l k i :
  mapM f l = Some k → k !! i = (l !! i ≫= f).
Proof.
  intros H. apply mapM_Some in H. revert i. induction H as [|x y l k Hxy _ IH]; intros [|i]; simpl; try done.
Qed.

Lemma sample_positions_lookup n s k :
  0 <= n → 0 < s →
  sample_positions n s !! k = if Z.of_nat k * s <? n then Some (Z.of_nat k * s) else None.
Proof.
  intros Hn Hs. unfold sample_positions. rewrite list_lookup_fmap.
  pose proof (Z.div_mod (n + s - 1) s ltac:(lia)). pose proof (Z.mod_pos_bound (n + s - 1) s ltac:(lia)).
  assert (0 <= (n + s - 1) / s) by (apply Z.div_pos; lia).
  destruct (Z.ltb_spec (Z.of_nat k * s) n).
  - rewrite lookup_seq_lt by nia. done.
  - rewrite lookup_seq_ge by nia. done.
Qed.

Lemma stride_pos n : 0 < stride_of n.
Proof. unfold stride_of. lia. Qed.

(** The histogram read back from the file. *)
Lemma load_histogram_spec t A rest :
  file t = words A ++ rest → base_n_vectors_ t = Z.of_nat (length A) → Forall is_u32 A →
  ∃ h, load_histogram t = Some (mkRange (n_vectors t) (base_n_vectors_ t) h (attrs_ t) (stride_of (base_n_vectors_ t))
         (ids_offset t) (delta_ t) (delta_bytes_ t) (bucket_ids_ t) (bucket_boundaries_ t) (file t) (quantize_file t))
  ∧ ∀ k, h !! k = A !! (k * Z.to_nat (stride_of (base_n_vectors_ t)))%nat.
Proof.
  intros Hf Hb Hu. pose proof (stride_pos (base_n_vectors_ t)) as Hs. unfold load_histogram.
  set (s := stride_of (base_n_vectors_ t)) in *.
  set (g := λ i : Z, '(v, _) ← read_le 4 (drop (Z.to_nat (i * 4)) (file t)); Some v).
  assert (Hg : ∀ k, (Z.of_nat k * s < Z.of_nat (length A)) → g (Z.of_nat k * s) = A !! (k * Z.to_nat s)%nat).
  { intros k Hk. destruct (lookup_lt_is_Some_2 A (k * Z.to_nat s)%nat) as [w Hw]; [nia|].
    destruct (read_word A _ rest w Hu Hw) as [s' Hr]. unfold g. rewrite Hf, Hw.
    replace (Z.to_nat (Z.of_nat k * s * 4)) with (4 * (k * Z.to_nat s))%nat by nia. by rewrite Hr. }
  destruct (mapM g (sample_positions (base_n_vectors_ t) s)) as [h|] eqn:Hm.
  - exists h. split; [done|]. intros k. rewrite (mapM_lookup _ _ _ k Hm), sample_positions_lookup by lia.
    rewrite Hb. case_if; [by apply Hg|]. symmetry. apply lookup_ge_None. nia.
  - exfalso. apply mapM_None_1, Exists_exists in Hm as (x & Hx & Hn).
    apply list_elem_of_lookup in Hx as [k Hk]. rewrite sample_positions_lookup in Hk by lia.
    revert Hk. case_if; [|done]. intros [= <-]. rewrite Hg in Hn by lia. apply lookup_ge_None in Hn. nia.
Qed.

Lemma load_save_quantized bounds ids :
  length bounds = 257%nat → Forall is_u32 bounds → Z.of_nat (length ids) < 2 ^ 32 →
  load_quantized_buckets (save_quantized_buckets bounds ids) = Some (bounds, ids).
Proof.
  intros Hb Hu Hn. unfold load_quantized_buckets, save_quantized_buckets. rewrite take_ge by lia.
  rewrite read_u32_app by done. cbn [mbind option_bind].
  rewrite read_bytes_app by (rewrite words_length, Hb; reflexivity). cbn [mbind option_bind].
  rewrite read_u32_app by (unfold is_u32; lia). cbn [mbind option_bind].
  rewrite <- (app_nil_r ids) at 2. rewrite read_bytes_app by lia. cbn [mbind option_bind].
  by rewrite words_at_words.
Qed.

(** ** Building *)

Lemma pair_le_total a b : pair_le a b ∨ pair_le b a.
Proof. unfold pair_le. lia. Qed.

Lemma pair_le_trans a b c : pair_le a b → pair_le b c → pair_le a c.
Proof. unfold pair_le. lia. Qed.

Definition numbered (attrs : list Z) : list (Z * Z) := zip attrs (map Z.of_nat (seq 0 (length attrs))).

Lemma numbered_lookup attrs i a : attrs !! i = Some a → numbered attrs !! i = Some (a, Z.of_nat i).
Proof.
  intros Hi. unfold numbered. apply lookup_zip_with_Some. exists a, (Z.of_nat i). split_and!; try done.
  rewrite list_lookup_fmap, lookup_seq_lt; [done|]. by eapply lookup_lt_Some.
Qed.

Lemma numbered_length attrs : length (numbered attrs) = length attrs.
Proof. unfold numbered. rewrite length_zip_with, length_map, length_seq. lia. Qed.

Lemma numbered_elem attrs a v : (a, v) ∈ numbered attrs ↔ 0 <= v ∧ attrs !! Z.to_nat v = Some a.
Proof.
  rewrite list_elem_of_lookup. split.
  - intros [i Hi]. pose proof (lookup_lt_Some _ _ _ Hi) as Hlt. rewrite numbered_length in Hlt.
    destruct (lookup_lt_is_Some_2 attrs i Hlt) as [a' Ha]. rewrite (numbered_lookup _ _ _ Ha) in Hi.
    injection Hi as -> <-. split; [lia|]. by rewrite Nat2Z.id.
  - intros [Hv Ha]. exists (Z.to_nat v). rewrite (numbered_lookup _ _ _ Ha). by rewrite Z2Nat.id.
Qed.

Lemma sorted_data_perm attrs : sorted_data attrs ≡ₚ numbered attrs.
Proof. apply merge_sort_Permutation. Qed.

Lemma sorted_data_sorted attrs : StronglySorted Z.le (sorted_data attrs).*1.
Proof.
  assert (StronglySorted pair_le (sorted_data attrs)) as Hs.
  { apply StronglySorted_merge_sort; [intros x y z; apply pair_le_trans|intros x y; apply pair_le_total]. }
  induction Hs as [|x l Hs IH Hf]; simpl; constructor; [done|].
  apply Forall_forall. intros y (z & -> & Hz)%list_elem_of_fmap. rewrite Forall_forall in Hf.
  specialize (Hf z Hz). unfold pair_le in Hf. lia.
Qed.

Lemma sorted_data_ids attrs : NoDup (sorted_data attrs).*2.
Proof.
  rewrite (sorted_data_perm attrs). unfold numbered. rewrite snd_zip by (rewrite length_map, length_seq; lia).
  apply NoDup_fmap; [intros x y; lia|]. apply NoDup_seq.
Qed.

(** The bucket array after the assignment loop. *)
Lemma assign_buckets_spec n ids k acc :
  NoDup ids → Forall (λ v, 0 <= v ∧ (Z.to_nat v < length acc)%nat) ids →
  ∃ res, foldl (assign_buckets n) (Some acc) (zip (seq k (length ids)) ids) = Some res
  ∧ length res = length acc
  ∧ (∀ i v, ids !! i = Some v → res !! Z.to_nat v = Some (bucket_of_rank n (k + i)))
  ∧ ∀ j, (∀ v, v ∈ ids → Z.to_nat v ≠ j) → res !! j = acc !! j.
Proof.
  intros Hnd. revert k acc. induction Hnd as [|v ids Hv _ IH]; intros k acc Hr.
  { exists acc. by split_and!. }
  apply Forall_cons in Hr as [[Hv0 Hvl] Hr]. cbn [length seq zip zip_with foldl].
  unfold assign_buckets at 2. cbn [mbind option_bind fst snd]. rewrite vset_Some by done.
  destruct (IH (S k) (<[Z.to_nat v := bucket_of_rank n k]> acc)) as (res & Hf & Hl & Hin & Hout).
  { eapply Forall_impl; [exact Hr|]. intros w. by rewrite length_insert. }
  exists res. split; [exact Hf|]. split; [by rewrite Hl, length_insert|]. split.
  - intros [|i] w Hw; simplify_eq/=.
    + rewrite Hout, list_lookup_insert_eq by done || (intros u Hu He; rewrite Forall_forall in Hr;
        destruct (Hr u Hu) as [Hu0 _]; apply Hv; replace w with u by lia; done). by rewrite Nat.add_0_r.
    + rewrite (Hin i w Hw). f_equal. f_equal. lia.
  - intros j Hj. rewrite Hout by set_solver. rewrite list_lookup_insert_ne by set_solver. done.
Qed.

Lemma boundaries_spec n A :
  n = Z.of_nat (length A) → 0 < n → Forall is_u32 A →
  ∃ bounds, boundaries n A = Some bounds ∧ length bounds = 257%nat ∧ Forall is_u32 bounds
  ∧ ∀ b, (b < 256)%nat → bounds !! b = A !! Z.to_nat (Z.of_nat b * n / 256).
Proof.
  intros Hn Hp Hu. unfold boundaries, kQuantizeBuckets.
  set (g := λ b : nat, A !! Z.to_nat (Z.of_nat b * n / 256)).
  assert (Hg : ∀ b, (b < 256)%nat → is_Some (g b)).
  { intros b Hb. apply lookup_lt_is_Some. assert (Z.of_nat b * n / 256 < n) by (apply Z.div_lt_upper_bound; nia).
    assert (0 <= Z.of_nat b * n / 256) by (apply Z.div_pos; nia). lia. }
  change (Z.to_nat 256) with 256%nat.
  destruct (mapM g (seq 0 256)) as [bs|] eqn:Hm.
  2:{ exfalso. apply mapM_None_1, Exists_exists in Hm as (b & Hb & Hnone). apply elem_of_seq in Hb.
      destruct (Hg b ltac:(lia)) as [x Hx]. congruence. }
  cbn [mbind option_bind]. destruct (lookup_lt_is_Some_2 A (Z.to_nat (n - 1))) as [last Hlast]; [lia|].
  rewrite Hlast. cbn [mbind option_bind]. eexists. split; [done|].
  assert (length bs = 256%nat) as Hlen by (apply length_mapM in Hm; by rewrite length_seq in Hm).
  split; [rewrite length_app, Hlen; done|]. split.
  - apply Forall_app. split; [|constructor; [apply u32_range|constructor]].
    apply Forall_forall. intros x (b & Hb)%list_elem_of_lookup. rewrite (mapM_lookup _ _ _ b Hm) in Hb.
    destruct (seq 0 256 !! b) as [b'|]; [|done]. simpl in Hb. apply (Forall_lookup_1 _ _ _ _ Hu Hb).
  - intros b Hb. rewrite lookup_app_l by lia. rewrite (mapM_lookup _ _ _ b Hm), lookup_seq_lt by done. done.
Qed.

(** Saving the values of the rows and opening the files. *)
Definition open_saved (rows : list (list Z)) : option SortedRangeAttrIndex :=
  let n := Z.of_nat (length rows) in
  t ← load_from_rows (new_index n [] []) rows;
  t ← save t;
  load_approx (new_index n (file t) (quantize_file t)).

Record values_ok (rows : list (list Z)) (attrs : list Z) : Prop := mkValuesOk {
  vo_head : mapM head rows = Some attrs;
  vo_u32 : Forall is_u32 attrs;
  vo_count : 0 < Z.of_nat (length rows) < 2 ^ 32
}.

Lemma open_saved_spec rows attrs :
  values_ok rows attrs →
  ∃ t, open_saved rows = Some t ∧ range_ok t (sorted_data attrs) ∧ delta_ t = ∅
  ∧ (∀ i a v, sorted_data attrs !! i = Some (a, v) →
       bucket_ids_ t !! Z.to_nat v = Some (bucket_of_rank (Z.of_nat (length attrs)) i))
  ∧ (∀ b, (b < 256)%nat →
       bucket_boundaries_ t !! b
       = (sorted_data attrs).*1 !! Z.to_nat (Z.of_nat b * Z.of_nat (length attrs) / 256)).
Proof.
  intros [Hh Hu Hc]. pose proof (length_mapM _ _ _ Hh) as Hlen.
  assert (Hperm := sorted_data_perm attrs). set (data := sorted_data attrs) in *.
  assert (Hld : length data = length attrs) by (rewrite Hperm; apply numbered_length).
  assert (Hua : Forall is_u32 data.*1).
  { apply Forall_forall. intros a ([a' v] & -> & Hin)%list_elem_of_fmap. rewrite Hperm in Hin.
    apply numbered_elem in Hin as [_ Hin]. apply (Forall_lookup_1 _ _ _ _ Hu Hin). }
  assert (Hui : Forall is_u32 data.*2).
  { apply Forall_forall. intros v ([a v'] & -> & Hin)%list_elem_of_fmap. rewrite Hperm in Hin.
    apply numbered_elem in Hin as [Hv Hin]. apply lookup_lt_Some in Hin. unfold is_u32. simpl. lia. }
  unfold open_saved, load_from_rows. rewrite Hh. cbn [mbind option_bind]. unfold save.
  cbn [n_vectors attrs_ bucket_ids_ new_index]. rewrite (proj2 (Z.leb_le _ _)) by lia. cbn [mbind option_bind].
  rewrite take_ge by lia. fold data.
  destruct (write_sorted_index data.*1 data.*2) as [off f] eqn:Hw.
  apply write_sorted_blocks in Hw as (Hra & Hri & Hoff & rest & Hf); [|rewrite ?length_fmap; done || lia..].
  rewrite length_fmap in *.
  destruct (boundaries_spec (Z.of_nat (length rows)) data.*1) as (bounds & Hb & Hbl & Hbu & Hbs);
    [rewrite length_fmap; lia|lia|done|].
  unfold build_quantized_buckets. rewrite Hb. cbn [mbind option_bind].
  destruct (assign_buckets_spec (Z.of_nat (length rows)) data.*2 0 (vresize [] (Z.to_nat (Z.of_nat (length rows))) 0))
    as (ids & Hf2 & Hil & His & _).
  { apply sorted_data_ids. }
  { apply Forall_forall. intros v ([a v'] & -> & Hin)%list_elem_of_fmap. rewrite Hperm in Hin.
    apply numbered_elem in Hin as [Hv Hin]. apply lookup_lt_Some in Hin. rewrite vresize_length. simpl. lia. }
  rewrite length_fmap, Hld, <- Hlen in Hf2. rewrite Nat2Z.id in Hf2 |- *. rewrite Hf2. cbn [mbind option_bind].
  cbn [file quantize_file]. rewrite vresize_length, Nat2Z.id in Hil || rewrite vresize_length in Hil.
  unfold load_approx.
  destruct (load_histogram_spec (new_index (Z.of_nat (length rows)) f (save_quantized_buckets bounds ids)) data.*1 rest)
    as (h & -> & Hh2); [done|simpl; rewrite length_fmap; lia|done|].
  cbn [mbind option_bind quantize_file new_index]. rewrite load_save_quantized by (done || lia). cbn [mbind option_bind].
  eexists. split; [reflexivity|]. split; [|split; [done|split]].
  - split; cbn [base_n_vectors_ file ids_offset stride histogram_ new_index].
    + lia.
    + apply sorted_data_sorted.
    + intros i n Hi. apply Hra. lia.
    + intros i n Hi. replace (Z.of_nat (length rows) * 4) with (Z.of_nat (length data) * 4) by lia.
      rewrite <- Hoff. apply Hri. lia.
    + apply stride_pos.
    + exact Hh2.
    + lia.
  - intros i a v Hi. cbn [bucket_ids_]. rewrite <- Hlen. apply (His i v). by rewrite list_lookup_fmap, Hi.
  - intros b Hb'. cbn [bucket_boundaries_]. rewrite (Hbs b Hb'). by rewrite Hlen.
Qed.

(** C34: a saved and reopened range index answers interval queries exactly: for
    any values and any [l <= r], [pre_filter] terminates within the files and
    returns, sorted, exactly the vectors whose value lies in [l, r), whatever the
    sampling stride of the histogram. *)
Theorem range_prefilter_exact rows attrs l r :
  values_ok rows attrs → l <= r →
  ∃ t res, open_saved rows = Some t ∧ pre_filter t [l; r] = Some res ∧ Sorted Z.le res
  ∧ ∀ v, v ∈ res ↔ 0 <= v ∧ ∃ a, attrs !! Z.to_nat v = Some a ∧ l <= a < r.
Proof.
  intros Hv Hlr. destruct (open_saved_spec rows attrs Hv) as (t & Ho & Hok & Hd & _).
  destruct (range_pre_filter_spec t _ Hok l r Hlr) as (res & Hp & Hs & Hin).
  exists t, res. split_and!; try done. intros v. rewrite Hin, Hd. split.
  - intros [(a & Ha & Hr)|(a & ids & Ha & _)]; [|by rewrite lookup_empty in Ha].
    rewrite sorted_data_perm, numbered_elem in Ha. naive_solver.
  - intros (Hv0 & a & Ha & Hr). left. exists a. rewrite sorted_data_perm, numbered_elem. done.
Qed.

(** The boundary above the bucket of a rank, on a small index, is the value at that
    rank itself. *)
Lemma small_bucket n i :
  0 < n < 256 → 0 <= Z.of_nat i < n →
  bucket_of_rank n i = Z.of_nat i * 256 / n ∧ Z.of_nat i * 256 / n < 255
  ∧ (Z.of_nat i * 256 / n + 1) * n / 256 = Z.of_nat i.
Proof.
  intros Hn Hi. set (q := Z.of_nat i * 256 / n).
  pose proof (Z.div_mod (Z.of_nat i * 256) n ltac:(lia)) as Hd.
  pose proof (Z.mod_pos_bound (Z.of_nat i * 256) n ltac:(lia)) as Hm. fold q in Hd.
  assert (0 <= q < 255) by nia.
  split_and!; [|lia|].
  - unfold bucket_of_rank, kQuantizeBuckets. fold q. rewrite (u32_small q) by (unfold is_u32; lia).
    rewrite Z.min_l by lia. rewrite u32_small by (unfold is_u32; lia). apply Z.mod_small. lia.
  - symmetry. apply (Z.div_unique _ _ _ ((q + 1) * n - 256 * Z.of_nat i)); nia.
Qed.

(** the in-filter test of the range index has false negatives: on an index of
    fewer than 256 vectors, an equality query for a vector's own value rejects the
    vector, for every vector, because the bucket of a rank is taken to end at the
    value stored at that very rank. *)
Theorem range_approx_false_negative rows attrs v a :
  values_ok rows attrs → Z.of_nat (length rows) < 256 → 0 <= v → attrs !! Z.to_nat v = Some a →
  ∃ t, open_saved rows = Some t ∧ is_member_approx t v [a; a + 1] = Some false
  ∧ ∃ res, pre_filter t [a; a + 1] = Some res ∧ v ∈ res.
Proof.
  intros Hv Hsmall Hv0 Ha. destruct (open_saved_spec rows attrs Hv) as (t & Ho & Hok & Hd & Hids & Hbounds).
  exists t. split; [done|]. split.
  - assert ((a, v) ∈ sorted_data attrs) as [i Hi]%list_elem_of_lookup.
    { by rewrite sorted_data_perm, numbered_elem. }
    pose proof Hv as [Hh Hu Hc]. pose proof (length_mapM _ _ _ Hh) as Hlen.
    assert (length (sorted_data attrs) = length attrs) as Hld by (rewrite sorted_data_perm; apply numbered_length).
    pose proof (lookup_lt_Some _ _ _ Hi) as Hlt.
    destruct (small_bucket (Z.of_nat (length attrs)) i) as (Hb & Hq & Hidx); [lia|lia|].
    set (q := Z.of_nat i * 256 / Z.of_nat (length attrs)) in *.
    assert (0 <= q) by (apply Z.div_pos; lia).
    unfold is_member_approx. cbn [interval mbind option_bind]. rewrite (Hids i a v Hi), Hb. cbn [mbind option_bind].
    destruct (bucket_boundaries_ t !! Z.to_nat q) as [lo|] eqn:Hlo.
    2:{ exfalso. rewrite Hbounds in Hlo by lia. apply lookup_ge_None in Hlo. rewrite length_fmap in Hlo.
        assert (Z.of_nat (Z.to_nat q) * Z.of_nat (length attrs) / 256 < Z.of_nat (length attrs))
          by (apply Z.div_lt_upper_bound; nia). lia. }
    cbn [mbind option_bind]. case_if; [|done].
    rewrite Hbounds by lia. replace (Z.of_nat (Z.to_nat (q + 1))) with (q + 1) by lia. rewrite Hidx, Nat2Z.id.
    rewrite list_lookup_fmap, Hi. cbn [fmap option_fmap option_map mbind option_bind fst].
    by rewrite Z.ltb_irrefl.
  - destruct (range_pre_filter_spec t _ Hok a (a + 1) ltac:(lia)) as (res & Hp & _ & Hin).
    exists res. split; [done|]. apply Hin. left. exists a.
    rewrite sorted_data_perm, numbered_elem. split; [done|lia].
Qed.

Definition example_values : list (list Z) := [[30]; [10]; [20]; [10]].

Lemma example_values_ok : values_ok example_values [30; 10; 20; 10].
Proof.
  split; [done| |simpl; lia]. rewrite !Forall_cons. unfold is_u32. split_and!; try lia. constructor.
Qed.

Lemma range_prefilter_exact_witness :
  ∃ t res, open_saved example_values = Some t ∧ pre_filter t [10; 21] = Some res ∧ 2 ∈ res.
Proof.
  destruct (range_prefilter_exact example_values [30; 10; 20; 10] 10 21 example_values_ok ltac:(lia))
    as (t & res & Ho & Hp & _ & Hin).
  exists t, res. split; [exact Ho|]. split; [exact Hp|]. apply Hin. split; [lia|]. exists 20.
  split; [reflexivity|lia].
Defined.

Lemma range_approx_false_negative_witness :
  ∃ t, open_saved example_values = Some t ∧ is_member_approx t 2 [20; 21] = Some false.
Proof.
  destruct (range_approx_false_negative example_values [30; 10; 20; 10] 2 20 example_values_ok)
    as (t & Ho & Hm & _); [simpl; lia|lia|reflexivity|].
  exists t. split; [exact Ho|exact Hm].
Defined.

(** A value inserted above the last boundary lands in the last bucket, whose range
    does not reach it: the in-filter test rejects the new vector on its own value. *)
Lemma range_insert_above_false_negative t v value t' :
  length (bucket_boundaries_ t) = 257%nat → Forall (λ b, b <= value) (bucket_boundaries_ t) →
  0 <= v → delta_bytes_ t + 8 < 4 * 1024 * 1024 →
  insert t v [value] = Some t' → is_member_approx t' v [value; value + 1] = Some false.
Proof.
  intros Hlen Hle Hv0 Hd. unfold insert. cbn [head mbind option_bind].
  match goal with |- context [vset ?x (Z.to_nat v) _] => set (ids := x) end.
  destruct (vset ids (Z.to_nat v) _) as [ids'|] eqn:Hs; [|done]. cbn [mbind option_bind delta_bytes_].
  rewrite (proj2 (Z.leb_gt _ _)) by lia. intros [= <-].
  assert (Hb : bucket_of_value (bucket_boundaries_ t) value = 255).
  { unfold bucket_of_value. assert (upper_bound (bucket_boundaries_ t) value = 257%nat) as ->; [|done].
    rewrite <- Hlen. clear -Hle. induction Hle as [|b bs Hb _ IH]; simpl; [done|].
    rewrite (proj2 (Z.leb_le _ _)) by done. by rewrite IH. }
  rewrite Hb in Hs. revert Hs. unfold vset. case_if; [|done]. intros [= <-].
  unfold is_member_approx. cbn [interval mbind option_bind bucket_ids_ bucket_boundaries_].
  rewrite list_lookup_insert_eq by done. cbn [mbind option_bind]. change (Z.to_nat 255) with 255%nat.
  destruct (lookup_lt_is_Some_2 (bucket_boundaries_ t) 255) as [lo ->]; [lia|]. cbn [mbind option_bind].
  case_if; [|done]. change (Z.to_nat (255 + 1)) with 256%nat.
  destruct (lookup_lt_is_Some_2 (bucket_boundaries_ t) 256) as [hi Hhi]; [lia|].
  rewrite Hhi. cbn [mbind option_bind]. pose proof (Forall_lookup_1 _ _ _ _ Hle Hhi) as Hh. simpl in Hh.
  by rewrite (proj2 (Z.ltb_ge _ _)) by lia.
Qed.

End Range.
