(* ===== verification/Selector.v ===== *)
(** * Selectors ([include/filter/selector.h])

    A selector tree combines attribute constraints with AND, OR and NOT.  The
    tree is mutable: [prepare_in_filter] fills the lists the in-filter test
    reads, [estimate_selectivity] stores the selectivities in the AND nodes and
    sorts their children.  Both are functions to a new tree here.

    The attribute indexes are reached by pointer through virtual calls: a heap
    of records of operations.  What a selector needs of an index is a class of
    laws ([LabelIndexSpec], [RangeIndexSpec], [StringIndexSpec]); the theorems
    about trees are proved against the laws. *)

From Stdlib Require Import Floats.SpecFloat.
From S2P Require Import Prelude Float32 Bytes FilterUtils StringAttr Attributes.
From stdpp Require Import sorting.

Module Sel.
Import Ids StringAttr.
Open Scope Z_scope.

Notation Attribute := (list Z) (only parsing).
Notation Attributes := (gmap Z (list Z)) (only parsing).

(** The double nearest to 0.1. *)
Definition kHighSelectivityThreshold : double := ddiv d_one (d_of_Z 10).

(** ** The indexes behind the virtual calls *)

Inductive Direction := PREFIX | SUFFIX.

Record AttrIndex := mkAttrIndex {
  n_vectors : Z;
  estimate_count : Attribute → option Z;
  estimate_precision : Attribute → option double;
  estimate_prefilter_reads : Attribute → option Z;
  pre_filter : Attribute → option (list Z);
  estimate_infilter_reads : Attribute → option Z;
  prepare_in_filter : Attribute → option (list Z);
  is_member_approx : Z → Attribute → list Z → option bool
}.

(** What [LabelAndSelector] calls of an [InvertedLabelAttrIndex]. *)
Record InvertedOps := mkInverted {
  inv_base : AttrIndex;
  estimate_count_and : Attribute → option Z;
  estimate_precision_and : Attribute → option double;
  estimate_prefilter_reads_and : Attribute → option Z;
  pre_filter_and : Attribute → option (list Z);
  estimate_infilter_reads_and : Attribute → option Z;
  prepare_in_filter_and : Attribute → option (list Z);
  is_member_approx_and : Z → Attribute → list Z → option bool
}.

(** What the string selectors call of a [StringAttrIndex]. *)
Record StringOps := mkStringOps {
  str_base : AttrIndex;
  estimate_count_dir : Direction → Attribute → option Z;
  estimate_precision_dir : Direction → Attribute → option double;
  estimate_prefilter_reads_dir : Direction → Attribute → option Z;
  pre_filter_dir : Direction → Attribute → option (list Z);
  is_member_approx_dir : Direction → Z → Attribute → list Z → option bool;
  estimate_count_like : Attribute → option Z;
  estimate_prefilter_reads_like : Attribute → option Z;
  pre_filter_like : Attribute → option (list Z)
}.

Inductive index :=
  | IRange (ix : AttrIndex)
  | ILabel (ix : InvertedOps)
  | IString (ix : StringOps).

Definition base_of (i : index) : AttrIndex :=
  match i with IRange ix => ix | ILabel ix => inv_base ix | IString ix => str_base ix end.

(** ** The tree *)

Inductive Selector :=
  | LabelOrSelector (key base_key : Z) (attr_index : Z) (cold_list : list Z)
  | LabelAndSelector (key base_key : Z) (attr_index : Z) (cold_list : list Z)
  | RangeSelector (key base_key : Z) (attr_index : Z) (prepared_list : list Z)
  | AndSelector (attr_indexes : list Z) (selectors : list (Selector * double))
  | OrSelector (attr_indexes : list Z) (selectors : list Selector)
  | NotSelector (selector : Selector) (n_vectors : Z) (vector_id_set : list Z)
  | StringEqSelector (key base_key : Z) (attr_index : Z) (cold_list : list Z)
  | StringPrefixSelector (key base_key : Z) (attr_index : Z) (cold_list : list Z)
  | StringSuffixSelector (key base_key : Z) (attr_index : Z) (cold_list : list Z)
  | StringLikeSelector (key base_key : Z) (attr_index : Z) (cold_list : list Z).

(** The field [attr_indexes_] of the base class. *)
Definition attr_indexes_ (s : Selector) : list Z :=
  match s with
  | LabelOrSelector _ _ p _ | LabelAndSelector _ _ p _ | RangeSelector _ _ p _
  | StringEqSelector _ _ p _ | StringPrefixSelector _ _ p _ | StringSuffixSelector _ _ p _
  | StringLikeSelector _ _ p _ => [p]
  | AndSelector ps _ | OrSelector ps _ => ps
  | NotSelector _ _ _ => []
  end.

Definition add_index (ps : list Z) (p : Z) : list Z := if existsb (Z.eqb p) ps then ps else ps ++ [p].

Definition merge_attr_indexes (ps : list Z) (child : Selector) : list Z :=
  foldl add_index ps (attr_indexes_ child).

(** ** The constructors *)

Definition new_LabelOrSelector (key base_key p : Z) : Selector := LabelOrSelector key base_key p [].
Definition new_LabelAndSelector (key base_key p : Z) : Selector := LabelAndSelector key base_key p [].
Definition new_RangeSelector (key base_key p : Z) : Selector := RangeSelector key base_key p [].
Definition new_AndSelector (selectors : list Selector) : Selector :=
  AndSelector (foldl merge_attr_indexes [] selectors) (map (λ s, (s, d_one)) selectors).
Definition new_OrSelector (selectors : list Selector) : Selector :=
  OrSelector (foldl merge_attr_indexes [] selectors) selectors.
Definition new_NotSelector (selector : Selector) (n : Z) : Selector := NotSelector selector n [].

Section heap.
Context (heap : gmap Z index).

(** The cast of the constructor throws on an index that is no string index. *)
Definition string_index (p : Z) : option StringOps :=
  match heap !! p with Some (IString ix) => Some ix | _ => None end.
Definition new_StringEqSelector (key base_key p : Z) : option Selector :=
  _ ← string_index p; Some (StringEqSelector key base_key p []).

(** [inv_store]: a static cast, undefined on another class. *)
Definition inv_store (p : Z) : option InvertedOps :=
  match heap !! p with Some (ILabel ix) => Some ix | _ => None end.
Definition attr_index (p : Z) : option AttrIndex := base_of <$> heap !! p.

(** [copy]: fresh query-local state, same indexes. *)
Fixpoint copy (s : Selector) : Selector :=
  match s with
  | LabelOrSelector key base_key p _ => new_LabelOrSelector key base_key p
  | LabelAndSelector key base_key p _ => new_LabelAndSelector key base_key p
  | RangeSelector key base_key p _ => new_RangeSelector key base_key p
  | AndSelector _ sels => new_AndSelector (map (λ ss, copy ss.1) sels)
  | OrSelector _ sels => new_OrSelector (map copy sels)
  | NotSelector s n _ => new_NotSelector (copy s) n
  | StringEqSelector key base_key p _ => StringEqSelector key base_key p []
  | StringPrefixSelector key base_key p _ => StringPrefixSelector key base_key p []
  | StringSuffixSelector key base_key p _ => StringSuffixSelector key base_key p []
  | StringLikeSelector key base_key p _ => StringLikeSelector key base_key p []
  end.

(** ** String query records *)

(** [for_each_record]: the records in the order the callback sees them; each
    iteration consumes at least the length word, so the length of the query is
    enough fuel. *)
Fixpoint records_loop (fuel : nat) (q : Attribute) : list Attribute :=
  match fuel, q with
  | S fuel, rec_len :: rest =>
      if Nat.ltb (length rest) (Z.to_nat rec_len) then []
      else take (Z.to_nat rec_len) rest :: records_loop fuel (drop (Z.to_nat rec_len) rest)
  | _, _ => []
  end.
Definition for_each_record (q : Attribute) : list Attribute := records_loop (length q) q.

(** ** Loops with early return *)

Definition all_opt {A} (f : A → option bool) : list A → option bool :=
  fix go (l : list A) : option bool :=
    match l with
    | [] => Some true
    | x :: l => b ← f x; if (b : bool) then go l else Some false
    end.

Definition any_opt {A} (f : A → option bool) : list A → option bool :=
  fix go (l : list A) : option bool :=
    match l with
    | [] => Some false
    | x :: l => b ← f x; if (b : bool) then Some true else go l
    end.

Definition map_opt {A B} (f : A → option B) : list A → option (list B) :=
  fix go (l : list A) : option (list B) :=
    match l with
    | [] => Some []
    | x :: l => y ← f x; ys ← go l; Some (y :: ys)
    end.

Definition or_opt {A} (f : A → option (list Z)) (l : list A) : option (list Z) :=
  ls ← map_opt f l; Some (foldl or_sorted_unique [] ls).

(** ** Exact membership *)

Definition has (l : list Z) (x : Z) : bool := existsb (Z.eqb x) l.

(** [target_attrs] has the key, or the answer is no. *)
Definition with_target (target_attrs : Attributes) (base_key : Z) (f : Attribute → option bool) : option bool :=
  match Attributes.get target_attrs base_key with None => Some false | Some t => f t end.

Definition in_range (query target : Attribute) : option bool :=
  l ← query !! 0%nat;
  let r := match query !! 1%nat with Some r => r | None => u32 (l + 1) end in
  v ← target !! 0%nat;
  Some ((l <=? v) && (v <? r)).

Definition LabelOr_is_member (key base_key : Z) (query_attrs target_attrs : Attributes) : option bool :=
  with_target target_attrs base_key (λ t,
    q ← Attributes.get query_attrs key; Some (existsb (has t) q)).
Definition LabelAnd_is_member (key base_key : Z) (query_attrs target_attrs : Attributes) : option bool :=
  with_target target_attrs base_key (λ t,
    q ← Attributes.get query_attrs key; Some (forallb (has t) q)).
Definition Range_is_member (key base_key : Z) (query_attrs target_attrs : Attributes) : option bool :=
  with_target target_attrs base_key (λ t,
    q ← Attributes.get query_attrs key; in_range q t).
Definition StringEq_is_member (key base_key : Z) (query_attrs target_attrs : Attributes) : option bool :=
  with_target target_attrs base_key (λ t,
    q ← Attributes.get query_attrs key;
    Some (existsb (λ rec, bool_decide (rec = t)) (for_each_record q))).
Definition StringPrefix_is_member (key base_key : Z) (query_attrs target_attrs : Attributes) : option bool :=
  with_target target_attrs base_key (λ t,
    q ← Attributes.get query_attrs key;
    Some (existsb (string_attr_starts_with t) (for_each_record q))).
Definition StringSuffix_is_member (key base_key : Z) (query_attrs target_attrs : Attributes) : option bool :=
  with_target target_attrs base_key (λ t,
    q ← Attributes.get query_attrs key;
    Some (existsb (string_attr_ends_with t) (for_each_record q))).
Definition StringLike_is_member (key base_key : Z) (query_attrs target_attrs : Attributes) : option bool :=
  with_target target_attrs base_key (λ t,
    q ← Attributes.get query_attrs key;
    any_opt (λ rec, like_match (string_attr_view t) (string_attr_view rec)) (for_each_record q)).

(** The composites, given the method of the children. *)
Definition And_is_member (child : Selector → option bool) (sels : list (Selector * double)) : option bool :=
  all_opt (λ ss, child ss.1) sels.
Definition Or_is_member (child : Selector → option bool) (sels : list Selector) : option bool :=
  any_opt child sels.
Definition Not_is_member (child : Selector → option bool) (s : Selector) : option bool := negb <$> child s.

Fixpoint is_member (s : Selector) (query_attrs target_attrs : Attributes) : option bool :=
  match s with
  | LabelOrSelector key base_key _ _ => LabelOr_is_member key base_key query_attrs target_attrs
  | LabelAndSelector key base_key _ _ => LabelAnd_is_member key base_key query_attrs target_attrs
  | RangeSelector key base_key _ _ => Range_is_member key base_key query_attrs target_attrs
  | AndSelector _ sels => And_is_member (λ s, is_member s query_attrs target_attrs) sels
  | OrSelector _ sels => Or_is_member (λ s, is_member s query_attrs target_attrs) sels
  | NotSelector s _ _ => Not_is_member (λ s, is_member s query_attrs target_attrs) s
  | StringEqSelector key base_key _ _ => StringEq_is_member key base_key query_attrs target_attrs
  | StringPrefixSelector key base_key _ _ => StringPrefix_is_member key base_key query_attrs target_attrs
  | StringSuffixSelector key base_key _ _ => StringSuffix_is_member key base_key query_attrs target_attrs
  | StringLikeSelector key base_key _ _ => StringLike_is_member key base_key query_attrs target_attrs
  end.

(** ** Speculative pre-filtering *)

(** [NotSelector]'s loop: the ids from [start] on that are not excluded; the loop
    variable after the excluded ids wraps at 32 bits. *)
Fixpoint complement_loop (start : Z) (excluded : list Z) (n : Z) : list Z :=
  match excluded with
  | [] => seqZ start (n - start)
  | e :: excluded => seqZ start (e - start) ++ complement_loop (u32 (e + 1)) excluded n
  end.

(** [reserve] throws when the subtraction of the sizes wraps. *)
Definition complement (excluded : list Z) (n : Z) : option (list Z) :=
  if n <? Z.of_nat (length excluded) then None else Some (complement_loop 0 excluded n).

(** The children after the first, in order. *)
Definition and_loop (strict : bool) (f : Selector → option (list Z)) :
    list (Selector * double) → option (list Z) → option (list Z) :=
  fix go (l : list (Selector * double)) (acc : option (list Z)) : option (list Z) :=
    match l with
    | [] => acc
    | ss :: l => go l (ret ← acc;
        if strict || dle ss.2 kHighSelectivityThreshold
        then cur ← f ss.1; Some (and_sorted_unique ret cur)
        else Some ret)
    end.

Definition And_pre_filter (strict : bool) (child : Selector → option (list Z)) (sels : list (Selector * double))
    : option (list Z) :=
  match sels with
  | [] => None
  | ss :: sels => and_loop strict child sels (child ss.1)
  end.
Definition Or_pre_filter (child : Selector → option (list Z)) (sels : list Selector) : option (list Z) :=
  or_opt child sels.
Definition Not_pre_filter (child : Selector → option (list Z)) (s : Selector) (n : Z) : option (list Z) :=
  not_vector_ids ← child s; complement not_vector_ids n.

Definition LabelOr_pre_filter (key p : Z) (query_attrs : Attributes) : option (list Z) :=
  ix ← attr_index p; q ← Attributes.get query_attrs key; pre_filter ix q.
Definition LabelAnd_pre_filter (key p : Z) (query_attrs : Attributes) : option (list Z) :=
  ix ← inv_store p; q ← Attributes.get query_attrs key; pre_filter_and ix q.
Definition Range_pre_filter (key p : Z) (query_attrs : Attributes) : option (list Z) :=
  ix ← attr_index p; q ← Attributes.get query_attrs key; pre_filter ix q.
Definition StringEq_pre_filter (key p : Z) (query_attrs : Attributes) : option (list Z) :=
  ix ← string_index p; q ← Attributes.get query_attrs key;
  or_opt (pre_filter (str_base ix)) (for_each_record q).
Definition StringPrefix_pre_filter (key p : Z) (query_attrs : Attributes) : option (list Z) :=
  ix ← string_index p; q ← Attributes.get query_attrs key;
  or_opt (pre_filter_dir ix PREFIX) (for_each_record q).
Definition StringSuffix_pre_filter (key p : Z) (query_attrs : Attributes) : option (list Z) :=
  ix ← string_index p; q ← Attributes.get query_attrs key;
  or_opt (pre_filter_dir ix SUFFIX) (for_each_record q).
Definition StringLike_pre_filter (key p : Z) (query_attrs : Attributes) : option (list Z) :=
  ix ← string_index p; q ← Attributes.get query_attrs key;
  or_opt (pre_filter_like ix) (for_each_record q).

Fixpoint sel_pre_filter (s : Selector) (query_attrs : Attributes) (strict : bool) : option (list Z) :=
  match s with
  | LabelOrSelector key _ p _ => LabelOr_pre_filter key p query_attrs
  | LabelAndSelector key _ p _ => LabelAnd_pre_filter key p query_attrs
  | RangeSelector key _ p _ => Range_pre_filter key p query_attrs
  | AndSelector _ sels => And_pre_filter strict (λ s, sel_pre_filter s query_attrs strict) sels
  | OrSelector _ sels => Or_pre_filter (λ s, sel_pre_filter s query_attrs strict) sels
  | NotSelector s n _ => Not_pre_filter (λ s, sel_pre_filter s query_attrs strict) s n
  | StringEqSelector key _ p _ => StringEq_pre_filter key p query_attrs
  | StringPrefixSelector key _ p _ => StringPrefix_pre_filter key p query_attrs
  | StringSuffixSelector key _ p _ => StringSuffix_pre_filter key p query_attrs
  | StringLikeSelector key _ p _ => StringLike_pre_filter key p query_attrs
  end.

(** ** Speculative in-filtering *)

Definition LabelOr_prepare_in_filter (key p : Z) (query_attrs : Attributes) : option (list Z) :=
  ix ← attr_index p; q ← Attributes.get query_attrs key; prepare_in_filter ix q.
Definition LabelAnd_prepare_in_filter (key p : Z) (query_attrs : Attributes) : option (list Z) :=
  ix ← inv_store p; q ← Attributes.get query_attrs key; prepare_in_filter_and ix q.
Definition Range_prepare_in_filter (key p : Z) (query_attrs : Attributes) : option (list Z) :=
  ix ← attr_index p; q ← Attributes.get query_attrs key; prepare_in_filter ix q.
(** The other string selectors inherit the phase of [StringEqSelector]. *)
Definition StringEq_prepare_in_filter (p key : Z) (query_attrs : Attributes) : option (list Z) :=
  ix ← string_index p; q ← Attributes.get query_attrs key;
  or_opt (prepare_in_filter (str_base ix)) (for_each_record q).

Definition And_prepare_in_filter (child : Selector → option Selector) (sels : list (Selector * double))
    : option (list (Selector * double)) :=
  map_opt (λ ss, s ← child ss.1; Some (s, ss.2)) sels.
Definition Or_prepare_in_filter (child : Selector → option Selector) (sels : list Selector)
    : option (list Selector) := map_opt child sels.
Definition Not_prepare_in_filter (s : Selector) (query_attrs : Attributes) : option (list Z) :=
  sel_pre_filter s query_attrs false.

Fixpoint sel_prepare_in_filter (s : Selector) (query_attrs : Attributes) : option Selector :=
  match s with
  | LabelOrSelector key base_key p _ =>
      l ← LabelOr_prepare_in_filter key p query_attrs; Some (LabelOrSelector key base_key p l)
  | LabelAndSelector key base_key p _ =>
      l ← LabelAnd_prepare_in_filter key p query_attrs; Some (LabelAndSelector key base_key p l)
  | RangeSelector key base_key p _ =>
      l ← Range_prepare_in_filter key p query_attrs; Some (RangeSelector key base_key p l)
  | AndSelector ps sels =>
      sels ← And_prepare_in_filter (λ s, sel_prepare_in_filter s query_attrs) sels; Some (AndSelector ps sels)
  | OrSelector ps sels =>
      sels ← Or_prepare_in_filter (λ s, sel_prepare_in_filter s query_attrs) sels; Some (OrSelector ps sels)
  | NotSelector s' n _ => l ← Not_prepare_in_filter s query_attrs; Some (NotSelector s' n l)
  | StringEqSelector key base_key p _ =>
      l ← StringEq_prepare_in_filter p key query_attrs; Some (StringEqSelector key base_key p l)
  | StringPrefixSelector key base_key p _ =>
      l ← StringEq_prepare_in_filter p key query_attrs; Some (StringPrefixSelector key base_key p l)
  | StringSuffixSelector key base_key p _ =>
      l ← StringEq_prepare_in_filter p key query_attrs; Some (StringSuffixSelector key base_key p l)
  | StringLikeSelector key base_key p _ =>
      l ← StringEq_prepare_in_filter p key query_attrs; Some (StringLikeSelector key base_key p l)
  end.

Definition LabelOr_is_member_approx (key p : Z) (l : list Z) (target_id : Z) (query_attrs : Attributes) : option bool :=
  ix ← attr_index p; q ← Attributes.get query_attrs key; is_member_approx ix target_id q l.
Definition LabelAnd_is_member_approx (key p : Z) (l : list Z) (target_id : Z) (query_attrs : Attributes) : option bool :=
  ix ← inv_store p; q ← Attributes.get query_attrs key; is_member_approx_and ix target_id q l.
Definition Range_is_member_approx (key p : Z) (l : list Z) (target_id : Z) (query_attrs : Attributes) : option bool :=
  ix ← attr_index p; q ← Attributes.get query_attrs key; is_member_approx ix target_id q l.
Definition StringEq_is_member_approx (key p : Z) (l : list Z) (target_id : Z) (query_attrs : Attributes) : option bool :=
  if binary_search l target_id then Some true else
  ix ← string_index p; q ← Attributes.get query_attrs key;
  any_opt (λ rec, is_member_approx (str_base ix) target_id rec []) (for_each_record q).
Definition StringPrefix_is_member_approx (key p : Z) (target_id : Z) (query_attrs : Attributes) : option bool :=
  ix ← string_index p; q ← Attributes.get query_attrs key;
  any_opt (λ rec, is_member_approx_dir ix PREFIX target_id rec []) (for_each_record q).
Definition StringSuffix_is_member_approx (key p : Z) (target_id : Z) (query_attrs : Attributes) : option bool :=
  ix ← string_index p; q ← Attributes.get query_attrs key;
  any_opt (λ rec, is_member_approx_dir ix SUFFIX target_id rec []) (for_each_record q).
Definition StringLike_is_member_approx : option bool := Some true.
Definition And_is_member_approx (child : Selector → option bool) (sels : list (Selector * double)) : option bool :=
  all_opt (λ ss, child ss.1) sels.
Definition Or_is_member_approx (child : Selector → option bool) (sels : list Selector) : option bool :=
  any_opt child sels.
Definition Not_is_member_approx (l : list Z) (target_id : Z) : option bool := Some (binary_search l target_id).

Fixpoint sel_is_member_approx (s : Selector) (target_id : Z) (query_attrs : Attributes) : option bool :=
  match s with
  | LabelOrSelector key _ p l => LabelOr_is_member_approx key p l target_id query_attrs
  | LabelAndSelector key _ p l => LabelAnd_is_member_approx key p l target_id query_attrs
  | RangeSelector key _ p l => Range_is_member_approx key p l target_id query_attrs
  | AndSelector _ sels => And_is_member_approx (λ s, sel_is_member_approx s target_id query_attrs) sels
  | OrSelector _ sels => Or_is_member_approx (λ s, sel_is_member_approx s target_id query_attrs) sels
  | NotSelector _ _ l => Not_is_member_approx l target_id
  | StringEqSelector key _ p l => StringEq_is_member_approx key p l target_id query_attrs
  | StringPrefixSelector key _ p _ => StringPrefix_is_member_approx key p target_id query_attrs
  | StringSuffixSelector key _ p _ => StringSuffix_is_member_approx key p target_id query_attrs
  | StringLikeSelector _ _ _ _ => StringLike_is_member_approx
  end.

(** ** Cost estimates *)

Definition dsum (l : list double) : double := foldl dadd d_zero l.

(** The fraction of the vectors an index counts. *)
Definition fraction (ix : AttrIndex) (count : option Z) : option double :=
  c ← count; Some (ddiv (d_of_Z c) (d_of_Z (n_vectors ix))).

Definition records_selectivity (ix : StringOps) (count : Attribute → option Z) (q : Attribute) : option double :=
  l ← map_opt (λ rec, fraction (str_base ix) (count rec)) (for_each_record q);
  Some (dmin (dsum l) d_one).

Definition by_selectivity (a b : Selector * double) : Prop := dlt b.2 a.2 = false.
#[global] Instance by_selectivity_dec a b : Decision (by_selectivity a b) :=
  bool_eq_dec (dlt b.2 a.2) false.

Definition LabelOr_estimate_selectivity (key p : Z) (query_attrs : Attributes) : option double :=
  ix ← attr_index p; q ← Attributes.get query_attrs key; fraction ix (estimate_count ix q).
Definition LabelAnd_estimate_selectivity (key p : Z) (query_attrs : Attributes) : option double :=
  ix ← inv_store p; q ← Attributes.get query_attrs key; fraction (inv_base ix) (estimate_count_and ix q).
Definition Range_estimate_selectivity (key p : Z) (query_attrs : Attributes) : option double :=
  ix ← attr_index p; q ← Attributes.get query_attrs key; fraction ix (estimate_count ix q).
Definition StringEq_estimate_selectivity (key p : Z) (query_attrs : Attributes) : option double :=
  ix ← string_index p; q ← Attributes.get query_attrs key; records_selectivity ix (estimate_count (str_base ix)) q.
Definition StringPrefix_estimate_selectivity (key p : Z) (query_attrs : Attributes) : option double :=
  ix ← string_index p; q ← Attributes.get query_attrs key; records_selectivity ix (estimate_count_dir ix PREFIX) q.
Definition StringSuffix_estimate_selectivity (key p : Z) (query_attrs : Attributes) : option double :=
  ix ← string_index p; q ← Attributes.get query_attrs key; records_selectivity ix (estimate_count_dir ix SUFFIX) q.
Definition StringLike_estimate_selectivity (key p : Z) (query_attrs : Attributes) : option double :=
  ix ← string_index p; q ← Attributes.get query_attrs key; records_selectivity ix (estimate_count_like ix) q.

(** An AND node stores its children's selectivities and sorts by them. *)
Definition And_estimate_selectivity (child : Selector → option (double * Selector)) (ps : list Z)
    (sels : list (Selector * double)) : option (double * Selector) :=
  rs ← map_opt (λ ss, child ss.1) sels;
  Some (foldl dmul d_one (map fst rs),
        AndSelector ps (merge_sort by_selectivity (map (λ r, (r.2, r.1)) rs))).
Definition Or_estimate_selectivity (child : Selector → option (double * Selector)) (ps : list Z)
    (sels : list Selector) : option (double * Selector) :=
  rs ← map_opt child sels; Some (dsum (map fst rs), OrSelector ps (map snd rs)).
Definition Not_estimate_selectivity (child : Selector → option (double * Selector)) (s : Selector) (n : Z) (l : list Z)
    : option (double * Selector) :=
  r ← child s; Some (dsub d_one r.1, NotSelector r.2 n l).

Definition with_self (s : Selector) (r : option double) : option (double * Selector) := d ← r; Some (d, s).

Fixpoint estimate_selectivity (s : Selector) (query_attrs : Attributes) : option (double * Selector) :=
  match s with
  | LabelOrSelector key _ p _ => with_self s (LabelOr_estimate_selectivity key p query_attrs)
  | LabelAndSelector key _ p _ => with_self s (LabelAnd_estimate_selectivity key p query_attrs)
  | RangeSelector key _ p _ => with_self s (Range_estimate_selectivity key p query_attrs)
  | AndSelector ps sels => And_estimate_selectivity (λ s, estimate_selectivity s query_attrs) ps sels
  | OrSelector ps sels => Or_estimate_selectivity (λ s, estimate_selectivity s query_attrs) ps sels
  | NotSelector s n l => Not_estimate_selectivity (λ s, estimate_selectivity s query_attrs) s n l
  | StringEqSelector key _ p _ => with_self s (StringEq_estimate_selectivity key p query_attrs)
  | StringPrefixSelector key _ p _ => with_self s (StringPrefix_estimate_selectivity key p query_attrs)
  | StringSuffixSelector key _ p _ => with_self s (StringSuffix_estimate_selectivity key p query_attrs)
  | StringLikeSelector key _ p _ => with_self s (StringLike_estimate_selectivity key p query_attrs)
  end.

Definition sum_u32 (l : list Z) : Z := u32 (foldl (λ a x, u64 (a + x)) 0 l).

(** The string selectors add up at 32 bits. *)
Definition records_reads (f : Attribute → option Z) (q : Attribute) : option Z :=
  l ← map_opt f (for_each_record q); Some (foldl (λ a x, u32 (a + x)) 0 l).

Definition LabelOr_estimate_prefilter_reads (key p : Z) (query_attrs : Attributes) : option Z :=
  ix ← attr_index p; q ← Attributes.get query_attrs key; estimate_prefilter_reads ix q.
Definition LabelAnd_estimate_prefilter_reads (key p : Z) (query_attrs : Attributes) : option Z :=
  ix ← inv_store p; q ← Attributes.get query_attrs key; estimate_prefilter_reads_and ix q.
Definition Range_estimate_prefilter_reads (key p : Z) (query_attrs : Attributes) : option Z :=
  ix ← attr_index p; q ← Attributes.get query_attrs key; estimate_prefilter_reads ix q.
Definition StringEq_estimate_prefilter_reads (key p : Z) (query_attrs : Attributes) : option Z :=
  ix ← string_index p; q ← Attributes.get query_attrs key;
  records_reads (estimate_prefilter_reads (str_base ix)) q.
Definition StringPrefix_estimate_prefilter_reads (key p : Z) (query_attrs : Attributes) : option Z :=
  ix ← string_index p; q ← Attributes.get query_attrs key;
  records_reads (estimate_prefilter_reads_dir ix PREFIX) q.
Definition StringSuffix_estimate_prefilter_reads (key p : Z) (query_attrs : Attributes) : option Z :=
  ix ← string_index p; q ← Attributes.get query_attrs key;
  records_reads (estimate_prefilter_reads_dir ix SUFFIX) q.
(** This one adds up at 64 bits and saturates. *)
Definition StringLike_estimate_prefilter_reads (key p : Z) (query_attrs : Attributes) : option Z :=
  ix ← string_index p; q ← Attributes.get query_attrs key;
  l ← map_opt (estimate_prefilter_reads_like ix) (for_each_record q);
  Some (Z.min (foldl (λ a x, u64 (a + x)) 0 l) (UINT32_MAX / 2)).

(** The children in order, up to the first above the threshold. *)
Definition And_estimate_prefilter_reads (child : Selector → option Z) : list (Selector * double) → option Z :=
  λ sels, l ← (fix go (l : list (Selector * double)) : option (list Z) :=
                 match l with
                 | ss :: l =>
                     if dle ss.2 kHighSelectivityThreshold
                     then x ← child ss.1; xs ← go l; Some (x :: xs)
                     else Some []
                 | [] => Some []
                 end) sels;
          Some (sum_u32 l).
Definition Or_estimate_prefilter_reads (child : Selector → option Z) (sels : list Selector) : option Z :=
  l ← map_opt child sels; Some (sum_u32 l).

Fixpoint sel_estimate_prefilter_reads (s : Selector) (query_attrs : Attributes) : option Z :=
  match s with
  | LabelOrSelector key _ p _ => LabelOr_estimate_prefilter_reads key p query_attrs
  | LabelAndSelector key _ p _ => LabelAnd_estimate_prefilter_reads key p query_attrs
  | RangeSelector key _ p _ => Range_estimate_prefilter_reads key p query_attrs
  | AndSelector _ sels => And_estimate_prefilter_reads (λ s, sel_estimate_prefilter_reads s query_attrs) sels
  | OrSelector _ sels => Or_estimate_prefilter_reads (λ s, sel_estimate_prefilter_reads s query_attrs) sels
  | NotSelector s _ _ => sel_estimate_prefilter_reads s query_attrs
  | StringEqSelector key _ p _ => StringEq_estimate_prefilter_reads key p query_attrs
  | StringPrefixSelector key _ p _ => StringPrefix_estimate_prefilter_reads key p query_attrs
  | StringSuffixSelector key _ p _ => StringSuffix_estimate_prefilter_reads key p query_attrs
  | StringLikeSelector key _ p _ => StringLike_estimate_prefilter_reads key p query_attrs
  end.

Definition LabelOr_estimate_infilter_reads (key p : Z) (query_attrs : Attributes) : option Z :=
  ix ← attr_index p; q ← Attributes.get query_attrs key; estimate_infilter_reads ix q.
Definition LabelAnd_estimate_infilter_reads (key p : Z) (query_attrs : Attributes) : option Z :=
  ix ← inv_store p; q ← Attributes.get query_attrs key; estimate_infilter_reads_and ix q.
Definition Range_estimate_infilter_reads (key p : Z) (query_attrs : Attributes) : option Z :=
  ix ← attr_index p; q ← Attributes.get query_attrs key; estimate_infilter_reads ix q.
Definition StringEq_estimate_infilter_reads (key p : Z) (query_attrs : Attributes) : option Z :=
  ix ← string_index p; q ← Attributes.get query_attrs key;
  records_reads (estimate_infilter_reads (str_base ix)) q.
Definition StringSuffix_estimate_infilter_reads : option Z := Some 0.
Definition StringLike_estimate_infilter_reads : option Z := Some (UINT32_MAX / 2).
Definition And_estimate_infilter_reads (child : Selector → option Z) (sels : list (Selector * double)) : option Z :=
  l ← map_opt (λ ss, child ss.1) sels; Some (sum_u32 l).
Definition Or_estimate_infilter_reads (child : Selector → option Z) (sels : list Selector) : option Z :=
  l ← map_opt child sels; Some (sum_u32 l).

Fixpoint sel_estimate_infilter_reads (s : Selector) (query_attrs : Attributes) : option Z :=
  match s with
  | LabelOrSelector key _ p _ => LabelOr_estimate_infilter_reads key p query_attrs
  | LabelAndSelector key _ p _ => LabelAnd_estimate_infilter_reads key p query_attrs
  | RangeSelector key _ p _ => Range_estimate_infilter_reads key p query_attrs
  | AndSelector _ sels => And_estimate_infilter_reads (λ s, sel_estimate_infilter_reads s query_attrs) sels
  | OrSelector _ sels => Or_estimate_infilter_reads (λ s, sel_estimate_infilter_reads s query_attrs) sels
  | NotSelector _ _ _ => sel_estimate_prefilter_reads s query_attrs
  | StringEqSelector key _ p _ | StringPrefixSelector key _ p _ =>
      StringEq_estimate_infilter_reads key p query_attrs
  | StringSuffixSelector _ _ _ _ => StringSuffix_estimate_infilter_reads
  | StringLikeSelector _ _ _ _ => StringLike_estimate_infilter_reads
  end.

(** The precision of a string selector from the counts and precisions of its
    records: TP over TP + FP. *)
Definition records_precision_eq (ix : StringOps) (q : Attribute) : option double :=
  l ← map_opt (λ rec, c ← estimate_count (str_base ix) rec; p ← estimate_precision (str_base ix) rec;
                      Some (d_of_Z c, p)) (for_each_record q);
  Some (ddiv (dsum (map (λ cp, dmul cp.2 cp.1) l)) (dsum (map fst l))).

Definition records_precision_dir (ix : StringOps) (dir : Direction) (q : Attribute) : option double :=
  l ← map_opt (λ rec, c ← estimate_count_dir ix dir rec; p ← estimate_precision_dir ix dir rec;
                      Some (d_of_Z c, p)) (for_each_record q);
  Some (dmin (ddiv (dsum (map fst l))
                   (dsum (map (λ cp, if dlt d_zero cp.2 then ddiv cp.1 cp.2 else cp.1) l))) d_one).

Definition LabelOr_estimate_precision (key p : Z) (query_attrs : Attributes) : option double :=
  ix ← attr_index p; q ← Attributes.get query_attrs key; estimate_precision ix q.
Definition LabelAnd_estimate_precision (key p : Z) (query_attrs : Attributes) : option double :=
  ix ← inv_store p; q ← Attributes.get query_attrs key; estimate_precision_and ix q.
Definition Range_estimate_precision (key p : Z) (query_attrs : Attributes) : option double :=
  ix ← attr_index p; q ← Attributes.get query_attrs key; estimate_precision ix q.
Definition StringEq_estimate_precision (key p : Z) (query_attrs : Attributes) : option double :=
  ix ← string_index p; q ← Attributes.get query_attrs key; records_precision_eq ix q.
Definition StringPrefix_estimate_precision (key p : Z) (query_attrs : Attributes) : option double :=
  ix ← string_index p; q ← Attributes.get query_attrs key; records_precision_dir ix PREFIX q.
Definition StringSuffix_estimate_precision (key p : Z) (query_attrs : Attributes) : option double :=
  ix ← string_index p; q ← Attributes.get query_attrs key; records_precision_dir ix SUFFIX q.
Definition And_estimate_precision (child : Selector → option (double * Selector)) (ps : list Z)
    (sels : list (Selector * double)) : option (double * Selector) :=
  rs ← map_opt (λ ss, r ← child ss.1; Some (r.1, (r.2, ss.2))) sels;
  Some (foldl dmul d_one (map fst rs), AndSelector ps (map snd rs)).
(** An OR node re-estimates a child's selectivity, which sorts the AND nodes
    below, before it asks for its precision. *)
Definition Or_estimate_precision (child : Selector → option (double * Selector)) (ps : list Z)
    (sels : list Selector) (query_attrs : Attributes) : option (double * Selector) :=
  rs ← map_opt (λ s,
         '(sel, s) ← estimate_selectivity s query_attrs;
         '(p, s) ← child s;
         Some (sel, p, s)) sels;
  Some (dmin (ddiv (dsum (map (λ r, r.1.1) rs)) (dsum (map (λ r, ddiv r.1.1 r.1.2) rs))) d_one,
        OrSelector ps (map snd rs)).

(** The recursion of the precision estimate is on the depth of the tree, which the
    sorting keeps. *)
Fixpoint depth (s : Selector) : nat :=
  match s with
  | AndSelector _ sels => S (list_max (map (λ ss, depth ss.1) sels))
  | OrSelector _ sels => S (list_max (map depth sels))
  | NotSelector s _ _ => S (depth s)
  | _ => 1%nat
  end.

Fixpoint precision_loop (fuel : nat) (s : Selector) (query_attrs : Attributes) : option (double * Selector) :=
  match fuel with
  | O => None
  | S fuel =>
      match s with
      | LabelOrSelector key _ p _ => with_self s (LabelOr_estimate_precision key p query_attrs)
      | LabelAndSelector key _ p _ => with_self s (LabelAnd_estimate_precision key p query_attrs)
      | RangeSelector key _ p _ => with_self s (Range_estimate_precision key p query_attrs)
      | AndSelector ps sels => And_estimate_precision (λ s, precision_loop fuel s query_attrs) ps sels
      | OrSelector ps sels => Or_estimate_precision (λ s, precision_loop fuel s query_attrs) ps sels query_attrs
      | NotSelector _ _ _ => Some (d_one, s)
      | StringEqSelector key _ p _ => with_self s (StringEq_estimate_precision key p query_attrs)
      | StringPrefixSelector key _ p _ => with_self s (StringPrefix_estimate_precision key p query_attrs)
      | StringSuffixSelector key _ p _ => with_self s (StringSuffix_estimate_precision key p query_attrs)
      | StringLikeSelector _ _ _ _ => Some (d_one, s)
      end
  end.

Definition sel_estimate_precision (s : Selector) (query_attrs : Attributes) : option (double * Selector) :=
  precision_loop (depth s) s query_attrs.

End heap.

(** * What the indexes promise *)

(** [r] is the increasing list of the vectors below [n] that satisfy [f]. *)
Definition answers (n : Z) (r : option (list Z)) (f : Z → bool) : Prop :=
  ∃ l, r = Some l ∧ id_list l ∧ ∀ v, v ∈ l ↔ 0 <= v < n ∧ f v = true.

(** [r] is an increasing list of vectors below [n] with those that satisfy [f]. *)
Definition covers (n : Z) (r : option (list Z)) (f : Z → bool) : Prop :=
  ∃ l, r = Some l ∧ id_list l ∧ (∀ v, v ∈ l → 0 <= v < n) ∧ ∀ v, 0 <= v < n → f v = true → v ∈ l.

(** [r] is an answer that is [true] where [f] is. *)
Definition no_miss (r : option bool) (f : bool) : Prop := ∃ b, r = Some b ∧ (f = true → b = true).

Class LabelIndexSpec (ix : InvertedOps) (n : Z) (row : Z → Attribute) : Prop := {
  lis_pre_filter q : Forall is_u32 q →
    answers n (pre_filter (inv_base ix) q) (λ v, existsb (has (row v)) q);
  lis_pre_filter_and q : Forall is_u32 q → q ≠ [] →
    answers n (pre_filter_and ix q) (λ v, forallb (has (row v)) q);
  lis_approx q : Forall is_u32 q → ∃ l, prepare_in_filter (inv_base ix) q = Some l ∧
    ∀ v, 0 <= v < n → no_miss (is_member_approx (inv_base ix) v q l) (existsb (has (row v)) q);
  lis_approx_and q : Forall is_u32 q → ∃ l, prepare_in_filter_and ix q = Some l ∧
    ∀ v, 0 <= v < n → no_miss (is_member_approx_and ix v q l) (forallb (has (row v)) q)
}.

(** A range query: one value, or the ends of an interval. *)
Definition range_query (q : Attribute) : Prop := ∃ l r, q = [l; r] ∧ is_u32 l ∧ is_u32 r ∧ l <= r.

Class RangeIndexSpec (ix : AttrIndex) (n : Z) (value : Z → Z) : Prop := {
  ris_pre_filter q : range_query q →
    answers n (pre_filter ix q) (λ v, default false (in_range q [value v]))
}.

Class RangeApproxSpec (ix : AttrIndex) (n : Z) (value : Z → Z) : Prop := {
  ras_approx q : range_query q → ∃ l, prepare_in_filter ix q = Some l ∧
    ∀ v, 0 <= v < n → no_miss (is_member_approx ix v q l) (default false (in_range q [value v]))
}.

Definition matches_dir (dir : Direction) (row rec : Attribute) : bool :=
  match dir with
  | PREFIX => string_attr_starts_with row rec
  | SUFFIX => string_attr_ends_with row rec
  end.

Definition matches_like (row pattern : Attribute) : bool :=
  default false (like_match (string_attr_view row) (string_attr_view pattern)).

(** [ok] are the strings and [like_ok] the patterns the index can be asked for: a
    pre-filter without a direction answers with the strings that start with the query. *)
Class StringIndexSpec (ix : StringOps) (n : Z) (row : Z → Attribute) (ok like_ok : Attribute → Prop) : Prop := {
  sis_pre_filter rec : ok rec → answers n (pre_filter (str_base ix) rec) (λ v, matches_dir PREFIX (row v) rec);
  sis_pre_filter_dir dir rec : ok rec → answers n (pre_filter_dir ix dir rec) (λ v, matches_dir dir (row v) rec);
  sis_pre_filter_like rec : like_ok rec → answers n (pre_filter_like ix rec) (λ v, matches_like (row v) rec);
  sis_approx rec : ∃ l, prepare_in_filter (str_base ix) rec = Some l ∧ id_list l ∧
    ∀ v, 0 <= v < n → v ∉ l → no_miss (is_member_approx (str_base ix) v rec []) (bool_decide (rec = row v));
  sis_approx_dir dir rec v : ok rec → 0 <= v < n →
    no_miss (is_member_approx_dir ix dir v rec []) (matches_dir dir (row v) rec)
}.

(** ** Loops *)

Lemma all_opt_total {A} (f : A → option bool) g l :
  (∀ x, x ∈ l → f x = Some (g x)) → all_opt f l = Some (forallb g l).
Proof.
  induction l as [|x l IH]; intros H; simpl; [done|].
  rewrite H by (by left). simpl. destruct (g x); [|done]. apply IH. set_solver.
Qed.

Lemma any_opt_total {A} (f : A → option bool) g l :
  (∀ x, x ∈ l → f x = Some (g x)) → any_opt f l = Some (existsb g l).
Proof.
  induction l as [|x l IH]; intros H; simpl; [done|].
  rewrite H by (by left). simpl. destruct (g x); [done|]. apply IH. set_solver.
Qed.

Lemma existsb_elem_ext {A} (f g : A → bool) l : (∀ x, x ∈ l → f x = g x) → existsb f l = existsb g l.
Proof. induction l as [|x l IH]; intros H; simpl; [done|]. rewrite H by (by left). f_equal. apply IH. set_solver. Qed.

Lemma all_opt_no_miss {A} (f : A → option bool) g l :
  (∀ x, x ∈ l → no_miss (f x) (g x)) → no_miss (all_opt f l) (forallb g l).
Proof.
  induction l as [|x l IH]; intros H; simpl; [by exists true|].
  destruct (H x) as (b & -> & Hb); [by left|]. simpl.
  destruct IH as (b' & Hl & Hb'); [set_solver|].
  destruct b; [|exists false; split; [done|]; intros [Hx _]%andb_true_iff; by apply Hb].
  exists b'. split; [done|]. intros [_ Hl']%andb_true_iff. by apply Hb'.
Qed.

Lemma any_opt_no_miss {A} (f : A → option bool) g l :
  (∀ x, x ∈ l → no_miss (f x) (g x)) → no_miss (any_opt f l) (existsb g l).
Proof.
  induction l as [|x l IH]; intros H; simpl; [by exists false|].
  destruct (H x) as (b & -> & Hb); [by left|]. simpl.
  destruct IH as (b' & Hl & Hb'); [set_solver|].
  destruct b; [by exists true|]. exists b'. split; [done|].
  intros [Hx|Hl']%orb_true_iff; [by specialize (Hb Hx)|by apply Hb'].
Qed.

Lemma map_opt_ext {A B} (f g : A → option B) l : (∀ x, x ∈ l → f x = g x) → map_opt f l = map_opt g l.
Proof.
  induction l as [|x l IH]; intros H; simpl; [done|].
  rewrite H by (by left). rewrite IH by set_solver. done.
Qed.

Lemma map_opt_Forall2 {A B} (f : A → option B) l l' :
  map_opt f l = Some l' ↔ Forall2 (λ x y, f x = Some y) l l'.
Proof.
  split.
  - revert l'. induction l as [|x l IH]; intros l' H; simpl in H; [simplify_eq; constructor|].
    destruct (f x) as [y|] eqn:Hx; [|done]. destruct (map_opt f l) as [ys|] eqn:Hl; [|done].
    simplify_eq/=. constructor; auto.
  - induction 1 as [|x y l l' Hx _ IH]; [done|]. simpl. by rewrite Hx, IH.
Qed.

Lemma existsb_elem {A} (f : A → bool) l : existsb f l = true ↔ ∃ x, x ∈ l ∧ f x = true.
Proof. rewrite existsb_exists. by setoid_rewrite list_elem_of_In. Qed.

Lemma forallb_elem {A} (f : A → bool) l : forallb f l = true ↔ ∀ x, x ∈ l → f x = true.
Proof. rewrite forallb_forall. by setoid_rewrite list_elem_of_In. Qed.

Lemma answers_covers n r f : answers n r f → covers n r f.
Proof.
  intros (l & Hr & Hs & Hl). exists l. split_and!; [done|done|naive_solver|].
  intros v Hv Hf. by apply Hl.
Qed.

Lemma answers_ext n r f g : answers n r f → (∀ v, 0 <= v < n → f v = g v) → answers n r g.
Proof.
  intros (l & Hr & Hs & Hl) Hfg. exists l. split_and!; [done|done|]. intros v. rewrite Hl.
  split; intros [Hv Hf]; (split; [done|]); [by rewrite <- Hfg|by rewrite Hfg].
Qed.

Lemma covers_ext n r f g : covers n r f → (∀ v, 0 <= v < n → f v = g v) → covers n r g.
Proof.
  intros (l & Hr & Hs & Hb & Hl) Hfg. exists l. split_and!; [done..|]. intros v Hv Hg.
  apply Hl; [done|]. by rewrite Hfg.
Qed.

(** The union of the answers of many parts. *)
Lemma or_opt_answers {A} n (f : A → option (list Z)) g l :
  (∀ x, x ∈ l → answers n (f x) (g x)) → answers n (or_opt f l) (λ v, existsb (λ x, g x v) l).
Proof.
  intros H. assert (∃ ls, map_opt f l = Some ls ∧ Forall id_list ls ∧
      ∀ v, (∃ r, r ∈ ls ∧ v ∈ r) ↔ 0 <= v < n ∧ existsb (λ x, g x v) l = true) as (ls & Hls & Hs & He).
  { induction l as [|x l IH]; [exists []; split_and!; [done|constructor|]; intros v; simpl; set_solver|].
    destruct (H x) as (r & Hr & Hrs & Hre); [by left|].
    destruct IH as (ls & Hls & Hs & He); [set_solver|]. exists (r :: ls). simpl. rewrite Hr, Hls.
    split_and!; [done|by constructor|]. intros v. rewrite orb_true_iff.
    specialize (He v). specialize (Hre v). set_solver. }
  unfold or_opt. rewrite Hls. eexists. split_and!; [done|by apply or_fold_sorted; [constructor|]|].
  intros v. rewrite or_fold_elem. specialize (He v). set_solver.
Qed.

Lemma or_opt_covers {A} n (f : A → option (list Z)) g l :
  (∀ x, x ∈ l → covers n (f x) (g x)) → covers n (or_opt f l) (λ v, existsb (λ x, g x v) l).
Proof.
  intros H. assert (∃ ls, map_opt f l = Some ls ∧ Forall id_list ls ∧ (∀ r v, r ∈ ls → v ∈ r → 0 <= v < n) ∧
      ∀ v, 0 <= v < n → existsb (λ x, g x v) l = true → ∃ r, r ∈ ls ∧ v ∈ r) as (ls & Hls & Hs & Hb & He).
  { induction l as [|x l IH]; [exists []; split_and!; [done|constructor|set_solver|done]|].
    destruct (H x) as (r & Hr & Hrs & Hrb & Hre); [by left|].
    destruct IH as (ls & Hls & Hs & Hb & He); [set_solver|]. exists (r :: ls). simpl. rewrite Hr, Hls.
    split_and!; [done|by constructor|set_solver|]. intros v Hv [Hg|Hg]%orb_true_iff.
    - exists r. split; [by left|]. by apply Hre.
    - destruct (He v Hv Hg) as (r' & ? & ?). exists r'. split; [by right|done]. }
  unfold or_opt. rewrite Hls. eexists. split_and!; [done|by apply or_fold_sorted; [constructor|]| |].
  - intros v. rewrite or_fold_elem. intros [?|(r & ? & ?)]; [set_solver|by eapply Hb].
  - intros v Hv Hg. rewrite or_fold_elem. right. by apply He.
Qed.

(** The intersection of the answers, and of supersets of which some are skipped. *)
Lemma and_loop_answers n f (g : Selector → Z → bool) sels acc g0 :
  answers n acc g0 → (∀ ss, ss ∈ sels → answers n (f ss.1) (g ss.1)) →
  answers n (and_loop true f sels acc) (λ v, g0 v && forallb (λ ss, g ss.1 v) sels).
Proof.
  revert acc g0. induction sels as [|ss sels IH]; intros acc g0 Ha H; simpl.
  { eapply answers_ext; [done|]. intros v _. by rewrite andb_true_r. }
  eapply answers_ext; [apply (IH _ (λ v, g0 v && g ss.1 v))|intros v _; simpl; by rewrite andb_assoc].
  - destruct Ha as (l & -> & Hs & Hl). destruct (H ss) as (r & -> & Hrs & Hr); [by left|].
    eexists. split_and!; [done|by apply and_sorted|]. intros v. rewrite and_elem by done.
    rewrite Hl, Hr, andb_true_iff. naive_solver.
  - set_solver.
Qed.

Lemma and_loop_covers n strict f (g : Selector → Z → bool) sels acc g0 :
  covers n acc g0 → (∀ ss, ss ∈ sels → covers n (f ss.1) (g ss.1)) →
  covers n (and_loop strict f sels acc) (λ v, g0 v && forallb (λ ss, g ss.1 v) sels).
Proof.
  revert acc g0. induction sels as [|ss sels IH]; intros acc g0 Ha H; simpl.
  { eapply covers_ext; [done|]. intros v _. by rewrite andb_true_r. }
  eapply covers_ext; [apply (IH _ (λ v, g0 v && g ss.1 v))|intros v _; simpl; by rewrite andb_assoc].
  - destruct Ha as (l & -> & Hs & Hb & Hl). simpl. case_match.
    + destruct (H ss) as (r & -> & Hrs & Hrb & Hr); [by left|].
      eexists. split_and!; [done|by apply and_sorted|intros v [Hv _]%and_subset; by apply Hb|].
      intros v Hv [? ?]%andb_true_iff. rewrite and_elem by done. auto.
    + exists l. split_and!; [done..|]. intros v Hv [? _]%andb_true_iff. auto.
  - set_solver.
Qed.

(** The complement of an answer is the answer to the negation. *)
Lemma complement_loop_spec start ex n :
  0 <= start <= n → is_u32 n → id_list ex → (∀ e, e ∈ ex → start <= e < n) →
  id_list (complement_loop start ex n) ∧
  ∀ v, v ∈ complement_loop start ex n ↔ start <= v < n ∧ v ∉ ex.
Proof.
  revert start. induction ex as [|e ex IH]; intros start Hst Hn Hs Hb; simpl.
  { split; [apply id_list_seqZ|]. intros v. rewrite elem_of_seqZ. set_solver by lia. }
  apply id_list_cons in Hs as [He Hs]. pose proof (Hb e ltac:(by left)) as Hbe.
  rewrite u32_small by (unfold is_u32 in *; lia).
  destruct (IH (e + 1)) as [IHs IHe]; [lia|done|done| |].
  { intros e' He'. specialize (He e' He'). specialize (Hb e' ltac:(by right)). lia. }
  split.
  - apply id_list_app; [apply id_list_seqZ|done|]. intros x y Hx%elem_of_seqZ Hy%IHe. lia.
  - intros v. rewrite elem_of_app, elem_of_seqZ, IHe, not_elem_of_cons. split.
    + intros [Hv|[Hv Hv']]; (split; [lia|split; [lia|]]); [|done]. intros Hin. specialize (He v Hin). lia.
    + intros [Hv [Hne Hv']]. destruct (Z.lt_ge_cases v e); [left; lia|right; split; [lia|done]].
Qed.

Lemma complement_answers n r f :
  is_u32 n → answers n r f → answers n (ids ← r; complement ids n) (λ v, negb (f v)).
Proof.
  intros Hn (l & -> & Hs & Hl). simpl. unfold complement. pose proof (proj1 Hn) as Hn0.
  assert (∀ e, e ∈ l → 0 <= e < n) as Hb by (intros e He; by apply Hl).
  pose proof (id_list_length l 0 n Hs Hn0 Hb). rewrite (proj2 (Z.ltb_ge _ _)) by lia.
  destruct (complement_loop_spec 0 l n) as [Hcs Hce]; [lia|done|done|done|].
  eexists. split_and!; [done|done|]. intros v. rewrite Hce, Hl, negb_true_iff.
  destruct (f v); naive_solver.
Qed.

Lemma foldr_conj {A} (P : A → Prop) l : foldr (λ x Q, P x ∧ Q) True l ↔ ∀ x, x ∈ l → P x.
Proof. induction l as [|x l IH]; simpl; [set_solver|]. rewrite IH. set_solver. Qed.

Lemma all_opt_map {A B} (h : A → B) f l : all_opt f (map h l) = all_opt (λ x, f (h x)) l.
Proof. induction l as [|x l IH]; simpl; [done|]. by rewrite IH. Qed.

Lemma any_opt_map {A B} (h : A → B) f l : any_opt f (map h l) = any_opt (λ x, f (h x)) l.
Proof. induction l as [|x l IH]; simpl; [done|]. by rewrite IH. Qed.

Lemma all_opt_ext {A} (f g : A → option bool) l : (∀ x, x ∈ l → f x = g x) → all_opt f l = all_opt g l.
Proof.
  induction l as [|x l IH]; intros H; simpl; [done|]. rewrite H by (by left). by rewrite IH by set_solver.
Qed.

Lemma any_opt_ext {A} (f g : A → option bool) l : (∀ x, x ∈ l → f x = g x) → any_opt f l = any_opt g l.
Proof.
  induction l as [|x l IH]; intros H; simpl; [done|]. rewrite H by (by left). by rewrite IH by set_solver.
Qed.

Lemma forallb_perm {A} (f : A → bool) l l' : l ≡ₚ l' → forallb f l = forallb f l'.
Proof.
  induction 1 as [|x l l' _ IH|x y l|l1 l2 l3 _ IH1 _ IH2]; simpl; [done|by rewrite IH| |by rewrite IH1].
  destruct (f x), (f y); done.
Qed.

Lemma map_opt_build {A B} (f : A → option B) (R : A → B → Prop) l :
  (∀ x, x ∈ l → ∃ y, f x = Some y ∧ R x y) → ∃ l', map_opt f l = Some l' ∧ Forall2 R l l'.
Proof.
  induction l as [|x l IH]; intros H; [exists []; by split; [|constructor]|].
  destruct (H x) as (y & Hy & HR); [by left|]. destruct IH as (l' & Hl & HRl); [set_solver|].
  exists (y :: l'). simpl. rewrite Hy, Hl. split; [done|by constructor].
Qed.

(** * Trees *)

Definition is_leaf (s : Selector) : bool :=
  match s with AndSelector _ _ | OrSelector _ _ | NotSelector _ _ _ => false | _ => true end.

Lemma Selector_tree_ind (P : Selector → Prop) :
  (∀ s, is_leaf s = true → P s) →
  (∀ ps sels, (∀ ss, ss ∈ sels → P ss.1) → P (AndSelector ps sels)) →
  (∀ ps sels, (∀ s, s ∈ sels → P s) → P (OrSelector ps sels)) →
  (∀ s n l, P s → P (NotSelector s n l)) →
  ∀ s, P s.
Proof.
  intros Hleaf Hand Hor Hnot. fix IH 1. intros [| | |ps sels|ps sels|s n l| | | |];
    try (by apply Hleaf).
  - apply Hand. induction sels as [|ss sels IHl]; intros ss' Hin; [set_solver|].
    apply elem_of_cons in Hin as [->|Hin]; [apply IH|by apply IHl].
  - apply Hor. induction sels as [|s sels IHl]; intros s' Hin; [set_solver|].
    apply elem_of_cons in Hin as [->|Hin]; [apply IH|by apply IHl].
  - apply Hnot, IH.
Qed.

(** No AND node below skips a branch. *)
Fixpoint no_skip (s : Selector) : bool :=
  match s with
  | AndSelector _ sels =>
      forallb (λ ss, dle ss.2 kHighSelectivityThreshold) (tail sels) && forallb (λ ss, no_skip ss.1) sels
  | OrSelector _ sels => forallb no_skip sels
  | NotSelector s _ _ => no_skip s
  | _ => true
  end.

(** No NOT node has a skipping AND node below it. *)
Fixpoint not_safe (s : Selector) : bool :=
  match s with
  | AndSelector _ sels => forallb (λ ss, not_safe ss.1) sels
  | OrSelector _ sels => forallb not_safe sels
  | NotSelector s _ _ => no_skip s
  | _ => true
  end.

(** Unfolds the methods of the classes. *)
Ltac methods :=
  unfold
    LabelOr_is_member, LabelAnd_is_member, Range_is_member, StringEq_is_member,
    StringPrefix_is_member, StringSuffix_is_member, StringLike_is_member, And_is_member,
    Or_is_member, Not_is_member, And_pre_filter, Or_pre_filter, Not_pre_filter, LabelOr_pre_filter,
    LabelAnd_pre_filter, Range_pre_filter, StringEq_pre_filter, StringPrefix_pre_filter,
    StringSuffix_pre_filter, StringLike_pre_filter, LabelOr_prepare_in_filter,
    LabelAnd_prepare_in_filter, Range_prepare_in_filter, And_prepare_in_filter,
    Or_prepare_in_filter, Not_prepare_in_filter, LabelOr_is_member_approx,
    LabelAnd_is_member_approx, Range_is_member_approx, StringEq_is_member_approx,
    StringPrefix_is_member_approx, StringSuffix_is_member_approx, StringLike_is_member_approx,
    And_is_member_approx, Or_is_member_approx, Not_is_member_approx, LabelOr_estimate_selectivity,
    LabelAnd_estimate_selectivity, Range_estimate_selectivity, StringEq_estimate_selectivity,
    StringPrefix_estimate_selectivity, StringSuffix_estimate_selectivity,
    StringLike_estimate_selectivity, And_estimate_selectivity, Or_estimate_selectivity,
    Not_estimate_selectivity, with_self in *.

Section tree.
Context (heap : gmap Z index) (n : Z) (db : Z → Attributes) (q : Attributes).

(** Every vector carries [row] under [base_key], and the query has [qa] under [key]. *)
Definition stored (base_key : Z) (row : Z → Attribute) : Prop :=
  ∀ v, 0 <= v < n → db v !! base_key = Some (row v).

(** A string index that keeps its promises and can be asked for the given strings and
    patterns. *)
Definition asked (ix : StringOps) (row : Z → Attribute) (strs pats : list Attribute) : Prop :=
  ∃ ok like_ok, StringIndexSpec ix n row ok like_ok ∧ Forall ok strs ∧ Forall like_ok pats.

(** The tree is well formed over the indexes: the index of a leaf keeps its promises
    about the rows of the leaf's attribute, AND nodes have children, NOT nodes the
    number of vectors.  An equality on strings is asked for strings that no row extends. *)
Fixpoint wf (s : Selector) : Prop :=
  match s with
  | LabelOrSelector key base_key p _ =>
      ∃ ix row qa, heap !! p = Some (ILabel ix) ∧ LabelIndexSpec ix n row ∧ stored base_key row ∧
        q !! key = Some qa ∧ Forall is_u32 qa
  | LabelAndSelector key base_key p _ =>
      ∃ ix row qa, heap !! p = Some (ILabel ix) ∧ LabelIndexSpec ix n row ∧ stored base_key row ∧
        q !! key = Some qa ∧ Forall is_u32 qa ∧ qa ≠ []
  | RangeSelector key base_key p _ =>
      ∃ ix value qa, heap !! p = Some (IRange ix) ∧ RangeIndexSpec ix n value ∧
        stored base_key (λ v, [value v]) ∧ q !! key = Some qa ∧ range_query qa
  | AndSelector _ sels => sels ≠ [] ∧ foldr (λ ss P, wf ss.1 ∧ P) True sels
  | OrSelector _ sels => foldr (λ s P, wf s ∧ P) True sels
  | NotSelector s m _ => m = n ∧ wf s
  | StringEqSelector key base_key p _ =>
      ∃ ix row qa, heap !! p = Some (IString ix) ∧ asked ix row (for_each_record qa) [] ∧ stored base_key row ∧
        q !! key = Some qa ∧
        ∀ v rec, 0 <= v < n → rec ∈ for_each_record qa → matches_dir PREFIX (row v) rec = true → rec = row v
  | StringPrefixSelector key base_key p _ | StringSuffixSelector key base_key p _ =>
      ∃ ix row qa, heap !! p = Some (IString ix) ∧ asked ix row (for_each_record qa) [] ∧ stored base_key row ∧
        q !! key = Some qa
  | StringLikeSelector key base_key p _ =>
      ∃ ix row qa, heap !! p = Some (IString ix) ∧ asked ix row [] (for_each_record qa) ∧ stored base_key row ∧
        q !! key = Some qa
  end.

(** The in-filter test of the range leaves has no false negatives either. *)
Fixpoint approx_wf (s : Selector) : Prop :=
  match s with
  | RangeSelector key base_key p _ =>
      ∃ ix value qa, heap !! p = Some (IRange ix) ∧ RangeApproxSpec ix n value ∧
        stored base_key (λ v, [value v]) ∧ q !! key = Some qa ∧ range_query qa
  | AndSelector _ sels => foldr (λ ss P, approx_wf ss.1 ∧ P) True sels
  | OrSelector _ sels => foldr (λ s P, approx_wf s ∧ P) True sels
  | _ => True
  end.

Definition member (s : Selector) (v : Z) : bool := default false (is_member s q (db v)).

Lemma stored_get base_key row v : stored base_key row → 0 <= v < n →
  ∀ f, with_target (db v) base_key f = f (row v).
Proof. intros Hs Hv f. unfold with_target, Attributes.get. by rewrite (Hs v Hv). Qed.

Lemma like_any_total t recs :
  any_opt (λ rec, like_match (string_attr_view t) (string_attr_view rec)) recs
  = Some (existsb (matches_like t) recs).
Proof.
  apply any_opt_total. intros rec _. unfold matches_like.
  destruct (like_match_total (string_attr_view t) (string_attr_view rec)) as [b ->]. done.
Qed.

Ltac split_query Hq :=
  lazymatch type of Hq with _ ∧ _ => let H := fresh "Hqa" in destruct Hq as [Hq H] | _ => idtac end.

(** What a leaf decides about a vector. *)
Lemma leaf_member s v : is_leaf s = true → wf s → 0 <= v < n → is_member s q (db v) = Some (member s v).
Proof.
  intros Hl Hwf Hv. enough (∃ b, is_member s q (db v) = Some b) as [b Hb] by (unfold member; by rewrite Hb).
  destruct s; simpl in *; try done; methods;
    destruct Hwf as (ix & row & qa & _ & _ & Hst & Hq); split_query Hq;
    rewrite (stored_get _ _ _ Hst Hv);
    unfold Attributes.get; rewrite Hq; simpl; eauto.
  - destruct Hqa as (l & r & -> & _). simpl. eauto.
  - rewrite like_any_total. eauto.
Qed.

Ltac leaf_eval Hst Hq :=
  intros; unfold member; cbn [is_member]; methods; rewrite (stored_get _ _ _ Hst) by done;
  unfold Attributes.get; rewrite Hq; cbn [mbind option_bind default from_option id].

Lemma leaf_answers s strict :
  is_leaf s = true → wf s → answers n (sel_pre_filter heap s q strict) (member s).
Proof.
  intros Hl Hwf.
  destruct s as [key bk p cl|key bk p cl|key bk p cl| | | |key bk p cl|key bk p cl|key bk p cl|key bk p cl];
    try done; destruct Hwf as (ix & row & qa & Hp & Hix & Hst & Hq); split_query Hq;
    cbn [sel_pre_filter]; methods; unfold attr_index, inv_store, string_index, Attributes.get; rewrite Hp, Hq; simpl.
  - eapply answers_ext; [by apply Hix|]. leaf_eval Hst Hq. done.
  - destruct Hqa as [Hqa Hne]. eapply answers_ext; [by apply Hix|]. leaf_eval Hst Hq. done.
  - eapply answers_ext; [by apply Hix|]. leaf_eval Hst Hq. done.
  - destruct Hix as (ok & lok & Hix & Hok & _). rewrite Forall_forall in Hok.
    eapply answers_ext; [apply or_opt_answers; intros rec Hr; by apply Hix, Hok|]. intros v Hv. leaf_eval Hst Hq.
    apply existsb_elem_ext. intros rec Hr. apply eq_true_iff_eq. rewrite bool_decide_eq_true. split; [by apply Hqa|].
    intros ->. by apply starts_with_prefix.
  - destruct Hix as (ok & lok & Hix & Hok & _). rewrite Forall_forall in Hok.
    eapply answers_ext; [apply or_opt_answers; intros rec Hr; by apply Hix, Hok|]. leaf_eval Hst Hq. done.
  - destruct Hix as (ok & lok & Hix & Hok & _). rewrite Forall_forall in Hok.
    eapply answers_ext; [apply or_opt_answers; intros rec Hr; by apply Hix, Hok|]. leaf_eval Hst Hq. done.
  - destruct Hix as (ok & lok & Hix & _ & Hok). rewrite Forall_forall in Hok.
    eapply answers_ext; [apply or_opt_answers; intros rec Hr; by apply Hix, Hok|]. leaf_eval Hst Hq. by rewrite like_any_total.
Qed.

Lemma prepare_eq_spec ix row p key qa strs pats :
  string_index heap p = Some ix → asked ix row strs pats → q !! key = Some qa →
  ∃ l, StringEq_prepare_in_filter heap p key q = Some l ∧
    ∀ v, 0 <= v < n → v ∉ l → ∀ rec, rec ∈ for_each_record qa →
      no_miss (is_member_approx (str_base ix) v rec []) (bool_decide (rec = row v)).
Proof.
  intros Hp (ok & lok & Hix & _) Hq. unfold StringEq_prepare_in_filter, or_opt, Attributes.get. rewrite Hp, Hq. simpl.
  induction (for_each_record qa) as [|rec recs IH] using rev_ind; [exists []; set_solver|].
  destruct IH as (l & Hl & IH). destruct (map_opt _ recs) as [ls|] eqn:Hm; [|done]. simplify_eq/=.
  destruct (sis_approx rec) as (lr & Hlr & _ & Ha).
  exists (foldl or_sorted_unique [] (ls ++ [lr])). split.
  { assert (map_opt (prepare_in_filter (str_base ix)) (recs ++ [rec]) = Some (ls ++ [lr])) as ->; [|done].
    apply map_opt_Forall2. apply map_opt_Forall2 in Hm. apply Forall2_app; [done|]. by repeat constructor. }
  intros v Hv. rewrite foldl_app. simpl. rewrite or_elem. intros Hni rec' Hr.
  apply elem_of_app in Hr as [Hr|Hr%list_elem_of_singleton]; [apply IH; [done|tauto|done]|].
  subst rec'. apply Ha; tauto.
Qed.

Lemma leaf_approx s :
  is_leaf s = true → wf s → approx_wf s →
  ∃ s', sel_prepare_in_filter heap s q = Some s' ∧
    ∀ v, 0 <= v < n → no_miss (sel_is_member_approx heap s' v q) (member s v).
Proof.
  intros Hl Hwf Hap.
  destruct s as [key bk p cl|key bk p cl|key bk p cl| | | |key bk p cl|key bk p cl|key bk p cl|key bk p cl];
    try done; [| |clear Hwf; rename Hap into Hwf|..];
    destruct Hwf as (ix & row & qa & Hp & Hix & Hst & Hq); split_query Hq;
    try edestruct (prepare_eq_spec ix row p key qa) as (l & Hpl & Ha);
    try (unfold string_index; by rewrite Hp); try done;
    cbn [sel_prepare_in_filter]; methods; unfold attr_index, inv_store; rewrite ?Hp, ?Hpl; simpl;
    unfold Attributes.get; rewrite ?Hq; simpl.
  - destruct (lis_approx qa Hqa) as (l & -> & Ha). eexists. split; [done|]. intros v Hv. simpl. methods.
    unfold attr_index, Attributes.get. rewrite Hp, Hq. simpl. leaf_eval Hst Hq. by apply Ha.
  - destruct Hqa as [Hqa _]. destruct (lis_approx_and qa Hqa) as (l & -> & Ha). eexists. split; [done|].
    intros v Hv. simpl. methods. unfold inv_store, Attributes.get. rewrite Hp, Hq. simpl. leaf_eval Hst Hq. by apply Ha.
  - destruct (ras_approx qa Hqa) as (l & -> & Ha). eexists. split; [done|]. intros v Hv. simpl. methods.
    unfold attr_index, Attributes.get. rewrite Hp, Hq. simpl. leaf_eval Hst Hq. by apply Ha.
  - eexists. split; [done|]. intros v Hv. simpl. methods. unfold string_index, Attributes.get. rewrite Hp, Hq. simpl.
    destruct (binary_search l v) eqn:Hb; [by exists true|]. leaf_eval Hst Hq. apply any_opt_no_miss.
    intros rec Hr. apply Ha; [done| |done]. rewrite <- binary_search_elem. by rewrite Hb.
  - eexists. split; [done|]. intros v Hv. simpl. methods. unfold string_index, Attributes.get. rewrite Hp, Hq. simpl.
    destruct Hix as (ok & lok & Hix & Hok & _). rewrite Forall_forall in Hok.
    leaf_eval Hst Hq. apply any_opt_no_miss. intros rec Hr. by apply (sis_approx_dir PREFIX), Hv; apply Hok.
  - eexists. split; [done|]. intros v Hv. simpl. methods. unfold string_index, Attributes.get. rewrite Hp, Hq. simpl.
    destruct Hix as (ok & lok & Hix & Hok & _). rewrite Forall_forall in Hok.
    leaf_eval Hst Hq. apply any_opt_no_miss. intros rec Hr. by apply (sis_approx_dir SUFFIX), Hv; apply Hok.
  - eexists. split; [done|]. intros v Hv. by exists true.
Qed.

(** ** Whole trees *)

Lemma wf_children_and ps sels : wf (AndSelector ps sels) → sels ≠ [] ∧ ∀ ss, ss ∈ sels → wf ss.1.
Proof. simpl. by rewrite (foldr_conj (λ ss, wf ss.1)). Qed.

Lemma wf_children_or ps sels : wf (OrSelector ps sels) → ∀ s, s ∈ sels → wf s.
Proof. simpl. by rewrite (foldr_conj wf). Qed.

Lemma tree_member s v : wf s → 0 <= v < n → is_member s q (db v) = Some (member s v).
Proof.
  intros Hwf Hv. induction s as [s Hl|ps sels IH|ps sels IH|s m l IH] using Selector_tree_ind.
  - by apply leaf_member.
  - apply wf_children_and in Hwf as [_ Hwf]. unfold member. simpl. methods.
    rewrite (all_opt_total _ (λ ss, member ss.1 v)); [done|]. auto.
  - pose proof (wf_children_or _ _ Hwf) as Hwf'. unfold member. simpl. methods.
    rewrite (any_opt_total _ (λ s, member s v)); [done|]. auto.
  - destruct Hwf as [_ Hwf]. unfold member. simpl. methods. by rewrite IH.
Qed.

Lemma member_and ps sels v : wf (AndSelector ps sels) → 0 <= v < n →
  member (AndSelector ps sels) v = forallb (λ ss, member ss.1 v) sels.
Proof.
  intros Hwf Hv. apply wf_children_and in Hwf as [_ Hwf]. unfold member at 1. simpl. methods.
  rewrite (all_opt_total _ (λ ss, member ss.1 v)); [done|]. intros ss Hss. by apply tree_member; [apply Hwf|].
Qed.

Lemma member_or ps sels v : wf (OrSelector ps sels) → 0 <= v < n →
  member (OrSelector ps sels) v = existsb (λ s, member s v) sels.
Proof.
  intros Hwf Hv. pose proof (wf_children_or _ _ Hwf) as Hwf'. unfold member at 1. simpl. methods.
  rewrite (any_opt_total _ (λ s, member s v)); [done|]. intros s Hs. by apply tree_member; [apply Hwf'|].
Qed.

Lemma member_not s m l v : wf (NotSelector s m l) → 0 <= v < n → member (NotSelector s m l) v = negb (member s v).
Proof. intros [_ Hwf] Hv. unfold member at 1. simpl. methods. by rewrite tree_member. Qed.

Lemma strict_answers s : is_u32 n → wf s → answers n (sel_pre_filter heap s q true) (member s).
Proof.
  intros Hn. induction s as [s Hl|ps sels IH|ps sels IH|s m l IH] using Selector_tree_ind; intros Hwf.
  - by apply leaf_answers.
  - apply (answers_ext _ _ (λ v, forallb (λ ss, member ss.1 v) sels)); [|intros v Hv; symmetry; by apply member_and].
    apply wf_children_and in Hwf as [Hne Hwf]. destruct sels as [|ss sels]; [done|]. cbn [sel_pre_filter]. methods.
    apply (and_loop_answers n _ member sels _ (member ss.1)); [apply IH; [by left|apply Hwf; by left]|].
    intros ss' Hin. apply IH; [by right|apply Hwf; by right].
  - apply (answers_ext _ _ (λ v, existsb (λ s, member s v) sels)); [|intros v Hv; symmetry; by apply member_or].
    pose proof (wf_children_or _ _ Hwf). apply or_opt_answers. auto.
  - apply (answers_ext _ _ (λ v, negb (member s v))); [|intros v Hv; symmetry; by apply member_not]. destruct Hwf as [-> Hwf].
    apply complement_answers; [done|auto].
Qed.

(** Where no AND node skips, the lax mode does what the strict one does. *)
Lemma no_skip_strict s : no_skip s = true → sel_pre_filter heap s q false = sel_pre_filter heap s q true.
Proof.
  induction s as [s Hl|ps sels IH|ps sels IH|s m l IH] using Selector_tree_ind; intros Hns.
  - by destruct s.
  - simpl in Hns. apply andb_true_iff in Hns as [Hthr Hns]. rewrite forallb_elem in Hthr, Hns.
    destruct sels as [|ss sels]; [done|]. cbn [sel_pre_filter tail] in *. methods.
    rewrite (IH ss) by (try apply Hns; by left). generalize (sel_pre_filter heap ss.1 q true) as acc.
    assert (∀ ss', ss' ∈ sels → sel_pre_filter heap ss'.1 q false = sel_pre_filter heap ss'.1 q true) as Heq
      by (intros ss' Hin; apply IH; [by right|apply Hns; by right]).
    clear IH Hns. induction sels as [|s' sels IHl]; intros acc; [done|]. simpl.
    rewrite Hthr by (by left). rewrite Heq by (by left). simpl.
    apply IHl; intros s'' Hin; [apply Hthr|apply Heq]; by right.
  - simpl in *. methods. rewrite forallb_elem in Hns. unfold or_opt. erewrite map_opt_ext; [done|].
    intros s Hs. simpl. apply IH; auto.
  - simpl in *. methods. by rewrite IH.
Qed.

Lemma lax_covers s :
  is_u32 n → wf s → not_safe s = true → covers n (sel_pre_filter heap s q false) (member s).
Proof.
  intros Hn. induction s as [s Hl|ps sels IH|ps sels IH|s m l IH] using Selector_tree_ind; intros Hwf Hs.
  - by apply answers_covers, leaf_answers.
  - apply (covers_ext _ _ (λ v, forallb (λ ss, member ss.1 v) sels)); [|intros v Hv; symmetry; by apply member_and]. simpl in Hs. rewrite forallb_elem in Hs.
    apply wf_children_and in Hwf as [Hne Hwf]. destruct sels as [|ss sels]; [done|]. cbn [sel_pre_filter]. methods.
    apply (and_loop_covers n _ _ member sels _ (member ss.1));
      [apply IH; [by left|apply Hwf; by left|apply Hs; by left]|].
    intros ss' Hin. apply IH; [by right|apply Hwf; by right|apply Hs; by right].
  - apply (covers_ext _ _ (λ v, existsb (λ s, member s v) sels)); [|intros v Hv; symmetry; by apply member_or]. simpl in Hs. rewrite forallb_elem in Hs.
    pose proof (wf_children_or _ _ Hwf). apply or_opt_covers. auto.
  - apply answers_covers. rewrite no_skip_strict by done. by apply strict_answers.
Qed.

Lemma tree_approx s :
  is_u32 n → wf s → approx_wf s → not_safe s = true →
  ∃ s', sel_prepare_in_filter heap s q = Some s' ∧
    ∀ v, 0 <= v < n → no_miss (sel_is_member_approx heap s' v q) (member s v).
Proof.
  intros Hn. induction s as [s Hl|ps sels IH|ps sels IH|s m l IH] using Selector_tree_ind; intros Hwf Ha Hs.
  - by apply leaf_approx.
  - pose proof Hwf as Hwf'. apply wf_children_and in Hwf' as [_ Hwf']. simpl in Ha, Hs.
    rewrite (foldr_conj (λ ss, approx_wf ss.1)) in Ha. rewrite forallb_elem in Hs.
    destruct (map_opt_build (λ ss, s ← sel_prepare_in_filter heap ss.1 q; Some (s, ss.2))
      (λ ss ss', ∀ v, 0 <= v < n → no_miss (sel_is_member_approx heap ss'.1 v q) (member ss.1 v)) sels)
      as (sels' & Hm & HF).
    { intros ss Hss. destruct (IH ss Hss) as (s' & -> & H); [by apply Hwf'|by apply Ha|by apply Hs|].
      by exists (s', ss.2). }
    simpl. methods. rewrite Hm. eexists. split; [done|]. intros v Hv. rewrite member_and by done.
    change (no_miss (all_opt (λ ss, sel_is_member_approx heap ss.1 v q) sels')
              (forallb (λ ss, member ss.1 v) sels)).
    clear Hm IH Hwf Ha Hs Hwf'. induction HF as [|ss ss' sels sels' H _ IH]; [by exists true|]. simpl.
    destruct (H v Hv) as (b & -> & Hb). destruct IH as (b' & Hb1 & Hb2). destruct b; simpl.
    + exists b'. split; [done|]. intros [_ ?]%andb_true_iff. auto.
    + exists false. split; [done|]. intros [? _]%andb_true_iff. auto.
  - pose proof (wf_children_or _ _ Hwf) as Hwf'. simpl in Ha, Hs.
    rewrite (foldr_conj approx_wf) in Ha. rewrite forallb_elem in Hs.
    destruct (map_opt_build (λ s, sel_prepare_in_filter heap s q)
      (λ s s', ∀ v, 0 <= v < n → no_miss (sel_is_member_approx heap s' v q) (member s v)) sels)
      as (sels' & Hm & HF); [intros s Hss; by apply IH; auto|].
    simpl. methods. rewrite Hm. eexists. split; [done|]. intros v Hv. rewrite member_or by done.
    change (no_miss (any_opt (λ s, sel_is_member_approx heap s v q) sels')
              (existsb (λ s, member s v) sels)).
    clear Hm IH Hwf Ha Hs Hwf'. induction HF as [|s s' sels sels' H _ IH]; [by exists false|]. simpl.
    destruct (H v Hv) as (b & -> & Hb). destruct IH as (b' & Hb1 & Hb2). destruct b; simpl.
    + by exists true.
    + exists b'. split; [done|]. intros [?|?]%orb_true_iff; [by specialize (Hb H0)|auto].
  - destruct (lax_covers _ Hn Hwf Hs) as (ids & Hi & Hids & _ & Hc).
    cbn [sel_prepare_in_filter]. methods. rewrite Hi. simpl. eexists. split; [done|]. intros v Hv. simpl.
    eexists. split; [done|]. intros Hm. apply binary_search_elem. by apply Hc.
Qed.

(** ** Copies and reordering *)

Lemma copy_is_member s t : is_member (copy s) q t = is_member s q t.
Proof.
  induction s as [s Hl|ps sels IH|ps sels IH|s m l IH] using Selector_tree_ind.
  - by destruct s.
  - simpl. methods. rewrite map_map, all_opt_map. by apply all_opt_ext.
  - simpl. methods. rewrite any_opt_map. by apply any_opt_ext.
  - simpl. methods. by rewrite IH.
Qed.

Lemma copy_wf s : wf s → wf (copy s).
Proof.
  induction s as [s Hl|ps sels IH|ps sels IH|s m l IH] using Selector_tree_ind; intros Hwf.
  - by destruct s.
  - apply wf_children_and in Hwf as [Hne Hwf]. simpl. rewrite map_map.
    split; [by destruct sels|]. rewrite (foldr_conj (λ ss, wf ss.1)). intros ss Hss.
    apply list_elem_of_fmap in Hss as (ss' & -> & Hin). simpl. auto.
  - pose proof (wf_children_or _ _ Hwf) as Hwf'. simpl. rewrite (foldr_conj wf). intros s Hs.
    apply list_elem_of_fmap in Hs as (s' & -> & Hin). auto.
  - destruct Hwf as [-> Hwf]. split; [done|auto].
Qed.

(** The answers determine the list. *)
Lemma answers_unique r r' f : answers n r f → answers n r' f → r = r'.
Proof.
  intros (l & -> & Hs & Hl) (l' & -> & Hs' & Hl'). f_equal.
  apply id_list_unique; [done|done|]. intros v. by rewrite Hl, Hl'.
Qed.

Lemma Forall2_impl_elem {A B} (P Q : A → B → Prop) l k :
  Forall2 P l k → (∀ x y, x ∈ l → P x y → Q x y) → Forall2 Q l k.
Proof.
  induction 1 as [|x y l k H _ IH]; intros HQ; constructor; [apply HQ; [left|done]|].
  apply IH. intros a b Ha. apply HQ. by right.
Qed.

(** [s'] stands for the same set of vectors as [s]. *)
Definition keeps (s s' : Selector) : Prop :=
  wf s → wf s' ∧ ∀ v, 0 <= v < n → member s' v = member s v.

Lemma keeps_refl s : keeps s s.
Proof. by intros H. Qed.

Lemma keeps_trans s1 s2 s3 : keeps s1 s2 → keeps s2 s3 → keeps s1 s3.
Proof.
  intros H1 H2 Hw. destruct (H1 Hw) as [Hw2 Hm2]. destruct (H2 Hw2) as [Hw3 Hm3].
  split; [done|]. intros v Hv. rewrite Hm3, Hm2 by done. done.
Qed.

(** The children of an AND node may be replaced by equivalent ones and
    reordered. *)
Lemma keeps_and ps sels sels' l :
  Forall2 (λ ss ss' : Selector * double, keeps ss.1 ss'.1) sels l → sels' ≡ₚ l →
  keeps (AndSelector ps sels) (AndSelector ps sels').
Proof.
  intros Hk Hp Hwf. apply wf_children_and in Hwf as Hw. destruct Hw as [Hne Hw].
  assert (Hw' : wf (AndSelector ps sels')).
  { simpl. split.
    - intros E. rewrite E in Hp. apply Permutation_nil_l in Hp. subst l. by apply Forall2_nil_inv_r in Hk.
    - rewrite (foldr_conj (λ ss, wf ss.1)). intros ss Hss. rewrite Hp in Hss.
      apply list_elem_of_lookup in Hss as [k Hk']. destruct (Forall2_lookup_r _ _ _ _ _ Hk Hk') as (s0 & Hs0 & H).
      apply H, Hw. by eapply list_elem_of_lookup_2. }
  split; [done|]. intros v Hv. rewrite !member_and by done. rewrite (forallb_perm _ _ _ Hp).
  clear Hp Hw' Hne Hwf. induction Hk as [|ss ss' sels l H _ IH]; [done|]. simpl.
  destruct (H (Hw ss ltac:(by left))) as [_ ->]; [|done]. rewrite IH; [done|]. intros x Hx. apply Hw. by right.
Qed.

Lemma keeps_or ps sels sels' :
  Forall2 keeps sels sels' → keeps (OrSelector ps sels) (OrSelector ps sels').
Proof.
  intros Hk Hwf. pose proof (wf_children_or _ _ Hwf) as Hw.
  assert (Hw' : wf (OrSelector ps sels')).
  { simpl. rewrite (foldr_conj wf). intros s [k Hs]%list_elem_of_lookup.
    destruct (Forall2_lookup_r _ _ _ _ _ Hk Hs) as (s0 & Hs0 & H). apply H, Hw. by eapply list_elem_of_lookup_2. }
  split; [done|]. intros v Hv. rewrite !member_or by done.
  clear Hw' Hwf. induction Hk as [|s s' sels sels' H _ IH]; [done|]. simpl.
  destruct (H (Hw s ltac:(by left))) as [_ ->]; [|done]. rewrite IH; [done|]. intros x Hx. apply Hw. by right.
Qed.

Lemma keeps_not s s' m l l' : keeps s s' → keeps (NotSelector s m l) (NotSelector s' m l').
Proof.
  intros H [-> Hw]. destruct (H Hw) as [Hw' Hm]. split; [done|]. intros v Hv. rewrite !member_not by done.
  f_equal. by apply Hm.
Qed.

(** The estimate of the selectivity reorders children and nothing else. *)
Lemma estimate_keeps s d s' : estimate_selectivity heap s q = Some (d, s') → keeps s s'.
Proof.
  revert d s'. induction s as [s Hl|ps sels IH|ps sels IH|s m l IH] using Selector_tree_ind; intros d s' He.
  - assert (s' = s) as ->; [|apply keeps_refl].
    destruct s; try done; cbn [estimate_selectivity] in He; methods; by simplify_option_eq.
  - cbn [estimate_selectivity] in He. methods.
    destruct (map_opt _ sels) as [rs|] eqn:Hm; simplify_eq/=. apply map_opt_Forall2 in Hm.
    apply (keeps_and _ _ _ (map (λ r : double * Selector, (r.2, r.1)) rs)); [|apply merge_sort_Permutation].
    apply Forall2_fmap_r. eapply Forall2_impl_elem; [exact Hm|].
    intros ss [dr sr] Hss Her. by apply (IH ss Hss dr).
  - cbn [estimate_selectivity] in He. methods.
    destruct (map_opt _ sels) as [rs|] eqn:Hm; simplify_eq/=. apply map_opt_Forall2 in Hm.
    apply keeps_or, Forall2_fmap_r. eapply Forall2_impl_elem; [exact Hm|].
    intros s [dr sr] Hs Her. by apply (IH s Hs dr).
  - simpl in He. methods. destruct (estimate_selectivity heap s q) as [[d1 s1]|] eqn:E; [|done].
    simplify_eq/=. apply keeps_not. by apply (IH d1).
Qed.

(** So does the estimate of the precision. *)
Lemma precision_keeps fuel s d s' : precision_loop heap fuel s q = Some (d, s') → keeps s s'.
Proof.
  revert s d s'. induction fuel as [|fuel IH]; intros s d s' He; [done|]. cbn [precision_loop] in He.
  destruct s as [| | |ps sels|ps sels| | | | |]; unfold with_self in He;
    try (simplify_option_eq; apply keeps_refl).
  - unfold And_estimate_precision in He. destruct (map_opt _ sels) as [rs|] eqn:Hm; simplify_eq/=.
    apply map_opt_Forall2 in Hm. apply (keeps_and _ _ _ (map snd rs)); [|done].
    apply Forall2_fmap_r. eapply Forall2_impl; [exact Hm|]. intros ss r Her.
    apply bind_Some in Her as ([d1 s1] & E & [= <-]). by apply (IH _ d1).
  - unfold Or_estimate_precision in He. destruct (map_opt _ sels) as [rs|] eqn:Hm; simplify_eq/=.
    apply map_opt_Forall2 in Hm. apply keeps_or, Forall2_fmap_r. eapply Forall2_impl; [exact Hm|]. intros s r Her.
    apply bind_Some in Her as ([d1 s1] & E1 & Her). apply bind_Some in Her as ([d2 s2] & E2 & [= <-]).
    eapply keeps_trans; [by eapply estimate_keeps|by apply (IH _ d2)].
Qed.

(** Preparing the in-filter test changes the prepared lists only. *)
Lemma prepare_keeps s s' : sel_prepare_in_filter heap s q = Some s' → keeps s s'.
Proof.
  revert s'. induction s as [s Hl|ps sels IH|ps sels IH|s m l IH] using Selector_tree_ind; intros s' Hp.
  - destruct s; try done; cbn [sel_prepare_in_filter] in Hp; methods; simplify_option_eq; by intros Hw.
  - cbn [sel_prepare_in_filter] in Hp. methods. destruct (map_opt _ sels) as [sels'|] eqn:Hm; simplify_eq/=.
    apply map_opt_Forall2 in Hm. apply (keeps_and _ _ _ sels'); [|done].
    eapply Forall2_impl_elem; [exact Hm|]. intros ss ss' Hss Her.
    apply bind_Some in Her as (s1 & E & [= <-]). by apply (IH ss Hss).
  - cbn [sel_prepare_in_filter] in Hp. methods. destruct (map_opt _ sels) as [sels'|] eqn:Hm; simplify_eq/=.
    apply map_opt_Forall2 in Hm. apply keeps_or. eapply Forall2_impl_elem; [exact Hm|].
    intros s s' Hs Her. by apply (IH s Hs).
  - cbn [sel_prepare_in_filter] in Hp. methods. destruct (sel_pre_filter heap _ _ _); simplify_eq/=.
    apply keeps_not, keeps_refl.
Qed.
End tree.

(** ** Locks *)

(** Every composite holds the pointers of its children's indexes, once each. *)
Fixpoint locks_ok (s : Selector) : Prop :=
  match s with
  | AndSelector ps sels =>
      NoDup ps ∧ (∀ p, p ∈ ps ↔ ∃ ss, ss ∈ sels ∧ p ∈ attr_indexes_ ss.1)
      ∧ foldr (λ ss P, locks_ok ss.1 ∧ P) True sels
  | OrSelector ps sels =>
      NoDup ps ∧ (∀ p, p ∈ ps ↔ ∃ s, s ∈ sels ∧ p ∈ attr_indexes_ s)
      ∧ foldr (λ s P, locks_ok s ∧ P) True sels
  | NotSelector s _ _ => locks_ok s
  | _ => True
  end.

Lemma add_index_spec ps p : NoDup ps → NoDup (add_index ps p) ∧ ∀ x, x ∈ add_index ps p ↔ x ∈ ps ∨ x = p.
Proof.
  intros Hn. unfold add_index. destruct (existsb (Z.eqb p) ps) eqn:E.
  - apply binary_search_elem in E. split; [done|]. set_solver.
  - assert (p ∉ ps) as Hp by (rewrite <- binary_search_elem; unfold binary_search; by rewrite E).
    split; [|set_solver]. apply NoDup_app. split_and!; [done|set_solver|apply NoDup_singleton].
Qed.

Lemma merge_attr_indexes_spec ps s :
  NoDup ps → NoDup (merge_attr_indexes ps s) ∧ ∀ x, x ∈ merge_attr_indexes ps s ↔ x ∈ ps ∨ x ∈ attr_indexes_ s.
Proof.
  unfold merge_attr_indexes. generalize (attr_indexes_ s) as l. intros l. revert ps.
  induction l as [|p l IH]; intros ps Hn; simpl; [set_solver|].
  destruct (add_index_spec ps p Hn) as [Hn' He]. destruct (IH _ Hn') as [Hn'' He']. set_solver.
Qed.

Lemma merge_all_spec sels ps :
  NoDup ps → NoDup (foldl merge_attr_indexes ps sels) ∧
  ∀ x, x ∈ foldl merge_attr_indexes ps sels ↔ x ∈ ps ∨ ∃ s, s ∈ sels ∧ x ∈ attr_indexes_ s.
Proof.
  revert ps. induction sels as [|s sels IH]; intros ps Hn; simpl; [set_solver|].
  destruct (merge_attr_indexes_spec ps s Hn) as [Hn' He]. destruct (IH _ Hn') as [Hn'' He']. set_solver.
Qed.

Lemma new_and_locks sels : (∀ s, s ∈ sels → locks_ok s) → locks_ok (new_AndSelector sels).
Proof.
  intros H. simpl. destruct (merge_all_spec sels [] ltac:(constructor)) as [Hn He].
  rewrite (foldr_conj (λ ss, locks_ok ss.1)). split_and!; [done| |].
  - intros p. rewrite He. setoid_rewrite list_elem_of_fmap. split.
    + intros [?|(s & Hs & Hp)]; [set_solver|]. exists (s, d_one). split; [|done]. by exists s.
    + intros (ss & (s & -> & Hs) & Hp). right. by exists s.
  - intros ss Hss. apply list_elem_of_fmap in Hss as (s & -> & Hs). by apply H.
Qed.

Lemma new_or_locks sels : (∀ s, s ∈ sels → locks_ok s) → locks_ok (new_OrSelector sels).
Proof.
  intros H. simpl. destruct (merge_all_spec sels [] ltac:(constructor)) as [Hn He].
  rewrite (foldr_conj locks_ok). split_and!; [done| |done]. set_solver.
Qed.

Lemma copy_locks s : locks_ok (copy s).
Proof.
  induction s as [s Hl|ps sels IH|ps sels IH|s m l IH] using Selector_tree_ind.
  - by destruct s.
  - apply new_and_locks. intros s Hs. apply list_elem_of_fmap in Hs as (ss & -> & Hss). auto.
  - apply new_or_locks. intros s Hs. apply list_elem_of_fmap in Hs as (s' & -> & Hs). auto.
  - done.
Qed.

(** The in-filter test reads the indexes of [attr_indexes_] and no other. *)
Lemma approx_frame heap heap' s v q :
  locks_ok s → (∀ p, p ∈ attr_indexes_ s → heap !! p = heap' !! p) →
  sel_is_member_approx heap s v q = sel_is_member_approx heap' s v q.
Proof.
  induction s as [s Hl|ps sels IH|ps sels IH|s m l IH] using Selector_tree_ind; intros Hlk Hh.
  - destruct s; try done; simpl in *; methods; unfold attr_index, inv_store, string_index; by rewrite Hh by set_solver.
  - destruct Hlk as (_ & Hps & Hc). rewrite (foldr_conj (λ ss, locks_ok ss.1)) in Hc. simpl in *. methods.
    apply all_opt_ext. intros ss Hss. apply IH; [done|by apply Hc|]. intros p Hp. apply Hh, Hps. by exists ss.
  - destruct Hlk as (_ & Hps & Hc). rewrite (foldr_conj locks_ok) in Hc. simpl in *. methods.
    apply any_opt_ext. intros s Hs. apply IH; [done|by apply Hc|]. intros p Hp. apply Hh, Hps. by exists s.
  - done.
Qed.

Lemma locks_NoDup s : locks_ok s → NoDup (attr_indexes_ s).
Proof. destruct s; simpl; try (intros _; apply NoDup_singleton); [tauto|tauto|constructor]. Qed.

Lemma Forall2_indexes {A B} (f : A → Selector) (g : B → Selector) l l' :
  Forall2 (λ x y, attr_indexes_ (g y) = attr_indexes_ (f x) ∧ locks_ok (g y)) l l' →
  (∀ p, (∃ x, x ∈ l ∧ p ∈ attr_indexes_ (f x)) ↔ ∃ y, y ∈ l' ∧ p ∈ attr_indexes_ (g y))
  ∧ ∀ y, y ∈ l' → locks_ok (g y).
Proof.
  induction 1 as [|x y l l' [He Hk] _ [IH IHk]]; [set_solver|]. split.
  - intros p. split; intros (z & [->|Hz]%elem_of_cons & Hp).
    + exists y. split; [by left|by rewrite He].
    + destruct (proj1 (IH p)) as (z' & ? & ?); [by exists z|]. exists z'. split; [by right|done].
    + exists x. split; [by left|by rewrite <- He].
    + destruct (proj2 (IH p)) as (z' & ? & ?); [by exists z|]. exists z'. split; [by right|done].
  - intros z [->|Hz]%elem_of_cons; auto.
Qed.

Lemma map_opt_R {A B} (f : A → option B) (R : A → B → Prop) l l' :
  map_opt f l = Some l' → (∀ x y, x ∈ l → f x = Some y → R x y) → Forall2 R l l'.
Proof.
  intros Hm%map_opt_Forall2 H. induction Hm as [|x y l l' Hx _ IH]; constructor.
  - apply H; [by left|done].
  - apply IH. intros x' y' Hx'. apply H. by right.
Qed.

Lemma prepare_locks heap q s s' :
  sel_prepare_in_filter heap s q = Some s' → attr_indexes_ s' = attr_indexes_ s ∧ (locks_ok s → locks_ok s').
Proof.
  revert s'. induction s as [s Hl|ps sels IH|ps sels IH|s m l IH] using Selector_tree_ind; intros s' Hp.
  - destruct s; try done; cbn [sel_prepare_in_filter] in Hp; methods; by simplify_option_eq.
  - cbn [sel_prepare_in_filter] in Hp. methods. destruct (map_opt _ sels) as [sels'|] eqn:Hm; simplify_eq/=.
    split; [done|]. intros (Hn & Hps & Hc). split; [done|]. rewrite (foldr_conj (λ ss, locks_ok ss.1)) in Hc |- *.
    destruct (Forall2_indexes (λ ss : Selector * double, ss.1) (λ ss : Selector * double, ss.1) sels sels')
      as [He Hk].
    { eapply map_opt_R; [exact Hm|]. intros ss ss' Hin E. simpl in E.
      destruct (sel_prepare_in_filter heap ss.1 q) as [s1|] eqn:E1; simplify_eq/=.
      destruct (IH ss Hin s1 E1) as [Ha Hb]. split; [done|]. by apply Hb, Hc. }
    split; [|done]. intros p. by rewrite Hps, He.
  - cbn [sel_prepare_in_filter] in Hp. methods. destruct (map_opt _ sels) as [sels'|] eqn:Hm; simplify_eq/=.
    split; [done|]. intros (Hn & Hps & Hc). split; [done|]. rewrite (foldr_conj locks_ok) in Hc |- *.
    destruct (Forall2_indexes id id sels sels') as [He Hk].
    { eapply map_opt_R; [exact Hm|]. intros s s' Hin E. simpl in E.
      destruct (IH s Hin s' E) as [Ha Hb]. split; [done|]. by apply Hb, Hc. }
    split; [|done]. intros p. by rewrite Hps, He.
  - cbn [sel_prepare_in_filter] in Hp. methods. destruct (sel_pre_filter _ _ _ _); by simplify_eq/=.
Qed.

Lemma estimate_locks heap q s d s' :
  estimate_selectivity heap s q = Some (d, s') → attr_indexes_ s' = attr_indexes_ s ∧ (locks_ok s → locks_ok s').
Proof.
  revert d s'. induction s as [s Hl|ps sels IH|ps sels IH|s m l IH] using Selector_tree_ind; intros d s' Hp.
  - destruct s; try done; cbn [estimate_selectivity] in Hp; methods; by simplify_option_eq.
  - cbn [estimate_selectivity] in Hp. methods. destruct (map_opt _ sels) as [rs|] eqn:Hm; simplify_eq/=.
    split; [done|]. intros (Hn & Hps & Hc). split; [done|]. rewrite (foldr_conj (λ ss, locks_ok ss.1)) in Hc |- *.
    destruct (Forall2_indexes (λ ss : Selector * double, ss.1) (λ r : double * Selector, r.2) sels rs)
      as [He Hk].
    { eapply map_opt_R; [exact Hm|]. intros ss [dr sr] Hin E. simpl in E.
      destruct (IH ss Hin dr sr E) as [Ha Hb]. split; [done|]. by apply Hb, Hc. }
    setoid_rewrite (merge_sort_Permutation by_selectivity). setoid_rewrite list_elem_of_fmap. split.
    + intros p. rewrite Hps, He. split.
      * intros (r & Hr & Hp). exists (r.2, r.1). split; [by exists r|done].
      * intros (ss & (r & -> & Hr) & Hp). by exists r.
    + intros ss (r & -> & Hr). by apply Hk.
  - cbn [estimate_selectivity] in Hp. methods. destruct (map_opt _ sels) as [rs|] eqn:Hm; simplify_eq/=.
    split; [done|]. intros (Hn & Hps & Hc). split; [done|]. rewrite (foldr_conj locks_ok) in Hc |- *.
    destruct (Forall2_indexes id (λ r : double * Selector, r.2) sels rs) as [He Hk].
    { eapply map_opt_R; [exact Hm|]. intros s [dr sr] Hin E. simpl in E.
      destruct (IH s Hin dr sr E) as [Ha Hb]. split; [done|]. by apply Hb, Hc. }
    setoid_rewrite list_elem_of_fmap. split.
    + intros p. rewrite Hps, (He p). split.
      * intros (r & Hr & Hp). exists r.2. split; [by exists r|done].
      * intros (s & (r & -> & Hr) & Hp). by exists r.
    + intros s (r & -> & Hr). by apply Hk.
  - simpl in Hp. methods. destruct (estimate_selectivity heap s q) as [[d1 s1]|] eqn:E; [|done]. simplify_eq/=.
    split; [done|]. by destruct (IH d1 s1 eq_refl).
Qed.

(** ** Records and fuel *)

(** The encoding the filter compiler writes. *)
Definition encode_records (recs : list Attribute) : Attribute :=
  flat_map (λ rec, Z.of_nat (length rec) :: rec) recs.

Lemma records_loop_encode fuel recs :
  (length (encode_records recs) <= fuel)%nat → records_loop fuel (encode_records recs) = recs.
Proof.
  revert fuel. induction recs as [|rec recs IH]; intros fuel Hf; [by destruct fuel|].
  destruct fuel as [|fuel]; [simpl in Hf; lia|]. simpl in *. rewrite length_app in *. rewrite Nat2Z.id.
  rewrite (proj2 (Nat.ltb_ge _ _)) by lia. rewrite take_app_length, drop_app_length.
  rewrite IH; [done|]. unfold encode_records in *. lia.
Qed.

Lemma for_each_record_encode recs : for_each_record (encode_records recs) = recs.
Proof. by apply records_loop_encode. Qed.

Lemma list_max_perm l l' : l ≡ₚ l' → list_max l = list_max l'.
Proof. induction 1; simpl; lia. Qed.

Lemma list_max_ge l x : x ∈ l → (x <= list_max l)%nat.
Proof. intros Hx. pose proof (proj1 (list_max_le l (list_max l)) (le_n _)) as H. rewrite Forall_forall in H. auto. Qed.

Lemma estimate_depth heap q s d s' : estimate_selectivity heap s q = Some (d, s') → depth s' = depth s.
Proof.
  revert d s'. induction s as [s Hl|ps sels IH|ps sels IH|s m l IH] using Selector_tree_ind; intros d s' Hp.
  - destruct s; try done; cbn [estimate_selectivity] in Hp; methods; by simplify_option_eq.
  - cbn [estimate_selectivity] in Hp. methods. destruct (map_opt _ sels) as [rs|] eqn:Hm; simplify_eq/=.
    f_equal. rewrite (list_max_perm _ (map (λ ss, depth ss.1) (map (λ r : double * Selector, (r.2, r.1)) rs)))
      by (by rewrite (merge_sort_Permutation by_selectivity)).
    rewrite map_map. simpl. apply map_opt_Forall2 in Hm. f_equal.
    induction Hm as [|ss [dr sr] sels rs E _ IHm]; [done|]. simpl.
    f_equal; [eapply (IH ss); [by left|exact E]|apply IHm; intros x Hx; apply IH; by right].
  - cbn [estimate_selectivity] in Hp. methods. destruct (map_opt _ sels) as [rs|] eqn:Hm; simplify_eq/=.
    do 2 f_equal. rewrite map_map. apply map_opt_Forall2 in Hm.
    induction Hm as [|s [dr sr] sels rs E _ IHm]; [done|]. simpl.
    f_equal; [eapply (IH s); [by left|exact E]|apply IHm; intros x Hx; apply IH; by right].
  - simpl in Hp. methods. destruct (estimate_selectivity heap s q) as [[d1 s1]|] eqn:E; [|done]. simplify_eq/=.
    by rewrite (IH d1 s1).
Qed.

(** The depth of the tree is enough fuel for the precision estimate. *)
Lemma precision_fuel heap q fuel s :
  (depth s <= fuel)%nat → precision_loop heap fuel s q = sel_estimate_precision heap s q.
Proof.
  unfold sel_estimate_precision. enough (∀ f1 f2 s, (depth s <= f1)%nat → (depth s <= f2)%nat →
    precision_loop heap f1 s q = precision_loop heap f2 s q) as H by (intros; by apply H).
  clear. induction f1 as [|f1 IH]; intros f2 s H1 H2; [destruct s; simpl in H1; lia|].
  destruct f2 as [|f2]; [destruct s; simpl in H2; lia|].
  destruct s as [| | |ps sels|ps sels|s m l| | | |]; try done; cbn [depth] in H1, H2; cbn [precision_loop];
    unfold And_estimate_precision, Or_estimate_precision.
  - erewrite map_opt_ext; [done|]. intros ss Hss. simpl.
    assert (depth ss.1 <= list_max (map (λ ss, depth ss.1) sels))%nat
      by (apply list_max_ge, list_elem_of_fmap; by exists ss).
    by rewrite (IH f2) by lia.
  - erewrite map_opt_ext; [done|]. intros s Hs. simpl.
    destruct (estimate_selectivity heap s q) as [[d s']|] eqn:E; [|done]. simpl.
    apply estimate_depth in E.
    assert (depth s <= list_max (map depth sels))%nat by (apply list_max_ge, list_elem_of_fmap; by exists s).
    by rewrite (IH f2) by lia.
Qed.

(** ** The theorems *)

(** C10: strict pre-filtering is exact.  Take fewer than [2^32] vectors and a tree of
    label, range and string constraints under AND, OR and NOT that is well formed
    ([wf]): the index of each leaf keeps its promises about the stored rows of the
    leaf's attribute and accepts the query's strings and patterns; every vector has
    the leaf's attribute and the query its key; a label-AND query names at least one
    label; a range query is [l, r] with [l <= r]; AND nodes have children; NOT nodes
    know the number of vectors; and for a string equality no stored string properly
    extends a queried string (otherwise the pre-filter over-matches, as C39 shows).
    Then [pre_filter] with [strict] returns in increasing order exactly the vectors
    whose stored attributes pass [is_member], whatever order and selectivities an
    earlier estimate left in the AND nodes. *)
Theorem selector_strict_exact heap n db q s :
  is_u32 n → wf heap n db q s →
  ∃ ids, sel_pre_filter heap s q true = Some ids ∧ id_list ids
    ∧ (∀ v, v ∈ ids ↔ 0 <= v < n ∧ is_member s q (db v) = Some true)
    ∧ (∀ v, 0 <= v < n → is_Some (is_member s q (db v)))
    ∧ ∀ d s', estimate_selectivity heap s q = Some (d, s') → sel_pre_filter heap s' q true = Some ids.
Proof.
  intros Hn Hwf. pose proof (strict_answers heap n db q s Hn Hwf) as Ha. pose proof Ha as (ids & He & Hs & Hin).
  exists ids. split_and!; [done|done| | |].
  - intros v. rewrite Hin. split; intros [Hv Hm]; (split; [done|]);
      pose proof (tree_member heap n db q s v Hwf Hv); congruence.
  - intros v Hv. by rewrite (tree_member heap n) by done.
  - intros d s' Hest. destruct (estimate_keeps heap n db q s d s' Hest Hwf) as (Hwf' & Hm). rewrite <- He.
    apply (answers_unique n _ _ (member db q s)); [|done].
    eapply answers_ext; [by apply strict_answers|]. done.
Qed.

(** speculative pre-filtering never loses a match.  On every tree in which no
    NOT node stands above an AND node that skips branches, [pre_filter] without
    [strict] returns an increasing list of existing vectors that contains every
    vector that passes [is_member]. *)
Theorem selector_lax_superset heap n db q s :
  is_u32 n → wf heap n db q s → not_safe s = true →
  ∃ ids, sel_pre_filter heap s q false = Some ids ∧ id_list ids ∧ (∀ v, v ∈ ids → 0 <= v < n)
    ∧ ∀ v, 0 <= v < n → is_member s q (db v) = Some true → v ∈ ids.
Proof.
  intros Hn Hwf Hs. destruct (lax_covers heap n db q s Hn Hwf Hs) as (ids & He & Hi & Hb & Hc).
  exists ids. split_and!; [done..|]. intros v Hv Hm. apply Hc; [done|]. unfold member. by rewrite Hm.
Qed.

(** C38: the in-filter test has no false negatives.  Take a well-formed tree (as for
    strict pre-filtering: indexes that keep their promises, non-empty label-AND
    queries, ranges with [l <= r], no stored string that properly extends a queried
    string of an equality) in which no NOT stands above an AND that may skip a branch
    by its selectivity ([not_safe]; C40 shows that such a tree loses matches), and
    whose range leaves' own in-filter tests have no false negatives ([approx_wf]).
    Then preparing succeeds and the prepared tree accepts every vector that passes
    [is_member]. *)
Theorem selector_infilter_sound heap n db q s :
  is_u32 n → wf heap n db q s → approx_wf heap n db q s → not_safe s = true →
  ∃ s', sel_prepare_in_filter heap s q = Some s'
    ∧ ∀ v, 0 <= v < n → ∃ b, sel_is_member_approx heap s' v q = Some b
        ∧ (is_member s q (db v) = Some true → b = true).
Proof.
  intros Hn Hwf Ha Hs. destruct (tree_approx heap n db q s Hn Hwf Ha Hs) as (s' & Hp & Hm).
  exists s'. split; [done|]. intros v Hv. destruct (Hm v Hv) as (b & Hb & Hi). exists b. split; [done|].
  intros E. apply Hi. unfold member. by rewrite E.
Qed.

(** the locks of an in-filter traversal are right.  A tree as the constructors
    and [copy] make it, and as estimating and preparing leave it, holds each of its
    index pointers once, so that [lock_shared] takes no mutex twice, and the
    traversal's [is_member_approx] depends on no index outside that list. *)
Theorem selector_locks_cover heap heap' q s s1 d s2 v :
  estimate_selectivity heap (copy s) q = Some (d, s1) → sel_prepare_in_filter heap s1 q = Some s2 →
  NoDup (attr_indexes_ s2) ∧ attr_indexes_ s2 = attr_indexes_ (copy s)
  ∧ ((∀ p, p ∈ attr_indexes_ s2 → heap !! p = heap' !! p) →
     sel_is_member_approx heap s2 v q = sel_is_member_approx heap' s2 v q).
Proof.
  intros He Hp. destruct (estimate_locks _ _ _ _ _ He) as [Ha1 Hk1]. destruct (prepare_locks _ _ _ _ Hp) as [Ha2 Hk2].
  assert (locks_ok s2) as Hk by (apply Hk2, Hk1, copy_locks).
  split_and!; [by apply locks_NoDup|congruence|]. intros Hh. by apply approx_frame.
Qed.

(** C40: a NOT above an AND node loses matches outside the strict mode.  When the
    second branch of the AND node is above the selectivity threshold it is skipped
    and NOT complements the superset: a vector that passes the first branch and
    fails the second is a member of the NOT, but neither the speculative pre-filter
    nor the prepared in-filter test lets it through. *)
Theorem selector_not_over_and_misses heap n db q ps a b da dsel l v :
  is_u32 n → is_leaf a = true → wf heap n db q (NotSelector (AndSelector ps [(a, da); (b, dsel)]) n l) →
  dle dsel kHighSelectivityThreshold = false → 0 <= v < n →
  is_member a q (db v) = Some true → is_member b q (db v) = Some false →
  is_member (NotSelector (AndSelector ps [(a, da); (b, dsel)]) n l) q (db v) = Some true
  ∧ (∃ ids, sel_pre_filter heap (NotSelector (AndSelector ps [(a, da); (b, dsel)]) n l) q false = Some ids ∧ v ∉ ids)
  ∧ ∃ s', sel_prepare_in_filter heap (NotSelector (AndSelector ps [(a, da); (b, dsel)]) n l) q = Some s'
      ∧ sel_is_member_approx heap s' v q = Some false.
Proof.
  intros Hn Hl [_ Hwf] Hd Hv Ha Hb. apply wf_children_and in Hwf as [_ Hwf].
  assert (wf heap n db q a) as Hwa by apply (Hwf (a, da) ltac:(by left)).
  pose proof (leaf_answers heap n db q a false Hl Hwa) as Hans.
  assert (sel_pre_filter heap (NotSelector (AndSelector ps [(a, da); (b, dsel)]) n l) q false
          = (ids ← sel_pre_filter heap a q false; complement ids n)) as Heq.
  { cbn [sel_pre_filter]. methods. cbn [sel_pre_filter]. methods. cbn [and_loop fst snd]. rewrite Hd. by destruct (sel_pre_filter heap a q false). }
  destruct (complement_answers n _ _ Hn Hans) as (ids & Hi & _ & Hin).
  assert (v ∉ ids) as Hni.
  { rewrite Hin. intros [_ Hm]. unfold member in Hm. by rewrite Ha in Hm. }
  split_and!.
  - cbn [is_member]. methods. cbn [is_member]. methods. cbn [all_opt fst]. rewrite Ha. simpl. by rewrite Hb.
  - exists ids. by rewrite Heq.
  - cbn [sel_prepare_in_filter]. methods. rewrite Heq, Hi. eexists. split; [done|]. simpl. unfold Not_is_member_approx. f_equal.
    apply not_true_is_false. by rewrite binary_search_elem.
Qed.

End Sel.
