(* ===== verification/StringIndex.v ===== *)
(** * The string attribute index ([include/filter/attribute.h], lines 1469-2128)

    [StringAttrIndex] keeps one string per vector in two files, one sorted by the
    string and one by the reversed string, with a sampled histogram of each, the
    inserts since the last merge ([delta_]), a hash per vector for equality tests and
    256 buckets per direction for range tests.

    [None] is an access out of range, a read past the end of a file, or a comparison
    that [strcmp] takes past the end of a buffer ([str_attr_less]).  The searches of
    the standard library ([lower_bound], [std::map]) compare with every element in
    front of their result; a binary search compares with some of them only. *)

From S2P Require Import Prelude Float32 Bytes FilterUtils Layout StringAttr Attributes Selector.
From stdpp Require Import sorting.

Module StrIdx.
Import Ids StringAttr.
Import Sel (Direction, PREFIX, SUFFIX).
Open Scope Z_scope.

Notation Attribute := (list Z) (only parsing).
Notation entry := (list Z * Z)%type (only parsing).

Definition kBuckets : Z := 256.
Definition kSampleRate : Z := 1000.
Definition SECTOR_LEN : Z := Layout.SECTOR_LEN.

(** The members that exist once per direction, with the file and the bucket file. *)
Record side := mkSide {
  n_entries_ : Z;
  sampled_offsets_ : list Z;
  histogram_ : list Attribute;
  file_size_ : Z;
  bucket_ids_ : list Z;
  bucket_boundaries_ : list Attribute;
  delta_ : list (Attribute * list Z);
  file : list Z;
  bucket_file : option (list Z)
}.

Record StringAttrIndex := mkString {
  n_vectors : Z;
  base_n_vectors_ : Z;
  sides : Direction → side;
  hashes_ : list Z;
  strings_ : list Attribute;
  max_attrs_ : Z;
  delta_bytes_ : Z;
  filter_file : option (list Z)
}.

Definition empty_side : side := mkSide 0 [] [] 0 [] [] [] [] None.
Definition new_index (n : Z) : StringAttrIndex := mkString n n (λ _, empty_side) [] [] 0 0 None.

Definition set_side (dir : Direction) (x : side) (t : StringAttrIndex) : StringAttrIndex :=
  mkString (n_vectors t) (base_n_vectors_ t)
    (λ d, match d, dir with PREFIX, PREFIX | SUFFIX, SUFFIX => x | _, _ => sides t d end)
    (hashes_ t) (strings_ t) (max_attrs_ t) (delta_bytes_ t) (filter_file t).

(** The key of an entry in the file of a direction. *)
Definition key_of (dir : Direction) (a : Attribute) : Attribute :=
  match dir with PREFIX => a | SUFFIX => reverse_string_attr a end.

(** ** Comparisons *)

(** [std::lower_bound] and [std::upper_bound]. *)
Fixpoint lower_bound (l : list Attribute) (x : Attribute) : option nat :=
  match l with
  | [] => Some 0%nat
  | y :: l => b ← str_attr_less y x; if (b : bool) then S <$> lower_bound l x else Some 0%nat
  end.
Fixpoint upper_bound (l : list Attribute) (x : Attribute) : option nat :=
  match l with
  | [] => Some 0%nat
  | y :: l => b ← str_attr_less x y; if (b : bool) then Some 0%nat else S <$> upper_bound l x
  end.

(** The comparison of entries of [write_sorted_file]. *)
Definition entry_less (a b : entry) : option bool :=
  x ← str_attr_less a.1 b.1;
  if (x : bool) then Some true
  else y ← str_attr_less b.1 a.1; if (y : bool) then Some false else Some (a.2 <? b.2).

Fixpoint insert_entry (e : entry) (l : list entry) : option (list entry) :=
  match l with
  | [] => Some [e]
  | x :: l => b ← entry_less x e; if (b : bool) then cons x <$> insert_entry e l else Some (e :: x :: l)
  end.
Fixpoint sort_entries (l : list entry) : option (list entry) :=
  match l with [] => Some [] | e :: l => l ← sort_entries l; insert_entry e l end.

(** [std::sort] and [std::unique] on vector ids. *)
Fixpoint unique (l : list Z) : list Z :=
  match l with
  | [] => []
  | x :: l => match l with y :: _ => if x =? y then unique l else x :: unique l | [] => [x] end
  end.
Definition sort_unique (l : list Z) : list Z := unique (merge_sort Z.le l).

(** ** Files *)

Definition encode_entry (e : entry) : list Z :=
  le_bytes 4 e.2 ++ le_bytes 4 (Z.of_nat (length e.1)) ++ words e.1.

Definition entry_bytes (e : entry) : Z := 8 + 4 * Z.of_nat (length e.1).

(** The byte offset of each entry, from [cur] on. *)
Fixpoint entry_offsets (cur : Z) (l : list entry) : list Z :=
  match l with [] => [] | e :: l => cur :: entry_offsets (cur + entry_bytes e) l end.

Definition n_samples (n : Z) : Z := (n + kSampleRate - 1) / kSampleRate.
Definition header_size (ns : Z) : Z := 8 + 8 * ns.

Definition sampled {A} (l : list A) (ns : Z) : option (list A) :=
  mapM (λ i, l !! Z.to_nat (i * kSampleRate)) (seqZ 0 ns).

Definition u64s (l : list Z) : list Z := concat (map (le_bytes 8) l).

Definition write_sorted_file (dir : Direction) (entries : list entry) (t : StringAttrIndex)
    : option (list entry * StringAttrIndex) :=
  entries ← sort_entries entries;
  let n := Z.of_nat (length entries) in
  let ns := n_samples n in
  let offsets := entry_offsets (header_size ns) entries in
  so ← sampled offsets ns;
  h ← sampled entries.*1 ns;
  let f := le_bytes 4 n ++ le_bytes 4 ns ++ u64s so ++ concat (map encode_entry entries) in
  let x := sides t dir in
  let t := set_side dir (mkSide n so h (Z.of_nat (length f)) (bucket_ids_ x) (bucket_boundaries_ x) (delta_ x) f (bucket_file x)) t in
  let longest := match dir with PREFIX => foldr (λ e m, Z.max (Z.of_nat (length (e : entry).1)) m) (max_attrs_ t) entries
                 | SUFFIX => max_attrs_ t end in
  Some (entries, mkString (n_vectors t) (base_n_vectors_ t) (sides t) (hashes_ t) (strings_ t) longest (delta_bytes_ t) (filter_file t)).

(** One entry at the head of a stream, and the rest. *)
Definition read_entry (s : list Z) : option (entry * list Z) :=
  '(id, s) ← read_le 4 s;
  '(klen, s) ← read_le 4 s;
  '(k, s) ← read_bytes (Z.to_nat (4 * klen)) s;
  Some ((words_at k, id), s).

Fixpoint read_entries (n : nat) (s : list Z) : option (list entry) :=
  match n with
  | O => Some []
  | S n => '(e, s) ← read_entry s; cons e <$> read_entries n s
  end.

Fixpoint read_u64s (n : nat) (s : list Z) : option (list Z * list Z) :=
  match n with
  | O => Some ([], s)
  | S n => '(x, s) ← read_le 8 s; '(l, s) ← read_u64s n s; Some (x :: l, s)
  end.

Definition load_header (dir : Direction) (t : StringAttrIndex) : option StringAttrIndex :=
  let x := sides t dir in
  let sz := Z.of_nat (length (file x)) in
  if sz <? 8 then
    Some (set_side dir (mkSide 0 (sampled_offsets_ x) (histogram_ x) sz (bucket_ids_ x) (bucket_boundaries_ x) (delta_ x) (file x)
                          (bucket_file x)) t)
  else
    '(n, s) ← read_le 4 (file x);
    '(ns, s) ← read_le 4 s;
    '(so, _) ← read_u64s (Z.to_nat ns) s;
    h ← mapM (λ off, '(e, _) ← read_entry (drop (Z.to_nat off) (file x)); Some (e : entry).1) so;
    Some (set_side dir (mkSide n so h sz (bucket_ids_ x) (bucket_boundaries_ x) (delta_ x) (file x) (bucket_file x)) t).

Definition data_offset (x : side) : Z := header_size (Z.of_nat (length (sampled_offsets_ x))).

(** The entries of the prefix file, in file order. *)
Definition all_entries (t : StringAttrIndex) : option (list entry) :=
  let x := sides t PREFIX in
  if n_entries_ x =? 0 then Some [] else read_entries (Z.to_nat (n_entries_ x)) (drop (Z.to_nat (data_offset x)) (file x)).

(** [strings_\[id\] = key], growing the vector. *)
Definition put_string (acc : option (list Attribute)) (e : entry) : option (list Attribute) :=
  l ← acc;
  vset (if Z.of_nat (length l) <=? e.2 then vresize l (Z.to_nat (e.2 + 1)) [] else l) (Z.to_nat e.2) e.1.

Definition load_attrs (t : StringAttrIndex) : option StringAttrIndex :=
  t ← load_header PREFIX t;
  es ← all_entries t;
  strs ← foldl put_string (Some (replicate (Z.to_nat (base_n_vectors_ t)) [])) es;
  Some (mkString (n_vectors t) (base_n_vectors_ t) (sides t) (hashes_ t) strs
          (foldr (λ e m, Z.max (Z.of_nat (length (e : entry).1)) m) 0 es) (delta_bytes_ t) (filter_file t)).

Definition load_from_rows (rows : list Attribute) (t : StringAttrIndex) : StringAttrIndex :=
  let n := Z.of_nat (length rows) in
  mkString n n (sides t) (hashes_ t) rows (foldr (λ r m, Z.max (Z.of_nat (length (r : Attribute))) m) 0 rows) (delta_bytes_ t) (filter_file t).

Definition get (t : StringAttrIndex) (vector_id : Z) : Attribute := default [] (strings_ t !! Z.to_nat vector_id).

(** ** Buckets *)

Definition boundary_rank (n b : Z) : Z := Z.min (b * n / kBuckets) (n - 1).
Definition bucket_of_rank (n i : Z) : Z := Z.min (i * kBuckets / n) (kBuckets - 1).

Definition assign_bucket (n : Z) (acc : option (list Z)) (e : Z * entry) : option (list Z) :=
  ids ← acc; vset ids (Z.to_nat e.2.2) (bucket_of_rank n e.1).

Definition rebuild_buckets (dir : Direction) (entries : list entry) (t : StringAttrIndex) : option StringAttrIndex :=
  let x := sides t dir in
  let zeros := replicate (Z.to_nat (n_vectors t)) 0 in
  let n := Z.of_nat (length entries) in
  '(ids, bs) ← (if n =? 0 then Some (zeros, [])
                else
                  bs ← mapM (λ b, fst <$> entries !! Z.to_nat (boundary_rank n b)) (seqZ 0 (kBuckets + 1));
                  ids ← foldl (assign_bucket n) (Some zeros) (zip (seqZ 0 n) entries);
                  Some (ids, bs));
  Some (set_side dir (mkSide (n_entries_ x) (sampled_offsets_ x) (histogram_ x) (file_size_ x) ids bs (delta_ x) (file x)
                        (bucket_file x)) t).

Definition encode_buckets (bs : list Attribute) (ids : list Z) : list Z :=
  le_bytes 4 (Z.of_nat (length bs)) ++ concat (map (λ b, le_bytes 4 (Z.of_nat (length b)) ++ words b) bs)
  ++ le_bytes 4 (Z.of_nat (length ids)) ++ words ids.

Definition save_bucket_approx (dir : Direction) (t : StringAttrIndex) : StringAttrIndex :=
  let x := sides t dir in
  set_side dir (mkSide (n_entries_ x) (sampled_offsets_ x) (histogram_ x) (file_size_ x) (bucket_ids_ x) (bucket_boundaries_ x)
                  (delta_ x) (file x) (Some (encode_buckets (bucket_boundaries_ x) (bucket_ids_ x)))) t.

Fixpoint read_keys (n : nat) (s : list Z) : option (list Attribute * list Z) :=
  match n with
  | O => Some ([], s)
  | S n =>
      '(len, s) ← read_le 4 s;
      '(k, s) ← read_bytes (Z.to_nat (4 * len)) s;
      '(l, s) ← read_keys n s;
      Some (words_at k :: l, s)
  end.

Definition load_bucket_approx (dir : Direction) (t : StringAttrIndex) : option StringAttrIndex :=
  let x := sides t dir in
  match bucket_file x with
  | None => Some t
  | Some f =>
      '(nb, s) ← read_le 4 f;
      '(bs, s) ← read_keys (Z.to_nat nb) s;
      '(n, s) ← read_le 4 s;
      '(ids, _) ← read_bytes (Z.to_nat (4 * n)) s;
      Some (set_side dir (mkSide (n_entries_ x) (sampled_offsets_ x) (histogram_ x) (file_size_ x) (words_at ids) bs (delta_ x) (file x)
                            (bucket_file x)) t)
  end.

(** ** Saving *)

Section hash.
(** [CityHash32] of the bytes of a key. *)
Context (CityHash32 : list Z → Z).

Definition hash_packed (a : Attribute) : Z := CityHash32 (attr_bytes a).

Definition put_hash (acc : option (list Z)) (e : entry) : option (list Z) :=
  hs ← acc; vset hs (Z.to_nat e.2) (hash_packed e.1).

Definition save_both (entries : list entry) (t : StringAttrIndex) : option StringAttrIndex :=
  '(entries, t) ← write_sorted_file PREFIX entries t;
  '(rev, t) ← write_sorted_file SUFFIX (map (λ e, (reverse_string_attr e.1, e.2)) entries) t;
  hs ← foldl put_hash (Some (replicate (Z.to_nat (n_vectors t)) 0)) entries;
  let t := mkString (n_vectors t) (base_n_vectors_ t) (sides t) hs (strings_ t) (max_attrs_ t) (delta_bytes_ t) (Some hs) in
  t ← rebuild_buckets PREFIX entries t;
  t ← rebuild_buckets SUFFIX rev t;
  let t := save_bucket_approx SUFFIX (save_bucket_approx PREFIX t) in
  Some (mkString (n_vectors t) (n_vectors t) (sides t) (hashes_ t) (strings_ t) (max_attrs_ t) (delta_bytes_ t) (filter_file t)).

Definition numbered (strs : list Attribute) : list entry := zip strs (seqZ 0 (Z.of_nat (length strs))).

Definition save (t : StringAttrIndex) : option StringAttrIndex := save_both (numbered (strings_ t)) t.

Definition load_approx (t : StringAttrIndex) : option StringAttrIndex :=
  t ← load_header PREFIX t;
  t ← load_header SUFFIX t;
  let t := match filter_file t with
           | Some hs => mkString (n_vectors t) (base_n_vectors_ t) (sides t) hs (strings_ t) (max_attrs_ t) (delta_bytes_ t) (filter_file t)
           | None => t
           end in
  t ← load_bucket_approx PREFIX t;
  load_bucket_approx SUFFIX t.

(** ** Pre-filtering *)

(** The entries from the front of a stream while they fit in it. *)
Fixpoint scan_entries (fuel : nat) (s : list Z) : list entry :=
  match fuel with
  | O => []
  | S fuel => match read_entry s with Some (e, s) => e :: scan_entries fuel s | None => [] end
  end.

Definition scan_range (dir : Direction) (byte_begin byte_end : Z) (t : StringAttrIndex) : option (list entry) :=
  if byte_end <=? byte_begin then Some []
  else
    let aligned_off := byte_begin / SECTOR_LEN * SECTOR_LEN in
    let f := file (sides t dir) in
    if Z.of_nat (length f) <? byte_end then None
    else
      let buf := region f (Z.to_nat aligned_off) (Z.to_nat byte_end) in
      let s := drop (Z.to_nat (byte_begin - aligned_off)) buf in
      Some (scan_entries (length s) s).

Definition is_empty (a : Attribute) : bool := match a with [] => true | _ => false end.

Definition byte_range_for (dir : Direction) (lo hi : Attribute) (t : StringAttrIndex) : option (Z * Z) :=
  let x := sides t dir in
  let h := histogram_ x in
  let so := sampled_offsets_ x in
  match h, so with
  | [], _ | _, [] => Some (0, 0)
  | _, _ =>
      l ← lower_bound h lo;
      r_idx ← (if is_empty hi then Some (length so)
               else r ← lower_bound h hi; Some (if Nat.ltb r (length so) then S r else r));
      b ← so !! (l - 1)%nat;
      Some (b, default (file_size_ x) (so !! r_idx))
  end.

(** [!str_attr_less(key, lo) && (hi.empty() || str_attr_less(key, hi))]. *)
Definition in_bounds (lo hi key : Attribute) : option bool :=
  b ← str_attr_less key lo;
  if (b : bool) then Some false else if is_empty hi then Some true else str_attr_less key hi.

Fixpoint select {A} (p : A → option bool) (l : list A) : option (list A) :=
  match l with [] => Some [] | x :: l => b ← p x; l ← select p l; Some (if (b : bool) then x :: l else l) end.

(** The keys of [delta_] from [lower_bound(lo)] on while they are below [hi]. *)
Fixpoint delta_below (hi : Attribute) (d : list (Attribute * list Z)) : option (list (Attribute * list Z)) :=
  match d with
  | [] => Some []
  | e :: d => b ← (if is_empty hi then Some true else str_attr_less e.1 hi);
              if (b : bool) then cons e <$> delta_below hi d else Some []
  end.
Definition delta_range (dir : Direction) (lo hi : Attribute) (t : StringAttrIndex) : option (list (Attribute * list Z)) :=
  let d := delta_ (sides t dir) in
  l ← lower_bound d.*1 lo; delta_below hi (drop l d).

Definition pre_filter (dir : Direction) (query : Attribute) (t : StringAttrIndex) : option (list Z) :=
  let lo := key_of dir query in
  let hi := next_string_attr_prefix lo in
  '(b, e) ← byte_range_for dir lo hi t;
  scanned ← (if b <? e then scan_range dir b e t else Some []);
  base ← select (λ x : entry, in_bounds lo hi x.1) scanned;
  d ← delta_range dir lo hi t;
  Some (sort_unique (base.*2 ++ concat d.*2)).

(** The range of a LIKE pattern: a fixed prefix, a fixed suffix, or everything. *)
Definition like_range (pattern : Attribute) : Direction * Attribute :=
  let pat := string_attr_view pattern in
  match head pat, last pat with
  | Some c, Some z =>
      if negb (is_wild c) then (PREFIX, like_fixed_prefix pattern)
      else if negb (is_wild z) then (SUFFIX, reverse_string_attr (like_fixed_suffix pattern))
      else (PREFIX, [])
  | _, _ => (PREFIX, [])
  end.

Definition pre_filter_like (pattern : Attribute) (t : StringAttrIndex) : option (list Z) :=
  let pat := string_attr_view pattern in
  let '(dir, range_key) := like_range pattern in
  let hi := if is_empty range_key then [] else next_string_attr_prefix range_key in
  let x := sides t dir in
  '(b, e) ← (if is_empty range_key then Some (data_offset x, file_size_ x) else byte_range_for dir range_key hi t);
  scanned ← scan_range dir b e t;
  base ← select (λ e : entry, like_match (string_attr_view (key_of dir e.1)) pat) scanned;
  let d := delta_ (sides t PREFIX) in
  d_begin ← (if is_empty range_key then Some 0%nat else lower_bound d.*1 range_key);
  d_end ← (if is_empty range_key || is_empty hi then Some (length d) else lower_bound d.*1 hi);
  hits ← select (λ e : Attribute * list Z, like_match (string_attr_view e.1) pat) (take (d_end - d_begin) (drop d_begin d));
  Some (sort_unique (base.*2 ++ concat hits.*2)).

(** ** Approximate membership *)

Definition is_member_approx (target_id : Z) (query : Attribute) (t : StringAttrIndex) : bool :=
  match hashes_ t !! Z.to_nat target_id with Some h => h =? hash_packed query | None => false end.

(** The buckets that a range may fall in. *)
Definition bucket_range (dir : Direction) (query : Attribute) (t : StringAttrIndex) : option (Z * Z) :=
  let bs := bucket_boundaries_ (sides t dir) in
  let lo := key_of dir query in
  let hi := next_string_attr_prefix lo in
  l ← lower_bound bs lo;
  r ← (if is_empty hi then Some (length bs) else lower_bound bs hi);
  Some (Z.max 0 (Z.of_nat l - 1), Z.min (kBuckets - 1) (Z.of_nat r + 1)).

Definition is_member_approx_dir (target_id : Z) (query : Attribute) (dir : Direction) (t : StringAttrIndex) : option bool :=
  let x := sides t dir in
  match bucket_ids_ x !! Z.to_nat target_id, bucket_boundaries_ x with
  | None, _ | _, [] => Some true
  | Some bid, _ => '(lb, rb) ← bucket_range dir query t; Some ((lb <=? bid) && (bid <=? rb))
  end.

(** ** Updates *)

Definition ensure_bucket_id (dir : Direction) (vector_id : Z) (key : Attribute) (t : StringAttrIndex) : option StringAttrIndex :=
  let x := sides t dir in
  let ids := if Z.of_nat (length (bucket_ids_ x)) <=? vector_id
             then vresize (bucket_ids_ x) (Z.to_nat (Z.max 1024 (3 * u32 (vector_id + 1) / 2))) 0 else bucket_ids_ x in
  ids ← (match bucket_boundaries_ x with
         | [] => Some ids
         | bs => it ← upper_bound bs key;
                 vset ids (Z.to_nat vector_id) (Z.min (if Nat.eqb it 0 then 0 else Z.of_nat it - 1) (kBuckets - 1))
         end);
  Some (set_side dir (mkSide (n_entries_ x) (sampled_offsets_ x) (histogram_ x) (file_size_ x) ids (bucket_boundaries_ x) (delta_ x)
                        (file x) (bucket_file x)) t).

(** [delta_\[key\].push_back(id)] of a [std::map] ordered by [str_attr_less]. *)
Fixpoint push_delta (d : list (Attribute * list Z)) (key : Attribute) (id : Z) : option (list (Attribute * list Z)) :=
  match d with
  | [] => Some [(key, [id])]
  | e :: d =>
      b ← str_attr_less e.1 key;
      if (b : bool) then cons e <$> push_delta d key id
      else c ← str_attr_less key e.1;
           Some (if (c : bool) then (key, [id]) :: e :: d else (e.1, e.2 ++ [id]) :: d)
  end.

Definition add_delta (dir : Direction) (key : Attribute) (id : Z) (t : StringAttrIndex) : option StringAttrIndex :=
  let x := sides t dir in
  d ← push_delta (delta_ x) key id;
  Some (set_side dir (mkSide (n_entries_ x) (sampled_offsets_ x) (histogram_ x) (file_size_ x) (bucket_ids_ x) (bucket_boundaries_ x) d
                        (file x) (bucket_file x)) t).

Definition remap_id (id_map : gmap Z Z) (id : Z) : option Z := if decide (id_map = ∅) then Some id else id_map !! id.

Definition remap_entries (id_map : gmap Z Z) (l : list entry) : list entry :=
  omap (λ e : entry, (λ nid, (e.1, nid)) <$> remap_id id_map e.2) l.

Definition delta_entries (d : list (Attribute * list Z)) : list entry :=
  concat (map (λ e : Attribute * list Z, map (λ id, (e.1, id)) e.2) d).

Definition clear_delta (t : StringAttrIndex) : StringAttrIndex :=
  mkString (n_vectors t) (base_n_vectors_ t)
    (λ d, let x := sides t d in
          mkSide (n_entries_ x) (sampled_offsets_ x) (histogram_ x) (file_size_ x) (bucket_ids_ x) (bucket_boundaries_ x) [] (file x)
            (bucket_file x))
    (hashes_ t) (strings_ t) (max_attrs_ t) 0 (filter_file t).

Definition do_merge (id_map : gmap Z Z) (t : StringAttrIndex) : option StringAttrIndex :=
  old ← all_entries t;
  let entries := remap_entries id_map old ++ remap_entries id_map (delta_entries (delta_ (sides t PREFIX))) in
  let n := if decide (id_map = ∅) then n_vectors t else Z.of_nat (size id_map) in
  let t := mkString n (base_n_vectors_ t) (sides t) (hashes_ t) (strings_ t) (max_attrs_ t) (delta_bytes_ t) (filter_file t) in
  t ← save_both entries t;
  Some (clear_delta t).

Definition kDeltaBytes : Z := 4 * 1024 * 1024.

Definition insert (vector_id : Z) (attr : Attribute) (t : StringAttrIndex) : option StringAttrIndex :=
  t ← add_delta PREFIX attr vector_id t;
  t ← add_delta SUFFIX (reverse_string_attr attr) vector_id t;
  let hs := if Z.of_nat (length (hashes_ t)) <=? vector_id
            then vresize (hashes_ t) (Z.to_nat (Z.max 1024 (3 * u32 (vector_id + 1) / 2))) 0 else hashes_ t in
  hs ← vset hs (Z.to_nat vector_id) (hash_packed attr);
  let t := mkString (Z.max (n_vectors t) (vector_id + 1)) (base_n_vectors_ t) (sides t) hs (strings_ t)
             (Z.max (max_attrs_ t) (Z.of_nat (length attr))) (delta_bytes_ t + 8 + 4 * Z.of_nat (length attr)) (filter_file t) in
  t ← ensure_bucket_id PREFIX vector_id attr t;
  if kDeltaBytes <=? delta_bytes_ t then do_merge ∅ t else Some t.

(** ** Estimates *)

(** Coarse range from the histogram. *)
Definition get_range (dir : Direction) (lo hi : Attribute) (t : StringAttrIndex) : option (nat * nat) :=
  let h := histogram_ (sides t dir) in
  l ← lower_bound h lo;
  r ← (if is_empty hi then Some (length h) else lower_bound h hi);
  Some ((l - 1)%nat, r).

Definition estimate_count (dir : Direction) (query : Attribute) (t : StringAttrIndex) : option Z :=
  match histogram_ (sides t dir) with
  | [] => Some 0
  | _ =>
      let lo := key_of dir query in
      let hi := next_string_attr_prefix lo in
      '(l, r) ← get_range dir lo hi t;
      d ← delta_range dir lo hi t;
      Some (u32 (Z.min (u64 (u64 (Z.of_nat r - Z.of_nat l) * kSampleRate + Z.of_nat (length (concat d.*2)))) (n_vectors t)))
  end.

Definition estimate_count_like (pattern : Attribute) (t : StringAttrIndex) : option Z :=
  let prefix := like_fixed_prefix pattern in
  let suffix := like_fixed_suffix pattern in
  let best := u32 (n_vectors t) in
  best ← (if is_empty prefix then Some best else c ← estimate_count PREFIX prefix t; Some (Z.min best c));
  if is_empty suffix then Some best else c ← estimate_count SUFFIX suffix t; Some (Z.min best c).

Definition estimate_bucket_total (dir : Direction) (query : Attribute) (t : StringAttrIndex) : option Z :=
  match bucket_boundaries_ (sides t dir) with
  | [] => Some 0
  | _ =>
      if base_n_vectors_ t =? 0 then Some 0
      else
        '(lb, rb) ← bucket_range dir query t;
        if rb <? lb then Some 0
        else Some (u32 (Z.min (u64 ((rb - lb + 1) * base_n_vectors_ t) / kBuckets) (n_vectors t)))
  end.

Definition estimate_precision_dir (dir : Direction) (query : Attribute) (t : StringAttrIndex) : option double :=
  tp ← estimate_count dir query t;
  total ← estimate_bucket_total dir query t;
  if total =? 0 then Some d_one
  else
    let p := ddiv (d_of_Z tp) (d_of_Z total) in
    Some (if dlt d_one p then d_one else p).

Definition estimate_prefilter_reads (dir : Direction) (query : Attribute) (t : StringAttrIndex) : option Z :=
  cnt ← estimate_count dir query t;
  let avg_entry := u32 (8 + Z.max (max_attrs_ t) 1 * 4) in
  Some (u32 (Layout.DIV_ROUND_UP (u64 (cnt * avg_entry)) SECTOR_LEN)).

Definition estimate_prefilter_reads_like (pattern : Attribute) (t : StringAttrIndex) : option Z :=
  let prefix := like_fixed_prefix pattern in
  let suffix := like_fixed_suffix pattern in
  let best := UINT32_MAX / 2 in
  best ← (if is_empty prefix then Some best else c ← estimate_prefilter_reads PREFIX prefix t; Some (Z.min best c));
  if is_empty suffix then Some best else c ← estimate_prefilter_reads SUFFIX suffix t; Some (Z.min best c).

End hash.
End StrIdx.
