(* ===== verification/StringProof.v ===== *)
(** * Correctness of the string attribute index

    The files of [StrIdx] hold the entries in order, a pre-filter reads exactly the
    entries in the range of its query, and the buckets of a saved index never lose a
    member. *)

From S2P Require Import Prelude Float32 Bytes FilterUtils Layout StringAttr Attributes Selector StringIndex.
From stdpp Require Import sorting.

Module StrProof.
Import Ids StringAttr StrIdx.
Import Sel (Direction, PREFIX, SUFFIX, matches_dir).
Open Scope Z_scope.

(** ** The order of strings *)

Lemma lex_irrefl s : lex_lt s s = false.
Proof. induction s as [|a s IH]; simpl; [done|]. by rewrite Z.ltb_irrefl, Z.eqb_refl. Qed.

Lemma lex_trans s t u : lex_lt s t = true → lex_lt t u = true → lex_lt s u = true.
Proof.
  revert t u. induction s as [|a s IH]; intros [|b t] [|c u]; simpl; try done.
  rewrite !orb_true_iff, !andb_true_iff, !Z.ltb_lt, !Z.eqb_eq. intros [?|[-> ?]] [?|[-> ?]]; [left; lia|by left|by left|right; eauto].
Qed.

Lemma lex_total s t : lex_lt s t = false → lex_lt t s = false → s = t.
Proof.
  revert t. induction s as [|a s IH]; intros [|b t]; simpl; try done.
  rewrite !orb_false_iff, !andb_false_iff, !Z.ltb_ge, !Z.eqb_neq. intros [H1 H2] [H3 H4].
  assert (a = b) as -> by lia. f_equal. apply IH; [by destruct H2|by destruct H4].
Qed.

Lemma lex_le_trans s t u : lex_lt t s = false → lex_lt u t = false → lex_lt u s = false.
Proof.
  intros H1 H2. apply not_true_iff_false. intros H3. destruct (lex_lt t u) eqn:E.
  - by rewrite (lex_trans t u s) in H1.
  - by rewrite (lex_total t u E H2) in H1; rewrite H1 in H3.
Qed.

Lemma lex_le_lt_trans s t u : lex_lt t s = false → lex_lt t u = true → lex_lt s u = true.
Proof.
  intros H1 H2. apply not_false_iff_true. intros H3. pose proof (lex_le_trans u s t). by rewrite H in H2.
Qed.

(** ** Keys *)

(** A packed string that ends in a NUL byte, short enough for its length field. *)
Definition key_ok (a : list Z) : Prop :=
  ∃ s, a = pack_string_attr s ∧ text s ∧ (s = [] ∨ (length s mod 4 ≠ 0)%nat) ∧ is_u32 (Z.of_nat (length s) + 4).

(** A query string without the byte 255. *)
Definition query_ok (a : list Z) : Prop := key_ok a ∧ 255 ∉ string_attr_view a.

Lemma less_spec a b : key_ok a → key_ok b → str_attr_less a b = Some (lex_lt (string_attr_view a) (string_attr_view b)).
Proof.
  intros (s & -> & Hs & Hls & _) (t & -> & Ht & Hlt & _). rewrite !view_pack by done. by apply str_attr_less_correct.
Qed.

Lemma key_view_inj a b : key_ok a → key_ok b → string_attr_view a = string_attr_view b → a = b.
Proof. intros (s & -> & Hs & _) (t & -> & Ht & _). rewrite !view_pack by done. by intros ->. Qed.

Lemma packed_length s : Z.of_nat (length (pack_string_attr s)) * 4 = Z.of_nat (length s + pad_of s)%nat.
Proof.
  unfold pack_string_attr. rewrite words_at_length, length_app, length_replicate.
  pose proof (pad_of_mod s) as Hm. pose proof (Nat.div_mod_eq (length s + pad_of s) 4). lia.
Qed.

Lemma pad_small s : (pad_of s < 4)%nat.
Proof. apply Nat.mod_upper_bound. lia. Qed.

Lemma words_at_u32 bs : Forall is_byte bs → Forall is_u32 (words_at bs).
Proof.
  remember (length bs) as n eqn:Hn. revert bs Hn. induction (lt_wf n) as [n _ IH]. intros bs Hn Hb.
  destruct bs as [|b0 [|b1 [|b2 [|b3 bs]]]]; try constructor.
  - rewrite !Forall_cons in Hb. destruct Hb as (H0 & H1 & H2 & H3 & _). unfold is_byte, is_u32 in *. cbn [le_value]. lia.
  - rewrite !Forall_cons in Hb. destruct Hb as (_ & _ & _ & _ & Hb). apply (IH (length bs)); [subst; simpl; lia|done|done].
Qed.

Lemma key_words a : key_ok a → Forall is_u32 a ∧ is_u32 (Z.of_nat (length a)).
Proof.
  intros (s & -> & Hs & _ & Hl). split.
  - apply words_at_u32, Forall_app. split; [by apply text_is_byte|]. apply Forall_replicate. unfold is_byte. lia.
  - pose proof (packed_length s). pose proof (pad_small s). unfold is_u32 in *. lia.
Qed.

Lemma view_reverse a : string_attr_view (reverse_string_attr a) = rev (string_attr_view a).
Proof. unfold reverse_string_attr. apply view_pack. apply Forall_rev, attr_view_text. Qed.

Lemma reverse_ok a : key_ok a → key_ok (reverse_string_attr a).
Proof.
  intros (s & -> & Hs & Hl & Hn). exists (rev s). unfold reverse_string_attr. rewrite view_pack, length_rev by done.
  split_and!; [done|by apply Forall_rev| |done]. destruct Hl as [->|]; [by left|by right].
Qed.

Lemma key_of_ok dir a : key_ok a → key_ok (key_of dir a).
Proof. destruct dir; [done|apply reverse_ok]. Qed.

Lemma reverse_involutive a : key_ok a → reverse_string_attr (reverse_string_attr a) = a.
Proof.
  intros Ha. apply key_view_inj; [by apply reverse_ok, reverse_ok|done|]. by rewrite !view_reverse, rev_involutive.
Qed.

Lemma query_of_ok dir a : query_ok a → query_ok (key_of dir a).
Proof.
  intros [Ha Hn]. split; [by apply key_of_ok|]. destruct dir; [done|]. simpl. rewrite view_reverse.
  intros Hx. apply Hn. apply list_elem_of_In. apply list_elem_of_In in Hx. by apply in_rev.
Qed.

(** A key of a direction starts with the query's key when the string matches it. *)
Lemma key_of_matches dir a q : string_attr_starts_with (key_of dir a) (key_of dir q) = matches_dir dir a q.
Proof.
  destruct dir; [done|]. simpl. apply eq_true_iff_eq. rewrite starts_with_prefix, ends_with_suffix, !view_reverse. split.
  - intros [k Hk]. exists (rev k). rewrite <- (rev_involutive (string_attr_view a)), Hk, rev_app_distr, rev_involutive. done.
  - intros [k ->]. exists (rev k). by rewrite rev_app_distr.
Qed.

(** ** Ranges *)

Lemma next_prefix_ok q : query_ok q → next_string_attr_prefix q = [] ∨ key_ok (next_string_attr_prefix q).
Proof.
  intros [(s & -> & Hs & Hl & Hn) H255]. rewrite view_pack in H255 by done. unfold next_string_attr_prefix. rewrite view_pack by done.
  destruct s as [|x s _] using rev_ind; [by left|]. rewrite length_app. simpl. rewrite Nat.add_1_r. cbn [next_prefix_loop].
  rewrite app_nth2, Nat.sub_diag by lia. simpl.
  assert (x ≠ 255) as Hx by (intros ->; apply H255; set_solver).
  rewrite (proj2 (Z.eqb_neq x 255) Hx), take_app_length. right.
  apply Forall_app in Hs as [Hs Hx']. apply Forall_cons in Hx' as [Hx' _].
  exists (s ++ [x + 1]). rewrite !length_app in *. simpl in *. split_and!; [done| | |done].
  - apply Forall_app. split; [done|]. constructor; [lia|constructor].
  - destruct Hl as [Hl|Hl]; [by destruct s|by right].
Qed.

Lemma in_bounds_spec lo key :
  query_ok lo → key_ok key → in_bounds lo (next_string_attr_prefix lo) key = Some (string_attr_starts_with key lo).
Proof.
  intros Hlo Hk. unfold in_bounds. rewrite (less_spec key lo) by (done || apply Hlo). cbn [mbind option_bind].
  rewrite prefix_range_exact. destruct (lex_lt (string_attr_view key) (string_attr_view lo)); cbn [negb andb]; [done|].
  destruct (next_prefix_ok lo Hlo) as [->|Hhi]; [done|].
  destruct (next_string_attr_prefix lo) as [|w ws] eqn:E; [done|]. cbn [is_empty]. by apply less_spec.
Qed.

(** ** Sorted keys *)

Definition kle (a b : list Z) : Prop := lex_lt (string_attr_view b) (string_attr_view a) = false.

Lemma kle_refl a : kle a a.
Proof. apply lex_irrefl. Qed.

Lemma strongly_sorted_lookup {A} (R : A → A → Prop) l :
  StronglySorted R l ↔ ∀ i j a b, l !! i = Some a → l !! j = Some b → (i < j)%nat → R a b.
Proof.
  induction l as [|x l IH]; [split; [done|constructor]|]. rewrite StronglySorted_cons, IH, Forall_lookup. split.
  - intros [Hx Hl] [|i] [|j] a b Ha Hb Hij; simplify_eq/=; try lia; [by apply (Hx j)|]. apply (Hl i j); [done|done|lia].
  - intros H. split; [intros i y Hy; apply (H 0%nat (S i)); [done|done|lia]|].
    intros i j a b Ha Hb Hij. apply (H (S i) (S j)); [done|done|lia].
Qed.

Lemma str_lower_bound_spec l x :
  Forall key_ok l → key_ok x → StronglySorted kle l →
  ∃ k, lower_bound l x = Some k ∧ (k <= length l)%nat
  ∧ ∀ i y, l !! i = Some y → (i < k)%nat ↔ lex_lt (string_attr_view y) (string_attr_view x) = true.
Proof.
  intros Hl Hx Hs. induction Hs as [|y l Hs IH Hy]; simpl; [by exists 0%nat|]. apply Forall_cons in Hl as [Hy' Hl].
  rewrite less_spec by done. cbn [mbind option_bind]. destruct (lex_lt (string_attr_view y) (string_attr_view x)) eqn:E.
  - destruct (IH Hl) as (k & -> & Hk & Hi). exists (S k). split; [done|]. split; [simpl; lia|]. intros [|i] z Hz; simplify_eq/=.
    + split; [done|lia].
    + rewrite <- (Hi i z Hz). lia.
  - exists 0%nat. split; [done|]. split; [simpl; lia|]. intros i z Hz. split; [lia|]. intros Hlt. exfalso.
    destruct i as [|i]; simplify_eq/=; [congruence|].
    assert (kle y z) as Hyz by (eapply Forall_lookup_1; [exact Hy|exact Hz]). unfold kle in Hyz.
    by rewrite (lex_le_lt_trans _ _ _ Hyz Hlt) in E.
Qed.

Lemma upper_bound_spec l x :
  Forall key_ok l → key_ok x → StronglySorted kle l →
  ∃ k, upper_bound l x = Some k ∧ (k <= length l)%nat
  ∧ ∀ i y, l !! i = Some y → (i < k)%nat ↔ lex_lt (string_attr_view x) (string_attr_view y) = false.
Proof.
  intros Hl Hx Hs. induction Hs as [|y l Hs IH Hy]; simpl; [by exists 0%nat|]. apply Forall_cons in Hl as [Hy' Hl].
  rewrite less_spec by done. cbn [mbind option_bind]. destruct (lex_lt (string_attr_view x) (string_attr_view y)) eqn:E.
  - exists 0%nat. split; [done|]. split; [simpl; lia|]. intros i z Hz. split; [lia|]. intros Hlt. exfalso.
    destruct i as [|i]; simplify_eq/=; [congruence|].
    assert (kle y z) as Hyz by (eapply Forall_lookup_1; [exact Hy|exact Hz]). unfold kle in Hyz.
    by rewrite (lex_le_trans _ _ _ Hyz Hlt) in E.
  - destruct (IH Hl) as (k & -> & Hk & Hi). exists (S k). split; [done|]. split; [simpl; lia|]. intros [|i] z Hz; simplify_eq/=.
    + split; [done|lia].
    + rewrite <- (Hi i z Hz). lia.
Qed.

(** ** Sorting entries *)

Definition entry_ok (e : list Z * Z) : Prop := key_ok e.1 ∧ is_u32 e.2.

Lemma entry_less_spec a b :
  entry_ok a → entry_ok b →
  ∃ x, entry_less a b = Some x ∧ (x = true → kle a.1 b.1) ∧ (x = false → kle b.1 a.1).
Proof.
  intros [Ha _] [Hb _]. unfold entry_less, kle. rewrite !less_spec by done. cbn [mbind option_bind].
  destruct (lex_lt (string_attr_view a.1) (string_attr_view b.1)) eqn:E1.
  - exists true. split; [done|]. split; [|done]. intros _. apply not_true_iff_false. intros H.
    pose proof (lex_trans _ _ _ E1 H) as K. by rewrite lex_irrefl in K.
  - cbn [mbind option_bind]. destruct (lex_lt (string_attr_view b.1) (string_attr_view a.1)) eqn:E2; [by exists false|].
    eexists. split; [done|]. done.
Qed.

Lemma insert_entry_spec e l :
  entry_ok e → Forall entry_ok l → StronglySorted (λ a b, kle a.1 b.1) l →
  ∃ l', insert_entry e l = Some l' ∧ l' ≡ₚ e :: l ∧ StronglySorted (λ a b, kle a.1 b.1) l'.
Proof.
  intros He Hl Hs. induction Hs as [|x l Hs IH Hx]; simpl; [by exists [e]; split_and!; [|done|repeat constructor]|].
  apply Forall_cons in Hl as [Hxo Hl]. destruct (entry_less_spec x e Hxo He) as (b & -> & Hb1 & Hb2). cbn [mbind option_bind].
  destruct b.
  - destruct (IH Hl) as (l' & -> & Hp & Hs'). exists (x :: l'). split; [done|]. split; [rewrite Hp; apply Permutation_swap|].
    constructor; [done|]. apply Forall_forall. intros y. rewrite Hp. intros [->|Hy]%elem_of_cons; [by apply Hb1|].
    by apply (Forall_forall _ l) with (x := y) in Hx.
  - exists (e :: x :: l). split_and!; [done..|]. constructor; [by constructor|]. constructor; [by apply Hb2|].
    apply Forall_forall. intros y Hy. apply (Forall_forall _ l) with (x := y) in Hx; [|done]. unfold kle in *.
    eapply lex_le_trans; [by apply Hb2|exact Hx].
Qed.

Lemma sort_entries_spec l :
  Forall entry_ok l → ∃ l', sort_entries l = Some l' ∧ l' ≡ₚ l ∧ StronglySorted (λ a b, kle a.1 b.1) l'.
Proof.
  induction l as [|e l IH]; intros Hl; simpl; [by exists []; split_and!; [| |constructor]|].
  apply Forall_cons in Hl as [He Hl]. destruct (IH Hl) as (l1 & -> & Hp1 & Hs1). cbn [mbind option_bind].
  destruct (insert_entry_spec e l1) as (l' & -> & Hp & Hs); [done|by rewrite Hp1|done|]. exists l'.
  split; [done|]. split; [by rewrite Hp, Hp1|done].
Qed.

Lemma keys_sorted (es : list (list Z * Z)) : StronglySorted (λ a b, kle a.1 b.1) es → StronglySorted kle es.*1.
Proof.
  induction 1 as [|e l Hs IH He]; simpl; constructor; [done|]. apply Forall_fmap. done.
Qed.

(** ** Encoded entries *)

Definition encoded (es : list (list Z * Z)) : list Z := concat (map encode_entry es).

Lemma encode_length e : Z.of_nat (length (encode_entry e)) = entry_bytes e.
Proof. unfold encode_entry, entry_bytes. rewrite !length_app, !le_bytes_length, words_length. lia. Qed.

Lemma encoded_app a b : encoded (a ++ b) = encoded a ++ encoded b.
Proof. unfold encoded. by rewrite map_app, concat_app. Qed.

Lemma encoded_cons e es : encoded (e :: es) = encode_entry e ++ encoded es.
Proof. done. Qed.

Lemma read_entry_encode e s : entry_ok e → read_entry (encode_entry e ++ s) = Some (e, s).
Proof.
  intros [Hk Hid]. destruct (key_words e.1 Hk) as [Hw Hl]. unfold read_entry, encode_entry. rewrite <- !app_assoc.
  rewrite read_u32_app by done. cbn [mbind option_bind]. rewrite read_u32_app by done. cbn [mbind option_bind].
  rewrite read_bytes_app by (rewrite words_length; lia). cbn [mbind option_bind]. rewrite words_at_words by done. by destruct e.
Qed.

Lemma scan_encoded es fuel : Forall entry_ok es → (length es < fuel)%nat → scan_entries fuel (encoded es) = es.
Proof.
  revert fuel. induction es as [|e es IH]; intros [|fuel] Hes Hf; simpl in Hf; try lia; [done|].
  apply Forall_cons in Hes as [He Hes]. rewrite encoded_cons. cbn [scan_entries]. rewrite read_entry_encode by done.
  by rewrite IH by (done || lia).
Qed.

Lemma read_encoded es rest : Forall entry_ok es → read_entries (length es) (encoded es ++ rest) = Some es.
Proof.
  induction 1 as [|e es He _ IH]; [done|]. rewrite encoded_cons, <- app_assoc. cbn [length read_entries].
  rewrite read_entry_encode by done. cbn [mbind option_bind]. by rewrite IH.
Qed.

Lemma encoded_length_ge es : (8 * length es <= length (encoded es))%nat.
Proof.
  induction es as [|e es IH]; [done|]. rewrite encoded_cons, length_app. pose proof (encode_length e). unfold entry_bytes in *. simpl. lia.
Qed.

(** The byte position of an entry. *)
Definition offset_of (hdr : nat) (es : list (list Z * Z)) (i : nat) : nat := (hdr + length (encoded (take i es)))%nat.

Lemma entry_offsets_spec es cur i :
  (i < length es)%nat → entry_offsets (Z.of_nat cur) es !! i = Some (Z.of_nat (offset_of cur es i)).
Proof.
  revert cur i. induction es as [|e es IH]; intros cur i Hi; simpl in Hi; [lia|]. destruct i as [|i]; simpl.
  - unfold offset_of. simpl. by rewrite Nat.add_0_r.
  - rewrite <- encode_length, <- Nat2Z.inj_add, IH by lia. unfold offset_of. change (take (S i) (e :: es)) with (e :: take i es). rewrite encoded_cons, length_app.
    do 2 f_equal. lia.
Qed.

Lemma entry_offsets_length es cur : length (entry_offsets cur es) = length es.
Proof. revert cur. induction es as [|e es IH]; intros cur; simpl; [done|]. by rewrite IH. Qed.

Lemma offset_mono hdr es i j : (i <= j)%nat → (offset_of hdr es i <= offset_of hdr es j)%nat.
Proof.
  intros Hij. unfold offset_of. replace j with (i + (j - i))%nat by lia. rewrite <- take_take_drop, encoded_app, length_app. lia.
Qed.

Lemma offset_strict hdr es i j : (i < j <= length es)%nat → (offset_of hdr es i < offset_of hdr es j)%nat.
Proof.
  intros Hij. unfold offset_of. replace j with (i + (j - i))%nat by lia. rewrite <- take_take_drop, encoded_app, length_app.
  pose proof (encoded_length_ge (take (j - i) (drop i es))). rewrite length_take, length_drop in *. lia.
Qed.

Lemma region_entries hd es i j :
  (i <= j)%nat → region (hd ++ encoded es) (offset_of (length hd) es i) (offset_of (length hd) es j) = encoded (take (j - i) (drop i es)).
Proof.
  intros Hij. set (mid := take (j - i) (drop i es)).
  assert (Ej : take j es = take i es ++ mid) by (unfold mid; rewrite take_take_drop; f_equal; lia).
  assert (E : encoded es = encoded (take i es) ++ encoded mid ++ encoded (drop j es)).
  { rewrite <- !encoded_app, app_assoc, <- Ej. by rewrite take_drop. }
  unfold region, offset_of. rewrite Ej, E, encoded_app, <- drop_drop, drop_app_length, drop_app_length, length_app.
  rewrite take_app_le by lia. apply take_ge. lia.
Qed.

(** ** A file and its samples *)

(** Every thousandth position of a list. *)
Definition samples_of {A} (l k : list A) : Prop :=
  Z.of_nat (length k) = n_samples (Z.of_nat (length l)) ∧ ∀ i x, k !! i = Some x → l !! (i * 1000)%nat = Some x.

Lemma n_samples_spec n : 0 <= n → (n_samples n - 1) * 1000 < n <= n_samples n * 1000 ∨ n = 0 ∧ n_samples n = 0.
Proof.
  intros Hn. unfold n_samples, kSampleRate. destruct (decide (n = 0)) as [->|]; [by right|left].
  pose proof (Z.div_mod (n + 1000 - 1) 1000). pose proof (Z.mod_pos_bound (n + 1000 - 1) 1000). lia.
Qed.

Lemma sampled_spec {A} (l : list A) : ∃ k, sampled l (n_samples (Z.of_nat (length l))) = Some k ∧ samples_of l k.
Proof.
  unfold sampled. set (ns := n_samples _). pose proof (n_samples_spec (Z.of_nat (length l)) ltac:(lia)) as Hns. fold ns in Hns.
  assert (is_Some (mapM (λ i, l !! Z.to_nat (i * kSampleRate)) (seqZ 0 ns))) as [k Hk].
  { apply mapM_is_Some_2, Forall_forall. intros i Hi%elem_of_seqZ. apply lookup_lt_is_Some. unfold kSampleRate. lia. }
  exists k. split; [done|]. apply mapM_Some in Hk. split.
  - rewrite <- (Forall2_length _ _ _ Hk), length_seqZ. fold ns. lia.
  - intros i x Hx. destruct (Forall2_lookup_r _ _ _ _ _ Hk Hx) as (j & Hj & E). apply lookup_seqZ in Hj as [-> Hj].
    unfold kSampleRate in E. rewrite <- E. f_equal. lia.
Qed.

(** The file of a direction holds the entries [es] in order. *)
Record side_ok (x : side) (es : list (list Z * Z)) : Prop := mkSideOk {
  sd_sorted : StronglySorted (λ a b, kle a.1 b.1) es;
  sd_entries : Forall entry_ok es;
  sd_n : n_entries_ x = Z.of_nat (length es);
  sd_so : length (sampled_offsets_ x) = length (histogram_ x);
  sd_off : ∀ k off, sampled_offsets_ x !! k = Some off →
    off = Z.of_nat (offset_of (Z.to_nat (data_offset x)) es (k * 1000)) ∧ (k * 1000 < length es)%nat;
  sd_hist : samples_of es.*1 (histogram_ x);
  sd_size : file_size_ x = Z.of_nat (length (file x));
  sd_file : file x = le_bytes 4 (Z.of_nat (length es)) ++ le_bytes 4 (n_samples (Z.of_nat (length es)))
    ++ u64s (sampled_offsets_ x) ++ encoded es
}.

Lemma u64s_length l : length (u64s l) = (8 * length l)%nat.
Proof. unfold u64s. induction l as [|x l IH]; simpl; [done|]. simpl in IH. lia. Qed.

#[global] Instance direction_eq_dec : EqDecision Direction.
Proof. solve_decision. Defined.

(** What a write of one direction leaves alone. *)
Record wrote (dir : Direction) (t t' : StringAttrIndex) : Prop := mkWrote {
  wr_other : ∀ d, d ≠ dir → sides t' d = sides t d;
  wr_delta : delta_ (sides t' dir) = delta_ (sides t dir);
  wr_n : n_vectors t' = n_vectors t ∧ base_n_vectors_ t' = base_n_vectors_ t;
  wr_rest : strings_ t' = strings_ t ∧ delta_bytes_ t' = delta_bytes_ t
}.

Lemma sides_set dir x t d : sides (set_side dir x t) d = if decide (d = dir) then x else sides t d.
Proof. by destruct d, dir. Qed.

(** Writing entries sorts them and leaves a file that holds them. *)
Lemma write_sorted_file_ok dir entries t :
  Forall entry_ok entries →
  ∃ es t', write_sorted_file dir entries t = Some (es, t') ∧ es ≡ₚ entries ∧ side_ok (sides t' dir) es ∧ wrote dir t t'.
Proof.
  intros He. unfold write_sorted_file. destruct (sort_entries_spec entries He) as (es & -> & Hp & Hs). cbn [mbind option_bind].
  set (n := Z.of_nat (length es)). set (offs := entry_offsets _ es).
  destruct (sampled_spec offs) as (so & Hso & Hl & Hlo).
  replace (length offs) with (length es) in Hso, Hl by (unfold offs; by rewrite entry_offsets_length). fold n in Hso, Hl.
  destruct (sampled_spec es.*1) as (h & Hh & Hhl). replace (length es.*1) with (length es) in Hh by (by rewrite length_fmap). fold n in Hh.
  rewrite Hso. cbn [mbind option_bind]. rewrite Hh. cbn [mbind option_bind]. eexists es, _. split; [done|]. split; [done|].
  assert (Forall entry_ok es) as Heo by (by rewrite Hp).
  split; [|split; simpl; try done; [by intros [] ?; destruct dir|by destruct dir]].
  cbn [sides]. rewrite sides_set, decide_True by done. cbn [sides].
  assert (Hd : header_size (n_samples n) = header_size (Z.of_nat (length so))) by congruence.
  split; unfold data_offset; cbn [n_entries_ sampled_offsets_ histogram_ file_size_ file]; try done.
  - destruct Hhl as [Hhl _]. rewrite length_fmap in Hhl. fold n in Hhl. lia.
  - intros k off Hk. specialize (Hlo k off Hk). pose proof (lookup_lt_Some _ _ _ Hlo) as Hlt.
    unfold offs in Hlo, Hlt. rewrite entry_offsets_length in Hlt. split; [|done].
    replace (header_size (n_samples n)) with (Z.of_nat (Z.to_nat (header_size (Z.of_nat (length so))))) in Hlo
      by (rewrite Hd; unfold header_size; lia).
    rewrite entry_offsets_spec in Hlo by done. congruence.
Qed.

Lemma side_file x es :
  side_ok x es → ∃ hd, file x = hd ++ encoded es ∧ length hd = Z.to_nat (data_offset x).
Proof.
  intros H.
  exists (le_bytes 4 (Z.of_nat (length es)) ++ le_bytes 4 (n_samples (Z.of_nat (length es))) ++ u64s (sampled_offsets_ x)).
  rewrite (sd_file x es H). split; [by rewrite <- !app_assoc|].
  rewrite !length_app, !le_bytes_length, u64s_length. unfold data_offset, header_size. lia.
Qed.

Lemma side_end x es : side_ok x es → file_size_ x = Z.of_nat (offset_of (Z.to_nat (data_offset x)) es (length es)).
Proof.
  intros H. rewrite (sd_size x es H). destruct (side_file x es H) as (hd & -> & Hl). unfold offset_of.
  rewrite length_app, Hl, take_ge by done. done.
Qed.

(** ** Ranges of a file *)

(** [k] is in [\[lo, hi)], where an empty [hi] stands for no bound. *)
Definition in_range_of (lo hi k : list Z) : Prop :=
  kle lo k ∧ (hi = [] ∨ lex_lt (string_attr_view k) (string_attr_view hi) = true).

Lemma sorted_keys_le (es : list (list Z * Z)) i j e e' :
  StronglySorted (λ a b, kle a.1 b.1) es → es !! i = Some e → es !! j = Some e' → (i <= j)%nat → kle e.1 e'.1.
Proof.
  intros Hs Hi Hj Hij. destruct (decide (i = j)) as [->|]; [simplify_eq; apply kle_refl|].
  rewrite strongly_sorted_lookup in Hs. by apply (Hs i j e e' Hi Hj); lia.
Qed.

Lemma sample_entry x es k key :
  side_ok x es → histogram_ x !! k = Some key → ∃ e, es !! (k * 1000)%nat = Some e ∧ e.1 = key.
Proof.
  intros H Hk. destruct (sd_hist x es H) as [_ Hh]. specialize (Hh k key Hk). apply list_lookup_fmap_Some in Hh as (e & -> & He). eauto.
Qed.

Lemma sample_offset x es k :
  side_ok x es → (k < length (histogram_ x))%nat →
  sampled_offsets_ x !! k = Some (Z.of_nat (offset_of (Z.to_nat (data_offset x)) es (k * 1000))).
Proof.
  intros H Hk. rewrite <- (sd_so x es H) in Hk. destruct (lookup_lt_is_Some_2 _ _ Hk) as [off Ho]. rewrite Ho.
  destruct (sd_off x es H k off Ho) as [-> _]. done.
Qed.

Lemma samples_sorted x es : side_ok x es → Forall key_ok (histogram_ x) ∧ StronglySorted kle (histogram_ x).
Proof.
  intros H. split.
  - apply Forall_lookup. intros k key Hk. destruct (sample_entry x es k key H Hk) as (e & He & <-).
    pose proof (sd_entries x es H) as Hf. rewrite Forall_lookup in Hf. by apply (Hf _ _ He).
  - apply strongly_sorted_lookup. intros i j a b Ha Hb Hij.
    destruct (sample_entry x es i a H Ha) as (e & He & <-). destruct (sample_entry x es j b H Hb) as (e' & He' & <-).
    eapply sorted_keys_le; [apply (sd_sorted x es H)|done|done|lia].
Qed.

(** No entry below a sample that is below [lo] is in the range. *)
Lemma range_from x es lo l :
  side_ok x es → key_ok lo → lower_bound (histogram_ x) lo = Some l →
  ∀ k e, es !! k = Some e → kle lo e.1 → ((l - 1) * 1000 <= k)%nat.
Proof.
  intros H Hlo Hl k e He Hk. destruct (samples_sorted x es H) as [Hko Hso].
  destruct (str_lower_bound_spec _ lo Hko Hlo Hso) as (l0 & E & Hle & Hi). rewrite Hl in E. injection E as <-.
  destruct (decide ((l - 1) * 1000 <= k)%nat) as [|Hn]; [done|]. exfalso.
  destruct (lookup_lt_is_Some_2 (histogram_ x) (l - 1)) as [y Hy]; [lia|].
  assert (lex_lt (string_attr_view y) (string_attr_view lo) = true) as Hlt by (apply (Hi (l - 1)%nat y Hy); lia).
  destruct (sample_entry x es _ y H Hy) as (e' & He' & <-).
  pose proof (sorted_keys_le es k _ e e' (sd_sorted x es H) He He' ltac:(lia)) as Hee. unfold kle in *.
  by rewrite (lex_le_lt_trans _ _ _ Hee Hlt) in Hk.
Qed.

(** No entry from a sample that is not below [hi] on is in the range. *)
Lemma range_to x es hi r :
  side_ok x es → key_ok hi → lower_bound (histogram_ x) hi = Some r → (r < length (histogram_ x))%nat →
  ∀ k e, es !! k = Some e → lex_lt (string_attr_view e.1) (string_attr_view hi) = true → (k < r * 1000)%nat.
Proof.
  intros H Hhi Hr Hlt k e He Hk. destruct (samples_sorted x es H) as [Hko Hso].
  destruct (str_lower_bound_spec _ hi Hko Hhi Hso) as (r0 & E & Hle & Hi). rewrite Hr in E. injection E as <-.
  destruct (decide (k < r * 1000)%nat) as [|Hn]; [done|]. exfalso.
  destruct (lookup_lt_is_Some_2 (histogram_ x) r) as [y Hy]; [lia|].
  destruct (sample_entry x es _ y H Hy) as (e' & He' & <-).
  pose proof (sorted_keys_le es _ k e' e (sd_sorted x es H) He' He ltac:(lia)) as Hee. unfold kle in Hee.
  pose proof (proj2 (Hi r e'.1 Hy) (lex_le_lt_trans _ _ _ Hee Hk)). lia.
Qed.

Lemma so_or_end x es k :
  side_ok x es →
  ∃ j, default (file_size_ x) (sampled_offsets_ x !! k) = Z.of_nat (offset_of (Z.to_nat (data_offset x)) es j)
  ∧ (j <= length es)%nat ∧ (j = (k * 1000)%nat ∨ j = length es) ∧ (sampled_offsets_ x !! k = None → j = length es).
Proof.
  intros H. destruct (sampled_offsets_ x !! k) as [off|] eqn:E.
  - destruct (sd_off x es H k off E) as [-> Hlt]. exists (k * 1000)%nat. split_and!; [done|lia|by left|done].
  - exists (length es). rewrite (side_end x es H). split_and!; [done|lia|by right|done].
Qed.

(** The sample that ends the range. *)
Lemma range_end x es lo hi :
  side_ok x es → (hi = [] ∨ key_ok hi) →
  ∃ r, (if is_empty hi then Some (length (sampled_offsets_ x))
        else r ← lower_bound (histogram_ x) hi; Some (if Nat.ltb r (length (sampled_offsets_ x)) then S r else r)) = Some r
  ∧ ∀ k e, es !! k = Some e → in_range_of lo hi e.1 → (k < r * 1000)%nat ∨ sampled_offsets_ x !! r = None.
Proof.
  intros H Hhi. destruct (samples_sorted x es H) as [Hko Hso].
  destruct (is_empty hi) eqn:Ee; [eexists; split; [done|]; intros; right; by apply lookup_ge_None|].
  destruct Hhi as [->|Hhi]; [done|].
  destruct (str_lower_bound_spec _ hi Hko Hhi Hso) as (r & Hr & Hrle & _). rewrite Hr. cbn [mbind option_bind]. eexists. split; [done|].
  intros k e He [_ [->|Hk]]; [done|]. rewrite (sd_so x es H). destruct (Nat.ltb_spec r (length (histogram_ x))) as [Hlt|Hge].
  - left. pose proof (range_to x es hi r H Hhi Hr Hlt k e He Hk). lia.
  - right. apply lookup_ge_None. rewrite (sd_so x es H). lia.
Qed.

Lemma no_samples x es : side_ok x es → histogram_ x = [] → es = [].
Proof.
  intros H Eh. destruct (sd_hist x es H) as [Hn _]. rewrite Eh, length_fmap in Hn. simpl in Hn.
  destruct es; [done|]. pose proof (n_samples_spec (Z.of_nat (length (p :: es))) ltac:(lia)). simpl in *. lia.
Qed.

(** The bytes of a range hold every entry in it. *)
Lemma byte_range_covers dir t es lo hi :
  side_ok (sides t dir) es → key_ok lo → (hi = [] ∨ key_ok hi) →
  es = [] ∧ byte_range_for dir lo hi t = Some (0, 0) ∨
  ∃ i j, byte_range_for dir lo hi t = Some (Z.of_nat (offset_of (Z.to_nat (data_offset (sides t dir))) es i),
                                            Z.of_nat (offset_of (Z.to_nat (data_offset (sides t dir))) es j))
  ∧ (j <= length es)%nat ∧ ∀ k e, es !! k = Some e → in_range_of lo hi e.1 → (i <= k < j)%nat.
Proof.
  intros H Hlo Hhi. unfold byte_range_for. set (x := sides t dir) in *.
  destruct (samples_sorted x es H) as [Hko Hso].
  destruct (histogram_ x) as [|h0 hs] eqn:Eh; [left; split; [by apply (no_samples x)|done]|].
  destruct (sampled_offsets_ x) as [|o0 os] eqn:Eo; [pose proof (sd_so x es H) as Hl; by rewrite Eh, Eo in Hl|].
  assert (0 < length (histogram_ x))%nat as Hpos by (rewrite Eh; simpl; lia).
  right. rewrite <- Eh, <- Eo in *. clear h0 hs Eh o0 os Eo.
  destruct (str_lower_bound_spec _ lo Hko Hlo Hso) as (l & Hl & Hle & _). rewrite Hl. cbn [mbind option_bind].
  pose proof (range_from x es lo l H Hlo Hl) as Hfrom.
  destruct (range_end x es lo hi H Hhi) as (r & -> & Hto). cbn [mbind option_bind].
  rewrite (sample_offset x es (l - 1)%nat H) by lia. cbn [mbind option_bind].
  destruct (so_or_end x es r H) as (j & -> & Hj & Hjr & Hjn). exists ((l - 1) * 1000)%nat, j. split; [done|]. split; [done|].
  intros k e He Hin. pose proof (Hfrom k e He (proj1 Hin)). pose proof (lookup_lt_Some _ _ _ He) as Hk.
  destruct (Hto k e He Hin) as [?|Hn]; [destruct Hjr; lia|]. rewrite (Hjn Hn). lia.
Qed.

(** ** Scans *)

Lemma region_drop (f : list Z) a b n : drop n (region f a b) = region f (a + n) b.
Proof. unfold region. rewrite skipn_firstn_comm, drop_drop. f_equal. lia. Qed.

Lemma scan_range_entries dir t es i j :
  side_ok (sides t dir) es → (j <= length es)%nat →
  scan_range dir (Z.of_nat (offset_of (Z.to_nat (data_offset (sides t dir))) es i))
    (Z.of_nat (offset_of (Z.to_nat (data_offset (sides t dir))) es j)) t
  = Some (take (j - i) (drop i es)).
Proof.
  intros H Hj. unfold scan_range. set (x := sides t dir) in *. set (off := offset_of (Z.to_nat (data_offset x)) es).
  assert (off j <= length (file x))%nat as Hend.
  { rewrite <- (Nat2Z.id (length (file x))), <- (sd_size x es H), (side_end x es H), Nat2Z.id. by apply offset_mono. }
  destruct (Z.leb_spec (Z.of_nat (off j)) (Z.of_nat (off i))) as [Hle|Hlt].
  - destruct (decide (j <= i)%nat) as [Hji|Hji]; [by replace (j - i)%nat with 0%nat by lia|].
    assert (off i < off j)%nat by (apply offset_strict; lia). lia.
  - assert (i < j)%nat as Hij.
    { destruct (decide (i < j)%nat) as [|Hn]; [done|]. assert (off j <= off i)%nat by (apply offset_mono; lia). lia. }
    rewrite (proj2 (Z.ltb_ge _ _)) by lia. f_equal. rewrite region_drop.
    assert (0 <= Z.of_nat (off i) / SECTOR_LEN * SECTOR_LEN <= Z.of_nat (off i)) as Hal.
    { change SECTOR_LEN with 4096. pose proof (Z.div_mod (Z.of_nat (off i)) 4096). pose proof (Z.mod_pos_bound (Z.of_nat (off i)) 4096). lia. }
    rewrite <- Z2Nat.inj_add, Zplus_minus, !Nat2Z.id by lia.
    destruct (side_file x es H) as (hd & -> & Hl). unfold off. rewrite <- Hl, region_entries by lia.
    apply scan_encoded; [by apply Forall_take, Forall_drop, (sd_entries x)|].
    pose proof (encoded_length_ge (take (j - i) (drop i es))). rewrite length_take, length_drop in *. lia.
Qed.

Lemma select_spec {A} (p : A → option bool) (f : A → bool) l :
  (∀ x, x ∈ l → p x = Some (f x)) → select p l = Some (filter (λ x, f x = true) l).
Proof.
  induction l as [|x l IH]; intros H; simpl; [done|]. rewrite H by (by left). cbn [mbind option_bind].
  rewrite IH by (intros y Hy; apply H; by right). cbn [mbind option_bind]. rewrite filter_cons. by destruct (f x).
Qed.

(** ** The id lists of a pre-filter *)

Lemma unique_elem v l : v ∈ unique l ↔ v ∈ l.
Proof.
  induction l as [|x l IH]; [done|]. destruct l as [|y l]; [done|].
  change (v ∈ (if x =? y then unique (y :: l) else x :: unique (y :: l)) ↔ v ∈ x :: y :: l).
  destruct (Z.eqb_spec x y) as [->|]; [rewrite IH; set_solver|]. rewrite elem_of_cons, IH. set_solver.
Qed.

Lemma unique_sorted l : StronglySorted Z.le l → StronglySorted Z.lt (unique l).
Proof.
  induction 1 as [|x l Hs IH Hx]; [constructor|]. destruct l as [|y l]; [repeat constructor|].
  change (StronglySorted Z.lt (if x =? y then unique (y :: l) else x :: unique (y :: l))).
  destruct (Z.eqb_spec x y) as [->|Hne]; [done|]. constructor; [done|]. apply Forall_forall. intros z Hz. rewrite unique_elem in Hz.
  apply Forall_cons in Hx as [Hxy _]. apply StronglySorted_cons in Hs as [Hy _].
  apply elem_of_cons in Hz as [->|Hz]; [lia|]. rewrite Forall_forall in Hy. specialize (Hy z Hz). lia.
Qed.

Lemma sort_unique_spec l : StronglySorted Z.lt (sort_unique l) ∧ ∀ v, v ∈ sort_unique l ↔ v ∈ l.
Proof.
  split.
  - apply unique_sorted, StronglySorted_merge_sort; [intros ? ? ?; lia|intros ? ?; lia].
  - intros v. unfold sort_unique. by rewrite unique_elem, merge_sort_Permutation.
Qed.

(** ** Pending inserts *)

Definition delta_ok (d : list (list Z * list Z)) : Prop :=
  Forall (λ e, key_ok e.1 ∧ Forall is_u32 e.2) d
  ∧ StronglySorted (λ a b, lex_lt (string_attr_view a.1) (string_attr_view b.1) = true) d.

Lemma lex_lt_kle a b : lex_lt (string_attr_view a) (string_attr_view b) = true → kle a b.
Proof.
  unfold kle. intros H. apply not_true_iff_false. intros H'. pose proof (lex_trans _ _ _ H H') as K. by rewrite lex_irrefl in K.
Qed.

Lemma delta_keys d : delta_ok d → Forall key_ok d.*1 ∧ StronglySorted kle d.*1.
Proof.
  intros [Hf Hs]. split; [apply Forall_fmap; eapply Forall_impl; [exact Hf|]; by intros e []|].
  clear Hf. induction Hs as [|e d Hs IH He]; simpl; constructor; [done|]. apply Forall_fmap. eapply Forall_impl; [exact He|].
  intros e' H. by apply lex_lt_kle.
Qed.

Lemma push_delta_ok d key id :
  delta_ok d → key_ok key → is_u32 id →
  ∃ d', push_delta d key id = Some d' ∧ delta_ok d' ∧ delta_entries d' ≡ₚ (key, id) :: delta_entries d.
Proof.
  intros [Hf Hs] Hk Hid. enough (∃ d', push_delta d key id = Some d' ∧ delta_ok d' ∧ delta_entries d' ≡ₚ (key, id) :: delta_entries d
    ∧ ∀ k, k ∈ d'.*1 → k = key ∨ k ∈ d.*1) by naive_solver.
  induction Hs as [|e d Hs IH He]; cbn [push_delta].
  { exists [(key, [id])]. split_and!; [done| |done|set_solver]. split; [|repeat constructor]. apply Forall_singleton. split; [done|by apply Forall_singleton]. }
  apply Forall_cons in Hf as [[Hek Hei] Hf]. rewrite (less_spec e.1 key) by done. cbn [mbind option_bind].
  destruct (lex_lt (string_attr_view e.1) (string_attr_view key)) eqn:E.
  - destruct (IH Hf) as (d' & -> & [Hf' Hs'] & Hp & Hin). exists (e :: d'). split; [done|]. split; [|split].
    3: { intros k. simpl. rewrite !elem_of_cons. intros [->|Hk']; [by right; left|]. destruct (Hin k Hk') as [->|?]; [by left|by right; right]. }
    + split; [by constructor|]. constructor; [done|]. apply Forall_forall. intros x Hx.
      destruct (Hin x.1) as [->|Hd]; [by apply list_elem_of_fmap_2|done|].
      apply list_elem_of_fmap in Hd as (y & -> & Hy). rewrite Forall_forall in He. by apply He.
    + change (delta_entries (e :: d')) with (map (λ i, (e.1, i)) e.2 ++ delta_entries d').
      change (delta_entries (e :: d)) with (map (λ i, (e.1, i)) e.2 ++ delta_entries d). rewrite Hp. by rewrite Permutation_middle.
  - rewrite (less_spec key e.1) by done. cbn [mbind option_bind].
    destruct (lex_lt (string_attr_view key) (string_attr_view e.1)) eqn:E2; eexists; (split; [done|]).
    + split; [|split; [done|intros k; simpl; rewrite !elem_of_cons; tauto]]. split; [constructor; [split; [done|by apply Forall_singleton]|by constructor]|].
      constructor; [by constructor|]. constructor; [done|]. eapply Forall_impl; [exact He|]. intros y Hy. by eapply lex_trans.
    + assert (e.1 = key) as <- by (apply key_view_inj; [done|done|by apply lex_total]).
      split; [|split; [|simpl; auto]].
      * split; [constructor; [split; [done|apply Forall_app; split; [done|by apply Forall_singleton]]|done]|by constructor].
      * unfold delta_entries. simpl. rewrite map_app, <- app_assoc. simpl. by rewrite Permutation_middle.
Qed.

Lemma delta_entries_elem d k v : (k, v) ∈ delta_entries d ↔ ∃ ids, (k, ids) ∈ d ∧ v ∈ ids.
Proof.
  induction d as [|[k' ids] d IH]; [split; [set_solver|intros (? & ? & ?); set_solver]|].
  change (delta_entries ((k', ids) :: d)) with (map (λ i, (k', i)) ids ++ delta_entries d).
  rewrite elem_of_app, IH, list_elem_of_fmap. split.
  - intros [(i & [= -> ->] & Hi)|(l & Hin & Hv)]; [exists ids|exists l]; set_solver.
  - intros (l & [[= -> ->]|Hin]%elem_of_cons & Hv); [left; eauto|right; eauto].
Qed.

Lemma delta_ok_drop d n : delta_ok d → delta_ok (drop n d).
Proof.
  intros [Hf Hs]. split; [by apply Forall_drop|]. rewrite <- (take_drop n d) in Hs. by apply StronglySorted_app_1_r in Hs.
Qed.

Lemma delta_below_spec hi d :
  delta_ok d → (hi = [] ∨ key_ok hi) →
  ∃ d', delta_below hi d = Some d' ∧ ∀ e, e ∈ d' ↔ e ∈ d ∧ (hi = [] ∨ lex_lt (string_attr_view e.1) (string_attr_view hi) = true).
Proof.
  intros [Hf Hs] Hhi. destruct Hhi as [->|Hhi].
  { exists d. split; [clear; induction d as [|e d IH]; simpl; [done|]; cbn [mbind option_bind]; by rewrite IH|]. naive_solver. }
  destruct (is_empty hi) eqn:Ee.
  { destruct hi; [|done]. exists d. split; [clear; induction d as [|e d IH]; simpl; [done|]; cbn [mbind option_bind]; by rewrite IH|]. naive_solver. }
  induction Hs as [|e d Hs IH He]; cbn [delta_below]; [exists []; set_solver|].
  apply Forall_cons in Hf as [[Hek _] Hf]. rewrite Ee, (less_spec e.1 hi) by done. cbn [mbind option_bind].
  destruct (lex_lt (string_attr_view e.1) (string_attr_view hi)) eqn:E.
  - destruct (IH Hf) as (d' & -> & Hd). exists (e :: d'). split; [done|]. intros x. rewrite !elem_of_cons, Hd. naive_solver.
  - exists []. split; [done|]. intros x. split; [set_solver|]. intros [Hx [->|Hlt]]; [done|]. exfalso.
    apply elem_of_cons in Hx as [->|Hx]; [congruence|]. rewrite Forall_forall in He. specialize (He x Hx).
    by rewrite (lex_trans _ _ _ He Hlt) in E.
Qed.

Lemma elem_of_drop_lookup {A} (l : list A) n x : x ∈ drop n l ↔ ∃ i, l !! i = Some x ∧ (n <= i)%nat.
Proof.
  rewrite list_elem_of_lookup. split.
  - intros [i Hi]. rewrite lookup_drop in Hi. exists (n + i)%nat. split; [done|lia].
  - intros (i & Hi & Hn). exists (i - n)%nat. rewrite lookup_drop. by replace (n + (i - n))%nat with i by lia.
Qed.

Lemma lower_bound_drop d lo l :
  delta_ok d → key_ok lo → lower_bound d.*1 lo = Some l → ∀ e, e ∈ drop l d ↔ e ∈ d ∧ kle lo e.1.
Proof.
  intros Hd Hlo Hl e. destruct (delta_keys d Hd) as [Hk Hs].
  destruct (str_lower_bound_spec _ lo Hk Hlo Hs) as (l' & E & _ & Hi). rewrite Hl in E. injection E as <-.
  rewrite elem_of_drop_lookup, list_elem_of_lookup. unfold kle. split.
  - intros (i & He & Hn). split; [eauto|]. apply not_true_iff_false. intros Ht.
    apply (Hi i e.1) in Ht; [lia|]. by rewrite list_lookup_fmap, He.
  - intros ((i & He) & Hle). exists i. split; [done|]. apply Nat.nlt_ge. intros Hlt.
    apply (Hi i e.1) in Hlt; [congruence|]. by rewrite list_lookup_fmap, He.
Qed.

Lemma delta_range_spec dir lo hi t :
  delta_ok (delta_ (sides t dir)) → key_ok lo → (hi = [] ∨ key_ok hi) →
  ∃ d, delta_range dir lo hi t = Some d ∧ ∀ e, e ∈ d ↔ e ∈ delta_ (sides t dir) ∧ in_range_of lo hi e.1.
Proof.
  intros Hd Hlo Hhi. unfold delta_range. destruct (delta_keys _ Hd) as [Hk Hs].
  destruct (str_lower_bound_spec _ lo Hk Hlo Hs) as (l & Hl & _). rewrite Hl. cbn [mbind option_bind].
  destruct (delta_below_spec hi (drop l (delta_ (sides t dir)))) as (d & -> & Hin); [by apply delta_ok_drop|done|].
  exists d. split; [done|]. intros e. rewrite Hin, (lower_bound_drop _ lo l) by done. unfold in_range_of. tauto.
Qed.

(** ** Pre-filters *)

(** Keys in the range of a query are those that start with it. *)
Lemma in_range_starts lo k :
  query_ok lo → key_ok k → in_range_of lo (next_string_attr_prefix lo) k ↔ string_attr_starts_with k lo = true.
Proof.
  intros Hlo Hk. pose proof (in_bounds_spec lo k Hlo Hk) as H. unfold in_bounds in H. unfold in_range_of, kle.
  rewrite (less_spec k lo) in H by (done || apply Hlo). cbn [mbind option_bind] in H.
  destruct (lex_lt (string_attr_view k) (string_attr_view lo)); [injection H as <-; naive_solver|].
  destruct (next_prefix_ok lo Hlo) as [E|Hhi]; [rewrite E in *; injection H as <-; naive_solver|].
  destruct (is_empty (next_string_attr_prefix lo)) eqn:E.
  - destruct (next_string_attr_prefix lo); [|done]. injection H as <-. naive_solver.
  - rewrite less_spec in H by done. injection H as <-. split; [intros [_ [E'|?]]; [by rewrite E' in E|done]|auto].
Qed.

Lemma elem_of_concat {A} (ls : list (list A)) x : x ∈ concat ls ↔ ∃ l, x ∈ l ∧ l ∈ ls.
Proof. rewrite list_elem_of_In, in_concat. setoid_rewrite list_elem_of_In. naive_solver. Qed.

Lemma scan_guard dir b e t : (if b <? e then scan_range dir b e t else Some []) = scan_range dir b e t.
Proof. unfold scan_range. by destruct (Z.ltb_spec b e), (Z.leb_spec e b); try lia. Qed.

(** A scan of a range reads entries, those in the range among them. *)
Lemma scan_covers dir t es lo hi :
  side_ok (sides t dir) es → key_ok lo → (hi = [] ∨ key_ok hi) →
  ∃ b e scanned, byte_range_for dir lo hi t = Some (b, e) ∧ scan_range dir b e t = Some scanned
  ∧ (∀ x, x ∈ scanned → x ∈ es) ∧ ∀ x, x ∈ es → in_range_of lo hi x.1 → x ∈ scanned.
Proof.
  intros H Hlo Hhi. destruct (byte_range_covers dir t es lo hi H Hlo Hhi) as [[-> Hb]|(i & j & Hb & Hj & Hin)].
  { exists 0, 0, []. split_and!; [done|done|set_solver|set_solver]. }
  eexists _, _, _. split; [exact Hb|]. split; [by apply scan_range_entries|]. split.
  - intros x Hx. eapply subseteq_drop, subseteq_take. exact Hx.
  - intros x [k Hk]%list_elem_of_lookup Hr. specialize (Hin k x Hk Hr). apply list_elem_of_lookup. exists (k - i)%nat.
    rewrite lookup_take_lt, lookup_drop by lia. by replace (i + (k - i))%nat with k by lia.
Qed.

(** The strings of one direction that a pre-filter answers with. *)
Lemma string_pre_filter_spec dir t es q :
  side_ok (sides t dir) es → delta_ok (delta_ (sides t dir)) → query_ok q →
  ∃ l, pre_filter dir q t = Some l ∧ StronglySorted Z.lt l
  ∧ ∀ v, v ∈ l ↔ ∃ k, (k, v) ∈ es ++ delta_entries (delta_ (sides t dir)) ∧ string_attr_starts_with k (key_of dir q) = true.
Proof.
  intros Hside Hd Hq. apply (query_of_ok dir) in Hq. set (lo := key_of dir q) in *. unfold pre_filter. fold lo.
  pose proof (next_prefix_ok lo Hq) as Hhi. pose proof (sd_entries _ _ Hside) as Hes. rewrite Forall_forall in Hes.
  destruct (scan_covers dir t es lo _ Hside (proj1 Hq) Hhi) as (b & e & scanned & -> & Hscan & Hin & Hcov).
  cbn [mbind option_bind]. rewrite scan_guard, Hscan. cbn [mbind option_bind].
  rewrite (select_spec _ (λ x, string_attr_starts_with x.1 lo))
    by (intros x Hx; apply in_bounds_spec; [done|]; by apply Hes, Hin). cbn [mbind option_bind].
  destruct (delta_range_spec dir lo _ t Hd (proj1 Hq) Hhi) as (d & -> & Hdin). cbn [mbind option_bind].
  eexists. split; [done|]. destruct (sort_unique_spec ((filter (λ x, string_attr_starts_with x.1 lo = true) scanned).*2 ++ concat d.*2)) as [Hs Hel].
  split; [exact Hs|]. intros v. rewrite Hel, elem_of_app. clear Hel Hs. split.
  - intros [Hv|Hv].
    + apply list_elem_of_fmap in Hv as ([k v'] & -> & Hk). apply list_elem_of_filter in Hk as [Hst Hk]. exists k.
      rewrite elem_of_app. auto.
    + apply elem_of_concat in Hv as (ids & Hv & Hids). apply list_elem_of_fmap in Hids as ([k ids'] & -> & Hk).
      apply Hdin in Hk as [Hk Hr]. exists k. rewrite elem_of_app, delta_entries_elem. split; [right; eauto|].
      apply in_range_starts; [done| |done]. destruct Hd as [Hf _]. rewrite Forall_forall in Hf. by apply (Hf _ Hk).
  - intros (k & Hk & Hst). apply elem_of_app in Hk as [Hk|Hk].
    + left. apply list_elem_of_fmap. exists (k, v). split; [done|]. apply list_elem_of_filter. split; [done|]. apply Hcov; [done|].
      apply in_range_starts; [done|by apply (Hes _ Hk)|done].
    + right. apply delta_entries_elem in Hk as (ids & Hk & Hv). apply elem_of_concat. exists ids. split; [done|].
      apply list_elem_of_fmap. exists (k, ids). split; [done|]. apply Hdin. split; [done|].
      apply in_range_starts; [done| |done]. destruct Hd as [Hf _]. rewrite Forall_forall in Hf. by apply (Hf _ Hk).
Qed.

(** ** LIKE patterns *)

Lemma like_app s1 p1 s2 p2 : like s1 p1 → like s2 p2 → like (s1 ++ s2) (p1 ++ p2).
Proof. induction 1; intros H2; simpl; [done|rewrite <- app_assoc; by constructor; auto|constructor; auto|constructor; auto]. Qed.

Lemma like_rev s p : like s p → like (rev s) (rev p).
Proof.
  induction 1 as [|s1 s2 p H IH|c s p H IH|c s p Hp Hu H IH]; simpl; [constructor| | |].
  - rewrite rev_app_distr. apply like_app; [done|]. rewrite <- (app_nil_r (rev s1)). constructor. constructor.
  - apply like_app; [done|]. repeat constructor.
  - apply like_app; [done|]. by repeat constructor.
Qed.

Lemma fixed_prefix_plain p : plain (take (fixed_prefix_len p) p).
Proof.
  induction p as [|c p [IH1 IH2]]; simpl; [split; set_solver|]. destruct (is_wild c) eqn:E; [split; set_solver|].
  unfold is_wild in E. rewrite orb_false_iff, !Z.eqb_neq in E. destruct E as [E1 E2]. split; simpl; rewrite not_elem_of_cons; auto.
Qed.

Lemma like_has_prefix s p : like s p → take (fixed_prefix_len p) p `prefix_of` s.
Proof.
  rewrite <- (take_drop (fixed_prefix_len p) p) at 1. rewrite like_plain_app by apply fixed_prefix_plain.
  intros (s' & -> & _). by exists s'.
Qed.

Lemma fixed_suffix_rev p : drop (length p - fixed_prefix_len (rev p)) p = rev (take (fixed_prefix_len (rev p)) (rev p)).
Proof. by rewrite firstn_rev, rev_involutive. Qed.

Lemma text_drop s n : text s → text (drop n s).
Proof. apply Forall_drop. Qed.
Lemma text_take s n : text s → text (take n s).
Proof. apply Forall_take. Qed.

(** Strings that match a pattern are in its range. *)
Lemma like_range_starts pattern k dir range_key :
  like_range pattern = (dir, range_key) → like (string_attr_view k) (string_attr_view pattern) →
  string_attr_starts_with (key_of dir k) range_key = true.
Proof.
  unfold like_range. set (p := string_attr_view pattern). intros E H. pose proof (attr_view_text pattern) as Ht. fold p in Ht.
  apply starts_with_prefix.
  assert (string_attr_view range_key = [] ∨ dir = PREFIX ∧ range_key = like_fixed_prefix pattern
    ∨ dir = SUFFIX ∧ range_key = reverse_string_attr (like_fixed_suffix pattern)) as [->|[[-> ->]|[-> ->]]]
    by (destruct (head p), (last p); repeat case_match; simplify_eq; auto); [by apply prefix_nil| |].
  - unfold like_fixed_prefix. fold p. rewrite view_pack by (by apply text_take). simpl. by apply like_has_prefix.
  - rewrite view_reverse. unfold like_fixed_suffix. fold p. rewrite view_pack by (by apply text_drop). simpl. rewrite view_reverse.
    rewrite fixed_suffix_rev, rev_involutive. by apply like_has_prefix, like_rev.
Qed.

Definition like_ok (pattern : list Z) : Prop := query_ok (like_range pattern).2.

(** A string without [%]. *)
Definition no_percent (k : list Z) : Prop := PERCENT ∉ string_attr_view k.

Lemma matches_like_spec k pattern :
  no_percent k → Sel.matches_like k pattern = true ↔ like (string_attr_view k) (string_attr_view pattern).
Proof.
  intros Hn. unfold Sel.matches_like. destruct (like_match_spec _ (string_attr_view pattern) Hn) as (b & -> & Hb). done.
Qed.

Lemma matches_like_match k pattern :
  like_match (string_attr_view k) (string_attr_view pattern) = Some (Sel.matches_like k pattern).
Proof. unfold Sel.matches_like. by destruct (like_match_total (string_attr_view k) (string_attr_view pattern)) as [b ->]. Qed.

(** The base entries a LIKE scan reads: those in the range among them. *)
Lemma like_scan pattern dir range_key t es :
  like_range pattern = (dir, range_key) → query_ok range_key → side_ok (sides t dir) es →
  let hi := if is_empty range_key then [] else next_string_attr_prefix range_key in
  ∃ b e scanned,
    (if is_empty range_key then Some (data_offset (sides t dir), file_size_ (sides t dir)) else byte_range_for dir range_key hi t) = Some (b, e)
  ∧ scan_range dir b e t = Some scanned ∧ (∀ x, x ∈ scanned → x ∈ es)
  ∧ ∀ x, x ∈ es → string_attr_starts_with x.1 range_key = true → x ∈ scanned.
Proof.
  intros E Hq H hi. subst hi. destruct (is_empty range_key) eqn:Ee.
  - eexists _, _, es. split; [done|]. split; [|auto].
    rewrite (side_end _ _ H). pose proof (scan_range_entries dir t es 0 (length es) H ltac:(done)) as Hs.
    unfold offset_of in Hs at 1. rewrite take_0 in Hs. simpl in Hs. rewrite Nat.add_0_r, Z2Nat.id in Hs by (unfold data_offset, header_size; lia).
    rewrite Hs, drop_0, Nat.sub_0_r, take_ge by done. done.
  - destruct (scan_covers dir t es range_key _ H (proj1 Hq) (next_prefix_ok range_key Hq)) as (b & e & scanned & Hb & Hs & Hin & Hc).
    eexists b, e, scanned. split_and!; [done|done|done|]. intros x Hx Hst. apply Hc; [done|]. apply in_range_starts; [done| |done].
    pose proof (sd_entries _ _ H) as Hes. rewrite Forall_forall in Hes. by apply (Hes x Hx).
Qed.

(** The pending inserts a LIKE pattern looks at. *)
Lemma like_delta range_key d :
  query_ok range_key → delta_ok d →
  let hi := if is_empty range_key then [] else next_string_attr_prefix range_key in
  ∃ b e, (if is_empty range_key then Some 0%nat else lower_bound d.*1 range_key) = Some b
  ∧ (if is_empty range_key || is_empty hi then Some (length d) else lower_bound d.*1 hi) = Some e
  ∧ (∀ x, x ∈ take (e - b) (drop b d) → x ∈ d)
  ∧ ∀ x, x ∈ d → string_attr_starts_with x.1 range_key = true → x ∈ take (e - b) (drop b d).
Proof.
  intros Hq Hd hi. subst hi.
  assert (∀ b e x, x ∈ take (e - b) (drop b d) → x ∈ d) as Hsub by (intros b e x Hx; eapply subseteq_drop, subseteq_take; exact Hx).
  destruct (is_empty range_key) eqn:Ee.
  { eexists 0%nat, (length d). split_and!; [done|done|by apply Hsub|]. intros x Hx _. by rewrite Nat.sub_0_r, drop_0, take_ge by lia. }
  destruct (delta_keys d Hd) as [Hk Hs]. pose proof (next_prefix_ok range_key Hq) as Hhi.
  destruct (str_lower_bound_spec _ range_key Hk (proj1 Hq) Hs) as (b & Hb & _ & Hbi).
  assert (∃ e, (if false || is_empty (next_string_attr_prefix range_key) then Some (length d) else lower_bound d.*1 (next_string_attr_prefix range_key)) = Some e
    ∧ ∀ i x, d !! i = Some x → in_range_of range_key (next_string_attr_prefix range_key) x.1 → (i < e)%nat) as (e & He & Hei).
  { cbn [orb]. destruct (is_empty (next_string_attr_prefix range_key)) eqn:Eh.
    - eexists. split; [done|]. intros i x Hx _. by eapply lookup_lt_Some.
    - destruct Hhi as [E|Hhi]; [by rewrite E in Eh|]. destruct (str_lower_bound_spec _ _ Hk Hhi Hs) as (e & -> & _ & Hei). eexists. split; [done|].
      intros i x Hx [_ [E|Hlt]]; [by rewrite E in Eh|]. apply (Hei i x.1); [by rewrite list_lookup_fmap, Hx|done]. }
  exists b, e. split_and!; [done|done|by apply Hsub|]. intros x Hx Hst.
  assert (key_ok x.1) as Hxk by (destruct Hd as [Hf _]; rewrite Forall_forall in Hf; by apply (Hf x Hx)).
  apply in_range_starts in Hst; [|done|done]. apply list_elem_of_lookup in Hx as [i Hi]. specialize (Hei i x Hi Hst).
  destruct (decide (i < b)%nat) as [Hlt|Hge].
  { apply (Hbi i x.1) in Hlt; [|by rewrite list_lookup_fmap, Hi]. destruct Hst as [Hle _]. unfold kle in Hle. congruence. }
  apply list_elem_of_lookup. exists (i - b)%nat. rewrite lookup_take_lt, lookup_drop by lia. by replace (b + (i - b))%nat with i by lia.
Qed.

Lemma pre_filter_like_spec pattern dir range_key t es :
  like_range pattern = (dir, range_key) → query_ok range_key → side_ok (sides t dir) es → delta_ok (delta_ (sides t PREFIX)) →
  Forall (λ e, no_percent (key_of dir e.1)) es → (∀ k v, (k, v) ∈ delta_entries (delta_ (sides t PREFIX)) → no_percent k) →
  dir = PREFIX ∨ delta_ (sides t PREFIX) = [] →
  ∃ l, pre_filter_like pattern t = Some l ∧ StronglySorted Z.lt l
  ∧ ∀ v, v ∈ l ↔ (∃ k, (k, v) ∈ es ∧ Sel.matches_like (key_of dir k) pattern = true)
               ∨ ∃ k, (k, v) ∈ delta_entries (delta_ (sides t PREFIX)) ∧ Sel.matches_like k pattern = true.
Proof.
  intros E Hq H Hd Hnp Hnd Hdir. unfold pre_filter_like. rewrite E. set (d := delta_ (sides t PREFIX)) in *.
  pose proof (sd_entries _ _ H) as Hes. rewrite Forall_forall in Hes. rewrite Forall_forall in Hnp.
  destruct (like_scan pattern dir range_key t es E Hq H) as (b & e & scanned & -> & Hscan & Hin & Hc).
  cbn [mbind option_bind]. rewrite Hscan. cbn [mbind option_bind].
  rewrite (select_spec _ (λ x, Sel.matches_like (key_of dir x.1) pattern)) by (intros; apply matches_like_match).
  cbn [mbind option_bind].
  destruct (like_delta range_key d Hq Hd) as (db & de & -> & Hde & Hdin & Hdc). cbn [mbind option_bind]. rewrite Hde.
  cbn [mbind option_bind]. rewrite (select_spec _ (λ x, Sel.matches_like x.1 pattern)) by (intros; apply matches_like_match).
  cbn [mbind option_bind]. eexists. split; [done|]. edestruct sort_unique_spec as [Hs Hel]. split; [exact Hs|].
  intros v. rewrite Hel, elem_of_app. clear Hs Hel. f_equiv.
  - rewrite list_elem_of_fmap. split.
    + intros ([k v'] & -> & Hk). apply list_elem_of_filter in Hk as [Hm Hk]. eauto.
    + intros (k & Hk & Hm). exists (k, v). split; [done|]. apply list_elem_of_filter. split; [done|]. apply Hc; [done|].
      apply matches_like_spec in Hm; [|by apply (Hnp _ Hk)]. pose proof (like_range_starts pattern _ dir range_key E Hm) as Hst.
      destruct dir; [done|]. simpl in *. rewrite reverse_involutive in Hst by (by apply (Hes _ Hk)). done.
  - rewrite elem_of_concat. setoid_rewrite delta_entries_elem. split.
    + intros (ids & Hv & Hids). apply list_elem_of_fmap in Hids as ([k ids'] & -> & Hk). apply list_elem_of_filter in Hk as [Hm Hk].
      exists k. eauto.
    + intros (k & (ids & Hk & Hv) & Hm). exists ids. split; [done|]. apply list_elem_of_fmap. exists (k, ids). split; [done|].
      apply list_elem_of_filter. split; [done|]. apply Hdc; [done|]. destruct Hdir as [->|Hnil]; [|rewrite Hnil in Hk; set_solver].
      apply matches_like_spec in Hm; [|apply (Hnd k v), delta_entries_elem; eauto]. by apply (like_range_starts pattern k PREFIX range_key E Hm).
Qed.

End StrProof.
