(* ===== verification/StringRefine.v ===== *)
(** * The states of the string attribute index

    [string_ok t es] says that the index [t] stands for the strings [es] (one entry per
    vector): in its files, its pending inserts and its hashes.  Saving, inserting and
    merging preserve it; pre-filters answer for [es]; a saved index keeps the promises
    the selectors rely on and can be loaded again.  The last section has the queries on
    which an index after inserts loses members. *)

From S2P Require Import Prelude Float32 Bytes FilterUtils Layout StringAttr Attributes Selector StringIndex StringProof.
From stdpp Require Import sorting.

Module StrRefine.
Import Ids StringAttr StrIdx StrProof.
Import Sel (Direction, PREFIX, SUFFIX, matches_dir, matches_like).
Open Scope Z_scope.

(** ** Writing a vector at distinct positions *)

Lemma foldl_vset {A B} (f : B → nat) (g : B → A) xs : ∀ l,
  Forall (λ x, (f x < length l)%nat) xs → NoDup (map f xs) →
  ∃ l', foldl (λ acc x, l ← acc; vset l (f x) (g x)) (Some l) xs = Some l' ∧ length l' = length l
  ∧ (∀ x, x ∈ xs → l' !! f x = Some (g x)) ∧ (∀ i, i ∉ map f xs → l' !! i = l !! i)
  ∧ ∀ P, Forall P l → Forall (λ x, P (g x)) xs → Forall P l'.
Proof.
  induction xs as [|x xs IH]; intros l Hl Hn; [exists l; split_and!; set_solver|]. apply Forall_cons in Hl as [Hx Hl].
  apply NoDup_cons in Hn as [Hnx Hn]. cbn [foldl mbind option_bind]. rewrite vset_Some by done.
  destruct (IH (<[f x := g x]> l)) as (l' & -> & Hlen & Hin & Hout & HP); [by rewrite length_insert|done|].
  exists l'. split; [done|]. split; [by rewrite Hlen, length_insert|]. split; [|split].
  - intros y [->|Hy]%elem_of_cons; [|by apply Hin]. rewrite (Hout (f x) Hnx). by apply list_lookup_insert_eq.
  - intros i Hi. apply not_elem_of_cons in Hi as [Hne Hi]. rewrite Hout by done. by rewrite list_lookup_insert_ne.
  - intros P HPl [Hgx Hg]%Forall_cons. apply HP; [|done]. by apply Forall_insert.
Qed.

Lemma vresize_lookup {A} (l : list A) n x i y : (length l <= n)%nat → l !! i = Some y → vresize l n x !! i = Some y.
Proof. intros Hn Hi. unfold vresize. rewrite take_ge by done. by apply lookup_app_l_Some. Qed.

(** ** Sides that differ outside the file *)

Definition same_file (x y : side) : Prop :=
  n_entries_ x = n_entries_ y ∧ sampled_offsets_ x = sampled_offsets_ y ∧ histogram_ x = histogram_ y
  ∧ file_size_ x = file_size_ y ∧ file x = file y.

Lemma side_ok_same x y es : same_file x y → side_ok x es → side_ok y es.
Proof.
  intros (E1 & E2 & E3 & E4 & E5) [H1 H2 H3 H4 H5 H6 H7 H8]. unfold data_offset in *.
  split; unfold data_offset; by rewrite <- ?E1, <- ?E2, <- ?E3, <- ?E4, <- ?E5.
Qed.

(** ** Buckets *)

(** The buckets of the sorted entries [es]. *)
Record bucket_ok (x : side) (es : list (list Z * Z)) : Prop := mkBucketOk {
  bk_none : es = [] → bucket_boundaries_ x = [];
  bk_len : es ≠ [] → length (bucket_boundaries_ x) = 257%nat;
  bk_bound : ∀ b y, bucket_boundaries_ x !! b = Some y →
    ∃ e, es !! Z.to_nat (boundary_rank (Z.of_nat (length es)) (Z.of_nat b)) = Some e ∧ e.1 = y;
  bk_ids : ∀ i e, es !! i = Some e →
    bucket_ids_ x !! Z.to_nat e.2 = Some (bucket_of_rank (Z.of_nat (length es)) (Z.of_nat i));
  bk_u32 : Forall is_u32 (bucket_ids_ x)
}.

Definition same_index (t t' : StringAttrIndex) : Prop :=
  n_vectors t' = n_vectors t ∧ strings_ t' = strings_ t ∧ delta_bytes_ t' = delta_bytes_ t ∧ hashes_ t' = hashes_ t
  ∧ ∀ d, same_file (sides t d) (sides t' d) ∧ delta_ (sides t' d) = delta_ (sides t d).

Lemma ids_nodup (es : list (list Z * Z)) :
  Forall (λ e, 0 <= e.2) es → NoDup es.*2 → NoDup (map (λ e : list Z * Z, Z.to_nat e.2) es).
Proof.
  induction 1 as [|e es He Hes IH]; simpl; [constructor|]. intros [Hn Hd]%NoDup_cons. constructor; [|by apply IH].
  intros (e' & E & He')%list_elem_of_fmap. apply Hn, list_elem_of_fmap. exists e'. split; [|done].
  rewrite Forall_forall in Hes. specialize (Hes e' He'). simpl in *. lia.
Qed.

Lemma zip_seq_lookup {A} (es : list A) i e :
  es !! i = Some e → (Z.of_nat i, e) ∈ zip (seqZ 0 (Z.of_nat (length es))) es.
Proof.
  intros He. apply list_elem_of_lookup. exists i. pose proof (lookup_lt_Some _ _ _ He).
  apply lookup_zip_with_Some. exists (Z.of_nat i), e. split; [done|]. split; [|done]. apply lookup_seqZ. lia.
Qed.

Lemma zip_seq_snd {A} (es : list A) : (zip (seqZ 0 (Z.of_nat (length es))) es).*2 = es.
Proof. apply snd_zip. rewrite length_seqZ. lia. Qed.

Lemma bucket_ranks n i : 0 <= i < n →
  let b := bucket_of_rank n i in 0 <= b <= 255 ∧ boundary_rank n b <= i <= boundary_rank n (b + 1).
Proof.
  intros Hi. unfold bucket_of_rank, boundary_rank, kBuckets. set (b := i * 256 / n).
  assert (b * n <= i * 256 < (b + 1) * n) as Hb.
  { unfold b. pose proof (Z.div_mod (i * 256) n ltac:(lia)). pose proof (Z.mod_pos_bound (i * 256) n ltac:(lia)). nia. }
  assert (0 <= b < 256) as Hb2 by (split; nia). rewrite Z.min_l by lia. split; [lia|].
  assert (b * n / 256 <= i) by (apply Z.div_le_upper_bound; lia). assert (i <= (b + 1) * n / 256) by (apply Z.div_le_lower_bound; lia). lia.
Qed.

Lemma rebuild_buckets_ok dir es t :
  Forall (λ e, 0 <= e.2 < n_vectors t) es → NoDup es.*2 →
  ∃ t', rebuild_buckets dir es t = Some t' ∧ same_index t t' ∧ (∀ d, d ≠ dir → sides t' d = sides t d)
  ∧ bucket_ok (sides t' dir) es ∧ length (bucket_ids_ (sides t' dir)) = Z.to_nat (n_vectors t)
  ∧ base_n_vectors_ t' = base_n_vectors_ t ∧ filter_file t' = filter_file t.
Proof.
  intros Hes Hn. unfold rebuild_buckets. set (zeros := replicate _ 0). set (n := Z.of_nat (length es)).
  assert (∃ ids bs, (if n =? 0 then Some (zeros, [])
      else bs ← mapM (λ b, fst <$> es !! Z.to_nat (boundary_rank n b)) (seqZ 0 (kBuckets + 1));
           ids ← foldl (assign_bucket n) (Some zeros) (zip (seqZ 0 n) es); Some (ids, bs)) = Some (ids, bs)
      ∧ length ids = length zeros ∧ ∀ x, bucket_ids_ x = ids → bucket_boundaries_ x = bs → bucket_ok x es) as (ids & bs & -> & Hlen & Hok).
  { destruct (Z.eqb_spec n 0) as [E|E].
    { exists zeros, []. split_and!; [done|done|]. destruct es; [|subst n; simpl in E; lia]. intros x Hi Hb. split; rewrite ?Hb, ?Hi; [done..|].
      apply Forall_replicate. done. }
    assert (is_Some (mapM (λ b, fst <$> es !! Z.to_nat (boundary_rank n b)) (seqZ 0 (kBuckets + 1)))) as [bs Hbs].
    { apply mapM_is_Some_2, Forall_forall. intros b Hb%elem_of_seqZ. apply fmap_is_Some, lookup_lt_is_Some.
      unfold boundary_rank, kBuckets in *. subst n. pose proof (Z.div_pos (b * Z.of_nat (length es)) 256). nia. }
    rewrite Hbs. cbn [mbind option_bind]. apply mapM_Some in Hbs.
    destruct (foldl_vset (λ e : Z * (list Z * Z), Z.to_nat e.2.2) (λ e, bucket_of_rank n e.1) (zip (seqZ 0 n) es) zeros)
      as (ids & Hf & Hlen & Hin & _ & HP).
    { apply Forall_forall. intros x Hx. assert (x.2 ∈ es) as Hx2 by (rewrite <- (zip_seq_snd es); by apply list_elem_of_fmap_2).
      rewrite Forall_forall in Hes. specialize (Hes _ Hx2). unfold zeros. rewrite length_replicate. simpl in Hes. lia. }
    { rewrite <- (map_map snd (λ e : list Z * Z, Z.to_nat e.2)). change (map snd ?l) with (l.*2). unfold n. rewrite zip_seq_snd.
      apply ids_nodup; [|done]. eapply Forall_impl; [exact Hes|]. simpl. lia. }
    exists ids, bs. unfold assign_bucket. rewrite Hf. split_and!; [done|done|]. intros x Hi Hb. split; rewrite ?Hi, ?Hb.
    - intros ->. done.
    - intros _. by rewrite <- (Forall2_length _ _ _ Hbs), length_seqZ.
    - intros b y Hy. destruct (Forall2_lookup_r _ _ _ _ _ Hbs Hy) as (z & Hz & Hey). apply lookup_seqZ in Hz as [-> Hb'].
      rewrite Z.add_0_l in Hey. apply fmap_Some in Hey as (e & He & ->). eauto.
    - intros i e He. by apply (Hin (Z.of_nat i, e)), zip_seq_lookup.
    - apply HP; [by apply Forall_replicate|]. apply Forall_forall. intros [j e] Hj.
      apply list_elem_of_lookup in Hj as (i & Hij). apply lookup_zip_with_Some in Hij as (j' & e' & [= <- <-] & Hj & He).
      apply lookup_seqZ in Hj as [-> Hj]. destruct (bucket_ranks n (0 + Z.of_nat i)) as [Hr _]; [lia|]. simpl. unfold is_u32. lia. }
  cbn [mbind option_bind]. eexists. split; [done|]. split; [|split; [by intros [] ?; destruct dir|]].
  - split_and!; try done. intros d. by destruct d, dir.
  - rewrite sides_set, decide_True by done. split; [by apply Hok|]. split; [|done]. simpl. rewrite Hlen. apply length_replicate.
Qed.

(** ** Saving *)

(** The entries as the file of a direction has them. *)
Definition keyed (dir : Direction) (es : list (list Z * Z)) : list (list Z * Z) := map (λ e, (key_of dir e.1, e.2)) es.

Lemma keyed_prefix es : keyed PREFIX es = es.
Proof. induction es as [|[k v] es IH]; [done|]. change (keyed PREFIX ((k, v) :: es)) with ((k, v) :: keyed PREFIX es). by rewrite IH. Qed.

Lemma keyed_ids dir es : (keyed dir es).*2 = es.*2.
Proof. unfold keyed. by rewrite <- list_fmap_compose. Qed.

#[global] Instance keyed_perm dir : Proper ((≡ₚ) ==> (≡ₚ)) (keyed dir).
Proof. intros l k H. unfold keyed. by rewrite H. Qed.

Lemma keyed_elem dir es k v : (k, v) ∈ keyed dir es ↔ ∃ a, k = key_of dir a ∧ (a, v) ∈ es.
Proof.
  unfold keyed. rewrite list_elem_of_fmap. split; [intros ([a v'] & [= -> ->] & H); eauto|]. intros (a & -> & H). by exists (a, v).
Qed.

Lemma keyed_ok dir es : Forall entry_ok es → Forall entry_ok (keyed dir es).
Proof.
  intros H. apply Forall_fmap. eapply Forall_impl; [exact H|]. intros e [Hk Hv]. split; [by apply key_of_ok|done].
Qed.

(** Entries with distinct ids below the number of vectors. *)
Definition rows_ok (n : Z) (es : list (list Z * Z)) : Prop := Forall (λ e, entry_ok e ∧ e.2 < n) es ∧ NoDup es.*2.

#[global] Instance rows_perm n : Proper ((≡ₚ) ==> iff) (rows_ok n).
Proof. intros l k H. unfold rows_ok. by rewrite H. Qed.

Lemma rows_entries n es : rows_ok n es → Forall entry_ok es.
Proof. intros [H _]. eapply Forall_impl; [exact H|]. by intros e []. Qed.

Lemma rows_ids n es : rows_ok n es → Forall (λ e, 0 <= e.2 < n) es.
Proof. intros [H _]. eapply Forall_impl; [exact H|]. intros e [[_ [? _]] ?]. lia. Qed.

Lemma rows_keyed n dir es : rows_ok n es → rows_ok n (keyed dir es).
Proof.
  intros [H Hn]. split; [|by rewrite keyed_ids]. apply Forall_fmap. eapply Forall_impl; [exact H|]. intros e [[Hk Hv] ?].
  split; [split; [by apply key_of_ok|done]|done].
Qed.

(** ** The range test of a saved index *)

Lemma boundary_rank_mono n b b' : 0 <= b <= b' → 0 <= n → boundary_rank n b <= boundary_rank n b'.
Proof.
  intros Hb Hn. unfold boundary_rank, kBuckets. pose proof (Z.div_le_mono (b * n) (b' * n) 256). nia.
Qed.

Lemma bucket_bounds x es :
  side_ok x es → bucket_ok x es → Forall key_ok (bucket_boundaries_ x) ∧ StronglySorted kle (bucket_boundaries_ x).
Proof.
  intros Hs Hb. split.
  - apply Forall_lookup. intros b y Hy. destruct (bk_bound x es Hb b y Hy) as (e & He & <-).
    pose proof (sd_entries x es Hs) as Hf. rewrite Forall_lookup in Hf. by apply (Hf _ _ He).
  - apply strongly_sorted_lookup. intros i j y z Hy Hz Hij.
    destruct (bk_bound x es Hb i y Hy) as (e & He & <-). destruct (bk_bound x es Hb j z Hz) as (e' & He' & <-).
    eapply sorted_keys_le; [apply (sd_sorted x es Hs)|done|done|].
    pose proof (boundary_rank_mono (Z.of_nat (length es)) (Z.of_nat i) (Z.of_nat j)). lia.
Qed.

Lemma bucket_range_total dir q t :
  Forall key_ok (bucket_boundaries_ (sides t dir)) → StronglySorted kle (bucket_boundaries_ (sides t dir)) → query_ok q →
  let bs := bucket_boundaries_ (sides t dir) in
  let lo := key_of dir q in
  ∃ l r, bucket_range dir q t = Some (Z.max 0 (Z.of_nat l - 1), Z.min 255 (Z.of_nat r + 1))
  ∧ (∀ i y, bs !! i = Some y → kle lo y → (l <= i)%nat)
  ∧ ∀ i y, bs !! i = Some y → next_string_attr_prefix lo = [] ∨ lex_lt (string_attr_view y) (string_attr_view (next_string_attr_prefix lo)) = true → (i < r)%nat.
Proof.
  intros Hk Hs Hq bs lo. apply (query_of_ok dir) in Hq. fold lo in Hq. unfold bucket_range. fold bs lo.
  destruct (str_lower_bound_spec bs lo Hk (proj1 Hq) Hs) as (l & -> & _ & Hl). cbn [mbind option_bind].
  assert (∃ r, (if is_empty (next_string_attr_prefix lo) then Some (length bs) else lower_bound bs (next_string_attr_prefix lo)) = Some r
    ∧ ∀ i y, bs !! i = Some y → next_string_attr_prefix lo = [] ∨ lex_lt (string_attr_view y) (string_attr_view (next_string_attr_prefix lo)) = true → (i < r)%nat)
    as (r & -> & Hr).
  { destruct (is_empty (next_string_attr_prefix lo)) eqn:E; [eexists; split; [done|]; intros i y Hy _; by eapply lookup_lt_Some|].
    destruct (next_prefix_ok lo Hq) as [E'|Hhi]; [by rewrite E' in E|].
    destruct (str_lower_bound_spec bs _ Hk Hhi Hs) as (r & -> & _ & Hr). exists r. split; [done|].
    intros i y Hy [E'|Hlt]; [by rewrite E' in E|]. by apply (Hr i y Hy). }
  cbn [mbind option_bind]. exists l, r. split; [done|]. split; [|done]. intros i y Hy Hle.
  apply Nat.nlt_ge. intros Hlt. apply (Hl i y Hy) in Hlt. unfold kle in Hle. congruence.
Qed.

Lemma bucket_no_miss dir t es q v :
  side_ok (sides t dir) es → bucket_ok (sides t dir) es → query_ok q →
  ∃ b, is_member_approx_dir v q dir t = Some b
  ∧ ∀ k, (k, v) ∈ es → string_attr_starts_with k (key_of dir q) = true → b = true.
Proof.
  intros Hs Hb Hq. destruct (bucket_bounds _ _ Hs Hb) as [Hk Hso]. unfold is_member_approx_dir.
  destruct (bucket_ids_ (sides t dir) !! Z.to_nat v) as [bid|] eqn:Ebid; [|by exists true].
  destruct (bucket_boundaries_ (sides t dir)) as [|b0 bs0] eqn:Ebs; [by exists true|]. rewrite <- Ebs in *.
  destruct (bucket_range_total dir q t) as (l & r & -> & Hl & Hr); [by rewrite Ebs in *|by rewrite Ebs in *|done|].
  cbn [mbind option_bind]. eexists. split; [done|]. intros k [i Hi]%list_elem_of_lookup Hst.
  pose proof (sd_entries _ _ Hs) as Hes. rewrite Forall_lookup in Hes. destruct (Hes _ _ Hi) as [Hkk _]. simpl in Hkk.
  apply in_range_starts in Hst as [Hlo Hhi]; [|by apply query_of_ok|done].
  pose proof (bk_ids _ _ Hb i _ Hi) as Hbid. simpl in Hbid. rewrite Ebid in Hbid. injection Hbid as ->.
  pose proof (lookup_lt_Some _ _ _ Hi) as Hlt. destruct (bucket_ranks (Z.of_nat (length es)) (Z.of_nat i)) as [Hbr [Hr1 Hr2]]; [lia|].
  set (b := bucket_of_rank _ _) in *. assert (es ≠ []) as Hne by (by destruct es).
  destruct (lookup_lt_is_Some_2 (bucket_boundaries_ (sides t dir)) (Z.to_nat b)) as [y Hy]; [rewrite (bk_len _ _ Hb Hne); lia|].
  destruct (lookup_lt_is_Some_2 (bucket_boundaries_ (sides t dir)) (Z.to_nat (b + 1))) as [z Hz]; [rewrite (bk_len _ _ Hb Hne); lia|].
  destruct (bk_bound _ _ Hb _ _ Hy) as (ey & Hey & Ey). destruct (bk_bound _ _ Hb _ _ Hz) as (ez & Hez & Ez).
  rewrite Z2Nat.id in Hey, Hez by lia.
  assert (0 <= boundary_rank (Z.of_nat (length es)) b) as Hpos by (unfold boundary_rank, kBuckets; pose proof (Z.div_pos (b * Z.of_nat (length es)) 256); nia).
  assert (kle y k) as Hyk by (rewrite <- Ey; apply (sorted_keys_le es _ _ ey (k, v) (sd_sorted _ _ Hs) Hey Hi); lia).
  assert (kle k z) as Hkz by (rewrite <- Ez; apply (sorted_keys_le es _ _ (k, v) ez (sd_sorted _ _ Hs) Hi Hez); lia).
  assert (l <= Z.to_nat (b + 1))%nat as Hlb by (apply (Hl _ z Hz); unfold kle in *; by eapply lex_le_trans).
  assert (Z.to_nat b < r)%nat as Hrb.
  { apply (Hr _ y Hy). destruct Hhi as [?|Hhi]; [by left|right]. unfold kle in Hyk. by eapply lex_le_lt_trans. }
  apply andb_true_iff. rewrite !Z.leb_le. lia.
Qed.

Section hash.
Context (CityHash32 : list Z → Z).
Notation hash_packed := (hash_packed CityHash32).

(** What saving leaves. *)
Record saved (t t' : StringAttrIndex) (entries : list (list Z * Z)) : Prop := mkSaved {
  sv_n : n_vectors t' = n_vectors t ∧ base_n_vectors_ t' = n_vectors t;
  sv_strings : strings_ t' = strings_ t;
  sv_delta d : delta_ (sides t' d) = delta_ (sides t d);
  sv_side d : ∃ es, es ≡ₚ keyed d entries ∧ side_ok (sides t' d) es ∧ bucket_ok (sides t' d) es
    ∧ length (bucket_ids_ (sides t' d)) = Z.to_nat (n_vectors t);
  sv_hash_len : length (hashes_ t') = Z.to_nat (n_vectors t);
  sv_hash k v : (k, v) ∈ entries → hashes_ t' !! Z.to_nat v = Some (hash_packed k);
  sv_filter : filter_file t' = Some (hashes_ t');
  sv_buckets d : bucket_file (sides t' d) = Some (encode_buckets (bucket_boundaries_ (sides t' d)) (bucket_ids_ (sides t' d)))
}.

Lemma put_hashes n es :
  rows_ok n es →
  ∃ hs, foldl (put_hash CityHash32) (Some (replicate (Z.to_nat n) 0)) es = Some hs ∧ length hs = Z.to_nat n
  ∧ ∀ k v, (k, v) ∈ es → hs !! Z.to_nat v = Some (hash_packed k).
Proof.
  intros H. pose proof (rows_ids n es H) as Hid.
  destruct (foldl_vset (λ e : list Z * Z, Z.to_nat e.2) (λ e, hash_packed e.1) es (replicate (Z.to_nat n) 0)) as (hs & Hf & Hl & Hin & _ & _).
  - rewrite length_replicate. eapply Forall_impl; [exact Hid|]. simpl. lia.
  - apply ids_nodup; [|apply H]. eapply Forall_impl; [exact Hid|]. simpl. lia.
  - exists hs. split; [done|]. rewrite Hl, length_replicate. split; [done|]. intros k v Hk. by apply (Hin (k, v)).
Qed.

Lemma save_both_ok entries t :
  rows_ok (n_vectors t) entries → ∃ t', save_both CityHash32 entries t = Some t' ∧ saved t t' entries.
Proof.
  intros Hr. unfold save_both.
  destruct (write_sorted_file_ok PREFIX entries t) as (es & t1 & -> & Hp & Hs1 & [Ho1 Hd1 [Hn1 Hb1] [Hst1 Hdb1]]);
    [by eapply rows_entries|].
  cbn [mbind option_bind]. change (map (λ e : list Z * Z, (reverse_string_attr e.1, e.2)) es) with (keyed SUFFIX es).
  assert (rows_ok (n_vectors t) es) as Hr1 by (by rewrite Hp).
  destruct (write_sorted_file_ok SUFFIX (keyed SUFFIX es) t1) as (rs & t2 & -> & Hp2 & Hs2 & [Ho2 Hd2 [Hn2 Hb2] [Hst2 Hdb2]]);
    [by apply keyed_ok, (rows_entries (n_vectors t))|].
  cbn [mbind option_bind]. rewrite Hn2, Hn1. destruct (put_hashes (n_vectors t) es Hr1) as (hs & -> & Hhl & Hh). cbn [mbind option_bind].
  set (t3 := mkString _ _ _ _ _ _ _ _).
  destruct (rebuild_buckets_ok PREFIX es t3) as (t4 & -> & (Hn4 & Hst4 & Hdb4 & Hh4 & Hs4) & Ho4 & Hb4 & Hl4 & Hf4 & Hff4);
    [by apply rows_ids|apply Hr1|]. cbn [mbind option_bind].
  assert (rows_ok (n_vectors t) rs) as Hr2 by (rewrite Hp2; by apply rows_keyed).
  destruct (rebuild_buckets_ok SUFFIX rs t4) as (t5 & -> & (Hn5 & Hst5 & Hdb5 & Hh5 & Hs5) & Ho5 & Hb5 & Hl5 & Hf5 & Hff5);
    [rewrite Hn4; by apply rows_ids|apply Hr2|]. cbn [mbind option_bind]. eexists. split; [done|].
  assert (Hdp : sides t2 PREFIX = sides t1 PREFIX) by (by apply Ho2). assert (Hds : sides t1 SUFFIX = sides t SUFFIX) by (by apply Ho1).
  assert (Hp5 : sides t5 PREFIX = sides t4 PREFIX) by (by apply Ho5). assert (Hs4' : sides t4 SUFFIX = sides t2 SUFFIX) by (by apply Ho4).
  split; cbn [n_vectors base_n_vectors_ strings_ hashes_ filter_file save_bucket_approx set_side].
  - rewrite Hn5, Hn4. done.
  - rewrite Hst5, Hst4. cbn. congruence.
  - intros []; cbn [sides save_bucket_approx set_side delta_].
    + rewrite Hp5, (proj2 (Hs4 PREFIX)). cbn. by rewrite Hdp.
    + rewrite (proj2 (Hs5 SUFFIX)), Hs4', Hd2, Hds. done.
  - intros []; cbn [sides save_bucket_approx set_side bucket_ids_].
    + exists es. rewrite keyed_prefix. split; [done|]. rewrite Hp5. split; [|split; [by destruct Hb4|done]].
      eapply side_ok_same; [|exact Hs1]. rewrite <- Hdp. apply (Hs4 PREFIX).
    + exists rs. split; [by rewrite Hp2, Hp|]. split; [|split; [by destruct Hb5|by rewrite Hl5, Hn4]].
      eapply side_ok_same; [|exact Hs2]. rewrite <- Hs4'. apply (Hs5 SUFFIX).
  - rewrite Hh5, Hh4. done.
  - intros k v Hk. rewrite Hh5, Hh4. apply Hh. by rewrite Hp.
  - rewrite Hff5, Hff4, Hh5, Hh4. done.
  - by intros [].
Qed.

(** ** What the index stands for *)

Record string_ok (t : StringAttrIndex) (es : list (list Z * Z)) : Prop := mkStringOk {
  st_rows : rows_ok (n_vectors t) es;
  st_side d : ∃ base, side_ok (sides t d) base ∧ delta_ok (delta_ (sides t d))
    ∧ keyed d es ≡ₚ base ++ delta_entries (delta_ (sides t d));
  st_hash k v : (k, v) ∈ es → hashes_ t !! Z.to_nat v = Some (hash_packed k);
  st_bounds d : Forall key_ok (bucket_boundaries_ (sides t d)) ∧ StronglySorted kle (bucket_boundaries_ (sides t d))
}.

(** A save of an index without pending inserts. *)
Lemma saved_ok t t' es :
  rows_ok (n_vectors t) es → saved t t' es → (∀ d, delta_ (sides t d) = []) → string_ok t' es.
Proof.
  intros Hr [[Hn Hb] Hst Hd Hs Hhl Hh Hf Hbf] He. split; [by rewrite Hn| |done|].
  - intros d. destruct (Hs d) as (base & Hp & Hside & _). exists base. rewrite Hd, He. split; [done|].
    split; [split; constructor|]. simpl. rewrite app_nil_r. by rewrite Hp.
  - intros d. destruct (Hs d) as (base & _ & Hside & Hbk & _). by eapply bucket_bounds.
Qed.

Lemma numbered_ids strs : (numbered strs).*2 = seqZ 0 (Z.of_nat (length strs)).
Proof. unfold numbered. apply snd_zip. rewrite length_seqZ. lia. Qed.

Lemma string_numbered_elem strs k v : (k, v) ∈ numbered strs ↔ 0 <= v ∧ strs !! Z.to_nat v = Some k.
Proof.
  unfold numbered. rewrite list_elem_of_lookup. setoid_rewrite lookup_zip_with_Some. split.
  - intros (i & a & b & [= -> ->] & Ha & Hb). apply lookup_seqZ in Hb as [-> Hb]. rewrite Z.add_0_l, Nat2Z.id. split; [lia|done].
  - intros [Hv Hk]. exists (Z.to_nat v), k, v. pose proof (lookup_lt_Some _ _ _ Hk). split_and!; [done|done|]. apply lookup_seqZ. lia.
Qed.

Lemma numbered_rows n strs :
  Forall key_ok strs → Z.of_nat (length strs) <= n → is_u32 (Z.of_nat (length strs)) → rows_ok n (numbered strs).
Proof.
  intros Hs Hn Hu. split; [|rewrite numbered_ids; apply NoDup_seqZ]. apply Forall_forall. intros [k v] [Hv Hk]%string_numbered_elem.
  pose proof (lookup_lt_Some _ _ _ Hk). rewrite Forall_lookup in Hs. split; [split; [by eapply Hs|unfold is_u32 in *; simpl; lia]|simpl; lia].
Qed.

Lemma save_ok t :
  Forall key_ok (strings_ t) → Z.of_nat (length (strings_ t)) <= n_vectors t → is_u32 (Z.of_nat (length (strings_ t))) →
  (∀ d, delta_ (sides t d) = []) →
  ∃ t', save CityHash32 t = Some t' ∧ saved t t' (numbered (strings_ t)) ∧ string_ok t' (numbered (strings_ t)).
Proof.
  intros Hs Hn Hu Hd. pose proof (numbered_rows (n_vectors t) _ Hs Hn Hu) as Hr. unfold save.
  destruct (save_both_ok _ t Hr) as (t' & -> & Hsv). exists t'. split_and!; [done|done|]. by eapply saved_ok.
Qed.

(** A pre-filter answers with the vectors whose string matches the query. *)
Lemma pre_filter_exact_dir dir t es q :
  string_ok t es → query_ok q →
  ∃ l, pre_filter dir q t = Some l ∧ StronglySorted Z.lt l ∧ ∀ v, v ∈ l ↔ ∃ k, (k, v) ∈ es ∧ matches_dir dir k q = true.
Proof.
  intros [Hr Hs _ _] Hq. destruct (Hs dir) as (base & Hside & Hd & Hp).
  destruct (string_pre_filter_spec dir t base q Hside Hd Hq) as (l & Hl & Hsort & Hv). exists l. split_and!; [done|done|].
  intros v. rewrite Hv. setoid_rewrite <- Hp. setoid_rewrite keyed_elem. setoid_rewrite <- key_of_matches. naive_solver.
Qed.

(** ** Merging *)

Definition good_map (id_map : gmap Z Z) : Prop :=
  id_map = ∅ ∨ map_Forall (λ _ nid, 0 <= nid < Z.of_nat (size id_map)) id_map ∧ is_u32 (Z.of_nat (size id_map))
  ∧ ∀ i j nid, id_map !! i = Some nid → id_map !! j = Some nid → i = j.

Lemma remap_app m a b : remap_entries m (a ++ b) = remap_entries m a ++ remap_entries m b.
Proof. apply omap_app. Qed.

#[global] Instance remap_perm m : Proper ((≡ₚ) ==> (≡ₚ)) (remap_entries m).
Proof. intros l k H. unfold remap_entries. by rewrite H. Qed.

Lemma remap_elem m es k v : (k, v) ∈ remap_entries m es ↔ ∃ v', (k, v') ∈ es ∧ remap_id m v' = Some v.
Proof.
  unfold remap_entries. rewrite list_elem_of_omap. split.
  - intros ([a v'] & Hin & E). apply fmap_Some in E as (nid & Hn & [= -> ->]). eauto.
  - intros (v' & Hin & E). exists (k, v'). split; [done|]. simpl. by rewrite E.
Qed.

Lemma remap_rows m n es :
  good_map m → rows_ok n es → rows_ok (if decide (m = ∅) then n else Z.of_nat (size m)) (remap_entries m es).
Proof.
  intros Hm [Hf Hn]. split.
  - apply Forall_forall. intros [k v] (v' & Hin & E)%remap_elem. rewrite Forall_forall in Hf. destruct (Hf _ Hin) as [[Hk Hv] Hlt].
    simpl in *. unfold remap_id in E. destruct (decide (m = ∅)) as [|Hne]; [by injection E as <-|].
    destruct Hm as [?|(Hm & Hu & _)]; [done|]. specialize (Hm _ _ E). simpl in Hm. split; [split; [done|]|simpl; lia].
    unfold is_u32 in *. simpl. lia.
  - clear Hf. induction es as [|[k v] es IH]; [constructor|]. apply NoDup_cons in Hn as [Hv Hn]. cbn [remap_entries omap list_omap].
    simpl. destruct (remap_id m v) as [nid|] eqn:E; simpl; [|by apply IH]. constructor; [|by apply IH].
    intros ([k' v'] & -> & Hin)%list_elem_of_fmap. apply remap_elem in Hin as (w & Hw & E'). apply Hv.
    assert (v = w) as ->; [|by apply (list_elem_of_fmap_2 snd _ (k', w))].
    simpl in E. unfold remap_id in *. destruct (decide (m = ∅)); [congruence|]. destruct Hm as [?|(_ & _ & Hi)]; [done|]. by eapply Hi.
Qed.

Lemma all_entries_ok t base : side_ok (sides t PREFIX) base → all_entries t = Some base.
Proof.
  intros H. unfold all_entries. rewrite (sd_n _ _ H). destruct (Z.eqb_spec (Z.of_nat (length base)) 0) as [E|E]; [by destruct base|].
  destruct (side_file _ _ H) as (hd & -> & Hl). rewrite <- Hl, drop_app_length, Nat2Z.id.
  rewrite <- (app_nil_r (encoded base)). apply read_encoded, (sd_entries _ _ H).
Qed.

Lemma do_merge_ok m t es :
  string_ok t es → good_map m →
  ∃ t', do_merge CityHash32 m t = Some t' ∧ string_ok t' (remap_entries m es) ∧ ∀ d, delta_ (sides t' d) = [].
Proof.
  intros H Hm. pose proof (st_side _ _ H PREFIX) as (base & Hside & Hd & Hp). rewrite keyed_prefix in Hp.
  unfold do_merge. rewrite (all_entries_ok t base Hside). cbn [mbind option_bind]. set (n := if decide (m = ∅) then _ else _).
  rewrite <- remap_app. set (t1 := mkString n _ _ _ _ _ _ _).
  assert (rows_ok n (remap_entries m (base ++ delta_entries (delta_ (sides t PREFIX))))) as Hr
    by (rewrite <- Hp; by apply remap_rows, (st_rows _ _ H)).
  destruct (save_both_ok _ t1 Hr) as (t2 & -> & [[Hn _] _ _ Hs _ Hh _ _]). cbn [mbind option_bind]. eexists. split; [done|].
  split; [|done]. split; cbn [clear_delta n_vectors sides hashes_].
  - rewrite Hn. simpl. by rewrite Hp.
  - intros d. destruct (Hs d) as (es2 & Hp2 & Hs2 & _). exists es2. cbn [clear_delta sides delta_].
    split; [by eapply side_ok_same; [|exact Hs2]|]. split; [split; constructor|].
    change (delta_entries []) with (@nil (list Z * Z)). by rewrite app_nil_r, Hp2, Hp.
  - intros k v Hk. apply Hh. by rewrite <- Hp.
  - intros d. destruct (Hs d) as (es2 & Hp2 & Hs2 & Hb2 & _). exact (bucket_bounds _ _ Hs2 Hb2).
Qed.

(** ** Inserting *)

Definition with_delta (d : list (list Z * list Z)) (x : side) : side :=
  mkSide (n_entries_ x) (sampled_offsets_ x) (histogram_ x) (file_size_ x) (bucket_ids_ x) (bucket_boundaries_ x) d (file x) (bucket_file x).
Definition with_bucket_ids (ids : list Z) (x : side) : side :=
  mkSide (n_entries_ x) (sampled_offsets_ x) (histogram_ x) (file_size_ x) ids (bucket_boundaries_ x) (delta_ x) (file x) (bucket_file x).

Lemma add_delta_ok dir key id t :
  delta_ok (delta_ (sides t dir)) → key_ok key → is_u32 id →
  ∃ d, add_delta dir key id t = Some (set_side dir (with_delta d (sides t dir)) t) ∧ delta_ok d
  ∧ delta_entries d ≡ₚ (key, id) :: delta_entries (delta_ (sides t dir)).
Proof.
  intros Hd Hk Hid. destruct (push_delta_ok _ key id Hd Hk Hid) as (d & Hp & Hok & Hperm). exists d. unfold add_delta. by rewrite Hp.
Qed.

(** A vector of one value per id grows to hold a new id. *)
Definition grown {A} (l : list A) (v : Z) (x : A) : list A :=
  if Z.of_nat (length l) <=? v then vresize l (Z.to_nat (Z.max 1024 (3 * u32 (v + 1) / 2))) x else l.

Lemma grown_ok {A} (l : list A) v x :
  0 <= v → is_u32 (v + 1) → (Z.to_nat v < length (grown l v x))%nat ∧ ∀ i y, l !! i = Some y → grown l v x !! i = Some y.
Proof.
  intros Hv Hu. unfold grown. destruct (Z.leb_spec (Z.of_nat (length l)) v) as [Hle|Hlt]; [|split; [lia|done]].
  assert (v + 1 <= 3 * u32 (v + 1) / 2) as Hg.
  { unfold u32. unfold is_u32 in Hu. rewrite Z.mod_small by lia. apply Z.div_le_lower_bound; lia. }
  split; [rewrite vresize_length; lia|]. intros i y Hy. apply vresize_lookup; [lia|done].
Qed.

Lemma ensure_bucket_id_ok dir v key t :
  Forall key_ok (bucket_boundaries_ (sides t dir)) → StronglySorted kle (bucket_boundaries_ (sides t dir)) →
  key_ok key → 0 <= v → is_u32 (v + 1) →
  ∃ ids, ensure_bucket_id dir v key t = Some (set_side dir (with_bucket_ids ids (sides t dir)) t).
Proof.
  intros Hk Hs Hkey Hv Hu. unfold ensure_bucket_id. fold (grown (bucket_ids_ (sides t dir)) v 0).
  destruct (bucket_boundaries_ (sides t dir)) as [|b bs] eqn:E; [eexists; cbn [mbind option_bind]; unfold with_bucket_ids; by rewrite E|].
  destruct (upper_bound_spec _ key Hk Hkey Hs) as (k & -> & _). cbn [mbind option_bind].
  rewrite vset_Some by (by apply grown_ok). cbn [mbind option_bind]. eexists. unfold with_bucket_ids. by rewrite E.
Qed.

Lemma remap_nothing es : remap_entries ∅ es = es.
Proof.
  induction es as [|[k v] es IH]; [done|]. change (remap_entries ∅ ((k, v) :: es)) with ((k, v) :: remap_entries ∅ es). by rewrite IH.
Qed.

Lemma string_insert_ok v a t es :
  string_ok t es → key_ok a → 0 <= v → is_u32 (v + 1) → v ∉ es.*2 →
  ∃ t', insert CityHash32 v a t = Some t' ∧ string_ok t' ((a, v) :: es).
Proof.
  intros H Ha Hv Hu Hnew. unfold insert. assert (is_u32 v) as Hvu by (unfold is_u32 in *; lia).
  destruct (st_side _ _ H PREFIX) as (bp & Hsp & Hdp & Hpp). destruct (st_side _ _ H SUFFIX) as (bs & Hss & Hds & Hps).
  destruct (add_delta_ok PREFIX a v t Hdp Ha Hvu) as (dp & -> & Hdp' & Hep). cbn [mbind option_bind]. set (t1 := set_side PREFIX _ t).
  destruct (add_delta_ok SUFFIX (reverse_string_attr a) v t1 Hds (reverse_ok _ Ha) Hvu) as (ds & -> & Hds' & Hes). cbn [mbind option_bind].
  set (t2 := set_side SUFFIX _ t1). fold (grown (hashes_ t2) v 0). destruct (grown_ok (hashes_ t2) v 0 Hv Hu) as [Hgl Hgk].
  rewrite vset_Some by done. cbn [mbind option_bind]. set (t3 := mkString _ _ _ _ _ _ _ _).
  destruct (st_bounds _ _ H PREFIX) as [Hbk Hbs].
  destruct (ensure_bucket_id_ok PREFIX v a t3 Hbk Hbs Ha Hv Hu) as (ids & ->). cbn [mbind option_bind]. set (t4 := set_side PREFIX _ t3).
  assert (string_ok t4 ((a, v) :: es)) as H4.
  { destruct (st_rows _ _ H) as [Hf Hn]. split.
    - split; [|by constructor]. constructor; [split; [split; [done|done]|simpl; lia]|].
      eapply Forall_impl; [exact Hf|]. intros e [He Hlt]. split; [done|]. simpl. lia.
    - intros [].
      + exists bp. split; [by eapply side_ok_same; [|exact Hsp]|]. split; [done|]. rewrite keyed_prefix in *.
        change (delta_ (sides t4 PREFIX)) with dp. by rewrite Hep, Hpp, Permutation_middle.
      + exists bs. split; [by eapply side_ok_same; [|exact Hss]|]. split; [done|]. change (delta_ (sides t4 SUFFIX)) with ds.
        change (keyed SUFFIX ((a, v) :: es)) with ((reverse_string_attr a, v) :: keyed SUFFIX es).
        rewrite Hes, Hps, Permutation_middle. done.
    - intros k w [[= -> ->]|Hin]%elem_of_cons; [by apply list_lookup_insert_eq|].
      change (<[Z.to_nat v := hash_packed a]> (grown (hashes_ t) v 0) !! Z.to_nat w = Some (hash_packed k)).
      rewrite list_lookup_insert_ne; [by apply Hgk, (st_hash _ _ H)|]. intros E. apply Hnew.
      assert (0 <= w) as Hw by (rewrite Forall_forall in Hf; destruct (Hf _ Hin) as [[_ [? _]] _]; done).
      assert (v = w) as -> by lia. by apply (list_elem_of_fmap_2 snd _ (k, w)).
    - intros []; [done|]. apply (st_bounds _ _ H SUFFIX). }
  case_match; [|by exists t4]. destruct (do_merge_ok ∅ t4 _ H4) as (t5 & -> & H5 & _); [by left|].
  exists t5. by rewrite remap_nothing in H5.
Qed.

(** ** Loading *)

Lemma read_u64s_app l rest : Forall is_u64 l → read_u64s (length l) (u64s l ++ rest) = Some (l, rest).
Proof.
  induction 1 as [|x l Hx _ IH]; [done|]. unfold u64s. cbn [map concat length read_u64s]. fold (u64s l).
  rewrite <- app_assoc, read_u64_app by done. cbn [mbind option_bind]. by rewrite IH.
Qed.

Lemma read_keys_app ks rest :
  Forall key_ok ks →
  read_keys (length ks) (concat (map (λ b, le_bytes 4 (Z.of_nat (length b)) ++ words b) ks) ++ rest) = Some (ks, rest).
Proof.
  induction 1 as [|k ks Hk _ IH]; [done|]. destruct (key_words k Hk) as [Hw Hl]. cbn [map concat length read_keys].
  rewrite <- !app_assoc, read_u32_app by done. cbn [mbind option_bind]. rewrite read_bytes_app by (rewrite words_length; lia).
  cbn [mbind option_bind]. rewrite IH. cbn [mbind option_bind]. by rewrite words_at_words.
Qed.

(** The entry at an offset. *)
Lemma read_at_offset hd es i e rest :
  Forall entry_ok es → es !! i = Some e → ∃ s, read_entry (drop (offset_of (length hd) es i) (hd ++ encoded es ++ rest)) = Some (e, s).
Proof.
  intros Hes Hi. rewrite Forall_lookup in Hes. eexists. unfold offset_of.
  rewrite <- (take_drop_middle es i e Hi) at 2. rewrite encoded_app, encoded_cons, <- !app_assoc, <- drop_drop, drop_app_length, drop_app_length.
  apply read_entry_encode. by eapply Hes.
Qed.

Definition with_header (x y : side) : side :=
  mkSide (n_entries_ x) (sampled_offsets_ x) (histogram_ x) (file_size_ x) (bucket_ids_ y) (bucket_boundaries_ y) (delta_ y) (file y) (bucket_file y).

Lemma load_header_ok dir t x es :
  side_ok x es → file (sides t dir) = file x → is_u32 (Z.of_nat (length es)) → is_u64 (file_size_ x) →
  load_header dir t = Some (set_side dir (with_header x (sides t dir)) t).
Proof.
  intros H Hf Hn Hsz. unfold load_header. rewrite Hf. pose proof (sd_file x es H) as Ef. pose proof (sd_size x es H) as Es.
  destruct (side_file x es H) as (hd & Ehd & Hhd). destruct (Z.ltb_spec (Z.of_nat (length (file x))) 8) as [Hlt|_].
  { rewrite Ef, !length_app, !le_bytes_length in Hlt. lia. }
  assert (is_u32 (n_samples (Z.of_nat (length es)))) as Hns
    by (pose proof (n_samples_spec (Z.of_nat (length es))); unfold is_u32 in *; lia).
  assert (Forall is_u64 (sampled_offsets_ x)) as Hoff.
  { apply Forall_lookup. intros k off Hk. destruct (sd_off x es H k off Hk) as [-> Hlt]. rewrite (side_end x es H) in Hsz.
    pose proof (offset_mono (Z.to_nat (data_offset x)) es (k * 1000) (length es)). unfold is_u64 in *. lia. }
  assert (Hk : n_samples (Z.of_nat (length es)) = Z.of_nat (length (sampled_offsets_ x))).
  { destruct (sd_hist x es H) as [Hh _]. rewrite length_fmap in Hh. by rewrite (sd_so x es H). }
  rewrite Ef at 1. rewrite read_u32_app by done. cbn [mbind option_bind]. rewrite read_u32_app by done. cbn [mbind option_bind].
  rewrite Hk, Nat2Z.id, read_u64s_app by done. cbn [mbind option_bind].
  assert (mapM (λ off, '(e, _) ← read_entry (drop (Z.to_nat off) (file x)); Some (e : list Z * Z).1) (sampled_offsets_ x) = Some (histogram_ x)) as ->.
  { apply mapM_Some, Forall2_same_length_lookup. split; [apply (sd_so x es H)|]. intros k off key Hk1 Hk2.
    destruct (sd_off x es H k off Hk1) as [-> Hlt]. destruct (sample_entry x es k key H Hk2) as (e & He & <-).
    destruct (read_at_offset hd es _ e [] (sd_entries x es H) He) as (s & Hs). rewrite app_nil_r in Hs. rewrite Nat2Z.id, Ehd, <- Hhd, Hs. done. }
  cbn [mbind option_bind]. unfold with_header. by rewrite Hf, <- Es, (sd_n x es H).
Qed.

Definition with_buckets (x y : side) : side :=
  mkSide (n_entries_ y) (sampled_offsets_ y) (histogram_ y) (file_size_ y) (bucket_ids_ x) (bucket_boundaries_ x) (delta_ y) (file y) (bucket_file y).

Lemma load_bucket_approx_ok dir t x :
  bucket_file (sides t dir) = Some (encode_buckets (bucket_boundaries_ x) (bucket_ids_ x)) →
  Forall key_ok (bucket_boundaries_ x) → is_u32 (Z.of_nat (length (bucket_boundaries_ x))) →
  Forall is_u32 (bucket_ids_ x) → is_u32 (Z.of_nat (length (bucket_ids_ x))) →
  load_bucket_approx dir t = Some (set_side dir (with_buckets x (sides t dir)) t).
Proof.
  intros Hf Hk Hkl Hi Hil. unfold load_bucket_approx, with_buckets. destruct (bucket_file (sides t dir)) as [f|]; [|done].
  injection Hf as Ef. unfold encode_buckets in Ef. rewrite Ef at 1. clear Ef. rewrite read_u32_app by done.
  cbn [mbind option_bind]. rewrite Nat2Z.id, read_keys_app by done. cbn [mbind option_bind]. rewrite read_u32_app by done.
  cbn [mbind option_bind]. rewrite <- (app_nil_r (words (bucket_ids_ x))), read_bytes_app by (rewrite words_length; lia).
  cbn [mbind option_bind]. by rewrite words_at_words.
Qed.

(** The object that is constructed over the files of [t]. *)
Definition reopen (t : StringAttrIndex) : StringAttrIndex :=
  mkString (n_vectors t) (n_vectors t) (λ d, mkSide 0 [] [] 0 [] [] [] (file (sides t d)) (bucket_file (sides t d))) [] [] 0 0 (filter_file t).

Lemma bucket_counts x es : bucket_ok x es → is_u32 (Z.of_nat (length (bucket_boundaries_ x))).
Proof.
  intros H. destruct es as [|e es]; [by rewrite (bk_none _ _ H)|]. by rewrite (bk_len _ _ H).
Qed.

Lemma load_approx_ok t t' es :
  saved t t' es → is_u32 (n_vectors t) → is_u32 (Z.of_nat (length es)) → (∀ d, is_u64 (file_size_ (sides t' d))) →
  (∀ d, delta_ (sides t d) = []) →
  ∃ u, load_approx (reopen t') = Some u ∧ (∀ d, sides u d = sides t' d) ∧ hashes_ u = hashes_ t' ∧ n_vectors u = n_vectors t'
  ∧ base_n_vectors_ u = base_n_vectors_ t'.
Proof.
  intros H Hn Hl Hsz Hd. unfold load_approx.
  destruct (sv_side _ _ _ H PREFIX) as (ep & Hpp & Hsp & Hbp & Hip). destruct (sv_side _ _ _ H SUFFIX) as (es' & Hps & Hss & Hbs & His).
  rewrite (load_header_ok PREFIX (reopen t') (sides t' PREFIX) ep); [|done|done|rewrite Hpp; unfold keyed; by rewrite length_map|done].
  cbn [mbind option_bind]. set (t1 := set_side _ _ _).
  rewrite (load_header_ok SUFFIX t1 (sides t' SUFFIX) es'); [|done|done|rewrite Hps; unfold keyed; by rewrite length_map|done].
  cbn [mbind option_bind]. set (t2 := set_side _ _ t1). replace (filter_file t2) with (Some (hashes_ t')) by (symmetry; apply (sv_filter _ _ _ H)).
  set (t3 := mkString _ _ _ _ _ _ _ _). destruct (bucket_bounds _ _ Hsp Hbp) as [Hkp _]. destruct (bucket_bounds _ _ Hss Hbs) as [Hks _].
  rewrite (load_bucket_approx_ok PREFIX t3 (sides t' PREFIX));
    [|apply (sv_buckets _ _ _ H PREFIX)|done|by eapply bucket_counts|by eapply bk_u32|rewrite Hip; unfold is_u32 in *; lia].
  cbn [mbind option_bind]. set (t4 := set_side _ _ t3).
  rewrite (load_bucket_approx_ok SUFFIX t4 (sides t' SUFFIX));
    [|apply (sv_buckets _ _ _ H SUFFIX)|done|by eapply bucket_counts|by eapply bk_u32|rewrite His; unfold is_u32 in *; lia].
  eexists. split; [done|]. split; [|split; [done|split; [done|]]].
  - intros d. pose proof (sv_delta _ _ _ H d) as Hdd. rewrite Hd in Hdd. revert Hdd.
    destruct d; cbn; [destruct (sides t' PREFIX)|destruct (sides t' SUFFIX)]; simpl; by intros ->.
  - cbn. destruct (sv_n _ _ _ H) as [-> ->]. done.
Qed.

Lemma put_strings es : ∀ l,
  Forall (λ e : list Z * Z, 0 <= e.2 < Z.of_nat (length l)) es →
  foldl put_string (Some l) es = foldl (λ acc (e : list Z * Z), l ← acc; vset l (Z.to_nat e.2) e.1) (Some l) es.
Proof.
  induction es as [|e es IH]; intros l Hl; [done|]. apply Forall_cons in Hl as [He Hl]. cbn [foldl].
  unfold put_string at 2. cbn [mbind option_bind]. rewrite (proj2 (Z.leb_gt _ _)) by lia.
  rewrite vset_Some by lia. apply IH. by rewrite length_insert.
Qed.

Lemma load_attrs_ok t t' :
  saved t t' (numbered (strings_ t)) → rows_ok (n_vectors t) (numbered (strings_ t)) → n_vectors t = Z.of_nat (length (strings_ t)) →
  is_u32 (n_vectors t) → is_u64 (file_size_ (sides t' PREFIX)) →
  ∃ u, load_attrs (reopen t') = Some u ∧ strings_ u = strings_ t.
Proof.
  intros H Hr Hn Hu Hsz. destruct (sv_side _ _ _ H PREFIX) as (es & Hp & Hs & _). rewrite keyed_prefix in Hp.
  assert (length es = length (strings_ t)) as Hlen.
  { rewrite Hp. unfold numbered. rewrite length_zip, length_seqZ. lia. }
  unfold load_attrs. rewrite (load_header_ok PREFIX (reopen t') (sides t' PREFIX) es); [|done|done|by rewrite Hlen, <- Hn|done].
  cbn [mbind option_bind]. set (t1 := set_side _ _ _).
  rewrite (all_entries_ok t1 es) by (by eapply side_ok_same; [|exact Hs]). cbn [mbind option_bind].
  change (base_n_vectors_ t1) with (n_vectors t'). rewrite (proj1 (sv_n _ _ _ H)).
  assert (rows_ok (n_vectors t) es) as Hre by (by rewrite Hp). pose proof (rows_ids _ _ Hre) as Hid.
  rewrite put_strings by (rewrite length_replicate; eapply Forall_impl; [exact Hid|]; simpl; lia).
  destruct (foldl_vset (λ e : list Z * Z, Z.to_nat e.2) fst es (replicate (Z.to_nat (n_vectors t)) [])) as (strs & -> & Hsl & Hin & _ & _).
  { rewrite length_replicate. eapply Forall_impl; [exact Hid|]. simpl. lia. }
  { apply ids_nodup; [|apply Hre]. eapply Forall_impl; [exact Hid|]. simpl. lia. }
  cbn [mbind option_bind]. eexists. split; [done|]. cbn [strings_]. apply list_eq. intros i.
  destruct (strings_ t !! i) as [k|] eqn:Ei.
  - rewrite <- (Nat2Z.id i) at 1. apply (Hin (k, Z.of_nat i)). rewrite Hp, string_numbered_elem, Nat2Z.id. split; [lia|done].
  - apply lookup_ge_None in Ei. apply lookup_ge_None. rewrite Hsl, length_replicate. lia.
Qed.

(** ** The operations behind the selectors *)

Definition string_base (t : StringAttrIndex) : Sel.AttrIndex :=
  Sel.mkAttrIndex (n_vectors t) (λ q, estimate_count PREFIX q t) (λ _, Some d_one) (λ q, estimate_prefilter_reads PREFIX q t)
    (λ q, pre_filter PREFIX q t) (λ _, Some 0) (λ _, Some []) (λ v q _, Some (is_member_approx CityHash32 v q t)).

Definition string_ops (t : StringAttrIndex) : Sel.StringOps :=
  Sel.mkStringOps (string_base t) (λ dir q, estimate_count dir q t) (λ dir q, estimate_precision_dir dir q t)
    (λ dir q, estimate_prefilter_reads dir q t) (λ dir q, pre_filter dir q t)
    (λ dir v q _, is_member_approx_dir v q dir t) (λ p, estimate_count_like p t) (λ p, estimate_prefilter_reads_like p t)
    (λ p, pre_filter_like p t).

(** A pattern answers for the strings when its range is one of prefixes or nothing was
    inserted. *)
Lemma pre_filter_like_exact pattern t es :
  string_ok t es → like_ok pattern → Forall (λ e, no_percent e.1) es →
  (like_range pattern).1 = PREFIX ∨ (∀ d, delta_ (sides t d) = []) →
  ∃ l, pre_filter_like pattern t = Some l ∧ StronglySorted Z.lt l ∧ ∀ v, v ∈ l ↔ ∃ k, (k, v) ∈ es ∧ matches_like k pattern = true.
Proof.
  intros H Hq Hnp Hdir. destruct (like_range pattern) as [dir rk] eqn:E. unfold like_ok in Hq. rewrite E in Hq. simpl in Hq, Hdir.
  rewrite Forall_forall in Hnp. pose proof (rows_entries _ _ (st_rows _ _ H)) as Hes. rewrite Forall_forall in Hes.
  destruct (st_side _ _ H dir) as (base & Hs & Hd & Hp). destruct (st_side _ _ H PREFIX) as (bp & _ & Hdp & Hpp). rewrite keyed_prefix in Hpp.
  assert (∀ a v, (a, v) ∈ es → key_of dir (key_of dir a) = a) as Hinv.
  { intros a v Ha. destruct dir; [done|]. apply reverse_involutive. by apply (Hes _ Ha). }
  assert (∀ k v, (k, v) ∈ base → ∃ a, k = key_of dir a ∧ (a, v) ∈ es) as Hbase.
  { intros k v Hk. apply keyed_elem. rewrite Hp. apply elem_of_app. by left. }
  destruct (pre_filter_like_spec pattern dir rk t base E Hq Hs Hdp) as (l & Hl & Hsort & Hv).
  - apply Forall_forall. intros [k v] Hk. destruct (Hbase k v Hk) as (a & -> & Ha). simpl. rewrite (Hinv a v Ha). by apply (Hnp (a, v)).
  - intros k v Hk. apply (Hnp (k, v)). rewrite Hpp. apply elem_of_app. by right.
  - destruct Hdir as [->|Hnil]; [by left|by right].
  - exists l. split_and!; [done|done|]. intros v. rewrite Hv. clear Hl Hsort Hv. split.
    + intros [(k & Hk & Hm)|(k & Hk & Hm)].
      * destruct (Hbase k v Hk) as (a & -> & Ha). exists a. split; [done|]. by rewrite (Hinv a v Ha) in Hm.
      * exists k. split; [|done]. rewrite Hpp. apply elem_of_app. by right.
    + intros (k & Hk & Hm). assert ((key_of dir k, v) ∈ keyed dir es) as Hin by (apply keyed_elem; eauto).
      rewrite Hp, elem_of_app in Hin. destruct Hin as [Hin|Hin]; [left; exists (key_of dir k); by rewrite (Hinv k v Hk)|].
      destruct Hdir as [->|Hnil]; [right; by exists k|]. rewrite Hnil in Hin. by apply not_elem_of_nil in Hin.
Qed.

Lemma hash_no_miss t es k v :
  string_ok t es → (k, v) ∈ es → is_member_approx CityHash32 v k t = true.
Proof. intros H Hk. unfold is_member_approx. rewrite (st_hash _ _ H k v Hk). apply Z.eqb_refl. Qed.

Lemma numbered_rows_spec strs (f : list Z → bool) v :
  (∃ k, (k, v) ∈ numbered strs ∧ f k = true) ↔ 0 <= v < Z.of_nat (length strs) ∧ f (default [] (strs !! Z.to_nat v)) = true.
Proof.
  setoid_rewrite string_numbered_elem. split.
  - intros (k & [Hv Hk] & Hf). pose proof (lookup_lt_Some _ _ _ Hk). rewrite Hk. split; [lia|done].
  - intros [Hv Hf]. destruct (lookup_lt_is_Some_2 strs (Z.to_nat v)) as [k Hk]; [lia|]. rewrite Hk in Hf. exists k. split; [|done]. split; [lia|done].
Qed.

(** A saved index keeps its promises to the selectors. *)
Lemma saved_string_spec t t' :
  saved t t' (numbered (strings_ t)) → string_ok t' (numbered (strings_ t)) → (∀ d, delta_ (sides t' d) = []) →
  Forall no_percent (strings_ t) →
  Sel.StringIndexSpec (string_ops t') (Z.of_nat (length (strings_ t))) (λ v, default [] (strings_ t !! Z.to_nat v)) query_ok like_ok.
Proof.
  intros Hsv Hok Hd Hnp. split.
  - intros q Hq. destruct (pre_filter_exact_dir PREFIX t' _ q Hok Hq) as (l & Hl & Hs & Hv). exists l. split_and!; [done|done|].
    intros v. rewrite Hv. apply (numbered_rows_spec _ (λ k, matches_dir PREFIX k q)).
  - intros dir q Hq. destruct (pre_filter_exact_dir dir t' _ q Hok Hq) as (l & Hl & Hs & Hv). exists l. split_and!; [done|done|].
    intros v. rewrite Hv. apply (numbered_rows_spec _ (λ k, matches_dir dir k q)).
  - intros p Hp. destruct (pre_filter_like_exact p t' _ Hok Hp) as (l & Hl & Hs & Hv); [|by right|].
    { apply Forall_forall. intros [k v] [_ Hk]%string_numbered_elem. rewrite Forall_lookup in Hnp. by eapply Hnp. }
    exists l. split_and!; [done|done|]. intros v. rewrite Hv. apply (numbered_rows_spec _ (λ k, matches_like k p)).
  - intros q. exists []. split_and!; [done|constructor|]. intros v Hv _. eexists. split; [done|].
    intros ->%bool_decide_eq_true. destruct (lookup_lt_is_Some_2 (strings_ t) (Z.to_nat v)) as [k Hk]; [lia|]. rewrite Hk.
    eapply hash_no_miss; [exact Hok|]. apply string_numbered_elem. split; [lia|done].
  - intros dir q v Hq Hv. destruct (sv_side _ _ _ Hsv dir) as (es & Hp & Hs & Hb & _).
    destruct (bucket_no_miss dir t' es q v Hs Hb Hq) as (b & Hb' & Hm). exists b. split; [done|].
    destruct (lookup_lt_is_Some_2 (strings_ t) (Z.to_nat v)) as [k Hk]; [lia|]. rewrite Hk. simpl. rewrite <- key_of_matches. apply Hm.
    rewrite Hp. apply keyed_elem. exists k. split; [done|]. apply string_numbered_elem. split; [lia|done].
Qed.

(** ** Histories *)

Inductive op :=
  | OInsert (v : Z) (a : list Z)
  | OMerge (id_map : gmap Z Z).

Definition apply_op (o : op) (t : StringAttrIndex) : option StringAttrIndex :=
  match o with OInsert v a => insert CityHash32 v a t | OMerge m => do_merge CityHash32 m t end.

Fixpoint run (ops : list op) (t : StringAttrIndex) : option StringAttrIndex :=
  match ops with [] => Some t | o :: ops => t ← apply_op o t; run ops t end.

(** An index over the given strings. *)
Definition build (strs : list (list Z)) : option StringAttrIndex :=
  save CityHash32 (load_from_rows strs (new_index (Z.of_nat (length strs)))).

(** Strings an index can be built over. *)
Definition strings_ok (strs : list (list Z)) : Prop := Forall key_ok strs ∧ is_u32 (Z.of_nat (length strs)).

Lemma build_ok strs :
  strings_ok strs →
  ∃ t, build strs = Some t ∧ saved (load_from_rows strs (new_index (Z.of_nat (length strs)))) t (numbered strs)
  ∧ string_ok t (numbered strs).
Proof. intros [Hs Hn]. by apply (save_ok (load_from_rows strs (new_index (Z.of_nat (length strs))))). Qed.

End hash.

(** The strings a history stands for, and the operations that may come next. *)
Definition spec_op (o : op) (es : list (list Z * Z)) : list (list Z * Z) :=
  match o with OInsert v a => (a, v) :: es | OMerge m => remap_entries m es end.

Definition op_ok (o : op) (es : list (list Z * Z)) : Prop :=
  match o with
  | OInsert v a => key_ok a ∧ 0 <= v ∧ is_u32 (v + 1) ∧ v ∉ es.*2
  | OMerge m => good_map m
  end.

Fixpoint spec_run (ops : list op) (es : list (list Z * Z)) : list (list Z * Z) :=
  match ops with [] => es | o :: ops => spec_run ops (spec_op o es) end.

Fixpoint ops_ok (ops : list op) (es : list (list Z * Z)) : Prop :=
  match ops with [] => True | o :: ops => op_ok o es ∧ ops_ok ops (spec_op o es) end.

Lemma run_ok CityHash32 ops : ∀ t es,
  string_ok CityHash32 t es → ops_ok ops es → ∃ t', run CityHash32 ops t = Some t' ∧ string_ok CityHash32 t' (spec_run ops es).
Proof.
  induction ops as [|o ops IH]; intros t es H Hok; [by exists t|]. destruct Hok as [Ho Hok]. cbn [run spec_run].
  assert (∃ t1, apply_op CityHash32 o t = Some t1 ∧ string_ok CityHash32 t1 (spec_op o es)) as (t1 & -> & H1).
  { destruct o as [v a|m]; simpl in *; [destruct Ho as (Ha & Hv & Hu & Hn); by apply string_insert_ok|].
    destruct (do_merge_ok CityHash32 m t es H Ho) as (t1 & -> & H1 & _). eauto. }
  cbn [mbind option_bind]. by apply IH.
Qed.

(** ** Theorems *)

(** C11: A string index built over packed strings that are empty or of a length that is
    not a multiple of four, so that each ends in a NUL byte within its words (the
    comparison reads past the end of the others, see the findings), answers, after any
    sequence of inserts of such strings under ids not yet present and of merges with
    an empty or injective numbering, every prefix and suffix pre-filter whose query is
    such a string without the byte 255 with exactly the vectors whose string matches,
    in increasing order, from its sorted files and its pending inserts.  On these
    inputs no operation reads or writes out of range, and the hash test never loses an
    equal string. *)
Theorem string_index_refines CityHash32 strs ops :
  strings_ok strs → ops_ok ops (numbered strs) →
  ∃ t0 t, build CityHash32 strs = Some t0 ∧ run CityHash32 ops t0 = Some t
  ∧ (∀ dir q, query_ok q → ∃ l, pre_filter dir q t = Some l ∧ StronglySorted Z.lt l
       ∧ ∀ v, v ∈ l ↔ ∃ k, (k, v) ∈ spec_run ops (numbered strs) ∧ matches_dir dir k q = true)
  ∧ ∀ k v, (k, v) ∈ spec_run ops (numbered strs) → is_member_approx CityHash32 v k t = true.
Proof.
  intros Hs Ho. destruct (build_ok CityHash32 strs Hs) as (t0 & Hb & _ & H0). destruct (run_ok CityHash32 ops t0 _ H0 Ho) as (t & Hr & H).
  exists t0, t. split_and!; [done|done| |].
  - intros dir q Hq. by eapply pre_filter_exact_dir.
  - intros k v Hk. by eapply hash_no_miss.
Qed.

Lemma key_ok_text s : text s → (s = [] ∨ (length s mod 4 ≠ 0)%nat) → (length s < 1000)%nat → key_ok (pack_string_attr s).
Proof. intros Ht Hl Hn. exists s. split_and!; [done|done|done|]. unfold is_u32. lia. Qed.

Ltac key_ok_concrete s := apply (key_ok_text s); [repeat (constructor; [lia|]); constructor|right; done|simpl; lia].

Lemma key_a : key_ok [97].
Proof. key_ok_concrete [97]. Qed.
Lemma key_ab : key_ok [97 + 256 * 98].
Proof. key_ok_concrete [97; 98]. Qed.
Lemma query_a : query_ok [97].
Proof. split; [apply key_a|]. apply (bool_decide_unpack _). by vm_compute. Qed.
Lemma strings_a_ab : strings_ok [[97]; [97 + 256 * 98]].
Proof. split; [|done]. repeat constructor; [apply key_a|apply key_ab]. Qed.

Definition length_hash (bs : list Z) : Z := Z.of_nat (length bs).

Lemma good_map_two : good_map {[1 := 0; 2 := 1]}.
Proof.
  right. split_and!; [apply (bool_decide_unpack _); by vm_compute|done|].
  intros i j nid. rewrite !lookup_insert_Some, !lookup_singleton_Some. naive_solver.
Qed.

(** "a" and "ab", a third vector "a", and the merge that forgets the first: the vectors
    that start with "a". *)
Lemma string_index_refines_witness :
  ∃ t0 t l, build length_hash [[97]; [97 + 256 * 98]] = Some t0 ∧ run length_hash [OInsert 2 [97]; OMerge {[1 := 0; 2 := 1]}] t0 = Some t
  ∧ pre_filter PREFIX [97] t = Some l ∧ 0 ∈ l ∧ 1 ∈ l.
Proof.
  destruct (string_index_refines length_hash [[97]; [97 + 256 * 98]] [OInsert 2 [97]; OMerge {[1 := 0; 2 := 1]}])
    as (t0 & t & Hb & Hr & Hp & _).
  - apply strings_a_ab.
  - simpl. split_and!; [apply key_a|lia|done| |apply good_map_two|done]. apply (bool_decide_unpack _). by vm_compute.
  - destruct (Hp PREFIX [97] query_a) as (l & Hl & _ & Hv). exists t0, t, l. split_and!; [done|done|done| |].
    + apply Hv. exists [97 + 256 * 98]. split; [apply (bool_decide_unpack _); by vm_compute|by vm_compute].
    + apply Hv. exists [97]. split; [apply (bool_decide_unpack _); by vm_compute|by vm_compute].
Defined.

(** C37: The files saved by a string index that was just built from rows, each of them
    empty or of a length that is not a multiple of four (a NUL byte ends it within its
    words; the sort of [save] reads past the others), are enough to rebuild it, if they
    are shorter than [2^64] bytes: an object constructed over them and loaded has the
    headers, samples, buckets and hashes of the saved index, and reading the rows back
    gives the strings it was built from. *)
Theorem string_save_load CityHash32 strs :
  strings_ok strs →
  ∃ t, build CityHash32 strs = Some t
  ∧ ((∀ d, is_u64 (file_size_ (sides t d))) →
     (∃ u, load_approx (reopen t) = Some u ∧ (∀ d, sides u d = sides t d) ∧ hashes_ u = hashes_ t ∧ n_vectors u = n_vectors t
        ∧ base_n_vectors_ u = base_n_vectors_ t)
     ∧ ∃ u, load_attrs (reopen t) = Some u ∧ strings_ u = strs).
Proof.
  intros Hs. destruct (build_ok CityHash32 strs Hs) as (t & Hb & Hsv & Hok). exists t. split; [done|]. intros Hsz.
  assert (length (numbered strs) = length strs) as Hl by (unfold numbered; rewrite length_zip, length_seqZ; lia). split.
  - eapply load_approx_ok; [exact Hsv|apply Hs|rewrite Hl; apply Hs|done|done].
  - apply (load_attrs_ok CityHash32 (load_from_rows strs (new_index (Z.of_nat (length strs))))); [exact Hsv| |done|apply Hs|done]. apply numbered_rows; [apply Hs|simpl; lia|apply Hs].
Qed.

(** "a" and "ab" again. *)
Lemma string_save_load_witness :
  ∃ t u, build length_hash [[97]; [97 + 256 * 98]] = Some t ∧ load_attrs (reopen t) = Some u ∧ strings_ u = [[97]; [97 + 256 * 98]].
Proof.
  destruct (string_save_load length_hash [[97]; [97 + 256 * 98]] strings_a_ab) as (t & Hb & H).
  assert (Hsz : ∀ d, is_u64 (file_size_ (sides t d))).
  { vm_compute in Hb. injection Hb as <-. intros []; vm_compute; split; congruence. }
  destruct (H Hsz) as [_ (u & Hu & E)]. exists t, u. split_and!; [exact Hb|exact Hu|exact E].
Defined.

(** C35: A string index just built and saved, over rows without a percent sign that are
    empty or of a length that is not a multiple of four (a NUL byte ends each within its
    words; the comparisons read past the others), keeps the promises the selectors rely
    on for every query string of the same kind without the byte 255, and every pattern
    whose fixed part is such a string: the exact answers of the three kinds of
    pre-filter, and approximate tests that never lose a member. *)
Theorem string_index_promises CityHash32 strs :
  strings_ok strs → Forall no_percent strs →
  ∃ t, build CityHash32 strs = Some t
  ∧ Sel.StringIndexSpec (string_ops CityHash32 t) (Z.of_nat (length strs)) (λ v, default [] (strs !! Z.to_nat v)) query_ok like_ok.
Proof.
  intros Hs Hnp. destruct (build_ok CityHash32 strs Hs) as (t & Hb & Hsv & Hok). exists t. split; [done|].
  apply (saved_string_spec CityHash32 (load_from_rows strs (new_index (Z.of_nat (length strs))))); [exact Hsv|exact Hok| |done]. intros d. by rewrite (sv_delta _ _ _ _ Hsv).
Qed.

Lemma string_index_promises_witness :
  ∃ t, build length_hash [[97]; [97 + 256 * 98]] = Some t
  ∧ Sel.answers 2 (Sel.pre_filter (Sel.str_base (string_ops length_hash t)) [97]) (λ _, true).
Proof.
  destruct (string_index_promises length_hash [[97]; [97 + 256 * 98]] strings_a_ab) as (t & Hb & Hix).
  - repeat constructor; apply (bool_decide_unpack _); by vm_compute.
  - exists t. split; [exact Hb|]. destruct (Sel.sis_pre_filter [97] query_a) as (l & Hl & Hs & Hv). exists l. split_and!; [exact Hl|exact Hs|].
    intros v. rewrite (Hv v). split; [intros [Hr _]; split; [exact Hr|reflexivity]|]. intros [Hr _]. split; [exact Hr|].
    change (Z.of_nat (length [[97]; [97 + 256 * 98]])) with 2 in Hr. assert (v = 0 ∨ v = 1) as [-> | ->] by lia; by vm_compute.
Defined.

(** C39: The pre-filter of an equality on strings answers with every string that starts with
    the query: a longer string is in the answer although the equality test refuses it.  The
    strict mode, whose answers the search returns without another test, does the same. *)
Theorem eq_prefilter_overmatches CityHash32 t es heap key base_key p query_attrs qa rec k v target strict :
  string_ok CityHash32 t es → heap !! p = Some (Sel.IString (string_ops CityHash32 t)) →
  query_attrs !! key = Some qa → Sel.for_each_record qa = [rec] → query_ok rec →
  (k, v) ∈ es → string_attr_starts_with k rec = true → k ≠ rec → target !! base_key = Some k →
  ∃ l, Sel.sel_pre_filter heap (Sel.StringEqSelector key base_key p []) query_attrs strict = Some l ∧ v ∈ l
  ∧ Sel.is_member (Sel.StringEqSelector key base_key p []) query_attrs target = Some false.
Proof.
  intros Hok Hp Hq Hrec Hqok Hk Hst Hne Ht.
  destruct (pre_filter_exact_dir CityHash32 PREFIX t es rec Hok Hqok) as (l & Hl & Hs & Hv).
  assert (v ∈ l) as Hvl by (apply Hv; eauto).
  cbn [Sel.sel_pre_filter Sel.is_member]. unfold Sel.StringEq_pre_filter, Sel.StringEq_is_member, Sel.string_index, Attributes.get, Sel.with_target.
  rewrite Hp, Hq. cbn [mbind option_bind]. rewrite Hrec. unfold Attributes.get. rewrite Ht. cbn [mbind option_bind existsb].
  rewrite bool_decide_eq_false_2 by congruence. exists (or_sorted_unique [] l). split; [|split; [|done]].
  - unfold Sel.or_opt. simpl. rewrite Hl. simpl. done.
  - rewrite or_elem. by right.
Qed.

(** Vector 1 carries "ab", the query is "a". *)
Lemma eq_prefilter_overmatches_witness :
  ∃ t l, build length_hash [[97]; [97 + 256 * 98]] = Some t
  ∧ Sel.sel_pre_filter {[5 := Sel.IString (string_ops length_hash t)]} (Sel.StringEqSelector 1 1 5 []) {[1 := [1; 97]]} true = Some l ∧ 1 ∈ l.
Proof.
  destruct (build_ok length_hash [[97]; [97 + 256 * 98]] strings_a_ab) as (t & Hb & _ & Hok).
  destruct (eq_prefilter_overmatches length_hash t _ {[5 := Sel.IString (string_ops length_hash t)]} 1 1 5 {[1 := [1; 97]]} [1; 97] [97]
              [97 + 256 * 98] 1 {[1 := [97 + 256 * 98]]} true Hok) as (l & Hl & Hv & _);
    [reflexivity|reflexivity|reflexivity|apply query_a|apply (bool_decide_unpack _); vm_compute; reflexivity|vm_compute; reflexivity|intros E; vm_compute in E; congruence|reflexivity|].
  exists t, l. split_and!; [exact Hb|exact Hl|exact Hv].
Defined.

(** "a" with an inserted "b": the index of the example below. *)
Definition b_after_a : option StringAttrIndex := t ← build length_hash [[97]]; insert length_hash 1 [98] t.

(** An insert can be lost to two of the tests.  With "a" saved and "b" inserted, the
    pre-filter finds the vector of "b" for the prefix "b", but the range test of the
    in-filter refuses it: the bucket of a string above every boundary is clipped to 255
    while the range of the query starts at bucket 256.  And the pattern "%b" misses it: the
    range of a pattern with a fixed suffix is one of reversed strings, with which the
    pending inserts are searched in the order of the strings; here "xb" is inserted. *)
Theorem string_insert_lost :
  (∃ t, b_after_a = Some t ∧ pre_filter PREFIX [98] t = Some [1] ∧ is_member_approx_dir 1 [98] PREFIX t = Some false)
  ∧ ∃ t, (t ← build length_hash [[97]]; insert length_hash 1 [120 + 256 * 98] t) = Some t
    ∧ pre_filter SUFFIX [98] t = Some [1] ∧ matches_like [120 + 256 * 98] [37 + 256 * 98] = true ∧ pre_filter_like [37 + 256 * 98] t = Some [].
Proof. split; eexists; (split; [vm_compute; reflexivity|]); vm_compute; done. Qed.

End StrRefine.
