(* ===== verification/DocStore.v ===== *)
(** * The document store ([src/server/doc_store.h])

    Rows of a tag, an id and a document in a key-value store, under two kinds of keys: the
    tag (with id and document) and the id (with the tag).  The key-value store is RocksDB; it
    is a class here ([KV]) with the laws of its documentation ([KVLaws]): a write batch that
    returns ok has applied its operations in order, one that fails has applied none of them,
    a read sees the last one applied, and keys are iterated in the order of their bytes.  An
    operation that writes returns the store and whether it logged an error: the source logs
    the failure of a batch and goes on. *)

From S2P Require Import Prelude Float32 Bytes StringAttr Selector StringIndex StringProof.
From stdpp Require Import sorting.

Module DocStore.
Import StringAttr.
Open Scope Z_scope.

Notation str := (list Z) (only parsing).

(** ** The key-value store *)

Inductive batch_op :=
  | BPut (k v : str)
  | BDelete (k : str)
  | BDeleteRange (a b : str).

(** What an operation leaves under a key. *)
Definition op_effect (k : str) (v : option str) (o : batch_op) : option str :=
  match o with
  | BPut k' v' => if decide (k = k') then Some v' else v
  | BDelete k' => if decide (k = k') then None else v
  | BDeleteRange a b => if negb (lex_lt k a) && lex_lt k b then None else v
  end.

Class KV (DB : Type) := {
  kv_get : str → DB → option str;
  kv_write : list batch_op → DB → DB * bool;      (* the store, and [Status::ok()] *)
  kv_keys : DB → list str
}.

Class KVLaws (DB : Type) `{!KV DB} : Prop := {
  kv_get_write k ops db : (kv_write ops db).2 = true → kv_get k (kv_write ops db).1 = foldl (op_effect k) (kv_get k db) ops;
  kv_get_failed k ops db : (kv_write ops db).2 = false → kv_get k (kv_write ops db).1 = kv_get k db;
  kv_keys_sorted db : StronglySorted (λ a b, lex_lt a b = true) (kv_keys db);
  kv_keys_in k db : k ∈ kv_keys db ↔ is_Some (kv_get k db)
}.

(** ** Keys and values *)

Definition kTagPrefix : Z := 116.
Definition kIdPrefix : Z := 105.

Definition put_be64 (v : Z) : str := map (λ i, Z.land (Z.shiftr v (8 * (7 - i))) 255) (seqZ 0 8).
Definition get_be64 (src : str) : Z := foldl (λ v b, u64 (Z.lor (Z.shiftl v 8) b)) 0 (take 8 src).

Definition tag_key (tag : Z) : str := kTagPrefix :: put_be64 tag.
Definition id_key (id : str) : str := kIdPrefix :: id.
Definition encode_tag_value (id doc : str) : str := id ++ 0 :: doc.

(** Up to the first NUL byte, and what follows it. *)
Fixpoint decode_tag_value (v : str) : str * str :=
  match v with
  | [] => ([], [])
  | b :: v => if b =? 0 then ([], v) else let '(id, doc) := decode_tag_value v in (b :: id, doc)
  end.

Notation row := (Z * list Z * list Z)%type (only parsing).

Section store.
Context {DB : Type} `{!KV DB}.

(** [db_]: the pointer, or null. *)
Notation db_ := (option DB) (only parsing).

(** [open]: the database of the directory, when RocksDB opens it; [close] drops the handle. *)
Definition close (db : db_) : db_ := None.
Definition open (opened : option DB) (db : db_) : db_ * bool :=
  let db := close db in
  match opened with Some d => (Some d, true) | None => (db, false) end.
Definition is_open (db : db_) : bool := match db with Some _ => true | None => false end.

Definition put_ops (rows : list row) : list batch_op :=
  concat (map (λ r : row, [BPut (tag_key r.1.1) (encode_tag_value r.1.2 r.2); BPut (id_key r.1.2) (put_be64 r.1.1)]) rows).

(** [Write] of a batch, and the error it logs when the status is not ok. *)
Definition write_batch (ops : list batch_op) (d : DB) : db_ * bool :=
  let '(d, ok) := kv_write ops d in (Some d, negb ok).

Definition put_batch (rows : list row) (db : db_) : db_ * bool :=
  match db, rows with Some d, _ :: _ => write_batch (put_ops rows) d | _, _ => (db, false) end.

(** Per tag: the id, the document and whether the row is there. *)
Definition get_by_tags (tags : list Z) (db : db_) : list (str * str * bool) :=
  map (λ tag, match d ← db; kv_get (tag_key tag) d with
              | Some v => (decode_tag_value v, true)
              | None => ([], [], false)
              end) tags.

Definition get_tags_by_ids (ids : list str) (db : db_) : list Z :=
  map (λ id, match d ← db; kv_get (id_key id) d with Some v => get_be64 v | None => -1 end) ids.

Definition get_docs_by_ids (ids : list str) (db : db_) : list (str * str) :=
  match db with
  | None => []
  | Some _ =>
      let existing := filter (λ x : str * Z, 0 <= x.2) (zip ids (get_tags_by_ids ids db)) in
      let got := get_by_tags (map (λ x : str * Z, u32 x.2) existing) db in
      zip existing.*1 (map (λ g : str * str * bool, g.1.2) got)
  end.

Definition delete_ops (ids : list str) (tags : list Z) : list batch_op :=
  concat (map (λ x : str * Z, if x.2 <? 0 then [] else [BDelete (tag_key (u32 x.2)); BDelete (id_key x.1)]) (zip ids tags)).

Definition delete_by_ids (ids : list str) (db : db_) : db_ * bool :=
  match db, ids with Some d, _ :: _ => write_batch (delete_ops ids (get_tags_by_ids ids db)) d | _, _ => (db, false) end.

(** [Seek]: the keys from the first one that is not below. *)
Fixpoint seek (lower : str) (keys : list str) : list str :=
  match keys with [] => [] | k :: ks => if lex_lt k lower then seek lower ks else keys end.

(** The loop of [count] and [scan]: the tag keys of nine bytes. *)
Fixpoint tag_keys (keys : list str) : list str :=
  match keys with
  | (c :: k) :: ks => if c =? kTagPrefix then (if Nat.eqb (length (c :: k)) 9 then (c :: k) :: tag_keys ks else tag_keys ks) else []
  | _ => []
  end.

Definition count (db : db_) : Z :=
  match db with None => 0 | Some d => Z.of_nat (length (tag_keys (seek [kTagPrefix] (kv_keys d)))) end.

Definition scan (db : db_) : list row :=
  match db with
  | None => []
  | Some d => map (λ k, (u32 (get_be64 (drop 1 k)), (decode_tag_value (default [] (kv_get k d))).1, (decode_tag_value (default [] (kv_get k d))).2))
                (tag_keys (seek [kTagPrefix] (kv_keys d)))
  end.

(** [SeekForPrev]: the last key that is not above. *)
Definition seek_for_prev (upper : str) (keys : list str) : option str := last (filter (λ k, lex_lt upper k = false) keys).

Definition max_tag (db : db_) : Z :=
  match db with
  | None => -1
  | Some d =>
      match seek_for_prev (kTagPrefix :: replicate 8 255) (kv_keys d) with
      | Some (c :: k) => if Nat.eqb (length (c :: k)) 9 && (c =? kTagPrefix) then get_be64 (take 8 k) else -1
      | _ => -1
      end
  end.

Definition clear_ops : list batch_op :=
  [BDeleteRange [kTagPrefix] [kTagPrefix + 1]; BDeleteRange [kIdPrefix] [kIdPrefix + 1]].

Definition clear (db : db_) : db_ * bool :=
  match db with Some d => write_batch clear_ops d | None => (db, false) end.
End store.

(** ** Big-endian numbers *)

Definition be_value (bs : list Z) : Z := foldl (λ v b, v * 256 + b) 0 bs.

Lemma be_foldl bs v : foldl (λ v b, v * 256 + b) v bs = v * 256 ^ Z.of_nat (length bs) + be_value bs.
Proof.
  unfold be_value. revert v. induction bs as [|b bs IH]; intros v; cbn [foldl length]; [simpl; lia|].
  rewrite IH, (IH (0 * 256 + b)), Nat2Z.inj_succ, Z.pow_succ_r by lia. ring.
Qed.

Lemma be_bound bs : Forall is_byte bs → 0 <= be_value bs < 256 ^ Z.of_nat (length bs).
Proof.
  induction bs as [|b bs IH] using rev_ind; intros H; [done|]. apply Forall_app in H as [H Hb]. apply Forall_cons in Hb as [Hb _].
  unfold be_value in *. rewrite foldl_app, length_app. cbn [foldl length]. specialize (IH H). unfold is_byte in Hb.
  rewrite Nat2Z.inj_add, Z.pow_add_r by lia. change (256 ^ Z.of_nat 1) with 256.
  generalize dependent (256 ^ Z.of_nat (length bs)). generalize (foldl (λ v b, v * 256 + b) 0 bs). intros. lia.
Qed.

(** The order of bytes is the order of the numbers. *)
Lemma be_order xs : ∀ ys, length xs = length ys → Forall is_byte xs → Forall is_byte ys → lex_lt xs ys = (be_value xs <? be_value ys).
Proof.
  induction xs as [|x xs IH]; intros [|y ys] Hl Hx Hy; try done. simpl in Hl. apply Forall_cons in Hx as [Hx Hxs], Hy as [Hy Hys].
  cbn [lex_lt]. rewrite IH by (done || lia). unfold be_value. cbn [foldl]. rewrite !be_foldl.
  pose proof (be_bound xs Hxs) as Bx. pose proof (be_bound ys Hys) as By. replace (length ys) with (length xs) in * by lia.
  set (P := 256 ^ Z.of_nat (length xs)) in *. apply eq_true_iff_eq. rewrite orb_true_iff, andb_true_iff, !Z.ltb_lt, Z.eqb_eq.
  rewrite !Z.mul_0_l, !Z.add_0_l. split.
  - intros [Hlt|[-> Hb]]; [nia|lia].
  - intros H. destruct (Z.lt_trichotomy x y) as [Hlt|[->|Hgt]]; [by left|right; split; [done|lia]|nia].
Qed.

Lemma lor_byte v b : 0 <= v → is_byte b → Z.lor (Z.shiftl v 8) b = v * 256 + b.
Proof.
  intros Hv Hb. rewrite <- Z.add_nocarry_lor; [by rewrite Z.shiftl_mul_pow2 by lia|]. apply Z.bits_inj'. intros n Hn.
  rewrite Z.land_spec, Z.bits_0, Z.shiftl_spec by lia. destruct (Z.ltb_spec n 8) as [Hlt|Hge].
  - rewrite Z.testbit_neg_r by lia. done.
  - replace b with (b mod 2 ^ 8) by (unfold is_byte in Hb; apply Z.mod_small; lia). rewrite Z.mod_pow2_bits_high by lia. apply andb_false_r.
Qed.

Lemma put_be64_bytes v : Forall is_byte (put_be64 v) ∧ length (put_be64 v) = 8%nat.
Proof.
  split; [|done]. apply Forall_fmap, Forall_forall. intros i _. simpl. change 255 with (Z.ones 8). rewrite Z.land_ones by lia.
  unfold is_byte. apply Z.mod_pos_bound. lia.
Qed.

Lemma put_be64_value v : is_u64 v → be_value (put_be64 v) = v.
Proof.
  intros Hv. unfold put_be64, be_value. change (seqZ 0 8) with [0; 1; 2; 3; 4; 5; 6; 7]. cbn [map foldl]. change 255 with (Z.ones 8).
  rewrite !Z.land_ones, !Z.shiftr_div_pow2 by lia. unfold is_u64 in Hv.
  assert (Hdiv : ∀ k, 0 <= k → v / 2 ^ (8 * (k + 1)) = v / 2 ^ (8 * k) / 256).
  { intros k Hk. rewrite Z.div_div by lia. f_equal. replace (8 * (k + 1)) with (8 * k + 8) by lia. by rewrite Z.pow_add_r by lia. }
  change (7 - 0) with (6 + 1). change (7 - 1) with (5 + 1). change (7 - 2) with (4 + 1). change (7 - 3) with (3 + 1).
  change (7 - 4) with (2 + 1). change (7 - 5) with (1 + 1). change (7 - 6) with (0 + 1). change (7 - 7) with 0.
  pose proof (Hdiv 0) as D0. pose proof (Hdiv 1) as D1. pose proof (Hdiv 2) as D2. pose proof (Hdiv 3) as D3. pose proof (Hdiv 4) as D4.
  pose proof (Hdiv 5) as D5. pose proof (Hdiv 6) as D6. change (8 * 0) with 0 in *. rewrite Z.pow_0_r, Z.div_1_r in *. change (2 ^ 8) with 256.
  change (0 + 1) with 1 in *. change (1 + 1) with 2 in *. change (2 + 1) with 3 in *. change (3 + 1) with 4 in *. change (4 + 1) with 5 in *.
  change (5 + 1) with 6 in *. change (6 + 1) with 7 in *. rewrite D6, D5, D4, D3, D2, D1, D0 by lia.
  clear D0 D1 D2 D3 D4 D5 D6 Hdiv.
  assert (Hm : ∀ x, x = 256 * (x / 256) + x mod 256 ∧ 0 <= x mod 256 < 256)
    by (intros x; split; [apply Z.div_mod; lia|apply Z.mod_pos_bound; lia]).
  pose proof (Hm v) as H0. set (v1 := v / 256) in *. pose proof (Hm v1) as H1. set (v2 := v1 / 256) in *. pose proof (Hm v2) as H2.
  set (v3 := v2 / 256) in *. pose proof (Hm v3) as H3. set (v4 := v3 / 256) in *. pose proof (Hm v4) as H4. set (v5 := v4 / 256) in *.
  pose proof (Hm v5) as H5. set (v6 := v5 / 256) in *. pose proof (Hm v6) as H6. set (v7 := v6 / 256) in *. clear Hm.
  rewrite (Z.mod_small v7) by lia. lia.
Qed.

Lemma get_put_be64 v : is_u64 v → get_be64 (put_be64 v) = v.
Proof.
  intros Hv. destruct (put_be64_bytes v) as [Hb Hl]. unfold get_be64. rewrite take_ge by lia.
  rewrite <- (put_be64_value v Hv) at 2. unfold be_value.
  assert (∀ bs acc, Forall is_byte bs → 0 <= acc → acc * 256 ^ Z.of_nat (length bs) + be_value bs < 2 ^ 64 →
    foldl (λ v b, u64 (Z.lor (Z.shiftl v 8) b)) acc bs = foldl (λ v b, v * 256 + b) acc bs) as Hgen.
  { clear. intros bs. induction bs as [|b bs IH]; intros acc Hb Ha Hlt; [done|]. pose proof (be_bound _ Hb) as Hbb.
    apply Forall_cons in Hb as [Hb0 Hb]. cbn [foldl]. rewrite lor_byte by done. pose proof (be_bound _ Hb).
    unfold be_value in Hlt, Hbb. cbn [foldl length] in Hlt, Hbb. rewrite be_foldl in Hlt, Hbb. rewrite Nat2Z.inj_succ, Z.pow_succ_r in Hlt by lia.
    set (P := 256 ^ Z.of_nat (length bs)) in *. unfold is_byte in Hb0. assert (1 <= P) by (unfold P; apply (Z.pow_le_mono_r 256 0); lia).
    unfold u64. rewrite Z.mod_small by nia. apply IH; [done|lia|]. fold P. nia. }
  apply Hgen; [done|lia|]. rewrite put_be64_value by done. rewrite Z.mul_0_l. unfold is_u64 in Hv. lia.
Qed.

(** ** Encodings *)

Lemma u32_u64 v : is_u32 v → is_u64 v.
Proof. unfold is_u32, is_u64. lia. Qed.

Lemma tag_key_inj a b : is_u32 a → is_u32 b → tag_key a = tag_key b → a = b.
Proof.
  intros Ha Hb E%(f_equal (drop 1)). change (put_be64 a = put_be64 b) in E. rewrite <- (put_be64_value a), <- (put_be64_value b) by (by apply u32_u64). by rewrite E. Qed.

Lemma tag_key_order a b : is_u32 a → is_u32 b → lex_lt (tag_key a) (tag_key b) = (a <? b).
Proof.
  intros Ha Hb. unfold tag_key. cbn [lex_lt]. rewrite Z.ltb_irrefl, Z.eqb_refl. cbn [orb andb].
  destruct (put_be64_bytes a) as [Ba La], (put_be64_bytes b) as [Bb Lb]. rewrite be_order by (done || congruence).
  by rewrite !put_be64_value by (by apply u32_u64).
Qed.

Lemma decode_encode id doc : 0 ∉ id → decode_tag_value (encode_tag_value id doc) = (id, doc).
Proof.
  unfold encode_tag_value. induction id as [|b id IH]; intros Hn; [done|]. apply not_elem_of_cons in Hn as [Hb Hn].
  cbn [app decode_tag_value]. rewrite (proj2 (Z.eqb_neq b 0)) by congruence. by rewrite IH.
Qed.

(** ** What a store holds *)

Notation rows := (gmap Z (list Z * list Z)) (only parsing).

(** The contents [g] of a store are the rows [R]: one id per tag. *)
Record rel (g : list Z → option (list Z)) (R : rows) : Prop := mkRel {
  r_tag tag : is_u32 tag → g (tag_key tag) = (λ r, encode_tag_value r.1 r.2) <$> R !! tag;
  r_id id v : g (id_key id) = Some v ↔ ∃ tag doc, R !! tag = Some (id, doc) ∧ v = put_be64 tag;
  r_keys k : is_Some (g k) → (∃ tag, is_u32 tag ∧ k = tag_key tag) ∨ ∃ id, k = id_key id;
  r_u32 tag r : R !! tag = Some r → is_u32 tag ∧ 0 ∉ r.1;
  r_inj t1 t2 id d1 d2 : R !! t1 = Some (id, d1) → R !! t2 = Some (id, d2) → t1 = t2
}.

Lemma rel_ext g g' R : (∀ k, g k = g' k) → rel g R → rel g' R.
Proof.
  intros He [H1 H2 H3 H4 H5]. split; [intros tag Ht; by rewrite <- He, H1|intros id v; by rewrite <- He|intros k; rewrite <- He; apply H3|done|done].
Qed.

Lemma id_tag_ne id tag : id_key id ≠ tag_key tag.
Proof. done. Qed.

Lemma rel_put g R tag id doc :
  rel g R → is_u32 tag → 0 ∉ id → R !! tag = None → (∀ t d, R !! t ≠ Some (id, d)) →
  rel (λ k, op_effect k (op_effect k (g k) (BPut (tag_key tag) (encode_tag_value id doc))) (BPut (id_key id) (put_be64 tag)))
      (<[tag := (id, doc)]> R).
Proof.
  intros [H1 H2 H3 H4 H5] Ht Hid Hnone Hnew. split; cbn [op_effect].
  - intros t Hu. rewrite decide_False by done. destruct (decide (t = tag)) as [->|Hne].
    + by rewrite decide_True, lookup_insert_eq by done.
    + rewrite decide_False, lookup_insert_ne by (congruence || intros E; by apply tag_key_inj in E). by apply H1.
  - intros id' v. destruct (decide (id' = id)) as [->|Hne].
    + rewrite decide_True by done. split.
      * intros [= <-]. exists tag, doc. by rewrite lookup_insert_eq.
      * intros (t & d & Hl & ->). apply lookup_insert_Some in Hl as [[-> _]|[_ Hl]]; [done|]. by apply Hnew in Hl.
    + rewrite decide_False, decide_False by (done || by intros [= ?]). rewrite H2. split; intros (t & d & Hl & ->); exists t, d; (split; [|done]).
      * rewrite lookup_insert_ne; [done|]. intros ->. congruence.
      * apply lookup_insert_Some in Hl as [[_ [= E _]]|[_ Hl]]; [congruence|done].
  - intros k. repeat case_decide; subst; [right; eauto|left; eauto|apply H3].
  - intros t r [[<- <-]|[_ Hl]]%lookup_insert_Some; [done|by apply H4].
  - intros t1 t2 i d1 d2 [[<- [= <- <-]]|[N1 L1]]%lookup_insert_Some [[<- [= <-]]|[N2 L2]]%lookup_insert_Some; subst; try done;
      [by apply Hnew in L2|by apply Hnew in L1|by eapply H5].
Qed.

Lemma rel_delete g R tag id doc :
  rel g R → R !! tag = Some (id, doc) →
  rel (λ k, op_effect k (op_effect k (g k) (BDelete (tag_key tag))) (BDelete (id_key id))) (delete tag R).
Proof.
  intros [H1 H2 H3 H4 H5] Hl. destruct (H4 _ _ Hl) as [Ht Hid]. split; cbn [op_effect].
  - intros t Hu. rewrite decide_False by done. destruct (decide (t = tag)) as [->|Hne].
    + by rewrite decide_True, lookup_delete_eq by done.
    + rewrite decide_False, lookup_delete_ne by (congruence || intros E; by apply tag_key_inj in E). by apply H1.
  - intros id' v. destruct (decide (id' = id)) as [->|Hne].
    + rewrite decide_True by done. split; [done|]. intros (t & d & [Hn Hd]%lookup_delete_Some & _). exfalso. apply Hn. by eapply H5.
    + rewrite decide_False, decide_False by (done || by intros [= ?]). rewrite H2. split; intros (t & d & Hd & ->); exists t, d; (split; [|done]).
      * rewrite lookup_delete_ne; [done|]. intros <-. congruence.
      * by apply lookup_delete_Some in Hd as [_ Hd].
  - intros k. repeat case_decide; [by intros []|by intros []|apply H3].
  - intros t r [_ Hd]%lookup_delete_Some. by apply H4.
  - intros t1 t2 i d1 d2 [_ L1]%lookup_delete_Some [_ L2]%lookup_delete_Some. by eapply H5.
Qed.

(** Deleting a row that is gone. *)
Lemma rel_delete_gone g R tag id :
  rel g R → is_u32 tag → R !! tag = None → (∀ t d, R !! t ≠ Some (id, d)) →
  rel (λ k, op_effect k (op_effect k (g k) (BDelete (tag_key tag))) (BDelete (id_key id))) R.
Proof.
  intros H Ht Hn Hi. eapply rel_ext; [|exact H]. intros k. cbn [op_effect]. pose proof H as [H1 H2 _ _ _]. repeat case_decide; subst; [| |done].
  - destruct (g (id_key id)) as [v|] eqn:E; [|done]. apply H2 in E as (t & d & Hl & _). by apply Hi in Hl.
  - by rewrite H1, Hn.
Qed.

(** ** Operations *)

(** Rows with new tags and new ids. *)
Fixpoint rows_new (l : list (Z * list Z * list Z)) (R : rows) : Prop :=
  match l with
  | [] => True
  | r :: l => is_u32 r.1.1 ∧ 0 ∉ r.1.2 ∧ R !! r.1.1 = None ∧ (∀ t d, R !! t ≠ Some (r.1.2, d)) ∧ rows_new l (<[r.1.1 := (r.1.2, r.2)]> R)
  end.

Definition spec_put (l : list (Z * list Z * list Z)) (R : rows) : rows := foldl (λ R (r : Z * list Z * list Z), <[r.1.1 := (r.1.2, r.2)]> R) R l.

(** The rows without those of the given ids. *)
Definition spec_delete (ids : list (list Z)) (R : rows) : rows := filter (λ x : Z * (list Z * list Z), x.2.1 ∉ ids) R.

Section ops.
Context {DB : Type} `{!KV DB, !KVLaws DB}.

Definition holds (db : option DB) (R : rows) : Prop := ∃ d, db = Some d ∧ rel (λ k, kv_get k d) R.

Lemma put_fold l : ∀ g R, rel g R → rows_new l R → rel (λ k, foldl (op_effect k) (g k) (put_ops l)) (spec_put l R).
Proof.
  induction l as [|r l IH]; intros g R H Hn; [done|]. destruct Hn as (Hu & Hz & Hl & Hi & Hn). 
  apply (IH _ _ (rel_put g R r.1.1 r.1.2 r.2 H Hu Hz Hl Hi) Hn).
Qed.

(** A batch that is applied, and one that is not. *)
Lemma write_holds ops d R R' :
  rel (λ k, kv_get k d) R → ((write_batch ops d).2 = false → rel (λ k, foldl (op_effect k) (kv_get k d) ops) R') →
  holds (write_batch ops d).1 (if (write_batch ops d).2 then R else R').
Proof.
  intros H Hok. unfold write_batch in *. destruct (kv_write ops d) as [d' ok] eqn:E.
  pose proof (λ k, kv_get_write k ops d) as Hw. pose proof (λ k, kv_get_failed k ops d) as Hf. rewrite E in Hw, Hf.
  exists d'. split; [done|]. destruct ok; cbn [fst snd negb] in *.
  - eapply rel_ext; [intros k; symmetry; by apply Hw|]. by apply Hok.
  - eapply rel_ext; [intros k; symmetry; by apply Hf|done].
Qed.

Lemma put_batch_holds l db R :
  holds db R → ((put_batch l db).2 = false → rows_new l R) →
  holds (put_batch l db).1 (if (put_batch l db).2 then R else spec_put l R).
Proof.
  intros (d & -> & H) Hn. destruct l as [|r l]; [by exists d|]. apply write_holds; [done|]. intros Hok. apply put_fold; [done|by apply Hn].
Qed.

Lemma get_by_tags_holds tags db R :
  holds db R → Forall is_u32 tags →
  get_by_tags tags db = map (λ tag, match R !! tag with Some r => (r, true) | None => ([], [], false) end) tags.
Proof.
  intros (d & -> & H) Ht. apply map_ext_in. intros tag Hin%list_elem_of_In. rewrite Forall_forall in Ht. cbn [mbind option_bind].
  rewrite (r_tag _ _ H tag (Ht tag Hin)). destruct (R !! tag) as [[id doc]|] eqn:E; [|done]. simpl.
  rewrite decode_encode; [done|]. by apply (r_u32 _ _ H tag (id, doc)).
Qed.

(** The tag of an id. *)
Lemma get_tag_holds id db R :
  holds db R → ∃ z, get_tags_by_ids [id] db = [z]
  ∧ ((∃ doc, R !! z = Some (id, doc) ∧ is_u32 z) ∨ z = -1 ∧ ∀ t doc, R !! t ≠ Some (id, doc)).
Proof.
  intros (d & -> & H). unfold get_tags_by_ids. cbn [map mbind option_bind]. destruct (kv_get (id_key id) d) as [v|] eqn:E.
  - apply (r_id _ _ H) in E as (tag & doc & Hl & ->). destruct (r_u32 _ _ H _ _ Hl) as [Hu _]. eexists. split; [done|]. left.
    rewrite get_put_be64 by (by apply u32_u64). eauto.
  - eexists. split; [done|]. right. split; [done|]. intros t doc Hl. assert (kv_get (id_key id) d = Some (put_be64 t)) as E' by (apply (r_id _ _ H); eauto).
    congruence.
Qed.

Lemma get_tags_app ids ids' (db : option DB) : get_tags_by_ids (ids ++ ids') db = get_tags_by_ids ids db ++ get_tags_by_ids ids' db.
Proof. apply map_app. Qed.

Lemma spec_delete_cons id ids R : spec_delete (id :: ids) R = spec_delete ids (spec_delete [id] R).
Proof.
  apply map_eq. intros t. apply option_eq. intros r. unfold spec_delete. rewrite !map_lookup_filter_Some. simpl.
  rewrite !not_elem_of_cons. split; [intros (? & ? & ?)|intros ((? & ? & ?) & ?)]; split_and!; try done. apply not_elem_of_nil.
Qed.

Lemma spec_delete_none id R : (∀ t d, R !! t ≠ Some (id, d)) → spec_delete [id] R = R.
Proof.
  intros Hn. apply map_filter_id. intros t [i d] Hl. simpl. rewrite list_elem_of_singleton. intros ->. by apply Hn in Hl.
Qed.

Lemma spec_delete_one g R tag id doc : rel g R → R !! tag = Some (id, doc) → spec_delete [id] R = delete tag R.
Proof.
  intros H Hl. apply map_eq. intros t. apply option_eq. intros [i d]. unfold spec_delete.
  rewrite map_lookup_filter_Some, lookup_delete_Some. simpl. rewrite list_elem_of_singleton. split.
  - intros [Hr Hne]. split; [|done]. intros <-. congruence.
  - intros [Hne Hr]. split; [done|]. intros ->. apply Hne. by eapply (r_inj _ _ H).
Qed.

Lemma delete_fold db R0 ids : holds db R0 → ∀ g R, rel g R → R ⊆ R0 →
  rel (λ k, foldl (op_effect k) (g k) (delete_ops ids (get_tags_by_ids ids db))) (spec_delete ids R).
Proof.
  intros Hdb. induction ids as [|id ids IH]; intros g R H Hsub.
  { unfold spec_delete. rewrite map_filter_id; [done|]. intros t r _. apply not_elem_of_nil. }
  rewrite spec_delete_cons. destruct (get_tag_holds id db R0 Hdb) as (z & Ez & Hz).
  change (id :: ids) with ([id] ++ ids). rewrite get_tags_app, Ez. unfold delete_ops. cbn [app zip zip_with map concat].
  fold (delete_ops ids (get_tags_by_ids ids db)). destruct Hz as [(doc & Hl & Hu)|[-> Hno]].
  - cbn [fst snd]. rewrite (proj2 (Z.ltb_ge z 0)) by (unfold is_u32 in Hu; lia). rewrite (u32_small z Hu). cbn [app foldl].
    destruct Hdb as (d & Ed & Hd). destruct (R !! z) as [r|] eqn:Er.
    + assert (r = (id, doc)) as -> by (eapply lookup_weaken in Er; [|exact Hsub]; congruence).
      rewrite (spec_delete_one g R z id doc H Er). apply (IH _ _ (rel_delete g R z id doc H Er)).
      transitivity R; [apply delete_subseteq|done].
    + assert (Hgone : ∀ t d0, R !! t ≠ Some (id, d0)).
      { intros t d0 Ht. pose proof (lookup_weaken _ _ _ _ Ht Hsub) as Ht0. assert (t = z) as -> by (by eapply (r_inj _ _ Hd)). congruence. }
      rewrite (spec_delete_none id R Hgone). apply (IH _ _ (rel_delete_gone g R z id H Hu Er Hgone) Hsub).
  - cbn [fst snd app]. rewrite spec_delete_none; [by apply IH|]. intros t d0 Ht. apply (Hno t d0). by eapply lookup_weaken.
Qed.

Lemma delete_by_ids_holds ids db R :
  holds db R → holds (delete_by_ids ids db).1 (if (delete_by_ids ids db).2 then R else spec_delete ids R).
Proof.
  intros H. pose proof H as (d & -> & Hr). destruct ids as [|id ids].
  - exists d. split; [done|]. unfold spec_delete. rewrite map_filter_id; [done|]. intros t r _. apply not_elem_of_nil.
  - apply write_holds; [done|]. intros _. by apply (delete_fold (Some d) R).
Qed.

(** ** Iteration *)

Definition is_tag_key (k : list Z) : Prop := ∃ tag, is_u32 tag ∧ k = tag_key tag.

Lemma tag_keys_all ks : Forall is_tag_key ks → tag_keys ks = ks.
Proof. induction 1 as [|k ks (tag & Hu & ->) _ IH]; [done|]. cbn [tag_keys tag_key]. by rewrite IH. Qed.

Lemma seek_tags ks :
  StronglySorted (λ a b, lex_lt a b = true) ks → Forall (λ k, is_tag_key k ∨ ∃ id, k = id_key id) ks →
  ∃ pre, ks = pre ++ seek [kTagPrefix] ks ∧ Forall (λ k, ∃ id, k = id_key id) pre ∧ Forall is_tag_key (seek [kTagPrefix] ks).
Proof.
  induction 1 as [|k ks Hs IH Hk]; intros Hf; [by exists []|]. apply Forall_cons in Hf as [[(tag & Hu & ->)|(id & ->)] Hf].
  - exists []. split_and!; [done|done|]. change (seek [kTagPrefix] (tag_key tag :: ks)) with (tag_key tag :: ks).
    constructor; [by exists tag|]. rewrite Forall_forall in Hk, Hf |- *. intros k Hin. destruct (Hf k Hin) as [|(id & ->)]; [done|].
    by specialize (Hk _ Hin).
  - destruct (IH Hf) as (pre & Hpre & Hp & Ht). exists (id_key id :: pre). change (seek [kTagPrefix] (id_key id :: ks)) with (seek [kTagPrefix] ks).
    split_and!; [simpl; by rewrite <- Hpre|constructor; eauto|done].
Qed.

(** The tags of a store, in order. *)
Definition tags_of (d : DB) : list Z := map (λ k, get_be64 (drop 1 k)) (tag_keys (seek [kTagPrefix] (kv_keys d))).

Lemma get_tag_key tag : is_u32 tag → get_be64 (drop 1 (tag_key tag)) = tag.
Proof. intros Hu. apply get_put_be64. by apply u32_u64. Qed.

Lemma iterate_tags d R :
  rel (λ k, kv_get k d) R →
  tag_keys (seek [kTagPrefix] (kv_keys d)) = map tag_key (tags_of d) ∧ StronglySorted Z.lt (tags_of d)
  ∧ (∀ tag, tag ∈ tags_of d ↔ is_Some (R !! tag)) ∧ ∃ pre, kv_keys d = pre ++ map tag_key (tags_of d) ∧ Forall (λ k, ∃ id, k = id_key id) pre.
Proof.
  intros H. pose proof (kv_keys_sorted d) as Hs.
  destruct (seek_tags (kv_keys d) Hs) as (pre & Hpre & Hp & Ht).
  { apply Forall_forall. intros k Hk%kv_keys_in. by apply (r_keys _ _ H). }
  unfold tags_of. rewrite (tag_keys_all _ Ht). set (T := seek [kTagPrefix] (kv_keys d)) in *.
  assert (E : map tag_key (map (λ k, get_be64 (drop 1 k)) T) = T).
  { clear -Ht. induction Ht as [|k T (tag & Hu & ->) _ IH]; [done|]. cbn [map]. rewrite IH. by rewrite get_tag_key. }
  rewrite E. split; [done|]. rewrite Hpre in Hs. apply StronglySorted_app_1_r in Hs. split_and!.
  - clear -Hs Ht. induction Hs as [|k T Hs IH Hk]; [constructor|]. apply Forall_cons in Ht as [(tag & Hu & ->) Ht]. cbn [map].
    constructor; [by apply IH|]. apply Forall_fmap. rewrite Forall_forall in Hk, Ht |- *. intros k Hin. destruct (Ht k Hin) as (t & Hut & ->).
    specialize (Hk _ Hin). rewrite tag_key_order in Hk by done. unfold compose. rewrite !get_tag_key by done. by apply Z.ltb_lt.
  - intros tag. rewrite list_elem_of_fmap. split.
    + intros (k & -> & Hk). rewrite Forall_forall in Ht. destruct (Ht k Hk) as (t & Hu & ->). rewrite get_tag_key by done.
      assert (is_Some (kv_get (tag_key t) d)) as Hg by (apply kv_keys_in; rewrite Hpre; apply elem_of_app; by right).
      rewrite (r_tag _ _ H t Hu) in Hg. by apply fmap_is_Some in Hg.
    + intros [r Hr]. destruct (r_u32 _ _ H _ _ Hr) as [Hu _]. exists (tag_key tag). rewrite get_tag_key by done. split; [done|].
      assert (tag_key tag ∈ kv_keys d) as Hin by (apply kv_keys_in; rewrite (r_tag _ _ H tag Hu), Hr; eauto).
      rewrite Hpre in Hin. apply elem_of_app in Hin as [Hin|Hin]; [|done]. rewrite Forall_forall in Hp. by destruct (Hp _ Hin) as (id & [=]).
  - by exists pre.
Qed.

Lemma count_holds db R : holds db R → count db = Z.of_nat (size R).
Proof.
  intros (d & -> & H). destruct (iterate_tags d R H) as (E & Hs & Hin & _). cbn [count]. rewrite E, length_map. f_equal.
  rewrite <- (size_dom (D := gset Z)). change (size (dom R : gset Z)) with (length (elements (dom R : gset Z))). apply Permutation_length, NoDup_Permutation; [|apply NoDup_elements|].
  - clear -Hs. induction Hs as [|x l Hs IH Hx]; constructor; [|done]. intros Hin. rewrite Forall_forall in Hx. specialize (Hx x Hin). lia.
  - intros tag. by rewrite Hin, elem_of_elements, elem_of_dom.
Qed.

Lemma scan_holds db R :
  holds db R → StronglySorted Z.lt (map (λ r : Z * list Z * list Z, r.1.1) (scan db)) ∧ ∀ tag id doc, (tag, id, doc) ∈ scan db ↔ R !! tag = Some (id, doc).
Proof.
  intros (d & -> & H). destruct (iterate_tags d R H) as (E & Hs & Hin & _). cbn [scan]. rewrite E, !map_map.
  assert (Hrow : ∀ t, t ∈ tags_of d → ∃ r, R !! t = Some r ∧ is_u32 t ∧ u32 (get_be64 (drop 1 (tag_key t))) = t
    ∧ decode_tag_value (default [] (kv_get (tag_key t) d)) = r).
  { intros t [r Hr]%Hin. destruct (r_u32 _ _ H _ _ Hr) as [Hu Hz]. exists r. split_and!; [done|done|by rewrite get_tag_key, u32_small by done|].
    rewrite (r_tag _ _ H t Hu), Hr. simpl. rewrite decode_encode by done. by destruct r. }
  split.
  - rewrite (map_ext_in _ id); [by rewrite map_id|]. intros t Ht%list_elem_of_In. cbn [fst]. by destruct (Hrow t Ht) as (r & _ & _ & -> & _).
  - intros tag id doc. rewrite list_elem_of_fmap. split.
    + intros (t & Eq & Ht). destruct (Hrow t Ht) as (r & Hr & _ & Et & Er). rewrite Et, Er in Eq. injection Eq as -> -> ->. by destruct r.
    + intros Hr. assert (tag ∈ tags_of d) as Ht by (apply Hin; eauto). destruct (Hrow tag Ht) as (r & Hr' & _ & Et & Er). exists tag.
      rewrite Et, Er. split; [|done]. assert (r = (id, doc)) as -> by congruence. done.
Qed.

Lemma filter_all {A} (P : A → Prop) `{!∀ x, Decision (P x)} l : Forall P l → filter P l = l.
Proof. induction 1 as [|x l Hx _ IH]; [done|]. by rewrite filter_cons_True, IH. Qed.

Lemma not_above tag : lex_lt (kTagPrefix :: replicate 8 255) (tag_key tag) = false.
Proof.
  unfold tag_key. cbn [lex_lt]. rewrite Z.ltb_irrefl, Z.eqb_refl. cbn [orb andb]. destruct (put_be64_bytes tag) as [Hb Hl].
  rewrite be_order; [|by rewrite Hl|apply Forall_replicate; unfold is_byte; lia|done].
  apply Z.ltb_ge. pose proof (be_bound _ Hb) as Hbd. rewrite Hl in Hbd. change (be_value (replicate 8 255)) with (256 ^ 8 - 1). simpl in Hbd |- *. lia.
Qed.

Lemma max_tag_holds db R :
  holds db R → (R = ∅ → max_tag db = -1) ∧ (R ≠ ∅ → is_Some (R !! max_tag db) ∧ ∀ tag, is_Some (R !! tag) → tag <= max_tag db).
Proof.
  intros (d & -> & H). destruct (iterate_tags d R H) as (_ & Hs & Hin & pre & Hk & Hpre). cbn [max_tag].
  assert (seek_for_prev (kTagPrefix :: replicate 8 255) (kv_keys d) = last (pre ++ map tag_key (tags_of d))) as ->.
  { unfold seek_for_prev. rewrite <- Hk. f_equal. apply filter_all. rewrite Hk. apply Forall_app. split.
    - eapply Forall_impl; [exact Hpre|]. by intros k (id & ->).
    - apply Forall_fmap, Forall_forall. intros t _. apply not_above. }
  split.
  - intros ->. destruct (tags_of d) as [|t ts] eqn:Et; [|assert (is_Some ((∅ : rows) !! t)) as [? Hx] by (apply Hin; by left); by rewrite lookup_empty in Hx].
    rewrite app_nil_r. destruct (last pre) as [k|] eqn:Hl; [|done]. apply last_Some_elem_of in Hl. rewrite Forall_forall in Hpre.
    destruct (Hpre k Hl) as (id & ->). cbn [id_key]. by rewrite andb_false_r.
  - intros Hne. destruct (tags_of d) as [|t ts _] eqn:Et using rev_ind.
    + exfalso. apply Hne, map_empty. intros tag. destruct (R !! tag) as [r|] eqn:Er; [|done]. assert (tag ∈ []) as Hx by (apply Hin; eauto). by apply not_elem_of_nil in Hx.
    + assert (is_Some (R !! t)) as [r Hr] by (apply Hin, elem_of_app; right; by apply list_elem_of_singleton).
      destruct (r_u32 _ _ H _ _ Hr) as [Hu _]. rewrite map_app, app_assoc. change (map tag_key [t]) with [tag_key t]. rewrite last_snoc.
      assert (get_be64 (take 8 (put_be64 t)) = t) as Hg by (rewrite take_ge; [apply get_put_be64; by apply u32_u64|by rewrite (proj2 (put_be64_bytes t))]).
      change (is_Some (R !! get_be64 (take 8 (put_be64 t))) ∧ ∀ tag, is_Some (R !! tag) → tag <= get_be64 (take 8 (put_be64 t))).
      rewrite Hg. split; [eauto|]. intros tag Ht. apply Hin, elem_of_app in Ht as [Ht|Ht]; [|apply list_elem_of_singleton in Ht as ->; lia].
      rewrite StronglySorted_app in Hs. destruct Hs as (Hlt & _). specialize (Hlt tag t Ht ltac:(by apply list_elem_of_singleton)). lia.
Qed.

Lemma rel_empty g : (∀ k, g k = None) → rel g ∅.
Proof.
  intros Hnone. apply (rel_ext (λ _, None)); [intros k; by rewrite Hnone|]. split.
  - intros tag _. by rewrite lookup_empty.
  - intros id v. split; [done|]. intros (t & doc & Hl & _). by rewrite lookup_empty in Hl.
  - by intros k [].
  - intros t r Hl. by rewrite lookup_empty in Hl.
  - intros t1 t2 id d1 d2 Hl. by rewrite lookup_empty in Hl.
Qed.

Lemma clear_holds db R : holds db R → holds (clear db).1 (if (clear db).2 then R else ∅).
Proof.
  intros (d & -> & H). apply write_holds; [done|]. intros _. apply rel_empty. intros k. cbn [foldl clear_ops].
  destruct (kv_get k d) as [v|] eqn:E.
  - destruct (r_keys _ _ H k) as [(tag & Hu & ->)|(id & ->)]; [eauto|reflexivity|].
    unfold id_key, kIdPrefix, kTagPrefix. cbn [op_effect lex_lt]. by rewrite lex_nil.
  - cbn [op_effect]. by repeat case_match.
Qed.

(** The documents of the ids that exist. *)
Definition doc_of (R : rows) (id : list Z) : option (list Z * list Z) :=
  match filter (λ x : Z * (list Z * list Z), x.2.1 = id) (map_to_list R) with x :: _ => Some (id, x.2.2) | [] => None end.

Lemma doc_of_some g R t id doc : rel g R → R !! t = Some (id, doc) → doc_of R id = Some (id, doc).
Proof.
  intros H Hl. unfold doc_of. destruct (filter _ (map_to_list R)) as [|[t' [i d']] l] eqn:E.
  - exfalso. apply (not_elem_of_nil (t, (id, doc))). rewrite <- E. apply list_elem_of_filter. split; [done|]. by apply elem_of_map_to_list.
  - assert ((t', (i, d')) ∈ filter (λ x : Z * (list Z * list Z), x.2.1 = id) (map_to_list R)) as Hin by (rewrite E; by left).
    apply list_elem_of_filter in Hin as [Hi Hin]. simpl in Hi. subst i. apply elem_of_map_to_list in Hin. simpl.
    assert (t' = t) as -> by (by eapply (r_inj _ _ H)). congruence.
Qed.

Lemma doc_of_none R id : (∀ t doc, R !! t ≠ Some (id, doc)) → doc_of R id = None.
Proof.
  intros Hn. unfold doc_of. destruct (filter _ (map_to_list R)) as [|[t' [i d']] l] eqn:E; [done|].
  assert ((t', (i, d')) ∈ filter (λ x : Z * (list Z * list Z), x.2.1 = id) (map_to_list R)) as Hin by (rewrite E; by left).
  apply list_elem_of_filter in Hin as [Hi Hin]. simpl in Hi. subst i. apply elem_of_map_to_list in Hin. by apply Hn in Hin.
Qed.

Lemma get_docs_holds ids db R : holds db R → get_docs_by_ids ids db = omap (doc_of R) ids.
Proof.
  intros H. pose proof H as (d & -> & Hr). cbn [get_docs_by_ids]. induction ids as [|id ids IH]; [done|].
  change (id :: ids) with ([id] ++ ids). rewrite get_tags_app. destruct (get_tag_holds id (Some d) R H) as (z & -> & Hz).
  cbn [app zip zip_with omap list_omap]. rewrite filter_cons. destruct Hz as [(doc & Hl & Hu)|[-> Hno]].
  - rewrite decide_True by (simpl; unfold is_u32 in Hu; lia). rewrite (doc_of_some _ R z id doc Hr Hl). cbn [map fst snd]. rewrite (u32_small z Hu).
    change (get_by_tags (z :: ?l) (Some d)) with (get_by_tags [z] (Some d) ++ get_by_tags l (Some d)).
    rewrite (get_by_tags_holds [z] (Some d) R H) by (by apply Forall_singleton). cbn [map]. rewrite Hl. cbn [app map fmap list_fmap fst snd zip zip_with].
    f_equal. exact IH.
  - rewrite decide_False by (simpl; lia). rewrite (doc_of_none R id Hno). exact IH.
Qed.


(** ** Histories *)

Inductive doc_op :=
  | DPut (l : list (Z * list Z * list Z))
  | DDelete (ids : list (list Z))
  | DClear.

Definition apply_doc (db : option DB) (o : doc_op) : option DB * bool :=
  match o with DPut l => put_batch l db | DDelete ids => delete_by_ids ids db | DClear => clear db end.

(** A history, and which of its operations logged an error. *)
Fixpoint run_docs (os : list doc_op) (db : option DB) : option DB * list (doc_op * bool) :=
  match os with
  | [] => (db, [])
  | o :: os => let '(db, failed) := apply_doc db o in let '(db, log) := run_docs os db in (db, (o, failed) :: log)
  end.
End ops.

(** What an operation does to the table: nothing when it logged an error. *)
Definition spec_doc (R : rows) (e : doc_op * bool) : rows :=
  if e.2 then R else match e.1 with DPut l => spec_put l R | DDelete ids => spec_delete ids R | DClear => ∅ end.

(** The batches that are applied have rows that are new in the table they meet. *)
Fixpoint docs_ok (log : list (doc_op * bool)) (R : rows) : Prop :=
  match log with
  | [] => True
  | e :: log => match e with (DPut l, false) => rows_new l R | _ => True end ∧ docs_ok log (spec_doc R e)
  end.

Lemma run_docs_holds {DB} `{!KV DB, !KVLaws DB} os : ∀ (db : option DB) R,
  holds db R → docs_ok (run_docs os db).2 R → holds (run_docs os db).1 (foldl spec_doc R (run_docs os db).2).
Proof.
  induction os as [|o os IH]; intros db R H; [done|]. cbn [run_docs]. destruct (apply_doc db o) as [db' failed] eqn:E.
  specialize (IH db'). destruct (run_docs os db') as [db'' log]. cbn [fst snd docs_ok foldl] in *. intros [Ho Hok]. apply IH; [|done].
  unfold spec_doc. cbn [fst snd]. destruct o as [l|ids|]; simpl in E.
  - pose proof (put_batch_holds l db R H) as Hp. rewrite E in Hp. apply Hp. cbn [snd]. intros ->. exact Ho.
  - pose proof (delete_by_ids_holds ids db R H) as Hp. by rewrite E in Hp.
  - pose proof (clear_holds db R H) as Hp. by rewrite E in Hp.
Qed.

(** C27: The document store is a table of rows with one id per tag, over any key-value store
    that keeps its laws: start from an empty store and run any sequence of batches of rows,
    deletions by id and clears, each of which may fail in the store and log an error.  Then
    looking up tags and ids, counting, scanning and the largest tag answer for exactly the
    rows that the operations without a logged error leave, and an operation that logged one
    has changed nothing.  Required of the caller, judged where a batch is applied: its tags
    are 32-bit, its tags and ids are neither in the table nor repeated in the batch, and its
    ids have no NUL byte ([doc_store_duplicates] shows what happens otherwise).  Required of
    the key-value store ([KVLaws]): batches are atomic and reads do not fail. *)
Theorem doc_store_refines {DB} `{!KV DB, !KVLaws DB} (d0 : DB) os :
  (∀ k, kv_get k d0 = None) → docs_ok (run_docs os (Some d0)).2 ∅ →
  let db := (run_docs os (Some d0)).1 in
  let R := foldl spec_doc ∅ (run_docs os (Some d0)).2 in
  (∀ tags, Forall is_u32 tags →
     get_by_tags tags db = map (λ tag, match R !! tag with Some r => (r, true) | None => ([], [], false) end) tags)
  ∧ (∀ ids, get_docs_by_ids ids db = omap (doc_of R) ids)
  ∧ count db = Z.of_nat (size R)
  ∧ (StronglySorted Z.lt (map (λ r : Z * list Z * list Z, r.1.1) (scan db)) ∧ ∀ tag id doc, (tag, id, doc) ∈ scan db ↔ R !! tag = Some (id, doc))
  ∧ (R = ∅ → max_tag db = -1) ∧ (R ≠ ∅ → is_Some (R !! max_tag db) ∧ ∀ tag, is_Some (R !! tag) → tag <= max_tag db).
Proof.
  intros H0 Hok db R. assert (holds (Some d0) ∅) as Hinit by (exists d0; split; [done|by apply rel_empty]).
  pose proof (run_docs_holds os (Some d0) ∅ Hinit Hok) as H. fold db R in H. split_and!.
  - intros tags Ht. by apply get_by_tags_holds.
  - intros ids. by apply get_docs_holds.
  - by apply count_holds.
  - apply (scan_holds db R H).
  - apply (scan_holds db R H).
  - apply (max_tag_holds db R H).
  - apply (max_tag_holds db R H).
Qed.

(** ** A store that keeps the laws *)

Definition lex_le (a b : list Z) : Prop := lex_lt b a = false.
#[global] Instance lex_le_dec a b : Decision (lex_le a b).
Proof. unfold lex_le. apply _. Defined.

Definition apply_batch (m : gmap (list Z) (list Z)) (o : batch_op) : gmap (list Z) (list Z) :=
  match o with
  | BPut k v => <[k := v]> m
  | BDelete k => delete k m
  | BDeleteRange a b => filter (λ x : list Z * list Z, negb (lex_lt x.1 a) && lex_lt x.1 b = false) m
  end.

(** A map, and the batches to come that fail. *)
Record store := mkStore { contents : gmap (list Z) (list Z); faults : list bool }.

#[global] Instance map_kv : KV store := {
  kv_get k s := contents s !! k;
  kv_write ops s :=
    match faults s with
    | true :: fs => (mkStore (contents s) fs, false)
    | fs => (mkStore (foldl apply_batch (contents s) ops) (tail fs), true)
    end;
  kv_keys s := merge_sort lex_le (map_to_list (contents s)).*1
}.

Lemma batch_effect k ops : ∀ m, foldl apply_batch m ops !! k = foldl (op_effect k) (m !! k) ops.
Proof.
  induction ops as [|o ops IH]; intros m; [done|]. cbn [foldl]. rewrite IH. f_equal. destruct o as [k' v|k'|a b]; simpl.
  - destruct (decide (k = k')) as [->|Hne]; [by rewrite lookup_insert_eq|by rewrite lookup_insert_ne].
  - destruct (decide (k = k')) as [->|Hne]; [by rewrite lookup_delete_eq|by rewrite lookup_delete_ne].
  - rewrite map_lookup_filter. destruct (m !! k) as [v|]; simpl; [|by destruct (_ && _)].
    destruct (negb (lex_lt k a) && lex_lt k b) eqn:E; [by rewrite option_guard_False by (simpl; congruence)|by rewrite option_guard_True].
Qed.

#[global] Instance map_kv_laws : KVLaws store.
Proof.
  split.
  - intros k ops s. cbn [kv_get kv_write map_kv]. destruct (faults s) as [|[|] fs]; intros H; try done; apply batch_effect.
  - intros k ops s. cbn [kv_get kv_write map_kv]. by destruct (faults s) as [|[|] fs].
  - intros [m fs]. cbn [kv_keys map_kv contents].
    assert (StronglySorted lex_le (merge_sort lex_le (map_to_list m).*1)) as Hs.
    { apply StronglySorted_merge_sort.
      - intros a b c Hab Hbc. unfold lex_le in *. by eapply StrProof.lex_le_trans.
      - intros a b. unfold lex_le. destruct (lex_lt b a) eqn:E; [|by left]. right. apply not_true_iff_false. intros E'.
        pose proof (StrProof.lex_trans _ _ _ E E') as K. by rewrite StrProof.lex_irrefl in K. }
    assert (NoDup (merge_sort lex_le (map_to_list m).*1)) as Hn by (rewrite merge_sort_Permutation; apply NoDup_fst_map_to_list).
    revert Hn. induction Hs as [|k l Hs IH Hk]; intros Hn; constructor; apply NoDup_cons in Hn as [Hni Hn]; [by apply IH|].
    rewrite Forall_forall in Hk |- *. intros k' Hin. specialize (Hk k' Hin). unfold lex_le in Hk. apply not_false_iff_true. intros E.
    apply Hni. by rewrite (StrProof.lex_total k k' E Hk).
  - intros k [m fs]. cbn [kv_keys kv_get map_kv contents]. rewrite merge_sort_Permutation, list_elem_of_fmap. split.
    + intros ([k' v] & -> & Hin%elem_of_map_to_list). eauto.
    + intros [v Hv]. exists (k, v). split; [done|]. by apply elem_of_map_to_list.
Qed.

(** Two rows; a clear that fails; one row deleted by its id; a batch that fails, with an id
    that is already there. *)
Definition faulty : store := mkStore ∅ [false; true; false; true].
Definition history : list doc_op :=
  [DPut [(0, [97], [1; 2]); (300, [98], [3])]; DClear; DDelete [[97]]; DPut [(7, [98], [4])]].

Lemma doc_store_refines_witness :
  let db := (run_docs history (Some faulty)).1 in
  map snd (run_docs history (Some faulty)).2 = [false; true; false; true]
  ∧ count db = 1 ∧ get_docs_by_ids [[97]; [98]] db = [([98], [3])].
Proof.
  split; [by vm_compute|]. pose proof (doc_store_refines faulty history) as H.
  replace (run_docs history (Some faulty)).2 with (zip history [false; true; false; true]) in H by (by vm_compute).
  destruct H as (_ & Hdocs & Hcount & _).
  - intros k. apply lookup_empty.
  - cbn [docs_ok history zip zip_with rows_new fst snd]. split_and!; try done; try (apply (bool_decide_unpack _); by vm_compute).
    intros t d [[_ [= E]]|[_ E]]%lookup_insert_Some. by rewrite lookup_empty in E.
  - split; [rewrite Hcount; by vm_compute|]. rewrite (Hdocs [[97]; [98]]). by vm_compute.
Defined.

(** The ids of a table are not unique unless the caller makes them so: a batch with an id
    that another tag has leaves the row of that tag in place, so the id is counted and
    scanned twice, and deleting it removes one row; and an id with a NUL byte comes back cut,
    its rest in front of the document. *)
Theorem doc_store_duplicates :
  let empty := Some (mkStore ∅ []) in
  let db := (run_docs [DPut [(7, [97], [1])]; DPut [(8, [97], [2])]] empty).1 in
  count db = 2 ∧ get_docs_by_ids [[97]] db = [([97], [2])] ∧ scan (delete_by_ids [[97]] db).1 = [(7, [97], [1])]
  ∧ get_by_tags [5] (put_batch [(5, [97; 0; 98], [1])] empty).1 = [([97], [98; 0; 1], true)].
Proof. by vm_compute. Qed.

End DocStore.
