(* ===== verification/FieldCodec.v ===== *)
(** * The field codec ([src/server/field_codec.h])

    Scalar fields of a row become attributes: integers and booleans one word, floats the
    word of an order-preserving code, strings packed bytes, labels their ids.  A [float] is
    the 32 bits [memcpy] sees; [float_of_bits] is the IEEE value of them. *)

From Stdlib Require Import Floats.SpecFloat.
From S2P Require Import Prelude Float32 Bytes StringAttr.

Module Codec.
Import StringAttr.
Open Scope Z_scope.

(** ** Floats *)

Definition SIGN : Z := 2147483648.
Definition ONES : Z := 4294967295.

Definition encode_float_ordered (u : Z) : Z :=
  if negb (Z.land u SIGN =? 0) then Z.land (Z.lnot u) ONES else Z.lxor u SIGN.

Definition decode_float_ordered (code : Z) : Z :=
  if negb (Z.land code SIGN =? 0) then Z.lxor code SIGN else Z.land (Z.lnot code) ONES.

(** The value of 32 bits: sign, eight bits of exponent, 23 bits of mantissa. *)
Definition float_of_bits (u : Z) : float :=
  let s := 2 ^ 31 <=? u in
  let e := (u / 2 ^ 23) mod 2 ^ 8 in
  let m := u mod 2 ^ 23 in
  if e =? 255 then (if m =? 0 then S754_infinity s else S754_nan)
  else if e =? 0 then (if m =? 0 then S754_zero s else S754_finite s (Z.to_pos m) (-149))
  else S754_finite s (Z.to_pos (m + 2 ^ 23)) (e - 150).

(** ** Types and fields *)

Inductive LogicalType := Int | Float | Bool | String | Label.

Notation bytes := (list Z) (only parsing).

(** The bytes of "float", "bool", "string", "label" and "int". *)
Definition s_float : bytes := [102; 108; 111; 97; 116].
Definition s_bool : bytes := [98; 111; 111; 108].
Definition s_string : bytes := [115; 116; 114; 105; 110; 103].
Definition s_label : bytes := [108; 97; 98; 101; 108].
Definition s_int : bytes := [105; 110; 116].

Definition logical_type_from_string (s : bytes) : LogicalType :=
  if decide (s = s_float) then Float
  else if decide (s = s_bool) then Bool
  else if decide (s = s_string) then String
  else if decide (s = s_label) then Label
  else Int.

Definition logical_type_to_string (t : LogicalType) : bytes :=
  match t with
  | Float => s_float
  | Bool => s_bool
  | String => s_string
  | Label => s_label
  | Int => s_int
  end.

(** [encode_float_range] takes the bits of [static_cast<float>(v)]. *)
Definition encode_int_range (v : Z) : list Z := [u32 v].
Definition encode_float_range (u : Z) : list Z := [encode_float_ordered u].
Definition encode_bool_range (b : bool) : list Z := [if b then 1 else 0].

(** The JSON values a field becomes; a number is kept as the integer or the float bits it is
    converted from. *)
Inductive value :=
  | VNull
  | VInt (z : Z)
  | VFloat (u : Z)
  | VBool (b : bool)
  | VString (s : bytes)
  | VArray (l : list Z).

Definition decode_field (attr : list Z) (type : LogicalType) : value :=
  match type with
  | Float => match attr with [] => VNull | x :: _ => VFloat (decode_float_ordered x) end
  | Bool => match attr with [] => VNull | x :: _ => VBool (negb (x =? 0)) end
  | String => VString (string_attr_to_string attr)
  | Label => VArray attr
  | Int => match attr with [] => VNull | x :: _ => VInt (i32_of_u32 x) end
  end.

(** ** The codes as arithmetic *)

Lemma sign_bit u : is_u32 u → Z.land u SIGN = if u <? 2 ^ 31 then 0 else SIGN.
Proof.
  intros Hu. apply Z.bits_inj'. intros n Hn. change SIGN with (2 ^ 31). rewrite Z.land_spec, Z.pow2_bits_eqb by lia.
  unfold is_u32 in Hu. destruct (Z.eqb_spec 31 n) as [<-|Hne].
  - rewrite andb_true_r. destruct (Z.ltb_spec u (2 ^ 31)) as [Hlt|Hge].
    + rewrite Z.bits_0. apply not_true_iff_false. rewrite Z.testbit_true by lia. rewrite Z.div_small by lia. done.
    + rewrite Z.pow2_bits_true by lia. apply Z.testbit_true; [lia|]. replace (u / 2 ^ 31) with 1 by (apply Z.div_unique with (r := u - 2 ^ 31); lia). done.
  - rewrite andb_false_r. destruct (u <? 2 ^ 31); [by rewrite Z.bits_0|]. symmetry. by apply Z.pow2_bits_false.
Qed.

Lemma flip_all u : is_u32 u → Z.land (Z.lnot u) ONES = 2 ^ 32 - 1 - u.
Proof.
  intros Hu. change ONES with (Z.ones 32). rewrite Z.land_ones by lia. unfold Z.lnot, is_u32 in *.
  symmetry. apply Z.mod_unique_pos with (q := -1); lia.
Qed.

Lemma flip_sign u : is_u32 u → Z.lxor u SIGN = if u <? 2 ^ 31 then u + 2 ^ 31 else u - 2 ^ 31.
Proof.
  intros Hu. pose proof (sign_bit u Hu) as Hs. destruct (Z.ltb_spec u (2 ^ 31)) as [Hlt|Hge].
  - rewrite <- Z.add_nocarry_lxor by done. done.
  - unfold is_u32 in Hu. assert (Z.land (u - 2 ^ 31) SIGN = 0) as H0.
    { rewrite sign_bit by (unfold is_u32; lia). by rewrite (proj2 (Z.ltb_lt _ _)) by lia. }
    replace u with (Z.lxor (u - 2 ^ 31) SIGN) at 1 by (rewrite <- Z.add_nocarry_lxor by done; change SIGN with (2 ^ 31); lia).
    by rewrite Z.lxor_assoc, Z.lxor_nilpotent, Z.lxor_0_r.
Qed.

Lemma encode_value u : is_u32 u → encode_float_ordered u = if u <? 2 ^ 31 then u + 2 ^ 31 else 2 ^ 32 - 1 - u.
Proof.
  intros Hu. unfold encode_float_ordered. rewrite sign_bit, flip_all, flip_sign by done. by destruct (u <? 2 ^ 31).
Qed.

Lemma decode_value c : is_u32 c → decode_float_ordered c = if c <? 2 ^ 31 then 2 ^ 32 - 1 - c else c - 2 ^ 31.
Proof.
  intros Hu. unfold decode_float_ordered. rewrite sign_bit, flip_all, flip_sign by done. by destruct (c <? 2 ^ 31).
Qed.

(** ** The order of floats *)

(** The position of a magnitude. *)
Definition mag_key (g : Z) : Z * Z * Z :=
  let e := g / 2 ^ 23 in
  let m := g mod 2 ^ 23 in
  if e =? 255 then (2, 0, 0) else if e =? 0 then (if m =? 0 then (0, 0, 0) else (1, -149, m)) else (1, e - 150, m + 2 ^ 23).

Definition neg_key (x : Z * Z * Z) : Z * Z * Z := (- x.1.1, - x.1.2, - x.2).

(** The bits of a number: at most those of infinity, up to the sign. *)
Definition mag (u : Z) : Z := u mod 2 ^ 31.
Definition number (u : Z) : Prop := is_u32 u ∧ mag u <= 255 * 2 ^ 23.

Lemma mag_parts u : is_u32 u →
  (u / 2 ^ 23) mod 2 ^ 8 = mag u / 2 ^ 23 ∧ u mod 2 ^ 23 = mag u mod 2 ^ 23 ∧ 0 <= mag u < 2 ^ 31 ∧ u = mag u + (if u <? 2 ^ 31 then 0 else 2 ^ 31).
Proof.
  intros Hu. unfold mag, is_u32 in *. split_and!.
  - change (2 ^ 31) with (2 ^ 23 * 2 ^ 8). rewrite Z.rem_mul_r by lia. rewrite Z.add_comm, Z.mul_comm, Z.div_add_l by lia.
    rewrite (Z.div_small (u mod 2 ^ 23)) by (apply Z.mod_pos_bound; lia). lia.
  - change (2 ^ 31) with (2 ^ 23 * 2 ^ 8). rewrite Z.rem_mul_r by lia. rewrite Z.mul_comm, Z.mod_add, Z.mod_mod by lia. done.
  - apply Z.mod_pos_bound. lia.
  - apply Z.mod_pos_bound. lia.
  - destruct (Z.ltb_spec u (2 ^ 31)); [rewrite Z.mod_small by lia; lia|].
    replace (u mod 2 ^ 31) with (u - 2 ^ 31); [lia|]. apply Z.mod_unique_pos with (q := 1); lia.
Qed.

Lemma bits_key u :
  number u → not_nan (float_of_bits u) ∧ fkey (float_of_bits u) = if u <? 2 ^ 31 then mag_key (mag u) else neg_key (mag_key (mag u)).
Proof.
  intros [Hu Hm]. destruct (mag_parts u Hu) as (He & Hmm & Hb & _). unfold float_of_bits, mag_key. rewrite He, Hmm.
  pose proof (Z.div_mod (mag u) (2 ^ 23)) as Hd. pose proof (Z.mod_pos_bound (mag u) (2 ^ 23)) as Hr.
  assert ((2 ^ 31 <=? u) = negb (u <? 2 ^ 31)) as -> by (by rewrite Z.ltb_antisym, negb_involutive).
  destruct (Z.eqb_spec (mag u / 2 ^ 23) 255) as [E|E].
  - destruct (Z.eqb_spec (mag u mod 2 ^ 23) 0); [|lia]. by destruct (u <? 2 ^ 31).
  - destruct (Z.eqb_spec (mag u / 2 ^ 23) 0); [destruct (Z.eqb_spec (mag u mod 2 ^ 23) 0)|].
    + by destruct (u <? 2 ^ 31).
    + split; [done|]. destruct (u <? 2 ^ 31); cbn [negb fkey neg_key fst snd]; rewrite <- ?Pos2Z.opp_pos, Z2Pos.id by lia; done.
    + split; [done|]. destruct (u <? 2 ^ 31); cbn [negb fkey neg_key fst snd]; rewrite <- ?Pos2Z.opp_pos, Z2Pos.id by lia; done.
Qed.

Lemma mag_order g h : 0 <= g <= 255 * 2 ^ 23 → 0 <= h <= 255 * 2 ^ 23 → key_lt (mag_key g) (mag_key h) ↔ g < h.
Proof.
  intros Hg Hh. unfold mag_key. pose proof (Z.div_mod g (2 ^ 23)). pose proof (Z.mod_pos_bound g (2 ^ 23)).
  pose proof (Z.div_mod h (2 ^ 23)). pose proof (Z.mod_pos_bound h (2 ^ 23)).
  assert (0 <= g / 2 ^ 23) by (apply Z.div_pos; lia). assert (0 <= h / 2 ^ 23) by (apply Z.div_pos; lia).
  set (e := g / 2 ^ 23) in *. set (m := g mod 2 ^ 23) in *. set (e' := h / 2 ^ 23) in *. set (m' := h mod 2 ^ 23) in *. clearbody e m e' m'.
  unfold key_lt. destruct (Z.eqb_spec e 255), (Z.eqb_spec e' 255), (Z.eqb_spec e 0), (Z.eqb_spec e' 0), (Z.eqb_spec m 0), (Z.eqb_spec m' 0); cbn [fst snd]; lia.
Qed.

Lemma neg_order x y : key_lt (neg_key x) (neg_key y) ↔ key_lt y x.
Proof. unfold key_lt, neg_key. destruct x as [[? ?] ?], y as [[? ?] ?]. cbn [fst snd]. lia. Qed.

(** A magnitude is at the origin when it is zero, and right of it otherwise. *)
Lemma mag_class g : 0 <= g <= 255 * 2 ^ 23 → mag_key g = (0, 0, 0) ∧ g = 0 ∨ 0 < (mag_key g).1.1 ∧ g ≠ 0.
Proof.
  intros Hg. unfold mag_key. destruct (Z.eq_dec g 0) as [->|Hn]; [by left|right; split; [|done]].
  destruct (Z.eqb_spec (g / 2 ^ 23) 255) as [E|E]; [cbn [fst snd]; lia|]. destruct (Z.eqb_spec (g / 2 ^ 23) 0) as [E0|E0]; [|cbn [fst snd]; lia].
  destruct (Z.eqb_spec (g mod 2 ^ 23) 0) as [E1|E1]; [|cbn [fst snd]; lia].
  pose proof (Z.div_mod g (2 ^ 23) ltac:(lia)) as Hd. rewrite E0, E1 in Hd. lia.
Qed.

Lemma mixed_order g h : 0 <= g <= 255 * 2 ^ 23 → 0 <= h <= 255 * 2 ^ 23 → key_lt (neg_key (mag_key g)) (mag_key h) ↔ ¬ (g = 0 ∧ h = 0).
Proof.
  intros Hg Hh. unfold key_lt, neg_key. cbn [fst snd].
  destruct (mag_class g Hg) as [[-> ->]|[Hc Hn]], (mag_class h Hh) as [[-> ->]|[Hc' Hn']]; cbn [fst snd]; lia.
Qed.

Lemma mixed_order_back g h : 0 <= g <= 255 * 2 ^ 23 → 0 <= h <= 255 * 2 ^ 23 → ¬ key_lt (mag_key g) (neg_key (mag_key h)).
Proof.
  intros Hg Hh. unfold key_lt, neg_key. cbn [fst snd].
  destruct (mag_class g Hg) as [[-> ->]|[Hc Hn]], (mag_class h Hh) as [[-> ->]|[Hc' Hn']]; cbn [fst snd]; lia.
Qed.

(** The code of a float can be decoded, and codes compare as the floats do, infinities
    and subnormal numbers included, with one exception that the comment of the code leaves
    out: -0 and 0 are equal but have different codes, so a range that ends at one of them
    treats the other differently. *)
Theorem float_code_ordered u w :
  number u → number w →
  decode_float_ordered (encode_float_ordered u) = u
  ∧ (encode_float_ordered u < encode_float_ordered w ↔ flt (float_of_bits u) (float_of_bits w) = true ∨ (u = SIGN ∧ w = 0)).
Proof.
  intros Hu Hw. destruct (bits_key u Hu) as [Nu Ku]. destruct (bits_key w Hw) as [Nw Kw]. destruct Hu as [Hu Mu], Hw as [Hw Mw].
  destruct (mag_parts u Hu) as (_ & _ & Bu & Eu). destruct (mag_parts w Hw) as (_ & _ & Bw & Ew). split.
  - rewrite encode_value by done. unfold is_u32 in Hu. destruct (Z.ltb_spec u (2 ^ 31)); rewrite decode_value by (unfold is_u32; lia).
    + rewrite (proj2 (Z.ltb_ge _ _)) by lia. lia.
    + rewrite (proj2 (Z.ltb_lt _ _)) by lia. lia.
  - rewrite !encode_value, flt_key, Ku, Kw by done. unfold is_u32 in *. change SIGN with (2 ^ 31).
    destruct (Z.ltb_spec u (2 ^ 31)), (Z.ltb_spec w (2 ^ 31)).
    + rewrite mag_order by lia. lia.
    + pose proof (mixed_order_back (mag u) (mag w) ltac:(lia) ltac:(lia)). split; [lia|]. intros [?|?]; [done|lia].
    + rewrite (mixed_order (mag u) (mag w)) by lia. split; [|lia]. intros _. destruct (decide (mag u = 0 ∧ mag w = 0)) as [Hz|Hz]; [right; lia|by left].
    + rewrite neg_order, mag_order by lia. lia.
Qed.

(** -1.5 and 0.25. *)
Lemma float_code_ordered_witness :
  flt (float_of_bits 3217031168) (float_of_bits 1048576000) = true ∧ encode_float_ordered 3217031168 < encode_float_ordered 1048576000.
Proof.
  assert (flt (float_of_bits 3217031168) (float_of_bits 1048576000) = true) as Hf by (vm_compute; reflexivity). split; [exact Hf|].
  apply (float_code_ordered 3217031168 1048576000); [split; vm_compute; intuition congruence|split; vm_compute; intuition congruence|left; exact Hf].
Defined.

(** Fields come back from their attributes: every 32-bit integer, all 32 bits of a
    float, NaN included, booleans,
    strings without NUL bytes and labels; but the codes of integers do not compare as the
    integers do: a negative integer has a greater code than every non-negative one, so a range over
    an integer field leaves negative values out or takes them in wrongly. *)
Theorem field_round_trip :
  (∀ v, - 2 ^ 31 <= v < 2 ^ 31 → decode_field (encode_int_range v) Int = VInt v)
  ∧ (∀ u, is_u32 u → decode_field (encode_float_range u) Float = VFloat u)
  ∧ (∀ b, decode_field (encode_bool_range b) Bool = VBool b)
  ∧ (∀ s, text s → decode_field (pack_string_attr s) String = VString s)
  ∧ (∀ l, decode_field l Label = VArray l)
  ∧ (∀ t, logical_type_from_string (logical_type_to_string t) = t)
  ∧ ∀ v w, - 2 ^ 31 <= v < 0 → 0 <= w < 2 ^ 31 → ∃ a b, encode_int_range v = [a] ∧ encode_int_range w = [b] ∧ b < a.
Proof.
  split_and!.
  - intros v Hv. unfold encode_int_range, decode_field. f_equal. unfold i32_of_u32, u32. destruct (Z_lt_dec v 0) as [Hn|Hp].
    + replace (v mod 2 ^ 32) with (v + 2 ^ 32) by (apply Z.mod_unique_pos with (q := -1); lia). rewrite (proj2 (Z.ltb_ge _ _)) by lia. lia.
    + rewrite Z.mod_small by lia. by rewrite (proj2 (Z.ltb_lt _ _)) by lia.
  - intros u Hu. unfold encode_float_range, decode_field. f_equal. rewrite encode_value by done. unfold is_u32 in Hu.
    destruct (Z.ltb_spec u (2 ^ 31)); rewrite decode_value by (unfold is_u32; lia);
      [rewrite (proj2 (Z.ltb_ge _ _)) by lia|rewrite (proj2 (Z.ltb_lt _ _)) by lia]; lia.
  - by intros [].
  - intros s Hs. unfold decode_field, string_attr_to_string. by rewrite view_pack.
  - done.
  - by intros [].
  - intros v w Hv Hw. eexists _, _. split; [done|]. split; [done|]. unfold u32. rewrite (Z.mod_small w) by lia.
    replace (v mod 2 ^ 32) with (v + 2 ^ 32) by (apply Z.mod_unique_pos with (q := -1); lia). lia.
Qed.

End Codec.
