(* ===== verification/PipeSearch.v ===== *)
(** * The pipelined graph search ([src/search/pipe_search_common.h])

    [pipe_search_common] is the loop behind [pipe_search], [range_search], the
    insertion search and the filtered searches: it keeps reads in flight ahead
    of the expansion of the candidate pool.  The state has four parts: what the
    graph walk keeps ([walk]: the pool, the bridge pool, the visited set and the
    member-density average), the read pipeline ([pipe]), the results ([out]) and
    the adaptive beam ([beam]).  The pool and the visited set are those of the
    files [CandidatePool] and [VisitedSet].

    A page buffer is one of the 128 slots of [sector_scratch]; the model keeps,
    for each slot, the node whose page was last read into it, and an expansion
    that finds another node's page in the slot of its node is the fault
    [StaleBuffer].  The device is a schedule: for each poll, how many of the
    oldest reads in flight it finds finished.  Query statistics and prefetches
    are left out. *)

From S2P Require Import Prelude Float32 Neighbor CandidatePool PoolBatch PoolSearch VisitedSet.
Import Pool.

Module Pipe.

Definition MAX_N_SECTOR_READS : nat := 128.
Definition kExpandedNodesFactor : nat := 10.

(** ** Results and faults *)

Inductive fault := OutOfRange | BeamTooWide | CoordBufFull | StaleBuffer.
Inductive res (A : Type) := Ok (a : A) | Fault (e : fault).
Arguments Ok {_} _.
Arguments Fault {_} _.

Global Instance res_bind : MBind res := λ A B f m,
  match m with Ok a => f a | Fault e => Fault e end.
Global Instance res_ret : MRet res := λ A a, Ok a.

Definition lift {A} (o : option A) : res A :=
  match o with Some a => Ok a | None => Fault OutOfRange end.

(** ** The data *)

(** A parsed node: its vector, 1-hop and dense neighbours and attribute record. *)
Record DiskNode := mkDisk {
  coords : list Z;
  nbrs : list Z;
  dense_nbrs : list Z;
  attrs : list Z
}.

(** The arguments of a search.  [verify] is the [VerifyFn], [None] for the type
    [AlwaysTrue]; [insert_ctx] and [node_out] are the tests against [nullptr]. *)
Record query := mkQuery {
  l_search : nat;
  l_pool : nat;
  beam_width : nat;
  mem_L : nat;
  R : nat;
  use_dense_nbrs : bool;
  is_member_approx : Z → bool;
  verify : option (Z → DiskNode → bool);
  range_partial : float;
  insert_ctx : bool;
  node_out : bool
}.

(** What the search reads of the index: the stored nodes, the approximate
    distances of the query (the neighbour handler), the exact ones, the page and
    the tag of an id, the entry point and the result of the in-memory index. *)
Record index := mkIndex {
  read_node : Z → DiskNode;
  compute_dist : Z → float;
  compare_sym : list Z → float;
  id2page : Z → Z;
  id2tag : Z → Z;
  entry_point_id : Z;
  search_with_tags : list (Z * float)
}.

Record io_t := mkIo { io_nbr : Neighbor; io_page : Z; io_slot : nat }.

Record walk := mkWalk {
  pool : CandidatePool;
  cand_pool : CandidatePool;
  visited_set : VisitedSet.FlatVisitedSet;
  member_frac_ema : double
}.

(** [issued]: the reads sent so far, oldest first; [locked]: the ids whose
    shared lock is held. *)
Record pipe := mkPipe {
  ring : list (option Z);
  sector_idx : nat;
  on_flight_ios : list io_t;
  id_buf_map : gmap Z nat;
  locked : list Z;
  hint_pages : list Z;
  issued : list Z
}.

(** [coord_buf] holds [coord_buf_idx] vectors. *)
Record out := mkOut {
  full_retset : list Neighbor;
  coord_buf : list (list Z);
  coord_map : gmap Z nat;
  node_payloads : gmap Z DiskNode
}.

Record beam := mkBeam {
  cur_beam_width : Z;
  max_marker : nat;
  cur_n_in : Z;
  cur_tot : Z
}.

Record state := mkState { st_walk : walk; st_pipe : pipe; st_out : out; st_beam : beam }.

(** ** Constants of the bridge promotion and of the adaptive beam *)

Definition kBridgeFrac : double := ratio 1 20.
Definition kBandDensityGate : double := ratio 15 100.
Definition kWasteThreshold : double := ratio 1 10.
Definition kRangeEarlyStopFactor : float := fadd f_one f_one.

(** [std::unordered_map::insert] keeps a present key. *)
Definition map_insert {A} (k : Z) (a : A) (m : gmap Z A) : gmap Z A :=
  match m !! k with Some _ => m | None => <[k := a]> m end.

Section search.
Context (q : query) (ix : index).

Definition bridge_rank : Z := d_to_unsigned (dmul (d_of_Z (Z.of_nat (l_search q))) kBridgeFrac).
Definition kCandCap : nat := Nat.max 4 (Z.to_nat bridge_rank).
Definition approx_range_partial : float := fmul (range_partial q) kRangeEarlyStopFactor.

(** ** Exact distance and membership of an expanded node *)

Definition is_member_exact (i : Z) (n : DiskNode) : bool :=
  match verify q with None => true | Some f => f i n end.

Definition compute_exact_dists_and_push (n : DiskNode) (i : Z) (o : out) : res (bool * out) :=
  let cur_expanded_dist := compare_sym ix (coords n) in
  if negb (is_member_exact i n) then Ok (false, o)
  else
    let rs := full_retset o ++ [new_neighbor i cur_expanded_dist] in
    '(buf, cm) ←
      (if insert_ctx q then
         let coord_buf_idx := length (coord_buf o) in
         if Nat.leb (kExpandedNodesFactor * l_pool q) coord_buf_idx then Fault CoordBufFull
         else Ok (coord_buf o ++ [coords n], map_insert i coord_buf_idx (coord_map o))
       else Ok (coord_buf o, coord_map o));
    let pl := if node_out q then map_insert (id2tag ix i) n (node_payloads o) else node_payloads o in
    Ok (true, mkOut rs buf cm pl).

(** ** Neighbour expansion *)

(** [ids] is [nbr_ids\[0, nbors_cand_size)]. *)
Record scan_acc := mkAcc {
  sc_visited : VisitedSet.FlatVisitedSet;
  sc_ids : list Z;
  sc_seen : Z;
  sc_match : Z
}.

(** [visited.insert(nbr)], and the neighbour is kept when it is new. *)
Definition visit (i : Z) (a : scan_acc) : res scan_acc :=
  '(new, vs) ← lift (VisitedSet.insert (sc_visited a) i);
  Ok (mkAcc vs (if (new : bool) then sc_ids a ++ [i] else sc_ids a) (sc_seen a) (sc_match a)).

(** The approximate members of [l], while there is room for [cap] candidates. *)
Fixpoint collect_members (cap : nat) (l : list Z) (a : scan_acc) : res scan_acc :=
  match l with
  | [] => Ok a
  | i :: l' =>
      if Nat.ltb (length (sc_ids a)) cap then
        a ← (if is_member_approx q i
             then visit i (mkAcc (sc_visited a) (sc_ids a) (sc_seen a) (sc_match a + 1))
             else Ok a);
        collect_members cap l' (mkAcc (sc_visited a) (sc_ids a) (sc_seen a + 1) (sc_match a))
      else Ok a
  end.

(** The remaining 1-hop neighbours, for connectivity. *)
Fixpoint collect_rest (cap : nat) (l : list Z) (a : scan_acc) : res scan_acc :=
  match l with
  | [] => Ok a
  | i :: l' =>
      if Nat.ltb (length (sc_ids a)) cap then a ← visit i a; collect_rest cap l' a else Ok a
  end.

(** The candidates of a node and how many of them are approximate members. *)
Definition collect (n : DiskNode) (vs : VisitedSet.FlatVisitedSet) : res (scan_acc * nat) :=
  let nnbrs := length (nbrs n) in
  a ← collect_members nnbrs (nbrs n) (mkAcc vs [] 0 0);
  if use_dense_nbrs q then
    a ← collect_members nnbrs (dense_nbrs n) a;
    let n_member := length (sc_ids a) in
    a ← collect_rest nnbrs (nbrs n) a;
    Ok (a, n_member)
  else Ok (a, length (sc_ids a)).

(** The entries of [nbr_id_scratch] and [aligned_dist_scratch] that an expansion
    writes, from index 0 on; [init_query_buf] gives each array [MAX_N_EDGES] entries. *)
Definition MAX_N_EDGES : nat := 2048.

Definition scratch_entries (n : DiskNode) (vs : VisitedSet.FlatVisitedSet) : nat :=
  match collect n vs with Ok (a, _) => length (sc_ids a) | Fault _ => 0 end.

Fixpoint insert_candidates (p : CandidatePool) (b : list (Z * float)) : res CandidatePool :=
  match b with
  | [] => Ok p
  | x :: b' => '(_, p) ← lift (insert p (nb x)); insert_candidates p b'
  end.

(** The bridge promotion: every bridge within [band] enters the pool. *)
Definition promote_step (band : float) (s : res CandidatePool * nat) (c : Neighbor)
    : bool * (res CandidatePool * nat) :=
  if fgt (distance c) band then (true, s)
  else (false, (p ← s.1; '(_, p) ← lift (insert p c); Ok p, S s.2)).

Definition promote_bridges (w : walk) : res walk :=
  let bi := Z.to_nat (Z.min (u32 (Z.of_nat (size (pool w)) - 1)) bridge_rank) in
  b ← lift (retset_ (pool w) !! bi);
  let '(p, promoted) := scan (promote_step (distance b)) (cand_pool w) (Ok (pool w), 0) in
  p ← p;
  c ← lift (drop_front (cand_pool w) promoted);
  Ok (mkWalk p c (visited_set w) (member_frac_ema w)).

Definition compute_and_push_nbrs (n : DiskNode) (w : walk) : res walk :=
  '(a, n_member) ← collect n (visited_set w);
  let b := map (λ i, (i, compute_dist ix i)) (sc_ids a) in
  if Nat.eqb (length b) 0 then Ok (mkWalk (pool w) (cand_pool w) (sc_visited a) (member_frac_ema w))
  else
    p ← lift (insert_batch (pool w) (take n_member b));
    c ← insert_candidates (cand_pool w) (drop n_member b);
    let ema := dadd (dmul (ratio 1 5) (ddiv (d_of_Z (sc_match a)) (d_of_Z (sc_seen a))))
                    (dmul (ratio 4 5) (member_frac_ema w)) in
    let w := mkWalk p c (sc_visited a) ema in
    if Nat.ltb 0 (size c) && dlt ema kBandDensityGate then promote_bridges w else Ok w.

(** ** The read pipeline *)

(** Issue the read of the pool's candidate [i]. *)
Definition send_read_req (i : nat) (p : CandidatePool) (s : pipe) : res (CandidatePool * pipe) :=
  p ← lift (update p i clear_flag);
  item ← lift (retset_ p !! i);
  rg ← lift (vset (ring s) (sector_idx s) (Some (id item)));
  Ok (p, mkPipe rg ((sector_idx s + 1) mod MAX_N_SECTOR_READS)
           (on_flight_ios s ++ [mkIo item (id2page ix (id item)) (sector_idx s)])
           (id_buf_map s) (locked s ++ [id item]) (hint_pages s) (issued s ++ [id item])).

Fixpoint send_best_read_req (n : nat) (p : CandidatePool) (s : pipe) : res (CandidatePool * pipe) :=
  match n with
  | 0 => Ok (p, s)
  | S n' =>
      '(item, p) ← lift (next_read_nbr p);
      match item with
      | None => Ok (p, s)
      | Some i => '(p, s) ← send_read_req i p s; send_best_read_req n' p s
      end
  end.

(** Release one shared lock of [i]. *)
Fixpoint unlock_idx (i : Z) (l : list Z) : list Z :=
  match l with
  | [] => []
  | j :: l' => if Z.eqb j i then l' else j :: unlock_idx i l'
  end.

(** The poll that finds the [k] oldest reads finished: how many of them are
    within the pool, and how many are not. *)
Fixpoint poll_all (k : nat) (p : CandidatePool) (s : pipe) : res (Z * Z * pipe) :=
  match k, on_flight_ios s with
  | S k', io :: rest =>
      let i := id (io_nbr io) in
      w ← lift (worst p);
      '(n_in, n_out, s) ←
        poll_all k' p
          (mkPipe (ring s) (sector_idx s) rest (map_insert i (io_slot io) (id_buf_map s))
             (unlock_idx i (locked s))
             (if insert_ctx q then hint_pages s ++ [io_page io] else hint_pages s) (issued s));
      Ok (if fle (distance (io_nbr io)) (distance w) then (n_in + 1, n_out, s)%Z else (n_in, n_out + 1, s)%Z)
  | _, _ => Ok (0%Z, 0%Z, s)
  end.

(** ** Node selection *)

Definition set_member (n : Neighbor) : Neighbor :=
  mkNeighbor (id n) (distance n) (flag n) (visited n) true.

(** Expand the candidate [i] of the pool, whose page has landed. *)
Definition expand (i : nat) (w : walk) (s : pipe) (o : out) : res (walk * pipe * out) :=
  a ← lift (retset_ (pool w) !! i);
  slot ← lift (id_buf_map s !! id a);
  if bool_decide (ring s !! slot = Some (Some (id a))) then
    let n := read_node ix (id a) in
    '(mem, o) ← compute_exact_dists_and_push n (id a) o;
    p ← (if (mem : bool) then lift (update (pool w) i set_member) else Ok (pool w));
    w ← compute_and_push_nbrs n (mkWalk p (cand_pool w) (visited_set w) (member_frac_ema w));
    Ok (w, mkPipe (ring s) (sector_idx s) (on_flight_ios s) (delete (id a) (id_buf_map s)) (locked s)
             (hint_pages s) (issued s), o)
  else Fault StaleBuffer.

Definition calc_best_node (w : walk) (s : pipe) (o : out) : res (nat * (walk * pipe * out)) :=
  '(node, p) ←
    (if bool_decide (id_buf_map s = ∅) then Ok (None, pool w)
     else lift (next_calc_nbr (λ i, bool_decide (is_Some (id_buf_map s !! i))) (pool w)));
  let w := mkWalk p (cand_pool w) (visited_set w) (member_frac_ema w) in
  '(w, s, o) ← (match node with None => Ok (w, s, o) | Some i => expand i w s o end);
  '(m, p) ← lift (frontier (pool w));
  Ok (m, (mkWalk p (cand_pool w) (visited_set w) (member_frac_ema w), s, o)).

(** ** Termination test *)

Definition settled_step (s : nat * bool) (n : Neighbor) : bool * (nat * bool) :=
  if negb (visited n) then (true, s)
  else
    let cnt := s.1 + (if is_member n then 1 else 0) in
    if fgt (distance n) approx_range_partial then (true, (cnt, true))
    else (Nat.leb (l_search q) cnt, (cnt, s.2)).

Definition terminate (p : CandidatePool) : bool :=
  if Nat.leb (size p) (first_unvisited_ p) then true
  else if bool_decide (verify q = None) && feq approx_range_partial f_infinity
  then Nat.leb (l_search q) (first_unvisited_ p)
  else let '(cnt, crossed) := scan settled_step p (0, false) in crossed || Nat.leb (l_search q) cnt.

(** ** The search *)

Definition adapt_beam (n_in n_out : Z) (b : beam) : beam :=
  if Nat.leb 5 (max_marker b) && Z.ltb 0 (n_in + n_out) then
    let n := (cur_n_in b + n_in)%Z in
    let t := (cur_tot b + n_in + n_out)%Z in
    mkBeam (if dle (ddiv (d_of_Z (t - n)) (d_of_Z t)) kWasteThreshold
            then Z.min (Z.of_nat (beam_width q)) (Z.max (cur_beam_width b + 1) 4)
            else cur_beam_width b)
      (max_marker b) n t
  else b.

(** One round of the main loop, with the outcome [k] of its poll. *)
Definition round (k : nat) (s : state) : res state :=
  '(n_in, n_out, io) ← poll_all k (pool (st_walk s)) (st_pipe s);
  let b := adapt_beam n_in n_out (st_beam s) in
  let w := st_walk s in
  '(p, io) ← (if Z.ltb (Z.of_nat (length (on_flight_ios io))) (cur_beam_width b)
              then send_best_read_req 1 (pool w) io else Ok (pool w, io));
  '(marker, (w, io, o)) ←
    calc_best_node (mkWalk p (cand_pool w) (visited_set w) (member_frac_ema w)) io (st_out s);
  Ok (mkState w io o (mkBeam (cur_beam_width b) (Nat.max (max_marker b) marker) (cur_n_in b) (cur_tot b))).

(** The main loop over a schedule of polls; [None]: the schedule ended first.
    It returns what is left of the schedule. *)
Fixpoint main_loop (sched : list nat) (s : state) : res (option (state * list nat)) :=
  if terminate (pool (st_walk s)) then Ok (Some (s, sched))
  else
    match sched with
    | [] => Ok None
    | k :: sched' => s ← round k s; main_loop sched' s
    end.

(** The drain of the reads still in flight. *)
Fixpoint drain (sched : list nat) (s : state) : res (option state) :=
  if Nat.eqb (length (on_flight_ios (st_pipe s))) 0 then Ok (Some s)
  else
    match sched with
    | [] => Ok None
    | k :: sched' =>
        '(_, _, io) ← poll_all k (pool (st_walk s)) (st_pipe s);
        drain sched' (mkState (st_walk s) io (st_out s) (st_beam s))
    end.

(** [visited.insert] and [pool.seed] of the in-memory results. *)
Fixpoint seed_pool (l : list (Z * float)) (p : CandidatePool) (vs : VisitedSet.FlatVisitedSet)
    : res (CandidatePool * VisitedSet.FlatVisitedSet) :=
  match l with
  | [] => Ok (p, vs)
  | x :: l' =>
      '(_, vs) ← lift (VisitedSet.insert vs x.1);
      p ← lift (seed p (nb x));
      seed_pool l' p vs
  end.

Definition seeds : list (Z * float) := take (l_pool q) (search_with_tags ix).

(** The pool before the first reads. *)
Definition initial_pool (vs : VisitedSet.FlatVisitedSet) : res (CandidatePool * VisitedSet.FlatVisitedSet) :=
  let p := reset (l_pool q) (mem_L q + R q + l_pool q * kExpandedNodesFactor) in
  if Nat.eqb (mem_L q) 0 then
    '(_, vs) ← lift (VisitedSet.insert vs (entry_point_id ix));
    '(_, p) ← lift (insert p (new_neighbor (entry_point_id ix) (compute_dist ix (entry_point_id ix))));
    Ok (p, vs)
  else seed_pool seeds p vs.

(** Up to the main loop, on a query buffer whose visited set is [vs]. *)
Definition start (vs : VisitedSet.FlatVisitedSet) : res state :=
  if Nat.ltb MAX_N_SECTOR_READS (beam_width q) then Fault BeamTooWide
  else
    let cur_beam_width := Nat.min 4 (beam_width q) in
    '(p, vs) ← initial_pool (VisitedSet.clear vs);
    '(p, io) ← send_best_read_req cur_beam_width p
                 (mkPipe (replicate MAX_N_SECTOR_READS None) 0 [] ∅ [] [] []);
    p ← (if Nat.eqb (mem_L q) 0 then Ok p
         else lift (rescore_seeds p (map (λ x, compute_dist ix x.1) seeds)));
    Ok (mkState (mkWalk p (reset kCandCap (kCandCap + 1)) vs d_zero) io (mkOut [] [] ∅ ∅)
          (mkBeam (Z.of_nat cur_beam_width) 0 0 0)).

(** The whole search; the final state has the sorted results. *)
Definition pipe_search_common (vs : VisitedSet.FlatVisitedSet) (sched : list nat) : res (option state) :=
  s ← start vs;
  r ← main_loop sched s;
  match r with
  | None => Ok None
  | Some (s, sched) =>
      r ← drain sched s;
      match r with
      | None => Ok None
      | Some s =>
          let o := st_out s in
          Ok (Some (mkState (st_walk s) (st_pipe s)
            (mkOut (std_sort (full_retset o)) (coord_buf o) (coord_map o) (node_payloads o)) (st_beam s)))
      end
  end.

End search.

(** ** The searches *)

(** The loop of [copy_top_k]: [prev] is the id of the previous result. *)
Fixpoint copy_loop (ix : index) (max_dist : float) (prev : option Z) (l : list Neighbor) (k : nat)
    : list (Z * float) :=
  match k, l with
  | S k', a :: l' =>
      if fgt (distance a) max_dist then []
      else if bool_decide (prev = Some (id a)) then copy_loop ix max_dist (Some (id a)) l' k
      else (id2tag ix (id a), distance a) :: copy_loop ix max_dist (Some (id a)) l' k'
  | _, _ => []
  end.

Definition copy_top_k (ix : index) (sorted_results : list Neighbor) (k : nat) (max_dist : float)
    : list (Z * float) :=
  copy_loop ix max_dist None sorted_results k.

(** The results of a search that returned. *)
Definition results (r : res (option state)) (f : list Neighbor → list (Z * float))
    : res (option (list (Z * float))) :=
  match r with
  | Ok (Some s) => Ok (Some (f (full_retset (st_out s))))
  | Ok None => Ok None
  | Fault e => Fault e
  end.

(** The arguments [do_pipe_search] passes to the common loop. *)
Definition do_pipe_search (mem_L l_search beam_width R : nat) (insert_ctx node_out : bool) : query :=
  mkQuery l_search l_search beam_width mem_L R false (λ _, true) None f_infinity insert_ctx node_out.

Definition pipe_search (ix : index) (k_search mem_L l_search beam_width R : nat) (node_out : bool)
    (vs : VisitedSet.FlatVisitedSet) (sched : list nat) : res (option (list (Z * float))) :=
  results (pipe_search_common (do_pipe_search mem_L l_search beam_width R false node_out) ix vs sched)
    (λ l, copy_top_k ix l k_search f_infinity).

(** [range_partial] is [get_partial_order_distance(range, metric)]. *)
Definition range_search (ix : index) (range_partial : float) (beam_width mem_L l_search R : nat)
    (vs : VisitedSet.FlatVisitedSet) (sched : list nat) : res (option (list (Z * float))) :=
  results
    (pipe_search_common
       (mkQuery l_search l_search beam_width mem_L R false (λ _, true) None range_partial false false)
       ix vs sched)
    (λ l, copy_top_k ix l l_search range_partial).

End Pipe.
