(* ===== verification/PipeProof.v ===== *)
(** * Correctness of the pipelined search ([src/search/pipe_search_common.h])

    The invariant of [Pipe.round] and what follows from it: the search makes no
    out-of-range access, keeps at most [beam_width] reads in flight, ends within
    a number of polls that depends on the size of the graph only, and returns
    the fixed point of the greedy walk.  The one fault that remains, the reuse of
    a page buffer before its node is expanded, is excluded for
    [beam_width + l_pool <= 128] and reached by a run beyond that bound. *)

From S2P Require Import Prelude Float32 Neighbor CandidatePool PoolBatch PoolSearch VisitedSet PipeSearch.
Import Pool Pipe.

Module PipeProof.

(** ** Growth of a sorted window *)

Section growth.
Implicit Types (l : list Neighbor) (b : list (Z * float)).

Lemma nsorted_cut n l x :
  nsorted l → x ∈ l → x ∉ take n l → length (take n l) = n ∧ ∀ a, a ∈ take n l → nb_lt a x.
Proof.
  intros Hs Hx Hn. apply list_elem_of_lookup in Hx as [j Hj].
  assert (Hnj : n ≤ j).
  { destruct (Nat.lt_ge_cases j n); [|done]. destruct Hn. eapply list_elem_of_lookup_2.
    by rewrite lookup_take_lt. }
  pose proof (lookup_lt_Some _ _ _ Hj). split; [rewrite length_take; lia|].
  intros a (i & Hi)%list_elem_of_lookup. apply lookup_take_Some in Hi as [Hi ?].
  eapply nsorted_lookup; [done..|lia].
Qed.

(** The window after a batch: the [n] closest of the window and the batch. *)
Definition grown (n : nat) l b : list Neighbor := take n (union l b).

Context (n : nat) (l : list Neighbor) (b : list (Z * float)).
Context (Hok : Forall ok l) (Hs : nsorted l) (Hb : batch_ok l b).

Lemma grown_union_sorted : nsorted (union l b).
Proof. destruct Hb. by apply union_sorted. Qed.

Lemma grown_elem a : a ∈ grown n l b → a ∈ l ∨ a ∈ nb <$> b.
Proof.
  unfold grown. intros Ha. apply (elem_of_sublist _ (union l b)) in Ha; [|apply sublist_take].
  rewrite union_Permutation, elem_of_app in Ha. tauto.
Qed.

Lemma grown_dropped x :
  x ∈ l ∨ x ∈ nb <$> b → x ∉ grown n l b →
  length (grown n l b) = n ∧ ∀ a, a ∈ grown n l b → nb_lt a x.
Proof.
  intros Hx. apply nsorted_cut; [apply grown_union_sorted|].
  rewrite union_Permutation, elem_of_app. tauto.
Qed.

(** Everything closer than a kept candidate is kept. *)
Lemma grown_closer a x : a ∈ grown n l b → x ∈ l ∨ x ∈ nb <$> b → nb_lt x a → x ∈ grown n l b.
Proof.
  intros Ha Hx Hlt. destruct (decide (x ∈ grown n l b)) as [|Hn]; [done|].
  destruct (grown_dropped x Hx Hn) as [_ H]. exfalso. apply (nb_lt_asym _ _ Hlt). by apply H.
Qed.

Lemma grown_NoDup : NoDup (id <$> grown n l b).
Proof.
  destruct Hb as [_ Hnd]. rewrite <- union_Permutation in Hnd. unfold grown.
  rewrite <- (take_drop n (union l b)), fmap_app in Hnd. by apply NoDup_app in Hnd as [? _].
Qed.
End growth.

(** How many expanded candidates are in front of [a]. *)
Definition vis_before (a : Neighbor) (l : list Neighbor) : nat :=
  length (List.filter (λ c, visited c && nlt c a) l).

Lemma elem_of_Lfilter (f : Neighbor → bool) l x : x ∈ List.filter f l ↔ x ∈ l ∧ f x = true.
Proof. by rewrite !list_elem_of_In, filter_In. Qed.

Lemma NoDup_Lfilter (f : Neighbor → bool) l : NoDup l → NoDup (List.filter f l).
Proof.
  induction 1 as [|a l Ha Hl IH]; simpl; [constructor|]. destruct (f a); [|done].
  constructor; [|done]. rewrite elem_of_Lfilter. tauto.
Qed.

Lemma NoDup_Lfilter_ids (f : Neighbor → bool) l : NoDup (id <$> l) → NoDup (id <$> List.filter f l).
Proof.
  induction l as [|a l IH]; simpl; [done|]. intros [Ha Hl]%NoDup_cons. destruct (f a); [|by apply IH].
  simpl. constructor; [|by apply IH]. intros (x & E & [Hx _]%elem_of_Lfilter)%list_elem_of_fmap.
  apply Ha. rewrite E. by apply list_elem_of_fmap_2.
Qed.

Lemma Lfilter_prefix (f : Neighbor → bool) n l :
  n ≤ length l → Forall (λ a, f a = true) (take n l) → n ≤ length (List.filter f l).
Proof.
  revert n. induction l as [|a l IH]; intros [|n] Hn H; simpl in *; try lia.
  apply Forall_cons in H as [-> H]. simpl. apply le_n_S, IH; [lia|done].
Qed.

Lemma vis_before_le a l l' :
  NoDup l → (∀ c, c ∈ l → visited c = true → nlt c a = true → c ∈ l') →
  vis_before a l ≤ vis_before a l'.
Proof.
  intros Hnd H. unfold vis_before. apply submseteq_length, NoDup_submseteq.
  - by apply NoDup_Lfilter.
  - intros c. rewrite !elem_of_Lfilter, andb_true_iff. naive_solver.
Qed.

Lemma vis_before_alter f i l a c :
  (∀ c, id (f c) = id c ∧ distance (f c) = distance c) → l !! i = Some c →
  visited c = false → visited (f c) = true →
  nlt c a = true → vis_before a (alter f i l) = S (vis_before a l).
Proof.
  intros Hk Hi Hc Hfc Hlt. revert i Hi. unfold vis_before.
  induction l as [|d l IH]; intros [|i] Hi; simplify_eq/=.
  - rewrite Hc, Hfc. simpl. destruct (Hk c) as [E1 E2].
    replace (nlt (f c) a) with (nlt c a) by (unfold nlt; by rewrite E1, E2). by rewrite Hlt.
  - change (list_alter f i l) with (alter f i l).
    destruct (visited d && nlt d a); simpl; by rewrite IH.
Qed.

Lemma vis_before_lt a l i :
  nsorted l → Forall ok l → l !! i = Some a → vis_before a l ≤ i.
Proof.
  intros Hs Hok Hi. unfold vis_before.
  transitivity (length (take i l)); [|rewrite length_take; lia].
  apply submseteq_length, NoDup_submseteq; [by apply NoDup_Lfilter, nsorted_NoDup|].
  intros c. rewrite elem_of_Lfilter, andb_true_iff. intros [Hc [_ Hlt]].
  rewrite Forall_forall in Hok.
  apply nlt_spec in Hlt; [|by apply Hok|by eapply Hok, list_elem_of_lookup_2].
  apply list_elem_of_lookup in Hc as [j Hj].
  destruct (Nat.lt_total j i) as [H|[->|H]].
  - eapply list_elem_of_lookup_2. by rewrite lookup_take_lt.
  - simplify_eq. by apply nb_lt_irrefl in Hlt.
  - by destruct (nb_lt_asym _ _ Hlt (nsorted_lookup _ _ _ _ _ Hs Hi Hj H)).
Qed.

(** ** The invariant *)

Section invariant.
Context (q : query) (ix : index).

Definition io_id (io : io_t) : Z := id (io_nbr io).

(** The reads issued and still in flight, and those that have landed. *)
Definition n_landed (s : pipe) : nat := length (issued s) - length (on_flight_ios s).
Definition flying (s : pipe) : list Z := drop (n_landed s) (issued s).
Definition landed (s : pipe) : list Z := take (n_landed s) (issued s).

(** The read pipeline by itself: the reads in flight are the youngest ones, in
    order and each in its own buffer, their locks are held, and each buffer holds
    the last page read into it. *)
Record pipe_ok (s : pipe) : Prop := mkPipeOk {
  pi_ring : length (ring s) = MAX_N_SECTOR_READS;
  pi_idx : sector_idx s = length (issued s) mod MAX_N_SECTOR_READS;
  pi_nodup : NoDup (issued s);
  pi_len : length (on_flight_ios s) ≤ length (issued s);
  pi_fifo : io_id <$> on_flight_ios s = flying s;
  pi_slots : ∀ j io, on_flight_ios s !! j = Some io →
    io_slot io = (n_landed s + j) mod MAX_N_SECTOR_READS;
  pi_locked : locked s = flying s;
  pi_map : ∀ i slot, id_buf_map s !! i = Some slot →
    ∃ k, landed s !! k = Some i ∧ slot = k mod MAX_N_SECTOR_READS;
  pi_content : ∀ k i, issued s !! k = Some i → length (issued s) ≤ k + MAX_N_SECTOR_READS →
    ring s !! (k mod MAX_N_SECTOR_READS) = Some (Some i)
}.

(** The candidates' bits say where their reads are. *)
Record link (l : list Neighbor) (s : pipe) : Prop := mkLink {
  lk_flag : ∀ a, a ∈ l → flag a = true ↔ id a ∉ issued s;
  lk_wait : ∀ a, a ∈ l → flag a = false → visited a = false →
    id a ∈ flying s ∨ is_Some (id_buf_map s !! id a);
  lk_done : ∀ a, a ∈ l → visited a = true → id a ∈ landed s ∧ id_buf_map s !! id a = None;
  lk_member : ∀ a, a ∈ l → visited a = false → is_member a = false
}.

(** A candidate whose page waits in a buffer has seen at most [beam_width + c]
    reads sent since its own, and one for each candidate in front of it that was
    expanded. *)
Definition age_ok (c : nat) (l : list Neighbor) (s : pipe) : Prop :=
  ∀ a k, a ∈ l → visited a = false → is_Some (id_buf_map s !! id a) → issued s !! k = Some (id a) →
  length (issued s) ≤ k + beam_width q + vis_before a l + c.

(** The results: the expanded members with their exact distances, once each. *)
Record out_ok (l : list Neighbor) (s : pipe) (o : out) : Prop := mkOutOk {
  oi_exact : ∀ r, r ∈ full_retset o →
    r = new_neighbor (id r) (compare_sym ix (coords (read_node ix (id r))))
    ∧ is_member_exact q (id r) (read_node ix (id r)) = true;
  oi_nodup : NoDup (id <$> full_retset o);
  oi_ids : ∀ i, i ∈ id <$> full_retset o → i ∈ landed s ∧ id_buf_map s !! i = None;
  oi_all : ∀ a, a ∈ l → visited a = true →
    is_member a = is_member_exact q (id a) (read_node ix (id a))
    ∧ (is_member a = true → id a ∈ id <$> full_retset o);
  oi_coords : insert_ctx q = true →
    coord_buf o = (λ r, coords (read_node ix (id r))) <$> full_retset o
    ∧ ∀ i j, coord_map o !! i = Some j ↔ (id <$> full_retset o) !! j = Some i
}.

Lemma issued_split s : issued s = landed s ++ flying s.
Proof. symmetry. apply take_drop. Qed.

(** ** Polling *)

(** One read lands. *)
Definition land (io : io_t) (rest : list io_t) (s : pipe) : pipe :=
  mkPipe (ring s) (sector_idx s) rest (map_insert (io_id io) (io_slot io) (id_buf_map s))
    (unlock_idx (io_id io) (locked s))
    (if insert_ctx q then hint_pages s ++ [io_page io] else hint_pages s) (issued s).

Section land.
Context (s : pipe) (io : io_t) (rest : list io_t).
Context (Hs : pipe_ok s) (Hfly : on_flight_ios s = io :: rest).

Lemma land_n : n_landed (land io rest s) = S (n_landed s).
Proof.
  pose proof (pi_len _ Hs) as H. unfold n_landed. simpl. rewrite Hfly in *. simpl in *. lia.
Qed.

Lemma land_front : issued s !! n_landed s = Some (io_id io).
Proof.
  pose proof (pi_fifo _ Hs) as H. rewrite Hfly in H. unfold flying in H. simpl in H.
  rewrite <- (Nat.add_0_r (n_landed s)), <- lookup_drop, <- H. done.
Qed.

Lemma land_landed : landed (land io rest s) = landed s ++ [io_id io].
Proof. unfold landed. rewrite land_n. simpl. apply take_S_r, land_front. Qed.

Lemma land_flying : flying s = io_id io :: flying (land io rest s).
Proof. unfold flying. rewrite land_n. simpl. apply drop_S, land_front. Qed.

(** The node that lands was not in the map. *)
Lemma land_fresh : io_id io ∉ landed s ∧ io_id io ∉ flying (land io rest s).
Proof.
  pose proof (pi_nodup _ Hs) as H. rewrite (issued_split s), land_flying in H.
  apply NoDup_app in H as (_ & Hd & Hf). apply NoDup_cons in Hf as [Hf _]. split; [|done].
  intros Hin. apply (Hd _ Hin). left.
Qed.

Lemma land_map : id_buf_map (land io rest s) = <[io_id io := io_slot io]> (id_buf_map s).
Proof.
  simpl. unfold map_insert. destruct (id_buf_map s !! io_id io) as [slot|] eqn:E; [|done].
  destruct (pi_map _ Hs _ _ E) as (k & Hk & _). destruct land_fresh as [H _]. destruct H.
  by eapply list_elem_of_lookup_2.
Qed.

Lemma land_pipe_ok : pipe_ok (land io rest s).
Proof.
  pose proof land_n as Hn. pose proof Hs as [Hr Hi Hnd Hl Hf Hsl Hlk Hm Hc].
  split; try done.
  - simpl. rewrite Hfly in Hl. simpl in Hl. lia.
  - pose proof land_flying as E. rewrite <- Hf, Hfly in E. simpl in E. by injection E.
  - intros j io' Hj. rewrite Hn. specialize (Hsl (S j) io'). rewrite Hfly in Hsl.
    rewrite Hsl by done. f_equal. lia.
  - simpl. rewrite Hlk, land_flying. simpl. by rewrite Z.eqb_refl.
  - intros i slot. rewrite land_map, land_landed. rewrite lookup_insert_Some.
    intros [[<- <-]|[_ Hi']].
    + exists (n_landed s). assert (length (landed s) = n_landed s) as E.
      { unfold landed. rewrite length_take. unfold n_landed. lia. }
      rewrite lookup_app_r by lia. rewrite E, Nat.sub_diag. split; [done|].
      rewrite (Hsl 0 io) by (by rewrite Hfly). f_equal. lia.
    + destruct (Hm _ _ Hi') as (k & Hk & ->). exists k. split; [|done]. by apply lookup_app_l_Some.
Qed.

Lemma land_link l : link l s → link l (land io rest s).
Proof.
  intros [Hf Hw Hd Hmb]. split; [done| | |done].
  - intros a Ha Hfa Hva. rewrite land_map, lookup_insert_is_Some'.
    destruct (Hw a Ha Hfa Hva) as [H|H]; [|by auto].
    rewrite land_flying in H. apply elem_of_cons in H as [->|H]; auto.
  - intros a Ha Hva. destruct (Hd a Ha Hva) as [H1 H2]. rewrite land_landed, elem_of_app. split; [by left|].
    rewrite land_map, lookup_insert_ne; [done|]. intros E. destruct land_fresh as [Hn _]. by rewrite E in Hn.
Qed.

Lemma land_age c l : length (on_flight_ios s) ≤ beam_width q → age_ok c l s → age_ok c l (land io rest s).
Proof.
  intros Hb H a k Ha Hva Hm Hk. rewrite land_map, lookup_insert_is_Some' in Hm. simpl in *.
  destruct (decide (id a = io_id io)) as [E|Hne]; [|destruct Hm; [congruence|by apply H]].
  pose proof land_front as Hfr. rewrite E in Hk.
  assert (k = n_landed s) as -> by (eapply NoDup_lookup; [apply Hs|done..]).
  unfold n_landed. pose proof (pi_len _ Hs). lia.
Qed.

Lemma land_out l o : out_ok l s o → out_ok l (land io rest s) o.
Proof.
  intros [H1 H2 H3 H4 H5]. split; [done|done| |done|done].
  intros i Hi. destruct (H3 i Hi) as [Hl Hm]. rewrite land_landed, elem_of_app. split; [by left|].
  rewrite land_map, lookup_insert_ne; [done|]. intros <-. by destruct land_fresh.
Qed.
End land.

(** The reads, the candidates [l] and the results fit together. *)
Record reads_ok (c : nat) (l : list Neighbor) (s : pipe) (o : out) : Prop := mkReadsOk {
  ro_pipe : pipe_ok s;
  ro_link : link l s;
  ro_age : age_ok c l s;
  ro_out : out_ok l s o
}.

(** What the search has done: reads issued, reads landed, nodes expanded. *)
Definition progress (s : pipe) : nat :=
  length (issued s) + n_landed s + (n_landed s - base.size (id_buf_map s)).

Lemma map_size s : pipe_ok s → base.size (id_buf_map s) ≤ n_landed s.
Proof.
  intros Hs. pose proof (pi_len _ Hs) as Hl. pose proof (pi_nodup _ Hs) as Hnd.
  assert (Hsub : dom (id_buf_map s) ⊆ list_to_set (C := gset Z) (landed s)).
  { intros i [slot Hi]%elem_of_dom. destruct (pi_map _ Hs _ _ Hi) as (k & Hk & _).
    apply elem_of_list_to_set. by eapply list_elem_of_lookup_2. }
  rewrite <- size_dom. etransitivity; [by apply subseteq_size|].
  rewrite size_list_to_set.
  - unfold landed. rewrite length_take. lia.
  - rewrite (issued_split s) in Hnd. by apply NoDup_app in Hnd as [? _].
Qed.

Lemma poll_all_correct k p c l s o :
  wf p → 0 < cur_list_size_ p → reads_ok c l s o → length (on_flight_ios s) ≤ beam_width q →
  ∃ n_in n_out s', poll_all q k p s = Ok (n_in, n_out, s') ∧ reads_ok c l s' o
  ∧ issued s' = issued s ∧ length (on_flight_ios s') = length (on_flight_ios s) - k
  ∧ progress s' = progress s + Nat.min k (length (on_flight_ios s)).
Proof.
  intros Hwf Hcur. revert s. induction k as [|k IH]; intros s Hr Hb.
  { exists 0%Z, 0%Z, s. split_and!; [done..|lia|simpl; lia]. }
  destruct (on_flight_ios s) as [|io rest] eqn:Hf.
  { exists 0%Z, 0%Z, s. cbn [poll_all]. rewrite Hf. split_and!; [done|done|done|done|simpl; lia]. }
  destruct Hr as [Hp Hl Ha Ho]. cbn [poll_all]. rewrite Hf.
  destruct (retset_lookup p Hwf (cur_list_size_ p - 1)) as (w & Hw & _); [lia|].
  unfold worst. rewrite Hw. cbn [mbind res_bind lift].
  destruct (IH (land io rest s)) as (n_in & n_out & s' & Hs' & Hr' & Hi' & Hlen & Hpr).
  { split; [by apply land_pipe_ok|by apply land_link|apply land_age; [done|done|by rewrite Hf|done]|by apply land_out]. }
  { simpl in *. lia. }
  unfold land, io_id in Hs'. rewrite Hs'. cbn [mbind res_bind].
  assert (progress (land io rest s) = S (progress s)) as Hone.
  { pose proof (map_size _ Hp). unfold progress. rewrite land_n, land_map by done.
    rewrite map_size_insert_None; [simpl; lia|].
    apply eq_None_not_Some. intros [slot Hi]. destruct (pi_map _ Hp _ _ Hi) as (j & Hj & _).
    destruct (land_fresh _ _ _ Hp Hf) as [H1 _]. apply H1. by eapply list_elem_of_lookup_2. }
  destruct (fle _ _); (eexists _, _, s'; split; [done|]; split_and!;
    [done|done|rewrite Hlen; simpl; lia|rewrite Hpr, Hone; simpl; lia]).
Qed.

(** ** Sending a read *)

Lemma alter_elem (f : Neighbor → Neighbor) i (l : list Neighbor) a x :
  l !! i = Some a → NoDup (id <$> l) → x ∈ alter f i l → x = f a ∨ x ∈ l ∧ id x ≠ id a.
Proof.
  intros Hi Hnd (j & Hj)%list_elem_of_lookup. destruct (decide (j = i)) as [->|Hne].
  - rewrite list_lookup_alter_eq, Hi in Hj. simplify_eq/=. by left.
  - rewrite list_lookup_alter_ne in Hj by done. right. split; [by eapply list_elem_of_lookup_2|].
    intros E. apply Hne. apply (NoDup_lookup (id <$> l) j i (id a) Hnd); rewrite list_lookup_fmap.
    + rewrite Hj. simpl. by rewrite E.
    + by rewrite Hi.
Qed.

Lemma vis_before_same f i l a :
  (∀ c, id (f c) = id c ∧ distance (f c) = distance c ∧ visited (f c) = visited c) →
  vis_before a (alter f i l) = vis_before a l.
Proof.
  intros Hk. unfold vis_before. revert i. induction l as [|d l IH]; intros [|i]; simpl; try done.
  - destruct (Hk d) as (E1 & E2 & E3).
    replace (visited (f d) && nlt (f d) a) with (visited d && nlt d a) by (unfold nlt; by rewrite E1, E2, E3).
    by destruct (visited d && nlt d a).
  - change (list_alter f i l) with (alter f i l). destruct (visited d && nlt d a); simpl; by rewrite IH.
Qed.

Definition sent (a : Neighbor) (s : pipe) : pipe :=
  mkPipe (<[sector_idx s := Some (id a)]> (ring s)) ((sector_idx s + 1) mod MAX_N_SECTOR_READS)
    (on_flight_ios s ++ [mkIo (clear_flag a) (id2page ix (id a)) (sector_idx s)])
    (id_buf_map s) (locked s ++ [id a]) (hint_pages s) (issued s ++ [id a]).

Section sent.
Context (s : pipe) (a : Neighbor) (Hs : pipe_ok s) (Hnew : id a ∉ issued s).

Lemma sent_n : n_landed (sent a s) = n_landed s.
Proof. unfold n_landed. simpl. rewrite !length_app. simpl. lia. Qed.

Lemma sent_landed : landed (sent a s) = landed s.
Proof. unfold landed. rewrite sent_n. simpl. apply take_app_le. unfold n_landed. lia. Qed.

Lemma sent_flying : flying (sent a s) = flying s ++ [id a].
Proof. unfold flying. rewrite sent_n. simpl. apply drop_app_le. unfold n_landed. lia. Qed.

Lemma mod_lt x : x mod MAX_N_SECTOR_READS < MAX_N_SECTOR_READS.
Proof. by apply Nat.mod_upper_bound. Qed.

(** Two slots less than a round apart are different. *)
Lemma mod_ne k n : k < n → n < k + MAX_N_SECTOR_READS → k mod MAX_N_SECTOR_READS ≠ n mod MAX_N_SECTOR_READS.
Proof.
  intros H1 H2 E.
  pose proof (Nat.div_mod_eq k MAX_N_SECTOR_READS). pose proof (Nat.div_mod_eq n MAX_N_SECTOR_READS).
  rewrite E in *. unfold MAX_N_SECTOR_READS in *. lia.
Qed.

Lemma sent_pipe_ok : pipe_ok (sent a s).
Proof.
  pose proof Hs as [Hr Hi Hnd Hl Hf Hsl Hlk Hm Hc].
  split; cbn [sent ring sector_idx on_flight_ios id_buf_map locked issued].
  - by rewrite length_insert.
  - rewrite Hi, length_app. by rewrite Nat.Div0.add_mod_idemp_l.
  - apply NoDup_app. split_and!; [done| |apply NoDup_singleton].
    intros i Hin ->%list_elem_of_singleton. done.
  - rewrite !length_app. simpl. lia.
  - rewrite sent_flying, fmap_app, Hf. done.
  - intros j io. rewrite sent_n, lookup_snoc_Some. intros [[_ Hj]|[-> <-]]; [by apply Hsl|].
    cbn [io_slot]. rewrite Hi. f_equal. unfold n_landed. lia.
  - by rewrite Hlk, sent_flying.
  - intros i slot Hi'. rewrite sent_landed. by apply Hm.
  - intros k i. rewrite length_app. simpl. rewrite lookup_snoc_Some. intros [[Hk Hki]|[-> <-]] Hlen.
    + rewrite list_lookup_insert_ne; [apply Hc; [done|lia]|].
      rewrite Hi. intros E. symmetry in E. revert E. apply mod_ne; lia.
    + rewrite Hi. apply list_lookup_insert_eq. rewrite Hr. apply mod_lt.
Qed.

Lemma sent_reads_ok c i l o :
  l !! i = Some a → NoDup (id <$> l) → flag a = true → visited a = false → reads_ok c l s o →
  reads_ok (S c) (alter clear_flag i l) (sent a s) o.
Proof.
  intros Hi Hnd Hfa Hva [_ [Hf Hw Hd Hmb] Hage [H1 H2 H3 H4 H5]].
  assert (Hel : ∀ x, x ∈ alter clear_flag i l → x = clear_flag a ∨ x ∈ l ∧ id x ≠ id a).
  { intros x. by apply alter_elem. }
  split; [apply sent_pipe_ok| | |]; split || unfold age_ok; simpl; try done.
  - intros x [->|[Hx Hne]]%Hel; rewrite elem_of_app, list_elem_of_singleton; simpl; [naive_solver|].
    rewrite Hf by done. tauto.
  - intros x [->|[Hx Hne]]%Hel Hfx Hvx; rewrite sent_flying, elem_of_app; simpl.
    + left. right. by apply list_elem_of_singleton.
    + destruct (Hw x Hx Hfx Hvx); auto.
  - intros x [->|[Hx Hne]]%Hel Hvx; simpl in *; [congruence|]. rewrite sent_landed. by apply Hd.
  - intros x [->|[Hx _]]%Hel Hvx; [|by apply Hmb]. apply (Hmb a); [by eapply list_elem_of_lookup_2|done].
  - intros x k [->|[Hx Hne]]%Hel Hvx Hm Hk; simpl in *.
    + destruct Hm as [slot Hm]. destruct (pi_map _ Hs _ _ Hm) as (j & Hj & _).
      destruct Hnew. apply list_elem_of_lookup_2 in Hj. rewrite (issued_split s), elem_of_app. by left.
    + apply lookup_snoc_Some in Hk as [[Hkl Hk]|[_ E]]; [|congruence].
      rewrite length_app, vis_before_same by done. simpl. specialize (Hage x k Hx Hvx Hm Hk). lia.
  - intros j Hj. rewrite sent_landed. by apply H3.
  - intros x [->|[Hx _]]%Hel Hvx; simpl in *; [congruence|]. by apply H4.
Qed.
End sent.

(** The pool while it is only read: its bounds and the read marker.  The seeds
    of the in-memory index are read before they are sorted. *)
Record bounds (p : CandidatePool) : Prop := mkBounds {
  bd_pos : 1 ≤ l_pool_ p;
  bd_cur : cur_list_size_ p ≤ l_pool_ p;
  bd_cap : l_pool_ p + 1 ≤ length (retset_ p);
  bd_fu : first_unvisited_ p ≤ cur_list_size_ p;
  bd_send : send_marker_ p ≤ cur_list_size_ p;
  bd_flags : Forall (λ a, flag a = false) (take (send_marker_ p) (live p))
}.

Lemma bounds_live p : bounds p → length (live p) = cur_list_size_ p.
Proof. intros [? ? ? ? ? ?]. unfold live. rewrite length_take. lia. Qed.

Lemma next_read_correct p :
  bounds p → ∃ r p', next_read_nbr p = Some (r, p') ∧ bounds p' ∧ retset_ p' = retset_ p
  ∧ cur_list_size_ p' = cur_list_size_ p ∧ l_pool_ p' = l_pool_ p ∧ first_unvisited_ p' = first_unvisited_ p ∧
  match r with
  | Some i => send_marker_ p' = i ∧ ∃ a, live p !! i = Some a ∧ flag a = true
  | None => Forall (λ a, flag a = false) (live p)
  end.
Proof.
  intros Hb. pose proof Hb as [? ? ? ? ? Hg]. pose proof (bounds_live p Hb) as Hlen.
  unfold next_read_nbr, advance_to_flagged.
  destruct (walk_correct (λ a, negb (flag a)) (retset_ p) (cur_list_size_ p - send_marker_ p) (send_marker_ p))
    as (j & -> & Hj & Hall & Hend); [lia|]. cbn [mbind option_bind cur_list_size_].
  assert (Hset : Forall (λ a, flag a = false) (take j (live p))).
  { eapply settled_extend; [exact Hg|]. intros k a Hk [Ha _]%lookup_take_Some.
    specialize (Hall k a Hk Ha). by apply negb_true_iff in Hall. }
  eexists _, _. split; [done|]. split_and!; try done; [split; simpl; (done || lia)|].
  case_if.
  - split; [done|]. destruct Hend as (a & Ha & Hfa); [lia|]. exists a.
    apply negb_false_iff in Hfa. split; [|done]. unfold live. by rewrite lookup_take_lt.
  - by rewrite take_ge in Hset by lia.
Qed.

(** Clearing the flag of the candidate at the read marker. *)
Lemma clear_flag_correct p i a :
  bounds p → send_marker_ p = i → live p !! i = Some a →
  ∃ p', update p i clear_flag = Some p' ∧ bounds p' ∧ retset_ p' !! i = Some (clear_flag a)
  ∧ live p' = alter clear_flag i (live p)
  ∧ cur_list_size_ p' = cur_list_size_ p ∧ l_pool_ p' = l_pool_ p ∧ first_unvisited_ p' = first_unvisited_ p.
Proof.
  intros Hb Hi Ha. pose proof Hb as [? ? ? ? ? Hg]. apply live_lookup in Ha as Ha'. destruct Ha' as [Hr Hlt].
  unfold update. rewrite Hr. cbn [mbind option_bind]. rewrite vset_Some by lia.
  assert (Hlive : take (cur_list_size_ p) (<[i:=clear_flag a]> (retset_ p)) = alter clear_flag i (live p)).
  { rewrite take_insert_lt by done. fold (live p). symmetry. apply list_eq. intros k.
    destruct (decide (k = i)) as [->|].
    - rewrite list_lookup_alter_eq, Ha. simpl. rewrite list_lookup_insert_eq; [done|].
      by eapply lookup_lt_Some.
    - by rewrite list_lookup_alter_ne, list_lookup_insert_ne. }
  eexists. split; [done|]. split_and!; try done.
  - split; simpl; rewrite ?length_insert; try done. unfold live at 1. simpl. rewrite Hlive.
    by apply settled_alter.
  - simpl. apply list_lookup_insert_eq. lia.
Qed.

Definition unflagged (l : list Neighbor) : list Neighbor := clear_flag <$> l.

Lemma unflagged_alter i l : unflagged (alter clear_flag i l) = unflagged l.
Proof.
  unfold unflagged. revert i. induction l as [|a l IH]; intros [|i]; try done.
  change (alter clear_flag (S i) (a :: l)) with (a :: alter clear_flag i l). rewrite !fmap_cons. by rewrite IH.
Qed.

Lemma unflagged_ids l l' : unflagged l = unflagged l' → id <$> l = id <$> l'.
Proof.
  intros H. assert (E : ∀ k, id <$> k = id <$> unflagged k).
  { intros k. unfold unflagged. rewrite <- list_fmap_compose. done. }
  by rewrite E, H, <- E.
Qed.

Lemma unflagged_elem l l' i x :
  unflagged l' = unflagged l → l' !! i = Some x →
  ∃ y, l !! i = Some y ∧ id x = id y ∧ distance x = distance y ∧ visited x = visited y.
Proof.
  intros E Hx. assert (Hu : unflagged l !! i = Some (clear_flag x)).
  { rewrite <- E. unfold unflagged. by rewrite list_lookup_fmap, Hx. }
  unfold unflagged in Hu. rewrite list_lookup_fmap in Hu. apply fmap_Some in Hu as (y & Hy & Exy).
  exists y. split; [done|]. unfold clear_flag in Exy. by injection Exy.
Qed.

Lemma flagged_unvisited l s a : link l s → a ∈ l → flag a = true → visited a = false.
Proof.
  intros Hl Ha Hf. destruct (visited a) eqn:E; [|done]. exfalso.
  apply (lk_flag _ _ Hl) in Hf; [|done]. apply Hf. destruct (lk_done _ _ Hl a Ha E) as [H _].
  rewrite issued_split, elem_of_app. by left.
Qed.

Lemma send_best_correct n p c s o :
  bounds p → NoDup (id <$> live p) → reads_ok c (live p) s o →
  ∃ m p' s', send_best_read_req ix n p s = Ok (p', s') ∧ bounds p' ∧ m ≤ n
  ∧ reads_ok (c + m) (live p') s' o ∧ unflagged (live p') = unflagged (live p)
  ∧ cur_list_size_ p' = cur_list_size_ p ∧ l_pool_ p' = l_pool_ p ∧ first_unvisited_ p' = first_unvisited_ p
  ∧ (∃ k, issued s' = issued s ++ k ∧ length k = m ∧ ∀ i, i ∈ k → i ∈ id <$> live p)
  ∧ id_buf_map s' = id_buf_map s ∧ n_landed s' = n_landed s
  ∧ length (on_flight_ios s') = length (on_flight_ios s) + m
  ∧ (m < n → Forall (λ a, flag a = false) (live p')).
Proof.
  revert p c s. induction n as [|n IH]; intros p c s Hb Hnd Hr.
  { exists 0, p, s. rewrite !Nat.add_0_r. split_and!; try done; [|lia]. exists []. rewrite app_nil_r.
    split_and!; [done..|]. intros i Hi. by apply not_elem_of_nil in Hi. }
  cbn [send_best_read_req].
  destruct (next_read_correct p Hb) as (r & p1 & -> & Hb1 & Hrs & Hcur & Hl1 & Hfu1 & Hr1).
  cbn [lift mbind res_bind]. pose proof (live_eq p p1 Hrs Hcur) as Hlive1.
  destruct r as [i|].
  - destruct Hr1 as [Hi (a & Ha & Hfa)].
    destruct (clear_flag_correct p1 i a Hb1 Hi) as (p2 & Hu & Hb2 & Hat & Hlive2 & Hc2 & Hl2 & Hfu2);
      [by rewrite Hlive1|].
    unfold send_read_req. rewrite Hu. cbn [lift mbind res_bind]. rewrite Hat. cbn [lift mbind res_bind].
    destruct Hr as [Hp Hlk Hage Ho].
    assert (Hain : a ∈ live p) by (by eapply list_elem_of_lookup_2).
    assert (Hnew : id a ∉ issued s) by (by apply (lk_flag _ _ Hlk)).
    pose proof (flagged_unvisited _ _ _ Hlk Hain Hfa) as Hva.
    rewrite vset_Some by (rewrite (pi_ring _ Hp), (pi_idx _ Hp); apply mod_lt). cbn [lift mbind res_bind].
    pose proof (sent_reads_ok s a Hp Hnew c i (live p) o Ha Hnd Hfa Hva) as Hsr.
    fold (sent (clear_flag a) s). change (sent (clear_flag a) s) with (sent a s).
    destruct (IH p2 (S c) (sent a s)) as (m & p' & s' & He & Hb' & Hm & Hr' & Hun & Hc' & Hl' & Hfu' & (k & Hk & Hkl & Hki) & Hmap & Hnl & Hfl & Hno).
    + done.
    + rewrite Hlive2, Hlive1. by rewrite (unflagged_ids _ (live p)) by apply unflagged_alter.
    + rewrite Hlive2, Hlive1. by apply Hsr.
    + exists (S m), p', s'. split; [exact He|]. rewrite Nat.add_succ_r. rewrite Hlive2, Hlive1 in Hun, Hki.
      split_and!; try done; try congruence; try lia.
      * by rewrite Hun, unflagged_alter.
      * exists (id a :: k). rewrite Hk. simpl. rewrite <- app_assoc. split_and!; [done|lia|].
        intros j [->|Hj]%elem_of_cons; [by apply list_elem_of_fmap_2|].
        rewrite <- (unflagged_ids (alter clear_flag i (live p))); [by apply Hki|apply unflagged_alter].
      * by rewrite Hnl, sent_n.
      * rewrite Hfl. simpl. rewrite length_app. simpl. lia.
      * intros. apply Hno. lia.
  - exists 0, p1, s. rewrite Hlive1, !Nat.add_0_r. split_and!; try done; [lia|].
    exists []. rewrite app_nil_r. split_and!; [done..|]. intros j Hj. by apply not_elem_of_nil in Hj.
Qed.

(** ** Collecting the neighbours of a node *)

Local Abbreviation keys := VisitedSet.keys.

(** The candidates collected so far are distinct and new to the visited set,
    which was [K] before. *)
Record acc_ok (K : gset Z) (a : scan_acc) : Prop := mkAccOk {
  ac_inv : VisitedSet.inv (sc_visited a);
  ac_keys : keys (sc_visited a) = list_to_set (sc_ids a) ∪ K;
  ac_nodup : NoDup (sc_ids a);
  ac_fresh : ∀ i, i ∈ sc_ids a → i ∉ K
}.

(** [a'] has the candidates of [a] and others that satisfy [P]. *)
Definition extends (P : Z → Prop) (a a' : scan_acc) : Prop :=
  ∃ k, sc_ids a' = sc_ids a ++ k ∧ ∀ i, i ∈ k → i ∉ keys (sc_visited a) ∧ P i.

Lemma extends_refl P a : extends P a a.
Proof. exists []. rewrite app_nil_r. split; [done|]. intros i Hi. by apply not_elem_of_nil in Hi. Qed.

Lemma acc_ok_counts K a n m :
  acc_ok K a → acc_ok K (mkAcc (sc_visited a) (sc_ids a) n m).
Proof. by intros [? ? ? ?]. Qed.

Lemma visit_correct K i a :
  acc_ok K a → ∃ a', visit i a = Ok a' ∧ acc_ok K a' ∧ extends (λ j, j = i) a a'
  ∧ keys (sc_visited a') = {[i]} ∪ keys (sc_visited a) ∧ length (sc_ids a') ≤ S (length (sc_ids a)).
Proof.
  intros [Hi Hk Hnd Hf]. unfold visit.
  destruct (VisitedSet.visited_insert_correct (sc_visited a) i Hi) as (vs & -> & Hi' & Hk').
  cbn [lift mbind res_bind]. eexists. split; [done|].
  destruct (bool_decide_reflect (i ∉ keys (sc_visited a))) as [Hn|Hn]; simpl.
  - split_and!; [split; simpl| | |].
    + done.
    + rewrite Hk', Hk. set_solver.
    + apply NoDup_app. split_and!; [done| |apply NoDup_singleton].
      intros j Hj ->%list_elem_of_singleton. apply Hn. rewrite Hk. set_solver.
    + intros j [Hj|Hj%list_elem_of_singleton]%elem_of_app; [by apply Hf|]. rewrite Hk in Hn. set_solver.
    + exists [i]. split; [done|]. by intros j ->%list_elem_of_singleton.
    + done.
    + rewrite length_app. simpl. lia.
  - apply dec_stable in Hn. split_and!; [split; simpl; try done| |done|lia].
    + rewrite Hk', Hk. rewrite Hk in Hn. set_solver.
    + apply (extends_refl _ a).
Qed.

Lemma extends_trans P Q a a1 a2 :
  extends P a a1 → extends Q a1 a2 → keys (sc_visited a) ⊆ keys (sc_visited a1) →
  extends (λ i, P i ∨ Q i) a a2.
Proof.
  intros (k1 & E1 & H1) (k2 & E2 & H2) Hsub. exists (k1 ++ k2). rewrite E2, E1, app_assoc. split; [done|].
  intros i [Hi|Hi]%elem_of_app; [destruct (H1 i Hi)|destruct (H2 i Hi)]; split; auto.
Qed.

Lemma extends_weaken P Q a a' : (∀ i, P i → Q i) → extends P a a' → extends Q a a'.
Proof. intros H (k & E & Hk). exists k. split; [done|]. intros i Hi. destruct (Hk i Hi). auto. Qed.

Lemma collect_members_correct K cap l a :
  acc_ok K a → length (sc_ids a) ≤ cap →
  ∃ a', collect_members q cap l a = Ok a' ∧ acc_ok K a'
  ∧ extends (λ i, i ∈ l ∧ is_member_approx q i = true) a a'
  ∧ keys (sc_visited a) ⊆ keys (sc_visited a') ∧ length (sc_ids a') ≤ cap
  ∧ (length (sc_ids a) + length l ≤ cap →
     ∀ i, i ∈ l → is_member_approx q i = true → i ∈ keys (sc_visited a')).
Proof.
  revert a. induction l as [|x l IH]; intros a Ha Hcap; cbn [collect_members].
  { exists a. split_and!; try done; [apply extends_refl|]. intros _ i Hi. by apply not_elem_of_nil in Hi. }
  case_if.
  2:{ exists a. split_and!; try done; [apply extends_refl|]. simpl. lia. }
  assert (∃ a1, (if is_member_approx q x
                 then visit x (mkAcc (sc_visited a) (sc_ids a) (sc_seen a) (sc_match a + 1)) else Ok a) = Ok a1
    ∧ acc_ok K a1 ∧ extends (λ i, i ∈ x :: l ∧ is_member_approx q i = true) a a1
    ∧ keys (sc_visited a) ⊆ keys (sc_visited a1) ∧ length (sc_ids a1) ≤ S (length (sc_ids a))
    ∧ (is_member_approx q x = true → x ∈ keys (sc_visited a1))) as (a1 & -> & Ha1 & He1 & Hk1 & Hl1 & Hx1).
  { destruct (is_member_approx q x) eqn:Ex.
    - destruct (visit_correct K x (mkAcc (sc_visited a) (sc_ids a) (sc_seen a) (sc_match a + 1)))
        as (a1 & -> & Ha1 & He & Hk & Hl); [by apply acc_ok_counts|].
      exists a1. simpl in Hk. rewrite Hk. split_and!; try done; [|set_solver..].
      apply (extends_weaken (λ j, j = x)); [|exact He]. intros i ->. split; [left|done].
    - exists a. split_and!; try done; [apply extends_refl|lia]. }
  cbn [mbind res_bind].
  destruct (IH (mkAcc (sc_visited a1) (sc_ids a1) (sc_seen a1 + 1) (sc_match a1)))
    as (a' & -> & Ha' & He' & Hk' & Hl' & Hall); [by apply acc_ok_counts|simpl; lia|].
  simpl in *. exists a'. split_and!; try done; [|set_solver|].
  - pose proof (extends_trans _ _ a a1 a' He1 He' Hk1) as He. revert He. apply extends_weaken.
    intros i [?|[? ?]]; [done|]. split; [by right|done].
  - intros Hlen i [->|Hi]%elem_of_cons Hap; [by apply Hk', Hx1|]. apply Hall; [lia|done..].
Qed.

Lemma collect_rest_correct K cap l a :
  acc_ok K a → ∃ a', collect_rest cap l a = Ok a' ∧ acc_ok K a' ∧ extends (λ i, i ∈ l) a a'
  ∧ keys (sc_visited a) ⊆ keys (sc_visited a').
Proof.
  revert a. induction l as [|x l IH]; intros a Ha; cbn [collect_rest].
  { exists a. split_and!; try done. apply extends_refl. }
  case_if; [|exists a; split_and!; try done; apply extends_refl].
  destruct (visit_correct K x a Ha) as (a1 & -> & Ha1 & He1 & Hk1 & _). cbn [mbind res_bind].
  destruct (IH a1 Ha1) as (a' & -> & Ha' & He' & Hk'). exists a'. split_and!; try done; [|set_solver].
  assert (Hk : keys (sc_visited a) ⊆ keys (sc_visited a1)) by set_solver.
  pose proof (extends_trans _ _ a a1 a' He1 He' Hk) as He. revert He. apply extends_weaken.
  intros i [->|?]; [left|by right].
Qed.

(** The candidates of a node: first its approximate members, then (with the
    dense neighbours) 1-hop neighbours that are not. *)
Lemma collect_correct n vs :
  VisitedSet.inv vs →
  ∃ a m k, collect q n vs = Ok (a, length m) ∧ acc_ok (keys vs) a ∧ sc_ids a = m ++ k
  ∧ (∀ i, i ∈ m → i ∈ nbrs n ++ dense_nbrs n ∧ is_member_approx q i = true)
  ∧ (∀ i, i ∈ k → i ∈ nbrs n ∧ is_member_approx q i = false)
  ∧ (∀ i, i ∈ nbrs n → is_member_approx q i = true → i ∈ keys (sc_visited a)).
Proof.
  intros Hvs. unfold collect.
  assert (H0 : acc_ok (keys vs) (mkAcc vs [] 0 0)).
  { split; simpl; [done|set_solver|constructor|]. intros i Hi. by apply not_elem_of_nil in Hi. }
  destruct (collect_members_correct (keys vs) (length (nbrs n)) (nbrs n) _ H0)
    as (a1 & -> & Ha1 & (m1 & Em1 & Hm1) & Hk1 & Hl1 & Hall); [simpl; lia|]. simpl in *.
  specialize (Hall (le_n _)). cbn [mbind res_bind].
  destruct (use_dense_nbrs q).
  - destruct (collect_members_correct (keys vs) (length (nbrs n)) (dense_nbrs n) a1 Ha1 Hl1)
      as (a2 & -> & Ha2 & (m2 & Em2 & Hm2) & Hk2 & Hl2 & _). cbn [mbind res_bind].
    destruct (collect_rest_correct (keys vs) (length (nbrs n)) (nbrs n) a2 Ha2)
      as (a3 & -> & Ha3 & (k & Ek & Hk) & Hk3). cbn [mbind res_bind].
    exists a3, (m1 ++ m2), k. rewrite Em2, Em1 in *. split_and!; try done.
    + intros i [Hi|Hi]%elem_of_app; rewrite elem_of_app;
        [destruct (Hm1 i Hi) as [_ []]|destruct (Hm2 i Hi) as [_ []]]; tauto.
    + intros i Hi. destruct (Hk i Hi) as [Hn Hin]. split; [done|].
      destruct (is_member_approx q i) eqn:E; [|done]. destruct Hn. set_solver.
    + intros i Hi Hap. apply Hk3, Hk2. by apply Hall.
  - exists a1, m1, []. rewrite Em1, app_nil_r in *. split_and!; try done.
    + intros i Hi. destruct (Hm1 i Hi) as [_ []]. rewrite elem_of_app. tauto.
    + intros i Hi. by apply not_elem_of_nil in Hi.
Qed.

(** The scans stop at the node's degree. *)
Lemma collect_members_cap cap l a a' :
  length (sc_ids a) ≤ cap → collect_members q cap l a = Ok a' → length (sc_ids a') ≤ cap.
Proof.
  revert a. induction l as [|x l IH]; intros a Ha H; cbn [collect_members] in H; [by injection H as <-|].
  destruct (Nat.ltb_spec (length (sc_ids a)) cap); [|by injection H as <-].
  destruct (is_member_approx q x); cbn [mbind res_bind] in H; [|by eapply IH; [|exact H]].
  unfold visit in H. destruct (lift _) as [[new vs]|]; [|done]. cbn [mbind res_bind] in H.
  eapply IH; [|exact H]. simpl. case_match; rewrite ?length_app; simpl; lia.
Qed.

Lemma collect_rest_cap cap l a a' :
  length (sc_ids a) ≤ cap → collect_rest cap l a = Ok a' → length (sc_ids a') ≤ cap.
Proof.
  revert a. induction l as [|x l IH]; intros a Ha H; cbn [collect_rest] in H; [by injection H as <-|].
  destruct (Nat.ltb_spec (length (sc_ids a)) cap); [|by injection H as <-].
  unfold visit in H. destruct (lift _) as [[new vs]|]; [|done]. cbn [mbind res_bind] in H.
  eapply IH; [|exact H]. simpl. case_match; rewrite ?length_app; simpl; lia.
Qed.

Lemma scratch_entries_bound n vs : scratch_entries q n vs ≤ length (nbrs n).
Proof.
  unfold scratch_entries, collect. destruct (collect_members q _ (nbrs n) _) as [a1|] eqn:E1; [|apply Nat.le_0_l].
  apply collect_members_cap in E1; [|apply Nat.le_0_l]. cbn [mbind res_bind]. destruct (use_dense_nbrs q); [|exact E1].
  destruct (collect_members q _ (dense_nbrs n) a1) as [a2|] eqn:E2; [|apply Nat.le_0_l].
  apply collect_members_cap in E2; [|done]. cbn [mbind res_bind].
  destruct (collect_rest _ (nbrs n) a2) as [a3|] eqn:E3; [|apply Nat.le_0_l]. by apply collect_rest_cap in E3.
Qed.

(** ** Growing the pools *)

Context (Hnan : ∀ i, not_nan (compute_dist ix i)).

(** A candidate as the expansion creates it. *)
Definition scored (i : Z) : Z * float := (i, compute_dist ix i).

Definition scores (l : list Z) : list (Z * float) := map scored l.

(** [i] is closer to the query than [j]. *)
Definition closer (i j : Z) : Prop := nb_lt (nb (scored i)) (nb (scored j)).

Definition well_scored (l : list Neighbor) : Prop := ∀ a, a ∈ l → distance a = compute_dist ix (id a).

Lemma closer_iff a c :
  distance a = compute_dist ix (id a) → distance c = compute_dist ix (id c) →
  nb_lt a c ↔ closer (id a) (id c).
Proof. intros Ha Hc. unfold closer, nb_lt. simpl. by rewrite Ha, Hc. Qed.

Lemma scores_ids l : id <$> (nb <$> scores l) = l.
Proof. unfold scores. induction l as [|i l IH]; simpl; [done|]. by f_equal. Qed.

Lemma scores_elem l a : a ∈ nb <$> scores l → id a ∈ l ∧ a = nb (scored (id a)).
Proof.
  intros ([i d] & -> & Hx)%list_elem_of_fmap. unfold scores in Hx. rewrite list_elem_of_In, in_map_iff in Hx.
  destruct Hx as (j & [= <- <-] & Hj). simpl. by rewrite list_elem_of_In.
Qed.

Lemma scores_batch_ok l ids :
  NoDup ids → NoDup (id <$> l) → (∀ a, a ∈ l → id a ∉ ids) → batch_ok l (scores ids).
Proof.
  intros H1 H2 H3. split.
  - apply Forall_forall. intros a [_ ->]%scores_elem. apply Hnan.
  - rewrite fmap_app, scores_ids. apply NoDup_app. split_and!; [done| |done].
    intros i Hi (a & -> & Ha)%list_elem_of_fmap. by apply (H3 a).
Qed.

Lemma grown_scored n l ids : well_scored l → well_scored (grown n l (scores ids)).
Proof. intros H a [Ha|Ha]%grown_elem; [by apply H|]. by apply scores_elem in Ha as [_ ->]. Qed.

(** [p'] is [p] after the insertion of the candidates [b]. *)
Record grew (p p' : CandidatePool) (b : list (Z * float)) : Prop := mkGrew {
  gr_wf : wf p';
  gr_settled : settled p → settled p';
  gr_lpool : l_pool_ p' = l_pool_ p;
  gr_live : live p' = grown (l_pool_ p) (live p) b
}.

Lemma grew_trans p p1 p2 b1 b2 : grew p p1 b1 → grew p1 p2 b2 → grew p p2 (b1 ++ b2).
Proof.
  intros [_ Hs1 Hl1 Hv1] [Hw2 Hs2 Hl2 Hv2]. split; [done|auto|congruence|].
  rewrite Hv2, Hl1, Hv1. unfold grown. rewrite take_union. unfold union. by rewrite foldl_app.
Qed.

Lemma grew_pos p p' b : wf p → grew p p' b → 0 < cur_list_size_ p → 0 < cur_list_size_ p'.
Proof.
  intros Hwf [Hw' _ _ Hl] Hcur. rewrite <- live_length, Hl by done. unfold grown.
  rewrite length_take, union_Permutation, length_app, (live_length p) by done. destruct Hwf. lia.
Qed.

Lemma batch_inserted_grew p p' b : wf p → batch_inserted p p' b → grew p p' b.
Proof. intros Hwf H. split; try apply H. by apply batch_inserted_settled with b. Qed.

Lemma insert_candidates_all p b : insert_candidates p b = lift (insert_all p b).
Proof.
  revert p. induction b as [|x b IH]; intros p; [done|]. cbn [insert_candidates insert_all].
  destruct (insert p (nb x)) as [[r p']|]; cbn [lift mbind res_bind option_bind]; [apply IH|done].
Qed.

Lemma insert_candidates_correct p b :
  wf p → batch_ok (live p) b → ∃ p', insert_candidates p b = Ok p' ∧ grew p p' b.
Proof.
  intros Hwf Hb. destruct (insert_all_correct p b Hwf Hb) as (p' & Hp & H).
  exists p'. rewrite insert_candidates_all, Hp. split; [done|]. by apply batch_inserted_grew.
Qed.

(** The promotion scan inserts a prefix of the bridges. *)
Lemma promote_scan band b rp k :
  ∃ m, m ≤ length b ∧
  scan_loop (promote_step band) (nb <$> b) (rp, k) = (p ← rp; insert_candidates p (take m b), k + m).
Proof.
  revert rp k. induction b as [|x b IH]; intros rp k; cbn [fmap list_fmap scan_loop].
  { exists 0. split; [lia|]. rewrite Nat.add_0_r. by destruct rp. }
  unfold promote_step at 1. destruct (fgt _ _).
  { exists 0. split; [lia|]. rewrite Nat.add_0_r. by destruct rp. }
  cbn [fst snd].
  destruct (IH (p ← rp; '(_, p) ← lift (insert p (nb x)); Ok p) (S k)) as (m & Hm & E).
  exists (S m). split; [simpl; lia|]. rewrite E. f_equal; [|lia].
  destruct rp as [p|e]; [|done]. cbn [mbind res_bind take insert_candidates].
  destruct (insert p (nb x)) as [[r p']|]; done.
Qed.

(** ** The walk *)

(** Where the search starts: the entry point, or the in-memory results. *)
Definition starts : list Z :=
  if Nat.eqb (mem_L q) 0 then [entry_point_id ix] else fst <$> seeds q ix.

(** The ids the pool must not lose: the starts and the approximate members. *)
Definition wanted (i : Z) : Prop := is_member_approx q i = true ∨ i ∈ starts.

(** [i] is in the pool, or the pool is full and [i] is behind all of it. *)
Definition kept (ids : list Z) (i : Z) : Prop :=
  i ∈ ids ∨ length ids = l_pool q ∧ ∀ j, j ∈ ids → closer j i.

Record walk_ok (w : walk) : Prop := mkWalkOk {
  wk_wf : wf (pool w);
  wk_settled : settled (pool w);
  wk_l : l_pool_ (pool w) = l_pool q;
  wk_cwf : wf (cand_pool w);
  wk_vs : VisitedSet.inv (visited_set w);
  wk_nodup : NoDup (id <$> live (pool w));
  wk_cnodup : NoDup (id <$> live (cand_pool w));
  wk_disj : ∀ a c, a ∈ live (pool w) → c ∈ live (cand_pool w) → id a ≠ id c;
  wk_seen : ∀ a, a ∈ live (pool w) ++ live (cand_pool w) → id a ∈ keys (visited_set w);
  wk_dist : well_scored (live (pool w));
  wk_cand : ∀ c, c ∈ live (cand_pool w) → c = nb (scored (id c));
  wk_starts : ∀ i, i ∈ starts → i ∈ keys (visited_set w);
  wk_kept : ∀ i, i ∈ keys (visited_set w) → wanted i → kept (id <$> live (pool w)) i
}.

Lemma cand_scores w : walk_ok w → live (cand_pool w) = nb <$> scores (id <$> live (cand_pool w)).
Proof.
  intros Hw. pose proof (wk_cand _ Hw) as H. unfold scores.
  induction (live (cand_pool w)) as [|c l IH]; [done|]. simpl. rewrite <- (H c) by left. f_equal.
  apply IH. intros x Hx. apply H. by right.
Qed.

Section grown_kept.
Context (l : list Neighbor) (ids : list Z).
Context (Hok : Forall ok l) (Hs : nsorted l) (Hsc : well_scored l) (Hb : batch_ok l (scores ids)).
Local Abbreviation l' := (grown (l_pool q) l (scores ids)).

Lemma dropped_kept a :
  a ∈ l ∨ a ∈ nb <$> scores ids → distance a = compute_dist ix (id a) → kept (id <$> l') (id a).
Proof.
  intros Ha Hda. destruct (decide (a ∈ l')) as [Hin|Hn]; [left; by apply list_elem_of_fmap_2|].
  destruct (grown_dropped _ _ _ Hok Hs Hb a Ha Hn) as [Hlen Hall]. right.
  rewrite length_fmap. split; [done|]. intros j (c & -> & Hc)%list_elem_of_fmap.
  apply (closer_iff c a); [apply (grown_scored _ _ _ Hsc c Hc)|done|by apply Hall].
Qed.

Lemma new_kept i : i ∈ ids → kept (id <$> l') i.
Proof.
  intros Hi. change i with (id (nb (scored i))). apply dropped_kept; [|done]. right.
  apply list_elem_of_fmap_2. unfold scores. rewrite list_elem_of_In. apply in_map. by rewrite <- list_elem_of_In.
Qed.

Lemma old_kept i : kept (id <$> l) i → kept (id <$> l') i.
Proof.
  intros [(a & -> & Ha)%list_elem_of_fmap|[Hlen Hall]]; [apply dropped_kept; auto|].
  rewrite length_fmap in Hlen.
  destruct (decide (i ∈ id <$> l')) as [|Hni]; [by left|]. right.
  assert (Hl' : length l' = l_pool q).
  { unfold grown. rewrite length_take, union_Permutation, length_app. lia. }
  rewrite length_fmap. split; [done|]. intros j (c & -> & Hc)%list_elem_of_fmap.
  destruct (decide (c ∈ l)) as [Hcl|Hcl]; [apply Hall; by apply list_elem_of_fmap_2|].
  destruct (decide (Forall (λ x, x ∈ l') l)) as [Hsub|Hsub].
  - exfalso. rewrite Forall_forall in Hsub.
    assert (length (c :: l) ≤ length l'); [|simpl in *; lia].
    apply submseteq_length, NoDup_submseteq; [constructor; [done|by apply nsorted_NoDup]|].
    intros x [->|Hx]%elem_of_cons; auto.
  - apply not_Forall_Exists in Hsub; [|intros x; apply _]. apply Exists_exists in Hsub as (x & Hx & Hn).
    destruct (grown_dropped _ _ _ Hok Hs Hb x (or_introl Hx) Hn) as [_ Hlt].
    eapply nb_lt_trans; [|apply (Hall (id x)); by apply list_elem_of_fmap_2].
    apply (closer_iff c x); [apply (grown_scored _ _ _ Hsc c Hc)|by apply Hsc|by apply Hlt].
Qed.
End grown_kept.

Lemma elem_keys K i a : acc_ok K a → i ∈ keys (sc_visited a) ↔ i ∈ sc_ids a ∨ i ∈ K.
Proof. intros Ha. rewrite (ac_keys _ _ Ha), elem_of_union, elem_of_list_to_set. done. Qed.

(** The new members enter the pool, the connectivity candidates the bridge
    pool. *)
Lemma push_walk_ok w a m k ema :
  walk_ok w → acc_ok (keys (visited_set w)) a → sc_ids a = m ++ k →
  (∀ i, i ∈ k → is_member_approx q i = false) →
  ∃ p c, insert_batch (pool w) (scores m) = Some p ∧ insert_candidates (cand_pool w) (scores k) = Ok c
  ∧ walk_ok (mkWalk p c (sc_visited a) ema)
  ∧ grew (pool w) p (scores m) ∧ batch_ok (live (pool w)) (scores m)
  ∧ (∀ x, x ∈ live c → id x ∈ k ∨ x ∈ live (cand_pool w)).
Proof.
  intros Hw Ha Eids Hk. pose proof (ac_nodup _ _ Ha) as Hnd. rewrite Eids in Hnd.
  apply NoDup_app in Hnd as (Hndm & Hdis & Hndk).
  assert (Hfresh : ∀ i, i ∈ m ∨ i ∈ k → i ∉ keys (visited_set w)).
  { intros i Hi. apply (ac_fresh _ _ Ha). by rewrite Eids, elem_of_app. }
  assert (Hseen : ∀ x, x ∈ live (pool w) ∨ x ∈ live (cand_pool w) → id x ∈ keys (visited_set w)).
  { intros x Hx. apply (wk_seen _ Hw). by rewrite elem_of_app. }
  assert (Hbm : batch_ok (live (pool w)) (scores m)).
  { apply scores_batch_ok; [done|apply Hw|]. intros x Hx Hi. apply (Hfresh (id x)); auto. }
  assert (Hbk : batch_ok (live (cand_pool w)) (scores k)).
  { apply scores_batch_ok; [done|apply Hw|]. intros x Hx Hi. apply (Hfresh (id x)); auto. }
  destruct (insert_batch_correct (pool w) (wk_wf _ Hw) _ Hbm) as (p & Hp & Hbi).
  pose proof (batch_inserted_grew _ _ _ (wk_wf _ Hw) Hbi) as Hg.
  destruct (insert_candidates_correct (cand_pool w) _ (wk_cwf _ Hw) Hbk) as (c & Hc & Hgc).
  pose proof Hg as [Hgw Hgs Hgl Hgv]. pose proof Hgc as [Hcw _ _ Hcv]. rewrite (wk_l _ Hw) in Hgl, Hgv.
  assert (Hpe : ∀ x, x ∈ live p → x ∈ live (pool w) ∨ id x ∈ m ∧ x = nb (scored (id x))).
  { intros x. rewrite Hgv. intros [?|?%scores_elem]%grown_elem; auto. }
  assert (Hce : ∀ x, x ∈ live c → x ∈ live (cand_pool w) ∨ id x ∈ k ∧ x = nb (scored (id x))).
  { intros x. rewrite Hcv. intros [?|?%scores_elem]%grown_elem; auto. }
  exists p, c. split_and!; try done.
  - split; simpl; try done.
    + apply Hgs, Hw.
    + apply Ha.
    + rewrite Hgv. by apply grown_NoDup.
    + rewrite Hcv. by apply grown_NoDup.
    + intros x y [Hx|[Hx _]]%Hpe [Hy|[Hy _]]%Hce E.
      * by apply (wk_disj _ Hw x y).
      * apply (Hfresh (id y)); [by right|]. rewrite <- E. auto.
      * apply (Hfresh (id x)); [by left|]. rewrite E. auto.
      * apply (Hdis (id x)); [done|]. by rewrite E.
    + intros x. rewrite (elem_keys _ _ _ Ha), Eids, !elem_of_app.
      intros [[Hx|[Hx _]]%Hpe|[Hx|[Hx _]]%Hce]; auto.
    + rewrite Hgv. apply grown_scored, Hw.
    + intros x [Hx|[_ Hx]]%Hce; [by apply (wk_cand _ Hw)|done].
    + intros i Hi. apply (elem_keys _ _ _ Ha). right. by apply (wk_starts _ Hw).
    + intros i [Hi|Hi]%(elem_keys _ _ _ Ha) Hwant.
      * rewrite Eids, elem_of_app in Hi. destruct Hi as [Hi|Hi].
        -- rewrite Hgv. apply new_kept; try apply Hw; done.
        -- destruct Hwant as [Happ|Hst]; [by rewrite Hk in Happ|].
           destruct (Hfresh i); [by right|]. by apply (wk_starts _ Hw).
      * rewrite Hgv. apply old_kept; try apply Hw; done.
  - intros x [Hx|[Hx _]]%Hce; auto.
Qed.

(** The promotion moves a prefix of the bridges into the pool. *)
Lemma promote_correct w :
  walk_ok w → 0 < cur_list_size_ (pool w) →
  ∃ w' l, promote_bridges q w = Ok w' ∧ walk_ok w' ∧ visited_set w' = visited_set w
  ∧ grew (pool w) (pool w') (scores l) ∧ batch_ok (live (pool w)) (scores l)
  ∧ (∀ i, i ∈ l → i ∈ id <$> live (cand_pool w))
  ∧ (∀ c, c ∈ live (cand_pool w') → c ∈ live (cand_pool w)).
Proof.
  intros Hw Hcur. unfold promote_bridges, size.
  pose proof (wk_wf _ Hw) as Hwf. pose proof Hwf as [? ? Hcap _ _ _ _].
  set (bi := Z.to_nat _).
  assert (Hbi : bi < length (retset_ (pool w))).
  { pose proof (Z.mod_le (Z.of_nat (cur_list_size_ (pool w)) - 1) (2 ^ 32)). unfold bi, u32. lia. }
  destruct (lookup_lt_is_Some_2 _ _ Hbi) as [b Hb]. rewrite Hb. cbn [lift mbind res_bind].
  unfold scan. fold (live (cand_pool w)). set (ids := id <$> live (cand_pool w)).
  pose proof (cand_scores w Hw) as Ec. fold ids in Ec.
  destruct (promote_scan (distance b) (scores ids) (Ok (pool w)) 0) as (m & Hm & Hscan).
  rewrite <- Ec in Hscan. rewrite Hscan.
  cbn [mbind res_bind]. simpl (0 + m).
  assert (Etk : take m (scores ids) = scores (take m ids)) by (unfold scores; apply firstn_map).
  rewrite Etk.
  assert (Hlen : m ≤ cur_list_size_ (cand_pool w)).
  { unfold scores in Hm. rewrite length_map in Hm. unfold ids in Hm.
    rewrite length_fmap, live_length in Hm by apply Hw. done. }
  assert (Hcnd : NoDup ids) by apply Hw.
  assert (Hsplit : NoDup (take m ids) ∧ NoDup (drop m ids) ∧ ∀ i, i ∈ take m ids → i ∉ drop m ids).
  { rewrite <- (take_drop m ids) in Hcnd. apply NoDup_app in Hcnd as (? & ? & ?). auto. }
  destruct Hsplit as (Hndt & Hndd & Hdis).
  assert (Hsub : ∀ i, i ∈ take m ids → i ∈ ids).
  { intros i Hi. eapply elem_of_sublist; [exact Hi|apply sublist_take]. }
  assert (Hbo : batch_ok (live (pool w)) (scores (take m ids))).
  { apply scores_batch_ok; [done|apply Hw|]. intros a Ha Hi%Hsub.
    apply list_elem_of_fmap in Hi as (c & E & Hc). by apply (wk_disj _ Hw a c). }
  destruct (insert_candidates_correct (pool w) _ Hwf Hbo) as (p & -> & Hg). cbn [mbind res_bind].
  destruct (drop_front_correct (cand_pool w) m (wk_cwf _ Hw) Hlen) as (c & -> & Hcw & _ & Hcl & _).
  cbn [lift mbind res_bind].
  assert (Hcd : ∀ x, x ∈ live c → x ∈ live (cand_pool w) ∧ id x ∈ drop m ids).
  { intros x. rewrite Hcl. intros Hx. split; [eapply elem_of_sublist; [exact Hx|apply sublist_drop]|].
    unfold ids. rewrite <- fmap_drop. by apply list_elem_of_fmap_2. }
  pose proof Hg as [Hgw Hgs Hgl Hgv]. rewrite (wk_l _ Hw) in Hgl, Hgv.
  assert (Hpe : ∀ x, x ∈ live p → x ∈ live (pool w) ∨ id x ∈ take m ids).
  { intros x. rewrite Hgv. intros [?|[? _]%scores_elem]%grown_elem; auto. }
  eexists _, (take m ids). split; [done|]. split_and!; try done.
  - split; simpl; try done; try apply Hw.
    + apply Hgs, Hw.
    + rewrite Hgv. by apply grown_NoDup.
    + rewrite Hcl, fmap_drop. done.
    + intros x y [Hx|Hx]%Hpe [Hy Hyd]%Hcd E; [by apply (wk_disj _ Hw x y)|].
      apply (Hdis (id x) Hx). by rewrite E.
    + intros x [[Hx|Hx%Hsub]%Hpe|[Hx _]%Hcd]%elem_of_app.
      * apply (wk_seen _ Hw). rewrite elem_of_app. by left.
      * apply list_elem_of_fmap in Hx as (y & -> & Hy). apply (wk_seen _ Hw). rewrite elem_of_app. by right.
      * apply (wk_seen _ Hw). rewrite elem_of_app. by right.
    + rewrite Hgv. apply grown_scored, Hw.
    + intros x [Hx _]%Hcd. by apply (wk_cand _ Hw).
    + intros i Hi Hwant. rewrite Hgv. apply old_kept; try apply Hw; done.
  - intros x [Hx _]%Hcd. done.
Qed.

(** What an expansion does to the walk: the pool grows by candidates that were
    unseen or bridges, and the approximate members among the neighbours of the
    node are seen. *)
Record walked (n : DiskNode) (w w' : walk) (l : list Z) : Prop := mkWalked {
  wd_live : live (pool w') = grown (l_pool q) (live (pool w)) (scores l);
  wd_batch : batch_ok (live (pool w)) (scores l);
  wd_new : ∀ i, i ∈ l → i ∉ keys (visited_set w) ∨ i ∈ id <$> live (cand_pool w);
  wd_cand : ∀ c, c ∈ live (cand_pool w') → id c ∉ keys (visited_set w) ∨ c ∈ live (cand_pool w);
  wd_keys : keys (visited_set w) ⊆ keys (visited_set w');
  wd_from : ∀ i, i ∈ keys (visited_set w') → i ∈ keys (visited_set w) ∨ i ∈ nbrs n ++ dense_nbrs n;
  wd_nbrs : ∀ i, i ∈ nbrs n → is_member_approx q i = true → i ∈ keys (visited_set w')
}.

Lemma insert_batch_nil p : wf p → insert_batch p [] = Some p.
Proof.
  intros Hwf. unfold insert_batch, worst. destruct (full p); [|done].
  destruct (lookup_lt_is_Some_2 (retset_ p) (cur_list_size_ p - 1)) as [a ->]; [destruct Hwf; lia|done].
Qed.

Lemma walk_ok_ema p c vs e e' : walk_ok (mkWalk p c vs e) → walk_ok (mkWalk p c vs e').
Proof. by intros [? ? ? ? ? ? ? ? ? ? ? ? ?]. Qed.

Lemma compute_and_push_nbrs_correct n w :
  walk_ok w → 0 < cur_list_size_ (pool w) →
  ∃ w' l, compute_and_push_nbrs q ix n w = Ok w' ∧ walk_ok w' ∧ walked n w w' l.
Proof.
  intros Hw Hcur. unfold compute_and_push_nbrs.
  destruct (collect_correct n (visited_set w) (wk_vs _ Hw)) as (a & m & k & -> & Ha & Eids & Hm & Hk & Hall).
  cbn [mbind res_bind]. cbv zeta. change (map (λ i, (i, compute_dist ix i)) (sc_ids a)) with (scores (sc_ids a)).
  assert (Hsc : take (length m) (scores (sc_ids a)) = scores m ∧ drop (length m) (scores (sc_ids a)) = scores k).
  { rewrite Eids. unfold scores. rewrite map_app.
    rewrite take_app_length', drop_app_length' by (by rewrite length_map). done. }
  destruct Hsc as [-> ->].
  assert (Hkeys : keys (visited_set w) ⊆ keys (sc_visited a)).
  { intros i Hi. apply (elem_keys _ _ _ Ha). by right. }
  assert (Hfrom : ∀ i, i ∈ keys (sc_visited a) → i ∈ keys (visited_set w) ∨ i ∈ nbrs n ++ dense_nbrs n).
  { intros i [Hi|Hi]%(elem_keys _ _ _ Ha); [right|by left].
    rewrite Eids in Hi. apply elem_of_app in Hi as [Hi|Hi]; [by apply Hm|]. apply elem_of_app. left. by apply Hk. }
  set (ema := dadd _ _). clearbody ema. assert (Hfresh : ∀ i, i ∈ m ++ k → i ∉ keys (visited_set w)).
  { intros i Hi. apply (ac_fresh _ _ Ha). by rewrite Eids. }
  destruct (push_walk_ok w a m k ema Hw Ha Eids) as (p & c & Hp & Hc & Hw1 & Hg & Hb & Hcn); [by intros; apply Hk|].
  case_if.
  { assert (sc_ids a = []) as Enil by (unfold scores in Heqb; rewrite length_map in Heqb; by apply nil_length_inv).
    rewrite Enil in Eids. symmetry in Eids. apply app_nil in Eids as [-> ->].
    rewrite insert_batch_nil in Hp by apply Hw. simplify_eq/=.
    eexists _, []. split; [done|]. split; [by apply (walk_ok_ema _ _ _ ema)|]. split; simpl; try done.
    - rewrite <- (wk_l _ Hw). apply Hg.
    - intros i Hi. by apply not_elem_of_nil in Hi.
    - intros x Hx. by right. }
  rewrite Hp, Hc. cbn [lift mbind res_bind]. case_if.
  2:{ eexists _, m. split; [done|]. split; [done|]. split; simpl; try done.
      - rewrite <- (wk_l _ Hw). apply Hg.
      - intros i Hi. left. apply Hfresh, elem_of_app. by left.
      - intros x Hx. destruct (Hcn x Hx); [|by right]. left. apply Hfresh, elem_of_app. by right. }
  pose proof (grew_pos _ _ _ (wk_wf _ Hw) Hg Hcur) as Hcur'.
  destruct (promote_correct _ Hw1 Hcur') as (w' & l & -> & Hw' & Evs & Hg' & Hb' & Hl & Hcc). simpl in *.
  exists w', (m ++ l). split; [done|]. split; [done|].
  pose proof (grew_trans _ _ _ _ _ Hg Hg') as Hgg. unfold scores in Hgg. rewrite <- map_app in Hgg. fold (scores (m ++ l)) in Hgg.
  split; rewrite ?Evs; try done.
  - rewrite <- (wk_l _ Hw). apply Hgg.
  - assert (Hlc : ∀ i, i ∈ l → i ∈ k ∨ i ∈ id <$> live (cand_pool w)).
    { intros i (x & -> & Hx)%Hl%list_elem_of_fmap. destruct (Hcn x Hx); [by left|right].
      by apply list_elem_of_fmap_2. }
    assert (Hcs : ∀ i, i ∈ id <$> live (cand_pool w) → i ∈ keys (visited_set w)).
    { intros i (x & -> & Hx)%list_elem_of_fmap. apply (wk_seen _ Hw), elem_of_app. by right. }
    pose proof (ac_nodup _ _ Ha) as Hnd. rewrite Eids in Hnd. apply NoDup_app in Hnd as (Hndm & Hmk & _).
    destruct Hb' as [_ Hndl]. rewrite fmap_app, scores_ids in Hndl. apply NoDup_app in Hndl as (Hndl & _ & _).
    apply scores_batch_ok; [apply NoDup_app; split_and!; try done|apply Hw|].
    + intros i Hi [Hil|Hil%Hcs]%Hlc; [by apply (Hmk i)|]. apply (Hfresh i); [|done]. apply elem_of_app. by left.
    + intros x Hx [Hi|[Hi|(y & E & Hy)%list_elem_of_fmap]%Hlc]%elem_of_app.
      * apply (Hfresh (id x)); [apply elem_of_app; by left|]. apply (wk_seen _ Hw), elem_of_app. by left.
      * apply (Hfresh (id x)); [apply elem_of_app; by right|]. apply (wk_seen _ Hw), elem_of_app. by left.
      * by apply (wk_disj _ Hw x y).
  - intros i [Hi|(x & -> & Hx)%Hl%list_elem_of_fmap]%elem_of_app; [left; apply Hfresh, elem_of_app; by left|].
    destruct (Hcn x Hx); [left; apply Hfresh, elem_of_app; by right|right]. by apply list_elem_of_fmap_2.
  - intros x Hx%Hcc. destruct (Hcn x Hx); [left; apply Hfresh, elem_of_app; by right|by right].
Qed.

(** ** Expanding a candidate *)

(** The page of the expanded node leaves the map. *)
Definition erased (i : Z) (s : pipe) : pipe :=
  mkPipe (ring s) (sector_idx s) (on_flight_ios s) (delete i (id_buf_map s)) (locked s)
    (hint_pages s) (issued s).

Lemma erased_pipe_ok i s : pipe_ok s → pipe_ok (erased i s).
Proof.
  intros [Hr Hi Hnd Hl Hf Hsl Hlk Hm Hc]. split; try done.
  intros j slot Hj. simpl in Hj. apply lookup_delete_Some in Hj as [_ Hj]. by apply Hm.
Qed.

Lemma erased_progress i s :
  pipe_ok s → is_Some (id_buf_map s !! i) → progress (erased i s) = S (progress s).
Proof.
  intros Hs Hi. pose proof (map_size _ Hs) as Hsz. unfold progress, n_landed. simpl. fold (n_landed s).
  rewrite map_size_delete_Some by done.
  assert (0 < base.size (id_buf_map s)); [|lia].
  apply Nat.neq_0_lt_0. intros E%map_size_empty_iff. rewrite E in Hi. by apply is_Some_None in Hi.
Qed.

(** The candidate after its expansion. *)
Definition picked (mem : bool) (a : Neighbor) : Neighbor :=
  let a := set_visited (clear_flag a) in if mem then set_member a else a.

Lemma picked_facts mem a :
  id (picked mem a) = id a ∧ distance (picked mem a) = distance a ∧ visited (picked mem a) = true
  ∧ flag (picked mem a) = false ∧ (is_member a = false → is_member (picked mem a) = mem).
Proof. by destruct mem. Qed.

(** The results after the expansion of [i]. *)
Definition pushed (i : Z) (o o' : out) : Prop :=
  let n := read_node ix i in
  if is_member_exact q i n then
    full_retset o' = full_retset o ++ [new_neighbor i (compare_sym ix (coords n))]
    ∧ (insert_ctx q = true → coord_buf o' = coord_buf o ++ [coords n]
       ∧ coord_map o' = map_insert i (length (coord_buf o)) (coord_map o))
  else o' = o.

Section picked.
Context (c i : nat) (l : list Neighbor) (a : Neighbor) (s : pipe) (o o' : out).
Context (Hi : l !! i = Some a) (Hva : visited a = false) (Hma : is_Some (id_buf_map s !! id a)).
Context (Hnd : NoDup (id <$> l)) (Hok : Forall ok l) (Hs : nsorted l).
Context (Hfirst : ∀ k x, k < i → l !! k = Some x → visited x = true ∨ ¬ is_Some (id_buf_map s !! id x)).
Context (Hr : reads_ok 1 l s o) (Hpush : pushed (id a) o o').
Local Abbreviation mem := (is_member_exact q (id a) (read_node ix (id a))).
Local Abbreviation l1 := (alter (picked mem) i l).
Local Abbreviation s1 := (erased (id a) s).

Lemma picked_landed : id a ∈ landed s.
Proof.
  destruct Hma as [slot Hsl]. destruct (pi_map _ (ro_pipe _ _ _ _ Hr) _ _ Hsl) as (k & Hk & _).
  by eapply list_elem_of_lookup_2.
Qed.

Lemma picked_elem x : x ∈ l1 → x = picked mem a ∨ x ∈ l ∧ id x ≠ id a.
Proof. by apply alter_elem. Qed.

Lemma picked_link : link l1 s1.
Proof.
  destruct Hr as [_ [Hf Hw Hd Hmb] _ _]. destruct (picked_facts mem a) as (Eid & _ & Ev & Ef & _).
  pose proof picked_landed as Hla.
  split; intros x [->|[Hx Hne]]%picked_elem; simpl; rewrite ?Eid, ?Ev, ?Ef; try done.
  - split; [done|]. intros Hn. destruct Hn. rewrite issued_split, elem_of_app. by left.
  - by apply Hf.
  - intros Hfx Hvx. rewrite lookup_delete_ne by done. by apply Hw.
  - rewrite lookup_delete_eq. done.
  - intros Hvx. rewrite lookup_delete_ne by done. by apply Hd.
  - by apply Hmb.
Qed.

Lemma picked_age : age_ok 0 l1 s1.
Proof.
  destruct (picked_facts mem a) as (_ & _ & Ev & _).
  intros x k [->|[Hx Hne]]%picked_elem Hvx Hm Hk; [congruence|]. simpl in *.
  rewrite lookup_delete_ne in Hm by done.
  pose proof (ro_age _ _ _ _ Hr x k Hx Hvx Hm Hk) as Hage.
  apply list_elem_of_lookup in Hx as [j Hj].
  destruct (Nat.lt_total j i) as [Hlt|[->|Hlt]].
  - destruct (Hfirst j x Hlt Hj) as [|]; [congruence|done].
  - simplify_eq.
  - rewrite (vis_before_alter _ i l x a); [lia| |done..|].
    + intros y. by destruct (picked_facts mem y) as (? & ? & _).
    + rewrite Forall_lookup in Hok. apply nlt_spec; [by eapply Hok..|].
      eapply nsorted_lookup; [exact Hs|exact Hi|exact Hj|done].
Qed.

Lemma picked_out : out_ok l1 s1 o'.
Proof.
  destruct Hr as [_ [_ _ _ Hmb] _ [H1 H2 H3 H4 H5]].
  destruct (picked_facts mem a) as (Eid & _ & Ev & _ & Em).
  specialize (Em (Hmb a (list_elem_of_lookup_2 _ _ _ Hi) Hva)).
  assert (Hnew : id a ∉ id <$> full_retset o).
  { intros Hin. apply H3 in Hin as [_ Hn]. rewrite Hn in Hma. by apply is_Some_None in Hma. }
  assert (H3' : ∀ j, j ∈ id <$> full_retset o → j ∈ landed s1 ∧ id_buf_map s1 !! j = None).
  { intros j Hj. destruct (H3 j Hj) as [? Hn]. split; [done|]. simpl. by rewrite lookup_delete_None; right. }
  unfold pushed in Hpush.
  assert (mem = true ∨ mem = false) as [Emem|Emem] by (destruct mem; auto); rewrite Emem in Hpush.
  - destruct Hpush as [Efr Hctx]. split; rewrite ?Efr.
    + intros r [Hr'|Hr'%list_elem_of_singleton]%elem_of_app; [by apply H1|]. by subst r.
    + rewrite fmap_app. apply NoDup_app. split_and!; [done| |apply NoDup_singleton].
      intros j Hj ->%list_elem_of_singleton. done.
    + intros j. rewrite fmap_app, elem_of_app. intros [Hj|Hj%list_elem_of_singleton]; [by apply H3'|].
      subst j. simpl. rewrite lookup_delete_eq. split; [apply picked_landed|done].
    + intros x [->|[Hx _]]%picked_elem Hvx; rewrite fmap_app, elem_of_app.
      * rewrite Em, Eid. split; [done|]. intros _. right. by apply list_elem_of_singleton.
      * destruct (H4 x Hx Hvx) as [? Hin]. split; [done|]. intros. left. by apply Hin.
    + intros Hc. destruct (H5 Hc) as [Eb Hcm]. destruct (Hctx Hc) as [-> ->].
      split; [by rewrite fmap_app, <- Eb|]. intros j k. unfold map_insert. rewrite fmap_app.
      change (id <$> [new_neighbor (id a) (compare_sym ix (coords (read_node ix (id a))))]) with [id a].
      destruct (coord_map o !! id a) as [k'|] eqn:E.
      { destruct Hnew. apply Hcm in E. by eapply list_elem_of_lookup_2. }
      rewrite lookup_insert_Some, Hcm, lookup_snoc_Some, Eb, !length_fmap.
      split; [intros [[<- <-]|[_ Hjk]]; [by right|left]|intros [[_ Hjk]|[-> <-]]; [right|by left]].
      * split; [|done]. apply lookup_lt_Some in Hjk. by rewrite length_fmap in Hjk.
      * split; [|done]. intros <-. destruct Hnew. by eapply list_elem_of_lookup_2.
  - subst o'. split; try done.
    intros x [->|[Hx _]]%picked_elem Hvx; [|by apply H4]. rewrite Em, Eid. split; [done|congruence].
Qed.
End picked.

Lemma grown_reads_ok c l s o ids :
  Forall ok l → nsorted l → batch_ok l (scores ids) → (∀ i, i ∈ ids → i ∉ issued s) →
  reads_ok c l s o → reads_ok c (grown (l_pool q) l (scores ids)) s o.
Proof.
  intros Hok Hs Hb Hnew [Hp [Hf Hw Hd Hmb] Hage [H1 H2 H3 H4 H5]].
  assert (Hel : ∀ x, x ∈ grown (l_pool q) l (scores ids) → x ∈ l
    ∨ flag x = true ∧ visited x = false ∧ is_member x = false ∧ id x ∉ issued s).
  { intros x [Hx|[Hi Ex]%scores_elem]%grown_elem; [by left|right]. rewrite Ex. simpl.
    split_and!; try done. by apply Hnew. }
  split; [done| | |].
  - split; intros x [Hx|(Hfx & Hvx & Hmx & Hix)]%Hel; try congruence; try (by split); auto.
  - intros x k Hx Hvx Hm Hk.
    destruct (Hel x Hx) as [Hxl|(_ & _ & _ & Hix)]; [|destruct Hix; by eapply list_elem_of_lookup_2].
    specialize (Hage x k Hxl Hvx Hm Hk).
    assert (vis_before x l ≤ vis_before x (grown (l_pool q) l (scores ids))); [|lia].
    apply vis_before_le; [by apply nsorted_NoDup|]. intros y Hy _ Hlt. pose proof Hok as Hok'.
    rewrite Forall_forall in Hok'. eapply grown_closer; [done..|exact Hx|by left|].
    by apply nlt_spec in Hlt; [|apply Hok'..].
  - split; try done. intros x [Hx|(_ & Hvx & _)]%Hel Hv; [by apply H4|congruence].
Qed.

(** What the search may stop with: the reuse of a page buffer, beyond the bound
    on the beam and the pool, and the end of the insertion's vector buffer. *)
Inductive fault_ok (o : out) : fault → Prop :=
  | stale_ok : MAX_N_SECTOR_READS < beam_width q + l_pool q → fault_ok o StaleBuffer
  | coord_ok : insert_ctx q = true → kExpandedNodesFactor * l_pool q ≤ length (full_retset o) →
      fault_ok o CoordBufFull.

Lemma exact_push_correct l s o i :
  out_ok l s o → 
  (∃ o', compute_exact_dists_and_push q ix (read_node ix i) i o = Ok (is_member_exact q i (read_node ix i), o')
         ∧ pushed i o o')
  ∨ (compute_exact_dists_and_push q ix (read_node ix i) i o = Fault CoordBufFull ∧ fault_ok o CoordBufFull).
Proof.
  intros Ho. unfold compute_exact_dists_and_push, pushed.
  destruct (is_member_exact q i (read_node ix i)); cbn [negb]; [|left; by exists o].
  destruct (insert_ctx q) eqn:Ec; cbn [mbind res_bind].
  - destruct (oi_coords _ _ _ Ho Ec) as [Eb _].
    destruct (Nat.leb (kExpandedNodesFactor * l_pool q) (length (coord_buf o))) eqn:El; cbn [mbind res_bind].
    + right. split; [done|]. apply Nat.leb_le in El. rewrite Eb, length_fmap in El. by apply coord_ok.
    + left. eexists. split; [done|]. done.
  - left. eexists. split; [done|]. done.
Qed.

(** ** The state of the search *)

(** The ids of the index: the neighbours of its nodes are among them. *)
Context (U : gset Z).
Context (HU : ∀ i j, i ∈ U → j ∈ nbrs (read_node ix i) ++ dense_nbrs (read_node ix i) → j ∈ U).

Record search_ok (c : nat) (w : walk) (s : pipe) (o : out) : Prop := mkSearchOk {
  so_walk : walk_ok w;
  so_reads : reads_ok c (live (pool w)) s o;
  so_cand : ∀ x, x ∈ live (cand_pool w) → id x ∉ issued s;
  so_issued : ∀ i, i ∈ issued s → i ∈ keys (visited_set w);
  so_univ : keys (visited_set w) ⊆ U;
  so_closed : ∀ a i, a ∈ live (pool w) → visited a = true → i ∈ nbrs (read_node ix (id a)) →
    is_member_approx q i = true → i ∈ keys (visited_set w)
}.

(** Changing the bits of candidates. *)
Lemma walk_ok_bits w p e :
  walk_ok w → wf p → settled p → l_pool_ p = l_pool_ (pool w) → id <$> live p = id <$> live (pool w) →
  (∀ x, x ∈ live p → ∃ y, y ∈ live (pool w) ∧ id x = id y ∧ distance x = distance y) →
  walk_ok (mkWalk p (cand_pool w) (visited_set w) e).
Proof.
  intros [] Hwf Hset Hl Hids Hel. split; simpl; try done; try (by rewrite ?Hids); [congruence| | |].
  - intros a c (y & Hy & -> & _)%Hel Hc. auto.
  - intros a [(y & Hy & -> & _)%Hel|Ha]%elem_of_app; apply wk_seen0, elem_of_app; auto.
  - intros a (y & Hy & -> & ->)%Hel. auto.
Qed.

Lemma walk_ok_alter f i w p e :
  (∀ a, id (f a) = id a ∧ distance (f a) = distance a) → walk_ok w →
  wf p → settled p → l_pool_ p = l_pool_ (pool w) → live p = alter f i (live (pool w)) →
  walk_ok (mkWalk p (cand_pool w) (visited_set w) e).
Proof.
  intros Hf Hw Hwf Hset Hl Hlive. apply walk_ok_bits; try done; rewrite Hlive.
  - apply list_eq. intros k. rewrite !list_lookup_fmap.
    destruct (decide (k = i)) as [->|]; [|by rewrite list_lookup_alter_ne].
    rewrite list_lookup_alter_eq. destruct (live (pool w) !! i); simpl; [|done]. f_equal. apply Hf.
  - intros x (k & Hk)%list_elem_of_lookup. destruct (decide (k = i)) as [->|].
    + rewrite list_lookup_alter_eq in Hk. apply fmap_Some in Hk as (y & Hy & ->).
      exists y. split; [by eapply list_elem_of_lookup_2|]. apply Hf.
    + rewrite list_lookup_alter_ne in Hk by done. exists x. split; [by eapply list_elem_of_lookup_2|done].
Qed.

(** The page of a waiting candidate is in its buffer. *)
Lemma buffer_fresh w s o i a slot :
  search_ok 1 w s o → beam_width q + l_pool q ≤ MAX_N_SECTOR_READS →
  live (pool w) !! i = Some a → visited a = false → id_buf_map s !! id a = Some slot →
  ring s !! slot = Some (Some (id a)).
Proof.
  intros Hso Hbl Ha Hva Hsl. destruct (so_reads _ _ _ _ Hso) as [Hp _ Hage _].
  pose proof (wk_wf _ (so_walk _ _ _ _ Hso)) as Hwf.
  destruct (pi_map _ Hp _ _ Hsl) as (k & [Hk _]%lookup_take_Some & ->).
  apply (pi_content _ Hp); [done|].
  pose proof (Hage a k (list_elem_of_lookup_2 _ _ _ Ha) Hva (mk_is_Some _ _ Hsl) Hk).
  pose proof (vis_before_lt a _ i (wf_sorted _ Hwf) (wf_ok _ Hwf) Ha).
  apply live_lookup in Ha as [_ Hlt]. pose proof (wf_cur _ Hwf). rewrite (wk_l _ (so_walk _ _ _ _ Hso)) in *. lia.
Qed.

Lemma alter_twice (f g : Neighbor → Neighbor) i (l : list Neighbor) : alter f i (alter g i l) = alter (λ a, f (g a)) i l.
Proof.
  apply list_eq. intros k. destruct (decide (k = i)) as [->|].
  - rewrite !list_lookup_alter_eq. by destruct (l !! i).
  - by rewrite !list_lookup_alter_ne.
Qed.

(** The pool after [next_calc_nbr] and the member bit. *)
Lemma mark_correct mem i w p e :
  walk_ok w → wf p → settled p → l_pool_ p = l_pool_ (pool w) →
  live p = alter (λ a, set_visited (clear_flag a)) i (live (pool w)) → i < cur_list_size_ (pool w) →
  ∃ p', (if (mem : bool) then lift (update p i set_member) else Ok p) = Ok p'
  ∧ walk_ok (mkWalk p' (cand_pool w) (visited_set w) e)
  ∧ live p' = alter (picked mem) i (live (pool w)).
Proof.
  intros Hw Hwf Hset Hl Hlive Hi.
  assert (Hid : ∀ m a, id (picked m a) = id a ∧ distance (picked m a) = distance a) by (by intros []).
  destruct mem.
  - destruct (update_settled p i set_member Hwf Hset) as (p' & -> & Hwf' & Hset' & Hlive' & Hl').
    + rewrite <- live_length, Hlive, length_alter, live_length by (done || apply Hw). done.
    + done.
    + done.
    + done.
    + exists p'. rewrite Hlive, alter_twice in Hlive'.
      split; [done|]. split; [|exact Hlive'].
      apply (walk_ok_alter (picked true) i); (done || congruence || apply Hid).
  - exists p. split; [done|]. split; [|done]. apply (walk_ok_alter (picked false) i); (done || apply Hid).
Qed.

(** The outcome of a step from [s]: a sound state in which [n] more things were
    done, or one of the two faults. *)
Definition outcome (P : walk → pipe → out → Prop) (o : out) (r : res (walk * pipe * out)) : Prop :=
  match r with
  | Ok (w', s', o') => P w' s' o'
  | Fault e => fault_ok o e
  end.

(** The walk of an expansion keeps the search sound. *)
Lemma walked_search_ok c w w' s o l a :
  walk_ok w → walk_ok w' → walked (read_node ix (id a)) w w' l → reads_ok c (live (pool w)) s o →
  (∀ x, x ∈ live (cand_pool w) → id x ∉ issued s) → (∀ i, i ∈ issued s → i ∈ keys (visited_set w)) →
  keys (visited_set w) ⊆ U → id a ∈ U →
  (∀ x i, x ∈ live (pool w) → visited x = true → id x ≠ id a → i ∈ nbrs (read_node ix (id x)) →
     is_member_approx q i = true → i ∈ keys (visited_set w)) →
  search_ok c w' s o.
Proof.
  intros Hw Hw' Hwd Hr Hcand Hiss Huniv HaU Hclosed. pose proof Hwd as [Hlive Hb Hnew Hc Hk Hfrom Hn].
  split; [done| | | | |].
  - rewrite Hlive. apply grown_reads_ok; [apply Hw..|done| |done].
    intros i Hi Hin. destruct (Hnew i Hi) as [Hn'|(x & -> & Hx)%list_elem_of_fmap]; [by apply Hn', Hiss|].
    by apply (Hcand x).
  - intros x Hx Hin. destruct (Hc x Hx) as [Hn'|Hx']; [by apply Hn', Hiss|]. by apply (Hcand x).
  - intros i Hi. by apply Hk, Hiss.
  - intros i Hi. destruct (Hfrom i Hi) as [|Hin]; [by apply Huniv|]. by eapply HU.
  - intros x i. rewrite Hlive. intros [Hx|[_ Ex]%scores_elem]%grown_elem Hvx; [|by rewrite Ex in Hvx].
    destruct (decide (id x = id a)) as [->|Hne]; [apply Hn|]. intros Hi Hap. apply Hk. by apply (Hclosed x).
Qed.

Lemma expand_correct i w p s o a :
  search_ok 1 w s o → live (pool w) !! i = Some a → visited a = false → is_Some (id_buf_map s !! id a) →
  (∀ k x, k < i → live (pool w) !! k = Some x → visited x = true ∨ ¬ is_Some (id_buf_map s !! id x)) →
  wf p → settled p → l_pool_ p = l_pool_ (pool w) →
  live p = alter (λ a, set_visited (clear_flag a)) i (live (pool w)) →
  outcome (λ w' s' o', search_ok 0 w' s' o' ∧ issued s' = issued s ∧ on_flight_ios s' = on_flight_ios s
                       ∧ progress s' = S (progress s) ∧ 0 < cur_list_size_ (pool w')) o
    (expand q ix i (mkWalk p (cand_pool w) (visited_set w) (member_frac_ema w)) s o).
Proof.
  intros Hso Ha Hva Hma Hfirst Hwf Hset Hl Hlive. pose proof Hso as [Hw Hr Hcand Hiss Huniv Hclosed].
  pose proof (live_lookup _ _ _ Ha) as [_ Hlt].
  assert (Hat : retset_ p !! i = Some (set_visited (clear_flag a))).
  { apply live_lookup. rewrite Hlive, list_lookup_alter_eq, Ha. done. }
  unfold expand. cbn [pool cand_pool visited_set member_frac_ema]. rewrite Hat. cbn [lift mbind res_bind].
  pose proof Hma as [slot Hsl]. change (id (set_visited (clear_flag a))) with (id a). rewrite Hsl.
  cbn [lift mbind res_bind].
  destruct (bool_decide_reflect (ring s !! slot = Some (Some (id a)))) as [_|Hst].
  2:{ simpl. apply stale_ok. destruct (Nat.lt_ge_cases MAX_N_SECTOR_READS (beam_width q + l_pool q)); [done|].
      destruct Hst. by eapply buffer_fresh. }
  destruct (exact_push_correct _ _ _ (id a) (ro_out _ _ _ _ Hr)) as [(o' & -> & Hpush)|[-> Hf]]; [|done].
  cbn [mbind res_bind].
  destruct (mark_correct (is_member_exact q (id a) (read_node ix (id a))) i w p (member_frac_ema w)
    Hw Hwf Hset Hl Hlive Hlt) as (p' & -> & Hw1 & Hlive1). cbn [mbind res_bind].
  assert (Hcur1 : 0 < cur_list_size_ p').
  { rewrite <- live_length, Hlive1, length_alter, live_length by (apply Hw || apply (wk_wf _ Hw1)). lia. }
  destruct (compute_and_push_nbrs_correct (read_node ix (id a)) _ Hw1 Hcur1)
    as (w' & l & -> & Hw' & Hwd). cbn [mbind res_bind outcome].
  change (mkPipe _ _ _ _ _ _ _) with (erased (id a) s).
  assert (Hr1 : reads_ok 0 (live p') (erased (id a) s) o').
  { pose proof (wk_nodup _ Hw). pose proof (wk_wf _ Hw) as [? ? ? ? ? ? ?]. rewrite Hlive1. split; [apply erased_pipe_ok, Hr|by eapply picked_link|by eapply picked_age|by eapply picked_out]. }
  split_and!; [|done|done|by apply erased_progress; [apply Hr|]|].
  - apply (walked_search_ok 0 _ w' _ o' l a Hw1 Hw' Hwd Hr1); try done.
    + apply Huniv, (wk_seen _ Hw), elem_of_app. left. by eapply list_elem_of_lookup_2.
    + simpl. rewrite Hlive1. intros x j Hx. apply (alter_elem _ _ _ _ _ Ha (wk_nodup _ Hw)) in Hx.
      destruct Hx as [->|[Hx Hne]]; [|intros ? _; by apply Hclosed].
      intros _ E. by destruct (picked_facts (is_member_exact q (id a) (read_node ix (id a))) a) as (? & _).
  - rewrite <- live_length, (wd_live _ _ _ _ Hwd) by apply Hw'. unfold grown.
    rewrite length_take, union_Permutation, length_app. simpl. rewrite (live_length p') by apply Hw1.
    pose proof (wf_pos _ Hwf). rewrite Hl, (wk_l _ Hw) in *. lia.
Qed.

(** ** A round of the main loop *)

(** The calc marker is at an unexpanded candidate. *)
Definition fu_exact (p : CandidatePool) : Prop :=
  ∀ a, live p !! first_unvisited_ p = Some a → visited a = false.

Lemma frontier_correct p :
  wf p → settled p → ∃ m p', frontier p = Some (m, p') ∧ wf p' ∧ settled p' ∧ live p' = live p
  ∧ cur_list_size_ p' = cur_list_size_ p ∧ l_pool_ p' = l_pool_ p ∧ fu_exact p'.
Proof.
  intros Hwf Hset. unfold frontier.
  destruct (skip_visited_correct p Hwf Hset) as (p1 & -> & Hwf1 & Hset1 & Hrs1 & Hc1 & Hl1 & _ & Hfu).
  cbn [mbind option_bind].
  destruct (advance_to_flagged_correct p1 Hwf1 Hset1)
    as (m & p2 & -> & Hwf2 & Hset2 & Hrs2 & Hc2 & Hl2 & Hfu2 & _).
  exists m, p2. split_and!; try done; try congruence.
  - apply live_eq; congruence.
  - intros a. rewrite (live_eq p1 p2) by done. rewrite (live_eq p p1) by done. rewrite Hfu2. intros Ha.
    pose proof (live_lookup _ _ _ Ha) as [_ Hlt]. destruct (Hfu Hlt) as (b & Hb & ?). congruence.
Qed.

Lemma walk_ok_pool w p e :
  walk_ok w → wf p → settled p → l_pool_ p = l_pool_ (pool w) → live p = live (pool w) →
  walk_ok (mkWalk p (cand_pool w) (visited_set w) e).
Proof. intros [] Hwf Hset Hl Hlive. split; simpl; rewrite ?Hlive; try done. congruence. Qed.

Lemma search_ok_pool c w p s o e :
  search_ok c w s o → wf p → settled p → l_pool_ p = l_pool_ (pool w) → live p = live (pool w) →
  search_ok c (mkWalk p (cand_pool w) (visited_set w) e) s o.
Proof.
  intros [] Hwf Hset Hl Hlive. split; simpl; rewrite ?Hlive; try done. by apply walk_ok_pool.
Qed.

(** A waiting page. *)
Definition waiting (w : walk) (s : pipe) : Prop :=
  ∃ a, a ∈ live (pool w) ∧ visited a = false ∧ is_Some (id_buf_map s !! id a).

(** The slack of the age is used up by an expansion, or nothing waits. *)
Lemma search_ok_idle w s o : search_ok 1 w s o → ¬ waiting w s → search_ok 0 w s o.
Proof.
  intros [Hw [? ? _ ?] ? ? ? ?] Hno. split; try done. split; try done.
  intros a k Ha Hva Hm. destruct Hno. by exists a.
Qed.

Definition calc_post (w : walk) (s : pipe) (w' : walk) (s' : pipe) (o' : out) : Prop :=
  search_ok 0 w' s' o' ∧ issued s' = issued s ∧ on_flight_ios s' = on_flight_ios s
  ∧ progress s ≤ progress s' ∧ (waiting w s → progress s < progress s')
  ∧ (0 < cur_list_size_ (pool w) → 0 < cur_list_size_ (pool w')).

(** [calc_best_node] before the marker is advanced. *)
Lemma pick_correct w s o :
  search_ok 1 w s o →
  outcome (calc_post w s) o
    ('(node, p) ←
       (if bool_decide (id_buf_map s = ∅) then Ok (None, pool w)
        else lift (next_calc_nbr (λ i, bool_decide (is_Some (id_buf_map s !! i))) (pool w)));
     match node with
     | None => Ok (mkWalk p (cand_pool w) (visited_set w) (member_frac_ema w), s, o)
     | Some i => expand q ix i (mkWalk p (cand_pool w) (visited_set w) (member_frac_ema w)) s o
     end).
Proof.
  intros Hso. pose proof (so_walk _ _ _ _ Hso) as Hw. pose proof (wk_wf _ Hw) as Hwf.
  assert (Hidle : ¬ waiting w s → calc_post w s
    (mkWalk (pool w) (cand_pool w) (visited_set w) (member_frac_ema w)) s o).
  { intros Hno. split_and!; try done. apply search_ok_pool; [|apply Hw..|done|done]. by apply search_ok_idle. }
  case_bool_decide as Hm; cbn [mbind res_bind].
  { apply Hidle. intros (a & _ & _ & [slot Hs]). by rewrite Hm in Hs. }
  destruct (next_calc_nbr_correct (pool w) Hwf (wk_settled _ Hw) (λ i, bool_decide (is_Some (id_buf_map s !! i))))
    as (r & p & -> & Hwf' & Hset' & Hl' & Hr). cbn [lift mbind res_bind].
  destruct r as [i|].
  - destruct Hr as ((a & Ha & Hva & Hra) & Hfirst & Hlive). apply bool_decide_eq_true in Hra.
    pose proof (expand_correct i w p s o a Hso Ha Hva Hra) as Hex.
    destruct (expand _ _ _ _ _ _) as [[[w' s'] o']|e]; simpl in *.
    + destruct Hex as (? & ? & ? & Hpr & ?); try done.
      * intros k x Hk Hx. destruct (Hfirst k x Hk Hx) as [|Hb%bool_decide_eq_false]; auto.
      * split_and!; try done; lia.
    + apply Hex; try done.
      intros k x Hk Hx. destruct (Hfirst k x Hk Hx) as [|Hb%bool_decide_eq_false]; auto.
  - destruct Hr as [-> Hno]. apply Hidle. intros (a & Ha & Hva & Hs).
    apply list_elem_of_lookup in Ha as [k Hk]. destruct (Hno k a Hk) as [|Hb%bool_decide_eq_false]; [congruence|done].
Qed.

Lemma calc_best_node_correct w s o :
  search_ok 1 w s o →
  match calc_best_node q ix w s o with
  | Ok (_, (w', s', o')) => calc_post w s w' s' o' ∧ fu_exact (pool w')
  | Fault e => fault_ok o e
  end.
Proof.
  intros Hso. pose proof (pick_correct w s o Hso) as Hp. unfold calc_best_node.
  destruct (if bool_decide (id_buf_map s = ∅) then _ else _) as [[node p]|e]; cbn [mbind res_bind] in *; [|done].
  destruct (match node with None => _ | Some i => _ end) as [[[w' s'] o']|e]; cbn [mbind res_bind outcome] in *; [|done].
  destruct Hp as (Hso' & Hrest). pose proof (so_walk _ _ _ _ Hso') as Hw'.
  destruct (frontier_correct (pool w') (wk_wf _ Hw') (wk_settled _ Hw'))
    as (m & p' & -> & Hwf & Hset & Hlive & Hcur & Hl & Hfu). cbn [lift mbind res_bind].
  split; [|done]. split; [by apply search_ok_pool|]. simpl. by rewrite Hcur.
Qed.

Lemma wf_bounds p : wf p → settled p → bounds p.
Proof. by intros [] []. Qed.

Lemma nsorted_unflagged l : nsorted (unflagged l) ↔ nsorted l.
Proof.
  unfold unflagged. induction l as [|a l IH]; [done|]. rewrite fmap_cons.
  split; intros [H1 H2]%StronglySorted_inv; constructor.
  - by apply IH.
  - exact (proj1 (Forall_fmap clear_flag _ l) H2).
  - by apply IH.
  - exact (proj2 (Forall_fmap clear_flag _ l) H2).
Qed.

(** Issuing reads keeps the pool sorted. *)
Lemma wf_unflagged p p' :
  wf p → settled p → bounds p' → unflagged (live p') = unflagged (live p) →
  first_unvisited_ p' = first_unvisited_ p → wf p' ∧ settled p'.
Proof.
  intros Hwf [Hv _] Hb Hun Hfu. pose proof Hb as [? ? ? ? ? ?]. split; [split; try done|split; [|done]].
  - apply Forall_lookup. intros i x Hx. destruct (unflagged_elem _ _ _ _ Hun Hx) as (y & Hy & _ & E & _).
    unfold ok. rewrite E. pose proof (wf_ok _ Hwf) as Hok. rewrite Forall_lookup in Hok. by apply (Hok i).
  - apply nsorted_unflagged. rewrite Hun. apply nsorted_unflagged, Hwf.
  - rewrite Hfu. apply Forall_lookup. intros i x [Hx Hi]%lookup_take_Some.
    destruct (unflagged_elem _ _ _ _ Hun Hx) as (y & Hy & _ & _ & ->).
    rewrite Forall_lookup in Hv. apply (Hv i). by rewrite lookup_take_lt.
Qed.

Lemma send_correct n w s o :
  search_ok 0 w s o →
  ∃ m p s', send_best_read_req ix n (pool w) s = Ok (p, s') ∧ m ≤ n
  ∧ (∀ e, search_ok m (mkWalk p (cand_pool w) (visited_set w) e) s' o)
  ∧ unflagged (live p) = unflagged (live (pool w))
  ∧ cur_list_size_ p = cur_list_size_ (pool w) ∧ first_unvisited_ p = first_unvisited_ (pool w)
  ∧ length (on_flight_ios s') = length (on_flight_ios s) + m
  ∧ progress s' = progress s + m
  ∧ (m < n → Forall (λ a, flag a = false) (live p)).
Proof.
  intros Hso. pose proof Hso as [Hw Hr Hcand Hiss Huniv Hclosed].
  destruct (send_best_correct n (pool w) 0 s o (wf_bounds _ (wk_wf _ Hw) (wk_settled _ Hw)) (wk_nodup _ Hw) Hr)
    as (m & p & s' & -> & Hb & Hm & Hr' & Hun & Hcur & Hl & Hfu & (k & Ek & Hkl & Hki) & Hmap & Hnl & Hfl & Hno).
  exists m, p, s'. split; [done|]. split; [done|].
  destruct (wf_unflagged _ _ (wk_wf _ Hw) (wk_settled _ Hw) Hb Hun Hfu) as [Hwf Hset].
  assert (Hel : ∀ x, x ∈ live p → ∃ y, y ∈ live (pool w) ∧ id x = id y ∧ distance x = distance y ∧ visited x = visited y).
  { intros x (j & Hj)%list_elem_of_lookup. destruct (unflagged_elem _ _ _ _ Hun Hj) as (y & Hy & ?).
    exists y. split; [by eapply list_elem_of_lookup_2|done]. }
  split_and!; try done.
  - intros e. split; simpl; try done.
    + apply walk_ok_bits; try done; [by apply unflagged_ids|].
      intros x (y & Hy & ? & ? & _)%Hel. by exists y.
    + intros x Hx. rewrite Ek, elem_of_app. intros [Hi|Hi%Hki]; [by apply (Hcand x)|].
      apply list_elem_of_fmap in Hi as (a & E & Ha). by apply (wk_disj _ Hw a x).
    + intros i. rewrite Ek, elem_of_app. intros [Hi|Hi%Hki]; [by apply Hiss|].
      apply list_elem_of_fmap in Hi as (a & -> & Ha). apply (wk_seen _ Hw), elem_of_app. by left.
    + intros a i (y & Hy & -> & _ & ->)%Hel. by apply Hclosed.
  - unfold progress. rewrite Hnl, Hmap, Ek, length_app. lia.
Qed.

(** The state between two rounds. *)
Record state_ok (s : state) : Prop := mkStateOk {
  sk_search : search_ok 0 (st_walk s) (st_pipe s) (st_out s);
  sk_fu : fu_exact (pool (st_walk s));
  sk_beam : (1 ≤ cur_beam_width (st_beam s) ≤ Z.of_nat (beam_width q))%Z;
  sk_fly : (Z.of_nat (length (on_flight_ios (st_pipe s))) ≤ cur_beam_width (st_beam s))%Z;
  sk_pos : on_flight_ios (st_pipe s) ≠ [] → 0 < cur_list_size_ (pool (st_walk s))
}.

Lemma adapt_beam_correct n_in n_out b :
  (1 ≤ cur_beam_width b ≤ Z.of_nat (beam_width q))%Z →
  (cur_beam_width b ≤ cur_beam_width (adapt_beam q n_in n_out b) ≤ Z.of_nat (beam_width q))%Z.
Proof.
  intros H. unfold adapt_beam. destruct (_ && _); [|lia]. cbn [cur_beam_width].
  destruct (dle _ _); lia.
Qed.

Lemma poll_search_ok k w s o :
  search_ok 0 w s o → 0 < cur_list_size_ (pool w) → length (on_flight_ios s) ≤ beam_width q →
  ∃ n_in n_out s', poll_all q k (pool w) s = Ok (n_in, n_out, s') ∧ search_ok 0 w s' o
  ∧ length (on_flight_ios s') = length (on_flight_ios s) - k
  ∧ progress s' = progress s + Nat.min k (length (on_flight_ios s)).
Proof.
  intros [Hw Hr Hcand Hiss Huniv Hclosed] Hcur Hfl.
  destruct (poll_all_correct k (pool w) 0 _ s o (wk_wf _ Hw) Hcur Hr Hfl)
    as (n_in & n_out & s' & -> & Hr' & Hi & Hlen & Hpr).
  exists n_in, n_out, s'. split_and!; try done. split; rewrite ?Hi; done.
Qed.

Lemma search_ok_weaken c c' w s o : c ≤ c' → search_ok c w s o → search_ok c' w s o.
Proof.
  intros Hc [? [? ? Hage ?] ? ? ? ?]. split; try done. split; try done.
  intros a k Ha Hva Hm Hk. specialize (Hage a k Ha Hva Hm Hk). lia.
Qed.

Lemma fu_exact_unflagged p p' :
  unflagged (live p') = unflagged (live p) → first_unvisited_ p' = first_unvisited_ p → fu_exact p → fu_exact p'.
Proof.
  intros Hun Hfu H a. rewrite Hfu. intros Ha.
  destruct (unflagged_elem _ _ _ _ Hun Ha) as (y & Hy & _ & _ & ->). by apply H.
Qed.

(** With nothing in flight and nothing left to read, the candidate at the calc
    marker waits. *)
Lemma must_wait c w s o :
  search_ok c w s o → fu_exact (pool w) → first_unvisited_ (pool w) < cur_list_size_ (pool w) →
  on_flight_ios s = [] → Forall (λ a, flag a = false) (live (pool w)) → waiting w s.
Proof.
  intros Hso Hfu Hlt Hfl Hno. pose proof (wk_wf _ (so_walk _ _ _ _ Hso)) as Hwf.
  destruct (retset_lookup _ Hwf _ Hlt) as (a & _ & Ha & _).
  pose proof (list_elem_of_lookup_2 _ _ _ Ha) as Hin. exists a. split; [done|].
  specialize (Hfu a Ha). split; [done|]. rewrite Forall_forall in Hno.
  destruct (so_reads _ _ _ _ Hso) as [Hp Hl _ _].
  destruct (lk_wait _ _ Hl a Hin (Hno a Hin) Hfu) as [H|H]; [|done].
  rewrite <- (pi_fifo _ Hp), Hfl in H. by apply not_elem_of_nil in H.
Qed.

Lemma round_correct k s :
  state_ok s → first_unvisited_ (pool (st_walk s)) < cur_list_size_ (pool (st_walk s)) →
  match round q ix k s with
  | Ok s' => state_ok s' ∧ progress (st_pipe s) ≤ progress (st_pipe s')
             ∧ (0 < k → progress (st_pipe s) < progress (st_pipe s'))
  | Fault e => fault_ok (st_out s) e
  end.
Proof.
  intros [Hso Hfu Hbeam Hfly _] Hlt. unfold round.
  destruct (poll_search_ok k _ _ _ Hso) as (n_in & n_out & s1 & -> & Hso1 & Hfl1 & Hpr1); [lia..|].
  cbn [mbind res_bind]. cbv zeta. pose proof (adapt_beam_correct n_in n_out _ Hbeam) as Hb.
  set (b := adapt_beam q n_in n_out (st_beam s)) in *. clearbody b.
  set (n := if Z.ltb (Z.of_nat (length (on_flight_ios s1))) (cur_beam_width b) then 1 else 0).
  assert ((if Z.ltb (Z.of_nat (length (on_flight_ios s1))) (cur_beam_width b)
           then send_best_read_req ix 1 (pool (st_walk s)) s1 else Ok (pool (st_walk s), s1))
          = send_best_read_req ix n (pool (st_walk s)) s1) as -> by (unfold n; by destruct (Z.ltb _ _)).
  destruct (send_correct n _ _ _ Hso1) as (m & p & s2 & -> & Hm & Hso2 & Hun & Hcur & Hfu2 & Hfl2 & Hpr2 & Hno).
  cbn [mbind res_bind]. specialize (Hso2 (member_frac_ema (st_walk s))).
  set (w2 := mkWalk p _ _ _) in *.
  assert (Hso2' : search_ok 1 w2 s2 (st_out s)).
  { apply search_ok_weaken with m; [|done]. unfold n in Hm. destruct (Z.ltb _ _); lia. }
  assert (Hfl : (Z.of_nat (length (on_flight_ios s2)) ≤ cur_beam_width b)%Z).
  { rewrite Hfl2. unfold n in Hm. destruct (Z.ltb_spec (Z.of_nat (length (on_flight_ios s1))) (cur_beam_width b)); lia. }
  pose proof (calc_best_node_correct w2 s2 (st_out s) Hso2') as Hcalc.
  destruct (calc_best_node q ix w2 s2 (st_out s)) as [[mk [[w3 s3] o3]]|e]; cbn [mbind res_bind]; [|done].
  destruct Hcalc as ((Hso3 & Hi3 & Hfl3 & Hpr3 & Hwait & Hpos3) & Hfu3).
  split; [split; simpl; try done|simpl; split].
  - lia.
  - by rewrite Hfl3.
  - intros _. apply Hpos3. simpl. lia.
  - lia.
  - intros Hk. destruct (decide (length (on_flight_ios (st_pipe s)) = 0)) as [E|]; [|lia].
    assert (n = 1) as En by (unfold n; rewrite (proj2 (Z.ltb_lt _ _)); [done|lia]).
    destruct (decide (m = 1)) as [|Hm1]; [lia|]. assert (m = 0) as Em by lia.
    assert (waiting w2 s2); [|specialize (Hwait ltac:(done)); lia].
    apply (must_wait m w2 s2 (st_out s)); simpl; try done.
    + by apply (fu_exact_unflagged (pool (st_walk s))).
    + lia.
    + apply nil_length_inv. lia.
    + apply Hno. lia.
Qed.

(** ** The start *)

Lemma seed_pool_correct l p vs :
  cur_list_size_ p + length l ≤ l_pool_ p → l_pool_ p + 1 ≤ length (retset_ p) → VisitedSet.inv vs →
  ∃ p' vs', seed_pool l p vs = Ok (p', vs') ∧ live p' = live p ++ (nb <$> l)
  ∧ cur_list_size_ p' = cur_list_size_ p + length l ∧ length (retset_ p') = length (retset_ p)
  ∧ l_pool_ p' = l_pool_ p ∧ first_unvisited_ p' = first_unvisited_ p ∧ send_marker_ p' = send_marker_ p
  ∧ VisitedSet.inv vs' ∧ keys vs' = list_to_set (fst <$> l) ∪ keys vs.
Proof.
  revert p vs. induction l as [|x l IH]; intros p vs Hc Hcap Hvs; cbn [seed_pool].
  { exists p, vs. split; [done|]. rewrite app_nil_r. simpl. split_and!; done || lia || set_solver. }
  destruct (VisitedSet.visited_insert_correct vs x.1 Hvs) as (vs1 & -> & Hvs1 & Hk1). cbn [lift mbind res_bind].
  unfold seed. rewrite vset_Some by (simpl in *; lia). cbn [mbind option_bind lift res_bind].
  set (p1 := mkPool _ _ _ _ _).
  assert (Hl1 : live p1 = live p ++ [nb x]).
  { unfold live. simpl. rewrite (take_S_r _ _ (nb x)) by (apply list_lookup_insert_eq; simpl in *; lia).
    by rewrite take_insert_ge. }
  destruct (IH p1 vs1) as (p' & vs' & -> & Hl & Hc' & Hlen & ? & ? & ? & ? & Hk'); simpl in *; [lia| |done|].
  { by rewrite length_insert. }
  exists p', vs'. split; [done|]. rewrite length_insert in Hlen.
  rewrite Hl, Hl1, <- app_assoc. split_and!; try done; [lia|]. rewrite Hk', Hk1. set_solver.
Qed.

Definition no_reads : pipe := mkPipe (replicate MAX_N_SECTOR_READS None) 0 [] ∅ [] [] [].
Definition no_out : out := mkOut [] [] ∅ ∅.

(** A candidate that was just created. *)
Definition new_cand (a : Neighbor) : Prop := flag a = true ∧ visited a = false ∧ is_member a = false.

Lemma no_reads_ok l : (∀ a, a ∈ l → new_cand a) → reads_ok 0 l no_reads no_out.
Proof.
  intros Hl. assert (Hnil : ∀ (i : Z), i ∉ []) by (intros i; apply not_elem_of_nil).
  split; [split; simpl; try done|split; simpl|intros a k _ _ Hm _; by apply is_Some_None in Hm|split; simpl].
  - apply NoDup_nil_2.
  - intros a (Hf & _)%Hl. split; [|done]. intros _. apply Hnil.
  - intros a (Hf & _)%Hl. congruence.
  - intros a (_ & Hv & _)%Hl. congruence.
  - intros a (_ & _ & Hm)%Hl. done.
  - intros r Hr. by apply not_elem_of_nil in Hr.
  - apply NoDup_nil_2.
  - intros i Hi. by apply Hnil in Hi.
  - intros a (_ & Hv & _)%Hl. congruence.
  - done.
Qed.

(** Before the first poll no page has landed. *)
Lemma unlanded_age l s c : id_buf_map s = ∅ → age_ok c l s.
Proof. intros E a k _ _ Hm. rewrite E in Hm. by apply is_Some_None in Hm. Qed.

Context (Hl : 1 ≤ l_pool q) (Hbeam : 1 ≤ beam_width q ≤ MAX_N_SECTOR_READS).
Context (Hstarts : NoDup starts) (HstU : ∀ i, i ∈ starts → i ∈ U).

Lemma initial_pool_correct vs :
  VisitedSet.inv vs → keys vs = ∅ →
  ∃ p vs', initial_pool q ix vs = Ok (p, vs') ∧ bounds p ∧ id <$> live p = starts
  ∧ (∀ a, a ∈ live p → new_cand a) ∧ VisitedSet.inv vs' ∧ keys vs' = list_to_set starts
  ∧ l_pool_ p = l_pool q ∧ first_unvisited_ p = 0
  ∧ (mem_L q = 0 → wf p ∧ settled p ∧ well_scored (live p)).
Proof.
  intros Hvs Hk. unfold initial_pool, starts.
  set (p0 := reset (l_pool q) (mem_L q + R q + l_pool q * kExpandedNodesFactor)).
  assert (Hwf0 : wf p0) by (by apply wf_reset).
  destruct (Nat.eqb_spec (mem_L q) 0) as [Em|Em].
  - destruct (VisitedSet.visited_insert_correct vs (entry_point_id ix) Hvs) as (vs' & -> & Hvs' & Hk').
    cbn [lift mbind res_bind]. change (new_neighbor _ _) with (nb (scored (entry_point_id ix))).
    destruct (insert_correct p0 (nb (scored (entry_point_id ix))) Hwf0) as (p & -> & Hins); [apply Hnan|apply not_elem_of_nil|].
    cbn [lift mbind res_bind]. pose proof Hins as [Hwf Hl' Hlive Hfu _].
    assert (Hlv : live p = [nb (scored (entry_point_id ix))]).
    { rewrite Hlive. unfold top. change (live p0) with ([] : list Neighbor). rewrite sorted_insert_nil.
      rewrite take_ge; [done|]. simpl. lia. }
    assert (Hset : settled p) by (by apply (inserted_settled p0 p (nb (scored (entry_point_id ix))))).
    exists p, vs'. split; [done|]. rewrite Hlv. split_and!; try done.
    + by apply wf_bounds.
    + intros a ->%list_elem_of_singleton. done.
    + rewrite Hk', Hk. set_solver.
    + intros _. split_and!; try done. by intros a ->%list_elem_of_singleton.
  - destruct (seed_pool_correct (seeds q ix) p0 vs) as (p & vs' & -> & Hlv & Hc & Hlen & Hlp & Hfu & Hsend & Hvs' & Hk');
      [..|done|].
    + unfold seeds. rewrite length_take. simpl. lia.
    + apply Hwf0.
    + change (live p0) with ([] : list Neighbor) in Hlv. simpl in Hlv.
      exists p, vs'. split; [done|]. split_and!; try done.
      * simpl in *. split; rewrite ?Hlen, ?Hlp, ?Hfu, ?Hsend; try lia; [|apply Hwf0|constructor].
        rewrite Hc. unfold seeds. rewrite length_take. lia.
      * rewrite Hlv, <- list_fmap_compose. done.
      * rewrite Hlv. intros a (x & -> & _)%list_elem_of_fmap. done.
      * rewrite Hk', Hk. set_solver.
Qed.

Lemma rescore_size p ds p' :
  rescore_seeds p ds = Some p' → l_pool_ p' = l_pool_ p ∧ cur_list_size_ p' = cur_list_size_ p.
Proof.
  unfold rescore_seeds. destruct (overwrite_distances _ _ _ _); [|done]. cbn [mbind option_bind].
  intros H. by simplify_eq.
Qed.

(** The pool of the main loop: the starts with their scores, whose reads may
    have been issued. *)
Record start_pool (p p2 : CandidatePool) : Prop := mkStartPool {
  sp_wf : wf p2;
  sp_settled : settled p2;
  sp_l : l_pool_ p2 = l_pool q;
  sp_cur : cur_list_size_ p2 = cur_list_size_ p;
  sp_scored : well_scored (live p2);
  sp_ids : id <$> live p2 ≡ₚ starts;
  sp_bits : ∀ x, x ∈ live p2 → ∃ y, y ∈ live p ∧ id x = id y ∧ flag x = flag y ∧ visited x = visited y
    ∧ is_member x = is_member y
}.

Lemma rescored_start p :
  bounds p → l_pool_ p = l_pool q → id <$> live p = starts → mem_L q ≠ 0 →
  ∃ p2, rescore_seeds p (map (λ x, compute_dist ix x.1) (seeds q ix)) = Some p2 ∧ start_pool p p2.
Proof.
  intros Hb Hlp Hids Hm. set (ds := map _ _). pose proof Hb as [? ? ? ? ? ?].
  assert (Est : starts = fst <$> seeds q ix).
  { unfold starts. destruct (Nat.eqb_spec (mem_L q) 0); done. }
  assert (Hlen : length ds = cur_list_size_ p).
  { rewrite <- (bounds_live p Hb), <- (length_fmap id), Hids, Est, length_fmap. unfold ds. by rewrite length_map. }
  destruct (rescore_seeds_correct p ds) as (p2 & Hp2 & Hwf & Hset & _ & Hperm); try done; [lia| |by rewrite Hids|].
  { apply Forall_forall. intros d. unfold ds. rewrite list_elem_of_In, in_map_iff. by intros (x & <- & _). }
  destruct (rescore_size _ _ _ Hp2) as [El Ec]. exists p2. split; [done|].
  assert (Hel : ∀ x, x ∈ live p2 → ∃ y, y ∈ live p ∧ x = set_distance (compute_dist ix (id y)) y).
  { intros x. rewrite Hperm. intros (j & Hj)%list_elem_of_lookup. unfold rescored in Hj.
    apply lookup_zip_with_Some in Hj as (d & y & -> & [Hd _]%lookup_take_Some & Hy).
    exists y. split; [by eapply list_elem_of_lookup_2|].
    unfold ds in Hd. change (map ?f ?l) with (f <$> l) in Hd. rewrite list_lookup_fmap in Hd.
    apply fmap_Some in Hd as (z & Hz & ->).
    assert (starts !! j = Some (id y)) as Hsj by (by rewrite <- Hids, list_lookup_fmap, Hy).
    rewrite Est, list_lookup_fmap, Hz in Hsj. simpl in Hsj. by injection Hsj as ->. }
  split; try done; [congruence| | |].
  - intros x (y & _ & ->)%Hel. done.
  - rewrite Hperm, <- Hids. unfold rescored. rewrite rescored_ids; [done|].
    rewrite length_take, (bounds_live p Hb). lia.
  - intros x (y & Hy & ->)%Hel. by exists y.
Qed.

Lemma unflagged_bits l l' x :
  unflagged l' = unflagged l → x ∈ l' → ∃ y, y ∈ l ∧ id x = id y ∧ distance x = distance y ∧ visited x = visited y.
Proof.
  intros E (j & Hj)%list_elem_of_lookup. destruct (unflagged_elem _ _ _ _ E Hj) as (y & Hy & ?).
  exists y. split; [by eapply list_elem_of_lookup_2|done].
Qed.

Lemma start_reads_ok m l l2 s :
  reads_ok m l s no_out → id_buf_map s = ∅ → (∀ x, x ∈ l2 → visited x = false) →
  (∀ x, x ∈ l2 → ∃ y, y ∈ l ∧ id x = id y ∧ flag x = flag y ∧ visited x = visited y ∧ is_member x = is_member y) →
  reads_ok 0 l2 s no_out.
Proof.
  intros [Hp [Hf Hw Hd Hmb] _ [H1 H2 H3 H4 H5]] Hm Hv Hb.
  split; [done| |by apply unlanded_age|].
  - split; intros x Hx; destruct (Hb x Hx) as (y & Hy & E1 & E2 & E3 & E4); rewrite ?E1, ?E2, ?E3, ?E4; auto.
  - split; try done. intros x Hx Hvx. by rewrite Hv in Hvx.
Qed.

Lemma started_walk_ok p p2 vs e :
  start_pool p p2 → VisitedSet.inv vs → (∀ i, i ∈ keys vs ↔ i ∈ starts) →
  walk_ok (mkWalk p2 (reset (kCandCap q) (kCandCap q + 1)) vs e).
Proof.
  intros [Hwf Hset Hlp _ Hsc Hids _] Hvs Hk.
  assert (Hc : live (reset (kCandCap q) (kCandCap q + 1)) = []) by done.
  assert (Hnil : ∀ a : Neighbor, a ∉ []) by (intros a; apply not_elem_of_nil).
  split; simpl; rewrite ?Hc; try done.
  - apply wf_reset. unfold kCandCap. lia.
  - by rewrite Hids.
  - apply NoDup_nil_2.
  - intros a c _ H. by apply Hnil in H.
  - intros a. rewrite app_nil_r. intros Ha. apply Hk. rewrite <- Hids. by apply list_elem_of_fmap_2.
  - intros c H. by apply Hnil in H.
  - intros i Hi. by apply Hk.
  - intros i Hi _. left. rewrite Hids. by apply Hk.
Qed.

Lemma start_correct vs : VisitedSet.inv vs → ∃ s, start q ix vs = Ok s ∧ state_ok s.
Proof.
  intros Hvs. unfold start.
  destruct (Nat.ltb_spec MAX_N_SECTOR_READS (beam_width q)); [lia|]. cbv zeta.
  assert (Hb4 : 1 ≤ Nat.min 4 (beam_width q) ≤ beam_width q) by lia.
  set (b4 := Nat.min 4 (beam_width q)) in *. clearbody b4.
  destruct (VisitedSet.clear_correct vs Hvs) as (Hcl & Hk & _).
  destruct (initial_pool_correct _ Hcl Hk) as (p & vs' & -> & Hb & Hids & Hnew & Hvs' & Hk' & Hlp & Hfu & Hw0).
  cbn [mbind res_bind]. fold no_reads.
  destruct (send_best_correct b4 p 0 no_reads no_out Hb) as
    (m & p1 & s1 & -> & Hb1 & Hm & Hr1 & Hun & Hc1 & Hl1 & Hfu1 & (k & Ek & Hkl & Hki) & Hmap & Hnl & Hfl & _);
    [by rewrite Hids|by apply no_reads_ok|]. cbn [mbind res_bind].
  assert (Hids1 : id <$> live p1 = starts) by (by rewrite (unflagged_ids _ _ Hun)).
  assert (∃ p2, (if Nat.eqb (mem_L q) 0 then Ok p1
                 else lift (rescore_seeds p1 (map (λ x, compute_dist ix x.1) (seeds q ix)))) = Ok p2
          ∧ start_pool p1 p2) as (p2 & -> & Hsp).
  { destruct (Nat.eqb_spec (mem_L q) 0) as [E|E].
    - exists p1. split; [done|]. destruct (Hw0 E) as (Hwf & Hset & Hsc).
      destruct (wf_unflagged _ _ Hwf Hset Hb1 Hun Hfu1). split; try done; [congruence| |by rewrite Hids1|].
      + intros x (y & Hy & -> & -> & _)%(unflagged_bits _ _ _ Hun). by apply Hsc.
      + intros x Hx. by exists x.
    - destruct (rescored_start p1) as (p2 & -> & ?); try done; [congruence|]. by exists p2. }
  cbn [mbind res_bind]. eexists. split; [done|]. pose proof Hsp as [Hwf2 Hset2 Hl2 Hc2 Hsc2 Hids2 Hbits].
  assert (Hunv : ∀ x, x ∈ live p2 → visited x = false).
  { intros x (y & Hy & _ & _ & -> & _)%Hbits.
    destruct (unflagged_bits _ _ _ Hun Hy) as (z & Hz & _ & _ & ->). by apply Hnew. }
  assert (Hkeys : ∀ i, i ∈ keys vs' ↔ i ∈ starts) by (intros i; by rewrite Hk', elem_of_list_to_set).
  assert (Hiss : ∀ i, i ∈ issued s1 → i ∈ starts) by (rewrite Ek, <- Hids; exact Hki).
  split; simpl; [split; simpl| | | |].
  - by apply (started_walk_ok p1).
  - by apply (start_reads_ok m (live p1)).
  - intros x Hx. by apply not_elem_of_nil in Hx.
  - intros i Hi. apply Hkeys. by apply Hiss.
  - intros i Hi. by apply HstU, Hkeys.
  - intros a i Ha Hva. by rewrite Hunv in Hva.
  - intros a Ha. apply Hunv. by eapply list_elem_of_lookup_2.
  - lia.
  - simpl in Hfl. lia.
  - intros Hne. rewrite Hc2, <- bounds_live, <- (length_fmap id), Hids1 by done.
    destruct k as [|i k]; [simpl in *; destruct (on_flight_ios s1); [done|simpl in *; lia]|].
    assert (Hi : i ∈ starts) by (rewrite <- Hids; apply Hki; left). destruct starts; [|simpl; lia].
    by apply not_elem_of_nil in Hi.
Qed.

(** ** Termination *)

(** The polls that find a read finished. *)
Definition productive (sched : list nat) : nat := length (List.filter (Nat.ltb 0) sched).

Lemma issued_size c w s o : search_ok c w s o → length (issued s) ≤ base.size U.
Proof.
  intros Hso. rewrite <- (size_list_to_set (C := gset Z)) by apply Hso. apply subseteq_size.
  intros i Hi%elem_of_list_to_set. by apply (so_univ _ _ _ _ Hso), (so_issued _ _ _ _ Hso).
Qed.

Lemma progress_bound c w s o : search_ok c w s o → progress s ≤ 3 * base.size U.
Proof. intros Hso. pose proof (issued_size _ _ _ _ Hso). unfold progress, n_landed. lia. Qed.

Lemma results_univ c w s o r : search_ok c w s o → r ∈ full_retset o → id r ∈ U.
Proof.
  intros Hso Hr. destruct (so_reads _ _ _ _ Hso) as [_ _ _ Ho].
  apply (so_univ _ _ _ _ Hso), (so_issued _ _ _ _ Hso). rewrite issued_split, elem_of_app. left.
  apply (oi_ids _ _ _ Ho), list_elem_of_fmap. by exists r.
Qed.

Lemma results_size c w s o : search_ok c w s o → length (full_retset o) ≤ base.size U.
Proof.
  intros Hso. rewrite <- (length_fmap id). destruct (so_reads _ _ _ _ Hso) as [_ _ _ Ho].
  rewrite <- (size_list_to_set (C := gset Z)) by apply Ho. apply subseteq_size.
  intros i (r & -> & Hr)%elem_of_list_to_set%list_elem_of_fmap. by eapply results_univ.
Qed.

(** The faults a search can end with. *)
Definition fault_bound (e : fault) : Prop :=
  match e with
  | StaleBuffer => MAX_N_SECTOR_READS < beam_width q + l_pool q
  | CoordBufFull => insert_ctx q = true ∧ kExpandedNodesFactor * l_pool q ≤ base.size U
  | _ => False
  end.

Lemma fault_ok_bound s e : state_ok s → fault_ok (st_out s) e → fault_bound e.
Proof.
  intros Hs [|Hc Hle]; [done|]. split; [done|]. pose proof (results_size _ _ _ _ (sk_search _ Hs)). lia.
Qed.

Lemma terminate_false p : terminate q p = false → first_unvisited_ p < cur_list_size_ p.
Proof. unfold terminate, size. destruct (Nat.leb_spec (cur_list_size_ p) (first_unvisited_ p)); [done|lia]. Qed.

Lemma productive_cons k sched : productive (k :: sched) = (if Nat.ltb 0 k then 1 else 0) + productive sched.
Proof. unfold productive. simpl. by destruct k. Qed.

Lemma main_loop_correct sched s :
  state_ok s →
  match main_loop q ix sched s with
  | Ok (Some (s', rest)) => state_ok s' ∧ terminate q (pool (st_walk s')) = true
      ∧ progress (st_pipe s) + productive sched ≤ progress (st_pipe s') + productive rest
  | Ok None => progress (st_pipe s) + productive sched ≤ 3 * base.size U
  | Fault e => fault_bound e
  end.
Proof.
  revert s. induction sched as [|k sched IH]; intros s Hs; cbn [main_loop];
    destruct (terminate q (pool (st_walk s))) eqn:Et; try done.
  - pose proof (progress_bound _ _ _ _ (sk_search _ Hs)). unfold productive. simpl. lia.
  - pose proof (round_correct k s Hs (terminate_false _ Et)) as Hr.
    destruct (round q ix k s) as [s'|e]; cbn [mbind res_bind]; [|by eapply fault_ok_bound].
    destruct Hr as (Hs' & Hle & Hlt). specialize (IH s' Hs'). rewrite productive_cons.
    destruct (main_loop q ix sched s') as [[[s'' rest]|]|e]; [|..|done];
      [destruct IH as (? & ? & ?); split_and!; try done|]; destruct k; simpl; lia.
Qed.

Lemma drain_correct sched s :
  state_ok s →
  match drain q sched s with
  | Ok (Some s') => state_ok s' ∧ on_flight_ios (st_pipe s') = [] ∧ st_walk s' = st_walk s ∧ st_out s' = st_out s
  | Ok None => progress (st_pipe s) + productive sched ≤ 3 * base.size U
  | Fault e => False
  end.
Proof.
  revert s. induction sched as [|k sched IH]; intros s Hs; cbn [drain];
    destruct (Nat.eqb_spec (length (on_flight_ios (st_pipe s))) 0) as [E|E];
    try (split_and!; try done; by apply nil_length_inv).
  - pose proof (progress_bound _ _ _ _ (sk_search _ Hs)). unfold productive. simpl. lia.
  - pose proof Hs as [Hso Hfu Hbm Hfly Hpos].
    assert (Hcur : 0 < cur_list_size_ (pool (st_walk s))) by (apply Hpos; intros E'; by rewrite E' in E).
    destruct (poll_search_ok k _ _ _ Hso) as (n_in & n_out & io & -> & Hso' & Hfl & Hpr);
      [done|lia|]. cbn [mbind res_bind].
    specialize (IH (mkState (st_walk s) io (st_out s) (st_beam s))).
    assert (Hs' : state_ok (mkState (st_walk s) io (st_out s) (st_beam s))).
    { split; simpl; try done. lia. }
    specialize (IH Hs'). rewrite productive_cons.
    destruct (drain q sched _) as [[s'|]|e]; [done| |done]. simpl in IH. destruct k; simpl; lia.
Qed.

(** What the final state of a search satisfies, before the results are sorted. *)
Record finished (s : state) : Prop := mkFinished {
  fi_ok : state_ok s;
  fi_stop : terminate q (pool (st_walk s)) = true;
  fi_drained : on_flight_ios (st_pipe s) = []
}.

Definition with_sorted (s : state) : state :=
  let o := st_out s in
  mkState (st_walk s) (st_pipe s)
    (mkOut (std_sort (full_retset o)) (coord_buf o) (coord_map o) (node_payloads o)) (st_beam s).

Lemma search_correct vs sched :
  VisitedSet.inv vs →
  match pipe_search_common q ix vs sched with
  | Ok (Some s') => ∃ s, finished s ∧ s' = with_sorted s
  | Ok None => productive sched ≤ 3 * base.size U
  | Fault e => fault_bound e
  end.
Proof.
  intros Hvs. unfold pipe_search_common. destruct (start_correct vs Hvs) as (s0 & -> & Hs0). cbn [mbind res_bind].
  pose proof (main_loop_correct sched s0 Hs0) as Hm.
  destruct (main_loop q ix sched s0) as [[[s1 rest]|]|e]; cbn [mbind res_bind]; [|lia|done].
  destruct Hm as (Hs1 & Ht & Hpr). pose proof (drain_correct rest s1 Hs1) as Hd.
  destruct (drain q rest s1) as [[s2|]|e]; cbn [mbind res_bind]; [|lia|done].
  destruct Hd as (Hs2 & Hfl & Ew & Eo). exists s2. split; [|done]. split; try done. by rewrite Ew.
Qed.

(** ** Results *)

Context (Hexact : ∀ v, not_nan (compare_sym ix v)).

(** The sorted results: distinct nodes with their exact distances, each of which
    passed the membership test. *)
Record results_ok (l : list Neighbor) : Prop := mkResultsOk {
  re_sorted : nsorted l;
  re_nodup : NoDup (id <$> l);
  re_exact : ∀ r, r ∈ l → distance r = compare_sym ix (coords (read_node ix (id r)))
    ∧ is_member_exact q (id r) (read_node ix (id r)) = true
}.

Lemma sorted_results s : finished s → results_ok (full_retset (st_out (with_sorted s))).
Proof.
  intros [Hs _ _]. destruct (so_reads _ _ _ _ (sk_search _ Hs)) as [_ _ _ [H1 H2 _ _ _]]. simpl.
  split; [|by rewrite std_sort_Permutation|].
  - apply std_sort_sorted; [|done]. apply Forall_forall. intros r Hr. destruct (H1 r Hr) as [-> _]. apply Hexact.
  - intros r. rewrite std_sort_Permutation. intros Hr. destruct (H1 r Hr) as [E Hm]. split; [by rewrite E|done].
Qed.

(** The settled prefix: what the scan of [terminate] counts. *)
Definition settled_members (l : list Neighbor) : nat := length (List.filter (λ a, visited a && is_member a) l).

Lemma settled_scan l cnt cr :
  let r := scan_loop (settled_step q) l (cnt, cr) in
  r.1 ≤ cnt + settled_members l
  ∧ (r.2 = true → cr = true ∨ ∃ a, a ∈ l ∧ visited a = true ∧ fgt (distance a) (approx_range_partial q) = true).
Proof.
  revert cnt. induction l as [|a l IH]; intros cnt; simpl; [split; [lia|by left]|].
  unfold settled_step at 1 3, settled_members. cbn [List.filter fst snd].
  destruct (visited a) eqn:Ev; simpl; [|split; [lia|by left]].
  destruct (fgt (distance a) (approx_range_partial q)) eqn:Er.
  { simpl. split; [destruct (is_member a); simpl; lia|]. intros _. right. exists a. split; [left|done]. }
  destruct (Nat.leb _ _).
  { simpl. split; [destruct (is_member a); simpl; lia|by left]. }
  destruct (IH (cnt + (if is_member a then 1 else 0))) as [H1 H2]. split.
  - unfold settled_members in H1. destruct (is_member a); simpl in *; lia.
  - intros [?|(x & Hx & ?)]%H2; [by left|]. right. exists x. split; [by right|done].
Qed.

(** Why a search stops: the pool is expanded, enough members are among the
    results, or the range is left behind. *)
Lemma stop_reason s :
  finished s →
  Forall (λ a, visited a = true) (live (pool (st_walk s)))
  ∨ l_search q ≤ length (full_retset (st_out s))
  ∨ ∃ a, a ∈ live (pool (st_walk s)) ∧ visited a = true ∧ fgt (distance a) (approx_range_partial q) = true.
Proof.
  intros [Hs Ht _]. destruct (sk_search _ Hs) as [Hw [_ _ _ Ho] _ _ _ _].
  pose proof (wk_wf _ Hw) as Hwf. destruct (wk_settled _ Hw) as [Hv _].
  set (p := pool (st_walk s)) in *.
  assert (Hcount : settled_members (live p) ≤ length (full_retset (st_out s))).
  { unfold settled_members. rewrite <- (length_fmap id), <- (length_fmap id (full_retset _)).
    apply submseteq_length, NoDup_submseteq.
    - apply NoDup_Lfilter_ids, Hw.
    - intros i (a & -> & [Ha [Hva Hma]%andb_true_iff]%elem_of_Lfilter)%list_elem_of_fmap.
      by apply (oi_all _ _ _ Ho a). }
  unfold terminate, size in Ht. destruct (Nat.leb_spec (cur_list_size_ p) (first_unvisited_ p)) as [Hall|Hlt].
  { left. by rewrite take_ge in Hv by (rewrite live_length; [lia|done]). }
  destruct (bool_decide _ && _) eqn:E.
  - right; left. apply Nat.leb_le in Ht. apply andb_true_iff in E as [E%bool_decide_eq_true _].
    etransitivity; [exact Ht|]. etransitivity; [|exact Hcount]. apply Lfilter_prefix; [rewrite live_length; [lia|done]|].
    apply Forall_lookup. intros i a Ha. rewrite Forall_lookup in Hv. specialize (Hv i a Ha). rewrite Hv. simpl.
    apply lookup_take_Some in Ha as [Ha _].
    destruct (oi_all _ _ _ Ho a (list_elem_of_lookup_2 _ _ _ Ha) Hv) as [-> _]. unfold is_member_exact. by rewrite E.
  - pose proof (settled_scan (live p) 0 false) as Hsc. unfold scan in Ht. fold (live p) in Ht.
    destruct (scan_loop (settled_step q) (live p) (0, false)) as [cnt cr]. simpl in Hsc. destruct Hsc as [H1 H2].
    apply orb_true_iff in Ht as [->|Ht]; [|apply Nat.leb_le in Ht; right; left; lia].
    right; right. by destruct H2.
Qed.

End invariant.

(** ** What a search is given *)

(** Distances are never NaN; [U] has the ids the search starts from, without
    repetition, and with every node the neighbours stored with it. *)
Record index_ok (q : query) (ix : index) (U : gset Z) : Prop := mkIndexOk {
  xo_approx : ∀ i, not_nan (compute_dist ix i);
  xo_exact : ∀ v, not_nan (compare_sym ix v);
  xo_closed : ∀ i j, i ∈ U → j ∈ nbrs (read_node ix i) ++ dense_nbrs (read_node ix i) → j ∈ U;
  xo_starts : ∀ i, i ∈ starts q ix → i ∈ U;
  xo_nodup : NoDup (starts q ix)
}.

Record query_ok (q : query) : Prop := mkQueryOk {
  qo_pool : 1 ≤ l_pool q;
  qo_beam : 1 ≤ beam_width q ≤ MAX_N_SECTOR_READS
}.

Section searches.
Context (q : query) (ix : index) (U : gset Z) (vs : VisitedSet.FlatVisitedSet) (sched : list nat).
Context (Hix : index_ok q ix U) (Hq : query_ok q) (Hvs : VisitedSet.inv vs).

(** The lemmas of the invariant at this search. *)
Lemma search_run :
  match pipe_search_common q ix vs sched with
  | Ok (Some s') => ∃ s, finished q ix U s ∧ s' = with_sorted s
  | Ok None => productive sched ≤ 3 * base.size U
  | Fault e => fault_bound q U e
  end.
Proof.
  destruct Hix, Hq. by apply search_correct.
Qed.

Lemma search_returns :
  3 * base.size U < productive sched → beam_width q + l_pool q ≤ MAX_N_SECTOR_READS →
  (insert_ctx q = true → base.size U < kExpandedNodesFactor * l_pool q) →
  ∃ s, pipe_search_common q ix vs sched = Ok (Some (with_sorted s)) ∧ finished q ix U s.
Proof.
  intros Hsched Hring Hcoord. pose proof search_run as H.
  destruct (pipe_search_common q ix vs sched) as [[s'|]|e].
  - destruct H as (s & Hs & ->). by exists s.
  - lia.
  - destruct e; cbn [fault_bound] in H; try done; [|lia]. destruct H as [Hc H]. specialize (Hcoord Hc). lia.
Qed.

Lemma finished_results s : finished q ix U s → results_ok q ix (full_retset (st_out (with_sorted s))).
Proof. destruct Hix. by apply sorted_results. Qed.
End searches.

(** ** Copying the results *)

Definition tagged (ix : index) (a : Neighbor) : Z * float := (id2tag ix (id a), distance a).

Lemma beyond_mono m a b :
  not_nan m → ok a → ok b → nb_lt a b → fgt (distance a) m = true → fgt (distance b) m = true.
Proof.
  intros Hm Ha Hb Hlt H. unfold fgt in *. change (flt m (distance b) = true). change (flt m (distance a) = true) in H.
  apply flt_key in H; [|done..]. apply flt_key; [done..|].
  destruct Hlt as [Hk|[Hk _]]; [by eapply key_lt_trans|by rewrite <- Hk].
Qed.

Lemma Lfilter_none (f : Neighbor → bool) l : Forall (λ a, f a = false) l → List.filter f l = [].
Proof. induction 1 as [|a l Ha _ IH]; simpl; [done|]. by rewrite Ha. Qed.

Lemma copy_loop_correct ix m prev l k :
  nsorted l → NoDup (id <$> l) → Forall ok l → not_nan m → (∀ i, prev = Some i → i ∉ id <$> l) →
  copy_loop ix m prev l k = take k (map (tagged ix) (List.filter (λ a, negb (fgt (distance a) m)) l)).
Proof.
  intros Hs Hnd Hok Hm. revert prev k. induction l as [|a l IH]; intros prev [|k] Hp; simpl; try done.
  apply StronglySorted_inv in Hs as [Hs Hall]. rewrite fmap_cons in Hnd. apply NoDup_cons in Hnd as [Ha Hnd].
  apply Forall_cons in Hok as [Hoka Hok].
  destruct (fgt (distance a) m) eqn:E; simpl.
  - rewrite Lfilter_none; [done|]. rewrite Forall_forall in Hall, Hok. apply Forall_forall. intros b Hb.
    apply negb_false_iff, (beyond_mono m a b); auto.
  - rewrite bool_decide_eq_false_2 by (intros ->; apply (Hp (id a)); [done|left]).
    f_equal. apply IH; try done. by intros i [= <-].
Qed.

Lemma copy_top_k_all ix l k :
  nsorted l → NoDup (id <$> l) → Forall ok l → copy_top_k ix l k f_infinity = take k (map (tagged ix) l).
Proof.
  intros Hs Hnd Hok. unfold copy_top_k. rewrite copy_loop_correct by done. do 2 f_equal. clear.
  induction l as [|a l IH]; simpl; [done|]. rewrite IH. by destruct (distance a) as [| [] | |].
Qed.

Lemma results_ok_ok q ix l : (∀ v, not_nan (compare_sym ix v)) → results_ok q ix l → Forall ok l.
Proof.
  intros Hex [_ _ He]. apply Forall_forall. intros a Ha. unfold ok. destruct (He a Ha) as [-> _]. apply Hex.
Qed.

Lemma results_copied_all q ix l k :
  (∀ v, not_nan (compare_sym ix v)) → results_ok q ix l →
  copy_top_k ix l k f_infinity = take k (map (tagged ix) l).
Proof. intros Hex Hl. apply copy_top_k_all; [apply Hl|apply Hl|by eapply results_ok_ok]. Qed.

(** ** The plain search *)

Lemma all_expanded q ix U s :
  verify q = None → feq (approx_range_partial q) f_infinity = true → l_pool q ≤ l_search q → finished q ix U s →
  Forall (λ a, visited a = true) (live (pool (st_walk s))).
Proof.
  intros Hv Hr Hl [Hs Ht _]. pose proof (so_walk _ _ _ _ _ _ _ (sk_search _ _ _ _ Hs)) as Hw.
  pose proof (wk_wf _ _ _ Hw) as Hwf. destruct (wk_settled _ _ _ Hw) as [Hvis _].
  assert (cur_list_size_ (pool (st_walk s)) ≤ first_unvisited_ (pool (st_walk s))) as Hle.
  { unfold terminate, size in Ht. destruct (Nat.leb_spec (cur_list_size_ (pool (st_walk s))) (first_unvisited_ (pool (st_walk s)))); [done|].
    rewrite bool_decide_eq_true_2, Hr in Ht by done. apply Nat.leb_le in Ht.
    pose proof (wf_cur _ Hwf). rewrite (wk_l _ _ _ Hw) in *. lia. }
  by rewrite take_ge in Hvis by (rewrite live_length; done).
Qed.

(** C3: the search returns the fixed point of the greedy walk.  On an index whose
    distances are not NaN, with [beam_width + l_search <= 128] and enough polls
    that find a read finished (three times the number of nodes), [pipe_search]
    returns, for every schedule of the device, the [k] first of a list of distinct
    nodes sorted by exact distance.  Among them is a set [P] of at most [l_search]
    nodes, all of them expanded, such that the starting points and every neighbour
    of a node of [P] are in [P], or [P] has [l_search] nodes that are all closer
    in the approximate distance. *)
Theorem pipe_search_greedy ix U k mem_L l beam_width R node_out vs sched :
  let q := do_pipe_search mem_L l beam_width R false node_out in
  index_ok q ix U → 1 ≤ l → 1 ≤ beam_width → beam_width + l ≤ MAX_N_SECTOR_READS →
  VisitedSet.inv vs → 3 * base.size U < productive sched →
  ∃ P res, pipe_search ix k mem_L l beam_width R node_out vs sched = Ok (Some (take k (map (tagged ix) res)))
  ∧ results_ok q ix res
  ∧ NoDup P ∧ length P ≤ l ∧ (∀ i, i ∈ P → i ∈ id <$> res)
  ∧ (∀ i, i ∈ starts q ix → kept q ix P i)
  ∧ (∀ i j, i ∈ P → j ∈ nbrs (read_node ix i) → kept q ix P j).
Proof.
  intros q Hix Hl Hb Hring Hvs Hsched.
  assert (Hq : query_ok q) by (split; simpl; lia).
  destruct (search_returns q ix U vs sched Hix Hq Hvs Hsched) as (s & Hrun & Hfin); [simpl; lia|done|].
  pose proof (finished_results q ix U Hix s Hfin) as Hres.
  pose proof (all_expanded q ix U s eq_refl eq_refl (le_n _) Hfin) as Hall. rewrite Forall_forall in Hall.
  destruct (sk_search _ _ _ _ (fi_ok _ _ _ _ Hfin)) as [Hw [_ _ _ Ho] _ _ _ Hclosed].
  exists (id <$> live (pool (st_walk s))), (full_retset (st_out (with_sorted s))). split_and!.
  - unfold pipe_search. fold q. rewrite Hrun. cbn [results]. do 2 f_equal.
    apply (results_copied_all q); [apply Hix|done].
  - done.
  - apply Hw.
  - rewrite length_fmap, live_length by apply Hw. pose proof (wf_cur _ (wk_wf _ _ _ Hw)) as H.
    by rewrite (wk_l _ _ _ Hw) in H.
  - intros i (a & -> & Ha)%list_elem_of_fmap. simpl. rewrite std_sort_Permutation.
    destruct (oi_all _ _ _ _ _ Ho a Ha (Hall a Ha)) as [E Hin]. by apply Hin; rewrite E.
  - intros i Hi. apply (wk_kept _ _ _ Hw); [by apply (wk_starts _ _ _ Hw)|by right].
  - intros i j (a & -> & Ha)%list_elem_of_fmap Hj. apply (wk_kept _ _ _ Hw); [|by left].
    by apply (Hclosed a j Ha (Hall a Ha) Hj).
Qed.

Lemma starts_bound q ix : query_ok q → length (starts q ix) ≤ l_pool q.
Proof. intros [Hl _]. unfold starts, seeds. case_match; [done|]. rewrite length_fmap, length_take. lia. Qed.

(** C4: every way a search can end, for every filter and schedule, with a pool of
    at least one candidate and a beam of 1 to 128, on an index whose distances are
    not NaN, whose neighbour lists stay in a finite set [U] and whose starting
    points are distinct.  No access to the pool, the page ring, the visited set, the
    completion list or the bridges is out of range.  When the search returns, no
    read is in flight, no lock is held, each node was read at most once, the results
    are distinct nodes in the order of their exact distances that passed the
    membership test, and an insertion finds the vector of each of them through
    [coord_map].  It is still polling only after at most three productive polls per
    node of the index; it reuses the buffer of an unexpanded page only if
    [beam_width + l_pool > 128]; it aborts on a full vector buffer only for an
    insertion over an index of at least [10 * l_pool] nodes.  An expansion writes no
    more entries of the id and distance scratch arrays than the node has
    neighbours, and the seeding no more than [l_pool]: their 2048 entries suffice
    when neither is larger. *)
Theorem search_ends q ix U vs sched :
  index_ok q ix U → query_ok q → VisitedSet.inv vs →
  match pipe_search_common q ix vs sched with
  | Ok (Some s) =>
      on_flight_ios (st_pipe s) = [] ∧ locked (st_pipe s) = []
      ∧ NoDup (issued (st_pipe s)) ∧ length (issued (st_pipe s)) ≤ base.size U
      ∧ results_ok q ix (full_retset (st_out s))
      ∧ (insert_ctx q = true → ∀ r, r ∈ full_retset (st_out s) →
           ∃ j, coord_map (st_out s) !! id r = Some j ∧ coord_buf (st_out s) !! j = Some (coords (read_node ix (id r))))
  | Ok None => productive sched ≤ 3 * base.size U
  | Fault StaleBuffer => MAX_N_SECTOR_READS < beam_width q + l_pool q
  | Fault CoordBufFull => insert_ctx q = true ∧ kExpandedNodesFactor * l_pool q ≤ base.size U
  | Fault _ => False
  end
  ∧ (∀ n v, length (nbrs n) ≤ MAX_N_EDGES → scratch_entries q n v ≤ length (nbrs n) ≤ MAX_N_EDGES)
  ∧ length (starts q ix) ≤ l_pool q.
Proof.
  intros Hix Hq Hvs. split; [|split; [intros n v Hn; split; [apply scratch_entries_bound|done]|by apply starts_bound]].
  pose proof (search_run q ix U vs sched Hix Hq Hvs) as H.
  destruct (pipe_search_common q ix vs sched) as [[s'|]|[]]; try done.
  destruct H as (s & Hfin & ->). pose proof (finished_results q ix U Hix s Hfin) as Hres.
  destruct Hfin as [Hs _ Hfl]. pose proof (sk_search _ _ _ _ Hs) as Hso.
  destruct (so_reads _ _ _ _ _ _ _ Hso) as [Hp _ _ Ho]. simpl in *.
  split_and!; try done; [|apply Hp|by eapply issued_size|].
  - rewrite (pi_locked _ Hp), <- (pi_fifo _ Hp), Hfl. done.
  - intros Hc r. rewrite std_sort_Permutation. intros Hr. destruct (oi_coords _ _ _ _ _ Ho Hc) as [-> Hcm].
    apply list_elem_of_lookup in Hr as [j Hj]. exists j. rewrite Hcm, !list_lookup_fmap, Hj. done.
Qed.

(** ** A run that reads a reused buffer *)

Definition z_dist (z : Z) : float :=
  let d := SpecFloat.binary_normalize f32_prec f32_emax z 0 false in if is_nan d then f_zero else d.

Definition ids_from (a n : nat) : list Z := map Z.of_nat (seq a n).

(** Node 0 leads to 1, 2 and 200; node 1 leads to 133 nodes closer than 200. *)
Definition crowd : index :=
  mkIndex (λ i, mkDisk [i] (if Z.eqb i 0 then [1; 2; 200]%Z else if Z.eqb i 1 then ids_from 3 133 else []) [] [])
    z_dist (λ v, z_dist (hd 0%Z v)) (λ i, i) (λ i, i) 0 [].

Definition crowd_ids : gset Z := list_to_set (ids_from 0 201).

Definition empty_set : VisitedSet.FlatVisitedSet := default (VisitedSet.mkSet [] 0 0 false) (VisitedSet.make 8).

Lemma z_dist_not_nan z : not_nan (z_dist z).
Proof.
  unfold z_dist. set (d := SpecFloat.binary_normalize _ _ _ _ _). by destruct (is_nan d) eqn:E.
Qed.

Lemma empty_set_inv : VisitedSet.inv empty_set.
Proof. destruct (VisitedSet.make_correct 8) as (s & Hs & Hi & _); [lia|]. unfold empty_set. by rewrite Hs. Qed.

Lemma crowd_ok q : mem_L q = 0 → index_ok q crowd crowd_ids.
Proof.
  intros Hm. assert (Hst : starts q crowd = [0%Z]) by (unfold starts; by rewrite Hm).
  split; rewrite ?Hst; simpl.
  - apply z_dist_not_nan.
  - intros v. apply z_dist_not_nan.
  - intros i j _. rewrite app_nil_r. destruct (Z.eqb i 0); [|destruct (Z.eqb i 1)]; intros Hj.
    + unfold crowd_ids. apply elem_of_list_to_set.
      assert (Forall (λ j, j ∈ ids_from 0 201) [1; 2; 200]%Z) as H by (by apply (bool_decide_unpack _)).
      rewrite Forall_forall in H. by apply H.
    + unfold crowd_ids. apply elem_of_list_to_set.
      assert (Forall (λ j, j ∈ ids_from 0 201) (ids_from 3 133)) as H by (apply (bool_decide_unpack _); vm_compute; done).
      rewrite Forall_forall in H. by apply H.
    + by apply not_elem_of_nil in Hj.
  - intros i ->%list_elem_of_singleton. unfold crowd_ids. apply elem_of_list_to_set. left.
  - apply NoDup_singleton.
Qed.

(** beyond [beam_width + l_search = 128] an expansion can read another node's
    page.  On an index of 137 nodes that meets every requirement, with
    [l_search = 150] and [beam_width = 4], the search reads the reused buffer of a
    node when its first reads land late, while with reads that land at once the
    same query returns. *)
Theorem stale_page_read :
  index_ok (do_pipe_search 0 150 4 0 false false) crowd crowd_ids
  ∧ pipe_search crowd 3 0 150 4 0 false empty_set (1 :: replicate 4 0 ++ replicate 700 4) = Fault StaleBuffer
  ∧ pipe_search crowd 3 0 150 4 0 false empty_set (replicate 700 4)
    = Ok (Some [(0%Z, z_dist 0); (1%Z, z_dist 1); (2%Z, z_dist 2)]).
Proof. split; [by apply crowd_ok|]. split; vm_compute; reflexivity. Qed.

(** ** Witnesses *)

Lemma pipe_search_greedy_witness :
  ∃ P res, pipe_search crowd 3 0 100 8 0 false empty_set (replicate 700 4) = Ok (Some (take 3 (map (tagged crowd) res)))
  ∧ results_ok (do_pipe_search 0 100 8 0 false false) crowd res
  ∧ NoDup P ∧ length P ≤ 100 ∧ (∀ i, i ∈ P → i ∈ id <$> res)
  ∧ (∀ i, i ∈ starts (do_pipe_search 0 100 8 0 false false) crowd → kept (do_pipe_search 0 100 8 0 false false) crowd P i)
  ∧ (∀ i j, i ∈ P → j ∈ nbrs (read_node crowd i) → kept (do_pipe_search 0 100 8 0 false false) crowd P j).
Proof.
  apply (pipe_search_greedy crowd crowd_ids 3 0 100 8 0 false empty_set (replicate 700 4));
    [by apply crowd_ok|lia|lia|unfold MAX_N_SECTOR_READS; lia|apply empty_set_inv|].
  apply Nat.ltb_lt. vm_compute. reflexivity.
Defined.

(** The search of an insertion, with a beam that keeps 40 reads in flight. *)
Definition crowd_insert : query := do_pipe_search 0 60 40 0 true false.

Lemma search_ends_witness :
  match pipe_search_common crowd_insert crowd empty_set (replicate 700 7) with
  | Ok (Some s) =>
      on_flight_ios (st_pipe s) = [] ∧ locked (st_pipe s) = []
      ∧ NoDup (issued (st_pipe s)) ∧ length (issued (st_pipe s)) ≤ base.size crowd_ids
      ∧ results_ok crowd_insert crowd (full_retset (st_out s))
      ∧ (insert_ctx crowd_insert = true → ∀ r, r ∈ full_retset (st_out s) →
           ∃ j, coord_map (st_out s) !! id r = Some j
           ∧ coord_buf (st_out s) !! j = Some (coords (read_node crowd (id r))))
  | Ok None => productive (replicate 700 7) ≤ 3 * base.size crowd_ids
  | Fault StaleBuffer => MAX_N_SECTOR_READS < beam_width crowd_insert + l_pool crowd_insert
  | Fault CoordBufFull =>
      insert_ctx crowd_insert = true ∧ kExpandedNodesFactor * l_pool crowd_insert ≤ base.size crowd_ids
  | Fault _ => False
  end
  ∧ (∀ n v, length (nbrs n) ≤ MAX_N_EDGES → scratch_entries crowd_insert n v ≤ length (nbrs n) ≤ MAX_N_EDGES)
  ∧ length (starts crowd_insert crowd) ≤ l_pool crowd_insert.
Proof.
  apply (search_ends crowd_insert crowd crowd_ids empty_set (replicate 700 7));
    [by apply crowd_ok| |apply empty_set_inv].
  split; unfold crowd_insert, MAX_N_SECTOR_READS; simpl; lia.
Defined.

End PipeProof.
