(* ===== verification/GreedyPool.v ===== *)
(** * The pool of a synchronous search

    The beam and the page search ([src/search/beam_search.cpp], [src/search/page_search.cpp])
    take candidates from the pool with [next_unvisited] and put new neighbours in with
    [insert].  [pool_ok] is the invariant of that use; it relates the pool to the set of ids
    seen and to the ids taken so far. *)

From S2P Require Import Prelude Float32 Neighbor CandidatePool PoolBatch PoolSearch PipeSearch PipeProof.
Import Pool Pipe PipeProof.

Module Greedy.

Section greedy.
Context (q : query) (ix : index).

(** [S]: the ids seen; [E]: the ids taken, which are the visited ones of the pool. *)
Record pool_ok (p : CandidatePool) (S : gset Z) (E : list Z) : Prop := mkPoolOk {
  po_wf : wf p;
  po_settled : settled p;
  po_l : l_pool_ p = l_pool q;
  po_nodup : NoDup (id <$> live p);
  po_seen : ∀ a, a ∈ live p → id a ∈ S;
  po_scored : well_scored ix (live p);
  po_kept : ∀ i, i ∈ S → kept q ix (id <$> live p) i;
  po_taken : ∀ a, a ∈ live p → visited a = true ↔ id a ∈ E;
  po_order : NoDup E;
  po_sub : ∀ i, i ∈ E → i ∈ S
}.

Lemma pool_ok_start c : 1 ≤ l_pool q → pool_ok (reset (l_pool q) c) ∅ [].
Proof.
  intros Hl. assert (live (reset (l_pool q) c) = []) as Hlive by done. split; rewrite ?Hlive.
  - by apply wf_reset.
  - unfold settled. rewrite Hlive. by split; rewrite take_nil.
  - done.
  - constructor.
  - intros a Ha. by apply not_elem_of_nil in Ha.
  - intros a Ha. by apply not_elem_of_nil in Ha.
  - intros i Hi. set_solver.
  - intros a Ha. by apply not_elem_of_nil in Ha.
  - constructor.
  - intros i Hi. by apply not_elem_of_nil in Hi.
Qed.

Lemma pool_ok_perm p S E E' : E ≡ₚ E' → pool_ok p S E → pool_ok p S E'.
Proof.
  intros He [Hwf Hset Hl Hnd Hseen Hsc Hk Ht Ho Hsub]. split; try done.
  - intros a Ha. rewrite <- He. by apply Ht.
  - by rewrite <- He.
  - intros i. rewrite <- He. apply Hsub.
Qed.

Lemma alter_visited_elem k (l : list Neighbor) a : l !! k = Some a → ∀ x, x ∈ alter set_visited k l → x = set_visited a ∨ x ∈ l ∧ ∃ j, j ≠ k ∧ l !! j = Some x.
Proof.
  intros Hk x (j & Hj)%list_elem_of_lookup. destruct (decide (j = k)) as [->|Hne].
  - rewrite list_lookup_alter_eq, Hk in Hj. injection Hj as <-. by left.
  - rewrite list_lookup_alter_ne in Hj by done. right. split; [by eapply list_elem_of_lookup_2|eauto].
Qed.

Lemma alter_visited_ids k (l : list Neighbor) : id <$> alter set_visited k l = id <$> l.
Proof. apply list_eq. intros j. rewrite !list_lookup_fmap. destruct (decide (j = k)) as [->|]; [rewrite list_lookup_alter_eq; by destruct (l !! k)|by rewrite list_lookup_alter_ne]. Qed.

(** The closest candidate that is not taken is taken; without one, all are. *)
Lemma pick_ok p S E :
  pool_ok p S E →
  ∃ o p', next_unvisited p = Some (o, p') ∧
  match o with
  | Some k => ∃ a, retset_ p' !! k = Some a ∧ id a ∈ S ∧ id a ∉ E ∧ pool_ok p' S (id a :: E)
              ∧ unvisited_count (live p) = Datatypes.S (unvisited_count (live p'))
  | None => pool_ok p' S E ∧ live p' = live p ∧ Forall (λ a, visited a = true) (live p)
  end.
Proof.
  intros [Hwf Hset Hl Hnd Hseen Hsc Hk Ht Ho Hsub].
  destruct (next_unvisited_correct p Hwf Hset) as (o & p' & Hp & Hwf' & Hset' & Hl' & Hres). exists o, p'. split; [done|].
  destruct o as [k|].
  - destruct Hres as ((a & Ha & Hv) & _ & Hlive). pose proof (list_elem_of_lookup_2 _ _ _ Ha) as Hin.
    assert (Hak : live p' !! k = Some (set_visited a)) by (rewrite Hlive; by rewrite list_lookup_alter_eq, Ha).
    assert (Hne : id a ∉ E) by (rewrite <- Ht by done; by rewrite Hv).
    exists (set_visited a). split_and!; [apply (proj1 (live_lookup p' k _ Hak))|by apply (Hseen a)|done| |]; cbn [id set_visited];
      [|rewrite Hlive; symmetry; by eapply unvisited_count_pick].
    assert (Hids : id <$> live p' = id <$> live p) by (rewrite Hlive; apply alter_visited_ids).
    split; [done|done|congruence|by rewrite Hids| | |by rewrite Hids| |by constructor|].
    + intros x Hx. rewrite Hlive in Hx. destruct (alter_visited_elem _ _ _ Ha x Hx) as [->|[Hx' _]]; [by apply (Hseen a)|by apply Hseen].
    + intros x Hx. rewrite Hlive in Hx. destruct (alter_visited_elem _ _ _ Ha x Hx) as [->|[Hx' _]]; [by apply (Hsc a)|by apply Hsc].
    + intros x Hx. rewrite Hlive in Hx. rewrite elem_of_cons. destruct (alter_visited_elem _ _ _ Ha x Hx) as [->|(Hx' & j & Hj & Hxj)]; [cbn; tauto|].
      rewrite (Ht x Hx'). split; [by right|]. intros [E1|?]; [|done]. destruct Hj.
      eapply (NoDup_lookup (id <$> live p)); [done|by rewrite list_lookup_fmap, Hxj|by rewrite list_lookup_fmap, Ha, E1].
    + intros i [->|Hi]%elem_of_cons; [by apply Hseen|by apply Hsub].
  - destruct Hres as [Hlive Hall]. split; [|done]. split; rewrite ?Hlive; try done. congruence.
Qed.

Lemma all_visited_ok p S E :
  pool_ok p S E → ∃ b p', all_visited p = Some (b, p') ∧ pool_ok p' S E ∧ live p' = live p ∧ (b = true ↔ Forall (λ a, visited a = true) (live p)).
Proof.
  intros [Hwf Hset Hl Hnd Hseen Hsc Hk Ht Ho Hsub].
  destruct (skip_visited_correct p Hwf Hset) as (p' & Hp & Hwf' & Hset' & Hrs & Hcur & Hl' & _ & Hend).
  pose proof (live_eq p p' Hrs Hcur) as Hlive. unfold all_visited. rewrite Hp. cbn [mbind option_bind]. eexists _, p'. split; [done|].
  split; [|split; [done|]].
  - split; rewrite ?Hlive; try done. congruence.
  - rewrite Nat.leb_le. split.
    + intros Hle. destruct Hset' as [Hv _]. by rewrite Hlive, take_ge in Hv by (rewrite live_length; [lia|done]).
    + intros Hall. destruct (Nat.le_gt_cases (cur_list_size_ p') (first_unvisited_ p')) as [|Hlt]; [done|].
      destruct Hend as (a & Ha & Hv); [lia|]. rewrite Forall_lookup in Hall. specialize (Hall _ _ Ha). congruence.
Qed.

(** The taken ids are distinct and were seen. *)
Lemma taken_bound p S E (U : gset Z) : pool_ok p S E → S ⊆ U → length E ≤ base.size U.
Proof.
  intros H Hu. rewrite <- (size_list_to_set (C := gset Z) E) by apply H. apply subseteq_size.
  intros i Hi%elem_of_list_to_set. apply Hu. by apply (po_sub _ _ _ H).
Qed.

(** With every candidate taken, the ids taken are closed: each id seen is among the taken
    ones of the pool, or behind a full pool of them. *)
Lemma taken_kept p S E i :
  pool_ok p S E → Forall (λ a, visited a = true) (live p) → i ∈ S → (∀ j, j ∈ id <$> live p → j ∈ E) ∧ kept q ix (id <$> live p) i.
Proof.
  intros H Hall Hi. split; [|by apply H]. intros j (a & -> & Ha)%list_elem_of_fmap. rewrite Forall_forall in Hall.
  by apply (po_taken _ _ _ H a Ha), Hall.
Qed.
Context (Hnan : ∀ i, not_nan (compute_dist ix i)).

(** A neighbour that was not seen before enters the pool. *)
Lemma pool_insert_ok p S E i :
  pool_ok p S E → i ∉ S →
  ∃ r p', insert p (new_neighbor i (compute_dist ix i)) = Some (r, p') ∧ pool_ok p' ({[i]} ∪ S) E.
Proof.
  intros [Hwf Hset Hl Hnd Hseen Hsc Hk Ht Ho Hsub] Hi. change (new_neighbor i (compute_dist ix i)) with (nb (scored ix i)).
  assert (Hb : batch_ok (live p) (scores ix [i])).
  { apply scores_batch_ok; [done|apply NoDup_singleton|done|]. intros a Ha Ea%list_elem_of_singleton. apply Hi. rewrite <- Ea. by apply Hseen. }
  assert (Hf : fresh (nb (scored ix i)) (live p)).
  { intros (a & Ea & Ha)%list_elem_of_fmap. apply Hi. cbn in Ea. rewrite Ea. by apply Hseen. }
  destruct (insert_correct p (nb (scored ix i)) Hwf (Hnan i) Hf) as (p' & Hp & Hins). eexists _, p'. split; [exact Hp|].
  assert (Hlive : live p' = grown (l_pool q) (live p) (scores ix [i])) by (rewrite (ins_live _ _ _ Hins), Hl; done).
  assert (Hel : ∀ a, a ∈ live p' → a ∈ live p ∨ a = nb (scored ix i)).
  { intros a. rewrite Hlive. intros [Ha|Ha]%grown_elem; [by left|right]. by apply list_elem_of_singleton in Ha. }
  split.
  - apply Hins.
  - by eapply inserted_settled.
  - by rewrite (ins_lpool _ _ _ Hins).
  - rewrite Hlive. by apply grown_NoDup.
  - intros a [Ha| ->]%Hel; [apply elem_of_union_r; by apply Hseen|]. cbn. set_solver.
  - rewrite Hlive. by apply grown_scored.
  - intros j Hj. rewrite Hlive. apply elem_of_union in Hj as [->%elem_of_singleton|Hj].
    + apply new_kept; [apply Hwf|apply Hwf|done|done|left].
    + apply old_kept; [apply Hwf|apply Hwf|done|done|by apply Hk].
  - intros a [Ha| ->]%Hel; [by apply Ht|]. cbn. split; [done|]. intros He. by destruct (Hi (Hsub _ He)).
  - done.
  - intros j Hj. apply elem_of_union_r. by apply Hsub.
Qed.
End greedy.
End Greedy.
