(* ===== verification/BeamSearch.v ===== *)
(** * The beam search ([src/search/beam_search.cpp])

    [do_beam_search] expands the pool in hops: each takes the closest [beam_width]
    candidates, reads their pages in one batch and puts the neighbours not seen before into
    the pool.  A page buffer is a part of [sector_scratch], whose end is checked; the page
    references taken by [read_alloc] are kept as the blocks they pin.  [None] is a crash or an
    access out of range, an inner [None] that the fuel ran out.  The time limit of the
    statistics is the function [expired] of the hops. *)

From S2P Require Import Prelude Float32 Neighbor CandidatePool PoolBatch PoolSearch Layout PipeSearch PipeProof GreedyPool.
Import Pool Pipe PipeProof Greedy.

Module Beam.

Record bstate := mkB {
  b_pool : CandidatePool;
  b_visited : gset Z;
  b_full_retset : list Neighbor;
  b_coord_buf : list (list Z);
  b_coord_map : gmap Z nat;
  b_hint_pages : list Z;
  b_page_ref : list Z
}.

Section beam.
Context (ix : index) (mem_L l_search beam_width : nat) (insert_ctx : bool).
Context (cur_id io_size io_size_dense : Z) (expired : nat → bool).

Definition with_walk (p : CandidatePool) (v : gset Z) (s : bstate) : bstate :=
  mkB p v (b_full_retset s) (b_coord_buf s) (b_coord_map s) (b_hint_pages s) (b_page_ref s).

Definition compute_exact_dist_and_push (n : DiskNode) (i : Z) (s : bstate) : option bstate :=
  let cur_expanded_dist := compare_sym ix (coords n) in
  '(buf, cm) ←
    (if insert_ctx then
       let coord_buf_idx := length (b_coord_buf s) in
       if Nat.leb (kExpandedNodesFactor * l_search) coord_buf_idx then None
       else Some (b_coord_buf s ++ [coords n], map_insert i coord_buf_idx (b_coord_map s))
     else Some (b_coord_buf s, b_coord_map s));
  Some (mkB (b_pool s) (b_visited s) (b_full_retset s ++ [new_neighbor i cur_expanded_dist]) buf cm (b_hint_pages s) (b_page_ref s)).

Fixpoint compute_and_add_to_retset (ids : list Z) (p : CandidatePool) (v : gset Z) : option (CandidatePool * gset Z) :=
  match ids with
  | [] => Some (p, v)
  | i :: ids => '(_, p) ← insert p (new_neighbor i (compute_dist ix i)); compute_and_add_to_retset ids p ({[i]} ∪ v)
  end.

(** The ids the search starts from. *)
Definition beam_starts : list Z :=
  if Nat.eqb mem_L 0 then [entry_point_id ix] else map fst (take l_search (search_with_tags ix)).

Fixpoint pick_frontier (num : nat) (p : CandidatePool) : option (list Z * CandidatePool) :=
  match num with
  | 0 => Some ([], p)
  | S num =>
      '(node, p) ← next_unvisited p;
      match node with
      | None => Some ([], p)
      | Some k => a ← retset_ p !! k; '(f, p) ← pick_frontier num p; Some (id a :: f, p)
      end
  end.

(** The blocks a read pins. *)
Definition blocks (i : Z) : list Z := map (λ j, (id2page ix i + j)%Z) (seqZ 0 (io_size / Layout.SECTOR_LEN)).

(** Buffer [k] of [sector_scratch], which has room for 128 large reads. *)
Definition buf_fits (k : nat) : bool := ((Z.of_nat k + 1) * io_size <=? Z.of_nat MAX_N_SECTOR_READS * io_size_dense)%Z.

Fixpoint frontier_reads (k : nat) (f : list Z) (s : bstate) : option bstate :=
  match f with
  | [] => Some s
  | i :: f =>
      if buf_fits k then
        frontier_reads (S k) f
          (mkB (b_pool s) (b_visited s) (b_full_retset s) (b_coord_buf s) (b_coord_map s)
             (if insert_ctx then b_hint_pages s ++ [id2page ix i] else b_hint_pages s) (b_page_ref s ++ blocks i))
      else None
  end.

(** The neighbours of a node that were not seen before. *)
Fixpoint add_nbrs (l : list Z) (p : CandidatePool) (v : gset Z) : option (CandidatePool * gset Z) :=
  match l with
  | [] => Some (p, v)
  | i :: l =>
      if (cur_id <? i)%Z then None
      else if decide (i ∈ v) then add_nbrs l p v
      else '(_, p) ← insert p (new_neighbor i (compute_dist ix i)); add_nbrs l p ({[i]} ∪ v)
  end.

Fixpoint expand_frontier (f : list Z) (s : bstate) : option bstate :=
  match f with
  | [] => Some s
  | i :: f =>
      let n := read_node ix i in
      s ← compute_exact_dist_and_push n i s;
      '(p, v) ← add_nbrs (nbrs n) (b_pool s) (b_visited s);
      expand_frontier f (with_walk p v s)
  end.

Definition hop (s : bstate) : option bstate :=
  '(f, p) ← pick_frontier beam_width (b_pool s);
  s ← frontier_reads 0 f (with_walk p (b_visited s) s);
  expand_frontier f s.

Fixpoint beam_loop (fuel h : nat) (s : bstate) : option (option bstate) :=
  '(stop, p) ← all_visited (b_pool s);
  let s := with_walk p (b_visited s) s in
  if (stop : bool) then Some (Some s)
  else
    match fuel with
    | 0 => Some None
    | S fuel => s ← hop s; if expired h then Some (Some s) else beam_loop fuel (S h) s
    end.

(** The results are sorted; a plain search drops its page references. *)
Definition finish (s : bstate) : bstate :=
  mkB (b_pool s) (b_visited s) (std_sort (b_full_retset s)) (b_coord_buf s) (b_coord_map s) (b_hint_pages s)
    (if insert_ctx then b_page_ref s else []).

Definition do_beam_search (fuel : nat) : option (option bstate) :=
  '(p, v) ← compute_and_add_to_retset beam_starts (reset l_search (mem_L + kExpandedNodesFactor * l_search)) ∅;
  r ← beam_loop fuel 0 (mkB p v [] [] ∅ [] []);
  Some (option_map finish r).

End beam.

Definition beam_search (ix : index) (k_search mem_L l_search beam_width : nat) (cur_id io_size io_size_dense : Z) (expired : nat → bool)
    (fuel : nat) : option (option (list (Z * float))) :=
  r ← do_beam_search ix mem_L l_search beam_width false cur_id io_size io_size_dense expired fuel;
  Some (option_map (λ s, copy_top_k ix (b_full_retset s) k_search f_infinity) r).

End Beam.
