(* ===== verification/BeamProof.v ===== *)
(** * Correctness of the beam search ([src/search/beam_search.cpp])

    The invariant of a hop, and the theorem of the search: it ends within one hop per node of
    the index, stays within its buffers, and returns the fixed point of the greedy walk. *)

From S2P Require Import Prelude Float32 Neighbor CandidatePool PoolBatch PoolSearch Layout VisitedSet PipeSearch PipeProof GreedyPool BeamSearch.
Import Pool Pipe PipeProof Greedy Beam.

Module BeamProof.

Section beam.
Context (ix : index) (mem_L l_search beam_width : nat) (insert_ctx : bool).
Context (cur_id io_size io_size_dense : Z) (expired : nat → bool) (U : gset Z).
Local Abbreviation q := (do_pipe_search mem_L l_search beam_width 0 insert_ctx false).
Context (Hix : index_ok q ix U) (Hl : 1 ≤ l_search) (Hb : 1 ≤ beam_width ≤ MAX_N_SECTOR_READS).
Context (Hio : (0 <= io_size <= io_size_dense)%Z) (Hcur : ∀ i, i ∈ U → (i <= cur_id)%Z).
Context (Hcoord : insert_ctx = true → base.size U ≤ kExpandedNodesFactor * l_search).

Lemma starts_same : beam_starts ix mem_L l_search = starts q ix.
Proof. done. Qed.

Definition exact (i : Z) : Neighbor := new_neighbor i (compare_sym ix (coords (read_node ix i))).

(** [X]: the expanded nodes, in order; [todo]: the rest of the frontier. *)
Record beam_ok (X todo : list Z) (s : bstate) : Prop := mkBeamOk {
  bo_pool : pool_ok q ix (b_pool s) (b_visited s) (X ++ todo);
  bo_U : b_visited s ⊆ U;
  bo_starts : ∀ i, i ∈ starts q ix → i ∈ b_visited s;
  bo_res : b_full_retset s = exact <$> X;
  bo_closed : ∀ i j, i ∈ X → j ∈ nbrs (read_node ix i) → j ∈ b_visited s;
  bo_coords : insert_ctx = true → b_coord_buf s = (λ i, coords (read_node ix i)) <$> X
    ∧ ∀ i j, b_coord_map s !! i = Some j ↔ X !! j = Some i;
  bo_hints : b_hint_pages s = if insert_ctx then id2page ix <$> (X ++ todo) else [];
  bo_refs : b_page_ref s = concat (blocks ix io_size <$> (X ++ todo))
}.

(** ** The start *)

Lemma beam_starts_ok ids : ∀ p v,
  pool_ok q ix p v [] → NoDup ids → (∀ i, i ∈ ids → i ∉ v) →
  ∃ p', compute_and_add_to_retset ix ids p v = Some (p', list_to_set ids ∪ v) ∧ pool_ok q ix p' (list_to_set ids ∪ v) [].
Proof.
  induction ids as [|i ids IH]; intros p v Hp Hnd Hn; cbn [compute_and_add_to_retset].
  { exists p. rewrite list_to_set_nil, (left_id_L ∅ (∪)). done. }
  apply NoDup_cons in Hnd as [Hi Hnd].
  destruct (pool_insert_ok q ix (xo_approx _ _ _ Hix) p v [] i Hp (Hn i ltac:(left))) as (r & p1 & -> & Hp1). cbn [mbind option_bind].
  destruct (IH p1 ({[i]} ∪ v) Hp1 Hnd) as (p2 & -> & Hp2).
  { intros j Hj. rewrite not_elem_of_union, not_elem_of_singleton. split; [by intros ->|apply Hn; by right]. }
  assert (list_to_set ids ∪ ({[i]} ∪ v) = list_to_set (i :: ids) ∪ v) as <- by (rewrite list_to_set_cons; set_solver). eauto.
Qed.

Lemma start_ok :
  ∃ p v, compute_and_add_to_retset ix (beam_starts ix mem_L l_search) (reset l_search (mem_L + kExpandedNodesFactor * l_search)) ∅ = Some (p, v)
  ∧ beam_ok [] [] (mkB p v [] [] ∅ [] []).
Proof.
  rewrite starts_same. destruct (beam_starts_ok (starts q ix) _ ∅ (pool_ok_start q ix (mem_L + kExpandedNodesFactor * l_search) Hl) (xo_nodup _ _ _ Hix)) as (p & Hp & Hok); [set_solver|].
  eexists p, _. split; [exact Hp|]. split; cbn [b_pool b_visited b_full_retset b_coord_buf b_coord_map b_hint_pages b_page_ref]; try done.
  - intros i. rewrite elem_of_union, elem_of_list_to_set. intros [Hi|Hi]; [by apply (xo_starts _ _ _ Hix)|set_solver].
  - intros i Hi. by apply elem_of_union_l, elem_of_list_to_set.
  - intros i j Hi. by apply not_elem_of_nil in Hi.
  - by destruct insert_ctx.
Qed.

(** ** A hop *)

Lemma pick_frontier_ok n : ∀ p S E,
  pool_ok q ix p S E →
  ∃ f p', pick_frontier n p = Some (f, p') ∧ pool_ok q ix p' S (E ++ f) ∧ length f ≤ n
  ∧ (n ≠ 0 → f = [] → Forall (λ a, visited a = true) (live p)).
Proof.
  induction n as [|n IH]; intros p S E Hp; cbn [pick_frontier].
  { exists [], p. by rewrite app_nil_r. }
  destruct (pick_ok q ix p S E Hp) as (o & p1 & -> & Ho). cbn [mbind option_bind]. destruct o as [k|].
  - destruct Ho as (a & -> & _ & _ & Hp1 & _). cbn [mbind option_bind]. destruct (IH p1 S _ Hp1) as (f & p2 & -> & Hp2 & Hlen & _).
    cbn [mbind option_bind]. exists (id a :: f), p2. split_and!; [done| |simpl; lia|done].
    eapply pool_ok_perm; [|exact Hp2]. rewrite <- Permutation_middle. done.
  - destruct Ho as (Hp1 & Hlive & Hall). exists [], p1. rewrite app_nil_r. split_and!; [done|done|simpl; lia|done].
Qed.

Lemma buf_fits_ok k : k < MAX_N_SECTOR_READS → buf_fits io_size io_size_dense k = true.
Proof. intros Hk. unfold buf_fits. apply Z.leb_le. nia. Qed.

Lemma frontier_reads_ok f : ∀ k s, k + length f ≤ MAX_N_SECTOR_READS →
  frontier_reads ix insert_ctx io_size io_size_dense k f s
  = Some (mkB (b_pool s) (b_visited s) (b_full_retset s) (b_coord_buf s) (b_coord_map s)
            (if insert_ctx then b_hint_pages s ++ (id2page ix <$> f) else b_hint_pages s)
            (b_page_ref s ++ concat (blocks ix io_size <$> f))).
Proof.
  induction f as [|i f IH]; intros k s Hk; cbn [frontier_reads length] in *.
  { rewrite !fmap_nil, app_nil_r. cbn [concat]. rewrite app_nil_r. by destruct s, insert_ctx. }
  rewrite buf_fits_ok by lia. rewrite IH by lia. cbn [b_pool b_visited b_full_retset b_coord_buf b_coord_map b_hint_pages b_page_ref].
  rewrite !fmap_cons. cbn [concat]. do 2 f_equal; [by destruct insert_ctx; [rewrite <- app_assoc|]|by rewrite <- app_assoc].
Qed.

Lemma add_nbrs_ok E l : ∀ p v,
  pool_ok q ix p v E → v ⊆ U → (∀ i, i ∈ l → i ∈ U) →
  ∃ p', add_nbrs ix cur_id l p v = Some (p', list_to_set l ∪ v) ∧ pool_ok q ix p' (list_to_set l ∪ v) E.
Proof.
  induction l as [|i l IH]; intros p v Hp Hv Hu; cbn [add_nbrs].
  { exists p. rewrite list_to_set_nil, (left_id_L ∅ (∪)). done. }
  rewrite (proj2 (Z.ltb_ge _ _)) by (apply Hcur, Hu; left). rewrite list_to_set_cons. case_decide as Hi.
  - destruct (IH p v Hp Hv) as (p' & -> & Hp'); [intros; apply Hu; by right|]. exists p'.
    assert ({[i]} ∪ list_to_set l ∪ v = list_to_set l ∪ v) as -> by set_solver. done.
  - destruct (pool_insert_ok q ix (xo_approx _ _ _ Hix) p v E i Hp Hi) as (r & p1 & -> & Hp1). cbn [mbind option_bind].
    destruct (IH p1 ({[i]} ∪ v) Hp1) as (p' & -> & Hp'); [|intros; apply Hu; by right|].
    { intros j [->%elem_of_singleton|Hj]%elem_of_union; [apply Hu; left|by apply Hv]. }
    exists p'. assert ({[i]} ∪ list_to_set l ∪ v = list_to_set l ∪ ({[i]} ∪ v)) as -> by set_solver. done.
Qed.

Lemma todo_bound X todo s : beam_ok X todo s → length (X ++ todo) ≤ base.size U.
Proof. intros H. eapply taken_bound; apply H. Qed.

Lemma expand_ok X i todo s :
  beam_ok X (i :: todo) s →
  ∃ s1 p v, compute_exact_dist_and_push ix l_search insert_ctx (read_node ix i) i s = Some s1
  ∧ add_nbrs ix cur_id (nbrs (read_node ix i)) (b_pool s1) (b_visited s1) = Some (p, v) ∧ beam_ok (X ++ [i]) todo (with_walk p v s1).
Proof.
  intros H. pose proof (todo_bound _ _ _ H) as Hlen. rewrite length_app in Hlen. cbn [length] in Hlen.
  destruct H as [Hp Hu Hst Hr Hc Hco Hh Hrf].
  assert (Hi : i ∉ X) by (intros Hi; apply (proj1 (proj2 (proj1 (NoDup_app _ _) (po_order _ _ _ _ _ Hp))) i Hi); left).
  assert (Hiu : i ∈ U) by (apply Hu, (po_sub _ _ _ _ _ Hp), elem_of_app; right; left).
  destruct (add_nbrs_ok (X ++ i :: todo) (nbrs (read_node ix i)) (b_pool s) (b_visited s) Hp Hu) as (p & Hadd & Hp').
  { intros j Hj. apply (xo_closed _ _ _ Hix i j Hiu). apply elem_of_app. by left. }
  assert (∃ buf cm, compute_exact_dist_and_push ix l_search insert_ctx (read_node ix i) i s
            = Some (mkB (b_pool s) (b_visited s) (b_full_retset s ++ [exact i]) buf cm (b_hint_pages s) (b_page_ref s))
          ∧ (insert_ctx = true → buf = (λ i, coords (read_node ix i)) <$> (X ++ [i]) ∧ ∀ k j, cm !! k = Some j ↔ (X ++ [i]) !! j = Some k))
    as (buf & cm & Hpush & Hco').
  { unfold compute_exact_dist_and_push. destruct insert_ctx eqn:Ei; [|eexists _, _; split; [cbn [mbind option_bind]; done|done]].
    destruct (Hco eq_refl) as [Hbuf Hmap]. specialize (Hcoord eq_refl). rewrite Hbuf, length_fmap, (proj2 (Nat.leb_gt _ _)) by lia.
    cbn [mbind option_bind]. eexists _, _. split; [done|]. intros _. split; [by rewrite fmap_app|]. intros k j. unfold map_insert.
    destruct (b_coord_map s !! i) as [j'|] eqn:Em; [apply Hmap in Em; destruct Hi; by eapply list_elem_of_lookup_2|].
    rewrite lookup_insert_Some, Hmap, lookup_app_Some, list_lookup_singleton_Some. split.
    - intros [[<- <-]|[Hne Hj]]; [right; split; [done|lia]|by left].
    - intros [Hj|[Hge [Hj <-]]]; [|left; split; [done|lia]]. right. split; [|done]. intros <-. apply Hi. by eapply list_elem_of_lookup_2. }
  eexists _, p, _. split; [exact Hpush|]. split; [exact Hadd|].
  split; cbn [b_pool b_visited b_full_retset b_coord_buf b_coord_map b_hint_pages b_page_ref with_walk].
  - by rewrite <- app_assoc.
  - intros j [Hj%elem_of_list_to_set|Hj]%elem_of_union; [|by apply Hu]. apply (xo_closed _ _ _ Hix i j Hiu). apply elem_of_app. by left.
  - intros j Hj. apply elem_of_union_r. by apply Hst.
  - by rewrite Hr, fmap_app.
  - intros k j [Hk| ->%list_elem_of_singleton]%elem_of_app Hj; [apply elem_of_union_r; by apply (Hc k)|]. by apply elem_of_union_l, elem_of_list_to_set.
  - done.
  - by rewrite <- app_assoc.
  - by rewrite <- app_assoc.
Qed.

Lemma expand_frontier_ok f : ∀ X s, beam_ok X f s →
  ∃ s', expand_frontier ix l_search insert_ctx cur_id f s = Some s' ∧ beam_ok (X ++ f) [] s'.
Proof.
  induction f as [|i f IH]; intros X s H; cbn [expand_frontier].
  { exists s. by rewrite app_nil_r. }
  destruct (expand_ok X i f s H) as (s1 & p & v & -> & Hadd & H1). cbn [mbind option_bind]. rewrite Hadd. cbn [mbind option_bind].
  destruct (IH _ _ H1) as (s' & -> & H'). exists s'. by rewrite <- app_assoc in H'.
Qed.

Lemma hop_ok X s :
  beam_ok X [] s → ¬ Forall (λ a, visited a = true) (live (b_pool s)) →
  ∃ f s', hop ix l_search beam_width insert_ctx cur_id io_size io_size_dense s = Some s' ∧ f ≠ [] ∧ beam_ok (X ++ f) [] s'.
Proof.
  intros H Hn. destruct H as [Hp Hu Hst Hr Hc Hco Hh Hrf]. rewrite app_nil_r in *. unfold hop.
  destruct (pick_frontier_ok beam_width (b_pool s) _ X Hp) as (f & p & -> & Hp' & Hlen & Hne). cbn [mbind option_bind].
  rewrite frontier_reads_ok by (cbn [plus]; lia). cbn [mbind option_bind b_pool b_visited b_full_retset b_coord_buf b_coord_map b_hint_pages b_page_ref with_walk].
  destruct (expand_frontier_ok f X (mkB p (b_visited s) (b_full_retset s) (b_coord_buf s) (b_coord_map s)
      (if insert_ctx then b_hint_pages s ++ (id2page ix <$> f) else b_hint_pages s) (b_page_ref s ++ concat (blocks ix io_size <$> f)))) as (s' & Hs' & H').
  { split; cbn [b_pool b_visited b_full_retset b_coord_buf b_coord_map b_hint_pages b_page_ref]; try done.
    - rewrite Hh. destruct insert_ctx; [by rewrite fmap_app|done].
    - rewrite Hrf, fmap_app. by rewrite concat_app. }
  exists f, s'. split_and!; [exact Hs'| |done]. intros ->. apply Hn, Hne; [lia|done].
Qed.

(** ** The loop *)

Lemma beam_loop_ok fuel : ∀ h X s,
  beam_ok X [] s → base.size U - length X < fuel →
  ∃ X' s', beam_loop ix l_search beam_width insert_ctx cur_id io_size io_size_dense expired fuel h s = Some (Some s') ∧ beam_ok X' [] s'
  ∧ ((∀ h, expired h = false) → Forall (λ a, visited a = true) (live (b_pool s'))).
Proof.
  induction fuel as [|fuel IH]; intros h X s H Hf; [lia|]. cbn [beam_loop].
  destruct (all_visited_ok q ix (b_pool s) _ _ (bo_pool _ _ _ H)) as (b & p & -> & Hp & Hlive & Hb'). cbn [mbind option_bind].
  assert (H1 : beam_ok X [] (with_walk p (b_visited s) s)) by (destruct H; split; done).
  destruct b.
  - eexists X, _. split; [done|]. split; [done|]. intros _. cbn [with_walk b_pool]. rewrite Hlive. by apply Hb'.
  - destruct (hop_ok X _ H1) as (f & s' & -> & Hne & H').
    { cbn [with_walk b_pool]. rewrite Hlive. intros Hall. by apply Hb' in Hall. }
    cbn [mbind option_bind]. destruct (expired h) eqn:Ex.
    + eexists _, s'. split; [done|]. split; [done|]. intros Hno. by rewrite Hno in Ex.
    + apply (IH (S h) _ s' H'). pose proof (todo_bound _ _ _ H') as Hlen. rewrite app_nil_r, length_app in *. destruct f; [done|]. cbn [length] in *. lia.
Qed.

Lemma exact_results X : NoDup X → results_ok q ix (std_sort (exact <$> X)).
Proof.
  intros Hnd. assert (Hids : id <$> (exact <$> X) = X) by (rewrite <- list_fmap_compose; by rewrite list_fmap_id).
  assert (Forall ok (exact <$> X)) as Hok by (apply Forall_fmap, Forall_forall; intros i _; apply Hix).
  split.
  - apply std_sort_sorted; [done|by rewrite Hids].
  - by rewrite std_sort_Permutation, Hids.
  - intros r. rewrite std_sort_Permutation. by intros (i & -> & _)%list_elem_of_fmap.
Qed.

Lemma do_beam_search_ok :
  ∃ X s, do_beam_search ix mem_L l_search beam_width insert_ctx cur_id io_size io_size_dense expired (S (base.size U)) = Some (Some (finish insert_ctx s))
  ∧ beam_ok X [] s ∧ ((∀ h, expired h = false) → Forall (λ a, visited a = true) (live (b_pool s))).
Proof.
  unfold do_beam_search. destruct start_ok as (p & v & -> & H0). cbn [mbind option_bind].
  destruct (beam_loop_ok (S (base.size U)) 0 [] _ H0) as (X & s & -> & H & Hall); [simpl; lia|]. cbn [mbind option_bind option_map]. eauto.
Qed.
End beam.

(** ** The theorems *)

(** C30: the beam search returns the fixed point of the greedy walk.  On an index whose
    distances are not NaN and a beam of at most 128 it ends within one hop per node and
    returns the [k] first of a list of distinct nodes sorted by exact distance.  Among them
    is a set [P] of at most [l] nodes such that the starting points and every neighbour of a
    node of [P] are in [P], or [P] has [l] nodes that are all closer in the approximate
    distance. *)
Theorem beam_search_greedy ix U k mem_L l beam_width cur_id io_size io_size_dense :
  let q := do_pipe_search mem_L l beam_width 0 false false in
  index_ok q ix U → 1 ≤ l → 1 ≤ beam_width ≤ MAX_N_SECTOR_READS → (0 <= io_size <= io_size_dense)%Z → (∀ i, i ∈ U → (i <= cur_id)%Z) →
  ∃ P res, beam_search ix k mem_L l beam_width cur_id io_size io_size_dense (λ _, false) (S (base.size U)) = Some (Some (take k (map (tagged ix) res)))
  ∧ results_ok q ix res
  ∧ NoDup P ∧ length P ≤ l ∧ (∀ i, i ∈ P → i ∈ id <$> res)
  ∧ (∀ i, i ∈ starts q ix → kept q ix P i)
  ∧ (∀ i j, i ∈ P → j ∈ nbrs (read_node ix i) → kept q ix P j).
Proof.
  intros q Hix Hl Hb Hio Hcur.
  destruct (do_beam_search_ok ix mem_L l beam_width false cur_id io_size io_size_dense (λ _, false) U Hix Hl Hb Hio Hcur) as (X & s & Hrun & H & Hall); [done|].
  specialize (Hall (λ _, eq_refl)). destruct H as [Hp _ Hst Hr Hc _ _ _]. rewrite app_nil_r in Hp.
  assert (Hres : results_ok q ix (std_sort (b_full_retset s))) by (rewrite Hr; eapply exact_results; [exact Hix|apply Hp]).
  assert (Hin : ∀ i, i ∈ id <$> live (b_pool s) → i ∈ X).
  { intros i (a & -> & Ha)%list_elem_of_fmap. rewrite Forall_forall in Hall. by apply (po_taken _ _ _ _ _ Hp a Ha), Hall. }
  exists (id <$> live (b_pool s)), (std_sort (b_full_retset s)). split_and!.
  - unfold beam_search. rewrite Hrun. cbn [mbind option_bind option_map finish b_full_retset]. do 2 f_equal.
    apply (results_copied_all q); [apply Hix|done].
  - done.
  - apply Hp.
  - rewrite length_fmap, live_length by apply Hp. pose proof (wf_cur _ (po_wf _ _ _ _ _ Hp)) as H. by rewrite (po_l _ _ _ _ _ Hp) in H.
  - intros i Hi%Hin. rewrite std_sort_Permutation, Hr, <- list_fmap_compose, list_fmap_id. done.
  - intros i Hi. by apply (po_kept _ _ _ _ _ Hp), Hst.
  - intros i j Hi Hj. by apply (po_kept _ _ _ _ _ Hp), (Hc i), Hj; apply Hin.
Qed.

(** every way a beam search can end, with a time limit and for insertions.  With a beam
    of at most 128, and for an insertion over at most [10 * l] nodes, it returns distinct
    nodes in the order of their exact distances; an insertion finds the vector of each
    through [coord_map], has its page among the hints and holds references to all its blocks,
    and a plain search holds none. *)
Theorem beam_search_ends ix U mem_L l beam_width insert_ctx cur_id io_size io_size_dense expired :
  let q := do_pipe_search mem_L l beam_width 0 insert_ctx false in
  index_ok q ix U → 1 ≤ l → 1 ≤ beam_width ≤ MAX_N_SECTOR_READS → (0 <= io_size <= io_size_dense)%Z → (∀ i, i ∈ U → (i <= cur_id)%Z) →
  (insert_ctx = true → base.size U ≤ kExpandedNodesFactor * l) →
  ∃ s, do_beam_search ix mem_L l beam_width insert_ctx cur_id io_size io_size_dense expired (S (base.size U)) = Some (Some s)
  ∧ results_ok q ix (b_full_retset s)
  ∧ (insert_ctx = false → b_page_ref s = [])
  ∧ (insert_ctx = true → ∀ r, r ∈ b_full_retset s →
       (∃ j, b_coord_map s !! id r = Some j ∧ b_coord_buf s !! j = Some (coords (read_node ix (id r))))
       ∧ id2page ix (id r) ∈ b_hint_pages s ∧ ∀ x, x ∈ blocks ix io_size (id r) → x ∈ b_page_ref s).
Proof.
  intros q Hix Hl Hb Hio Hcur Hcoord.
  destruct (do_beam_search_ok ix mem_L l beam_width insert_ctx cur_id io_size io_size_dense expired U Hix Hl Hb Hio Hcur Hcoord) as (X & s & Hrun & H & _).
  destruct H as [Hp _ _ Hr _ Hco Hh Hrf]. rewrite app_nil_r in *. exists (finish insert_ctx s). split; [done|].
  cbn [finish b_full_retset b_page_ref b_coord_map b_coord_buf b_hint_pages]. split_and!.
  - rewrite Hr. eapply exact_results; [exact Hix|apply Hp].
  - by intros ->.
  - intros ->. destruct (Hco eq_refl) as [Hbuf Hmap]. intros r. rewrite std_sort_Permutation, Hr. intros (i & -> & Hi)%list_elem_of_fmap. cbn [id exact new_neighbor].
    apply list_elem_of_lookup in Hi as [j Hj]. pose proof (list_elem_of_lookup_2 _ _ _ Hj) as Hi. split_and!.
    + exists j. split; [by apply Hmap|]. by rewrite Hbuf, list_lookup_fmap, Hj.
    + rewrite Hh. by apply list_elem_of_fmap_2.
    + intros x Hx. rewrite Hrf. apply list_elem_of_In, in_concat. exists (blocks ix io_size i). split; [|by apply list_elem_of_In].
      apply list_elem_of_In. by apply list_elem_of_fmap_2.
Qed.

(** the beam is not checked against the 128 page buffers, as the other searches do: with
    a beam of 130 and that many candidates the reads of a hop run over the end of
    [sector_scratch]. *)
Theorem beam_overruns_buffers :
  index_ok (do_pipe_search 0 140 130 0 false false) crowd crowd_ids
  ∧ beam_search crowd 3 0 140 130 201 4096 4096 (λ _, false) 300 = None
  ∧ beam_search crowd 3 0 140 128 201 4096 4096 (λ _, false) 300 = Some (Some [(0%Z, z_dist 0); (1%Z, z_dist 1); (2%Z, z_dist 2)]).
Proof. split; [by apply crowd_ok|]. split; vm_compute; reflexivity. Qed.

(** ** Witnesses *)

Lemma crowd_ids_bound i : i ∈ crowd_ids → (i <= 201)%Z.
Proof.
  unfold crowd_ids. rewrite elem_of_list_to_set. unfold ids_from. rewrite list_elem_of_In, in_map_iff. intros (n & <- & Hn%in_seq). lia.
Qed.

Lemma beam_search_greedy_witness :
  ∃ P res, beam_search crowd 3 0 100 8 201 4096 4096 (λ _, false) (S (base.size crowd_ids)) = Some (Some (take 3 (map (tagged crowd) res)))
  ∧ results_ok (do_pipe_search 0 100 8 0 false false) crowd res
  ∧ NoDup P ∧ length P ≤ 100 ∧ (∀ i, i ∈ P → i ∈ id <$> res)
  ∧ (∀ i, i ∈ starts (do_pipe_search 0 100 8 0 false false) crowd → kept (do_pipe_search 0 100 8 0 false false) crowd P i)
  ∧ (∀ i j, i ∈ P → j ∈ nbrs (read_node crowd i) → kept (do_pipe_search 0 100 8 0 false false) crowd P j).
Proof.
  apply (beam_search_greedy crowd crowd_ids 3 0 100 8 201 4096 4096);
    [by apply crowd_ok|lia|unfold MAX_N_SECTOR_READS; lia|lia|apply crowd_ids_bound].
Defined.

Lemma beam_search_ends_witness :
  ∃ s, do_beam_search crowd 0 60 8 true 201 8192 8192 (λ h, Nat.eqb h 5) (S (base.size crowd_ids)) = Some (Some s)
  ∧ results_ok (do_pipe_search 0 60 8 0 true false) crowd (b_full_retset s)
  ∧ ∀ r, r ∈ b_full_retset s → id2page crowd (id r) ∈ b_hint_pages s.
Proof.
  destruct (beam_search_ends crowd crowd_ids 0 60 8 true 201 8192 8192 (λ h, Nat.eqb h 5)) as (s & Hs & Hr & _ & Hi);
    [by apply crowd_ok|lia|unfold MAX_N_SECTOR_READS; lia|lia|apply crowd_ids_bound|intros _; vm_compute; lia|].
  exists s. split; [exact Hs|]. split; [exact Hr|]. intros r Hin. apply (Hi eq_refl r Hin).
Defined.
End BeamProof.
