(* ===== verification/CoroSearch.v ===== *)
(** * The coroutine search ([src/search/coro_search.cpp])

    [coro_search] runs up to eight beam searches in one thread: a search issues the reads of
    its next hop and the thread turns to the others until they have landed.  A search is the
    record [CoroDataOne]; [frontier_reads_left] counts its reads that have not landed.  The
    device is a schedule: for each poll, how many reads of each search it finds finished.
    The buffers are 128 sectors, whose end is checked.  The pages are read at the location
    that equals the id ([read_loc]), and ids are returned for tags, as the code does.  [None]
    is a crash or an access out of range, an inner [None] the end of the schedule. *)

From S2P Require Import Prelude Float32 Neighbor CandidatePool PoolBatch PoolSearch Layout PipeSearch BeamSearch.
Import Pool Pipe.

Module Coro.

Definition kMaxCoroPerThread : nat := 8.

Record CoroDataOne := mkCoro {
  c_pool : CandidatePool;
  c_visited : gset Z;
  c_full_retset : list Neighbor;
  frontier : list Z;
  frontier_reads_left : nat;
  outstanding : bool
}.

Definition reset (l_search : nat) (c : CoroDataOne) : CoroDataOne :=
  mkCoro (Pool.reset l_search (l_search + 1)) ∅ [] (frontier c) (frontier_reads_left c) false.

Definition search_ends (c : CoroDataOne) : option (bool * CoroDataOne) :=
  '(stop, p) ← all_visited (c_pool c);
  Some ((stop : bool) && negb (outstanding c), mkCoro p (c_visited c) (c_full_retset c) (frontier c) (frontier_reads_left c) (outstanding c)).

(** The buffers of the reads of a batch. *)
Definition batch_fits (io_size : Z) (n : nat) : bool := forallb (Beam.buf_fits io_size Layout.SECTOR_LEN) (seq 0 n).

Definition issue_next_io_batch (beam_width : nat) (io_size : Z) (c : CoroDataOne) : option CoroDataOne :=
  '(ended, c) ← search_ends c;
  if (ended : bool) then Some c
  else
    '(f, p) ← Beam.pick_frontier beam_width (c_pool c);
    if batch_fits io_size (length f) then
      Some (mkCoro p (c_visited c) (c_full_retset c) f (length f) (if Nat.eqb (length f) 0 then outstanding c else true))
    else None.

(** [n] reads of the search have landed. *)
Definition poll (n : nat) (c : CoroDataOne) : CoroDataOne :=
  mkCoro (c_pool c) (c_visited c) (c_full_retset c) (frontier c) (frontier_reads_left c - n) (outstanding c).

Definition io_finished (c : CoroDataOne) : bool := Nat.eqb (frontier_reads_left c) 0.

Section one.
Context (ix : index) (read_loc : Z → DiskNode).

Fixpoint explore_nbrs (l : list Z) (p : CandidatePool) (v : gset Z) : option (CandidatePool * gset Z) :=
  match l with
  | [] => Some (p, v)
  | i :: l =>
      if decide (i ∈ v) then explore_nbrs l p v
      else '(_, p) ← insert p (new_neighbor i (compute_dist ix i)); explore_nbrs l p ({[i]} ∪ v)
  end.

Fixpoint explore_nodes (f : list Z) (p : CandidatePool) (v : gset Z) (rs : list Neighbor)
    : option (CandidatePool * gset Z * list Neighbor) :=
  match f with
  | [] => Some (p, v, rs)
  | i :: f =>
      let n := read_loc i in
      '(p, v) ← explore_nbrs (nbrs n) p v;
      explore_nodes f p v (rs ++ [new_neighbor i (compare_sym ix (coords n))])
  end.

Definition explore_frontier (c : CoroDataOne) : option CoroDataOne :=
  '(p, v, rs) ← explore_nodes (frontier c) (c_pool c) (c_visited c) (c_full_retset c);
  Some (mkCoro p v rs (frontier c) (frontier_reads_left c) false).

(** The start of a query: its entry points and its first reads. *)
Definition start_query (mem_L l_search : nat) (c : CoroDataOne) : option CoroDataOne :=
  let c := reset l_search c in
  '(p, v) ← Beam.compute_and_add_to_retset ix (Beam.beam_starts ix mem_L l_search) (c_pool c) (c_visited c);
  Some (mkCoro p v (c_full_retset c) (frontier c) (frontier_reads_left c) (outstanding c)).
End one.

(** The copy of the sorted results, without repetitions. *)
Fixpoint copy_ids (prev : option Z) (l : list Neighbor) (k : nat) : list (Z * float) :=
  match k, l with
  | S k', a :: l =>
      if bool_decide (prev = Some (id a)) then copy_ids (Some (id a)) l k
      else (id a, distance a) :: copy_ids (Some (id a)) l k'
  | _, _ => []
  end.

Section search.
Context (ixs : list index) (read_loc : Z → DiskNode) (mem_L l_search beam_width : nat) (io_size : Z).

(** One pass over the searches [i], [i + 1], ...: whether all had ended. *)
Fixpoint sweep (i n : nat) (sched : list (nat → nat)) (cs : list CoroDataOne) (all_finished : bool)
    : option (option (bool * list CoroDataOne * list (nat → nat))) :=
  match n with
  | 0 => Some (Some (all_finished, cs, sched))
  | S n =>
      c ← cs !! i;
      '(ended, c) ← search_ends c;
      let cs := <[i := c]> cs in
      if (ended : bool) then sweep (S i) n sched cs all_finished
      else
        match sched with
        | [] => Some None
        | ks :: sched =>
            let cs := imap (λ j, poll (ks j)) cs in
            c ← cs !! i;
            if io_finished c then
              ix ← ixs !! i;
              c ← explore_frontier ix read_loc c;
              c ← issue_next_io_batch beam_width io_size c;
              sweep (S i) n sched (<[i := c]> cs) false
            else sweep (S i) n sched cs false
        end
  end.

(** The passes; each that finds a search to be running uses up a poll. *)
Fixpoint passes (fuel : nat) (sched : list (nat → nat)) (cs : list CoroDataOne) : option (option (list CoroDataOne)) :=
  r ← sweep 0 (length ixs) sched cs true;
  match r, fuel with
  | None, _ => Some None
  | Some (true, cs, _), _ => Some (Some cs)
  | Some (false, _, _), 0 => Some None
  | Some (false, cs, sched), S fuel => passes fuel sched cs
  end.

(** [data]: the searches the thread ran before. *)
Definition coro_search (k_search : nat) (data : list CoroDataOne) (sched : list (nat → nat)) : option (option (list (list (Z * float)))) :=
  if Nat.ltb kMaxCoroPerThread (length ixs) then None
  else
    cs ← mapM (λ x : index * CoroDataOne, start_query x.1 mem_L l_search x.2) (zip ixs data);
    cs ← mapM (issue_next_io_batch beam_width io_size) cs;
    r ← passes (length sched) sched cs;
    Some (option_map (map (λ c, copy_ids None (std_sort (c_full_retset c)) k_search)) r).
End search.
End Coro.
