(* ===== verification/CoroProof.v ===== *)
(** * Correctness of the coroutine search ([src/search/coro_search.cpp])

    Each search of a thread goes through the hops of a beam search, whatever the others do and
    in whatever order their reads land.  [coro_ok] is the invariant of the beam search for one
    of them; a poll that finds a read of the search finished lowers its potential. *)

From S2P Require Import Prelude Float32 Neighbor CandidatePool PoolBatch PoolSearch Layout VisitedSet PipeSearch PipeProof GreedyPool BeamSearch BeamProof CoroSearch.
Import Pool Pipe PipeProof Greedy Beam BeamProof Coro.

Module CoroProof.

(** ** One search *)

Section one.
Context (ix : index) (read_loc : Z → DiskNode) (mem_L l_search beam_width : nat) (io_size cur_id : Z) (U : gset Z).
Local Abbreviation q := (do_pipe_search mem_L l_search beam_width 0 false false).
Context (Hix : index_ok q ix U) (Hl : 1 ≤ l_search) (Hb : 1 ≤ beam_width ≤ MAX_N_SECTOR_READS).
Context (Hio : (0 <= io_size <= Layout.SECTOR_LEN)%Z) (Hcur : ∀ i, i ∈ U → (i <= cur_id)%Z).
Context (Hloc : ∀ i, read_loc i = read_node ix i).

Local Abbreviation expand := (expand_frontier ix l_search false cur_id).
Local Abbreviation inv := (beam_ok ix mem_L l_search beam_width false io_size U).

(** The nodes whose reads are in flight, and the state of the beam search. *)
Definition todo (c : CoroDataOne) : list Z := if outstanding c then frontier c else [].

Definition to_beam (X : list Z) (c : CoroDataOne) : bstate :=
  mkB (c_pool c) (c_visited c) (c_full_retset c) [] ∅ [] (concat (blocks ix io_size <$> (X ++ todo c))).

(** [X]: the nodes expanded. *)
Record coro_ok (X : list Z) (c : CoroDataOne) : Prop := mkCoroOk {
  ck_beam : inv X (todo c) (to_beam X c);
  ck_left : outstanding c = true → frontier_reads_left c ≤ beam_width;
  ck_more : outstanding c = true → frontier c ≠ []
}.

Definition ended (c : CoroDataOne) : Prop := outstanding c = false ∧ Forall (λ a, visited a = true) (live (c_pool c)).

(** The hops left, at most one per node, and the polls of this hop. *)
Definition potential (X : list Z) (c : CoroDataOne) : nat :=
  (base.size U - length (X ++ todo c)) * (beam_width + 1) + (if outstanding c then S (frontier_reads_left c) else 0).

Lemma explore_nbrs_same l : ∀ p v p' v', add_nbrs ix cur_id l p v = Some (p', v') → explore_nbrs ix l p v = Some (p', v').
Proof.
  induction l as [|i l IH]; intros p v p' v'; cbn [add_nbrs explore_nbrs]; [done|]. destruct (cur_id <? i)%Z; [done|]. case_decide; [apply IH|].
  destruct (insert p _) as [[r p1]|]; cbn [mbind option_bind]; [apply IH|done].
Qed.

Lemma explore_same f : ∀ s s', expand f s = Some s' →
  explore_nodes ix read_loc f (b_pool s) (b_visited s) (b_full_retset s) = Some (b_pool s', b_visited s', b_full_retset s')
  ∧ b_coord_buf s' = b_coord_buf s ∧ b_coord_map s' = b_coord_map s ∧ b_hint_pages s' = b_hint_pages s ∧ b_page_ref s' = b_page_ref s.
Proof.
  induction f as [|i f IH]; intros s s'; cbn [expand_frontier explore_nodes]; [by intros [= <-]|].
  unfold Beam.compute_exact_dist_and_push. cbn [mbind option_bind b_pool b_visited]. destruct (add_nbrs _ _ _ _ _) as [[p v]|] eqn:E; cbn [mbind option_bind]; [|done].
  intros H. rewrite Hloc, (explore_nbrs_same _ _ _ _ _ E). cbn [mbind option_bind]. apply IH in H. exact H.
Qed.

Lemma batch_fits_ok n : n ≤ beam_width → batch_fits io_size n = true.
Proof.
  intros Hn. unfold batch_fits. apply forallb_forall. intros k Hk%in_seq. unfold Beam.buf_fits. apply Z.leb_le. nia.
Qed.

Lemma search_ends_ok X c :
  coro_ok X c →
  ∃ e c', search_ends c = Some (e, c') ∧ coro_ok X c' ∧ potential X c' = potential X c ∧ c_full_retset c' = c_full_retset c
  ∧ outstanding c' = outstanding c ∧ (ended c' ↔ ended c) ∧ (e = true ↔ ended c').
Proof.
  intros [Hok Hleft Hmore]. unfold search_ends.
  destruct (all_visited_ok q ix (c_pool c) _ _ (bo_pool _ _ _ _ _ _ _ _ _ _ Hok)) as (b & p & -> & Hp & Hlive & Hb'). cbn [mbind option_bind].
  eexists _, _. split; [done|]. split; [|split; [done|]].
  - split; [|done|done]. destruct Hok. by split.
  - split; [done|]. split; [done|]. unfold ended. cbn [outstanding c_pool]. rewrite andb_true_iff, negb_true_iff, Hlive. tauto.
Qed.

Lemma issue_ok X c :
  coro_ok X c → outstanding c = false →
  ∃ c', issue_next_io_batch beam_width io_size c = Some c' ∧ coro_ok X c' ∧ potential X c' ≤ potential X c ∧ (outstanding c' = true ∨ ended c').
Proof.
  intros H Ho. unfold issue_next_io_batch. destruct (search_ends_ok X c H) as (e & c1 & -> & H1 & Hpot & _ & Ho1 & _ & He). cbn [mbind option_bind].
  destruct e; [exists c1; split_and!; [done|done|lia|right; by apply He]|].
  destruct H1 as [Hok _ _]. rewrite Ho in Ho1. unfold todo in Hok. rewrite Ho1 in Hok.
  destruct (pick_frontier_ok ix mem_L l_search beam_width false U Hl Hb ltac:(done) beam_width (c_pool c1) _ _ (bo_pool _ _ _ _ _ _ _ _ _ _ Hok)) as (f & p & -> & Hp & Hlen & Hne).
  cbn [mbind option_bind]. rewrite batch_fits_ok by done. rewrite app_nil_r in Hp.
  assert (f ≠ []) as Hf.
  { intros ->. assert (false = true) as [=]. apply He. split; [done|]. apply Hne; [lia|done]. }
  rewrite (proj2 (Nat.eqb_neq _ _)) by (by destruct f). eexists. split; [done|].
  assert (Hok' : inv X f (mkB p (c_visited c1) (c_full_retset c1) [] ∅ [] (concat (blocks ix io_size <$> (X ++ f))))).
  { destruct Hok as [_ Hu Hst Hr Hc _ _ _]. split; cbn in *; done. }
  split; [by split|]. split; [|by left].
  assert (length (X ++ f) ≤ base.size U) as Hb2 by (eapply (taken_bound q ix); [exact (bo_pool _ _ _ _ _ _ _ _ _ _ Hok')|apply Hok']).
  rewrite <- Hpot. unfold potential, todo. cbn [outstanding frontier frontier_reads_left]. rewrite Ho1, app_nil_r. rewrite length_app in *. destruct f; [done|]. cbn [length] in *. nia.
Qed.

Lemma explore_ok X c :
  coro_ok X c → outstanding c = true →
  ∃ X' c', explore_frontier ix read_loc c = Some c' ∧ coro_ok X' c' ∧ potential X' c' < potential X c ∧ outstanding c' = false.
Proof.
  intros [Hok Hleft Hmore] Ho. unfold explore_frontier. unfold todo in Hok. rewrite Ho in Hok.
  destruct (expand_frontier_ok ix mem_L l_search beam_width false cur_id io_size Layout.SECTOR_LEN (λ _, false) U Hix Hl Hb Hio Hcur ltac:(done) _ _ _ Hok) as (s & Hs & Hok').
  destruct (explore_same _ _ _ Hs) as (E & Hcb & Hcm & Hh & Hpr). cbn [to_beam b_pool b_visited b_full_retset b_coord_buf b_coord_map b_hint_pages b_page_ref] in *.
  rewrite E. cbn [mbind option_bind]. eexists (X ++ frontier c), _. split; [done|]. split; [|split; [|done]].
  - split; [|done|done]. unfold to_beam, todo. cbn [outstanding frontier c_pool c_visited c_full_retset]. rewrite app_nil_r.
    destruct s. cbn in *. subst. unfold todo in Hok'. by rewrite Ho in Hok'.
  - unfold potential, todo. cbn [outstanding frontier]. rewrite Ho, app_nil_r. lia.
Qed.

Lemma poll_ok n X c : coro_ok X c → coro_ok X (poll n c) ∧ potential X (poll n c) ≤ potential X c ∧ (ended (poll n c) ↔ ended c)
  ∧ c_full_retset (poll n c) = c_full_retset c
  ∧ (outstanding c = true → 1 ≤ n → io_finished (poll n c) = false → potential X (poll n c) < potential X c).
Proof.
  intros [Hok Hleft Hmore]. split; [|split; [|split; [done|split; [done|]]]].
  - split; [done| |done]. cbn [poll outstanding frontier_reads_left]. intros Ho. specialize (Hleft Ho). lia.
  - unfold potential, poll, todo. cbn [outstanding frontier frontier_reads_left]. destruct (outstanding c); lia.
  - intros Ho Hn Hf. unfold io_finished, poll in Hf. cbn [frontier_reads_left] in Hf. apply Nat.eqb_neq in Hf.
    unfold potential, poll, todo. cbn [outstanding frontier frontier_reads_left]. rewrite Ho. lia.
Qed.

Lemma start_query_ok c0 :
  ∃ c, start_query ix mem_L l_search c0 = Some c ∧ coro_ok [] c ∧ outstanding c = false ∧ potential [] c ≤ base.size U * (beam_width + 1).
Proof.
  unfold start_query. cbn [reset c_pool c_visited c_full_retset frontier frontier_reads_left outstanding].
  destruct (beam_starts_ok ix mem_L l_search beam_width false cur_id io_size Layout.SECTOR_LEN (λ _, false) U Hix Hl Hb Hio Hcur ltac:(done) (starts q ix) _ ∅ (pool_ok_start q ix (l_search + 1) Hl) (xo_nodup _ _ _ Hix)) as (p & Hp & Hok); [set_solver|].
  change (beam_starts ix mem_L l_search) with (starts q ix). cbn [l_pool do_pipe_search] in Hp. rewrite Hp. cbn [mbind option_bind]. eexists. split; [done|].
  split; [|split; [done|]].
  - split; [|done|done]. split; cbn; try done.
    + intros i. rewrite elem_of_union, elem_of_list_to_set. intros [Hi|Hi]; [by apply (xo_starts _ _ _ Hix)|set_solver].
    + intros i Hi. by apply elem_of_union_l, elem_of_list_to_set.
    + intros i j Hi. by apply not_elem_of_nil in Hi.
  - unfold potential, todo. cbn [outstanding]. rewrite app_nil_r. cbn [length]. lia.
Qed.

(** What a search that has ended returns. *)
Definition answer (k : nat) (out : list (Z * float)) : Prop :=
  ∃ P res, out = take k (map (λ a, (id a, distance a)) res) ∧ results_ok q ix res
  ∧ NoDup P ∧ length P ≤ l_search ∧ (∀ i, i ∈ P → i ∈ id <$> res)
  ∧ (∀ i, i ∈ starts q ix → kept q ix P i)
  ∧ (∀ i j, i ∈ P → j ∈ nbrs (read_node ix i) → kept q ix P j).

Lemma copy_ids_all l : ∀ prev k, NoDup (id <$> l) → (∀ i, prev = Some i → i ∉ id <$> l) → copy_ids prev l k = take k (map (λ a, (id a, distance a)) l).
Proof.
  induction l as [|a l IH]; intros prev [|k] Hnd Hp; cbn [copy_ids map take]; try done.
  rewrite fmap_cons in Hnd, Hp. apply NoDup_cons in Hnd as [Ha Hnd].
  rewrite bool_decide_eq_false_2 by (intros ->; apply (Hp (id a)); [done|left]). f_equal. apply IH; [done|]. by intros i [= <-].
Qed.

Lemma ended_answer k X c : coro_ok X c → ended c → answer k (copy_ids None (std_sort (c_full_retset c)) k).
Proof.
  intros [Hok _ _] [Ho Hall]. unfold todo in Hok. rewrite Ho in Hok. destruct Hok as [Hp _ Hst Hr Hc _ _ _]. cbn [to_beam b_pool b_visited b_full_retset] in *.
  rewrite app_nil_r in Hp.
  assert (Hres : results_ok q ix (std_sort (c_full_retset c))) by (rewrite Hr; eapply exact_results; [exact Hix|apply Hp]).
  assert (Hin : ∀ i, i ∈ id <$> live (c_pool c) → i ∈ X).
  { intros i (a & -> & Ha)%list_elem_of_fmap. rewrite Forall_forall in Hall. by apply (po_taken _ _ _ _ _ Hp a Ha), Hall. }
  exists (id <$> live (c_pool c)), (std_sort (c_full_retset c)). split_and!.
  - apply copy_ids_all; [apply Hres|done].
  - done.
  - apply Hp.
  - rewrite length_fmap, live_length by apply Hp. pose proof (wf_cur _ (po_wf _ _ _ _ _ Hp)) as H. by rewrite (po_l _ _ _ _ _ Hp) in H.
  - intros i Hi%Hin. rewrite std_sort_Permutation, Hr, <- list_fmap_compose, list_fmap_id. done.
  - intros i Hi. by apply (po_kept _ _ _ _ _ Hp), Hst.
  - intros i j Hi Hj. by apply (po_kept _ _ _ _ _ Hp), (Hc i), Hj; apply Hin.
Qed.
End one.

(** ** The searches of a thread *)

Lemma sum_list_insert i n m ns : ns !! i = Some m → sum_list (<[i := n]> ns) + m = sum_list ns + n.
Proof.
  revert i. induction ns as [|x ns IH]; intros [|i] Hi; simplify_eq/=; [lia|]. specialize (IH i Hi). change (list_insert i n ns) with (<[i := n]> ns). lia.
Qed.

Section thread.
Context (ixs : list index) (read_loc : Z → DiskNode) (mem_L l_search beam_width : nat) (io_size cur_id : Z) (U : gset Z).
Local Abbreviation q := (do_pipe_search mem_L l_search beam_width 0 false false).
Context (Hix : ∀ ix, ix ∈ ixs → index_ok q ix U ∧ ∀ i, read_loc i = read_node ix i).
Context (Hl : 1 ≤ l_search) (Hb : 1 ≤ beam_width ≤ MAX_N_SECTOR_READS).
Context (Hio : (0 <= io_size <= Layout.SECTOR_LEN)%Z) (Hcur : ∀ i, i ∈ U → (i <= cur_id)%Z).

(** A search that waits for reads or has ended, with at most [n] polls to go. *)
Definition ok_at (ix : index) (n : nat) (c : CoroDataOne) : Prop :=
  ∃ X, coro_ok ix mem_L l_search beam_width io_size U X c ∧ potential beam_width U X c ≤ n ∧ (outstanding c = true ∨ ended c).

Record all_ok (cs : list CoroDataOne) (ns : list nat) : Prop := mkAllOk {
  al_cs : length cs = length ixs;
  al_ns : length ns = length ixs;
  al_at : ∀ j ix c n, ixs !! j = Some ix → cs !! j = Some c → ns !! j = Some n → ok_at ix n c
}.

Lemma all_ok_set i ix c n cs ns : all_ok cs ns → ixs !! i = Some ix → ok_at ix n c → all_ok (<[i := c]> cs) (<[i := n]> ns).
Proof.
  intros [Hc Hn Ha] Hi Hok. split; [by rewrite length_insert|by rewrite length_insert|]. intros j ix' c' n' Hj Hcj Hnj.
  destruct (decide (j = i)) as [->|Hne]; [|rewrite list_lookup_insert_ne in Hcj by done; rewrite list_lookup_insert_ne in Hnj by done; by eapply Ha].
  pose proof (lookup_lt_Some _ _ _ Hi). rewrite list_lookup_insert_eq in Hcj by lia. rewrite list_lookup_insert_eq in Hnj by lia. by simplify_eq.
Qed.

Lemma all_ok_poll ks cs ns : all_ok cs ns → all_ok (imap (λ j, poll (ks j)) cs) ns.
Proof.
  intros [Hc Hn Ha]. split; [by rewrite length_imap|done|]. intros j ix c' n Hj Hcj Hnj. rewrite list_lookup_imap in Hcj.
  destruct (cs !! j) as [c|] eqn:E; [|done]. injection Hcj as <-. destruct (Ha j ix c n Hj E Hnj) as (X & H & Hp & Hoe).
  destruct (poll_ok ix mem_L l_search beam_width io_size U Hl Hb (ks j) X c H) as (H' & Hp' & He & _). exists X. split; [done|]. split; [lia|].
  destruct Hoe as [?|?]; [by left|right; by apply He].
Qed.

Lemma all_ok_lookup i cs ns : all_ok cs ns → i < length ixs → ∃ ix c n, ixs !! i = Some ix ∧ cs !! i = Some c ∧ ns !! i = Some n ∧ ok_at ix n c.
Proof.
  intros [Hc Hn Ha] Hi. destruct (lookup_lt_is_Some_2 ixs i Hi) as [ix Hix']. destruct (lookup_lt_is_Some_2 cs i ltac:(lia)) as [c Hcc].
  destruct (lookup_lt_is_Some_2 ns i ltac:(lia)) as [n Hnn]. exists ix, c, n. eauto.
Qed.

(** A poll of a search that waits: it waits on, or explores and issues its next reads. *)
Lemma visit_ok ks ix n c :
  ix ∈ ixs → ok_at ix n c → outstanding c = true → 1 ≤ ks →
  let c1 := poll ks c in
  ∃ n', n' < n ∧
  if io_finished c1 then ∃ c2 c3, explore_frontier ix read_loc c1 = Some c2 ∧ issue_next_io_batch beam_width io_size c2 = Some c3 ∧ ok_at ix n' c3
  else ok_at ix n' c1.
Proof.
  intros Hin (X & H & Hp & _) Ho Hk c1. destruct (Hix ix Hin) as [Hx Hloc].
  destruct (poll_ok ix mem_L l_search beam_width io_size U Hl Hb ks X c H) as (H1 & Hp1 & _ & _ & Hlt). fold c1 in H1, Hp1, Hlt. destruct (io_finished c1) eqn:Ef.
  - destruct (explore_ok ix read_loc mem_L l_search beam_width io_size cur_id U Hx Hl Hb Hio Hcur Hloc X c1 H1 Ho) as (X' & c2 & He & H2 & Hp2 & Ho2).
    destruct (issue_ok ix mem_L l_search beam_width io_size U Hl Hb Hio X' c2 H2 Ho2) as (c3 & Hi & H3 & Hp3 & Hoe).
    exists (potential beam_width U X' c3). split; [lia|]. exists c2, c3. split; [done|]. split; [done|]. exists X'. split; [done|]. split; [lia|done].
  - exists (potential beam_width U X c1). split; [specialize (Hlt Ho Hk eq_refl); lia|]. exists X. split; [done|]. split; [lia|by left].
Qed.

Definition sched_ok (sched : list (nat → nat)) : Prop := Forall (λ ks : nat → nat, ∀ j, 1 ≤ ks j) sched.

(** The outcome of a pass from search [i] on. *)
Definition swept (i : nat) (sched : list (nat → nat)) (ns : list nat) (fin : bool) (r : option (option (bool * list CoroDataOne * list (nat → nat)))) : Prop :=
  (r = Some None ∧ length sched ≤ sum_list ns)
  ∨ ∃ b cs' sched' ns', r = Some (Some (b, cs', sched')) ∧ all_ok cs' ns' ∧ sched_ok sched' ∧ sum_list ns' + length sched ≤ sum_list ns + length sched'
    ∧ length sched' ≤ length sched ∧ (b = true → fin = true ∧ ∀ j c, i ≤ j → cs' !! j = Some c → ended c) ∧ (b = false → fin = false ∨ length sched' < length sched).

Definition sweep_spec (n : nat) : Prop := ∀ i sched cs fin ns,
  i + n = length ixs → all_ok cs ns → sched_ok sched →
  swept i sched ns fin (sweep ixs read_loc beam_width io_size i n sched cs fin)
  ∧ ∀ j c cs' sched', j < i → cs !! j = Some c → sweep ixs read_loc beam_width io_size i n sched cs fin = Some (Some (true, cs', sched')) → cs' !! j = Some c.

(** After a poll was used the pass cannot find that all have ended. *)
Lemma sweep_next n : sweep_spec n → ∀ i m m' ks sched cs ns c fin,
  i + S n = length ixs → ns !! i = Some m → m' < m → all_ok (<[i := c]> cs) (<[i := m']> ns) → sched_ok sched →
  let r := sweep ixs read_loc beam_width io_size (S i) n sched (<[i := c]> cs) false in
  swept i (ks :: sched) ns fin r ∧ ∀ cs' sched', r ≠ Some (Some (true, cs', sched')).
Proof.
  intros IH i m m' ks sched cs ns c fin Hn Hm Hlt Hall Hs r. destruct (IH (S i) sched _ false _ ltac:(lia) Hall Hs) as [Hsw _]. fold r in Hsw.
  pose proof (sum_list_insert i m' m ns Hm) as Hsum. split.
  - destruct Hsw as [[Er Hle]|(b & cs' & sched' & ns' & Er & H2 & H3 & H4 & H5 & H6 & H7)]; [left; split; [done|simpl; lia]|].
    right. exists b, cs', sched', ns'. split_and!; try done; [simpl; lia|simpl; lia|intros ->; by destruct (H6 eq_refl)|intros _; right; simpl; lia].
  - intros cs' sched' Er. destruct Hsw as [[Er' _]|(b & cs2 & sched2 & ns' & Er' & _ & _ & _ & _ & H6 & _)]; rewrite Er in Er'; [done|].
    injection Er' as <- <- <-. by destruct (H6 eq_refl).
Qed.

Lemma sweep_ok n : ∀ i sched cs fin ns,
  i + n = length ixs → all_ok cs ns → sched_ok sched →
  swept i sched ns fin (sweep ixs read_loc beam_width io_size i n sched cs fin)
  ∧ ∀ j c cs' sched', j < i → cs !! j = Some c → sweep ixs read_loc beam_width io_size i n sched cs fin = Some (Some (true, cs', sched')) → cs' !! j = Some c.
Proof.
  induction n as [|n IH]; intros i sched cs fin ns Hn Hall Hs; cbn [sweep].
  { split; [|by intros j c cs' sched' _ Hj [= -> -> ->]]. right. exists fin, cs, sched, ns. split_and!; try done; [|destruct fin; auto].
    intros ->. split; [done|]. intros j c Hj Hc. apply lookup_lt_Some in Hc. pose proof (al_cs _ _ Hall). lia. }
  destruct (all_ok_lookup i cs ns Hall ltac:(lia)) as (ix & c & m & Hi & Hc & Hm & X & H & Hp & Hoe). rewrite Hc. cbn [mbind option_bind].
  destruct (search_ends_ok ix mem_L l_search beam_width io_size U Hb Hio X c H) as (e & c1 & -> & H1 & Hp1 & _ & Ho1 & Hsame & He). cbn [mbind option_bind].
  pose proof (lookup_lt_Some _ _ _ Hc) as Hlt. destruct e.
  - assert (Hok1 : ok_at ix m c1) by (exists X; split; [done|]; split; [lia|right; by apply He]).
    pose proof (all_ok_set i ix c1 m cs ns Hall Hi Hok1) as Hall1. rewrite (list_insert_id ns) in Hall1 by done.
    destruct (IH (S i) sched (<[i:=c1]> cs) fin ns ltac:(lia) Hall1 Hs) as [Hsw Hkeep]. split.
    + destruct Hsw as [?|(b & cs' & sched' & ns' & Er & H2 & H3 & H4 & H5 & H6 & H7)]; [by left|]. right. exists b, cs', sched', ns'. split_and!; try done.
      intros ->. destruct (H6 eq_refl) as [-> Hend]. split; [done|]. intros j cj Hj Hcj. destruct (decide (j = i)) as [->|]; [|apply (Hend j); [lia|done]].
      rewrite (Hkeep i c1 cs' sched' ltac:(lia) ltac:(by apply list_lookup_insert_eq) Er) in Hcj. injection Hcj as <-. by apply He.
    + intros j cj cs' sched' Hj Hcj Er. apply (Hkeep j cj cs' sched'); [lia| |done]. rewrite list_lookup_insert_ne by lia. done.
  - assert (Ho : outstanding c1 = true).
    { rewrite Ho1. destruct Hoe as [?|Hend]; [done|]. apply Hsame in Hend. by apply He in Hend. }
    destruct sched as [|ks sched]; [split; [left; simpl; split; [done|lia]|done]|]. apply Forall_cons in Hs as [Hks Hs].
    assert (Hok1 : ok_at ix m c1) by (exists X; split; [done|]; split; [lia|by left]).
    pose proof (all_ok_set i ix c1 m cs ns Hall Hi Hok1) as Hall1. rewrite (list_insert_id ns) in Hall1 by done.
    pose proof (all_ok_poll ks _ _ Hall1) as Hall2. rewrite list_lookup_imap, list_lookup_insert_eq by done. cbn [fmap option_fmap option_map mbind option_bind].
    destruct (visit_ok (ks i) ix m c1 ltac:(by eapply list_elem_of_lookup_2) Hok1 Ho (Hks i)) as (m' & Hm' & Hv).
    set (cs2 := imap (λ j, poll (ks j)) (<[i:=c1]> cs)) in *. destruct (io_finished (poll (ks i) c1)).
    + destruct Hv as (c2 & c3 & He2 & Hi3 & Hok3). rewrite Hi. cbn [mbind option_bind]. rewrite He2. cbn [mbind option_bind]. rewrite Hi3. cbn [mbind option_bind].
      destruct (sweep_next n IH i m m' ks sched cs2 ns c3 fin) as [Hsw Hno]; try done; [by eapply all_ok_set|].
      split; [exact Hsw|]. intros j c' cs' sched' _ _ Er. by apply Hno in Er.
    + rewrite <- (list_insert_id cs2 i (poll (ks i) c1)) by (unfold cs2; by rewrite list_lookup_imap, list_lookup_insert_eq).
      destruct (sweep_next n IH i m m' ks sched cs2 ns (poll (ks i) c1) fin) as [Hsw Hno]; try done; [by eapply all_ok_set|].
      split; [exact Hsw|]. intros j c' cs' sched' _ _ Er. by apply Hno in Er.
Qed.

Lemma passes_ok fuel : ∀ sched cs ns, length sched ≤ fuel → all_ok cs ns → sched_ok sched →
  (passes ixs read_loc beam_width io_size fuel sched cs = Some None ∧ length sched ≤ sum_list ns)
  ∨ ∃ cs' ns', passes ixs read_loc beam_width io_size fuel sched cs = Some (Some cs') ∧ all_ok cs' ns' ∧ ∀ j c, cs' !! j = Some c → ended c.
Proof.
  induction fuel as [|fuel IH]; intros sched cs ns Hf Hall Hs; cbn [passes];
    destruct (sweep_ok (length ixs) 0 sched cs true ns eq_refl Hall Hs) as [[[-> Hle]|(b & cs' & sched' & ns' & -> & H2 & H3 & H4 & H5 & H6 & H7)] _]; cbn [mbind option_bind];
    try (by left); destruct b.
  1,3: right; exists cs', ns'; split; [done|]; split; [done|]; intros j c; apply (H6 eq_refl); lia.
  - destruct (H7 eq_refl) as [?|?]; [done|lia].
  - destruct (H7 eq_refl) as [?|Hlt]; [done|]. destruct (IH sched' cs' ns' ltac:(lia) H2 H3) as [[-> Hle]|(cs2 & ns2 & -> & ?)]; [left; split; [done|lia]|right; eauto].
Qed.

(** The searches before their first reads, and after. *)
Lemma mapM_total {A B} (f : A → option B) (P : A → B → Prop) l :
  (∀ x, x ∈ l → ∃ y, f x = Some y ∧ P x y) → ∃ ys, mapM f l = Some ys ∧ Forall2 P l ys.
Proof.
  induction l as [|x l IH]; intros H; [by exists []|]. destruct (H x ltac:(left)) as (y & Hy & HP). destruct IH as (ys & Hys & HF); [intros; apply H; by right|].
  exists (y :: ys). cbn [mapM]. rewrite Hy. cbn [mbind option_bind]. rewrite Hys. split; [done|by constructor].
Qed.

Lemma begin_ok data :
  length ixs ≤ length data →
  ∃ cs cs', mapM (λ x : index * CoroDataOne, start_query x.1 mem_L l_search x.2) (zip ixs data) = Some cs
  ∧ mapM (issue_next_io_batch beam_width io_size) cs = Some cs' ∧ all_ok cs' (replicate (length ixs) (base.size U * (beam_width + 1))).
Proof.
  intros Hd.
  destruct (mapM_total (λ x : index * CoroDataOne, start_query x.1 mem_L l_search x.2)
    (λ x c, coro_ok x.1 mem_L l_search beam_width io_size U [] c ∧ outstanding c = false ∧ potential beam_width U [] c ≤ base.size U * (beam_width + 1)) (zip ixs data)) as (cs & Hcs & HF).
  { intros [ix c0] Hx. assert (ix ∈ ixs) as Hin. { apply list_elem_of_lookup in Hx as [j Hj]. apply lookup_zip_Some in Hj as [Hj _]. by eapply list_elem_of_lookup_2. }
    destruct (Hix ix Hin) as [Hx' Hloc]. by apply (start_query_ok ix read_loc mem_L l_search beam_width io_size cur_id U Hx' Hl Hb Hio Hcur Hloc c0). }
  pose proof (Forall2_length _ _ _ HF) as Hlen. rewrite length_zip_with, Nat.min_l in Hlen by done.
  assert (Hat : ∀ j ix c, ixs !! j = Some ix → cs !! j = Some c → coro_ok ix mem_L l_search beam_width io_size U [] c ∧ outstanding c = false
              ∧ potential beam_width U [] c ≤ base.size U * (beam_width + 1)).
  { intros j ix c Hj Hc. destruct (lookup_lt_is_Some_2 data j) as [d Hdj]; [apply lookup_lt_Some in Hj; lia|].
    apply (Forall2_lookup_lr _ _ _ j (ix, d) c HF); [|done]. apply lookup_zip_Some. done. }
  destruct (mapM_total (issue_next_io_batch beam_width io_size) (λ c c', ∀ ix, coro_ok ix mem_L l_search beam_width io_size U [] c → outstanding c = false →
      potential beam_width U [] c ≤ base.size U * (beam_width + 1) → ok_at ix (base.size U * (beam_width + 1)) c') cs) as (cs' & Hcs' & HF').
  { intros c (j & Hj)%list_elem_of_lookup. destruct (lookup_lt_is_Some_2 ixs j) as [ix Hjx]; [apply lookup_lt_Some in Hj; lia|].
    destruct (Hat j ix c Hjx Hj) as (H & Ho & Hp). destruct (issue_ok ix mem_L l_search beam_width io_size U Hl Hb Hio [] c H Ho) as (c' & Hc' & _).
    exists c'. split; [done|]. intros ix' H' _ Hp'. destruct (issue_ok ix' mem_L l_search beam_width io_size U Hl Hb Hio [] c H' Ho) as (c2 & Hc2 & H2 & Hp2 & Hoe).
    rewrite Hc' in Hc2. injection Hc2 as <-. exists []. split; [done|]. split; [lia|done]. }
  exists cs, cs'. split; [done|]. split; [done|]. pose proof (Forall2_length _ _ _ HF') as Hlen'. split; [lia|by rewrite length_replicate|].
  intros j ix c' n Hj Hc [-> _]%lookup_replicate. destruct (lookup_lt_is_Some_2 cs j) as [c Hcj]; [apply lookup_lt_Some in Hj; lia|].
  destruct (Hat j ix c Hj Hcj) as (H & Ho & Hp). by apply (Forall2_lookup_lr _ _ _ j c c' HF' Hcj Hc ix).
Qed.

Lemma coro_search_ok k data sched :
  length ixs ≤ kMaxCoroPerThread → length ixs ≤ length data → sched_ok sched → length ixs * (base.size U * (beam_width + 1)) < length sched →
  ∃ outs, coro_search ixs read_loc mem_L l_search beam_width io_size k data sched = Some (Some outs) ∧ length outs = length ixs
  ∧ ∀ v ix out, ixs !! v = Some ix → outs !! v = Some out → answer ix mem_L l_search beam_width k out.
Proof.
  intros Hmax Hd Hs Hlong. unfold coro_search. rewrite (proj2 (Nat.ltb_ge _ _)) by done.
  destruct (begin_ok data Hd) as (cs & cs' & -> & Hcs' & Hall). cbn [mbind option_bind]. rewrite Hcs'. cbn [mbind option_bind].
  assert (sum_list (replicate (length ixs) (base.size U * (beam_width + 1))) = length ixs * (base.size U * (beam_width + 1))) as Hsum by apply sum_list_replicate.
  destruct (passes_ok (length sched) sched cs' _ (le_n _) Hall Hs) as [[_ Hle]|(cs2 & ns & -> & H2 & Hend)]; [lia|].
  cbn [mbind option_bind option_map]. eexists. split; [done|]. split; [rewrite length_map; apply H2|].
  intros v ix out Hv Ho. change (map (λ c, copy_ids None (std_sort (c_full_retset c)) k) cs2) with ((λ c, copy_ids None (std_sort (c_full_retset c)) k) <$> cs2) in Ho.
  apply list_lookup_fmap_Some in Ho as (c & -> & Hc).
  destruct (lookup_lt_is_Some_2 ns v) as [n Hn]; [pose proof (al_ns _ _ H2); apply lookup_lt_Some in Hv; lia|].
  destruct (al_at _ _ H2 v ix c n Hv Hc Hn) as (X & H & _ & _).
  apply (ended_answer ix mem_L l_search beam_width io_size U (proj1 (Hix ix ltac:(by eapply list_elem_of_lookup_2))) k X c H). by apply (Hend v).
Qed.
End thread.

(** ** The theorems *)

Lemma set_bound (U : gset Z) : ∃ m, ∀ i, i ∈ U → (i <= m)%Z.
Proof.
  induction U as [|x U Hx [m IH]] using set_ind_L; [exists 0%Z; set_solver|]. exists (Z.max x m). intros i [->%elem_of_singleton|Hi]%elem_of_union; [lia|].
  specialize (IH i Hi). lia.
Qed.

(** C32: the coroutine search answers each of its up to eight queries with the fixed point of
    the greedy walk, however the reads of the queries interleave.  On an index that was never
    updated (the node with an id lies at that location) whose nodes fit a sector, with a beam
    of at most 128, it ends once it has polled [N * n * (beam_width + 1)] times, for [N] queries
    and [n] nodes, if every poll finds a read of each waiting query finished; each query gets
    ids of distinct nodes in the order of their exact distances, among them a set [P] of at
    most [l] nodes closed under neighbours up to the size of the pool. *)
Theorem coro_search_greedy ixs read_loc mem_L l beam_width io_size U k data sched :
  (∀ ix, ix ∈ ixs → index_ok (do_pipe_search mem_L l beam_width 0 false false) ix U ∧ ∀ i, read_loc i = read_node ix i) →
  1 ≤ l → 1 ≤ beam_width ≤ MAX_N_SECTOR_READS → (0 <= io_size <= Layout.SECTOR_LEN)%Z →
  length ixs ≤ kMaxCoroPerThread → length ixs ≤ length data →
  sched_ok sched → length ixs * (base.size U * (beam_width + 1)) < length sched →
  ∃ outs, coro_search ixs read_loc mem_L l beam_width io_size k data sched = Some (Some outs) ∧ length outs = length ixs
  ∧ ∀ v ix out, ixs !! v = Some ix → outs !! v = Some out → answer ix mem_L l beam_width k out.
Proof.
  intros Hix Hl Hb Hio Hmax Hd Hs Hlong. destruct (set_bound U) as [m Hm]. by apply (coro_search_ok ixs read_loc mem_L l beam_width io_size m U).
Qed.

(** The start of a thread. *)
Definition idle : CoroDataOne := mkCoro (Pool.reset 1 2) ∅ [] [] 0 false.

(** Two queries on the same graph with different distances. *)
Definition crowd_far : index :=
  mkIndex (read_node crowd) (λ i, z_dist (300 - i)) (λ v, z_dist (300 - hd 0%Z v)) (id2page crowd) (id2tag crowd) 0 [].

Lemma crowd_far_ok q : mem_L q = 0 → index_ok q crowd_far crowd_ids.
Proof.
  intros Hm. pose proof (crowd_ok q Hm) as [_ _ H3 H4 H5]. split; [intros; apply z_dist_not_nan|intros; apply z_dist_not_nan|exact H3| |];
    unfold starts in *; rewrite Hm in *; done.
Qed.

Lemma coro_search_greedy_witness :
  ∃ outs, coro_search [crowd; crowd_far] (read_node crowd) 0 4 2 4096 3 (replicate 8 idle) (replicate 1300 (λ j, S j)) = Some (Some outs)
  ∧ length outs = 2.
Proof.
  destruct (coro_search_greedy [crowd; crowd_far] (read_node crowd) 0 4 2 4096 crowd_ids 3 (replicate 8 idle) (replicate 1300 (λ j, S j)))
    as (outs & H & Hlen & _).
  - intros ix Hin. apply elem_of_cons in Hin as [->|Hin]; [split; [by apply crowd_ok|done]|]. apply list_elem_of_singleton in Hin as ->. split; [by apply crowd_far_ok|done].
  - lia.
  - unfold MAX_N_SECTOR_READS. lia.
  - by vm_compute.
  - unfold kMaxCoroPerThread. simpl. lia.
  - rewrite length_replicate. simpl. lia.
  - apply Forall_replicate. intros j. lia.
  - rewrite length_replicate. apply Nat.ltb_lt. vm_compute. reflexivity.
  - exists outs. split; [exact H|exact Hlen].
Defined.

(** the coroutine search reads the node of an id at the location of the same number.
    After an update has moved node 2 to location 5 and node 5 to location 2 it takes one for
    the other: the vector of the wrong node gives the distance and its neighbours are
    followed. *)
Theorem coro_reads_by_id :
  let moved := λ i, read_node crowd (if Z.eqb i 2 then 5 else if Z.eqb i 5 then 2 else i)%Z in
  coro_search [crowd] (read_node crowd) 0 4 2 4096 4 (replicate 8 idle) (replicate 60 (λ _, 2))
  = Some (Some [[(0%Z, z_dist 0); (1%Z, z_dist 1); (2%Z, z_dist 2); (3%Z, z_dist 3)]])
  ∧ coro_search [crowd] moved 0 4 2 4096 4 (replicate 8 idle) (replicate 60 (λ _, 2))
  = Some (Some [[(0%Z, z_dist 0); (1%Z, z_dist 1); (3%Z, z_dist 3); (2%Z, z_dist 5)]]).
Proof. split; vm_compute; reflexivity. Qed.
End CoroProof.
