(* ===== verification/AttrInstances.v ===== *)
(** * The attribute indexes behind the selectors

    The label index and the range index as records of operations, the laws the
    selectors rely on proved of them, and trees over concrete indexes. *)

From S2P Require Import Prelude Float32 Bytes FilterUtils StringAttr Attributes LabelIndex RangeIndex Selector.
From stdpp Require Import sorting.

Module Instances.
Import Ids Sel.
Open Scope Z_scope.

Section label.
(** The precision estimates are floating-point heuristics of the query. *)
Context (precision precision_and : list Z → option double).

Definition label_base (t : Label.InvertedLabelAttrIndex) : AttrIndex :=
  mkAttrIndex (Label.n_vectors t)
    (λ q, Some (Label.estimate_count t q)) precision
    (λ q, Some (Label.estimate_prefilter_reads t q))
    (λ q, Some (Label.pre_filter t q))
    (λ q, Some (Label.estimate_infilter_reads t q))
    (λ q, Some (Label.prepare_in_filter t q))
    (λ v q l, Label.is_member_approx t v q l).

Definition label_ops (t : Label.InvertedLabelAttrIndex) : InvertedOps :=
  mkInverted (label_base t)
    (λ q, Some (Label.estimate_count_and t q)) precision_and
    (λ q, Some (Label.estimate_prefilter_reads_and t q))
    (λ q, Some (Label.pre_filter_and t q))
    (λ q, Some (Label.estimate_infilter_reads_and t q))
    (λ q, Some (Label.prepare_in_filter_and t q))
    (λ v q l, Label.is_member_approx_and t v q l).

Lemma has_elem row x : has row x = true ↔ x ∈ row.
Proof. apply binary_search_elem. Qed.

Lemma label_index_spec t row :
  Label.label_ok t →
  (∀ l v, 0 <= l → v ∈ Label.label_list t l ↔ 0 <= v < Label.n_vectors t ∧ l ∈ row v) →
  LabelIndexSpec (label_ops t) (Label.n_vectors t) row.
Proof.
  intros Hok Hrow.
  assert (∀ q, Forall is_u32 q → ∀ l, l ∈ q → 0 <= l) as Hpos.
  { intros q Hq l Hl. rewrite Forall_forall in Hq. by destruct (Hq l Hl). }
  split; simpl.
  - intros q Hq. destruct (Label.pre_filter_spec t Hok q (Hpos q Hq)) as [Hs He].
    eexists. split_and!; [done|done|]. intros v. rewrite He, existsb_elem. setoid_rewrite has_elem. split.
    + intros (l & Hl & Hv). apply Hrow in Hv as [Hv Hr]; [|by eapply Hpos]. eauto.
    + intros [Hv (l & Hl & Hr)]. exists l. split; [done|]. apply Hrow; [by eapply Hpos|done].
  - intros q Hq Hne. destruct (Label.pre_filter_and_spec t Hok q (Hpos q Hq) Hne) as [Hs He].
    eexists. split_and!; [done|done|]. intros v. rewrite He, forallb_elem. setoid_rewrite has_elem. split.
    + intros H. split; [|intros l Hl; apply Hrow; eauto].
      destruct q as [|l q]; [done|]. apply (Hrow l); [by eapply Hpos; [|left]|]. apply H. by left.
    + intros [Hv H] l Hl. apply Hrow; eauto.
  - intros q Hq. eexists. split; [done|]. intros v Hv.
    destruct (Label.approx_total t Hok v q (Label.prepare_in_filter t q) Hv) as [[b Hb] _].
    exists b. split; [done|]. intros (l & Hl & Hr)%existsb_elem. apply has_elem in Hr.
    rewrite (Label.approx_spec t Hok v q l (Hpos q Hq) Hl) in Hb; [by simplify_eq|]. apply Hrow; eauto.
  - intros q Hq. eexists. split; [done|]. intros v Hv.
    destruct (Label.approx_total t Hok v q (Label.prepare_in_filter_and t q) Hv) as [_ [b Hb]].
    exists b. split; [done|]. intros H. rewrite forallb_elem in H. setoid_rewrite has_elem in H.
    rewrite (Label.approx_and_spec t Hok v q (Hpos q Hq) Hv) in Hb; [by simplify_eq|].
    intros l Hl. apply Hrow; eauto.
Qed.

(** A saved index keeps its promises about the rows it was built from. *)
Lemma saved_label_index rows bloom_bytes :
  Label.rows_ok rows bloom_bytes →
  ∃ t, Label.save (Label.load_from_rows (Label.new_index bloom_bytes) rows) = Some t
    ∧ Label.n_vectors t = Z.of_nat (length rows)
    ∧ LabelIndexSpec (label_ops t) (Z.of_nat (length rows)) (λ v, default [] (rows !! Z.to_nat v)).
Proof.
  intros Hr. destruct (Label.save_correct rows bloom_bytes Hr) as (t & Hs & Hok & Hn & _ & Hl).
  exists t. split_and!; [done|done|]. rewrite <- Hn. apply label_index_spec; [done|]. intros l v Hl0.
  rewrite Hl, Label.ids_from_elem by done. split.
  - intros (i & row & Hi & Hlr & ->). pose proof (lookup_lt_Some _ _ _ Hi). split; [lia|].
    by rewrite Z.add_0_l, Nat2Z.id, Hi.
  - intros [Hv Hlr]. destruct (rows !! Z.to_nat v) as [row|] eqn:Hi; [|set_solver].
    exists (Z.to_nat v), row. split_and!; [done|done|lia].
Qed.
End label.

Section range.
Context (precision : list Z → option double).

Definition range_ops (t : Range.SortedRangeAttrIndex) : AttrIndex :=
  mkAttrIndex (Range.n_vectors t)
    (Range.estimate_count t) precision (Range.estimate_prefilter_reads t) (Range.pre_filter t)
    (λ _, Some 0) (λ _, Some []) (λ v q _, Range.is_member_approx t v q).

Lemma sorted_le_strict l : Sorted Z.le l → NoDup l → id_list l.
Proof.
  intros Hs%Sorted_StronglySorted Hn; [|intros x y z; lia].
  induction Hs as [|x l Hs IH Hf]; [constructor|]. apply NoDup_cons in Hn as [Hx Hn].
  apply id_list_cons. split; [|auto]. intros y Hy. rewrite Forall_forall in Hf. specialize (Hf y Hy).
  destruct (decide (x = y)) as [->|]; [done|]. lia.
Qed.

(** A saved index keeps its promise about the values it was built from. *)
Lemma saved_range_index rows attrs :
  Range.values_ok rows attrs →
  ∃ t, Range.open_saved rows = Some t
    ∧ RangeIndexSpec (range_ops t) (Z.of_nat (length attrs)) (λ v, default 0 (attrs !! Z.to_nat v)).
Proof.
  intros Hv. destruct (Range.open_saved_spec rows attrs Hv) as (t & Ho & Hok & Hd & _).
  exists t. split; [done|]. split. intros q (l & r & -> & Hl & Hr & Hlr). simpl.
  destruct (Range.range_pre_filter_spec t _ Hok l r Hlr) as (res & Hp & Hs & Hin).
  exists res. split_and!; [done| |].
  - apply sorted_le_strict; [done|]. rewrite (Range.pre_filter_eq t _ Hok l r Hlr) in Hp. simplify_eq.
    rewrite (merge_sort_Permutation Z.le). unfold Range.delta_ids. rewrite Hd, map_to_list_empty. simpl.
    rewrite app_nil_r. unfold Range.selected. destruct (Range.bracket t l r) as [i j].
    pose proof (Range.sorted_data_ids attrs) as Hn.
    eapply sublist_NoDup; [exact Hn|]. etrans; [apply sublist_take|]. etrans; [apply sublist_drop|].
    etrans; [apply sublist_take|]. apply sublist_drop.
  - intros v. rewrite Hin, Hd. cbn [default from_option]. rewrite andb_true_iff, Z.leb_le, Z.ltb_lt. split.
    + intros [(a & Ha & Hr')|(a & ids & Ha & _)]; [|by rewrite lookup_empty in Ha].
      rewrite Range.sorted_data_perm, Range.numbered_elem in Ha. destruct Ha as [Hv0 Ha]. rewrite Ha. simpl.
      apply lookup_lt_Some in Ha. lia.
    + intros [Hvr Hr']. left. destruct (lookup_lt_is_Some_2 attrs (Z.to_nat v)) as [a Ha]; [lia|].
      rewrite Ha in Hr'. simpl in Hr'. exists a. rewrite Range.sorted_data_perm, Range.numbered_elem.
      split; [split; [lia|done]|lia].
Qed.
End range.

(** ** A concrete database

    Four vectors with labels [1], [1; 2], [2] and none, and values 30, 10, 20, 10:
    the label index at address 1, the range index at address 2. *)

Definition demo_labels : list (list Z) := [[1]; [1; 2]; [2]; []].
Definition demo_values : list Z := [30; 10; 20; 10].

Definition no_precision (_ : list Z) : option double := Some d_one.

Definition demo_label_index : option Label.InvertedLabelAttrIndex :=
  Label.save (Label.load_from_rows (Label.new_index 4) demo_labels).
Definition demo_range_index : option Range.SortedRangeAttrIndex := Range.open_saved (map (λ v, [v]) demo_values).

Definition demo_heap : gmap Z index :=
  match demo_label_index, demo_range_index with
  | Some t, Some r => {[1 := ILabel (label_ops no_precision no_precision t); 2 := IRange (range_ops no_precision r)]}
  | _, _ => ∅
  end.

Definition demo_db (v : Z) : gmap Z (list Z) :=
  {[0 := default [] (demo_labels !! Z.to_nat v); 1 := [default 0 (demo_values !! Z.to_nat v)]]}.

(** Labels 1 and 2 under keys 0 and 1, the interval [10, 20) under key 2. *)
Definition demo_query : gmap Z (list Z) := {[0 := [1]; 1 := [2]; 2 := [10; 20]]}.

Lemma demo_labels_ok : Label.rows_ok demo_labels 4.
Proof.
  split; try done.
  - unfold demo_labels. rewrite !Forall_cons. split_and!; try done; apply (bool_decide_unpack _); by vm_compute.
  - unfold demo_labels. rewrite !Forall_cons. split_and!; try done; rewrite ?Forall_cons; split_and?; try done; lia.
Qed.

Lemma demo_values_ok : Range.values_ok (map (λ v, [v]) demo_values) demo_values.
Proof. split; [done|repeat constructor; unfold is_u32; lia|simpl; lia]. Qed.

Lemma demo_leaves :
  (∃ ix, demo_heap !! 1 = Some (ILabel ix) ∧ LabelIndexSpec ix 4 (λ v, default [] (demo_labels !! Z.to_nat v)))
  ∧ (∃ ix, demo_heap !! 2 = Some (IRange ix) ∧ RangeIndexSpec ix 4 (λ v, default 0 (demo_values !! Z.to_nat v))).
Proof.
  destruct (saved_label_index no_precision no_precision demo_labels 4 demo_labels_ok) as (t & Ht & _ & Hls).
  destruct (saved_range_index no_precision (map (λ v, [v]) demo_values) demo_values demo_values_ok) as (r & Hr & Hrs).
  unfold demo_heap, demo_label_index, demo_range_index. rewrite Ht, Hr. split; eexists; (split; [|done]).
  - by rewrite lookup_insert_eq.
  - rewrite lookup_insert_ne by done. by rewrite lookup_singleton_eq.
Qed.

Lemma demo_stored_labels : stored 4 demo_db 0 (λ v, default [] (demo_labels !! Z.to_nat v)).
Proof. done. Qed.
Lemma demo_stored_values : stored 4 demo_db 1 (λ v, [default 0 (demo_values !! Z.to_nat v)]).
Proof. done. Qed.

Definition demo_or (key : Z) : Selector := new_LabelOrSelector key 0 1.
Definition demo_range : Selector := new_RangeSelector 2 1 2.

(** Label 1 and value outside [10, 20). *)
Definition demo_tree : Selector := new_AndSelector [demo_or 0; new_NotSelector demo_range 4].
(** Neither label 1 nor label 2 required together: NOT (1 AND 2). *)
Definition demo_not : Selector := new_NotSelector (new_AndSelector [demo_or 0; demo_or 1]) 4.

Lemma demo_or_wf key l :
  demo_query !! key = Some l → Forall is_u32 l → wf demo_heap 4 demo_db demo_query (demo_or key).
Proof.
  intros Hq Hl. destruct demo_leaves as [(ix & Hp & Hs) _].
  exists ix, (λ v, default [] (demo_labels !! Z.to_nat v)), l. split_and!; try done.
Qed.

Lemma demo_u32 (l : list Z) : forallb (λ x, (0 <=? x) && (x <? 2 ^ 32)) l = true → Forall is_u32 l.
Proof.
  intros H. apply Forall_forall. intros x Hx. rewrite forallb_elem in H. specialize (H x Hx).
  apply andb_true_iff in H as [H1 H2]. apply Z.leb_le in H1. apply Z.ltb_lt in H2. done.
Qed.

Lemma demo_tree_wf : wf demo_heap 4 demo_db demo_query demo_tree.
Proof.
  split; [done|]. split; [by apply (demo_or_wf 0 [1]); [|apply demo_u32]|]. split; [|done]. split; [done|].
  destruct demo_leaves as [_ (ix & Hp & Hs)]. exists ix, (λ v, default 0 (demo_values !! Z.to_nat v)), [10; 20].
  split_and!; try done. exists 10, 20. unfold is_u32. split_and!; [done|lia..].
Qed.

Lemma selector_strict_exact_witness :
  ∃ ids, sel_pre_filter demo_heap demo_tree demo_query true = Some ids ∧ ids = [0].
Proof.
  destruct (selector_strict_exact demo_heap 4 demo_db demo_query demo_tree ltac:(unfold is_u32; lia) demo_tree_wf)
    as (ids & Hp & Hs & Hin & _). exists ids. split; [exact Hp|].
  revert Hp. vm_compute. intros [= <-]. reflexivity.
Defined.

Lemma selector_lax_superset_witness :
  ∃ ids, sel_pre_filter demo_heap demo_tree demo_query false = Some ids ∧ 0 ∈ ids.
Proof.
  destruct (selector_lax_superset demo_heap 4 demo_db demo_query demo_tree ltac:(unfold is_u32; lia) demo_tree_wf
    ltac:(vm_compute; reflexivity)) as (ids & Hp & _ & _ & Hin).
  exists ids. split; [exact Hp|]. apply Hin; [lia|vm_compute; reflexivity].
Defined.

(** Label 1 or label 2. *)
Definition demo_union : Selector := new_OrSelector [demo_or 0; demo_or 1].

Lemma selector_infilter_sound_witness :
  ∃ s', sel_prepare_in_filter demo_heap demo_union demo_query = Some s'
    ∧ sel_is_member_approx demo_heap s' 2 demo_query = Some true.
Proof.
  destruct (selector_infilter_sound demo_heap 4 demo_db demo_query demo_union ltac:(unfold is_u32; lia))
    as (s' & Hp & Hm).
  - split; [by apply (demo_or_wf 0 [1]); [|apply demo_u32]|]. split; [|done].
    by apply (demo_or_wf 1 [2]); [|apply demo_u32].
  - vm_compute. tauto.
  - vm_compute. reflexivity.
  - exists s'. split; [exact Hp|]. destruct (Hm 2 ltac:(lia)) as (b & Hb & Hi). rewrite Hb. f_equal. apply Hi.
    vm_compute. reflexivity.
Defined.

Lemma selector_locks_cover_witness :
  ∃ d s2, estimate_selectivity demo_heap (copy demo_union) demo_query = Some (d, demo_union)
    ∧ sel_prepare_in_filter demo_heap demo_union demo_query = Some s2 ∧ NoDup (attr_indexes_ s2).
Proof.
  assert (∃ d, estimate_selectivity demo_heap (copy demo_union) demo_query = Some (d, demo_union)) as [d He]
    by (eexists; vm_compute; reflexivity).
  assert (∃ s2, sel_prepare_in_filter demo_heap demo_union demo_query = Some s2) as [s2 Hp]
    by (eexists; vm_compute; reflexivity).
  exists d, s2. split; [exact He|]. split; [exact Hp|].
  exact (proj1 (selector_locks_cover demo_heap demo_heap demo_query demo_union demo_union d s2 0 He Hp)).
Defined.

(** After the estimate the AND node below the NOT holds 2/4 for both branches. *)
Definition demo_not_estimated : Selector :=
  NotSelector (AndSelector [1] [(demo_or 0, ddiv (d_of_Z 2) (d_of_Z 4)); (demo_or 1, ddiv (d_of_Z 2) (d_of_Z 4))])
    4 [].

Lemma selector_not_over_and_misses_witness :
  (∃ d, estimate_selectivity demo_heap demo_not demo_query = Some (d, demo_not_estimated))
  ∧ is_member demo_not_estimated demo_query (demo_db 0) = Some true
  ∧ ∃ ids, sel_pre_filter demo_heap demo_not_estimated demo_query false = Some ids ∧ 0 ∉ ids.
Proof.
  split; [eexists; vm_compute; reflexivity|].
  destruct (selector_not_over_and_misses demo_heap 4 demo_db demo_query [1] (demo_or 0) (demo_or 1)
    (ddiv (d_of_Z 2) (d_of_Z 4)) (ddiv (d_of_Z 2) (d_of_Z 4)) [] 0) as (Hm & Hp & _).
  - unfold is_u32. lia.
  - reflexivity.
  - split; [reflexivity|]. split; [discriminate|].
    split; [by apply (demo_or_wf 0 [1]); [|apply demo_u32]|]. split; [|done].
    by apply (demo_or_wf 1 [2]); [|apply demo_u32].
  - vm_compute. reflexivity.
  - lia.
  - vm_compute. reflexivity.
  - vm_compute. reflexivity.
  - split; [exact Hm|exact Hp].
Defined.

End Instances.
