(* ===== verification/FilterSearch.v ===== *)
(** * The filtered searches ([src/search/spec_filter_search.cpp])

    [spec_filter_search] estimates the cost of three strategies and runs the
    cheapest: pre-filtering (the candidates come from the attribute indexes and
    are re-ranked from disk), in-filtering and post-filtering (the pipelined graph
    search with a membership test).  The selector tree is that of the file
    [Selector], the graph search that of [PipeSearch].  A call of the selector
    that the model of the indexes cannot answer counts as a negative test. *)

From Stdlib Require Import Floats.SpecFloat.
From S2P Require Import Prelude Float32 Neighbor CandidatePool VisitedSet Bytes FilterUtils StringAttr Attributes.
From S2P Require Import Selector PipeSearch PipeProof.

Module FilterSearch.
Import Pipe.
Local Open Scope nat_scope.

Notation Attributes := (gmap Z (list Z)) (only parsing).

(** ** Numbers *)

(** [std::max(a, b)] is [a < b ? b : a]. *)
Definition dmax (a b : double) : double := if dlt a b then b else a.
Definition d_epsilon : double := S754_finite false 4503599627370496 (-104).

(** ** The cost model *)

Record Cost := mkCost { ssd_reads : Z; dist_cmp : Z }.

Definition total_cost (c : Cost) : double :=
  dadd (dmul (d_of_Z (ssd_reads c)) (d_of_Z 10)) (dmul (d_of_Z (dist_cmp c)) (d_of_Z 1)).
Definition cost_lt (a b : Cost) : bool := dlt (total_cost a) (total_cost b).

Inductive FilterType := PRE_FILTER | IN_FILTER | POST_FILTER.

(** The sizes of the index the costs depend on. *)
Record sizes := mkSizes { npoints : Z; range : Z; range_dense : Z; io_size : Z; io_size_dense : Z }.

Definition SECTOR_LEN : Z := 4096.
Definition kGamma : double := ratio 1 20.

Record estimates := mkEstimates {
  selectivity : double;
  precision_in : double;
  prefilter_reads : Z;
  infilter_reads : Z
}.

Section costs.
Context (m : sizes) (l_search : Z) (e : estimates).

Definition prefilter_cost : Cost :=
  mkCost (u64 (prefilter_reads e + u64 (l_search * io_size m) / SECTOR_LEN))
    (d_to_u64 (dmul (selectivity e) (d_of_Z (npoints m)))).

Definition in_filter_l_eq : double :=
  let sRd_over_p := ddiv (dmul (selectivity e) (d_of_Z (range_dense m))) (precision_in e) in
  if dle sRd_over_p (d_of_Z (range m))
  then ddiv (dmul (ddiv (d_of_Z l_search) (selectivity e)) (d_of_Z (range m))) (d_of_Z (range_dense m))
  else ddiv (d_of_Z l_search) (precision_in e).

Definition infilter_cost : Cost :=
  mkCost
    (d_to_u64 (dadd (d_of_Z (infilter_reads e))
                 (ddiv (dmul in_filter_l_eq (d_of_Z (io_size_dense m))) (d_of_Z SECTOR_LEN))))
    (d_to_u64 (dmul in_filter_l_eq (dadd (d_of_Z (range m)) (dmul kGamma (d_of_Z (range_dense m)))))).

Definition postfilter_cost : Cost :=
  mkCost
    (d_to_u64 (ddiv (dmul (ddiv (d_of_Z l_search) (selectivity e)) (d_of_Z (io_size m))) (d_of_Z SECTOR_LEN)))
    (d_to_u64 (ddiv (d_of_Z (u64 (range m * l_search))) (selectivity e))).

Definition cost_of (t : FilterType) : Cost :=
  match t with PRE_FILTER => prefilter_cost | IN_FILTER => infilter_cost | POST_FILTER => postfilter_cost end.

Definition min_filter_type : FilterType :=
  foldl (λ best t, if cost_lt (cost_of t) (cost_of best) then t else best) PRE_FILTER
    [PRE_FILTER; IN_FILTER; POST_FILTER].
End costs.

Section filters.
Context (heap : gmap Z Sel.index) (ix : index) (query_attrs : Attributes).

(** The exact test of an expanded node, on the attributes stored with it. *)
Definition verify_node (s : Sel.Selector) (i : Z) (n : DiskNode) : bool :=
  bool_decide ((target_attrs ← Attributes.deserialize (attrs n); Sel.is_member s query_attrs target_attrs) = Some true).

(** ** Post-filtering and in-filtering *)

Definition spec_postfilter_search (k_search l_search l_max beam_width R : nat) (s : Sel.Selector) (node_out : bool)
    (vs : VisitedSet.FlatVisitedSet) (sched : list nat) : res (option (list (Z * float))) :=
  results
    (pipe_search_common
       (mkQuery l_search l_max beam_width 0 R false (λ _, true) (Some (verify_node s)) f_infinity false node_out)
       ix vs sched)
    (λ l, copy_top_k ix l k_search f_infinity).

Definition spec_infilter_search (k_search l_search l_max beam_width R : nat) (s : Sel.Selector) (node_out : bool)
    (vs : VisitedSet.FlatVisitedSet) (sched : list nat) : res (option (list (Z * float))) :=
  s ← lift (Sel.sel_prepare_in_filter heap s query_attrs);
  results
    (pipe_search_common
       (mkQuery l_search l_max beam_width 0 R true
          (λ i, bool_decide (Sel.sel_is_member_approx heap s i query_attrs = Some true))
          (Some (verify_node s)) f_infinity false node_out)
       ix vs sched)
    (λ l, copy_top_k ix l k_search f_infinity).

(** ** Pre-filtering *)

(** One candidate against the bounded max-heap, kept in ascending order: [top]
    is the last element. *)
Definition offer (l_search : nat) (pq : list Neighbor) (c : Neighbor) : res (list Neighbor) :=
  pq ← (if Nat.leb l_search (length pq) then
          top ← lift (last pq);
          Ok (if flt (distance c) (distance top) then removelast pq else pq)
        else Ok pq);
  Ok (if Nat.ltb (length pq) l_search then sorted_insert c pq else pq).

Fixpoint closest (l_search : nat) (pq : list Neighbor) (ids : list Z) : res (list Neighbor) :=
  match ids with
  | [] => Ok pq
  | i :: ids' => pq ← offer l_search pq (new_neighbor i (compute_dist ix i)); closest l_search pq ids'
  end.

Definition N_READS : nat := MAX_N_SECTOR_READS / 2.

(** The double-buffered re-ranking: [rr_bufs] has, for each of the 128 page
    buffers, the node whose page was last read into it; [rr_reqs] the buffers of
    the reads of each half. *)
Record rerank := mkRerank {
  rr_set : list Neighbor;
  rr_bufs : list (option Z);
  rr_reqs : list nat * list nat;
  rr_out : gmap Z DiskNode
}.

Definition half {A} (b : nat) (r : A * A) : A := if Nat.eqb b 0 then r.1 else r.2.
Definition set_half {A} (b : nat) (x : A) (r : A * A) : A * A := if Nat.eqb b 0 then (x, r.2) else (r.1, x).

(** The reads of the candidates [i + j], [n] of them. *)
Fixpoint send_reads (n i j idx : nat) (s : rerank) : res rerank :=
  match n with
  | 0 => Ok s
  | S n' =>
      a ← lift (rr_set s !! (i + j));
      let slot := idx * N_READS + j in
      b ← lift (vset (rr_bufs s) slot (Some (id a)));
      send_reads n' i (S j) idx
        (mkRerank (rr_set s) b (set_half idx (half idx (rr_reqs s) ++ [slot]) (rr_reqs s)) (rr_out s))
  end.

Definition send_read_cur (i : nat) (s : rerank) : res rerank :=
  send_reads (Nat.min N_READS (length (rr_set s) - i)) i 0 ((i / N_READS) mod 2) s.

(** The candidates [base + j] against the pages of [reqs]. *)
Fixpoint compute_prev (sel : Sel.Selector) (node_out : bool) (reqs : list nat) (base j : nat) (s : rerank) : res rerank :=
  match reqs with
  | [] => Ok s
  | slot :: reqs' =>
      a ← lift (rr_set s !! (base + j));
      if bool_decide (rr_bufs s !! slot = Some (Some (id a))) then
        let n := read_node ix (id a) in
        let mem := verify_node sel (id a) n in
        l ← lift (vset (rr_set s) (base + j) (set_distance (if mem then compare_sym ix (coords n) else FLT_MAX) a));
        compute_prev sel node_out reqs' base (S j)
          (mkRerank l (rr_bufs s) (rr_reqs s)
             (if mem && node_out then map_insert (id2tag ix (id a)) n (rr_out s) else rr_out s))
      else Fault StaleBuffer
  end.

Definition poll_and_compute_prev (sel : Sel.Selector) (node_out : bool) (i : nat) (s : rerank) : res rerank :=
  let idx := (i / N_READS + 1) mod 2 in
  s ← compute_prev sel node_out (half idx (rr_reqs s)) (i - N_READS) 0 s;
  Ok (mkRerank (rr_set s) (rr_bufs s) (set_half idx [] (rr_reqs s)) (rr_out s)).

(** The loop over the batches; [fuel] bounds their number. *)
Fixpoint rerank_loop (sel : Sel.Selector) (node_out : bool) (fuel i : nat) (s : rerank) : res rerank :=
  match fuel with
  | 0 => Fault OutOfRange
  | S fuel' =>
      if Nat.ltb i (length (rr_set s)) then
        s ← send_read_cur i s;
        s ← poll_and_compute_prev sel node_out i s;
        rerank_loop sel node_out fuel' (i + N_READS) s
      else poll_and_compute_prev sel node_out i s
  end.

Definition spec_prefilter_search (k_search l_search : nat) (s : Sel.Selector) (node_out : bool)
    : res (list (Z * float)) :=
  vector_ids ← lift (Sel.sel_pre_filter heap s query_attrs false);
  retset ← closest l_search [] vector_ids;
  r ← rerank_loop s node_out (S (length retset)) 0
        (mkRerank retset (replicate MAX_N_SECTOR_READS None) ([], []) ∅);
  Ok (copy_top_k ix (std_sort (rr_set r)) k_search f_infinity).

(** ** The choice *)

(** Drop the non-members at the tail of the results. *)
Fixpoint trim_tail (l : list (Z * float)) : list (Z * float) :=
  match l with
  | [] => []
  | x :: l' => match trim_tail l' with [] => if fge x.2 FLT_MAX then [] else [x] | t => x :: t end
  end.

Definition spec_filter_search (m : sizes) (k_search l_search beam_width R : nat) (base_selector : Sel.Selector)
    (node_out : bool) (vs : VisitedSet.FlatVisitedSet) (sched : list nat) : res (option (list (Z * float))) :=
  let s := Sel.copy base_selector in
  '(sel, s) ← lift (Sel.estimate_selectivity heap s query_attrs);
  '(prec, s) ← lift (Sel.sel_estimate_precision heap s query_attrs);
  pre ← lift (Sel.sel_estimate_prefilter_reads heap s query_attrs);
  inf ← lift (Sel.sel_estimate_infilter_reads heap s query_attrs);
  let e := mkEstimates (dmax sel d_epsilon) (dmax prec d_epsilon) pre inf in
  let l := Z.of_nat l_search in
  r ← match min_filter_type m l e with
      | PRE_FILTER => r ← spec_prefilter_search k_search l_search s node_out; Ok (Some r)
      | IN_FILTER =>
          spec_infilter_search k_search l_search (Z.to_nat (d_to_u64 (in_filter_l_eq m l e))) beam_width R s node_out
            vs sched
      | POST_FILTER =>
          spec_postfilter_search k_search l_search (Z.to_nat (d_to_u64 (ddiv (d_of_Z l) (selectivity e)))) beam_width R s
            node_out vs sched
      end;
  Ok (option_map trim_tail r).

End filters.

End FilterSearch.
