(* ===== verification/FilterProof.v ===== *)
(** * Correctness of the filtered searches

    The file [FilterSearch] against the meaning of a filter: the pre-filter search
    returns the closest matching vectors among its candidates, and whichever
    strategy the cost model picks, every result passes the filter. *)

From S2P Require Import Prelude Float32 Neighbor CandidatePool VisitedSet Bytes FilterUtils StringAttr Attributes.
From S2P Require Import Selector PipeSearch PipeProof AttrInstances FilterSearch.

Module FilterProof.
Import Ids Pipe PipeProof FilterSearch.
Local Open Scope nat_scope.

(** ** The bounded heap *)

Lemma sorted_insert_take c n l : rank c l ≤ n → sorted_insert c (take n l) = take (S n) (sorted_insert c l).
Proof.
  revert n. induction l as [|a l IH]; intros [|n] Hr; simpl in Hr; try done.
  - rewrite sorted_insert_cons. destruct (nlt a c); [lia|done].
  - simpl. rewrite !sorted_insert_cons. destruct (nlt a c); [|done]. rewrite IH by lia. done.
Qed.

Lemma take_sorted_insert_far c n l : n ≤ rank c l → take n (sorted_insert c l) = take n l.
Proof.
  intros Hr. pose proof (rank_le c l). unfold sorted_insert.
  rewrite take_app_le by (rewrite length_take; lia). rewrite take_take. f_equal. lia.
Qed.

Lemma rank_ge c l n top :
  nsorted l → Forall ok l → ok c → l !! n = Some top → nlt top c = true → S n ≤ rank c l.
Proof.
  intros Hs Hok Hc Ht Hlt. destruct (Nat.le_gt_cases (S n) (rank c l)) as [|Hr]; [done|].
  destruct (lookup_lt_is_Some_2 l (rank c l)) as [b Hb]; [apply lookup_lt_Some in Ht; lia|].
  pose proof (rank_at _ _ _ Hb) as Hn. rewrite Forall_lookup in Hok.
  pose proof (Hok _ _ Hb). pose proof (Hok _ _ Ht). apply nlt_false in Hn; [|done..]. apply nlt_spec in Hlt; [|done..].
  destruct Hn. destruct (decide (rank c l = n)) as [E|E]; [rewrite E in Hb; by simplify_eq|].
  eapply nb_lt_trans; [|exact Hlt]. eapply nsorted_lookup; [done..|lia].
Qed.

Lemma rank_le_lookup c l n top :
  l !! n = Some top → nlt top c = false → rank c l ≤ n.
Proof.
  intros Ht Hlt. destruct (Nat.le_gt_cases (rank c l) n) as [|Hr]; [done|].
  pose proof (rank_before _ _ _ _ Ht Hr). congruence.
Qed.

(** A candidate with a higher id than those seen so far. *)
Lemma offer_correct l X c :
  1 ≤ l → nsorted X → Forall ok X → ok c → (∀ a, a ∈ X → (id a < id c)%Z) →
  offer l (take l X) c = Ok (take l (sorted_insert c X)).
Proof.
  intros Hl Hs Hok Hc Hid. unfold offer. destruct (Nat.leb_spec l (length (take l X))) as [Hle|Hgt].
  - rewrite length_take in Hle. assert (Hlen : length (take l X) = l) by (rewrite length_take; lia).
    destruct (lookup_lt_is_Some_2 X (l - 1)) as [top Ht]; [lia|].
    assert (Hlast : last (take l X) = Some top).
    { rewrite last_lookup, Hlen, lookup_take_lt by lia. by replace (pred l) with (l - 1) by lia. }
    rewrite Hlast. cbn [lift mbind res_bind].
    assert (Hotop : ok top) by (by apply (Forall_lookup_1 _ _ _ _ Hok Ht)).
    destruct (flt (distance c) (distance top)) eqn:Ed.
    + rewrite removelast_firstn_len, Hlen, take_take.
      replace (pred l `min` l) with (l - 1) by lia. rewrite length_take.
      destruct (Nat.ltb_spec ((l - 1) `min` length X) l); [|lia].
      rewrite sorted_insert_take; [by replace (S (l - 1)) with l by lia|].
      apply (rank_le_lookup c X (l - 1) top); [done|]. apply nlt_false; [done..|]. apply nb_lt_asym. left.
      by apply flt_key.
    + rewrite Hlen, Nat.ltb_irrefl, take_sorted_insert_far; [done|].
      replace l with (S (l - 1)) by lia. apply (rank_ge c X (l - 1) top); try done.
      apply nlt_spec; [done..|]. apply nb_lt_ne_id.
      * pose proof (Hid top (list_elem_of_lookup_2 _ _ _ Ht)). lia.
      * intros [Hk|[_ Hk]]; [|pose proof (Hid top (list_elem_of_lookup_2 _ _ _ Ht)); lia].
        apply flt_key in Hk; [congruence|done..].
  - rewrite length_take in Hgt. rewrite (take_ge X) by lia. cbn [mbind res_bind].
    destruct (Nat.ltb_spec (length X) l); [|lia]. by rewrite take_ge by (rewrite sorted_insert_length; lia).
Qed.

Section rerank.
Context (ix : index) (Hnan : ∀ i, not_nan (compute_dist ix i)).

(** A candidate with its approximate distance. *)
Definition approx (i : Z) : Neighbor := new_neighbor i (compute_dist ix i).

Lemma approx_ids ids : id <$> map approx ids = ids.
Proof. induction ids as [|i ids IH]; [done|]. cbn. by rewrite IH. Qed.

Lemma closest_from l ids X :
  1 ≤ l → nsorted X → Forall ok X → (∀ a i, a ∈ X → i ∈ ids → (id a < i)%Z) → id_list ids →
  ∃ Y, closest ix l (take l X) ids = Ok (take l Y) ∧ nsorted Y ∧ Y ≡ₚ map approx ids ++ X.
Proof.
  intros Hl. revert X. induction ids as [|i ids IH]; intros X Hs Hok Hid Hsi; cbn [closest map app]; [by exists X|].
  apply id_list_cons in Hsi as [Hall Hsi].
  assert (Hlt : ∀ a, a ∈ X → (id a < i)%Z) by (intros a Ha; apply Hid; [done|left]).
  rewrite offer_correct; try done; [|apply Hnan].
  destruct (IH (sorted_insert (approx i) X)) as (Y & Hrun & HY & Hp).
  - apply sorted_insert_sorted; try done; [apply Hnan|]. unfold fresh. intros (a & E & Ha)%list_elem_of_fmap.
    pose proof (Hlt a Ha). simpl in E. lia.
  - rewrite sorted_insert_Permutation. constructor; [apply Hnan|done].
  - intros a j. rewrite sorted_insert_Permutation. intros [->|Ha]%elem_of_cons Hj; [by apply Hall|].
    apply Hid; [done|by right].
  - done.
  - exists Y. split_and!; [exact Hrun|done|]. by rewrite Hp, sorted_insert_Permutation, Permutation_middle.
Qed.

(** The heap keeps the [l] closest of the candidates, ties to the lower id. *)
Lemma closest_correct l ids :
  1 ≤ l → id_list ids → closest ix l [] ids = Ok (take l (std_sort (map approx ids))).
Proof.
  intros Hl Hids. destruct (closest_from l ids []) as (Y & Hrun & HY & Hp); try done; [constructor| |].
  { intros a i Ha. by apply not_elem_of_nil in Ha. }
  rewrite take_nil in Hrun. rewrite Hrun. do 2 f_equal. rewrite app_nil_r in Hp.
  apply nsorted_unique; [done| |by rewrite std_sort_Permutation].
  apply std_sort_sorted; [|rewrite approx_ids; by apply id_list_NoDup].
  apply Forall_forall. intros a (i & <- & _)%list_elem_of_In%in_map_iff. apply Hnan.
Qed.

(** ** The double-buffered re-ranking *)

Context (query_attrs : gmap Z (list Z)) (sel : Sel.Selector) (node_out : bool).

(** A candidate after its page was read. *)
Definition ranked (a : Neighbor) : Neighbor :=
  let n := read_node ix (id a) in
  set_distance (if verify_node query_attrs sel (id a) n then compare_sym ix (coords n) else FLT_MAX) a.

Lemma send_reads_correct n i j idx s :
  i + j + n ≤ length (rr_set s) → idx < 2 → j + n ≤ N_READS → length (rr_bufs s) = MAX_N_SECTOR_READS →
  ∃ s', send_reads n i j idx s = Ok s' ∧ rr_set s' = rr_set s ∧ length (rr_bufs s') = MAX_N_SECTOR_READS
  ∧ rr_reqs s' = set_half idx (half idx (rr_reqs s) ++ seq (idx * N_READS + j) n) (rr_reqs s)
  ∧ (∀ k a, j ≤ k < j + n → rr_set s !! (i + k) = Some a → rr_bufs s' !! (idx * N_READS + k) = Some (Some (id a)))
  ∧ ∀ slot, ¬ (idx * N_READS + j ≤ slot < idx * N_READS + j + n) → rr_bufs s' !! slot = rr_bufs s !! slot.
Proof.
  revert j s. induction n as [|n IH]; intros j s Hlen Hidx Hj Hb; cbn [send_reads].
  { exists s. split_and!; try done; [|intros; lia]. rewrite app_nil_r. unfold set_half, half.
    destruct (rr_reqs s); by destruct (Nat.eqb idx 0). }
  destruct (lookup_lt_is_Some_2 (rr_set s) (i + j)) as [a Ha]; [lia|]. rewrite Ha. cbn [lift mbind res_bind].
  assert (Hslot : idx * N_READS + j < length (rr_bufs s)).
  { rewrite Hb. unfold N_READS, MAX_N_SECTOR_READS in *. simpl in *. lia. }
  rewrite vset_Some by done. cbn [lift mbind res_bind].
  set (s1 := mkRerank _ _ _ _). destruct (IH (S j) s1) as (s' & Hrun & Hset & Hlb & Hreq & Hin & Hout);
    [simpl; lia|done|lia|simpl; by rewrite length_insert|].
  exists s'. split_and!; try done.
  - rewrite Hreq. simpl. unfold set_half, half. destruct (Nat.eqb idx 0); simpl;
      rewrite <- app_assoc; simpl; by rewrite <- plus_n_Sm.
  - intros k b Hk Hb'. destruct (decide (k = j)) as [->|Hne]; [|apply Hin; [lia|done]].
    rewrite Hout by lia. simpl. rewrite list_lookup_insert_eq by done. by simplify_eq.
  - intros slot Hs. rewrite Hout by lia. simpl. apply list_lookup_insert_ne. lia.
Qed.

Lemma compute_prev_correct m base b j s :
  base + j + m ≤ length (rr_set s) →
  (∀ k a, j ≤ k < j + m → rr_set s !! (base + k) = Some a → rr_bufs s !! (b + k) = Some (Some (id a))) →
  ∃ s', compute_prev ix query_attrs sel node_out (seq (b + j) m) base j s = Ok s'
  ∧ rr_bufs s' = rr_bufs s ∧ rr_reqs s' = rr_reqs s
  ∧ ∀ k, rr_set s' !! k = if decide (base + j ≤ k < base + j + m) then ranked <$> rr_set s !! k else rr_set s !! k.
Proof.
  revert j s. induction m as [|m IH]; intros j s Hlen Hbuf; cbn [seq compute_prev].
  { exists s. split_and!; try done. intros k. rewrite decide_False by lia. done. }
  destruct (lookup_lt_is_Some_2 (rr_set s) (base + j)) as [a Ha]; [lia|]. rewrite Ha. cbn [lift mbind res_bind].
  rewrite bool_decide_eq_true_2 by (apply Hbuf; [lia|done]). rewrite vset_Some by lia. cbn [lift mbind res_bind].
  fold (ranked a). set (s1 := mkRerank _ _ _ _).
  destruct (IH (S j) s1) as (s' & Hrun & Hb & Hr & Hset).
  { simpl. rewrite length_insert. lia. }
  { intros k c Hk. simpl. rewrite list_lookup_insert_ne by lia. apply Hbuf. lia. }
  rewrite <- plus_n_Sm in Hrun. exists s'. split_and!; try done. intros k. rewrite Hset. simpl.
  destruct (decide (k = base + j)) as [->|Hne].
  - rewrite decide_False, decide_True by lia. rewrite list_lookup_insert_eq by lia. by rewrite Ha.
  - rewrite list_lookup_insert_ne by done.
    destruct (decide (base + S j ≤ k < base + S j + m)); [rewrite decide_True by lia|rewrite decide_False by lia]; done.
Qed.

Lemma half_set_eq {A} i (x : A) r : half i (set_half i x r) = x.
Proof. unfold half, set_half. by destruct (Nat.eqb i 0). Qed.

Lemma half_set_other {A} b (x : A) r : half ((b + 1) mod 2) (set_half (b mod 2) x r) = half ((b + 1) mod 2) r.
Proof.
  unfold half, set_half. rewrite Nat.Div0.add_mod. pose proof (Nat.mod_upper_bound b 2).
  destruct (b mod 2) as [|[|]]; [done|done|lia].
Qed.

Lemma half_other {A} b (x : A) r : half (b mod 2) (set_half ((b + 1) mod 2) x r) = half (b mod 2) r.
Proof.
  unfold half, set_half. rewrite Nat.Div0.add_mod. pose proof (Nat.mod_upper_bound b 2).
  destruct (b mod 2) as [|[|]]; [done|done|lia].
Qed.

Lemma halves_apart b x y : x < N_READS → y < N_READS → (b + 1) mod 2 * N_READS + x ≠ b mod 2 * N_READS + y.
Proof.
  rewrite Nat.Div0.add_mod. pose proof (Nat.mod_upper_bound b 2). unfold N_READS, MAX_N_SECTOR_READS. simpl (128 / 2).
  destruct (b mod 2) as [|[|]]; simpl; lia.
Qed.

(** Before batch [b]: the batches before [b - 1] are re-ranked, the pages of batch
    [b - 1] are in their half of the buffers, the other half is free. *)
Definition batch_size (len b : nat) : nat := Nat.min (b * N_READS) len - (b - 1) * N_READS.

Record pending (R : list Neighbor) (b : nat) (s : rerank) : Prop := mkPending {
  pe_set : ∀ k, rr_set s !! k = if decide (k < (b - 1) * N_READS) then ranked <$> R !! k else R !! k;
  pe_bufs : length (rr_bufs s) = MAX_N_SECTOR_READS;
  pe_cur : half (b mod 2) (rr_reqs s) = [];
  pe_prev : half ((b + 1) mod 2) (rr_reqs s) = seq ((b + 1) mod 2 * N_READS) (batch_size (length R) b);
  pe_data : ∀ k a, k < batch_size (length R) b → R !! ((b - 1) * N_READS + k) = Some a →
    rr_bufs s !! ((b + 1) mod 2 * N_READS + k) = Some (Some (id a))
}.

Lemma lookup_same_length (l k : list Neighbor) : (∀ i, is_Some (l !! i) ↔ is_Some (k !! i)) → length l = length k.
Proof.
  intros H. destruct (Nat.lt_total (length l) (length k)) as [Hl|[Hl|Hl]]; [|done|].
  - apply lookup_lt_is_Some, H, lookup_lt_is_Some in Hl. lia.
  - apply lookup_lt_is_Some, H, lookup_lt_is_Some in Hl. lia.
Qed.

Lemma pending_length R b s : pending R b s → length (rr_set s) = length R.
Proof.
  intros Hp. apply lookup_same_length. intros k. rewrite (pe_set _ _ _ Hp). destruct (decide _); [|done].
  by rewrite fmap_is_Some.
Qed.

Lemma poll_correct R b s :
  (b - 1) * N_READS ≤ length R →
  (∀ k, rr_set s !! k = if decide (k < (b - 1) * N_READS) then ranked <$> R !! k else R !! k) →
  half ((b + 1) mod 2) (rr_reqs s) = seq ((b + 1) mod 2 * N_READS) (batch_size (length R) b) →
  (∀ k a, k < batch_size (length R) b → R !! ((b - 1) * N_READS + k) = Some a →
    rr_bufs s !! ((b + 1) mod 2 * N_READS + k) = Some (Some (id a))) →
  ∃ s', poll_and_compute_prev ix query_attrs sel node_out (b * N_READS) s = Ok s'
  ∧ rr_bufs s' = rr_bufs s ∧ rr_reqs s' = set_half ((b + 1) mod 2) [] (rr_reqs s)
  ∧ ∀ k, rr_set s' !! k = if decide (k < b * N_READS) then ranked <$> R !! k else R !! k.
Proof.
  intros Hbase Hset Hreq Hdata. unfold poll_and_compute_prev. rewrite Nat.div_mul by done. rewrite Hreq.
  replace (b * N_READS - N_READS) with ((b - 1) * N_READS) by (rewrite Nat.mul_sub_distr_r; lia).
  set (base := (b - 1) * N_READS) in *. set (m := batch_size (length R) b) in *.
  assert (Hm : m = Nat.min (b * N_READS) (length R) - base) by done. clearbody m.
  assert (Hle : base ≤ b * N_READS) by (apply Nat.mul_le_mono_r; lia).
  assert (Hlen : length (rr_set s) = length R).
  { apply lookup_same_length. intros k. rewrite Hset. destruct (decide _); [|done]. by rewrite fmap_is_Some. }
  destruct (compute_prev_correct m base ((b + 1) mod 2 * N_READS) 0 s) as (s' & Hrun & Hb & Hr & Hs').
  { rewrite Hlen. lia. }
  { intros k a Hk. rewrite Hset, decide_False by lia. apply Hdata. lia. }
  rewrite Nat.add_0_r in Hrun. rewrite Hrun. cbn [mbind res_bind]. eexists. split_and!; [done|done| |].
  { simpl. by rewrite Hr. }
  intros k. simpl. rewrite Hs', Hset. destruct (decide (k < length R)) as [Hk|Hk].
  - destruct (decide (k < base)); [rewrite decide_False, decide_True by lia; done|].
    destruct (decide (k < b * N_READS)); [rewrite decide_True by lia|rewrite decide_False by lia]; done.
  - rewrite (lookup_ge_None_2 R) by lia. by repeat destruct (decide _).
Qed.

Lemma batch_step R b s :
  pending R b s → b * N_READS < length R →
  ∃ s1 s2, send_read_cur (b * N_READS) s = Ok s1
  ∧ poll_and_compute_prev ix query_attrs sel node_out (b * N_READS) s1 = Ok s2 ∧ pending R (S b) s2.
Proof.
  intros Hp Hb. pose proof (pending_length _ _ _ Hp) as Hlen. destruct Hp as [Hset Hbufs Hcur Hprev Hdata].
  assert (Hpre : (b - 1) * N_READS ≤ b * N_READS) by (apply Nat.mul_le_mono_r; lia).
  assert (Hbs : batch_size (length R) b ≤ N_READS).
  { unfold batch_size. rewrite Nat.mul_sub_distr_r. lia. }
  unfold send_read_cur. rewrite Nat.div_mul, Hlen by done. set (n := Nat.min N_READS (length R - b * N_READS)).
  assert (Hnle : n ≤ N_READS ∧ n ≤ length R - b * N_READS) by (unfold n; lia).
  destruct (send_reads_correct n (b * N_READS) 0 (b mod 2) s) as (s1 & H1 & Hset1 & Hb1 & Hr1 & Hin & Hout); try done.
  { rewrite Hlen. lia. }
  { by apply Nat.mod_upper_bound. }
  { lia. }
  destruct (poll_correct R b s1) as (s2 & H2 & Hb2 & Hr2 & Hset2).
  { lia. }
  { by rewrite Hset1. }
  { by rewrite Hr1, half_set_other. }
  { intros k a Hk Ha. rewrite Hout; [by apply Hdata|].
    pose proof (halves_apart b k) as Hap. set (x := (b + 1) mod 2 * N_READS) in *. set (y := b mod 2 * N_READS) in *.
    clearbody x y. intros Hr. apply (Hap (x + k - y)); lia. }
  exists s1, s2. split_and!; [done|done|].
  assert (Hmod : (S b + 1) mod 2 = b mod 2).
  { replace (S b + 1) with (b + 1 * 2) by lia. apply Nat.Div0.mod_add. }
  assert (Hn : batch_size (length R) (S b) = n).
  { unfold batch_size, n. replace (S b - 1) with b by lia. rewrite Nat.mul_succ_l. lia. }
  split; rewrite ?Hmod, ?Hn; replace (S b - 1) with b by lia.
  - done.
  - by rewrite Hb2.
  - rewrite Hr2. replace (S b) with (b + 1) by lia. apply half_set_eq.
  - by rewrite Hr2, half_other, Hr1, half_set_eq, Hcur, Nat.add_0_r.
  - intros k a Hk Ha. rewrite Hb2. apply Hin; [lia|]. rewrite Hset, decide_False by lia. done.
Qed.

Lemma rerank_loop_correct R fuel b s :
  pending R b s → (b - 1) * N_READS ≤ length R → length R - b * N_READS < fuel →
  ∃ s', rerank_loop ix query_attrs sel node_out fuel (b * N_READS) s = Ok s' ∧ rr_set s' = map ranked R.
Proof.
  revert b s. induction fuel as [|fuel IH]; intros b s Hp Hb Hf; [lia|]. cbn [rerank_loop].
  rewrite (pending_length R b) by done. destruct (Nat.ltb_spec (b * N_READS) (length R)) as [Hlt|Hge].
  - destruct (batch_step R b s Hp Hlt) as (s1 & s2 & -> & H2 & Hp2). cbn [mbind res_bind]. rewrite H2.
    cbn [mbind res_bind]. replace (b * N_READS + N_READS) with (S b * N_READS) by (rewrite Nat.mul_succ_l; lia).
    apply IH; [done|replace (S b - 1) with b by lia; lia|].
    enough (0 < N_READS) by (rewrite Nat.mul_succ_l; lia). by apply Nat.ltb_lt.
  - destruct Hp as [Hset _ _ Hprev Hdata]. destruct (poll_correct R b s) as (s' & -> & _ & _ & Hs'); try done.
    exists s'. split; [done|]. apply list_eq. intros k. rewrite Hs', list_lookup_fmap.
    destruct (decide _); [done|]. by rewrite lookup_ge_None_2 by lia.
Qed.

Lemma rerank_correct R :
  ∃ s', rerank_loop ix query_attrs sel node_out (S (length R)) 0
          (mkRerank R (replicate MAX_N_SECTOR_READS None) ([], []) ∅) = Ok s' ∧ rr_set s' = map ranked R.
Proof.
  apply (rerank_loop_correct R _ 0); [|lia..]. split; try done; simpl. intros k a Hk. unfold batch_size in Hk. lia.
Qed.
End rerank.

(** ** The tail of the results *)

(** The sentinel of the non-members and everything beyond is cut off. *)
Definition below (a : Neighbor) : bool := negb (fge (distance a) FLT_MAX).

Lemma nsorted_Lfilter (f : Neighbor → bool) l : nsorted l → nsorted (List.filter f l).
Proof.
  induction 1 as [|a l Hs IH Hall]; simpl; [constructor|]. destruct (f a); [|done].
  constructor; [done|]. rewrite Forall_forall in Hall. apply Forall_forall. intros b [Hb _]%elem_of_Lfilter. auto.
Qed.

Lemma trim_tail_app l1 l2 :
  Forall (λ x, fge x.2 FLT_MAX = false) l1 → Forall (λ x, fge x.2 FLT_MAX = true) l2 → trim_tail (l1 ++ l2) = l1.
Proof.
  intros H1 H2. assert (Hn : trim_tail l2 = []).
  { induction H2 as [|x l Hx _ IH]; simpl; [done|]. by rewrite IH, Hx. }
  induction H1 as [|x l Hx _ IH]; simpl; [done|]. rewrite IH, Hx. by destruct l.
Qed.

Lemma fge_key a b : not_nan a → not_nan b → fge a b = true ↔ ¬ key_lt (fkey a) (fkey b).
Proof. intros Ha Hb. change (fge a b) with (fle b a). by apply fle_key. Qed.

Lemma fge_mono a b : ok a → ok b → nb_lt a b → fge (distance a) FLT_MAX = true → fge (distance b) FLT_MAX = true.
Proof.
  intros Ha Hb Hlt. rewrite !fge_key by (done || apply FLT_MAX_not_nan). intros H K. apply H.
  destruct Hlt as [E|[E _]]; [by eapply key_lt_trans|by rewrite E].
Qed.

Lemma below_split l :
  nsorted l → Forall ok l → l = List.filter below l ++ List.filter (λ a, negb (below a)) l.
Proof.
  intros Hs Hok. induction l as [|a l IH]; [done|]. apply StronglySorted_inv in Hs as [Hs Hall].
  apply Forall_cons in Hok as [Ha Hok]. simpl. destruct (below a) eqn:E; simpl; [by rewrite <- IH|].
  rewrite Lfilter_none; simpl.
  - f_equal. rewrite IH at 1 by done. rewrite Lfilter_none; [done|].
    rewrite Forall_forall in Hall, Hok. apply Forall_forall. intros b Hb. unfold below in *.
    apply negb_false_iff in E. apply negb_false_iff, (fge_mono a b); auto.
  - rewrite Forall_forall in Hall, Hok. apply Forall_forall. intros b Hb. unfold below in *.
    apply negb_false_iff in E. apply negb_false_iff, (fge_mono a b); auto.
Qed.

Lemma trimmed ix k l :
  nsorted l → Forall ok l →
  trim_tail (take k (map (tagged ix) l)) = take k (map (tagged ix) (List.filter below l)).
Proof.
  intros Hs Hok. rewrite (below_split l) at 1 by done. rewrite map_app, take_app. apply trim_tail_app.
  - apply Forall_take, Forall_forall. intros x (a & <- & [_ Ha]%filter_In)%list_elem_of_In%in_map_iff.
    by apply negb_true_iff in Ha.
  - apply Forall_take, Forall_forall. intros x (a & <- & [_ Ha]%filter_In)%list_elem_of_In%in_map_iff.
    by apply negb_true_iff, negb_false_iff in Ha.
Qed.

(** ** The searches *)

(** The nodes the graph reaches are vectors of the database, and the attributes
    stored with each vector are its row. *)
Record store_ok (ix : index) (U : gset Z) (n : Z) (db : Z → gmap Z (list Z)) : Prop := mkStoreOk {
  st_index : ∀ q, mem_L q = 0 → index_ok q ix U;
  st_ids : ∀ i, i ∈ U → (0 <= i < n)%Z;
  st_rows : ∀ i, (0 <= i < n)%Z → Attributes.deserialize (attrs (read_node ix i)) = Some (db i)
}.

Section filtered.
Context (heap : gmap Z Sel.index) (ix : index) (U : gset Z) (n : Z) (db : Z → gmap Z (list Z)).
Context (query_attrs : gmap Z (list Z)) (Hst : store_ok ix U n db).

Definition exact (i : Z) : float := compare_sym ix (coords (read_node ix i)).

Lemma st_approx i : not_nan (compute_dist ix i).
Proof. by apply (xo_approx _ _ _ (st_index _ _ _ _ Hst (do_pipe_search 0 0 0 0 false false) eq_refl)). Qed.

Lemma st_exact v : not_nan (compare_sym ix v).
Proof. by apply (xo_exact _ _ _ (st_index _ _ _ _ Hst (do_pipe_search 0 0 0 0 false false) eq_refl)). Qed.

Lemma verify_row s i :
  (0 <= i < n)%Z → verify_node query_attrs s i (read_node ix i) = true ↔ Sel.is_member s query_attrs (db i) = Some true.
Proof. intros Hi. unfold verify_node. rewrite (st_rows _ _ _ _ Hst) by done. apply bool_decide_eq_true. Qed.

(** The matching vectors of [near], by exact distance. *)
Definition matches (s : Sel.Selector) (near : list Z) (res : list Neighbor) : Prop :=
  nsorted res ∧ ∀ a, a ∈ res ↔ ∃ i, i ∈ near ∧ Sel.is_member s query_attrs (db i) = Some true
    ∧ fge (exact i) FLT_MAX = false ∧ a = new_neighbor i (exact i).

Lemma ranked_approx s l :
  map (ranked ix query_attrs s) (map (approx ix) l)
  = map (λ i, new_neighbor i (if verify_node query_attrs s i (read_node ix i) then exact i else FLT_MAX)) l.
Proof. rewrite map_map. by apply map_ext. Qed.

Lemma ranked_matches s near :
  NoDup near → (∀ i, i ∈ near → (0 <= i < n)%Z) →
  let l := map (ranked ix query_attrs s) (map (approx ix) near) in
  Forall ok l ∧ NoDup (id <$> l) ∧ matches s near (List.filter below (std_sort l)).
Proof.
  intros Hnd Hin l. assert (Hids : id <$> l = near).
  { unfold l. rewrite ranked_approx. clear. induction near as [|i near IH]; [done|]. cbn. by rewrite IH. }
  assert (Hok : Forall ok l).
  { unfold l. rewrite ranked_approx. apply Forall_forall. intros a (i & <- & _)%list_elem_of_In%in_map_iff.
    unfold ok. simpl. destruct (verify_node _ _ _ _); [apply st_exact|apply FLT_MAX_not_nan]. }
  rewrite Hids. split_and!; [done|done|]. split.
  - pose proof (std_sort_sorted l Hok) as Hs. rewrite Hids in Hs. specialize (Hs Hnd).
    by apply nsorted_Lfilter.
  - intros a. rewrite elem_of_Lfilter, std_sort_Permutation. unfold l. rewrite ranked_approx.
    rewrite list_elem_of_In, in_map_iff. split.
    + intros [(i & <- & Hi%list_elem_of_In) Hb]. unfold below in Hb. simpl in Hb. exists i.
      destruct (verify_node _ _ _ _) eqn:E; [|done]. apply verify_row in E; [|by apply Hin].
      by apply negb_true_iff in Hb.
    + intros (i & Hi & Hm & Hf & ->). apply verify_row in Hm; [|by apply Hin]. split.
      * exists i. rewrite Hm. split; [done|by apply list_elem_of_In].
      * unfold below. simpl. by rewrite Hf.
Qed.

(** The candidates a pre-filter search reads: the [l] closest by approximate
    distance of the vectors the indexes propose. *)
Definition nearest (l : nat) (ids : list Z) : list Z := id <$> take l (std_sort (map (approx ix) ids)).

Lemma nearest_spec l ids :
  NoDup ids → NoDup (nearest l ids) ∧ (∀ i, i ∈ nearest l ids → i ∈ ids)
  ∧ take l (std_sort (map (approx ix) ids)) = map (approx ix) (nearest l ids)
  ∧ (length ids ≤ l → ∀ i, i ∈ ids → i ∈ nearest l ids).
Proof.
  intros Hnd. unfold nearest. assert (Hall : ∀ a, a ∈ std_sort (map (approx ix) ids) → id a ∈ ids ∧ a = approx ix (id a)).
  { intros a. rewrite std_sort_Permutation. by intros (i & <- & Hi%list_elem_of_In)%list_elem_of_In%in_map_iff. }
  split_and!.
  - rewrite fmap_take. eapply sublist_NoDup; [|apply sublist_take].
    rewrite std_sort_Permutation, approx_ids. done.
  - intros i (a & -> & Ha)%list_elem_of_fmap. apply Hall. eapply elem_of_sublist; [exact Ha|apply sublist_take].
  - revert Hall. generalize (std_sort (map (approx ix) ids)). clear. intros k. revert l.
    induction k as [|a k IH]; intros [|l] Hall; try done. simpl. f_equal; [by apply Hall; left|].
    apply IH. intros b Hb. apply Hall. by right.
  - intros Hl i Hi. rewrite take_ge; [by rewrite std_sort_Permutation, approx_ids|].
    by rewrite std_sort_Permutation, length_map.
Qed.

Lemma prefilter_run k l s node_out ids :
  1 ≤ l → Sel.sel_pre_filter heap s query_attrs false = Some ids → id_list ids → (∀ v, v ∈ ids → (0 <= v < n)%Z) →
  ∃ r res, spec_prefilter_search heap ix query_attrs k l s node_out = Ok r
  ∧ trim_tail r = take k (map (tagged ix) res) ∧ matches s (nearest l ids) res.
Proof.
  intros Hl Hids Hil Hin. destruct (nearest_spec l ids (id_list_NoDup _ Hil)) as (Hnd & Hsub & Htake & _).
  unfold spec_prefilter_search. rewrite Hids. cbn [lift mbind res_bind].
  rewrite (closest_correct ix st_approx l ids) by done. cbn [mbind res_bind]. rewrite Htake.
  destruct (rerank_correct ix query_attrs s node_out (map (approx ix) (nearest l ids))) as (s' & -> & Hset).
  cbn [mbind res_bind]. rewrite Hset.
  destruct (ranked_matches s (nearest l ids) Hnd) as (Hok & Hidn & Hm); [by intros i Hi%Hsub%Hin|].
  pose proof (std_sort_sorted _ Hok Hidn) as Hs. eexists _, _. split; [done|].
  rewrite copy_top_k_all; [|done|by rewrite std_sort_Permutation|by rewrite std_sort_Permutation].
  rewrite trimmed; [done|done|by rewrite std_sort_Permutation].
Qed.

(** C6: pre-filtering is exact on its candidates.  Take a well-formed selector tree
    ([Sel.wf]: indexes that keep their promises about the stored rows, non-empty
    label-AND queries, ranges with [l <= r], AND nodes with children, and for a string
    equality no stored string that properly extends a queried string, where the
    string index over-matches) without a NOT above an AND that may skip branches
    ([not_safe]), over fewer than [2^32] vectors whose distances are not NaN and whose
    records hold their rows, and [l_search >= 1].  Then the pre-filter search returns,
    and after the trim its results are the [k] closest, by exact distance, of the
    matching vectors among the [l_search] candidates with the smallest approximate
    distances.  When the indexes propose at most [l_search] vectors these are the [k]
    closest matches of the whole database.  (Matches at distance [FLT_MAX] or beyond
    are cut off with the sentinels.) *)
Theorem prefilter_search_exact k l s node_out :
  is_u32 n → Sel.wf heap n db query_attrs s → Sel.not_safe s = true → 1 ≤ l →
  ∃ ids r res, Sel.sel_pre_filter heap s query_attrs false = Some ids
  ∧ spec_prefilter_search heap ix query_attrs k l s node_out = Ok r
  ∧ trim_tail r = take k (map (tagged ix) res)
  ∧ matches s (nearest l ids) res
  ∧ (length ids ≤ l → matches s (seqZ 0 n) res).
Proof.
  intros Hn Hwf Hns Hl. destruct (Sel.lax_covers heap n db query_attrs s Hn Hwf Hns) as (ids & He & Hi & Hb & Hc).
  destruct (prefilter_run k l s node_out ids) as (r & res & Hr & Ht & Hm); try done.
  exists ids, r, res. split_and!; try done. intros Hlen. destruct Hm as [Hs Hm]. split; [done|].
  destruct (nearest_spec l ids (id_list_NoDup _ Hi)) as (_ & Hsub & _ & Hall).
  intros a. rewrite Hm. split; intros (i & Hi' & Him & ?); exists i; (split; [|done]).
  - apply elem_of_seqZ. pose proof (Hb i (Hsub i Hi')). lia.
  - apply Hall; [done|]. apply elem_of_seqZ in Hi'. apply Hc; [lia|]. unfold Sel.member. by rewrite Him.
Qed.

(** Results in the order of their exact distances, each of which passes [s]. *)
Definition sound (s : Sel.Selector) (res : list Neighbor) : Prop :=
  nsorted res ∧ ∀ a, a ∈ res → (0 <= id a < n)%Z ∧ distance a = exact (id a)
    ∧ Sel.is_member s query_attrs (db (id a)) = Some true.

Lemma sound_filter s res : sound s res → sound s (List.filter below res).
Proof.
  intros [Hs Hr]. split; [by apply nsorted_Lfilter|]. intros a [Ha _]%elem_of_Lfilter. auto.
Qed.

Lemma matches_sound s near res : (∀ i, i ∈ near → (0 <= i < n)%Z) → matches s near res → sound s res.
Proof.
  intros Hn [Hs Hr]. split; [done|]. intros a (i & Hi & Hm & _ & ->)%Hr. split_and!; [by apply Hn|..|done].
  - by apply Hn.
  - done.
Qed.

(** A graph search whose test is the stored attributes' membership. *)
Lemma graph_run q s k vs sched :
  mem_L q = 0 → verify q = Some (verify_node query_attrs s) → insert_ctx q = false → query_ok q →
  beam_width q + l_pool q ≤ MAX_N_SECTOR_READS → VisitedSet.inv vs → 3 * base.size U < productive sched →
  ∃ res, results (pipe_search_common q ix vs sched) (λ l, copy_top_k ix l k f_infinity)
         = Ok (Some (take k (map (tagged ix) res))) ∧ Forall ok res ∧ sound s res.
Proof.
  intros Hm Hv Hic Hq Hring Hvs Hsched. pose proof (st_index _ _ _ _ Hst q Hm) as Hix.
  destruct (search_returns q ix U vs sched) as (st & -> & Hfin); try done; [by rewrite Hic|].
  pose proof (finished_results q ix U Hix st Hfin) as Hres. cbn [results].
  eexists. split; [by rewrite (results_copied_all q) by (done || apply st_exact)|].
  split; [eapply results_ok_ok; [apply st_exact|done]|]. split; [apply Hres|]. intros a Ha.
  destruct (re_exact _ _ _ Hres a Ha) as [Hd Hmem]. simpl in Ha. rewrite std_sort_Permutation in Ha.
  assert (Hin : (0 <= id a < n)%Z).
  { eapply (st_ids _ _ _ _ Hst), results_univ; [|exact Ha]. apply (fi_ok _ _ _ _ Hfin). }
  split_and!; [apply Hin..|done|]. unfold is_member_exact in Hmem. rewrite Hv in Hmem. by apply verify_row.
Qed.

(** The size of the pool of the strategy the cost model picks. *)
Definition strategy_pool (m : sizes) (l : nat) (e : estimates) : nat :=
  match min_filter_type m (Z.of_nat l) e with
  | PRE_FILTER => 1
  | IN_FILTER => Z.to_nat (d_to_u64 (in_filter_l_eq m (Z.of_nat l) e))
  | POST_FILTER => Z.to_nat (d_to_u64 (ddiv (d_of_Z (Z.of_nat l)) (selectivity e)))
  end.

Lemma copy_keeps s : Sel.keeps heap n db query_attrs s (Sel.copy s).
Proof.
  intros Hwf. split; [by apply Sel.copy_wf|]. intros v _. unfold Sel.member. by rewrite Sel.copy_is_member.
Qed.

Lemma sound_keeps s s' res :
  Sel.wf heap n db query_attrs s → Sel.keeps heap n db query_attrs s s' → sound s' res → sound s res.
Proof.
  intros Hwf Hk [Hs Hr]. destruct (Hk Hwf) as [Hwf' Hm]. split; [done|]. intros a Ha.
  destruct (Hr a Ha) as (Hn & Hd & Hmem). split_and!; [apply Hn..|done|].
  rewrite (Sel.tree_member heap n) by done. rewrite <- Hm by done. rewrite (Sel.tree_member heap n) in Hmem by done.
  by destruct (Sel.member db query_attrs s' (id a)).
Qed.

(** C5: filtered search returns matches only.  Take a well-formed selector tree
    ([Sel.wf]: indexes that keep their promises about the stored rows, non-empty
    label-AND queries, ranges with [l <= r], AND nodes with children, and for a string
    equality no stored string that properly extends a queried string) whose four
    estimates succeed, which as estimated has no NOT above an AND that may skip
    branches ([not_safe]) and whose range leaves' in-filter tests have no false
    negatives ([approx_wf]).  Let the beam and the pool of the strategy the estimates
    make the cheapest be at least one and together at most 128, the distances not NaN,
    the records hold their rows, and the schedule have enough productive polls.  Then,
    whichever strategy is chosen, [spec_filter_search] returns at most [k] results in
    the order of their exact distances, and each of them is a vector of the database
    whose attributes pass the base selector's [is_member]. *)
Theorem filtered_search_sound m k l beam_width R s0 node_out vs sched sel s1 prec s2 pre inf :
  let e := mkEstimates (dmax sel d_epsilon) (dmax prec d_epsilon) pre inf in
  is_u32 n → Sel.wf heap n db query_attrs s0 →
  Sel.estimate_selectivity heap (Sel.copy s0) query_attrs = Some (sel, s1) →
  Sel.sel_estimate_precision heap s1 query_attrs = Some (prec, s2) →
  Sel.sel_estimate_prefilter_reads heap s2 query_attrs = Some pre →
  Sel.sel_estimate_infilter_reads heap s2 query_attrs = Some inf →
  Sel.not_safe s2 = true → Sel.approx_wf heap n db query_attrs s2 →
  1 ≤ l → 1 ≤ beam_width → 1 ≤ strategy_pool m l e → beam_width + strategy_pool m l e ≤ MAX_N_SECTOR_READS →
  VisitedSet.inv vs → 3 * base.size U < productive sched →
  ∃ res, spec_filter_search heap ix query_attrs m k l beam_width R s0 node_out vs sched
         = Ok (Some (take k (map (tagged ix) res))) ∧ sound s0 res.
Proof.
  intros e Hn Hwf He1 He2 He3 He4 Hns Hap Hl Hbw Hpool Hring Hvs Hsched.
  assert (Hk : Sel.keeps heap n db query_attrs s0 s2).
  { eapply Sel.keeps_trans; [apply copy_keeps|]. eapply Sel.keeps_trans; [by eapply Sel.estimate_keeps|].
    by eapply Sel.precision_keeps. }
  destruct (Hk Hwf) as [Hwf2 _]. unfold spec_filter_search. rewrite He1. cbn [lift mbind res_bind]. rewrite He2.
  cbn [lift mbind res_bind]. rewrite He3. cbn [lift mbind res_bind]. rewrite He4. cbn [lift mbind res_bind].
  fold e. unfold strategy_pool in Hpool, Hring.
  destruct (min_filter_type m (Z.of_nat l) e).
  - destruct (Sel.lax_covers heap n db query_attrs s2 Hn Hwf2 Hns) as (ids & Hids & Hil & Hin & _).
    destruct (prefilter_run k l s2 node_out ids) as (r & res & -> & Ht & Hm); try done.
    exists res. split; [cbn; by rewrite Ht|]. apply (sound_keeps _ s2); [done..|].
    eapply matches_sound; [|exact Hm]. intros i Hi. by apply Hin, (nearest_spec l ids (id_list_NoDup _ Hil)).
  - destruct (Sel.tree_approx heap n db query_attrs s2 Hn Hwf2 Hap Hns) as (s3 & Hp & _).
    unfold spec_infilter_search. rewrite Hp. cbn [lift mbind res_bind].
    match goal with |- context [results (pipe_search_common ?q _ _ _) _] =>
      destruct (graph_run q s3 k vs sched) as (res & -> & Hok & Hsd); try done; [split; cbn [Pipe.l_pool Pipe.beam_width]; lia|] end.
    exists (List.filter below res). split; [cbn; by rewrite trimmed by (done || apply Hsd)|].
    apply (sound_keeps _ s3); [done| |by apply sound_filter].
    eapply Sel.keeps_trans; [exact Hk|]. by apply Sel.prepare_keeps.
  - unfold spec_postfilter_search.
    match goal with |- context [results (pipe_search_common ?q _ _ _) _] =>
      destruct (graph_run q s2 k vs sched) as (res & -> & Hok & Hsd); try done; [split; cbn [Pipe.l_pool Pipe.beam_width]; lia|] end.
    exists (List.filter below res). split; [cbn; by rewrite trimmed by (done || apply Hsd)|].
    apply (sound_keeps _ s2); [done..|by apply sound_filter].
Qed.

End filtered.

(** ** A concrete index

    The four vectors of the demonstration database in a cycle, each with its id as
    its distance and its row as its attributes. *)

Import AttrInstances.Instances.
Local Open Scope nat_scope.

Definition ring_index : index :=
  mkIndex
    (λ i, mkDisk [i] (if Z.ltb i 0 || Z.leb 4 i then [] else [Z.modulo (i + 1) 4; Z.modulo (i + 2) 4]) []
            (Attributes.serialize (map_to_list (demo_db i))))
    z_dist (λ v, z_dist (hd 0%Z v)) (λ i, i) (λ i, (100 + i)%Z) 0 [].

Definition ring_ids : gset Z := list_to_set (seqZ 0 4).

Lemma four_cases (P : Z → Prop) i : (0 <= i < 4)%Z → P 0%Z → P 1%Z → P 2%Z → P 3%Z → P i.
Proof. intros Hi. assert (i = 0 ∨ i = 1 ∨ i = 2 ∨ i = 3)%Z as [->|[->|[->| ->]]] by lia; done. Qed.

Lemma ring_ids_elem i : i ∈ ring_ids ↔ (0 <= i < 4)%Z.
Proof. unfold ring_ids. rewrite elem_of_list_to_set, elem_of_seqZ. lia. Qed.

Lemma ring_store : store_ok ring_index ring_ids 4 demo_db.
Proof.
  split.
  - intros q Hq. assert (Hs : starts q ring_index = [0%Z]) by (unfold starts; by rewrite Hq).
    split; rewrite ?Hs; simpl.
    + apply z_dist_not_nan.
    + intros v. apply z_dist_not_nan.
    + intros i j _. rewrite app_nil_r, ring_ids_elem. destruct (_ || _); [by intros ?%not_elem_of_nil|].
      rewrite !elem_of_cons. intros [->|[->|H%not_elem_of_nil]]; [by apply Z.mod_pos_bound..|done].
    + intros i ->%list_elem_of_singleton. by apply ring_ids_elem.
    + apply NoDup_singleton.
  - intros i. apply ring_ids_elem.
  - intros i Hi. pattern i. by apply four_cases; [|vm_compute..].
Qed.

Lemma prefilter_search_exact_witness :
  ∃ r res, spec_prefilter_search demo_heap ring_index demo_query 3 4 demo_tree false = Ok r
  ∧ trim_tail r = take 3 (map (tagged ring_index) res)
  ∧ matches ring_index demo_db demo_query demo_tree (seqZ 0 4) res.
Proof.
  destruct (prefilter_search_exact demo_heap ring_index ring_ids 4 demo_db demo_query ring_store 3 4 demo_tree false)
    as (ids & r & res & Hp & Hr & Ht & _ & Hall).
  - unfold is_u32. lia.
  - exact demo_tree_wf.
  - vm_compute. reflexivity.
  - lia.
  - exists r, res. split_and!; [done..|]. apply Hall. revert Hp. vm_compute. intros [= <-].
    apply (bool_decide_unpack _). vm_compute. exact I.
Defined.

(** In-filtering is the cheapest strategy here. *)
Definition demo_sizes : sizes := mkSizes 1000000 4 8 4096 4096.

Lemma filtered_search_sound_witness :
  ∃ res, spec_filter_search demo_heap ring_index demo_query demo_sizes 3 10 4 4 demo_tree false empty_set (replicate 30 2)
         = Ok (Some (take 3 (map (tagged ring_index) res)))
  ∧ sound ring_index 4 demo_db demo_query demo_tree res.
Proof.
  eapply (filtered_search_sound demo_heap ring_index ring_ids 4 demo_db demo_query ring_store demo_sizes 3 10 4 4 demo_tree
            false empty_set (replicate 30 2)).
  - unfold is_u32. lia.
  - exact demo_tree_wf.
  - vm_compute. reflexivity.
  - vm_compute. reflexivity.
  - vm_compute. reflexivity.
  - vm_compute. reflexivity.
  - vm_compute. reflexivity.
  - vm_compute. tauto.
  - lia.
  - lia.
  - apply Nat.leb_le. vm_compute. reflexivity.
  - apply Nat.leb_le. vm_compute. reflexivity.
  - apply empty_set_inv.
  - apply Nat.ltb_lt. vm_compute. reflexivity.
Defined.

End FilterProof.
