(* ===== verification/SqlParser.v ===== *)
(** * The filter language's parser ([include/filter/dsl_compiler.h], lines 239-605)

    A recursive-descent parser from SQL-like filter text to the text of a JSON
    tree.  The lexer's position is the rest of the input; a thrown exception is
    [Err].  The mutually recursive parsing functions take fuel; running out of
    it is the separate outcome [OutOfFuel], which the file proves impossible.

    The grammar is stated as syntax trees ([cmp], [unary], [disj]) with a printer to
    tokens and text, and the tree's JSON value with a JSON printer. *)

From Stdlib Require Import Ascii String ZifyBool.
From S2P Require Import Prelude.

Module Sql.
Open Scope Z_scope.

Notation bytes := (list Z) (only parsing).

(** A literal of the source as bytes. *)
Definition str (s : string) : bytes := map (λ a, Z.of_N (N_of_ascii a)) (list_ascii_of_string s).
Arguments str _%_string_scope.

Definition eqs (a b : bytes) : bool := bool_decide (a = b).

(** ** Outcomes *)

Inductive outcome (A : Type) : Type :=
  | Ok (a : A)
  | Err
  | OutOfFuel.
Arguments Ok {_} _.
Arguments Err {_}.
Arguments OutOfFuel {_}.

#[global] Instance outcome_bind : MBind outcome := λ A B f m,
  match m with Ok a => f a | Err => Err | OutOfFuel => OutOfFuel end.

(** ** Characters ([<cctype>] in the C locale) *)

Definition isspace (c : Z) : bool := (c =? 32) || ((9 <=? c) && (c <=? 13)).
Definition isdigit (c : Z) : bool := (48 <=? c) && (c <=? 57).
Definition isupper (c : Z) : bool := (65 <=? c) && (c <=? 90).
Definition isalpha (c : Z) : bool := isupper c || ((97 <=? c) && (c <=? 122)).
Definition isalnum (c : Z) : bool := isalpha c || isdigit c.
Definition tolower (c : Z) : Z := if isupper c then c + 32 else c.

Definition QUOTE : Z := 34.
Definition SQUOTE : Z := 39.
Definition BACKSLASH : Z := 92.

(** ** Lexer *)

Inductive TokKind := End | Ident | Number | String | LParen | RParen | LBrack | RBrack | Comma | Op.
#[global] Instance TokKind_eq_dec : EqDecision TokKind.
Proof. solve_decision. Defined.

Definition kind_is (a b : TokKind) : bool := bool_decide (a = b).

Record Tok := mkTok { kind : TokKind; text : bytes }.

(** The parser object: the current token and what follows [pos]. *)
Definition SqlParser : Type := Tok * bytes.

Definition lower (s : bytes) : bytes := map tolower s.

Fixpoint skip_ws (s : bytes) : bytes :=
  match s with c :: rest => if isspace c then skip_ws rest else s | [] => [] end.

(** The longest prefix whose characters pass [f], and the rest. *)
Fixpoint span (f : Z → bool) (s : bytes) : bytes * bytes :=
  match s with
  | c :: rest => if f c then let '(w, r) := span f rest in (c :: w, r) else ([], s)
  | [] => ([], [])
  end.

Definition ident_start (c : Z) : bool := isalpha c || (c =? 95) || (c =? 36).
Definition ident_char (d : Z) : bool := isalnum d || (d =? 95) || (d =? 46) || (d =? 36).

Definition unescape (e : Z) : Z :=
  if e =? 110 then 10 else if e =? 114 then 13 else if e =? 116 then 9 else e.

(** The body of a string literal up to its closing quote; [None]: unterminated. *)
Fixpoint string_body (quote : Z) (s : bytes) : option (bytes * bytes) :=
  match s with
  | [] => None
  | d :: rest =>
      if d =? quote then Some ([], rest)
      else if d =? BACKSLASH then
        match rest with
        | e :: rest' => '(w, r) ← string_body quote rest'; Some (unescape e :: w, r)
        | [] => '(w, r) ← string_body quote rest; Some (d :: w, r)
        end
      else '(w, r) ← string_body quote rest; Some (d :: w, r)
  end.

(** The second character of an operator. *)
Definition op_second (c : Z) (rest : bytes) : bytes * bytes :=
  match rest with
  | d :: rest' => if (d =? 61) || ((c =? 60) && (d =? 62)) then ([d], rest') else ([], rest)
  | [] => ([], rest)
  end.

Definition punct (c : Z) : option TokKind :=
  if c =? 40 then Some LParen else if c =? 41 then Some RParen else if c =? 91 then Some LBrack
  else if c =? 93 then Some RBrack else if c =? 44 then Some Comma else None.

Definition is_op_char (c : Z) : bool := (c =? 61) || (c =? 33) || (c =? 60) || (c =? 62).

Definition next (input : bytes) : outcome SqlParser :=
  match skip_ws input with
  | [] => Ok (mkTok End [], [])
  | c :: rest =>
      if ident_start c then
        let '(w, r) := span ident_char rest in Ok (mkTok Ident (c :: w), r)
      else if isdigit c then
        let '(w, r) := span isdigit rest in Ok (mkTok Number (c :: w), r)
      else if (c =? SQUOTE) || (c =? QUOTE) then
        match string_body c rest with Some (w, r) => Ok (mkTok String w, r) | None => Err end
      else match punct c with
           | Some k => Ok (mkTok k [], rest)
           | None =>
               if is_op_char c then let '(w, r) := op_second c rest in Ok (mkTok Op (c :: w), r) else Err
           end
  end.

Definition ident_is (kw : bytes) (p : SqlParser) : bool :=
  kind_is (kind p.1) Ident && eqs (lower (text p.1)) kw.

Definition expect (k : TokKind) (p : SqlParser) : outcome SqlParser :=
  if kind_is (kind p.1) k then next p.2 else Err.

(** ** JSON text *)

(** [std::hex << std::uppercase]: no padding. *)
Definition hex_digit (d : Z) : Z := if d <? 10 then 48 + d else 55 + d.
Definition hex (c : Z) : bytes := if c <? 16 then [hex_digit c] else [hex_digit (c / 16); hex_digit (c mod 16)].

Definition escape_char (c : Z) : bytes :=
  if c =? QUOTE then [BACKSLASH; QUOTE]
  else if c =? BACKSLASH then [BACKSLASH; BACKSLASH]
  else if c =? 8 then BACKSLASH :: str "b"
  else if c =? 12 then BACKSLASH :: str "f"
  else if c =? 10 then BACKSLASH :: str "n"
  else if c =? 13 then BACKSLASH :: str "r"
  else if c =? 9 then BACKSLASH :: str "t"
  else if c <? 32 then BACKSLASH :: str "u" ++ hex c
  else [c].

Definition json_escape (s : bytes) : bytes := concat (map escape_char s).
Definition quoted (s : bytes) : bytes := [QUOTE] ++ s ++ [QUOTE].

Record SqlValue := mkSqlValue { is_string : bool; is_placeholder : bool; sv_s : bytes }.

Definition sv_json (v : SqlValue) : bytes :=
  if is_string v || is_placeholder v then quoted (json_escape (sv_s v)) else sv_s v.

(** [{"op":body}], the shape of the literals in the source. *)
Definition op_text (op body : bytes) : bytes := str "{" ++ quoted op ++ str ":" ++ body ++ str "}".

Definition field_clause (field body : bytes) : bytes := op_text (json_escape field) body.
Definition unary_not (node : bytes) : bytes := op_text (str "$not") node.

Fixpoint commas (nodes : list bytes) : bytes :=
  match nodes with
  | [] => []
  | [n] => n
  | n :: nodes => n ++ str "," ++ commas nodes
  end.

Definition logical (op : bytes) (nodes : list bytes) : bytes :=
  match nodes with
  | [n] => n
  | _ => op_text op (str "[" ++ commas nodes ++ str "]")
  end.

Definition negate_if (negate : bool) (n : bytes) : bytes := if negate then unary_not n else n.

(** ** Parser *)

Definition parse_value (p : SqlParser) : outcome (SqlValue * SqlParser) :=
  let '(tok, rest) := p in
  if kind_is (kind tok) String then p ← next rest; Ok (mkSqlValue true false (text tok), p)
  else if kind_is (kind tok) Number then p ← next rest; Ok (mkSqlValue false false (text tok), p)
  else if ident_is (str "true") p || ident_is (str "false") p then
    let v := if ident_is (str "true") p then str "1" else str "0" in
    p ← next rest; Ok (mkSqlValue false false v, p)
  else if kind_is (kind tok) Ident && match text tok with 36 :: 36 :: _ :: _ => true | _ => false end then
    p ← next rest; Ok (mkSqlValue false true (text tok), p)
  else Err.

(** The values of [a, b, ...] up to the bracket, which stays the current token. *)
Fixpoint array_loop (fuel : nat) (first : bool) (p : SqlParser) : outcome (list bytes * SqlParser) :=
  match fuel with
  | O => OutOfFuel
  | S fuel =>
      if kind_is (kind p.1) RBrack then Ok ([], p)
      else
        p ← (if first then Ok p else expect Comma p);
        '(v, p) ← parse_value p;
        '(vs, p) ← array_loop fuel false p;
        Ok (sv_json v :: vs, p)
  end.

Definition parse_array_values (fuel : nat) (p : SqlParser) : outcome (bytes * SqlParser) :=
  p ← expect LBrack p;
  '(vs, p) ← array_loop fuel true p;
  p ← expect RBrack p;
  Ok (str "[" ++ commas vs ++ str "]", p).

(** [while (tok.kind == Comma)] of IN. *)
Fixpoint in_loop (fuel : nat) (p : SqlParser) : outcome (list SqlValue * SqlParser) :=
  match fuel with
  | O => OutOfFuel
  | S fuel =>
      if kind_is (kind p.1) Comma then
        p ← next p.2;
        '(v, p) ← parse_value p;
        '(vs, p) ← in_loop fuel p;
        Ok (v :: vs, p)
      else Ok ([], p)
  end.

Definition in_values (fuel : nat) (p : SqlParser) : outcome (list SqlValue * SqlParser) :=
  if kind_is (kind p.1) RBrack then Ok ([], p)
  else '(v, p) ← parse_value p; '(vs, p) ← in_loop fuel p; Ok (v :: vs, p).

Definition is_func (func_name : bytes) : bool :=
  eqs func_name (str "array_contains") || eqs func_name (str "array_contains_all")
  || eqs func_name (str "array_contains_any").

(** The argument of the two array functions: a placeholder or a literal array. *)
Definition array_arg (fuel : nat) (p : SqlParser) : outcome (bytes * SqlParser) :=
  if kind_is (kind p.1) Ident then '(v, p) ← parse_value p; Ok (sv_json v, p) else parse_array_values fuel p.

(** [array_contains(field, val)] and the two array variants; [p] is at the parenthesis. *)
Definition parse_func (fuel : nat) (func_name : bytes) (p : SqlParser) : outcome (bytes * SqlParser) :=
  p ← next p.2;
  if negb (kind_is (kind p.1) Ident) then Err else
  let actual_field := text p.1 in
  p ← next p.2;
  p ← expect Comma p;
  '(n, p) ← (if eqs func_name (str "array_contains")
             then '(v, p) ← parse_value p; Ok (field_clause actual_field (sv_json v), p)
             else if eqs func_name (str "array_contains_all")
             then '(a, p) ← array_arg fuel p; Ok (field_clause actual_field (op_text (str "$all") a), p)
             else '(a, p) ← array_arg fuel p; Ok (field_clause actual_field (op_text (str "$in") a), p));
  p ← expect RParen p;
  Ok (n, p).

Definition parse_between (field : bytes) (negate : bool) (p : SqlParser) : outcome (bytes * SqlParser) :=
  p ← next p.2;
  '(lo, p) ← parse_value p;
  if negb (ident_is (str "and") p) then Err else
  p ← next p.2;
  '(hi, p) ← parse_value p;
  Ok (negate_if negate (field_clause field
        (str "{" ++ quoted (str "$ge") ++ str ":" ++ sv_json lo ++ str ","
         ++ quoted (str "$le") ++ str ":" ++ sv_json hi ++ str "}")), p).

Definition parse_in (fuel : nat) (field : bytes) (negate : bool) (p : SqlParser) : outcome (bytes * SqlParser) :=
  p ← next p.2;
  p ← expect LBrack p;
  '(vals, p) ← in_values fuel p;
  p ← expect RBrack p;
  Ok (negate_if negate
        (if forallb (λ v, negb (is_string v)) vals
         then logical (str "$or") (map (λ v, field_clause field (sv_json v)) vals)
         else field_clause field (op_text (str "$in") (str "[" ++ commas (map sv_json vals) ++ str "]"))), p).

(** [find] of a character, from [i] on. *)
Definition has_char (c : Z) (s : bytes) : bool := existsb (Z.eqb c) s.

(** The pattern's class: [p%], [%s], no wildcard, or general. *)
Definition like_node (field s : bytes) : bytes :=
  if match last s with Some c => c =? 37 | None => false end && negb (has_char 37 (removelast s)) && negb (has_char 95 s)
  then field_clause field (op_text (str "$prefix") (sv_json (mkSqlValue true false (removelast s))))
  else if match s with c :: s' => (c =? 37) && negb (has_char 37 s') | [] => false end && negb (has_char 95 s)
  then field_clause field (op_text (str "$suffix") (sv_json (mkSqlValue true false (tail s))))
  else if negb (has_char 37 s) && negb (has_char 95 s)
  then field_clause field (sv_json (mkSqlValue true false s))
  else field_clause field (op_text (str "$like") (sv_json (mkSqlValue true false s))).

Definition parse_like (field : bytes) (negate : bool) (p : SqlParser) : outcome (bytes * SqlParser) :=
  p ← next p.2;
  '(v, p) ← parse_value p;
  if negb (is_string v) then Err else Ok (negate_if negate (like_node field (sv_s v)), p).

Definition cmp_node (field op : bytes) (v : SqlValue) : outcome bytes :=
  if eqs op (str "=") || eqs op (str "==") then Ok (field_clause field (sv_json v))
  else if eqs op (str "!=") || eqs op (str "<>") then Ok (field_clause field (op_text (str "$ne") (sv_json v)))
  else if eqs op (str ">") then Ok (field_clause field (op_text (str "$gt") (sv_json v)))
  else if eqs op (str ">=") then Ok (field_clause field (op_text (str "$ge") (sv_json v)))
  else if eqs op (str "<") then Ok (field_clause field (op_text (str "$lt") (sv_json v)))
  else if eqs op (str "<=") then Ok (field_clause field (op_text (str "$le") (sv_json v)))
  else Err.

Definition parse_op (field : bytes) (negate : bool) (p : SqlParser) : outcome (bytes * SqlParser) :=
  if negb (kind_is (kind p.1) Op) then Err else
  let op := text p.1 in
  p ← next p.2;
  '(v, p) ← parse_value p;
  n ← cmp_node field op v;
  Ok (negate_if negate n, p).

Definition parse_cmp (fuel : nat) (p : SqlParser) : outcome (bytes * SqlParser) :=
  if negb (kind_is (kind p.1) Ident) then Err else
  let field := text p.1 in
  p ← next p.2;
  if is_func (lower field) && kind_is (kind p.1) LParen then parse_func fuel (lower field) p
  else
    '(negate, p) ← (if ident_is (str "not") p then p ← next p.2; Ok (true, p) else Ok (false, p));
    if ident_is (str "between") p then parse_between field negate p
    else if ident_is (str "in") p then parse_in fuel field negate p
    else if ident_is (str "like") p then parse_like field negate p
    else parse_op field negate p.

Fixpoint parse_or (fuel : nat) (p : SqlParser) : outcome (bytes * SqlParser) :=
  match fuel with
  | O => OutOfFuel
  | S fuel =>
      '(n, p) ← parse_and fuel p;
      '(ns, p) ← or_loop fuel p;
      Ok (logical (str "$or") (n :: ns), p)
  end
with or_loop (fuel : nat) (p : SqlParser) : outcome (list bytes * SqlParser) :=
  match fuel with
  | O => OutOfFuel
  | S fuel =>
      if ident_is (str "or") p then
        p ← next p.2;
        '(n, p) ← parse_and fuel p;
        '(ns, p) ← or_loop fuel p;
        Ok (n :: ns, p)
      else Ok ([], p)
  end
with parse_and (fuel : nat) (p : SqlParser) : outcome (bytes * SqlParser) :=
  match fuel with
  | O => OutOfFuel
  | S fuel =>
      '(n, p) ← parse_unary fuel p;
      '(ns, p) ← and_loop fuel p;
      Ok (logical (str "$and") (n :: ns), p)
  end
with and_loop (fuel : nat) (p : SqlParser) : outcome (list bytes * SqlParser) :=
  match fuel with
  | O => OutOfFuel
  | S fuel =>
      if ident_is (str "and") p then
        p ← next p.2;
        '(n, p) ← parse_unary fuel p;
        '(ns, p) ← and_loop fuel p;
        Ok (n :: ns, p)
      else Ok ([], p)
  end
with parse_unary (fuel : nat) (p : SqlParser) : outcome (bytes * SqlParser) :=
  match fuel with
  | O => OutOfFuel
  | S fuel =>
      if ident_is (str "not") p then
        p ← next p.2;
        '(n, p) ← parse_unary fuel p;
        Ok (unary_not n, p)
      else if kind_is (kind p.1) LParen then
        p ← next p.2;
        '(n, p) ← parse_or fuel p;
        p ← expect RParen p;
        Ok (n, p)
      else parse_cmp fuel p
  end.

(** Four steps a character are enough (below). *)
Definition parse_fuel (expr : bytes) : nat := (4 * length expr + 4)%nat.

Definition sql_to_mongo_json (expr : bytes) : outcome bytes :=
  p ← next expr;
  '(out, p) ← parse_or (parse_fuel expr) p;
  if kind_is (kind p.1) End then Ok out else Err.

Definition trim_left (s : bytes) : bytes := skip_ws s.

(** ** Termination *)

(** Characters left, and one for a current token. *)
Definition left (p : SqlParser) : nat := (length p.2 + if kind_is (kind p.1) End then 0 else 1)%nat.

(** The run does not exhaust its fuel and leaves at most [m]. *)
Definition steps (m : nat) (r : outcome SqlParser) : Prop :=
  match r with Ok p => (left p <= m)%nat | Err => True | OutOfFuel => False end.
Definition runs {A} (m : nat) (r : outcome (A * SqlParser)) : Prop :=
  match r with Ok (_, p) => (left p <= m)%nat | Err => True | OutOfFuel => False end.

Lemma steps_bind {A} m m' r (f : SqlParser → outcome (A * SqlParser)) :
  steps m r → (∀ p, (left p <= m)%nat → runs m' (f p)) → runs m' (r ≫= f).
Proof. destruct r as [p| |]; simpl; auto. Qed.

Lemma runs_bind {A B} m m' r (f : A * SqlParser → outcome (B * SqlParser)) :
  runs m r → (∀ a p, (left p <= m)%nat → runs m' (f (a, p))) → runs m' (r ≫= f).
Proof. destruct r as [[a p]| |]; simpl; auto. Qed.

Lemma runs_mono {A} m m' (r : outcome (A * SqlParser)) : runs m r → (m <= m')%nat → runs m' r.
Proof. destruct r as [[a p]| |]; simpl; [lia|done|done]. Qed.

Lemma span_length f s : (length (span f s).2 <= length s)%nat.
Proof.
  induction s as [|c s IH]; simpl; [done|]. destruct (f c); simpl; [|done].
  destruct (span f s) as [w r]. simpl in *. lia.
Qed.

Lemma skip_ws_length s : (length (skip_ws s) <= length s)%nat.
Proof. induction s as [|c s IH]; simpl; [done|]. destruct (isspace c); simpl; lia. Qed.

Lemma string_body_length q n s w r :
  (length s <= n)%nat → string_body q s = Some (w, r) → (length r < length s)%nat.
Proof.
  revert s w r. induction n as [|n IH]; intros s w r Hle; destruct s as [|d s]; simpl in *; try done; [lia|].
  destruct (d =? q); [intros [= <- <-]; lia|]. destruct (d =? BACKSLASH).
  - destruct s as [|e s]; [done|].
    destruct (string_body q s) as [[w' r']|] eqn:E; [|done]. intros [= <- <-].
    specialize (IH s w' r' ltac:(simpl in *; lia) E). simpl. lia.
  - destruct (string_body q s) as [[w' r']|] eqn:E; [|done]. intros [= <- <-].
    specialize (IH s w' r' ltac:(lia) E). lia.
Qed.

Lemma left_le p : (left p <= length p.2 + 1)%nat.
Proof. unfold left. destruct (kind_is _ _); lia. Qed.

Lemma next_steps s : steps (length s) (next s).
Proof.
  unfold next. pose proof (skip_ws_length s) as Hs. destruct (skip_ws s) as [|c rest];
    [change (0 <= length s)%nat; lia|]. simpl in Hs.
  repeat case_match; simpl in *; try done; (eapply Nat.le_trans; [apply left_le|]); simpl.
  - pose proof (span_length ident_char rest) as H1. rewrite H0 in H1. simpl in H1. lia.
  - pose proof (span_length isdigit rest) as H2. rewrite H1 in H2. simpl in H2. lia.
  - apply (string_body_length _ _ _ _ _ (le_n _)) in H2. lia.
  - lia.
  - unfold op_second in *. repeat case_match; simplify_eq/=; lia.
Qed.

Lemma next_left p : kind (p.1) ≠ End → steps (left p - 1) (next p.2).
Proof.
  intros Hk. pose proof (next_steps p.2) as H. unfold left, kind_is.
  rewrite bool_decide_false by done. by replace (length p.2 + 1 - 1)%nat with (length p.2) by lia.
Qed.

Lemma kind_is_true a b : kind_is a b = true → a = b.
Proof. apply bool_decide_eq_true. Qed.

Lemma ident_is_kind kw p : ident_is kw p = true → kind p.1 = Ident.
Proof. unfold ident_is. intros [H _]%andb_true_iff. by apply kind_is_true. Qed.

Lemma left_pos p : kind p.1 ≠ End → (0 < left p)%nat.
Proof. intros H. unfold left, kind_is. rewrite bool_decide_false by done. lia. Qed.

Lemma expect_steps k p : k ≠ End → steps (left p - 1) (expect k p).
Proof.
  intros Hk. unfold expect. destruct (kind_is (kind p.1) k) eqn:E; [|done]. apply kind_is_true in E.
  apply next_left. congruence.
Qed.

Lemma parse_value_runs p : runs (left p - 1) (parse_value p).
Proof.
  destruct p as [tok rest]. unfold parse_value.
  assert (∀ v, kind tok ≠ End →
    runs (left (tok, rest) - 1) (next rest ≫= λ p, Ok (mkSqlValue v.1.1 v.1.2 v.2, p))) as H.
  { intros v Hk. eapply steps_bind; [exact (next_left (tok, rest) Hk)|]. done. }
  destruct (kind_is (kind tok) String) eqn:E1;
    [apply (H (true, false, text tok)); apply kind_is_true in E1; congruence|].
  destruct (kind_is (kind tok) Number) eqn:E2;
    [apply (H (false, false, text tok)); apply kind_is_true in E2; congruence|].
  destruct (ident_is (str "true") (tok, rest) || ident_is (str "false") (tok, rest)) eqn:E3.
  { assert (kind tok = Ident) as Hk by (apply orb_true_iff in E3 as [E3|E3]; by apply ident_is_kind in E3).
    apply (H (false, false, _)). congruence. }
  destruct (kind_is (kind tok) Ident && _) eqn:E4; [|done].
  apply andb_true_iff in E4 as [E4 _]. apply kind_is_true in E4. apply (H (false, true, text tok)). congruence.
Qed.

(** Steps of the proofs below: run a part, keep what it leaves. *)
Ltac run_next := eapply steps_bind; [apply next_left; try congruence|cbv beta; intros ? ?].
Ltac run_expect := eapply steps_bind; [apply expect_steps; done|cbv beta; intros ? ?].
Ltac run_value := eapply runs_bind; [apply parse_value_runs|cbv beta iota; intros ? ? ?].

Lemma array_loop_runs fuel first p : (left p < fuel)%nat → runs (left p) (array_loop fuel first p).
Proof.
  revert first p. induction fuel as [|fuel IH]; intros first p Hf; [lia|]. simpl.
  destruct (kind_is (kind p.1) RBrack); [simpl; lia|].
  eapply (steps_bind (left p)).
  { destruct first; [simpl; lia|]. pose proof (expect_steps Comma p ltac:(done)) as H.
    destruct (expect Comma p); simpl in *; lia || done. }
  intros p1 H1. destruct (decide (kind p1.1 = End)) as [Hk|Hk].
  { unfold parse_value, ident_is. destruct p1 as [tok rest]. cbn [fst] in *. rewrite Hk. exact I. }
  pose proof (left_pos p1 Hk). run_value.
  eapply (runs_bind (left p - 1)); [eapply runs_mono; [apply IH|]; lia|]. intros vs p3 H3. simpl. lia.
Qed.

Lemma parse_array_runs fuel p : (left p < fuel)%nat → runs (left p) (parse_array_values fuel p).
Proof.
  intros Hf. unfold parse_array_values. run_expect. eapply runs_bind; [apply array_loop_runs; lia|].
  cbv beta iota. intros vs p2 H2. run_expect. simpl. lia.
Qed.

Lemma in_loop_runs fuel p : (left p < fuel)%nat → runs (left p) (in_loop fuel p).
Proof.
  revert p. induction fuel as [|fuel IH]; intros p Hf; [lia|]. simpl.
  destruct (kind_is (kind p.1) Comma) eqn:E; [|simpl; lia]. apply kind_is_true in E.
  assert (0 < left p)%nat by (apply left_pos; congruence). run_next. run_value.
  eapply runs_bind; [apply IH; lia|]. intros vs p3 H3. simpl. lia.
Qed.

Lemma in_values_runs fuel p : (left p < fuel)%nat → runs (left p) (in_values fuel p).
Proof.
  intros Hf. unfold in_values. destruct (kind_is (kind p.1) RBrack); [simpl; lia|]. run_value.
  eapply runs_bind; [apply in_loop_runs; lia|]. intros vs p3 H3. simpl. lia.
Qed.

Lemma array_arg_runs fuel p : (left p < fuel)%nat → runs (left p) (array_arg fuel p).
Proof.
  intros Hf. unfold array_arg. destruct (kind_is _ _); [|by apply parse_array_runs]. run_value. simpl. lia.
Qed.

Lemma parse_func_runs fuel fn p :
  kind p.1 ≠ End → (left p < fuel)%nat → runs (left p) (parse_func fuel fn p).
Proof.
  intros Hk Hf. unfold parse_func. run_next. destruct (kind_is _ Ident) eqn:E; [|done]. apply kind_is_true in E.
  simpl. run_next. run_expect.
  eapply (runs_bind (left p)).
  - destruct (eqs fn _); [run_value; simpl; lia|].
    destruct (eqs fn _); (eapply runs_bind; [apply array_arg_runs; lia|]; intros a p3 H3; simpl; lia).
  - intros n p3 H3. run_expect. simpl. lia.
Qed.

Lemma cmp_node_fuel field op v : cmp_node field op v ≠ OutOfFuel.
Proof.
  unfold cmp_node.
  repeat match goal with |- (if ?b then _ else _) ≠ _ => destruct b; [discriminate|] end. discriminate.
Qed.

Lemma parse_cmp_runs fuel p : (left p < fuel)%nat → runs (left p - 1) (parse_cmp fuel p).
Proof.
  intros Hf. unfold parse_cmp. destruct (kind_is _ Ident) eqn:E; [|done]. apply kind_is_true in E. simpl.
  assert (0 < left p)%nat by (apply left_pos; congruence). run_next.
  rename p0 into p1. destruct (is_func _ && kind_is _ _) eqn:Ef.
  { apply andb_true_iff in Ef as [_ Ef]. apply kind_is_true in Ef.
    eapply runs_mono; [apply parse_func_runs; [congruence|lia]|lia]. }
  eapply (runs_bind (left p - 1)).
  { destruct (ident_is (str "not") p1) eqn:En; [|simpl; lia].
    apply ident_is_kind in En. run_next. simpl. lia. }
  intros negate p2 H2.
  destruct (ident_is (str "between") p2) eqn:Eb; [apply ident_is_kind in Eb|].
  2: destruct (ident_is (str "in") p2) eqn:Ei; [apply ident_is_kind in Ei|].
  3: destruct (ident_is (str "like") p2) eqn:El; [apply ident_is_kind in El|].
  - unfold parse_between. run_next. run_value. destruct (ident_is (str "and") _) eqn:Ea; [|done]. simpl.
    apply ident_is_kind in Ea. run_next. run_value. simpl. lia.
  - unfold parse_in. run_next. run_expect. eapply runs_bind; [apply in_values_runs; lia|]. cbv beta iota.
    intros vs p5 H5. run_expect. simpl. lia.
  - unfold parse_like. run_next. run_value. destruct (is_string _); simpl; [lia|done].
  - unfold parse_op. destruct (kind_is _ Op) eqn:Eo; [|done]. apply kind_is_true in Eo. simpl. run_next. run_value.
    pose proof (cmp_node_fuel (text p.1) (text p2.1) a). destruct (cmp_node _ _ a); simpl; [lia|done|done].
Qed.

(** The recursive functions, by the fuel. *)
Lemma parser_runs fuel :
  (∀ p, (4 * left p + 4 <= fuel)%nat → runs (left p - 1) (parse_or fuel p))
  ∧ (∀ p, (4 * left p + 3 <= fuel)%nat → runs (left p) (or_loop fuel p))
  ∧ (∀ p, (4 * left p + 3 <= fuel)%nat → runs (left p - 1) (parse_and fuel p))
  ∧ (∀ p, (4 * left p + 2 <= fuel)%nat → runs (left p) (and_loop fuel p))
  ∧ (∀ p, (4 * left p + 2 <= fuel)%nat → runs (left p - 1) (parse_unary fuel p)).
Proof.
  induction fuel as [|fuel (IHo & IHol & IHa & IHal & IHu)]; [split_and!; intros; lia|].
  split_and!; intros p Hf; simpl.
  - eapply runs_bind; [apply IHa; lia|]. intros n p1 H1. cbv beta iota.
    eapply runs_bind; [apply IHol; lia|]. intros ns p2 H2. simpl. lia.
  - destruct (ident_is (str "or") p) eqn:E; [|simpl; lia]. apply ident_is_kind in E.
    assert (0 < left p)%nat by (apply left_pos; congruence). run_next.
    eapply runs_bind; [apply IHa; lia|]. intros n p1 H1. cbv beta iota.
    eapply runs_bind; [apply IHol; lia|]. intros ns p2 H2. simpl. lia.
  - eapply runs_bind; [apply IHu; lia|]. intros n p1 H1. cbv beta iota.
    eapply runs_bind; [apply IHal; lia|]. intros ns p2 H2. simpl. lia.
  - destruct (ident_is (str "and") p) eqn:E; [|simpl; lia]. apply ident_is_kind in E.
    assert (0 < left p)%nat by (apply left_pos; congruence). run_next.
    eapply runs_bind; [apply IHu; lia|]. intros n p1 H1. cbv beta iota.
    eapply runs_bind; [apply IHal; lia|]. intros ns p2 H2. simpl. lia.
  - destruct (ident_is (str "not") p) eqn:E.
    { apply ident_is_kind in E. assert (0 < left p)%nat by (apply left_pos; congruence). run_next.
      eapply runs_bind; [apply IHu; lia|]. intros n p1 H1. simpl. lia. }
    destruct (kind_is (kind p.1) LParen) eqn:E2; [|apply parse_cmp_runs; lia]. apply kind_is_true in E2.
    assert (0 < left p)%nat by (apply left_pos; congruence). run_next.
    eapply runs_bind; [apply IHo; lia|]. intros n p1 H1. cbv beta iota. run_expect. simpl. lia.
Qed.

(** parsing a filter always ends: on every input, of any length and shape, the
    parser returns JSON text or throws; the recursion and the loops never exceed
    four steps for each character. *)
Theorem sql_parser_terminates expr : sql_to_mongo_json expr ≠ OutOfFuel.
Proof.
  unfold sql_to_mongo_json. pose proof (next_steps expr) as Hn.
  destruct (next expr) as [p| |]; [|done|done]. simpl in Hn. cbn [mbind outcome_bind].
  destruct (parser_runs (parse_fuel expr)) as [Hor _]. specialize (Hor p ltac:(unfold parse_fuel; lia)).
  destruct (parse_or _ p) as [[out p']| |]; [|done|done]. simpl. by destruct (kind_is _ _).
Qed.

Lemma sql_parser_terminates_witness :
  sql_to_mongo_json (str "(((((") ≠ OutOfFuel ∧ sql_to_mongo_json (str "(((((") = Err.
Proof. split; [apply (sql_parser_terminates (str "(((((")) | vm_compute; reflexivity]. Defined.

(** * The grammar *)

Inductive lit := LNum (n : Z) | LStr (s : bytes) | LBool (b : bool) | LVar (x : bytes).
Inductive cmpop := OEq | ONe | OGt | OGe | OLt | OLe.
Inductive array_lit := AVals (vs : list lit) | AVar (x : bytes).

Inductive cmp :=
  | CCmp (field : bytes) (negate : bool) (op : cmpop) (v : lit)
  | CBetween (field : bytes) (negate : bool) (lo hi : lit)
  | CIn (field : bytes) (negate : bool) (vs : list lit)
  | CLike (field : bytes) (negate : bool) (pattern : bytes)
  | CContains (field : bytes) (v : lit)
  | CContainsAll (field : bytes) (a : array_lit)
  | CContainsAny (field : bytes) (a : array_lit).

(** A factor, and below the parentheses a disjunction of conjunctions of factors. *)
Inductive unary :=
  | UCmp (c : cmp)
  | UNot (u : unary)
  | UParen (e : list (list unary)).
Notation disj := (list (list unary)) (only parsing).

(** ** Its text *)

(** Decimal digits, for numbers below 10^20. *)
Fixpoint dec_loop (fuel : nat) (n : Z) (acc : bytes) : bytes :=
  match fuel with
  | O => acc
  | S fuel =>
      let acc := (48 + n mod 10) :: acc in
      if n / 10 =? 0 then acc else dec_loop fuel (n / 10) acc
  end.
Definition dec (n : Z) : bytes := dec_loop 20 n [].

Definition kw (s : bytes) : Tok := mkTok Ident s.
Definition tok_lit (l : lit) : Tok :=
  match l with
  | LNum n => mkTok Number (dec n)
  | LStr s => mkTok String s
  | LBool b => kw (if b then str "true" else str "false")
  | LVar x => mkTok Ident (36 :: 36 :: x)
  end.
Definition op_chars (op : cmpop) : bytes :=
  match op with
  | OEq => str "=" | ONe => str "!=" | OGt => str ">" | OGe => str ">=" | OLt => str "<" | OLe => str "<="
  end.

Definition toks_tail (vs : list lit) : list Tok := flat_map (λ v, [mkTok Comma []; tok_lit v]) vs.
Definition toks_vals (vs : list lit) : list Tok :=
  match vs with [] => [] | v :: vs => tok_lit v :: toks_tail vs end.
Definition toks_array (vs : list lit) : list Tok :=
  mkTok LBrack [] :: toks_vals vs ++ [mkTok RBrack []].
Definition toks_arg (a : array_lit) : list Tok :=
  match a with AVals vs => toks_array vs | AVar x => [tok_lit (LVar x)] end.
Definition toks_neg (negate : bool) : list Tok := if negate then [kw (str "not")] else [].
Definition toks_func (func field : bytes) (arg : list Tok) : list Tok :=
  kw func :: mkTok LParen [] :: mkTok Ident field :: mkTok Comma [] :: arg ++ [mkTok RParen []].

Definition toks_cmp (c : cmp) : list Tok :=
  match c with
  | CCmp field negate op v => mkTok Ident field :: toks_neg negate ++ [mkTok Op (op_chars op); tok_lit v]
  | CBetween field negate lo hi =>
      mkTok Ident field :: toks_neg negate ++ [kw (str "between"); tok_lit lo; kw (str "and"); tok_lit hi]
  | CIn field negate vs => mkTok Ident field :: toks_neg negate ++ kw (str "in") :: toks_array vs
  | CLike field negate p => mkTok Ident field :: toks_neg negate ++ [kw (str "like"); mkTok String p]
  | CContains field v => toks_func (str "array_contains") field [tok_lit v]
  | CContainsAll field a => toks_func (str "array_contains_all") field (toks_arg a)
  | CContainsAny field a => toks_func (str "array_contains_any") field (toks_arg a)
  end.

(** The operands after the first, each after its operator. *)
Definition op_tail {A} (op : bytes) (f : A → list Tok) (l : list A) : list Tok := flat_map (λ x, kw op :: f x) l.
Definition op_list {A} (op : bytes) (f : A → list Tok) (l : list A) : list Tok :=
  match l with [] => [] | x :: l => f x ++ op_tail op f l end.

Fixpoint toks_unary (u : unary) : list Tok :=
  match u with
  | UCmp c => toks_cmp c
  | UNot u => kw (str "not") :: toks_unary u
  | UParen e => mkTok LParen [] :: op_list (str "or") (op_list (str "and") toks_unary) e ++ [mkTok RParen []]
  end.
Definition toks_and (us : list unary) : list Tok := op_list (str "and") toks_unary us.
Definition toks_or (e : disj) : list Tok := op_list (str "or") toks_and e.

Definition quote_char (c : Z) : bytes := if (c =? SQUOTE) || (c =? BACKSLASH) then [BACKSLASH; c] else [c].
Definition print_tok (t : Tok) : bytes :=
  match kind t with
  | Ident | Number | Op => text t
  | String => [SQUOTE] ++ flat_map quote_char (text t) ++ [SQUOTE]
  | LParen => str "(" | RParen => str ")" | LBrack => str "[" | RBrack => str "]" | Comma => str ","
  | End => []
  end.
Definition print (ts : list Tok) : bytes := flat_map (λ t, 32 :: print_tok t) ts.

(** ** Its JSON tree *)

Inductive json :=
  | JNull
  | JBool (b : bool)
  | JNum (n : Z)
  | JStr (s : bytes)
  | JArr (l : list json)
  | JObj (l : list (bytes * json)).

Fixpoint render (j : json) : bytes :=
  match j with
  | JNull => str "null"
  | JBool b => if b then str "true" else str "false"
  | JNum n => dec n
  | JStr s => quoted (json_escape s)
  | JArr l => str "[" ++ commas (map render l) ++ str "]"
  | JObj l => str "{" ++ commas (map (λ kv, quoted (json_escape kv.1) ++ str ":" ++ render kv.2) l) ++ str "}"
  end.

Definition json_lit (l : lit) : json :=
  match l with
  | LNum n => JNum n
  | LStr s => JStr s
  | LBool b => JNum (if b then 1 else 0)
  | LVar x => JStr (36 :: 36 :: x)
  end.
Definition json_arg (a : array_lit) : json :=
  match a with AVals vs => JArr (map json_lit vs) | AVar x => json_lit (LVar x) end.
Definition obj1 (k : bytes) (j : json) : json := JObj [(k, j)].
Definition json_logical (op : bytes) (js : list json) : json :=
  match js with [j] => j | _ => obj1 op (JArr js) end.
Definition json_neg (negate : bool) (j : json) : json := if negate then obj1 (str "$not") j else j.

Definition is_str_lit (l : lit) : bool := match l with LStr _ => true | _ => false end.

Definition json_op (op : cmpop) (j : json) : json :=
  match op with
  | OEq => j
  | ONe => obj1 (str "$ne") j
  | OGt => obj1 (str "$gt") j
  | OGe => obj1 (str "$ge") j
  | OLt => obj1 (str "$lt") j
  | OLe => obj1 (str "$le") j
  end.

Definition json_like (p : bytes) : json :=
  if match last p with Some c => c =? 37 | None => false end && negb (has_char 37 (removelast p)) && negb (has_char 95 p)
  then obj1 (str "$prefix") (JStr (removelast p))
  else if match p with c :: p' => (c =? 37) && negb (has_char 37 p') | [] => false end && negb (has_char 95 p)
  then obj1 (str "$suffix") (JStr (tail p))
  else if negb (has_char 37 p) && negb (has_char 95 p) then JStr p
  else obj1 (str "$like") (JStr p).

Definition json_cmp (c : cmp) : json :=
  match c with
  | CCmp field negate op v => json_neg negate (obj1 field (json_op op (json_lit v)))
  | CBetween field negate lo hi =>
      json_neg negate (obj1 field (JObj [(str "$ge", json_lit lo); (str "$le", json_lit hi)]))
  | CIn field negate vs =>
      json_neg negate
        (if forallb (λ v, negb (is_str_lit v)) vs
         then json_logical (str "$or") (map (λ v, obj1 field (json_lit v)) vs)
         else obj1 field (obj1 (str "$in") (JArr (map json_lit vs))))
  | CLike field negate p => json_neg negate (obj1 field (json_like p))
  | CContains field v => obj1 field (json_lit v)
  | CContainsAll field a => obj1 field (obj1 (str "$all") (json_arg a))
  | CContainsAny field a => obj1 field (obj1 (str "$in") (json_arg a))
  end.

Fixpoint json_unary (u : unary) : json :=
  match u with
  | UCmp c => json_cmp c
  | UNot u => obj1 (str "$not") (json_unary u)
  | UParen e => json_logical (str "$or") (map (λ us, json_logical (str "$and") (map json_unary us)) e)
  end.
Definition json_and (us : list unary) : json := json_logical (str "$and") (map json_unary us).
Definition json_or (e : disj) : json := json_logical (str "$or") (map json_and e).

(** ** Well-formed trees *)

Definition ident_ok (s : bytes) : Prop :=
  match s with [] => False | c :: w => ident_start c = true ∧ forallb ident_char w = true end.
(** A field whose name is not the keyword NOT. *)
Definition field_ok (s : bytes) : Prop := ident_ok s ∧ lower s ≠ str "not".
Definition lit_ok (l : lit) : Prop :=
  match l with
  | LNum n => 0 <= n < 10 ^ 20
  | LStr _ | LBool _ => True
  | LVar x => x ≠ [] ∧ forallb ident_char x = true
  end.
Definition arg_ok (a : array_lit) : Prop :=
  match a with AVals vs => Forall lit_ok vs | AVar x => lit_ok (LVar x) end.
Definition cmp_ok (c : cmp) : Prop :=
  match c with
  | CCmp f _ _ v => field_ok f ∧ lit_ok v
  | CBetween f _ lo hi => field_ok f ∧ lit_ok lo ∧ lit_ok hi
  | CIn f _ vs => field_ok f ∧ Forall lit_ok vs
  | CLike f _ _ => field_ok f
  | CContains f v => ident_ok f ∧ lit_ok v
  | CContainsAll f a | CContainsAny f a => ident_ok f ∧ arg_ok a
  end.

Inductive unary_ok : unary → Prop :=
  | ok_cmp c : cmp_ok c → unary_ok (UCmp c)
  | ok_not u : unary_ok u → unary_ok (UNot u)
  | ok_paren e : e ≠ [] → Forall (λ us, us ≠ []) e → Forall (Forall unary_ok) e → unary_ok (UParen e).
Definition conj_ok (us : list unary) : Prop := us ≠ [] ∧ Forall unary_ok us.
Definition disj_ok (e : disj) : Prop := e ≠ [] ∧ Forall (λ us, us ≠ []) e ∧ Forall (Forall unary_ok) e.

(** ** Lexing the printed text *)

Definition tok_ok (t : Tok) : Prop :=
  match kind t with
  | Ident => ident_ok (text t)
  | Number => text t ≠ [] ∧ forallb isdigit (text t) = true
  | String => True
  | Op => ∃ op, text t = op_chars op
  | End => False
  | _ => text t = []
  end.

(** The parser at a list of tokens. *)
Definition at_ (ts : list Tok) : SqlParser :=
  match ts with [] => (mkTok End [], []) | t :: ts => (t, print ts) end.

(** What ends a word. *)
Definition ends (f : Z → bool) (r : bytes) : Prop := match r with [] => True | c :: _ => f c = false end.

Lemma span_app f w r : forallb f w = true → ends f r → span f (w ++ r) = (w, r).
Proof.
  induction w as [|c w IH]; simpl.
  - intros _. destruct r as [|c r]; simpl; [done|]. by intros ->.
  - intros [-> Hw]%andb_true_iff Hr. by rewrite IH.
Qed.

Lemma print_ends f ts : f 32 = false → ends f (print ts).
Proof. by destruct ts. Qed.

Lemma string_body_quoted s r : string_body SQUOTE (flat_map quote_char s ++ SQUOTE :: r) = Some (s, r).
Proof.
  induction s as [|c s IH]; [done|]. simpl. unfold quote_char at 1.
  destruct (Z.eqb_spec c SQUOTE) as [->|Hq]; [simpl; by rewrite IH|].
  destruct (Z.eqb_spec c BACKSLASH) as [->|Hb]; [simpl; by rewrite IH|]. simpl.
  rewrite (proj2 (Z.eqb_neq _ _) Hq), (proj2 (Z.eqb_neq _ _) Hb), IH. done.
Qed.

Lemma ident_start_not c : ident_start c = true →
  isspace c = false ∧ isdigit c = false.
Proof.
  unfold ident_start, isspace, isdigit, isalpha, isupper. intros H. lia.
Qed.

Lemma digit_not c : isdigit c = true → isspace c = false ∧ ident_start c = false.
Proof.
  unfold ident_start, isspace, isdigit, isalpha, isupper. intros H. lia.
Qed.

Lemma next_ident c s : ident_start c = true →
  next (32 :: c :: s) = let '(w, r) := span ident_char s in Ok (mkTok Ident (c :: w), r).
Proof.
  intros Hc. destruct (ident_start_not c Hc) as [Hs _]. unfold next. cbn [skip_ws].
  change (isspace 32) with true. cbv iota. by rewrite Hs, Hc.
Qed.

Lemma next_number c s : isdigit c = true →
  next (32 :: c :: s) = let '(w, r) := span isdigit s in Ok (mkTok Number (c :: w), r).
Proof.
  intros Hc. destruct (digit_not c Hc) as [Hs Hi]. unfold next. cbn [skip_ws].
  change (isspace 32) with true. cbv iota. by rewrite Hs, Hi, Hc.
Qed.

Lemma next_at ts : Forall tok_ok ts → next (print ts) = Ok (at_ ts).
Proof.
  destruct ts as [|t ts]; [done|]. intros [Ht _]%Forall_cons. destruct t as [k w]. unfold tok_ok in Ht. simpl in Ht.
  unfold print. cbn [flat_map]. fold (print ts). unfold print_tok. cbn [kind text].
  destruct k; try (subst w; reflexivity).
  - done.
  - destruct w as [|c w]; [done|]. destruct Ht as [Hc Hw]. destruct (ident_start_not c Hc) as [Hs Hd].
    cbn [app]. rewrite next_ident by done.
    rewrite span_app by (done || by apply print_ends). done.
  - destruct Ht as [Hne Hw]. destruct w as [|c w]; [done|]. simpl in Hw. apply andb_true_iff in Hw as [Hc Hw].
    cbn [app]. rewrite next_number by done.
    rewrite span_app by (done || by apply print_ends). done.
  - cbn [app]. rewrite <- app_assoc. cbn [app]. unfold next. cbn [skip_ws].
    change (isspace 32) with true. change (isspace SQUOTE) with false. cbv iota.
    change (ident_start SQUOTE) with false. change (isdigit SQUOTE) with false.
    change ((SQUOTE =? SQUOTE) || (SQUOTE =? QUOTE)) with true. cbv iota.
    by rewrite string_body_quoted.
  - destruct Ht as [op ->]. destruct op, ts; reflexivity.
Qed.

Lemma next_at_cons t ts : Forall tok_ok (t :: ts) → next (at_ (t :: ts)).2 = Ok (at_ ts).
Proof. intros [_ H]%Forall_cons. by apply next_at. Qed.

Lemma dec_loop_digits fuel n acc :
  0 <= n → forallb isdigit acc = true → forallb isdigit (dec_loop fuel n acc) = true.
Proof.
  revert n acc. induction fuel as [|fuel IH]; intros n acc Hn Ha; [done|]. simpl.
  assert (isdigit (48 + n mod 10) = true) as Hd.
  { pose proof (Z.mod_pos_bound n 10 ltac:(lia)). unfold isdigit. rewrite andb_true_iff, !Z.leb_le. lia. }
  case_match; [simpl; by rewrite Hd|]. apply IH; [apply Z.div_pos; lia|]. simpl. by rewrite Hd.
Qed.

Lemma dec_loop_nonempty fuel n acc : acc ≠ [] → dec_loop fuel n acc ≠ [].
Proof.
  revert n acc. induction fuel as [|fuel IH]; intros n acc Ha; [done|]. simpl. case_match; [done|]. by apply IH.
Qed.

Lemma dec_loop_some fuel n acc : dec_loop (S fuel) n acc ≠ [].
Proof. simpl. case_match; [done|]. by apply dec_loop_nonempty. Qed.

Lemma dec_ok n : 0 <= n → dec n ≠ [] ∧ forallb isdigit (dec n) = true.
Proof.
  intros Hn. split; [|by apply dec_loop_digits]. exact (dec_loop_some 19 n []).
Qed.

Lemma tok_lit_ok l : lit_ok l → tok_ok (tok_lit l).
Proof.
  destruct l as [n|s|b|x]; unfold tok_ok; simpl.
  - intros [Hn _]. by apply dec_ok.
  - done.
  - intros _. destruct b; by vm_compute.
  - intros [_ Hx]. split; [done|]. simpl. done.
Qed.

(** ** Parsing the printed tokens *)

(** Evaluates the tests on known tokens. *)
Ltac tests :=
  repeat match goal with
  | |- context [kind_is ?a ?b] =>
      let v := eval vm_compute in (kind_is a b) in
      lazymatch v with true => change (kind_is a b) with true | false => change (kind_is a b) with false end
  | |- context [ident_is ?w (mkTok ?k ?t, ?r)] =>
      let v := eval vm_compute in (ident_is w (mkTok k t, [])) in
      lazymatch v with
      | true => change (ident_is w (mkTok k t, r)) with true
      | false => change (ident_is w (mkTok k t, r)) with false
      end
  end; cbn [andb orb negb]; cbv iota.

Definition sv_lit (l : lit) : SqlValue :=
  match l with
  | LNum n => mkSqlValue false false (dec n)
  | LStr s => mkSqlValue true false s
  | LBool b => mkSqlValue false false (if b then str "1" else str "0")
  | LVar x => mkSqlValue false true (36 :: 36 :: x)
  end.

Lemma sv_lit_json l : sv_json (sv_lit l) = render (json_lit l).
Proof. destruct l as [n|s|[]|x]; reflexivity. Qed.

Lemma ident_is_false kw t r : kind t = Ident → lower (text t) ≠ kw → ident_is kw (t, r) = false.
Proof. intros Hk Hl. unfold ident_is. simpl. rewrite Hk. unfold eqs. by rewrite bool_decide_false. Qed.

Lemma dollar_not_kw kw x r :
  head kw ≠ Some 36 → ident_is kw (mkTok Ident (36 :: 36 :: x), r) = false.
Proof.
  intros Hh. apply ident_is_false; [done|]. simpl. intros <-. apply Hh. reflexivity.
Qed.

Lemma parse_value_at l k :
  lit_ok l → Forall tok_ok k → parse_value (at_ (tok_lit l :: k)) = Ok (sv_lit l, at_ k).
Proof.
  intros Hl Hk. unfold parse_value. cbn [at_]. destruct l as [n|s|b|x]; cbn [tok_lit kind text kw].
  - tests. by rewrite next_at.
  - tests. by rewrite next_at.
  - destruct b; cbn [kw kind text]; tests; by rewrite next_at.
  - rewrite !dollar_not_kw by (vm_compute; discriminate). tests. destruct Hl as [Hne _].
    destruct x as [|c x]; [done|]. cbv iota. by rewrite next_at.
Qed.

Lemma toks_tail_ok vs : Forall lit_ok vs → Forall tok_ok (toks_tail vs).
Proof. induction 1 as [|v vs Hv _ IH]; simpl; [done|]. repeat constructor; [by apply tok_lit_ok|done]. Qed.

Lemma toks_array_ok vs : Forall lit_ok vs → Forall tok_ok (toks_array vs).
Proof.
  intros Hv. unfold toks_array. constructor; [done|]. apply Forall_app. split; [|by repeat constructor].
  destruct Hv as [|v vs Hv Hvs]; simpl; [done|]. constructor; [by apply tok_lit_ok|by apply toks_tail_ok].
Qed.

Lemma kind_lit_bracket l : kind_is (kind (tok_lit l)) RBrack = false.
Proof. by destruct l. Qed.

Lemma expect_at k t ts : kind t = k → Forall tok_ok ts → expect k (at_ (t :: ts)) = Ok (at_ ts).
Proof.
  intros Hk Ht. unfold expect. cbn [at_ fst snd]. unfold kind_is. rewrite bool_decide_true by done. by apply next_at.
Qed.

Definition rbrack : Tok := mkTok RBrack [].

Lemma array_loop_at fuel vs k :
  Forall lit_ok vs → Forall tok_ok k → (length vs < fuel)%nat →
  array_loop fuel false (at_ (toks_tail vs ++ rbrack :: k)) = Ok (map (λ v, render (json_lit v)) vs, at_ (rbrack :: k)).
Proof.
  intros Hv Hk. revert fuel. induction Hv as [|v vs Hv Hvs IH]; intros [|fuel] Hf; simpl in Hf; try lia; [done|].
  cbn [toks_tail flat_map app]. fold (toks_tail vs). cbn [array_loop]. cbn [at_ fst kind]. tests.
  assert (Forall tok_ok (toks_tail vs ++ rbrack :: k)) as Hr.
  { apply Forall_app. split; [by apply toks_tail_ok|by constructor]. }
  change (mkTok Comma [], print (tok_lit v :: toks_tail vs ++ rbrack :: k))
    with (at_ (mkTok Comma [] :: tok_lit v :: toks_tail vs ++ rbrack :: k)).
  rewrite expect_at by (done || (constructor; [by apply tok_lit_ok|done])).
  cbn [mbind outcome_bind]. rewrite parse_value_at by done. cbn [mbind outcome_bind].
  rewrite IH by lia. cbn [mbind outcome_bind map]. by rewrite sv_lit_json.
Qed.

Lemma parse_array_at fuel vs k :
  Forall lit_ok vs → Forall tok_ok k → (length vs < fuel)%nat →
  parse_array_values fuel (at_ (toks_array vs ++ k)) = Ok (render (JArr (map json_lit vs)), at_ k).
Proof.
  intros Hv Hk Hf. unfold parse_array_values, toks_array. cbn [app].
  rewrite <- app_assoc. cbn [app]. fold rbrack.
  assert (∀ vs, Forall lit_ok vs → Forall tok_ok (toks_tail vs ++ rbrack :: k)) as Hr.
  { intros vs' Hv'. apply Forall_app. split; [by apply toks_tail_ok|by constructor]. }
  destruct fuel as [|fuel]; [lia|]. destruct Hv as [|v vs Hv Hvs]; cbn [toks_vals app].
  - rewrite expect_at by (done || by constructor). cbn [mbind outcome_bind array_loop]. cbn [at_ fst kind rbrack]. tests.
    cbn [mbind outcome_bind]. change (rbrack, print k) with (at_ (rbrack :: k)).
    by rewrite expect_at.
  - rewrite expect_at by (done || (constructor; [by apply tok_lit_ok|by apply Hr])).
    cbn [mbind outcome_bind array_loop]. cbn [at_ fst]. rewrite kind_lit_bracket.
    change (tok_lit v, print (toks_tail vs ++ rbrack :: k)) with (at_ (tok_lit v :: toks_tail vs ++ rbrack :: k)).
    cbn [mbind outcome_bind]. rewrite parse_value_at by auto. cbn [mbind outcome_bind].
    rewrite array_loop_at by (done || simpl in Hf; lia). cbn [mbind outcome_bind].
    rewrite expect_at by done. cbn [mbind outcome_bind].
    rewrite sv_lit_json. cbn [render map]. by rewrite map_map.
Qed.

Lemma in_loop_at fuel vs k :
  Forall lit_ok vs → Forall tok_ok k → (length vs < fuel)%nat →
  in_loop fuel (at_ (toks_tail vs ++ rbrack :: k)) = Ok (map sv_lit vs, at_ (rbrack :: k)).
Proof.
  intros Hv Hk. revert fuel. induction Hv as [|v vs Hv Hvs IH]; intros [|fuel] Hf; simpl in Hf; try lia; [done|].
  cbn [toks_tail flat_map app]. fold (toks_tail vs). cbn [in_loop]. cbn [at_ fst snd kind]. tests.
  assert (Forall tok_ok (toks_tail vs ++ rbrack :: k)) as Hr.
  { apply Forall_app. split; [by apply toks_tail_ok|by constructor]. }
  rewrite next_at by (constructor; [by apply tok_lit_ok|done]).
  cbn [mbind outcome_bind]. rewrite parse_value_at by done. cbn [mbind outcome_bind].
  by rewrite IH by lia.
Qed.

Lemma in_values_at fuel vs k :
  Forall lit_ok vs → Forall tok_ok k → (length vs < fuel)%nat →
  in_values fuel (at_ (toks_vals vs ++ rbrack :: k)) = Ok (map sv_lit vs, at_ (rbrack :: k)).
Proof.
  intros Hv Hk Hf. unfold in_values. destruct Hv as [|v vs Hv Hvs]; cbn [toks_vals app]; [done|].
  cbn [at_ fst]. rewrite kind_lit_bracket.
  change (tok_lit v, print (toks_tail vs ++ rbrack :: k)) with (at_ (tok_lit v :: toks_tail vs ++ rbrack :: k)).
  rewrite parse_value_at.
  - cbn [mbind outcome_bind]. by rewrite in_loop_at by (done || simpl in Hf; lia).
  - done.
  - apply Forall_app. split; [by apply toks_tail_ok|by constructor].
Qed.

Lemma escape_plain s : Forall (λ c, 32 <= c ∧ c ≠ QUOTE ∧ c ≠ BACKSLASH) s → json_escape s = s.
Proof.
  unfold json_escape. induction 1 as [|c s (Hc & Hq & Hb) _ IH]; [done|]. cbn [map concat]. rewrite IH.
  assert (escape_char c = [c]) as ->; [|done]. unfold escape_char.
  rewrite (proj2 (Z.eqb_neq _ _) Hq), (proj2 (Z.eqb_neq _ _) Hb).
  rewrite !(proj2 (Z.eqb_neq c _)) by lia. by rewrite (proj2 (Z.ltb_ge _ _)).
Qed.

Lemma ident_plain s : ident_ok s → json_escape s = s.
Proof.
  intros Hs. apply escape_plain. destruct s as [|c w]; [done|]. destruct Hs as [Hc Hw].
  assert (∀ d, ident_start d || ident_char d = true → 32 <= d ∧ d ≠ QUOTE ∧ d ≠ BACKSLASH) as H.
  { intros d. unfold ident_start, ident_char, isalnum, isalpha, isupper, isdigit, QUOTE, BACKSLASH. lia. }
  constructor; [apply H; by rewrite Hc|]. apply Forall_forall. intros d Hd. apply H.
  rewrite forallb_forall in Hw. rewrite (Hw d) by (by apply list_elem_of_In). apply orb_true_r.
Qed.

Lemma render_obj1 k j : render (obj1 k j) = op_text (json_escape k) (render j).
Proof. unfold obj1, op_text. cbn [render map commas fst snd]. by rewrite <- !app_assoc. Qed.

Lemma render_neg b j : render (json_neg b j) = negate_if b (render j).
Proof. destruct b; [|done]. apply render_obj1. Qed.

Lemma render_logical op js :
  json_escape op = op → render (json_logical op js) = logical op (map render js).
Proof.
  intros Hop. destruct js as [|j [|j' js]]; [|done|]; cbn [json_logical]; rewrite render_obj1, Hop; done.
Qed.

Lemma render_op op j : render (json_op op j) =
  match op with
  | OEq => render j
  | ONe => op_text (str "$ne") (render j)
  | OGt => op_text (str "$gt") (render j)
  | OGe => op_text (str "$ge") (render j)
  | OLt => op_text (str "$lt") (render j)
  | OLe => op_text (str "$le") (render j)
  end.
Proof. destruct op; [done|apply render_obj1..]. Qed.

Lemma render_like f p : render (obj1 f (json_like p)) = like_node f p.
Proof.
  rewrite render_obj1. unfold json_like, like_node, field_clause.
  repeat match goal with |- context [if ?b then _ else _] => destruct b end; by rewrite ?render_obj1.
Qed.

Lemma toks_neg_ok b : Forall tok_ok (toks_neg b).
Proof. destruct b; [|done]. constructor; [|done]. by vm_compute. Qed.

(** After the field name and an optional NOT. *)
Lemma parse_cmp_start fuel field negate t rest :
  ident_ok field → kind t ≠ LParen → ident_is (str "not") (t, print rest) = false → Forall tok_ok (t :: rest) →
  parse_cmp fuel (at_ (mkTok Ident field :: toks_neg negate ++ t :: rest))
  = let p := at_ (t :: rest) in
    if ident_is (str "between") p then parse_between field negate p
    else if ident_is (str "in") p then parse_in fuel field negate p
    else if ident_is (str "like") p then parse_like field negate p
    else parse_op field negate p.
Proof.
  intros Hf Hk Hn Hok. unfold parse_cmp. cbn [at_ fst snd kind text]. tests.
  rewrite next_at by (apply Forall_app; split; [apply toks_neg_ok|done]). cbn [mbind outcome_bind].
  destruct negate; cbn [toks_neg app].
  - cbn [at_ fst kind kw]. tests. rewrite andb_false_r. cbn [snd]. rewrite next_at by done. done.
  - cbn [at_ fst]. rewrite Hn. unfold kind_is. rewrite bool_decide_false by done. by rewrite andb_false_r.
Qed.

Lemma parse_func_at fuel func field arg j k :
  ident_ok field → Forall tok_ok (arg ++ mkTok RParen [] :: k) →
  (if eqs func (str "array_contains")
   then '(v, p) ← parse_value (at_ (arg ++ mkTok RParen [] :: k)); Ok (field_clause field (sv_json v), p)
   else if eqs func (str "array_contains_all")
   then '(a, p) ← array_arg fuel (at_ (arg ++ mkTok RParen [] :: k)); Ok (field_clause field (op_text (str "$all") a), p)
   else '(a, p) ← array_arg fuel (at_ (arg ++ mkTok RParen [] :: k)); Ok (field_clause field (op_text (str "$in") a), p))
  = Ok (j, at_ (mkTok RParen [] :: k)) →
  ident_ok func → lower func = func → is_func func = true →
  parse_cmp fuel (at_ (toks_func func field arg ++ k)) = Ok (j, at_ k).
Proof.
  intros Hf Hok Hj Hif Hlow Hfn. unfold toks_func. cbn [app]. rewrite <- app_assoc. cbn [app].
  assert (Forall tok_ok k) as Hk by (apply Forall_app in Hok as [_ Hok]; by apply Forall_cons in Hok as [_ Hok]).
  unfold parse_cmp. cbn [at_ fst snd kind text kw]. tests.
  assert (tok_ok (mkTok Ident field)) as Hfo by done.
  rewrite next_at by (repeat constructor; done). cbn [mbind outcome_bind at_ fst kind]. tests.
  rewrite Hlow, Hfn. cbn [andb]. unfold parse_func. cbn [snd].
  rewrite next_at by (repeat constructor; done). cbn [mbind outcome_bind at_ fst snd kind text]. tests.
  rewrite next_at by (repeat constructor; done). cbn [mbind outcome_bind].
  rewrite expect_at by done. cbn [mbind outcome_bind]. cbn [mbind outcome_bind] in Hj. rewrite Hj. cbn [mbind outcome_bind].
  by rewrite expect_at.
Qed.

Lemma array_arg_at fuel a k :
  arg_ok a → Forall tok_ok k → (match a with AVals vs => length vs | AVar _ => 0 end < fuel)%nat →
  array_arg fuel (at_ (toks_arg a ++ k)) = Ok (render (json_arg a), at_ k).
Proof.
  intros Ha Hk Hf. unfold array_arg. destruct a as [vs|x]; cbn [toks_arg].
  - assert (kind_is (kind (at_ (toks_array vs ++ k)).1) Ident = false) as -> by done. by apply parse_array_at.
  - cbn [app]. assert (kind_is (kind (at_ (tok_lit (LVar x) :: k)).1) Ident = true) as -> by done.
    rewrite parse_value_at by done. cbn [mbind outcome_bind]. by rewrite sv_lit_json.
Qed.

Definition arg_len (a : array_lit) : nat := match a with AVals vs => length vs | AVar _ => 0 end.
Definition cmp_len (c : cmp) : nat :=
  match c with
  | CIn _ _ vs => length vs
  | CContainsAll _ a | CContainsAny _ a => arg_len a
  | _ => 0
  end.

Lemma toks_arg_ok a : arg_ok a → Forall tok_ok (toks_arg a).
Proof.
  destruct a as [vs|x]; simpl; intros H; [by apply toks_array_ok|]. constructor; [|done]. by apply (tok_lit_ok (LVar x)).
Qed.

Lemma kw_ok s : bool_decide (s ∈ map str ["and"; "or"; "not"; "between"; "in"; "like"; "array_contains";
    "array_contains_all"; "array_contains_any"]%string) = true → tok_ok (kw s).
Proof.
  intros H%bool_decide_eq_true. unfold tok_ok. simpl.
  repeat (apply elem_of_cons in H as [->|H]; [by vm_compute|]). set_solver.
Qed.

Lemma op_tok_ok op : tok_ok (mkTok Op (op_chars op)).
Proof. by exists op. Qed.

Lemma toks_cmp_ok c : cmp_ok c → Forall tok_ok (toks_cmp c).
Proof.
  assert (∀ f a func, ident_ok f → Forall tok_ok a → tok_ok (kw func) → Forall tok_ok (toks_func func f a)) as Hfun.
  { intros f a func Hf Ha Hk. unfold toks_func. repeat (constructor; [done|]).
    apply Forall_app. split; [done|]. by repeat constructor. }
  assert (∀ f neg l, ident_ok f → Forall tok_ok l → Forall tok_ok (mkTok Ident f :: toks_neg neg ++ l)) as Hneg.
  { intros f neg l Hf Hl. constructor; [done|]. apply Forall_app. split; [apply toks_neg_ok|done]. }
  destruct c as [f neg op v|f neg lo hi|f neg vs|f neg p|f v|f a|f a]; simpl;
    intros; destruct_and?; try match goal with H : field_ok _ |- _ => destruct H as [? ?] end.
  - apply Hneg; [done|]. repeat constructor; [apply op_tok_ok|by apply tok_lit_ok].
  - apply Hneg; [done|]. repeat constructor; try (by apply tok_lit_ok); by apply kw_ok.
  - apply Hneg; [done|]. constructor; [by apply kw_ok|by apply toks_array_ok].
  - apply Hneg; [done|]. repeat constructor; by apply kw_ok.
  - apply Hfun; [done| |by apply kw_ok]. constructor; [by apply tok_lit_ok|done].
  - apply Hfun; [done|by apply toks_arg_ok|by apply kw_ok].
  - apply Hfun; [done|by apply toks_arg_ok|by apply kw_ok].
Qed.

Lemma parse_op_at field negate op v k :
  lit_ok v → Forall tok_ok k →
  parse_op field negate (at_ (mkTok Op (op_chars op) :: tok_lit v :: k))
  = Ok (render (json_neg negate (obj1 field (json_op op (json_lit v)))), at_ k).
Proof.
  intros Hv Hk. unfold parse_op. cbn [at_ fst snd kind text]. tests.
  rewrite next_at by (constructor; [by apply tok_lit_ok|done]). cbn [mbind outcome_bind].
  rewrite parse_value_at by done. cbn [mbind outcome_bind].
  rewrite render_neg, render_obj1, render_op. unfold cmp_node. rewrite sv_lit_json.
  by destruct op.
Qed.

Lemma parse_between_at field negate lo hi k :
  lit_ok lo → lit_ok hi → Forall tok_ok k →
  parse_between field negate (at_ (kw (str "between") :: tok_lit lo :: kw (str "and") :: tok_lit hi :: k))
  = Ok (render (json_neg negate (obj1 field (JObj [(str "$ge", json_lit lo); (str "$le", json_lit hi)]))), at_ k).
Proof.
  intros Hlo Hhi Hk. unfold parse_between. cbn [at_ snd].
  pose proof (tok_lit_ok lo Hlo). pose proof (tok_lit_ok hi Hhi).
  assert (tok_ok (kw (str "and"))) by (by apply kw_ok).
  rewrite next_at by (repeat constructor; done). cbn [mbind outcome_bind].
  rewrite parse_value_at by (done || (repeat constructor; done)). cbn [mbind outcome_bind].
  cbn [at_ kw]. tests. cbn [snd]. rewrite next_at by (by constructor). cbn [mbind outcome_bind].
  rewrite parse_value_at by done. cbn [mbind outcome_bind].
  rewrite render_neg, render_obj1, !sv_lit_json. do 4 f_equal. cbn [render map commas fst snd].
  change (json_escape (str "$ge")) with (str "$ge"). change (json_escape (str "$le")) with (str "$le").
  by rewrite <- !app_assoc.
Qed.

Lemma parse_in_at fuel field negate vs k :
  Forall lit_ok vs → Forall tok_ok k → (length vs < fuel)%nat →
  parse_in fuel field negate (at_ (kw (str "in") :: toks_array vs ++ k))
  = Ok (render (json_cmp (CIn field negate vs)), at_ k).
Proof.
  intros Hv Hk Hf. unfold parse_in. cbn [at_ snd].
  assert (Forall tok_ok (toks_array vs ++ k)) as Ha by (apply Forall_app; split; [by apply toks_array_ok|done]).
  rewrite next_at by done. cbn [mbind outcome_bind]. unfold toks_array in *. cbn [app] in *.
  rewrite <- app_assoc in *. cbn [app] in *. fold rbrack in *. apply Forall_cons in Ha as [_ Ha].
  rewrite expect_at by done. cbn [mbind outcome_bind]. rewrite in_values_at by done. cbn [mbind outcome_bind].
  rewrite expect_at by done. cbn [mbind outcome_bind json_cmp]. rewrite render_neg. do 3 f_equal.
  assert (forallb (λ v, negb (is_string v)) (map sv_lit vs) = forallb (λ v, negb (is_str_lit v)) vs) as ->.
  { clear. induction vs as [|v vs IH]; [done|]. simpl. rewrite IH. by destruct v. }
  case_match.
  - rewrite render_logical by done. rewrite !map_map. f_equal. apply map_ext. intros v.
    by rewrite render_obj1, sv_lit_json.
  - rewrite !render_obj1. cbn [render]. rewrite !map_map.
    by rewrite (map_ext (λ v, sv_json (sv_lit v)) (λ v, render (json_lit v)) sv_lit_json).
Qed.

Lemma parse_like_at field negate p k :
  Forall tok_ok k →
  parse_like field negate (at_ (kw (str "like") :: mkTok String p :: k))
  = Ok (render (json_cmp (CLike field negate p)), at_ k).
Proof.
  intros Hk. unfold parse_like. cbn [at_ snd]. rewrite next_at by (by constructor). cbn [mbind outcome_bind].
  change (mkTok String p) with (tok_lit (LStr p)). rewrite parse_value_at by done.
  cbn [mbind outcome_bind sv_lit is_string sv_s negb json_cmp]. by rewrite render_neg, render_like.
Qed.

Lemma parse_cmp_at fuel c k :
  cmp_ok c → Forall tok_ok k → (cmp_len c < fuel)%nat →
  parse_cmp fuel (at_ (toks_cmp c ++ k)) = Ok (render (json_cmp c), at_ k).
Proof.
  intros Hc Hk Hf. destruct c as [f neg op v|f neg lo hi|f neg vs|f neg p|f v|f a|f a]; simpl in Hc, Hf;
    destruct_and?; try match goal with H : field_ok _ |- _ => destruct H as [? ?] end; cbn [toks_cmp app];
    rewrite <- ?app_assoc; cbn [app].
  - rewrite parse_cmp_start; [|done|done|done|repeat constructor; try done; [apply op_tok_ok|by apply tok_lit_ok]].
    cbv zeta. cbn [at_]. tests. by apply parse_op_at.
  - rewrite parse_cmp_start;
      [|done|done|done|repeat constructor; try done; try (by apply tok_lit_ok); by apply kw_ok].
    cbv zeta. cbn [at_]. tests. by apply parse_between_at.
  - rewrite parse_cmp_start; [|done|done|done|].
    2:{ constructor; [by apply kw_ok|]. apply Forall_app. split; [by apply toks_array_ok|done]. }
    cbv zeta. cbn [at_]. tests. by apply parse_in_at.
  - rewrite parse_cmp_start; [|done|done|done|repeat constructor; try done; by apply kw_ok].
    cbv zeta. cbn [at_]. tests. by apply parse_like_at.
  - apply parse_func_at; try done.
    + constructor; [by apply tok_lit_ok|by constructor].
    + change (eqs (str "array_contains") (str "array_contains")) with true. cbv iota. cbn [app].
      rewrite parse_value_at by (done || by constructor). cbn [mbind outcome_bind json_cmp].
      by rewrite render_obj1, sv_lit_json.
  - apply parse_func_at; try done.
    + apply Forall_app. split; [by apply toks_arg_ok|by constructor].
    + change (eqs (str "array_contains_all") (str "array_contains")) with false.
      change (eqs (str "array_contains_all") (str "array_contains_all")) with true. cbv iota.
      rewrite array_arg_at by (done || by constructor). cbn [mbind outcome_bind json_cmp]. by rewrite !render_obj1.
  - apply parse_func_at; try done.
    + apply Forall_app. split; [by apply toks_arg_ok|by constructor].
    + change (eqs (str "array_contains_any") (str "array_contains")) with false.
      change (eqs (str "array_contains_any") (str "array_contains_all")) with false. cbv iota.
      rewrite array_arg_at by (done || by constructor). cbn [mbind outcome_bind json_cmp]. by rewrite !render_obj1.
Qed.

(** Fuel for a tree: the longest chain of calls. *)
Fixpoint need_unary (u : unary) : nat :=
  match u with
  | UCmp c => S (S (cmp_len c))
  | UNot u => S (need_unary u)
  | UParen e => (3 + sum_list (map (λ us, 3 + sum_list (map (λ u, S (need_unary u)) us)) e))%nat
  end.
Definition need_conj (us : list unary) : nat := (2 + sum_list (map (λ u, S (need_unary u)) us))%nat.
Definition need_disj (e : disj) : nat := (2 + sum_list (map (λ us, S (need_conj us)) e))%nat.

Lemma need_paren e : need_unary (UParen e) = S (need_disj e).
Proof. reflexivity. Qed.

Lemma op_tail_ok {A} op (f : A → list Tok) l :
  tok_ok (kw op) → Forall (λ x, Forall tok_ok (f x)) l → Forall tok_ok (op_tail op f l).
Proof.
  intros Ho. induction 1 as [|x l Hx _ IH]; simpl; [done|]. constructor; [done|]. by apply Forall_app.
Qed.

Lemma op_list_ok {A} op (f : A → list Tok) l :
  tok_ok (kw op) → Forall (λ x, Forall tok_ok (f x)) l → Forall tok_ok (op_list op f l).
Proof.
  intros Ho H. destruct H as [|x l Hx Hl]; simpl; [done|]. apply Forall_app. split; [done|by apply op_tail_ok].
Qed.

Lemma toks_unary_ok u : unary_ok u → Forall tok_ok (toks_unary u).
Proof.
  revert u. fix IH 2. intros u [c Hc|u' Hu|e Hne Hn Hok]; simpl.
  - by apply toks_cmp_ok.
  - constructor; [by apply kw_ok|by apply IH].
  - constructor; [done|]. apply Forall_app. split; [|by repeat constructor].
    apply op_list_ok; [by apply kw_ok|]. clear Hne Hn. induction Hok as [|us e Hus _ IHe]; constructor; [|done].
    apply op_list_ok; [by apply kw_ok|]. induction Hus as [|u' us Hu _ IHus]; constructor; [by apply IH|done].
Qed.

Lemma toks_and_ok us : Forall unary_ok us → Forall tok_ok (toks_and us).
Proof.
  intros H. apply op_list_ok; [by apply kw_ok|]. eapply Forall_impl; [exact H|]. intros u. apply toks_unary_ok.
Qed.

Lemma toks_or_ok e : Forall (Forall unary_ok) e → Forall tok_ok (toks_or e).
Proof.
  intros H. apply op_list_ok; [by apply kw_ok|]. eapply Forall_impl; [exact H|]. intros us. apply toks_and_ok.
Qed.

(** The first token of a factor is no keyword of the loops and, of a comparison, not NOT. *)
Lemma cmp_head c k : cmp_ok c →
  ident_is (str "not") (at_ (toks_cmp c ++ k)) = false ∧ kind_is (kind (at_ (toks_cmp c ++ k)).1) LParen = false.
Proof.
  intros Hc. destruct c as [f neg op v|f neg lo hi|f neg vs|f neg p|f v|f a|f a]; simpl in Hc;
    destruct_and?; try match goal with H : field_ok _ |- _ => destruct H as [? ?] end;
    (split; [|done]); try (by apply ident_is_false); done.
Qed.

Definition no_kw (op : bytes) (k : list Tok) : Prop := ident_is op (at_ k) = false.

(** What the parsing functions do on printed trees, by the fuel. *)
Lemma parser_at fuel :
  (∀ u k, unary_ok u → Forall tok_ok k → (need_unary u <= fuel)%nat →
     parse_unary fuel (at_ (toks_unary u ++ k)) = Ok (render (json_unary u), at_ k))
  ∧ (∀ us k, Forall unary_ok us → Forall tok_ok k → no_kw (str "and") k →
     (1 + sum_list (map (λ u, S (need_unary u)) us) <= fuel)%nat →
     and_loop fuel (at_ (op_tail (str "and") toks_unary us ++ k)) = Ok (map (λ u, render (json_unary u)) us, at_ k))
  ∧ (∀ us k, conj_ok us → Forall tok_ok k → no_kw (str "and") k → (need_conj us <= fuel)%nat →
     parse_and fuel (at_ (toks_and us ++ k)) = Ok (render (json_and us), at_ k))
  ∧ (∀ e k, Forall conj_ok e → Forall tok_ok k → no_kw (str "and") k → no_kw (str "or") k →
     (1 + sum_list (map (λ us, S (need_conj us)) e) <= fuel)%nat →
     or_loop fuel (at_ (op_tail (str "or") toks_and e ++ k)) = Ok (map (λ us, render (json_and us)) e, at_ k))
  ∧ (∀ e k, e ≠ [] → Forall conj_ok e → Forall tok_ok k → no_kw (str "and") k → no_kw (str "or") k →
     (need_disj e <= fuel)%nat →
     parse_or fuel (at_ (toks_or e ++ k)) = Ok (render (json_or e), at_ k)).
Proof.
  induction fuel as [|fuel (IHu & IHal & IHa & IHol & IHo)].
  { split_and!; intros; (try by destruct u; simpl in *; lia); unfold need_conj, need_disj in *; lia. }
  split_and!.
  - intros u k Hu Hk Hf. destruct Hu as [c Hc|u Hu|e Hne Hn He];
      [simpl in Hf|simpl in Hf|rewrite need_paren in Hf]; cbn [toks_unary parse_unary app].
    + destruct (cmp_head c k Hc) as [-> ->]. by rewrite parse_cmp_at by (done || lia).
    + cbn [at_ kw]. tests. cbn [snd]. assert (Forall tok_ok (toks_unary u ++ k)).
      { apply Forall_app. split; [by apply toks_unary_ok|done]. }
      rewrite next_at by done. cbn [mbind outcome_bind]. rewrite IHu by (done || lia). cbn [mbind outcome_bind json_unary].
      by rewrite render_obj1.
    + change (op_list (str "or") (op_list (str "and") toks_unary) e) with (toks_or e).
      cbn [at_ fst snd kind]. tests. rewrite <- app_assoc. cbn [app].
      assert (Forall tok_ok (mkTok RParen [] :: k)) as Hk' by (by constructor).
      rewrite next_at by (apply Forall_app; split; [by apply toks_or_ok|done]). cbn [mbind outcome_bind].
      rewrite (IHo e (mkTok RParen [] :: k)); [|done| |done|done|done|].
      * cbn [mbind outcome_bind]. by rewrite expect_at.
      * apply Forall_forall. intros us Hus. rewrite Forall_forall in Hn, He. split; auto.
      * lia.
  - intros us k Hus Hk Hno Hf. cbn [and_loop]. destruct Hus as [|u us Hu Hus]; [by rewrite Hno|]. simpl in Hf.
    unfold op_tail. cbn [flat_map app]. fold (op_tail (str "and") toks_unary us). cbn [at_ kw]. tests. cbn [snd].
    rewrite <- app_assoc. assert (Forall tok_ok (op_tail (str "and") toks_unary us ++ k)) as Ht.
    { apply Forall_app. split; [|done]. apply op_tail_ok; [by apply kw_ok|].
      eapply Forall_impl; [exact Hus|]. apply toks_unary_ok. }
    rewrite next_at by (apply Forall_app; split; [by apply toks_unary_ok|done]). cbn [mbind outcome_bind].
    rewrite IHu by (done || lia). cbn [mbind outcome_bind]. by rewrite IHal by (done || lia).
  - intros us k [Hne Hus] Hk Hno Hf. cbn [parse_and]. destruct us as [|u us]; [done|].
    apply Forall_cons in Hus as [Hu Hus]. unfold need_conj in Hf. simpl in Hf. unfold toks_and. cbn [op_list].
    rewrite <- app_assoc. assert (Forall tok_ok (op_tail (str "and") toks_unary us ++ k)) as Ht.
    { apply Forall_app. split; [|done]. apply op_tail_ok; [by apply kw_ok|].
      eapply Forall_impl; [exact Hus|]. apply toks_unary_ok. }
    rewrite IHu by (done || lia). cbn [mbind outcome_bind]. rewrite IHal by (done || lia). cbn [mbind outcome_bind].
    unfold json_and. rewrite render_logical by done. by rewrite map_map.
  - intros e k He Hk Hna Hno Hf. cbn [or_loop]. destruct He as [|us e Hus He]; [by rewrite Hno|]. cbn [map sum_list_with id] in Hf.
    unfold op_tail. cbn [flat_map app]. fold (op_tail (str "or") toks_and e). cbn [at_ kw]. tests. cbn [snd].
    rewrite <- app_assoc. assert (Forall tok_ok (op_tail (str "or") toks_and e ++ k)) as Ht.
    { apply Forall_app. split; [|done]. apply op_tail_ok; [by apply kw_ok|].
      eapply Forall_impl; [exact He|]. intros us' [_ ?]. by apply toks_and_ok. }
    rewrite next_at by (apply Forall_app; split; [by apply toks_and_ok, Hus|done]). cbn [mbind outcome_bind].
    rewrite IHa; [|done|done| |lia].
    + cbn [mbind outcome_bind]. by rewrite IHol by (done || lia).
    + destruct e; [done|reflexivity].
  - intros e k Hne He Hk Hna Hno Hf. cbn [parse_or]. destruct e as [|us e]; [done|].
    apply Forall_cons in He as [Hus He]. unfold need_disj in Hf. cbn [map sum_list_with id] in Hf. unfold toks_or. cbn [op_list].
    rewrite <- app_assoc. assert (Forall tok_ok (op_tail (str "or") toks_and e ++ k)) as Ht.
    { apply Forall_app. split; [|done]. apply op_tail_ok; [by apply kw_ok|].
      eapply Forall_impl; [exact He|]. intros us' [_ ?]. by apply toks_and_ok. }
    rewrite IHa; [|done|done| |lia].
    + cbn [mbind outcome_bind]. rewrite IHol by (done || lia). cbn [mbind outcome_bind].
      unfold json_or. rewrite render_logical by done. by rewrite map_map.
    + destruct e; [done|reflexivity].
Qed.

(** *** The fuel of the entry point is enough *)

Lemma print_length ts : Forall tok_ok ts → (2 * length ts <= length (print ts))%nat.
Proof.
  induction 1 as [|[k w] ts Ht _ IH]; [done|]. unfold print. cbn [flat_map length]. fold (print ts).
  rewrite length_app. cbn [length]. assert (1 <= length (print_tok (mkTok k w)))%nat; [|lia].
  unfold tok_ok in Ht. unfold print_tok. destruct k; cbn [kind text] in *; try (simpl; lia); try done.
  - destruct w; [done|simpl; lia].
  - destruct w; [by destruct Ht|simpl; lia].
  - destruct Ht as [op ->]. destruct op; simpl; lia.
Qed.

Lemma op_tail_length {A} op (f : A → list Tok) l : (sum_list (map (λ x, length (f x)) l) <= length (op_tail op f l))%nat.
Proof.
  induction l as [|x l IH]; [done|]. unfold op_tail. cbn [flat_map map sum_list_with id length]. fold (op_tail op f l).
  simpl. rewrite length_app. lia.
Qed.

Lemma op_list_length {A} op (f : A → list Tok) l : (sum_list (map (λ x, length (f x)) l) <= length (op_list op f l))%nat.
Proof.
  destruct l as [|x l]; [done|]. cbn [op_list map sum_list_with id]. rewrite length_app.
  pose proof (op_tail_length op f l). simpl. lia.
Qed.

Lemma toks_vals_length vs : (length vs <= length (toks_vals vs))%nat.
Proof.
  assert (∀ vs, length vs <= length (toks_tail vs))%nat as H.
  { clear. induction vs as [|v vs IH]; simpl; lia. }
  destruct vs as [|v vs]; [done|]. simpl. specialize (H vs). lia.
Qed.

Lemma cmp_length c : (cmp_len c + 6 <= 4 * length (toks_cmp c))%nat.
Proof.
  assert (∀ vs, length vs + 2 <= length (toks_array vs))%nat as Ha.
  { intros vs. unfold toks_array. cbn [length]. rewrite length_app. pose proof (toks_vals_length vs). simpl. lia. }
  assert (∀ a, arg_len a + 1 <= length (toks_arg a))%nat as Harg.
  { intros [vs|x]; simpl; [|lia]. specialize (Ha vs). simpl in Ha. lia. }
  destruct c as [f neg op v|f neg lo hi|f neg vs|f neg p|f v|f a|f a]; cbn [toks_cmp cmp_len toks_func length];
    rewrite ?length_app; cbn [length].
  - lia.
  - lia.
  - specialize (Ha vs). lia.
  - lia.
  - lia.
  - specialize (Harg a). lia.
  - specialize (Harg a). lia.
Qed.

Lemma conj_length us :
  us ≠ [] → Forall (λ u, need_unary u + 4 <= 4 * length (toks_unary u))%nat us →
  (S (need_conj us) <= 4 * length (toks_and us))%nat.
Proof.
  intros Hne Hus. pose proof (op_list_length (str "and") toks_unary us) as Hl. unfold toks_and, need_conj.
  assert (sum_list (map (λ u, S (need_unary u)) us) + 3 * length us
          <= 4 * sum_list (map (λ u, length (toks_unary u)) us))%nat as H.
  { clear -Hus. induction Hus as [|u us Hu _ IH]; simpl in *; lia. }
  destruct us; [done|]. cbn [length] in H. lia.
Qed.

Lemma disj_length e :
  Forall (λ us, S (need_conj us) <= 4 * length (toks_and us))%nat e →
  (need_disj e <= 2 + 4 * length (toks_or e))%nat.
Proof.
  intros He. pose proof (op_list_length (str "or") toks_and e) as Hl. unfold toks_or, need_disj.
  assert (sum_list (map (λ us, S (need_conj us)) e) <= 4 * sum_list (map (λ us, length (toks_and us)) e))%nat as H.
  { clear -He. induction He as [|us e Hus _ IH]; [done|].
    cbn [map sum_list_with id] in *. lia. }
  lia.
Qed.

Lemma unary_length u : unary_ok u → (need_unary u + 4 <= 4 * length (toks_unary u))%nat.
Proof.
  revert u. fix IH 2. intros u [c Hc|u' Hu|e Hne Hn Hok].
  - simpl. pose proof (cmp_length c). lia.
  - simpl. specialize (IH u' Hu). lia.
  - rewrite need_paren. cbn [toks_unary length].
    change (op_list (str "or") (op_list (str "and") toks_unary) e) with (toks_or e). rewrite length_app. cbn [length].
    assert (need_disj e <= 2 + 4 * length (toks_or e))%nat; [|lia].
    apply disj_length. clear Hne. induction Hok as [|us e Hus _ IHe]; constructor.
    + apply conj_length; [by apply Forall_cons in Hn as [? _]|]. clear -IH Hus.
      induction Hus as [|u us Hu _ IHus]; constructor; [by apply IH|done].
    + apply IHe. by apply Forall_cons in Hn as [_ ?].
Qed.

Lemma disj_fuel e : disj_ok e → (need_disj e <= parse_fuel (print (toks_or e)))%nat.
Proof.
  intros (_ & Hn & He). pose proof (print_length (toks_or e) (toks_or_ok e He)).
  assert (need_disj e <= 2 + 4 * length (toks_or e))%nat; [|unfold parse_fuel; lia]. apply disj_length.
  apply Forall_forall. intros us Hus. rewrite Forall_forall in Hn, He. apply conj_length; [by apply Hn|].
  eapply Forall_impl; [by apply He|]. apply unary_length.
Qed.

Lemma sql_parse_run s e :
  disj_ok e → next s = next (print (toks_or e)) → (need_disj e <= parse_fuel s)%nat →
  sql_to_mongo_json s = Ok (render (json_or e)).
Proof.
  intros (Hne & Hn & Hok) Hs Hf. unfold sql_to_mongo_json. rewrite Hs.
  pose proof (toks_or_ok e Hok) as Ht. rewrite next_at by done. cbn [mbind outcome_bind].
  destruct (parser_at (parse_fuel s)) as (_ & _ & _ & _ & Hor).
  rewrite <- (app_nil_r (toks_or e)). rewrite Hor; [|done| |done|done|done|done].
  - reflexivity.
  - apply Forall_forall. intros us Hus. rewrite Forall_forall in Hn, Hok. split; auto.
Qed.

Lemma skip_ws_idem s : skip_ws (skip_ws s) = skip_ws s.
Proof. induction s as [|c s IH]; [done|]. simpl. destruct (isspace c) eqn:E; [done|]. simpl. by rewrite E. Qed.

(** C26: the parser gives every sentence of the filter grammar its tree.  For every
    disjunction of conjunctions of comparisons, negations and parenthesised
    disjunctions, printed as text, parsing succeeds and returns exactly the JSON
    text of the tree: NOT binds tighter than AND and AND tighter than OR, the AND of
    BETWEEN belongs to BETWEEN, IN over numbers becomes an OR of equalities, and
    LIKE patterns are split into prefix, suffix, equality and general ones. *)
Theorem sql_parser_correct e :
  disj_ok e → sql_to_mongo_json (print (toks_or e)) = Ok (render (json_or e)).
Proof. intros He. by apply sql_parse_run; [|done|apply disj_fuel]. Qed.

Lemma print_tok_head t : tok_ok t → ∃ c w, print_tok t = c :: w ∧ isspace c = false.
Proof.
  destruct t as [k w]. unfold tok_ok, print_tok. cbn [kind text]. intros Ht.
  destruct k; try (eexists _, _; split; reflexivity); try done.
  - destruct w as [|c w]; [done|]. exists c, w. split; [done|]. by apply ident_start_not, Ht.
  - destruct Ht as [Hne Hd]. destruct w as [|c w]; [done|]. exists c, w. split; [done|].
    simpl in Hd. apply andb_true_iff in Hd as [Hd _]. by apply digit_not.
  - destruct Ht as [op ->]. destruct op; eexists _, _; split; reflexivity.
Qed.

Lemma sql_parse_trimmed e :
  disj_ok e → sql_to_mongo_json (trim_left (print (toks_or e))) = Ok (render (json_or e)).
Proof.
  intros He. apply sql_parse_run; [done| |].
  - unfold next, trim_left. by rewrite skip_ws_idem.
  - destruct He as (Hne & Hn & Hok). pose proof (toks_or_ok e Hok) as Ht.
    assert (need_disj e <= 2 + 4 * length (toks_or e))%nat as Hd.
    { apply disj_length. apply Forall_forall. intros us Hus. rewrite Forall_forall in Hn, Hok.
      apply conj_length; [by apply Hn|]. eapply Forall_impl; [by apply Hok|]. apply unary_length. }
    pose proof (print_length (toks_or e) Ht) as Hp. unfold parse_fuel, trim_left.
    destruct (toks_or e) as [|t ts]; [simpl in *; lia|]. apply Forall_cons in Ht as [Ht _].
    destruct (print_tok_head t Ht) as (c & w & Hw & Hc). unfold print in *. cbn [flat_map] in *.
    cbn [app length skip_ws] in *. change (isspace 32) with true. cbv iota. rewrite Hw in *. cbn [app skip_ws] in *.
    rewrite Hc. cbn [length] in *. lia.
Qed.

(** [price >= 10 and not tag not in [1, 22] or (name like 'ab%' or array_contains_all(tag, [3, 4]))] *)
Definition example_filter : disj :=
  [[UCmp (CCmp (str "price") false OGe (LNum 10)); UNot (UCmp (CIn (str "tag") true [LNum 1; LNum 22]))];
   [UParen [[UCmp (CLike (str "name") false (str "ab%"))];
            [UCmp (CContainsAll (str "tag") (AVals [LNum 3; LNum 4]))]]]].

Lemma example_filter_ok : disj_ok example_filter.
Proof.
  assert (∀ s, bool_decide (s ∈ map str ["price"; "tag"; "name"]%string) = true → field_ok s) as Hf.
  { intros s H%bool_decide_eq_true. repeat (apply elem_of_cons in H as [->|H]; [by split; vm_compute|]). set_solver. }
  split; [done|]. split; [repeat constructor; done|].
  repeat constructor; simpl; try done; try lia; by apply Hf.
Qed.

Lemma sql_parser_correct_witness :
  sql_to_mongo_json (print (toks_or example_filter)) = Ok (render (json_or example_filter)).
Proof. apply (sql_parser_correct example_filter). apply example_filter_ok. Defined.

(** Control characters are escaped without the padding JSON requires. *)
Example json_escape_control : json_escape (1 :: str "A") = BACKSLASH :: str "u1A".
Proof. reflexivity. Qed.

End Sql.
