(* ===== verification/PicoJson.v ===== *)
(** * The JSON parser of the filter compiler ([include/utils/picojson.h])

    [picojson::parse] into a [value]: the input with its one character of look-ahead,
    strings with their escapes and surrogate pairs, numbers, arrays, objects and the
    nesting limit of [default_parse_context].  A parse that fails leaves the value it
    was building half done; the compiler ignores the error and goes on with that
    value, so the result is the value and, if the parse succeeded, the rest of the
    input.  An object is a [std::map]: its members in increasing order of the keys.

    The main lemma is the round trip with the compiler's own rendering: a tree whose
    strings have no control byte without an escape of its own, and which is not
    nested too deep, is read back from its text. *)

From Stdlib Require Import String.
From S2P Require Import Prelude Bytes FilterUtils SqlParser.

Module PicoJson.
Import Sql.
Open Scope Z_scope.

Notation bytes := (list Z) (only parsing).

(** ** The input *)

(** [getc] is the head of the list and -1 at its end; [ungetc] keeps it. *)
Definition is_ws (c : Z) : bool := (c =? 32) || (c =? 9) || (c =? 10) || (c =? 13).

Fixpoint skip_ws (bs : bytes) : bytes :=
  match bs with
  | c :: bs' => if is_ws c then skip_ws bs' else bs
  | [] => []
  end.

Definition expect (c : Z) (bs : bytes) : bool * bytes :=
  match skip_ws bs with
  | d :: r => if d =? c then (true, r) else (false, d :: r)
  | [] => (false, [])
  end.

Fixpoint match_text (pattern bs : bytes) : option bytes :=
  match pattern, bs with
  | [], _ => Some bs
  | p :: pattern, c :: bs => if c =? p then match_text pattern bs else None
  | _ :: _, [] => None
  end.

(** ** Strings *)

Definition hex_value (c : Z) : option Z :=
  if (48 <=? c) && (c <=? 57) then Some (c - 48)
  else if (65 <=? c) && (c <=? 70) then Some (c - 55)
  else if (97 <=? c) && (c <=? 102) then Some (c - 87) else None.

(** [n] more digits. *)
Fixpoint parse_hex (n : nat) (uni_ch : Z) (bs : bytes) : option (Z * bytes) :=
  match n, bs with
  | O, _ => Some (uni_ch, bs)
  | S n, c :: bs => h ← hex_value c; parse_hex n (uni_ch * 16 + h) bs
  | S _, [] => None
  end.

Definition parse_quadhex : bytes → option (Z * bytes) := parse_hex 4 0.

Definition utf8 (u : Z) : bytes :=
  let last := Z.lor 128 (Z.land u 63) in
  let mid := Z.lor 128 (Z.land (Z.shiftr u 6) 63) in
  if u <? 128 then [u]
  else if u <? 2048 then [Z.lor 192 (Z.shiftr u 6); last]
  else if u <? 65536 then [Z.lor 224 (Z.shiftr u 12); mid; last]
  else [Z.lor 240 (Z.shiftr u 18); Z.lor 128 (Z.land (Z.shiftr u 12) 63); mid; last].

Definition parse_codepoint (bs : bytes) : option (bytes * bytes) :=
  '(u, r) ← parse_quadhex bs;
  if (55296 <=? u) && (u <=? 57343) then
    if 56320 <=? u then None
    else
      r ← match_text (BACKSLASH :: str "u") r;
      '(second, r) ← parse_quadhex r;
      if (56320 <=? second) && (second <=? 57343)
      then Some (utf8 (Z.lor (Z.shiftl (u - 55296) 10) (Z.land (second - 56320) 1023) + 65536), r)
      else None
  else Some (utf8 u, r).

(** The characters an escape appends. *)
Definition escape_of (e : Z) : option Z :=
  if e =? QUOTE then Some QUOTE else if e =? BACKSLASH then Some BACKSLASH else if e =? 47 then Some 47
  else if e =? 98 then Some 8 else if e =? 102 then Some 12 else if e =? 110 then Some 10
  else if e =? 114 then Some 13 else if e =? 116 then Some 9 else None.

Definition parse_escape (bs : bytes) : option (bytes * bytes) :=
  match bs with
  | [] => None
  | e :: r => match escape_of e with
              | Some c => Some ([c], r)
              | None => if e =? 117 then parse_codepoint r else None
              end
  end.

(** After the opening quote; each round takes at least one character. *)
Fixpoint parse_string (fuel : nat) (out bs : bytes) : bytes * option bytes :=
  match fuel, bs with
  | S fuel, ch :: r =>
      if ch <? 32 then (out, None)
      else if ch =? QUOTE then (out, Some r)
      else if ch =? BACKSLASH then
        match parse_escape r with
        | Some (cs, r) => parse_string fuel (out ++ cs) r
        | None => (out, None)
        end
      else parse_string fuel (out ++ [ch]) r
  | _, _ => (out, None)
  end.

Definition read_string (bs : bytes) : bytes * option bytes := parse_string (S (length bs)) [] bs.

(** ** Numbers *)

Definition num_char (c : Z) : bool := isdigit c || (c =? 43) || (c =? 45) || (c =? 101) || (c =? 69) || (c =? 46).

Definition parse_number (bs : bytes) : bytes * bytes := span num_char bs.

Definition digits_value (s : bytes) : Z := foldl (λ n c, 10 * n + (c - 48)) 0 s.

(** ** Objects *)

(** [std::string]'s order, by unsigned bytes. *)
Fixpoint bytes_lt (a b : bytes) : bool :=
  match a, b with
  | _, [] => false
  | [], _ :: _ => true
  | x :: a, y :: b => (x <? y) || ((x =? y) && bytes_lt a b)
  end.

Fixpoint map_get (k : bytes) (m : list (bytes * json)) : option json :=
  match m with
  | [] => None
  | (k', v) :: m => if eqs k' k then Some v else map_get k m
  end.

Fixpoint map_put (k : bytes) (v : json) (m : list (bytes * json)) : list (bytes * json) :=
  match m with
  | [] => [(k, v)]
  | (k', v') :: m' =>
      if eqs k' k then (k, v) :: m' else if bytes_lt k' k then (k', v') :: map_put k v m' else (k, v) :: m
  end.

(** ** Values *)

Definition DEFAULT_MAX_DEPTHS : nat := 100.

Section parse.
(** [strtod] on a text with a sign, a point or an exponent, or of an integer that a double
    may not hold exactly. *)
Context (strtod_other : bytes → option Z).

Definition strtod (s : bytes) : option Z :=
  if forallb isdigit s && (digits_value s <=? 2 ^ 53) then Some (digits_value s) else strtod_other s.

Definition keyword (out : json) (rest : bytes) (v : json) (bs : bytes) : json * option bytes :=
  match match_text rest bs with Some r => (v, Some r) | None => (out, None) end.

(** [out] is the value parsed into.  [_parse], the loop of [_parse_array] and that of
    [_parse_object]; objects do not count against the depth of what they hold. *)
Fixpoint parse_value (fuel depth : nat) (out : json) (bs : bytes) : json * option bytes :=
  match fuel, skip_ws bs with
  | S fuel, ch :: r =>
      if ch =? 110 then keyword out (str "ull") JNull r
      else if ch =? 102 then keyword out (str "alse") (JBool false) r
      else if ch =? 116 then keyword out (str "rue") (JBool true) r
      else if ch =? QUOTE then let '(s, r) := read_string r in (JStr s, r)
      else if ch =? 91 then
        match depth with
        | O => (out, None)
        | S depth =>
            let '(empty, r) := expect 93 r in
            if empty then (JArr [], Some r) else parse_items fuel depth [] r
        end
      else if ch =? 123 then
        match depth with
        | O => (out, None)
        | S _ =>
            let '(empty, r) := expect 125 r in
            if empty then (JObj [], Some r) else parse_members fuel depth [] r
        end
      else if isdigit ch || (ch =? 45) then
        let '(num, r) := parse_number (ch :: r) in
        match strtod num with Some n => (JNum n, Some r) | None => (out, None) end
      else (out, None)
  | _, _ => (out, None)
  end
with parse_items (fuel depth : nat) (a : list json) (bs : bytes) : json * option bytes :=
  match fuel with
  | O => (JArr a, None)
  | S fuel =>
      let '(v, r) := parse_value fuel depth JNull bs in
      let a := a ++ [v] in
      match r with
      | None => (JArr a, None)
      | Some r =>
          let '(more, r) := expect 44 r in
          if more then parse_items fuel depth a r
          else let '(stop, r) := expect 93 r in (JArr a, if stop then Some r else None)
      end
  end
with parse_members (fuel depth : nat) (m : list (bytes * json)) (bs : bytes) : json * option bytes :=
  match fuel with
  | O => (JObj m, None)
  | S fuel =>
      match expect QUOTE bs with
      | (false, _) => (JObj m, None)
      | (true, r) =>
          match read_string r with
          | (_, None) => (JObj m, None)
          | (key, Some r) =>
              match expect 58 r with
              | (false, _) => (JObj m, None)
              | (true, r) =>
                  let '(v, r) := parse_value fuel depth (default JNull (map_get key m)) r in
                  let m := map_put key v m in
                  match r with
                  | None => (JObj m, None)
                  | Some r =>
                      let '(more, r) := expect 44 r in
                      if more then parse_members fuel depth m r
                      else let '(stop, r) := expect 125 r in (JObj m, if stop then Some r else None)
                  end
              end
          end
      end
  end.

(** The value after [parse(out, s)], whose error string the compiler drops. *)
Definition parse (s : bytes) : json := (parse_value (2 * length s + 1) DEFAULT_MAX_DEPTHS JNull s).1.

(** ** Reading back what the compiler renders *)

(** The bytes that [json_escape] renders as JSON: all but the control bytes without
    an escape of their own. *)
Definition json_char (c : Z) : bool := (32 <=? c) || (c =? 8) || (c =? 12) || (c =? 10) || (c =? 13) || (c =? 9).

Fixpoint keys_sorted (l : list (bytes * json)) : bool :=
  match l with
  | [] => true
  | (k, _) :: l => forallb (λ kv, bytes_lt k kv.1) l && keys_sorted l
  end.

(** A tree that the rendering keeps. *)
Fixpoint json_plain (j : json) : bool :=
  match j with
  | JNull | JBool _ => true
  | JNum n => (0 <=? n) && (n <=? 2 ^ 53)
  | JStr s => forallb json_char s
  | JArr l => forallb json_plain l
  | JObj l => keys_sorted l && forallb (λ kv, forallb json_char kv.1 && json_plain kv.2) l
  end.

(** Within the nesting limit [d]. *)
Fixpoint fits_depth (d : nat) (j : json) : bool :=
  match j with
  | JArr l => Nat.ltb 0 d && forallb (fits_depth (d - 1)) l
  | JObj l => Nat.ltb 0 d && forallb (λ kv, fits_depth d kv.2) l
  | _ => true
  end.

(** Induction over trees. *)
Lemma json_ind' (P : json → Prop) :
  P JNull → (∀ b, P (JBool b)) → (∀ n, P (JNum n)) → (∀ s, P (JStr s)) →
  (∀ l, Forall P l → P (JArr l)) → (∀ l, Forall (λ kv, P kv.2) l → P (JObj l)) → ∀ j, P j.
Proof.
  intros H1 H2 H3 H4 H5 H6. fix IH 1. intros [|b|n|s|l|l]; [done|apply H2|apply H3|apply H4| |].
  - apply H5. induction l as [|j l IHl]; constructor; [apply IH|exact IHl].
  - apply H6. induction l as [|[k j] l IHl]; constructor; [apply IH|exact IHl].
Qed.

(** An escaped character is one round of the string loop. *)
Lemma parse_escaped c fuel out r :
  json_char c = true → parse_string (S fuel) out (escape_char c ++ r) = parse_string fuel (out ++ [c]) r.
Proof.
  unfold json_char, escape_char, QUOTE, BACKSLASH. intros Hc.
  repeat case_match; bool_to_prop; subst; try reflexivity; [lia|].
  cbn [app parse_string]. rewrite (proj2 (Z.ltb_ge _ _)) by lia.
  rewrite !(proj2 (Z.eqb_neq c _)) by done. done.
Qed.

Lemma parse_string_escaped s fuel out r :
  forallb json_char s = true → (length s < fuel)%nat →
  parse_string fuel out (json_escape s ++ QUOTE :: r) = (out ++ s, Some r).
Proof.
  revert fuel out. induction s as [|c s IH]; intros [|fuel] out Hs Hf; simpl in Hf; try lia.
  - by rewrite app_nil_r.
  - apply andb_true_iff in Hs as [Hc Hs]. change (json_escape (c :: s)) with (escape_char c ++ json_escape s).
    rewrite <- app_assoc, parse_escaped, IH by (done || lia). by rewrite <- app_assoc.
Qed.

Lemma escape_length s : (length s ≤ length (json_escape s))%nat.
Proof.
  induction s as [|c s IH]; [done|]. change (json_escape (c :: s)) with (escape_char c ++ json_escape s).
  rewrite length_app. assert (0 < length (escape_char c))%nat; [|simpl; lia]. unfold escape_char. repeat case_match; simpl; lia.
Qed.

Lemma read_string_escaped s r : forallb json_char s = true → read_string (json_escape s ++ QUOTE :: r) = (s, Some r).
Proof.
  intros Hs. unfold read_string. rewrite parse_string_escaped; [done|done|].
  pose proof (escape_length s). rewrite length_app. simpl. lia.
Qed.

(** The text after a value neither continues a number nor is white space. *)
Definition stops (r : bytes) : Prop := match r with c :: _ => num_char c = false ∧ is_ws c = false | [] => True end.

Lemma span_prefix f s r :
  forallb f s = true → match r with c :: _ => f c = false | [] => True end → span f (s ++ r) = (s, r).
Proof.
  intros Hs Hr. induction s as [|c s IH]; cbn [app span].
  - destruct r as [|c r]; [done|]. cbn [span]. by rewrite Hr.
  - apply andb_true_iff in Hs as [Hc Hs]. rewrite Hc, IH; done.
Qed.

Lemma parse_number_dec n r : 0 <= n → stops r → parse_number (dec n ++ r) = (dec n, r).
Proof.
  intros Hn Hr. apply span_prefix.
  - destruct (dec_ok n Hn) as [_ Hd]. rewrite !forallb_forall in *. intros c Hc. unfold num_char. by rewrite (Hd c Hc).
  - destruct r; [done|]. apply Hr.
Qed.

Lemma digits_dec_loop fuel n acc m :
  0 <= n < 10 ^ Z.of_nat fuel → (0 < fuel)%nat →
  ∃ k, foldl (λ n c, 10 * n + (c - 48)) m (dec_loop fuel n acc) = foldl (λ n c, 10 * n + (c - 48)) (m * k + n) acc.
Proof.
  revert n acc m. induction fuel as [|fuel IH]; intros n acc m Hn Hf; [lia|]. cbn [dec_loop].
  pose proof (Z.div_mod n 10 ltac:(lia)) as Hdm.
  destruct (Z.eqb_spec (n / 10) 0) as [E|E].
  - exists 10. cbn [foldl]. f_equal. lia.
  - rewrite Nat2Z.inj_succ, Z.pow_succ_r in Hn by lia. destruct fuel as [|fuel]; [|].
    { change (10 ^ Z.of_nat 0) with 1 in Hn. destruct E. apply Z.div_small. lia. }
    destruct (IH (n / 10) ((48 + n mod 10) :: acc) m) as [k ->].
    { split; [apply Z.div_pos; lia|]. apply Z.div_lt_upper_bound; lia. } { lia. }
    exists (10 * k). cbn [foldl]. f_equal. lia.
Qed.

Lemma strtod_dec n : 0 <= n <= 2 ^ 53 → strtod (dec n) = Some n.
Proof.
  intros Hn. destruct (dec_ok n) as [_ Hd]; [lia|]. assert (digits_value (dec n) = n) as Hv.
  { unfold digits_value, dec. destruct (digits_dec_loop 20 n [] 0) as [k ->]; [lia|lia|]. simpl. lia. }
  unfold strtod. rewrite Hd, Hv, (proj2 (Z.leb_le _ _)) by lia. done.
Qed.

Lemma expect_char c r : is_ws c = false → expect c (c :: r) = (true, r).
Proof. intros Hc. unfold expect. cbn [skip_ws]. by rewrite Hc, Z.eqb_refl. Qed.

Lemma expect_other c d r : is_ws d = false → d ≠ c → expect c (d :: r) = (false, d :: r).
Proof. intros Hd Hne. unfold expect. cbn [skip_ws]. by rewrite Hd, (proj2 (Z.eqb_neq _ _) Hne). Qed.

Lemma bytes_lt_irrefl k : bytes_lt k k = false.
Proof. induction k as [|c k IH]; [done|]. cbn [bytes_lt]. by rewrite Z.ltb_irrefl, Z.eqb_refl, IH. Qed.

(** A key behind all others is appended. *)
Lemma map_put_last k v m : forallb (λ kv, bytes_lt kv.1 k) m = true → map_put k v m = m ++ [(k, v)].
Proof.
  induction m as [|[k' v'] m IH]; [done|]. cbn [forallb fst map_put app]. intros [Hk Hm]%andb_true_iff.
  unfold eqs. rewrite bool_decide_false, Hk, IH; [done|done|]. intros ->. by rewrite bytes_lt_irrefl in Hk.
Qed.

Lemma dec_head n : 0 <= n → ∃ c t, dec n = c :: t ∧ isdigit c = true.
Proof.
  intros Hn. destruct (dec_ok n Hn) as [Hne Hd]. destruct (dec n) as [|c t]; [done|]. exists c, t. split; [done|].
  by apply andb_true_iff in Hd as [? _].
Qed.

Lemma render_head j : json_plain j = true → ∃ c t, render j = c :: t ∧ is_ws c = false ∧ c ≠ 93.
Proof.
  destruct j as [|[]|n|s|l|l]; cbn [json_plain render]; intros H; try (eexists _, _; split; [reflexivity|done]).
  destruct (dec_head n) as (c & t & -> & Hc); [lia|]. exists c, t. split; [done|]. unfold isdigit, is_ws in *. lia.
Qed.

(** What the round trip states of one value. *)
Definition reads_back (d : nat) (j : json) : Prop :=
  ∀ fuel out r, stops r → (2 * length (render j) < fuel)%nat → parse_value fuel d out (render j ++ r) = (j, Some r).

Lemma items_read_back d l fuel a r :
  l ≠ [] → Forall (reads_back d) l → (2 * length (commas (map render l)) + 1 < fuel)%nat →
  parse_items fuel d a (commas (map render l) ++ 93 :: r) = (JArr (a ++ l), Some r).
Proof.
  intros Hne Hl. revert fuel a. induction Hl as [|j l Hj Hl IH]; intros fuel a Hf; [done|]. destruct fuel as [|fuel]; [lia|].
  destruct l as [|j' l].
  - change (commas (map render [j])) with (render j) in *. cbn [parse_items]. rewrite Hj by (done || lia).
    rewrite expect_other, expect_char by done. done.
  - change (commas (map render (j :: j' :: l))) with (render j ++ str "," ++ commas (map render (j' :: l))) in *.
    change (str ",") with [44] in *. rewrite !length_app in Hf. change (length [44]) with 1%nat in Hf.
    rewrite <- !app_assoc. cbn [parse_items]. rewrite Hj by (done || lia). change ([44] ++ ?x) with (44 :: x).
    rewrite expect_char by done. rewrite IH by (done || lia). by rewrite <- app_assoc.
Qed.

Definition member (kv : bytes * json) : bytes := quoted (json_escape kv.1) ++ str ":" ++ render kv.2.

Lemma member_read k j m fuel d r :
  forallb json_char k = true → reads_back d j → stops r → (2 * length (render j) < fuel)%nat →
  forallb (λ kv, bytes_lt kv.1 k) m = true →
  parse_members (S fuel) d m (member (k, j) ++ r)
  = (let m := m ++ [(k, j)] in
     let '(more, r) := expect 44 r in
     if more then parse_members fuel d m r else let '(stop, r) := expect 125 r in (JObj m, if stop then Some r else None)).
Proof.
  intros Hk Hj Hr Hf Hm. unfold member, quoted. rewrite <- !app_assoc. cbn [parse_members fst snd]. change (str ":") with [58]. cbn [app].
  rewrite expect_char by done. rewrite read_string_escaped by done. rewrite expect_char by done. rewrite Hj by done.
  by rewrite map_put_last.
Qed.

Lemma members_read_back d l fuel m r :
  l ≠ [] → Forall (λ kv, forallb json_char kv.1 = true ∧ reads_back d kv.2) l → keys_sorted l = true →
  Forall (λ kv, forallb (λ kv', bytes_lt kv'.1 kv.1) m = true) l → (2 * length (commas (map member l)) + 1 < fuel)%nat →
  parse_members fuel d m (commas (map member l) ++ 125 :: r) = (JObj (m ++ l), Some r).
Proof.
  intros Hne Hl. revert fuel m. induction Hl as [|[k j] l [Hk Hj] Hl IH]; intros fuel m Hs Hm Hf; [done|]. destruct fuel as [|fuel]; [lia|].
  apply Forall_cons in Hm as [Hm1 Hm]. cbn [keys_sorted] in Hs. apply andb_true_iff in Hs as [Hs1 Hs]. cbn [fst snd] in *.
  assert (length (render j) < length (member (k, j)))%nat as Hlen.
  { unfold member, quoted. rewrite !length_app. simpl. lia. }
  destruct l as [|kv l].
  - change (commas (map member [(k, j)])) with (member (k, j)) in *. rewrite member_read by (done || lia).
    cbv zeta. rewrite expect_other, expect_char by done. done.
  - change (commas (map member ((k, j) :: kv :: l))) with (member (k, j) ++ str "," ++ commas (map member (kv :: l))) in *.
    rewrite !length_app in Hf. change (str ",") with [44] in *. cbn [length] in Hf.
    rewrite <- !app_assoc, member_read by (done || lia). cbv zeta. cbn [app]. rewrite expect_char by done.
    rewrite IH; [by rewrite <- app_assoc|done|done| |lia].
    rewrite Forall_forall in Hm |- *. intros x Hx. rewrite forallb_app, (Hm x Hx). cbn [forallb fst].
    rewrite forallb_forall in Hs1. by rewrite (Hs1 x) by (by apply list_elem_of_In).
Qed.

Lemma value_number n fuel d out r :
  0 <= n <= 2 ^ 53 → stops r → parse_value (S fuel) d out (dec n ++ r) = (JNum n, Some r).
Proof.
  intros Hn Hr. destruct (dec_head n) as (c & t & E & Hc); [lia|].
  pose proof (parse_number_dec n r ltac:(lia) Hr) as Hp. rewrite E in Hp. rewrite E. cbn [app] in *.
  assert (is_ws c = false) as Hw by (unfold isdigit, is_ws in *; lia).
  cbn [parse_value skip_ws]. rewrite Hw, Hc. cbn [orb].
  assert (48 <= c <= 57) by (unfold isdigit in Hc; lia). unfold QUOTE. rewrite !(proj2 (Z.eqb_neq c _)) by lia.
  rewrite Hp, <- E, strtod_dec by done. done.
Qed.

Lemma value_array fuel d out r :
  parse_value (S fuel) (S d) out (91 :: r)
  = let '(empty, r) := expect 93 r in if empty then (JArr [], Some r) else parse_items fuel d [] r.
Proof. reflexivity. Qed.

Lemma value_object fuel d out r :
  parse_value (S fuel) (S d) out (123 :: r)
  = let '(empty, r) := expect 125 r in if empty then (JObj [], Some r) else parse_members fuel (S d) [] r.
Proof. reflexivity. Qed.

Lemma render_reads_back j d : json_plain j = true → fits_depth d j = true → reads_back d j.
Proof.
  revert d. induction j as [|b|n|s|l IH|l IH] using json_ind'; intros d Hp Hd [|fuel] out r Hr Hf; try lia;
    cbn [json_plain fits_depth render] in *.
  - reflexivity.
  - by destruct b.
  - apply value_number; [lia|done].
  - unfold quoted. rewrite <- !app_assoc. cbn [app parse_value skip_ws]. change (is_ws QUOTE) with false. cbn [Z.eqb].
    rewrite read_string_escaped by done. reflexivity.
  - apply andb_true_iff in Hd as [Hpos Hd]. destruct d as [|d]; [done|]. rewrite Nat.sub_succ, Nat.sub_0_r in Hd.
    change (str "[") with [91] in *. change (str "]") with [93] in *. rewrite <- !app_assoc. cbn [app]. rewrite value_array.
    destruct l as [|j l]; [by cbn [map commas app]; rewrite expect_char|].
    rewrite !length_app in Hf. cbn [length] in Hf. rewrite !forallb_forall in *. rewrite Forall_forall in IH.
    destruct (render_head j) as (c & t & Ej & Hc & Hc93); [apply Hp; by left|].
    assert (∃ t', commas (map render (j :: l)) ++ 93 :: r = c :: t') as [t' Et].
    { destruct l as [|j' l]; cbn [map commas]; rewrite Ej; eexists; reflexivity. }
    rewrite Et, expect_other by done. rewrite <- Et. cbv iota beta. apply (items_read_back d (j :: l) fuel [] r); [done| |lia].
    apply Forall_forall. intros x Hx. apply IH; [done|apply Hp|apply Hd]; by apply list_elem_of_In.
  - apply andb_true_iff in Hd as [Hpos Hd]. apply andb_true_iff in Hp as [Hk Hp]. destruct d as [|d]; [done|].
    change (str "{") with [123] in *. change (str "}") with [125] in *. rewrite <- !app_assoc. cbn [app]. rewrite value_object.
    destruct l as [|[k j] l]; [by cbn [map commas app]; rewrite expect_char|].
    rewrite !length_app in Hf. cbn [length] in Hf. rewrite !forallb_forall in *. rewrite Forall_forall in IH.
    fold member in Hf |- *.
    assert (∃ t', commas (map member ((k, j) :: l)) ++ 125 :: r = QUOTE :: t') as [t' Et].
    { destruct l as [|kv l]; cbn [map commas]; eexists; reflexivity. }
    rewrite Et, expect_other by done. rewrite <- Et. cbv iota beta.
    apply (members_read_back (S d) ((k, j) :: l) fuel [] r); [done| |done|by apply Forall_forall|lia].
    apply Forall_forall. intros x Hx. pose proof (Hp x ltac:(by apply list_elem_of_In)) as [H1 H2]%andb_true_iff.
    split; [done|]. apply IH; [done|done|]. by apply Hd, list_elem_of_In.
Qed.

Lemma parse_render j : json_plain j = true → fits_depth DEFAULT_MAX_DEPTHS j = true → parse (render j) = j.
Proof.
  intros Hp Hd. pose proof (render_reads_back j DEFAULT_MAX_DEPTHS Hp Hd (2 * length (render j) + 1)%nat JNull [] I ltac:(lia)) as H.
  rewrite app_nil_r in H. unfold parse. by rewrite H.
Qed.

End parse.
End PicoJson.
