(* ===== verification/DslCompile.v ===== *)
(** * The filter compiler ([include/filter/dsl_compiler.h])

    From the JSON tree of a filter to a selector tree and the query attributes
    its leaves read.  A thrown exception is [None].  The tree is rendered as text by
    the SQL front end ([SqlParser]) and read back by [picojson] ([PicoJson]).  A JSON
    number is the integer its digits denote; [to_u32] is defined on 32-bit values,
    where the double is exact. *)

From Stdlib Require Import Ascii String.
From S2P Require Import Prelude Bytes FilterUtils StringAttr Attributes Selector SqlParser PicoJson.

Module Dsl.
Import Sql Sel StringAttr.
Open Scope Z_scope.

Notation bytes := (list Z) (only parsing).
Notation Attribute := (list Z) (only parsing).
Notation Attributes := (gmap Z (list Z)) (only parsing).

Record FieldInfo := mkField {
  fi_key : Z;
  fi_type : bytes;
  fi_attr_index : Z;
  fi_n_vectors : Z
}.

Definition Schema : Type := gmap (list Z) FieldInfo.

(** Without the selector, which the functions return. *)
Record CompiledFilter := mkCompiled {
  attrs_template : gmap Z (list Z);
  slot_map : gmap (list Z) Z;
  var_field_type : gmap (list Z) (list Z)
}.

Definition is_placeholder (s : bytes) : bool :=
  match s with 36 :: 36 :: _ :: _ => true | _ => false end.

Definition placeholder_name (s : bytes) : bytes := drop 2 s.

(** [schema.begin()]: some field. *)
Definition schema_n_vectors (schema : Schema) : option Z :=
  match map_to_list schema with [] => None | (_, info) :: _ => Some (fi_n_vectors info) end.

Definition to_u32 (v : json) : option Z :=
  match v with JNum n => if (0 <=? n) && (n <? 2 ^ 32) then Some n else None | _ => None end.

Definition get_string (v : json) : option bytes := match v with JStr s => Some s | _ => None end.
Definition get_array (v : json) : option (list json) := match v with JArr l => Some l | _ => None end.

Definition append_record (dest bare : Attribute) : Attribute := dest ++ u32 (Z.of_nat (length bare)) :: bare.

Definition alloc_slot (cf : CompiledFilter) (value : Attribute) : Z * CompiledFilter :=
  let slot := u32 (Z.of_nat (size (attrs_template cf))) in
  (slot, mkCompiled (Attributes.set (attrs_template cf) slot value) (slot_map cf) (var_field_type cf)).

(** [emplace]: an entry that exists stays. *)
Definition emplace {V} (m : gmap (list Z) V) (k : list Z) (v : V) : gmap (list Z) V :=
  match m !! k with Some _ => m | None => <[k := v]> m end.

Definition alloc_placeholder_slot (cf : CompiledFilter) (var field_type : bytes) : Z * CompiledFilter :=
  let '(slot, cf) := alloc_slot cf [] in
  (slot, mkCompiled (attrs_template cf) (emplace (slot_map cf) var slot)
           (emplace (var_field_type cf) var field_type)).

Definition LABEL : bytes := str "label".
Definition RANGE : bytes := str "range".

(** [ops.count(key)] and [ops.at(key)]. *)
Fixpoint jget (key : bytes) (ops : list (bytes * json)) : option json :=
  match ops with
  | [] => None
  | (k, v) :: ops => if eqs k key then Some v else jget key ops
  end.

Section heap.
Context (heap : gmap Z index).

(** The string selectors' constructor throws unless the index is a string index. *)
Definition with_string (info : FieldInfo) (s : Selector) : option Selector :=
  _ ← string_index heap (fi_attr_index info); Some s.

(** One record of the query. *)
Definition record1 (s : bytes) : Attribute := append_record [] (pack_string_attr s).

(** A value that is not an object: equality, or a placeholder. *)
Definition compile_scalar (info : FieldInfo) (val : json) (cf : CompiledFilter) : option (Selector * CompiledFilter) :=
  if match val with JStr s => is_placeholder s | _ => false end then
    s ← get_string val;
    let '(slot, cf) := alloc_placeholder_slot cf (placeholder_name s) (fi_type info) in
    if eqs (fi_type info) LABEL then Some (new_LabelOrSelector slot (fi_key info) (fi_attr_index info), cf)
    else if eqs (fi_type info) RANGE then Some (new_RangeSelector slot (fi_key info) (fi_attr_index info), cf)
    else s ← with_string info (StringEqSelector slot (fi_key info) (fi_attr_index info) []); Some (s, cf)
  else if eqs (fi_type info) LABEL then
    v ← to_u32 val;
    let '(slot, cf) := alloc_slot cf [v] in
    Some (new_LabelOrSelector slot (fi_key info) (fi_attr_index info), cf)
  else if eqs (fi_type info) RANGE then
    v ← to_u32 val;
    let hi := if v =? UINT32_MAX then v else v + 1 in
    let '(slot, cf) := alloc_slot cf [v; hi] in
    Some (new_RangeSelector slot (fi_key info) (fi_attr_index info), cf)
  else
    s ← get_string val;
    let '(slot, cf) := alloc_slot cf (record1 s) in
    s ← with_string info (StringEqSelector slot (fi_key info) (fi_attr_index info) []); Some (s, cf).

Definition label_values (items : list json) : option Attribute := map_opt to_u32 items.
Definition string_records (items : list json) : option Attribute :=
  ss ← map_opt get_string items;
  Some (foldl (λ rec s, append_record rec (pack_string_attr s)) [] ss).

Definition compile_in (info : FieldInfo) (val_node : json) (cf : CompiledFilter) : option (Selector * CompiledFilter) :=
  if eqs (fi_type info) LABEL && match val_node with JStr s => is_placeholder s | _ => false end then
    s ← get_string val_node;
    let '(slot, cf) := alloc_placeholder_slot cf (placeholder_name s) (fi_type info) in
    Some (new_LabelOrSelector slot (fi_key info) (fi_attr_index info), cf)
  else
    items ← get_array val_node;
    if eqs (fi_type info) LABEL then
      vals ← label_values items;
      let '(slot, cf) := alloc_slot cf vals in
      Some (new_LabelOrSelector slot (fi_key info) (fi_attr_index info), cf)
    else
      rec ← string_records items;
      let '(slot, cf) := alloc_slot cf rec in
      s ← with_string info (StringEqSelector slot (fi_key info) (fi_attr_index info) []); Some (s, cf).

Definition compile_all (info : FieldInfo) (val_node : json) (cf : CompiledFilter) : option (Selector * CompiledFilter) :=
  if match val_node with JStr s => is_placeholder s | _ => false end then
    s ← get_string val_node;
    let '(slot, cf) := alloc_placeholder_slot cf (placeholder_name s) (fi_type info) in
    Some (new_LabelAndSelector slot (fi_key info) (fi_attr_index info), cf)
  else
    items ← get_array val_node;
    vals ← label_values items;
    let '(slot, cf) := alloc_slot cf vals in
    Some (new_LabelAndSelector slot (fi_key info) (fi_attr_index info), cf).

(** [$prefix], [$suffix] and [$like]. *)
Definition compile_pattern (mk : Z → Selector) (info : FieldInfo) (v : json) (cf : CompiledFilter)
    : option (Selector * CompiledFilter) :=
  s ← get_string v;
  let '(slot, cf) := alloc_slot cf (record1 s) in
  s ← with_string info (mk slot); Some (s, cf).

(** One comparator of the interval. *)
Definition range_step (acc : option (Z * Z)) (e : bytes * json) : option (Z * Z) :=
  '(lo, hi) ← acc;
  let '(op, v) := e in
  val_u32 ← to_u32 v;
  Some (if eqs op (str "$gt") then (Z.max lo (val_u32 + 1), hi)
        else if eqs op (str "$ge") then (Z.max lo val_u32, hi)
        else if eqs op (str "$lt") then (lo, Z.min hi val_u32)
        else if eqs op (str "$le") then (lo, Z.min hi (val_u32 + 1))
        else (lo, hi)).

Definition compile_range (info : FieldInfo) (ops : list (bytes * json)) (cf : CompiledFilter)
    : option (Selector * CompiledFilter) :=
  '(lo, hi) ← foldl range_step (Some (0, UINT32_MAX + 1)) ops;
  let lo := Z.min lo UINT32_MAX in
  let hi := Z.min hi UINT32_MAX in
  let '(slot, cf) := alloc_slot cf [lo; hi] in
  Some (new_RangeSelector slot (fi_key info) (fi_attr_index info), cf).

Definition compile_ops (info : FieldInfo) (ops : list (bytes * json)) (cf : CompiledFilter)
    : option (Selector * CompiledFilter) :=
  let key := fi_key info in
  let p := fi_attr_index info in
  match jget (str "$in") ops with
  | Some v => compile_in info v cf
  | None =>
  match jget (str "$all") ops with
  | Some v => compile_all info v cf
  | None =>
  match jget (str "$prefix") ops with
  | Some v => compile_pattern (λ slot, StringPrefixSelector slot key p []) info v cf
  | None =>
  match jget (str "$suffix") ops with
  | Some v => compile_pattern (λ slot, StringSuffixSelector slot key p []) info v cf
  | None =>
  match jget (str "$like") ops with
  | Some v => compile_pattern (λ slot, StringLikeSelector slot key p []) info v cf
  | None => compile_range info ops cf
  end end end end end.

Fixpoint compile_field_clause (info : FieldInfo) (val : json) (cf : CompiledFilter)
    : option (Selector * CompiledFilter) :=
  match val with
  | JObj ops =>
      (* ["$eq"]: the clause of its value *)
      match (fix find_eq (l : list (bytes * json)) : option (option (Selector * CompiledFilter)) :=
               match l with
               | [] => None
               | (k, v) :: l => if eqs k (str "$eq") then Some (compile_field_clause info v cf) else find_eq l
               end) ops with
      | Some r => r
      | None => compile_ops info ops cf
      end
  | _ => compile_scalar info val cf
  end.

(** A field of the node: [$ne] and [$nin] negate here. *)
Definition compile_field (schema : Schema) (name : bytes) (val : json) (cf : CompiledFilter)
    : option (Selector * CompiledFilter) :=
  info ← schema !! name;
  match val with
  | JObj ops =>
      match jget (str "$ne") ops with
      | Some v =>
          '(s, cf) ← compile_field_clause info v cf; n ← schema_n_vectors schema; Some (new_NotSelector s n, cf)
      | None =>
          match jget (str "$nin") ops with
          | Some v =>
              '(s, cf) ← compile_field_clause info (JObj [(str "$in", v)]) cf;
              n ← schema_n_vectors schema; Some (new_NotSelector s n, cf)
          | None => compile_field_clause info val cf
          end
      end
  | _ => compile_field_clause info val cf
  end.

(** The state is threaded from child to child. *)
Definition compile_each (f : json → CompiledFilter → option (Selector * CompiledFilter)) :
    list json → CompiledFilter → option (list Selector * CompiledFilter) :=
  fix go (items : list json) (cf : CompiledFilter) : option (list Selector * CompiledFilter) :=
    match items with
    | [] => Some ([], cf)
    | item :: items => '(s, cf) ← f item cf; '(ss, cf) ← go items cf; Some (s :: ss, cf)
    end.

Definition compile_logical_array (f : json → CompiledFilter → option (Selector * CompiledFilter)) (val : json)
    (cf : CompiledFilter) : option (list Selector * CompiledFilter) :=
  match val with JArr items => compile_each f items cf | _ => None end.

(** One entry of the object. *)
Definition compile_entry (schema : Schema) (f : json → CompiledFilter → option (Selector * CompiledFilter))
    (name : bytes) (val : json) (cf : CompiledFilter) : option (Selector * CompiledFilter) :=
  if eqs name (str "$and") then
    '(subs, cf) ← compile_logical_array f val cf; Some (new_AndSelector subs, cf)
  else if eqs name (str "$or") then
    '(subs, cf) ← compile_logical_array f val cf; Some (new_OrSelector subs, cf)
  else if eqs name (str "$not") then
    '(s, cf) ← f val cf; n ← schema_n_vectors schema; Some (new_NotSelector s n, cf)
  else compile_field schema name val cf.

Definition only_or_and (children : list Selector) : Selector :=
  match children with [only] => only | _ => new_AndSelector children end.

Fixpoint compile_node (schema : Schema) (node : json) (cf : CompiledFilter) : option (Selector * CompiledFilter) :=
  match node with
  | JObj obj =>
      '(children, cf) ←
        (fix entries (l : list (bytes * json)) (cf : CompiledFilter) : option (list Selector * CompiledFilter) :=
           match l with
           | [] => Some ([], cf)
           | (name, val) :: l =>
               '(s, cf) ← compile_entry schema (compile_node schema) name val cf;
               '(ss, cf) ← entries l cf;
               Some (s :: ss, cf)
           end) obj cf;
      Some (only_or_and children, cf)
  | _ => None
  end.

Definition empty_filter : CompiledFilter := mkCompiled ∅ ∅ ∅.

(** The error that [picojson::parse] returns is not looked at. *)
Definition compile (strtod_other : bytes → option Z) (sql : bytes) (schema : Schema) : option (Selector * CompiledFilter) :=
  match sql_to_mongo_json (trim_left sql) with
  | Ok src => compile_node schema (PicoJson.parse strtod_other src) empty_filter
  | _ => None
  end.
End heap.

(** Binding a row of placeholder values. *)
Definition bind_row (cf : CompiledFilter) (values : gmap (list Z) Attribute) : option Attributes :=
  map_fold (λ var slot acc, out ← acc; v ← values !! var; Some (Attributes.set out slot v))
    (Some (attrs_template cf)) (slot_map cf).

Definition set_rows (slot : Z) (rows : list Attribute) (out : list Attributes) : option (list Attributes) :=
  if Nat.ltb (length out) (length rows) then None
  else Some (zip_with (λ a r, Attributes.set a slot r) out rows ++ drop (length rows) out).

(** One step of the batch binding: the rows of one variable. *)
Definition bind_var (cf : CompiledFilter) (rows : list Attribute) (slot : Z) (out : list Attributes)
    : option (list Attributes) :=
  set_rows slot rows (match out with [] => replicate (length rows) (attrs_template cf) | _ => out end).

Definition bind_batch_per_var (cf : CompiledFilter) (rows_of : bytes → option (list Attribute)) : option (list Attributes) :=
  if decide (slot_map cf = ∅) then Some [attrs_template cf]
  else map_fold (λ var slot acc, out ← acc; rows ← rows_of var; bind_var cf rows slot out) (Some []) (slot_map cf).

(** * What a filter means *)

Definition STRING : bytes := str "string".






(** Evaluates comparisons of known names. *)
Ltac names :=
  repeat match goal with
  | |- context [eqs ?a ?b] =>
      let v := eval vm_compute in (eqs a b) in
      lazymatch v with true => change (eqs a b) with true | false => change (eqs a b) with false end
  end; cbn [andb orb negb]; cbv iota.

Section meaning.
Context (schema : Schema).




(** ** Typing *)

(** Numbers up to [b], and strings that the compiler does not take for placeholders and
    that have no control byte other than those with an escape of their own. *)
Definition num_lit (b : Z) (l : lit) : Prop :=
  match l with LNum n => 0 <= n < b | LBool _ => True | _ => False end.
Definition string_ok (s : bytes) : Prop :=
  text s ∧ is_placeholder s = false ∧ Z.of_nat (length s) < 2 ^ 32 ∧ forallb PicoJson.json_char s = true.
Definition str_lit (l : lit) : Prop :=
  match l with LStr s => string_ok s | _ => False end.
Definition eq_lit (info : FieldInfo) (l : lit) : Prop :=
  if eqs (fi_type info) LABEL then num_lit (2 ^ 32) l
  else if eqs (fi_type info) RANGE then num_lit UINT32_MAX l else str_lit l.

(** A field the schema has, under a name that is no operator of the compiler. *)
Definition known (f : bytes) (P : FieldInfo → Prop) : Prop :=
  (f ≠ str "$and" ∧ f ≠ str "$or" ∧ f ≠ str "$not") ∧ ∃ info, schema !! f = Some info ∧ P info.

Definition typed_cmp (c : cmp) : Prop :=
  match c with
  | CCmp f _ (OEq | ONe) v => known f (λ info, eq_lit info v)
  | CCmp f _ _ v => known f (λ info, fi_type info = RANGE ∧ num_lit UINT32_MAX v)
  | CBetween f _ lo hi => known f (λ info, fi_type info = RANGE ∧ num_lit UINT32_MAX lo ∧ num_lit UINT32_MAX hi)
  | CIn f _ vs => known f (λ info, Forall (eq_lit info) vs)
  | CLike f _ p => known f (λ info, fi_type info = STRING ∧ string_ok p)
  | CContains f v => known f (λ info, eq_lit info v)
  | CContainsAll f (AVals vs) | CContainsAny f (AVals vs) =>
      known f (λ info, fi_type info = LABEL ∧ Forall (num_lit (2 ^ 32)) vs)
  | CContainsAll _ (AVar _) | CContainsAny _ (AVar _) => False
  end.

Fixpoint typed_unary (u : unary) : Prop :=
  match u with
  | UCmp c => typed_cmp c
  | UNot u => typed_unary u
  | UParen e => e ≠ [] ∧ foldr (λ us P, us ≠ [] ∧ foldr (λ u Q, typed_unary u ∧ Q) True us ∧ P) True e
  end.
Definition typed_conj (us : list unary) : Prop := us ≠ [] ∧ foldr (λ u Q, typed_unary u ∧ Q) True us.



(** ** Slots *)















(** ** Leaves *)

Section leaf.
Context (heap : gmap Z index) (f : bytes) (info : FieldInfo).
Hypothesis Hf : schema !! f = Some info.








End leaf.

(** ** Clauses *)




Section clauses.
Context (heap : gmap Z index) (n_vec : Z).
Hypothesis Hn : schema_n_vectors schema = Some n_vec.
Hypothesis Htypes : ∀ f info, schema !! f = Some info →
  fi_type info = LABEL ∨ fi_type info = RANGE ∨ fi_type info = STRING ∧ is_Some (string_index heap (fi_attr_index info)).























(** ** Nodes *)


Lemma node_obj1 name j cf :
  compile_node heap schema (obj1 name j) cf = compile_entry heap schema (compile_node heap schema) name j cf.
Proof. unfold obj1. cbn [compile_node]. by destruct (compile_entry _ _ _ _ _ _) as [[s cf']|]. Qed.

Lemma eqs_false a b : a ≠ b → eqs a b = false.
Proof. intros H. unfold eqs. by rewrite bool_decide_false. Qed.





(** A list of nodes: the JSON, the slots and the meaning of each. *)
Notation part := (json * nat * (Attributes → Prop))%type.
















End clauses.
End meaning.




(** ** The text of a typed filter is read back *)

Section plain.
Import PicoJson.
Context (schema : Schema).














End plain.


(** ** The largest value *)

(** the value 2^32 - 1 cannot be queried.  Every comparison of a range field
    other than inequality, with any 32-bit constant, compiles to an interval that
    ends at 2^32 - 1 at the latest and is half open, so the stored value 2^32 - 1
    fails even [= 4294967295], [<= 4294967295] and [>= 0]. *)
Theorem range_max_never_matches heap schema f info op n cf t key q :
  schema !! f = Some info → fi_type info = RANGE → fi_key info = key → op ≠ ONe → is_u32 n →
  t !! key = Some [UINT32_MAX] →
  ∃ s cf', compile_field heap schema f (json_op op (JNum n)) cf = Some (s, cf')
    ∧ (attrs_template cf' ⊆ q → is_member s q t = Some false).
Proof.
  intros Hf Ht Hk Hop Hn Hrec. unfold compile_field. rewrite Hf. cbn [mbind option_bind].
  assert (to_u32 (JNum n) = Some n) as Hu.
  { unfold to_u32, is_u32 in *. by replace ((0 <=? n) && (n <? 2 ^ 32)) with true by lia. }
  assert (∀ lo hi, hi <= UINT32_MAX →
    ∃ s cf', (let '(slot, cf') := alloc_slot cf [lo; hi] in
              Some (new_RangeSelector slot (fi_key info) (fi_attr_index info), cf')) = Some (s, cf')
      ∧ (attrs_template cf' ⊆ q → is_member s q t = Some false)) as Hrange.
  { intros lo hi Hhi. unfold alloc_slot. eexists _, _. split; [reflexivity|]. cbn [attrs_template]. intros Hq.
    cbn [new_RangeSelector is_member]. unfold Range_is_member, with_target, Attributes.get. rewrite Hk, Hrec.
    rewrite (lookup_weaken _ _ _ _ (lookup_insert_eq _ _ _) Hq).
    change (Some ((lo <=? UINT32_MAX) && (UINT32_MAX <? hi)) = Some false). f_equal.
    rewrite (proj2 (Z.ltb_ge _ _)) by lia. apply andb_false_r. }
  destruct op; try done; cbn [json_op]; unfold obj1; cbn [jget]; names; cbn [compile_field_clause]; names;
    [unfold compile_scalar|unfold compile_ops; cbn [jget]; names; unfold compile_range; cbn [foldl]..].
  - rewrite Ht. names. rewrite Hu. cbn [mbind option_bind]. apply Hrange.
    destruct (Z.eqb_spec n UINT32_MAX); [lia|]. unfold is_u32, UINT32_MAX in *. lia.
  - cbn [range_step mbind option_bind]. rewrite Hu. cbn [mbind option_bind]. names. apply Hrange. lia.
  - cbn [range_step mbind option_bind]. rewrite Hu. cbn [mbind option_bind]. names. apply Hrange. lia.
  - cbn [range_step mbind option_bind]. rewrite Hu. cbn [mbind option_bind]. names. apply Hrange. lia.
  - cbn [range_step mbind option_bind]. rewrite Hu. cbn [mbind option_bind]. names. apply Hrange. lia.
Qed.

(** ** A placeholder used twice *)

Lemma placeholder_first v ty :
  alloc_placeholder_slot empty_filter v ty = (0, mkCompiled {[0 := []]} {[v := 0]} {[v := ty]}).
Proof.
  unfold alloc_placeholder_slot, alloc_slot, emplace, empty_filter. cbn [attrs_template slot_map var_field_type].
  by rewrite map_size_empty, !lookup_empty.
Qed.

Lemma placeholder_again v ty ty' :
  alloc_placeholder_slot (mkCompiled {[0 := []]} {[v := 0]} {[v := ty]}) v ty'
  = (1, mkCompiled (<[1 := []]> {[0 := []]}) {[v := 0]} {[v := ty]}).
Proof.
  unfold alloc_placeholder_slot, alloc_slot, emplace. cbn [attrs_template slot_map var_field_type].
  by rewrite map_size_singleton, !lookup_singleton_eq.
Qed.

(** the second use of a placeholder stays unbound.  In [f1 = $$x OR f2 = $$x] over
    label fields the compiler reserves two slots but records only the first under
    [x]; after binding [x] to any values, the second comparison reads an empty query
    and accepts nothing, so the filter means [f1 = $$x] alone. *)
Theorem placeholder_second_use_unbound heap schema f1 f2 i1 i2 x vals t l1 l2 :
  known schema f1 (λ i, i = i1 ∧ fi_type i = LABEL) → known schema f2 (λ i, i = i2 ∧ fi_type i = LABEL) → x ≠ [] →
  t !! fi_key i1 = Some l1 → t !! fi_key i2 = Some l2 →
  ∃ s cf q,
    compile_node heap schema
      (json_or [[UCmp (CCmp f1 false OEq (LVar x))]; [UCmp (CCmp f2 false OEq (LVar x))]]) empty_filter = Some (s, cf)
    ∧ bind_row cf {[x := vals]} = Some q
    ∧ is_member s q t = Some (existsb (has l1) vals).
Proof.
  intros ((Ha1 & Ho1 & Hn1) & ? & Hf1 & -> & Ht1) ((Ha2 & Ho2 & Hn2) & ? & Hf2 & -> & Ht2) Hx Hl1 Hl2.
  destruct x as [|c x]; [done|].
  set (cf := mkCompiled (<[1 := []]> {[0 := []]}) {[c :: x := 0]} {[c :: x := LABEL]}).
  exists (new_OrSelector [new_LabelOrSelector 0 (fi_key i1) (fi_attr_index i1);
                          new_LabelOrSelector 1 (fi_key i2) (fi_attr_index i2)]), cf,
    (<[0 := vals]> (<[1 := []]> {[0 := []]})).
  split_and!.
  - unfold json_or, json_and. cbn [map json_unary json_cmp json_neg json_op json_lit]. cbn [json_logical].
    rewrite node_obj1. unfold compile_entry. names. unfold compile_logical_array. cbn [compile_each].
    rewrite node_obj1. unfold compile_entry at 1. rewrite !eqs_false by done. unfold compile_field at 1. rewrite Hf1.
    cbn [mbind option_bind compile_field_clause]. unfold compile_scalar at 1. cbn [is_placeholder get_string mbind option_bind].
    rewrite Ht1. rewrite placeholder_first. names. cbn [mbind option_bind].
    rewrite node_obj1. unfold compile_entry. rewrite !eqs_false by done. unfold compile_field. rewrite Hf2.
    cbn [mbind option_bind compile_field_clause]. unfold compile_scalar. cbn [is_placeholder get_string mbind option_bind].
    rewrite Ht2. rewrite placeholder_again. names. cbn [mbind option_bind]. reflexivity.
  - unfold bind_row, cf. cbn [slot_map attrs_template]. rewrite map_fold_singleton. cbn [mbind option_bind].
    by rewrite lookup_singleton_eq.
  - simpl. unfold Or_is_member. cbn [any_opt is_member]. unfold new_LabelOrSelector. cbn [is_member].
    unfold LabelOr_is_member, with_target, Attributes.get. rewrite Hl1, Hl2, lookup_insert_eq. cbn [mbind option_bind].
    destruct (existsb (has l1) vals); [done|].
    rewrite lookup_insert_ne, lookup_insert_eq by done. done.
Qed.

(** ** Concrete filters *)

Definition no_index : AttrIndex :=
  mkAttrIndex 0 (λ _, None) (λ _, None) (λ _, None) (λ _, None) (λ _, None) (λ _, None) (λ _ _ _, None).
Definition demo_heap : gmap Z index :=
  {[3 := IString (mkStringOps no_index (λ _ _, None) (λ _ _, None) (λ _ _, None) (λ _ _, None) (λ _ _ _ _, None)
                   (λ _, None) (λ _, None) (λ _, None))]}.
Definition price : FieldInfo := mkField 0 RANGE 1 100.
Definition tag : FieldInfo := mkField 1 LABEL 2 100.
Definition name : FieldInfo := mkField 2 STRING 3 100.
Definition demo_schema : gmap (list Z) FieldInfo := <[str "price" := price]> (<[str "tag" := tag]> {[str "name" := name]}).






(** A literal with a control byte is cut off.  [json_escape] writes the byte 1 as [\u1]
    without padding, [picojson] stops there and leaves the string read so far in the
    tree, and [compile] does not look at the error: the filter [name = "a\x01"] compiles
    to the filter [name = "a"]. *)
Definition name_is (s : list Z) : disj := [[UCmp (CCmp (str "name") false OEq (LStr s))]].

Theorem control_byte_truncates strtod_other :
  compile demo_heap strtod_other (print (toks_or (name_is [97; 1]))) demo_schema
  = compile demo_heap strtod_other (print (toks_or (name_is [97]))) demo_schema
  ∧ is_Some (compile demo_heap strtod_other (print (toks_or (name_is [97]))) demo_schema).
Proof. split; [vm_compute; reflexivity|]. vm_compute. by eexists. Qed.

Lemma range_max_never_matches_witness :
  ∃ s cf', compile_field demo_heap demo_schema (str "price") (json_op OGe (JNum 0)) empty_filter = Some (s, cf')
    ∧ is_member s (attrs_template cf') {[0 := [UINT32_MAX]]} = Some false.
Proof.
  assert (∃ s cf', compile_field demo_heap demo_schema (str "price") (json_op OGe (JNum 0)) empty_filter = Some (s, cf'))
    as (s & cf' & Hc) by (eexists _, _; vm_compute; reflexivity).
  destruct (range_max_never_matches demo_heap demo_schema (str "price") price OGe 0 empty_filter
    {[0 := [UINT32_MAX]]} 0 (attrs_template cf')) as (s1 & cf1 & Hc1 & Hm).
  - vm_compute. reflexivity.
  - reflexivity.
  - reflexivity.
  - discriminate.
  - unfold is_u32. lia.
  - reflexivity.
  - rewrite Hc in Hc1. injection Hc1 as <- <-. exists s, cf'. split; [exact Hc|]. apply Hm. reflexivity.
Defined.

(** [tag = $$x OR tag2 = $$x], bound to 7, on a record whose second field is 7. *)
Definition tag2 : FieldInfo := mkField 5 LABEL 2 100.
Definition two_tags : Schema := <[str "tag" := tag]> {[str "tag2" := tag2]}.

Lemma placeholder_second_use_unbound_witness :
  ∃ s cf q,
    compile_node demo_heap two_tags
      (json_or [[UCmp (CCmp (str "tag") false OEq (LVar (str "x")))]; [UCmp (CCmp (str "tag2") false OEq (LVar (str "x")))]])
      empty_filter = Some (s, cf)
    ∧ bind_row cf {[str "x" := [7]]} = Some q
    ∧ is_member s q (<[1 := [1]]> {[5 := [7]]}) = Some false.
Proof.
  apply (placeholder_second_use_unbound demo_heap two_tags (str "tag") (str "tag2") tag tag2 (str "x") [7]
    (<[1 := [1]]> {[5 := [7]]}) [1] [7]).
  - split; [split_and!; apply (bool_decide_unpack _); by vm_compute|]. exists tag. split; [vm_compute; reflexivity|done].
  - split; [split_and!; apply (bool_decide_unpack _); by vm_compute|]. exists tag2. split; [vm_compute; reflexivity|done].
  - discriminate.
  - vm_compute. reflexivity.
  - vm_compute. reflexivity.
Defined.

End Dsl.
