(* ===== verification/LocTable.v ===== *)
(** * Location tables of the SSD index

    [SSDIndex] keeps two arrays: [id2loc_] gives the record of a node on disk,
    [loc2id_] the node of a record.  A record of [loc2id_] holds an id,
    [kInvalidID] (a hole) or [kAllocatedID] (taken by an insert that has not
    committed).  [alloc_loc] and [erase_and_set_loc] run under [alloc_lock]; the
    resize mutexes of the arrays only protect their growth
    ([ReaderOptSharedMutex] of [LockTable]).  The file models the arrays with
    their growth, the allocator with its three sources of records (empty pages,
    holes of the hint pages, the end of the file) and the tag maps, and proves
    what an insert relies on: the records it gets are distinct and free, the
    pages it may overwrite without reading them hold no node, and the queue of
    empty pages is exact. *)

From S2P Require Import Prelude Queues Layout.
Local Open Scope Z_scope.

Module Loc.
Import Queues.Queues Layout.Layout.

Definition kInvalidID : Z := UINT32_MAX.
Definition kAllocatedID : Z := UINT32_MAX - 1.
Definition INDEX_SIZE_FACTOR : Z := 2.

Record LocTables := mkLoc {
  id2loc_ : list Z; loc2id_ : list Z; cur_loc : Z; empty_pages : ConcurrentQueue Z
}.

(** ** The arrays

    A read or a write out of the array is [None], as is [crash()].  A write past
    the end first grows the array to [1.5 * index] zeros. *)

Definition slot (t : list Z) (i : Z) : option Z := t !! Z.to_nat i.

Definition grow (t : list Z) (i : Z) : list Z :=
  if Z.of_nat (length t) <=? i then vresize t (Z.to_nat (3 * i / 2)) 0 else t.

Definition put (t : list Z) (i x : Z) : option (list Z) := vset (grow t i) (Z.to_nat i) x.

Definition id2loc (s : LocTables) (id : Z) : option Z :=
  if Z.of_nat (length (id2loc_ s)) <=? id then None else slot (id2loc_ s) id.

(** The bound test is [>], so that [loc == size] reaches the array. *)
Definition loc2id (s : LocTables) (loc : Z) : option Z :=
  if Z.of_nat (length (loc2id_ s)) <? loc then None else slot (loc2id_ s) loc.

Definition set_id2loc (s : LocTables) (id loc : Z) : option LocTables :=
  t ← put (id2loc_ s) id loc; Some (mkLoc t (loc2id_ s) (cur_loc s) (empty_pages s)).

Definition with_loc2id (s : LocTables) (t : list Z) : LocTables :=
  mkLoc (id2loc_ s) t (cur_loc s) (empty_pages s).

Definition set_loc2id (s : LocTables) (loc id : Z) : option LocTables :=
  t ← put (loc2id_ s) loc id; Some (with_loc2id s t).

Section pages.
Context (m : SSDIndexMetadata).

Definition id2page (s : LocTables) (id : Z) : option Z :=
  loc ← id2loc s id; Some (if loc =? kInvalidID then kInvalidID else loc_sector_no m loc).

(** The records of a page: one when a node takes whole sectors. *)
Definition page_locs (page : Z) : list Z :=
  seqZ (sector_to_loc m page 0) (if nnodes_per_sector m =? 0 then 1 else nnodes_per_sector m).

Definition get_page_layout (s : LocTables) (page : Z) : option (list Z) :=
  mapM (slot (loc2id_ s)) (page_locs page).

(** ** Releasing records *)

(** The scan stops at the first record in use; it covers no record when a node
    takes whole sectors. *)
Fixpoint all_free (t : list Z) (locs : list Z) : option bool :=
  match locs with
  | [] => Some true
  | i :: locs => v ← slot t i; if v =? kInvalidID then all_free t locs else Some false
  end.

(** The unused [offset = loc % nnodes_per_sector] at its end divides by zero when a
    node takes whole sectors. *)
Definition erase_loc2id (s : LocTables) (loc : Z) : option LocTables :=
  t ← vset (loc2id_ s) (Z.to_nat loc) kInvalidID;
  empty ← all_free t (seqZ (sector_to_loc m (loc_sector_no m loc) 0) (nnodes_per_sector m));
  let pages := if (empty : bool) then cq_push (empty_pages s) (u32 (loc_sector_no m loc)) else empty_pages s in
  _ ← (if nnodes_per_sector m =? 0 then None else Some (loc mod nnodes_per_sector m));
  Some (mkLoc (id2loc_ s) t (cur_loc s) pages).

Fixpoint set_locs (s : LocTables) (new_locs new_ids : list Z) : option LocTables :=
  match new_locs, new_ids with
  | [], _ => Some s
  | l :: new_locs, id :: new_ids => s ← set_loc2id s l id; set_locs s new_locs new_ids
  | _ :: _, [] => None
  end.

Fixpoint erase_locs (s : LocTables) (old_locs : list Z) : option LocTables :=
  match old_locs with
  | [] => Some s
  | l :: old_locs => s ← erase_loc2id s l; erase_locs s old_locs
  end.

Definition erase_and_set_loc (s : LocTables) (old_locs new_locs new_ids : list Z) : option LocTables :=
  s ← set_locs s new_locs new_ids; erase_locs s old_locs.

(** ** Allocating records

    The loops return whether [n] records are allocated; [cur] of the source is
    the length of [ret]. *)

(** A record of an empty page that is in use is a [crash()]. *)
Fixpoint fill_empty (n : nat) (locs : list Z) (t ret : list Z) : option (bool * list Z * list Z) :=
  match locs with
  | [] => Some (false, t, ret)
  | i :: locs =>
      v ← slot t i;
      if negb (v =? kInvalidID) then None
      else
        let t := <[Z.to_nat i := kAllocatedID]> t in
        let ret := ret ++ [i] in
        if Nat.eqb (length ret) n then Some (true, t, ret) else fill_empty n locs t ret
  end.

Fixpoint fill_holes (n : nat) (locs : list Z) (t ret : list Z) : option (bool * list Z * list Z) :=
  match locs with
  | [] => Some (false, t, ret)
  | i :: locs =>
      v ← slot t i;
      if v =? kInvalidID then
        let t := <[Z.to_nat i := kAllocatedID]> t in
        let ret := ret ++ [i] in
        if Nat.eqb (length ret) n then Some (true, t, ret) else fill_holes n locs t ret
      else fill_holes n locs t ret
  end.

Fixpoint count_holes (t : list Z) (locs : list Z) : option Z :=
  match locs with
  | [] => Some 0
  | i :: locs => v ← slot t i; c ← count_holes t locs; Some (c + if v =? kInvalidID then 1 else 0)
  end.

(** 1. Empty pages: pop until [kInvalidID], the value of an empty queue. *)
Fixpoint use_empty_pages (n : nat) (q : list Z) (t ret : list Z) : option (bool * list Z * list Z * list Z) :=
  match q with
  | [] => Some (false, [], t, ret)
  | p :: q =>
      if p =? kInvalidID then Some (false, q, t, ret)
      else
        '(done, t, ret) ← fill_empty n (page_locs p) t ret;
        if (done : bool) then Some (true, q, t, ret) else use_empty_pages n q t ret
  end.

Definition threshold : Z := (nnodes_per_sector m + INDEX_SIZE_FACTOR - 1) / INDEX_SIZE_FACTOR.

(** 2. Hint pages with at least [threshold] holes. *)
Fixpoint use_hint_pages (n : nat) (hints : list Z) (t ret : list Z) (need : gset Z)
    : option (bool * list Z * list Z * gset Z) :=
  match hints with
  | [] => Some (false, t, ret, need)
  | p :: hints =>
      cnt ← count_holes t (page_locs p);
      if cnt <? threshold then use_hint_pages n hints t ret need
      else
        let need := if cnt <? nnodes_per_sector m then {[p]} ∪ need else need in
        '(done, t, ret) ← fill_holes n (page_locs p) t ret;
        if (done : bool) then Some (true, t, ret, need) else use_hint_pages n hints t ret need
  end.

(** 3. The end of the file. *)
Fixpoint use_new_pages (k : nat) (loc : Z) (t ret : list Z) : option (list Z * list Z) :=
  match k with
  | O => Some (t, ret)
  | S k => t ← put t (u32 loc) kAllocatedID; use_new_pages k (loc + 1) t (ret ++ [loc])
  end.

Fixpoint align (fuel : nat) (t : list Z) (loc : Z) : option (list Z * Z) :=
  if (nnodes_per_sector m =? 0) || (loc mod nnodes_per_sector m =? 0) then Some (t, loc)
  else match fuel with
       | O => None
       | S fuel => t ← put t (u32 loc) kInvalidID; align fuel t (loc + 1)
       end.

Definition alloc_loc (s : LocTables) (n : nat) (hint_pages : list Z) (page_need_to_read : gset Z)
    : option (list Z * gset Z * LocTables) :=
  '(done, q, t, ret) ← use_empty_pages n (cq_q (empty_pages s)) (loc2id_ s) [];
  let eq := mkCQ q (null_T (empty_pages s)) in
  if (done : bool) then Some (ret, page_need_to_read, mkLoc (id2loc_ s) t (cur_loc s) eq)
  else
    '(done, t, ret, need) ← use_hint_pages n hint_pages t ret page_need_to_read;
    if (done : bool) then Some (ret, need, mkLoc (id2loc_ s) t (cur_loc s) eq)
    else
      let remaining := (n - length ret)%nat in
      '(t, ret) ← use_new_pages remaining (cur_loc s) t ret;
      '(t, loc) ← align (Z.to_nat (nnodes_per_sector m)) t (cur_loc s + Z.of_nat remaining);
      Some (ret, need, mkLoc (id2loc_ s) t loc eq).

(** ** Loading *)

(** [init_metadata]: the end of the file is the end of the last page. *)
Definition init_cur_loc : Z :=
  let loc := npoints m in
  if negb (nnodes_per_sector m =? 0) && negb (npoints m mod nnodes_per_sector m =? 0)
  then loc + (nnodes_per_sector m - npoints m mod nnodes_per_sector m) else loc.

(** [load_page_layout] without a partition file. *)
Definition equal_mapping : LocTables :=
  mkLoc (seqZ 0 (npoints m))
    (seqZ 0 (npoints m) ++ replicate (Z.to_nat (init_cur_loc - npoints m)) kInvalidID)
    init_cur_loc (mkCQ [] kInvalidID).

(** ** The consistency check *)

Fixpoint verify_ids (s : LocTables) (ids : list Z) : option unit :=
  match ids with
  | [] => Some ()
  | i :: ids =>
      loc ← id2loc s i;
      if cur_loc s <=? loc then None
      else id ← loc2id s loc; if negb (id =? i) then None else verify_ids s ids
  end.

(** The second pass reports a duplicate and goes on; the model returns it. *)
Fixpoint verify_locs (s : LocTables) (locs : list Z) : option bool :=
  match locs with
  | [] => Some true
  | i :: locs =>
      id ← loc2id s i;
      if (id =? kInvalidID) || (id =? kAllocatedID) then verify_locs s locs
      else loc ← id2loc s id; ok ← verify_locs s locs; Some ((loc =? i) && ok)
  end.

Definition verify_id2loc (s : LocTables) (cur_id : Z) : option bool :=
  verify_ids s (seqZ 0 cur_id);; verify_locs s (seqZ 0 (cur_loc s)).

End pages.


(** ** The arrays as functions *)

Lemma slot_insert t i x : (Z.to_nat i < length t)%nat → slot (<[Z.to_nat i := x]> t) i = Some x.
Proof. intros. unfold slot. by apply list_lookup_insert_eq. Qed.

Lemma slot_insert_ne t i j x : 0 <= i → 0 <= j → i ≠ j → slot (<[Z.to_nat i := x]> t) j = slot t j.
Proof. intros. unfold slot. apply list_lookup_insert_ne. lia. Qed.

Lemma slot_lt t i x : slot t i = Some x → (Z.to_nat i < length t)%nat.
Proof. apply lookup_lt_Some. Qed.

Lemma slot_is_Some t i : 0 <= i < Z.of_nat (length t) → is_Some (slot t i).
Proof. intros. apply lookup_lt_is_Some. lia. Qed.

(** A write succeeds when the array covers the index or can grow past it: growth
    by a half misses the indices 0 and 1. *)
Lemma put_spec t i x :
  0 <= i → i < Z.of_nat (length t) ∨ 2 <= i →
  ∃ t', put t i x = Some t' ∧ slot t' i = Some x ∧ (length t ≤ length t')%nat
  ∧ ∀ j, 0 <= j < Z.of_nat (length t) → j ≠ i → slot t' j = slot t j.
Proof.
  intros Hi Hcov. unfold put, grow. case_if.
  - assert (2 <= i) by lia. assert (i + 1 <= 3 * i / 2) by (apply Z.div_le_lower_bound; lia).
    rewrite vset_Some by (rewrite vresize_length; lia). eexists. split; [done|]. split_and!.
    + apply slot_insert. rewrite vresize_length. lia.
    + rewrite length_insert, vresize_length. lia.
    + intros j Hj Hne. rewrite slot_insert_ne by lia. unfold slot.
      rewrite <- (lookup_take_lt (vresize t _ 0) (length t) (Z.to_nat j)) by lia.
      rewrite take_vresize by lia. apply lookup_take_lt. lia.
  - rewrite vset_Some by lia. eexists. split; [done|]. split_and!.
    + apply slot_insert. lia.
    + by rewrite length_insert.
    + intros j Hj Hne. apply slot_insert_ne; lia.
Qed.

(** ** Pages *)

Section tables.
Context (m : SSDIndexMetadata) (Hm : placement_ok m).

Local Abbreviation npg := (nodes_per_io m).

Lemma npg_pos : 0 < npg.
Proof. destruct Hm. unfold nodes_per_io. case_if; lia. Qed.

Lemma npg_len : (if nnodes_per_sector m =? 0 then 1 else nnodes_per_sector m) = npg.
Proof.
  destruct Hm. unfold nodes_per_io. destruct (Z.eqb_spec (nnodes_per_sector m) 0) as [->|]; [done|].
  by rewrite (proj2 (Z.ltb_lt _ _)) by lia.
Qed.

(** The locations that the 32-bit tables and page numbers can hold. *)
Definition fits (loc : Z) : Prop := loc < kAllocatedID ∧ loc_sector_no m loc < kInvalidID.

Lemma fits_u32 l loc : fits loc → 0 <= l <= loc → is_u32 l.
Proof. unfold fits, is_u32, kAllocatedID, UINT32_MAX. lia. Qed.

Lemma sector_mono l l' : is_u32 l → is_u32 l' → l <= l' → loc_sector_no m l <= loc_sector_no m l'.
Proof.
  intros Hl Hl' Hle. rewrite !loc_sector_no_eq by done. destruct (sectors_per_node_bound m Hm) as [Hs _].
  case_if; [|nia]. apply Z.add_le_mono_l. by apply Z.div_le_mono.
Qed.

Lemma fits_le l loc : fits loc → 0 <= l <= loc → fits l.
Proof.
  intros Hf Hl. pose proof (sector_mono l loc (fits_u32 l loc Hf Hl) (fits_u32 loc loc Hf ltac:(lia))).
  unfold fits in *. lia.
Qed.

Lemma sector_u32 l : fits l → 0 <= l → u32 (loc_sector_no m l) = loc_sector_no m l ∧ loc_sector_no m l ≠ kInvalidID.
Proof.
  intros [Hl Hs] H0. assert (0 <= loc_sector_no m l) by (unfold loc_sector_no; apply u64_range).
  unfold kInvalidID, UINT32_MAX in *. rewrite u32_small by (unfold is_u32; lia). lia.
Qed.

Lemma sector_eq_iff l l' :
  is_u32 l → is_u32 l' → loc_sector_no m l = loc_sector_no m l' ↔ l / npg = l' / npg.
Proof.
  intros Hl Hl'. rewrite !loc_sector_no_eq by done. destruct (sectors_per_node_bound m Hm) as [Hs _].
  unfold nodes_per_io. case_if; [lia|]. rewrite !Z.div_1_r. nia.
Qed.

Lemma page_locs_eq l : is_u32 l → page_locs m (loc_sector_no m l) = seqZ (l / npg * npg) npg.
Proof.
  intros Hl. unfold page_locs. rewrite npg_len. f_equal. rewrite loc_sector_no_eq by done.
  unfold sector_to_loc, nodes_per_io. destruct (sectors_per_node_bound m Hm) as [Hs _]. unfold is_u32 in Hl.
  destruct Hm as [_ Hn _]. destruct (Z.eqb_spec (nnodes_per_sector m) 0) as [->|Hne].
  - rewrite Z.ltb_irrefl. fold (sectors_per_node m). rewrite u64_small by (unfold is_u64; nia).
    replace (1 + l * sectors_per_node m - 1) with (l * sectors_per_node m) by lia.
    rewrite Z.div_mul, Z.div_1_r by lia. lia.
  - rewrite (proj2 (Z.ltb_lt _ _)) by lia. pose proof (Z.div_pos l (nnodes_per_sector m)).
    pose proof (Z.mul_div_le l (nnodes_per_sector m)).
    assert (l / nnodes_per_sector m <= l) by (apply Z.div_le_upper_bound; nia).
    replace (1 + l / nnodes_per_sector m - 1) with (l / nnodes_per_sector m) by lia.
    rewrite (u64_small (l / _)) by (unfold is_u64; lia). rewrite Z.add_0_r.
    apply u64_small. unfold is_u64. lia.
Qed.

Lemma div_block l k : l / npg * npg <= k < l / npg * npg + npg ↔ k / npg = l / npg.
Proof.
  pose proof npg_pos. split; intros Hk.
  - symmetry. apply Z.div_unique with (k - l / npg * npg); lia.
  - pose proof (Z.div_mod k npg). pose proof (Z.mod_pos_bound k npg). rewrite <- Hk. lia.
Qed.

Lemma elem_of_page l k : is_u32 l → k ∈ page_locs m (loc_sector_no m l) ↔ k / npg = l / npg.
Proof. intros Hl. rewrite page_locs_eq, elem_of_seqZ by done. apply div_block. Qed.

Lemma page_of_elem l k :
  is_u32 l → is_u32 k → k ∈ page_locs m (loc_sector_no m l) → loc_sector_no m k = loc_sector_no m l.
Proof. intros Hl Hk Hin. apply sector_eq_iff; [done..|]. by apply elem_of_page in Hin. Qed.

Lemma page_self l : is_u32 l → l ∈ page_locs m (loc_sector_no m l).
Proof. intros. by apply elem_of_page. Qed.

Lemma page_below l k loc :
  is_u32 l → (npg | loc) → l < loc → 0 <= l → k ∈ page_locs m (loc_sector_no m l) → 0 <= k < loc.
Proof.
  intros Hl Hal Hlt H0 Hk. pose proof npg_pos. rewrite page_locs_eq, elem_of_seqZ in Hk by done.
  destruct Hal as [g ->]. assert (0 <= l / npg) by (apply Z.div_pos; lia).
  assert (l / npg < g) by (apply Z.div_lt_upper_bound; lia). nia.
Qed.

(** ** The state of the tables *)

Definition page_ok (loc p : Z) : Prop := ∃ l, 0 <= l < loc ∧ p = loc_sector_no m l.
Definition page_free (t : list Z) (p : Z) : Prop := ∀ l, l ∈ page_locs m p → slot t l = Some kInvalidID.

Record tables_ok (s : LocTables) : Prop := mkTablesOk {
  to_cur : 0 <= cur_loc s <= Z.of_nat (length (loc2id_ s));
  to_small : (2 ≤ length (loc2id_ s))%nat;
  to_align : (npg | cur_loc s);
  to_fits : fits (cur_loc s);
  to_null : null_T (empty_pages s) = kInvalidID;
  to_nodup : NoDup (cq_q (empty_pages s));
  to_queue : ∀ p, p ∈ cq_q (empty_pages s) ↔ page_ok (cur_loc s) p ∧ page_free (loc2id_ s) p
}.

(** [took t t' L]: the holes [L] of [t] are allocated in [t']. *)
Record took (t t' : list Z) (L : list Z) : Prop := mkTook {
  tk_nodup : NoDup L;
  tk_holes : ∀ l, l ∈ L → 0 <= l ∧ slot t l = Some kInvalidID ∧ slot t' l = Some kAllocatedID;
  tk_rest : ∀ l, 0 <= l → l ∉ L → slot t' l = slot t l;
  tk_len : length t' = length t
}.

Lemma took_nil t : took t t [].
Proof. split; [apply NoDup_nil_2|set_solver|done|done]. Qed.

Lemma took_app t t1 t2 L1 L2 : took t t1 L1 → took t1 t2 L2 → took t t2 (L1 ++ L2).
Proof.
  intros [N1 H1 R1 E1] [N2 H2 R2 E2].
  assert (∀ l, l ∈ L2 → l ∉ L1) as Hd.
  { intros l Hl2 Hl1. destruct (H1 l Hl1) as (_ & _ & Ha). destruct (H2 l Hl2) as (_ & Hb & _).
    rewrite Ha in Hb. by injection Hb. }
  split.
  - apply NoDup_app. split_and!; [done| |done]. set_solver.
  - intros l [Hl|Hl]%elem_of_app.
    + destruct (H1 l Hl) as (? & ? & ?). split_and!; [done..|]. rewrite R2; [done..|]. set_solver.
    + destruct (H2 l Hl) as (? & Hb & ?). split_and!; [done| |done]. rewrite <- R1; set_solver.
  - intros l H0 Hl. rewrite R2, R1; set_solver.
  - congruence.
Qed.

Lemma took_one t i : 0 <= i → slot t i = Some kInvalidID → took t (<[Z.to_nat i := kAllocatedID]> t) [i].
Proof.
  intros Hi Hs. split.
  - apply NoDup_singleton.
  - intros l ->%list_elem_of_singleton. split_and!; [done..|]. apply slot_insert. by eapply slot_lt.
  - intros l H0 Hl. apply slot_insert_ne; set_solver.
  - apply length_insert.
Qed.

Lemma took_free t t' L l : took t t' L → 0 <= l → slot t' l = Some kInvalidID → slot t l = Some kInvalidID.
Proof.
  intros [_ Hh Hr _] H0 Hl. destruct (decide (l ∈ L)) as [Hin|Hin].
  - destruct (Hh l Hin) as (_ & _ & Ha). rewrite Ha in Hl. by injection Hl.
  - by rewrite <- Hr.
Qed.

(** ** The loops of the allocator *)

Lemma fill_empty_spec n locs t ret :
  NoDup locs → (∀ l, l ∈ locs → 0 <= l ∧ slot t l = Some kInvalidID) → (length ret < n)%nat →
  ∃ done t' L, fill_empty n locs t ret = Some (done, t', ret ++ L) ∧ took t t' L ∧ L ⊆ locs
  ∧ (if (done : bool) then length (ret ++ L) = n ∧ L ≠ [] else L = locs ∧ (length (ret ++ L) < n)%nat).
Proof.
  revert t ret. induction locs as [|i locs IH]; intros t ret Hnd Hfree Hlen; simpl.
  - exists false, t, []. rewrite app_nil_r. split_and!; [done|apply took_nil|done..].
  - destruct (Hfree i) as [Hi Hs]; [left|]. rewrite Hs. simpl. apply NoDup_cons in Hnd as [Hni Hnd].
    pose proof (took_one t i Hi Hs) as Hone. set (t1 := <[Z.to_nat i := kAllocatedID]> t) in *.
    case_if.
    + exists true, t1, [i]. split_and!; [done..|set_solver|done|done].
    + rewrite length_app in *. simpl in *.
      destruct (IH t1 (ret ++ [i])) as (dn & t' & L & -> & Ht & HL & Hd); [done| |rewrite length_app; simpl; lia|].
      { intros l Hl. destruct (Hfree l) as [H0 Hl']; [by right|]. split; [done|].
        rewrite <- Hl'. apply (tk_rest _ _ _ Hone); [done|]. set_solver. }
      exists dn, t', (i :: L). rewrite <- app_assoc in *. split_and!; [done|by apply (took_app t t1 t' [i])|set_solver|].
      destruct dn; [by destruct Hd|]. by destruct Hd as [-> ?].
Qed.

Lemma fill_holes_spec n locs t ret :
  NoDup locs → (∀ l, l ∈ locs → 0 <= l ∧ is_Some (slot t l)) → (length ret < n)%nat →
  ∃ done t' L, fill_holes n locs t ret = Some (done, t', ret ++ L) ∧ took t t' L ∧ L ⊆ locs
  ∧ (if (done : bool) then length (ret ++ L) = n else (length (ret ++ L) < n)%nat).
Proof.
  revert t ret. induction locs as [|i locs IH]; intros t ret Hnd Hin Hlen; simpl.
  - exists false, t, []. rewrite app_nil_r. split_and!; [done|apply took_nil|done..].
  - destruct (Hin i) as [Hi [v Hs]]; [left|]. rewrite Hs. simpl. apply NoDup_cons in Hnd as [Hni Hnd].
    destruct (Z.eqb_spec v kInvalidID) as [->|Hv].
    + pose proof (took_one t i Hi Hs) as Hone. set (t1 := <[Z.to_nat i := kAllocatedID]> t) in *. case_if.
      * exists true, t1, [i]. split_and!; [done..|set_solver|done].
      * rewrite length_app in *. simpl in *.
        destruct (IH t1 (ret ++ [i])) as (dn & t' & L & -> & Ht & HL & Hd); [done| |rewrite length_app; simpl; lia|].
        { intros l Hl. destruct (Hin l) as [H0 Hl']; [by right|]. split; [done|].
          rewrite (tk_rest _ _ _ Hone); [done..|]. set_solver. }
        exists dn, t', (i :: L). rewrite <- app_assoc in *. split_and!; [done|by apply (took_app t t1 t' [i])|set_solver|done].
    + destruct (IH t ret) as (dn & t' & L & -> & Ht & HL & Hd); [done| |done|].
      { intros l Hl. apply Hin. by right. }
      exists dn, t', L. split_and!; [done..|set_solver|done].
Qed.

Lemma count_holes_spec t locs :
  (∀ l, l ∈ locs → is_Some (slot t l)) →
  ∃ c, count_holes t locs = Some c ∧ 0 <= c <= Z.of_nat (length locs)
  ∧ (c = Z.of_nat (length locs) → ∀ l, l ∈ locs → slot t l = Some kInvalidID).
Proof.
  induction locs as [|i locs IH]; intros Hin; simpl; [exists 0; split_and!; [done..|set_solver]|].
  destruct (Hin i) as [v Hs]; [left|]. destruct IH as (c & -> & Hc & Hall); [intros l Hl; apply Hin; by right|].
  rewrite Hs. simpl. eexists. split; [done|]. destruct (Z.eqb_spec v kInvalidID) as [->|Hv]; (split; [lia|]); [|lia].
  intros Heq l [->|Hl]%elem_of_cons; [done|]. apply Hall; [lia|done].
Qed.

Lemma page_locs_NoDup p : NoDup (page_locs m p).
Proof. apply NoDup_seqZ. Qed.

Lemma page_locs_length p : Z.of_nat (length (page_locs m p)) = npg.
Proof. unfold page_locs. rewrite length_seqZ, npg_len. pose proof npg_pos. lia. Qed.

(** The records of a page below the end of the file are records of the array. *)
Lemma page_in t loc p l :
  fits loc → (npg | loc) → loc <= Z.of_nat (length t) → page_ok loc p → l ∈ page_locs m p →
  0 <= l < loc ∧ is_Some (slot t l) ∧ p = loc_sector_no m l.
Proof.
  intros Hf Hal Hlen (k & Hk & ->) Hl. pose proof (fits_u32 k loc Hf ltac:(lia)) as Hku.
  pose proof (page_below k l loc Hku Hal ltac:(lia) ltac:(lia) Hl) as Hlb. split_and!; [lia..| |].
  - apply slot_is_Some. lia.
  - symmetry. apply page_of_elem; [done|by eapply fits_u32; [|split; [|apply Z.lt_le_incl]; apply Hlb]|done].
Qed.

Lemma took_page_busy t t' L p : took t t' L → (∃ l, l ∈ L ∧ l ∈ page_locs m p) → ¬ page_free t' p.
Proof.
  intros Ht (l & Hl & Hp) Hf. destruct (tk_holes _ _ _ Ht l Hl) as (_ & _ & Ha).
  rewrite (Hf l Hp) in Ha. by injection Ha.
Qed.

Lemma use_empty_pages_spec n loc q t ret :
  fits loc → (npg | loc) → loc <= Z.of_nat (length t) → (length ret < n)%nat → NoDup q →
  (∀ p, p ∈ q → page_ok loc p ∧ page_free t p) →
  ∃ done q' t' L, use_empty_pages m n q t ret = Some (done, q', t', ret ++ L) ∧ took t t' L
  ∧ (∀ l, l ∈ L → ∃ p, p ∈ q ∧ l ∈ page_locs m p) ∧ NoDup q' ∧ q' ⊆ q
  ∧ (∀ p, p ∈ q → p ∉ q' → ¬ page_free t' p) ∧ (∀ p, p ∈ q' → page_free t' p)
  ∧ (if (done : bool) then length (ret ++ L) = n else q' = [] ∧ (length (ret ++ L) < n)%nat).
Proof.
  intros Hf Hal. revert t ret. induction q as [|p q IH]; intros t ret Hlen Hret Hnd Hq; simpl.
  { exists false, [], t, []. rewrite app_nil_r. split_and!; try done; [apply took_nil|set_solver..]. }
  apply NoDup_cons in Hnd as [Hnp Hnd]. destruct (Hq p) as [Hpok Hpfree]; [left|].
  assert (p ≠ kInvalidID) as Hp.
  { destruct Hpok as (l & Hl & ->). apply (sector_u32 l); [by eapply fits_le; [|split; [|apply Z.lt_le_incl]; apply Hl]|lia]. }
  rewrite (proj2 (Z.eqb_neq _ _) Hp).
  destruct (fill_empty_spec n (page_locs m p) t ret) as (d1 & t1 & L1 & -> & Ht1 & HL1 & Hd1);
    [apply page_locs_NoDup| |done|].
  { intros l Hl. split; [|by apply Hpfree]. destruct (page_in t loc p l Hf Hal Hlen Hpok Hl); lia. }
  assert (∀ p', p' ∈ q → page_free t1 p') as Hq1.
  { intros p' Hp' l Hl. destruct (Hq p') as [Hpok' Hpf']; [by right|]. rewrite <- (Hpf' l Hl).
    destruct (page_in t loc p' l Hf Hal Hlen Hpok' Hl) as (Hl0 & _ & Hpl). apply (tk_rest _ _ _ Ht1); [lia|].
    intros Hin%HL1. destruct (page_in t loc p l Hf Hal Hlen Hpok Hin) as (_ & _ & Hpl'). congruence. }
  assert (¬ page_free t1 p) as Hbusy.
  { apply (took_page_busy t t1 L1); [done|]. pose proof (page_locs_length p) as Hpl. pose proof npg_pos.
    destruct L1 as [|l L1]; [|exists l; set_solver].
    destruct d1; [by destruct Hd1|]. destruct Hd1 as [Hd1 _]. rewrite <- Hd1 in Hpl. simpl in Hpl. lia. }
  destruct d1; simpl.
  - exists true, q, t1, L1. split_and!; try done; [set_solver..| |by destruct Hd1].
    intros p' [->|Hp']%elem_of_cons Hn; done.
  - destruct Hd1 as [-> Hlt].
    destruct (IH t1 (ret ++ page_locs m p)) as (d & q' & t' & L & -> & Ht & HL & Hnd' & Hsub & Hout & Hin & Hd);
      [by rewrite (tk_len _ _ _ Ht1)|done|done| |].
    { intros p' Hp'. split; [apply Hq; by right|by apply Hq1]. }
    exists d, q', t', (page_locs m p ++ L). rewrite <- app_assoc in *. split_and!; [done|by eapply took_app| |done|set_solver| |done|done].
    + intros l [Hl|Hl]%elem_of_app; [exists p; set_solver|]. destruct (HL l Hl) as (p' & ? & ?). exists p'. set_solver.
    + intros p' [->|Hp']%elem_of_cons Hn; [|by apply Hout]. intros Hfree. apply Hbusy. intros l Hl.
      eapply (took_free t1 t'); [done| |by apply Hfree].
      destruct (page_in t loc p l Hf Hal Hlen Hpok Hl); lia.
Qed.

Lemma use_hint_pages_spec n loc hints t ret need :
  fits loc → (npg | loc) → loc <= Z.of_nat (length t) → (length ret < n)%nat → Forall (page_ok loc) hints →
  ∃ done t' L need', use_hint_pages m n hints t ret need = Some (done, t', ret ++ L, need') ∧ took t t' L
  ∧ (∀ l, l ∈ L → 0 <= l < loc ∧ (loc_sector_no m l ∈ need' ∨ page_free t (loc_sector_no m l)))
  ∧ need ⊆ need' ∧ (if (done : bool) then length (ret ++ L) = n else (length (ret ++ L) < n)%nat).
Proof.
  intros Hf Hal. revert t ret need. induction hints as [|p hints IH]; intros t ret need Hlen Hret Hok; simpl.
  { exists false, t, [], need. rewrite app_nil_r. split_and!; try done; [apply took_nil|set_solver]. }
  apply Forall_cons in Hok as [Hp Hok].
  pose proof (λ l, page_in t loc p l Hf Hal Hlen Hp) as Hin.
  destruct (count_holes_spec t (page_locs m p)) as (c & -> & Hc & Hall); [intros l Hl; by apply Hin|]. simpl.
  case_if; [by apply IH|]. set (need1 := if c <? nnodes_per_sector m then {[p]} ∪ need else need).
  destruct (fill_holes_spec n (page_locs m p) t ret) as (d1 & t1 & L1 & -> & Ht1 & HL1 & Hd1);
    [apply page_locs_NoDup|intros l Hl; destruct (Hin l Hl) as (? & ? & _); split; [lia|done]|done|].
  assert (need ⊆ need1) as Hneed1 by (unfold need1; case_if; set_solver).
  assert (∀ l, l ∈ L1 → 0 <= l < loc ∧ (loc_sector_no m l ∈ need1 ∨ page_free t (loc_sector_no m l))) as HL1'.
  { intros l Hl. destruct (Hin l (HL1 l Hl)) as (Hlb & _ & Hpl). split; [done|]. rewrite <- Hpl.
    unfold need1. case_if; [left; set_solver|right]. intros k Hk. rewrite page_locs_length in *.
    destruct (Z.eq_dec (nnodes_per_sector m) 0) as [Hz|Hnz].
    - replace k with l; [by apply (tk_holes _ _ _ Ht1)|]. apply HL1 in Hl. unfold page_locs in Hl, Hk.
      rewrite Hz, elem_of_seqZ in Hl, Hk. simpl in Hl, Hk. lia.
    - apply Hall; [|done]. destruct Hm. unfold nodes_per_io in *. case_if; lia. }
  destruct d1; simpl.
  - exists true, t1, L1, need1. split_and!; done.
  - destruct (IH t1 (ret ++ L1) need1) as (dn & t' & L & need' & -> & Ht & HL & Hn & Hd);
      [by rewrite (tk_len _ _ _ Ht1)|done|done|].
    exists dn, t', (L1 ++ L), need'. rewrite <- app_assoc in *. split_and!; [done|by eapply took_app| |set_solver|done].
    intros l [Hl|Hl]%elem_of_app.
    + destruct (HL1' l Hl) as [? [?|?]]; split; [done|left; set_solver|done|by right].
    + destruct (HL l Hl) as [Hlb [Hr|Hr]]; (split; [done|]); [by left|right].
      intros k Hk. eapply (took_free t t1); [done| |by apply Hr].
      assert (is_u32 l) by (eapply fits_u32; [done|lia]).
      pose proof (page_below l k loc ltac:(done) Hal ltac:(lia) ltac:(lia) Hk). lia.
Qed.

(** The end of the file: every index is covered or above 1. *)
Lemma use_new_pages_spec k loc t ret :
  0 <= loc <= Z.of_nat (length t) → (2 ≤ length t)%nat → fits (loc + Z.of_nat k) →
  ∃ t', use_new_pages k loc t ret = Some (t', ret ++ seqZ loc (Z.of_nat k))
  ∧ (length t ≤ length t')%nat ∧ loc + Z.of_nat k <= Z.of_nat (length t')
  ∧ (∀ l, 0 <= l < loc → slot t' l = slot t l)
  ∧ (∀ l, loc <= l < loc + Z.of_nat k → slot t' l = Some kAllocatedID).
Proof.
  revert loc t ret. induction k as [|k IH]; intros loc t ret Hloc Hlen Hf; simpl.
  { exists t. rewrite seqZ_nil, app_nil_r by lia. split_and!; try done; lia. }
  rewrite u32_small by (eapply fits_u32; [done|lia]).
  destruct (put_spec t loc kAllocatedID) as (t1 & -> & Hs & Hle & Hne); [lia|lia|]. simpl.
  pose proof (slot_lt _ _ _ Hs) as Hcov.
  destruct (IH (loc + 1) t1 (ret ++ [loc])) as (t' & -> & H1 & H2 & H3 & H4);
    [lia|lia|by replace (loc + 1 + Z.of_nat k) with (loc + Z.of_nat (S k)) by lia|].
  exists t'. split_and!; [|lia|lia| |].
  - f_equal. f_equal. rewrite <- app_assoc. f_equal. rewrite (seqZ_cons loc) by lia. simpl. f_equal. f_equal; lia.
  - intros l Hl. rewrite H3 by lia. apply Hne; lia.
  - intros l Hl. destruct (Z.eq_dec l loc) as [->|]; [rewrite H3 by lia; done|apply H4; lia].
Qed.

Lemma align_spec fuel t loc e :
  0 <= loc <= Z.of_nat (length t) → (2 ≤ length t)%nat → fits e → (npg | e) → loc <= e < loc + npg →
  (Z.to_nat (e - loc) ≤ fuel)%nat →
  ∃ t', align m fuel t loc = Some (t', e)
  ∧ (length t ≤ length t')%nat ∧ e <= Z.of_nat (length t')
  ∧ (∀ l, 0 <= l < loc → slot t' l = slot t l) ∧ (∀ l, loc <= l < e → slot t' l = Some kInvalidID).
Proof.
  revert t loc. induction fuel as [|fuel IH]; intros t loc Hloc Hlen Hf Hdiv He Hfuel; simpl.
  - assert (loc = e) as -> by lia.
    assert ((nnodes_per_sector m =? 0) || (e mod nnodes_per_sector m =? 0) = true) as ->.
    { apply orb_true_iff. destruct Hm, Hdiv as [g ->]. unfold nodes_per_io. case_if; [|left; apply Z.eqb_eq; lia].
      right. apply Z.eqb_eq, Z_mod_mult. }
    exists t. split_and!; try done; lia.
  - destruct ((nnodes_per_sector m =? 0) || (loc mod nnodes_per_sector m =? 0)) eqn:Hend.
    + assert (loc = e) as ->.
      { apply orb_true_iff in Hend. destruct Hm, Hdiv as [g ->]. unfold nodes_per_io in *.
        destruct Hend as [Hz%Z.eqb_eq|Hmod%Z.eqb_eq]; [rewrite Hz in *; simpl in *; lia|].
        destruct (0 <? nnodes_per_sector m) eqn:?; bool_to_prop; [|lia].
        apply Z.mod_divide in Hmod as [h ->]; [|lia]. assert (h = g) by nia. by subst. }
      exists t. split_and!; try done; lia.
    + assert (loc ≠ e).
      { intros ->. apply orb_false_iff in Hend as [?%Z.eqb_neq Hmod%Z.eqb_neq]. apply Hmod. destruct Hm, Hdiv as [g ->].
        unfold nodes_per_io. rewrite (proj2 (Z.ltb_lt _ _)) by lia. apply Z_mod_mult. }
      rewrite u32_small by (eapply fits_u32; [exact Hf|lia]).
      destruct (put_spec t loc kInvalidID) as (t1 & -> & Hs & Hle & Hne); [lia|lia|]. simpl.
      pose proof (slot_lt _ _ _ Hs) as Hcov.
      destruct (IH t1 (loc + 1)) as (t' & -> & H1 & H2 & H3 & H4); [lia|lia|done|done|lia|lia|].
      exists t'. split_and!; [done|lia|lia| |].
      * intros l Hl. rewrite H3 by lia. apply Hne; lia.
      * intros l Hl. destruct (Z.eq_dec l loc) as [->|]; [rewrite H3 by lia; done|apply H4; lia].
Qed.

(** ** What [alloc_loc] promises to an insert *)

Record allocated (s : LocTables) (n : nat) (ret : list Z) (need : gset Z) (s' : LocTables) : Prop := mkAllocated {
  al_length : length ret = n;
  al_nodup : NoDup ret;
  al_free : ∀ l, l ∈ ret → 0 <= l < cur_loc s' ∧ (l < cur_loc s → slot (loc2id_ s) l = Some kInvalidID)
              ∧ slot (loc2id_ s') l = Some kAllocatedID;
  al_same : ∀ l, 0 <= l < cur_loc s → l ∉ ret → slot (loc2id_ s') l = slot (loc2id_ s) l;
  al_new : ∀ l, cur_loc s <= l < cur_loc s' → l ∉ ret → slot (loc2id_ s') l = Some kInvalidID;
  al_cur : cur_loc s <= cur_loc s';
  al_ids : id2loc_ s' = id2loc_ s;
  (** a page that is not to be read held no node and no allocated record *)
  al_unread : ∀ l k, l ∈ ret → loc_sector_no m l ∉ need → k ∈ page_locs m (loc_sector_no m l) → k < cur_loc s →
              slot (loc2id_ s) k = Some kInvalidID;
  al_ok : tables_ok s'
}.

Lemma page_free_back t t' L loc p :
  fits loc → (npg | loc) → loc <= Z.of_nat (length t) → page_ok loc p →
  took t t' L → page_free t' p → page_free t p.
Proof.
  intros Hf Hal Hlen Hp Ht Hfree l Hl. destruct (page_in t loc p l Hf Hal Hlen Hp Hl) as (? & _ & _).
  eapply took_free; [done|lia|by apply Hfree].
Qed.

(** The queue stays exact when records of the file below [loc] are taken. *)
Lemma queue_took t t' L loc (q q' : list Z) :
  fits loc → (npg | loc) → loc <= Z.of_nat (length t) → took t t' L →
  (∀ p, p ∈ q ↔ page_ok loc p ∧ page_free t p) → q' ⊆ q →
  (∀ p, p ∈ q → p ∉ q' → ¬ page_free t' p) → (∀ p, p ∈ q' → page_free t' p) →
  ∀ p, p ∈ q' ↔ page_ok loc p ∧ page_free t' p.
Proof.
  intros Hf Hal Hlen Ht Hq Hsub Hout Hin p. split.
  - intros Hp. split; [|by apply Hin]. by apply Hq, Hsub.
  - intros [Hok Hfree]. destruct (decide (p ∈ q')) as [|Hn]; [done|]. exfalso. apply (Hout p); [|done..].
    apply Hq. split; [done|]. by eapply page_free_back.
Qed.

(** Records taken below the end of the file leave the tables consistent. *)
Lemma took_allocated s n L (need : gset Z) q' t' :
  tables_ok s → took (loc2id_ s) t' L → length L = n → NoDup q' →
  (∀ l, l ∈ L → 0 <= l < cur_loc s ∧ (loc_sector_no m l ∈ need ∨ page_free (loc2id_ s) (loc_sector_no m l))) →
  (∀ p, p ∈ q' ↔ page_ok (cur_loc s) p ∧ page_free t' p) →
  allocated s n L need (mkLoc (id2loc_ s) t' (cur_loc s) (mkCQ q' (null_T (empty_pages s)))).
Proof.
  intros [] Ht Hn Hnd HL Hq. pose proof (tk_len _ _ _ Ht) as Hlen. destruct Ht as [Hnl Hh Hr _]. split; simpl; try done.
  - intros l Hl. destruct (HL l Hl) as [? _], (Hh l Hl) as (? & ? & ?). split_and!; [lia..|done|done].
  - intros l Hl Hn'. apply Hr; [lia|done].
  - lia.
  - intros l k Hl Hn' Hk _. destruct (HL l Hl) as [_ [?|Hfree]]; [done|]. by apply Hfree.
  - split; simpl; rewrite ?Hlen; done.
Qed.

Lemma use_empty_allocates s n (need : gset Z) :
  tables_ok s → (0 < n)%nat →
  ∃ done q' t' L, use_empty_pages m n (cq_q (empty_pages s)) (loc2id_ s) [] = Some (done, q', t', L)
  ∧ took (loc2id_ s) t' L ∧ NoDup q' ∧ (∀ p, p ∈ q' ↔ page_ok (cur_loc s) p ∧ page_free t' p)
  ∧ (∀ l, l ∈ L → 0 <= l < cur_loc s ∧ (loc_sector_no m l ∈ need ∨ page_free (loc2id_ s) (loc_sector_no m l)))
  ∧ (if (done : bool) then length L = n else q' = [] ∧ (length L < n)%nat).
Proof.
  intros [Hcur Hsm Hal Hf Hnull Hnd Hq] Hn.
  destruct (use_empty_pages_spec n (cur_loc s) (cq_q (empty_pages s)) (loc2id_ s) [])
    as (dn & q' & t' & L & Heq & Ht & HL & Hnd' & Hsub & Hout & Hin & Hd); [done..|lia|done|done|intros p; apply Hq|].
  exists dn, q', t', L. split_and!; [done..|eapply queue_took; [..|exact Ht|exact Hq| | |]; try done; lia| |done].
  intros l Hl. destruct (HL l Hl) as (p & Hp & Hlp). apply Hq in Hp as [Hpok Hpf].
  destruct (page_in (loc2id_ s) (cur_loc s) p l) as (? & _ & ->); [done..|lia|done|done|]. split; [done|by right].
Qed.

(** New pages: every one of them holds an allocated record, so none is empty. *)
Lemma new_page_busy t loc k e l :
  0 <= loc → (npg | loc) → (npg | e) → 0 < k → loc + k <= e < loc + k + npg → fits e → loc <= l < e →
  (∀ j, loc <= j < loc + k → slot t j = Some kAllocatedID) → ¬ page_free t (loc_sector_no m l).
Proof.
  intros H0 Hal Hae Hk He Hf Hl Hnew Hfree. pose proof npg_pos as Hn.
  pose proof (fits_u32 l e Hf ltac:(lia)) as Hlu. destruct Hal as [g ->], Hae as [h ->].
  assert (g <= l / npg) by (apply Z.div_le_lower_bound; lia).
  assert (l / npg < h) by (apply Z.div_lt_upper_bound; lia).
  assert (slot t (l / npg * npg) = Some kInvalidID) as Hf0.
  { apply Hfree. rewrite page_locs_eq, elem_of_seqZ by done. lia. }
  rewrite Hnew in Hf0 by nia. by injection Hf0.
Qed.

Lemma next_multiple x : 0 <= x → ∃ e, (npg | e) ∧ x <= e < x + npg.
Proof.
  intros Hx. pose proof npg_pos. exists ((x + npg - 1) / npg * npg). split; [by apply Z.divide_factor_r|].
  pose proof (Z.div_mod (x + npg - 1) npg). pose proof (Z.mod_pos_bound (x + npg - 1) npg). lia.
Qed.

(** The end of the file extends an allocation of holes. *)
Lemma new_pages_allocated s L (need : gset Z) t k :
  tables_ok s → took (loc2id_ s) t L → (0 < k)%nat → fits (cur_loc s + Z.of_nat k + npg) →
  (∀ l, l ∈ L → 0 <= l < cur_loc s ∧ (loc_sector_no m l ∈ need ∨ page_free (loc2id_ s) (loc_sector_no m l))) →
  (∀ p, page_ok (cur_loc s) p → ¬ page_free t p) →
  ∃ t3 t4 e, use_new_pages k (cur_loc s) t L = Some (t3, L ++ seqZ (cur_loc s) (Z.of_nat k))
  ∧ align m (Z.to_nat (nnodes_per_sector m)) t3 (cur_loc s + Z.of_nat k) = Some (t4, e)
  ∧ allocated s (length L + k) (L ++ seqZ (cur_loc s) (Z.of_nat k)) need
      (mkLoc (id2loc_ s) t4 e (mkCQ [] (null_T (empty_pages s)))).
Proof.
  intros [Hcur Hsm Hal Hf Hnull Hnd Hq] Ht Hk Hroom HL Hbusy. pose proof npg_pos as Hnpg.
  pose proof (tk_len _ _ _ Ht) as Hlen.
  destruct (use_new_pages_spec k (cur_loc s) t L) as (t3 & Heq3 & Hl3 & Hc3 & Hs3 & Hn3);
    [lia|lia|eapply fits_le; [exact Hroom|lia]|].
  destruct (next_multiple (cur_loc s + Z.of_nat k)) as (e & Hae & He); [lia|].
  assert (fits e) as Hfe by (eapply fits_le; [exact Hroom|lia]).
  destruct (align_spec (Z.to_nat (nnodes_per_sector m)) t3 (cur_loc s + Z.of_nat k) e) as (t4 & Heq4 & Hl4 & Hc4 & Hs4 & Hn4);
    [lia|lia|done..| |].
  { destruct Hm. unfold nodes_per_io in *. destruct (0 <? nnodes_per_sector m) eqn:?; bool_to_prop; lia. }
  exists t3, t4, e. split; [done|]. split; [done|].
  assert (∀ l, 0 <= l < cur_loc s → slot t4 l = slot t l) as Hold by (intros l Hl; rewrite Hs4, Hs3 by lia; done).
  assert (∀ l, cur_loc s <= l < cur_loc s + Z.of_nat k → slot t4 l = Some kAllocatedID) as Hnew
    by (intros l Hl; rewrite Hs4, Hn3 by lia; done).
  split; simpl.
  - rewrite length_app, length_seqZ. lia.
  - apply NoDup_app. split_and!; [apply Ht| |apply NoDup_seqZ]. intros l Hl ?%elem_of_seqZ. apply HL in Hl. lia.
  - intros l [Hl|Hl%elem_of_seqZ]%elem_of_app.
    + destruct (HL l Hl) as [? _], (tk_holes _ _ _ Ht l Hl) as (? & ? & ?). rewrite Hold by lia. split_and!; [lia..|done|done].
    + split_and!; [lia..|lia|by apply Hnew].
  - intros l Hl Hni. rewrite Hold by lia. apply (tk_rest _ _ _ Ht); [lia|set_solver].
  - intros l Hl Hni. apply Hn4. rewrite elem_of_app, elem_of_seqZ in Hni. lia.
  - lia.
  - done.
  - intros l j [Hl|Hl%elem_of_seqZ]%elem_of_app Hnn' Hj Hjc.
    + destruct (HL l Hl) as [_ [?|Hpf]]; [done|by apply Hpf].
    + exfalso. assert (is_u32 l) by (eapply fits_u32; [exact Hfe|lia]).
      rewrite page_locs_eq, elem_of_seqZ in Hj by done. destruct Hal as [g Hg].
      assert (g <= l / npg) by (apply Z.div_le_lower_bound; lia). nia.
  - split; simpl; [lia|lia|done..|apply NoDup_nil_2|]. intros p. split; [set_solver|].
    intros [(l & Hl & ->) Hfree]. destruct (Z.lt_ge_cases l (cur_loc s)) as [Hlo|Hhi].
    + destruct (Hbusy (loc_sector_no m l)); [exists l; split; [lia|done]|]. intros j Hj. rewrite <- Hold; [by apply Hfree|].
      eapply (page_below l j); [|done..|lia|done]. eapply fits_u32; [exact Hfe|lia].
    + exfalso. by eapply (new_page_busy t4 (cur_loc s) (Z.of_nat k) e l); try done; lia.
Qed.

Lemma alloc_loc_allocates s n hints need :
  tables_ok s → (0 < n)%nat → Forall (page_ok (cur_loc s)) hints → fits (cur_loc s + Z.of_nat n + npg) →
  ∃ ret need' s', alloc_loc m s n hints need = Some (ret, need', s') ∧ need ⊆ need' ∧ allocated s n ret need' s'.
Proof.
  intros Hs Hn Hh Hroom. pose proof Hs as [Hcur Hsm Hal Hf Hnull Hnd Hq]. pose proof npg_pos as Hnpg.
  destruct (use_empty_allocates s n need Hs Hn) as (d1 & q1 & t1 & L1 & Heq1 & Ht1 & Hnd1 & Hq1 & HL1 & Hd1).
  unfold alloc_loc. rewrite Heq1. simpl. destruct d1.
  { do 3 eexists. split; [done|]. split; [done|]. by apply took_allocated. }
  destruct Hd1 as [-> Hlt1]. pose proof (tk_len _ _ _ Ht1) as Hlen1.
  destruct (use_hint_pages_spec n (cur_loc s) hints t1 L1 need) as (d2 & t2 & L2 & need' & -> & Ht2 & HL2 & Hnn & Hd2);
    [done|done|lia|done|done|]. simpl.
  pose proof (took_app _ _ _ _ _ Ht1 Ht2) as Ht.
  assert (∀ p, page_ok (cur_loc s) p → ¬ page_free t2 p) as Hbusy.
  { intros p Hp Hfree. assert (p ∈ ([] : list Z)) as Hin; [|set_solver]. apply Hq1. split; [done|].
    by eapply page_free_back; [..|exact Ht2|]; try done; lia. }
  assert (∀ l, l ∈ L1 ++ L2 → 0 <= l < cur_loc s ∧ (loc_sector_no m l ∈ need' ∨ page_free (loc2id_ s) (loc_sector_no m l))) as HL.
  { intros l [Hl|Hl]%elem_of_app.
    - destruct (HL1 l Hl) as [? [?|?]]; (split; [done|]); [left; set_solver|by right].
    - destruct (HL2 l Hl) as [? [?|?]]; (split; [done|]); [by left|right].
      eapply page_free_back; [done|done|lia|by exists l|exact Ht1|done]. }
  destruct d2.
  { do 3 eexists. split; [done|]. split; [done|]. apply took_allocated; [done..|apply NoDup_nil_2|done|].
    intros p. split; [set_solver|]. intros [Hp Hfree]. by destruct (Hbusy p). }
  destruct (new_pages_allocated s (L1 ++ L2) need' t2 (n - length (L1 ++ L2))) as (t3 & t4 & e & -> & Heq4 & Ha);
    [done|done|lia|eapply fits_le; [exact Hroom|lia]|done|done|].
  simpl. rewrite Heq4. simpl. do 3 eexists. split; [done|]. split; [done|].
  by replace (length (L1 ++ L2) + (n - length (L1 ++ L2)))%nat with n in Ha by lia.
Qed.

(** ** Releasing records *)

Lemma all_free_spec t locs :
  (∀ l, l ∈ locs → is_Some (slot t l)) →
  ∃ b, all_free t locs = Some b ∧ (b = true ↔ ∀ l, l ∈ locs → slot t l = Some kInvalidID).
Proof.
  induction locs as [|i locs IH]; intros Hin; simpl; [exists true; set_solver|].
  destruct (Hin i) as [v Hv]; [left|]. rewrite Hv. simpl.
  destruct (Z.eqb_spec v kInvalidID) as [->|Hne].
  - destruct IH as (b & -> & Hb); [intros l Hl; apply Hin; by right|]. exists b. split; [done|]. rewrite Hb. split.
    + intros H l [->|Hl]%elem_of_cons; [done|by apply H].
    + intros H l Hl. apply H. by right.
  - exists false. split; [done|]. split; [done|]. intros H. rewrite (H i) in Hv by left. congruence.
Qed.

(** The scan of [erase_loc2id] covers the page of an erased record. *)
Lemma page_scan t l loc :
  fits loc → (npg | loc) → loc <= Z.of_nat (length t) → 0 <= l < loc → slot t l = Some kInvalidID →
  ∃ b, all_free t (seqZ (sector_to_loc m (loc_sector_no m l) 0) (nnodes_per_sector m)) = Some b
  ∧ (b = true ↔ page_free t (loc_sector_no m l)).
Proof.
  intros Hf Hal Hlen Hl Hs. pose proof (fits_u32 l loc Hf ltac:(lia)) as Hlu. unfold page_free.
  destruct (Z.eq_dec (nnodes_per_sector m) 0) as [Hz|Hnz].
  - rewrite Hz, seqZ_nil by lia. exists true. split; [done|]. split; [intros _ k Hk|done].
    rewrite page_locs_eq, elem_of_seqZ in Hk by done. unfold nodes_per_io in Hk. rewrite Hz in Hk.
    simpl in Hk. rewrite Z.div_1_r in Hk. by replace k with l by lia.
  - pose proof (λ k, page_in t loc (loc_sector_no m l) k Hf Hal Hlen (ex_intro _ l (conj Hl eq_refl))) as Hin.
    unfold page_locs in *. rewrite (proj2 (Z.eqb_neq _ _) Hnz) in *.
    apply all_free_spec. intros k Hk. by apply Hin.
Qed.

Lemma page_free_insert_other t l k x :
  is_u32 l → 0 <= k → ¬ k ∈ page_locs m (loc_sector_no m l) → (∀ j, j ∈ page_locs m (loc_sector_no m l) → 0 <= j) →
  page_free (<[Z.to_nat k := x]> t) (loc_sector_no m l) ↔ page_free t (loc_sector_no m l).
Proof.
  intros Hl Hk Hn H0. unfold page_free. split; intros H j Hj; rewrite <- (H j Hj); [symmetry|];
    apply slot_insert_ne; [lia|by apply H0|congruence|lia|by apply H0|congruence].
Qed.

Lemma erase_one s l id :
  nnodes_per_sector m ≠ 0 → tables_ok s → 0 <= l < cur_loc s → slot (loc2id_ s) l = Some id → id ≠ kInvalidID →
  ∃ s', erase_loc2id m s l = Some s' ∧ tables_ok s' ∧ loc2id_ s' = <[Z.to_nat l := kInvalidID]> (loc2id_ s)
  ∧ cur_loc s' = cur_loc s ∧ id2loc_ s' = id2loc_ s.
Proof.
  intros Hnz [Hcur Hsm Hal Hf Hnull Hnd Hq] Hl Hid Hne. pose proof (slot_lt _ _ _ Hid) as Hlt.
  unfold erase_loc2id. rewrite vset_Some, (proj2 (Z.eqb_neq _ _) Hnz) by done. simpl. set (t := <[Z.to_nat l := kInvalidID]> (loc2id_ s)).
  assert (length t = length (loc2id_ s)) as Hlen by apply length_insert.
  pose proof (fits_u32 l (cur_loc s) Hf ltac:(lia)) as Hlu.
  destruct (page_scan t l (cur_loc s)) as (b & -> & Hb); [done|done|lia|done|by apply slot_insert|]. simpl.
  destruct (sector_u32 l) as [Hu _]; [by eapply fits_le; [|split; [|apply Z.lt_le_incl]; apply Hl]|lia|].
  eexists. split; [done|]. split_and!; try done.
  assert (∀ p, page_ok (cur_loc s) p → p ≠ loc_sector_no m l → page_free t p ↔ page_free (loc2id_ s) p) as Hother.
  { intros p (k & Hk & ->) Hp. pose proof (fits_u32 k (cur_loc s) Hf ltac:(lia)) as Hku.
    apply page_free_insert_other; [done|lia|intros Hin; by apply page_of_elem in Hin|].
    intros j Hj. by apply (page_below k j (cur_loc s)); try done; lia. }
  assert (loc_sector_no m l ∉ cq_q (empty_pages s)) as Hout.
  { intros [_ Hfree]%Hq. rewrite (Hfree l) in Hid by (by apply page_self). congruence. }
  assert (page_ok (cur_loc s) (loc_sector_no m l)) as Hpok by (by exists l).
  split; simpl; [lia|lia|done..| | |].
  - by destruct b.
  - destruct b; simpl; [|done]. rewrite Hu. apply NoDup_app. split_and!; [done|set_solver|apply NoDup_singleton].
  - intros p. destruct (decide (p = loc_sector_no m l)) as [->|Hp].
    + destruct b; simpl; rewrite ?Hu; [set_solver|]. split; [done|]. intros [_ Hfree%Hb]. done.
    + destruct b; simpl; rewrite ?Hu, ?elem_of_app, ?list_elem_of_singleton, Hq; split;
        (intros [? ?] || intros [[? ?]|?]); try done; try left; split; try done; by apply Hother.
Qed.

Lemma erase_locs_spec s old :
  nnodes_per_sector m ≠ 0 → tables_ok s → NoDup old →
  (∀ l, l ∈ old → 0 <= l < cur_loc s ∧ ∃ id, slot (loc2id_ s) l = Some id ∧ id ≠ kInvalidID) →
  ∃ s', erase_locs m s old = Some s' ∧ tables_ok s' ∧ cur_loc s' = cur_loc s ∧ id2loc_ s' = id2loc_ s
  ∧ (∀ l, l ∈ old → slot (loc2id_ s') l = Some kInvalidID)
  ∧ (∀ l, 0 <= l → l ∉ old → slot (loc2id_ s') l = slot (loc2id_ s) l).
Proof.
  intros Hnz. revert s. induction old as [|l old IH]; intros s Hs Hnd Hold; simpl.
  { exists s. split_and!; try done; set_solver. }
  apply NoDup_cons in Hnd as [Hnl Hnd]. destruct (Hold l) as (Hl & id & Hid & Hne); [left|].
  destruct (erase_one s l id Hnz Hs Hl Hid Hne) as (s1 & -> & Hs1 & Ht1 & Hc1 & Hi1). simpl.
  pose proof (slot_lt _ _ _ Hid) as Hlt.
  assert (∀ k, 0 <= k → k ≠ l → slot (loc2id_ s1) k = slot (loc2id_ s) k) as Hrest
    by (intros k Hk Hkl; rewrite Ht1; apply slot_insert_ne; lia).
  destruct (IH s1) as (s' & -> & Hs' & Hc' & Hi' & H1 & H2); [done|done| |].
  { intros k Hk. destruct (Hold k) as (Hkb & idk & Hidk & Hnek); [by right|]. rewrite Hc1. split; [done|].
    exists idk. rewrite Hrest; [done|lia|]. set_solver. }
  exists s'. split_and!; [done|done|congruence..| |].
  - intros k [->|Hk]%elem_of_cons; [|by apply H1]. rewrite H2 by (lia || done). rewrite Ht1. by apply slot_insert.
  - intros k Hk Hkn. rewrite H2, Hrest; set_solver.
Qed.

Lemma and_iff_compat_cond (P Q R : Prop) : (P → (Q ↔ R)) → P ∧ Q ↔ P ∧ R.
Proof. tauto. Qed.

(** Overwriting a record in use by a record in use keeps the queue exact. *)
Lemma set_one s l id id' :
  tables_ok s → 0 <= l < cur_loc s → slot (loc2id_ s) l = Some id → id ≠ kInvalidID → id' ≠ kInvalidID →
  set_loc2id s l id' = Some (with_loc2id s (<[Z.to_nat l := id']> (loc2id_ s)))
  ∧ tables_ok (with_loc2id s (<[Z.to_nat l := id']> (loc2id_ s))).
Proof.
  intros [Hcur Hsm Hal Hf Hnull Hnd Hq] Hl Hid Hne Hne'. pose proof (slot_lt _ _ _ Hid) as Hlt.
  split.
  { unfold set_loc2id, put, grow. rewrite (proj2 (Z.leb_gt _ _)) by lia. by rewrite vset_Some. }
  set (t := <[Z.to_nat l := id']> (loc2id_ s)).
  assert (length t = length (loc2id_ s)) as Hlen by apply length_insert.
  pose proof (fits_u32 l (cur_loc s) Hf ltac:(lia)) as Hlu.
  split; simpl; [lia|lia|done..|]. intros p. rewrite Hq. apply and_iff_compat_cond. intros (k & Hk & ->).
  pose proof (fits_u32 k (cur_loc s) Hf ltac:(lia)) as Hku.
  destruct (decide (l ∈ page_locs m (loc_sector_no m k))) as [Hin|Hin].
  - split; intros Hfree; specialize (Hfree l Hin); [|unfold t in Hfree; rewrite slot_insert in Hfree by done]; congruence.
  - symmetry. apply page_free_insert_other; [done|lia|done|].
    intros j Hj. by apply (page_below k j (cur_loc s)); try done; lia.
Qed.

Lemma set_locs_spec s new ids :
  tables_ok s → NoDup new → length ids = length new → Forall (λ id, id ≠ kInvalidID) ids →
  (∀ l, l ∈ new → 0 <= l < cur_loc s ∧ slot (loc2id_ s) l = Some kAllocatedID) →
  ∃ s', set_locs s new ids = Some s' ∧ tables_ok s' ∧ cur_loc s' = cur_loc s ∧ id2loc_ s' = id2loc_ s
  ∧ (∀ i l id, new !! i = Some l → ids !! i = Some id → slot (loc2id_ s') l = Some id)
  ∧ (∀ l, 0 <= l → l ∉ new → slot (loc2id_ s') l = slot (loc2id_ s) l).
Proof.
  revert s ids. induction new as [|l new IH]; intros s ids Hs Hnd Hlen Hids Hnew.
  { exists s. split_and!; try done; set_solver. }
  destruct ids as [|id ids]; [done|]. apply NoDup_cons in Hnd as [Hnl Hnd]. apply Forall_cons in Hids as [Hid Hids].
  destruct (Hnew l) as (Hl & Ha); [left|]. simpl.
  destruct (set_one s l kAllocatedID id Hs Hl Ha) as [-> Hs1]; [done|done|]. simpl.
  set (s1 := with_loc2id s _) in *.
  assert (∀ k, 0 <= k → k ≠ l → slot (loc2id_ s1) k = slot (loc2id_ s) k) as Hrest
    by (intros k Hk Hkl; apply slot_insert_ne; lia).
  destruct (IH s1 ids) as (s' & -> & Hs' & Hc' & Hi' & H1 & H2); [done|done|by simplify_eq/=|done| |].
  { intros k Hk. destruct (Hnew k) as (Hkb & Hka); [by right|]. split; [done|]. rewrite Hrest; [done|lia|set_solver]. }
  exists s'. split_and!; [done|done|done|done| |].
  - intros [|i] k idk Hk Hidk; simplify_eq/=; [|by eapply H1]. rewrite H2 by (lia || done).
    apply slot_insert. by eapply slot_lt.
  - intros k Hk Hkn. rewrite H2, Hrest; set_solver.
Qed.

Record relocated (s : LocTables) (old new ids : list Z) (s' : LocTables) : Prop := mkRelocated {
  rl_new : ∀ i l id, new !! i = Some l → ids !! i = Some id → slot (loc2id_ s') l = Some id;
  rl_old : ∀ l, l ∈ old → slot (loc2id_ s') l = Some kInvalidID;
  rl_rest : ∀ l, 0 <= l → l ∉ old → l ∉ new → slot (loc2id_ s') l = slot (loc2id_ s) l;
  rl_cur : cur_loc s' = cur_loc s;
  rl_ids : id2loc_ s' = id2loc_ s;
  rl_ok : tables_ok s'
}.

Lemma erase_and_set_relocates s old new ids :
  nnodes_per_sector m ≠ 0 → tables_ok s → NoDup new → length ids = length new → Forall (λ id, id ≠ kInvalidID) ids →
  (∀ l, l ∈ new → 0 <= l < cur_loc s ∧ slot (loc2id_ s) l = Some kAllocatedID) → NoDup old →
  (∀ l, l ∈ old → 0 <= l < cur_loc s ∧ ∃ id, slot (loc2id_ s) l = Some id ∧ id ≠ kInvalidID ∧ id ≠ kAllocatedID) →
  ∃ s', erase_and_set_loc m s old new ids = Some s' ∧ relocated s old new ids s'.
Proof.
  intros Hnz Hs Hnn Hlen Hids Hnew Hno Hold.
  assert (∀ l, l ∈ old → l ∉ new) as Hdisj.
  { intros l Ho Hn. destruct (Hold l Ho) as (_ & id & Hid & _ & Hna), (Hnew l Hn) as (_ & Ha). congruence. }
  destruct (set_locs_spec s new ids) as (s1 & Heq1 & Hs1 & Hc1 & Hi1 & Hn1 & Hr1); [done..|].
  destruct (erase_locs_spec s1 old) as (s2 & Heq2 & Hs2 & Hc2 & Hi2 & Ho2 & Hr2); [done|done|done| |].
  { intros l Hl. destruct (Hold l Hl) as (Hb & id & Hid & Hne & _). rewrite Hc1. split; [done|].
    exists id. rewrite Hr1; [done|lia|by apply Hdisj]. }
  exists s2. unfold erase_and_set_loc. rewrite Heq1. simpl. split; [done|].
  split; [|done| |congruence|congruence|done].
  - intros i l id Hl Hid. rewrite Hr2; [by eapply Hn1| |].
    + apply list_elem_of_lookup_2 in Hl. destruct (Hnew l Hl). lia.
    + intros Hin. by apply (Hdisj l Hin), list_elem_of_lookup_2 with i.
  - intros l H0 Hlo Hln. by rewrite Hr2, Hr1.
Qed.

(** ** A loaded index *)

Lemma init_cur_loc_spec :
  0 <= npoints m → (npg | init_cur_loc m) ∧ npoints m <= init_cur_loc m < npoints m + npg.
Proof.
  intros Hn. destruct Hm as [_ Hnn _]. unfold init_cur_loc, nodes_per_io.
  destruct (Z.eqb_spec (nnodes_per_sector m) 0) as [->|Hne]; simpl.
  { split; [apply Z.divide_1_l|lia]. }
  rewrite (proj2 (Z.ltb_lt _ _)) by lia. pose proof (Z.mod_pos_bound (npoints m) (nnodes_per_sector m) ltac:(lia)).
  destruct (Z.eqb_spec (npoints m mod nnodes_per_sector m) 0) as [Hz|Hz]; simpl.
  - split; [apply Z.mod_divide; lia|lia].
  - split; [|lia]. apply Z.mod_divide; [lia|]. rewrite <- Zplus_mod_idemp_l.
    replace (npoints m mod nnodes_per_sector m + (nnodes_per_sector m - npoints m mod nnodes_per_sector m))
      with (nnodes_per_sector m) by lia. apply Z_mod_same_full.
Qed.

Lemma equal_mapping_slots l :
  0 <= npoints m → 0 <= l →
  (l < npoints m → slot (loc2id_ (equal_mapping m)) l = Some l ∧ slot (id2loc_ (equal_mapping m)) l = Some l)
  ∧ (npoints m <= l < init_cur_loc m → slot (loc2id_ (equal_mapping m)) l = Some kInvalidID).
Proof.
  intros Hn Hl. unfold slot. simpl. split; intros Hlt.
  - assert (seqZ 0 (npoints m) !! Z.to_nat l = Some l) as Hs by (apply lookup_seqZ; lia).
    split; [|done]. by apply lookup_app_l_Some.
  - rewrite lookup_app_r by (rewrite length_seqZ; lia). rewrite length_seqZ. apply lookup_replicate. split; [done|lia].
Qed.

(** Tables that agree with the equal mapping below the end of the file. *)
Lemma equal_tables_ok s :
  0 <= npoints m → fits (init_cur_loc m) → cur_loc s = init_cur_loc m → init_cur_loc m <= Z.of_nat (length (loc2id_ s)) →
  (2 ≤ length (loc2id_ s))%nat → empty_pages s = mkCQ [] kInvalidID → (∀ l, 0 <= l < npoints m → slot (loc2id_ s) l = Some l) →
  tables_ok s.
Proof.
  intros Hn Hf Hc Hlen Hsmall Hq Heq. destruct init_cur_loc_spec as [Hal Hb]; [lia|].
  split; rewrite ?Hc, ?Hq; try done; [lia|apply NoDup_nil_2|].
  intros p. split; [by intros ?%elem_of_nil|]. intros [(l & Hl & ->) Hfree]. exfalso. pose proof npg_pos as Hnpg.
  pose proof (fits_u32 l _ Hf ltac:(lia)) as Hlu. destruct Hal as [g Hg].
  assert (0 <= l / npg) by (apply Z.div_pos; lia). assert (l / npg < g) by (apply Z.div_lt_upper_bound; lia).
  assert (0 <= l / npg * npg < npoints m) as Hst by nia. pose proof (Heq _ Hst) as Hs.
  rewrite Hfree in Hs by (rewrite page_locs_eq, elem_of_seqZ by done; lia). injection Hs as Hs.
  destruct Hf as [Hf _]. unfold kInvalidID, kAllocatedID in *. lia.
Qed.

Lemma equal_mapping_ok : 2 <= npoints m → fits (init_cur_loc m) → tables_ok (equal_mapping m).
Proof.
  intros Hn Hf. destruct init_cur_loc_spec as [_ Hb]; [lia|].
  assert (length (loc2id_ (equal_mapping m)) = Z.to_nat (init_cur_loc m)) as Hlen.
  { simpl. rewrite length_app, length_seqZ, length_replicate. lia. }
  apply equal_tables_ok; [lia|done|done|rewrite Hlen; lia|rewrite Hlen; lia|done|].
  intros l Hl. destruct (equal_mapping_slots l) as [Hs _]; [lia|lia|]. apply Hs. lia.
Qed.

(** C25: [alloc_loc] on consistent tables, for any request, hint pages and room in
    the file, returns exactly [n] distinct records without a crash or an access
    out of range; each was a hole or lies beyond the old end of the file and is
    marked allocated; every other record keeps its entry; a page it does not ask
    to read held no node; the end of the file stays on a page boundary and the
    queue holds exactly the pages without a node. *)
Theorem alloc_loc_correct s n hints need :
  tables_ok s → (0 < n)%nat → Forall (page_ok (cur_loc s)) hints → fits (cur_loc s + Z.of_nat n + npg) →
  ∃ ret need' s', alloc_loc m s n hints need = Some (ret, need', s') ∧ need ⊆ need' ∧ allocated s n ret need' s'.
Proof. apply alloc_loc_allocates. Qed.

End tables.

(** The growth by a half leaves the first two indices out of the array: the
    tables of an index with no or one node cannot be extended. *)
Lemma put_small t x : (length t ≤ 1)%nat → put t (Z.of_nat (length t)) x = None.
Proof. destruct t as [|a [|b t]]; [done|done|simpl; lia]. Qed.

Lemma example_placement : placement_ok example_meta.
Proof. split; simpl; unfold SECTOR_LEN; lia. Qed.

(** Seven records: none is free in the 1000 records of the example, so the
    allocation takes two new pages. *)
Lemma alloc_loc_correct_witness :
  ∃ ret need s', alloc_loc example_meta (equal_mapping example_meta) 7 [1; 2] ∅ = Some (ret, need, s')
  ∧ ret = seqZ 1000 7 ∧ cur_loc s' = 1010 ∧ allocated example_meta (equal_mapping example_meta) 7 ret need s'.
Proof.
  destruct (alloc_loc_correct example_meta example_placement (equal_mapping example_meta) 7 [1; 2] ∅)
    as (ret & need & s' & Heq & _ & Ha).
  - apply equal_mapping_ok; [apply example_placement|done|split; vm_compute; reflexivity].
  - lia.
  - change (cur_loc (equal_mapping example_meta)) with 1000.
    repeat constructor; [exists 0|exists 5]; (split; [lia|reflexivity]).
  - split; vm_compute; reflexivity.
  - assert (ret = seqZ 1000 7 ∧ cur_loc s' = 1010) as [Hret Hcur].
    { clear Ha. vm_compute in Heq. injection Heq as <- <- <-. split; reflexivity. }
    exists ret, need, s'. exact (conj Heq (conj Hret (conj Hcur Ha))).
Defined.

End Loc.
