(* ===== verification/PageSearch.v ===== *)
(** * The page search ([src/search/page_search.cpp])

    [page_search] reads each page once and uses every node on it: the node it was read for at
    once, the others one hop later, while the reads of the next hop are in flight.

    A page is its layout, the ids of its records, and the nodes in its slots.  Of the device
    the model has, for each hop, which pages are in the page cache ([cached]) and which reads
    have landed although nobody waited for them ([landed]); a page that is used before its
    read has finished is the fault [StaleBuffer].  An inner [None] is the end of the fuel. *)

From S2P Require Import Prelude Float32 Neighbor CandidatePool PoolBatch PoolSearch VisitedSet LocTable PipeSearch.
Import Pool Pipe.

Module PageSearch.

(** A page of the last hop: the node it was read for, the page and its layout. *)
Record snapshot := mkSnap { last_io_id : Z; snap_page : Z; snap_layout : list Z }.

Record pstate := mkP {
  p_pool : CandidatePool;
  p_visited : VisitedSet.FlatVisitedSet;
  p_page_visited : gset Z;
  p_full_retset : list Neighbor;
  last_io_snapshot : list snapshot
}.

Section page.
Context (ix : index) (get_page_layout : Z → list Z) (node_from_page : Z → nat → DiskNode).
Context (mem_L l_search beam_width nnodes_per_sector : nat).
Context (cached : nat → Z → bool) (landed : nat → nat → bool).

Definition compute_exact_dists_and_push (n : DiskNode) (i : Z) (rs : list Neighbor) : list Neighbor :=
  rs ++ [new_neighbor i (compare_sym ix (coords n))].

(** The neighbours not seen before, moved to the front of the list in the buffer. *)
Fixpoint new_nbrs (l : list Z) (vs : VisitedSet.FlatVisitedSet) : res (list Z * VisitedSet.FlatVisitedSet) :=
  match l with
  | [] => Ok ([], vs)
  | i :: l =>
      '(new, vs) ← lift (VisitedSet.insert vs i);
      '(ids, vs) ← new_nbrs l vs;
      Ok (if (new : bool) then i :: ids else ids, vs)
  end.

Fixpoint insert_nbrs (ids : list Z) (p : CandidatePool) : res CandidatePool :=
  match ids with
  | [] => Ok p
  | i :: ids => '(_, p) ← lift (insert p (new_neighbor i (compute_dist ix i))); insert_nbrs ids p
  end.

Definition compute_and_push_nbrs (n : DiskNode) (p : CandidatePool) (vs : VisitedSet.FlatVisitedSet)
    : res (CandidatePool * VisitedSet.FlatVisitedSet) :=
  '(ids, vs) ← new_nbrs (nbrs n) vs;
  p ← insert_nbrs ids p;
  Ok (p, vs).

Fixpoint compute_and_add_to_retset (ids : list Z) (p : CandidatePool) (vs : VisitedSet.FlatVisitedSet)
    : res (CandidatePool * VisitedSet.FlatVisitedSet) :=
  match ids with
  | [] => Ok (p, vs)
  | i :: ids =>
      '(_, p) ← lift (insert p (new_neighbor i (compute_dist ix i)));
      '(_, vs) ← lift (VisitedSet.insert vs i);
      compute_and_add_to_retset ids p vs
  end.

Definition page_starts : list Z :=
  if Nat.eqb mem_L 0 then [entry_point_id ix] else map fst (take l_search (search_with_tags ix)).

(** The beam: the closest candidates until [num] pages are found that were not read yet. *)
Fixpoint pick_pages (fuel num : nat) (p : CandidatePool) (pv : gset Z) : res (list Z * CandidatePool * gset Z) :=
  match num, fuel with
  | 0, _ => Ok ([], p, pv)
  | S _, 0 => Fault OutOfRange
  | S num', S fuel =>
      '(node, p) ← lift (next_unvisited p);
      match node with
      | None => Ok ([], p, pv)
      | Some k =>
          a ← lift (retset_ p !! k);
          let pid := id2page ix (id a) in
          if decide (pid ∈ pv) then pick_pages fuel num p pv
          else '(f, p, pv) ← pick_pages fuel num' p ({[pid]} ∪ pv); Ok (id a :: f, p, pv)
      end
  end.

(** [send_read] returns how many requests went to the disk. *)
Definition n_ios (h : nat) (f : list Z) : nat := length (List.filter (λ i, negb (cached h (id2page ix i))) f).

(** Whether request [k] of the hop is finished after the wait, which covers the first
    [n_ios] requests. *)
Definition finished (h n k : nat) (i : Z) : bool := Nat.ltb k n || cached h (id2page ix i) || landed h k.

(** The valid records of a page other than [skip], with their slots. *)
Definition page_nodes (skip : Z) (layout : list Z) : res (list (nat * Z)) :=
  ids ← lift (mapM (λ j, layout !! j) (seq 0 nnodes_per_sector));
  Ok (List.filter (λ x : nat * Z, negb (Z.eqb x.2 skip || Z.eqb x.2 Loc.kAllocatedID || Z.eqb x.2 Loc.kInvalidID)) (zip (seq 0 nnodes_per_sector) ids)).

(** The neighbours of the nodes [l] of a page. *)
Fixpoint push_all (page : Z) (l : list (nat * Z)) (p : CandidatePool) (vs : VisitedSet.FlatVisitedSet)
    : res (CandidatePool * VisitedSet.FlatVisitedSet) :=
  match l with
  | [] => Ok (p, vs)
  | x :: l => '(p, vs) ← compute_and_push_nbrs (node_from_page page x.1) p vs; push_all page l p vs
  end.

(** The other nodes of the pages of the last hop. *)
Fixpoint deferred (l : list snapshot) (p : CandidatePool) (vs : VisitedSet.FlatVisitedSet) (rs : list Neighbor)
    : res (CandidatePool * VisitedSet.FlatVisitedSet * list Neighbor) :=
  match l with
  | [] => Ok (p, vs, rs)
  | s :: l =>
      vis_cand ← page_nodes (last_io_id s) (snap_layout s);
      let rs := foldl (λ rs x, compute_exact_dists_and_push (node_from_page (snap_page s) x.1) x.2 rs) rs vis_cand in
      '(p, vs) ← push_all (snap_page s) vis_cand p vs;
      deferred l p vs rs
  end.

(** The slots of the page that hold [i]. *)
Fixpoint use_slots (page i : Z) (l : list (nat * Z)) (p : CandidatePool) (vs : VisitedSet.FlatVisitedSet) (rs : list Neighbor)
    : res (CandidatePool * VisitedSet.FlatVisitedSet * list Neighbor) :=
  match l with
  | [] => Ok (p, vs, rs)
  | (j, c) :: l =>
      if Z.eqb c i then
        let n := node_from_page page j in
        '(p, vs) ← compute_and_push_nbrs n p vs;
        use_slots page i l p vs (compute_exact_dists_and_push n i rs)
      else use_slots page i l p vs rs
  end.

(** The nodes the pages were read for; the pages become the next snapshot, in buffers for
    [2 * beam_width] pages. *)
Fixpoint use_frontier (h n k : nat) (f : list Z) (s : pstate) : res pstate :=
  match f with
  | [] => Ok s
  | i :: f =>
      if negb (finished h n k i) then Fault StaleBuffer
      else if Nat.leb (2 * beam_width) (length (last_io_snapshot s)) then Fault OutOfRange
      else
        let page := id2page ix i in
        let layout := get_page_layout page in
        ids ← lift (mapM (λ j, layout !! j) (seq 0 nnodes_per_sector));
        '(p, vs, rs) ← use_slots page i (zip (seq 0 nnodes_per_sector) ids) (p_pool s) (p_visited s) (p_full_retset s);
        use_frontier h n (S k) f (mkP p vs (p_page_visited s) rs (last_io_snapshot s ++ [mkSnap i page layout]))
  end.

Definition hop (h : nat) (s : pstate) : res pstate :=
  '(f, p, pv) ← pick_pages (S (cur_list_size_ (p_pool s))) beam_width (p_pool s) (p_page_visited s);
  '(p, vs, rs) ← deferred (last_io_snapshot s) p (p_visited s) (p_full_retset s);
  use_frontier h (n_ios h f) 0 f (mkP p vs pv rs []).

Fixpoint page_loop (fuel h : nat) (s : pstate) : res (option pstate) :=
  '(stop, p) ← lift (all_visited (p_pool s));
  let s := mkP p (p_visited s) (p_page_visited s) (p_full_retset s) (last_io_snapshot s) in
  if (stop : bool) && Nat.eqb (length (last_io_snapshot s)) 0 then Ok (Some s)
  else match fuel with 0 => Ok None | S fuel => s ← hop h s; page_loop fuel (S h) s end.

Definition page_search (k_search : nat) (vs : VisitedSet.FlatVisitedSet) (fuel : nat) : res (option (list (Z * float))) :=
  if Nat.ltb MAX_N_SECTOR_READS beam_width then Fault BeamTooWide
  else
    '(p, vs) ← compute_and_add_to_retset page_starts (reset l_search (l_search + 1)) (VisitedSet.clear vs);
    r ← page_loop fuel 0 (mkP p vs ∅ [] []);
    match r with
    | None => Ok None
    | Some s => Ok (Some (copy_top_k ix (std_sort (p_full_retset s)) k_search f_infinity))
    end.

End page.
End PageSearch.
