(* ===== verification/PageSearchProof.v ===== *)
(** * Correctness of the page search ([src/search/page_search.cpp])

    The invariant of a hop: the results and the nodes still to be used are, without
    repetition, the nodes of the pages read so far.  The search ends, reads no page twice and
    returns the fixed point of the greedy walk with every node that shares a page with it;
    two runs show where it goes wrong. *)

From S2P Require Import Prelude Float32 Neighbor CandidatePool PoolBatch PoolSearch VisitedSet LocTable PipeSearch PipeProof GreedyPool BeamSearch BeamProof PageSearch.
Import Pool Pipe PipeProof Greedy PageSearch.

Module PageSearchProof.
Local Abbreviation keys := VisitedSet.keys.

Lemma mapM_lookup_take {A} (l : list A) n : n ≤ length l → mapM (λ j, l !! j) (seq 0 n) = Some (take n l).
Proof.
  intros Hn. apply mapM_Some. apply Forall2_same_length_lookup. split; [rewrite length_seq, length_take; lia|].
  intros i j x Hj Hx. apply lookup_seq in Hj as [-> Hi]. by rewrite lookup_take_lt in Hx.
Qed.

Lemma singleton_of {A} (l : list A) a : NoDup l → (∀ x, x ∈ l → x = a) → a ∈ l → l = [a].
Proof.
  intros Hnd Hall Ha. destruct l as [|x l]; [by apply not_elem_of_nil in Ha|]. pose proof (Hall x ltac:(left)) as ->.
  destruct l as [|y l]; [done|]. pose proof (Hall y ltac:(right; left)) as ->. apply NoDup_cons in Hnd as [Hn _]. destruct Hn. left.
Qed.

Section page.
Context (ix : index) (get_page_layout : Z → list Z) (node_from_page : Z → nat → DiskNode) (slot : Z → nat).
Context (mem_L l_search beam_width nps : nat).
Context (cached : nat → Z → bool) (landed : nat → nat → bool) (U : gset Z).

Definition valid (i : Z) : Prop := i ≠ Loc.kAllocatedID ∧ i ≠ Loc.kInvalidID.

(** The pages of the ids [U] hold exactly these ids, each in its slot. *)
Record layout_ok : Prop := mkLayoutOk {
  lo_len : ∀ i, i ∈ U → nps ≤ length (get_page_layout (id2page ix i));
  lo_slot : ∀ i, i ∈ U → slot i < nps ∧ get_page_layout (id2page ix i) !! slot i = Some i ∧ valid i;
  lo_node : ∀ i, i ∈ U → node_from_page (id2page ix i) (slot i) = read_node ix i;
  lo_own : ∀ i j c, i ∈ U → j < nps → get_page_layout (id2page ix i) !! j = Some c → valid c → c ∈ U ∧ id2page ix c = id2page ix i ∧ slot c = j
}.

Local Abbreviation q := (do_pipe_search mem_L l_search beam_width 0 false false).
Context (Hix : index_ok q ix U) (Hlay : layout_ok) (Hl : 1 ≤ l_search) (Hb : 1 ≤ beam_width ≤ MAX_N_SECTOR_READS).
(** In each hop, nothing is in the page cache, everything is, or every read lands in time. *)
Context (Hread : ∀ h, (∀ pg, cached h pg = false) ∨ (∀ pg, cached h pg = true) ∨ (∀ k, landed h k = true)).

(** ** The nodes of a page *)

Definition slots_of (i : Z) : list (nat * Z) := zip (seq 0 nps) (take nps (get_page_layout (id2page ix i))).

Definition pairs (i : Z) : list (nat * Z) :=
  List.filter (λ x : nat * Z, negb (Z.eqb x.2 i || Z.eqb x.2 Loc.kAllocatedID || Z.eqb x.2 Loc.kInvalidID)) (slots_of i).

Definition others (i : Z) : list Z := map snd (pairs i).

Lemma elem_of_pfilter {A} (f : A → bool) l x : x ∈ List.filter f l ↔ x ∈ l ∧ f x = true.
Proof. by rewrite !list_elem_of_In, filter_In. Qed.

Lemma NoDup_pfilter {A} (f : A → bool) (l : list A) : NoDup l → NoDup (List.filter f l).
Proof.
  induction 1 as [|a l Ha Hl' IH]; simpl; [constructor|]. destruct (f a); [|done]. constructor; [|done]. rewrite elem_of_pfilter. tauto.
Qed.

Lemma slots_elem i j c : i ∈ U → (j, c) ∈ slots_of i ↔ j < nps ∧ get_page_layout (id2page ix i) !! j = Some c.
Proof.
  intros Hi. unfold slots_of. rewrite list_elem_of_lookup. split.
  - intros (k & Hk). apply lookup_zip_Some in Hk as [[-> ?]%lookup_seq Hc]. by rewrite lookup_take_lt in Hc.
  - intros [Hj Hc]. exists j. apply lookup_zip_Some. split; [by apply lookup_seq|by rewrite lookup_take_lt].
Qed.

Lemma slots_NoDup i : NoDup (slots_of i).
Proof.
  apply NoDup_alt. intros k k' [j c] Hk Hk'. apply lookup_zip_Some in Hk as [[-> _]%lookup_seq _].
  by apply lookup_zip_Some in Hk' as [[? _]%lookup_seq _].
Qed.

Lemma pairs_elem i j c : i ∈ U → (j, c) ∈ pairs i ↔ c ∈ U ∧ id2page ix c = id2page ix i ∧ c ≠ i ∧ j = slot c.
Proof.
  intros Hi. unfold pairs. rewrite elem_of_pfilter, slots_elem by done. cbn [fst snd].
  rewrite negb_true_iff, !orb_false_iff, !Z.eqb_neq. split.
  - intros [[Hj Hc] [[Hne H1] H2]]. destruct (lo_own Hlay i j c Hi Hj Hc) as (? & ? & ?); [by split|]. done.
  - intros (Hc & Hp & Hne & ->). destruct (lo_slot Hlay c Hc) as (Hs & Hl' & [? ?]). rewrite Hp in Hl'. done.
Qed.

Lemma others_elem i c : i ∈ U → c ∈ others i ↔ c ∈ U ∧ id2page ix c = id2page ix i ∧ c ≠ i.
Proof.
  intros Hi. unfold others. change (map snd (pairs i)) with (snd <$> pairs i). rewrite list_elem_of_fmap. split.
  - intros ([j x] & -> & (? & ? & ? & _)%pairs_elem); done.
  - intros (? & ? & ?). exists (slot c, c). split; [done|]. by apply pairs_elem.
Qed.

Lemma others_NoDup i : i ∈ U → NoDup (others i).
Proof.
  intros Hi. unfold others. change (map snd (pairs i)) with (snd <$> pairs i). apply NoDup_fmap_2_strong.
  - intros [j c] [j' c'] (_ & _ & _ & ->)%pairs_elem (_ & _ & _ & ->)%pairs_elem E; [|done..]. cbn in E. by subst.
  - apply NoDup_pfilter, slots_NoDup.
Qed.

Lemma page_nodes_ok i : i ∈ U → page_nodes nps i (get_page_layout (id2page ix i)) = Ok (pairs i).
Proof. intros Hi. unfold page_nodes. by rewrite (mapM_lookup_take _ _ (lo_len Hlay i Hi)). Qed.

Lemma own_slot i : i ∈ U → List.filter (λ x : nat * Z, Z.eqb x.2 i) (slots_of i) = [(slot i, i)].
Proof.
  intros Hi. destruct (lo_slot Hlay i Hi) as (Hs & Hl' & Hv). apply singleton_of.
  - apply NoDup_pfilter, slots_NoDup.
  - intros [j c]. rewrite elem_of_pfilter, slots_elem by done. intros [[Hj Hc] Ec%Z.eqb_eq]. cbn in Ec. subst c.
    by destruct (lo_own Hlay i j i Hi Hj Hc Hv) as (_ & _ & <-).
  - rewrite elem_of_pfilter, slots_elem by done. by rewrite Z.eqb_refl.
Qed.

(** ** Pushing neighbours *)

Lemma new_nbrs_ok l : ∀ vs, VisitedSet.inv vs →
  ∃ ids vs', new_nbrs l vs = Ok (ids, vs') ∧ VisitedSet.inv vs' ∧ keys vs' = list_to_set l ∪ keys vs
  ∧ NoDup ids ∧ (∀ i, i ∈ ids → i ∉ keys vs) ∧ list_to_set ids ∪ keys vs = list_to_set l ∪ keys vs.
Proof.
  induction l as [|i l IH]; intros vs Hvs; cbn [new_nbrs].
  { exists [], vs. split; [done|]. rewrite list_to_set_nil, (left_id_L ∅ (∪)). split_and!; try done; [constructor|intros i Hi; by apply not_elem_of_nil in Hi]. }
  destruct (VisitedSet.visited_insert_correct vs i Hvs) as (vs1 & -> & Hvs1 & Hk1). cbn [lift mbind res_bind].
  destruct (IH vs1 Hvs1) as (ids & vs' & -> & Hvs' & Hk' & Hnd & Hf & Hu). cbn [mbind res_bind].
  rewrite Hk1 in *. eexists _, vs'. split; [done|]. split; [done|]. split; [rewrite Hk', list_to_set_cons; clear; set_solver|].
  destruct (bool_decide_reflect (i ∉ keys vs)) as [Hi|Hi].
  - split_and!.
    + constructor; [|done]. intros Hin. apply (Hf i Hin). by apply elem_of_union_l, elem_of_singleton.
    + intros j [->|Hj]%elem_of_cons; [done|]. intros Hjk. apply (Hf j Hj). by apply elem_of_union_r.
    + rewrite !list_to_set_cons. assert (∀ A : gset Z, {[i]} ∪ A ∪ keys vs = A ∪ ({[i]} ∪ keys vs)) as Ha by (clear; set_solver). by rewrite !Ha.
  - apply dec_stable in Hi. assert ({[i]} ∪ keys vs = keys vs) as E by (clear -Hi; set_solver). rewrite E in *. split_and!; [done|done|]. rewrite Hu, list_to_set_cons. clear -Hi. set_solver.
Qed.

Lemma insert_nbrs_ok E ids : ∀ p S, pool_ok q ix p S E → NoDup ids → (∀ i, i ∈ ids → i ∉ S) →
  ∃ p', insert_nbrs ix ids p = Ok p' ∧ pool_ok q ix p' (list_to_set ids ∪ S) E.
Proof.
  induction ids as [|i ids IH]; intros p S Hp Hnd Hn; cbn [insert_nbrs].
  { exists p. rewrite list_to_set_nil, (left_id_L ∅ (∪)). done. }
  apply NoDup_cons in Hnd as [Hi Hnd].
  destruct (pool_insert_ok q ix (xo_approx _ _ _ Hix) p S E i Hp (Hn i ltac:(left))) as (r & p1 & -> & Hp1). cbn [lift mbind res_bind].
  destruct (IH p1 ({[i]} ∪ S) Hp1 Hnd) as (p2 & -> & Hp2).
  { intros j Hj. rewrite not_elem_of_union, not_elem_of_singleton. split; [by intros ->|apply Hn; by right]. }
  exists p2. split; [done|]. assert (list_to_set (i :: ids) ∪ S = list_to_set ids ∪ ({[i]} ∪ S)) as -> by (rewrite list_to_set_cons; clear; set_solver). done.
Qed.

(** The walk: the pool, the visited set and the ids taken. *)
Record walk_at (p : CandidatePool) (vs : VisitedSet.FlatVisitedSet) (E : list Z) : Prop := mkWalkAt {
  wa_pool : pool_ok q ix p (keys vs) E;
  wa_vs : VisitedSet.inv vs;
  wa_U : keys vs ⊆ U
}.

Lemma push_node_ok p vs E i :
  walk_at p vs E → i ∈ U →
  ∃ p' vs', compute_and_push_nbrs ix (read_node ix i) p vs = Ok (p', vs') ∧ walk_at p' vs' E
  ∧ keys vs' = list_to_set (nbrs (read_node ix i)) ∪ keys vs.
Proof.
  intros [Hp Hvs Hu] Hi. unfold compute_and_push_nbrs.
  destruct (new_nbrs_ok (nbrs (read_node ix i)) vs Hvs) as (ids & vs' & -> & Hvs' & Hk & Hnd & Hf & He). cbn [mbind res_bind].
  destruct (insert_nbrs_ok E ids p _ Hp Hnd Hf) as (p' & -> & Hp'). cbn [mbind res_bind]. exists p', vs'. split; [done|]. split; [|done].
  split; [by rewrite Hk, <- He|done|]. rewrite Hk. intros j [Hj%elem_of_list_to_set|Hj]%elem_of_union; [|by apply Hu].
  apply (xo_closed _ _ _ Hix i j Hi). apply elem_of_app. by left.
Qed.

(** ** The nodes of the pages read *)

Local Abbreviation exact := (BeamProof.exact ix).

(** [X]: used; [D]: on the pages of the last hop, still to be used; [V]: the pages read. *)
Definition core (X D : list Z) (V : gset Z) : Prop :=
  NoDup (X ++ D) ∧ ∀ i, i ∈ X ++ D ↔ i ∈ U ∧ id2page ix i ∈ V.

Definition snap_ok (s : snapshot) : Prop :=
  last_io_id s ∈ U ∧ snap_page s = id2page ix (last_io_id s) ∧ snap_layout s = get_page_layout (snap_page s).

Definition rest_of (l : list snapshot) : list Z := concat (map (λ s, others (last_io_id s)) l).

Definition closed (X : list Z) (vs : VisitedSet.FlatVisitedSet) : Prop := ∀ i j, i ∈ X → j ∈ nbrs (read_node ix i) → j ∈ keys vs.

Lemma core_add X D V i :
  core X D V → i ∈ U → id2page ix i ∉ V → core (X ++ [i]) (D ++ others i) ({[id2page ix i]} ∪ V).
Proof.
  intros [Hnd Hel] Hi Hp. assert (Hperm : (X ++ [i]) ++ D ++ others i ≡ₚ (i :: others i) ++ (X ++ D)).
  { rewrite (Permutation_app_comm (i :: others i)), <- !app_assoc. cbn [app]. apply Permutation_app_head. rewrite <- Permutation_middle. done. }
  split.
  - rewrite Hperm. apply NoDup_app. split_and!; [| |done].
    + constructor; [|by apply others_NoDup]. intros (_ & _ & ?)%others_elem; done.
    + intros j Hj [_ Hv]%Hel. apply elem_of_cons in Hj as [->|(_ & E & _)%others_elem]; [done| |done]. rewrite E in Hv. done.
  - intros j. rewrite Hperm, elem_of_app, elem_of_cons, others_elem, Hel, elem_of_union, elem_of_singleton by done. split.
    + intros [[->|(? & -> & _)]|[? ?]]; auto.
    + intros [Hj [Hpj|?]]; [|by right]. left. destruct (decide (j = i)); auto.
Qed.

Lemma closed_mono X vs vs' : closed X vs → keys vs ⊆ keys vs' → closed X vs'.
Proof. intros H Hk i j Hi Hj. by apply Hk, (H i). Qed.

Lemma closed_snoc X vs vs' i : closed X vs → keys vs' = list_to_set (nbrs (read_node ix i)) ∪ keys vs → closed (X ++ [i]) vs'.
Proof.
  intros H Hk i' j [Hi| ->%list_elem_of_singleton]%elem_of_app Hj; rewrite Hk; [apply elem_of_union_r; by apply (H i')|].
  by apply elem_of_union_l, elem_of_list_to_set.
Qed.

Lemma push_all_ok i E l : ∀ X p vs,
  i ∈ U → (∀ x, x ∈ l → x ∈ pairs i) → walk_at p vs E → closed X vs →
  ∃ p' vs', push_all ix node_from_page (id2page ix i) l p vs = Ok (p', vs') ∧ walk_at p' vs' E ∧ closed (X ++ map snd l) vs' ∧ keys vs ⊆ keys vs'.
Proof.
  induction l as [|[j c] l IH]; intros X p vs Hi Hsub Hw Hc; cbn [push_all map].
  { exists p, vs. by rewrite app_nil_r. }
  destruct (proj1 (pairs_elem i j c Hi) (Hsub _ ltac:(left))) as (Hcu & Hpg & _ & ->). cbn [fst snd]. rewrite <- Hpg, (lo_node Hlay c Hcu).
  destruct (push_node_ok p vs E c Hw Hcu) as (p1 & vs1 & -> & Hw1 & Hk1). cbn [mbind res_bind]. rewrite Hpg.
  destruct (IH (X ++ [c]) p1 vs1 Hi) as (p' & vs' & -> & Hw' & Hc' & Hk'); [intros; apply Hsub; by right|done|by eapply closed_snoc|].
  exists p', vs'. split; [done|]. split; [done|]. rewrite <- app_assoc in Hc'. split; [done|]. rewrite Hk1 in Hk'. clear -Hk'. set_solver.
Qed.

Lemma fold_exact i l : ∀ X, i ∈ U → (∀ x, x ∈ l → x ∈ pairs i) →
  foldl (λ rs (x : nat * Z), compute_exact_dists_and_push ix (node_from_page (id2page ix i) x.1) x.2 rs) (exact <$> X) l = exact <$> (X ++ map snd l).
Proof.
  induction l as [|[j c] l IH]; intros X Hi Hsub; cbn [foldl map]; [by rewrite app_nil_r|].
  destruct (proj1 (pairs_elem i j c Hi) (Hsub _ ltac:(left))) as (Hcu & Hpg & _ & ->). cbn [fst snd].
  unfold compute_exact_dists_and_push at 2. rewrite <- Hpg, (lo_node Hlay c Hcu), Hpg.
  change ((exact <$> X) ++ [new_neighbor c (compare_sym ix (coords (read_node ix c)))]) with ((exact <$> X) ++ (exact <$> [c])).
  rewrite <- fmap_app, IH by (done || (intros; apply Hsub; by right)). by rewrite <- app_assoc.
Qed.

Lemma deferred_ok E l : ∀ X p vs,
  Forall snap_ok l → walk_at p vs E → closed X vs →
  ∃ p' vs', deferred ix node_from_page nps l p vs (exact <$> X) = Ok (p', vs', exact <$> (X ++ rest_of l))
  ∧ walk_at p' vs' E ∧ closed (X ++ rest_of l) vs' ∧ keys vs ⊆ keys vs'.
Proof.
  induction l as [|s l IH]; intros X p vs Hs Hw Hc; cbn [deferred].
  { exists p, vs. unfold rest_of. cbn [map concat]. by rewrite app_nil_r. }
  apply Forall_cons in Hs as [(Hi & Hpg & Hly) Hs]. rewrite Hly, Hpg, page_nodes_ok by done. cbn [mbind res_bind].
  rewrite (fold_exact (last_io_id s)) by done.
  destruct (push_all_ok (last_io_id s) E (pairs (last_io_id s)) X p vs Hi ltac:(done) Hw Hc) as (p1 & vs1 & -> & Hw1 & Hc1 & Hk1). cbn [mbind res_bind].
  destruct (IH _ p1 vs1 Hs Hw1 Hc1) as (p' & vs' & E' & Hw' & Hc' & Hk'). exists p', vs'. rewrite E'. unfold rest_of. cbn [map concat].
  rewrite <- app_assoc in *. split_and!; [done|done|done|]. by etransitivity.
Qed.

Lemma use_slots_filter page i l : ∀ p vs rs,
  use_slots ix node_from_page page i l p vs rs = use_slots ix node_from_page page i (List.filter (λ x : nat * Z, Z.eqb x.2 i) l) p vs rs.
Proof.
  induction l as [|[j c] l IH]; intros p vs rs; cbn [use_slots List.filter snd]; [done|]. destruct (Z.eqb c i) eqn:E; [|apply IH].
  cbn [use_slots]. rewrite E. destruct (compute_and_push_nbrs _ _ _ _) as [[p' vs']|e]; cbn [mbind res_bind]; [apply IH|done].
Qed.

Lemma use_slots_ok i E p vs X :
  i ∈ U → walk_at p vs E → closed X vs →
  ∃ p' vs', use_slots ix node_from_page (id2page ix i) i (slots_of i) p vs (exact <$> X) = Ok (p', vs', exact <$> (X ++ [i]))
  ∧ walk_at p' vs' E ∧ closed (X ++ [i]) vs' ∧ keys vs ⊆ keys vs'.
Proof.
  intros Hi Hw Hc. rewrite use_slots_filter, own_slot by done. cbn [use_slots]. rewrite Z.eqb_refl, (lo_node Hlay i Hi).
  destruct (push_node_ok p vs E i Hw Hi) as (p' & vs' & -> & Hw' & Hk). cbn [mbind res_bind]. exists p', vs'. split_and!; [by rewrite fmap_app|done|by eapply closed_snoc|].
  rewrite Hk. clear. set_solver.
Qed.

Lemma use_frontier_ok h n E V f : ∀ k X s,
  (∀ j i, f !! j = Some i → PageSearch.finished ix cached landed h n (k + j) i = true) →
  (∀ i, i ∈ f → i ∈ U) → length (last_io_snapshot s) + length f ≤ 2 * beam_width →
  Forall snap_ok (last_io_snapshot s) → walk_at (p_pool s) (p_visited s) E → p_full_retset s = exact <$> X → closed X (p_visited s) →
  ∀ W, core X (rest_of (last_io_snapshot s)) W → NoDup (id2page ix <$> f) → (∀ i, i ∈ f → id2page ix i ∉ W) → V = list_to_set (id2page ix <$> f) ∪ W →
  ∃ X' s', use_frontier ix get_page_layout node_from_page beam_width nps cached landed h n k f s = Ok s'
  ∧ Forall snap_ok (last_io_snapshot s') ∧ walk_at (p_pool s') (p_visited s') E ∧ p_full_retset s' = exact <$> X' ∧ closed X' (p_visited s')
  ∧ core X' (rest_of (last_io_snapshot s')) V ∧ p_page_visited s' = p_page_visited s ∧ keys (p_visited s) ⊆ keys (p_visited s').
Proof.
  induction f as [|i f IH]; intros k X s Hfin Hu Hlen Hsn Hw Hr Hc W Hcore Hnd Hdis HV; cbn [use_frontier].
  { exists X, s. rewrite HV, fmap_nil, list_to_set_nil, (left_id_L ∅ (∪)). done. }
  rewrite (eq_trans (f_equal (λ m, PageSearch.finished ix cached landed h n m i) (eq_sym (Nat.add_0_r k))) (Hfin 0 i eq_refl)). cbn [negb].
  cbn [length] in Hlen. rewrite (proj2 (Nat.leb_gt _ _)) by lia. assert (Hi : i ∈ U) by (apply Hu; left).
  rewrite (mapM_lookup_take _ _ (lo_len Hlay i Hi)). cbn [lift mbind res_bind]. rewrite Hr.
  destruct (use_slots_ok i E (p_pool s) (p_visited s) X Hi Hw Hc) as (p' & vs' & Hus & Hw' & Hc' & Hk). unfold slots_of in Hus. rewrite Hus. cbn [mbind res_bind].
  rewrite fmap_cons in Hnd. apply NoDup_cons in Hnd as [Hni Hnd].
  destruct (IH (S k) (X ++ [i]) (mkP p' vs' (p_page_visited s) (exact <$> (X ++ [i])) (last_io_snapshot s ++ [mkSnap i (id2page ix i) (get_page_layout (id2page ix i))])))
    with (W := {[id2page ix i]} ∪ W) as (X' & s' & -> & H);
    cbn [p_pool p_visited p_page_visited p_full_retset last_io_snapshot]; try done.
  - intros j c Hj. rewrite Nat.add_succ_l, <- Nat.add_succ_r. by apply Hfin.
  - intros j Hj. apply Hu. by right.
  - rewrite length_app. cbn [length]. lia.
  - apply Forall_app. split; [done|]. by apply Forall_singleton.
  - unfold rest_of. rewrite map_app, concat_app. cbn [map concat]. rewrite app_nil_r. apply core_add; [done|done|]. apply Hdis. left.
  - intros j Hj. rewrite not_elem_of_union, not_elem_of_singleton. split; [|apply Hdis; by right]. intros E'. apply Hni. rewrite <- E'. by apply list_elem_of_fmap_2.
  - rewrite HV, fmap_cons, list_to_set_cons. clear. set_solver.
  - exists X', s'. split; [done|]. destruct H as (? & ? & ? & ? & ? & ? & Hk'). split_and!; try done. cbn [p_visited] in Hk'. by etransitivity.
Qed.

(** ** A hop *)

Lemma pick_pages_ok fuel : ∀ num p S E pv,
  pool_ok q ix p S E → unvisited_count (live p) < fuel →
  ∃ f T p', pick_pages ix fuel num p pv = Ok (f, p', list_to_set (id2page ix <$> f) ∪ pv) ∧ pool_ok q ix p' S (E ++ T)
  ∧ (∀ i, i ∈ T → id2page ix i ∈ list_to_set (id2page ix <$> f) ∪ pv)
  ∧ NoDup (id2page ix <$> f) ∧ (∀ i, i ∈ f → id2page ix i ∉ pv ∧ i ∈ S) ∧ length f ≤ num
  ∧ (length f < num → Forall (λ a, visited a = true) (live p')).
Proof.
  induction fuel as [|fuel IH]; intros num p S E pv Hp Hf; [lia|]. destruct num as [|num]; cbn [pick_pages].
  { exists [], [], p. rewrite fmap_nil, list_to_set_nil, (left_id_L ∅ (∪)), app_nil_r.
    split_and!; try done; [intros i Hi; by apply not_elem_of_nil in Hi|constructor|intros i Hi; by apply not_elem_of_nil in Hi|simpl; lia]. }
  destruct (pick_ok q ix p S E Hp) as (o & p1 & -> & Ho). cbn [lift mbind res_bind]. destruct o as [k|].
  - destruct Ho as (a & -> & HaS & HaE & Hp1 & Hcnt). cbn [lift mbind res_bind].
    assert (Hperm : ∀ T, (id a :: E) ++ T ≡ₚ E ++ id a :: T) by (intros T; rewrite <- Permutation_middle; done).
    case_decide as Hpg.
    + destruct (IH (Datatypes.S num) p1 S _ pv Hp1 ltac:(lia)) as (f & T & p' & -> & Hp' & HT & Hnd & Hf' & Hlen & Hall).
      exists f, (id a :: T), p'. split_and!; try done; [eapply pool_ok_perm; [apply Hperm|exact Hp']|]. intros i [->|Hi]%elem_of_cons; [by apply elem_of_union_r|by apply HT].
    + destruct (IH num p1 S _ ({[id2page ix (id a)]} ∪ pv) Hp1 ltac:(lia)) as (f & T & p' & -> & Hp' & HT & Hnd & Hf' & Hlen & Hall). cbn [mbind res_bind].
      assert (Hset : list_to_set (id2page ix <$> f) ∪ ({[id2page ix (id a)]} ∪ pv) = list_to_set (id2page ix <$> (id a :: f)) ∪ pv)
        by (rewrite fmap_cons, list_to_set_cons; clear; set_solver). rewrite Hset in *.
      exists (id a :: f), (id a :: T), p'. split_and!.
      * done.
      * eapply pool_ok_perm; [apply Hperm|exact Hp'].
      * intros i [->|Hi]%elem_of_cons; [|by apply HT]. apply elem_of_union_l, elem_of_list_to_set. rewrite fmap_cons. left.
      * rewrite fmap_cons. constructor; [|done]. intros (i & Ei & Hi)%list_elem_of_fmap. apply (proj1 (Hf' i Hi)). rewrite Ei. by apply elem_of_union_l, elem_of_singleton.
      * intros i [->|Hi]%elem_of_cons; [done|]. destruct (Hf' i Hi) as [H1 H2]. split; [|done]. intros H3. apply H1. by apply elem_of_union_r.
      * cbn [length]. lia.
      * cbn [length]. intros H. apply Hall. lia.
  - destruct Ho as (Hp1 & Hlive & Hall). exists [], [], p1. rewrite fmap_nil, list_to_set_nil, (left_id_L ∅ (∪)), app_nil_r, Hlive.
    split_and!; try done; [intros i Hi; by apply not_elem_of_nil in Hi|constructor|intros i Hi; by apply not_elem_of_nil in Hi|simpl; lia].
Qed.

Lemma unvisited_le p : wf p → unvisited_count (live p) ≤ cur_list_size_ p.
Proof.
  intros Hp. rewrite <- (live_length p Hp). unfold unvisited_count. induction (live p) as [|a l IH]; [done|]. cbn [List.filter length].
  destruct (negb (visited a)); cbn [length]; lia.
Qed.

Lemma hop_reads h f : ∀ j i, f !! j = Some i → PageSearch.finished ix cached landed h (n_ios ix cached h f) (0 + j) i = true.
Proof.
  intros j i Hj. unfold PageSearch.finished. change (0 + j) with j. destruct (Hread h) as [Hno|[Hyes|Hin]].
  - assert (n_ios ix cached h f = length f) as ->.
    { unfold n_ios. clear Hj. induction f as [|x f IH]; [done|]. cbn [List.filter length]. rewrite Hno. cbn [negb length]. by rewrite IH. }
    apply lookup_lt_Some in Hj. by rewrite (proj2 (Nat.ltb_lt _ _) Hj).
  - by rewrite Hyes, orb_true_r.
  - by rewrite Hin, !orb_true_r.
Qed.

(** [E]: the candidates taken; [X]: the nodes used, in order. *)
Record page_ok (E X : list Z) (s : pstate) : Prop := mkPageOk {
  pk_walk : walk_at (p_pool s) (p_visited s) E;
  pk_starts : ∀ i, i ∈ starts q ix → i ∈ keys (p_visited s);
  pk_snaps : Forall snap_ok (last_io_snapshot s);
  pk_res : p_full_retset s = exact <$> X;
  pk_core : core X (rest_of (last_io_snapshot s)) (p_page_visited s);
  pk_closed : closed X (p_visited s);
  pk_taken : ∀ i, i ∈ E → id2page ix i ∈ p_page_visited s
}.

Definition pages : gset Z := set_map (id2page ix) U.

(** What is left to do. *)
Definition all_taken (s : pstate) : Prop := Forall (λ a, visited a = true) (live (p_pool s)).
#[local] Instance all_taken_dec s : Decision (all_taken s).
Proof. unfold all_taken. apply _. Defined.

Definition left_over (s : pstate) : nat :=
  4 * base.size (pages ∖ p_page_visited s) + (if decide (last_io_snapshot s = []) then 0 else 2) + (if decide (all_taken s) then 0 else 1).

Lemma page_hop_ok h E X s :
  page_ok E X s → ¬ (all_taken s ∧ last_io_snapshot s = []) →
  ∃ E' X' s', hop ix get_page_layout node_from_page beam_width nps cached landed h s = Ok s' ∧ page_ok E' X' s' ∧ left_over s' < left_over s.
Proof.
  intros [Hw Hst Hsn Hr Hcore Hc Ht] Hgo. unfold hop.
  destruct (pick_pages_ok (S (cur_list_size_ (p_pool s))) beam_width (p_pool s) _ E (p_page_visited s) (wa_pool _ _ _ Hw))
    as (f & T & p1 & -> & Hp1 & HT & Hnd & Hf & Hlen & Hall).
  { pose proof (unvisited_le _ (po_wf _ _ _ _ _ (wa_pool _ _ _ Hw))). lia. }
  cbn [mbind res_bind]. rewrite Hr.
  destruct (deferred_ok (E ++ T) (last_io_snapshot s) X p1 (p_visited s) Hsn) as (p2 & vs2 & Hdef & Hw2 & Hc2 & Hk2); [by split; [|apply Hw|apply Hw]|done|].
  rewrite Hdef. cbn [mbind res_bind].
  destruct (use_frontier_ok h (n_ios ix cached h f) (E ++ T) (list_to_set (id2page ix <$> f) ∪ p_page_visited s) f 0 (X ++ rest_of (last_io_snapshot s))
      (mkP p2 vs2 (list_to_set (id2page ix <$> f) ∪ p_page_visited s) (exact <$> (X ++ rest_of (last_io_snapshot s))) []))
    with (W := p_page_visited s) as (X' & s' & Hs' & Hsn' & Hw' & Hr' & Hc' & Hcore' & Hpv' & Hk');
    cbn [p_pool p_visited p_page_visited p_full_retset last_io_snapshot]; try done.
  - apply hop_reads.
  - intros i Hi. apply (wa_U _ _ _ Hw). by apply Hf.
  - cbn [length]. lia.
  - unfold rest_of at 2. cbn [map concat]. by unfold core; rewrite app_nil_r.
  - intros i Hi. by apply Hf.
  - exists (E ++ T), X', s'. cbn [p_page_visited p_visited] in *. split; [done|]. split.
    + split; try done; [intros i Hi; apply Hk', Hk2; by apply Hst|by rewrite Hpv'|].
      intros i [Hi|Hi]%elem_of_app; rewrite Hpv'; [apply elem_of_union_r; by apply Ht|by apply HT].
    + unfold left_over. rewrite Hpv'. destruct f as [|i f].
      * cbn [use_frontier] in Hs'. injection Hs' as <-. cbn [last_io_snapshot p_pool all_taken]. rewrite fmap_nil, list_to_set_nil, (left_id_L ∅ (∪)).
        rewrite (decide_True (P := @nil snapshot = [])) by done. destruct (decide (last_io_snapshot s = [])) as [El|El].
        -- rewrite El in Hdef. cbn [deferred] in Hdef. injection Hdef as <- _ _.
           rewrite (decide_True (P := all_taken (mkP _ _ _ _ _))) by (apply Hall; cbn [length]; lia).
           rewrite (decide_False (P := all_taken s)) by tauto. lia.
        -- repeat case_decide; lia.
      * assert (base.size (pages ∖ (list_to_set (id2page ix <$> i :: f) ∪ p_page_visited s)) < base.size (pages ∖ p_page_visited s)); [|repeat case_decide; lia].
        apply subset_size. split; [clear; set_solver|]. intros Hsub. destruct (Hf i ltac:(left)) as [Hi1 Hi2].
        assert (id2page ix i ∈ pages ∖ p_page_visited s) as Hin.
        { apply elem_of_difference. split; [|done]. apply elem_of_map_2. by apply (wa_U _ _ _ Hw). }
        apply Hsub in Hin. apply elem_of_difference in Hin as [_ Hin]. apply Hin. apply elem_of_union_l, elem_of_list_to_set. rewrite fmap_cons. left.
Qed.

Lemma page_loop_ok fuel : ∀ h E X s, page_ok E X s → left_over s ≤ fuel →
  ∃ E' X' s', page_loop ix get_page_layout node_from_page beam_width nps cached landed fuel h s = Ok (Some s') ∧ page_ok E' X' s'
  ∧ all_taken s' ∧ last_io_snapshot s' = [].
Proof.
  induction fuel as [|fuel IH]; intros h E X s H Hf; cbn [page_loop];
    destruct (all_visited_ok q ix (p_pool s) _ E (wa_pool _ _ _ (pk_walk _ _ _ H))) as (b & p & -> & Hp & Hlive & Hb'); cbn [lift mbind res_bind];
    (assert (H1 : page_ok E X (mkP p (p_visited s) (p_page_visited s) (p_full_retset s) (last_io_snapshot s)));
     [destruct H as [[Hpp Hv Hu] ? ? ? ? ? ?]; by split; [split|..]|]);
    (assert (Hsame : all_taken (mkP p (p_visited s) (p_page_visited s) (p_full_retset s) (last_io_snapshot s)) ↔ all_taken s) by (unfold all_taken; cbn [p_pool]; by rewrite Hlive));
    cbn [last_io_snapshot]; destruct (b && Nat.eqb (length (last_io_snapshot s)) 0) eqn:Estop.
  1,3: apply andb_true_iff in Estop as [Eb El]; apply Nat.eqb_eq, length_zero_iff_nil in El; eexists E, X, _; split; [done|]; split; [done|]; split; [apply Hsame; by apply Hb'|done].
  - exfalso. unfold left_over in Hf. destruct (decide (last_io_snapshot s = [])) as [El|El]; [|lia]. destruct (decide (all_taken s)) as [Ha|Ha]; [|lia].
    rewrite El in Estop. apply Hb' in Ha. by rewrite Ha in Estop.
  - destruct (page_hop_ok h E X _ H1) as (E' & X' & s' & -> & H' & Hlt).
    { intros [Ha El]. cbn [last_io_snapshot] in El. apply Hsame, Hb' in Ha. rewrite Ha, El in Estop. done. }
    cbn [mbind res_bind]. apply (IH (S h) E' X' s' H').
    assert (left_over (mkP p (p_visited s) (p_page_visited s) (p_full_retset s) (last_io_snapshot s)) = left_over s) as Heq.
    { unfold left_over. cbn [p_page_visited last_io_snapshot]. f_equal. repeat case_decide; tauto || lia. }
    lia.
Qed.

(** ** The search *)

Lemma page_starts_ok ids : ∀ p vs, walk_at p vs [] → NoDup ids → (∀ i, i ∈ ids → i ∉ keys vs ∧ i ∈ U) →
  ∃ p' vs', PageSearch.compute_and_add_to_retset ix ids p vs = Ok (p', vs') ∧ walk_at p' vs' [] ∧ keys vs' = list_to_set ids ∪ keys vs.
Proof.
  induction ids as [|i ids IH]; intros p vs Hw Hnd Hn; cbn [PageSearch.compute_and_add_to_retset].
  { exists p, vs. rewrite list_to_set_nil, (left_id_L ∅ (∪)). done. }
  apply NoDup_cons in Hnd as [Hi Hnd]. destruct (Hn i ltac:(left)) as [Hik Hiu].
  destruct (pool_insert_ok q ix (xo_approx _ _ _ Hix) p _ [] i (wa_pool _ _ _ Hw) Hik) as (r & p1 & -> & Hp1). cbn [lift mbind res_bind].
  destruct (VisitedSet.visited_insert_correct vs i (wa_vs _ _ _ Hw)) as (vs1 & -> & Hvs1 & Hk1). cbn [lift mbind res_bind].
  destruct (IH p1 vs1) as (p' & vs' & -> & Hw' & Hk'); [|done| |].
  - split; [by rewrite Hk1|done|]. rewrite Hk1. intros j [->%elem_of_singleton|Hj]%elem_of_union; [done|by apply (wa_U _ _ _ Hw)].
  - intros j Hj. destruct (Hn j ltac:(by right)) as [Hjk Hju]. split; [|done]. rewrite Hk1, not_elem_of_union, not_elem_of_singleton. split; [by intros ->|done].
  - exists p', vs'. split_and!; [done|done|]. rewrite Hk', Hk1, list_to_set_cons. clear. set_solver.
Qed.

Lemma page_search_ok vs fuel :
  VisitedSet.inv vs → 4 * base.size pages + 1 ≤ fuel →
  ∃ E X s, (∀ k, page_search ix get_page_layout node_from_page mem_L l_search beam_width nps cached landed k vs fuel
                 = Ok (Some (copy_top_k ix (std_sort (exact <$> X)) k f_infinity)))
  ∧ page_ok E X s ∧ all_taken s ∧ last_io_snapshot s = [].
Proof.
  intros Hvs Hf. destruct (VisitedSet.clear_correct vs Hvs) as (Hcl & Hke & _).
  destruct (page_starts_ok (starts q ix) (reset l_search (l_search + 1)) (VisitedSet.clear vs)) as (p & vs0 & Hadd & Hw & Hk).
  - split; [|done|rewrite Hke; clear; set_solver]. rewrite Hke. by apply (pool_ok_start q ix (l_search + 1)).
  - apply Hix.
  - intros i Hi. rewrite Hke. split; [clear; set_solver|by apply (xo_starts _ _ _ Hix)].
  - destruct (page_loop_ok fuel 0 [] [] (mkP p vs0 ∅ [] [])) as (E & X & s & Hrun & H & Ht & El).
    + split; cbn [p_pool p_visited p_page_visited p_full_retset last_io_snapshot]; try done.
      * intros i Hi. rewrite Hk. by apply elem_of_union_l, elem_of_list_to_set.
      * split; [constructor|]. intros i. clear. set_solver.
      * intros i j Hi. by apply not_elem_of_nil in Hi.
      * intros i Hi. by apply not_elem_of_nil in Hi.
    + unfold left_over. cbn [p_page_visited last_io_snapshot]. rewrite difference_empty_L, (decide_True (P := @nil snapshot = [])) by done. case_decide; lia.
    + exists E, X, s. split_and!; try done. intros k. unfold page_search. rewrite (proj2 (Nat.ltb_ge _ _)) by lia.
      change (page_starts ix mem_L l_search) with (starts q ix). rewrite Hadd. cbn [mbind res_bind]. rewrite Hrun. cbn [mbind res_bind]. by rewrite (pk_res _ _ _ H).
Qed.
End page.

(** ** The theorems *)

(** C31: the page search returns the fixed point of the greedy walk.  On an index whose pages
    hold the nodes its tables say, with a beam of at most 128 and reads that nothing
    overtakes, it ends within four hops per page and returns the [k] first of a list of
    distinct nodes sorted by exact distance.  With every node of the list all nodes of its
    page are in the list, and among them is a set [P] of at most [l] nodes such that the
    starting points and every neighbour of a node of [P] are in [P], or [P] has [l] nodes
    that are all closer in the approximate distance. *)
Theorem page_search_greedy ix layout node slot U mem_L l beam_width nps cached landed k vs fuel :
  let q := do_pipe_search mem_L l beam_width 0 false false in
  index_ok q ix U → layout_ok ix layout node slot nps U → 1 ≤ l → 1 ≤ beam_width ≤ MAX_N_SECTOR_READS →
  (∀ h, (∀ pg, cached h pg = false) ∨ (∀ pg, cached h pg = true) ∨ (∀ k, landed h k = true)) →
  VisitedSet.inv vs → 4 * base.size (pages ix U) + 1 ≤ fuel →
  ∃ P res, page_search ix layout node mem_L l beam_width nps cached landed k vs fuel = Ok (Some (take k (map (tagged ix) res)))
  ∧ results_ok q ix res
  ∧ (∀ i j, i ∈ id <$> res → j ∈ U → id2page ix j = id2page ix i → j ∈ id <$> res)
  ∧ NoDup P ∧ length P ≤ l ∧ (∀ i, i ∈ P → i ∈ id <$> res)
  ∧ (∀ i, i ∈ starts q ix → kept q ix P i)
  ∧ (∀ i j, i ∈ P → j ∈ nbrs (read_node ix i) → kept q ix P j).
Proof.
  intros q Hix Hlay Hl Hb Hread Hvs Hf.
  destruct (page_search_ok ix layout node slot mem_L l beam_width nps cached landed U Hix Hlay Hl Hb Hread vs fuel Hvs Hf) as (E & X & s & Hrun & H & Hall & El).
  destruct H as [[Hp _ Hu] Hst _ _ Hcore Hc Ht]. rewrite El in Hcore. unfold rest_of in Hcore. cbn [map concat] in Hcore.
  unfold core in Hcore. rewrite app_nil_r in Hcore. destruct Hcore as [Hnd Hel].
  assert (Hres : results_ok q ix (std_sort (BeamProof.exact ix <$> X))) by (eapply BeamProof.exact_results; [exact Hix|done]).
  assert (Hids : ∀ i, i ∈ id <$> std_sort (BeamProof.exact ix <$> X) ↔ i ∈ X) by (intros i; rewrite std_sort_Permutation, <- list_fmap_compose, list_fmap_id; done).
  assert (Hin : ∀ i, i ∈ id <$> live (p_pool s) → i ∈ X).
  { intros i (a & -> & Ha)%list_elem_of_fmap. unfold all_taken in Hall. rewrite Forall_forall in Hall. apply Hel. split.
    - apply Hu. by apply (po_seen _ _ _ _ _ Hp).
    - apply Ht. by apply (po_taken _ _ _ _ _ Hp a Ha), Hall. }
  exists (id <$> live (p_pool s)), (std_sort (BeamProof.exact ix <$> X)). split_and!.
  - rewrite Hrun. do 2 f_equal. apply (results_copied_all q); [apply Hix|done].
  - done.
  - intros i j Hi%Hids Hj E'. apply Hids, Hel. split; [done|]. rewrite E'. by apply Hel.
  - apply Hp.
  - rewrite length_fmap, live_length by apply Hp. pose proof (wf_cur _ (po_wf _ _ _ _ _ Hp)) as H. by rewrite (po_l _ _ _ _ _ Hp) in H.
  - intros i Hi%Hin. by apply Hids.
  - intros i Hi. by apply (po_kept _ _ _ _ _ Hp), Hst.
  - intros i j Hi Hj. by apply (po_kept _ _ _ _ _ Hp), (Hc i), Hj; apply Hin.
Qed.

(** Eight nodes, two on a page; node 0 leads to 2 and 4, node 2 to 6. *)
Definition paged : index :=
  mkIndex (λ i, mkDisk [i] (if Z.eqb i 0 then [2; 4]%Z else if Z.eqb i 2 then [6]%Z else []) [] [])
    z_dist (λ v, z_dist (hd 0%Z v)) (λ i, (i / 2)%Z) (λ i, i) 0 [].
Definition paged_ids : gset Z := list_to_set (ids_from 0 8).
Definition paged_layout (pg : Z) : list Z := [2 * pg; 2 * pg + 1]%Z.
Definition paged_node (pg : Z) (j : nat) : DiskNode := read_node paged (2 * pg + Z.of_nat j).
Definition paged_slot (i : Z) : nat := Z.to_nat (i mod 2).

Lemma paged_elem i : i ∈ paged_ids ↔ (0 <= i < 8)%Z.
Proof.
  unfold paged_ids, ids_from. rewrite elem_of_list_to_set, list_elem_of_In, in_map_iff. split.
  - intros (n & <- & Hn%in_seq). lia.
  - intros Hi. exists (Z.to_nat i). split; [lia|]. apply in_seq. lia.
Qed.

Lemma paged_ok q : mem_L q = 0 → index_ok q paged paged_ids.
Proof.
  intros Hm. assert (Hst : starts q paged = [0%Z]) by (unfold starts; by rewrite Hm). split; rewrite ?Hst; simpl.
  - apply z_dist_not_nan.
  - intros v. apply z_dist_not_nan.
  - intros i j _. rewrite app_nil_r, paged_elem. destruct (Z.eqb i 0); [|destruct (Z.eqb i 2)]; rewrite ?elem_of_cons; intros Hj;
      repeat destruct Hj as [->|Hj]; try lia; by apply not_elem_of_nil in Hj.
  - intros i ->%list_elem_of_singleton. rewrite paged_elem. lia.
  - apply NoDup_singleton.
Qed.

Lemma paged_layout_ok : layout_ok paged paged_layout paged_node paged_slot 2 paged_ids.
Proof.
  assert (Hsplit : ∀ i, (i = 2 * (i / 2) + i mod 2 ∧ 0 <= i mod 2 < 2)%Z) by (intros i; split; [apply Z.div_mod; lia|apply Z.mod_pos_bound; lia]).
  split; cbn [id2page paged].
  - done.
  - intros i Hi%paged_elem. destruct (Hsplit i) as [E Hm]. unfold paged_slot, paged_layout, valid, Loc.kAllocatedID, Loc.kInvalidID, UINT32_MAX.
    split; [lia|]. split; [|lia]. assert (i mod 2 = 0 ∨ i mod 2 = 1)%Z as [H|H] by lia; rewrite H; [change (Some (2 * (i / 2))%Z = Some i)|change (Some (2 * (i / 2) + 1)%Z = Some i)]; f_equal; lia.
  - intros i Hi. destruct (Hsplit i) as [E Hm]. unfold paged_node, paged_slot. rewrite Z2Nat.id by lia. by rewrite <- E.
  - intros i j c Hi%paged_elem Hj. unfold paged_layout, paged_slot. destruct (Hsplit i) as [Ei Hmi]. destruct j as [|[|j]]; [| |lia]; intros [= <-] _; rewrite paged_elem.
    + destruct (Hsplit (2 * (i / 2))%Z) as [Ec Hc]. lia.
    + destruct (Hsplit (2 * (i / 2) + 1)%Z) as [Ec Hc]. lia.
Qed.

Lemma page_search_greedy_witness :
  ∃ P res, page_search paged paged_layout paged_node 0 4 2 2 (λ _ _, false) (λ _ _, false) 3 empty_set 40 = Ok (Some (take 3 (map (tagged paged) res)))
  ∧ results_ok (do_pipe_search 0 4 2 0 false false) paged res ∧ NoDup P ∧ length P ≤ 4 ∧ (∀ i, i ∈ P → i ∈ id <$> res).
Proof.
  destruct (page_search_greedy paged paged_layout paged_node paged_slot paged_ids 0 4 2 2 (λ _ _, false) (λ _ _, false) 3 empty_set 40)
    as (P & res & H1 & H2 & _ & H3 & H4 & H5 & _);
    [by apply paged_ok|apply paged_layout_ok|lia|unfold MAX_N_SECTOR_READS; lia|by left|apply empty_set_inv|vm_compute; lia|].
  exists P, res. split; [exact H1|]. split; [exact H2|]. split; [exact H3|]. split; [exact H4|exact H5].
Defined.

(** two ways the page search goes wrong.  When a page of a hop is in the page cache the
    search waits for too few reads: it waits for as many as went to the disk, but for the
    first ones of the hop, so it uses a page that has not been read; without the cached page
    the same query returns.  And on an index whose nodes take whole sectors, which has 0
    nodes per sector, it looks at no slot of any page and returns nothing. *)
Theorem page_search_unread :
  page_search paged paged_layout paged_node 0 4 2 2 (λ h pg, Nat.eqb h 1 && Z.eqb pg 1) (λ _ _, false) 3 empty_set 40 = Fault StaleBuffer
  ∧ page_search paged paged_layout paged_node 0 4 2 2 (λ _ _, false) (λ _ _, false) 3 empty_set 40 = Ok (Some [(0%Z, z_dist 0); (1%Z, z_dist 1); (2%Z, z_dist 2)])
  ∧ page_search paged paged_layout paged_node 0 4 2 0 (λ _ _, false) (λ _ _, false) 3 empty_set 40 = Ok (Some []).
Proof. split_and!; vm_compute; reflexivity. Qed.
End PageSearchProof.
