(* ===== verification/InsertConc.v ===== *)
(** * Concurrent inserts and searches over the location tables

    [insert_in_place] of [src/update/direct_insert.cpp] as a transition system:
    any number of threads run inserts and the reads of searches over the shared
    tables of [LocTable], the records on disk and the lock tables.  A thread's
    program counter holds what the thread knows; the locks it holds follow from
    the counter, and an acquisition is possible when no other thread holds the
    lock (the exclusion that [LockTable] proves of [SparseLockTable]).  Searching
    and pruning return any distinct published neighbours.

    Proved for every interleaving: the two tables stay consistent and no access
    crashes, the record a search reads is not recycled under it, and the ordered
    acquisition of page and vector locks does not deadlock.  A last theorem shows
    a run in which an insert overwrites the record of another one. *)

From S2P Require Import Prelude Queues Layout LocTable.
Local Open Scope Z_scope.

Module Conc.
Import Queues.Queues Layout.Layout Loc.

(** ** Lock lists *)

Inductive lock := LPage (page : Z) | LVec (id : Z).

Global Instance lock_eq_dec : EqDecision lock.
Proof. solve_decision. Defined.

(** The order of acquisition: pages, then vectors, each ascending. *)
Definition lock_lt (x y : lock) : Prop :=
  match x, y with
  | LPage p, LPage q => p < q
  | LPage _, LVec _ => True
  | LVec a, LVec b => a < b
  | LVec _, LPage _ => False
  end.

(** [std::sort] followed by [std::unique], and the iteration of a [std::set]. *)
Fixpoint insert_unique (x : Z) (l : list Z) : list Z :=
  match l with
  | [] => [x]
  | y :: l' => if x <? y then x :: l else if x =? y then l else y :: insert_unique x l'
  end.

Definition sort_unique (l : list Z) : list Z := foldr insert_unique [] l.

Section machine.
Context (m : SSDIndexMetadata).

(** [pages_to_rmw]: the pages of the allocated records. *)
Definition pages_to_rmw (locs : list Z) : list Z := sort_unique (map (loc_sector_no m) locs).

(** [lockReqs]: every sector of the requests. *)
Definition lock_pages (locs : list Z) : list Z :=
  sort_unique (concat (map (λ p, seqZ p (io_size m / SECTOR_LEN)) (pages_to_rmw locs))).

(** [lock_vec] and [get_to_lock_idx]. *)
Definition to_lock (t : Z) (nh : list Z) : list Z := sort_unique (nh ++ (if t =? kInvalidID then [] else [t])).

Definition lock_list (t : Z) (nh locs : list Z) : list lock :=
  map LPage (lock_pages locs) ++ map LVec (to_lock t nh).

(** ** Threads *)

Inductive pc :=
  | Idle
  | Reading (id loc : Z)  (** a search's read, with the read lock of [id] *)
  | Target (t : Z)  (** [target_id] taken *)
  | Pruned (t : Z) (nh hints : list Z)  (** neighbours chosen *)
  | Locking (t : Z) (nh locs : list Z) (need : gset Z) (held todo : list lock)
  | Locked (t : Z) (nh locs : list Z) (need : gset Z)
  | Written (t : Z) (nh locs : list Z)  (** pages written *)
  | Published (t : Z) (nh locs : list Z)  (** [id2loc] of the target set *)
  | Moving (t : Z) (nh locs orig : list Z)  (** index locks held, [orig] moved *)
  | Committed (t : Z) (nh locs : list Z)
  | IdxReleased (t : Z) (nh locs : list Z)
  | VecReleased (locs : list Z)  (** handed to the background writer *)
  | Crashed.

Definition holds (c : pc) : list lock :=
  match c with
  | Locking _ _ _ _ held _ => held
  | Locked t nh locs _ | Written t nh locs | Published t nh locs | Moving t nh locs _
  | Committed t nh locs | IdxReleased t nh locs => lock_list t nh locs
  | VecReleased locs => map LPage (lock_pages locs)
  | _ => []
  end.

Definition idx_writes (c : pc) : list Z :=
  match c with Moving t nh _ _ | Committed t nh _ => to_lock t nh | _ => [] end.

Definition idx_reads (c : pc) : list Z := match c with Reading id _ => [id] | _ => [] end.

Record state := mkSt {
  tb : LocTables;
  cur_id : Z;
  pub : gset Z;  (** the ids that a search can meet *)
  disk : gmap Z Z;  (** the node in a record *)
  thr : list pc
}.

Definition goto (s : state) (i : nat) (c : pc) : state := mkSt (tb s) (cur_id s) (pub s) (disk s) (<[i := c]> (thr s)).
Definition with_tb (s : state) (t : LocTables) : state := mkSt t (cur_id s) (pub s) (disk s) (thr s).

Definition lock_free (s : state) (x : lock) : Prop := ∀ j c, thr s !! j = Some c → x ∉ holds c.
Definition idx_no_writer (s : state) (id : Z) : Prop := ∀ j c, thr s !! j = Some c → id ∉ idx_writes c.
Definition idx_free (s : state) (id : Z) : Prop :=
  ∀ j c, thr s !! j = Some c → id ∉ idx_writes c ∧ id ∉ idx_reads c.

(** ** The write of the pages

    The buffer of a page holds the new records; the other records of the page are
    those read from disk when the page is in [need], and undefined otherwise. *)
Fixpoint index_of (l : Z) (locs ids : list Z) : option Z :=
  match locs, ids with
  | k :: locs, id :: ids => if k =? l then Some id else index_of l locs ids
  | _, _ => None
  end.

Definition write_record (need : gset Z) (locs ids : list Z) (page : Z) (d : gmap Z Z) (l : Z) : gmap Z Z :=
  partial_alter (λ old, match index_of l locs ids with
                        | Some id => Some id
                        | None => if bool_decide (page ∈ need) then old else None
                        end) l d.

Definition write_pages (need : gset Z) (locs ids : list Z) (d : gmap Z Z) : gmap Z Z :=
  foldl (λ d page, foldl (write_record need locs ids page) d (page_locs m page)) d (pages_to_rmw locs).

(** ** Steps *)

Definition room (s : state) (n : nat) : Prop := fits m (cur_loc (tb s) + Z.of_nat n + nodes_per_io m).

Inductive step (s : state) (i : nat) : state → Prop :=
  | step_read id loc :
      thr s !! i = Some Idle → id ∈ pub s → idx_no_writer s id → id2loc (tb s) id = Some loc →
      step s i (goto s i (Reading id loc))
  | step_read_end id loc :
      thr s !! i = Some (Reading id loc) → step s i (goto s i Idle)
  | step_begin :
      thr s !! i = Some Idle → cur_id s < kAllocatedID →
      step s i (mkSt (tb s) (cur_id s + 1) (pub s) (disk s) (<[i := Target (cur_id s)]> (thr s)))
  | step_search t nh hints :
      thr s !! i = Some (Target t) → NoDup nh → (∀ id, id ∈ nh → id ∈ pub s) →
      Forall (page_ok m (cur_loc (tb s))) hints →
      step s i (goto s i (Pruned t nh hints))
  | step_alloc t nh hints locs need tb' :
      thr s !! i = Some (Pruned t nh hints) → room s (length nh + 1) →
      alloc_loc m (tb s) (length nh + 1) hints ∅ = Some (locs, need, tb') →
      step s i (goto (with_tb s tb') i (Locking t nh locs need [] (lock_list t nh locs)))
  | step_lock t nh locs need held x todo :
      thr s !! i = Some (Locking t nh locs need held (x :: todo)) → lock_free s x →
      step s i (goto s i (Locking t nh locs need (held ++ [x]) todo))
  | step_locked t nh locs need held :
      thr s !! i = Some (Locking t nh locs need held []) → step s i (goto s i (Locked t nh locs need))
  | step_write t nh locs need :
      thr s !! i = Some (Locked t nh locs need) →
      step s i (mkSt (tb s) (cur_id s) (pub s) (write_pages need locs (nh ++ [t]) (disk s)) (<[i := Written t nh locs]> (thr s)))
  | step_publish t nh locs l tb' :
      thr s !! i = Some (Written t nh locs) → locs !! length nh = Some l → set_id2loc (tb s) t l = Some tb' →
      step s i (goto (with_tb s tb') i (Published t nh locs))
  | step_lock_idx t nh locs :
      thr s !! i = Some (Published t nh locs) → (∀ id, id ∈ to_lock t nh → idx_free s id) →
      step s i (goto s i (Moving t nh locs []))
  | step_move t nh locs orig id o l tb' :
      thr s !! i = Some (Moving t nh locs orig) → nh !! length orig = Some id → locs !! length orig = Some l →
      id2loc (tb s) id = Some o → set_id2loc (tb s) id l = Some tb' →
      step s i (goto (with_tb s tb') i (Moving t nh locs (orig ++ [o])))
  | step_commit t nh locs orig tb' :
      thr s !! i = Some (Moving t nh locs orig) → length orig = length nh →
      erase_and_set_loc m (tb s) orig locs (nh ++ [t]) = Some tb' →
      step s i (mkSt tb' (cur_id s) ({[t]} ∪ pub s) (disk s) (<[i := Committed t nh locs]> (thr s)))
  | step_unlock_idx t nh locs :
      thr s !! i = Some (Committed t nh locs) → step s i (goto s i (IdxReleased t nh locs))
  | step_unlock_vec t nh locs :
      thr s !! i = Some (IdxReleased t nh locs) → step s i (goto s i (VecReleased locs))
  | step_unlock_pages locs :
      thr s !! i = Some (VecReleased locs) → step s i (goto s i Idle)
  | step_crash c :
      thr s !! i = Some c →
      match c with
      | Idle => ∃ id, id ∈ pub s ∧ id2loc (tb s) id = None
      | Pruned t nh hints => room s (length nh + 1) ∧ alloc_loc m (tb s) (length nh + 1) hints ∅ = None
      | Written t nh locs => match locs !! length nh with Some l => set_id2loc (tb s) t l = None | None => True end
      | Moving t nh locs orig =>
          if Nat.eqb (length orig) (length nh) then erase_and_set_loc m (tb s) orig locs (nh ++ [t]) = None
          else match nh !! length orig, locs !! length orig with
               | Some id, Some l => id2loc (tb s) id = None ∨ set_id2loc (tb s) id l = None
               | _, _ => True
               end
      | _ => False
      end →
      step s i (goto s i Crashed).

Definition any_step (s s' : state) : Prop := ∃ i, step s i s'.

(** A loaded index with [n] idle threads. *)
Definition init (n : nat) : state :=
  mkSt (equal_mapping m) (npoints m) (list_to_set (seqZ 0 (npoints m)))
    (list_to_map (map (λ l, (l, l)) (seqZ 0 (npoints m)))) (replicate n Idle).

(** ** The invariant *)

(** The records an uncommitted insert has allocated, and its target. *)
Definition locs_of (c : pc) : list Z :=
  match c with
  | Locking _ _ locs _ _ _ | Locked _ _ locs _ | Written _ _ locs | Published _ _ locs | Moving _ _ locs _ => locs
  | _ => []
  end.

Definition targets (c : pc) : list Z :=
  match c with
  | Target t | Pruned t _ _ | Locking t _ _ _ _ _ | Locked t _ _ _ | Written t _ _ | Published t _ _
  | Moving t _ _ _ => [t]
  | _ => []
  end.

(** The neighbours whose [id2loc] entry is already the new one, with the old one. *)
Definition moved (c : pc) : list (Z * Z) := match c with Moving _ nh _ orig => zip nh orig | _ => [] end.

(** Where the published copy of a node is. *)
Definition all_moved (s : state) (x : Z * Z) : Prop := ∃ j c, thr s !! j = Some c ∧ x ∈ moved c.
Definition home (s : state) (id l : Z) : Prop :=
  all_moved s (id, l) ∨ (∀ o, ¬ all_moved s (id, o)) ∧ slot (id2loc_ (tb s)) id = Some l.

Definition tgt_ok (s : state) (t : Z) : Prop := 2 <= t < cur_id s ∧ t ∉ pub s.
Definition nh_ok (s : state) (nh : list Z) : Prop := NoDup nh ∧ ∀ id, id ∈ nh → id ∈ pub s.
Definition locs_ok (s : state) (nh locs : list Z) : Prop :=
  length locs = (length nh + 1)%nat ∧ NoDup locs
  ∧ ∀ l, l ∈ locs → 0 <= l < cur_loc (tb s) ∧ slot (loc2id_ (tb s)) l = Some kAllocatedID.
Definition at_loc (s : state) (id : Z) (l : option Z) : Prop := l ≠ None ∧ slot (id2loc_ (tb s)) id = l.

Definition thread_ok (s : state) (c : pc) : Prop :=
  match c with
  | Idle | Committed _ _ _ | IdxReleased _ _ _ | VecReleased _ => True
  | Reading id loc => id ∈ pub s ∧ slot (id2loc_ (tb s)) id = Some loc
  | Target t => tgt_ok s t
  | Pruned t nh hints => tgt_ok s t ∧ nh_ok s nh ∧ Forall (page_ok m (cur_loc (tb s))) hints
  | Locking t nh locs _ held todo =>
      tgt_ok s t ∧ nh_ok s nh ∧ locs_ok s nh locs ∧ held ++ todo = lock_list t nh locs
  | Locked t nh locs _ | Written t nh locs => tgt_ok s t ∧ nh_ok s nh ∧ locs_ok s nh locs
  | Published t nh locs => tgt_ok s t ∧ nh_ok s nh ∧ locs_ok s nh locs ∧ at_loc s t (locs !! length nh)
  | Moving t nh locs orig =>
      tgt_ok s t ∧ nh_ok s nh ∧ locs_ok s nh locs ∧ at_loc s t (locs !! length nh)
      ∧ (length orig ≤ length nh)%nat
      ∧ ∀ j id, (j < length orig)%nat → nh !! j = Some id → at_loc s id (locs !! j)
  | Crashed => False
  end.

Record excl (a b : pc) : Prop := mkExcl {
  ex_holds : ∀ x, x ∈ holds a → x ∉ holds b;
  ex_locs : ∀ l, l ∈ locs_of a → l ∉ locs_of b;
  ex_targets : ∀ t, t ∈ targets a → t ∉ targets b;
  ex_ww : ∀ id, id ∈ idx_writes a → id ∉ idx_writes b;
  ex_wr : ∀ id, id ∈ idx_writes a → id ∉ idx_reads b;
  ex_rw : ∀ id, id ∈ idx_reads a → id ∉ idx_writes b
}.

Record inv (s : state) : Prop := mkInv {
  iv_tb : tables_ok m (tb s);
  iv_id : 2 <= cur_id s <= kAllocatedID;
  iv_len : (2 ≤ length (id2loc_ (tb s)))%nat;
  iv_pub : ∀ id, id ∈ pub s → 0 <= id < cur_id s;
  iv_home : ∀ id, id ∈ pub s → ∃ l, home s id l ∧ 0 <= l < cur_loc (tb s) ∧ slot (loc2id_ (tb s)) l = Some id;
  iv_slots : ∀ l id, 0 <= l < cur_loc (tb s) → slot (loc2id_ (tb s)) l = Some id →
    id ≠ kInvalidID → id ≠ kAllocatedID → id ∈ pub s ∧ home s id l;
  iv_thr : ∀ i c, thr s !! i = Some c → thread_ok s c;
  iv_excl : ∀ i j ci cj, i ≠ j → thr s !! i = Some ci → thr s !! j = Some cj → excl ci cj
}.

Lemma excl_sym a b : excl a b → excl b a.
Proof. intros []. split; intros x Hb Ha; naive_solver. Qed.

(** A thread that gives up resources stays exclusive. *)
Lemma excl_mono a a' b :
  (∀ x, x ∈ holds a' → x ∈ holds a) → (∀ x, x ∈ locs_of a' → x ∈ locs_of a) → (∀ x, x ∈ targets a' → x ∈ targets a) →
  (∀ x, x ∈ idx_writes a' → x ∈ idx_writes a) → (∀ x, x ∈ idx_reads a' → x ∈ idx_reads a) →
  excl a b → excl a' b.
Proof. intros ????? []. split; intros x Hx; naive_solver. Qed.

Lemma lookup_goto (l : list pc) i j c c' :
  <[i := c']> l !! j = Some c → (j = i ∧ c = c') ∨ (j ≠ i ∧ l !! j = Some c).
Proof. intros [(-> & -> & _)|[? ?]]%list_lookup_insert_Some; [by left|by right]. Qed.

(** Lock lists *)

Lemma elem_of_insert_unique x y l : x ∈ insert_unique y l ↔ x = y ∨ x ∈ l.
Proof.
  induction l as [|z l IH]; simpl; [set_solver|]. destruct (y <? z) eqn:?; bool_to_prop; [set_solver|].
  destruct (y =? z) eqn:?; bool_to_prop; [subst; set_solver|]. rewrite !elem_of_cons, IH. naive_solver.
Qed.

Lemma elem_of_sort_unique x l : x ∈ sort_unique l ↔ x ∈ l.
Proof. induction l as [|y l IH]; simpl; [done|]. by rewrite elem_of_insert_unique, IH, elem_of_cons. Qed.

Lemma insert_unique_sorted y l : StronglySorted Z.lt l → StronglySorted Z.lt (insert_unique y l).
Proof.
  induction 1 as [|z l Hs IH Hz]; simpl; [repeat constructor|].
  destruct (y <? z) eqn:?; bool_to_prop.
  { constructor; [by constructor|]. constructor; [done|]. eapply Forall_impl; [done|]. simpl. lia. }
  destruct (y =? z) eqn:?; bool_to_prop; [by constructor|]. constructor; [done|].
  apply Forall_forall. intros x [->|Hx]%elem_of_insert_unique; [lia|]. rewrite Forall_forall in Hz. by apply Hz.
Qed.

Lemma sort_unique_sorted l : StronglySorted Z.lt (sort_unique l).
Proof. induction l as [|y l IH]; simpl; [constructor|by apply insert_unique_sorted]. Qed.

Lemma elem_of_to_lock id t nh : t ≠ kInvalidID → id ∈ to_lock t nh ↔ id ∈ nh ∨ id = t.
Proof. intros Ht. unfold to_lock. rewrite (proj2 (Z.eqb_neq _ _) Ht), elem_of_sort_unique. set_solver. Qed.

Lemma vec_in_lock_list id t nh locs : t ≠ kInvalidID → id ∈ nh ∨ id = t → LVec id ∈ lock_list t nh locs.
Proof.
  intros Ht Hid. unfold lock_list. apply elem_of_app. right. apply list_elem_of_fmap.
  exists id. split; [done|]. by apply elem_of_to_lock.
Qed.

(** ** What a step leaves alone *)

Lemma all_moved_insert s s' i c c' x :
  thr s !! i = Some c → thr s' = <[i := c']> (thr s) →
  all_moved s' x ↔ x ∈ moved c' ∨ ∃ j cj, j ≠ i ∧ thr s !! j = Some cj ∧ x ∈ moved cj.
Proof.
  intros Hi Hthr. unfold all_moved. rewrite Hthr. split.
  - intros (j & cj & [[-> ->]|[Hne Hj]]%lookup_goto & Hx); [by left|right; by exists j, cj].
  - intros [Hx|(j & cj & Hne & Hj & Hx)]; [exists i, c'|exists j, cj]; (split; [|done]).
    + apply list_lookup_insert_eq. by eapply lookup_lt_Some.
    + by rewrite list_lookup_insert_ne.
Qed.

Lemma all_moved_same s s' i c c' x :
  thr s !! i = Some c → thr s' = <[i := c']> (thr s) → moved c' = moved c → all_moved s' x ↔ all_moved s x.
Proof.
  intros Hi Hthr Hm. rewrite (all_moved_insert s s' i c c') by done.
  rewrite (all_moved_insert s s i c c) by (rewrite ?list_insert_id; done). by rewrite Hm.
Qed.

Lemma home_keep s s' i c c' id l :
  thr s !! i = Some c → thr s' = <[i := c']> (thr s) → moved c' = moved c →
  (∀ x, slot (id2loc_ (tb s)) id = Some x → slot (id2loc_ (tb s')) id = Some x) → home s id l → home s' id l.
Proof.
  intros Hi Hthr Hm Hs [Hx|[Hx Hl]]; [left; by apply (all_moved_same s s' i c c')|right]. split; [|by apply Hs].
  intros o Ho. apply (Hx o). by apply (all_moved_same s s' i c c').
Qed.

Definition real (id : Z) : Prop := id ≠ kInvalidID ∧ id ≠ kAllocatedID.

(** The homes of the published nodes, across a step that moves none of them. *)
Lemma homes_update s s' :
  inv s → pub s' = pub s → cur_loc (tb s) <= cur_loc (tb s') →
  (∀ id l, id ∈ pub s → home s id l → home s' id l) →
  (∀ l id, 0 <= l < cur_loc (tb s) → slot (loc2id_ (tb s)) l = Some id → real id → slot (loc2id_ (tb s')) l = Some id) →
  (∀ l id, 0 <= l < cur_loc (tb s') → slot (loc2id_ (tb s')) l = Some id → real id →
     l < cur_loc (tb s) ∧ slot (loc2id_ (tb s)) l = Some id) →
  (∀ id, id ∈ pub s' → ∃ l, home s' id l ∧ 0 <= l < cur_loc (tb s') ∧ slot (loc2id_ (tb s')) l = Some id)
  ∧ (∀ l id, 0 <= l < cur_loc (tb s') → slot (loc2id_ (tb s')) l = Some id →
       id ≠ kInvalidID → id ≠ kAllocatedID → id ∈ pub s' ∧ home s' id l).
Proof.
  intros Hinv -> Hcur Hh Hkeep Hback. split.
  - intros id Hid. destruct (iv_home s Hinv id Hid) as (l & Hl & Hb & Hx). exists l.
    pose proof (iv_pub s Hinv id Hid). pose proof (iv_id s Hinv).
    split_and!; [by apply Hh|lia..|]. apply Hkeep; [done..|]. unfold real, kInvalidID, kAllocatedID in *. lia.
  - intros l id Hb Hx Hni Hna. destruct (Hback l id Hb Hx (conj Hni Hna)) as [Hlt Hx'].
    destruct (iv_slots s Hinv l id) as [Hp Hl]; [lia|done..|]. split; [done|by apply Hh].
Qed.

(** The ids whose table entry a thread relies on. *)
Definition ids_of (c : pc) : list Z :=
  match c with
  | Reading id _ => [id] | Published t _ _ => [t] | Moving t nh _ _ => t :: nh | _ => []
  end.

Lemma thread_ok_frame s s' c :
  thread_ok s c → cur_id s <= cur_id s' → cur_loc (tb s) <= cur_loc (tb s') → (∀ id, id ∈ pub s → id ∈ pub s') →
  (∀ t, t ∈ targets c → t ∉ pub s → t ∉ pub s') →
  (∀ l, l ∈ locs_of c → 0 <= l < cur_loc (tb s) → slot (loc2id_ (tb s)) l = Some kAllocatedID →
     slot (loc2id_ (tb s')) l = Some kAllocatedID) →
  (∀ id x, id ∈ ids_of c → slot (id2loc_ (tb s)) id = Some x → slot (id2loc_ (tb s')) id = Some x) →
  thread_ok s' c.
Proof.
  intros Hok Hid Hloc Hpub Htgt Hlocs Hids.
  assert (∀ t, t ∈ targets c → tgt_ok s t → tgt_ok s' t) as Ht.
  { intros t Hin [? ?]. split; [lia|by apply Htgt]. }
  assert (∀ nh, nh_ok s nh → nh_ok s' nh) as Hn.
  { intros nh [? ?]. split; [done|]. intros id Hi. by apply Hpub, H0. }
  assert (∀ nh locs, (∀ l, l ∈ locs → l ∈ locs_of c) → locs_ok s nh locs → locs_ok s' nh locs) as Hl.
  { intros nh locs Hsub (? & ? & Hall). split_and!; [done..|]. intros l Hin. destruct (Hall l Hin).
    split; [lia|]. apply Hlocs; [by apply Hsub|done..]. }
  assert (∀ id x, id ∈ ids_of c → at_loc s id x → at_loc s' id x) as Ha.
  { intros id [x|] Hin [? Hx]; [|done]. split; [done|]. by apply Hids. }
  destruct c; simpl in *; try done; try tauto.
  - destruct Hok. split; [by apply Hpub|]. apply Hids; [set_solver|done].
  - apply Ht; [set_solver|done].
  - destruct Hok as (? & ? & Hh). split_and!; [apply Ht; [set_solver|done]|by apply Hn|].
    eapply Forall_impl; [done|]. intros p (l & ? & ->). exists l. split; [lia|done].
  - destruct Hok as (? & ? & ? & ?). split_and!; [apply Ht; [set_solver|done]|by apply Hn|by apply Hl|done].
  - destruct Hok as (? & ? & ?). split_and!; [apply Ht; [set_solver|done]|by apply Hn|by apply Hl].
  - destruct Hok as (? & ? & ?). split_and!; [apply Ht; [set_solver|done]|by apply Hn|by apply Hl].
  - destruct Hok as (? & ? & ? & ?). split_and!; [apply Ht; [set_solver|done]|by apply Hn|by apply Hl|].
    apply Ha; [set_solver|done].
  - destruct Hok as (? & ? & ? & ? & ? & Hm). split_and!; [apply Ht; [set_solver|done]|by apply Hn|by apply Hl| |done|].
    + apply Ha; [set_solver|done].
    + intros j id Hj Hi. apply Ha; [|by apply Hm]. right. by eapply list_elem_of_lookup_2.
Qed.

Lemma thread_locs s c l :
  thread_ok s c → l ∈ locs_of c → 0 <= l < cur_loc (tb s) ∧ slot (loc2id_ (tb s)) l = Some kAllocatedID.
Proof.
  intros Hok Hl. assert (∃ nh locs, locs_ok s nh locs ∧ l ∈ locs) as (nh & locs & (_ & _ & Hall) & Hin); [|by apply Hall].
  destruct c; simpl in *; try (by apply elem_of_nil in Hl); do 2 eexists; (split; [|exact Hl]); apply Hok.
Qed.

Lemma threads_update s s' i c c' :
  inv s → thr s !! i = Some c → thr s' = <[i := c']> (thr s) → thread_ok s' c' →
  (∀ j cj, j ≠ i → thr s !! j = Some cj → thread_ok s' cj ∧ excl c' cj) →
  (∀ i c, thr s' !! i = Some c → thread_ok s' c)
  ∧ (∀ i j ci cj, i ≠ j → thr s' !! i = Some ci → thr s' !! j = Some cj → excl ci cj).
Proof.
  intros Hinv Hi Hthr Hok Hoth. rewrite Hthr. split.
  - intros j cj [[-> ->]|[Hne Hj]]%lookup_goto; [done|]. by eapply Hoth.
  - intros a b ca cb Hab [[-> ->]|[Hna Ha]]%lookup_goto [[-> ->]|[Hnb Hb]]%lookup_goto; [done|by destruct (Hoth b cb)| |exact (iv_excl s Hinv a b ca cb Hab Ha Hb)].
    apply excl_sym. by destruct (Hoth a ca).
Qed.

(** A step of one thread that leaves the tables alone. *)
Lemma inv_local s i c c' :
  inv s → thr s !! i = Some c → moved c' = moved c → thread_ok s c' →
  (∀ j cj, j ≠ i → thr s !! j = Some cj → excl c' cj) → inv (goto s i c').
Proof.
  intros Hinv Hi Hm Hok Hex.
  destruct (threads_update s (goto s i c') i c c') as [Ht He]; [done|done|done| | |].
  { eapply (thread_ok_frame s); try done; simpl; lia. }
  { intros j cj Hj Hcj. split; [|by eapply Hex]. eapply (thread_ok_frame s); try done; simpl; try lia. by eapply iv_thr. }
  destruct (homes_update s (goto s i c')) as [Hh Hsl]; try done; [|naive_solver lia|].
  { intros id l _. by eapply home_keep. }
  destruct Hinv. by split.
Qed.

Lemma excl_of s i j c cj : inv s → thr s !! i = Some c → thr s !! j = Some cj → j ≠ i → excl c cj.
Proof. intros Hinv Hi Hj Hne. exact (iv_excl s Hinv i j c cj (not_eq_sym Hne) Hi Hj). Qed.

(** ** The steps keep the invariant *)

Lemma tgt_real s t : inv s → tgt_ok s t → t ≠ kInvalidID.
Proof. intros [] [? _]. unfold kInvalidID, kAllocatedID in *. lia. Qed.

Lemma moved_in_nh c x : x ∈ moved c → ∃ t nh locs orig, c = Moving t nh locs orig ∧ x.1 ∈ nh.
Proof.
  destruct c; simpl; try set_solver. intros Hx. do 4 eexists. split; [done|]. destruct x as [id o].
  by apply elem_of_zip_l in Hx.
Qed.

(** A neighbour that another thread has moved is locked by that thread. *)
Lemma moved_locked s j c id o : inv s → thr s !! j = Some c → (id, o) ∈ moved c → LVec id ∈ holds c ∧ id ∈ idx_writes c.
Proof.
  intros Hinv Hj Hx. destruct (moved_in_nh c _ Hx) as (t & nh & locs & orig & -> & Hid). simpl in *.
  destruct (iv_thr s Hinv j _ Hj) as (Ht & _). pose proof (tgt_real s t Hinv Ht) as Hr.
  split; [apply vec_in_lock_list; [done|by left]|]. apply elem_of_to_lock; [done|by left].
Qed.

Lemma inv_disk s d : inv s → inv (mkSt (tb s) (cur_id s) (pub s) d (thr s)).
Proof. intros []. by split. Qed.

Lemma id2loc_slot t id l : id2loc t id = Some l → slot (id2loc_ t) id = Some l.
Proof. unfold id2loc. by destruct (_ <=? _). Qed.

Lemma slot_id2loc t id l : 0 <= id → slot (id2loc_ t) id = Some l → id2loc t id = Some l.
Proof. intros H0 Hs. unfold id2loc. rewrite (proj2 (Z.leb_gt _ _)); [done|]. apply slot_lt in Hs. lia. Qed.

Ltac local_step Hinv Hi :=
  eapply inv_local; [exact Hinv|exact Hi|done| |intros j cj Hne Hj; eapply excl_mono; [..|exact (excl_of _ _ _ _ _ Hinv Hi Hj Hne)]; try done];
  pose proof (iv_thr _ Hinv _ _ Hi).

Lemma inv_read s i id loc :
  inv s → thr s !! i = Some Idle → id ∈ pub s → idx_no_writer s id → id2loc (tb s) id = Some loc →
  inv (goto s i (Reading id loc)).
Proof.
  intros Hinv Hi Hpub Hfree Hloc. eapply inv_local; [done|done|done| |].
  - split; [done|]. by apply id2loc_slot.
  - intros j cj Hne Hj. split; simpl; try by intros ? ?%elem_of_nil. intros x ->%list_elem_of_singleton. by eapply Hfree.
Qed.

Lemma inv_begin s i :
  inv s → thr s !! i = Some Idle → cur_id s < kAllocatedID →
  inv (mkSt (tb s) (cur_id s + 1) (pub s) (disk s) (<[i := Target (cur_id s)]> (thr s))).
Proof.
  intros Hinv Hi Hlt. pose proof Hinv as []. set (s' := mkSt _ _ _ _ _).
  destruct (threads_update s s' i Idle (Target (cur_id s))) as [Ht He]; [done|done|done| | |].
  { split; [simpl; lia|]. intros Hin%iv_pub0. lia. }
  { intros j cj Hne Hj. split; [eapply (thread_ok_frame s); try done; simpl; try lia; by eapply iv_thr0|].
    split; simpl; try by intros ? ?%elem_of_nil. intros t ->%list_elem_of_singleton Hin.
    pose proof (iv_thr0 j cj Hj) as Hok. assert (tgt_ok s (cur_id s)) as [? _]; [|lia].
    destruct cj; simpl in *; try (by apply elem_of_nil in Hin); apply list_elem_of_singleton in Hin as ->; tauto. }
  destruct (homes_update s s') as [Hh Hsl]; try done; [|naive_solver lia|].
  { intros id l _. by eapply home_keep. }
  split; simpl; try done; [lia|]. intros id Hid. specialize (iv_pub0 id Hid). lia.
Qed.

Lemma inv_search s i t nh hints :
  inv s → thr s !! i = Some (Target t) → NoDup nh → (∀ id, id ∈ nh → id ∈ pub s) →
  Forall (page_ok m (cur_loc (tb s))) hints → inv (goto s i (Pruned t nh hints)).
Proof. intros Hinv Hi Hnd Hpub Hh. by local_step Hinv Hi; simpl; split_and!. Qed.

Lemma inv_lock s i t nh locs need held x todo :
  inv s → thr s !! i = Some (Locking t nh locs need held (x :: todo)) → lock_free s x →
  inv (goto s i (Locking t nh locs need (held ++ [x]) todo)).
Proof.
  intros Hinv Hi Hfree. eapply inv_local; [done|done|done| |].
  - destruct (iv_thr s Hinv i _ Hi) as (? & ? & ? & Heq). simpl. split_and!; [done..|]. by rewrite <- app_assoc.
  - intros j cj Hne Hj. pose proof (excl_of s i j _ cj Hinv Hi Hj Hne) as []. split; simpl in *; try done.
    intros y [Hy| ->%list_elem_of_singleton]%elem_of_app; [by apply ex_holds0|by eapply Hfree].
Qed.

Lemma inv_locked s i t nh locs need held :
  inv s → thr s !! i = Some (Locking t nh locs need held []) → inv (goto s i (Locked t nh locs need)).
Proof.
  intros Hinv Hi. destruct (iv_thr s Hinv i _ Hi) as (? & ? & ? & Heq). rewrite app_nil_r in Heq.
  local_step Hinv Hi; [done|]. simpl. by rewrite Heq.
Qed.

Lemma inv_lock_idx s i t nh locs :
  inv s → thr s !! i = Some (Published t nh locs) → (∀ id, id ∈ to_lock t nh → idx_free s id) →
  inv (goto s i (Moving t nh locs [])).
Proof.
  intros Hinv Hi Hfree. eapply inv_local; [done|done| | |].
  - simpl. by rewrite zip_with_nil_r.
  - destruct (iv_thr s Hinv i _ Hi) as (? & ? & ? & ?). simpl. split_and!; try done; [lia|]. intros j id Hj. lia.
  - intros j cj Hne Hj. pose proof (excl_of s i j _ cj Hinv Hi Hj Hne) as []. split; simpl in *; try done.
    + intros id Hid. by destruct (Hfree id Hid j cj Hj).
    + intros id Hid. by destruct (Hfree id Hid j cj Hj).
Qed.

Context (Hm : placement_ok m) (Hnz : nnodes_per_sector m ≠ 0).

Lemma page_ok_mono loc loc' p : page_ok m loc p → loc <= loc' → page_ok m loc' p.
Proof. intros (l & ? & ->) ?. exists l. split; [lia|done]. Qed.

(** Records allocated by a thread are in use: no allocation returns them. *)
Lemma inv_alloc s i t nh hints locs need tb' :
  inv s → thr s !! i = Some (Pruned t nh hints) → allocated m (tb s) (length nh + 1) locs need tb' →
  inv (goto (with_tb s tb') i (Locking t nh locs need [] (lock_list t nh locs))).
Proof.
  intros Hinv Hi Ha. pose proof Hinv as []. set (c' := Locking t nh locs need [] _). set (s' := goto _ i c').
  destruct (iv_thr0 i _ Hi) as (Ht & Hnh & _).
  assert (∀ l x, 0 <= l < cur_loc (tb s) → slot (loc2id_ (tb s)) l = Some x → x ≠ kInvalidID →
            l ∉ locs ∧ slot (loc2id_ tb') l = Some x) as Hkeep.
  { intros l x Hl Hx Hne. assert (l ∉ locs) as Hn.
    { intros Hin. destruct (al_free _ _ _ _ _ _ Ha l Hin) as (_ & Hfree & _). rewrite Hfree in Hx by lia. congruence. }
    split; [done|]. by rewrite (al_same _ _ _ _ _ _ Ha). }
  destruct (threads_update s s' i (Pruned t nh hints) c') as [Hth Hex]; [done|done|done| | |].
  { simpl. split_and!; [done..| |done]. split_and!; [apply Ha|apply Ha|]. intros l Hl. simpl.
    by destruct (al_free _ _ _ _ _ _ Ha l Hl) as (? & _ & ?). }
  { intros j cj Hne Hj. split.
    - eapply (thread_ok_frame s); [by eapply iv_thr0|simpl; lia|apply Ha|done|done| |by simpl; rewrite (al_ids _ _ _ _ _ _ Ha)].
      intros l _ Hl Hx. by apply (Hkeep l kAllocatedID).
    - pose proof (excl_of s i j _ cj Hinv Hi Hj Hne) as []. split; simpl in *; try done.
      intros l Hl Hl'. assert (slot (loc2id_ (tb s)) l = Some kAllocatedID ∧ 0 <= l < cur_loc (tb s)) as [Hx Hb].
      { by destruct (thread_locs s cj l (iv_thr0 j cj Hj) Hl'). }
      by destruct (Hkeep l kAllocatedID Hb Hx). }
  destruct (homes_update s s') as [Hh Hsl]; [done|done|apply Ha| | | |].
  { intros id l _. eapply home_keep; [done|done|done|]. simpl. by rewrite (al_ids _ _ _ _ _ _ Ha). }
  { intros l id Hb Hx [Hni _]. by apply (Hkeep l id). }
  { intros l id Hb Hx [Hni Hna]. destruct (decide (l ∈ locs)) as [Hin|Hout].
    { destruct (al_free _ _ _ _ _ _ Ha l Hin) as (_ & _ & Hx'). simpl in Hx. congruence. }
    destruct (Z.lt_ge_cases l (cur_loc (tb s))) as [Hlt|Hge].
    - split; [done|]. rewrite <- (al_same _ _ _ _ _ _ Ha); [done|lia|done].
    - simpl in *. rewrite (al_new _ _ _ _ _ _ Ha) in Hx by (done || lia). congruence. }
  split; simpl; try done; [apply Ha|by rewrite (al_ids _ _ _ _ _ _ Ha)].
Qed.

Lemma thread_ids s c id : thread_ok s c → id ∈ ids_of c → id ∈ pub s ∨ tgt_ok s id ∧ id ∈ targets c.
Proof.
  intros Hok Hin. destruct c; simpl in *; try (by apply elem_of_nil in Hin).
  - apply list_elem_of_singleton in Hin as ->. left. apply Hok.
  - apply list_elem_of_singleton in Hin as ->. right. split; [apply Hok|by left].
  - apply elem_of_cons in Hin as [->|Hin]; [right; split; [apply Hok|by left]|left].
    by destruct Hok as (_ & [_ Hp] & _); apply Hp.
Qed.

Lemma thread_ids_nonneg s c id : inv s → thread_ok s c → id ∈ ids_of c → 0 <= id.
Proof.
  intros Hinv Hok Hin. destruct (thread_ids s c id Hok Hin) as [Hp|[[? _] _]]; [|lia]. by apply (iv_pub s Hinv).
Qed.

(** A write of [id2loc] that keeps every other entry. *)
Lemma set_id2loc_spec t id l :
  0 <= id → id < Z.of_nat (length (id2loc_ t)) ∨ 2 <= id →
  ∃ t', set_id2loc t id l = Some t' ∧ slot (id2loc_ t') id = Some l ∧ (length (id2loc_ t) ≤ length (id2loc_ t'))%nat
  ∧ (∀ k x, 0 <= k → k ≠ id → slot (id2loc_ t) k = Some x → slot (id2loc_ t') k = Some x)
  ∧ loc2id_ t' = loc2id_ t ∧ cur_loc t' = cur_loc t ∧ empty_pages t' = empty_pages t.
Proof.
  intros Hid Hcov. destruct (put_spec (id2loc_ t) id l Hid Hcov) as (a & Ha & Hs & Hlen & Hrest).
  unfold set_id2loc. rewrite Ha. simpl. eexists. split; [done|]. split_and!; try done.
  intros k x Hk Hne Hx. simpl. rewrite Hrest; [done| |done]. apply slot_lt in Hx. lia.
Qed.

Lemma tables_ok_ids t t' :
  tables_ok m t → loc2id_ t' = loc2id_ t → cur_loc t' = cur_loc t → empty_pages t' = empty_pages t → tables_ok m t'.
Proof. intros [] H1 H2 H3. split; rewrite ?H1, ?H2, ?H3; done. Qed.

Lemma inv_publish s i t nh locs l tb' :
  inv s → thr s !! i = Some (Written t nh locs) → locs !! length nh = Some l → set_id2loc (tb s) t l = Some tb' →
  inv (goto (with_tb s tb') i (Published t nh locs)).
Proof.
  intros Hinv Hi Hl Hset. pose proof Hinv as []. set (s' := goto _ i _).
  destruct (iv_thr0 i _ Hi) as (Ht & Hnh & Hlocs). pose proof Ht as [Htb Htp].
  destruct (set_id2loc_spec (tb s) t l) as (tb1 & Hset' & Hs & Hlen & Hrest & H1 & H2 & H3); [lia|lia|].
  rewrite Hset in Hset'. injection Hset' as <-.
  destruct (threads_update s s' i (Written t nh locs) (Published t nh locs)) as [Hth Hex]; [done|done|done| | |].
  { simpl. split_and!; [done|done| |]; [unfold locs_ok; simpl; by rewrite H1, H2|]. by rewrite Hl. }
  { intros j cj Hne Hj. pose proof (excl_of s i j _ cj Hinv Hi Hj Hne) as Hx. split; [|by destruct Hx; split].
    pose proof (iv_thr0 j cj Hj) as Hok.
    eapply (thread_ok_frame s); [done|simpl; lia|simpl; lia|done|done|by simpl; rewrite H1|].
    intros id x Hin Hidx. apply Hrest; [| |done].
    - by eapply thread_ids_nonneg.
    - intros ->. destruct (thread_ids s cj t Hok Hin) as [|[_ Htt]]; [done|].
      apply (ex_targets _ _ Hx t); [by left|done]. }
  destruct (homes_update s s') as [Hh Hsl]; [done|done|simpl; lia| |by simpl; rewrite H1|by simpl; rewrite H1, H2; naive_solver lia|].
  { intros id k Hp. eapply home_keep; [done|done|done|]. intros x Hx. simpl. apply Hrest; [|congruence|done].
    specialize (iv_pub0 id Hp). lia. }
  split; simpl; try done; [by eapply tables_ok_ids|lia].
Qed.

Lemma zip_snoc {A B} (l : list A) (k : list B) x y :
  l !! length k = Some x → zip l (k ++ [y]) = zip l k ++ [(x, y)].
Proof.
  revert l. induction k as [|z k IH]; intros [|w l] Hl; simplify_eq/=; [by destruct l|]. by rewrite IH.
Qed.

(** A published node that thread [i] is moving is in no other thread's way. *)
Lemma moving_alone s i t nh locs orig id j cj :
  inv s → thr s !! i = Some (Moving t nh locs orig) → id ∈ nh → j ≠ i → thr s !! j = Some cj →
  id ∉ ids_of cj ∧ ∀ o, (id, o) ∉ moved cj.
Proof.
  intros Hinv Hi Hid Hne Hj. destruct (iv_thr s Hinv i _ Hi) as (Ht & [_ Hp] & _).
  pose proof (tgt_real s t Hinv Ht) as Hr. destruct (excl_of s i j _ cj Hinv Hi Hj Hne) as [Hh _ _ _ Hwr _]. simpl in *.
  assert (LVec id ∉ holds cj) as Hv by (apply Hh, vec_in_lock_list; [done|by left]).
  assert (id ∉ idx_reads cj) as Hrd by (apply Hwr, elem_of_to_lock; [done|by left]).
  split.
  - pose proof (iv_thr s Hinv j cj Hj) as Hok. intros Hin.
    destruct cj; simpl in *; try (by apply elem_of_nil in Hin); [done| |].
    + apply list_elem_of_singleton in Hin as ->. destruct Hok as ([_ Hn] & _). by destruct Hn; apply Hp.
    + destruct Hok as ([Hb Hn] & _). apply elem_of_cons in Hin as [->|Hin]; [by destruct Hn; apply Hp|].
      apply Hv, vec_in_lock_list; [by eapply tgt_real|by left].
  - intros o Ho. by destruct (moved_locked s j cj id o Hinv Hj Ho).
Qed.

Lemma inv_move s i t nh locs orig id o l tb' :
  inv s → thr s !! i = Some (Moving t nh locs orig) → nh !! length orig = Some id → locs !! length orig = Some l →
  slot (id2loc_ (tb s)) id = Some o → set_id2loc (tb s) id l = Some tb' →
  inv (goto (with_tb s tb') i (Moving t nh locs (orig ++ [o]))).
Proof.
  intros Hinv Hi Hid Hl Ho Hset. pose proof Hinv as []. set (c' := Moving t nh locs (orig ++ [o])). set (s' := goto _ i c').
  destruct (iv_thr0 i _ Hi) as (Ht & [Hnd Hp] & Hlocs & Htl & Hlen & Hdone). pose proof Ht as [Htb Htp].
  assert (id ∈ nh) as Hin by (by eapply list_elem_of_lookup_2). pose proof (iv_pub0 id (Hp id Hin)) as Hb.
  destruct (set_id2loc_spec (tb s) id l) as (tb1 & Hset' & Hs & Hlen' & Hrest & H1 & H2 & H3);
    [lia|left; apply slot_lt in Ho; lia|]. rewrite Hset in Hset'. injection Hset' as <-.
  pose proof (lookup_lt_Some _ _ _ Hid) as Hlt.
  destruct (threads_update s s' i (Moving t nh locs orig) c') as [Hth Hex]; [done|done|done| | |].
  { simpl. split_and!; [done|done|unfold locs_ok; simpl; by rewrite H1, H2| |rewrite length_app; simpl; lia|].
    - destruct (locs !! length nh) as [x|] eqn:Hx; [|by destruct Htl]. destruct Htl as [_ Htl]. split; [done|].
      apply Hrest; [lia| |done]. intros ->. by destruct Htp; apply Hp.
    - intros j id' Hj Hj'. rewrite length_app in Hj. simpl in Hj. destruct (decide (j = length orig)) as [->|Hne].
      + rewrite Hid in Hj'. injection Hj' as <-. by rewrite Hl.
      + destruct (Hdone j id') as [Hx Hd]; [lia|done|]. destruct (locs !! j) as [y|]; [|done]. split; [done|].
        assert (id' ∈ nh) as Hin' by (by eapply list_elem_of_lookup_2). specialize (iv_pub0 id' (Hp id' Hin')).
        apply Hrest; [lia| |done]. intros ->. apply Hne. by eapply NoDup_lookup. }
  { intros j cj Hne Hj. pose proof (excl_of s i j _ cj Hinv Hi Hj Hne) as Hx. split; [|by destruct Hx; split].
    destruct (moving_alone s i t nh locs orig id j cj) as [Hni _]; [done..|].
    eapply (thread_ok_frame s); [by eapply iv_thr0|simpl; lia|simpl; lia|done|done|by simpl; rewrite H1|].
    intros k x Hk Hkx. apply Hrest; [exact (thread_ids_nonneg s cj k Hinv (iv_thr0 j cj Hj) Hk)|congruence|done]. }
  assert (∀ x, all_moved s' x ↔ all_moved s x ∨ x = (id, o)) as Hmoved.
  { intros x. rewrite (all_moved_insert s s' i _ c' x Hi eq_refl).
    rewrite (all_moved_insert s s i _ (Moving t nh locs orig) x Hi) by (by rewrite list_insert_id). simpl. rewrite (zip_snoc nh orig id o Hid), elem_of_app, list_elem_of_singleton. tauto. }
  destruct (homes_update s s') as [Hh Hsl]; [done|done|simpl; lia| |by simpl; rewrite H1|by simpl; rewrite H1, H2; naive_solver lia|].
  { intros id' k Hp' [Hx|[Hx Hk]]; [left; apply Hmoved; by left|]. destruct (decide (id' = id)) as [->|Hne].
    - left. apply Hmoved. right. congruence.
    - right. split; [|simpl; apply Hrest; [by apply iv_pub0|done|done]].
      intros o' [Ho'|Heq]%Hmoved; [by apply (Hx o')|congruence]. }
  split; simpl; try done; [by eapply tables_ok_ids|lia].
Qed.

(** A node has one home. *)
Lemma moved_fun s id o o' : inv s → all_moved s (id, o) → all_moved s (id, o') → o = o'.
Proof.
  intros Hinv (i & c & Hi & Hx) (j & c' & Hj & Hx'). destruct (decide (j = i)) as [->|Hne].
  - rewrite Hi in Hj. injection Hj as <-. destruct (moved_in_nh c _ Hx) as (t & nh & locs & orig & -> & _).
    destruct (iv_thr s Hinv i _ Hi) as (_ & [Hnd _] & _). simpl in *.
    apply list_elem_of_lookup in Hx as [a Ha], Hx' as [b Hb].
    apply lookup_zip_with_Some in Ha as (? & ? & Ha & Ha1 & Ha2), Hb as (? & ? & Hb & Hb1 & Hb2). simplify_eq.
    assert (a = b) as -> by (by eapply NoDup_lookup). congruence.
  - destruct (moved_in_nh c _ Hx) as (t & nh & locs & orig & -> & Hin).
    by destruct (moving_alone s i t nh locs orig id j c') as [_ Hn]; [..|destruct (Hn o')].
Qed.

Lemma home_fun s id l l' : inv s → home s id l → home s id l' → l = l'.
Proof.
  intros Hinv [Hx|[Hn Hs]] [Hx'|[Hn' Hs']]; [by eapply moved_fun|by destruct (Hn' l)|by destruct (Hn l')|congruence].
Qed.

(** The old records of the moved neighbours hold them, and are distinct. *)
Lemma moved_records s i t nh locs orig j id o :
  inv s → thr s !! i = Some (Moving t nh locs orig) → nh !! j = Some id → orig !! j = Some o →
  id ∈ pub s ∧ home s id o ∧ 0 <= o < cur_loc (tb s) ∧ slot (loc2id_ (tb s)) o = Some id.
Proof.
  intros Hinv Hi Hid Ho. destruct (iv_thr s Hinv i _ Hi) as (_ & [_ Hp] & _).
  assert (id ∈ pub s) as Hpub by (apply Hp; by eapply list_elem_of_lookup_2).
  assert (home s id o) as Hh.
  { left. exists i, (Moving t nh locs orig). split; [done|]. simpl. apply list_elem_of_lookup. exists j.
    apply lookup_zip_with_Some. by exists id, o. }
  destruct (iv_home s Hinv id Hpub) as (l & Hl & Hb & Hx). by rewrite (home_fun s id o l Hinv Hh Hl).
Qed.

Lemma real_pub s id : inv s → id ∈ pub s → real id.
Proof. intros [] Hid%iv_pub0. unfold real, kInvalidID, kAllocatedID in *. lia. Qed.

Lemma commit_relocates s i t nh locs orig :
  inv s → thr s !! i = Some (Moving t nh locs orig) → length orig = length nh →
  ∃ tb', erase_and_set_loc m (tb s) orig locs (nh ++ [t]) = Some tb' ∧ relocated m (tb s) orig locs (nh ++ [t]) tb'.
Proof.
  intros Hinv Hi Hlen. destruct (iv_thr s Hinv i _ Hi) as (Ht & [Hnd Hp] & (Hll & Hlnd & Hlocs) & _).
  assert (∀ o, o ∈ orig → ∃ j id, nh !! j = Some id ∧ orig !! j = Some o) as Hof.
  { intros o [j Hj]%list_elem_of_lookup. pose proof (lookup_lt_Some _ _ _ Hj) as Hlt. rewrite Hlen in Hlt.
    apply lookup_lt_is_Some in Hlt as [id Hid]. by exists j, id. }
  apply (erase_and_set_relocates m Hm); [done|by apply iv_tb|done|rewrite length_app; simpl; lia| |done| |].
  - apply Forall_app. split; [|by apply Forall_singleton; eapply tgt_real]. apply Forall_forall. intros id Hid.
    by apply (real_pub s id Hinv), Hp.
  - apply NoDup_alt. intros a b o Ha Hb.
    assert (∃ ida idb, nh !! a = Some ida ∧ nh !! b = Some idb) as (ida & idb & Hida & Hidb).
    { apply lookup_lt_Some in Ha, Hb. rewrite Hlen in Ha, Hb. apply lookup_lt_is_Some in Ha as [x ?], Hb as [y ?]. by exists x, y. }
    destruct (moved_records s i t nh locs orig a ida o) as (_ & _ & _ & Hsa); [done..|].
    destruct (moved_records s i t nh locs orig b idb o) as (_ & _ & _ & Hsb); [done..|].
    assert (ida = idb) as -> by congruence. exact (NoDup_lookup nh a b idb Hnd Hida Hidb).
  - intros o Ho. destruct (Hof o Ho) as (j & id & Hid & Hj).
    destruct (moved_records s i t nh locs orig j id o) as (Hpub & _ & Hb & Hs); [done..|]. split; [done|].
    exists id. split; [done|]. by apply (real_pub s).
Qed.

(** The commit: the tables name the new records, the target is published. *)
Section commit.
Context (s : state) (i : nat) (t : Z) (nh locs orig : list Z) (tb' : LocTables).
Context (Hinv : inv s) (Hi : thr s !! i = Some (Moving t nh locs orig)) (Hlen : length orig = length nh).
Context (Hr : relocated m (tb s) orig locs (nh ++ [t]) tb').

Local Abbreviation c' := (Committed t nh locs).
Local Abbreviation s' := (mkSt tb' (cur_id s) ({[t]} ∪ pub s) (disk s) (<[i := c']> (thr s))).

Lemma commit_orig o id : slot (loc2id_ (tb s)) o = Some id → id ∉ nh → o ∉ orig.
Proof.
  intros Ho Hn [j Hj]%list_elem_of_lookup. pose proof (lookup_lt_Some _ _ _ Hj) as Hlt. rewrite Hlen in Hlt.
  apply lookup_lt_is_Some in Hlt as [id' Hid].
  destruct (moved_records s i t nh locs orig j id' o) as (_ & _ & _ & Hs); [done..|].
  apply Hn. replace id with id' by congruence. by eapply list_elem_of_lookup_2.
Qed.

Lemma commit_moved x : all_moved s' x → all_moved s x ∧ x.1 ∉ nh ∧ x.1 ∈ pub s.
Proof.
  intros Hx. apply (all_moved_insert s s' i _ c' x Hi eq_refl) in Hx as [Hx|(j & cj & Hne & Hj & Hx)]; [by apply elem_of_nil in Hx|].
  split; [by exists j, cj|]. split.
  - intros Hin. destruct x as [id o]. by destruct (moving_alone s i t nh locs orig id j cj) as [_ Hn]; [..|apply (Hn o)].
  - destruct (moved_in_nh cj _ Hx) as (t' & nh' & locs' & orig' & -> & Hin).
    destruct (iv_thr s Hinv j _ Hj) as (_ & [_ Hp'] & _). by apply Hp'.
Qed.

Lemma commit_new j id l :
  (nh ++ [t]) !! j = Some id → locs !! j = Some l →
  id ∈ {[t]} ∪ pub s ∧ home s' id l ∧ 0 <= l < cur_loc tb' ∧ slot (loc2id_ tb') l = Some id.
Proof.
  intros Hj Hl. destruct (iv_thr s Hinv i _ Hi) as ([_ Htp] & [Hnd Hp] & (_ & _ & Hlall) & [_ Htl] & _ & Hdone).
  assert (0 <= l < cur_loc tb') as Hb.
  { rewrite (rl_cur _ _ _ _ _ _ Hr). apply Hlall. by eapply list_elem_of_lookup_2. }
  split; [|split; [|split; [done|by eapply (rl_new _ _ _ _ _ _ Hr)]]].
  - apply lookup_app_Some in Hj as [Hj|[_ Hj]]; [|apply list_lookup_singleton_Some in Hj as [_ <-]; set_solver].
    apply elem_of_union. right. apply Hp. by eapply list_elem_of_lookup_2.
  - right. simpl. rewrite (rl_ids _ _ _ _ _ _ Hr). apply lookup_app_Some in Hj as [Hj|[Hge Hj]].
    + split; [intros o (_ & Ho & _)%commit_moved; apply Ho; by eapply list_elem_of_lookup_2|].
      destruct (Hdone j id) as [_ ->]; [|done|done]. rewrite Hlen. by eapply lookup_lt_Some.
    + apply list_lookup_singleton_Some in Hj as [Hj <-]. replace j with (length nh) in Hl by lia.
      split; [|by rewrite Htl]. intros o (_ & _ & Hx)%commit_moved. done.
Qed.

Lemma commit_old_home id l : id ∉ nh → home s id l → home s' id l.
Proof.
  intros Hn [(j & cj & Hj & Hx)|[Hx Hs]].
  - left. apply (all_moved_insert s s' i _ c' (id, l) Hi eq_refl). right. exists j, cj. split_and!; [|done..].
    intros ->. rewrite Hi in Hj. injection Hj as <-. destruct (moved_in_nh _ _ Hx) as (? & ? & ? & ? & [=] & ?). by simplify_eq.
  - right. split; [intros o [Ho _]%commit_moved; by apply (Hx o)|]. simpl. by rewrite (rl_ids _ _ _ _ _ _ Hr).
Qed.

Lemma commit_threads j cj : j ≠ i → thr s !! j = Some cj → thread_ok s' cj ∧ excl c' cj.
Proof.
  intros Hne Hj. destruct (iv_thr s Hinv i _ Hi) as (_ & [_ Hp] & _).
  pose proof (excl_of s i j _ cj Hinv Hi Hj Hne) as Hx. split.
  - eapply (thread_ok_frame s); [by eapply iv_thr|simpl; lia|simpl; by rewrite (rl_cur _ _ _ _ _ _ Hr)|simpl; set_solver| | |].
    + intros t' Ht' Hn. simpl. apply not_elem_of_union. split; [|done]. intros ->%elem_of_singleton.
      apply (ex_targets _ _ Hx t); [by left|done].
    + intros l Hl Hb Ha. simpl. rewrite (rl_rest _ _ _ _ _ _ Hr); [done|lia| |].
      * eapply commit_orig; [done|]. intros Hin%Hp%(real_pub s); [|done]. by destruct Hin.
      * intros Hin. by apply (ex_locs _ _ Hx l).
    + intros id x _. simpl. by rewrite (rl_ids _ _ _ _ _ _ Hr).
  - eapply excl_mono; [..|exact Hx]; try done; by intros ? ?%elem_of_nil.
Qed.

Lemma commit_homes id : id ∈ {[t]} ∪ pub s → ∃ l, home s' id l ∧ 0 <= l < cur_loc tb' ∧ slot (loc2id_ tb') l = Some id.
Proof.
  intros Hid. destruct (iv_thr s Hinv i _ Hi) as (_ & _ & (Hll & _ & Hlall) & _).
  destruct (decide (id ∈ nh ++ [t])) as [[j Hj]%list_elem_of_lookup|Hn].
  - destruct (lookup_lt_is_Some_2 locs j) as [l Hl].
    { apply lookup_lt_Some in Hj. rewrite length_app in Hj. simpl in Hj. lia. }
    exists l. by destruct (commit_new j id l Hj Hl) as (_ & ? & ? & ?).
  - apply not_elem_of_app in Hn as [Hn Hnt]. apply elem_of_union in Hid as [?|Hid]; [set_solver|].
    destruct (iv_home s Hinv id Hid) as (l & Hl & Hb & Hs). exists l. rewrite (rl_cur _ _ _ _ _ _ Hr).
    split_and!; [by apply commit_old_home|lia..|].
    rewrite (rl_rest _ _ _ _ _ _ Hr); [done|lia|by eapply commit_orig|]. intros Hin. destruct (Hlall l Hin) as [_ Ha].
    rewrite Ha in Hs. injection Hs as <-. by destruct (real_pub s kAllocatedID Hinv Hid).
Qed.

Lemma commit_slots l id :
  0 <= l < cur_loc tb' → slot (loc2id_ tb') l = Some id → id ≠ kInvalidID → id ≠ kAllocatedID →
  id ∈ {[t]} ∪ pub s ∧ home s' id l.
Proof.
  intros Hb Hs Hni Hna. rewrite (rl_cur _ _ _ _ _ _ Hr) in Hb.
  destruct (iv_thr s Hinv i _ Hi) as (_ & _ & (Hll & _ & Hlall) & _).
  destruct (decide (l ∈ locs)) as [[j Hj]%list_elem_of_lookup|Hnl].
  - destruct (lookup_lt_is_Some_2 (nh ++ [t]) j) as [id' Hj'].
    { rewrite length_app. simpl. apply lookup_lt_Some in Hj. lia. }
    destruct (commit_new j id' l Hj' Hj) as (Hpu & Hho & _ & Hs'). by replace id with id' by congruence.
  - destruct (decide (l ∈ orig)) as [Ho|Ho]; [rewrite (rl_old _ _ _ _ _ _ Hr) in Hs by done; congruence|].
    rewrite (rl_rest _ _ _ _ _ _ Hr) in Hs by (done || lia). destruct (iv_slots s Hinv l id) as [Hpu Hho]; [done..|].
    split; [set_solver|]. apply commit_old_home; [|done]. intros [j Hj]%list_elem_of_lookup. apply Ho.
    destruct (lookup_lt_is_Some_2 orig j) as [o Hoj]; [rewrite Hlen; by eapply lookup_lt_Some|].
    destruct (moved_records s i t nh locs orig j id o) as (_ & Ho' & _); [done..|].
    rewrite (home_fun s id l o Hinv Hho Ho'). by eapply list_elem_of_lookup_2.
Qed.

Lemma inv_commit : inv s'.
Proof.
  destruct (threads_update s s' i _ c' Hinv Hi eq_refl) as [Hth Hex]; [done|apply commit_threads|].
  destruct (iv_thr s Hinv i _ Hi) as ([Htb _] & _). pose proof Hinv as [].
  split; try done; simpl; [apply Hr|by rewrite (rl_ids _ _ _ _ _ _ Hr)| |apply commit_homes|apply commit_slots].
  intros id [->%elem_of_singleton|Hid]%elem_of_union; [lia|by apply iv_pub0].
Qed.
End commit.

(** No access of the tables fails. *)
Lemma alloc_succeeds s i t nh hints :
  inv s → thr s !! i = Some (Pruned t nh hints) → room s (length nh + 1) →
  ∃ locs need tb', alloc_loc m (tb s) (length nh + 1) hints ∅ = Some (locs, need, tb')
  ∧ allocated m (tb s) (length nh + 1) locs need tb'.
Proof.
  intros Hinv Hi Hroom. destruct (iv_thr s Hinv i _ Hi) as (_ & _ & Hh).
  destruct (alloc_loc_allocates m Hm (tb s) (length nh + 1) hints ∅) as (locs & need & tb' & Heq & _ & Ha);
    [by apply iv_tb|lia|done|done|]. by exists locs, need, tb'.
Qed.

Lemma publish_succeeds s i t nh locs :
  inv s → thr s !! i = Some (Written t nh locs) → ∃ l tb', locs !! length nh = Some l ∧ set_id2loc (tb s) t l = Some tb'.
Proof.
  intros Hinv Hi. destruct (iv_thr s Hinv i _ Hi) as ([Ht _] & _ & (Hlen & _)).
  destruct (lookup_lt_is_Some_2 locs (length nh)) as [l Hl]; [lia|]. exists l.
  destruct (set_id2loc_spec (tb s) t l) as (tb' & Hset & _); [lia|lia|]. by exists tb'.
Qed.

Lemma id_known s id : inv s → id ∈ pub s → (∀ o, ¬ all_moved s (id, o)) → ∃ l, id2loc (tb s) id = Some l ∧ home s id l.
Proof.
  intros Hinv Hid Hn. destruct (iv_home s Hinv id Hid) as (l & Hh & _). exists l. split; [|done].
  destruct Hh as [Hx|[_ Hs]]; [by destruct (Hn l)|]. apply slot_id2loc; [|done]. by apply (iv_pub s Hinv).
Qed.

Lemma not_yet_moved s i t nh locs orig id :
  inv s → thr s !! i = Some (Moving t nh locs orig) → nh !! length orig = Some id → ∀ o, ¬ all_moved s (id, o).
Proof.
  intros Hinv Hi Hid o (j & c & Hj & Hx). destruct (iv_thr s Hinv i _ Hi) as (_ & [Hnd _] & _).
  destruct (decide (j = i)) as [->|Hne].
  - rewrite Hi in Hj. injection Hj as <-. simpl in Hx. apply list_elem_of_lookup in Hx as [k Hk].
    apply lookup_zip_with_Some in Hk as (x & y & [= <- <-] & Hk & Ho).
    assert (k = length orig) as -> by exact (NoDup_lookup nh k _ id Hnd Hk Hid).
    apply lookup_lt_Some in Ho. lia.
  - destruct (moving_alone s i t nh locs orig id j c) as [_ Hn]; [done|done|by eapply list_elem_of_lookup_2|done|done|].
    by apply (Hn o).
Qed.

Lemma move_succeeds s i t nh locs orig :
  inv s → thr s !! i = Some (Moving t nh locs orig) → length orig ≠ length nh →
  ∃ id o l tb', nh !! length orig = Some id ∧ locs !! length orig = Some l ∧ id2loc (tb s) id = Some o
  ∧ set_id2loc (tb s) id l = Some tb'.
Proof.
  intros Hinv Hi Hlen. destruct (iv_thr s Hinv i _ Hi) as (_ & [_ Hp] & (Hll & _) & _ & Hle & _).
  destruct (lookup_lt_is_Some_2 nh (length orig)) as [id Hid]; [lia|].
  destruct (lookup_lt_is_Some_2 locs (length orig)) as [l Hl]; [lia|].
  assert (id ∈ pub s) as Hpub by (apply Hp; by eapply list_elem_of_lookup_2).
  destruct (id_known s id) as (o & Ho & _); [done|done|by eapply not_yet_moved|].
  destruct (set_id2loc_spec (tb s) id l) as (tb' & Hset & _).
  { by apply (iv_pub s Hinv). }
  { left. apply id2loc_slot, slot_lt in Ho. lia. }
  by exists id, o, l, tb'.
Qed.

Lemma idle_id_known s i id : inv s → thr s !! i = Some Idle → id ∈ pub s → id2loc (tb s) id ≠ None.
Proof.
  intros Hinv Hi Hid. destruct (iv_home s Hinv id Hid) as (l & Hh & _). pose proof (iv_pub s Hinv id Hid).
  assert (∃ x, slot (id2loc_ (tb s)) id = Some x) as [x Hx]; [|by rewrite (slot_id2loc _ _ x) by (done || lia)].
  destruct Hh as [(j & c & Hj & Hx)|[_ Hs]]; [|by exists l].
  destruct (moved_in_nh c _ Hx) as (t & nh & locs & orig & -> & _). simpl in Hx.
  apply list_elem_of_lookup in Hx as [k Hk]. apply lookup_zip_with_Some in Hk as (a & b & [= <- <-] & Hk & Ho).
  destruct (iv_thr s Hinv j _ Hj) as (_ & _ & _ & _ & _ & Hd). destruct (Hd k id) as [Hn Hs]; [by eapply lookup_lt_Some|done|].
  destruct (locs !! k) as [y|]; [by exists y|done].
Qed.

Lemma conc_step_inv s i s' : inv s → step s i s' → inv s'.
Proof.
  intros Hinv Hst. destruct Hst as [id loc|id loc| |t nh hints|t nh hints locs need tb' Hi Hroom Heq|t nh locs need held x todo
    |t nh locs need held|t nh locs need Hi|t nh locs l tb'|t nh locs|t nh locs orig id o l tb' Hi Hid Hl Ho
    |t nh locs orig tb' Hi Hlen Heq|t nh locs Hi|t nh locs Hi|locs Hi|c Hi Hc].
  - by apply inv_read.
  - by local_step Hinv H; try intros ? ?%elem_of_nil.
  - by apply inv_begin.
  - by apply inv_search.
  - destruct (alloc_succeeds s i t nh hints) as (locs' & need' & tb1 & Heq' & Ha); [done..|].
    rewrite Heq in Heq'. injection Heq' as <- <- <-. by eapply inv_alloc.
  - by apply inv_lock.
  - by eapply inv_locked.
  - apply (inv_disk (goto s i (Written t nh locs))). by local_step Hinv Hi.
  - by eapply inv_publish.
  - by apply inv_lock_idx.
  - eapply inv_move; [done..|by apply id2loc_slot|done].
  - destruct (commit_relocates s i t nh locs orig) as (tb1 & Heq' & Hr); [done..|].
    rewrite Heq in Heq'. injection Heq' as <-. by eapply inv_commit.
  - by local_step Hinv Hi; try intros ? ?%elem_of_nil.
  - local_step Hinv Hi; [done|]. intros x Hx. simpl. apply elem_of_app. by left.
  - by local_step Hinv Hi; try intros ? ?%elem_of_nil.
  - exfalso. destruct c; try done.
    + destruct Hc as (id & Hid & Hn). by eapply idle_id_known.
    + destruct Hc as [Hroom Hn]. destruct (alloc_succeeds s i t nh hints) as (? & ? & ? & ? & _); [done..|]. congruence.
    + destruct (publish_succeeds s i t nh locs) as (l & tb' & Hl & Hs); [done..|]. rewrite Hl in Hc. congruence.
    + destruct (Nat.eqb_spec (length orig) (length nh)).
      * destruct (commit_relocates s i t nh locs orig) as (tb1 & ? & _); [done..|]. congruence.
      * destruct (move_succeeds s i t nh locs orig) as (id & o & l & tb' & Hid & Hl & Ho & Hs); [done..|].
        rewrite Hid, Hl in Hc. destruct Hc; congruence.
Qed.

(** ** Every interleaving *)

Context (Hpoints : 2 <= npoints m) (Hfits : fits m (init_cur_loc m)).

Lemma conc_init_inv n : inv (init n).
Proof.
  assert (∀ x, ¬ all_moved (init n) x) as Hmv.
  { intros x (j & c & Hj & Hx). simpl in Hj. apply lookup_replicate in Hj as [-> _]. by apply elem_of_nil in Hx. }
  destruct (init_cur_loc_spec m Hm) as [_ Hb]; [lia|]. pose proof Hfits as [Hc _].
  assert (∀ id, id ∈ pub (init n) ↔ 0 <= id < npoints m) as Hpub.
  { intros id. simpl. rewrite elem_of_list_to_set, elem_of_seqZ. lia. }
  split.
  - by apply equal_mapping_ok.
  - simpl. lia.
  - simpl. rewrite length_seqZ. lia.
  - intros id. by rewrite Hpub.
  - intros id Hid%Hpub. exists id. destruct (equal_mapping_slots m id) as [Hs _]; [lia|lia|]. destruct Hs as [H1 H2]; [lia|].
    split; [right; split; [intros o; apply Hmv|done]|]. simpl. split; [lia|done].
  - intros l id Hl Hs Hni _. destruct (equal_mapping_slots m l) as [H1 H2]; [lia|lia|]. simpl in Hl, Hs, H1, H2.
    destruct (Z.lt_ge_cases l (npoints m)) as [Hlt|Hge]; [|rewrite H2 in Hs by lia; congruence].
    destruct (H1 Hlt) as [H1a H1b]. replace id with l by congruence. split; [apply Hpub; lia|].
    right. split; [intros o; apply Hmv|done].
  - intros i c Hi. simpl in Hi. by apply lookup_replicate in Hi as [-> _].
  - intros i j ci cj _ Hi Hj. simpl in Hi, Hj. apply lookup_replicate in Hi as [-> _], Hj as [-> _].
    split; simpl; by intros ? ?%elem_of_nil.
Qed.

Lemma conc_reachable_inv n s : rtc any_step (init n) s → inv s.
Proof.
  revert s. apply rtc_ind_r; [apply conc_init_inv|]. intros s s' _ [i Hst] Hinv. by eapply conc_step_inv.
Qed.

(** An id that is not published is the target of a running insert. *)
Definition covers (s : state) : Prop :=
  ∀ id, 0 <= id < cur_id s → id ∈ pub s ∨ ∃ j c, thr s !! j = Some c ∧ id ∈ targets c.

Lemma covers_update s s' i c c' :
  covers s → thr s !! i = Some c → thr s' = <[i := c']> (thr s) → (∀ id, id ∈ pub s → id ∈ pub s') →
  (∀ id, id ∈ targets c → id ∈ targets c' ∨ id ∈ pub s') →
  (∀ id, 0 <= id < cur_id s' → 0 <= id < cur_id s ∨ id ∈ targets c') → covers s'.
Proof.
  intros Hc Hi Hthr Hpub Htgt Hid id Hb. unfold covers in Hc. rewrite Hthr.
  assert (id ∈ targets c' → ∃ j cj, <[i := c']> (thr s) !! j = Some cj ∧ id ∈ targets cj) as Hown.
  { intros Hin. exists i, c'. split; [|done]. apply list_lookup_insert_eq. by eapply lookup_lt_Some. }
  destruct (Hid id Hb) as [Hb'|Hin]; [|right; by apply Hown].
  destruct (Hc id Hb') as [Hp|(j & cj & Hj & Hx)]; [left; by apply Hpub|].
  destruct (decide (j = i)) as [->|Hne].
  - rewrite Hi in Hj. injection Hj as <-. destruct (Htgt id Hx) as [Hin|Hp]; [right; by apply Hown|by left].
  - right. exists j, cj. by rewrite list_lookup_insert_ne.
Qed.

Lemma step_covers s i s' : inv s → covers s → step s i s' → covers s'.
Proof.
  intros Hinv Hc Hst. pose proof (conc_step_inv s i s' Hinv Hst) as Hinv'.
  destruct Hst as [| | | | | | | | | | |t nh locs orig tb' Hi Hlen Heq| | | |c Hi Hcr];
    try (eapply covers_update; [exact Hc|eassumption|reflexivity|done|by left|by left]).
  - eapply covers_update; [exact Hc|eassumption|reflexivity|done|by intros ? ?%elem_of_nil|].
    simpl. intros id Hb. destruct (decide (id = cur_id s)) as [->|]; [right; by left|left; lia].
  - eapply covers_update; [exact Hc|eassumption|reflexivity|simpl; set_solver| |by left].
    intros id ->%list_elem_of_singleton. right. simpl. set_solver.
  - exfalso. apply (iv_thr _ Hinv' i Crashed). simpl. apply list_lookup_insert_eq. by eapply lookup_lt_Some.
Qed.

Lemma reachable_covers n s : rtc any_step (init n) s → inv s ∧ covers s.
Proof.
  revert s. apply rtc_ind_r.
  - split; [apply conc_init_inv|]. intros id Hb. left. simpl in *. rewrite elem_of_list_to_set, elem_of_seqZ. lia.
  - intros s s' _ [i Hst] [Hinv Hc]. split; [by eapply conc_step_inv|by eapply step_covers].
Qed.

Definition is_idle (c : pc) : bool := match c with Idle => true | _ => false end.
Definition idle (s : state) : Prop := ∀ i c, thr s !! i = Some c → c = Idle.

Lemma idle_not_moved s x : idle s → ¬ all_moved s x.
Proof. intros Hid (j & c & Hj & Hx). rewrite (Hid j c Hj) in Hx. by apply elem_of_nil in Hx. Qed.

Lemma loc2id_slot t l : 0 <= l → cur_loc t <= Z.of_nat (length (loc2id_ t)) → l < cur_loc t → loc2id t l = slot (loc2id_ t) l.
Proof. intros. unfold loc2id. by rewrite (proj2 (Z.ltb_ge _ _)) by lia. Qed.

Lemma verify_ids_ok t ids :
  (∀ id, id ∈ ids → ∃ l, id2loc t id = Some l ∧ l < cur_loc t ∧ loc2id t l = Some id) → verify_ids t ids = Some ().
Proof.
  induction ids as [|id ids IH]; intros H; simpl; [done|]. destruct (H id) as (l & -> & Hl & Hi); [left|]. simpl.
  rewrite (proj2 (Z.leb_gt _ _) Hl), Hi. simpl. rewrite Z.eqb_refl. simpl. apply IH. intros x Hx. apply H. by right.
Qed.

Lemma verify_locs_ok t locs :
  (∀ l, l ∈ locs → ∃ id, loc2id t l = Some id ∧ (real id → id2loc t id = Some l)) → verify_locs t locs = Some true.
Proof.
  induction locs as [|l locs IH]; intros H; simpl; [done|]. destruct (H l) as (id & -> & Hid); [left|]. simpl.
  rewrite IH by (intros x Hx; apply H; by right).
  destruct ((id =? kInvalidID) || (id =? kAllocatedID)) eqn:Hr; [done|]. apply orb_false_iff in Hr as [?%Z.eqb_neq ?%Z.eqb_neq].
  rewrite Hid by done. simpl. by rewrite Z.eqb_refl.
Qed.

(** ** The order of the locks *)

Global Instance lock_lt_dec x y : Decision (lock_lt x y).
Proof. destruct x, y; simpl; apply _. Defined.

Lemma lock_lt_trans x y z : lock_lt x y → lock_lt y z → lock_lt x z.
Proof. destruct x, y, z; simpl; try done; lia. Qed.

Lemma lock_lt_irrefl x : ¬ lock_lt x x.
Proof. destruct x; simpl; lia. Qed.

Lemma sorted_map (f : Z → lock) l :
  (∀ x y, x < y → lock_lt (f x) (f y)) → StronglySorted Z.lt l → StronglySorted lock_lt (map f l).
Proof.
  intros Hf. induction 1 as [|x l Hs IH Hx]; simpl; constructor; [done|]. apply Forall_fmap.
  eapply Forall_impl; [done|]. simpl. auto.
Qed.

Lemma lock_list_sorted t nh locs : StronglySorted lock_lt (lock_list t nh locs).
Proof.
  unfold lock_list. assert (StronglySorted lock_lt (map LPage (lock_pages locs))) as Hp
    by (apply sorted_map; [done|apply sort_unique_sorted]).
  assert (StronglySorted lock_lt (map LVec (to_lock t nh))) as Hv by (apply sorted_map; [done|apply sort_unique_sorted]).
  revert Hp. induction (lock_pages locs) as [|p l IH]; simpl; [done|]. intros [Hs Hf]%StronglySorted_inv.
  constructor; [by apply IH|]. apply Forall_app. split; [done|]. apply Forall_fmap, Forall_forall. done.
Qed.

Lemma held_before_next held x todo t nh locs y :
  held ++ x :: todo = lock_list t nh locs → y ∈ held → lock_lt y x.
Proof.
  intros Heq Hy. pose proof (lock_list_sorted t nh locs) as Hs. rewrite <- Heq in Hs. clear Heq.
  induction held as [|z held IH]; [by apply elem_of_nil in Hy|]. simpl in Hs. apply StronglySorted_inv in Hs as [Hs Hf].
  apply elem_of_cons in Hy as [->|Hy]; [|by apply IH]. rewrite Forall_forall in Hf. apply Hf. set_solver.
Qed.

Definition can_step (s : state) : Prop := ∃ i c s', thr s !! i = Some c ∧ c ≠ Idle ∧ step s i s'.

Lemma runs s i c s' : thr s !! i = Some c → c ≠ Idle → step s i s' → can_step s.
Proof. intros. by exists i, c, s'. Qed.

Lemma moving_runs s i t nh locs orig : inv s → thr s !! i = Some (Moving t nh locs orig) → can_step s.
Proof.
  intros Hinv Hi. destruct (decide (length orig = length nh)) as [Hlen|Hlen].
  - destruct (commit_relocates s i t nh locs orig) as (tb' & Heq & _); [done..|].
    eapply runs; [exact Hi|done|by eapply step_commit].
  - destruct (move_succeeds s i t nh locs orig) as (? & ? & ? & ? & ? & ? & ? & ?); [done..|].
    eapply runs; [exact Hi|done|by eapply step_move].
Qed.

(** A thread that holds or reads an index lock can go on. *)
Lemma idx_holder_runs s j c id :
  inv s → thr s !! j = Some c → id ∈ idx_writes c ∨ id ∈ idx_reads c → can_step s.
Proof.
  intros Hinv Hj Hx. destruct c; simpl in Hx; try (destruct Hx as [Hx|Hx]; by apply elem_of_nil in Hx).
  - eapply runs; [exact Hj|done|by econstructor].
  - by eapply moving_runs.
  - eapply runs; [exact Hj|done|by econstructor].
Qed.

(** A thread that is not waiting for a lock can go on. *)
Lemma thread_runs s i c :
  inv s → thr s !! i = Some c → c ≠ Idle →
  (∀ t nh hints, c = Pruned t nh hints → room s (length nh + 1)) →
  can_step s ∨ (∃ t nh locs need held x todo, c = Locking t nh locs need held (x :: todo)
                 ∧ ∃ j cj, thr s !! j = Some cj ∧ x ∈ holds cj).
Proof.
  intros Hinv Hi Hne Hroom. pose proof (iv_thr s Hinv i c Hi) as Hok.
  destruct c as [|id loc|t|t nh hints|t nh locs need held [|x todo]|t nh locs need|t nh locs|t nh locs|t nh locs orig
                 |t nh locs|t nh locs|locs|]; try done; try (left; eapply runs; [exact Hi|done|by econstructor]).
  - left. eapply runs; [exact Hi|done|]. eapply (step_search s i t [] []); [done|apply NoDup_nil_2| |done].
    by intros ? ?%elem_of_nil.
  - destruct (alloc_succeeds s i t nh hints) as (? & ? & ? & ? & _); [done|done|by eapply Hroom|].
    left. eapply runs; [exact Hi|done|]. eapply step_alloc; [done|by eapply Hroom|done].
  - destruct (decide (Exists (λ c, x ∈ holds c) (thr s))) as [Hex|Hno].
    + right. apply Exists_exists in Hex as (cj & [j Hj]%list_elem_of_lookup & Hx).
      exists t, nh, locs, need, held, x, todo. split; [done|by exists j, cj].
    + left. eapply runs; [exact Hi|done|]. eapply step_lock; [done|]. intros j cj Hj Hx. apply Hno.
      apply Exists_exists. exists cj. split; [by eapply list_elem_of_lookup_2|done].
  - destruct (publish_succeeds s i t nh locs) as (l & tb' & Hl & Hs); [done..|].
    left. eapply runs; [exact Hi|done|by eapply step_publish].
  - left. destruct (decide (Exists (λ c, Exists (λ id, id ∈ idx_writes c ∨ id ∈ idx_reads c) (to_lock t nh)) (thr s))) as [Hex|Hno].
    + apply Exists_exists in Hex as (cj & [j Hj]%list_elem_of_lookup & (id & Hid & Hx)%Exists_exists). by eapply idx_holder_runs.
    + eapply runs; [exact Hi|done|]. apply step_lock_idx; [done|]. intros id Hid j cj Hj.
      assert (¬ (id ∈ idx_writes cj ∨ id ∈ idx_reads cj)); [|tauto]. intros Hx. apply Hno. apply Exists_exists. exists cj.
      split; [by eapply list_elem_of_lookup_2|]. apply Exists_exists. by exists id.
  - left. by eapply moving_runs.
Qed.

Lemma filter_length_impl (P Q : lock → Prop) `{∀ x, Decision (P x), ∀ x, Decision (Q x)} l :
  (∀ x, P x → Q x) → (length (filter P l) ≤ length (filter Q l))%nat.
Proof.
  intros HPQ. induction l as [|x l IH]; [done|]. rewrite !filter_cons.
  destruct (decide (P x)) as [HP|], (decide (Q x)) as [|HQ]; simpl; try lia. by destruct HQ; apply HPQ.
Qed.

(** The locks in use above a lock: the measure of a chain of waiting threads. *)
Definition above (s : state) (x : lock) : nat := length (filter (lock_lt x) (concat (map holds (thr s)))).

Lemma above_lt s x y j c : lock_lt x y → thr s !! j = Some c → y ∈ holds c → (above s y < above s x)%nat.
Proof.
  intros Hxy Hj Hy. unfold above.
  assert (y ∈ concat (map holds (thr s))) as Hin.
  { apply list_elem_of_In, in_concat. exists (holds c). split; [|by apply list_elem_of_In].
    apply in_map, list_elem_of_In. by eapply list_elem_of_lookup_2. }
  induction (concat (map holds (thr s))) as [|z l IH]; [by apply elem_of_nil in Hin|].
  rewrite !filter_cons. apply elem_of_cons in Hin as [<-|Hin].
  - rewrite decide_False by apply lock_lt_irrefl. rewrite decide_True by done. simpl.
    enough (length (filter (lock_lt y) l) ≤ length (filter (lock_lt x) l))%nat by lia. apply filter_length_impl.
    intros z. by apply lock_lt_trans.
  - specialize (IH Hin). destruct (decide (lock_lt y z)) as [Hyz|].
    + rewrite decide_True by (by eapply lock_lt_trans). simpl. lia.
    + destruct (decide (lock_lt x z)); simpl; lia.
Qed.

(** The chain from a waiting thread ends at a thread that can go on. *)
Lemma waiting_runs s :
  inv s → (∀ i t nh hints, thr s !! i = Some (Pruned t nh hints) → room s (length nh + 1)) →
  ∀ k x j c, (above s x < k)%nat → thr s !! j = Some c → x ∈ holds c → can_step s.
Proof.
  intros Hinv Hroom k. induction k as [|k IH]; intros x j c Hk Hj Hx; [lia|].
  destruct (thread_runs s j c) as [Hc|(t & nh & locs & need & held & y & todo & -> & j' & c' & Hj' & Hy)];
    [done|done|intros ->; by apply elem_of_nil in Hx|intros t nh hints ->; by eapply Hroom|done|].
  destruct (iv_thr s Hinv j _ Hj) as (_ & _ & _ & Heq). simpl in Hx.
  apply (IH y j' c'); [|done|done]. pose proof (above_lt s x y j' c' (held_before_next _ _ _ _ _ _ _ Heq Hx) Hj' Hy). lia.
Qed.

(** C8: inserts and searches of concurrent threads keep the location tables
    consistent, whatever the interleaving of their table accesses and lock
    operations.  Stated for an index loaded with at least two nodes (with fewer the
    initial resize writes out of the array) whose nodes fit a sector, so that
    [0 < nnodes_per_sector] and [nnodes_per_sector * max_node_len <= 4096] (larger
    nodes divide by zero in [erase_loc2id]), whose initial locations are 32-bit
    values below the two sentinels; for searches that return distinct published ids
    and hint pages of the file; and for allocations made while the file has room
    for them below the sentinels.  Then no access to the tables is out of range or
    crashes, the queue of empty pages stays exact, and whenever no operation is
    running the consistency check [verify_id2loc] of the code passes: [id2loc] and
    [loc2id] are inverse on every id handed out. *)
Theorem concurrent_inserts_consistent n s :
  rtc any_step (init n) s →
  (∀ i, thr s !! i ≠ Some Crashed) ∧ tables_ok m (tb s) ∧ (idle s → verify_id2loc (tb s) (cur_id s) = Some true).
Proof.
  intros Hreach. destruct (reachable_covers n s Hreach) as [Hinv Hc]. split; [|split; [by apply iv_tb|]].
  { intros i Hi. by apply (iv_thr s Hinv i Crashed). }
  intros Hidle. pose proof (iv_tb s Hinv) as [Hcur _ _ _ _ _ _].
  assert (∀ id l, home s id l → slot (id2loc_ (tb s)) id = Some l) as Hhome.
  { intros id l [Hx|[_ Hs]]; [by destruct (idle_not_moved s (id, l))|done]. }
  unfold verify_id2loc. rewrite verify_ids_ok.
  - simpl. apply verify_locs_ok. intros l Hl%elem_of_seqZ. rewrite loc2id_slot by lia.
    destruct (slot_is_Some (loc2id_ (tb s)) l) as [id Hid]; [lia|]. exists id. split; [done|]. intros [Hni Hna].
    destruct (iv_slots s Hinv l id) as [Hp Hh]; [lia|done..|]. apply slot_id2loc; [by apply (iv_pub s Hinv)|by apply Hhome].
  - intros id Hb%elem_of_seqZ. destruct (Hc id) as [Hp|(j & c & Hj & Hx)]; [lia| |].
    + destruct (iv_home s Hinv id Hp) as (l & Hh & Hl & Hs). exists l. rewrite loc2id_slot by lia.
      split; [apply slot_id2loc; [lia|by apply Hhome]|]. split; [lia|done].
    + rewrite (Hidle j c Hj) in Hx. by apply elem_of_nil in Hx.
Qed.

(** while a search reads the record of a node, the tables keep naming that
    record: its [id2loc] entry does not change, [loc2id] still gives the node, and
    no running insert has allocated the record, so the page cannot be recycled
    under the read. *)
Theorem search_read_stable n s i id loc :
  rtc any_step (init n) s → thr s !! i = Some (Reading id loc) →
  id2loc (tb s) id = Some loc ∧ loc2id (tb s) loc = Some id ∧ loc < cur_loc (tb s)
  ∧ ∀ j c, thr s !! j = Some c → loc ∉ locs_of c.
Proof.
  intros Hreach Hi. pose proof (conc_reachable_inv n s Hreach) as Hinv.
  destruct (iv_thr s Hinv i _ Hi) as [Hp Hs]. pose proof (iv_pub s Hinv id Hp) as Hb.
  assert (home s id loc) as Hh.
  { right. split; [|done]. intros o (j & c & Hj & Hx). destruct (moved_locked s j c id o Hinv Hj Hx) as [_ Hw].
    destruct (decide (j = i)) as [->|Hne]; [rewrite Hi in Hj; injection Hj as <-; by apply elem_of_nil in Hx|].
    destruct (excl_of s i j _ c Hinv Hi Hj Hne) as [_ _ _ _ _ Hrw]. apply (Hrw id); [by left|done]. }
  destruct (iv_home s Hinv id Hp) as (l & Hh' & Hl & Hsl). rewrite <- (home_fun s id loc l Hinv Hh Hh') in Hl, Hsl.
  pose proof (iv_tb s Hinv) as [Hcur _ _ _ _ _ _].
  split_and!; [apply slot_id2loc; [lia|done]|by rewrite loc2id_slot by lia|lia|].
  intros j c Hj Hin. destruct (thread_locs s c loc (iv_thr s Hinv j c Hj) Hin) as [_ Ha].
  destruct (real_pub s id Hinv Hp) as [_ Hna]. congruence.
Qed.

(** C24: the acquisition order of page and vector locks does not deadlock: in
    every reachable state with a running operation, some running operation can
    take a step (as long as the file has room for the pending allocations).  The
    index is loaded with at least two nodes, and a node fits a sector: the commit
    step of larger nodes divides by zero in [erase_loc2id]. *)
Theorem inserts_no_deadlock n s :
  rtc any_step (init n) s → ¬ idle s →
  (∀ i t nh hints, thr s !! i = Some (Pruned t nh hints) → room s (length nh + 1)) → can_step s.
Proof.
  intros Hreach Hnidle Hroom. pose proof (conc_reachable_inv n s Hreach) as Hinv.
  destruct (decide (Forall (λ c, is_idle c = true) (thr s))) as [Hall|Hex].
  { destruct Hnidle. intros i c Hi. rewrite Forall_lookup in Hall. specialize (Hall i c Hi). by destruct c. }
  apply not_Forall_Exists in Hex; [|apply _]. apply Exists_exists in Hex as (c & [i Hi]%list_elem_of_lookup & Hne).
  destruct (thread_runs s i c) as [Hc|(t & nh & locs & need & held & x & todo & -> & j & cj & Hj & Hx)];
    [done|done|intros ->; by apply Hne|intros t nh hints ->; by eapply Hroom|done|].
  by eapply (waiting_runs s Hinv Hroom (S (above s x)) x j cj); [lia|..].
Qed.

End machine.

(** ** Executing the machine

    A schedule is a list of threads with the choices that the transition system
    leaves open. *)

Inductive choice := Go | Read (id : Z) | Choose (nh hints : list Z).

Section exec.
Context (m : SSDIndexMetadata).

Definition fits_b (loc : Z) : bool := (loc <? kAllocatedID) && (loc_sector_no m loc <? kInvalidID).
Definition page_ok_b (loc p : Z) : bool := existsb (λ l, p =? loc_sector_no m l) (seqZ 0 loc).
Definition free_b {A} `{EqDecision A} (f : pc → list A) (s : state) (x : A) : bool :=
  forallb (λ c, bool_decide (x ∉ f c)) (thr s).

Definition exec (s : state) (i : nat) (ch : choice) : option state :=
  match thr s !! i, ch with
  | Some Idle, Read id =>
      loc ← id2loc (tb s) id;
      if bool_decide (id ∈ pub s) && free_b idx_writes s id then Some (goto s i (Reading id loc)) else None
  | Some Idle, Go =>
      if cur_id s <? kAllocatedID
      then Some (mkSt (tb s) (cur_id s + 1) (pub s) (disk s) (<[i := Target (cur_id s)]> (thr s))) else None
  | Some (Reading _ _), Go => Some (goto s i Idle)
  | Some (Target t), Choose nh hints =>
      if bool_decide (NoDup nh) && forallb (λ id, bool_decide (id ∈ pub s)) nh
         && forallb (page_ok_b (cur_loc (tb s))) hints then Some (goto s i (Pruned t nh hints)) else None
  | Some (Pruned t nh hints), Go =>
      if fits_b (cur_loc (tb s) + Z.of_nat (length nh + 1) + nodes_per_io m) then
        '(locs, need, tb') ← alloc_loc m (tb s) (length nh + 1) hints ∅;
        Some (goto (with_tb s tb') i (Locking t nh locs need [] (lock_list m t nh locs)))
      else None
  | Some (Locking t nh locs need held (x :: todo)), Go =>
      if free_b (holds m) s x then Some (goto s i (Locking t nh locs need (held ++ [x]) todo)) else None
  | Some (Locking t nh locs need held []), Go => Some (goto s i (Locked t nh locs need))
  | Some (Locked t nh locs need), Go =>
      Some (mkSt (tb s) (cur_id s) (pub s) (write_pages m need locs (nh ++ [t]) (disk s)) (<[i := Written t nh locs]> (thr s)))
  | Some (Written t nh locs), Go =>
      l ← locs !! length nh; tb' ← set_id2loc (tb s) t l; Some (goto (with_tb s tb') i (Published t nh locs))
  | Some (Published t nh locs), Go =>
      if forallb (λ id, free_b idx_writes s id && free_b idx_reads s id) (to_lock t nh)
      then Some (goto s i (Moving t nh locs [])) else None
  | Some (Moving t nh locs orig), Go =>
      if Nat.eqb (length orig) (length nh) then
        tb' ← erase_and_set_loc m (tb s) orig locs (nh ++ [t]);
        Some (mkSt tb' (cur_id s) ({[t]} ∪ pub s) (disk s) (<[i := Committed t nh locs]> (thr s)))
      else
        id ← nh !! length orig; l ← locs !! length orig; o ← id2loc (tb s) id; tb' ← set_id2loc (tb s) id l;
        Some (goto (with_tb s tb') i (Moving t nh locs (orig ++ [o])))
  | Some (Committed t nh locs), Go => Some (goto s i (IdxReleased t nh locs))
  | Some (IdxReleased t nh locs), Go => Some (goto s i (VecReleased locs))
  | Some (VecReleased locs), Go => Some (goto s i Idle)
  | _, _ => None
  end.

Fixpoint exec_all (s : state) (l : list (nat * choice)) : option state :=
  match l with
  | [] => Some s
  | (i, ch) :: l => s ← exec s i ch; exec_all s l
  end.

Lemma free_b_spec {A} `{EqDecision A} (f : pc → list A) s x :
  free_b f s x = true ↔ ∀ j c, thr s !! j = Some c → x ∉ f c.
Proof.
  unfold free_b. rewrite forallb_forall. split.
  - intros H j c Hj. apply (bool_decide_eq_true (x ∉ f c)), H, list_elem_of_In. by eapply list_elem_of_lookup_2.
  - intros H c Hc%list_elem_of_In. apply list_elem_of_lookup in Hc as [j Hj]. apply (bool_decide_eq_true (x ∉ f c)). by eapply H.
Qed.

Lemma exec_sound s i ch s' : exec s i ch = Some s' → step m s i s'.
Proof.
  unfold exec. intros H. destruct (thr s !! i) as [c|] eqn:Hi; [|by destruct ch].
  destruct c as [|id loc|t|t nh hints|t nh locs need held [|x todo]|t nh locs need|t nh locs|t nh locs|t nh locs orig
                 |t nh locs|t nh locs|locs|], ch as [|id'|nh' hints']; try done; try (injection H as <-; by econstructor).
  - destruct (cur_id s <? kAllocatedID) eqn:Hlt; [|done]. injection H as <-. bool_to_prop. by constructor.
  - apply bind_Some in H as (loc & Hloc & H). destruct (bool_decide _ && _) eqn:Hb; [|done]. injection H as <-.
    apply andb_true_iff in Hb as [?%bool_decide_eq_true Hw]. rewrite free_b_spec in Hw. by constructor.
  - destruct (bool_decide _ && _ && _) eqn:Hb; [|done]. injection H as <-.
    apply andb_true_iff in Hb as [[?%bool_decide_eq_true Hn]%andb_true_iff Hh]. rewrite !forallb_forall in *.
    constructor; [done|done| |].
    + intros id Hid%list_elem_of_In. by apply (bool_decide_eq_true (id ∈ pub s)), Hn.
    + apply Forall_forall. intros p Hp%list_elem_of_In. apply Hh in Hp. unfold page_ok_b in Hp.
      apply existsb_exists in Hp as (l & Hl%list_elem_of_In & ->%Z.eqb_eq). apply elem_of_seqZ in Hl. exists l. split; [lia|done].
  - destruct (fits_b _) eqn:Hf; [|done]. apply bind_Some in H as ([[locs need] tb'] & Ha & H). injection H as <-.
    apply andb_true_iff in Hf as [?%Z.ltb_lt ?%Z.ltb_lt]. by eapply step_alloc.
  - destruct (free_b _ s x) eqn:Hb; [|done]. injection H as <-. rewrite free_b_spec in Hb. by constructor.
  - apply bind_Some in H as (l & Hl & H). apply bind_Some in H as (tb' & Hs & H). injection H as <-. by eapply step_publish.
  - destruct (forallb _ (to_lock t nh)) eqn:Hb; [|done]. injection H as <-. constructor; [done|].
    rewrite forallb_forall in Hb. intros id Hid%list_elem_of_In j c Hj. specialize (Hb id Hid).
    apply andb_true_iff in Hb as [H1 H2]. rewrite free_b_spec in H1, H2. split; [by eapply H1|by eapply H2].
  - destruct (Nat.eqb_spec (length orig) (length nh)).
    + apply bind_Some in H as (tb' & Hs & H). injection H as <-. by eapply step_commit.
    + inv_some. by eapply step_move.
Qed.

Lemma exec_all_sound l s s' : exec_all s l = Some s' → rtc (any_step m) s s'.
Proof.
  revert s. induction l as [|[i ch] l IH]; intros s H; simpl in H; [by injection H as <-|].
  apply bind_Some in H as (s1 & H1 & H). eapply rtc_l; [exists i; by eapply exec_sound|by apply IH].
Qed.

End exec.

(** Eight nodes in two pages of four records. *)
Definition small_meta : SSDIndexMetadata := mkMeta 0 0 8 128 0 1024 4 8 0 8 48 0 RAW 1024 48 0.

Definition go (i k : nat) : list (nat * choice) := replicate k (i, Go).

(** Thread 1 reads page 1 during its search; thread 0 moves the nodes of page 1
    away; thread 2 takes one record of the now empty page; thread 1 takes two other
    records of it through its hint, and commits; thread 2, which did not read the
    page, writes it. *)
Definition clobber : list (nat * choice) :=
  go 0 1 ++ [(0%nat, Choose [0; 1; 2; 3] [])] ++ go 1 1 ++ [(1%nat, Choose [4] [1])]
  ++ go 0 20 ++ go 2 1 ++ [(2%nat, Choose [] [])] ++ go 2 1 ++ go 1 13 ++ go 2 10.

Definition clobber_end : option state := exec_all small_meta (init small_meta 3) clobber.

(** an insert can destroy the records of another one.  [alloc_loc] lets an
    insert take some records of an empty page without reading the page; another
    insert whose search had seen the page may take the rest, write the page and
    commit first; the first insert then writes its buffer, in which the other
    records are undefined.  In the run below the published nodes 4 and 9 have no
    record left, although the tables are consistent. *)
Theorem unread_page_overwritten :
  ∃ s, rtc (any_step small_meta) (init small_meta 3) s ∧ idle s ∧ 4 ∈ pub s ∧ 9 ∈ pub s
  ∧ id2loc (tb s) 4 = Some 1 ∧ id2loc (tb s) 9 = Some 2 ∧ disk s !! 1 = None ∧ disk s !! 2 = None.
Proof.
  destruct clobber_end as [s|] eqn:Hrun; [|vm_compute in Hrun; discriminate].
  exists s. split; [by eapply exec_all_sound|].
  assert (thr s = replicate 3 Idle ∧ bool_decide (4 ∈ pub s) = true ∧ bool_decide (9 ∈ pub s) = true
          ∧ id2loc (tb s) 4 = Some 1 ∧ id2loc (tb s) 9 = Some 2 ∧ disk s !! 1 = None ∧ disk s !! 2 = None)
    as (Ht & H4 & H9 & ?).
  { vm_compute in Hrun. injection Hrun as <-. split_and!; reflexivity. }
  split; [|split_and!; [by eapply bool_decide_eq_true|by eapply bool_decide_eq_true|naive_solver..]].
  intros i c Hi. rewrite Ht in Hi. by apply lookup_replicate in Hi as [-> _].
Qed.

Lemma small_placement : placement_ok small_meta.
Proof. split; simpl; unfold SECTOR_LEN; lia. Qed.

Lemma small_fits : fits small_meta (init_cur_loc small_meta).
Proof. split; vm_compute; reflexivity. Qed.

Lemma concurrent_inserts_consistent_witness :
  ∃ s, rtc (any_step small_meta) (init small_meta 3) s ∧ cur_id s = 11 ∧ verify_id2loc (tb s) (cur_id s) = Some true.
Proof.
  destruct clobber_end as [s|] eqn:Hrun; [|vm_compute in Hrun; discriminate].
  exists s. assert (rtc (any_step small_meta) (init small_meta 3) s) as Hr by (by eapply exec_all_sound).
  assert (thr s = replicate 3 Idle ∧ cur_id s = 11) as [Ht Hc].
  { vm_compute in Hrun. injection Hrun as <-. split; reflexivity. }
  split; [done|]. split; [done|].
  apply (concurrent_inserts_consistent small_meta small_placement ltac:(done) ltac:(done) small_fits 3 s Hr).
  intros i c Hi. rewrite Ht in Hi. by apply lookup_replicate in Hi as [-> _].
Defined.

Lemma search_read_stable_witness :
  ∃ s, rtc (any_step small_meta) (init small_meta 2) s ∧ thr s !! 1%nat = Some (Reading 3 3) ∧ loc2id (tb s) 3 = Some 3.
Proof.
  destruct (exec_all small_meta (init small_meta 2) (go 0 1 ++ [(0%nat, Choose [3; 5] []); (1%nat, Read 3)] ++ go 0 5))
    as [s|] eqn:Hrun; [|vm_compute in Hrun; discriminate].
  exists s. assert (rtc (any_step small_meta) (init small_meta 2) s) as Hr by (by eapply exec_all_sound).
  assert (thr s !! 1%nat = Some (Reading 3 3)) as Ht.
  { vm_compute in Hrun. injection Hrun as <-. reflexivity. }
  split; [done|]. split; [done|].
  apply (search_read_stable small_meta small_placement ltac:(done) ltac:(done) small_fits 2 s 1 3 3 Hr Ht).
Defined.

Lemma inserts_no_deadlock_witness :
  ∃ s, rtc (any_step small_meta) (init small_meta 2) s ∧ can_step small_meta s.
Proof.
  destruct (exec_all small_meta (init small_meta 2)
              (go 0 1 ++ go 1 1 ++ [(0%nat, Choose [3; 5] []); (1%nat, Choose [5; 3] [])] ++ go 0 4 ++ go 1 2))
    as [s|] eqn:Hrun; [|vm_compute in Hrun; discriminate].
  exists s. assert (rtc (any_step small_meta) (init small_meta 2) s) as Hr by (by eapply exec_all_sound).
  split; [done|].
  apply (inserts_no_deadlock small_meta small_placement ltac:(done) ltac:(done) small_fits 2 s Hr);
    vm_compute in Hrun; injection Hrun as <-.
  - intros Hidle. by specialize (Hidle 0%nat _ eq_refl).
  - intros [|[|i]] t nh hints Hi; done.
Defined.

End Conc.
