(* ===== verification/Prune.v ===== *)
(** * Neighbour selection ([include/utils/prune_neighbors.h])

    [prune_neighbors] builds the neighbour list of a node from its candidates
    with the alpha-RNG rule, [delta_prune_neighbors] makes room for one new
    neighbour in a full list, [sample_two_hop_nbrs] draws the dense neighbours.
    Distances are IEEE single precision ([Float32]); the distance callback and
    the shuffle are parameters.  The theorems say that the loops end, that the
    lists keep their bounds and hold no invented or repeated id, and that every
    candidate left out of a list with room is occluded by a nearer neighbour. *)

From Stdlib Require Import Floats.SpecFloat.
From S2P Require Import Prelude Float32 Neighbor.

Module Prune.

Inductive Metric := L2 | INNER_PRODUCT | COSINE.

Record IndexBuildParameters := mkParams { R : nat; C : nat; alpha : float; saturate_graph : bool }.

(** The literals [1.2f] and [1.0f - 1e-5f]. *)
Definition f_1_2 : float := S754_finite false 10066330 (-23).
Definition f_almost_one : float := S754_finite false 16777048 (-24).

Definition get_occlude_factor (metric : Metric) (dik djk : float) : float :=
  match metric with
  | L2 | COSINE => if feq djk f_zero then FLT_MAX else fdiv dik djk
  | INNER_PRODUCT =>
      if fgt dik djk then
        if fgt djk f_zero then fdiv dik djk
        else if flt dik f_zero then fdiv djk dik
        else FLT_MAX
      else f_zero
  end.

Section prune.
Context (metric : Metric) (dist : Z → Z → float).

(** ** prune_neighbors *)

(** Insertion into [std::set<Neighbor>]: an equivalent element is kept. *)
Fixpoint set_insert (n : Neighbor) (l : list Neighbor) : list Neighbor :=
  match l with
  | [] => [n]
  | a :: l' => if nlt a n then a :: set_insert n l' else if nlt n a then n :: l else l
  end.

(** The factor of candidate [t] after [p] is chosen. *)
Definition occlude (al : float) (p t : Neighbor) (o : float) : float :=
  if fle o al then fmax o (get_occlude_factor metric (distance t) (dist (id p) (id t))) else o.

(** One pass over the candidates from position [start]; the factors and the set
    are updated on the way. *)
Fixpoint round (range : nat) (al cur_alpha : float) (pool : list Neighbor) (occl : list float) (res : list Neighbor)
    : list float * list Neighbor :=
  match pool, occl with
  | p :: pool', o :: occl' =>
      if Nat.ltb (length res) range then
        if fgt o cur_alpha then
          let '(occl', res) := round range al cur_alpha pool' occl' res in (o :: occl', res)
        else
          let res := set_insert p res in
          let occl' := zip_with (occlude al p) pool' occl' in
          let '(occl', res) := round range al cur_alpha pool' occl' res in (FLT_MAX :: occl', res)
      else (occl, res)
  | _, _ => (occl, res)
  end.

Fixpoint rounds (fuel range : nat) (al cur_alpha : float) (pool : list Neighbor) (occl : list float) (res : list Neighbor)
    : option (list Neighbor) :=
  if fle cur_alpha al && Nat.ltb (length res) range then
    match fuel with
    | O => None
    | S fuel =>
        let '(occl, res) := round range al cur_alpha pool occl res in
        rounds fuel range al (fmul cur_alpha f_1_2) pool occl res
    end
  else Some res.

Fixpoint saturate (range : nat) (pool : list Neighbor) (out : list Z) : list Z :=
  match pool with
  | [] => out
  | p :: pool =>
      if Nat.ltb (length out) range then
        saturate range pool (if bool_decide (id p ∈ out) then out else out ++ [id p])
      else out
  end.

(** The sorted pool, cut to [C] candidates. *)
Definition candidates (pr : IndexBuildParameters) (pool : list Neighbor) : list Neighbor := take (C pr) (std_sort pool).

Definition prune_fuel : nat := 500.

(** The pool and the output list after the call. *)
Definition prune_neighbors (pool : list Neighbor) (pruned_list : list Z) (pr : IndexBuildParameters)
    : option (list Neighbor * list Z) :=
  match pool with
  | [] => Some ([], pruned_list)
  | _ =>
      let pool := candidates pr pool in
      res ← rounds prune_fuel (R pr) (alpha pr) f_one pool (replicate (length pool) f_zero) [];
      let out := map id res in
      Some (pool, if saturate_graph pr && fgt (alpha pr) f_one then saturate (R pr) pool out else out)
  end.

(** ** delta_prune_neighbors *)

Record TriangleNeighbor := mkTri { tn_id : Z; tgt_dis : float; tn_distance : float }.

Definition tri_lt (a b : TriangleNeighbor) : bool :=
  flt (tn_distance a) (tn_distance b) || (feq (tn_distance a) (tn_distance b) && (tn_id a <? tn_id b)%Z).

Fixpoint tri_insert (n : TriangleNeighbor) (l : list TriangleNeighbor) : list TriangleNeighbor :=
  match l with
  | [] => [n]
  | a :: l' => if tri_lt a n then a :: tri_insert n l' else n :: l
  end.

Definition tri_sort (l : list TriangleNeighbor) : list TriangleNeighbor := foldr tri_insert [] l.

(** The scan from the farthest neighbour; [i] is its position, [tgt_idx] the
    position of the target once met. *)
Fixpoint scan_evict (cur_alpha target_center_dist : float) (target_id : Z) (rev_pool : list TriangleNeighbor) (i : nat)
    (tgt_idx : option nat) : option nat * option nat :=
  match rev_pool, i with
  | n :: rest, S i' =>
      if (tn_id n =? target_id)%Z then scan_evict cur_alpha target_center_dist target_id rest i' (Some i')
      else if fgt (tn_distance n) target_center_dist then
        if fgt (get_occlude_factor metric (tn_distance n) (tgt_dis n)) cur_alpha then (Some i', tgt_idx)
        else scan_evict cur_alpha target_center_dist target_id rest i' tgt_idx
      else if fgt (get_occlude_factor metric target_center_dist (tgt_dis n)) cur_alpha then (tgt_idx, tgt_idx)
      else scan_evict cur_alpha target_center_dist target_id rest i' tgt_idx
  | _, _ => (None, tgt_idx)
  end.

(** [cur_alpha] shrinks until a neighbour can be evicted. *)
Fixpoint evict_rounds (fuel : nat) (cur_alpha target_center_dist : float) (target_id : Z) (pool : list TriangleNeighbor)
    (tgt_idx : option nat) : option (option nat * option nat) :=
  if fge cur_alpha f_almost_one then
    match fuel with
    | O => None
    | S fuel =>
        match scan_evict cur_alpha target_center_dist target_id (rev pool) (length pool) tgt_idx with
        | (Some i, tgt_idx) => Some (Some i, tgt_idx)
        | (None, tgt_idx) => evict_rounds fuel (fdiv cur_alpha f_1_2) target_center_dist target_id pool tgt_idx
        end
    end
  else Some (None, tgt_idx).

(** The first neighbour after [p] that [p] occludes. *)
Fixpoint occluded_after (al : float) (p : TriangleNeighbor) (rest : list TriangleNeighbor) (t : nat) : option nat :=
  match rest with
  | [] => None
  | n :: rest =>
      if fgt (get_occlude_factor metric (tn_distance n) (dist (tn_id p) (tn_id n))) al then Some t
      else occluded_after al p rest (S t)
  end.

(** Every position but the last, the target's excepted. *)
Fixpoint full_check (al : float) (tgt_idx : option nat) (pool : list TriangleNeighbor) (start : nat) : option nat :=
  match pool with
  | [] | [_] => None
  | p :: rest =>
      if bool_decide (tgt_idx = Some start) then full_check al tgt_idx rest (S start)
      else match occluded_after al p rest (S start) with
           | Some t => Some t
           | None => full_check al tgt_idx rest (S start)
           end
  end.

Definition finish (pool : list TriangleNeighbor) (to_evict : nat) : list Z :=
  map tn_id (take to_evict pool ++ drop (S to_evict) pool).

Definition tri_pool (nhood : list Z) (center_id target_id : Z) : list TriangleNeighbor :=
  tri_sort (map (λ n, mkTri n (dist target_id n) (dist center_id n)) nhood).

(** The last element of [nhood] is the target. *)
Definition delta_prune_neighbors (nhood : list Z) (center_id target_id : Z) (pr : IndexBuildParameters) : option (list Z) :=
  let pool := tri_pool nhood center_id target_id in
  last_id ← last nhood;
  let target_center_dist := dist center_id last_id in
  '(to_evict, tgt_idx) ← evict_rounds prune_fuel (alpha pr) target_center_dist target_id pool None;
  match to_evict with
  | Some i => Some (finish pool i)
  | None =>
      match full_check (alpha pr) tgt_idx pool 0 with
      | Some t => Some (finish pool t)
      | None => Some (finish pool (length pool - 1))
      end
  end.

End prune.

(** ** sample_two_hop_nbrs *)

Section two_hop.
Context (shuffle : list Z → list Z) (get_nbrs : Z → list Z).

(** [seen] and [cands] after a list of ids. *)
Definition visit (st : gset Z * list Z) (id : Z) : gset Z * list Z :=
  let '(seen, cands) := st in
  if bool_decide (id ∈ seen) then (seen, cands) else ({[id]} ∪ seen, cands ++ [id]).

Definition two_hop_candidates (center : Z) : list Z :=
  let one_hop := get_nbrs center in
  let seen : gset Z := {[center]} ∪ list_to_set one_hop in
  (foldl (λ st n, foldl visit st (get_nbrs n)) (seen, []) one_hop).2.

Definition sample_two_hop_nbrs (center : Z) (nnbrs_dense : nat) : list Z :=
  match nnbrs_dense with
  | O => []
  | _ => take nnbrs_dense (shuffle (two_hop_candidates center))
  end.
End two_hop.

(** ** The candidate sets *)

Section sets.
(** The candidates: distinct ids, no NaN. *)
Context (U : list Neighbor) (HU : Forall ok U) (Hids : NoDup (map id U)).

Lemma same_id a b : a ∈ U → b ∈ U → id a = id b → a = b.
Proof.
  intros [i Hi]%list_elem_of_lookup [j Hj]%list_elem_of_lookup Heq.
  assert (i = j) as ->; [|congruence].
  eapply (NoDup_lookup (map id U)); [done|by rewrite list_lookup_fmap, Hi|by rewrite list_lookup_fmap, Hj, Heq].
Qed.

Lemma in_ok a : a ∈ U → ok a.
Proof. rewrite Forall_forall in HU. apply HU. Qed.

Lemma set_insert_spec n l :
  n ∈ U → (∀ a, a ∈ l → a ∈ U) → nsorted l →
  nsorted (set_insert n l) ∧ (∀ x, x ∈ set_insert n l ↔ x = n ∨ x ∈ l) ∧ (length (set_insert n l) ≤ S (length l))%nat.
Proof.
  intros Hn Hl Hs. induction l as [|a l IH]; simpl.
  { split_and!; [repeat constructor|set_solver|lia]. }
  apply StronglySorted_inv in Hs as [Hs Ha]. assert (a ∈ U) as HaU by (apply Hl; by left).
  destruct IH as (Hs' & Hin & Hlen); [intros x Hx; apply Hl; by right|done|].
  destruct (nlt a n) eqn:Han.
  - apply nlt_spec in Han; [|by apply in_ok..]. split_and!; [|set_solver|simpl; lia]. constructor; [done|].
    apply Forall_forall. intros x [->|Hx]%Hin; [done|]. rewrite Forall_forall in Ha. by apply Ha.
  - apply nlt_false in Han; [|by apply in_ok..]. destruct (nlt n a) eqn:Hna.
    + apply nlt_spec in Hna; [|by apply in_ok..]. split_and!; [|set_solver|simpl; lia]. constructor; [by constructor|].
      constructor; [done|]. eapply Forall_impl; [exact Ha|]. intros b Hb. by eapply nb_lt_trans.
    + apply nlt_false in Hna; [|by apply in_ok..]. assert (a = n) as ->.
      { destruct (nb_lt_total a n) as [|[Heq|]]; [done| |done]. apply same_id; [done..|]. by injection Heq. }
      split_and!; [by constructor|set_solver|simpl; lia].
Qed.
End sets.

Lemma nsorted_ids l : Forall ok l → NoDup (map id l) → nsorted (std_sort l).
Proof. apply std_sort_sorted. Qed.

(** ** One pass *)

Section rounds.
Context (metric : Metric) (dist : Z → Z → float) (U : list Neighbor) (HU : Forall ok U) (Hids : NoDup (map id U)).
Context (range : nat) (al : float).

Local Abbreviation factor p t := (get_occlude_factor metric (distance t) (dist (id p) (id t))).

(** Where the factor of a candidate comes from. *)
Definition prov (res : list Neighbor) (t : Neighbor) (o : float) : Prop :=
  o = f_zero ∨ t ∈ res ∨ ∃ p, p ∈ res ∧ nb_lt p t ∧ o = factor p t.

Definition prov_all (res pool : list Neighbor) (occl : list float) : Prop :=
  length occl = length pool ∧ ∀ i t o, pool !! i = Some t → occl !! i = Some o → prov res t o.

Lemma prov_mono res res' t o : (∀ x, x ∈ res → x ∈ res') → prov res t o → prov res' t o.
Proof. intros Hs [->|[Ht|(p & ? & ? & ?)]]; [by left|right; left; auto|right; right; exists p; auto]. Qed.

Lemma prov_all_cons res p pool o occl :
  prov_all res (p :: pool) (o :: occl) ↔ prov res p o ∧ prov_all res pool occl.
Proof.
  unfold prov_all. split.
  - intros [Hlen H]. split; [by apply (H 0)|]. split; [by injection Hlen|]. intros i. apply (H (S i)).
  - intros [Hp [Hlen H]]. split; [simpl; by f_equal|]. intros [|i] t o' Ht Ho; simplify_eq/=; [done|by eapply H].
Qed.

Lemma prov_all_mono res res' pool occl : (∀ x, x ∈ res → x ∈ res') → prov_all res pool occl → prov_all res' pool occl.
Proof. intros Hs [? H]. split; [done|]. intros. eapply prov_mono; [done|]. by eapply H. Qed.

Lemma prov_occlude res p pool occl :
  p ∈ res → Forall (nb_lt p) pool → prov_all res pool occl → prov_all res pool (zip_with (occlude metric dist al p) pool occl).
Proof.
  intros Hp Hlt [Hlen H]. split; [rewrite length_zip_with; lia|]. intros i t o' Ht Ho.
  apply lookup_zip_with_Some in Ho as (x & o & -> & Hx & Ho). simplify_eq. specialize (H i t o Ht Ho).
  unfold occlude, fmax. destruct (fle o al); [|done]. destruct (flt _ _); [|done].
  right; right. exists p. split_and!; [done| |done]. rewrite Forall_forall in Hlt. apply Hlt. by eapply list_elem_of_lookup_2.
Qed.

Record round_post (pool : list Neighbor) (cur_alpha : float) (res : list Neighbor) (occl' : list float) (res' : list Neighbor)
    : Prop := mkRoundPost {
  rp_prov : prov_all res' pool occl';
  rp_sub : ∀ x, x ∈ res → x ∈ res';
  rp_in : ∀ x, x ∈ res' → x ∈ res ∨ x ∈ pool;
  rp_sorted : nsorted res';
  rp_len : length res' ≤ Nat.max range (length res);
  rp_done : length res' < range →
    ∀ i t o, pool !! i = Some t → occl' !! i = Some o → t ∈ res' ∨ fgt o cur_alpha = true
}.

Lemma round_spec cur_alpha pool occl res :
  (∀ x, x ∈ pool → x ∈ U) → (∀ x, x ∈ res → x ∈ U) → nsorted pool → nsorted res → prov_all res pool occl →
  let '(occl', res') := round metric dist range al cur_alpha pool occl res in round_post pool cur_alpha res occl' res'.
Proof.
  revert occl res. induction pool as [|p pool IH]; intros occl res HpU HrU Hsp Hsr Hprov; simpl.
  { split; [done|done|by left|done|lia|done]. }
  destruct occl as [|o occl]; [by destruct Hprov|].
  destruct (Nat.ltb_spec (length res) range) as [Hlt|Hge]; [|split; [done|done|by left|done|lia|lia]].
  apply StronglySorted_inv in Hsp as [Hsp Hpl]. apply prov_all_cons in Hprov as [Hpo Hprov].
  destruct (fgt o cur_alpha) eqn:Ho.
  - specialize (IH occl res ltac:(intros; apply HpU; by right) HrU Hsp Hsr Hprov).
    destruct (round _ _ _ _ _ pool occl res) as [occl' res']. destruct IH. split; [|done| |done|done|].
    + apply prov_all_cons. split; [by eapply prov_mono|done].
    + intros x Hx. destruct (rp_in0 x Hx); [by left|right; by right].
    + intros Hf [|i] t o' Ht Ho'; simplify_eq/=; [by right|by eapply rp_done0].
  - destruct (set_insert_spec U HU Hids p res) as (Hs1 & Hin1 & Hlen1); [apply HpU; by left|done|done|].
    assert (p ∈ set_insert p res) as Hp1 by (apply Hin1; by left).
    assert (∀ x, x ∈ res → x ∈ set_insert p res) as Hsub1 by (intros x Hx; apply Hin1; by right).
    specialize (IH (zip_with (occlude metric dist al p) pool occl) (set_insert p res)).
    destruct (round _ _ _ _ _ pool _ (set_insert p res)) as [occl' res'].
    destruct IH; [intros; apply HpU; by right| |done|done| |].
    + intros x [->|Hx]%Hin1; [apply HpU; by left|by apply HrU].
    + apply prov_occlude; [done|done|by eapply prov_all_mono].
    + split; [|auto| |done|lia|].
      * apply prov_all_cons. split; [right; left; auto|done].
      * intros x Hx. destruct (rp_in0 x Hx) as [[->|?]%Hin1|?]; [right; by left|by left|right; by right].
      * intros Hf [|i] t o' Ht Ho'; simplify_eq/=; [left; auto|by eapply rp_done0].
Qed.

(** ** The passes *)

Definition nth_alpha (k : nat) : float := Nat.iter k (λ a, fmul a f_1_2) f_one.

(** The alphas of the passes are not negative, and the last one is infinite. *)
Lemma nth_alpha_nonneg k : k < prune_fuel → flt (nth_alpha k) f_zero = false.
Proof.
  assert (forallb (λ k, negb (flt (nth_alpha k) f_zero)) (seq 0 prune_fuel) = true) as H by (vm_compute; reflexivity).
  rewrite forallb_forall in H. intros Hk. apply negb_true_iff, H, in_seq. lia.
Qed.

Lemma alphas_end : al ≠ f_infinity → fle (nth_alpha prune_fuel) al = false.
Proof.
  intros Hal. assert (nth_alpha prune_fuel = f_infinity) as -> by (vm_compute; reflexivity).
  destruct al as [| [] | |]; done.
Qed.

(** Every candidate is chosen or occluded at [a]. *)
Definition covered (a : float) (res pool : list Neighbor) : Prop :=
  ∀ t, t ∈ pool → t ∈ res ∨ ∃ p, p ∈ res ∧ nb_lt p t ∧ fgt (factor p t) a = true.

Lemma covered_of_prov k res pool occl :
  k < prune_fuel → prov_all res pool occl →
  (∀ i t o, pool !! i = Some t → occl !! i = Some o → t ∈ res ∨ fgt o (nth_alpha k) = true) → covered (nth_alpha k) res pool.
Proof.
  intros Hk [Hlen Hprov] Hdone t [i Hi]%list_elem_of_lookup.
  destruct (lookup_lt_is_Some_2 occl i) as [o Ho]; [rewrite Hlen; by eapply lookup_lt_Some|].
  destruct (Hdone i t o Hi Ho) as [|Hgt]; [by left|]. destruct (Hprov i t o Hi Ho) as [->|[|(p & Hp & Hpt & ->)]]; [|by left|].
  - unfold fgt in Hgt. pose proof (nth_alpha_nonneg k Hk) as Hn. unfold flt in Hn. congruence.
  - right. by exists p.
Qed.

Record rounds_post (pool res res' : list Neighbor) : Prop := mkRoundsPost {
  rs_sub : ∀ x, x ∈ res → x ∈ res';
  rs_in : ∀ x, x ∈ res' → x ∈ res ∨ x ∈ pool;
  rs_sorted : nsorted res';
  rs_len : length res' ≤ Nat.max range (length res);
  rs_covered : length res' < range → fle f_one al = true →
    ∃ a, fle a al = true ∧ fle (fmul a f_1_2) al = false ∧ covered a res' pool
}.

Lemma rounds_spec fuel k pool occl res :
  k + fuel = prune_fuel → al ≠ f_infinity →
  (∀ x, x ∈ pool → x ∈ U) → (∀ x, x ∈ res → x ∈ U) → nsorted pool → nsorted res → prov_all res pool occl →
  (0 < k → fle (nth_alpha (k - 1)) al = true ∧ (length res < range → covered (nth_alpha (k - 1)) res pool)) →
  ∃ res', rounds metric dist fuel range al (nth_alpha k) pool occl res = Some res' ∧ rounds_post pool res res'.
Proof.
  intros Hk Hinf HpU. revert k occl res Hk. induction fuel as [|fuel IH]; intros k occl res Hk HrU Hsp Hsr Hprov Hlast; simpl.
  - assert (fle (nth_alpha k) al = false) as Hend.
    { replace k with prune_fuel by lia. by apply alphas_end. }
    assert (0 < k) as Hpos by (unfold prune_fuel in Hk; lia).
    rewrite Hend. exists res. split; [done|].
    split; [done|by left|done|lia|]. intros Hlt Hone. destruct (Hlast Hpos) as [Ha Hc].
    exists (nth_alpha (k - 1)). split_and!; [done| |by apply Hc].
    destruct k as [|k]; [lia|]. by rewrite Nat.sub_succ, Nat.sub_0_r.
  - destruct (fle (nth_alpha k) al && Nat.ltb (length res) range) eqn:Hcond.
    + bool_to_prop. pose proof (round_spec (nth_alpha k) pool occl res HpU HrU Hsp Hsr Hprov) as Hround.
      destruct (round _ _ _ _ _ pool occl res) as [occl' res'].
      assert (∀ x, x ∈ res' → x ∈ U) as HrU' by (intros x Hx; destruct (rp_in _ _ _ _ _ Hround x Hx); auto).
      destruct (IH (S k) occl' res') as (res2 & Heq & Hpost); [lia|done|done|apply Hround|apply Hround| |].
      { intros _. rewrite Nat.sub_succ, Nat.sub_0_r. split; [done|]. intros Hlt.
        apply covered_of_prov with occl'; [lia|apply Hround|by apply (rp_done _ _ _ _ _ Hround)]. }
      exists res2. split; [done|]. destruct Hround, Hpost. split; [auto| |done|lia|done].
      intros x Hx. destruct (rs_in0 x Hx) as [Hx'|]; [by apply rp_in0|by right].
    + exists res. split; [done|]. split; [done|by left|done|lia|]. intros Hlt Hone.
      apply andb_false_iff in Hcond as [Hle|Hle]; [|apply Nat.ltb_ge in Hle; lia].
      destruct k as [|k]; [by change (fle f_one al = false) in Hle; congruence|].
      destruct Hlast as [Ha Hc]; [lia|]. rewrite Nat.sub_succ, Nat.sub_0_r in *.
      exists (nth_alpha k). split_and!; [done|done|by apply Hc].
Qed.

(** The nearest candidate is chosen in the first pass. *)
Lemma round_head cur_alpha p pool o occl res :
  length res < range → fgt o cur_alpha = false →
  (∀ x, x ∈ p :: pool → x ∈ U) → (∀ x, x ∈ res → x ∈ U) → nsorted (p :: pool) → nsorted res → prov_all res (p :: pool) (o :: occl) →
  p ∈ (round metric dist range al cur_alpha (p :: pool) (o :: occl) res).2.
Proof.
  intros Hlt Ho HpU HrU Hsp Hsr Hprov. simpl. rewrite (proj2 (Nat.ltb_lt _ _) Hlt), Ho.
  apply StronglySorted_inv in Hsp as [Hsp Hpl]. apply prov_all_cons in Hprov as [Hpo Hprov].
  destruct (set_insert_spec U HU Hids p res) as (Hs1 & Hin1 & _); [apply HpU; by left|done|done|].
  pose proof (round_spec cur_alpha pool (zip_with (occlude metric dist al p) pool occl) (set_insert p res)) as H.
  destruct (round _ _ _ _ _ pool _ (set_insert p res)) as [occl' res']. simpl. eapply rp_sub; [apply H|apply Hin1; by left].
  - intros x Hx. apply HpU. by right.
  - intros x [->|Hx]%Hin1; [apply HpU; by left|by apply HrU].
  - done.
  - done.
  - apply prov_occlude; [apply Hin1; by left|done|]. eapply prov_all_mono; [|done]. intros x Hx. apply Hin1. by right.
Qed.

Lemma rounds_unfold fuel a pool occl res :
  fle a al = true → length res < range →
  rounds metric dist (S fuel) range al a pool occl res
  = rounds metric dist fuel range al (fmul a f_1_2) pool (round metric dist range al a pool occl res).1
      (round metric dist range al a pool occl res).2.
Proof.
  intros Ha Hlt. simpl. rewrite Ha, (proj2 (Nat.ltb_lt _ _) Hlt). simpl. by destruct (round _ _ _ _ _ _ _ _).
Qed.

Lemma prov_init pool : prov_all [] pool (replicate (length pool) f_zero).
Proof.
  split; [by rewrite length_replicate|]. intros i t o _ Ho. apply lookup_replicate in Ho as [-> _]. by left.
Qed.

Lemma choose_spec pool :
  al ≠ f_infinity → (∀ x, x ∈ pool → x ∈ U) → nsorted pool →
  ∃ res, rounds metric dist prune_fuel range al f_one pool (replicate (length pool) f_zero) [] = Some res
  ∧ rounds_post pool [] res ∧ (∀ p, head pool = Some p → 0 < range → fle f_one al = true → p ∈ res).
Proof.
  intros Hinf HpU Hs. pose proof (prov_init pool) as Hprov.
  destruct (rounds_spec prune_fuel 0 pool (replicate (length pool) f_zero) []) as (res & Heq & Hpost);
    [done|done|done|by intros ? ?%elem_of_nil|done|constructor|done|lia|].
  change (nth_alpha 0) with f_one in Heq. exists res. split_and!; [done|done|]. intros p Hp Hr Hone.
  destruct pool as [|p' pool]; [done|]. injection Hp as ->.
  pose proof (round_head f_one p pool f_zero (replicate (length pool) f_zero) []) as Hhead.
  pose proof (round_spec f_one (p :: pool) (f_zero :: replicate (length pool) f_zero) []) as Hround.
  change prune_fuel with (S 499) in Heq. rewrite rounds_unfold in Heq by done. simpl length in Heq. simpl replicate in Heq.
  destruct (round metric dist range al f_one (p :: pool) (f_zero :: replicate (length pool) f_zero) []) as [occl1 res1].
  destruct Hround as [Hp1 _ Hin1 Hs1 Hlen1 Hd1]; [done|by intros ? ?%elem_of_nil|done|constructor|done|].
  simpl fst in Heq. simpl snd in Heq, Hhead.
  destruct (rounds_spec 499 1 (p :: pool) occl1 res1) as (res' & Heq' & Hpost'); [done|done|done| |done|done|done| |].
  - intros x Hx. apply HpU. destruct (Hin1 x Hx) as [Hn|]; [by apply elem_of_nil in Hn|done].
  - intros _. split; [done|]. intros Hlt. apply covered_of_prov with occl1; [unfold prune_fuel; lia|done|]. by apply Hd1.
  - change (nth_alpha 1) with (fmul f_one f_1_2) in Heq'. rewrite Heq' in Heq. injection Heq as ->.
    apply (rs_sub _ _ _ Hpost'). apply Hhead; [done|done|done|by intros ? ?%elem_of_nil|done|constructor|done].
Qed.

End rounds.

Lemma saturate_spec range pool out :
  NoDup out → ∃ extra, saturate range pool out = out ++ extra ∧ NoDup (out ++ extra)
  ∧ (∀ x, x ∈ extra → x ∈ map id pool) ∧ length (out ++ extra) ≤ Nat.max range (length out)
  ∧ (length (out ++ extra) < range → ∀ x, x ∈ map id pool → x ∈ out ++ extra).
Proof.
  revert out. induction pool as [|p pool IH]; intros out Hnd; simpl.
  { exists []. rewrite app_nil_r. split_and!; [done|done|by intros ? ?%elem_of_nil|lia|by intros _ ? ?%elem_of_nil]. }
  destruct (Nat.ltb_spec (length out) range) as [Hlt|Hge].
  2:{ exists []. rewrite app_nil_r. split_and!; [done|done|by intros ? ?%elem_of_nil|lia|lia]. }
  case_bool_decide as Hin.
  - destruct (IH out Hnd) as (ex & -> & Hnd' & Hsub & Hlen & Hall). exists ex. split_and!; [done|done| |done|].
    + intros x Hx. right. by apply Hsub.
    + intros Hl x [->|Hx]%elem_of_cons; [apply elem_of_app; by left|by apply Hall].
  - destruct (IH (out ++ [id p])) as (ex & -> & Hnd' & Hsub & Hlen & Hall).
    { apply NoDup_app. split_and!; [done|set_solver|apply NoDup_singleton]. }
    exists (id p :: ex). rewrite <- app_assoc in *. split_and!; [done|done| | |].
    + intros x [->|Hx]%elem_of_cons; [by left|right; by apply Hsub].
    + rewrite !length_app in *. simpl in *. lia.
    + intros Hl x [->|Hx]%elem_of_cons; [set_solver|by apply Hall].
Qed.

Lemma NoDup_incl_length' (l k : list Z) : NoDup l → (∀ x, x ∈ l → x ∈ k) → length l ≤ length k.
Proof. intros Hl Hs. apply submseteq_length, NoDup_submseteq; done. Qed.

Section correct.
Context (metric : Metric) (dist : Z → Z → float).

Local Abbreviation factor p t := (get_occlude_factor metric (distance t) (dist (id p) (id t))).

Lemma candidates_facts pr pool :
  Forall ok pool → NoDup (map id pool) →
  Forall ok (candidates pr pool) ∧ NoDup (map id (candidates pr pool)) ∧ nsorted (candidates pr pool).
Proof.
  intros Hok Hnd. unfold candidates. split_and!.
  - apply Forall_take. by rewrite std_sort_Permutation.
  - rewrite <- firstn_map. eapply sublist_NoDup; [|apply sublist_take]. by rewrite std_sort_Permutation.
  - by apply nsorted_take, std_sort_sorted.
Qed.

(** The head of a sorted selection that contains the nearest candidate. *)
Lemma sorted_head p pool res : nsorted (p :: pool) → nsorted res → p ∈ res → (∀ x, x ∈ res → x ∈ p :: pool) → head res = Some p.
Proof.
  intros Hsp Hs Hp Hsub. destruct res as [|q res]; [by apply elem_of_nil in Hp|]. simpl. f_equal.
  apply elem_of_cons in Hp as [->|Hp]; [done|]. apply StronglySorted_inv in Hs as [_ Hq]. rewrite Forall_forall in Hq.
  specialize (Hq p Hp). assert (q ∈ p :: pool) as Hqp by (apply Hsub; by left). apply elem_of_cons in Hqp as [|Hqp]; [done|].
  apply StronglySorted_inv in Hsp as [_ Hp']. rewrite Forall_forall in Hp'. destruct (nb_lt_asym q p Hq). by apply Hp'.
Qed.

(** What [prune_neighbors] promises of its output. *)
Record pruned (pr : IndexBuildParameters) (cands : list Neighbor) (out : list Z) : Prop := mkPruned {
  pn_nodup : NoDup out;
  pn_sub : ∀ x, x ∈ out → x ∈ map id cands;
  pn_len : length out ≤ R pr;
  pn_near : fle f_one (alpha pr) = true → 0 < R pr → head out = id <$> head cands;
  pn_full : saturate_graph pr = true → fgt (alpha pr) f_one = true → length out = Nat.min (R pr) (length cands);
  (** with room left, an unchosen candidate is occluded by a nearer chosen one, at
      the largest alpha of the passes *)
  pn_rng : fle f_one (alpha pr) = true → length out < R pr →
    ∃ a, fle a (alpha pr) = true ∧ fle (fmul a f_1_2) (alpha pr) = false
    ∧ ∀ t, t ∈ cands → id t ∈ out ∨ ∃ p, p ∈ cands ∧ id p ∈ out ∧ nb_lt p t ∧ fgt (factor p t) a = true
}.

Lemma elem_of_head {A} (l : list A) x : head l = Some x → x ∈ l.
Proof. destruct l; [done|]. intros [= ->]. by left. Qed.

(** The saturation as an extension of the chosen list. *)
Lemma output_spec pr cands res :
  NoDup (map id res) → length res ≤ R pr →
  ∃ extra, (if saturate_graph pr && fgt (alpha pr) f_one then saturate (R pr) cands (map id res) else map id res)
            = map id res ++ extra ∧ NoDup (map id res ++ extra) ∧ (∀ x, x ∈ extra → x ∈ map id cands)
            ∧ length (map id res ++ extra) ≤ R pr
            ∧ (saturate_graph pr = true → fgt (alpha pr) f_one = true → length (map id res ++ extra) < R pr →
               ∀ x, x ∈ map id cands → x ∈ map id res ++ extra).
Proof.
  intros Hnd Hlen. destruct (saturate_graph pr && fgt (alpha pr) f_one) eqn:Hsat.
  - destruct (saturate_spec (R pr) cands (map id res) Hnd) as (ex & -> & ? & ? & ? & ?). exists ex.
    rewrite length_map in *. split_and!; [done|done|done|lia|done].
  - exists []. rewrite app_nil_r, length_map. split_and!; [done|done|by intros ? ?%elem_of_nil|lia|].
    intros H1 H2. by rewrite H1, H2 in Hsat.
Qed.

(** A duplicate-free list of candidates that misses none when it has room. *)
Lemma full_length pr cands (out : list Z) :
  NoDup out → NoDup (map id cands) → (∀ x, x ∈ out → x ∈ map id cands) → length out ≤ R pr →
  (length out < R pr → ∀ x, x ∈ map id cands → x ∈ out) → length out = Nat.min (R pr) (length cands).
Proof.
  intros Hnd Hcnd Hsub Hlen Hfull. pose proof (NoDup_incl_length' _ _ Hnd Hsub) as Hle. rewrite length_map in Hle.
  destruct (decide (length out < R pr)) as [Hlt|]; [|lia].
  pose proof (NoDup_incl_length' _ _ Hcnd (Hfull Hlt)) as Hge. rewrite length_map in Hge. lia.
Qed.

Lemma prune_neighbors_pruned pool pruned_list pr :
  pool ≠ [] → Forall ok pool → NoDup (map id pool) → alpha pr ≠ f_infinity →
  ∃ out, prune_neighbors metric dist pool pruned_list pr = Some (candidates pr pool, out) ∧ pruned pr (candidates pr pool) out.
Proof.
  intros Hne Hok Hnd Hinf. destruct (candidates_facts pr pool Hok Hnd) as (Hcok & Hcnd & Hcs).
  unfold prune_neighbors. destruct pool as [|n pool]; [done|]. set (cands := candidates pr (n :: pool)) in *.
  destruct (choose_spec metric dist cands Hcok Hcnd (R pr) (alpha pr) cands) as (res & -> & [_ Hin Hs Hlen Hcov] & Hnear); [done..|].
  simpl in Hlen. rewrite Nat.max_0_r in Hlen.
  assert (∀ x, x ∈ res → x ∈ cands) as Hsub by (intros x Hx; destruct (Hin x Hx) as [Hn|]; [by apply elem_of_nil in Hn|done]).
  assert (NoDup (map id res)) as Hrnd.
  { apply (NoDup_fmap_2_strong id); [|by apply nsorted_NoDup]. intros x y Hx Hy. apply (same_id cands Hcnd); auto. }
  destruct (output_spec pr cands res Hrnd Hlen) as (extra & Heq & Hend & Hesub & Helen & Hefull). simpl. rewrite Heq.
  assert (∀ x, x ∈ map id res ++ extra → x ∈ map id cands) as Hosub.
  { intros x [Hx|Hx]%elem_of_app; [|by apply Hesub]. apply list_elem_of_fmap in Hx as (y & -> & Hy). by apply list_elem_of_fmap_2, Hsub. }
  eexists. split; [done|]. split; [done|done|done| | |].
  - intros Hone Hr. clear Hcov Hefull Helen. destruct cands as [|p cands'].
    + destruct (map id res ++ extra) as [|q out]; [done|]. by specialize (Hosub q ltac:(by left)); apply elem_of_nil in Hosub.
    + assert (head res = Some p) as Hh by (eapply sorted_head; [done|done|by apply Hnear|done]).
      destruct res as [|q res]; [done|]. by injection Hh as ->.
  - intros H1 H2. apply full_length; [done..|by apply Hefull].
  - intros Hone Hlt. rewrite length_app, length_map in Hlt. destruct Hcov as (a & Ha & Ha' & Hc); [lia|done|].
    exists a. split_and!; [done|done|]. intros t Ht. destruct (Hc t Ht) as [Hr|(p & Hp & Hpt & Hf)].
    + left. apply elem_of_app. left. by apply list_elem_of_fmap_2.
    + right. exists p. split_and!; [by apply Hsub| |done|done]. apply elem_of_app. left. by apply list_elem_of_fmap_2.
Qed.

(** C15: on a non-empty pool of candidates with distinct ids and distances that are
    not NaN, [prune_neighbors] ends for every alpha other than infinity and returns a
    list of at most [R] distinct ids, all of them among the [C] nearest candidates.
    With saturation and [alpha > 1] the list is as long as [R] and the candidates
    allow.  With [1 <= alpha] (and [R > 0]) the
    nearest candidate comes first, and whenever the list has room left, every candidate
    it leaves out is occluded by a nearer chosen neighbour (the alpha-RNG rule, at the
    largest factor the passes reach); for [alpha < 1] no pass runs and these two are
    not claimed. *)
Theorem prune_neighbors_correct pool pruned_list pr :
  pool ≠ [] → Forall ok pool → NoDup (map id pool) → alpha pr ≠ f_infinity →
  ∃ out, prune_neighbors metric dist pool pruned_list pr = Some (candidates pr pool, out) ∧ pruned pr (candidates pr pool) out.
Proof. apply prune_neighbors_pruned. Qed.

(** ** delta_prune_neighbors *)

Lemma tri_insert_Permutation n l : tri_insert n l ≡ₚ n :: l.
Proof.
  induction l as [|a l IH]; simpl; [done|]. destruct (tri_lt a n); [|done]. rewrite IH. apply Permutation_swap.
Qed.

Lemma tri_sort_Permutation l : tri_sort l ≡ₚ l.
Proof. induction l as [|a l IH]; simpl; [done|]. by rewrite tri_insert_Permutation, IH. Qed.

Section delta.
Context (al tcd : float) (target_id : Z) (pool : list TriangleNeighbor).

Local Abbreviation tfactor p n := (get_occlude_factor metric (tn_distance n) (dist (tn_id p) (tn_id n))).

(** Why position [k] of the sorted list is evicted. *)
Inductive evict_reason (k : nat) : Prop :=
  | by_target n a :  (** the target occludes it *)
      pool !! k = Some n → fge a f_almost_one = true → fgt (tn_distance n) tcd = true →
      fgt (get_occlude_factor metric (tn_distance n) (tgt_dis n)) a = true → evict_reason k
  | the_target x n a :  (** it is the target, occluded by a nearer neighbour *)
      pool !! k = Some x → tn_id x = target_id → n ∈ pool → fge a f_almost_one = true →
      fgt (tn_distance n) tcd = false → fgt (get_occlude_factor metric tcd (tgt_dis n)) a = true → evict_reason k
  | by_nearer p n i :  (** a nearer neighbour occludes it at alpha *)
      i < k → pool !! i = Some p → pool !! k = Some n → fgt (tfactor p n) al = true → evict_reason k
  | farthest :  (** no neighbour but the target occludes a farther one *)
      S k = length pool →
      (∀ i j p n, i < j → pool !! i = Some p → pool !! j = Some n → tn_id p ≠ target_id → fgt (tfactor p n) al = false) →
      evict_reason k.

Definition tgt_valid (tg : option nat) : Prop := ∀ k, tg = Some k → ∃ x, pool !! k = Some x ∧ tn_id x = target_id.

Lemma rev_take_S i n : pool !! i = Some n → rev (take (S i) pool) = n :: rev (take i pool).
Proof. intros Hi. rewrite (take_S_r _ _ n) by done. by rewrite rev_app_distr. Qed.

Lemma scan_evict_spec a i tg e tg' :
  fge a f_almost_one = true → i ≤ length pool → tgt_valid tg →
  scan_evict metric a tcd target_id (rev (take i pool)) i tg = (e, tg') →
  tgt_valid tg' ∧ ∀ k, e = Some k → k < length pool ∧ evict_reason k.
Proof.
  intros Ha. revert tg. induction i as [|i IH]; intros tg Hi Htg; simpl.
  { intros [= <- <-]. split; [done|]. by intros k [=]. }
  destruct (lookup_lt_is_Some_2 pool i) as [n Hn]; [lia|]. rewrite (rev_take_S i n Hn). simpl.
  destruct (Z.eqb_spec (tn_id n) target_id) as [Heq|Hne].
  { apply IH; [lia|]. intros k [= <-]. by exists n. }
  destruct (fgt (tn_distance n) tcd) eqn:Hfar.
  - destruct (fgt (get_occlude_factor metric (tn_distance n) (tgt_dis n)) a) eqn:Hocc; [|by apply IH; [lia|]].
    intros [= <- <-]. split; [done|]. intros k [= <-]. split; [lia|]. by eapply by_target.
  - destruct (fgt (get_occlude_factor metric tcd (tgt_dis n)) a) eqn:Hocc; [|by apply IH; [lia|]].
    intros [= <- <-]. split; [done|]. intros k Hk. destruct (Htg k Hk) as (x & Hx & Hid).
    split; [by eapply lookup_lt_Some|]. eapply the_target; [done|done| |done|done|done]. by eapply list_elem_of_lookup_2.
Qed.

(** The alphas tried fall below one within the fuel. *)
Definition shrinks (fuel : nat) (a : float) : Prop :=
  ∃ k, k < fuel ∧ fge (Nat.iter k (λ a, fdiv a f_1_2) a) f_almost_one = false.

Lemma shrinks_S fuel a : shrinks (S fuel) a → fge a f_almost_one = true → shrinks fuel (fdiv a f_1_2).
Proof.
  intros (k & Hk & Hf) Ha. destruct k as [|k]; [simpl in Hf; congruence|]. exists k. split; [lia|].
  by rewrite Nat.iter_succ_r in Hf.
Qed.

Lemma evict_rounds_spec fuel a tg :
  shrinks fuel a → tgt_valid tg →
  ∃ e tg', evict_rounds metric fuel a tcd target_id pool tg = Some (e, tg') ∧ tgt_valid tg'
  ∧ ∀ k, e = Some k → k < length pool ∧ evict_reason k.
Proof.
  revert a tg. induction fuel as [|fuel IH]; intros a tg Hs Htg; [by destruct Hs as (k & ? & _); lia|]. simpl.
  destruct (fge a f_almost_one) eqn:Ha.
  - destruct (scan_evict metric a tcd target_id (rev pool) (length pool) tg) as [e tg'] eqn:Hscan.
    destruct (scan_evict_spec a (length pool) tg e tg') as [Htg' He]; [done|lia|done|by rewrite firstn_all|].
    destruct e as [k|].
    + exists (Some k), tg'. split_and!; [done|done|]. intros k' [= <-]. by apply He.
    + apply IH; [by apply shrinks_S|done].
  - exists None, tg. split_and!; [done|done|by intros k [=]].
Qed.

Lemma occluded_after_spec p rest t :
  match occluded_after metric dist al p rest t with
  | Some k => ∃ j n, k = t + j ∧ rest !! j = Some n ∧ fgt (tfactor p n) al = true
  | None => ∀ n, n ∈ rest → fgt (tfactor p n) al = false
  end.
Proof.
  revert t. induction rest as [|n rest IH]; intros t; simpl; [by intros ? ?%elem_of_nil|].
  destruct (fgt (tfactor p n) al) eqn:Hf; [exists 0, n; by rewrite Nat.add_0_r|].
  specialize (IH (S t)). destruct (occluded_after _ _ _ _ _ _) as [k|].
  - destruct IH as (j & n' & -> & Hj & Hf'). exists (S j), n'. split_and!; [lia|done|done].
  - intros x [->|Hx]%elem_of_cons; [done|by apply IH].
Qed.

Lemma full_check_spec tg suf start :
  suf = drop start pool →
  match full_check metric dist al tg suf start with
  | Some t => ∃ i p n, i < t ∧ pool !! i = Some p ∧ pool !! t = Some n ∧ fgt (tfactor p n) al = true
  | None => ∀ i j p n, start ≤ i < j → pool !! i = Some p → pool !! j = Some n → tg ≠ Some i → fgt (tfactor p n) al = false
  end.
Proof.
  revert start. induction suf as [|p suf IH]; intros start Hsuf.
  { simpl. intros i j p n Hij _ Hj _. apply lookup_lt_Some in Hj. apply (f_equal length) in Hsuf. rewrite length_drop in Hsuf. simpl in Hsuf. lia. }
  assert (pool !! start = Some p) as Hp by (rewrite <- (Nat.add_0_r start), <- lookup_drop, <- Hsuf; done).
  assert (suf = drop (S start) pool) as Hsuf'.
  { rewrite (drop_S _ p) in Hsuf by done. by injection Hsuf. }
  assert (∀ j n, pool !! j = Some n → start < j → n ∈ suf) as Hin.
  { intros j n Hj Hlt. rewrite Hsuf'. apply list_elem_of_lookup. exists (j - S start). rewrite lookup_drop.
    by replace (S start + (j - S start)) with j by lia. }
  specialize (IH (S start) Hsuf'). destruct suf as [|q suf].
  { simpl. intros i j p' n Hij _ Hj _. by specialize (Hin j n Hj ltac:(lia)); apply elem_of_nil in Hin. }
  change (full_check metric dist al tg (p :: q :: suf) start) with
    (if bool_decide (tg = Some start) then full_check metric dist al tg (q :: suf) (S start)
     else match occluded_after metric dist al p (q :: suf) (S start) with
          | Some t => Some t
          | None => full_check metric dist al tg (q :: suf) (S start)
          end).
  set (rest := q :: suf) in *. pose proof (occluded_after_spec p rest (S start)) as Hocc.
  case_bool_decide as Htg.
  - destruct (full_check _ _ _ _ rest _); [done|]. intros i j p' n Hij Hi Hj Hn. apply (IH i j); [|done..].
    destruct (decide (i = start)) as [->|]; [done|lia].
  - destruct (occluded_after _ _ _ _ rest _) as [t|].
    + destruct Hocc as (j & n & -> & Hj & Hf). exists start, p, n. split_and!; [lia|done| |done].
      rewrite Hsuf', lookup_drop in Hj. done.
    + destruct (full_check _ _ _ _ rest _); [done|]. intros i j p' n Hij Hi Hj Hn.
      destruct (decide (i = start)) as [->|]; [|apply (IH i j); [lia|done..]]. simplify_eq.
      apply Hocc. apply (Hin j n Hj). lia.
Qed.

Lemma finish_Permutation k n : pool !! k = Some n → tn_id n :: finish pool k ≡ₚ map tn_id pool.
Proof.
  intros Hk. unfold finish. rewrite <- (take_drop_middle pool k n Hk) at 3.
  rewrite !map_app. simpl. by rewrite Permutation_middle.
Qed.

End delta.

(** The eviction, as a lemma for the callers. *)
Lemma delta_prune_evicts nhood center_id target_id pr :
  nhood ≠ [] → shrinks prune_fuel (alpha pr) →
  let pool := tri_pool dist nhood center_id target_id in
  ∃ out k n, delta_prune_neighbors metric dist nhood center_id target_id pr = Some out
  ∧ pool !! k = Some n ∧ tn_id n :: out ≡ₚ nhood
  ∧ ∃ last_id, last nhood = Some last_id ∧ evict_reason (alpha pr) (dist center_id last_id) target_id pool k.
Proof.
  intros Hne Hs pool. destruct (last nhood) as [last_id|] eqn:Hlast; [|by apply last_None in Hlast].
  set (tcd := dist center_id last_id).
  assert (map tn_id pool ≡ₚ nhood) as Hids.
  { unfold pool, tri_pool. rewrite tri_sort_Permutation, map_map. simpl. by rewrite map_id. }
  assert (0 < length pool) as Hpos.
  { rewrite <- (length_map tn_id), Hids. destruct nhood; [done|simpl; lia]. }
  destruct (evict_rounds_spec (alpha pr) tcd target_id pool prune_fuel (alpha pr) None Hs) as (e & tg & Heq & Htg & He);
    [by intros k [=]|].
  assert (∃ k, delta_prune_neighbors metric dist nhood center_id target_id pr = Some (finish pool k)
            ∧ k < length pool ∧ evict_reason (alpha pr) tcd target_id pool k) as (k & Hd & Hk & Hr).
  { unfold delta_prune_neighbors. rewrite Hlast. cbn [mbind option_bind]. fold pool tcd. rewrite Heq.
    cbn [mbind option_bind]. destruct e as [k|].
    { destruct (He k eq_refl). by exists k. }
    pose proof (full_check_spec (alpha pr) pool tg pool 0 eq_refl) as Hf.
    destruct (full_check _ _ _ _ _ _) as [t|].
    - destruct Hf as (i & p & n & Hit & Hi & Ht & Hf). exists t. split_and!; [done|by eapply lookup_lt_Some|]. by eapply by_nearer.
    - exists (length pool - 1). split_and!; [done|lia|]. apply farthest; [lia|]. intros i j p n Hij Hi Hj Hp.
      eapply Hf; [|done|done|]; [lia|]. intros ->. destruct (Htg i eq_refl) as (x & Hx & Hid). congruence. }
  destruct (lookup_lt_is_Some_2 pool k Hk) as [n Hn]. exists (finish pool k), k, n.
  split_and!; [done|done| |by exists last_id]. by rewrite (finish_Permutation pool k n Hn).
Qed.

(** [delta_prune_neighbors] drops exactly one element of a full list and keeps
    the others, for every metric and every distance function (NaN included): the
    dropped one is occluded by the target, or is the target occluded by a nearer
    neighbour, or is occluded by a nearer neighbour at alpha, or, when no pair is
    occluded, is the farthest. *)
Theorem delta_prune_correct nhood center_id target_id pr :
  nhood ≠ [] → shrinks prune_fuel (alpha pr) →
  let pool := tri_pool dist nhood center_id target_id in
  ∃ out k n, delta_prune_neighbors metric dist nhood center_id target_id pr = Some out
  ∧ pool !! k = Some n ∧ tn_id n :: out ≡ₚ nhood
  ∧ ∃ last_id, last nhood = Some last_id ∧ evict_reason (alpha pr) (dist center_id last_id) target_id pool k.
Proof. apply delta_prune_evicts. Qed.

End correct.

(** ** sample_two_hop_nbrs *)

Section two_hop_correct.
Context (get_nbrs : Z → list Z).

(** [seen] holds the excluded ids and the candidates, and nothing else. *)
Definition seen_inv (ex : gset Z) (st : gset Z * list Z) : Prop :=
  NoDup st.2 ∧ ∀ x, x ∈ st.1 ↔ x ∈ ex ∨ x ∈ st.2.

Lemma visit_inv ex st x : seen_inv ex st → (∀ y, y ∈ st.2 → y ∉ ex) →
  seen_inv ex (visit st x) ∧ (∀ y, y ∈ (visit st x).2 ↔ y ∈ st.2 ∨ (y = x ∧ x ∉ ex)) ∧ (∀ y, y ∈ (visit st x).2 → y ∉ ex).
Proof.
  destruct st as [seen cands]. unfold seen_inv. simpl. intros [Hnd Hin] Hex. case_bool_decide as Hx; simpl.
  - split_and!; [done|done| |done]. intros y. rewrite Hin in Hx. split; [by left|]. intros [Hy|[-> Hn]]; [done|]. by destruct Hx.
  - rewrite Hin in Hx. assert (x ∉ ex ∧ x ∉ cands) as [Hx1 Hx2] by tauto. split_and!.
    + apply NoDup_app. split_and!; [done| |apply NoDup_singleton]. by intros y Hy ->%list_elem_of_singleton.
    + intros y. rewrite elem_of_union, elem_of_singleton, Hin, elem_of_app, list_elem_of_singleton. tauto.
    + intros y. rewrite elem_of_app, list_elem_of_singleton. split; [intros [?| ->]; auto|intros [?|[-> _]]; auto].
    + intros y. rewrite elem_of_app, list_elem_of_singleton. intros [Hy| ->]; [by apply Hex|done].
Qed.

Lemma visits_inv ex l st : seen_inv ex st → (∀ y, y ∈ st.2 → y ∉ ex) →
  seen_inv ex (foldl visit st l) ∧ (∀ y, y ∈ (foldl visit st l).2 ↔ y ∈ st.2 ∨ (y ∈ l ∧ y ∉ ex))
  ∧ (∀ y, y ∈ (foldl visit st l).2 → y ∉ ex).
Proof.
  revert st. induction l as [|a l IH]; intros st Hst Hex; simpl.
  { split_and!; [done| |done]. intros y. rewrite elem_of_nil. tauto. }
  destruct (visit_inv ex st a Hst Hex) as (H1 & H2 & H3). destruct (IH (visit st a) H1 H3) as (G1 & G2 & G3).
  split_and!; [done| |done]. intros y. rewrite G2, H2, elem_of_cons. split; [intros [[?|[-> ?]]|?]; tauto|].
  intros [?|[[->|?] ?]]; tauto.
Qed.

Lemma foldl_bind_visit l st : foldl visit st (l ≫= get_nbrs) = foldl (λ st n, foldl visit st (get_nbrs n)) st l.
Proof. revert st. induction l as [|a l IH]; intros st; csimpl; [done|]. by rewrite foldl_app, IH. Qed.

Lemma two_hop_spec center :
  NoDup (two_hop_candidates get_nbrs center)
  ∧ ∀ y, y ∈ two_hop_candidates get_nbrs center ↔
      y ≠ center ∧ y ∉ get_nbrs center ∧ ∃ n, n ∈ get_nbrs center ∧ y ∈ get_nbrs n.
Proof.
  unfold two_hop_candidates. set (ex := _ ∪ _). rewrite <- foldl_bind_visit.
  destruct (visits_inv ex (get_nbrs center ≫= get_nbrs) (ex, [])) as ([Hnd _] & Hin & _).
  { split; simpl; [constructor|]. intros x. rewrite elem_of_nil. tauto. }
  { by intros y ?%elem_of_nil. }
  split; [done|]. intros y. rewrite Hin. simpl. rewrite elem_of_nil, list_elem_of_bind. unfold ex.
  rewrite elem_of_union, elem_of_singleton, elem_of_list_to_set. split.
  - intros [[]|[(n & ? & ?) Hn]]. split_and!; [tauto|tauto|by exists n].
  - intros (? & ? & n & ? & ?). right. split; [by exists n|tauto].
Qed.
End two_hop_correct.

(** The dense neighbours drawn for a node are distinct nodes two hops away that
    are neither the node nor its neighbours, as many as there are up to the bound,
    for every shuffle that permutes its input. *)
Theorem sample_two_hop_correct shuffle get_nbrs center nnbrs_dense :
  (∀ l : list Z, shuffle l ≡ₚ l) →
  let out := sample_two_hop_nbrs shuffle get_nbrs center nnbrs_dense in
  NoDup out ∧ length out = Nat.min nnbrs_dense (length (two_hop_candidates get_nbrs center))
  ∧ (∀ y, y ∈ out → y ≠ center ∧ y ∉ get_nbrs center ∧ ∃ n, n ∈ get_nbrs center ∧ y ∈ get_nbrs n)
  ∧ (length (two_hop_candidates get_nbrs center) ≤ nnbrs_dense →
       ∀ y n, y ≠ center → y ∉ get_nbrs center → n ∈ get_nbrs center → y ∈ get_nbrs n → y ∈ out).
Proof.
  intros Hsh out. destruct (two_hop_spec get_nbrs center) as [Hnd Hin]. set (cands := two_hop_candidates get_nbrs center) in *.
  assert (out = take nnbrs_dense (shuffle cands)) as -> by (unfold out; by destruct nnbrs_dense).
  pose proof (Hsh cands) as Hp. split_and!.
  - eapply sublist_NoDup; [|apply sublist_take]. by rewrite Hp.
  - by rewrite length_take, Hp.
  - intros y Hy. apply Hin. rewrite <- Hp. rewrite elem_of_take in Hy. destruct Hy as (i & Hy & _). by eapply list_elem_of_lookup_2.
  - intros Hlen y n H1 H2 H3 H4. rewrite take_ge by (by rewrite Hp). rewrite Hp. apply Hin. split_and!; [done..|by exists n].
Qed.

(** ** Concrete runs *)

(** Four points of a line at 0, 1, 2 and 8, under squared distance. *)
Definition demo_pos (i : Z) : Z := match i with 1 => 1 | 2 => 2 | 3 => 8 | _ => 0 end%Z.
Definition demo_dist (a b : Z) : float := 
  binary_normalize f32_prec f32_emax ((demo_pos a - demo_pos b) * (demo_pos a - demo_pos b)) 0 false.
Definition demo_pool : list Neighbor := map (λ i, new_neighbor i (demo_dist 0 i)) [3; 1; 2]%Z.
Definition demo_params : IndexBuildParameters := mkParams 2 10 f_1_2 false.

Lemma prune_neighbors_correct_witness :
  ∃ out, prune_neighbors L2 demo_dist demo_pool [] demo_params = Some (candidates demo_params demo_pool, out)
  ∧ pruned L2 demo_dist demo_params (candidates demo_params demo_pool) out.
Proof.
  apply (prune_neighbors_correct L2 demo_dist demo_pool [] demo_params); [discriminate| | |discriminate].
  - repeat constructor.
  - apply (bool_decide_unpack _). vm_compute. exact I.
Defined.

Lemma delta_prune_correct_witness :
  ∃ out k n, delta_prune_neighbors L2 demo_dist [1; 2; 3]%Z 0%Z 3%Z demo_params = Some out
  ∧ tri_pool demo_dist [1; 2; 3]%Z 0%Z 3%Z !! k = Some n ∧ tn_id n :: out ≡ₚ [1; 2; 3]%Z
  ∧ ∃ last_id, last [1; 2; 3]%Z = Some last_id
    ∧ evict_reason L2 demo_dist (alpha demo_params) (demo_dist 0 last_id) 3%Z (tri_pool demo_dist [1; 2; 3]%Z 0%Z 3%Z) k.
Proof.
  apply (delta_prune_correct L2 demo_dist [1; 2; 3]%Z 0%Z 3%Z demo_params); [discriminate|].
  exists 2. split; [unfold prune_fuel; lia|reflexivity].
Defined.

Lemma sample_two_hop_correct_witness :
  NoDup (sample_two_hop_nbrs (@rev Z) (λ x, [x + 1; x + 2]%Z) 0%Z 1).
Proof. apply (sample_two_hop_correct (@rev Z) (λ x, [x + 1; x + 2]%Z) 0%Z 1). intros l. symmetry. apply Permutation_rev. Defined.

End Prune.
