(* ===== verification/MemIndex.v ===== *)
(** * The in-memory index ([include/index.h], [src/index.cpp])

    [Index] is the Vamana graph in memory: the neighbour lists [_final_graph], the
    vector records, the maps between tags and locations and the set of lazily
    deleted locations.  The file models searching, building, inserting, lazy
    deletion, consolidation and the tag file; the refinement of a built graph is
    in the file [NgFix].

    [None] is an access out of range, the abort on a wrong neighbour id, or a loop
    without end.  The distance of two records, the encoding of a vector, the drawn
    entry point and the iteration order of [robin_set] are parameters.  The
    [parallel for] loops take their nodes in an order that is a parameter as well. *)

From S2P Require Import Prelude Float32 Neighbor CandidatePool VisitedSet Prune.
Import Pool Prune.

Module Mem.
Local Open Scope nat_scope.

Definition kInvalidID : Z := UINT32_MAX.
Definition SLACK_FACTOR : double := ratio 13 10.
Definition INDEX_GROWTH_FACTOR : float := SpecFloat.S754_finite false 12582912 (-23).
Definition kMinPoints : nat := Z.to_nat 50000.

Record Index := mkIndex {
  final_graph : list (list Z);
  vectors : list (list Z);
  nd : nat;
  range : Z;
  R_base : Z;
  R_ood : Z;
  ep : Z;
  tag_to_location : gmap Z Z;
  location_to_tag : gmap Z Z;
  delete_set : gset Z
}.

(** [max_points()]: the slots of the vector store. *)
Definition max_points (s : Index) : nat := length (vectors s).

Definition set_graph (g : list (list Z)) (s : Index) : Index :=
  mkIndex g (vectors s) (nd s) (range s) (R_base s) (R_ood s) (ep s) (tag_to_location s) (location_to_tag s) (delete_set s).
Definition set_ep (e : Z) (s : Index) : Index :=
  mkIndex (final_graph s) (vectors s) (nd s) (range s) (R_base s) (R_ood s) e (tag_to_location s) (location_to_tag s)
    (delete_set s).
Definition set_tags (t : gmap Z Z) (l : gmap Z Z) (d : gset Z) (s : Index) : Index :=
  mkIndex (final_graph s) (vectors s) (nd s) (range s) (R_base s) (R_ood s) (ep s) t l d.

(** [v\[i\]] and [v\[i\] = x] for a 32-bit index. *)
Definition at_ {A} (l : list A) (i : Z) : option A := if Z.ltb i 0 then None else l !! Z.to_nat i.
Definition put {A} (l : list A) (i : Z) (x : A) : option (list A) :=
  if Z.ltb i 0 then None else vset l (Z.to_nat i) x.

Section index.
Context (metric : Metric) (compare_sym : list Z → list Z → float).
Context (encode normalize_data : list Z → list Z) (record_bytes : nat).
(** [uniform lo hi]: the draw of [calculate_entry_point]. *)
Context (uniform : Z → Z → Z) (hash_order : list Z → list Z).

(** ** Distances *)

(** [compute_dists_sym]: a record against stored records. *)
Definition compute_dists_sym (s : Index) (query : list Z) (ids : list Z) : option (list float) :=
  mapM (λ i, v ← at_ (vectors s) i; Some (compare_sym query v)) ids.

(** [compute_dists]: a stored record against stored records. *)
Definition compute_dists (s : Index) (source : Z) (ids : list Z) : option (list float) :=
  v ← at_ (vectors s) source; compute_dists_sym s v ids.

(** The same on ids known to be in range, as the pruning calls it. *)
Definition stored_dist (s : Index) (a b : Z) : float :=
  compare_sym (default [] (at_ (vectors s) a)) (default [] (at_ (vectors s) b)).

Definition prune (s : Index) (pool : list Neighbor) (out : list Z) (pr : IndexBuildParameters) : option (list Z) :=
  snd <$> prune_neighbors metric (stored_dist s) pool out pr.

(** ** Search *)

Definition calculate_entry_point (s : Index) : Z := uniform 0 (u32 (Z.of_nat (nd s) - 1)).

Record search_state := mkSearch {
  se_pool : CandidatePool;
  inserted_into_pool : VisitedSet.FlatVisitedSet;
  expanded_nodes_info : list Neighbor;
  hops : Z;
  cmps : Z
}.

(** The unseen neighbours of a node. *)
Fixpoint collect_unseen (n : nat) (nbrs : list Z) (vs : VisitedSet.FlatVisitedSet) (des : list Z)
    : option (VisitedSet.FlatVisitedSet * list Z) :=
  match nbrs with
  | [] => Some (vs, des)
  | i :: nbrs =>
      if Z.leb (Z.of_nat n) i then None
      else
        '(new, vs) ← VisitedSet.insert vs i;
        collect_unseen n nbrs vs (if (new : bool) then des ++ [i] else des)
  end.

(** One turn of the loop: [None] at the end. *)
Definition expand_next (s : Index) (query : list Z) (st : search_state) : option (option search_state) :=
  '(cur, p) ← next_unvisited (se_pool st);
  match cur with
  | None => Some None
  | Some k =>
      a ← retset_ p !! k;
      nbrs ← at_ (final_graph s) (id a);
      '(vs, des) ← collect_unseen (max_points s) nbrs (inserted_into_pool st) [];
      ds ← compute_dists_sym s query des;
      p ← insert_batch p (zip des ds);
      Some (Some (mkSearch p vs (expanded_nodes_info st ++ [a]) (u32 (hops st + 1))
                   (u32 (cmps st + Z.of_nat (length des)))))
  end.

Fixpoint search_loop (fuel : nat) (s : Index) (query : list Z) (st : search_state) : option search_state :=
  match fuel with
  | 0 => None
  | S fuel =>
      r ← expand_next s query st;
      match r with None => Some st | Some st => search_loop fuel s query st end
  end.

Definition search_start (s : Index) (query : list Z) (Lsize : nat) (e : Z) : option search_state :=
  vs ← VisitedSet.make 8192;
  '(_, vs) ← VisitedSet.insert vs e;
  ds ← compute_dists_sym s query [e];
  d ← head ds;
  '(_, p) ← insert (reset Lsize (Lsize + 1)) (new_neighbor e d);
  Some (mkSearch p vs [] 0 0).

(** The final state, and the closest nodes found.  A node is expanded at most
    once, so [max_points + 1] turns are enough. *)
Definition iterate_to_fixed_point (s : Index) (query : list Z) (Lsize : nat) (e : Z) : option (search_state * list Neighbor) :=
  st ← search_start s query Lsize e;
  st ← search_loop (S (max_points s)) s query st;
  Some (st, take (Nat.min Lsize (size (se_pool st))) (retset_ (se_pool st))).

Definition get_expanded_nodes (s : Index) (node_id : Z) (Lindex : nat) : option (list Neighbor) :=
  v ← at_ (vectors s) node_id;
  '(st, _) ← iterate_to_fixed_point s v Lindex (ep s);
  Some (expanded_nodes_info st).

Definition prepare_record (query : list Z) : list Z :=
  match metric with COSINE => encode (normalize_data query) | _ => encode query end.

Definition search_prepared (s : Index) (query : list Z) (L : nat) (cand_ids : option (list Z)) : option (list Neighbor) :=
  match cand_ids with
  | Some ids => ds ← compute_dists_sym s query ids; Some (std_sort (zip_with new_neighbor ids ds))
  | None => snd <$> iterate_to_fixed_point s query L (ep s)
  end.

(** The arrays [indices] and [distances]. *)
Definition search (s : Index) (query : list Z) (K L : nat) (cand_ids : option (list Z)) : option (list (Z * float)) :=
  if Nat.eqb K 0 || Nat.eqb L 0 then Some []
  else
    results ← search_prepared s (prepare_record query) L cand_ids;
    let found := map (λ a, (id a, distance a)) (take K results) in
    Some (found ++ replicate (K - length found) (kInvalidID, FLT_MAX)).

(** The results whose location has a tag, [K] at most. *)
Fixpoint tagged_results (s : Index) (K : nat) (results : list Neighbor) : list (Z * float) :=
  match results, K with
  | a :: results, S K' =>
      match location_to_tag s !! id a with
      | Some t => (t, distance a) :: tagged_results s K' results
      | None => tagged_results s K results
      end
  | _, _ => []
  end.

Definition search_with_tags (s : Index) (query : list Z) (K L : nat) (cand_ids : option (list Z)) : option (list (Z * float)) :=
  if Nat.eqb K 0 || Nat.eqb L 0 then Some []
  else
    results ← search_prepared s (prepare_record query) L cand_ids;
    Some (tagged_results s K results).

(** ** Linking *)

Definition slack (pr : IndexBuildParameters) : nat :=
  Z.to_nat (d_to_u64 (dmul SLACK_FACTOR (d_of_Z (Z.of_nat (R pr))))).

(** The candidates of [node] from an id list, with their distances to it. *)
Definition pool_of (s : Index) (node : Z) (ids : list Z) : option (list Neighbor) :=
  ds ← compute_dists s node ids;
  Some (List.filter (λ a, negb (Z.eqb (id a) node)) (zip_with new_neighbor ids ds)).

(** The first critical section of [inter_insert] on [des]: append [n] if there is
    room, or copy the neighbours for a pruning. *)
Definition add_reverse (pr : IndexBuildParameters) (n des : Z) (s : Index) : option (option (list Z) * Index) :=
  des_pool ← at_ (final_graph s) des;
  if bool_decide (n ∈ des_pool) then Some (None, s)
  else if Nat.ltb (length des_pool) (slack pr) then
    g ← put (final_graph s) des (des_pool ++ [n]); Some (None, set_graph g s)
  else Some (Some des_pool, s).

Definition assign_nbrs (node : Z) (l : list Z) (s : Index) : option Index :=
  g ← put (final_graph s) node l; Some (set_graph g s).

(** The pruning outside the locks, and the second critical section. *)
Definition reprune (pr : IndexBuildParameters) (n des : Z) (copy_of_neighbors : list Z) (s : Index) : option Index :=
  pool ← pool_of s des (copy_of_neighbors ++ [n]);
  new_out_neighbors ← prune s pool [] pr;
  assign_nbrs des new_out_neighbors s.

Fixpoint inter_insert (pr : IndexBuildParameters) (n : Z) (pruned_list : list Z) (s : Index) : option Index :=
  match pruned_list with
  | [] => Some s
  | des :: pruned_list =>
      '(copy, s) ← add_reverse pr n des s;
      s ← match copy with None => Some s | Some l => reprune pr n des l s end;
      inter_insert pr n pruned_list s
  end.

(** The search for the neighbours of [node] and their pruning. *)
Definition find_nbrs (pr : IndexBuildParameters) (L : nat) (node : Z) (s : Index) : option (list Z) :=
  pool ← get_expanded_nodes s node L;
  prune s (List.filter (λ a, negb (Z.eqb (id a) node)) pool) [] pr.

Definition link_node (pr : IndexBuildParameters) (L : nat) (node : Z) (s : Index) : option Index :=
  pruned_list ← find_nbrs pr L node s;
  s ← assign_nbrs node pruned_list s;
  inter_insert pr node pruned_list s.

Definition final_prune_node (pr : IndexBuildParameters) (node : Z) (s : Index) : option Index :=
  nbrs ← at_ (final_graph s) node;
  if Nat.ltb (R pr) (length nbrs) then
    pool ← pool_of s node nbrs;
    out ← prune s pool [] pr;
    assign_nbrs node out s
  else Some s.

Fixpoint for_each (f : Z → Index → option Index) (nodes : list Z) (s : Index) : option Index :=
  match nodes with [] => Some s | i :: nodes => s ← f i s; for_each f nodes s end.

Definition final_prune (pr : IndexBuildParameters) (order : list Z → list Z) (s : Index) : option Index :=
  for_each (final_prune_node pr) (order (seqZ 0 (Z.of_nat (nd s)))) s.

Definition link (pr : IndexBuildParameters) (L : nat) (order : list Z → list Z) (s : Index) : option Index :=
  let s := set_ep (calculate_entry_point s) s in
  s ← for_each (link_node pr L) (order (seqZ 0 (Z.of_nat (nd s)))) s;
  final_prune pr order s.

(** ** Insertion and lazy deletion *)

(** [None]: the store is full ([kInvalidID]). *)
Definition reserve_location (s : Index) : option (Z * Index) :=
  if Nat.leb (max_points s) (nd s) then None
  else Some (Z.of_nat (nd s),
    mkIndex (final_graph s) (vectors s) (S (nd s)) (range s) (R_base s) (R_ood s) (ep s) (tag_to_location s)
      (location_to_tag s) (delete_set s)).

Definition resize (new_max_points : nat) (s : Index) : Index :=
  let n := Nat.max new_max_points kMinPoints in
  mkIndex (vresize (final_graph s) n [])
    (if Nat.ltb (max_points s) n then vresize (vectors s) n (replicate record_bytes 0%Z) else vectors s)
    (nd s) (range s) (R_base s) (R_ood s) (ep s) (tag_to_location s) (location_to_tag s) (delete_set s).

(** The constructor over a store of [npoints] records. *)
Definition new_index (store : list (list Z)) (npoints n : nat) : Index :=
  let s := mkIndex [] store npoints 0 0 0 0 ∅ ∅ ∅ in
  if Nat.ltb (length store) n then resize n s else set_graph (vresize [] (length store) []) s.

(** The constructor from the metadata of a saved index. *)
Definition restored_index (entry_point meta_range meta_R_ood : Z) (store : list (list Z)) (npoints : nat) : Index :=
  let s := new_index store npoints 0 in
  mkIndex (final_graph s) (vectors s) (nd s) (meta_range mod 2 ^ 16)
    ((meta_range mod 2 ^ 16 - meta_R_ood mod 2 ^ 16) mod 2 ^ 16) (meta_R_ood mod 2 ^ 16) (u32 entry_point)
    (tag_to_location s) (location_to_tag s) (delete_set s).

(** [(size_t) (max_points() * INDEX_GROWTH_FACTOR)]. *)
Definition growth (n : nat) : nat :=
  Z.to_nat (sf_trunc (fmul (SpecFloat.binary_normalize f32_prec f32_emax (Z.of_nat n) 0 false) INDEX_GROWTH_FACTOR)).

(** The loop around [reserve_location]; each turn resizes a full store. *)
Fixpoint reserve_loop (fuel : nat) (s : Index) : option (Z * Index) :=
  match reserve_location s with
  | Some r => Some r
  | None =>
      match fuel with
      | 0 => None
      | S fuel => reserve_loop fuel (if Nat.leb (max_points s) (nd s) then resize (growth (max_points s)) s else s)
      end
  end.

(** Mark the location of a tag for deletion, if it has one. *)
Definition drop_tag (tag : Z) (s : Index) : Index :=
  match tag_to_location s !! tag with
  | None => s
  | Some l => set_tags (delete tag (tag_to_location s)) (delete l (location_to_tag s)) ({[l]} ∪ delete_set s) s
  end.

(** Reserve a location for the point: its tag and its record. *)
Definition place_point (point : list Z) (pr : IndexBuildParameters) (tag : Z) (s : Index) : option (Z * Index) :=
  let s := mkIndex (final_graph s) (vectors s) (nd s) (Z.max (range s) (Z.of_nat (R pr) mod 2 ^ 16)) (R_base s) (R_ood s)
             (ep s) (tag_to_location s) (location_to_tag s) (delete_set s) in
  '(location, s) ← reserve_loop 1 (drop_tag tag s);
  let s := set_tags (<[tag := location]> (tag_to_location s)) (<[location := tag]> (location_to_tag s)) (delete_set s) s in
  vs ← put (vectors s) location (prepare_record point);
  Some (location, mkIndex (final_graph s) vs (nd s) (range s) (R_base s) (R_ood s) (ep s) (tag_to_location s)
                    (location_to_tag s) (delete_set s)).

(** The new location, and the index after the insertion.  The point is linked as
    a node of a build is. *)
Definition insert_point (point : list Z) (pr : IndexBuildParameters) (L : nat) (tag : Z) (s : Index) : option (Z * Index) :=
  '(location, s) ← place_point point pr tag s;
  s ← link_node pr L location s;
  Some (location, s).

Definition lazy_delete (tag : Z) (s : Index) : Z * Index :=
  match tag_to_location s !! tag with None => ((-1)%Z, s) | Some _ => (0%Z, drop_tag tag s) end.

(** ** Consolidation *)

(** New ids in the order of the locations that carry a tag. *)
Fixpoint id_map_loop (l2t : gmap Z Z) (old_ids : list Z) (new_nd : Z) : list Z * Z :=
  match old_ids with
  | [] => ([], new_nd)
  | i :: old_ids =>
      match l2t !! i with
      | Some _ => let '(m, n) := id_map_loop l2t old_ids (u32 (new_nd + 1)) in (new_nd :: m, n)
      | None => let '(m, n) := id_map_loop l2t old_ids new_nd in (kInvalidID :: m, n)
      end
  end.

Definition make_id_map (s : Index) : list Z * Z :=
  id_map_loop (location_to_tag s) (seqZ 0 (Z.of_nat (max_points s))) 0.

(** Replace the deleted neighbours of [old_id] by their surviving neighbours. *)
Fixpoint two_hop (id_map : list Z) (old_id : Z) (l : list Z) (set : gset Z) : option (gset Z) :=
  match l with
  | [] => Some set
  | x :: l =>
      n ← at_ id_map x;
      two_hop id_map old_id l (if negb (Z.eqb n kInvalidID) && negb (Z.eqb x old_id) then {[x]} ∪ set else set)
  end.

Fixpoint patch_nbrs (s : Index) (id_map : list Z) (old_id : Z) (l : list Z) (set : gset Z) : option (gset Z) :=
  match l with
  | [] => Some set
  | nbr :: l =>
      n ← at_ id_map nbr;
      set ← (if Z.eqb n kInvalidID then nn ← at_ (final_graph s) nbr; two_hop id_map old_id nn set
             else Some ({[nbr]} ∪ set));
      patch_nbrs s id_map old_id l set
  end.

Definition consolidate_node (pr : IndexBuildParameters) (id_map : list Z) (old_id : Z) (s : Index) : option Index :=
  n ← at_ id_map old_id;
  if Z.eqb n kInvalidID then Some s
  else
    nbrs ← at_ (final_graph s) old_id;
    set ← patch_nbrs s id_map old_id nbrs ∅;
    let new_nbrs := hash_order (elements set) in
    new_nbrs ← (if Nat.ltb (R pr) (length new_nbrs) then
                  ds ← compute_dists s old_id new_nbrs;
                  prune s (zip_with new_neighbor new_nbrs ds) new_nbrs pr
                else Some new_nbrs);
    new_nbrs ← mapM (at_ id_map) new_nbrs;
    assign_nbrs old_id new_nbrs s.

(** Move a node to its new id. *)
Definition compact_node (id_map : list Z) (old_id : Z) (s : Index) : option Index :=
  new_id ← at_ id_map old_id;
  if Z.eqb new_id kInvalidID || Z.eqb new_id old_id then Some s
  else
    l ← at_ (final_graph s) old_id;
    g ← put (final_graph s) old_id [];
    g ← put g new_id l;
    v ← at_ (vectors s) old_id;
    vs ← put (vectors s) new_id v;
    Some (mkIndex g vs (nd s) (range s) (R_base s) (R_ood s) (ep s) (tag_to_location s) (location_to_tag s) (delete_set s)).

(** Rebuild the tag maps. *)
Fixpoint remap_tags (id_map : list Z) (l : list (Z * Z)) (t2l l2t : gmap Z Z) : option (gmap Z Z * gmap Z Z) :=
  match l with
  | [] => Some (t2l, l2t)
  | (tag, old_loc) :: l =>
      new_loc ← at_ id_map old_loc;
      if Z.eqb new_loc kInvalidID then remap_tags id_map l t2l l2t
      else remap_tags id_map l (<[tag := new_loc]> t2l) (<[new_loc := tag]> l2t)
  end.

Definition consolidate (pr : IndexBuildParameters) (order : list Z → list Z) (s : Index) : option Index :=
  if bool_decide (delete_set s = ∅) then Some s
  else
    let '(id_map, new_nd) := make_id_map s in
    let ids := seqZ 0 (Z.of_nat (max_points s)) in
    s ← for_each (consolidate_node pr id_map) (order ids) s;
    s ← for_each (compact_node id_map) ids s;
    let g := take (Z.to_nat new_nd) (final_graph s) ++ replicate (max_points s - Z.to_nat new_nd) [] in
    '(t2l, l2t) ← remap_tags id_map (map_to_list (tag_to_location s)) ∅ ∅;
    let s' := mkIndex g (vectors s) (Z.to_nat new_nd) (range s) (R_base s) (R_ood s) (ep s) t2l l2t ∅ in
    e ← at_ id_map (ep s);
    Some (set_ep (if Z.eqb e kInvalidID then calculate_entry_point s' else e) s').

(** ** The tag file *)

(** [None]: no file. *)
Definition save_tags (s : Index) : option (list Z) :=
  if bool_decide (location_to_tag s = ∅) then None
  else Some (map (λ i, default 0%Z (location_to_tag s !! i)) (seqZ 0 (Z.of_nat (nd s)))).

Definition load_tags (tags_file : option (list Z)) (s : Index) : Index :=
  let tag_v := match tags_file with Some v => v | None => seqZ 0 (Z.of_nat (nd s)) end in
  let l := zip (seqZ 0 (Z.of_nat (length tag_v))) tag_v in
  set_tags (foldl (λ m x, <[x.2 := x.1]> m) ∅ l) (foldl (λ m x, <[x.1 := x.2]> m) ∅ l) (delete_set s) s.

End index.

End Mem.
