(* ===== verification/MemSearch.v ===== *)
(** * Correctness of the search of the in-memory index

    [iterate_to_fixed_point] of the file [MemIndex]: it ends, stays in range, and
    returns the fixed point of the greedy walk.  The expansion of a node is the
    expansion step of the pipelined search with an empty bridge pool, so the
    invariant of the walk is the one of [PipeProof]. *)

From S2P Require Import Prelude Float32 Neighbor CandidatePool PoolBatch PoolSearch VisitedSet Prune.
From S2P Require Import PipeSearch PipeProof MemIndex.
Import Pool.

Module MemSearch.
Import Mem.
Import Pipe PipeProof.
Local Open Scope nat_scope.

Section search.
Context (compare_sym : list Z → list Z → float) (Hnan : ∀ u v, not_nan (compare_sym u v)).
Context (s : Mem.Index) (qv : list Z) (L : nat) (e : Z).

Definition record_of (i : Z) : list Z := default [] (at_ (vectors s) i).
Definition nbrs_of (i : Z) : list Z := default [] (at_ (final_graph s) i).
Definition dist_to (i : Z) : float := compare_sym qv (record_of i).

(** The graph and the query as the pipelined search sees them. *)
Definition as_index : Pipe.index :=
  Pipe.mkIndex (λ i, mkDisk (record_of i) (nbrs_of i) [] []) dist_to (compare_sym qv) (λ i, i) (λ i, i) e [].
Definition as_query : Pipe.query := do_pipe_search 0 L 1 0 false false.

(** Every neighbour list of an occupied node points to occupied nodes. *)
Definition edges_ok : Prop :=
  nd s ≤ max_points s ∧ length (final_graph s) = max_points s
  ∧ ∀ i j, (0 <= i < Z.of_nat (nd s))%Z → j ∈ nbrs_of i → (0 <= j < Z.of_nat (nd s))%Z.

Context (Hedges : edges_ok).

Definition occupied (i : Z) : Prop := (0 <= i < Z.of_nat (nd s))%Z.

Lemma at_occupied {A} (l : list A) i d : occupied i → nd s ≤ length l → at_ l i = Some (default d (at_ l i)).
Proof.
  intros Hi Hl. unfold at_, occupied in *. destruct (Z.ltb_spec i 0); [lia|].
  destruct (lookup_lt_is_Some_2 l (Z.to_nat i)) as [x ->]; [lia|done].
Qed.

Lemma dists_occupied ids :
  (∀ i, i ∈ ids → occupied i) → compute_dists_sym compare_sym s qv ids = Some (map dist_to ids).
Proof.
  intros H. unfold compute_dists_sym. induction ids as [|i ids IH]; [done|]. simpl.
  rewrite (at_occupied (vectors s) i []); [|apply H; left|apply Hedges]. simpl.
  rewrite IH by (intros j Hj; apply H; by right). done.
Qed.

Context (HL : 1 ≤ L) (He : (0 <= e < Z.of_nat (nd s))%Z).

Lemma collect_unseen_members l a cap :
  (∀ i, i ∈ l → occupied i) → length (sc_ids a) + length l ≤ cap →
  ∃ c, collect_members as_query cap l a
       = match collect_unseen (max_points s) l (sc_visited a) (sc_ids a) with
         | Some (vs, ids) => Ok (mkAcc vs ids c.1 c.2)
         | None => Fault OutOfRange
         end.
Proof.
  revert a. induction l as [|i l IH]; intros a Hl Hc; cbn [collect_members collect_unseen].
  { exists (sc_seen a, sc_match a). by destruct a. }
  simpl in Hc. destruct (Nat.ltb_spec (length (sc_ids a)) cap); [|lia].
  assert (Hi : occupied i) by (apply Hl; left). unfold occupied in Hi.
  destruct (Z.leb_spec (Z.of_nat (max_points s)) i); [pose proof (proj1 Hedges); lia|].
  change (is_member_approx as_query i) with true. unfold visit.
  cbn [sc_visited sc_ids sc_seen sc_match]. destruct (VisitedSet.insert (sc_visited a) i) as [[new vs]|]; [|by exists (0, 0)%Z].
  cbn [lift mbind res_bind option_bind sc_visited sc_ids sc_seen sc_match].
  set (a1 := mkAcc _ _ _ _). destruct (IH a1) as [c Hc1].
  { intros j Hj. apply Hl. by right. }
  { simpl. destruct new; rewrite ?length_app; simpl; lia. }
  exists c. exact Hc1.
Qed.

Lemma collect_unseen_from n l vs ids vs' des :
  (∀ j, j ∈ l ++ ids → occupied j) → collect_unseen n l vs ids = Some (vs', des) → ∀ j, j ∈ des → occupied j.
Proof.
  revert vs ids. induction l as [|x l IH]; intros vs ids H; simpl; [by intros [= <- <-]|].
  destruct (Z.leb _ _); [done|]. destruct (VisitedSet.insert vs x) as [[new v1]|]; [|done]. simpl.
  apply IH. intros j Hj. apply H. simpl. destruct new; set_solver.
Qed.

(** The walk of a state: its pool and its visited set, without bridges. *)
Definition no_bridges : CandidatePool := reset (kCandCap as_query) (kCandCap as_query + 1).
Definition walk_of (p : CandidatePool) (vs : VisitedSet.FlatVisitedSet) : walk := mkWalk p no_bridges vs d_zero.

(** Expanding a node is the expansion step of the pipelined search. *)
Lemma expand_as_pipe p vs i w :
  occupied i → wf p → compute_and_push_nbrs as_query as_index (read_node as_index i) (walk_of p vs) = Ok w →
  ∃ vs' des p', collect_unseen (max_points s) (nbrs_of i) vs [] = Some (vs', des)
  ∧ compute_dists_sym compare_sym s qv des = Some (map dist_to des)
  ∧ insert_batch p (zip des (map dist_to des)) = Some p'
  ∧ pool w = p' ∧ visited_set w = vs' ∧ cand_pool w = no_bridges.
Proof.
  intros Hi Hwf. assert (Hn : ∀ j, j ∈ nbrs_of i → occupied j) by (intros j; by apply Hedges).
  unfold compute_and_push_nbrs, collect. cbn [use_dense_nbrs as_query do_pipe_search nbrs read_node as_index visited_set walk_of].
  destruct (collect_unseen_members (nbrs_of i) (mkAcc vs [] 0 0) (length (nbrs_of i)) Hn) as [c ->]; [done|].
  cbn [sc_visited sc_ids]. destruct (collect_unseen (max_points s) (nbrs_of i) vs []) as [[vs' des]|] eqn:Ec; [|done].
  cbn [mbind res_bind sc_ids sc_visited pool cand_pool walk_of]. cbv zeta.
  assert (Hdes : ∀ j, j ∈ des → occupied j) by (eapply collect_unseen_from; [|exact Ec]; by rewrite app_nil_r).
  assert (Hzip : zip des (map dist_to des) = map (λ i, (i, dist_to i)) des).
  { clear. induction des as [|j des IH]; [done|]. simpl. by rewrite IH. }
  change (compute_dist as_index) with dist_to. intros Hw.
  exists vs', des. rewrite Hzip. rewrite length_map in Hw.
  destruct (Nat.eqb_spec (length des) 0).
  - destruct des; [|done]. simplify_eq/=. exists p. split_and!; try done. by apply insert_batch_nil.
  - rewrite take_ge, drop_ge in Hw by (by rewrite length_map). cbn [insert_candidates] in Hw.
    destruct (insert_batch p (map (λ i, (i, dist_to i)) des)) as [p'|] eqn:Ep; [|done].
    cbn [lift mbind res_bind] in Hw. exists p'. change (size no_bridges) with 0 in Hw. simpl in Hw. simplify_eq/=.
    split_and!; try done. by apply dists_occupied.
Qed.

(** ** The invariant of the search *)

Record found (st : search_state) : Prop := mkFound {
  fo_walk : walk_ok as_query as_index (walk_of (se_pool st) (inserted_into_pool st));
  fo_pos : 0 < cur_list_size_ (se_pool st);
  fo_keys : ∀ i, i ∈ VisitedSet.keys (inserted_into_pool st) → occupied i;
  fo_exp : ∀ a, a ∈ expanded_nodes_info st → distance a = dist_to (id a);
  fo_nodup : NoDup (id <$> expanded_nodes_info st);
  fo_seen : ∀ i, i ∈ id <$> expanded_nodes_info st → i ∈ VisitedSet.keys (inserted_into_pool st);
  fo_done : ∀ a, a ∈ live (se_pool st) → visited a = true ↔ id a ∈ id <$> expanded_nodes_info st;
  fo_closed : ∀ i j, i ∈ id <$> expanded_nodes_info st → j ∈ nbrs_of i → j ∈ VisitedSet.keys (inserted_into_pool st)
}.

Lemma search_start_correct :
  ∃ st, search_start compare_sym s qv L e = Some st ∧ found st ∧ expanded_nodes_info st = [].
Proof.
  unfold search_start. destruct (VisitedSet.make_correct 8192) as (vs0 & -> & Hvs0 & Hk0 & _); [lia|].
  cbn [mbind option_bind]. destruct (VisitedSet.visited_insert_correct vs0 e Hvs0) as (vs & -> & Hvs & Hk).
  cbn [mbind option_bind]. rewrite dists_occupied by (intros i ->%list_elem_of_singleton; done). simpl.
  change (new_neighbor e (dist_to e)) with (nb (scored as_index e)).
  assert (Hwf0 : wf (reset L (L + 1))) by (by apply wf_reset).
  destruct (insert_correct (reset L (L + 1)) (nb (scored as_index e)) Hwf0) as (p & -> & Hins);
    [apply Hnan|apply not_elem_of_nil|]. simpl.
  pose proof Hins as [Hwf Hl Hlive _ _].
  assert (Hlv : live p = [nb (scored as_index e)]).
  { rewrite Hlive. unfold top. change (live (reset L (L + 1))) with ([] : list Neighbor). rewrite sorted_insert_nil.
    rewrite take_ge; [done|]. simpl. lia. }
  assert (Hkeys : VisitedSet.keys vs = {[e]}) by (rewrite Hk, Hk0; set_solver).
  eexists. split; [done|]. split; [|done].
  assert (Hset : settled p).
  { by apply (inserted_settled (reset L (L + 1)) p (nb (scored as_index e))). }
  split; cbn [se_pool inserted_into_pool expanded_nodes_info fmap list_fmap]; rewrite ?Hkeys.
  - split; cbn [pool cand_pool visited_set walk_of]; rewrite ?Hlv, ?Hkeys; try done.
    + apply wf_reset. unfold kCandCap. lia.
    + apply NoDup_singleton.
    + apply NoDup_nil_2.
    + intros a c _ Hc. by apply not_elem_of_nil in Hc.
    + simpl. intros a ->%list_elem_of_singleton. set_solver.
    + intros a ->%list_elem_of_singleton. done.
    + intros c Hc. by apply not_elem_of_nil in Hc.
    + intros i ->%list_elem_of_singleton. set_solver.
    + intros i Hi _. left. simpl. set_solver.
  - apply (f_equal length) in Hlv. rewrite live_length in Hlv by done. simpl in Hlv. lia.
  - intros i ->%elem_of_singleton. done.
  - intros a Ha. by apply not_elem_of_nil in Ha.
  - apply NoDup_nil_2.
  - intros i Hi. by apply not_elem_of_nil in Hi.
  - rewrite Hlv. intros a ->%list_elem_of_singleton. simpl. split; [done|]. intros Hi. by apply not_elem_of_nil in Hi.
  - intros i j Hi. by apply not_elem_of_nil in Hi.
Qed.

Lemma as_nan i : not_nan (compute_dist as_index i).
Proof. apply Hnan. Qed.

(** The pool after the closest unvisited candidate is marked. *)
Lemma marked_pool st k a p :
  found st → live (se_pool st) !! k = Some a → visited a = false → wf p → settled p →
  l_pool_ p = l_pool_ (se_pool st) → live p = alter set_visited k (live (se_pool st)) →
  retset_ p !! k = Some (set_visited a) ∧ walk_ok as_query as_index (walk_of p (inserted_into_pool st))
  ∧ 0 < cur_list_size_ p
  ∧ ∀ x, x ∈ live p → visited x = true ↔ id x = id a ∨ id x ∈ id <$> expanded_nodes_info st.
Proof.
  intros Hf Ha Hva Hwf Hset Hl Hlive. pose proof (fo_walk _ Hf) as Hw.
  assert (Hk : live p !! k = Some (set_visited a)) by (by rewrite Hlive, list_lookup_alter_eq, Ha).
  split_and!.
  - by apply live_lookup in Hk as [? _].
  - by apply (walk_ok_alter as_query as_index set_visited k (walk_of (se_pool st) (inserted_into_pool st))).
  - apply lookup_lt_Some in Hk. rewrite live_length in Hk by done. lia.
  - intros x (j & Hj)%list_elem_of_lookup. rewrite Hlive in Hj. destruct (decide (j = k)) as [->|Hne].
    + rewrite list_lookup_alter_eq, Ha in Hj. simplify_eq/=. naive_solver.
    + rewrite list_lookup_alter_ne in Hj by done.
      rewrite (fo_done _ Hf x (list_elem_of_lookup_2 _ _ _ Hj)). split; [by right|]. intros [E|]; [|done].
      pose proof (wk_nodup _ _ _ Hw) as Hnd. simpl in Hnd. rewrite NoDup_alt in Hnd. destruct Hne.
      apply (Hnd j k (id x)); rewrite list_lookup_fmap; [by rewrite Hj|by rewrite Ha, E].
Qed.

Lemma expand_next_correct st :
  found st →
  match expand_next compare_sym s qv st with
  | Some None => Forall (λ a, visited a = true) (live (se_pool st))
  | Some (Some st') => found st' ∧ length (expanded_nodes_info st') = S (length (expanded_nodes_info st))
  | None => False
  end.
Proof.
  intros Hf. pose proof (fo_walk _ Hf) as Hw. pose proof (wk_wf _ _ _ Hw) as Hwf0. simpl in Hwf0.
  destruct (next_unvisited_correct (se_pool st) Hwf0 (wk_settled _ _ _ Hw)) as (o & p & Ho & Hwf & Hset & Hl & Hc).
  unfold expand_next. rewrite Ho. cbn [mbind option_bind]. destruct o as [k|]; [|by destruct Hc].
  destruct Hc as ((a & Ha & Hva) & _ & Hlive).
  destruct (marked_pool st k a p) as (Hk & Hw1 & Hcur & Hvis); try done. rewrite Hk. cbn [mbind option_bind].
  assert (Hseen : id a ∈ VisitedSet.keys (inserted_into_pool st)).
  { apply (wk_seen _ _ _ Hw). simpl. apply elem_of_app. left. by eapply list_elem_of_lookup_2. }
  assert (Hocc : occupied (id a)) by (by apply (fo_keys _ Hf)).
  assert (Hnew : id a ∉ id <$> expanded_nodes_info st).
  { intros Hi. apply (fo_done _ Hf a) in Hi; [congruence|by eapply list_elem_of_lookup_2]. }
  change (id (set_visited a)) with (id a).
  rewrite (at_occupied (final_graph s) (id a) []); [|done|rewrite (proj1 (proj2 Hedges)); apply Hedges].
  cbn [mbind option_bind]. fold (nbrs_of (id a)).
  destruct (compute_and_push_nbrs_correct as_query as_index as_nan (read_node as_index (id a)) _ Hw1 Hcur)
    as (w' & l & Hrun & Hw' & [Hlive' _ Hnl _ Hkeys Hfrom Hnb]).
  destruct (expand_as_pipe p (inserted_into_pool st) (id a) w' Hocc Hwf Hrun) as (vs' & des & p' & -> & Hd & Hp & Epool & Evs & Ec).
  cbn [mbind option_bind]. rewrite Hd. cbn [mbind option_bind]. rewrite Hp. cbn [mbind option_bind]. subst p' vs'.
  split; [|simpl; rewrite length_app; simpl; lia].
  assert (Hids : id <$> (expanded_nodes_info st ++ [set_visited a]) = (id <$> expanded_nodes_info st) ++ [id a]).
  { by rewrite fmap_app. }
  simpl in Hkeys, Hfrom, Hnb, Hnl.
  split; cbn [se_pool inserted_into_pool expanded_nodes_info]; rewrite ?Hids.
  - destruct w' as [p1 c1 v1 m1]. simpl in *. subst c1. by apply (walk_ok_ema _ _ _ _ _ m1).
  - assert (grown L (live p) (scores as_index l) ≠ []) as Hne.
    { unfold grown. intros E. apply (f_equal length) in E. rewrite length_take in E.
      pose proof (Permutation_length (union_Permutation (live p) (scores as_index l))) as El.
      rewrite length_app, live_length in El by done. rewrite El in E. simpl in E. lia. }
    pose proof (wk_wf _ _ _ Hw') as Hwf'. rewrite <- live_length by done. simpl in Hlive'. rewrite Hlive'.
    destruct (grown _ _ _); [done|simpl; lia].
  - intros i [Hi|Hi]%Hfrom; [by apply (fo_keys _ Hf)|]. rewrite app_nil_r in Hi. by apply (proj2 (proj2 Hedges) (id a)).
  - intros x [Hx| ->%list_elem_of_singleton]%elem_of_app; [by apply (fo_exp _ Hf)|].
    apply (wk_dist _ _ _ Hw a). by eapply list_elem_of_lookup_2.
  - apply NoDup_app. split_and!; [apply Hf| |apply NoDup_singleton]. by intros i Hi ->%list_elem_of_singleton.
  - intros i [Hi| ->%list_elem_of_singleton]%elem_of_app; apply Hkeys; [by apply (fo_seen _ Hf)|done].
  - intros x Hx. rewrite elem_of_app, list_elem_of_singleton. simpl in Hlive'. rewrite Hlive' in Hx.
    apply grown_elem in Hx as [Hx|Hx]; [rewrite (Hvis x Hx); tauto|].
    apply scores_elem in Hx as [Hx E]. assert (Hvx : visited x = false) by (by rewrite E).
    split; [congruence|].
    assert (Hnk : id x ∉ VisitedSet.keys (inserted_into_pool st)).
    { destruct (Hnl _ Hx) as [|Hx']; [done|]. by apply not_elem_of_nil in Hx'. }
    intros [Hi|Ei]; destruct Hnk; [by apply (fo_seen _ Hf)|by rewrite Ei].
  - intros i j [Hi| ->%list_elem_of_singleton]%elem_of_app Hj.
    + apply Hkeys. by apply (fo_closed _ Hf i).
    + by apply Hnb.
Qed.

Lemma expanded_bound st : found st → length (expanded_nodes_info st) ≤ nd s.
Proof.
  intros Hf. rewrite <- (length_fmap id). replace (nd s) with (length (seqZ 0 (Z.of_nat (nd s)))) by (rewrite length_seqZ; lia).
  apply submseteq_length, NoDup_submseteq; [apply Hf|]. intros i Hi. apply elem_of_seqZ.
  pose proof (fo_keys _ Hf i (fo_seen _ Hf i Hi)) as H. unfold occupied in H. lia.
Qed.

Lemma search_loop_correct fuel st :
  found st → nd s - length (expanded_nodes_info st) < fuel →
  ∃ st', search_loop compare_sym fuel s qv st = Some st' ∧ found st'
  ∧ Forall (λ a, visited a = true) (live (se_pool st')).
Proof.
  revert st. induction fuel as [|fuel IH]; intros st Hf Hfuel; [lia|]. cbn [search_loop].
  pose proof (expand_next_correct st Hf) as Hn. destruct (expand_next compare_sym s qv st) as [[st'|]|]; [| |done].
  - destruct Hn as [Hf' Hlen]. cbn [mbind option_bind]. pose proof (expanded_bound st' Hf').
    apply IH; [done|lia].
  - by exists st.
Qed.

(** [i] is in [P], or [P] is full and everything in it is closer to the query. *)
Definition within (P : list Z) (i : Z) : Prop :=
  i ∈ P ∨ length P = L ∧ ∀ j, j ∈ P → nb_lt (new_neighbor j (dist_to j)) (new_neighbor i (dist_to i)).

(** What a search returns: the closest nodes and the expanded ones. *)
Record fixed_point (best expanded : list Neighbor) : Prop := mkFixed {
  fx_sorted : nsorted best;
  fx_len : length best ≤ L;
  fx_best : ∀ a, a ∈ best → occupied (id a) ∧ distance a = dist_to (id a) ∧ id a ∈ id <$> expanded;
  fx_nodup : NoDup (id <$> best);
  fx_start : within (id <$> best) e;
  fx_closed : ∀ i j, i ∈ id <$> expanded → j ∈ nbrs_of i → within (id <$> best) j;
  fx_expanded : ∀ a, a ∈ expanded → occupied (id a) ∧ distance a = dist_to (id a);
  fx_once : NoDup (id <$> expanded)
}.

Lemma iterate_correct :
  ∃ st best, iterate_to_fixed_point compare_sym s qv L e = Some (st, best)
  ∧ fixed_point best (expanded_nodes_info st).
Proof.
  unfold iterate_to_fixed_point. destruct search_start_correct as (st0 & -> & Hf0 & He0). cbn [mbind option_bind].
  destruct (search_loop_correct (S (max_points s)) st0 Hf0) as (st & -> & Hf & Hall).
  { pose proof (proj1 Hedges). lia. }
  cbn [mbind option_bind]. pose proof (fo_walk _ Hf) as Hw. pose proof (wk_wf _ _ _ Hw) as Hwf. simpl in Hwf.
  pose proof (wk_l _ _ _ Hw) as Hl. simpl in Hl.
  assert (Hbest : take (Nat.min L (size (se_pool st))) (retset_ (se_pool st)) = live (se_pool st)).
  { unfold live, size. f_equal. pose proof (wf_cur _ Hwf). lia. }
  exists st, (live (se_pool st)). rewrite Hbest. split; [done|]. rewrite Forall_forall in Hall.
  assert (Hkeep : ∀ i, i ∈ VisitedSet.keys (inserted_into_pool st) → within (id <$> live (se_pool st)) i).
  { intros i Hi. apply (wk_kept _ _ _ Hw i Hi). by left. }
  split.
  - apply Hwf.
  - rewrite live_length by done. pose proof (wf_cur _ Hwf). lia.
  - intros a Ha. assert (Hx : id a ∈ id <$> expanded_nodes_info st) by (apply (fo_done _ Hf); auto).
    split_and!; [..|by apply (wk_dist _ _ _ Hw)|done]; by apply (fo_keys _ Hf), (fo_seen _ Hf).
  - apply Hw.
  - apply Hkeep, (wk_starts _ _ _ Hw). left.
  - intros i j Hi Hj. by apply Hkeep, (fo_closed _ Hf i).
  - intros a Ha. assert (Hi : id a ∈ id <$> expanded_nodes_info st) by (by apply list_elem_of_fmap_2).
    split_and!; [..|by apply (fo_exp _ Hf)]; by apply (fo_keys _ Hf), (fo_seen _ Hf).
  - apply Hf.
Qed.
End search.
End MemSearch.
