(* ===== verification/MemProof.v ===== *)
(** * Correctness of the updates of the in-memory index

    The invariant of [Index] ([MemIndex]) and its preservation by building,
    insertion, lazy deletion and consolidation; the abstract state is the map from
    tags to vector records. *)

From S2P Require Import Prelude Float32 Neighbor CandidatePool Prune PipeSearch PipeProof MemIndex MemSearch.

Module MemProof.
Import PipeProof Prune Mem MemSearch.
Local Open Scope nat_scope.

(** ** Arrays *)

Lemma at_lookup {A} (l : list A) i x : at_ l i = Some x ↔ (0 <= i)%Z ∧ l !! Z.to_nat i = Some x.
Proof. unfold at_. destruct (Z.ltb_spec i 0); split; [done|lia|done|by intros [_ ?]]. Qed.

Lemma at_Some {A} (l : list A) i : (0 <= i < Z.of_nat (length l))%Z → is_Some (at_ l i).
Proof.
  intros Hi. unfold at_. destruct (Z.ltb_spec i 0); [lia|]. apply lookup_lt_is_Some. lia.
Qed.

Lemma put_Some {A} (l : list A) i x : (0 <= i < Z.of_nat (length l))%Z → put l i x = Some (<[Z.to_nat i := x]> l).
Proof. intros Hi. unfold put. destruct (Z.ltb_spec i 0); [lia|]. apply vset_Some. lia. Qed.

Lemma at_put {A} (l : list A) i j x :
  (0 <= i < Z.of_nat (length l))%Z → at_ (<[Z.to_nat i := x]> l) j = if decide (j = i) then Some x else at_ l j.
Proof.
  intros Hi. unfold at_. destruct (decide (j = i)) as [->|Hne].
  - destruct (Z.ltb_spec i 0); [lia|]. apply list_lookup_insert_eq. lia.
  - destruct (Z.ltb_spec j 0); [done|]. apply list_lookup_insert_ne. lia.
Qed.

Section graph.
Context (metric : Metric) (compare_sym : list Z → list Z → float).
Context (Hnan : ∀ u v, not_nan (compare_sym u v)).
Context (pr : IndexBuildParameters) (Halpha : alpha pr ≠ f_infinity).

Definition below (n : nat) (i : Z) : Prop := (0 <= i < Z.of_nat n)%Z.

(** A neighbour list of node [i] among [n] nodes: no repetition, no loop. *)
Record nbrs_ok (n D : nat) (i : Z) (l : list Z) : Prop := mkNbrsOk {
  no_in : ∀ x, x ∈ l → below n x ∧ x ≠ i;
  no_nodup : NoDup l;
  no_len : length l ≤ D
}.

(** The graph: one list per slot, empty beyond the occupied prefix. *)
Record graph_ok (D : nat) (s : Index) : Prop := mkGraphOk {
  go_len : length (final_graph s) = max_points s;
  go_nd : nd s ≤ max_points s;
  go_nbrs : ∀ i l, at_ (final_graph s) i = Some l → nbrs_ok (nd s) D i l ∧ (below (nd s) i ∨ l = [])
}.

Lemma nbrs_ok_mono n D i l n' D' : n ≤ n' → D ≤ D' → nbrs_ok n D i l → nbrs_ok n' D' i l.
Proof.
  intros Hn HD [H1 H2 H3]. split; [|done|lia]. intros x Hx. destruct (H1 x Hx) as [? ?]. unfold below in *.
  split; [lia|done].
Qed.

Lemma graph_edges D s : graph_ok D s → edges_ok s.
Proof.
  intros [Hl Hn Hg]. split_and!; [done..|]. intros i j Hi. unfold nbrs_of.
  destruct (at_Some (final_graph s) i) as [l Hl']; [lia|]. rewrite Hl'. simpl. intros Hj.
  by apply (Hg i l Hl').
Qed.

(** ** Pruning *)

Lemma prune_spec s pool old :
  Forall ok pool → NoDup (map id pool) →
  ∃ out, prune metric compare_sym s pool old pr = Some out
  ∧ (pool = [] → out = old) ∧ (pool ≠ [] → NoDup out ∧ length out ≤ R pr ∧ ∀ x, x ∈ out → x ∈ map id pool).
Proof.
  intros Hok Hnd. unfold prune. destruct (decide (pool = [])) as [->|Hne].
  { by exists old. }
  destruct (prune_neighbors_pruned metric (stored_dist compare_sym s) pool old pr) as (out & -> & [H1 H2 H3 _ _ _]); try done.
  exists out. split; [done|]. split; [done|]. intros _. split_and!; try done. intros x Hx%H2.
  unfold candidates in Hx. apply list_elem_of_fmap in Hx as (a & -> & Ha). apply list_elem_of_fmap_2.
  apply (elem_of_sublist _ (std_sort pool)) in Ha; [|apply sublist_take]. by rewrite std_sort_Permutation in Ha.
Qed.

Lemma prune_fresh s pool :
  Forall ok pool → NoDup (map id pool) →
  ∃ out, prune metric compare_sym s pool [] pr = Some out
  ∧ NoDup out ∧ length out ≤ R pr ∧ ∀ x, x ∈ out → x ∈ map id pool.
Proof.
  intros Hok Hnd. destruct (prune_spec s pool [] Hok Hnd) as (out & H & H1 & H2). exists out. split; [done|].
  destruct (decide (pool = [])) as [E|Hne]; [|by apply H2]. rewrite (H1 E). simpl.
  split_and!; [apply NoDup_nil_2|lia|by intros x ?%not_elem_of_nil].
Qed.

(** ** The candidates of a node *)

Lemma zip_ids (ids : list Z) ds : length ds = length ids → id <$> zip_with new_neighbor ids ds = ids.
Proof.
  revert ds. induction ids as [|i ids IH]; intros [|d ds]; try done. simpl. intros H. f_equal. apply IH. lia.
Qed.

Definition without (node : Z) (l : list Neighbor) : list Neighbor := List.filter (λ a, negb (Z.eqb (id a) node)) l.

Lemma without_spec node l :
  Forall ok l → NoDup (id <$> l) →
  Forall ok (without node l) ∧ NoDup (map id (without node l))
  ∧ ∀ x, x ∈ map id (without node l) → x ∈ id <$> l ∧ x ≠ node.
Proof.
  intros Hok Hnd. unfold without. split_and!.
  - apply Forall_forall. intros a [Ha _]%elem_of_Lfilter. by apply (Forall_forall ok l).
  - by apply NoDup_Lfilter_ids.
  - intros x (a & -> & [Ha Hb]%elem_of_Lfilter)%list_elem_of_fmap. split; [by apply list_elem_of_fmap_2|].
    by apply negb_true_iff, Z.eqb_neq in Hb.
Qed.

Section state.
Context (D : nat) (s : Index) (Hg : graph_ok D s).

Lemma compute_dists_Some q ids :
  (∀ i, i ∈ ids → below (nd s) i) →
  ∃ ds, compute_dists_sym compare_sym s q ids = Some ds ∧ length ds = length ids ∧ Forall (λ d, not_nan d) ds.
Proof.
  intros H. exists (map (dist_to compare_sym s q) ids). split_and!; [|by rewrite length_map|].
  - apply dists_occupied; [by eapply graph_edges|done].
  - apply Forall_forall. intros d (i & <- & _)%list_elem_of_In%in_map_iff. apply Hnan.
Qed.

Lemma scored_ids ids ds :
  length ds = length ids → Forall (λ d, not_nan d) ds → NoDup ids →
  Forall ok (zip_with new_neighbor ids ds) ∧ id <$> zip_with new_neighbor ids ds = ids.
Proof.
  intros Hlen Hds Hnd. split; [|by apply zip_ids]. revert ds Hlen Hds. clear Hnd.
  induction ids as [|i ids IH]; intros [|d ds] Hlen Hds; try done. apply Forall_cons in Hds as [Hd Hds].
  constructor; [done|]. apply IH; [by injection Hlen|done].
Qed.

Lemma pool_of_spec node ids :
  below (nd s) node → (∀ i, i ∈ ids → below (nd s) i) → NoDup ids →
  ∃ pool, pool_of compare_sym s node ids = Some pool ∧ Forall ok pool ∧ NoDup (map id pool)
  ∧ ∀ x, x ∈ map id pool → x ∈ ids ∧ x ≠ node.
Proof.
  intros Hn Hi Hnd. unfold pool_of, compute_dists.
  destruct (at_Some (vectors s) node) as [v ->]; [pose proof (go_nd _ _ Hg); unfold below, max_points in *; lia|].
  cbn [mbind option_bind]. destruct (compute_dists_Some v ids Hi) as (ds & -> & Hlen & Hds). cbn [mbind option_bind].
  destruct (scored_ids ids ds Hlen Hds Hnd) as [Hok Hids].
  destruct (without_spec node _ Hok) as (H1 & H2 & H3); [by rewrite Hids|]. rewrite Hids in H3.
  eexists. split; [done|]. done.
Qed.

Lemma find_nbrs_spec L node :
  1 ≤ L → below (nd s) node → below (nd s) (ep s) →
  ∃ out, find_nbrs metric compare_sym pr L node s = Some out ∧ nbrs_ok (nd s) (R pr) node out.
Proof.
  intros HL Hn He. unfold find_nbrs, get_expanded_nodes.
  destruct (at_Some (vectors s) node) as [v ->]; [pose proof (go_nd _ _ Hg); unfold below, max_points in *; lia|].
  cbn [mbind option_bind].
  destruct (iterate_correct compare_sym Hnan s v L (ep s)) as (st & best & -> & [_ _ _ _ _ _ Hx Hnd]); try done;
    [by eapply graph_edges|]. cbn [mbind option_bind].
  destruct (without_spec node (expanded_nodes_info st)) as (H1 & H2 & H3); [|done|].
  { apply Forall_forall. intros a Ha. unfold ok. destruct (Hx a Ha) as [_ ->]. apply Hnan. }
  destruct (prune_fresh s _ H1 H2) as (out & Hout & Hond & Hol & Hoi). exists out. split; [exact Hout|].
  split; [|done|done]. intros x [Hi Hne]%Hoi%H3. split; [|done].
  apply list_elem_of_fmap in Hi as (a & -> & Ha). by apply Hx.
Qed.

(** ** Critical sections *)

Lemma assign_spec node l :
  below (nd s) node → nbrs_ok (nd s) D node l →
  ∃ g, assign_nbrs node l s = Some (set_graph g s) ∧ graph_ok D (set_graph g s)
  ∧ (∀ i, at_ g i = if decide (i = node) then Some l else at_ (final_graph s) i).
Proof.
  intros Hn Hl. destruct Hg as [Hlen Hnd Hgr]. unfold assign_nbrs.
  assert (Hb : (0 <= node < Z.of_nat (length (final_graph s)))%Z) by (unfold below in *; lia).
  rewrite put_Some by done. cbn [mbind option_bind]. eexists. split; [done|].
  pose proof (at_put (final_graph s) node) as Hat. split; [|intros i; by apply Hat].
  split; [simpl; rewrite length_insert; done|done|]. simpl. intros i l'. rewrite (Hat i l Hb).
  destruct (decide (i = node)) as [->|]; [intros [= <-]; split; [done|by left]|]. apply Hgr.
Qed.

Lemma add_reverse_spec n des :
  below (nd s) n → below (nd s) des → n ≠ des → slack pr ≤ D →
  ∃ c g, add_reverse pr n des s = Some (c, set_graph g s) ∧ graph_ok D (set_graph g s)
  ∧ (∀ l, c = Some l → g = final_graph s ∧ at_ g des = Some l ∧ n ∉ l).
Proof.
  intros Hn Hd Hne HD. destruct (at_Some (final_graph s) des) as [l Hl].
  { pose proof (go_len _ _ Hg). pose proof (go_nd _ _ Hg). unfold below in *. lia. }
  unfold add_reverse. rewrite Hl. cbn [mbind option_bind]. destruct (go_nbrs _ _ Hg des l Hl) as [[H1 H2 H3] _].
  assert (Hs : s = set_graph (final_graph s) s) by (by destruct s).
  case_bool_decide as Hin; [|destruct (Nat.ltb_spec (length l) (slack pr))].
  - exists None, (final_graph s). rewrite <- Hs. done.
  - destruct (assign_spec des (l ++ [n])) as (g & Hrun & Hg' & Hat); [done| |].
    { split.
      - intros x [Hx| ->%list_elem_of_singleton]%elem_of_app; [by apply H1|done].
      - apply NoDup_app. split_and!; [done| |apply NoDup_singleton]. by intros x Hx ->%list_elem_of_singleton.
      - rewrite length_app. simpl. lia. }
    exists None, g. unfold assign_nbrs in Hrun. destruct (put _ _ _) as [g'|]; [|done]. simplify_eq/=.
    done.
  - exists (Some l), (final_graph s). rewrite <- Hs. split_and!; try done. by intros l' [= <-].
Qed.

Lemma reprune_spec n des l :
  below (nd s) n → below (nd s) des → n ≠ des → R pr ≤ D → at_ (final_graph s) des = Some l → n ∉ l →
  ∃ g, reprune metric compare_sym pr n des l s = Some (set_graph g s) ∧ graph_ok D (set_graph g s).
Proof.
  intros Hn Hd Hne HD Hl Hnl. unfold reprune. destruct (go_nbrs _ _ Hg des l Hl) as [[H1 H2 H3] _].
  destruct (pool_of_spec des (l ++ [n])) as (pool & -> & Hok & Hnd & Hin); [done| | |].
  { intros i [Hi| ->%list_elem_of_singleton]%elem_of_app; [by apply H1|done]. }
  { apply NoDup_app. split_and!; [done| |apply NoDup_singleton]. by intros x Hx ->%list_elem_of_singleton. }
  cbn [mbind option_bind]. destruct (prune_fresh s pool Hok Hnd) as (out & -> & Hond & Hol & Hoi). cbn [mbind option_bind].
  destruct (assign_spec des out) as (g & -> & Hg' & _); [done| |by exists g].
  split; [|done|lia]. intros x [Hx Hxd]%Hoi%Hin. split; [|done].
  apply elem_of_app in Hx as [Hx| ->%list_elem_of_singleton]; [by apply H1|done].
Qed.
End state.

(** ** Linking *)

(** [s'] is [s] with another sound graph. *)
Definition relinked (D : nat) (s s' : Index) : Prop := ∃ g, s' = set_graph g s ∧ graph_ok D s'.

Lemma relinked_refl D s : graph_ok D s → relinked D s s.
Proof. exists (final_graph s). split; [by destruct s|done]. Qed.

Lemma relinked_trans D s s1 s2 : relinked D s s1 → relinked D s1 s2 → relinked D s s2.
Proof. intros (g1 & -> & _) (g2 & -> & H). by exists g2. Qed.

Lemma inter_insert_spec D n l s :
  slack pr ≤ D → R pr ≤ D → graph_ok D s → below (nd s) n → (∀ x, x ∈ l → below (nd s) x ∧ x ≠ n) →
  ∃ s', inter_insert metric compare_sym pr n l s = Some s' ∧ relinked D s s'.
Proof.
  intros HS HR. revert s. induction l as [|des l IH]; intros s Hg Hn Hl; cbn [inter_insert].
  { exists s. split; [done|]. by apply relinked_refl. }
  destruct (Hl des) as [Hd Hne]; [left|].
  destruct (add_reverse_spec D s Hg n des) as (c & g & -> & Hg1 & Hc); try done. cbn [mbind option_bind].
  assert (∃ s1, match c with None => Some (set_graph g s) | Some l => reprune metric compare_sym pr n des l (set_graph g s) end
                = Some s1 ∧ relinked D s s1) as (s1 & -> & Hs1).
  { destruct c as [k|]; [|exists (set_graph g s); split; [done|by exists g]].
    destruct (Hc k eq_refl) as (-> & Hk & Hnk).
    destruct (reprune_spec D _ Hg1 n des k) as (g2 & -> & Hg2); try done. eexists. split; [done|]. by exists g2. }
  cbn [mbind option_bind]. destruct Hs1 as (g1 & -> & Hok).
  destruct (IH (set_graph g1 s)) as (s' & -> & Hs'); [done|done|intros x Hx; apply Hl; by right|].
  exists s'. split; [done|]. eapply relinked_trans; [|exact Hs']. by exists g1.
Qed.

(** A loop over nodes with an invariant that knows the nodes done. *)
Lemma for_each_inv (f : Z → Index → option Index) (P : list Z → Index → Prop) nodes s :
  P [] s →
  (∀ done i rest s, nodes = done ++ i :: rest → P done s → ∃ s', f i s = Some s' ∧ P (done ++ [i]) s') →
  ∃ s', for_each f nodes s = Some s' ∧ P nodes s'.
Proof.
  intros H0 Hf. assert (Hgen : ∀ l d s, P d s → d ++ l = nodes → ∃ s', for_each f l s = Some s' ∧ P nodes s').
  { induction l as [|i l IH]; intros d s1 Hd E; cbn [for_each].
    { exists s1. rewrite app_nil_r in E. by subst. }
    destruct (Hf d i l s1 (eq_sym E) Hd) as (s2 & -> & H2). cbn [mbind option_bind].
    apply (IH (d ++ [i])); [done|]. by rewrite <- app_assoc. }
  by apply (Hgen nodes []).
Qed.

Lemma link_node_spec D L node s :
  slack pr ≤ D → R pr ≤ D → 1 ≤ L → graph_ok D s → below (nd s) node → below (nd s) (ep s) →
  ∃ s', link_node metric compare_sym pr L node s = Some s' ∧ relinked D s s'.
Proof.
  intros HS HR HL Hg Hn He. unfold link_node.
  destruct (find_nbrs_spec D s Hg L node) as (out & -> & Hout); try done. cbn [mbind option_bind].
  destruct (assign_spec D s Hg node out) as (g & -> & Hg1 & _); [done|by eapply nbrs_ok_mono; [..|exact Hout]|].
  cbn [mbind option_bind].
  destruct (inter_insert_spec D node out (set_graph g s)) as (s' & -> & Hs'); try done; [apply Hout|].
  exists s'. split; [done|]. eapply relinked_trans; [|exact Hs']. by exists g.
Qed.

Lemma final_prune_node_spec D node s :
  R pr ≤ D → graph_ok D s → below (nd s) node →
  ∃ s', final_prune_node metric compare_sym pr node s = Some s' ∧ relinked D s s'
  ∧ ∀ i l, at_ (final_graph s') i = Some l →
      if decide (i = node) then length l ≤ R pr else at_ (final_graph s) i = Some l.
Proof.
  intros HR Hg Hn. unfold final_prune_node. destruct (at_Some (final_graph s) node) as [k Hk].
  { pose proof (go_len _ _ Hg). pose proof (go_nd _ _ Hg). unfold below in *. lia. }
  rewrite Hk. cbn [mbind option_bind]. destruct (go_nbrs _ _ Hg node k Hk) as [[H1 H2 H3] _].
  destruct (Nat.ltb_spec (R pr) (length k)).
  - destruct (pool_of_spec D s Hg node k) as (pool & -> & Hok & Hnd & Hin); [done|by apply H1|done|].
    cbn [mbind option_bind]. destruct (prune_fresh s pool Hok Hnd) as (out & -> & Hond & Hol & Hoi). cbn [mbind option_bind].
    destruct (assign_spec D s Hg node out) as (g & -> & Hg' & Hat); [done| |].
    { split; [|done|lia]. intros x [Hx ?]%Hoi%Hin. by apply H1. }
    eexists. split; [done|]. split; [by exists g|]. intros i l. simpl. rewrite Hat.
    destruct (decide (i = node)); [by intros [= <-]|done].
  - exists s. split; [done|]. split; [by apply relinked_refl|]. intros i l Hl.
    destruct (decide (i = node)) as [->|]; [|done]. by simplify_eq.
Qed.

Lemma final_prune_spec D order s :
  (∀ l, order l ≡ₚ l) → R pr ≤ D → graph_ok D s →
  ∃ s', final_prune metric compare_sym pr order s = Some s' ∧ relinked (R pr) s s'.
Proof.
  intros Hord HR Hg. unfold final_prune.
  destruct (for_each_inv (final_prune_node metric compare_sym pr)
    (λ d s', relinked D s s' ∧ ∀ i l, i ∈ d → at_ (final_graph s') i = Some l → length l ≤ R pr)
    (order (seqZ 0 (Z.of_nat (nd s)))) s) as (s' & -> & (g & -> & Hg') & Hd).
  - split; [by apply relinked_refl|]. by intros i l ?%not_elem_of_nil.
  - intros d i rest s1 E [(g & -> & Hg1) Hd].
    assert (Hi : i ∈ order (seqZ 0 (Z.of_nat (nd s)))) by (rewrite E; apply elem_of_app; right; left).
    rewrite Hord in Hi. apply elem_of_seqZ in Hi.
    destruct (final_prune_node_spec D i (set_graph g s)) as (s2 & Hrun & Hs2 & Hat); [done|done|unfold below; simpl; lia|].
    exists s2. split; [done|]. split; [eapply relinked_trans; [|exact Hs2]; by exists g|].
    intros j l Hj Hl%Hat. destruct (decide (j = i)); [done|].
    apply (Hd j); [|done]. apply elem_of_app in Hj as [| ->%list_elem_of_singleton]; done.
  - exists (set_graph g s). split; [done|]. exists g. split; [done|]. destruct Hg' as [H1 H2 H3]. split; [done..|].
    intros i l Hl. destruct (H3 i l Hl) as [[Ha Hb Hc] Hor]. split; [|done]. split; [done..|].
    destruct Hor as [Hi| ->]; [|simpl; lia]. apply (Hd i); [|done]. rewrite Hord. apply elem_of_seqZ.
    unfold below in Hi. simpl in Hi. lia.
Qed.
Lemma mem_link_spec D L order uniform s :
  (∀ lo hi, (lo <= hi)%Z → (lo <= uniform lo hi <= hi)%Z) → (∀ l, order l ≡ₚ l) → 1 ≤ L →
  slack pr ≤ D → R pr ≤ D → graph_ok D s → 0 < nd s → (Z.of_nat (nd s) < 2 ^ 32)%Z →
  ∃ g, link metric compare_sym uniform pr L order s = Some (set_graph g (set_ep (calculate_entry_point uniform s) s))
  ∧ graph_ok (R pr) (set_graph g (set_ep (calculate_entry_point uniform s) s))
  ∧ below (nd s) (calculate_entry_point uniform s).
Proof.
  intros Huni Hord HL HS HR Hg Hn H32. set (s0 := set_ep (calculate_entry_point uniform s) s).
  assert (He : below (nd s) (calculate_entry_point uniform s)).
  { unfold calculate_entry_point, below. rewrite u32_small by (unfold is_u32; lia). pose proof (Huni 0%Z (Z.of_nat (nd s) - 1)%Z). lia. }
  unfold link. fold s0.
  destruct (for_each_inv (link_node metric compare_sym pr L) (λ _ s', relinked D s0 s')
    (order (seqZ 0 (Z.of_nat (nd s0)))) s0) as (s1 & -> & (g1 & -> & Hg1)).
  - apply relinked_refl. by destruct Hg.
  - intros d i rest s1 E (g & -> & Hg1). assert (Hi : i ∈ order (seqZ 0 (Z.of_nat (nd s0)))).
    { rewrite E. apply elem_of_app. right. left. }
    rewrite Hord in Hi. apply elem_of_seqZ in Hi.
    destruct (link_node_spec D L i (set_graph g s0)) as (s2 & -> & Hs2); try done.
    exists s2. split; [done|]. eapply relinked_trans; [|exact Hs2]. by exists g.
  - cbn [mbind option_bind].
    destruct (final_prune_spec D order (set_graph g1 s0)) as (s2 & -> & (g2 & -> & Hg2)); try done.
    exists g2. split_and!; done.
Qed.
End graph.

(** ** Tags and locations *)

Record tags_ok (s : Index) : Prop := mkTagsOk {
  to_inv : ∀ t l, tag_to_location s !! t = Some l ↔ location_to_tag s !! l = Some t;
  to_loc : ∀ l, is_Some (location_to_tag s !! l) ∨ l ∈ delete_set s ↔ below (nd s) l;
  to_del : ∀ l, l ∈ delete_set s → location_to_tag s !! l = None
}.

(** The invariant of the index.  Locations fit 32 bits, below the invalid id. *)
Record mem_ok (D : nat) (s : Index) : Prop := mkMemOk {
  mo_graph : graph_ok D s;
  mo_tags : tags_ok s;
  mo_ep : below (nd s) (ep s) ∨ nd s = 0 ∧ ep s = 0%Z;
  mo_cap : (Z.of_nat (max_points s) < kInvalidID)%Z
}.

(** The abstract state: the vector record of each tag. *)
Definition abs (s : Index) : gmap Z (list Z) := omap (at_ (vectors s)) (tag_to_location s).

Lemma abs_lookup s t : abs s !! t = tag_to_location s !! t ≫= at_ (vectors s).
Proof. apply lookup_omap. Qed.

Lemma tag_below s t l : tags_ok s → tag_to_location s !! t = Some l → below (nd s) l.
Proof. intros [H1 H2 _] Ht. apply H2. left. apply H1 in Ht. by exists t. Qed.

Lemma abs_tag s t : nd s ≤ max_points s → tags_ok s → is_Some (abs s !! t) ↔ is_Some (tag_to_location s !! t).
Proof.
  intros Hn Ht. rewrite abs_lookup. split; [by destruct (tag_to_location s !! t); [eauto|intros []]|].
  intros [l Hl]. rewrite Hl. simpl. pose proof (tag_below s t l Ht Hl) as Hb. apply at_Some.
  unfold below, max_points in *. lia.
Qed.

Lemma drop_tag_spec tag s :
  tags_ok s → tags_ok (drop_tag tag s) ∧ tag_to_location (drop_tag tag s) = delete tag (tag_to_location s)
  ∧ abs (drop_tag tag s) = delete tag (abs s)
  ∧ ∃ t l d, drop_tag tag s = set_tags t l d s.
Proof.
  intros Ht. assert (Habs : abs (set_tags (delete tag (tag_to_location s)) (location_to_tag s) (delete_set s) s) = delete tag (abs s)).
  { unfold abs. simpl. apply omap_delete. }
  unfold drop_tag. destruct (tag_to_location s !! tag) as [k|] eqn:Ek.
  - split_and!; [|done|done|by eexists _, _, _]. pose proof (tag_below s tag k Ht Ek) as Hk. destruct Ht as [H1 H2 H3].
    apply H1 in Ek as Ek'. split; simpl.
    + intros t l. rewrite !lookup_delete_Some, H1. split; intros [Hn Hl]; (split; [|done]); intros ->; [congruence|].
      apply H1 in Hl. congruence.
    + intros l. rewrite elem_of_union, elem_of_singleton. rewrite <- (H2 l). split.
      * intros [[t [_ ?]%lookup_delete_Some]|[->|?]]; [left; by exists t|left; by exists tag|by right].
      * intros [[t Hl]|?]; [|auto]. destruct (decide (k = l)) as [->|Hne]; [auto|]. left. exists t. by rewrite lookup_delete_ne.
    + intros l [->%elem_of_singleton|Hl]%elem_of_union; [apply lookup_delete_eq|].
      apply lookup_delete_None. right. by apply H3.
  - assert (Hd : delete tag (tag_to_location s) = tag_to_location s) by (by apply delete_id).
    split_and!; [done|done| |exists (tag_to_location s), (location_to_tag s), (delete_set s); by destruct s].
    rewrite <- Habs, Hd. done.
Qed.

(** [lazy_delete] as the caller sees it. *)
Lemma lazy_delete_spec D tag s :
  mem_ok D s → mem_ok D (lazy_delete tag s).2 ∧ abs (lazy_delete tag s).2 = delete tag (abs s)
  ∧ (lazy_delete tag s).1 = (if decide (is_Some (abs s !! tag)) then 0 else -1)%Z.
Proof.
  intros [Hg Ht He Hc]. destruct (drop_tag_spec tag s Ht) as (Ht' & _ & Habs & t & l & d & E).
  pose proof (abs_tag s tag (go_nd _ _ Hg) Ht) as Hiff. unfold lazy_delete.
  destruct (tag_to_location s !! tag) as [k|] eqn:Ek; cbn [fst snd].
  - split_and!; [|done|rewrite decide_True by (apply Hiff; by exists k); done].
    rewrite E in *. split; [|done|done|done]. by destruct Hg.
  - rewrite decide_False by (rewrite Hiff; by intros []). split_and!; [done| |done].
    symmetry. apply delete_id. destruct (abs s !! tag) eqn:Ea; [|done].
    destruct Hiff as [Hi _]. destruct Hi as [? ?]; [by eexists|done].
Qed.

Lemma at_vresize {A} (l : list A) n x i :
  length l ≤ n →
  at_ (vresize l n x) i = if decide (below (length l) i) then at_ l i else if decide (below n i) then Some x else None.
Proof.
  intros Hn. unfold vresize, at_, below. destruct (Z.ltb_spec i 0).
  { rewrite !decide_False by lia. done. }
  rewrite (take_ge l) by done. destruct (decide _) as [Hd|Hd].
  - rewrite lookup_app_l by lia. done.
  - rewrite lookup_app_r by lia. destruct (decide _) as [He|He].
    + apply lookup_replicate_2. lia.
    + apply lookup_ge_None_2. rewrite length_replicate. lia.
Qed.

(** ** Insertion *)

(** The slots after a reservation. *)
Definition slots_after (s : Index) : nat :=
  if Nat.ltb (nd s) (max_points s) then max_points s else Nat.max (growth (max_points s)) kMinPoints.

(** There is a free slot, or a resize makes one within 32 bits. *)
Definition room (s : Index) : Prop := nd s < slots_after s ∧ (Z.of_nat (slots_after s) < kInvalidID)%Z.

Lemma graph_ok_reserve D s s' :
  graph_ok D s → nd s' = S (nd s) → nd s' ≤ max_points s' → length (final_graph s') = max_points s' →
  (∀ i l, at_ (final_graph s') i = Some l → at_ (final_graph s) i = Some l ∨ l = []) → graph_ok D s'.
Proof.
  intros Hg Hnd Hn Hlen Hat. split; [done..|]. intros i l [Hl| ->]%Hat.
  - destruct (go_nbrs _ _ Hg i l Hl) as [Ho Hor]. split; [eapply nbrs_ok_mono; [..|exact Ho]; lia|].
    destruct Hor as [Hb|]; [left; unfold below in *; lia|by right].
  - split; [|by right]. split; [by intros x ?%not_elem_of_nil|apply NoDup_nil_2|simpl; lia].
Qed.

Lemma reserve_spec record_bytes D s :
  graph_ok D s → room s →
  ∃ s', reserve_loop record_bytes 1 s = Some (Z.of_nat (nd s), s') ∧ graph_ok D s' ∧ nd s' = S (nd s)
  ∧ max_points s' = slots_after s ∧ ep s' = ep s ∧ tag_to_location s' = tag_to_location s
  ∧ location_to_tag s' = location_to_tag s ∧ delete_set s' = delete_set s
  ∧ ∀ i, below (nd s) i → at_ (vectors s') i = at_ (vectors s) i.
Proof.
  intros Hg [Hroom Hcap]. pose proof (go_nd _ _ Hg) as Hn. pose proof (go_len _ _ Hg) as Hlen.
  unfold slots_after in *. cbn [reserve_loop]. unfold reserve_location at 1.
  destruct (Nat.ltb_spec (nd s) (max_points s)) as [Hlt|Hge].
  - destruct (Nat.leb_spec (max_points s) (nd s)); [lia|]. eexists. split; [done|]. split_and!; try done.
    apply (graph_ok_reserve D s); simpl; try done. intros i l. by left.
  - destruct (Nat.leb_spec (max_points s) (nd s)); [|lia].
    unfold reserve_location. set (n := Nat.max (growth (max_points s)) kMinPoints) in *.
    assert (Hv : max_points (resize record_bytes (growth (max_points s)) s) = n).
    { unfold resize, max_points at 1. cbn [vectors]. fold n. destruct (Nat.ltb_spec (max_points s) n); [|lia].
      apply vresize_length. }
    rewrite Hv. cbn [nd resize]. destruct (Nat.leb_spec n (nd s)); [lia|]. eexists. split; [done|].
    split_and!; try done.
    + apply (graph_ok_reserve D s); try done; cbn [nd].
      * change (S (nd s) ≤ max_points (resize record_bytes (growth (max_points s)) s)). rewrite Hv. lia.
      * change (length (vresize (final_graph s) n []) = max_points (resize record_bytes (growth (max_points s)) s)).
        by rewrite Hv, vresize_length.
      * intros i l. cbn [final_graph resize]. fold n. rewrite at_vresize by lia.
        destruct (decide _); [by left|]. destruct (decide _); [intros [= <-]; by right|done].
    + intros i Hi. cbn [vectors resize]. fold n. destruct (Nat.ltb_spec (max_points s) n); [|done].
      rewrite at_vresize by (unfold max_points in *; lia). rewrite decide_True; [done|].
      unfold below, max_points in *. lia.
Qed.

Lemma new_tag_ok tag loc s :
  tags_ok s → tag_to_location s !! tag = None → loc = Z.of_nat (nd s) →
  tags_ok (mkIndex (final_graph s) (vectors s) (S (nd s)) (range s) (R_base s) (R_ood s) (ep s)
    (<[tag := loc]> (tag_to_location s)) (<[loc := tag]> (location_to_tag s)) (delete_set s)).
Proof.
  intros [H1 H2 H3] Hn ->. assert (Hf : location_to_tag s !! Z.of_nat (nd s) = None ∧ Z.of_nat (nd s) ∉ delete_set s).
  { split; [apply eq_None_not_Some|]; intros H; assert (below (nd s) (Z.of_nat (nd s))) as Hb by (apply H2; auto);
      unfold below in Hb; lia. }
  destruct Hf as [Hf Hd]. split; simpl.
  - intros t l. rewrite !lookup_insert_Some, H1. split.
    + intros [[-> <-]|[Hne Hl]]; [by left|right]. split; [|done]. intros <-. congruence.
    + intros [[<- ->]|[Hne Hl]]; [by left|right]. split; [|done]. intros <-. apply H1 in Hl. congruence.
  - intros l. rewrite lookup_insert_is_Some'. specialize (H2 l). unfold below in *. split.
    + intros [[<-|Hl]|Hl]; [lia|destruct H2 as [H2 _]; specialize (H2 (or_introl Hl)); lia|].
      destruct H2 as [H2 _]; specialize (H2 (or_intror Hl)); lia.
    + intros Hl. destruct (decide (Z.of_nat (nd s) = l)) as [|Hne]; [by left; left|].
      destruct H2 as [_ [H2|H2]]; [lia|by left; right|by right].
  - intros l Hl. rewrite lookup_insert_ne; [by apply H3|]. intros <-. done.
Qed.

Section updates.
Context (metric : Metric) (compare_sym : list Z → list Z → float) (Hnan : ∀ u v, not_nan (compare_sym u v)).
Context (encode normalize_data : list Z → list Z) (record_bytes : nat).
Context (pr : IndexBuildParameters) (Halpha : alpha pr ≠ f_infinity) (L : nat) (HL : 1 ≤ L).
Context (D : nat) (HS : slack pr ≤ D) (HR : R pr ≤ D).

Lemma mem_ok_relinked s s' : relinked D s s' → mem_ok D s → mem_ok D s' ∧ abs s' = abs s ∧ nd s' = nd s ∧ max_points s' = max_points s.
Proof. intros (g & -> & Hg) [_ Ht He Hc]. split_and!; try done. split; try done. by destruct Ht. Qed.

Lemma place_point_spec point tag s :
  mem_ok D s → room s →
  ∃ s', place_point metric encode normalize_data record_bytes point pr tag s
        = Some (Z.of_nat (nd s), s') ∧ mem_ok D s' ∧ nd s' = S (nd s) ∧ max_points s' = slots_after s
  ∧ abs s' = <[tag := prepare_record metric encode normalize_data point]> (abs s).
Proof.
  intros [Hg Ht He Hc] Hroom. unfold place_point.
  set (s0 := mkIndex (final_graph s) (vectors s) (nd s) _ (R_base s) (R_ood s) (ep s) (tag_to_location s)
               (location_to_tag s) (delete_set s)).
  assert (Ht0 : tags_ok s0) by (by destruct Ht). assert (Hg0 : graph_ok D s0) by (by destruct Hg).
  destruct (drop_tag_spec tag s0 Ht0) as (Ht1 & Et2l & Habs & t & l & d & E).
  assert (Hg1 : graph_ok D (drop_tag tag s0)) by (rewrite E; by destruct Hg0).
  assert (Hroom1 : room (drop_tag tag s0)) by (rewrite E; done).
  destruct (reserve_spec record_bytes D (drop_tag tag s0) Hg1 Hroom1) as (s2 & -> & Hg2 & Hnd & Hmax & Hep & Et & El & Ed & Hvec).
  assert (Hnd1 : nd (drop_tag tag s0) = nd s) by (rewrite E; done).
  assert (Hmax1 : max_points s2 = slots_after s) by (rewrite Hmax, E; done).
  assert (Hep1 : ep s2 = ep s) by (rewrite Hep, E; done). rewrite Hnd1 in *. cbn [mbind option_bind].
  pose proof (go_nd _ _ Hg2) as Hle. pose proof (new_tag_ok tag (Z.of_nat (nd s)) (drop_tag tag s0) Ht1) as Htag.
  rewrite Et2l, lookup_delete_eq, Hnd1 in Htag. specialize (Htag eq_refl eq_refl).
  cbn [vectors set_tags]. rewrite put_Some by (unfold max_points in *; lia). cbn [mbind option_bind].
  set (vs := <[_ := _]> (vectors s2)).
  set (s3 := mkIndex (final_graph _) vs _ _ _ _ _ _ _ _).
  assert (Hat : ∀ j, at_ vs j = if decide (j = Z.of_nat (nd s)) then Some (prepare_record metric encode normalize_data point)
                                else at_ (vectors s2) j).
  { intros j. apply at_put. unfold max_points in *. lia. }
  assert (Hmax3 : max_points s3 = slots_after s).
  { unfold max_points, s3. simpl. unfold vs. rewrite length_insert. done. }
  assert (Hok3 : mem_ok D s3).
  { split.
    - destruct Hg2 as [Ha Hb Hcc]. unfold max_points in *. split; unfold max_points; simpl; [|unfold vs; by rewrite length_insert|done].
      unfold vs. by rewrite length_insert.
    - destruct Htag as [Ha Hb Hcc]. simpl in *. rewrite <- Et2l, <- Et, <- El, <- Ed in *. split; simpl; try done.
      by rewrite Hnd.
    - left. simpl. rewrite Hep1, Hnd. unfold below in *. destruct He as [|[]]; lia.
    - rewrite Hmax3. apply Hroom. }
  assert (Habs3 : abs s3 = <[tag := prepare_record metric encode normalize_data point]> (abs s)).
  { apply map_eq. intros u. rewrite abs_lookup. simpl. rewrite Et, Et2l.
    destruct (decide (tag = u)) as [<-|Hne].
    - rewrite !lookup_insert_eq. simpl. by rewrite Hat, decide_True.
    - rewrite !lookup_insert_ne by done. change (abs s) with (abs s0).
      rewrite lookup_delete_ne by done. rewrite abs_lookup. destruct (tag_to_location s0 !! u) as [k|] eqn:Ek; [|done]. simpl.
      pose proof (tag_below s0 u k Ht0 Ek) as Hk. rewrite Hat, decide_False by (unfold below in Hk; simpl in Hk; lia).
      rewrite Hvec by done. by rewrite E. }
  exists s3. split_and!; try done.
Qed.

Lemma insert_point_spec point tag s :
  mem_ok D s → room s →
  ∃ s', insert_point metric compare_sym encode normalize_data record_bytes point pr L tag s
        = Some (Z.of_nat (nd s), s') ∧ mem_ok D s' ∧ nd s' = S (nd s) ∧ max_points s' = slots_after s
  ∧ abs s' = <[tag := prepare_record metric encode normalize_data point]> (abs s).
Proof.
  intros Hok Hroom. unfold insert_point.
  destruct (place_point_spec point tag s Hok Hroom) as (s1 & -> & Hok1 & Hnd1 & Hmax1 & Habs1). cbn [mbind option_bind].
  assert (He : below (nd s1) (ep s1)) by (destruct (mo_ep _ _ Hok1) as [|[? _]]; [done|lia]).
  destruct (link_node_spec metric compare_sym Hnan pr Halpha D L (Z.of_nat (nd s)) s1) as (s2 & -> & Hs2); try done;
    [apply Hok1|unfold below; lia|]. cbn [mbind option_bind].
  destruct (mem_ok_relinked s1 s2 Hs2 Hok1) as (Hok2 & Habs2 & Hnd2 & Hmax2).
  exists s2. split; [done|]. split; [done|]. split_and!; congruence.
Qed.
End updates.
End MemProof.
