(* ===== verification/Consolidate.v ===== *)
(** * Correctness of [consolidate] of the in-memory index

    Consolidation drops the lazily deleted locations, gives the others new ids in
    their order, patches and prunes their neighbour lists, moves lists and vectors
    down and rebuilds the tag maps. *)

From S2P Require Import Prelude Float32 Neighbor CandidatePool Prune PipeSearch PipeProof MemIndex MemSearch MemProof.

Module Consolidate.
Import Prune Mem MemSearch MemProof.
Local Open Scope Z_scope.

(** ** New ids *)

(** A map built by insertions with distinct keys. *)
Lemma foldl_insert_elem {A} (key val : A → Z) l (m : gmap Z Z) k v :
  NoDup (key <$> l) →
  foldl (λ m p, <[key p := val p]> m) m l !! k = Some v
  ↔ (∃ p, p ∈ l ∧ key p = k ∧ val p = v) ∨ (k ∉ key <$> l ∧ m !! k = Some v).
Proof.
  revert m. induction l as [|p l IH]; intros m Hnd; simpl.
  { split; [right; split; [apply not_elem_of_nil|done]|]. intros [(p & ?%not_elem_of_nil & _)|[_ ?]]; done. }
  rewrite fmap_cons in Hnd. apply NoDup_cons in Hnd as [Hp Hnd]. rewrite IH by done.
  rewrite not_elem_of_cons, lookup_insert_Some. split.
  - intros [(x & Hx & Hk)|[Hk [[<- <-]|[Hne Hm]]]].
    + left. exists x. split; [by right|done].
    + left. exists p. split; [left|done].
    + right. split; [|done]. split; [congruence|done].
  - intros [(x & [->|Hx]%elem_of_cons & <- & <-)|[[Hne Hk] Hm]].
    + right. split; [done|by left].
    + left. by exists x.
    + right. split; [done|]. right. split; [congruence|done].
Qed.

Section new_ids.
Context (l2t : gmap Z Z).

Definition tagged (i : Z) : bool := bool_decide (is_Some (l2t !! i)).
Definition new_id (i : Z) : Z := Z.of_nat (length (List.filter tagged (seqZ 0 i))).

Lemma id_map_loop_spec ids k :
  0 <= k → k + Z.of_nat (length ids) < 2 ^ 32 →
  let '(m, n) := id_map_loop l2t ids k in
  length m = length ids ∧ n = k + Z.of_nat (length (List.filter tagged ids))
  ∧ ∀ j i, ids !! j = Some i →
      m !! j = Some (if tagged i then k + Z.of_nat (length (List.filter tagged (take j ids))) else kInvalidID).
Proof.
  revert k. induction ids as [|i ids IH]; intros k Hk Hb; cbn [id_map_loop]; [simpl; by split_and!; [|lia|]|].
  cbn [length] in Hb. assert (Ht : tagged i = bool_decide (is_Some (l2t !! i))) by done.
  destruct (l2t !! i) as [t|].
  - rewrite bool_decide_eq_true_2 in Ht by (by eexists). rewrite u32_small by (unfold is_u32; lia).
    specialize (IH (k + 1) ltac:(lia) ltac:(lia)).
    destruct (id_map_loop l2t ids (k + 1)) as [m n]. destruct IH as (H1 & H2 & H3). cbn [List.filter length]. rewrite Ht.
    cbn [length]. split_and!; [lia|lia|]. intros [|j] x; cbn [lookup list_lookup take List.filter].
    + intros [= <-]. rewrite Ht. f_equal. simpl. lia.
    + intros Hx. rewrite Ht. etransitivity; [apply (H3 j x Hx)|]. f_equal. destruct (tagged x); [|done]. simpl length. lia.
  - rewrite bool_decide_eq_false_2 in Ht by (by intros []). specialize (IH k ltac:(lia) ltac:(lia)).
    destruct (id_map_loop l2t ids k) as [m n]. destruct IH as (H1 & H2 & H3). cbn [List.filter length]. rewrite Ht.
    split_and!; [lia|done|]. intros [|j] x; cbn [lookup list_lookup take List.filter].
    + intros [= <-]. by rewrite Ht.
    + intros Hx. rewrite Ht. apply (H3 j x Hx).
Qed.

Lemma filter_seqZ_split i n :
  0 <= i < n → tagged i = true →
  List.filter tagged (seqZ 0 n) = List.filter tagged (seqZ 0 i) ++ i :: List.filter tagged (seqZ (i + 1) (n - i - 1)).
Proof.
  intros Hi Ht. replace n with (i + (n - i)) at 1 by lia. rewrite seqZ_app by lia. rewrite List.filter_app. f_equal.
  rewrite Z.add_0_l, (seqZ_cons i) by lia. cbn [List.filter]. by rewrite Ht, <- Z.sub_1_r.
Qed.

Lemma new_id_lookup i n :
  0 <= i < n → tagged i = true → List.filter tagged (seqZ 0 n) !! Z.to_nat (new_id i) = Some i.
Proof.
  intros Hi Ht. rewrite (filter_seqZ_split i n) by done. unfold new_id. rewrite Nat2Z.id.
  rewrite lookup_app_r by done. by rewrite Nat.sub_diag.
Qed.

Lemma new_id_lt i j : 0 <= i < j → tagged i = true → new_id i < new_id j.
Proof.
  intros Hi Ht. unfold new_id at 2. rewrite (filter_seqZ_split i j) by done. rewrite length_app. unfold new_id. simpl. lia.
Qed.

Lemma new_id_inj i j : 0 <= i → 0 <= j → tagged i = true → tagged j = true → new_id i = new_id j → i = j.
Proof.
  intros Hi Hj Ti Tj E. destruct (Z.lt_total i j) as [H|[H|H]]; [|done|].
  - pose proof (new_id_lt i j ltac:(lia) Ti). lia.
  - pose proof (new_id_lt j i ltac:(lia) Tj). lia.
Qed.

Lemma new_id_le i : 0 <= i → 0 <= new_id i <= i.
Proof.
  intros Hi. unfold new_id. pose proof (List.filter_length_le tagged (seqZ 0 i)) as H. rewrite length_seqZ in H. lia.
Qed.

Lemma survivor k n i :
  List.filter tagged (seqZ 0 n) !! k = Some i → 0 <= i < n ∧ tagged i = true ∧ Z.of_nat k = new_id i.
Proof.
  intros Hk. assert (Hin : i ∈ List.filter tagged (seqZ 0 n)) by (by eapply list_elem_of_lookup_2).
  apply list_elem_of_In, List.filter_In in Hin as [Hin Ht]. apply list_elem_of_In, elem_of_seqZ in Hin.
  split_and!; [lia..|done|]. pose proof (new_id_lookup i n ltac:(lia) Ht) as Hl.
  assert (Hnd : NoDup (List.filter tagged (seqZ 0 n))).
  { apply NoDup_ListNoDup, List.NoDup_filter, NoDup_ListNoDup, NoDup_seqZ. }
  rewrite NoDup_alt in Hnd. pose proof (Hnd _ _ _ Hk Hl). pose proof (new_id_le i). lia.
Qed.
End new_ids.

Section consolidate.
Context (metric : Metric) (compare_sym : list Z → list Z → float) (Hnan : ∀ u v, not_nan (compare_sym u v)).
Context (pr : IndexBuildParameters) (Halpha : alpha pr ≠ f_infinity) (D : nat) (HR : (R pr ≤ D)%nat).
Context (hash_order order : list Z → list Z) (Hhash : ∀ l, hash_order l ≡ₚ l) (Hord : ∀ l, order l ≡ₚ l).
Context (s : Index) (Hok : mem_ok D s).

Local Abbreviation N := (Z.of_nat (max_points s)).
Local Abbreviation tg := (tagged (location_to_tag s)).
Local Abbreviation nid := (new_id (location_to_tag s)).
Definition n_live : Z := Z.of_nat (length (List.filter tg (seqZ 0 N))).

Definition id_map : list Z := (make_id_map s).1.

Lemma tagged_below i : tg i = true → below (nd s) i.
Proof.
  unfold tagged. intros H%bool_decide_eq_true. apply (to_loc _ (mo_tags _ _ Hok)). by left.
Qed.

Lemma below_slots i : below (nd s) i → 0 <= i < N.
Proof. pose proof (go_nd _ _ (mo_graph _ _ Hok)). unfold below. lia. Qed.

Lemma make_id_map_spec :
  make_id_map s = (id_map, n_live) ∧ length id_map = max_points s
  ∧ ∀ i, 0 <= i < N → at_ id_map i = Some (if tg i then nid i else kInvalidID).
Proof.
  pose proof (id_map_loop_spec (location_to_tag s) (seqZ 0 N) 0 ltac:(lia)) as H.
  unfold id_map, make_id_map, n_live. pose proof (mo_cap _ _ Hok) as Hc. rewrite length_seqZ, Nat2Z.id in H.
  destruct (id_map_loop (location_to_tag s) (seqZ 0 N) 0) as [m n].
  destruct H as (H1 & H2 & H3); [unfold kInvalidID, UINT32_MAX in Hc; lia|]. simpl.
  split_and!; [by rewrite H2|done|]. intros i Hi. apply at_lookup. split; [lia|].
  rewrite (H3 (Z.to_nat i) i) by (rewrite lookup_seqZ; lia). do 2 f_equal. unfold new_id. f_equal. f_equal. f_equal.
  replace N with (i + (N - i)) by lia. rewrite seqZ_app by lia. rewrite take_app_le by (rewrite length_seqZ; lia).
  by rewrite take_ge by (rewrite length_seqZ; lia).
Qed.

Lemma new_id_valid i : tg i = true → 0 <= nid i < n_live ∧ nid i ≠ kInvalidID ∧ nid i <= i.
Proof.
  intros Ht. pose proof (below_slots i (tagged_below i Ht)) as Hi. pose proof (new_id_le (location_to_tag s) i ltac:(lia)).
  pose proof (mo_cap _ _ Hok). pose proof (new_id_lookup (location_to_tag s) i N Hi Ht) as Hl.
  apply lookup_lt_Some in Hl. unfold n_live. lia.
Qed.

Lemma id_map_at i : 0 <= i < N → ∃ v, at_ id_map i = Some v ∧ Z.eqb v kInvalidID = negb (tg i) ∧ (tg i = true → v = nid i).
Proof.
  intros Hi. destruct make_id_map_spec as (_ & _ & H). rewrite (H i Hi). eexists. split; [done|].
  destruct (tg i) eqn:E; [|by split]. split; [|done]. apply Z.eqb_neq. by apply new_id_valid.
Qed.

(** ** Patching *)

(** The neighbours node [i] has afterwards: its surviving neighbours, and those of
    its deleted neighbours. *)
Definition heir (i x : Z) : Prop :=
  tg x = true ∧ (x ∈ nbrs_of s i ∨ ∃ y, y ∈ nbrs_of s i ∧ tg y = false ∧ x ∈ nbrs_of s y ∧ x ≠ i).

Lemma two_hop_set_spec i l set :
  (∀ x, x ∈ l → 0 <= x < N) →
  ∃ set', two_hop id_map i l set = Some set' ∧ ∀ x, x ∈ set' ↔ x ∈ set ∨ (x ∈ l ∧ tg x = true ∧ x ≠ i).
Proof.
  revert set. induction l as [|y l IH]; intros set Hl; cbn [two_hop].
  { exists set. split; [done|]. set_solver. }
  destruct (id_map_at y) as (v & -> & Hv & _); [apply Hl; left|]. cbn [mbind option_bind]. rewrite Hv, negb_involutive.
  destruct (IH (if tg y && negb (y =? i) then {[y]} ∪ set else set)) as (set' & Hs & Hx); [intros x Hx; apply Hl; by right|].
  exists set'. split; [done|]. intros x. rewrite Hx, elem_of_cons.
  clear -Hx. destruct (tg y) eqn:Ey; simpl; [|naive_solver congruence]. destruct (Z.eqb_spec y i); simpl; set_solver.
Qed.

Lemma nbrs_slots i x : x ∈ nbrs_of s i → 0 <= x < N ∧ x ≠ i.
Proof.
  unfold nbrs_of. destruct (at_ (final_graph s) i) as [l|] eqn:El; simpl; [|by intros ?%not_elem_of_nil]. intros Hx.
  destruct (go_nbrs _ _ (mo_graph _ _ Hok) i l El) as [[H _ _] _]. destruct (H x Hx) as [Hb ?].
  split; [by apply below_slots|assumption].
Qed.

(** The lists of deleted nodes are as in [s]. *)
Definition deleted_kept (g : list (list Z)) : Prop := ∀ i, tg i = false → at_ g i = at_ (final_graph s) i.

Lemma patch_spec g i l set :
  deleted_kept g → (∀ x, x ∈ l → 0 <= x < N) →
  ∃ set', patch_nbrs (set_graph g s) id_map i l set = Some set' ∧ ∀ x, x ∈ set' ↔
    x ∈ set ∨ tg x = true ∧ (x ∈ l ∨ ∃ y, y ∈ l ∧ tg y = false ∧ x ∈ nbrs_of s y ∧ x ≠ i).
Proof.
  intros Hd. revert set. induction l as [|y l IH]; intros set Hl; cbn [patch_nbrs].
  { exists set. split; [done|]. set_solver. }
  assert (Hy : 0 <= y < N) by (apply Hl; left).
  destruct (id_map_at y) as (v & -> & Hv & _); [done|]. cbn [mbind option_bind]. rewrite Hv.
  assert (∀ x, x ∈ l → 0 <= x < N) as Hl' by (intros x Hx; apply Hl; by right).
  destruct (tg y) eqn:Ey; cbn [negb].
  - destruct (IH ({[y]} ∪ set) Hl') as (set' & Hs & Hx). exists set'. split; [done|]. intros x. rewrite Hx.
    rewrite elem_of_union, elem_of_singleton. setoid_rewrite elem_of_cons. clear -Ey.
    split; [intros [[->|Hs]|(Ht & [Hx|(z & Hz & Hr)])]|intros [Hs|(Ht & [[->|Hx]|(z & [->|Hz] & Hf & Hr)])]].
    + right. split; [done|]. left. by left.
    + by left.
    + right. split; [done|]. left. by right.
    + right. split; [done|]. right. exists z. split; [by right|done].
    + left. by right.
    + left. by left.
    + right. split; [done|by left].
    + congruence.
    + right. split; [done|]. right. by exists z.
  - cbn [final_graph set_graph]. rewrite (Hd y Ey).
    destruct (at_Some (final_graph s) y) as [k Hk]; [rewrite (go_len _ _ (mo_graph _ _ Hok)); done|].
    assert (Hny : nbrs_of s y = k) by (unfold nbrs_of; by rewrite Hk). rewrite Hk. cbn [mbind option_bind].
    destruct (two_hop_set_spec i k set) as (set1 & -> & H1); [intros x Hx; rewrite <- Hny in Hx; apply (proj1 (nbrs_slots y x Hx))|].
    cbn [mbind option_bind]. destruct (IH set1 Hl') as (set' & Hs & Hx). exists set'. split; [done|]. intros x. rewrite Hx, H1.
    rewrite <- Hny. setoid_rewrite elem_of_cons. clear -Ey.
    split; [intros [[Hs|(Hn & Ht & Hi)]|(Ht & [Hx|(z & Hz & Hr)])]|intros [Hs|(Ht & [[->|Hx]|(z & [->|Hz] & Hf & Hr & Hi)])]].
    + by left.
    + right. split; [done|]. right. exists y. split; [by left|done].
    + right. split; [done|]. left. by right.
    + right. split; [done|]. right. exists z. split; [by right|done].
    + left. by left.
    + congruence.
    + right. split; [done|by left].
    + left. by right.
    + right. split; [done|]. right. by exists z.
Qed.

(** What the new list of a surviving node [i] is, in new ids: without repetition,
    at most [R] of the heirs, and all of them if they fit. *)
Record new_list (i : Z) (l : list Z) : Prop := mkNewList {
  nl_nodup : NoDup l;
  nl_len : (length l ≤ R pr)%nat;
  nl_in : ∀ y, y ∈ l → ∃ x, heir i x ∧ y = nid x;
  nl_all : ∀ set : gset Z, (∀ x, x ∈ set ↔ heir i x) → (size set ≤ R pr)%nat → ∀ x, heir i x → nid x ∈ l
}.

Lemma remap_spec l :
  (∀ x, x ∈ l → tg x = true) → mapM (at_ id_map) l = Some (map nid l).
Proof.
  induction l as [|x l IH]; intros Hl; [done|]. cbn [mapM map].
  assert (Hx : tg x = true) by (apply Hl; left). destruct (id_map_at x) as (v & -> & _ & Hv); [by apply below_slots, tagged_below|].
  cbn [mbind option_bind]. rewrite IH by (intros y Hy; apply Hl; by right). cbn [mbind option_bind]. by rewrite Hv.
Qed.

Lemma remap_NoDup l : (∀ x, x ∈ l → tg x = true) → NoDup l → NoDup (map nid l).
Proof.
  intros Hl Hnd. apply (NoDup_fmap_2_strong nid); [|done]. intros x y Hx%Hl Hy%Hl.
  pose proof (below_slots x (tagged_below x Hx)). pose proof (below_slots y (tagged_below y Hy)).
  apply (new_id_inj (location_to_tag s)); [lia|lia|done|done].
Qed.

Lemma heir_tagged i x : heir i x → tg x = true ∧ x ≠ i.
Proof.
  intros [Ht [Hx|(y & _ & _ & _ & ?)]]; [|done]. split; [done|]. by apply nbrs_slots in Hx as [_ ?].
Qed.

(** At most [R] of the new neighbours. *)
Lemma limit_spec g i l0 :
  0 <= i < N → (∀ x, x ∈ l0 → below (nd s) x) → NoDup l0 →
  ∃ l1, (if Nat.ltb (R pr) (length l0) then
           compute_dists compare_sym (set_graph g s) i l0 ≫= λ ds,
           prune metric compare_sym (set_graph g s) (zip_with new_neighbor l0 ds) l0 pr
         else Some l0) = Some l1 ∧ NoDup l1 ∧ (length l1 ≤ R pr)%nat ∧ (∀ x, x ∈ l1 → x ∈ l0)
  ∧ ((length l0 ≤ R pr)%nat → l1 = l0).
Proof.
  intros Hi Hb0 Hnd0. destruct (Nat.ltb_spec (R pr) (length l0)); [|by exists l0].
  unfold compute_dists. cbn [vectors set_graph].
  destruct (at_Some (vectors s) i) as [vec ->]; [done|]. cbn [mbind option_bind].
  change (compute_dists_sym compare_sym (set_graph g s) vec l0) with (compute_dists_sym compare_sym s vec l0).
  destruct (compute_dists_Some compare_sym Hnan D s (mo_graph _ _ Hok) vec l0 Hb0) as (ds & -> & Hdl & Hds).
  cbn [mbind option_bind]. destruct (scored_ids l0 ds Hdl Hds Hnd0) as [Hok0 Hids].
  destruct (prune_spec metric compare_sym pr Halpha (set_graph g s) (zip_with new_neighbor l0 ds) l0 Hok0)
    as (out & -> & _ & Hout); [change (NoDup (id <$> zip_with new_neighbor l0 ds)); by rewrite Hids|].
  destruct Hout as (Ho1 & Ho2 & Ho3); [intros E; rewrite E in Hids; simpl in Hids; destruct l0; [simpl in *; lia|done]|].
  exists out. split_and!; try done; [|lia]. intros x Hx%Ho3. change (x ∈ id <$> zip_with new_neighbor l0 ds) in Hx.
  by rewrite Hids in Hx.
Qed.

(** Patch, prune if there are too many, and rename. *)
Lemma patched_list g i :
  tg i = true → deleted_kept g → at_ g i = at_ (final_graph s) i → length g = max_points s →
  ∃ l, consolidate_node metric compare_sym hash_order pr id_map i (set_graph g s)
       = Some (set_graph (<[Z.to_nat i := l]> g) s) ∧ new_list i l.
Proof.
  intros Hi Hd Hgi Hlen. pose proof (below_slots i (tagged_below i Hi)) as Hib. unfold consolidate_node.
  destruct (id_map_at i Hib) as (v & -> & Hv & _). cbn [mbind option_bind]. rewrite Hv, Hi. cbn [negb final_graph set_graph].
  rewrite Hgi. destruct (at_Some (final_graph s) i) as [k Hk]; [rewrite (go_len _ _ (mo_graph _ _ Hok)); done|].
  assert (Hnk : nbrs_of s i = k) by (unfold nbrs_of; by rewrite Hk). rewrite Hk. cbn [mbind option_bind].
  destruct (patch_spec g i k ∅ Hd) as (set & -> & Hset); [intros x Hx; rewrite <- Hnk in Hx; apply (proj1 (nbrs_slots i x Hx))|].
  cbn [mbind option_bind].
  assert (Hh : ∀ x, x ∈ set ↔ heir i x).
  { intros x. rewrite Hset. unfold heir. rewrite Hnk. split; [intros [[]%not_elem_of_empty|]|]; auto. }
  clear Hset. set (l0 := hash_order (elements set)).
  assert (Hl0 : ∀ x, x ∈ l0 ↔ heir i x) by (intros x; unfold l0; by rewrite Hhash, elem_of_elements, Hh).
  assert (Hnd0 : NoDup l0) by (unfold l0; rewrite Hhash; apply NoDup_elements).
  assert (Hsz : length l0 = size set) by (unfold l0; by rewrite Hhash).
  destruct (limit_spec g i l0 Hib) as (l1 & Hrun & Hnd1 & Hlen1 & Hsub1 & Heq1);
    [intros x [Hx _]%Hl0%heir_tagged; by apply tagged_below|done|].
  assert (Hin1 : ∀ x, x ∈ l1 → heir i x) by (intros x Hx; by apply Hl0, Hsub1).
  rewrite Hrun. cbn [mbind option_bind]. assert (Ht1 : ∀ x, x ∈ l1 → tg x = true) by (intros x Hx%Hin1; by apply heir_tagged in Hx as [? _]).
  rewrite remap_spec by done. cbn [mbind option_bind]. unfold assign_nbrs. cbn [final_graph set_graph].
  rewrite put_Some by lia. cbn [mbind option_bind]. eexists. split; [done|]. split.
  - by apply remap_NoDup.
  - by rewrite length_map.
  - intros y (x & <- & Hx)%list_elem_of_In%in_map_iff. exists x. split; [|done]. by apply Hin1, list_elem_of_In.
  - intros set' Hs' Hle x Hx. rewrite Heq1; [by apply (list_elem_of_fmap_2 nid), Hl0|]. rewrite Hsz.
    replace set with set'; [done|]. apply set_eq. intros z. by rewrite Hs', Hh.
Qed.

(** The parallel loop, whatever its order. *)
Lemma patch_all :
  ∃ g, for_each (consolidate_node metric compare_sym hash_order pr id_map) (order (seqZ 0 N)) s = Some (set_graph g s)
  ∧ length g = max_points s ∧ ∀ i, tg i = true → ∃ l, at_ g i = Some l ∧ new_list i l.
Proof.
  destruct (for_each_inv (consolidate_node metric compare_sym hash_order pr id_map)
    (λ d s', ∃ g, s' = set_graph g s ∧ length g = max_points s ∧ deleted_kept g
       ∧ ∀ i, tg i = true → if decide (i ∈ d) then ∃ l, at_ g i = Some l ∧ new_list i l else at_ g i = at_ (final_graph s) i)
    (order (seqZ 0 N)) s) as (s' & Hrun & g & -> & Hlen & _ & Hg).
  - exists (final_graph s). split_and!; [by destruct s|apply (mo_graph _ _ Hok)|done|].
    intros i _. rewrite decide_False by (by intros ?%not_elem_of_nil). done.
  - intros d i rest s1 E (g & -> & Hlen & Hd & Hg).
    assert (Hnd : NoDup (d ++ i :: rest)) by (rewrite <- E, Hord; apply NoDup_seqZ).
    assert (Hi : 0 <= i < N).
    { assert (Hin : i ∈ order (seqZ 0 N)) by (rewrite E; apply elem_of_app; right; left).
      rewrite Hord in Hin. apply elem_of_seqZ in Hin. lia. }
    apply NoDup_app in Hnd as (_ & Hfresh & _). assert (Hid : i ∉ d) by (intros Hin; apply (Hfresh i Hin); left).
    destruct (tg i) eqn:Ei.
    + assert (Hgi : at_ g i = at_ (final_graph s) i) by (pose proof (Hg i Ei) as H; by rewrite decide_False in H).
      destruct (patched_list g i Ei Hd Hgi Hlen) as (l & -> & Hl). eexists. split; [done|].
      exists (<[Z.to_nat i := l]> g). split_and!; [done|by rewrite length_insert| |].
      * intros j Hj. rewrite at_put by lia. rewrite decide_False by congruence. by apply Hd.
      * intros j Hj. rewrite at_put by lia. destruct (decide (j = i)) as [->|Hne].
        { rewrite decide_True by (apply elem_of_app; right; left). by exists l. }
        specialize (Hg j Hj). destruct (decide (j ∈ d)).
        { rewrite decide_True by (apply elem_of_app; by left). done. }
        rewrite decide_False; [done|]. intros [|?%list_elem_of_singleton]%elem_of_app; done.
    + unfold consolidate_node. destruct (id_map_at i Hi) as (v & -> & Hv & _). cbn [mbind option_bind].
      rewrite Hv, Ei. cbn [negb]. eexists. split; [done|]. exists g. split_and!; try done.
      intros j Hj. specialize (Hg j Hj). destruct (decide (j ∈ d)).
      { rewrite decide_True by (apply elem_of_app; by left). done. }
      rewrite decide_False; [done|]. intros [|?%list_elem_of_singleton]%elem_of_app; [done|congruence].
  - exists g. split_and!; [done..|]. intros i Hi. specialize (Hg i Hi).
    rewrite decide_True in Hg; [done|]. rewrite Hord. apply elem_of_seqZ. pose proof (below_slots i (tagged_below i Hi)). lia.
Qed.

(** ** Compaction *)

(** The index with another graph and other vectors. *)
Definition with_arrays (g vs : list (list Z)) : Index :=
  mkIndex g vs (nd s) (range s) (R_base s) (R_ood s) (ep s) (tag_to_location s) (location_to_tag s) (delete_set s).

Lemma compact_all g :
  length g = max_points s →
  ∃ g' vs', for_each (compact_node id_map) (seqZ 0 N) (set_graph g s) = Some (with_arrays g' vs')
  ∧ length g' = max_points s ∧ length vs' = max_points s
  ∧ ∀ i, tg i = true → at_ g' (nid i) = at_ g i ∧ at_ vs' (nid i) = at_ (vectors s) i.
Proof.
  intros Hlen.
  destruct (for_each_inv (compact_node id_map)
    (λ d s', ∃ g' vs', s' = with_arrays g' vs' ∧ length g' = max_points s ∧ length vs' = max_points s
       ∧ (∀ i, tg i = true → i < Z.of_nat (length d) → at_ g' (nid i) = at_ g i ∧ at_ vs' (nid i) = at_ (vectors s) i)
       ∧ ∀ j, Z.of_nat (length d) <= j → at_ g' j = at_ g j ∧ at_ vs' j = at_ (vectors s) j)
    (seqZ 0 N) (set_graph g s)) as (s' & Hrun & g' & vs' & -> & Hg' & Hv' & Hin & _).
  - exists g, (vectors s). split_and!; try done. intros i Hi Hlt. pose proof (below_slots i (tagged_below i Hi)).
    simpl in Hlt. lia.
  - intros d i rest s1 E (g' & vs' & -> & Hg' & Hv' & Hin & Hout).
    assert (Hi : i = Z.of_nat (length d)).
    { assert (seqZ 0 N !! length d = Some i) as Hl by (rewrite E, lookup_app_r, Nat.sub_diag by lia; done).
      apply lookup_seqZ in Hl. lia. }
    assert (HiN : 0 <= i < N).
    { assert (i ∈ seqZ 0 N) as Hm by (rewrite E; apply elem_of_app; right; left). apply elem_of_seqZ in Hm. lia. }
    rewrite length_app. simpl length. unfold compact_node. destruct (id_map_at i HiN) as (v & -> & Hv & Hvn).
    cbn [mbind option_bind]. rewrite Hv. destruct (Hout i ltac:(lia)) as [Hgi Hvi].
    destruct (tg i) eqn:Ei; cbn [negb orb].
    2:{ eexists. split; [done|]. exists g', vs'. split_and!; try done; [|intros j Hj; apply Hout; lia].
        intros j Hj Hlt. apply Hin; [done|]. destruct (decide (j = i)); [congruence|lia]. }
    rewrite (Hvn eq_refl). destruct (new_id_valid i Ei) as (Hb & _ & Hle).
    destruct (Z.eqb_spec (nid i) i) as [Heq|Hne].
    { eexists. split; [done|]. exists g', vs'. split_and!; try done; [|intros j Hj; apply Hout; lia].
      intros j Hj Hlt. destruct (decide (j = i)) as [->|]; [by rewrite Heq|apply Hin; [done|lia]]. }
    destruct (at_Some g' i) as [l Hl]; [lia|]. destruct (at_Some vs' i) as [w Hw]; [lia|].
    cbn [final_graph vectors with_arrays]. rewrite Hl. cbn [mbind option_bind]. rewrite put_Some by lia. cbn [mbind option_bind].
    rewrite put_Some by (rewrite length_insert; lia). cbn [mbind option_bind]. rewrite Hw. cbn [mbind option_bind].
    rewrite put_Some by lia. cbn [mbind option_bind]. eexists. split; [done|]. eexists _, _. split; [done|].
    rewrite !length_insert. split_and!; [done..| |].
    + intros j Hj Hlt. rewrite !at_put by (rewrite ?length_insert; lia). destruct (decide (j = i)) as [->|Hji].
      { rewrite !decide_True by done. split; congruence. }
      assert (nid j < nid i) by (apply new_id_lt; [pose proof (below_slots j (tagged_below j Hj)); lia|done]).
      rewrite !decide_False by lia. apply Hin; [done|lia].
    + intros j Hj. rewrite !at_put by (rewrite ?length_insert; lia). rewrite !decide_False by lia. apply Hout. lia.
  - exists g', vs'. split_and!; [done..|]. intros i Hi. apply Hin; [done|]. rewrite length_seqZ.
    pose proof (below_slots i (tagged_below i Hi)). lia.
Qed.

(** ** Tags *)

Lemma tagged_tag t l : tag_to_location s !! t = Some l → tg l = true.
Proof.
  intros H. apply (to_inv _ (mo_tags _ _ Hok)) in H. unfold tagged. apply bool_decide_eq_true. by exists t.
Qed.

Lemma remap_tags_run l a b :
  (∀ p, p ∈ l → tg p.2 = true) →
  remap_tags id_map l a b
  = Some (foldl (λ m p, <[p.1 := nid p.2]> m) a l, foldl (λ m p, <[nid p.2 := p.1]> m) b l).
Proof.
  revert a b. induction l as [|[t x] l IH]; intros a b Hl; [done|]. cbn [remap_tags foldl].
  assert (Hx : tg x = true) by (apply (Hl (t, x)); left).
  destruct (id_map_at x (below_slots x (tagged_below x Hx))) as (v & -> & Hv & Hvn). cbn [mbind option_bind].
  rewrite Hv, Hx. cbn [negb]. rewrite IH by (intros p Hp; apply Hl; by right). by rewrite Hvn.
Qed.

Lemma remap_tags_spec :
  ∃ t2l l2t, remap_tags id_map (map_to_list (tag_to_location s)) ∅ ∅ = Some (t2l, l2t)
  ∧ (∀ t k, t2l !! t = Some k ↔ ∃ x, tag_to_location s !! t = Some x ∧ k = nid x)
  ∧ (∀ t k, l2t !! k = Some t ↔ t2l !! t = Some k).
Proof.
  set (l := map_to_list (tag_to_location s)).
  assert (Hl : ∀ t x, (t, x) ∈ l ↔ tag_to_location s !! t = Some x) by (intros t x; apply elem_of_map_to_list).
  assert (Ht : ∀ p, p ∈ l → tg p.2 = true) by (intros [t x] Hp%Hl; by apply tagged_tag in Hp).
  assert (Hk1 : NoDup (fst <$> l)) by apply NoDup_fst_map_to_list.
  assert (Hk2 : NoDup ((λ p, nid p.2) <$> l)).
  { apply NoDup_fmap_2_strong; [|apply NoDup_map_to_list]. intros [t x] [u y] Hp Hq E. simpl in E.
    pose proof (Ht _ Hp) as Tx. pose proof (Ht _ Hq) as Ty. simpl in *.
    pose proof (below_slots x (tagged_below x Tx)). pose proof (below_slots y (tagged_below y Ty)).
    apply (new_id_inj (location_to_tag s)) in E; [|lia|lia|done|done]. subst y. f_equal.
    apply Hl in Hp, Hq. apply (to_inv _ (mo_tags _ _ Hok)) in Hp, Hq. congruence. }
  eexists _, _. split; [by apply remap_tags_run|].
  assert (H1 : ∀ t k, foldl (λ m p, <[p.1 := nid p.2]> m) (∅ : gmap Z Z) l !! t = Some k ↔ ∃ x, tag_to_location s !! t = Some x ∧ k = nid x).
  { intros t k. rewrite (foldl_insert_elem fst (λ p, nid p.2)) by done. split.
    - intros [([u x] & Hp%Hl & <- & <-)|[_ ?]]; [by exists x|done].
    - intros (x & Hx & ->). left. exists (t, x). split; [by apply Hl|done]. }
  split; [done|]. intros t k. rewrite H1, (foldl_insert_elem (λ p, nid p.2) fst) by done. split.
  - intros [([u x] & Hp%Hl & <- & <-)|[_ ?]]; [by exists x|done].
  - intros (x & Hx & ->). left. exists (t, x). split; [by apply Hl|done].
Qed.

(** ** The whole operation *)

Context (uniform : Z → Z → Z) (Huni : ∀ lo hi, lo <= hi → lo <= uniform lo hi <= hi).

(** What a consolidation leaves: the surviving nodes in their order, under new ids,
    with patched neighbour lists. *)
Record consolidated (s' : Index) : Prop := mkConsolidated {
  co_nd : Z.of_nat (nd s') = n_live;
  co_slots : max_points s' = max_points s;
  co_vec : ∀ i, tg i = true → at_ (vectors s') (nid i) = at_ (vectors s) i;
  co_nbrs : ∀ i, tg i = true → ∃ l, at_ (final_graph s') (nid i) = Some l ∧ new_list i l;
  co_tag : ∀ t k, tag_to_location s' !! t = Some k ↔ ∃ x, tag_to_location s !! t = Some x ∧ k = nid x;
  co_ltag : ∀ t k, location_to_tag s' !! k = Some t ↔ tag_to_location s' !! t = Some k;
  co_del : delete_set s' = ∅;
  co_ep : ep s' = if tg (ep s) then nid (ep s) else calculate_entry_point uniform s'
}.

Lemma consolidate_run :
  delete_set s ≠ ∅ →
  ∃ s', consolidate metric compare_sym uniform hash_order pr order s = Some s' ∧ consolidated s'
  ∧ length (final_graph s') = max_points s
  ∧ ∀ k l, at_ (final_graph s') k = Some l → n_live <= k → l = [].
Proof.
  intros Hdel. unfold consolidate. rewrite bool_decide_eq_false_2 by done.
  destruct make_id_map_spec as (Hm & _ & _). rewrite Hm.
  destruct patch_all as (g & -> & Hg & Hlist). cbn [mbind option_bind].
  destruct (compact_all g Hg) as (g' & vs' & -> & Hg' & Hv' & Hmove). cbn [mbind option_bind with_arrays tag_to_location ep].
  destruct remap_tags_spec as (t2l & l2t & -> & Ht & Hl). cbn [mbind option_bind].
  assert (Hpos : (0 < nd s)%nat).
  { apply set_choose_L in Hdel as [x Hx]. assert (below (nd s) x) as Hb by (apply (to_loc _ (mo_tags _ _ Hok)); by right).
    unfold below in Hb. lia. }
  assert (He : below (nd s) (ep s)) by (destruct (mo_ep _ _ Hok) as [|[]]; [done|lia]).
  destruct (id_map_at (ep s) (below_slots _ He)) as (v & -> & Hv & Hvn). cbn [mbind option_bind].
  assert (Hn : (Z.to_nat n_live ≤ max_points s)%nat).
  { unfold n_live. pose proof (List.filter_length_le tg (seqZ 0 N)) as Hf. rewrite length_seqZ in Hf. lia. }
  assert (Hat : ∀ k, at_ (take (Z.to_nat n_live) g' ++ replicate (max_points s - Z.to_nat n_live) []) k
                = if decide (k < n_live) then at_ g' k else if decide (k < N) then Some [] else None).
  { intros k. unfold at_. destruct (Z.ltb_spec k 0).
    { destruct (decide (k < n_live)); [done|]. unfold n_live in *. lia. }
    destruct (decide (k < n_live)).
    - rewrite lookup_app_l by (rewrite length_take; lia). apply lookup_take_lt. lia.
    - rewrite lookup_app_r by (rewrite length_take; lia). rewrite length_take, Nat.min_l by lia.
      destruct (decide (k < N)); [apply lookup_replicate_2; lia|]. apply lookup_ge_None_2. rewrite length_replicate. lia. }
  assert (Hmax : max_points (with_arrays g' vs') = max_points s) by done. rewrite Hmax.
  assert (Hz : Z.of_nat (Z.to_nat n_live) = n_live) by (unfold n_live; lia).
  eexists. split; [done|]. split; [|split].
  - split; cbn [nd max_points set_ep vectors final_graph tag_to_location location_to_tag delete_set ep]; try done.
    + intros i Hi. by apply Hmove.
    + intros i Hi. destruct (Hlist i Hi) as (l & Hgi & Hl'). destruct (Hmove i Hi) as [Hgm _].
      destruct (new_id_valid i Hi) as (Hb & _). exists l. rewrite Hat.
      destruct (decide (nid i < n_live)); [|lia]. by rewrite Hgm.
    + rewrite Hv. destruct (tg (ep s)); cbn [negb]; [by rewrite Hvn|done].
  - cbn [final_graph set_ep with_arrays]. rewrite length_app, length_take, length_replicate, Hg'. lia.
  - cbn [final_graph set_ep]. intros k l Hk Hge. rewrite Hat in Hk. destruct (decide (k < n_live)); [lia|].
    destruct (decide (k < N)); by simplify_eq.
Qed.

Lemma live_pos : tag_to_location s ≠ ∅ → 0 < n_live.
Proof.
  intros (t & x & Hx)%map_choose. pose proof (new_id_valid x (tagged_tag t x Hx)). lia.
Qed.

Lemma new_list_nbrs s' i l : Z.of_nat (nd s') = n_live → tg i = true → new_list i l → nbrs_ok (nd s') D (nid i) l.
Proof.
  intros Hn Hi [H1 H2 H3 _]. split; [|done|lia]. intros y (x & Hx & ->)%H3. destruct (heir_tagged i x Hx) as [Ht Hne].
  destruct (new_id_valid x Ht) as (Hb & _). unfold below. split; [lia|]. intros E. apply Hne.
  pose proof (below_slots x (tagged_below x Ht)). pose proof (below_slots i (tagged_below i Hi)).
  apply (new_id_inj (location_to_tag s)); [lia|lia|done|done|done].
Qed.

Lemma live_new_id k : 0 <= k < n_live → ∃ i, tg i = true ∧ k = nid i.
Proof.
  intros Hk. destruct (lookup_lt_is_Some_2 (List.filter tg (seqZ 0 N)) (Z.to_nat k)) as [i Hi]; [unfold n_live in Hk; lia|].
  destruct (survivor _ _ _ _ Hi) as (_ & Ht & E). exists i. split; [done|lia].
Qed.

Lemma consolidated_ok s' :
  tag_to_location s ≠ ∅ → consolidated s' → length (final_graph s') = max_points s →
  (∀ k l, at_ (final_graph s') k = Some l → n_live <= k → l = []) → mem_ok D s' ∧ abs s' = abs s.
Proof.
  intros Hlive [Hnd Hmax Hvec Hnb Htag Hltag Hdel Hep] Hlen Hrest. pose proof (live_pos Hlive) as Hpos.
  assert (Hle : n_live <= N).
  { unfold n_live. pose proof (List.filter_length_le tg (seqZ 0 N)) as Hf. rewrite length_seqZ in Hf. lia. }
  split; [split|].
  - split; [by rewrite Hmax|lia|]. intros k l Hk. destruct (decide (below (nd s') k)) as [Hb|Hb].
    + destruct (live_new_id k) as (i & Hi & ->); [unfold below in Hb; lia|]. destruct (Hnb i Hi) as (l' & Hl' & Hnl).
      assert (l' = l) as -> by congruence. split; [by apply new_list_nbrs|by left].
    + assert (l = []) as ->; [|split; [|by right]].
      { apply (Hrest k); [done|]. apply at_lookup in Hk as [? _]. unfold below in Hb. lia. }
      split; [by intros x ?%not_elem_of_nil|apply NoDup_nil_2|simpl; lia].
  - split.
    + intros t k. by rewrite Hltag.
    + intros k. rewrite Hdel. split.
      * intros [[t Ht%Hltag%Htag]|[]%not_elem_of_empty]. destruct Ht as (x & Hx & ->).
        destruct (new_id_valid x (tagged_tag t x Hx)) as (? & _). unfold below. lia.
      * intros Hb. left. destruct (live_new_id k) as (i & Hi & ->); [unfold below in Hb; lia|].
        unfold tagged in Hi. apply bool_decide_eq_true in Hi as [t Ht]. exists t. apply Hltag, Htag. exists i. split; [|done].
        by apply (to_inv _ (mo_tags _ _ Hok)).
    + rewrite Hdel. by intros k ?%not_elem_of_empty.
  - left. rewrite Hep. unfold below. destruct (tg (ep s)) eqn:E; [destruct (new_id_valid _ E) as (? & _); lia|].
    unfold calculate_entry_point. rewrite Hnd. rewrite u32_small.
    + pose proof (Huni 0 (n_live - 1)). lia.
    + pose proof (mo_cap _ _ Hok). unfold is_u32, kInvalidID, UINT32_MAX in *. lia.
  - rewrite Hmax. apply Hok.
  - apply map_eq. intros t. rewrite !abs_lookup. destruct (tag_to_location s !! t) as [x|] eqn:Ex; simpl.
    + assert (Ht : tag_to_location s' !! t = Some (nid x)) by (apply Htag; by exists x). rewrite Ht. simpl.
      by apply Hvec, (tagged_tag t).
    + destruct (tag_to_location s' !! t) as [k|] eqn:Ek; [|done]. apply Htag in Ek as (x & ? & _). congruence.
Qed.

(** Consolidation keeps the invariant and the records of all tags. *)
Lemma consolidate_spec :
  tag_to_location s ≠ ∅ →
  ∃ s', consolidate metric compare_sym uniform hash_order pr order s = Some s' ∧ mem_ok D s' ∧ abs s' = abs s
  ∧ max_points s' = max_points s ∧ (nd s' ≤ nd s)%nat ∧ (delete_set s ≠ ∅ → consolidated s').
Proof.
  intros Hlive. destruct (decide (delete_set s = ∅)) as [Hd|Hd].
  { exists s. unfold consolidate. rewrite bool_decide_eq_true_2 by done. done. }
  destruct (consolidate_run Hd) as (s' & Hrun & Hc & Hlen & Hrest).
  destruct (consolidated_ok s' Hlive Hc Hlen Hrest) as [Hok' Habs]. exists s'. split_and!; try done; [apply Hc|].
  destruct Hc as [Hnd _ _ _ _ _ _ _]. unfold n_live in Hnd. apply Nat2Z.inj_le. rewrite Hnd. apply Nat2Z.inj_le.
  replace (nd s) with (length (seqZ 0 (Z.of_nat (nd s)))) by (rewrite length_seqZ; lia).
  apply submseteq_length, NoDup_submseteq.
  - apply NoDup_ListNoDup, List.NoDup_filter, NoDup_ListNoDup, NoDup_seqZ.
  - intros i [_ Ht]%list_elem_of_In%List.filter_In. apply tagged_below in Ht. apply elem_of_seqZ. unfold below in Ht. lia.
Qed.
End consolidate.
End Consolidate.
