(* ===== verification/MemRefine.v ===== *)
(** * The in-memory index as a map of vectors

    The operations of [Index] ([MemIndex]) against the abstract map from tags to
    vector records, the search over it, the build and the tag file. *)

From S2P Require Import Prelude Float32 Neighbor CandidatePool Prune PipeSearch PipeProof MemIndex MemSearch MemProof Consolidate.

Module MemRefine.
Import PipeProof Prune Mem MemSearch MemProof Consolidate.
Local Open Scope nat_scope.

Definition empty_index : Index := new_index 0 [] 0 0.

Lemma empty_ok D : mem_ok D empty_index.
Proof.
  split; [| |by right|done].
  - split; [done..|]. intros i l Hl. unfold at_ in Hl. destruct (Z.ltb i 0); [done|]. by destruct (Z.to_nat i).
  - split; simpl; [done| |].
    + intros l. unfold below. split; [intros [[t H]|[]%not_elem_of_empty]; done|lia].
    + by intros l ?%not_elem_of_empty.
Qed.

Lemma few_ops n : (Z.of_nat n <= 50000)%Z → n ≤ kMinPoints.
Proof. unfold kMinPoints. lia. Qed.

Section spec.
Context (metric : Metric) (compare_sym : list Z → list Z → float) (Hnan : ∀ u v, not_nan (compare_sym u v)).
Context (encode normalize_data : list Z → list Z) (record_bytes : nat).
Context (uniform : Z → Z → Z) (Huni : ∀ lo hi, (lo <= hi)%Z → (lo <= uniform lo hi <= hi)%Z).
Context (hash_order order : list Z → list Z) (Hhash : ∀ l, hash_order l ≡ₚ l) (Hord : ∀ l, order l ≡ₚ l).
Context (pr : IndexBuildParameters) (Halpha : alpha pr ≠ f_infinity) (L : nat) (HL : 1 ≤ L).

(** The bound of the neighbour lists. *)
Definition degree : nat := Nat.max (slack pr) (R pr).

(** ** Operations *)

Inductive op := Insert (tag : Z) (point : list Z) | Delete (tag : Z) | Consolidate.

Definition apply_op (o : op) (s : Index) : option Index :=
  match o with
  | Insert tag point => snd <$> insert_point metric compare_sym encode normalize_data record_bytes point pr L tag s
  | Delete tag => Some (lazy_delete tag s).2
  | Consolidate => consolidate metric compare_sym uniform hash_order pr order s
  end.

Definition spec_op (o : op) (m : gmap Z (list Z)) : gmap Z (list Z) :=
  match o with
  | Insert tag point => <[tag := prepare_record metric encode normalize_data point]> m
  | Delete tag => delete tag m
  | Consolidate => m
  end.

Fixpoint run (ops : list op) (s : Index) : option Index :=
  match ops with [] => Some s | o :: ops => s ← apply_op o s; run ops s end.

Fixpoint spec_run (ops : list op) (m : gmap Z (list Z)) : gmap Z (list Z) :=
  match ops with [] => m | o :: ops => spec_run ops (spec_op o m) end.

(** No consolidation while every vector is deleted. *)
Fixpoint sensible (ops : list op) (m : gmap Z (list Z)) : bool :=
  match ops with
  | [] => true
  | o :: ops => match o with Consolidate => negb (bool_decide (m = ∅)) | _ => true end && sensible ops (spec_op o m)
  end.

(** The slots of an index that has seen fewer than 50000 insertions. *)
Definition slots_ok (s : Index) : Prop := nd s = 0 ∧ max_points s = 0 ∨ max_points s = kMinPoints.

Lemma min_points_valid : 0 < kMinPoints ∧ (Z.of_nat kMinPoints < kInvalidID)%Z.
Proof. unfold kMinPoints, kInvalidID, UINT32_MAX. lia. Qed.

Local Opaque kMinPoints.

Lemma slots_room s :
  slots_ok s → nd s < kMinPoints → room s ∧ slots_after s = kMinPoints.
Proof.
  destruct min_points_valid as [_ Hk].
  assert (Hg : growth 0 = 0) by (vm_compute; reflexivity).
  intros Hs Hn. assert (E : slots_after s = kMinPoints); [|unfold room; rewrite E; split; [split|]; assumption || reflexivity].
  unfold slots_after. destruct Hs as [[-> ->]| ->].
  - rewrite Hg. simpl Nat.ltb. cbv iota. apply Nat.max_r. lia.
  - by rewrite (proj2 (Nat.ltb_lt _ _)).
Qed.

Lemma mem_run_correct ops s :
  mem_ok degree s → slots_ok s → nd s + length ops ≤ kMinPoints → sensible ops (abs s) = true →
  ∃ s', run ops s = Some s' ∧ mem_ok degree s' ∧ slots_ok s' ∧ abs s' = spec_run ops (abs s).
Proof.
  revert s. induction ops as [|o ops IH]; intros s Hok Hs Hlen Hse; cbn [run spec_run]; [by exists s|].
  cbn [length] in Hlen. cbn [sensible] in Hse. apply andb_true_iff in Hse as [Ho Hse].
  assert (∃ s1, apply_op o s = Some s1 ∧ mem_ok degree s1 ∧ slots_ok s1 ∧ nd s1 ≤ S (nd s) ∧ abs s1 = spec_op o (abs s))
    as (s1 & -> & Hok1 & Hs1 & Hnd1 & Habs1).
  { destruct o as [tag point|tag|]; cbn [apply_op spec_op].
    - destruct (slots_room s Hs ltac:(lia)) as [Hroom E].
      destruct (insert_point_spec metric compare_sym Hnan encode normalize_data record_bytes pr Halpha L HL degree
        ltac:(unfold degree; lia) ltac:(unfold degree; lia) point tag s Hok Hroom) as (s1 & -> & Hok1 & Hnd & Hmax & Habs).
      exists s1. split_and!; try done; [right; by rewrite Hmax|lia].
    - destruct (lazy_delete_spec degree tag s Hok) as (Hok1 & Habs & _). eexists. split; [done|]. split_and!; try done.
      + revert Hs. unfold lazy_delete, drop_tag. by destruct (tag_to_location s !! tag).
      + unfold lazy_delete, drop_tag. destruct (tag_to_location s !! tag); simpl; lia.
    - apply negb_true_iff, bool_decide_eq_false in Ho.
      destruct (consolidate_spec metric compare_sym Hnan pr Halpha degree ltac:(unfold degree; lia) hash_order order
        Hhash Hord s Hok uniform Huni) as (s1 & -> & Hok1 & Habs & Hmax & Hnd & _).
      { intros E. apply Ho. apply map_eq. intros t. rewrite abs_lookup, E, lookup_empty. done. }
      exists s1. split_and!; try done; [|lia]. unfold slots_ok. rewrite Hmax. destruct Hs as [[E1 E2]|]; [|by right].
      left. split; [lia|done]. }
  cbn [mbind option_bind]. destruct (IH s1) as (s' & Hrun & ? & ? & Habs'); try done; [lia|by rewrite Habs1|].
  exists s'. split_and!; try done. by rewrite Habs', Habs1.
Qed.

(** C7: the in-memory index implements a map.  From the empty index, every sequence
    of insertions, re-insertions, lazy deletions and consolidations (at most 50000,
    and no consolidation of an index whose vectors are all deleted) runs to the end
    and leaves a sound index: neighbour lists without loops or repetitions, of
    bounded length, within the occupied prefix, and tag maps that are inverse to
    each other.  The tags it holds and their vector records are those of the
    abstract map after the same operations. *)
Theorem mem_index_refines_map ops :
  length ops ≤ kMinPoints → sensible ops ∅ = true →
  ∃ s, run ops empty_index = Some s ∧ mem_ok degree s ∧ abs s = spec_run ops ∅.
Proof.
  intros Hlen Hse. destruct (mem_run_correct ops empty_index) as (s & ? & ? & _ & ?); try done; [apply empty_ok|by left|].
  by exists s.
Qed.

(** ** Search *)

Definition with_tag (s : Index) (a : Neighbor) : option (Z * float) :=
  t ← location_to_tag s !! id a; Some (t, distance a).

Lemma tagged_results_spec s K l : tagged_results s K l = take K (omap (with_tag s) l).
Proof.
  revert K. induction l as [|a l IH]; intros [|K]; try done; cbn [tagged_results omap list_omap].
  unfold with_tag at 1. destruct (location_to_tag s !! id a) as [t|]; cbn [mbind option_bind]; [|by rewrite IH].
  cbn [take]. by rewrite IH.
Qed.

(** A result in the abstract map, with its distance. *)
Lemma with_tag_abs D s q e best ex x :
  mem_ok D s → fixed_point compare_sym s q L e best ex → x ∈ omap (with_tag s) best →
  ∃ r, abs s !! x.1 = Some r ∧ x.2 = compare_sym q r.
Proof.
  intros Hok Hfx (a & Ha & Hx)%list_elem_of_omap. unfold with_tag in Hx.
  destruct (location_to_tag s !! id a) as [t|] eqn:Et; [|done]. simplify_eq/=.
  destruct (fx_best _ _ _ _ _ _ _ Hfx a Ha) as (Hocc & Hd & _).
  apply (to_inv _ (mo_tags _ _ Hok)) in Et. rewrite abs_lookup, Et. simpl.
  destruct (at_Some (vectors s) (id a)) as [r Hr].
  { pose proof (go_nd _ _ (mo_graph _ _ Hok)). unfold occupied, max_points in *. lia. }
  exists r. split; [done|]. rewrite Hd. unfold dist_to, record_of. by rewrite Hr.
Qed.

Lemma with_tag_NoDup D s l : mem_ok D s → NoDup (id <$> l) → NoDup (fst <$> omap (with_tag s) l).
Proof.
  intros Hok. induction l as [|a l IH]; intros Hnd; [apply NoDup_nil_2|]. rewrite fmap_cons in Hnd.
  apply NoDup_cons in Hnd as [Ha Hnd]. cbn [omap list_omap]. destruct (with_tag s a) as [[t d]|] eqn:E; [|by apply IH].
  rewrite fmap_cons. apply NoDup_cons. split; [|by apply IH].
  intros ([t' d'] & Et & (b & Hb & Eb)%list_elem_of_omap)%list_elem_of_fmap. unfold with_tag in E, Eb. simpl in *.
  destruct (location_to_tag s !! id a) as [u|] eqn:Ea; [|done]. destruct (location_to_tag s !! id b) as [w|] eqn:Ew; [|done].
  simplify_eq/=. apply (to_inv _ (mo_tags _ _ Hok)) in Ea, Ew. apply Ha. assert (id a = id b) as -> by congruence.
  by apply list_elem_of_fmap_2.
Qed.

(** C16: the search of the in-memory index.  On every sound index with at least one
    node the search ends without an access out of range; the [L] nodes it keeps are
    a fixed point of the greedy walk: the entry point and every neighbour of an
    expanded node are among them, or they are [L] nodes that are all closer to the
    query.  [search_with_tags] returns, in that order, the first [K] of them that
    are not deleted: tags of the abstract map, without repetition, each with the
    distance of its record to the query. *)
Theorem mem_search_correct D s query K :
  mem_ok D s → 0 < nd s → 1 ≤ K →
  ∃ st best, let q := prepare_record metric encode normalize_data query in
    iterate_to_fixed_point compare_sym s q L (ep s) = Some (st, best)
  ∧ fixed_point compare_sym s q L (ep s) best (expanded_nodes_info st)
  ∧ search_with_tags metric compare_sym encode normalize_data s query K L None = Some (take K (omap (with_tag s) best))
  ∧ NoDup (fst <$> omap (with_tag s) best)
  ∧ ∀ x, x ∈ omap (with_tag s) best → ∃ r, abs s !! x.1 = Some r ∧ x.2 = compare_sym q r.
Proof.
  intros Hok Hnd HK. set (q := prepare_record metric encode normalize_data query).
  assert (He : below (nd s) (ep s)) by (destruct (mo_ep _ _ Hok) as [|[]]; [done|lia]).
  destruct (iterate_correct compare_sym Hnan s q L (ep s)) as (st & best & Hit & Hfx); try done.
  { eapply graph_edges, Hok. }
  exists st, best. simpl. split_and!; try done.
  - unfold search_with_tags. destruct K as [|K]; [lia|]. destruct L as [|L']; [lia|]. cbn [Nat.eqb orb].
    unfold search_prepared. fold q. rewrite Hit. cbn [fmap option_fmap option_map snd mbind option_bind]. f_equal. apply tagged_results_spec.
  - eapply with_tag_NoDup; [done|apply Hfx].
  - intros x. by eapply with_tag_abs.
Qed.

(** ** Building *)

(** linking keeps the degree bound.  For every order in which the threads take
    the nodes, [link] ends on a sound graph with at least one node, and leaves every
    node at most [R] distinct neighbours, all of them occupied nodes other than
    itself; vectors and tags are untouched. *)
Theorem mem_link_correct D s :
  slack pr ≤ D → R pr ≤ D → graph_ok D s → 0 < nd s → (Z.of_nat (nd s) < 2 ^ 32)%Z →
  ∃ g, link metric compare_sym uniform pr L order s = Some (set_graph g (set_ep (calculate_entry_point uniform s) s))
  ∧ graph_ok (R pr) (set_graph g (set_ep (calculate_entry_point uniform s) s))
  ∧ below (nd s) (calculate_entry_point uniform s).
Proof. intros HS HR Hg Hn H32. by apply (mem_link_spec metric compare_sym Hnan pr Halpha D L order uniform). Qed.

(** ** Consolidation *)

(** C17: consolidation.  On every sound index with a live vector [consolidate]
    returns, for every order of its parallel loop, a sound index that maps the same
    tags to the same records.  When something was deleted the survivors get the ids
    [0, 1, ...] in their old order and nothing else remains; each keeps its surviving
    neighbours and inherits those of its deleted neighbours, all of them if at most
    [R], otherwise at most [R] of them; a surviving entry point stays. *)
Theorem consolidate_correct D s :
  R pr ≤ D → mem_ok D s → abs s ≠ ∅ →
  ∃ s', consolidate metric compare_sym uniform hash_order pr order s = Some s' ∧ mem_ok D s' ∧ abs s' = abs s
  ∧ (delete_set s ≠ ∅ → consolidated pr s uniform s').
Proof.
  intros HR Hok Hlive.
  destruct (consolidate_spec metric compare_sym Hnan pr Halpha D HR hash_order order Hhash Hord s Hok uniform Huni)
    as (s' & ? & ? & ? & _ & _ & ?).
  { intros E. apply Hlive. apply map_eq. intros t. by rewrite abs_lookup, E, lookup_empty. }
  by exists s'.
Qed.

(** An entry point beyond the store. *)
Lemma find_nbrs_wrong_entry node s :
  (Z.of_nat (max_points s) <= ep s)%Z → find_nbrs metric compare_sym pr L node s = None.
Proof.
  intros He. unfold find_nbrs, get_expanded_nodes. destruct (at_ (vectors s) node) as [v|]; [|done].
  cbn [mbind option_bind]. unfold iterate_to_fixed_point, search_start.
  destruct (VisitedSet.VisitedSet.make 8192) as [vs|]; [|done]. cbn [mbind option_bind].
  destruct (VisitedSet.VisitedSet.insert vs (ep s)) as [[b vs']|]; [|done]. cbn [mbind option_bind].
  unfold compute_dists_sym. cbn [mapM]. unfold at_. destruct (Z.ltb_spec (ep s) 0); [done|].
  by rewrite lookup_ge_None_2 by (unfold max_points in *; lia).
Qed.

Lemma insert_wrong_entry point tag s :
  (Z.of_nat (max_points s) <= ep s)%Z → nd s < max_points s →
  insert_point metric compare_sym encode normalize_data record_bytes point pr L tag s = None.
Proof.
  intros He Hn. unfold insert_point. destruct (place_point _ _ _ _ _ _ _ _) as [[loc s1]|] eqn:E; [|done].
  assert (ep s1 = ep s ∧ max_points s1 = max_points s) as [He1 Hm1].
  { unfold place_point in E. set (s0 := mkIndex _ _ (nd s) _ _ _ _ _ _ _) in E.
    assert (Hd : ep (drop_tag tag s0) = ep s ∧ max_points (drop_tag tag s0) = max_points s ∧ nd (drop_tag tag s0) = nd s).
    { unfold drop_tag. by destruct (tag_to_location s0 !! tag). }
    destruct Hd as (He0 & Hm0 & Hn0). cbn [reserve_loop] in E. unfold reserve_location in E at 1. rewrite Hm0, Hn0 in E.
    destruct (Nat.leb_spec (max_points s) (nd s)); [lia|]. cbn [mbind option_bind vectors set_tags] in E.
    rewrite put_Some in E by (unfold max_points in *; lia). cbn [mbind option_bind] in E. simplify_eq/=.
    split; [done|]. unfold max_points at 1. simpl. rewrite length_insert. done. }
  cbn [mbind option_bind]. unfold link_node. rewrite find_nbrs_wrong_entry; [done|]. by rewrite He1, Hm1.
Qed.

(** consolidating an emptied index breaks it.  When every vector is deleted,
    [consolidate] draws the entry point from an empty range, that is from all 32-bit
    numbers; if the draw is beyond the slots, the next insertion (without a
    reallocation) reads a vector out of range. *)
Theorem consolidate_empty_breaks D s point tag :
  R pr ≤ D → mem_ok D s → abs s = ∅ → delete_set s ≠ ∅ → (Z.of_nat (max_points s) <= uniform 0 UINT32_MAX)%Z →
  ∃ s', consolidate metric compare_sym uniform hash_order pr order s = Some s'
  ∧ ep s' = uniform 0 UINT32_MAX
  ∧ insert_point metric compare_sym encode normalize_data record_bytes point pr L tag s' = None.
Proof.
  intros HR Hok Habs Hdel Huge.
  assert (Hnone : ∀ t, tag_to_location s !! t = None).
  { intros t. apply eq_None_not_Some. intros Ht.
    apply (abs_tag s t (go_nd _ _ (mo_graph _ _ Hok)) (mo_tags _ _ Hok)) in Ht as [r Hr]. by rewrite Habs in Hr. }
  assert (Hunt : ∀ i, tagged (location_to_tag s) i = false).
  { intros i. unfold tagged. apply bool_decide_eq_false. intros [t Ht]. apply (to_inv _ (mo_tags _ _ Hok)) in Ht. by rewrite Hnone in Ht. }
  destruct (consolidate_run metric compare_sym Hnan pr Halpha D HR hash_order order Hhash Hord s Hok uniform Hdel)
    as (s' & Hrun & [Hnd Hmax _ _ _ _ _ Hep] & _ & _).
  assert (Hnl : n_live s = 0%Z).
  { unfold n_live. rewrite (List.filter_ext _ (λ _, false)) by done. by rewrite List.filter_false. }
  assert (Hep' : ep s' = uniform 0 UINT32_MAX).
  { rewrite Hep, Hunt. unfold calculate_entry_point. by rewrite Hnd, Hnl. }
  exists s'. split; [done|]. split; [done|]. apply insert_wrong_entry; [rewrite Hmax; by rewrite Hep'|].
  apply set_choose_L in Hdel as [x Hx]. assert (below (nd s) x) as Hb by (apply (to_loc _ (mo_tags _ _ Hok)); by right).
  pose proof (go_nd _ _ (mo_graph _ _ Hok)). unfold below in Hb. lia.
Qed.
End spec.

(** ** The tag file *)

(** The tag a saved location gets. *)
Definition saved_tag (s : Index) (l : Z) : Z := default 0%Z (location_to_tag s !! l).

Lemma saved_pairs s l :
  (0 <= l < Z.of_nat (nd s))%Z →
  (l, saved_tag s l) ∈ zip (seqZ 0 (Z.of_nat (nd s))) (map (saved_tag s) (seqZ 0 (Z.of_nat (nd s)))).
Proof.
  intros Hl. apply list_elem_of_lookup. exists (Z.to_nat l). rewrite lookup_zip_with, list_lookup_fmap.
  rewrite lookup_seqZ_lt by lia. simpl. do 3 f_equal; lia.
Qed.

Lemma saved_pairs_inv s x :
  x ∈ zip (seqZ 0 (Z.of_nat (nd s))) (map (saved_tag s) (seqZ 0 (Z.of_nat (nd s)))) →
  (0 <= x.1 < Z.of_nat (nd s))%Z ∧ x.2 = saved_tag s x.1.
Proof.
  intros (k & Hk)%list_elem_of_lookup. rewrite lookup_zip_with, list_lookup_fmap in Hk.
  destruct (seqZ 0 (Z.of_nat (nd s)) !! k) as [i|] eqn:Ei; [|done]. apply lookup_seqZ in Ei. simplify_eq/=. split; [lia|done].
Qed.

Lemma load_saved s s0 f :
  save_tags s = Some f →
  tag_to_location (load_tags (Some f) s0)
  = foldl (λ m x, <[x.2 := x.1]> m) ∅ (zip (seqZ 0 (Z.of_nat (nd s))) (map (saved_tag s) (seqZ 0 (Z.of_nat (nd s)))))
  ∧ ∀ l t, location_to_tag (load_tags (Some f) s0) !! l = Some t ↔ (0 <= l < Z.of_nat (nd s))%Z ∧ t = saved_tag s l.
Proof.
  unfold save_tags. case_bool_decide; [done|]. intros [= <-]. unfold load_tags.
  rewrite length_map, length_seqZ, Nat2Z.id. cbn [set_tags tag_to_location location_to_tag]. split; [done|]. intros l t.
  rewrite (foldl_insert_elem fst snd).
  - split; [intros [(x & [Hx ->]%saved_pairs_inv & <- & <-)|[_ ?]]; [lia|done]|]. intros [Hl ->]. left.
    exists (l, saved_tag s l). split; [by apply saved_pairs|done].
  - change (NoDup (zip (seqZ 0 (Z.of_nat (nd s))) (map (saved_tag s) (seqZ 0 (Z.of_nat (nd s))))).*1).
    rewrite fst_zip by (by rewrite length_map). apply NoDup_seqZ.
Qed.

(** the tag file round-trips.  After a save of an index without pending
    deletions, [load_tags] into an index of any state restores both tag maps. *)
Theorem tags_round_trip D s s0 :
  mem_ok D s → delete_set s = ∅ → abs s ≠ ∅ →
  tag_to_location (load_tags (save_tags s) s0) = tag_to_location s
  ∧ location_to_tag (load_tags (save_tags s) s0) = location_to_tag s.
Proof.
  intros Hok Hd Hlive. destruct (mo_tags _ _ Hok) as [H1 H2 _].
  assert (Htag : ∀ l, (0 <= l < Z.of_nat (nd s))%Z → location_to_tag s !! l = Some (saved_tag s l)).
  { intros l Hl. unfold saved_tag. destruct (proj2 (H2 l) Hl) as [[t ->]|Hx]; [done|]. rewrite Hd in Hx. by apply not_elem_of_empty in Hx. }
  destruct (save_tags s) as [f|] eqn:Ef.
  - destruct (load_saved s s0 f Ef) as [-> Hl2t]. split; apply map_eq; intros k; apply option_eq; intros v.
    + rewrite (foldl_insert_elem snd fst).
      * split; [intros [(x & [Hx Ex]%saved_pairs_inv & <- & <-)|[_ ?]]; [|done]|].
        { apply H1. rewrite Ex. by apply Htag. }
        intros Hk%H1. left. exists (v, k). split; [|done].
        assert (Hv : (0 <= v < Z.of_nat (nd s))%Z) by (apply H2; left; by exists k).
        pose proof (Htag v Hv). assert (k = saved_tag s v) as -> by congruence. by apply saved_pairs.
      * apply NoDup_fmap_2_strong.
        { intros x y [Hx Ex]%saved_pairs_inv [Hy Ey]%saved_pairs_inv E. pose proof (Htag _ Hx) as Tx. pose proof (Htag _ Hy) as Ty.
          apply H1 in Tx, Ty. destruct x, y. simpl in *. congruence. }
        apply (NoDup_fmap_1 fst). rewrite fst_zip by (by rewrite length_map). apply NoDup_seqZ.
    + rewrite Hl2t. split; [intros [Hk ->]; by apply Htag|]. intros Hk.
      assert (Hb : (0 <= k < Z.of_nat (nd s))%Z) by (apply H2; left; by exists v). split; [done|].
      pose proof (Htag k Hb). congruence.
  - unfold save_tags in Ef. case_bool_decide as Hemp; [|done]. destruct Hlive. apply map_eq. intros t.
    rewrite abs_lookup, lookup_empty. destruct (tag_to_location s !! t) as [l|] eqn:El; [|done].
    apply H1 in El. by rewrite Hemp in El.
Qed.

(** deleted vectors come back through the tag file.  The file of an index with
    pending deletions gives each deleted location the tag 0, and the file of an index
    whose vectors are all deleted is absent, so that loading gives every location its
    own number as a tag again. *)
Theorem saved_deletions_return D s s0 l :
  mem_ok D s → l ∈ delete_set s → nd s0 = nd s →
  location_to_tag (load_tags (save_tags s) s0) !! l = Some (if decide (abs s = ∅) then l else 0%Z).
Proof.
  intros Hok Hl Hnd. destruct (mo_tags _ _ Hok) as [H1 H2 H3]. assert (Hb : below (nd s) l) by (apply H2; by right).
  unfold below in Hb. assert (Hiff : abs s = ∅ ↔ location_to_tag s = ∅).
  { split; intros E; apply map_eq; intros k; rewrite lookup_empty.
    - apply eq_None_not_Some. intros [t Ht%H1]. destruct (abs_tag s t (go_nd _ _ (mo_graph _ _ Hok)) (mo_tags _ _ Hok)) as [_ Ha].
      destruct Ha as [r Hr]; [by exists k|]. by rewrite E in Hr.
    - rewrite abs_lookup. destruct (tag_to_location s !! k) as [x|] eqn:Ek; [|done]. apply H1 in Ek. by rewrite E in Ek. }
  destruct (save_tags s) as [f|] eqn:Ef.
  - destruct (load_saved s s0 f Ef) as [_ Hl2t]. apply Hl2t. split; [done|]. unfold saved_tag. rewrite (H3 l Hl). simpl.
    rewrite decide_False; [done|]. intros E%Hiff. unfold save_tags in Ef. by rewrite bool_decide_eq_true_2 in Ef.
  - unfold save_tags in Ef. case_bool_decide as He; [|done]. rewrite decide_True by (by apply Hiff).
    unfold load_tags. rewrite Hnd, length_seqZ, Nat2Z.id. cbn [set_tags location_to_tag].
    assert (Hz : zip (seqZ 0 (Z.of_nat (nd s))) (seqZ 0 (Z.of_nat (nd s))) = map (λ i, (i, i)) (seqZ 0 (Z.of_nat (nd s)))).
    { generalize (seqZ 0 (Z.of_nat (nd s))). intros k. induction k as [|x k IH]; [done|]. simpl. by rewrite IH. }
    rewrite Hz. apply (foldl_insert_elem fst snd).
    + change (NoDup ((map (λ i, (i, i)) (seqZ 0 (Z.of_nat (nd s)))).*1)). rewrite <- list_fmap_compose.
      change (NoDup ((λ i : Z, i) <$> seqZ 0 (Z.of_nat (nd s)))). rewrite list_fmap_id. apply NoDup_seqZ.
    + left. exists (l, l). split; [|done]. apply list_elem_of_In, in_map_iff. exists l. split; [done|].
      apply list_elem_of_In, elem_of_seqZ. lia.
Qed.

(** ** Concrete runs

    Points on a line under squared distance; draws return the upper bound. *)

Definition line_dist (u v : list Z) : float := z_dist ((hd 0 u - hd 0 v) * (hd 0 u - hd 0 v))%Z.
Definition as_is (l : list Z) : list Z := l.
Definition last_of (_ hi : Z) : Z := hi.

Lemma line_nan u v : not_nan (line_dist u v).
Proof. apply z_dist_not_nan. Qed.

Lemma last_of_range lo hi : (lo <= hi)%Z → (lo <= last_of lo hi <= hi)%Z.
Proof. unfold last_of. lia. Qed.

Definition demo_run (ops : list op) : Index :=
  default empty_index (run L2 line_dist as_is as_is 1 last_of as_is as_is demo_params 4 ops empty_index).

Definition three_points : list op := [Insert 5 [1]; Insert 6 [3]; Insert 7 [10]; Delete 5]%Z.

Lemma demo_run_ok ops :
  length ops ≤ kMinPoints → sensible L2 as_is as_is ops ∅ = true →
  mem_ok (degree demo_params) (demo_run ops) ∧ abs (demo_run ops) = spec_run L2 as_is as_is ops ∅.
Proof.
  intros Hlen Hse. unfold demo_run.
  destruct (mem_run_correct L2 line_dist line_nan as_is as_is 1 last_of last_of_range as_is as_is) with
    (pr := demo_params) (L := 4) (ops := ops) (s := empty_index) as (s & -> & Hok & _ & Habs);
    try done; [lia|apply empty_ok|by left].
Qed.

Lemma three_points_ok : mem_ok (degree demo_params) (demo_run three_points)
  ∧ abs (demo_run three_points) = spec_run L2 as_is as_is three_points ∅.
Proof. apply demo_run_ok; [apply few_ops; simpl; lia|vm_compute; reflexivity]. Qed.
Lemma three_points_live : abs (demo_run three_points) ≠ ∅.
Proof.
  rewrite (proj2 three_points_ok). intros E. apply (f_equal (λ m, m !! 6%Z)) in E. revert E. vm_compute. discriminate.
Qed.

Definition two_points : list op := [Insert 5 [1]; Insert 6 [3]]%Z.

Lemma mem_index_refines_map_witness :
  ∃ s, run L2 line_dist as_is as_is 1 last_of as_is as_is demo_params 4
         (three_points ++ [Consolidate; Insert 6 [4%Z]]) empty_index = Some s
  ∧ mem_ok (degree demo_params) s ∧ abs s = {[6 := [4]; 7 := [10]]}%Z.
Proof.
  destruct (mem_index_refines_map L2 line_dist line_nan as_is as_is 1 last_of last_of_range as_is as_is
    (λ l, reflexivity l) (λ l, reflexivity l) demo_params ltac:(discriminate) 4 ltac:(lia)
    (three_points ++ [Consolidate; Insert 6 [4%Z]])) as (s & Hrun & Hok & Habs).
  - apply few_ops. simpl. lia.
  - vm_compute. reflexivity.
  - exists s. split; [exact Hrun|]. split; [exact Hok|]. rewrite Habs. vm_compute. reflexivity.
Defined.

Lemma mem_search_correct_witness :
  ∃ st best, iterate_to_fixed_point line_dist (demo_run three_points) [2%Z] 4 (ep (demo_run three_points)) = Some (st, best)
  ∧ fixed_point line_dist (demo_run three_points) [2%Z] 4 (ep (demo_run three_points)) best (expanded_nodes_info st)
  ∧ search_with_tags L2 line_dist as_is as_is (demo_run three_points) [2%Z] 2 4 None
    = Some (take 2 (omap (with_tag (demo_run three_points)) best)).
Proof.
  destruct (mem_search_correct L2 line_dist line_nan as_is as_is 4 ltac:(lia) (degree demo_params) (demo_run three_points) [2%Z] 2)
    as (st & best & H1 & H2 & H3 & _).
  - apply three_points_ok.
  - apply Nat.ltb_lt. vm_compute. reflexivity.
  - lia.
  - exists st, best. split; [exact H1|]. split; [exact H2|exact H3].
Defined.

Lemma mem_link_correct_witness :
  ∃ g, link L2 line_dist last_of demo_params 4 as_is (demo_run three_points)
       = Some (set_graph g (set_ep (calculate_entry_point last_of (demo_run three_points)) (demo_run three_points)))
  ∧ graph_ok 2 (set_graph g (set_ep (calculate_entry_point last_of (demo_run three_points)) (demo_run three_points))).
Proof.
  destruct (mem_link_correct L2 line_dist line_nan last_of last_of_range as_is (λ l, reflexivity l) demo_params
    ltac:(discriminate) 4 ltac:(lia) (degree demo_params) (demo_run three_points)) as (g & H1 & H2 & _).
  - apply Nat.leb_le. vm_compute. reflexivity.
  - apply Nat.leb_le. vm_compute. reflexivity.
  - apply three_points_ok.
  - apply Nat.ltb_lt. vm_compute. reflexivity.
  - apply Z.ltb_lt. vm_compute. reflexivity.
  - exists g. split; [exact H1|exact H2].
Defined.

Lemma consolidate_correct_witness :
  ∃ s', consolidate L2 line_dist last_of as_is demo_params as_is (demo_run three_points) = Some s'
  ∧ mem_ok (degree demo_params) s' ∧ abs s' = abs (demo_run three_points)
  ∧ consolidated demo_params (demo_run three_points) last_of s'.
Proof.
  destruct (consolidate_correct L2 line_dist line_nan last_of last_of_range as_is as_is (λ l, reflexivity l)
    (λ l, reflexivity l) demo_params ltac:(discriminate) (degree demo_params) (demo_run three_points)) as (s' & H1 & H2 & H3 & H4).
  - apply Nat.leb_le. vm_compute. reflexivity.
  - apply three_points_ok.
  - apply three_points_live.
  - exists s'. split; [exact H1|]. split; [exact H2|]. split; [exact H3|]. apply H4.
    intros E. apply (f_equal elements) in E. revert E. vm_compute. discriminate.
Defined.

Definition one_deleted : list op := [Insert 5 [1]; Delete 5]%Z.

Lemma consolidate_empty_breaks_witness :
  ∃ s', consolidate L2 line_dist last_of as_is demo_params as_is (demo_run one_deleted) = Some s'
  ∧ insert_point L2 line_dist as_is as_is 1 [2%Z] demo_params 4 8 s' = None.
Proof.
  assert (Hone : mem_ok (degree demo_params) (demo_run one_deleted) ∧ abs (demo_run one_deleted) = ∅).
  { destruct (demo_run_ok one_deleted) as [Hok Habs]; [apply few_ops; simpl; lia|vm_compute; reflexivity|].
    split; [exact Hok|]. rewrite Habs. vm_compute. reflexivity. }
  destruct (consolidate_empty_breaks L2 line_dist line_nan as_is as_is 1 last_of as_is as_is (λ l, reflexivity l)
    (λ l, reflexivity l) demo_params ltac:(discriminate) 4 ltac:(lia) (degree demo_params) (demo_run one_deleted) [2%Z] 8) as (s' & H1 & _ & H3).
  - apply Nat.leb_le. vm_compute. reflexivity.
  - apply Hone.
  - apply Hone.
  - intros E. apply (f_equal elements) in E. revert E. vm_compute. discriminate.
  - apply Z.leb_le. vm_compute. reflexivity.
  - exists s'. split; [exact H1|exact H3].
Defined.

Lemma tags_round_trip_witness :
  location_to_tag (load_tags (save_tags (demo_run two_points)) empty_index) = location_to_tag (demo_run two_points).
Proof.
  destruct (demo_run_ok two_points) as [Hok Habs]; [apply few_ops; simpl; lia|vm_compute; reflexivity|].
  apply (tags_round_trip (degree demo_params) (demo_run two_points) empty_index).
  - exact Hok.
  - apply (bool_decide_unpack _). vm_compute. exact I.
  - rewrite Habs. intros E. apply (f_equal (λ m, m !! 6%Z)) in E. revert E. vm_compute. discriminate.
Defined.

Lemma saved_deletions_return_witness :
  location_to_tag (load_tags (save_tags (demo_run three_points)) (demo_run three_points)) !! 0%Z = Some 0%Z.
Proof.
  pose proof (saved_deletions_return (degree demo_params) (demo_run three_points) (demo_run three_points) 0%Z
    (proj1 three_points_ok) ltac:(apply (bool_decide_unpack _); vm_compute; exact I) eq_refl) as H.
  rewrite decide_False in H by exact three_points_live. exact H.
Defined.

End MemRefine.
