(* ===== verification/NgFix.v ===== *)
(** * Query-driven refinement of the in-memory graph ([src/index.cpp])

    After the base build, [ngfix_refine] adds up to [R_ood] edges per node so that
    the nodes around a training query reach each other.  [ngfix_calc_hardness]
    computes how far out in the ranking of the query a path between two of its
    nearest nodes must go, [ngfix_pass] adds edges for the pairs that are too hard,
    and [rfix_pass] adds edges from the node a search ends on.  [Index::build] puts
    the base build and the refinement together (its [use_pipnn] branch is left out).

    The order of a [std::sort] among equal distances, the iteration order of
    [unordered_map] and the order in which the threads take the queries are
    parameters; the queries run one after another. *)

From S2P Require Import Prelude Float32 Neighbor CandidatePool Prune MemIndex.
Import Pool Prune Mem.

Module NgFix.
Local Open Scope nat_scope.

Definition u16 (z : Z) : Z := (z mod 2 ^ 16)%Z.
Definition NGFIX_MAX_NQ : nat := 200.
Definition NGFIX_MAX_S : nat := 200.
Definition NGFIX_EH_INF : Z := 65535.
Definition NGFIX_INF_RATIO : float := SpecFloat.S754_finite false 8388608 (-24).

(** The index with the arrays [_ngfix_count] and [_ngfix_ehs]. *)
Record refiner := mkRefiner {
  base : Index;
  ngfix_count : list Z;
  ngfix_ehs : list (list Z)
}.

(** A loop [for (x : l)] over a state. *)
Fixpoint iter {X A} (f : X → A → option A) (l : list X) (a : A) : option A :=
  match l with [] => Some a | x :: l => a ← f x a; iter f l a end.

(** [m\[i\]\[j\] = x]. *)
Definition set2 {A} (m : list (list A)) (i j : nat) (x : A) : option (list (list A)) :=
  row ← m !! i; row ← vset row j x; vset m i row.

(** ** Edges of the refinement *)

(** The scan of a full node: the smallest score, its position, the number of
    infinite scores. *)
Fixpoint scan_ehs (l : list Z) (i : nat) (min_eh : Z) (min_idx inf_cnt : nat) : Z * nat * nat :=
  match l with
  | [] => (min_eh, min_idx, inf_cnt)
  | e :: l =>
      let inf_cnt := if Z.eqb e NGFIX_EH_INF then S inf_cnt else inf_cnt in
      if Z.ltb e min_eh then scan_ehs l (S i) e i inf_cnt else scan_ehs l (S i) min_eh min_idx inf_cnt
  end.

Definition inf_limit (r_ood : Z) : Z :=
  u32 (sf_trunc (fmul NGFIX_INF_RATIO (SpecFloat.binary_normalize f32_prec f32_emax r_ood 0 false))).

Definition add_ngfix_neighbor (u v eh : Z) (t : refiner) : option refiner :=
  if Z.eqb u v then Some t
  else
    let s := base t in
    pool ← at_ (final_graph s) u;
    if bool_decide (v ∈ pool) then Some t
    else
      cnt ← at_ (ngfix_count t) u;
      ehs ← at_ (ngfix_ehs t) u;
      if Z.ltb cnt (R_ood s) then
        s ← assign_nbrs u (pool ++ [v]) s;
        ehs ← put ehs cnt eh;
        all ← put (ngfix_ehs t) u ehs;
        counts ← put (ngfix_count t) u (u16 (cnt + 1));
        Some (mkRefiner s counts all)
      else
        let r_ood := Z.to_nat (R_ood s) in
        if Nat.ltb (length ehs) r_ood then None
        else
          let '(min_eh, min_idx, inf_cnt) := scan_ehs (take r_ood ehs) 0 NGFIX_EH_INF 0 0 in
          if Z.eqb eh NGFIX_EH_INF && Z.leb (inf_limit (R_ood s)) (Z.of_nat inf_cnt) then Some t
          else if Z.leb eh min_eh then Some t
          else
            ehs ← vset ehs min_idx eh;
            all ← put (ngfix_ehs t) u ehs;
            pool ← put pool (R_base s + Z.of_nat min_idx) v;
            s ← assign_nbrs u pool s;
            Some (mkRefiner s (ngfix_count t) all).

(** ** Hardness *)

(** A row of [std::bitset]. *)
Notation bitset := N (only parsing).
Definition bget (b : bitset) (j : nat) : bool := N.testbit b (N.of_nat j).
Definition bset (b : bitset) (j : nat) : option bitset :=
  if Nat.ltb j NGFIX_MAX_S then Some (N.setbit b (N.of_nat j)) else None.

(** [f] and [H]. *)
Definition tables : Type := list bitset * list (list Z).

Definition set_bit (i j : nat) (f : list bitset) : option (list bitset) :=
  b ← f !! i; b ← bset b j; vset f i b.

Definition set_hard (Nq i j : nat) (x : Z) (H : list (list Z)) : option (list (list Z)) :=
  if Nat.ltb i Nq && Nat.ltb j Nq then set2 H i j (u16 x) else Some H.

(** [f\[h\]\[h\] = 1; H\[h\]\[h\] = h]. *)
Definition diag (Nq h : nat) (t : tables) : option tables :=
  f ← set_bit h h t.1; H ← set_hard Nq h h (Z.of_nat h) t.2; Some (f, H).

Definition rank_of (gt : list Z) (S_ : nat) : option (gmap Z Z) :=
  iter (λ i m, x ← gt !! i; Some (<[x := u16 (Z.of_nat i)]> m)) (seq 0 S_) ∅.

(** An edge from rank [i] to [v]. *)
Definition mark_edge (Nq : nat) (p2rank : gmap Z Z) (i : nat) (v : Z) (t : tables) : option tables :=
  match p2rank !! v with
  | None => Some t
  | Some j =>
      let j := Z.to_nat j in
      f ← set_bit i j t.1; H ← set_hard Nq i j (Z.of_nat (Nat.max i j)) t.2; Some (f, H)
  end.

Definition induced (s : Index) (gt : list Z) (Nq : nat) (p2rank : gmap Z Z) (i : nat) (t : tables) : option tables :=
  u ← gt !! i;
  nbrs ← at_ (final_graph s) u;
  iter (mark_edge Nq p2rank i) nbrs t.

(** The pairs that row [i] gained at stage [h]. *)
Definition record_new (i h : nat) (last : bitset) (j : nat) (H : list (list Z)) : option (list (list Z)) :=
  if bget last j then set2 H i j (u16 (Z.of_nat (Nat.max (Nat.max i j) h))) else Some H.

Definition close_row (Nq h i : nat) (t : tables) : option tables :=
  fi ← t.1 !! i;
  if bget fi h then
    fh ← t.1 !! h;
    let fi' := N.lor fi fh in
    f ← vset t.1 i fi';
    let last := N.lxor fi fi' in
    H ← (if Nat.ltb i Nq && negb (N.eqb last 0) then iter (record_new i h last) (seq 0 Nq) t.2 else Some t.2);
    Some (f, H)
  else Some t.

Definition ngfix_calc_hardness (s : Index) (gt : list Z) (Nq S_ : nat) : option (list (list Z)) :=
  let H := replicate Nq (replicate Nq NGFIX_EH_INF) in
  p2rank ← rank_of gt S_;
  t ← iter (diag Nq) (seq 0 S_) (replicate S_ 0%N, H);
  t ← iter (induced s gt Nq p2rank) (seq 0 S_) t;
  t ← iter (λ h, iter (close_row Nq h) (seq 0 S_)) (seq 0 S_) t;
  Some t.2.

(** ** Fixing edges *)

Record Cand := mkCand { c_d : float; c_i : nat; c_j : nat }.

(** The pairs that are easy enough. *)
Definition easy_row (Kh : nat) (row : list Z) (j : nat) (b : bitset) : option bitset :=
  x ← row !! j; if Z.leb x (Z.of_nat Kh) then bset b j else Some b.
Definition easy_pairs (H : list (list Z)) (Nq Kh : nat) : option (list bitset) :=
  mapM (λ i, row ← H !! i; iter (easy_row Kh row) (seq 0 Nq) 0%N) (seq 0 Nq).

(** One edge: the rows that reach its source gain what its target reaches. *)
Definition gain (i j k : nat) (f : list bitset) : option (list bitset) :=
  fk ← f !! k;
  if bget fk i then fj ← f !! j; vset f k (N.lor fk fj) else Some f.

Definition choose_edge (Nq : nat) (c : Cand) (st : list bitset * list (nat * nat))
    : option (list bitset * list (nat * nat)) :=
  row ← st.1 !! c_i c;
  if bget row (c_j c) then Some st
  else
    f ← set_bit (c_i c) (c_j c) st.1;
    f ← iter (gain (c_i c) (c_j c)) (seq 0 Nq) f;
    Some (f, st.2 ++ [(c_i c, c_j c)]).

Section refine.
Context (metric : Metric) (compare_sym : list Z → list Z → float).
Context (encode normalize_data : list Z → list Z).
Context (hash_order : list Z → list Z) (sort_cands : list Cand → list Cand).

Definition hard_pair (s : Index) (gt : list Z) (f : list bitset) (i j : nat) (vs : list Cand) : option (list Cand) :=
  row ← f !! i;
  if bget row j then Some vs
  else u ← gt !! i; v ← gt !! j; ds ← compute_dists compare_sym s u [v]; d ← head ds; Some (vs ++ [mkCand d i j]).

Definition hard_pairs (s : Index) (gt : list Z) (f : list bitset) (Nq : nat) : option (list Cand) :=
  iter (λ i, iter (hard_pair s gt f i) (seq 0 Nq)) (seq 0 Nq) [].

(** The edges a pass adds, as pairs of ranks in the order they are chosen. *)
Definition fixing_edges (s : Index) (gt : list Z) (H : list (list Z)) (Nq Kh : nat) : option (list (nat * nat)) :=
  f ← easy_pairs H Nq Kh;
  vs ← hard_pairs s gt f Nq;
  snd <$> iter (choose_edge Nq) (sort_cands vs) (f, []).

(** [new_edges\[u\].push_back({v, H\[i\]\[j\]})]. *)
Definition push_edge (gt : list Z) (H : list (list Z)) (e : nat * nat) (m : gmap Z (list (Z * Z)))
    : option (gmap Z (list (Z * Z))) :=
  u ← gt !! e.1; v ← gt !! e.2; row ← H !! e.1; x ← row !! e.2;
  Some (<[u := default [] (m !! u) ++ [(v, x)]]> m).

Definition ngfix_pass (gt : list Z) (Nq Kh : nat) (t : refiner) : option refiner :=
  if Nat.ltb NGFIX_MAX_NQ Nq then Some t
  else
    H ← ngfix_calc_hardness (base t) gt Nq (Nat.min NGFIX_MAX_S (2 * Nq));
    chosen ← fixing_edges (base t) gt H Nq Kh;
    new_edges ← iter (push_edge gt H) chosen ∅;
    iter (λ u t, ves ← new_edges !! u; iter (λ ve, add_ngfix_neighbor u ve.1 ve.2) ves t)
      (hash_order (elements (dom new_edges))) t.

(** ** Fixing where a search ends *)

Definition rfix_params (n : nat) : IndexBuildParameters := mkParams 6 n f_one false.

Definition rfix_pass (prepared_query : list Z) (gt : list Z) (Nq L_ood : nat) (t : refiner) : option refiner :=
  let s := base t in
  results ← search_prepared compare_sym s prepared_query Nq None;
  match results with
  | [] => Some t
  | r0 :: _ =>
      g ← gt !! (Nq - 1);
      ds ← compute_dists_sym compare_sym s prepared_query [g];
      d2 ← head ds;
      if fle (distance r0) d2 then Some t
      else
        let ANN := id r0 in
        results ← search_prepared compare_sym s prepared_query L_ood None;
        let res := map id (List.filter (λ a, flt (distance a) d2) results) in
        ds ← compute_dists compare_sym s ANN res;
        let pool := zip_with new_neighbor res ds in
        picked ← prune metric compare_sym s pool [] (rfix_params (length pool));
        iter (λ p, add_ngfix_neighbor ANN p (u16 (Z.of_nat NGFIX_MAX_S + 1))) picked t
  end.

(** The body of the loop of [ngfix_refine] on one training query. *)
Definition refine_query (L_ood : nat) (q : list Z) (t : refiner) : option refiner :=
  let query := prepare_record metric encode normalize_data q in
  results ← search_prepared compare_sym (base t) query L_ood None;
  let ids := map id (take 500 results) in
  let coarse_nq := Nat.min 100 (length ids / 2) in
  let fine_nq := Nat.min 10 (length ids / 2) in
  t ← ngfix_pass ids coarse_nq coarse_nq t;
  t ← ngfix_pass ids fine_nq fine_nq t;
  match ids with [] => Some t | _ => rfix_pass query ids (Nat.min 10 (length ids)) L_ood t end.

(** The training queries have [train_dim] components, the index [dim]. *)
Definition ngfix_refine (train_dim dim : nat) (train : list (list Z)) (L_ood : nat) (order : list Z → list Z) (s : Index)
    : option Index :=
  let L_ood := Nat.max L_ood NGFIX_MAX_S in
  if negb (Nat.eqb train_dim dim) then None
  else
    let t := mkRefiner s (replicate (nd s) 0%Z) (replicate (nd s) (replicate (Z.to_nat (R_ood s)) 0%Z)) in
    base <$> iter (λ i t, q ← at_ train i; refine_query L_ood q t) (order (seqZ 0 (Z.of_nat (length train)))) t.

(** ** Building *)

Context (uniform : Z → Z → Z) (dim : nat).

Definition with_tags (tags : list Z) (s : Index) : Index :=
  let l := zip (seqZ 0 (Z.of_nat (length tags))) tags in
  set_tags (foldl (λ m x, <[x.2 := x.1]> m) (tag_to_location s) l) (foldl (λ m x, <[x.1 := x.2]> m) (location_to_tag s) l)
    (delete_set s) s.

Definition set_degrees (r_base r_ood : Z) (s : Index) : Index :=
  mkIndex (final_graph s) (vectors s) (nd s) (range s) (u16 r_base) (u16 r_ood) (ep s) (tag_to_location s)
    (location_to_tag s) (delete_set s).

Definition max_degree (s : Index) : nat := foldr Nat.max 0 (map length (take (nd s) (final_graph s))).

Definition set_range (s : Index) : Index :=
  mkIndex (final_graph s) (vectors s) (nd s) (Z.max (range s) (u16 (Z.of_nat (max_degree s)))) (R_base s) (R_ood s) (ep s)
    (tag_to_location s) (location_to_tag s) (delete_set s).

(** [train]: the training queries with their dimension, [None] for an empty path. *)
Definition build (pr : IndexBuildParameters) (L : nat) (tags : list Z) (train : option (nat * list (list Z)))
    (r_ood L_ood : nat) (order : list Z → list Z) (s : Index) : option Index :=
  if negb (Nat.eqb (length tags) (nd s)) then None
  else
    let s := with_tags tags s in
    let r_ood := match train with None => 0 | Some _ => Nat.min r_ood (R pr) end in
    let s := set_degrees (Z.of_nat (R pr - r_ood)) (Z.of_nat r_ood) s in
    let base_params := mkParams (Z.to_nat (R_base s)) (C pr) (alpha pr) (saturate_graph pr) in
    s ← link metric compare_sym uniform base_params L order s;
    s ← (if Nat.ltb 0 r_ood then
           '(train_dim, qs) ← train; ngfix_refine train_dim dim qs L_ood order s
         else Some s);
    Some (set_range s).

(** Tags from a file ([Some] its columns and entries) or the identity. *)
Definition build_from_file (pr : IndexBuildParameters) (L : nat) (tag_file : option (nat * list Z))
    (train : option (nat * list (list Z))) (r_ood L_ood : nat) (order : list Z → list Z) (s : Index) : option Index :=
  tags ← match tag_file with
         | None => Some (seqZ 0 (Z.of_nat (nd s)))
         | Some (ndim, tags) => if negb (Nat.eqb ndim 1) then None else Some tags
         end;
  build pr L tags train r_ood L_ood order s.

End refine.
End NgFix.
