(* ===== verification/NgFixProof.v ===== *)
(** * Correctness of the query-driven refinement

    The hardness matrix of [NgFix] is the rank a path between two nodes must reach;
    the chosen edges join every pair; a refinement of a graph with full base lists
    keeps these lists and the degree bound. *)

From S2P Require Import Prelude Float32 Neighbor CandidatePool Prune MemIndex NgFix.

Module NgFixProof.
Import Prune Mem NgFix.
Local Open Scope nat_scope.

(** ** Loops *)

Lemma iter_seq {A} (f : nat → A → option A) (P : nat → A → Prop) n a :
  P 0 a → (∀ i a, i < n → P i a → ∃ a', f i a = Some a' ∧ P (S i) a') →
  ∃ a', iter f (seq 0 n) a = Some a' ∧ P n a'.
Proof.
  intros H0 Hf. assert (Hgen : ∀ m i a, i + m = n → P i a → ∃ a', iter f (seq i m) a = Some a' ∧ P n a').
  { induction m as [|m IH]; intros i b E Hb; cbn [seq iter].
    { exists b. rewrite Nat.add_0_r in E. by subst. }
    destruct (Hf i b) as (c & -> & Hc); [lia|done|]. cbn [mbind option_bind]. apply IH; [lia|done]. }
  by apply Hgen.
Qed.

Lemma iter_list {X A} (f : X → A → option A) (P : list X → A → Prop) l a :
  P [] a → (∀ d x r a, l = d ++ x :: r → P d a → ∃ a', f x a = Some a' ∧ P (d ++ [x]) a') →
  ∃ a', iter f l a = Some a' ∧ P l a'.
Proof.
  intros H0 Hf. assert (Hgen : ∀ k d a, P d a → d ++ k = l → ∃ a', iter f k a = Some a' ∧ P l a').
  { induction k as [|x k IH]; intros d b Hb E; cbn [iter].
    { exists b. rewrite app_nil_r in E. by subst. }
    destruct (Hf d x k b (eq_sym E) Hb) as (c & -> & Hc). cbn [mbind option_bind].
    apply (IH (d ++ [x])); [done|]. by rewrite <- app_assoc. }
  by apply (Hgen l []).
Qed.

(** ** Tables *)

Definition bit (f : list bitset) (i j : nat) : bool := match f !! i with Some b => bget b j | None => false end.
Definition hard (H : list (list Z)) (i j : nat) : option Z := row ← H !! i; row !! j.

Lemma bget_setbit b i j : bget (N.setbit b (N.of_nat i)) j = bget b j || (i =? j).
Proof.
  unfold bget. rewrite N.setbit_eqb, orb_comm. f_equal. destruct (Nat.eqb_spec i j) as [->|Hne]; [apply N.eqb_refl|].
  apply N.eqb_neq. lia.
Qed.

Lemma bget_lor a b j : bget (N.lor a b) j = bget a j || bget b j.
Proof. apply N.lor_spec. Qed.

Lemma bget_gained a b j : bget (N.lxor a (N.lor a b)) j = bget b j && negb (bget a j).
Proof. unfold bget. rewrite N.lxor_spec, N.lor_spec. by destruct (N.testbit a _), (N.testbit b _). Qed.

Lemma set_pair_bit_spec i j f :
  i < length f → j < NGFIX_MAX_S →
  ∃ f', set_bit i j f = Some f' ∧ length f' = length f
  ∧ ∀ a b, bit f' a b = bit f a b || ((a =? i) && (b =? j)).
Proof.
  intros Hi Hj. unfold set_bit. destruct (lookup_lt_is_Some_2 f i Hi) as [x Hx]. rewrite Hx. cbn [mbind option_bind].
  unfold bset. rewrite (proj2 (Nat.ltb_lt _ _) Hj). cbn [mbind option_bind]. rewrite vset_Some by done.
  eexists. split; [done|]. split; [by rewrite length_insert|]. intros a b. unfold bit.
  destruct (Nat.eqb_spec a i) as [->|Hne].
  - rewrite list_lookup_insert_eq by done. rewrite Hx, bget_setbit. cbn [andb]. by rewrite (Nat.eqb_sym j b).
  - rewrite list_lookup_insert_ne by done. by rewrite andb_false_l, orb_false_r.
Qed.

Definition square (n : nat) (H : list (list Z)) : Prop := length H = n ∧ Forall (λ r, length r = n) H.

Lemma set2_spec n i j x H :
  square n H → i < n → j < n →
  ∃ H', set2 H i j x = Some H' ∧ square n H'
  ∧ ∀ a b, hard H' a b = if (a =? i) && (b =? j) then Some x else hard H a b.
Proof.
  intros [Hn Hr] Hi Hj. unfold set2. destruct (lookup_lt_is_Some_2 H i) as [r Hri]; [lia|]. rewrite Hri. cbn [mbind option_bind].
  pose proof (Forall_lookup_1 _ _ _ _ Hr Hri) as Hrl. cbn beta in Hrl.
  rewrite vset_Some by lia. cbn [mbind option_bind]. rewrite vset_Some by lia.
  eexists. split; [done|]. split.
  - split; [by rewrite length_insert|]. apply Forall_insert; [done|]. by rewrite length_insert.
  - intros a b. unfold hard. destruct (Nat.eqb_spec a i) as [->|Hne].
    + rewrite list_lookup_insert_eq by (by rewrite Hn). rewrite Hri. cbn [mbind option_bind andb].
      destruct (Nat.eqb_spec b j) as [->|]; [by rewrite list_lookup_insert_eq by (by rewrite Hrl)|by rewrite list_lookup_insert_ne].
    + by rewrite list_lookup_insert_ne.
Qed.

Lemma u16_small n : (Z.of_nat n < 65536)%Z → u16 (Z.of_nat n) = Z.of_nat n.
Proof. intros. unfold u16. apply Z.mod_small. lia. Qed.

(** ** Paths by rank *)

Section paths.
Context (edge : nat → nat → Prop).

(** A path whose inner nodes are below [k]. *)
Fixpoint via (k a b : nat) : Prop :=
  match k with 0 => a = b ∨ edge a b | S k => via k a b ∨ via k a k ∧ via k k b end.

(** A path within the ranks up to [h]. *)
Definition within (h a b : nat) : Prop :=
  a ≤ h ∧ b ≤ h ∧ rtc (λ x y, edge x y ∧ x ≤ h ∧ y ≤ h) a b.

Lemma via_mono k k' a b : k ≤ k' → via k a b → via k' a b.
Proof. induction 1; [done|]. intros. left. auto. Qed.

Lemma via_trans k a m b : m < k → via k a m → via k m b → via k a b.
Proof.
  revert a m b. induction k as [|k IH]; intros a m b Hm; [lia|]. cbn [via].
  destruct (decide (m = k)) as [->|Hne]; [tauto|]. assert (m < k) as Hm' by lia.
  intros [H1|[H1 H2]] [H3|[H3 H4]]; [left|right..]; eauto.
Qed.

Lemma within_via h a b : within h a b ↔ a ≤ h ∧ b ≤ h ∧ via (S h) a b.
Proof.
  split.
  - intros (Ha & Hb & Hr). split_and!; [done..|]. induction Hr as [x|x y z (He & Hx & Hy) _ IH].
    + apply (via_mono 0); [lia|]. by left.
    + apply (via_trans _ _ y); [lia| |auto]. apply (via_mono 0); [lia|]. by right.
  - intros (Ha & Hb & Hv). split_and!; [done..|]. assert (Hk : S h ≤ S h) by done. revert Ha Hb Hv Hk.
    generalize (S h) at 1 2 as k. intros k. revert a b.
    induction k as [|k IH]; intros a b Ha Hb; cbn [via].
    + intros [->|He] _; [done|]. by apply rtc_once.
    + intros [Hv|[H1 H2]] Hk; [apply IH; auto; lia|]. transitivity k; apply IH; auto; lia.
Qed.
End paths.

(** ** The hardness matrix *)

Section hardness.
Context (s : Index) (gt : list Z) (Nq S_ : nat).
Context (HS : S_ ≤ NGFIX_MAX_S) (HNq : Nq ≤ S_) (Hnd : NoDup gt) (Hlen : S_ ≤ length gt).
Context (Hgt : ∀ i u, i < S_ → gt !! i = Some u → is_Some (at_ (final_graph s) u)).

(** The edges among the first [S_] nodes of the ranking. *)
Definition edge (a b : nat) : Prop :=
  a < S_ ∧ b < S_ ∧ ∃ u v l, gt !! a = Some u ∧ gt !! b = Some v ∧ at_ (final_graph s) u = Some l ∧ v ∈ l.

Lemma small_rank n : n < S_ → (Z.of_nat n < 65536)%Z.
Proof. clear HNq Hlen. unfold NGFIX_MAX_S in HS. lia. Qed.

Lemma rank_of_spec :
  ∃ m, rank_of gt S_ = Some m ∧ ∀ v x, m !! v = Some x ↔ ∃ j, j < S_ ∧ x = Z.of_nat j ∧ gt !! j = Some v.
Proof.
  unfold rank_of.
  apply (iter_seq _ (λ i m, ∀ v x, m !! v = Some x ↔ ∃ j, j < i ∧ x = Z.of_nat j ∧ gt !! j = Some v)).
  - intros v x. rewrite lookup_empty. split; [done|]. intros (j & Hj & _). lia.
  - intros i m Hi Hm. destruct (lookup_lt_is_Some_2 gt i) as [u Hu]; [lia|]. rewrite Hu. cbn [mbind option_bind].
    eexists. split; [done|]. intros v x. rewrite u16_small by (by apply small_rank).
    destruct (decide (u = v)) as [->|Hne].
    + rewrite lookup_insert_eq. split; [intros [= <-]; exists i; split_and!; auto|].
      intros (j & _ & -> & Hj). do 2 f_equal. by eapply NoDup_lookup.
    + rewrite lookup_insert_ne by done. rewrite Hm. split; intros (j & Hj & -> & Hg); exists j; split_and!; auto.
      assert (j ≠ i) by (intros ->; by simplify_eq). lia.
Qed.

(** The tables hold a set of pairs, each with the larger of its ranks. *)
Record direct (D : nat → nat → Prop) (t : tables) : Prop := mkDirect {
  di_len : length t.1 = S_;
  di_sq : square Nq t.2;
  di_bit : ∀ a b, a < S_ → b < S_ → bit t.1 a b = true ↔ D a b;
  di_hard : ∀ a b, a < Nq → b < Nq → hard t.2 a b = Some (if bit t.1 a b then Z.of_nat (Nat.max a b) else NGFIX_EH_INF)
}.

Lemma direct_ext D D' t : (∀ a b, a < S_ → b < S_ → D a b ↔ D' a b) → direct D t → direct D' t.
Proof. intros HD [H1 H2 H3 H4]. split; [done..| |done]. intros a b Ha Hb. rewrite H3 by done. auto. Qed.

Lemma mark_direct D i j t :
  direct D t → i < S_ → j < S_ →
  ∃ t', (f ← set_bit i j t.1; H ← set_hard Nq i j (Z.of_nat (Nat.max i j)) t.2; Some (f, H)) = Some t'
  ∧ direct (λ a b, D a b ∨ a = i ∧ b = j) t'.
Proof.
  intros [H1 H2 H3 H4] Hi Hj. destruct (set_pair_bit_spec i j t.1) as (f & -> & Hf & Hb); [lia..|]. cbn [mbind option_bind].
  assert (∃ H, set_hard Nq i j (Z.of_nat (Nat.max i j)) t.2 = Some H ∧ square Nq H
    ∧ ∀ a b, a < Nq → b < Nq → hard H a b = if (a =? i) && (b =? j) then Some (Z.of_nat (Nat.max i j)) else hard t.2 a b)
    as (H & -> & Hsq & Hh).
  { unfold set_hard. rewrite u16_small by (apply small_rank; lia).
    destruct (Nat.ltb_spec i Nq) as [Hi'|Hi'], (Nat.ltb_spec j Nq) as [Hj'|Hj']; cbn [andb].
    - destruct (set2_spec Nq i j (Z.of_nat (Nat.max i j)) t.2) as (H' & -> & Hsq & Hh); try done. by exists H'.
    - exists t.2. split_and!; [done..|]. intros a b Ha Hb'. destruct (Nat.eqb_spec b j); [lia|]. by rewrite andb_false_r.
    - exists t.2. split_and!; [done..|]. intros a b Ha Hb'. by destruct (Nat.eqb_spec a i); [lia|].
    - exists t.2. split_and!; [done..|]. intros a b Ha Hb'. by destruct (Nat.eqb_spec a i); [lia|]. }
  eexists. split; [done|]. split; cbn [fst snd]; [lia|done| |].
  - intros a b Ha Hb'. rewrite Hb, orb_true_iff, H3, andb_true_iff, !Nat.eqb_eq by lia. done.
  - intros a b Ha Hb'. rewrite Hh, Hb, H4 by done.
    destruct (Nat.eqb_spec a i) as [->|], (Nat.eqb_spec b j) as [->|]; cbn [andb]; by rewrite ?orb_false_r, ?orb_true_r.
Qed.

Lemma direct_start : direct (λ _ _, False) (replicate S_ 0%N, replicate Nq (replicate Nq NGFIX_EH_INF)).
Proof.
  assert (Hb : ∀ a b, bit (replicate S_ 0%N) a b = false).
  { intros a b. unfold bit. case_match eqn:E; [|done].
    apply lookup_replicate in E as [-> _]. unfold bget. by rewrite N.bits_0. }
  split; cbn [fst snd]; [by rewrite length_replicate| | |].
  - split; [by rewrite length_replicate|]. apply Forall_replicate. by rewrite length_replicate.
  - intros a b _ _. by rewrite Hb.
  - intros a b Ha Hb'. rewrite Hb. unfold hard. rewrite lookup_replicate_2 by done. cbn [mbind option_bind].
    by rewrite lookup_replicate_2.
Qed.

Lemma diag_spec :
  ∃ t, iter (diag Nq) (seq 0 S_) (replicate S_ 0%N, replicate Nq (replicate Nq NGFIX_EH_INF)) = Some t
  ∧ direct (λ a b, a = b) t.
Proof.
  destruct (iter_seq (diag Nq) (λ i t, direct (λ a b, a = b ∧ a < i) t) S_
    (replicate S_ 0%N, replicate Nq (replicate Nq NGFIX_EH_INF))) as (t & -> & Ht).
  - eapply direct_ext; [|apply direct_start]. lia.
  - intros i t Hi Ht. destruct (mark_direct _ i i t Ht) as (t' & Hrun & Ht'); [done..|]. exists t'.
    rewrite Nat.max_id in Hrun. split; [exact Hrun|]. eapply direct_ext; [|exact Ht']. cbn beta. lia.
  - exists t. split; [done|]. eapply direct_ext; [|exact Ht]. cbn beta. lia.
Qed.

Lemma induced_spec p2rank t :
  (∀ v x, p2rank !! v = Some x ↔ ∃ j, j < S_ ∧ x = Z.of_nat j ∧ gt !! j = Some v) → direct (λ a b, a = b) t →
  ∃ t', iter (induced s gt Nq p2rank) (seq 0 S_) t = Some t' ∧ direct (via edge 0) t'.
Proof.
  intros Hrank Ht.
  destruct (iter_seq (induced s gt Nq p2rank) (λ i t, direct (λ a b, a = b ∨ edge a b ∧ a < i) t) S_ t) as (t' & -> & Ht').
  - eapply direct_ext; [|exact Ht]. cbn beta. intros. split; [by left|intros [?|[_ ?]]; [done|lia]].
  - intros i t0 Hi H0. unfold induced. destruct (lookup_lt_is_Some_2 gt i) as [u Hu]; [lia|]. rewrite Hu. cbn [mbind option_bind].
    destruct (Hgt i u Hi Hu) as [l Hl]. rewrite Hl. cbn [mbind option_bind].
    destruct (iter_list (mark_edge Nq p2rank i)
      (λ d t, direct (λ a b, a = b ∨ edge a b ∧ a < i ∨ a = i ∧ ∃ v, gt !! b = Some v ∧ v ∈ d) t) l t0) as (t1 & -> & H1).
    + eapply direct_ext; [|exact H0]. cbn beta. intros a b _ _.
      split; [tauto|]. intros [?|[?|(_ & v & _ & []%not_elem_of_nil)]]; tauto.
    + intros d v r t1 -> H1. unfold mark_edge. destruct (p2rank !! v) as [x|] eqn:Ev.
      * apply Hrank in Ev as (j & Hj & -> & Hgj). cbn zeta. rewrite Nat2Z.id.
        destruct (mark_direct _ i j t1 H1) as (t2 & Hrun & H2); [done..|]. exists t2. split; [exact Hrun|].
        eapply direct_ext; [|exact H2]. cbn beta. intros a b Ha Hb. split.
        -- intros [[?|[?|(-> & w & Hw & Hd)]]|[-> ->]]; [tauto|tauto| |].
           ++ right. right. split; [done|]. exists w. split; [done|]. set_solver.
           ++ right. right. split; [done|]. exists v. split; [done|]. set_solver.
        -- intros [?|[?|(-> & w & Hw & [Hd| ->%list_elem_of_singleton]%elem_of_app)]]; [tauto|tauto| |].
           ++ left. right. right. split; [done|]. by exists w.
           ++ right. split; [done|]. by eapply NoDup_lookup.
      * exists t1. split; [done|]. eapply direct_ext; [|exact H1]. cbn beta. intros a b Ha Hb.
        split; (intros [?|[?|(-> & w & Hw & Hd)]]; [tauto|tauto|]); right; right; (split; [done|]); exists w; (split; [done|]).
        -- set_solver.
        -- apply elem_of_app in Hd as [| ->%list_elem_of_singleton]; [done|].
           assert (p2rank !! v = Some (Z.of_nat b)) by (apply Hrank; eauto). congruence.
    + exists t1. split; [done|]. eapply direct_ext; [|exact H1]. cbn beta. intros a b Ha Hb. split.
      * intros [?|[[? ?]|(-> & v & Hv & Hd)]]; [by left|right; split; [done|lia]|]. right. split; [|lia].
        split_and!; [done..|]. by exists u, v, l.
      * intros [?|[He Hlt]]; [by left|right]. destruct (decide (a = i)) as [->|]; [right|left; split; [done|lia]].
        split; [done|]. destruct He as (_ & _ & u' & v & l' & Hu' & Hv & Hl' & Hin). simplify_eq. by exists v.
  - exists t'. split; [done|]. eapply direct_ext; [|exact Ht']. cbn beta. intros a b Ha Hb. cbn [via]. split; [tauto|].
    intros [?|He]; [by left|right; split; [done|]]. apply He.
Qed.

(** *** Closing the paths *)

(** The entry of a pair once the inner nodes below [k] are allowed. *)
Definition entry_ok (k a b : nat) (x : Z) : Prop :=
  via edge k a b ∧ (0 <= x < Z.of_nat S_)%Z ∧ (∀ h, (x <= Z.of_nat h)%Z ↔ within edge h a b)
  ∨ ¬ via edge k a b ∧ x = NGFIX_EH_INF.

Definition row_at (k a : nat) (t : tables) : Prop :=
  (∀ b, b < S_ → bit t.1 a b = true ↔ via edge k a b)
  ∧ (a < Nq → ∀ b, b < Nq → ∃ x, hard t.2 a b = Some x ∧ entry_ok k a b x).

(** Stage [k] with the rows below [i] done. *)
Record closing (k i : nat) (t : tables) : Prop := mkClosing {
  cl_len : length t.1 = S_;
  cl_sq : square Nq t.2;
  cl_row : ∀ a, a < S_ → row_at (if a <? i then S k else k) a t
}.

Lemma via_self k b : via edge (S k) k b ↔ via edge k k b.
Proof. cbn [via]. tauto. Qed.

Lemma entry_ext k k' a b x : (via edge k a b ↔ via edge k' a b) → entry_ok k a b x → entry_ok k' a b x.
Proof. intros E [(H & H')|[H H']]; [left|right]; rewrite <- E; tauto. Qed.

(** A pair joined at stage [k] costs the largest of its ranks and [k]. *)
Lemma entry_new k a b :
  a < S_ → b < S_ → k < S_ → ¬ via edge k a b → via edge k a k → via edge k k b →
  entry_ok (S k) a b (Z.of_nat (Nat.max (Nat.max a b) k)).
Proof.
  intros Ha Hb Hk Hn H1 H2. left. split; [by right|]. split; [lia|]. intros h. rewrite within_via. split.
  - intros Hh. split_and!; [lia..|]. apply (via_mono edge (S k)); [lia|]. by right.
  - intros (Hah & Hbh & Hv). destruct (decide (k ≤ h)) as [|Hkh]; [lia|]. destruct Hn. apply (via_mono edge (S h)); [lia|done].
Qed.

Lemma record_row i h last H :
  square Nq H → i < Nq → h < S_ →
  ∃ H', (if (i <? Nq) && negb (N.eqb last 0) then iter (record_new i h last) (seq 0 Nq) H else Some H) = Some H'
  ∧ square Nq H'
  ∧ ∀ a b, b < Nq → hard H' a b = if (a =? i) && bget last b then Some (Z.of_nat (Nat.max (Nat.max i b) h)) else hard H a b.
Proof.
  intros Hsq Hi Hh. rewrite (proj2 (Nat.ltb_lt i Nq) Hi). cbn [andb]. destruct (N.eqb_spec last 0) as [->|_]; cbn [negb].
  { exists H. split_and!; [done..|]. intros a b _. unfold bget. by rewrite N.bits_0, andb_false_r. }
  destruct (iter_seq (record_new i h last) (λ n H', square Nq H'
    ∧ ∀ a b, hard H' a b = if (a =? i) && bget last b && (b <? n) then Some (Z.of_nat (Nat.max (Nat.max i b) h)) else hard H a b)
    Nq H) as (H' & -> & Hsq' & Hh').
  - split; [done|]. intros a b. by rewrite andb_false_r.
  - intros n H0 Hn [Hsq0 Hh0]. unfold record_new. destruct (bget last n) eqn:Eb.
    + rewrite u16_small by (apply small_rank; lia).
      destruct (set2_spec Nq i n (Z.of_nat (Nat.max (Nat.max i n) h)) H0) as (H1 & -> & Hsq1 & Hh1); try done.
      exists H1. split; [done|]. split; [done|]. intros a b. rewrite Hh1, Hh0.
      destruct (Nat.eqb_spec a i), (Nat.eqb_spec b n) as [->|]; cbn [andb]; try done.
      * rewrite Eb, (proj2 (Nat.ltb_lt n (S n))) by lia. done.
      * destruct (bget last b); cbn [andb]; [|done]. destruct (Nat.ltb_spec b n), (Nat.ltb_spec b (S n)); done || lia.
    + exists H0. split; [done|]. split; [done|]. intros a b. rewrite Hh0. destruct (a =? i); cbn [andb]; [|done].
      destruct (bget last b) eqn:Eb'; cbn [andb]; [|done].
      assert (b ≠ n) by congruence. destruct (Nat.ltb_spec b n), (Nat.ltb_spec b (S n)); done || lia.
  - exists H'. split_and!; [done..|]. intros a b Hb. by rewrite Hh', (proj2 (Nat.ltb_lt b Nq) Hb), andb_true_r.
Qed.

(** The tables after row [i] gained what row [h] reaches. *)
Lemma gain_row h i t fi fh H' :
  closing h i t → i < S_ → h < S_ → t.1 !! i = Some fi → t.1 !! h = Some fh → bget fi h = true →
  square Nq H' →
  (∀ a b, a < Nq → b < Nq → hard H' a b = if (a =? i) && bget (N.lxor fi (N.lor fi fh)) b
                      then Some (Z.of_nat (Nat.max (Nat.max i b) h)) else hard t.2 a b) →
  closing h (S i) (<[i := N.lor fi fh]> t.1, H').
Proof.
  intros [Hl Hsq Hrow] Hi Hh Efi Efh Ebit Hsq' HH.
  assert (Hself : via edge h i h).
  { destruct (Hrow i Hi) as [Hb _]. rewrite Nat.ltb_irrefl in Hb. apply Hb; [done|]. unfold bit. by rewrite Efi. }
  assert (Hfi : ∀ b, b < S_ → bget fi b = true ↔ via edge h i b).
  { intros b Hb. destruct (Hrow i Hi) as [Hr _]. rewrite Nat.ltb_irrefl in Hr. rewrite <- Hr by done. unfold bit. by rewrite Efi. }
  assert (Hfh : ∀ b, b < S_ → bget fh b = true ↔ via edge h h b).
  { intros b Hb. destruct (Hrow h Hh) as [Hr _]. specialize (Hr b Hb). unfold bit in Hr. rewrite Efh in Hr. rewrite Hr.
    destruct (h <? i); [apply via_self|done]. }
  split; cbn [fst snd]; [by rewrite length_insert|done|]. intros a Ha. destruct (Nat.eq_dec a i) as [->|Hne].
  - rewrite (proj2 (Nat.ltb_lt i (S i))) by lia. split; cbn [fst snd].
    + intros b Hb. unfold bit. rewrite list_lookup_insert_eq by (by rewrite Hl).
      rewrite bget_lor, orb_true_iff, Hfi, Hfh by done. cbn [via]. tauto.
    + intros HaN b Hb. rewrite HH, Nat.eqb_refl by done. cbn [andb]. rewrite bget_gained.
      destruct (Hrow i Hi) as [_ Hx]. rewrite Nat.ltb_irrefl in Hx. destruct (Hx HaN b Hb) as (x & Ex & Hxok).
      destruct (bget fh b) eqn:E2, (bget fi b) eqn:E1; cbn [andb negb].
      2: { eexists. split; [done|]. apply entry_new; try done; [lia| |by apply Hfh; [lia|]].
           intros Hv%Hfi; [congruence|lia]. }
      all: exists x; (split; [exact Ex|]); (eapply entry_ext; [|exact Hxok]); cbn [via];
        pose proof (Hfi b ltac:(lia)); pose proof (Hfh b ltac:(lia)); rewrite ?E1, ?E2 in *; intuition congruence.
  - replace (a <? S i) with (a <? i) by (destruct (Nat.ltb_spec a i), (Nat.ltb_spec a (S i)); done || lia).
    destruct (Hrow a Ha) as [Hr Hx]. split; cbn [fst snd].
    + intros b Hb. rewrite <- (Hr b Hb). unfold bit. by rewrite list_lookup_insert_ne.
    + intros HaN b Hb. rewrite HH by done. destruct (Nat.eqb_spec a i); [done|]. cbn [andb]. auto.
Qed.

Lemma close_row_spec h i t :
  closing h i t → i < S_ → h < S_ → ∃ t', close_row Nq h i t = Some t' ∧ closing h (S i) t'.
Proof.
  intros Hc Hi Hh. pose proof (cl_len _ _ _ Hc) as Hl. unfold close_row.
  destruct (lookup_lt_is_Some_2 t.1 i) as [fi Efi]; [lia|]. destruct (lookup_lt_is_Some_2 t.1 h) as [fh Efh]; [lia|].
  rewrite Efi. cbn [mbind option_bind]. destruct (bget fi h) eqn:Ebit.
  - rewrite Efh. cbn [mbind option_bind]. rewrite vset_Some by lia. cbn [mbind option_bind].
    assert (∃ H', (if (i <? Nq) && negb (N.eqb (N.lxor fi (N.lor fi fh)) 0)
                   then iter (record_new i h (N.lxor fi (N.lor fi fh))) (seq 0 Nq) t.2 else Some t.2) = Some H'
      ∧ square Nq H' ∧ ∀ a b, a < Nq → b < Nq → hard H' a b = if (a =? i) && bget (N.lxor fi (N.lor fi fh)) b
                      then Some (Z.of_nat (Nat.max (Nat.max i b) h)) else hard t.2 a b) as (H' & HH & Hsq & Hhard).
    { destruct (decide (i < Nq)) as [Hin|Hin].
      - destruct (record_row i h (N.lxor fi (N.lor fi fh)) t.2) as (H' & E & Hsq & HH); [apply Hc|done..|].
        exists H'. split_and!; [done..|]. auto.
      - exists t.2. rewrite (proj2 (Nat.ltb_ge i Nq)) by lia. split_and!; [done|apply Hc|]. intros a b Ha _.
        destruct (Nat.eqb_spec a i); [lia|done]. }
    rewrite HH. cbn [mbind option_bind]. eexists. split; [done|]. by eapply gain_row.
  - exists t. split; [done|]. destruct Hc as [_ Hsq Hrow]. split; [done..|]. intros a Ha.
    destruct (Nat.eq_dec a i) as [->|Hne].
    + rewrite (proj2 (Nat.ltb_lt i (S i))) by lia. specialize (Hrow i Ha). rewrite Nat.ltb_irrefl in Hrow.
      assert (Hn : ¬ via edge h i h).
      { rewrite <- (proj1 Hrow h Hh). unfold bit. rewrite Efi, Ebit. done. }
      destruct Hrow as [Hr Hx]. split; [intros b Hb; rewrite (Hr b Hb); cbn [via]; tauto|].
      intros HaN b Hb. destruct (Hx HaN b Hb) as (x & Ex & Hok). exists x. split; [done|]. eapply entry_ext; [|exact Hok].
      cbn [via]. tauto.
    + replace (a <? S i) with (a <? i) by (destruct (Nat.ltb_spec a i), (Nat.ltb_spec a (S i)); done || lia). auto.
Qed.

Lemma direct_closing t : direct (via edge 0) t → closing 0 0 t.
Proof.
  intros [H1 H2 H3 H4]. split; [done..|]. intros a Ha. split; [auto|]. intros HaN b Hb. eexists. split; [auto|].
  destruct (bit t.1 a b) eqn:E.
  - apply H3 in E; [|lia..]. left. split; [done|]. split; [lia|]. intros h. rewrite within_via. split.
    + intros Hh. split_and!; [lia..|]. by apply (via_mono edge 0); [lia|].
    + lia.
  - right. split; [|done]. rewrite <- H3 by lia. congruence.
Qed.

Lemma hardness_matrix :
  ∃ H, ngfix_calc_hardness s gt Nq S_ = Some H ∧ square Nq H
  ∧ ∀ a b, a < Nq → b < Nq → ∃ x, hard H a b = Some x
      ∧ (x = NGFIX_EH_INF ∨ (0 <= x < Z.of_nat S_)%Z) ∧ ∀ h, h < S_ → (x <= Z.of_nat h)%Z ↔ within edge h a b.
Proof.
  unfold ngfix_calc_hardness. destruct rank_of_spec as (m & -> & Hm). cbn [mbind option_bind].
  destruct diag_spec as (t0 & -> & H0). cbn [mbind option_bind].
  destruct (induced_spec m t0 Hm H0) as (t1 & -> & H1). cbn [mbind option_bind].
  destruct (iter_seq (λ h, iter (close_row Nq h) (seq 0 S_)) (λ k t, closing k 0 t) S_ t1) as (t & -> & Ht).
  - by apply direct_closing.
  - intros k t Hk Ht. destruct (iter_seq (close_row Nq k) (λ i t, closing k i t) S_ t) as (t' & E & [Ha Hb Hc]); [done| |].
    + intros i t2 Hi H2. by apply close_row_spec.
    + exists t'. split; [exact E|]. split; [done..|]. intros a HaS. specialize (Hc a HaS).
      by rewrite (proj2 (Nat.ltb_lt a S_) HaS) in Hc.
  - cbn [mbind option_bind]. exists t.2. split; [done|]. split; [apply Ht|]. intros a b Ha Hb.
    destruct (cl_row _ _ _ Ht a) as [_ Hx]; [lia|]. destruct (Hx Ha b Hb) as (x & Ex & Hok). exists x. split; [done|].
    cbn [Nat.ltb Nat.leb] in Hok. destruct Hok as [(_ & Hr & Hw)|[Hn ->]]; [by split; [right|]|]. split; [by left|].
    intros h Hh. unfold NGFIX_EH_INF, NGFIX_MAX_S in *. split; [lia|]. intros (_ & _ & Hv)%within_via.
    destruct Hn. by apply (via_mono edge (S h)); [lia|].
Qed.
End hardness.

(** ** Joining the pairs *)

Lemma rtc_add_edge {A} (Q : A → A → Prop) i j a b :
  rtc (λ x y, Q x y ∨ x = i ∧ y = j) a b ↔ rtc Q a b ∨ rtc Q a i ∧ rtc Q j b.
Proof.
  split.
  - induction 1 as [x|x y z [Hxy|[-> ->]] _ IH]; [by left| |].
    + destruct IH as [IH|[H1 H2]]; [left; by eapply rtc_l|right]. split; [by eapply rtc_l|done].
    + right. split; [done|]. destruct IH as [IH|[_ IH]]; done.
  - assert (Hsub : ∀ x y, rtc Q x y → rtc (λ x y, Q x y ∨ x = i ∧ y = j) x y).
    { intros x y. apply rtc_subrel. auto. }
    intros [H|[H1 H2]]; [auto|]. transitivity i; [auto|]. eapply rtc_l; [by right|auto].
Qed.

Lemma gain_spec n i j f :
  length f = n → i < n → j < n →
  ∃ f', iter (gain i j) (seq 0 n) f = Some f' ∧ length f' = n
  ∧ ∀ a b, a < n → bit f' a b = bit f a b || bit f a i && bit f j b.
Proof.
  intros Hf Hi Hj.
  destruct (iter_seq (gain i j) (λ m f', length f' = n ∧ ∀ a b, a < n →
    bit f' a b = if a <? m then bit f a b || bit f a i && bit f j b else bit f a b) n f) as (f' & -> & Hl & Hb).
  - done.
  - intros k f1 Hk [Hl Hb]. unfold gain. destruct (lookup_lt_is_Some_2 f1 k) as [fk Ek]; [lia|]. rewrite Ek. cbn [mbind option_bind].
    assert (Ebit : ∀ b, bget fk b = bit f k b).
    { intros b. pose proof (Hb k b Hk) as Hkb. rewrite Nat.ltb_irrefl in Hkb. rewrite <- Hkb. unfold bit. by rewrite Ek. }
    destruct (lookup_lt_is_Some_2 f1 j) as [fj Ej]; [lia|].
    assert (Ejbit : ∀ b, bget fj b = bit f j b).
    { intros b. pose proof (Hb j b Hj) as Hjb. unfold bit in Hjb at 1. rewrite Ej in Hjb. rewrite Hjb.
      destruct (j <? k); [|done]. by destruct (bit f j b), (bit f j i). }
    rewrite Ebit. destruct (bit f k i) eqn:Eki.
    + rewrite Ej. cbn [mbind option_bind]. rewrite vset_Some by lia. eexists. split; [done|]. rewrite length_insert.
      split; [done|]. intros a b Ha. unfold bit at 1. destruct (Nat.eq_dec a k) as [->|Hne].
      * rewrite list_lookup_insert_eq by lia. rewrite bget_lor, Ebit, Ejbit, Eki, (proj2 (Nat.ltb_lt k (S k))) by lia. done.
      * rewrite list_lookup_insert_ne by done. fold (bit f1 a b). rewrite (Hb a b Ha).
        destruct (Nat.ltb_spec a k), (Nat.ltb_spec a (S k)); done || lia.
    + exists f1. split; [done|]. split; [done|]. intros a b Ha. rewrite (Hb a b Ha).
      destruct (Nat.eq_dec a k) as [->|Hne].
      * rewrite Nat.ltb_irrefl, (proj2 (Nat.ltb_lt k (S k))), Eki by lia. by rewrite orb_false_r.
      * destruct (Nat.ltb_spec a k), (Nat.ltb_spec a (S k)); done || lia.
  - exists f'. split_and!; [done..|]. intros a b Ha. by rewrite (Hb a b Ha), (proj2 (Nat.ltb_lt a n) Ha).
Qed.

Section joining.
Context (Nq : nat) (HNq : Nq ≤ NGFIX_MAX_NQ) (easy : nat → nat → Prop).
Context (Hrefl : ∀ a, a < Nq → easy a a) (Htrans : ∀ a b c, easy a b → easy b c → easy a c).
Context (Hin : ∀ a b, easy a b → a < Nq ∧ b < Nq).

(** An easy pair or a chosen edge. *)
Definition joined (chosen : list (nat * nat)) (a b : nat) : Prop := easy a b ∨ (a, b) ∈ chosen.

Definition pair_of (c : Cand) : nat * nat := (c_i c, c_j c).

Record chosen_ok (d : list Cand) (st : list bitset * list (nat * nat)) : Prop := mkChosenOk {
  ch_len : length st.1 = Nq;
  ch_bit : ∀ a b, a < Nq → b < Nq → bit st.1 a b = true ↔ rtc (joined st.2) a b;
  ch_done : ∀ c, c ∈ d → c_i c < Nq ∧ c_j c < Nq ∧ bit st.1 (c_i c) (c_j c) = true;
  ch_sub : st.2 `sublist_of` map pair_of d;
  ch_need : ∀ n e, st.2 !! n = Some e → ¬ rtc (joined (take n st.2)) e.1 e.2
}.

Lemma joined_snoc l i j a b : joined (l ++ [(i, j)]) a b ↔ joined l a b ∨ a = i ∧ b = j.
Proof. unfold joined. rewrite elem_of_app, list_elem_of_singleton. naive_solver. Qed.

Lemma rtc_joined_snoc l i j a b :
  rtc (joined (l ++ [(i, j)])) a b ↔ rtc (joined l) a b ∨ rtc (joined l) a i ∧ rtc (joined l) j b.
Proof.
  rewrite <- rtc_add_edge. split; apply rtc_subrel; intros x y; apply joined_snoc.
Qed.

Lemma choose_edge_spec d c st :
  chosen_ok d st → c_i c < Nq → c_j c < Nq → ∃ st', choose_edge Nq c st = Some st' ∧ chosen_ok (d ++ [c]) st'.
Proof.
  intros [Hl Hb Hd Hs Hn] Hi Hj. unfold choose_edge. destruct (lookup_lt_is_Some_2 st.1 (c_i c)) as [row Er]; [lia|].
  rewrite Er. cbn [mbind option_bind]. assert (Ebit : bget row (c_j c) = bit st.1 (c_i c) (c_j c)) by (unfold bit; by rewrite Er).
  rewrite Ebit. destruct (bit st.1 (c_i c) (c_j c)) eqn:E.
  { exists st. split; [done|]. split; try done.
    - by intros c' [?| ->%list_elem_of_singleton]%elem_of_app; [auto|].
    - rewrite map_app. apply sublist_inserts_r. done. }
  destruct (set_pair_bit_spec (c_i c) (c_j c) st.1) as (f1 & -> & Hl1 & Hb1); [lia|unfold NGFIX_MAX_S, NGFIX_MAX_NQ in *; lia|].
  cbn [mbind option_bind]. destruct (gain_spec Nq (c_i c) (c_j c) f1) as (f2 & -> & Hl2 & Hb2); [lia..|]. cbn [mbind option_bind].
  assert (Hij : ¬ rtc (joined st.2) (c_i c) (c_j c)) by (rewrite <- Hb by done; congruence).
  assert (Hne : c_i c ≠ c_j c) by (intros Eq; apply Hij; by rewrite Eq).
  assert (Hbit : ∀ a b, a < Nq → b < Nq → bit f2 a b = true ↔ rtc (joined (st.2 ++ [(c_i c, c_j c)])) a b).
  { intros a b Ha Hb'. rewrite rtc_joined_snoc, Hb2, !Hb1 by done.
    rewrite (proj2 (Nat.eqb_neq (c_j c) (c_i c))), (proj2 (Nat.eqb_neq (c_i c) (c_j c))) by congruence.
    rewrite ?andb_false_r, ?andb_false_l, ?orb_false_r.
    rewrite !orb_true_iff, !andb_true_iff, !Nat.eqb_eq, !Hb by done. split; [|tauto].
    intros [[?|[-> ->]]|?]; [tauto| |tauto]. by right. }
  eexists. split; [done|]. split; cbn [fst snd]; [done|done| | |].
  - assert (Hmono : ∀ a b, rtc (joined st.2) a b → rtc (joined (st.2 ++ [(c_i c, c_j c)])) a b) by (intros; rewrite rtc_joined_snoc; by left).
    intros c' [Hc| ->%list_elem_of_singleton]%elem_of_app.
    + destruct (Hd c' Hc) as (H1 & H2 & H3). split_and!; [done..|]. apply Hbit; [done..|]. apply Hmono. by apply Hb.
    + split_and!; [done..|]. apply Hbit; [done..|]. rewrite rtc_joined_snoc. by right.
  - rewrite map_app. by apply sublist_app.
  - intros n e He. apply lookup_app_Some in He as [He|[Hge He]].
    + rewrite take_app_le by (apply lookup_lt_Some in He; lia). by apply Hn.
    + destruct (n - length st.2) as [|k] eqn:En; [|done]. injection He as <-. replace n with (length st.2) by lia.
      by rewrite take_app_length.
Qed.

Lemma rtc_easy a b : a < Nq → rtc easy a b → easy a b.
Proof. intros Ha Hr. induction Hr as [x|x y z Hxy _ IH]; [auto|]. apply (Htrans _ y); [done|]. apply IH. apply (Hin _ _ Hxy). Qed.

Lemma choose_all f l :
  length f = Nq → (∀ a b, a < Nq → b < Nq → bit f a b = true ↔ easy a b) →
  (∀ c, c ∈ l → c_i c < Nq ∧ c_j c < Nq) →
  ∃ st, iter (choose_edge Nq) l (f, []) = Some st ∧ chosen_ok l st.
Proof.
  intros Hf Hb Hl. apply iter_list.
  - split; cbn [fst snd]; [done| |by intros c ?%not_elem_of_nil|done|done].
    intros a b Ha Hb'. rewrite Hb by done. split; [intros; by apply rtc_once; left|].
    intros Hr. apply rtc_easy; [done|]. revert Hr. apply rtc_subrel. by intros x y [?|?%not_elem_of_nil].
  - intros d c r st -> Hst. apply choose_edge_spec; [done|apply Hl..]; set_solver.
Qed.
End joining.

Lemma mapM_seq {A} (f : nat → option A) (P : nat → A → Prop) n :
  (∀ i, i < n → ∃ x, f i = Some x ∧ P i x) →
  ∃ l, mapM f (seq 0 n) = Some l ∧ length l = n ∧ ∀ i x, l !! i = Some x → P i x.
Proof.
  intros Hf. assert (is_Some (mapM f (seq 0 n))) as [l Hl].
  { apply mapM_is_Some_2, Forall_forall. intros i Hi%elem_of_seq. destruct (Hf i) as (x & E & _); [lia|by exists x]. }
  exists l. split; [done|]. apply mapM_Some in Hl. split; [by rewrite <- (Forall2_length _ _ _ Hl), length_seq|].
  intros i x Hx. pose proof (Forall2_lookup_r _ _ _ _ _ Hl Hx) as (j & Hj & E). apply lookup_seq in Hj as [-> Hj].
  destruct (Hf i Hj) as (y & Ey & Hy). rewrite Nat.add_0_l in E. congruence.
Qed.

Lemma easy_pairs_spec H Nq Kh :
  square Nq H → Nq ≤ NGFIX_MAX_NQ →
  ∃ f, easy_pairs H Nq Kh = Some f ∧ length f = Nq
  ∧ ∀ a b, a < Nq → b < Nq → bit f a b = true ↔ ∃ x, hard H a b = Some x ∧ (x <= Z.of_nat Kh)%Z.
Proof.
  intros [Hn Hr] HNq. unfold easy_pairs.
  destruct (mapM_seq (λ i, row ← H !! i; iter (easy_row Kh row) (seq 0 Nq) 0%N)
    (λ i w, ∀ b, b < Nq → bget w b = true ↔ ∃ x, hard H i b = Some x ∧ (x <= Z.of_nat Kh)%Z) Nq) as (f & -> & Hl & Hf).
  - intros i Hi. destruct (lookup_lt_is_Some_2 H i) as [row Er]; [lia|]. rewrite Er. cbn [mbind option_bind].
    pose proof (Forall_lookup_1 _ _ _ _ Hr Er) as Hlr. cbn beta in Hlr.
    destruct (iter_seq (easy_row Kh row) (λ n w, ∀ b, bget w b = true ↔ b < n ∧ ∃ x, hard H i b = Some x ∧ (x <= Z.of_nat Kh)%Z) Nq 0%N)
      as (w & -> & Hw).
    + intros b. unfold bget. rewrite N.bits_0. split; [done|]. lia.
    + intros j w Hj Hw. unfold easy_row. destruct (lookup_lt_is_Some_2 row j) as [x Ex]; [lia|]. rewrite Ex. cbn [mbind option_bind].
      assert (Eh : hard H i j = Some x) by (unfold hard; rewrite Er; exact Ex).
      destruct (Z.leb_spec x (Z.of_nat Kh)) as [Hx|Hx].
      * unfold bset. rewrite (proj2 (Nat.ltb_lt j NGFIX_MAX_S)) by (unfold NGFIX_MAX_S, NGFIX_MAX_NQ in *; lia).
        eexists. split; [done|]. intros b. rewrite bget_setbit, orb_true_iff, Hw, Nat.eqb_eq. split.
        -- intros [[? ?]| <-]; [split; [lia|done]|]. split; [lia|]. by exists x.
        -- intros [Hb Hx']. destruct (decide (j = b)); [by right|left]. split; [lia|done].
      * exists w. split; [done|]. intros b. rewrite Hw. split; intros [Hb Hx']; (split; [|done]); [lia|].
        destruct (decide (j = b)) as [<-|]; [|lia]. destruct Hx' as (y & Ey & Hy). rewrite Eh in Ey. injection Ey as <-. lia.
    + exists w. split; [done|]. intros b Hb. rewrite Hw. tauto.
  - exists f. split_and!; [done..|]. intros a b Ha Hb. destruct (lookup_lt_is_Some_2 f a) as [w Ew]; [lia|]. unfold bit.
    rewrite Ew. by apply Hf.
Qed.

Lemma sublist_StronglySorted {A} (Q : A → A → Prop) l k : l `sublist_of` k → StronglySorted Q k → StronglySorted Q l.
Proof.
  induction 1 as [|x l k Hs IH|x l k Hs IH]; [done| |]; intros [H1 H2]%StronglySorted_inv; [|auto].
  constructor; [auto|]. apply Forall_forall. intros y Hy. eapply Forall_forall; [exact H2|]. by eapply elem_of_sublist.
Qed.

Lemma map_StronglySorted {A B} (Q : B → B → Prop) (f : A → B) l :
  StronglySorted (λ x y, Q (f x) (f y)) l → StronglySorted Q (map f l).
Proof.
  induction 1 as [|x l Hs IH Hx]; simpl; constructor; [done|]. apply Forall_map. done.
Qed.

(** [std::sort] of candidates by distance, which is an order without NaN. *)
Definition sorts (f : list Cand → list Cand) : Prop :=
  ∀ l, Forall (λ c, not_nan (c_d c)) l → f l ≡ₚ l ∧ StronglySorted (λ a b, flt (c_d b) (c_d a) = false) (f l).

Section edges.
Context (compare_sym : list Z → list Z → float) (Hnan : ∀ u v, not_nan (compare_sym u v)).
Context (sort_cands : list Cand → list Cand) (Hsort : sorts sort_cands).
Context (s : Index) (gt : list Z) (Nq : nat) (Hlen : Nq ≤ length gt).
Context (Hvec : ∀ i u, i < Nq → gt !! i = Some u → is_Some (at_ (vectors s) u)).

(** The distance of two nodes of the ranking. *)
Definition rank_dist (e : nat * nat) : float :=
  match gt !! e.1, gt !! e.2 with Some u, Some v => stored_dist compare_sym s u v | _, _ => f_zero end.
Definition cand_of (a b : nat) : Cand := mkCand (rank_dist (a, b)) a b.

Lemma hard_pair_spec f i j vs :
  length f = Nq → i < Nq → j < Nq →
  hard_pair compare_sym s gt f i j vs = Some (if bit f i j then vs else vs ++ [cand_of i j]).
Proof.
  intros Hf Hi Hj. unfold hard_pair, bit. destruct (lookup_lt_is_Some_2 f i) as [w Ew]; [lia|]. rewrite Ew. cbn [mbind option_bind].
  destruct (bget w j); [done|]. destruct (lookup_lt_is_Some_2 gt i) as [u Eu]; [lia|].
  destruct (lookup_lt_is_Some_2 gt j) as [v Ev]; [lia|].
  destruct (Hvec i u Hi Eu) as [x Ex], (Hvec j v Hj Ev) as [y Ey].
  rewrite Eu, Ev. cbn [mbind option_bind]. unfold compute_dists. rewrite Ex. cbn [mbind option_bind]. unfold compute_dists_sym. cbn [mapM].
  rewrite Ey. cbn. unfold cand_of, rank_dist, stored_dist. cbn [fst snd]. by rewrite Eu, Ev, Ex, Ey.
Qed.

Lemma hard_pairs_spec f :
  length f = Nq →
  ∃ vs, hard_pairs compare_sym s gt f Nq = Some vs
  ∧ ∀ c, c ∈ vs ↔ ∃ a b, a < Nq ∧ b < Nq ∧ bit f a b = false ∧ c = cand_of a b.
Proof.
  intros Hf. unfold hard_pairs.
  destruct (iter_seq (λ i, iter (hard_pair compare_sym s gt f i) (seq 0 Nq))
    (λ i vs, ∀ c, c ∈ vs ↔ ∃ a b, a < i ∧ b < Nq ∧ bit f a b = false ∧ c = cand_of a b) Nq []) as (vs & -> & Hvs).
  - intros c. split; [by intros ?%not_elem_of_nil|]. intros (a & b & Ha & _). lia.
  - intros i vs Hi Hvs.
    destruct (iter_seq (hard_pair compare_sym s gt f i)
      (λ j w, ∀ c, c ∈ w ↔ c ∈ vs ∨ ∃ b, b < j ∧ bit f i b = false ∧ c = cand_of i b) Nq vs) as (w & E & Hw).
    + intros c. split; [by left|]. intros [?|(b & Hb & _)]; [done|lia].
    + intros j w Hj Hw. rewrite hard_pair_spec by done. eexists. split; [done|]. intros c.
      destruct (bit f i j) eqn:E; [rewrite Hw|rewrite elem_of_app, list_elem_of_singleton, Hw].
      * split; (intros [?|(b & Hb & Hbit & ->)]; [by left|right]); exists b; (split; [|done]); [lia|].
        assert (b ≠ j) by congruence. lia.
      * split.
        -- intros [[?|(b & Hb & Hbit & ->)]| ->]; [by left|right; exists b; split; [lia|done]|right; exists j; split; [lia|done]].
        -- intros [?|(b & Hb & Hbit & ->)]; [by left; left|]. destruct (decide (b = j)) as [->|]; [by right|].
           left. right. exists b. split; [lia|done].
    + exists w. split; [done|]. intros c. rewrite Hw, Hvs. split.
      * intros [(a & b & Ha & H)|(b & Hb & H & ->)]; [exists a, b; split; [lia|done]|exists i, b; split; [lia|done]].
      * intros (a & b & Ha & Hb & H & ->). destruct (decide (a = i)) as [->|]; [right; by exists b|].
        left. exists a, b. split; [lia|done].
  - exists vs. by split.
Qed.

Context (Hrank : list (list Z)) (Kh : nat) (Hsq : square Nq Hrank) (HNq : Nq ≤ NGFIX_MAX_NQ).

Definition easy (a b : nat) : Prop := a < Nq ∧ b < Nq ∧ ∃ x, hard Hrank a b = Some x ∧ (x <= Z.of_nat Kh)%Z.

Lemma fixing_edges_joined :
  (∀ a, a < Nq → easy a a) → (∀ a b c, easy a b → easy b c → easy a c) →
  ∃ chosen, fixing_edges compare_sym sort_cands s gt Hrank Nq Kh = Some chosen
  ∧ (∀ a b, (a, b) ∈ chosen → a < Nq ∧ b < Nq ∧ ¬ easy a b)
  ∧ (∀ a b, a < Nq → b < Nq → rtc (joined easy chosen) a b)
  ∧ (∀ n e, chosen !! n = Some e → ¬ rtc (joined easy (take n chosen)) e.1 e.2)
  ∧ StronglySorted (λ p q, flt (rank_dist q) (rank_dist p) = false) chosen.
Proof.
  intros Hrefl Htrans. unfold fixing_edges. destruct (easy_pairs_spec Hrank Nq Kh Hsq HNq) as (f & -> & Hf & Hb).
  cbn [mbind option_bind]. destruct (hard_pairs_spec f Hf) as (vs & -> & Hvs). cbn [mbind option_bind].
  destruct (Hsort vs) as [Hperm Hsorted].
  { apply Forall_forall. intros c (a & b & _ & _ & _ & ->)%Hvs. simpl. unfold rank_dist. cbn [fst snd].
    destruct (gt !! a), (gt !! b); try done. apply Hnan. }
  assert (Hb' : ∀ a b, a < Nq → b < Nq → bit f a b = true ↔ easy a b) by (intros; rewrite Hb by done; unfold easy; tauto).
  destruct (choose_all Nq HNq easy Hrefl Htrans ltac:(unfold easy; tauto) f (sort_cands vs)) as (st & -> & [H1 H2 H3 H4 H5]); [done..| |].
  { intros c. rewrite Hperm, Hvs. by intros (a & b & Ha & Hb'' & _ & ->). }
  eexists. split; [done|]. split_and!; [| |exact H5|].
  - intros a b He. pose proof (elem_of_sublist _ _ _ He H4) as (c & [= -> ->] & Hc)%list_elem_of_fmap.
    rewrite Hperm in Hc. apply Hvs in Hc as (a & b & Ha & Hb'' & Hbit & ->). simpl. split_and!; [done..|].
    rewrite <- Hb' by done. congruence.
  - intros a b Ha Hbq. apply H2; [done..|]. destruct (bit f a b) eqn:E.
    + apply H2; [done..|]. apply rtc_once. left. by apply Hb'.
    + apply (H3 (cand_of a b)). rewrite Hperm. apply Hvs. eauto 6.
  - eapply sublist_StronglySorted; [exact H4|]. apply map_StronglySorted.
    assert (Hd : ∀ c, c ∈ sort_cands vs → c_d c = rank_dist (pair_of c)).
    { intros c. rewrite Hperm, Hvs. by intros (a & b & _ & _ & _ & ->). }
    revert Hsorted Hd. generalize (sort_cands vs). clear. intros l Hs Hd. induction Hs as [|x l Hs IH Hx]; constructor.
    + apply IH. intros c Hc. apply Hd. by right.
    + apply Forall_forall. intros y Hy. rewrite <- !Hd by (by left || by right). by apply (Forall_forall _ l) with (x := y) in Hx.
Qed.
End edges.
End NgFixProof.
