(* ===== verification/NgRefine.v ===== *)
(** * The refined build of the in-memory index

    A refinement of a graph whose base lists are full ([NgFix]) returns, keeps these
    lists and adds at most [R_ood] edges to each; a build yields a sound index of the
    given vectors and tags. *)

From S2P Require Import Prelude Float32 Neighbor CandidatePool Prune PipeSearch PipeProof MemIndex MemSearch MemProof Consolidate NgFix NgFixProof.

Module NgRefine.
Import PipeProof Prune Mem MemSearch MemProof Consolidate NgFix NgFixProof.
Local Open Scope nat_scope.

(** ** Lists *)

Lemma insert_NoDup {A} (l : list A) i x : NoDup l → x ∉ l → NoDup (<[i := x]> l).
Proof.
  intros Hnd Hx. apply NoDup_alt. intros a b y Ha Hb. rewrite list_lookup_insert_Some in Ha, Hb.
  destruct Ha as [(<- & <- & _)|[Hna Ha]], Hb as [(<- & Ey & _)|[Hnb Hb]]; try done.
  - by apply list_elem_of_lookup_2 in Hb.
  - subst y. by apply list_elem_of_lookup_2 in Ha.
  - by eapply NoDup_lookup.
Qed.

Lemma elem_of_insert {A} (l : list A) i x y : y ∈ <[i := x]> l → y = x ∨ y ∈ l.
Proof.
  intros (j & Hj)%list_elem_of_lookup. apply list_lookup_insert_Some in Hj as [(_ & -> & _)|[_ Hj]]; [by left|right].
  by eapply list_elem_of_lookup_2.
Qed.

(** ** One edge *)

Lemma scan_ehs_spec l i m k c :
  ∃ m' k' c', scan_ehs l i m k c = (m', k', c') ∧ (m' = m ∧ k' = k ∨ i ≤ k' < i + length l).
Proof.
  revert i m k c. induction l as [|e l IH]; intros i m k c; cbn [scan_ehs length]; [by eexists _, _, _; split; [|left]|].
  destruct (Z.ltb e m).
  - destruct (IH (S i) e i (if Z.eqb e NGFIX_EH_INF then S c else c)) as (m' & k' & c' & -> & H).
    eexists _, _, _. split; [done|]. right. destruct H as [[_ ->]|H]; lia.
  - destruct (IH (S i) m k (if Z.eqb e NGFIX_EH_INF then S c else c)) as (m' & k' & c' & -> & H).
    eexists _, _, _. split; [done|]. destruct H as [?|H]; [by left|right; lia].
Qed.

Section edge.
Context (s0 : Index) (HR : (0 <= R_ood s0 < 65536)%Z) (HRb : (0 <= R_base s0)%Z).

Definition total_degree : nat := Z.to_nat (R_base s0 + R_ood s0).

(** Node [u] has its full base list and at most [R_ood] more edges. *)
Record node_refined (t : refiner) (u : Z) : Prop := mkNodeRefined {
  nr_lists : ∃ l extra, at_ (final_graph s0) u = Some l ∧ Z.of_nat (length l) = R_base s0
    ∧ at_ (final_graph (base t)) u = Some (l ++ extra) ∧ at_ (ngfix_count t) u = Some (Z.of_nat (length extra))
    ∧ (Z.of_nat (length extra) <= R_ood s0)%Z;
  nr_ehs : ∃ e, at_ (ngfix_ehs t) u = Some e ∧ Z.of_nat (length e) = R_ood s0
}.

Record refining (t : refiner) : Prop := mkRefining {
  rf_base : relinked total_degree s0 (base t);
  rf_count : length (ngfix_count t) = nd s0;
  rf_ehs : length (ngfix_ehs t) = nd s0;
  rf_node : ∀ u, below (nd s0) u → node_refined t u
}.

(** A changed node leaves the others as they were. *)
Lemma refining_step t u g counts ehs :
  refining t → below (nd s0) u → graph_ok total_degree (set_graph g s0) →
  (∀ i, i ≠ u → at_ g i = at_ (final_graph (base t)) i) →
  (∀ i, i ≠ u → at_ counts i = at_ (ngfix_count t) i) → (∀ i, i ≠ u → at_ ehs i = at_ (ngfix_ehs t) i) →
  length counts = nd s0 → length ehs = nd s0 →
  node_refined (mkRefiner (set_graph g s0) counts ehs) u →
  refining (mkRefiner (set_graph g s0) counts ehs).
Proof.
  intros Ht Hu Hg Hgi Hci Hei Hc He Hn. split; cbn [base ngfix_count ngfix_ehs]; [by exists g|done..|].
  intros i Hi. destruct (decide (i = u)) as [->|Hne]; [done|].
  destruct (rf_node t Ht i Hi) as [(l & extra & H1 & H2 & H3 & H4 & H5) (e & H6 & H7)].
  split; cbn [base ngfix_count ngfix_ehs final_graph set_graph].
  - exists l, extra. rewrite Hgi, Hci by done. done.
  - exists e. by rewrite Hei.
Qed.

Lemma put_at_spec {A} (l : list A) i x :
  (0 <= i < Z.of_nat (length l))%Z →
  ∃ l', put l i x = Some l' ∧ length l' = length l ∧ at_ l' i = Some x ∧ ∀ j, j ≠ i → at_ l' j = at_ l j.
Proof.
  intros Hi. rewrite put_Some by done. eexists. split; [done|]. split; [by rewrite length_insert|].
  split; [by rewrite at_put, decide_True|]. intros j Hj. by rewrite at_put, decide_False.
Qed.

Section node.
Context (t : refiner) (Ht : refining t) (u v eh : Z) (Hu : below (nd s0) u) (Hv : below (nd s0) v) (Hne : u ≠ v).
Context (l extra e : list Z) (H1 : at_ (final_graph s0) u = Some l) (H2 : Z.of_nat (length l) = R_base s0).
Context (H3 : at_ (final_graph (base t)) u = Some (l ++ extra)).
Context (H4 : at_ (ngfix_count t) u = Some (Z.of_nat (length extra))) (H5 : (Z.of_nat (length extra) <= R_ood s0)%Z).
Context (H6 : at_ (ngfix_ehs t) u = Some e) (H7 : Z.of_nat (length e) = R_ood s0) (Hin : v ∉ l ++ extra).

Lemma node_list : nbrs_ok (nd s0) total_degree u (l ++ extra).
Proof.
  destruct (rf_base t Ht) as (g0 & Eb & Hg0). rewrite Eb in Hg0, H3. by apply (go_nbrs _ _ Hg0 u (l ++ extra)).
Qed.

(** The new list of the node. *)
Lemma assign_node k :
  nbrs_ok (nd s0) total_degree u k →
  ∃ g, assign_nbrs u k (base t) = Some (set_graph g s0) ∧ graph_ok total_degree (set_graph g s0)
  ∧ at_ g u = Some k ∧ ∀ i, i ≠ u → at_ g i = at_ (final_graph (base t)) i.
Proof.
  intros Hk. destruct (rf_base t Ht) as (g0 & Eb & Hg0).
  destruct (assign_spec total_degree (base t) Hg0 u k) as (g & Ea & Hg & Hat); [by rewrite Eb..|].
  exists g. replace (set_graph g (base t)) with (set_graph g s0) in * by (by rewrite Eb).
  split_and!; [done..|by rewrite Hat, decide_True|]. intros i Hi. by rewrite Hat, decide_False.
Qed.

Lemma append_edge :
  (Z.of_nat (length extra) < R_ood s0)%Z →
  ∃ t', (s ← assign_nbrs u ((l ++ extra) ++ [v]) (base t);
         ehs ← put e (Z.of_nat (length extra)) eh;
         all ← put (ngfix_ehs t) u ehs;
         counts ← put (ngfix_count t) u (u16 (Z.of_nat (length extra) + 1));
         Some (mkRefiner s counts all)) = Some t' ∧ refining t'.
Proof.
  intros Hlt. pose proof node_list as Hok. pose proof (rf_count t Ht) as Hc. pose proof (rf_ehs t Ht) as He.
  destruct (assign_node ((l ++ extra) ++ [v])) as (g & -> & Hg & Hgu & Hgi).
  { split.
    - intros x [Hx| ->%list_elem_of_singleton]%elem_of_app; [by apply Hok|done].
    - apply NoDup_app. split_and!; [apply Hok| |apply NoDup_singleton]. by intros x Hx ->%list_elem_of_singleton.
    - unfold total_degree. rewrite !length_app. simpl. lia. }
  cbn [mbind option_bind].
  destruct (put_at_spec e (Z.of_nat (length extra)) eh) as (e' & -> & He' & _); [lia|]. cbn [mbind option_bind].
  destruct (put_at_spec (ngfix_ehs t) u e') as (all & -> & Hall & Hallu & Halli); [unfold below in *; lia|]. cbn [mbind option_bind].
  destruct (put_at_spec (ngfix_count t) u (u16 (Z.of_nat (length extra) + 1))) as (cs & -> & Hcs & Hcsu & Hcsi); [unfold below in *; lia|].
  cbn [mbind option_bind]. eexists. split; [done|]. apply (refining_step t u g cs all); try done; [congruence..|].
  split; cbn [base ngfix_count ngfix_ehs final_graph set_graph]; [exists l, (extra ++ [v])|by exists e'; rewrite Hallu, He'].
  rewrite Hgu, Hcsu by done. split_and!; [done|done|by rewrite app_assoc| |rewrite length_app; simpl; lia].
  f_equal. unfold u16. rewrite Z.mod_small by lia. rewrite length_app. simpl. lia.
Qed.

Lemma replace_edge k :
  k < length extra → k < length e →
  ∃ t', (ehs ← vset e k eh;
         all ← put (ngfix_ehs t) u ehs;
         pool ← put (l ++ extra) (R_base s0 + Z.of_nat k) v;
         s ← assign_nbrs u pool (base t);
         Some (mkRefiner s (ngfix_count t) all)) = Some t' ∧ refining t'.
Proof.
  intros Hk Hke. pose proof node_list as Hok. pose proof (rf_count t Ht) as Hc. pose proof (rf_ehs t Ht) as He.
  rewrite vset_Some by done. cbn [mbind option_bind].
  destruct (put_at_spec (ngfix_ehs t) u (<[k := eh]> e)) as (all & -> & Hall & Hallu & Halli); [unfold below in *; lia|].
  cbn [mbind option_bind]. rewrite put_Some by (rewrite length_app; lia). cbn [mbind option_bind].
  replace (Z.to_nat (R_base s0 + Z.of_nat k)) with (length l + k) by lia.
  destruct (assign_node (<[length l + k := v]> (l ++ extra))) as (g & -> & Hg & Hgu & Hgi).
  { split.
    - intros x [->|Hx]%elem_of_insert; [done|by apply Hok].
    - apply insert_NoDup; [apply Hok|done].
    - rewrite length_insert. apply Hok. }
  cbn [mbind option_bind]. eexists. split; [done|].
  apply (refining_step t u g (ngfix_count t) all); try done; [congruence|].
  split; cbn [base ngfix_count ngfix_ehs final_graph set_graph].
  - exists l, (<[k := v]> extra). rewrite Hgu, insert_app_r, length_insert by done. done.
  - exists (<[k := eh]> e). rewrite length_insert. by rewrite Hallu.
Qed.
End node.

Lemma add_ngfix_spec u v eh t :
  refining t → below (nd s0) u → below (nd s0) v → (eh <= NGFIX_EH_INF)%Z →
  ∃ t', add_ngfix_neighbor u v eh t = Some t' ∧ refining t'.
Proof.
  intros Ht Hu Hv Heh. unfold add_ngfix_neighbor. destruct (Z.eqb_spec u v) as [->|Hne]; [by exists t|].
  destruct (rf_node t Ht u Hu) as [(l & extra & H1 & H2 & H3 & H4 & H5) (e & H6 & H7)].
  destruct (rf_base t Ht) as (g0 & Eb & Hg0). rewrite H3. cbn [mbind option_bind].
  case_bool_decide as Hin; [by exists t|]. rewrite H4, H6. cbn [mbind option_bind].
  replace (R_ood (base t)) with (R_ood s0) by (by rewrite Eb). replace (R_base (base t)) with (R_base s0) by (by rewrite Eb).
  destruct (Z.ltb_spec (Z.of_nat (length extra)) (R_ood s0)) as [Hlt|Hge]; [by apply append_edge|].
  rewrite (proj2 (Nat.ltb_ge _ _)) by lia.
  destruct (scan_ehs_spec (take (Z.to_nat (R_ood s0)) e) 0 NGFIX_EH_INF 0 0) as (m & k & c & -> & Hk).
  case_if; [by exists t|]. case_if; [by exists t|].
  rewrite length_take in Hk. apply replace_edge; try done; destruct Hk as [[-> _]|Hk]; lia.
Qed.
End edge.

(** ** A pass *)

Section pass.
Context (compare_sym : list Z → list Z → float) (Hnan : ∀ u v, not_nan (compare_sym u v)).
Context (hash_order : list Z → list Z) (Hhash : ∀ l, hash_order l ≡ₚ l).
Context (sort_cands : list Cand → list Cand) (Hsort : sorts sort_cands).

Lemma within_trans edge h a b c : NgFixProof.within edge h a b → NgFixProof.within edge h b c → NgFixProof.within edge h a c.
Proof. intros (? & ? & H1) (? & ? & H2). split_and!; [done..|]. by transitivity b. Qed.

(** What a pass computes: which pairs are easy, and the edges for the others. *)
Lemma pass_edges D s gt Nq Kh S_ :
  graph_ok D s → NoDup gt → (∀ x, x ∈ gt → below (nd s) x) → S_ ≤ length gt → S_ ≤ NGFIX_MAX_S → Nq ≤ S_ → Nq ≤ Kh →
  (Kh < S_ ∨ Nq = 0) →
  ∃ H chosen, ngfix_calc_hardness s gt Nq S_ = Some H ∧ square Nq H
  ∧ (∀ a b x, hard H a b = Some x → (x <= NGFIX_EH_INF)%Z)
  ∧ (∀ a b, easy Nq H Kh a b ↔ a < Nq ∧ b < Nq ∧ NgFixProof.within (edge s gt S_) Kh a b)
  ∧ fixing_edges compare_sym sort_cands s gt H Nq Kh = Some chosen
  ∧ (∀ a b, (a, b) ∈ chosen → a < Nq ∧ b < Nq ∧ ¬ easy Nq H Kh a b)
  ∧ (∀ a b, a < Nq → b < Nq → rtc (joined (easy Nq H Kh) chosen) a b)
  ∧ (∀ n e, chosen !! n = Some e → ¬ rtc (joined (easy Nq H Kh) (take n chosen)) e.1 e.2)
  ∧ StronglySorted (λ p q, flt (rank_dist compare_sym s gt q) (rank_dist compare_sym s gt p) = false) chosen.
Proof.
  intros Hg Hnd Hin HSl HS HNq HKh HKS.
  assert (Hgt : ∀ i u, gt !! i = Some u → below (nd s) u) by (intros i u Hu; by apply list_elem_of_lookup_2, Hin in Hu).
  destruct Hg as [Hlen Hcap _]. assert (Hslot : ∀ A (l : list A) i u, length l = max_points s → gt !! i = Some u → is_Some (at_ l u)).
  { intros A l i u Hl Hu%Hgt. apply at_Some. unfold below in Hu. lia. }
  destruct (hardness_matrix s gt Nq S_ HS HNq Hnd HSl) as (H & EH & Hsq & Hh).
  { intros i u _ Hu. by eapply Hslot. }
  assert (Heasy : ∀ a b, easy Nq H Kh a b ↔ a < Nq ∧ b < Nq ∧ NgFixProof.within (edge s gt S_) Kh a b).
  { intros a b. unfold easy. split; intros (Ha & Hb & Hx); (split_and!; [done..|]); destruct (Hh a b Ha Hb) as (y & Ey & _ & Hy).
    - destruct Hx as (x & Ex & Hx). rewrite Ey in Ex. injection Ex as ->. apply Hy; [lia|done].
    - exists y. split; [done|]. apply Hy; [lia|done]. }
  destruct (fixing_edges_joined compare_sym Hnan sort_cands Hsort s gt Nq ltac:(lia)) with (Hrank := H) (Kh := Kh)
    as (chosen & Ec & Hc); [intros i u _ Hu; by eapply Hslot|done|unfold NGFIX_MAX_S, NGFIX_MAX_NQ in *; lia| | |].
  - intros a Ha. apply Heasy. split_and!; [done..|]. split_and!; [lia..|done].
  - intros a b c (Ha & _ & H1)%Heasy (_ & Hc & H2)%Heasy. apply Heasy. split_and!; [done..|]. by eapply within_trans.
  - exists H, chosen. split_and!; try done; try apply Hc. intros a b x Ex.
    assert (Hab : a < Nq ∧ b < Nq).
    { unfold hard in Ex. destruct Hsq as [Hn Hr]. destruct (H !! a) as [row|] eqn:Er; [|done]. simpl in Ex.
      apply lookup_lt_Some in Ex. pose proof (lookup_lt_Some _ _ _ Er). pose proof (Forall_lookup_1 _ _ _ _ Hr Er). simpl in *. lia. }
    destruct Hab as [Ha Hb]. destruct (Hh a b Ha Hb) as (y & Ey & Hy & _). rewrite Ex in Ey. injection Ey as <-.
    unfold NGFIX_EH_INF, NGFIX_MAX_S in *. destruct Hy; lia.
Qed.

(** The map of new edges holds nodes of the ranking. *)
Definition edges_among (n : nat) (m : gmap Z (list (Z * Z))) : Prop :=
  ∀ u l, m !! u = Some l → below n u ∧ ∀ ve, ve ∈ l → below n ve.1 ∧ (ve.2 <= NGFIX_EH_INF)%Z.

Lemma push_edges_spec n gt H Nq chosen :
  (∀ x, x ∈ gt → below n x) → Nq ≤ length gt → square Nq H → (∀ a b x, hard H a b = Some x → (x <= NGFIX_EH_INF)%Z) →
  (∀ a b, (a, b) ∈ chosen → a < Nq ∧ b < Nq) →
  ∃ m, iter (push_edge gt H) chosen ∅ = Some m ∧ edges_among n m.
Proof.
  intros Hgt Hlen [Hn Hr] Hx Hc. apply (iter_list _ (λ _ m, edges_among n m)).
  - intros u l. by rewrite lookup_empty.
  - intros d [a b] r m -> Hm. destruct (Hc a b) as [Ha Hb]; [set_solver|]. unfold push_edge. cbn [fst snd].
    destruct (lookup_lt_is_Some_2 gt a) as [u Eu]; [lia|]. destruct (lookup_lt_is_Some_2 gt b) as [v Ev]; [lia|].
    destruct (lookup_lt_is_Some_2 H a) as [row Er]; [lia|]. pose proof (Forall_lookup_1 _ _ _ _ Hr Er) as Hrl. cbn beta in Hrl.
    destruct (lookup_lt_is_Some_2 row b) as [x Ex]; [lia|]. rewrite Eu, Ev, Er. cbn [mbind option_bind]. rewrite Ex. cbn [mbind option_bind].
    eexists. split; [done|]. assert (Hu : below n u) by (by apply list_elem_of_lookup_2, Hgt in Eu).
    assert (Hv : below n v) by (by apply list_elem_of_lookup_2, Hgt in Ev).
    assert (Hxi : (x <= NGFIX_EH_INF)%Z) by (apply (Hx a b); unfold hard; by rewrite Er).
    intros w l. destruct (decide (w = u)) as [->|Hne]; [rewrite lookup_insert_eq|rewrite lookup_insert_ne by done; apply Hm].
    intros [= <-]. split; [done|]. intros ve [Hve| ->%list_elem_of_singleton]%elem_of_app; [|done].
    destruct (m !! u) as [k|] eqn:Ek; [by apply (Hm u k)|by apply not_elem_of_nil in Hve].
Qed.

Lemma ngfix_pass_spec s0 gt Nq t :
  (0 <= R_ood s0 < 65536)%Z → (0 <= R_base s0)%Z →
  refining s0 t → NoDup gt → (∀ x, x ∈ gt → below (nd s0) x) → 2 * Nq ≤ length gt → Nq ≤ 100 →
  ∃ t', ngfix_pass compare_sym hash_order sort_cands gt Nq Nq t = Some t' ∧ refining s0 t'.
Proof.
  intros HR HRb Ht Hnd Hgt Hlen HNq. unfold ngfix_pass.
  rewrite (proj2 (Nat.ltb_ge _ _)) by (unfold NGFIX_MAX_NQ; lia).
  destruct (rf_base s0 t Ht) as (g & Eb & Hg).
  assert (Hnds : nd (base t) = nd s0) by (by rewrite Eb).
  destruct (pass_edges _ (base t) gt Nq Nq (Nat.min NGFIX_MAX_S (2 * Nq)) Hg Hnd) as (H & chosen & -> & Hsq & Hx & _ & Ec & Hc & _);
    [by rewrite Hnds|unfold NGFIX_MAX_S; lia..|].
  cbn [mbind option_bind]. rewrite Ec. cbn [mbind option_bind].
  destruct (push_edges_spec (nd s0) gt H Nq chosen) as (m & -> & Hm); try done; [lia|intros a b Hab; destruct (Hc a b Hab); tauto|].
  cbn [mbind option_bind]. apply (iter_list _ (λ _ t, refining s0 t)); [done|].
  intros d u r t1 E Ht1. assert (Hu : u ∈ hash_order (elements (dom m))) by (rewrite E; set_solver).
  rewrite Hhash in Hu. apply elem_of_elements, elem_of_dom in Hu as [ves Hves]. rewrite Hves. cbn [mbind option_bind].
  destruct (Hm u ves Hves) as [Hub Hve]. apply (iter_list _ (λ _ t, refining s0 t)); [done|].
  intros d2 ve r2 t2 -> Ht2. destruct (Hve ve) as [H1 H2]; [set_solver|]. by apply add_ngfix_spec.
Qed.
End pass.

(** ** The refinement *)

Section refine.
Context (metric : Metric) (compare_sym : list Z → list Z → float) (Hnan : ∀ u v, not_nan (compare_sym u v)).
Context (encode normalize_data : list Z → list Z).
Context (hash_order : list Z → list Z) (Hhash : ∀ l, hash_order l ≡ₚ l).
Context (sort_cands : list Cand → list Cand) (Hsort : sorts sort_cands).
Context (s0 : Index) (HR : (0 <= R_ood s0 < 65536)%Z) (HRb : (0 <= R_base s0)%Z) (Hep : below (nd s0) (ep s0)).

Lemma refining_search t q L :
  refining s0 t → 1 ≤ L →
  ∃ best, search_prepared compare_sym (base t) q L None = Some best
  ∧ NoDup (id <$> best) ∧ Forall ok best ∧ ∀ a, a ∈ best → below (nd s0) (id a).
Proof.
  intros Ht HL. destruct (rf_base s0 t Ht) as (g & Eb & Hg).
  destruct (iterate_correct compare_sym Hnan (base t) q L (ep (base t))) as (st & best & Hit & Hfx);
    [by eapply graph_edges|done|by rewrite Eb|].
  exists best. unfold search_prepared. rewrite Hit. cbn [fmap option_fmap option_map snd]. split; [done|].
  assert (Hb : ∀ a, a ∈ best → below (nd s0) (id a) ∧ ok a).
  { intros a Ha. destruct (fx_best _ _ _ _ _ _ _ Hfx a Ha) as (Ho & Hd & _). unfold occupied in Ho. rewrite Eb in Ho. split; [done|].
    unfold ok. rewrite Hd. apply Hnan. }
  split_and!; [apply Hfx|apply Forall_forall; apply Hb|apply Hb].
Qed.

Lemma filter_closer_ids d (l : list Neighbor) :
  NoDup (id <$> l) → NoDup (map id (List.filter (λ a, flt (distance a) d) l)).
Proof. intros Hnd. by apply NoDup_Lfilter_ids. Qed.

Lemma rfix_pass_spec q gt Nq L_ood t :
  refining s0 t → (∀ x, x ∈ gt → below (nd s0) x) → 1 ≤ Nq ≤ length gt → 1 ≤ L_ood →
  ∃ t', rfix_pass metric compare_sym q gt Nq L_ood t = Some t' ∧ refining s0 t'.
Proof.
  intros Ht Hgt HNq HL. unfold rfix_pass. destruct (rf_base s0 t Ht) as (g & Eb & Hg).
  assert (Hnds : nd (base t) = nd s0) by (by rewrite Eb).
  destruct (refining_search t q Nq Ht) as (best & -> & _ & _ & Hb); [lia|]. cbn [mbind option_bind].
  destruct best as [|r0 best]; [by exists t|].
  destruct (lookup_lt_is_Some_2 gt (Nq - 1)) as [x Ex]; [lia|]. rewrite Ex. cbn [mbind option_bind].
  destruct (compute_dists_Some compare_sym Hnan _ (base t) Hg q [x]) as (ds & -> & Hds & _).
  { intros i ->%list_elem_of_singleton. rewrite Hnds. by apply Hgt, list_elem_of_lookup_2 with (Nq - 1). }
  cbn [mbind option_bind]. destruct ds as [|d2 ds]; [done|]. cbn [head mbind option_bind]. case_if; [by exists t|].
  destruct (refining_search t q L_ood Ht HL) as (best2 & -> & Hnd2 & Hok2 & Hb2). cbn [mbind option_bind].
  set (res := map id (List.filter (λ a, flt (distance a) d2) best2)).
  assert (Hres : ∀ y, y ∈ res → below (nd s0) y).
  { intros y (a & -> & [Ha _]%elem_of_Lfilter)%list_elem_of_fmap. by apply Hb2. }
  assert (Hresnd : NoDup res) by (by apply filter_closer_ids).
  unfold compute_dists. destruct (at_Some (vectors (base t)) (id r0)) as [v ->].
  { pose proof (go_nd _ _ Hg). destruct (Hb r0); [left|]. unfold max_points in *. lia. }
  cbn [mbind option_bind]. destruct (compute_dists_Some compare_sym Hnan _ (base t) Hg v res) as (ds2 & -> & Hl2 & Hd2); [by rewrite Hnds|].
  cbn [mbind option_bind]. destruct (scored_ids res ds2 Hl2 Hd2 Hresnd) as [Hok Hids].
  destruct (prune_fresh metric compare_sym (rfix_params (length (zip_with new_neighbor res ds2))) ltac:(discriminate)
    (base t) (zip_with new_neighbor res ds2) Hok) as (picked & -> & _ & _ & Hpick).
  { change (NoDup (id <$> zip_with new_neighbor res ds2)). by rewrite Hids. }
  cbn [mbind option_bind]. apply (iter_list _ (λ _ t, refining s0 t)); [done|]. intros d p r t1 -> Ht1.
  apply add_ngfix_spec; try done; [apply Hb; left|].
  apply Hres. rewrite <- Hids. apply Hpick. set_solver.
Qed.

Lemma refine_query_spec L_ood q t :
  refining s0 t → 1 ≤ L_ood →
  ∃ t', refine_query metric compare_sym encode normalize_data hash_order sort_cands L_ood q t = Some t' ∧ refining s0 t'.
Proof.
  intros Ht HL. unfold refine_query. set (query := prepare_record _ _ _ _).
  destruct (refining_search t query L_ood Ht HL) as (best & -> & Hnd & _ & Hb). cbn [mbind option_bind].
  set (ids := map id (take 500 best)).
  assert (Hids : NoDup ids). { unfold ids. change (NoDup (id <$> take 500 best)). rewrite fmap_take. eapply sublist_NoDup; [exact Hnd|apply sublist_take]. }
  assert (Hin : ∀ x, x ∈ ids → below (nd s0) x).
  { intros x (a & -> & Ha)%list_elem_of_fmap. apply Hb. eapply elem_of_sublist; [exact Ha|apply sublist_take]. }
  pose proof (Nat.Div0.mul_div_le (length ids) 2).
  destruct (ngfix_pass_spec compare_sym Hnan hash_order Hhash sort_cands Hsort s0 ids (Nat.min 100 (length ids / 2)) t)
    as (t1 & -> & Ht1); [done..|lia|lia|]. cbn [mbind option_bind].
  destruct (ngfix_pass_spec compare_sym Hnan hash_order Hhash sort_cands Hsort s0 ids (Nat.min 10 (length ids / 2)) t1)
    as (t2 & -> & Ht2); [done..|lia|lia|]. cbn [mbind option_bind].
  destruct ids as [|x ids'] eqn:E; [by exists t2|]. apply rfix_pass_spec; try done. cbn [length]. lia.
Qed.

(** Every node has a full base list. *)
Definition full_base : Prop := ∀ u l, below (nd s0) u → at_ (final_graph s0) u = Some l → Z.of_nat (length l) = R_base s0.

Lemma refine_spec dim train L_ood order :
  (∀ l, order l ≡ₚ l) → graph_ok (total_degree s0) s0 → full_base →
  ∃ s', ngfix_refine metric compare_sym encode normalize_data hash_order sort_cands dim dim train L_ood order s0 = Some s'
  ∧ relinked (total_degree s0) s0 s'
  ∧ ∀ u l, below (nd s0) u → at_ (final_graph s0) u = Some l →
      ∃ extra, at_ (final_graph s') u = Some (l ++ extra) ∧ (Z.of_nat (length extra) <= R_ood s0)%Z.
Proof.
  intros Hord Hg Hfull. unfold ngfix_refine. rewrite Nat.eqb_refl. cbn [negb].
  set (t0 := mkRefiner _ _ _). assert (Ht0 : refining s0 t0).
  { split; simpl; [by apply relinked_refl|by rewrite length_replicate..|]. intros u Hu.
    pose proof (go_len _ _ Hg). pose proof (go_nd _ _ Hg). unfold below in Hu.
    destruct (at_Some (final_graph s0) u) as [l Hl]; [lia|].
    assert (Hrep : ∀ A (x : A), at_ (replicate (nd s0) x) u = Some x).
    { intros A x. apply at_lookup. split; [lia|]. apply lookup_replicate_2. lia. }
    split; simpl.
    - exists l, []. rewrite app_nil_r, Hrep. split_and!; try done; [by eapply Hfull|simpl; lia].
    - eexists. rewrite Hrep. split; [done|]. rewrite length_replicate. lia. }
  destruct (iter_list (λ i t, q ← at_ train i; refine_query metric compare_sym encode normalize_data hash_order sort_cands
    (Nat.max L_ood NGFIX_MAX_S) q t) (λ _ t, refining s0 t) (order (seqZ 0 (Z.of_nat (length train)))) t0) as (t & -> & Ht); [done| |].
  - intros d i r t1 E Ht1. assert (Hi : i ∈ order (seqZ 0 (Z.of_nat (length train)))) by (rewrite E; set_solver).
    rewrite Hord in Hi. apply elem_of_seqZ in Hi. destruct (at_Some train i) as [q ->]; [lia|]. cbn [mbind option_bind].
    apply refine_query_spec; [done|]. unfold NGFIX_MAX_S. lia.
  - exists (base t). split; [done|]. split; [apply Ht|]. intros u l Hu Hl.
    destruct (rf_node s0 t Ht u Hu) as [(l' & extra & H1 & H2 & H3 & H4 & H5) _]. simplify_eq. by exists extra.
Qed.
End refine.

(** ** Building *)

Lemma tag_pairs (tags : list Z) l t :
  (l, t) ∈ zip (seqZ 0 (Z.of_nat (length tags))) tags ↔ (0 <= l)%Z ∧ tags !! Z.to_nat l = Some t.
Proof.
  rewrite list_elem_of_lookup. split.
  - intros (k & Hk). rewrite lookup_zip_with in Hk. destruct (seqZ 0 (Z.of_nat (length tags)) !! k) as [i|] eqn:Ei; [|done].
    apply lookup_seqZ in Ei as [-> _]. simpl in Hk. destruct (tags !! k) as [t'|] eqn:Et; [|done]. simplify_eq/=.
    split; [lia|]. by replace (Z.to_nat (0 + Z.of_nat k)) with k by lia.
  - intros [Hl Ht]. exists (Z.to_nat l). rewrite lookup_zip_with, lookup_seqZ_lt by (apply lookup_lt_Some in Ht; lia). simpl.
    rewrite Ht. simpl. do 2 f_equal. lia.
Qed.

Section building.
Context (s : Index) (tags : list Z) (Hnd : NoDup tags) (Hlen : length tags = nd s).
Context (H0 : tag_to_location s = ∅) (H1 : location_to_tag s = ∅) (H2 : delete_set s = ∅).

Lemma with_tags_loc l t : location_to_tag (with_tags tags s) !! l = Some t ↔ (0 <= l)%Z ∧ tags !! Z.to_nat l = Some t.
Proof.
  unfold with_tags. cbn [set_tags location_to_tag]. rewrite H1, (foldl_insert_elem fst snd).
  - rewrite <- tag_pairs, lookup_empty. split; [intros [([a b] & Hp & <- & <-)|[_ ?]]; done|]. left. by exists (l, t).
  - change (NoDup (zip (seqZ 0 (Z.of_nat (length tags))) tags).*1). rewrite fst_zip by (rewrite length_seqZ; lia). apply NoDup_seqZ.
Qed.

Lemma with_tags_tag l t : tag_to_location (with_tags tags s) !! t = Some l ↔ (0 <= l)%Z ∧ tags !! Z.to_nat l = Some t.
Proof.
  unfold with_tags. cbn [set_tags tag_to_location]. rewrite H0, (foldl_insert_elem snd fst).
  - rewrite <- tag_pairs, lookup_empty. split; [intros [([a b] & Hp & <- & <-)|[_ ?]]; done|]. left. by exists (l, t).
  - change (NoDup (zip (seqZ 0 (Z.of_nat (length tags))) tags).*2). by rewrite snd_zip by (rewrite length_seqZ; lia).
Qed.

Lemma with_tags_ok : tags_ok (with_tags tags s).
Proof.
  split.
  - intros t l. by rewrite with_tags_loc, with_tags_tag.
  - intros l. cbn [with_tags set_tags delete_set nd]. rewrite H2. unfold below. split.
    + intros [[t [Hl Ht]%with_tags_loc]|?%not_elem_of_empty]; [|done]. apply lookup_lt_Some in Ht. lia.
    + intros Hl. left. destruct (lookup_lt_is_Some_2 tags (Z.to_nat l)) as [t Ht]; [lia|]. exists t. apply with_tags_loc. split; [lia|done].
  - intros l. cbn [with_tags set_tags delete_set]. rewrite H2. by intros ?%not_elem_of_empty.
Qed.

Lemma with_tags_abs : length (vectors s) = nd s → abs (with_tags tags s) = list_to_map (zip tags (vectors s)).
Proof.
  intros Hv. apply map_eq. intros t. apply option_eq. intros v. rewrite abs_lookup, bind_Some.
  rewrite <- elem_of_list_to_map by (rewrite fst_zip by lia; done). rewrite list_elem_of_lookup. split.
  - intros (l & [Hl Ht]%with_tags_tag & Hat). exists (Z.to_nat l). rewrite lookup_zip_with, Ht. simpl.
    apply at_lookup in Hat as [_ Hat]. change (vectors (with_tags tags s)) with (vectors s) in Hat. by rewrite Hat.
  - intros (k & Hk). rewrite lookup_zip_with in Hk. destruct (tags !! k) as [t'|] eqn:Et; [|done]. simpl in Hk.
    destruct (vectors s !! k) as [v'|] eqn:Ev; [|done]. simplify_eq/=. exists (Z.of_nat k).
    rewrite with_tags_tag, at_lookup, Nat2Z.id. split; split; try done; lia.
Qed.
End building.

Lemma foldr_max_ge l x : x ∈ l → x ≤ foldr Nat.max 0 l.
Proof. induction l as [|y l IH]; [by intros ?%not_elem_of_nil|]. intros [->|Hx]%elem_of_cons; simpl; [lia|]. apply IH in Hx. lia. Qed.

Lemma foldr_max_le l n : (∀ x, x ∈ l → x ≤ n) → foldr Nat.max 0 l ≤ n.
Proof.
  intros H. induction l as [|y l IH]; simpl; [lia|]. apply Nat.max_lub; [apply H; left|]. apply IH. intros x Hx. apply H. by right.
Qed.

(** The largest degree of a sound graph. *)
Lemma max_degree_spec D s :
  graph_ok D s → max_degree s ≤ D ∧ ∀ i l, at_ (final_graph s) i = Some l → length l ≤ max_degree s.
Proof.
  intros [Hlen Hn Hg]. unfold max_degree. split.
  - apply foldr_max_le. intros x (l & <- & Hl)%list_elem_of_In%in_map_iff.
    apply list_elem_of_In, list_elem_of_lookup in Hl as (k & Hk). apply lookup_take_Some in Hk as [Hk _].
    apply (no_len _ _ _ _ (proj1 (Hg (Z.of_nat k) l ltac:(apply at_lookup; rewrite Nat2Z.id; split; [lia|done])))).
  - intros i l Hl. destruct (Hg i l Hl) as [_ [Hi| ->]]; [|simpl; lia]. apply at_lookup in Hl as [Hi0 Hl]. unfold below in Hi.
    apply foldr_max_ge, list_elem_of_In, in_map_iff. exists l. split; [done|].
    apply list_elem_of_In, list_elem_of_lookup. exists (Z.to_nat i). apply lookup_take_Some. split; [done|lia].
Qed.

(** ** The theorems *)

(** C20: the hardness of a pair of nodes.  For a ranking of distinct nodes,
    [ngfix_calc_hardness] returns a square matrix, and its entry for two ranks is at
    most [h] exactly when a path of the graph joins them within the ranks up to [h];
    it is infinite when no path within the first [S] ranks does. *)
Theorem hardness_correct D s gt Nq S_ :
  graph_ok D s → NoDup gt → (∀ x, x ∈ gt → below (nd s) x) → S_ ≤ length gt → S_ ≤ NGFIX_MAX_S → Nq ≤ S_ →
  ∃ H, ngfix_calc_hardness s gt Nq S_ = Some H ∧ square Nq H
  ∧ ∀ a b, a < Nq → b < Nq → ∃ x, hard H a b = Some x
      ∧ (x = NGFIX_EH_INF ∨ (0 <= x < Z.of_nat S_)%Z)
      ∧ ∀ h, h < S_ → (x <= Z.of_nat h)%Z ↔ NgFixProof.within (edge s gt S_) h a b.
Proof.
  intros [Hlen Hcap _] Hnd Hin HSl HS HNq. apply hardness_matrix; try done. intros i u _ Hu.
  apply list_elem_of_lookup_2, Hin in Hu. apply at_Some. unfold below in Hu. lia.
Qed.

(** C19: the edges of a pass join every pair.  A pass over the [Nq] first nodes of a
    ranking chooses edges such that easy pairs (joined within the first [Kh] ranks)
    and chosen edges together connect every node to every other; an edge is chosen
    only for a pair that the easy pairs and the edges before it leave apart, and
    closer pairs are joined first. *)
Theorem fixing_edges_connect compare_sym sort_cands D s gt Nq Kh S_ :
  (∀ u v, not_nan (compare_sym u v)) → sorts sort_cands →
  graph_ok D s → NoDup gt → (∀ x, x ∈ gt → below (nd s) x) → S_ ≤ length gt → S_ ≤ NGFIX_MAX_S → Nq ≤ S_ → Nq ≤ Kh < S_ →
  ∃ H chosen, ngfix_calc_hardness s gt Nq S_ = Some H
  ∧ fixing_edges compare_sym sort_cands s gt H Nq Kh = Some chosen
  ∧ (∀ a b, easy Nq H Kh a b ↔ a < Nq ∧ b < Nq ∧ NgFixProof.within (edge s gt S_) Kh a b)
  ∧ (∀ a b, a < Nq → b < Nq → rtc (joined (easy Nq H Kh) chosen) a b)
  ∧ (∀ n e, chosen !! n = Some e → ¬ rtc (joined (easy Nq H Kh) (take n chosen)) e.1 e.2)
  ∧ StronglySorted (λ p q, flt (rank_dist compare_sym s gt q) (rank_dist compare_sym s gt p) = false) chosen.
Proof.
  intros Hnan Hsort Hg Hnd Hin HSl HS HNq [HKh HKS].
  destruct (pass_edges compare_sym Hnan sort_cands Hsort D s gt Nq Kh S_) as (H & chosen & E1 & _ & _ & He & E2 & _ & Hj & Hn & Hs);
    try done; [by left|]. by exists H, chosen.
Qed.

(** C21: a refinement keeps the base graph.  When every node has exactly [R_base]
    neighbours, [ngfix_refine] returns for every set of training queries and every
    order of the threads; each neighbour list keeps its base edges in front and gains
    at most [R_ood] distinct edges to other nodes. *)
Theorem refine_keeps_base metric compare_sym encode normalize_data hash_order sort_cands s dim train L_ood order :
  (∀ u v, not_nan (compare_sym u v)) → (∀ l, hash_order l ≡ₚ l) →
  sorts sort_cands → (∀ l, order l ≡ₚ l) →
  (0 <= R_ood s < 65536)%Z → (0 <= R_base s)%Z → below (nd s) (ep s) → graph_ok (total_degree s) s → full_base s →
  ∃ s', ngfix_refine metric compare_sym encode normalize_data hash_order sort_cands dim dim train L_ood order s = Some s'
  ∧ relinked (total_degree s) s s'
  ∧ ∀ u l, below (nd s) u → at_ (final_graph s) u = Some l →
      ∃ extra, at_ (final_graph s') u = Some (l ++ extra) ∧ (Z.of_nat (length extra) <= R_ood s)%Z.
Proof. intros. by apply refine_spec. Qed.

(** an eviction from a node with a short base list.  When a node has fewer base
    edges than [R_base] and all its [R_ood] refine edges are taken, replacing the
    edge with the lowest score writes at [R_base] plus its number: past the end of
    the list if the list is not longer than that, and over another edge of the node
    otherwise. *)
Theorem eviction_misses_edge u v eh t l ehs min_eh k c :
  u ≠ v → at_ (final_graph (base t)) u = Some l → v ∉ l →
  at_ (ngfix_count t) u = Some (R_ood (base t)) → at_ (ngfix_ehs t) u = Some ehs → Z.of_nat (length ehs) = R_ood (base t) → length ehs ≤ length l →
  scan_ehs ehs 0 NGFIX_EH_INF 0 0 = (min_eh, k, c) → (min_eh < eh < NGFIX_EH_INF)%Z → (0 <= R_base (base t))%Z →
  (Z.of_nat (length l) < R_base (base t) + R_ood (base t))%Z →
  if decide (Z.of_nat (length l) <= R_base (base t) + Z.of_nat k)%Z
  then add_ngfix_neighbor u v eh t = None
  else ∃ t', add_ngfix_neighbor u v eh t = Some t'
    ∧ at_ (final_graph (base t')) u = Some (<[Z.to_nat (R_base (base t)) + k := v]> l)
    ∧ Z.to_nat (R_base (base t)) + k ≠ length l - length ehs + k.
Proof.
  intros Hne Hl Hin Hc He Hle Hll Hscan Heh HRb Hshort. unfold add_ngfix_neighbor.
  rewrite (proj2 (Z.eqb_neq u v) Hne), Hl. cbn [mbind option_bind]. rewrite bool_decide_eq_false_2 by done.
  rewrite Hc, He. cbn [mbind option_bind]. rewrite Z.ltb_irrefl, (proj2 (Nat.ltb_ge _ _)) by lia.
  rewrite take_ge, Hscan by lia. rewrite (proj2 (Z.eqb_neq eh NGFIX_EH_INF)) by lia. cbn [andb].
  rewrite (proj2 (Z.leb_gt eh min_eh)) by lia.
  destruct (scan_ehs_spec ehs 0 NGFIX_EH_INF 0 0) as (m & k' & c' & E & Hk). rewrite Hscan in E. injection E as <- <- <-.
  destruct Hk as [[-> _]|Hk]; [lia|]. rewrite vset_Some by lia. cbn [mbind option_bind].
  assert (Hu : ∀ A (x : list A) y, at_ x u = Some y → (0 <= u < Z.of_nat (length x))%Z).
  { intros A x y [? ?%lookup_lt_Some]%at_lookup. lia. }
  rewrite (put_Some (ngfix_ehs t)) by (by eapply Hu). cbn [mbind option_bind]. unfold assign_nbrs.
  destruct (decide _) as [Hlong|Hlong].
  - assert (put l (R_base (base t) + Z.of_nat k) v = None) as ->; [|done]. unfold put.
    destruct (Z.ltb_spec (R_base (base t) + Z.of_nat k) 0); [lia|]. unfold vset. by rewrite (proj2 (Nat.ltb_ge _ _)) by lia.
  - rewrite (put_Some l) by lia. cbn [mbind option_bind]. rewrite put_Some by (by eapply Hu). eexists. split; [done|].
    cbn [base final_graph set_graph]. rewrite at_put, decide_True by (done || by eapply Hu).
    replace (Z.to_nat (R_base (base t) + Z.of_nat k)) with (Z.to_nat (R_base (base t)) + k) by lia. split; [done|]. lia.
Qed.

(** C18: a build indexes the given vectors.  [Index::build] without training queries
    over a store of vectors with distinct tags returns, for every order of the
    threads, a sound index whose tags map to the given vectors, with at most [R]
    neighbours per node and a [range] that bounds every list. *)
Theorem build_correct metric compare_sym encode normalize_data hash_order sort_cands uniform dim record_bytes pr L tags store
    r_ood L_ood order :
  (∀ u v, not_nan (compare_sym u v)) → (∀ lo hi, (lo <= hi)%Z → (lo <= uniform lo hi <= hi)%Z) → (∀ l, order l ≡ₚ l) →
  alpha pr ≠ f_infinity → 1 ≤ L → (Z.of_nat (R pr) < 65536)%Z →
  NoDup tags → length tags = length store → 0 < length store → (Z.of_nat (length store) < kInvalidID)%Z →
  ∃ s', build metric compare_sym encode normalize_data hash_order sort_cands uniform dim pr L tags None r_ood L_ood order
          (new_index record_bytes store (length store) 0) = Some s'
  ∧ mem_ok (R pr) s' ∧ abs s' = list_to_map (zip tags store) ∧ delete_set s' = ∅
  ∧ ∀ i l, at_ (final_graph s') i = Some l → (Z.of_nat (length l) <= range s')%Z.
Proof.
  intros Hnan Huni Hord Ha HL HR Hnd Hlen Hpos Hmax. unfold build. set (s0 := new_index record_bytes store (length store) 0).
  assert (Es0 : s0 = mkIndex (replicate (length store) []) store (length store) 0 0 0 0 ∅ ∅ ∅).
  { unfold s0, new_index. replace (length store <? 0) with false by (by destruct (length store)). unfold vresize, set_graph. simpl.
    by rewrite take_nil, Nat.sub_0_r. }
  rewrite (proj2 (Nat.eqb_eq _ _)) by (by rewrite Es0). cbn [negb]. set (s1 := set_degrees _ _ _).
  assert (ER : R_base s1 = Z.of_nat (R pr)). { simpl. rewrite Nat.sub_0_r. unfold u16. by rewrite Z.mod_small by lia. }
  rewrite ER, Nat2Z.id. set (pr' := mkParams _ _ _ _).
  assert (Hg : graph_ok (Nat.max (slack pr') (R pr')) s1).
  { unfold s1. rewrite Es0. split; [apply length_replicate|done|]. intros i l. cbn [set_degrees with_tags set_tags final_graph].
    intros [_ [-> _]%lookup_replicate]%at_lookup. split; [|by right]. split; [by intros x ?%not_elem_of_nil|apply NoDup_nil_2|apply Nat.le_0_l]. }
  destruct (mem_link_spec metric compare_sym Hnan pr' Ha (Nat.max (slack pr') (R pr')) L order uniform s1) as (g & -> & Hg1 & Hep);
    [exact Huni|exact Hord|exact HL|lia|lia|exact Hg|unfold s1; rewrite Es0; exact Hpos|unfold s1; rewrite Es0; simpl; unfold kInvalidID, UINT32_MAX in *; lia|].
  cbn [mbind option_bind]. cbn [Nat.ltb Nat.leb]. set (s2 := set_graph g _) in *. eexists. split; [done|].
  destruct (max_degree_spec _ _ Hg1) as [Hd1 Hd2]. destruct Hg1 as [Hl Hn Hg1].
  assert (Et : tags_ok (with_tags tags s0)) by (apply with_tags_ok; [done|by rewrite Es0..]).
  split_and!.
  - split; [by split| |by left|by rewrite Es0 in *]. by destruct Et as [T1 T2 T3].
  - change (abs (set_range s2)) with (abs (with_tags tags s0)). rewrite with_tags_abs by (done || by rewrite Es0). by rewrite Es0.
  - change (delete_set s0 = ∅). by rewrite Es0.
  - intros i l Hil. apply Hd2 in Hil. cbn [set_range range]. unfold u16. change (R pr') with (R pr) in Hd1. rewrite Z.mod_small by lia. lia.
Qed.

(** ** Concrete runs *)

(** A check of [graph_ok] by evaluation. *)
Definition node_check (n D : nat) (i : Z) (l : list Z) : bool :=
  forallb (λ x, Z.leb 0 x && Z.ltb x (Z.of_nat n) && negb (Z.eqb x i)) l && bool_decide (NoDup l) && Nat.leb (length l) D
  && (Z.ltb i (Z.of_nat n) || Nat.eqb (length l) 0).
Definition graph_check (D : nat) (s : Index) : bool :=
  Nat.eqb (length (final_graph s)) (max_points s) && Nat.leb (nd s) (max_points s)
  && forallb (λ k, match final_graph s !! k with Some l => node_check (nd s) D (Z.of_nat k) l | None => true end)
       (seq 0 (length (final_graph s))).

Lemma graph_check_sound D s : graph_check D s = true → graph_ok D s.
Proof.
  unfold graph_check. intros [[H1 H2]%andb_true_iff H3]%andb_true_iff. bool_to_prop. split; [done..|].
  intros i l [Hi Hl]%at_lookup. rewrite forallb_forall in H3. specialize (H3 (Z.to_nat i)).
  rewrite Hl, Z2Nat.id in H3 by done. specialize (H3 ltac:(apply in_seq; apply lookup_lt_Some in Hl; lia)).
  unfold node_check in H3. bool_to_prop. rename select (forallb _ _ = true) into Hf. rewrite forallb_forall in Hf.
  rename select (bool_decide _ = true) into Hd. apply bool_decide_eq_true in Hd.
  rename select (_ || _ = true) into Ho. apply orb_true_iff in Ho.
  split; [split; [|done..]|].
  - intros x Hx%list_elem_of_In%Hf. bool_to_prop. unfold below. done.
  - unfold below. destruct Ho; bool_to_prop; [left; done|right]. by apply length_zero_iff_nil.
Qed.

Definition ring_dist (u v : list Z) : float := z_dist ((hd 0 u - hd 0 v) * (hd 0 u - hd 0 v))%Z.
Definition same (l : list Z) : list Z := l.
Definition top (_ hi : Z) : Z := hi.

Lemma ring_nan u v : not_nan (ring_dist u v).
Proof. apply z_dist_not_nan. Qed.

(** Insertion by distance. *)
Fixpoint cand_insert (c : Cand) (l : list Cand) : list Cand :=
  match l with [] => [c] | a :: l => if flt (c_d a) (c_d c) then a :: cand_insert c l else c :: a :: l end.
Definition cand_sort (l : list Cand) : list Cand := foldr cand_insert [] l.

Lemma cand_insert_perm c l : cand_insert c l ≡ₚ c :: l.
Proof. induction l as [|a l IH]; simpl; [done|]. destruct (flt _ _); [|done]. rewrite IH. apply Permutation_swap. Qed.

Lemma not_flt_trans a b c :
  not_nan a → not_nan b → not_nan c → flt b a = false → flt c b = false → flt c a = false.
Proof.
  intros Ha Hb Hc. rewrite <- !not_true_iff_false, !flt_key by done. intros H1 H2 H3.
  destruct (key_lt_total (fkey b) (fkey c)) as [H|[E|H]]; [|by rewrite <- E in H3|done].
  destruct H1. eapply key_lt_trans; [exact H|done].
Qed.

Lemma cand_insert_sorted c l :
  Forall (λ c, not_nan (c_d c)) (c :: l) → StronglySorted (λ a b, flt (c_d b) (c_d a) = false) l →
  StronglySorted (λ a b, flt (c_d b) (c_d a) = false) (cand_insert c l).
Proof.
  intros [Hc Hl]%Forall_cons Hs. induction Hs as [|a l Hs IH Ha]; simpl; [by repeat constructor|].
  apply Forall_cons in Hl as [Hna Hl]. destruct (flt (c_d a) (c_d c)) eqn:E.
  - constructor; [auto|]. apply Forall_forall. intros x. rewrite cand_insert_perm. intros [->|Hx]%elem_of_cons.
    + apply not_true_iff_false. rewrite flt_key in * by done. intros K. by eapply key_lt_irrefl, key_lt_trans.
    + by apply (Forall_forall _ l) with (x := x) in Ha.
  - constructor; [by constructor|]. constructor; [done|]. apply Forall_forall. intros x Hx.
    apply (not_flt_trans _ (c_d a)); try done; [by apply (Forall_forall _ l) with (x := x) in Hl|].
    by apply (Forall_forall _ l) with (x := x) in Ha.
Qed.

Lemma cand_sort_sorts : sorts cand_sort.
Proof.
  intros l Hl. assert (Hp : cand_sort l ≡ₚ l).
  { clear Hl. induction l as [|c l IH]; [done|]. simpl. by rewrite cand_insert_perm, IH. }
  split; [done|]. clear Hp. induction l as [|c l IH]; simpl; [constructor|]. apply Forall_cons in Hl as [Hc Hl].
  apply cand_insert_sorted; [|auto]. constructor; [done|]. apply Forall_forall. intros x Hx.
  assert (Hp : cand_sort l ≡ₚ l).
  { clear. induction l as [|c l IH]; [done|]. simpl. by rewrite cand_insert_perm, IH. }
  rewrite Hp in Hx. by apply (Forall_forall _ l) with (x := x) in Hl.
Qed.

(** Four points on a line, a ring of edges. *)
Definition ring : Index := mkIndex [[1]; [2]; [3]; [0]]%Z [[0]; [1]; [3]; [7]]%Z 4 0 1 1 0 ∅ ∅ ∅.
Definition ring_rank : list Z := [0; 2; 1; 3]%Z.

Lemma four_ring_ok : graph_ok 2 ring.
Proof. apply graph_check_sound. vm_compute. reflexivity. Qed.

Lemma ring_rank_in x : x ∈ ring_rank → below (nd ring) x.
Proof.
  unfold ring_rank, below. simpl. rewrite !elem_of_cons. intros Hx.
  destruct Hx as [->|[->|[->|[->|Hx]]]]; [lia..|]. by apply not_elem_of_nil in Hx.
Qed.

Lemma hardness_correct_witness :
  ∃ H, ngfix_calc_hardness ring ring_rank 2 4 = Some H ∧ square 2 H.
Proof.
  destruct (hardness_correct 2 ring ring_rank 2 4 four_ring_ok) as (H & E & Hsq & _).
  - apply (bool_decide_unpack _). vm_compute. exact I.
  - exact ring_rank_in.
  - simpl. lia.
  - unfold NGFIX_MAX_S. lia.
  - lia.
  - exists H. split; [exact E|exact Hsq].
Defined.

Lemma fixing_edges_connect_witness :
  ∃ H chosen, ngfix_calc_hardness ring ring_rank 2 4 = Some H
  ∧ fixing_edges ring_dist cand_sort ring ring_rank H 2 2 = Some chosen
  ∧ ∀ a b, a < 2 → b < 2 → rtc (joined (easy 2 H 2) chosen) a b.
Proof.
  destruct (fixing_edges_connect ring_dist cand_sort 2 ring ring_rank 2 2 4 ring_nan cand_sort_sorts four_ring_ok)
    as (H & chosen & E1 & E2 & _ & Hj & _).
  - apply (bool_decide_unpack _). vm_compute. exact I.
  - exact ring_rank_in.
  - simpl. lia.
  - unfold NGFIX_MAX_S. lia.
  - lia.
  - lia.
  - exists H, chosen. split; [exact E1|]. split; [exact E2|exact Hj].
Defined.

Lemma refine_keeps_base_witness :
  ∃ s', ngfix_refine L2 ring_dist same same same cand_sort 1 1 [[2%Z]; [6%Z]] 10 same ring = Some s'
  ∧ relinked (total_degree ring) ring s'.
Proof.
  destruct (refine_keeps_base L2 ring_dist same same same cand_sort ring 1 [[2%Z]; [6%Z]] 10 same ring_nan
    (λ l, reflexivity l) cand_sort_sorts (λ l, reflexivity l)) as (s' & E & Hs & _).
  - simpl. lia.
  - simpl. lia.
  - unfold below. simpl. lia.
  - apply graph_check_sound. vm_compute. reflexivity.
  - intros u l Hu Hl. unfold below in Hu. simpl in Hu. assert (Hu' : (u = 0 ∨ u = 1 ∨ u = 2 ∨ u = 3)%Z) by lia.
    destruct Hu' as [->|[->|[->| ->]]]; injection Hl as <-; reflexivity.
  - exists s'. split; [exact E|exact Hs].
Defined.

(** A node with one of two base edges, and its only refine edge taken. *)
Definition short_base : refiner :=
  mkRefiner (mkIndex [[1; 2]; []; []; []]%Z [[0]; [1]; [3]; [7]]%Z 4 0 2 1 0 ∅ ∅ ∅) [1; 0; 0; 0]%Z [[5]; [0]; [0]; [0]]%Z.

Lemma eviction_misses_edge_witness : add_ngfix_neighbor 0 3 9 short_base = None.
Proof.
  pose proof (eviction_misses_edge 0 3 9 short_base [1; 2]%Z [5%Z] 5 0 0 ltac:(discriminate) eq_refl
    ltac:(apply (bool_decide_unpack _); vm_compute; exact I) eq_refl eq_refl eq_refl ltac:(simpl; lia) eq_refl
    ltac:(unfold NGFIX_EH_INF; lia) ltac:(simpl; lia) ltac:(simpl; lia)) as H.
  rewrite decide_True in H by (simpl; lia). exact H.
Defined.

Lemma build_correct_witness :
  ∃ s', build L2 ring_dist same same same cand_sort top 1 demo_params 4 [7; 8; 9]%Z None 0 0 same
          (new_index 1 [[0]; [1]; [3]]%Z 3 0) = Some s'
  ∧ abs s' = {[7 := [0]; 8 := [1]; 9 := [3]]}%Z.
Proof.
  destruct (build_correct L2 ring_dist same same same cand_sort top 1 1 demo_params 4 [7; 8; 9]%Z [[0]; [1]; [3]]%Z 0 0 same
    ring_nan) as (s' & E & _ & Ha & _).
  - intros lo hi Hlh. unfold top. lia.
  - reflexivity.
  - discriminate.
  - lia.
  - simpl. lia.
  - apply (bool_decide_unpack _). vm_compute. exact I.
  - reflexivity.
  - simpl. lia.
  - unfold kInvalidID, UINT32_MAX. simpl. lia.
  - exists s'. split; [exact E|]. rewrite Ha. vm_compute. reflexivity.
Defined.
End NgRefine.
