(* ===== verification/DirectInsert.v ===== *)
(** * Insertion of a node ([src/update/direct_insert.cpp])

    [SSDIndex::insert_in_place] from the search result to the location tables, for
    one insert at a time ([InsertConc] has the interleavings): the choice of the
    neighbours, the buffers of the pages that are read and rewritten, the new
    node's record, the updated records of its neighbours, the merging of page
    writes, and the move of the records in the tables.  A record is kept at the
    level of its fields ([Layout] has the bytes).  A null pointer, an access out of
    a buffer and [exit(-1)] are [None].

    The main theorem is a refinement: on the graph that the tables and the pages
    represent, an insert adds one node and its links and changes nothing else. *)

From S2P Require Import Prelude Float32 Neighbor Layout LocTable InsertConc Prune.
Local Open Scope Z_scope.

Module Insert.
Import Layout.Layout Loc Conc Prune.

Definition MAX_N_EDGES : nat := 2048.

(** ** The neighbours of the new node *)

Section choose.
Context (metric : Metric) (coord_dist : Z → Z → float).

(** [std::find] gives the position of the entry point; a position from [R / 4] on
    takes the last element's place. *)
Definition drop_entry_point (r : nat) (entry : Z) (nh : list Z) : list Z :=
  match list_find (λ x, x = entry) nh, last nh with
  | Some (i, _), Some b => if Nat.leb (Nat.div r 4) i then take (length nh - 1) (<[i := b]> nh) else nh
  | _, _ => nh
  end.

Definition keep_R (r : nat) (nh : list Z) : list Z := if Nat.ltb r (length nh) then take (length nh - 1) nh else nh.

Definition one_more (pr : IndexBuildParameters) : IndexBuildParameters :=
  mkParams (R pr + 1) (C pr) (alpha pr) (saturate_graph pr).

Definition choose_nhood (pr : IndexBuildParameters) (entry : Z) (exp_node_info : list Neighbor) : option (list Z) :=
  '(_, nh) ← prune_neighbors metric coord_dist exp_node_info [] (one_more pr);
  Some (keep_R (R pr) (drop_entry_point (R pr) entry nh)).
End choose.

(** ** Records, pages and buffers *)

Record node (V A : Type) := mkRec { n_coords : V; n_nbrs : list Z; n_dense : list Z; n_attrs : A }.
Arguments mkRec {V A} _ _ _ _.
Arguments n_coords {V A} _.
Arguments n_nbrs {V A} _.
Arguments n_dense {V A} _.
Arguments n_attrs {V A} _.

(** Sorting keeps no more elements than it gets. *)
Lemma insert_unique_length x l : (length (insert_unique x l) ≤ S (length l))%nat.
Proof. induction l as [|y l IH]; simpl; [done|]. repeat case_if; simpl; lia. Qed.

Lemma sort_unique_length l : (length (sort_unique l) ≤ length l)%nat.
Proof. induction l as [|x l IH]; simpl; [done|]. pose proof (insert_unique_length x (sort_unique l)). unfold sort_unique in *. lia. Qed.

Lemma sorted_NoDup (l : list Z) : StronglySorted Z.lt l → NoDup l.
Proof.
  induction 1 as [|x l _ IH Hx]; constructor; [|done]. intros Hin. rewrite Forall_forall in Hx. specialize (Hx x Hin). lia.
Qed.

Section insert.
Context {V A : Type} (m : SSDIndexMetadata) (pr : IndexBuildParameters) (metric : Metric).
Context (nbr_dist : Z → Z → float) (shuffle : list Z → list Z) (serialized_size : A → Z).

Local Abbreviation rec := (node V A).

(** [update_buf]: one page per index. *)
Abbreviation bufs := (list (list rec)).

Definition off (loc : Z) : nat := Z.to_nat (loc mod nodes_per_io m).

(** A read fills the buffer; past the end of the file it leaves it. *)
Definition exec_read (disk : gmap Z (list rec)) (b : bufs) (r : Z * nat) : option bufs :=
  match disk !! r.1 with
  | Some page => vset b r.2 page
  | None => if Nat.ltb r.2 (length b) then Some b else None
  end.

Fixpoint exec_reads (disk : gmap Z (list rec)) (b : bufs) (rs : list (Z * nat)) : option bufs :=
  match rs with
  | [] => Some b
  | r :: rs => b ← exec_read disk b r; exec_reads disk b rs
  end.

(** The reads of the neighbours' pages: buffer [i] for neighbour [i]. *)
Definition nbr_reads (tb : LocTables) (nh : list Z) : option (list (Z * nat)) :=
  locs ← mapM (id2loc tb) nh; Some (imap (λ i loc, (loc_sector_no m loc, i)) locs).

(** The buffers of the pages to write follow. *)
Definition writes_4k (n : nat) (rmw : list Z) : list (Z * nat) := imap (λ k p, (p, (n + k)%nat)) rmw.

Definition page_buf_map (reads w4k : list (Z * nat)) : gmap Z nat :=
  foldl (λ mp r, <[r.1 := r.2]> mp) (foldl (λ mp r, <[r.1 := r.2]> mp) ∅ reads) w4k.

(** [node_from_page(page_buf_map[loc_sector_no(loc)], loc)]. *)
Definition read_node (pbm : gmap Z nat) (b : bufs) (loc : Z) : option rec :=
  i ← pbm !! loc_sector_no m loc; page ← b !! i; page !! off loc.

(** A whole record is written: [max_node_len] bytes, into a buffer of [io_size]. *)
Definition in_buffer (loc : Z) : bool := (loc mod nodes_per_io m + 1) * max_node_len m <=? io_size m.

Definition write_node (pbm : gmap Z nat) (b : bufs) (loc : Z) (r : rec) : option bufs :=
  i ← pbm !! loc_sector_no m loc; page ← b !! i;
  if in_buffer loc then page' ← vset page (off loc) r; vset b i page' else None.

(** ** Merging the page writes

    [writes_4k] with the dummy at its end; [rest] starts at index [i]. *)
Definition dummy_off : Z := 2 ^ 64 - 1.

Fixpoint coalesce (w : list (Z * nat)) (rest : list (Z * nat)) (i start_idx : nat) (cur_off : Z)
    : option (list (Z * nat * nat)) :=
  match rest with
  | [] => Some []
  | (o, _) :: rest =>
      if o =? cur_off + io_size m then coalesce w rest (S i) start_idx o
      else
        '(o0, b0) ← w !! start_idx;
        ws ← coalesce w rest (S i) i o;
        Some ((o0, (i - start_idx)%nat, b0) :: ws)
  end.

Definition merge_writes (w4k : list (Z * nat)) : option (list (Z * nat * nat)) :=
  match map (λ x, (x.1 * SECTOR_LEN, x.2)) w4k ++ [(dummy_off, 0%nat)] with
  | [] => None
  | (o, b) :: rest => coalesce ((o, b) :: rest) rest 1 0 o
  end.

(** A write of [n] pages takes [n] buffers. *)
Definition write_pieces (w : Z * nat * nat) : list (Z * nat) :=
  let '(o, n, b) := w in map (λ j, (o + Z.of_nat j * io_size m, (b + j)%nat)) (seq 0 n).

Definition exec_piece (b : bufs) (d : gmap Z (list rec)) (w : Z * nat) : option (gmap Z (list rec)) :=
  page ← b !! w.2; Some (<[w.1 / SECTOR_LEN := page]> d).

Fixpoint exec_pieces (b : bufs) (d : gmap Z (list rec)) (ws : list (Z * nat)) : option (gmap Z (list rec)) :=
  match ws with
  | [] => Some d
  | w :: ws => d ← exec_piece b d w; exec_pieces b d ws
  end.

Definition wbc_write (b : bufs) (d : gmap Z (list rec)) (ws : list (Z * nat * nat)) : option (gmap Z (list rec)) :=
  exec_pieces b d (concat (map write_pieces ws)).

(** ** The new node and its neighbours *)

(** Writing more than [range] ids runs into the attributes. *)
Definition store_nbrs (nh : list Z) : option (list Z) := if Z.of_nat (length nh) <=? range m then Some nh else None.

Definition max_dense : nat :=
  if range m <? range_dense m then Z.to_nat ((range_dense m - range m) mod 2 ^ 16) else 0%nat.

Definition dense_of (tb : LocTables) (pbm : gmap Z nat) (b : bufs) (t : Z) (nh : list Z) : option (list Z) :=
  if Nat.ltb 0 max_dense then
    let get_nbrs id :=
      if id =? t then Some nh
      else loc ← id2loc tb id; r ← read_node pbm b loc; Some (n_nbrs r) in
    _ ← mapM get_nbrs nh;
    Some (sample_two_hop_nbrs shuffle (λ id, default [] (get_nbrs id)) t max_dense)
  else Some [].

(** Without attributes, or without space for any, the record keeps those of the
    buffer; attributes larger than their space end the process. *)
Definition write_attrs (attrs : option A) (old : A) : option A :=
  match attrs with
  | Some a => if 0 <? attr_size m then if attr_size m <? serialized_size a then None else Some a else Some old
  | None => Some old
  end.

Definition write_target (tb : LocTables) (pbm : gmap Z nat) (b : bufs) (t l : Z) (point : V) (nh : list Z) (attrs : option A)
    : option bufs :=
  old ← read_node pbm b l;
  nbrs ← store_nbrs nh;
  a ← write_attrs attrs (n_attrs old);
  b ← write_node pbm b l (mkRec point nbrs (n_dense old) a);
  dense ← dense_of tb pbm b t nh;
  write_node pbm b l (mkRec point nbrs dense a).

Definition link (r : rec) (id t : Z) : option (list Z) :=
  let nhood := n_nbrs r ++ [t] in
  if Nat.ltb (R pr) (length nhood) then delta_prune_neighbors metric nbr_dist nhood id t pr else Some nhood.

Definition relink (r : rec) (id t : Z) : option rec :=
  nhood ← link r id t; nbrs ← store_nbrs nhood; Some (mkRec (n_coords r) nbrs (n_dense r) (n_attrs r)).

Definition update_nbr (tb : LocTables) (pbm : gmap Z nat) (b : bufs) (t id l : Z) : option bufs :=
  loc ← id2loc tb id; r ← read_node pbm b loc; r' ← relink r id t; write_node pbm b l r'.

Fixpoint update_nbrs (tb : LocTables) (pbm : gmap Z nat) (b : bufs) (t : Z) (nh locs : list Z) : option bufs :=
  match nh, locs with
  | [], _ => Some b
  | id :: nh, l :: locs => b ← update_nbr tb pbm b t id l; update_nbrs tb pbm b t nh locs
  | _ :: _, [] => None
  end.

(** ** The tables *)

Fixpoint move_nbrs (tb : LocTables) (nh locs : list Z) : option (list Z * LocTables) :=
  match nh, locs with
  | [], _ => Some ([], tb)
  | id :: nh, l :: locs =>
      o ← id2loc tb id; tb ← set_id2loc tb id l;
      '(orig, tb) ← move_nbrs tb nh locs; Some (o :: orig, tb)
  | _ :: _, [] => None
  end.

Definition publish (tb : LocTables) (t : Z) (nh locs : list Z) : option LocTables :=
  l ← locs !! length nh;
  tb ← set_id2loc tb t l;
  '(orig, tb) ← move_nbrs tb nh locs;
  erase_and_set_loc m tb orig locs (nh ++ [t]).

(** ** insert_in_place *)

Record index_state := mkIdx {
  x_tb : LocTables; x_disk : gmap Z (list rec); x_cur_id : Z; x_tags : gmap Z Z; x_tag2id : gmap Z Z
}.

Definition update_buf_pages : nat := 2 * MAX_N_EDGES + 1.

(** [exp] and [hints] come from [do_pipe_search], [b] is the fresh buffer. *)
Definition insert_in_place (coord_dist : Z → Z → float) (enable_tag2id : bool) (s : index_state) (point : V) (tag : Z)
    (attrs : option A) (exp : list Neighbor) (hints : list Z) (b : bufs) : option (Z * index_state) :=
  let t := x_cur_id s in
  nh ← choose_nhood metric coord_dist pr (entry_point_id m) exp;
  '(locs, need, tb) ← alloc_loc m (x_tb s) (length nh + 1) hints ∅;
  let rmw := pages_to_rmw m locs in
  nreads ← nbr_reads tb nh;
  let w4k := writes_4k (length nh) rmw in
  let pbm := page_buf_map nreads w4k in
  writes ← merge_writes w4k;
  b ← exec_reads (x_disk s) b (nreads ++ filter (λ r, r.1 ∈ need) w4k);
  l ← locs !! length nh;
  b ← write_target tb pbm b t l point nh attrs;
  b ← update_nbrs tb pbm b t nh locs;
  disk ← wbc_write b (x_disk s) writes;
  tb ← publish tb t nh locs;
  Some (t, mkIdx tb disk (t + 1) (<[t := tag]> (x_tags s)) (if enable_tag2id then <[tag := t]> (x_tag2id s) else x_tag2id s)).

(** ** Merged writes cover the same pages *)

Definition byte_offsets (w4k : list (Z * nat)) : list (Z * nat) := map (λ x, (x.1 * SECTOR_LEN, x.2)) w4k.

Lemma write_pieces_S o n b :
  write_pieces (o, S n, b) = write_pieces (o, n, b) ++ [(o + Z.of_nat n * io_size m, (b + n)%nat)].
Proof. unfold write_pieces. by rewrite seq_S, map_app. Qed.

Lemma write_pieces_head pre o n b l : (pre ++ write_pieces (o, S n, b) ++ l) !! length pre = Some (o, b).
Proof.
  rewrite lookup_app_r, Nat.sub_diag by lia. unfold write_pieces. cbn. by rewrite Z.add_0_r, Nat.add_0_r.
Qed.

Lemma coalesce_pieces rest pre n o0 b0 i start cur :
  Forall (λ x, x.1 + io_size m ≠ dummy_off) rest → cur + io_size m ≠ dummy_off →
  start = length pre → i = (start + S n)%nat → cur = o0 + Z.of_nat n * io_size m →
  (∀ k x, rest !! k = Some x → x.2 = (b0 + S n + k)%nat) →
  ∃ ws, coalesce (pre ++ write_pieces (o0, S n, b0) ++ rest ++ [(dummy_off, 0%nat)]) (rest ++ [(dummy_off, 0%nat)]) i start cur = Some ws
  ∧ concat (map write_pieces ws) = write_pieces (o0, S n, b0) ++ rest.
Proof.
  revert pre n o0 b0 i start cur. induction rest as [|[o b] rest IH]; intros pre n o0 b0 i start cur Hd Hcur Hst Hi Hc Hb.
  - cbn [app coalesce]. rewrite (proj2 (Z.eqb_neq _ _)) by done.
    subst start. rewrite write_pieces_head. cbn [mbind option_bind]. eexists. split; [done|].
    cbn [map concat]. rewrite !app_nil_r. by replace (i - length pre)%nat with (S n) by lia.
  - apply Forall_cons in Hd as [Ho Hd]. cbn [app coalesce]. pose proof (Hb 0%nat (o, b) eq_refl) as Hb0. simpl in Hb0.
    destruct (Z.eqb_spec o (cur + io_size m)) as [He|Hne].
    + destruct (IH pre (S n) o0 b0 (S i) start o) as (ws & Hw & Hp); [done|done|done|lia|lia| |].
      { intros k x Hk. rewrite (Hb (S k) x Hk). lia. }
      assert (write_pieces (o0, S (S n), b0) = write_pieces (o0, S n, b0) ++ [(o, b)]) as E.
      { rewrite write_pieces_S. do 2 f_equal. f_equal; lia. }
      exists ws. rewrite E, <- !app_assoc in Hw. rewrite E, <- app_assoc in Hp. by split.
    + destruct (IH (pre ++ write_pieces (o0, S n, b0)) 0%nat o b (S i) i o) as (ws & Hw & Hp); [done|done| |lia|lia| |].
      { rewrite length_app. unfold write_pieces. rewrite length_map, length_seq. lia. }
      { intros k x Hk. rewrite (Hb (S k) x Hk). lia. }
      assert (write_pieces (o, 1%nat, b) = [(o, b)]) as E by (cbn; by rewrite Z.add_0_r, Nat.add_0_r).
      rewrite E, <- !app_assoc in Hw. rewrite E in Hp. cbn [app] in Hw.
      subst start. rewrite Hw, write_pieces_head. cbn [mbind option_bind]. eexists. split; [done|].
      cbn [map concat]. rewrite Hp. by replace (i - length pre)%nat with (S n) by lia.
Qed.

Lemma merge_writes_pieces n rmw :
  rmw ≠ [] → Forall (λ p, p * SECTOR_LEN + io_size m ≠ dummy_off) rmw →
  ∃ ws, merge_writes (writes_4k n rmw) = Some ws ∧ concat (map write_pieces ws) = byte_offsets (writes_4k n rmw).
Proof.
  intros Hne Hd. destruct rmw as [|p rmw]; [done|]. apply Forall_cons in Hd as [Hp Hd].
  unfold merge_writes, writes_4k, byte_offsets. cbn [imap map app fst snd].
  set (rest := map _ (imap _ rmw)).
  destruct (coalesce_pieces rest [] 0 (p * SECTOR_LEN) (n + 0) 1 0 (p * SECTOR_LEN)) as (ws & Hw & Hc); [| | | | | |].
  - unfold rest. apply Forall_forall. intros x ([y i] & -> & Hy)%list_elem_of_fmap. simpl.
    apply elem_of_lookup_imap in Hy as (k & q & [= -> ->] & Hq). rewrite Forall_forall in Hd. apply Hd. by eapply list_elem_of_lookup_2.
  - done.
  - done.
  - done.
  - lia.
  - intros k x Hk. unfold rest in Hk. change (map ?f ?l) with (f <$> l) in Hk.
    rewrite list_lookup_fmap, list_lookup_imap in Hk. destruct (rmw !! k); simplify_eq/=. lia.
  - exists ws. cbn in Hw, Hc. change (Z.of_nat 0) with 0 in *. rewrite Z.mul_0_l, Z.add_0_r, (Nat.add_0_r (n + 0)) in Hw, Hc. by split.
Qed.

(** ** Buffers *)

Local Abbreviation npg := (nodes_per_io m).

Definition bufs_ok (b : bufs) : Prop := length b = update_buf_pages ∧ Forall (λ pg, length pg = Z.to_nat npg) b.
Definition disk_ok (d : gmap Z (list rec)) : Prop := ∀ p pg, d !! p = Some pg → length pg = Z.to_nat npg.

Lemma bufs_ok_insert b i pg : bufs_ok b → length pg = Z.to_nat npg → bufs_ok (<[i := pg]> b).
Proof. intros [Hl Hf] Hpg. split; [by rewrite length_insert|]. by apply Forall_insert. Qed.

Lemma exec_reads_spec d b rs :
  disk_ok d → bufs_ok b → NoDup rs.*2 → Forall (λ r, r.2 < update_buf_pages)%nat rs →
  ∃ b', exec_reads d b rs = Some b' ∧ bufs_ok b'
  ∧ (∀ p i pg, (p, i) ∈ rs → d !! p = Some pg → b' !! i = Some pg)
  ∧ (∀ i, i ∉ rs.*2 → b' !! i = b !! i).
Proof.
  intros Hd. revert b. induction rs as [|[p i] rs IH]; intros b Hb Hnd Hlt.
  { exists b. split_and!; [done|done| |done]. by intros ? ? ? ?%elem_of_nil. }
  apply NoDup_cons in Hnd as [Hi Hnd]. apply Forall_cons in Hlt as [Hil Hlt]. simpl in Hil, Hi.
  assert (∃ b1, exec_read d b (p, i) = Some b1 ∧ bufs_ok b1 ∧ (∀ pg, d !! p = Some pg → b1 !! i = Some pg)
            ∧ ∀ j, j ≠ i → b1 !! j = b !! j) as (b1 & E & Hb1 & Hp & Hrest).
  { unfold exec_read. simpl. destruct Hb as [Hl Hf]. destruct (d !! p) as [pg|] eqn:Hdp.
    - rewrite vset_Some by lia. eexists. split_and!; [done| | |].
      + apply bufs_ok_insert; [done|]. by eapply Hd.
      + intros pg' [= <-]. apply list_lookup_insert_eq. lia.
      + intros j Hj. by apply list_lookup_insert_ne.
    - rewrite (proj2 (Nat.ltb_lt _ _)) by lia. by exists b. }
  destruct (IH b1 Hb1 Hnd Hlt) as (b' & E' & Hb' & Hin & Hout). exists b'. simpl. rewrite E. split_and!; [done|done| |].
  - intros p' i' pg [[= -> ->]|Hin']%elem_of_cons Hpg; [|by eapply Hin]. rewrite Hout by done. by apply Hp.
  - intros j Hj. apply not_elem_of_cons in Hj as [Hj1 Hj2]. rewrite Hout, Hrest; done.
Qed.

(** A buffer holds one page. *)
Definition pbm_ok (pbm : gmap Z nat) : Prop :=
  (∀ p i, pbm !! p = Some i → (i < update_buf_pages)%nat) ∧ ∀ p q i, pbm !! p = Some i → pbm !! q = Some i → p = q.

Section with_placement.
Context (Hm : placement_ok m) (Hnz : nnodes_per_sector m ≠ 0).

(** Attributes within their space in the record. *)
Definition attrs_fit (attrs : option A) : Prop := ∀ a, attrs = Some a → 0 < attr_size m → serialized_size a <= attr_size m.

Lemma write_attrs_spec attrs old :
  attrs_fit attrs → ∃ a, write_attrs attrs old = Some a ∧ ∀ x, attrs = Some x → 0 < attr_size m → a = x.
Proof.
  intros Hfit. destruct attrs as [x|]; simpl; [|by exists old].
  destruct (Z.ltb_spec 0 (attr_size m)) as [Hp|Hp].
  - specialize (Hfit x eq_refl Hp). rewrite (proj2 (Z.ltb_ge _ _)) by done. exists x. split; [done|]. by intros ? [= ->].
  - exists old. split; [done|]. lia.
Qed.

Lemma in_buffer_true l : in_buffer l = true.
Proof.
  unfold in_buffer. apply Z.leb_le. destruct Hm as [[? _] ? Hfit]. unfold io_size, nodes_per_io in *.
  destruct (Z.ltb_spec 0 (nnodes_per_sector m)) as [Hn|Hn]; [|rewrite Z.mod_1_r; lia].
  pose proof (Z.mod_pos_bound l (nnodes_per_sector m) Hn). rewrite u64_small by (unfold is_u64, SECTOR_LEN; lia). nia.
Qed.

Lemma off_lt l : (off l < Z.to_nat npg)%nat.
Proof. unfold off. pose proof (Z.mod_pos_bound l npg (npg_pos m Hm)). lia. Qed.

Lemma sector_off_inj l l' :
  is_u32 l → is_u32 l' → loc_sector_no m l = loc_sector_no m l' → off l = off l' → l = l'.
Proof.
  intros Hl Hl' Hs Ho. apply sector_eq_iff in Hs; [|done..]. pose proof (npg_pos m Hm) as Hp. unfold off in Ho.
  pose proof (Z.mod_pos_bound l npg Hp). pose proof (Z.mod_pos_bound l' npg Hp).
  rewrite (Z.div_mod l npg), (Z.div_mod l' npg), Hs by lia. f_equal. lia.
Qed.

Lemma write_node_spec pbm b l r :
  pbm_ok pbm → bufs_ok b → is_u32 l → is_Some (pbm !! loc_sector_no m l) →
  ∃ b', write_node pbm b l r = Some b' ∧ bufs_ok b' ∧ read_node pbm b' l = Some r
  ∧ ∀ l', is_u32 l' → l' ≠ l → read_node pbm b' l' = read_node pbm b l'.
Proof.
  intros [Hlt Hinj] Hb Hl [i Hi]. pose proof (Hlt _ _ Hi) as Hib. destruct Hb as [Hlen Hf].
  destruct (lookup_lt_is_Some_2 b i) as [pg Hpg]; [lia|]. unfold write_node. rewrite Hi. simpl. rewrite Hpg. simpl.
  rewrite Forall_lookup in Hf. pose proof (Hf i pg Hpg) as Hpl. pose proof (off_lt l) as Hol.
  rewrite in_buffer_true, vset_Some by lia. simpl. rewrite vset_Some by lia. eexists. split_and!; [done| | |].
  - apply bufs_ok_insert; [by split; [|apply Forall_lookup]|]. by rewrite length_insert.
  - unfold read_node. rewrite Hi. simpl. rewrite list_lookup_insert_eq by lia. simpl. apply list_lookup_insert_eq. lia.
  - intros l' Hl' Hne. unfold read_node. destruct (pbm !! loc_sector_no m l') as [j|] eqn:Hj; simpl; [|done].
    destruct (decide (j = i)) as [->|Hji]; [|by rewrite list_lookup_insert_ne by done].
    rewrite list_lookup_insert_eq, Hpg by lia. simpl. apply list_lookup_insert_ne. intros Ho.
    apply Hne. apply sector_off_inj; [done|done|by eapply Hinj|done].
Qed.

Lemma read_node_Some pbm b l : pbm_ok pbm → bufs_ok b → is_Some (pbm !! loc_sector_no m l) → is_Some (read_node pbm b l).
Proof.
  intros [Hlt _] [Hlen Hf] [i Hi]. unfold read_node. rewrite Hi. simpl.
  destruct (lookup_lt_is_Some_2 b i) as [pg Hpg]; [pose proof (Hlt _ _ Hi); lia|]. rewrite Hpg. simpl.
  apply lookup_lt_is_Some. rewrite Forall_lookup in Hf. rewrite (Hf i pg Hpg). apply off_lt.
Qed.

(** ** The pages in the buffers *)

Lemma foldl_insert_lookup (l : list (Z * nat)) (mp : gmap Z nat) p :
  (∃ i, (p, i) ∈ l ∧ foldl (λ mp r, <[r.1 := r.2]> mp) mp l !! p = Some i)
  ∨ (p ∉ l.*1 ∧ foldl (λ mp r, <[r.1 := r.2]> mp) mp l !! p = mp !! p).
Proof.
  revert mp. induction l as [|[q i] l IH]; intros mp; csimpl; [right; split; [apply not_elem_of_nil|done]|].
  destruct (IH (<[q := i]> mp)) as [(j & Hj & E)|[Hp E]]; [left; exists j; split; [by right|done]|].
  destruct (decide (p = q)) as [->|Hne].
  - left. exists i. split; [by left|]. by rewrite E, lookup_insert_eq.
  - right. rewrite not_elem_of_cons. split; [done|]. by rewrite E, lookup_insert_ne.
Qed.

Definition nlocs_reads (nlocs : list Z) : list (Z * nat) := imap (λ i loc, (loc_sector_no m loc, i)) nlocs.

Lemma elem_of_nlocs_reads p i nlocs : (p, i) ∈ nlocs_reads nlocs ↔ ∃ loc, nlocs !! i = Some loc ∧ p = loc_sector_no m loc.
Proof.
  unfold nlocs_reads. rewrite elem_of_lookup_imap. split.
  - intros (k & loc & [= -> ->] & Hk). by exists loc.
  - intros (loc & Hi & ->). by exists i, loc.
Qed.

Lemma elem_of_writes_4k p i n rmw : (p, i) ∈ writes_4k n rmw ↔ ∃ k, i = (n + k)%nat ∧ rmw !! k = Some p.
Proof.
  unfold writes_4k. rewrite elem_of_lookup_imap. split.
  - intros (k & q & [= -> ->] & Hk). by exists k.
  - intros (k & -> & Hk). by exists k, p.
Qed.

Lemma writes_4k_pages n rmw : (writes_4k n rmw).*1 = rmw.
Proof. unfold writes_4k. rewrite fmap_imap. apply list_eq. intros i. rewrite list_lookup_imap. simpl. by destruct (rmw !! i). Qed.

Section plan.
Context (nlocs rmw : list Z) (need : gset Z) (Hrmw : NoDup rmw).
Context (Hsize : (length nlocs + length rmw ≤ update_buf_pages)%nat).

Local Abbreviation pbm := (page_buf_map (nlocs_reads nlocs) (writes_4k (length nlocs) rmw)).

Definition reads : list (Z * nat) := nlocs_reads nlocs ++ filter (λ r, r.1 ∈ need) (writes_4k (length nlocs) rmw).

Lemma pbm_lookup p :
  (∃ k, rmw !! k = Some p ∧ pbm !! p = Some (length nlocs + k)%nat)
  ∨ (p ∉ rmw ∧ ((∃ i loc, nlocs !! i = Some loc ∧ p = loc_sector_no m loc ∧ pbm !! p = Some i)
                ∨ pbm !! p = None ∧ ∀ loc, loc ∈ nlocs → loc_sector_no m loc ≠ p)).
Proof.
  unfold page_buf_map.
  destruct (foldl_insert_lookup (writes_4k (length nlocs) rmw) (foldl (λ mp r, <[r.1 := r.2]> mp) ∅ (nlocs_reads nlocs)) p)
    as [(i & (k & -> & Hk)%elem_of_writes_4k & E)|[Hp E]]; [left; by exists k|].
  rewrite writes_4k_pages in Hp. right. split; [done|]. rewrite E.
  destruct (foldl_insert_lookup (nlocs_reads nlocs) ∅ p) as [(i & (loc & Hi & ->)%elem_of_nlocs_reads & E')|[Hp' E']].
  - left. by exists i, loc.
  - right. split; [by rewrite E'|]. intros loc [i Hi]%list_elem_of_lookup Heq. apply Hp'.
    apply list_elem_of_fmap. exists (p, i). split; [done|]. apply elem_of_nlocs_reads. by exists loc.
Qed.

Lemma pbm_covers p : p ∈ rmw ∨ (∃ loc, loc ∈ nlocs ∧ p = loc_sector_no m loc) → is_Some (pbm !! p).
Proof.
  intros H. destruct (pbm_lookup p) as [(k & _ & E)|[Hp [(i & loc & _ & _ & E)|[_ Hn]]]]; [by eexists|by eexists|].
  destruct H as [|(loc & Hl & ->)]; [done|]. by destruct (Hn loc Hl).
Qed.

Lemma pbm_is_ok : pbm_ok pbm.
Proof.
  split.
  - intros p i Hi. destruct (pbm_lookup p) as [(k & Hk & E)|[_ [(j & loc & Hj & _ & E)|[E _]]]]; simplify_eq/=.
    + apply lookup_lt_Some in Hk. lia.
    + apply lookup_lt_Some in Hj. lia.
  - intros p q i Hp Hq. destruct (pbm_lookup p) as [(k & Hk & E)|[_ [(j & loc & Hj & -> & E)|[E _]]]];
      destruct (pbm_lookup q) as [(k' & Hk' & E')|[_ [(j' & loc' & Hj' & -> & E')|[E' _]]]];
      rewrite ?Hp in E; rewrite ?Hq in E'; simplify_eq/=; try done.
    + assert (k = k') as -> by lia. congruence.
    + apply lookup_lt_Some in Hj'. lia.
    + apply lookup_lt_Some in Hj. lia.
Qed.

Lemma reads_ok : NoDup reads.*2 ∧ Forall (λ r, r.2 < update_buf_pages)%nat reads.
Proof.
  unfold reads. split.
  - rewrite fmap_app. apply NoDup_app. split_and!.
    + unfold nlocs_reads. rewrite fmap_imap. apply NoDup_alt. intros i j x Hi Hj.
      rewrite list_lookup_imap in Hi, Hj. destruct (nlocs !! i), (nlocs !! j); simplify_eq/=. congruence.
    + intros i ([p j] & -> & (loc & Hj & ->)%elem_of_nlocs_reads)%list_elem_of_fmap
        ([q j'] & ? & [_ (k & -> & Hk)%elem_of_writes_4k]%list_elem_of_filter)%list_elem_of_fmap. simplify_eq/=.
      apply lookup_lt_Some in Hj. lia.
    + eapply sublist_NoDup; [|apply fmap_sublist, sublist_filter]. unfold writes_4k. rewrite fmap_imap.
      apply NoDup_alt. intros i j x Hi Hj. rewrite list_lookup_imap in Hi, Hj.
      destruct (rmw !! i), (rmw !! j); simplify_eq/=. lia.
  - apply Forall_app. split; apply Forall_forall; intros [p i].
    + intros (loc & Hi & ->)%elem_of_nlocs_reads. apply lookup_lt_Some in Hi. simpl. lia.
    + intros [_ (k & -> & Hk)%elem_of_writes_4k]%list_elem_of_filter. apply lookup_lt_Some in Hk. simpl. lia.
Qed.

(** After the reads, a page on disk is seen through the map when the page is a
    neighbour's or is rewritten after being read. *)
Lemma read_back d b :
  disk_ok d → bufs_ok b →
  ∃ b', exec_reads d b reads = Some b' ∧ bufs_ok b'
  ∧ ∀ l pg, d !! loc_sector_no m l = Some pg → (loc_sector_no m l ∈ rmw → loc_sector_no m l ∈ need) →
      is_Some (pbm !! loc_sector_no m l) → read_node pbm b' l = pg !! off l.
Proof.
  intros Hd Hb. destruct reads_ok as [Hnd Hlt]. destruct (exec_reads_spec d b reads Hd Hb Hnd Hlt) as (b' & E & Hb' & Hin & _).
  exists b'. split_and!; [done|done|]. intros l pg Hpg Hneed Hsome. unfold read_node.
  destruct (pbm_lookup (loc_sector_no m l)) as [(k & Hk & Ek)|[_ [(i & loc & Hi & He & Ei)|[En _]]]].
  - rewrite Ek. simpl. erewrite Hin; [done| |exact Hpg]. apply elem_of_app. right. apply list_elem_of_filter.
    split; [apply Hneed; by eapply list_elem_of_lookup_2|]. apply elem_of_writes_4k. by exists k.
  - rewrite Ei. simpl. erewrite Hin; [done| |exact Hpg]. apply elem_of_app. left. apply elem_of_nlocs_reads. by exists loc.
  - by destruct Hsome; congruence.
Qed.

(** ** The pages written *)

Definition disk_rec (d : gmap Z (list rec)) (l : Z) : option rec := pg ← d !! loc_sector_no m l; pg !! off l.

Lemma exec_pieces_spec b ws d :
  bufs_ok b → Forall (λ w, w.2 < update_buf_pages)%nat ws → NoDup ws.*1 → disk_ok d →
  ∃ d', exec_pieces b d (byte_offsets ws) = Some d' ∧ disk_ok d'
  ∧ (∀ p i, (p, i) ∈ ws → d' !! p = b !! i) ∧ (∀ p, p ∉ ws.*1 → d' !! p = d !! p).
Proof.
  intros [Hl Hf]. revert d. induction ws as [|[p i] ws IH]; intros d Hlt Hnd Hd.
  { exists d. split_and!; [done|done| |done]. by intros ? ? ?%elem_of_nil. }
  apply Forall_cons in Hlt as [Hi Hlt]. apply NoDup_cons in Hnd as [Hp Hnd]. simpl in Hi, Hp.
  destruct (lookup_lt_is_Some_2 b i) as [pg Hpg]; [lia|].
  destruct (IH (<[p := pg]> d)) as (d' & E & Hd' & Hin & Hout); [done|done| |].
  { intros q pg' [[_ <-]|[_ Hq]]%lookup_insert_Some; [|by eapply Hd]. rewrite Forall_lookup in Hf. by eapply Hf. }
  exists d'. cbn [byte_offsets map exec_pieces fst snd]. unfold exec_piece. cbn [fst snd]. rewrite Hpg. cbn [mbind option_bind].
  rewrite Z.div_mul by done. split_and!; [done|done| |].
  - intros q j [[= -> ->]|Hq]%elem_of_cons; [|by apply Hin]. by rewrite Hout, lookup_insert_eq, Hpg by done.
  - intros q Hq. apply not_elem_of_cons in Hq as [Hq1 Hq2]. by rewrite Hout, lookup_insert_ne by done.
Qed.

Lemma write_back d b :
  rmw ≠ [] → Forall (λ p, p * SECTOR_LEN + io_size m ≠ dummy_off) rmw → disk_ok d → bufs_ok b →
  ∃ ws d', merge_writes (writes_4k (length nlocs) rmw) = Some ws ∧ wbc_write b d ws = Some d' ∧ disk_ok d'
  ∧ ∀ l, disk_rec d' l = if bool_decide (loc_sector_no m l ∈ rmw) then read_node pbm b l else disk_rec d l.
Proof.
  intros Hne Hdm Hd Hb. destruct (merge_writes_pieces (length nlocs) rmw Hne Hdm) as (ws & Ews & Ep).
  destruct (exec_pieces_spec b (writes_4k (length nlocs) rmw) d) as (d' & E & Hd' & Hin & Hout); [done| | |done|].
  { apply Forall_forall. intros [p i] (k & -> & Hk)%elem_of_writes_4k. apply lookup_lt_Some in Hk. simpl. lia. }
  { by rewrite writes_4k_pages. }
  exists ws, d'. unfold wbc_write. rewrite Ep. split_and!; [done..|]. intros l. unfold disk_rec. case_bool_decide as Hl.
  - destruct (pbm_lookup (loc_sector_no m l)) as [(k & Hk & Ek)|[Hn _]]; [|done]. unfold read_node. rewrite Ek. simpl.
    erewrite Hin; [done|]. apply elem_of_writes_4k. by exists k.
  - by rewrite Hout by (by rewrite writes_4k_pages).
Qed.
End plan.

(** ** The records written *)

Section records.
Context (pbm : gmap Z nat) (Hpbm : pbm_ok pbm) (tb : LocTables) (t : Z).

Local Abbreviation view := (read_node pbm).
Local Abbreviation covered l := (is_u32 l ∧ is_Some (pbm !! loc_sector_no m l)).

Lemma update_nbrs_spec nh locs b :
  bufs_ok b → (length nh ≤ length locs)%nat → NoDup locs → (∀ l, l ∈ locs → covered l) →
  (∀ id, id ∈ nh → ∃ loc r r', id2loc tb id = Some loc ∧ is_u32 loc ∧ loc ∉ locs ∧ view b loc = Some r ∧ relink r id t = Some r') →
  ∃ b', update_nbrs tb pbm b t nh locs = Some b' ∧ bufs_ok b'
  ∧ (∀ i id l, nh !! i = Some id → locs !! i = Some l → ∃ loc r, id2loc tb id = Some loc ∧ view b loc = Some r ∧ view b' l = relink r id t)
  ∧ (∀ l, is_u32 l → l ∉ take (length nh) locs → view b' l = view b l).
Proof.
  revert locs b. induction nh as [|id nh IH]; intros locs b Hb Hlen Hnd Hcov Hnh.
  { exists b. by split_and!. }
  destruct locs as [|l locs]; [simpl in Hlen; lia|]. apply NoDup_cons in Hnd as [Hl Hnd].
  destruct (Hnh id) as (loc & r & r' & Eloc & Hu & Hnot & Er & Er'); [by left|].
  destruct (Hcov l) as [Hlu Hlc]; [by left|].
  destruct (write_node_spec pbm b l r' Hpbm Hb Hlu Hlc) as (b1 & E1 & Hb1 & Hv & Hvo).
  destruct (IH locs b1) as (b' & E & Hb' & Hin & Hout); [done|simpl in Hlen; lia|done|by intros k Hk; apply Hcov; right| |].
  { intros id' Hid'. destruct (Hnh id') as (loc' & q & q' & ? & ? & Hn' & Eq & ?); [by right|].
    apply not_elem_of_cons in Hn' as [Hn1 Hn2]. exists loc', q, q'. split_and!; [done..| |done]. by rewrite Hvo. }
  exists b'. simpl. unfold update_nbr. rewrite Eloc. simpl. rewrite Er. simpl. rewrite Er'. simpl. rewrite E1. simpl.
  split_and!; [done|done| |].
  - intros [|i] id' l' Hi Hl'; simplify_eq/=.
    + exists loc, r. split_and!; [done|done|]. rewrite Hout; [by rewrite Hv, Er'|done|].
      intros Ht. apply Hl. rewrite elem_of_take in Ht. destruct Ht as (? & ? & _). by eapply list_elem_of_lookup_2.
    + destruct (Hin i id' l' Hi Hl') as (loc' & q & Eq & Ev & Ev'). exists loc', q. split_and!; [done| |done].
      destruct (Hnh id') as (k & _ & _ & Ek & Hku & Hkn & _); [right; by eapply list_elem_of_lookup_2|].
      rewrite Eq in Ek. injection Ek as <-. apply not_elem_of_cons in Hkn as [Hk1 Hk2]. by rewrite <- Hvo.
  - intros k Hk Hkt. simpl in Hkt. apply not_elem_of_cons in Hkt as [Hk1 Hk2]. by rewrite Hout, Hvo.
Qed.

(** The dense neighbours of the new node in a graph [g]. *)
Definition two_hop_of (g : Z → option rec) (nh : list Z) : list Z :=
  if Nat.ltb 0 max_dense then
    sample_two_hop_nbrs shuffle (λ id, if id =? t then nh else default [] (n_nbrs <$> g id)) t max_dense
  else [].

Lemma two_hop_ext (f g : Z → list Z) c : (∀ x, x = c ∨ x ∈ f c → f x = g x) → two_hop_candidates f c = two_hop_candidates g c.
Proof.
  intros H. unfold two_hop_candidates. rewrite <- (H c) by (by left). f_equal.
  assert (∀ l st, (∀ x, x ∈ l → x ∈ f c) →
            foldl (λ st n, foldl visit st (f n)) st l = foldl (λ st n, foldl visit st (g n)) st l) as Hf.
  { induction l as [|a l IH]; intros st Hl; simpl; [done|]. rewrite (H a) by (right; apply Hl; by left).
    apply IH. intros x Hx. apply Hl. by right. }
  by apply Hf.
Qed.

Lemma sample_ext (f g : Z → list Z) c k :
  (∀ x, x = c ∨ x ∈ f c → f x = g x) → sample_two_hop_nbrs shuffle f c k = sample_two_hop_nbrs shuffle g c k.
Proof. intros H. unfold sample_two_hop_nbrs. by rewrite (two_hop_ext f g c H). Qed.

Lemma write_target_spec b l point nh attrs g :
  attrs_fit attrs → bufs_ok b → covered l → Z.of_nat (length nh) <= range m → t ∉ nh →
  (∀ id, id ∈ nh → ∃ loc r, id2loc tb id = Some loc ∧ is_u32 loc ∧ loc ≠ l ∧ view b loc = Some r ∧ g id = Some r) →
  ∃ b' a, write_target tb pbm b t l point nh attrs = Some b' ∧ bufs_ok b'
  ∧ view b' l = Some (mkRec point nh (two_hop_of g nh) a)
  ∧ (∀ x, attrs = Some x → 0 < attr_size m → a = x)
  ∧ (∀ l', is_u32 l' → l' ≠ l → view b' l' = view b l').
Proof.
  intros Hfit Hb [Hu Hc] Hlen Ht Hnh. destruct (read_node_Some pbm b l Hpbm Hb Hc) as [old Eold].
  destruct (write_attrs_spec attrs (n_attrs old) Hfit) as (a & Ea & Ha).
  destruct (write_node_spec pbm b l (mkRec point nh (n_dense old) a) Hpbm Hb Hu Hc) as (b1 & E1 & Hb1 & Hv1 & Ho1).
  assert (dense_of tb pbm b1 t nh = Some (two_hop_of g nh)) as Ed.
  { unfold dense_of, two_hop_of. destruct (Nat.ltb 0 max_dense); [|done].
    set (gn := λ id, if id =? t then Some nh else _).
    assert (∀ id, id ∈ nh → gn id = n_nbrs <$> g id ∧ is_Some (g id)) as Hgn.
    { intros id Hid. destruct (Hnh id Hid) as (loc & r & El & Hlu & Hne & Er & Eg). unfold gn.
      destruct (Z.eqb_spec id t) as [->|]; [done|]. rewrite El. simpl. rewrite Ho1, Er, Eg by done. by split. }
    assert (is_Some (mapM gn nh)) as [x ->].
    { apply mapM_is_Some_2, Forall_forall. intros id Hid. change (is_Some (gn id)). destruct (Hgn id Hid) as [-> [r ->]]. by eexists. }
    cbn [mbind option_bind]. f_equal. assert (gn t = Some nh) as Egt by (unfold gn; by rewrite Z.eqb_refl).
    apply (sample_ext (λ id, default [] (gn id))). rewrite Egt. intros id [->|Hid].
    - by rewrite Egt, Z.eqb_refl.
    - change (default [] (gn id) = if id =? t then nh else default [] (n_nbrs <$> g id)).
      destruct (Hgn id Hid) as [-> _]. destruct (Z.eqb_spec id t) as [->|]; done. }
  destruct (write_node_spec pbm b1 l (mkRec point nh (two_hop_of g nh) a) Hpbm Hb1 Hu Hc) as (b2 & E2 & Hb2 & Hv2 & Ho2).
  exists b2, a. unfold write_target. rewrite Eold. cbn [mbind option_bind]. unfold store_nbrs.
  rewrite (proj2 (Z.leb_le _ _)) by done. cbn [mbind option_bind]. rewrite Ea. cbn [mbind option_bind]. rewrite E1. cbn [mbind option_bind]. rewrite Ed.
  cbn [mbind option_bind]. split_and!; [done|done|done|done|].
  intros l' Hl' Hne. by rewrite Ho2, Ho1.
Qed.
End records.

(** ** The neighbours chosen *)

Lemma swap_with_back (l1 l2 : list Z) e b :
  last (l1 ++ e :: l2) = Some b → take (length (l1 ++ e :: l2) - 1) (<[length l1 := b]> (l1 ++ e :: l2)) ≡ₚ l1 ++ l2.
Proof.
  intros Hb. rewrite insert_app_r_alt, Nat.sub_diag by lia. cbn [insert list_insert]. rewrite length_app. cbn [length].
  destruct l2 as [|c l3 _] using rev_ind.
  - rewrite take_app_length' by (simpl; lia). by rewrite app_nil_r.
  - rewrite app_comm_cons, app_assoc, last_snoc in Hb. injection Hb as ->. rewrite length_app. cbn [length].
    replace (l1 ++ b :: l3 ++ [b]) with ((l1 ++ b :: l3) ++ [b]) by (by rewrite <- app_assoc).
    rewrite take_app_length' by (rewrite length_app; simpl; lia). rewrite <- (Permutation_middle l1 l3 b).
    by rewrite (Permutation_app_comm l3 [b]), <- (Permutation_middle l1 l3 b).
Qed.

Lemma drop_entry_point_spec r entry nh :
  NoDup nh →
  let nh' := drop_entry_point r entry nh in
  NoDup nh' ∧ nh' ⊆ nh ∧ (length nh' ≤ length nh)%nat ∧ ∀ i, nh' !! i = Some entry → (i < Nat.div r 4)%nat.
Proof.
  intros Hnd. unfold drop_entry_point. destruct (list_find _ nh) as [[i e]|] eqn:Hf.
  - apply list_find_Some in Hf as (Hi & -> & _). destruct (last nh) as [b|] eqn:Hb; [|by apply last_None in Hb as ->].
    destruct (Nat.leb_spec (Nat.div r 4) i) as [Hle|Hlt].
    + assert (∃ l1 l2, nh = l1 ++ entry :: l2 ∧ i = length l1) as (l1 & l2 & -> & ->).
      { exists (take i nh), (drop (S i) nh). rewrite take_drop_middle by done. split; [done|].
        rewrite length_take. apply lookup_lt_Some in Hi. lia. }
      pose proof (swap_with_back l1 l2 entry b Hb) as Hp.
      apply NoDup_app in Hnd as (H1 & H2 & H3). apply NoDup_cons in H3 as [H3 H4]. split_and!.
      * rewrite Hp. apply NoDup_app. split_and!; [done| |done]. intros x Hx Hx2. apply (H2 x Hx). by right.
      * intros x Hx. rewrite Hp in Hx. apply elem_of_app in Hx as [?|?]; apply elem_of_app; [by left|right; by right].
      * rewrite Hp, !length_app. simpl. lia.
      * intros j Hj. apply list_elem_of_lookup_2 in Hj. rewrite Hp in Hj. apply elem_of_app in Hj as [Hj|Hj]; [|done].
        destruct (H2 _ Hj). by left.
    + split_and!; [done|done|done|]. intros j Hj. by rewrite (NoDup_lookup nh j i entry).
  - assert (∀ i, nh !! i ≠ Some entry) as Hn.
    { intros i Hi. apply list_find_None in Hf. rewrite Forall_lookup in Hf. by eapply Hf. }
    split_and!; [by destruct (last nh)|by destruct (last nh)|by destruct (last nh)|].
    intros i Hi. by destruct (Hn i).
Qed.

Lemma keep_R_spec r nh : ∃ k, keep_R r nh = take k nh ∧ ((length nh ≤ S r)%nat → (length (keep_R r nh) ≤ r)%nat).
Proof.
  unfold keep_R. destruct (Nat.ltb_spec r (length nh)).
  - eexists. split; [done|]. rewrite length_take. lia.
  - exists (length nh). rewrite take_ge by lia. split; [done|lia].
Qed.

Lemma choose_nhood_spec coord_dist entry exp :
  Forall ok exp → NoDup (map id exp) → alpha pr ≠ f_infinity →
  ∃ nh, choose_nhood metric coord_dist pr entry exp = Some nh ∧ NoDup nh ∧ nh ⊆ map id exp ∧ (length nh ≤ R pr)%nat
  ∧ ∀ i, nh !! i = Some entry → (i < Nat.div (R pr) 4)%nat.
Proof.
  intros Hok Hnd Hinf.
  assert (∃ pool nh, prune_neighbors metric coord_dist exp [] (one_more pr) = Some (pool, nh) ∧ NoDup nh ∧ nh ⊆ map id exp
            ∧ (length nh ≤ S (R pr))%nat) as (pool & nh & E & Hn & Hsub & Hlen).
  { destruct (decide (exp = [])) as [->|Hne].
    - exists [], []. split_and!; [done|constructor|done|simpl; lia].
    - destruct (prune_neighbors_pruned metric coord_dist exp [] (one_more pr)) as (out & E & [P1 P2 P3 _ _ _]); [done..|].
      exists (candidates (one_more pr) exp), out. split_and!; [done|done| |simpl in P3; lia].
      intros x Hx. apply P2 in Hx. apply list_elem_of_fmap in Hx as (n & -> & Hn). apply list_elem_of_fmap. exists n. split; [done|].
      unfold candidates in Hn. apply elem_of_take in Hn as (i & Hi & _). apply list_elem_of_lookup_2 in Hi. by rewrite std_sort_Permutation in Hi. }
  unfold choose_nhood. rewrite E. cbn [mbind option_bind]. eexists. split; [done|].
  destruct (drop_entry_point_spec (R pr) entry nh Hn) as (D1 & D2 & D3 & D4).
  destruct (keep_R_spec (R pr) (drop_entry_point (R pr) entry nh)) as (k & Ek & Hk). split_and!.
  - rewrite Ek. eapply sublist_NoDup; [exact D1|apply sublist_take].
  - rewrite Ek. intros x Hx. apply Hsub, D2. apply elem_of_take in Hx as (i & Hi & _). by eapply list_elem_of_lookup_2.
  - apply Hk. lia.
  - intros i Hi. rewrite Ek in Hi. apply lookup_take_Some in Hi as [Hi _]. by apply D4.
Qed.

(** ** The tables *)

Definition homes (tb : LocTables) (nh olds : list Z) : Prop :=
  Forall2 (λ id o, 0 <= id ∧ slot (id2loc_ tb) id = Some o) nh olds.

Lemma homes_keep tb tb' nh olds :
  homes tb nh olds → (∀ k x, 0 <= k → k ∈ nh → slot (id2loc_ tb) k = Some x → slot (id2loc_ tb') k = Some x) →
  homes tb' nh olds.
Proof.
  intros [Hl Hf]%Forall2_same_length_lookup Hk. apply Forall2_same_length_lookup. split; [done|].
  intros i x y Hx Hy. destruct (Hf i x y Hx Hy) as [Hx0 Hxy]. split; [done|]. apply Hk; [done| |done].
  by eapply list_elem_of_lookup_2.
Qed.

Lemma move_nbrs_spec tb nh locs olds :
  NoDup nh → (length nh ≤ length locs)%nat → homes tb nh olds →
  ∃ tb', move_nbrs tb nh locs = Some (olds, tb')
  ∧ (∀ i id l, nh !! i = Some id → locs !! i = Some l → slot (id2loc_ tb') id = Some l)
  ∧ (∀ k x, 0 <= k → k ∉ nh → slot (id2loc_ tb) k = Some x → slot (id2loc_ tb') k = Some x)
  ∧ loc2id_ tb' = loc2id_ tb ∧ cur_loc tb' = cur_loc tb ∧ empty_pages tb' = empty_pages tb.
Proof.
  revert tb locs olds. induction nh as [|id nh IH]; intros tb locs olds Hnd Hlen Hf.
  { apply Forall2_nil_inv_l in Hf as ->. exists tb. by split_and!. }
  destruct locs as [|l locs]; [simpl in Hlen; lia|]. apply NoDup_cons in Hnd as [Hid Hnd].
  destruct olds as [|o olds]; [by apply Forall2_nil_inv_r in Hf|]. apply Forall2_cons in Hf as [[Hpos Ho] Hf].
  simpl. rewrite (slot_id2loc tb id o Hpos Ho). simpl.
  destruct (set_id2loc_spec tb id l Hpos) as (tb1 & E1 & Hs1 & _ & Hk1 & HA & HB & HC); [left; apply slot_lt in Ho; lia|].
  rewrite E1. simpl. destruct (IH tb1 locs olds) as (tb' & E & Hn & Hk & HA' & HB' & HC'); [done|simpl in Hlen; lia| |].
  { eapply homes_keep; [exact Hf|]. intros k x Hk0 Hkin. apply Hk1; [done|]. by intros ->. }
  rewrite E. simpl. exists tb'. split_and!; [done| | |congruence..].
  - intros [|i] id' l' Hi Hl; simplify_eq/=; [|by eapply Hn]. by apply Hk.
  - intros k x Hk0 Hkn Hx. apply not_elem_of_cons in Hkn as [? ?]. apply Hk; [done|done|]. by apply Hk1.
Qed.

Lemma publish_spec tb t nh locs olds :
  tables_ok m tb → 2 <= t → t ≠ kInvalidID → t ∉ nh → NoDup nh → length locs = (length nh + 1)%nat → NoDup locs → NoDup olds →
  Forall (λ id, id ≠ kInvalidID) nh →
  (∀ l, l ∈ locs → 0 <= l < cur_loc tb ∧ slot (loc2id_ tb) l = Some kAllocatedID) →
  homes tb nh olds →
  (∀ l, l ∈ olds → 0 <= l < cur_loc tb ∧ ∃ id, slot (loc2id_ tb) l = Some id ∧ id ≠ kInvalidID ∧ id ≠ kAllocatedID) →
  ∃ tb1 tb', publish tb t nh locs = Some tb' ∧ relocated m tb1 olds locs (nh ++ [t]) tb' ∧ loc2id_ tb1 = loc2id_ tb
  ∧ cur_loc tb1 = cur_loc tb
  ∧ (∀ i id l, (nh ++ [t]) !! i = Some id → locs !! i = Some l → slot (id2loc_ tb') id = Some l)
  ∧ (∀ k x, 0 <= k → k ∉ nh → k ≠ t → slot (id2loc_ tb) k = Some x → slot (id2loc_ tb') k = Some x).
Proof.
  intros Htb Ht Hti Htn Hnd Hlen Hndl Hndo Hinv Hlocs Hf Holds.
  destruct (lookup_lt_is_Some_2 locs (length nh)) as [l Hl]; [lia|].
  destruct (set_id2loc_spec tb t l) as (tb0 & E0 & Hs0 & _ & Hk0 & HA & HB & HC); [lia|by right|].
  destruct (move_nbrs_spec tb0 nh locs olds) as (tb1 & E1 & Hn1 & Hk1 & HA1 & HB1 & HC1); [done|lia| |].
  { eapply homes_keep; [exact Hf|]. intros k x Hkp Hkin. apply Hk0; [done|]. by intros ->. }
  destruct (erase_and_set_relocates m Hm tb1 olds locs (nh ++ [t])) as (tb' & E & Hr).
  - done.
  - eapply (tables_ok_ids m tb); [done|congruence..].
  - done.
  - rewrite length_app. simpl. lia.
  - apply Forall_app. split; [done|by constructor].
  - rewrite HA1, HB1, HA, HB. exact Hlocs.
  - done.
  - rewrite HA1, HB1, HA, HB. exact Holds.
  - exists tb1, tb'. unfold publish. rewrite Hl. simpl. rewrite E0. simpl. rewrite E1. simpl. rewrite (rl_ids _ _ _ _ _ _ Hr).
    split_and!; [done|done|congruence|congruence| |].
    + intros i id k Hi Hk. apply lookup_app_Some in Hi as [Hi|[Hge Hi]]; [by eapply Hn1|].
      destruct (i - length nh)%nat as [|j] eqn:Ej; [|by destruct j]. simplify_eq/=.
      assert (i = length nh) as -> by lia. apply Hk1; [lia|done|]. congruence.
    + intros k x Hk Hkn Hkt Hx. apply Hk1; [done|done|]. by apply Hk0.
Qed.

(** ** The updated neighbour lists *)

Lemma link_spec r id t :
  shrinks prune_fuel (alpha pr) → (length (n_nbrs r) ≤ R pr)%nat → (0 < R pr)%nat → NoDup (n_nbrs r) → t ∉ n_nbrs r →
  ∃ nb, link r id t = Some nb ∧ (length nb ≤ R pr)%nat ∧ NoDup nb ∧ (∀ x, x ∈ nb → x ∈ n_nbrs r ∨ x = t)
  ∧ (length nb = R pr ∨ nb = n_nbrs r ++ [t]).
Proof.
  intros Hs Hlen Hpos Hnd Ht. set (nhood := n_nbrs r ++ [t]).
  assert (NoDup nhood) as Hnd'.
  { apply NoDup_app. split_and!; [done| |apply NoDup_singleton]. by intros x Hx ->%list_elem_of_singleton. }
  assert (∀ x, x ∈ nhood → x ∈ n_nbrs r ∨ x = t) as Hin.
  { intros x Hx. apply elem_of_app in Hx as [Hx|Hx%list_elem_of_singleton]; auto. }
  assert (length nhood = S (length (n_nbrs r))) as Hl by (unfold nhood; rewrite length_app; simpl; lia).
  unfold link. fold nhood. destruct (Nat.ltb_spec (R pr) (length nhood)) as [Hlt|Hge].
  - destruct (delta_prune_evicts metric nbr_dist nhood id t pr) as (out & k & n & E & _ & Hp & _); [by destruct (n_nbrs r)|done|].
    apply Permutation_length in Hp as Hpl. simpl in Hpl. rewrite <- Hp in Hnd'. apply NoDup_cons in Hnd' as [_ Hnd'].
    exists out. split_and!; [done|lia|done| |left; lia]. intros x Hx. apply Hin. rewrite <- Hp. by right.
  - exists nhood. split_and!; [done|done|done|done|by right].
Qed.

Lemma relink_spec r id t :
  Z.of_nat (R pr) <= range m →
  shrinks prune_fuel (alpha pr) → (length (n_nbrs r) ≤ R pr)%nat → (0 < R pr)%nat → NoDup (n_nbrs r) → t ∉ n_nbrs r →
  ∃ r', relink r id t = Some r' ∧ link r id t = Some (n_nbrs r')
  ∧ n_coords r' = n_coords r ∧ n_dense r' = n_dense r ∧ n_attrs r' = n_attrs r
  ∧ (length (n_nbrs r') ≤ R pr)%nat ∧ NoDup (n_nbrs r') ∧ (∀ x, x ∈ n_nbrs r' → x ∈ n_nbrs r ∨ x = t)
  ∧ (length (n_nbrs r') = R pr ∨ n_nbrs r' = n_nbrs r ++ [t]).
Proof.
  intros HR Hs Hlen Hpos Hnd Ht. destruct (link_spec r id t Hs Hlen Hpos Hnd Ht) as (nb & E & H1 & H2 & H3 & H4).
  unfold relink, store_nbrs. rewrite E. cbn [mbind option_bind]. rewrite (proj2 (Z.leb_le _ _)) by lia. eexists.
  split_and!; done.
Qed.

(** ** The state of the index *)

Definition node_at (s : index_state) (id : Z) : option rec := l ← id2loc (x_tb s) id; disk_rec (x_disk s) l.

(** A neighbour list: no more than [R] distinct nodes, not the node itself. *)
Record nbrs_ok (n id : Z) (l : list Z) : Prop := mkNbrsOk {
  nk_len : (length l ≤ R pr)%nat;
  nk_nodup : NoDup l;
  nk_self : id ∉ l;
  nk_live : ∀ x, x ∈ l → 0 <= x < n
}.

(** A quiescent index: the tables are inverse to each other on the [cur_id] nodes,
    every node has its record on disk, and the graph is well-formed. *)
Record index_ok (s : index_state) : Prop := mkIndexOk {
  ix_tables : tables_ok m (x_tb s);
  ix_ids : 2 <= x_cur_id s <= kAllocatedID;
  ix_home : ∀ id, 0 <= id < x_cur_id s →
    ∃ l, slot (id2loc_ (x_tb s)) id = Some l ∧ 0 <= l < cur_loc (x_tb s) ∧ slot (loc2id_ (x_tb s)) l = Some id;
  ix_slots : ∀ l x, 0 <= l < cur_loc (x_tb s) → slot (loc2id_ (x_tb s)) l = Some x → x ≠ kInvalidID →
    0 <= x < x_cur_id s ∧ slot (id2loc_ (x_tb s)) x = Some l;
  ix_disk : disk_ok (x_disk s);
  ix_graph : ∀ id, 0 <= id < x_cur_id s → ∃ r, node_at s id = Some r ∧ nbrs_ok (x_cur_id s) id (n_nbrs r)
}.

(** ** One insert *)

Record graph_insert (g g' : Z → option rec) (t : Z) (point : V) (nh : list Z) (attrs : option A) : Prop := mkGraphInsert {
  gi_new : ∃ a, g' t = Some (mkRec point nh (two_hop_of t g nh) a) ∧ ∀ x, attrs = Some x → 0 < attr_size m → a = x;
  gi_nbr : ∀ id, id ∈ nh → ∃ r nb, g id = Some r ∧ link r id t = Some nb
             ∧ g' id = Some (mkRec (n_coords r) nb (n_dense r) (n_attrs r))
             ∧ (length nb = R pr ∨ nb = n_nbrs r ++ [t]);
  gi_rest : ∀ id, 0 <= id < t → id ∉ nh → g' id = g id
}.

Section one_insert.
Context (s : index_state) (Hs : index_ok s) (nh locs : list Z) (need : gset Z) (tb' : LocTables).
Context (Hal : allocated m (x_tb s) (length nh + 1) locs need tb').
Context (Hnh : NoDup nh) (Hlive : ∀ id, id ∈ nh → 0 <= id < x_cur_id s).
Context (Hroom : x_cur_id s < kAllocatedID) (HR : Z.of_nat (R pr) <= range m) (HRpos : (0 < R pr)%nat) (HRmax : (R pr ≤ MAX_N_EDGES)%nat).
Context (Hnlen : (length nh ≤ R pr)%nat) (Hshr : shrinks prune_fuel (alpha pr)).

Local Abbreviation tb := (x_tb s).
Local Abbreviation t := (x_cur_id s).
Local Abbreviation g := (node_at s).
Local Abbreviation rmw := (pages_to_rmw m locs).

Lemma loc_u32 l : 0 <= l < cur_loc tb' → is_u32 l.
Proof. intros Hl. apply (fits_u32 m l (cur_loc tb')); [apply (to_fits m tb'), (al_ok _ _ _ _ _ _ Hal)|lia]. Qed.

Lemma new_loc l : l ∈ locs → is_u32 l ∧ loc_sector_no m l ∈ rmw.
Proof.
  intros Hl. destruct (al_free _ _ _ _ _ _ Hal l Hl) as (Hb & _). split; [by apply loc_u32|].
  unfold pages_to_rmw. rewrite elem_of_sort_unique. by apply list_elem_of_fmap_2.
Qed.

Lemma home_of id : 0 <= id < t → ∃ l r, id2loc tb' id = Some l ∧ slot (id2loc_ tb) id = Some l ∧ 0 <= l < cur_loc tb
  ∧ is_u32 l ∧ slot (loc2id_ tb) l = Some id ∧ g id = Some r ∧ disk_rec (x_disk s) l = Some r ∧ nbrs_ok t id (n_nbrs r).
Proof.
  intros Hid. destruct (ix_home s Hs id Hid) as (l & Hl & Hb & Hi). destruct (ix_graph s Hs id Hid) as (r & Hr & Hok).
  assert (id2loc tb id = Some l) as El by (apply slot_id2loc; [lia|done]).
  exists l, r. split_and!; try done; try lia.
  - apply slot_id2loc; [lia|]. by rewrite (al_ids _ _ _ _ _ _ Hal).
  - apply loc_u32. pose proof (al_cur _ _ _ _ _ _ Hal). lia.
  - unfold node_at in Hr. by rewrite El in Hr.
Qed.

Lemma live_not_new id l : 0 <= id < t → slot (loc2id_ tb) l = Some id → 0 <= l < cur_loc tb → l ∉ locs.
Proof.
  intros Hid Hl Hb Hin. destruct (al_free _ _ _ _ _ _ Hal l Hin) as (_ & Hf & _).
  rewrite Hf in Hl by lia. injection Hl as Hl. unfold kInvalidID, kAllocatedID in *. lia.
Qed.

Lemma live_page_read id l : 0 <= id < t → slot (loc2id_ tb) l = Some id → 0 <= l < cur_loc tb →
  loc_sector_no m l ∈ rmw → loc_sector_no m l ∈ need.
Proof.
  intros Hid Hl Hb Hin. destruct (decide (loc_sector_no m l ∈ need)) as [|Hn]; [done|]. exfalso.
  unfold pages_to_rmw in Hin. rewrite elem_of_sort_unique in Hin. apply list_elem_of_fmap in Hin as (k & He & Hk).
  destruct (new_loc k Hk) as [Hku _]. rewrite He in Hn.
  assert (is_u32 l) as Hlu by (apply loc_u32; pose proof (al_cur _ _ _ _ _ _ Hal); lia).
  pose proof (al_unread _ _ _ _ _ _ Hal k l Hk Hn) as Hf. rewrite Hf in Hl; [|rewrite <- He; by apply page_self|lia].
  injection Hl as Hl. unfold kInvalidID, kAllocatedID in *. lia.
Qed.

Lemma rmw_facts : NoDup rmw ∧ rmw ≠ [] ∧ (length rmw ≤ length nh + 1)%nat
  ∧ Forall (λ p, p * SECTOR_LEN + io_size m ≠ dummy_off) rmw.
Proof.
  pose proof (al_length _ _ _ _ _ _ Hal) as Hlen. split_and!.
  - apply sorted_NoDup, sort_unique_sorted.
  - intros E. destruct (lookup_lt_is_Some_2 locs 0) as [l Hl]; [lia|].
    destruct (new_loc l) as [_ Hp]; [by eapply list_elem_of_lookup_2|]. rewrite E in Hp. by apply elem_of_nil in Hp.
  - unfold pages_to_rmw. rewrite <- Hlen, <- (length_map (loc_sector_no m) locs). apply sort_unique_length.
  - apply Forall_forall. intros p _ E. apply (f_equal (λ z, z mod SECTOR_LEN)) in E. unfold io_size, u64 in E.
    revert E. generalize (if 0 <? nnodes_per_sector m then 1 else DIV_ROUND_UP (normal_node_len m) SECTOR_LEN). intros k.
    rewrite (Z.mul_comm SECTOR_LEN k), Zplus_mod, Z.mod_mul by done. change (2 ^ 64) with (2 ^ 52 * SECTOR_LEN).
    rewrite Zmult_mod_distr_r, Z.mod_mul by done. done.
Qed.

Lemma nbr_locs : ∃ nlocs, mapM (id2loc tb') nh = Some nlocs ∧ homes tb nh nlocs ∧ length nlocs = length nh.
Proof.
  assert (∀ id, id ∈ nh → ∃ l, id2loc tb' id = Some l ∧ 0 <= id ∧ slot (id2loc_ tb) id = Some l) as H.
  { intros id Hid. destruct (home_of id (Hlive id Hid)) as (l & r & E & Hl & _). exists l. split_and!; [done| |done]. by apply Hlive. }
  clear Hal Hnh Hlive Hnlen. induction nh as [|id l IH]; [by exists []; repeat constructor|].
  destruct IH as (nlocs & E & Hh & Hl); [by intros x Hx; apply H; right|]. destruct (H id) as (o & Eo & Hid & Ho); [by left|].
  exists (o :: nlocs). simpl. rewrite Eo. simpl. rewrite E. split_and!; [done|by constructor|simpl; lia].
Qed.

Section pages.
Context (nlocs : list Z) (Hn : homes tb nh nlocs) (Hl : length nlocs = length nh).
Local Abbreviation pbm := (page_buf_map (nlocs_reads nlocs) (writes_4k (length nlocs) rmw)).

Lemma size_ok : (length nlocs + length rmw ≤ update_buf_pages)%nat.
Proof. destruct rmw_facts as (_ & _ & ? & _). unfold update_buf_pages in *. lia. Qed.

Lemma nbr_covered id l : id ∈ nh → slot (id2loc_ tb) id = Some l → is_Some (pbm !! loc_sector_no m l).
Proof.
  intros [i Hi]%list_elem_of_lookup Hs'. apply pbm_covers. right. exists l. split; [|done].
  apply Forall2_same_length_lookup in Hn as [_ Hn']. destruct (lookup_lt_is_Some_2 nlocs i) as [o Ho]; [apply lookup_lt_Some in Hi; lia|].
  destruct (Hn' i id o Hi Ho) as [_ E]. rewrite E in Hs'. injection Hs' as ->. by eapply list_elem_of_lookup_2.
Qed.

Lemma new_covered l : l ∈ locs → is_u32 l ∧ is_Some (pbm !! loc_sector_no m l).
Proof. intros Hin. destruct (new_loc l Hin) as [? ?]. split; [done|]. apply pbm_covers. by left. Qed.

Lemma new_not_nbr_prefix l : locs !! length nh = Some l → l ∉ take (length nh) locs.
Proof.
  intros Hll Hin. rewrite elem_of_take in Hin. destruct Hin as (j & Hj & Hjl).
  pose proof (NoDup_lookup _ _ _ _ (al_nodup _ _ _ _ _ _ Hal) Hj Hll). lia.
Qed.

Section after_reads.
Context (b1 : bufs) (Hb1 : bufs_ok b1).
Context (Hv1 : ∀ l pg, x_disk s !! loc_sector_no m l = Some pg → (loc_sector_no m l ∈ rmw → loc_sector_no m l ∈ need) →
                 is_Some (pbm !! loc_sector_no m l) → read_node pbm b1 l = pg !! off l).

Lemma view_live id l :
  0 <= id < t → slot (loc2id_ tb) l = Some id → 0 <= l < cur_loc tb → is_Some (pbm !! loc_sector_no m l) →
  is_Some (disk_rec (x_disk s) l) → read_node pbm b1 l = disk_rec (x_disk s) l.
Proof.
  intros Hid Hli Hlb Hc [r Hr]. unfold disk_rec in *. destruct (x_disk s !! loc_sector_no m l) as [pg|] eqn:Hpg; [|done].
  simpl. apply Hv1; [done| |done]. by eapply live_page_read.
Qed.

Lemma view_nbr id :
  id ∈ nh → ∃ loc r, id2loc tb' id = Some loc ∧ is_u32 loc ∧ loc ∉ locs ∧ read_node pbm b1 loc = Some r ∧ g id = Some r
  ∧ is_Some (relink r id t).
Proof.
  intros Hid. destruct (home_of id (Hlive id Hid)) as (loc & r & El & Hsl & Hbl & Hu & Hli & Hg & Hdr & [K1 K2 K3 K4]).
  exists loc, r. split_and!; [done|done| | |done|].
  - eapply live_not_new; [by apply Hlive|done..].
  - rewrite (view_live id loc); [done|by apply Hlive|done|done|by eapply nbr_covered|by eexists].
  - destruct (relink_spec r id t HR Hshr K1 HRpos K2) as (r' & Er' & _); [intros Hin; apply K4 in Hin; lia|by eexists].
Qed.

(** The buffers after the new node and its neighbours are written. *)
Lemma write_all point attrs :
  attrs_fit attrs → ∃ l b2 b3 a, locs !! length nh = Some l
  ∧ write_target tb' pbm b1 t l point nh attrs = Some b2 ∧ update_nbrs tb' pbm b2 t nh locs = Some b3 ∧ bufs_ok b3
  ∧ read_node pbm b3 l = Some (mkRec point nh (two_hop_of t g nh) a) ∧ (∀ x, attrs = Some x → 0 < attr_size m → a = x)
  ∧ (∀ i id k, nh !! i = Some id → locs !! i = Some k → ∃ r, g id = Some r ∧ read_node pbm b3 k = relink r id t)
  ∧ (∀ k, is_u32 k → k ∉ locs → read_node pbm b3 k = read_node pbm b1 k).
Proof.
  intros Hfit. pose proof (al_length _ _ _ _ _ _ Hal) as Hlen. pose proof (pbm_is_ok nlocs rmw size_ok) as Hpbm.
  destruct (lookup_lt_is_Some_2 locs (length nh)) as [l Hll]; [lia|]. assert (l ∈ locs) as Hlin by by eapply list_elem_of_lookup_2.
  destruct (write_target_spec pbm Hpbm tb' t b1 l point nh attrs g) as (b2 & a & E2 & Hb2 & Ht2 & Ha & Ho2).
  { done. } { done. } { by apply new_covered. } { lia. } { intros Hin. apply Hlive in Hin. lia. }
  { intros id Hid. destruct (view_nbr id Hid) as (loc & r & El & Hu & Hnot & Er & Eg & _). exists loc, r. split_and!; [done|done| |done|done].
    by intros ->. }
  destruct (update_nbrs_spec pbm Hpbm tb' t nh locs b2) as (b3 & E3 & Hb3 & Hin3 & Hout3).
  { done. } { lia. } { apply (al_nodup _ _ _ _ _ _ Hal). } { apply new_covered. }
  { intros id Hid. destruct (view_nbr id Hid) as (loc & r & El & Hu & Hnot & Er & Eg & r' & Er').
    exists loc, r, r'. split_and!; [done..| |done]. rewrite Ho2; [done|done|]. by intros ->. }
  exists l, b2, b3, a. split_and!; try done.
  - rewrite Hout3; [done|by apply new_loc|by apply new_not_nbr_prefix].
  - intros i id k Hi Hk. destruct (Hin3 i id k Hi Hk) as (loc & r & Eloc & Er & Ek).
    destruct (view_nbr id) as (loc' & r' & El & Hu & Hnot & Er' & Eg & _); [by eapply list_elem_of_lookup_2|].
    rewrite El in Eloc. injection Eloc as <-. rewrite Ho2 in Er; [|done|by intros ->]. rewrite Er' in Er. injection Er as <-.
    by exists r'.
  - intros k Hku Hkn. rewrite Hout3, Ho2; [done|done|by intros ->|done|].
    intros Hin. rewrite elem_of_take in Hin. destruct Hin as (j & Hj & _). apply Hkn. by eapply list_elem_of_lookup_2.
Qed.
End after_reads.

Lemma insert_pages b point attrs :
  attrs_fit attrs → bufs_ok b →
  ∃ ws b1 l b2 b3 disk' a, merge_writes (writes_4k (length nlocs) rmw) = Some ws
  ∧ exec_reads (x_disk s) b (reads nlocs rmw need) = Some b1 ∧ locs !! length nh = Some l
  ∧ write_target tb' pbm b1 t l point nh attrs = Some b2 ∧ update_nbrs tb' pbm b2 t nh locs = Some b3
  ∧ wbc_write b3 (x_disk s) ws = Some disk' ∧ disk_ok disk'
  ∧ disk_rec disk' l = Some (mkRec point nh (two_hop_of t g nh) a) ∧ (∀ x, attrs = Some x → 0 < attr_size m → a = x)
  ∧ (∀ i id k, nh !! i = Some id → locs !! i = Some k → ∃ r, g id = Some r ∧ disk_rec disk' k = relink r id t)
  ∧ (∀ id k, 0 <= id < t → slot (loc2id_ tb) k = Some id → 0 <= k < cur_loc tb → disk_rec disk' k = disk_rec (x_disk s) k).
Proof.
  intros Hfit Hb. destruct rmw_facts as (Hnd & Hne & _ & Hdm). pose proof (ix_disk s Hs) as Hd.
  destruct (read_back nlocs rmw need size_ok (x_disk s) b Hd Hb) as (b1 & E1 & Hb1 & Hv1).
  destruct (write_all b1 Hb1 Hv1 point attrs Hfit) as (l & b2 & b3 & a & Hll & E2 & E3 & Hb3 & Ht & Ha & Hin & Hout).
  destruct (write_back nlocs rmw Hnd size_ok (x_disk s) b3 Hne Hdm Hd Hb3) as (ws & d' & Ews & Ed & Hd' & Hrec).
  exists ws, b1, l, b2, b3, d', a. split_and!; try done.
  - rewrite Hrec, bool_decide_true; [done|]. by eapply new_loc, list_elem_of_lookup_2.
  - intros i id k Hi Hk. destruct (Hin i id k Hi Hk) as (r & Eg & Er). exists r. split; [done|].
    rewrite Hrec, bool_decide_true; [done|]. by eapply new_loc, list_elem_of_lookup_2.
  - intros id k Hid Hki Hkb. rewrite Hrec. case_bool_decide as Hk; [|done].
    rewrite Hout; [|apply loc_u32; pose proof (al_cur _ _ _ _ _ _ Hal); lia|by eapply live_not_new].
    destruct (home_of id Hid) as (k' & r & _ & Hk' & _ & _ & Hik & _ & Hdr & _).
    assert (k' = k) as ->.
    { destruct (ix_slots s Hs k id Hkb Hki) as [_ E]; [unfold kInvalidID, kAllocatedID in *; lia|]. congruence. }
    eapply view_live; [done|done|done|done|apply pbm_covers; by left|by eexists].
Qed.

Lemma nlocs_home i id o : nh !! i = Some id → nlocs !! i = Some o → slot (id2loc_ tb) id = Some o
  ∧ 0 <= o < cur_loc tb ∧ slot (loc2id_ tb) o = Some id ∧ slot (loc2id_ tb') o = Some id.
Proof.
  intros Hi Ho. apply Forall2_same_length_lookup in Hn as [_ Hn']. destruct (Hn' i id o Hi Ho) as [_ E].
  assert (0 <= id < t) as Hid by (apply Hlive; by eapply list_elem_of_lookup_2).
  destruct (home_of id Hid) as (l & r & _ & E' & Hb & _ & Hli & _). rewrite E in E'. injection E' as <-.
  split_and!; [done|lia|lia|done|]. rewrite (al_same _ _ _ _ _ _ Hal); [done|done|]. by eapply live_not_new.
Qed.

Lemma insert_tables :
  ∃ tb'', publish tb' t nh locs = Some tb'' ∧ tables_ok m tb'' ∧ cur_loc tb'' = cur_loc tb'
  ∧ (∀ i id l, (nh ++ [t]) !! i = Some id → locs !! i = Some l →
       slot (id2loc_ tb'') id = Some l ∧ slot (loc2id_ tb'') l = Some id)
  ∧ (∀ l, l ∈ nlocs → slot (loc2id_ tb'') l = Some kInvalidID)
  ∧ (∀ l, 0 <= l → l ∉ nlocs → l ∉ locs → slot (loc2id_ tb'') l = slot (loc2id_ tb') l)
  ∧ (∀ id l, 0 <= id < t → id ∉ nh → slot (id2loc_ tb) id = Some l → slot (id2loc_ tb'') id = Some l).
Proof.
  pose proof (ix_ids s Hs) as Hids. pose proof (al_ids _ _ _ _ _ _ Hal) as Eids. pose proof (al_cur _ _ _ _ _ _ Hal) as Hcur.
  destruct (publish_spec tb' t nh locs nlocs) as (tb1 & tb'' & E & Hr & E1 & E2 & Hnew & Hkeep).
  - apply (al_ok _ _ _ _ _ _ Hal).
  - lia.
  - unfold kInvalidID, kAllocatedID in *. lia.
  - intros Hin. apply Hlive in Hin. lia.
  - done.
  - apply (al_length _ _ _ _ _ _ Hal).
  - apply (al_nodup _ _ _ _ _ _ Hal).
  - apply NoDup_alt. intros i j o Hi Hj. destruct (lookup_lt_is_Some_2 nh i) as [x Hx]; [apply lookup_lt_Some in Hi; lia|].
    destruct (lookup_lt_is_Some_2 nh j) as [y Hy]; [apply lookup_lt_Some in Hj; lia|].
    destruct (nlocs_home i x o Hx Hi) as (_ & _ & Ex & _), (nlocs_home j y o Hy Hj) as (_ & _ & Ey & _).
    rewrite Ex in Ey. injection Ey as ->. by eapply NoDup_lookup.
  - apply Forall_forall. intros id Hid%Hlive. unfold kInvalidID, kAllocatedID in *. lia.
  - intros l Hin. destruct (al_free _ _ _ _ _ _ Hal l Hin) as (? & _ & ?). done.
  - eapply homes_keep; [exact Hn|]. intros k x _ _. by rewrite Eids.
  - intros l [i Hi]%list_elem_of_lookup. destruct (lookup_lt_is_Some_2 nh i) as [x Hx]; [apply lookup_lt_Some in Hi; lia|].
    destruct (nlocs_home i x l Hx Hi) as (_ & Hb & _ & Ex). split; [lia|]. exists x. split; [done|].
    apply list_elem_of_lookup_2, Hlive in Hx. unfold kInvalidID, kAllocatedID in *. lia.
  - exists tb''. destruct Hr as [R1 R2 R3 R4 R5 R6]. split_and!; [done|done|congruence| |done| |].
    + intros i id l Hi Hil. split; [by eapply Hnew|by eapply R1].
    + intros l Hl0 H1 H2. rewrite R3 by done. congruence.
    + intros id l Hid Hidn Hsl. apply Hkeep; [lia|done|lia|]. by rewrite Eids.
Qed.

Section after_insert.
Context (tb'' : LocTables) (disk' : gmap Z (list rec)) (tags tag2id : gmap Z Z) (l : Z) (point : V) (a : A) (attrs : option A).
Context (Htb : tables_ok m tb'') (Hcur : cur_loc tb'' = cur_loc tb').
Context (Hnew : ∀ i id l, (nh ++ [t]) !! i = Some id → locs !! i = Some l →
                  slot (id2loc_ tb'') id = Some l ∧ slot (loc2id_ tb'') l = Some id).
Context (Hold : ∀ l, l ∈ nlocs → slot (loc2id_ tb'') l = Some kInvalidID).
Context (Hoth : ∀ l, 0 <= l → l ∉ nlocs → l ∉ locs → slot (loc2id_ tb'') l = slot (loc2id_ tb') l).
Context (Hkeep : ∀ id l, 0 <= id < t → id ∉ nh → slot (id2loc_ tb) id = Some l → slot (id2loc_ tb'') id = Some l).
Context (Hd' : disk_ok disk') (Hll : locs !! length nh = Some l).
Context (Htgt : disk_rec disk' l = Some (mkRec point nh (two_hop_of t g nh) a)).
Context (Hattr : ∀ x, attrs = Some x → 0 < attr_size m → a = x).
Context (Hnbr : ∀ i id k, nh !! i = Some id → locs !! i = Some k → ∃ r, g id = Some r ∧ disk_rec disk' k = relink r id t).
Context (Hrest : ∀ id k, 0 <= id < t → slot (loc2id_ tb) k = Some id → 0 <= k < cur_loc tb →
                   disk_rec disk' k = disk_rec (x_disk s) k).

Local Abbreviation s' := (mkIdx tb'' disk' (t + 1) tags tag2id).

(** The nodes are the new one, its neighbours and the others. *)
Lemma node_cases id :
  0 <= id < t + 1 → id = t ∨ (0 <= id < t ∧ ∃ i k, nh !! i = Some id ∧ locs !! i = Some k) ∨ (0 <= id < t ∧ id ∉ nh).
Proof.
  intros Hid. destruct (decide (id = t)) as [->|Hne]; [by left|right]. destruct (decide (id ∈ nh)) as [Hin|Hn'].
  - left. split; [lia|]. apply list_elem_of_lookup in Hin as [i Hi]. pose proof (al_length _ _ _ _ _ _ Hal).
    destruct (lookup_lt_is_Some_2 locs i) as [k Hk]; [apply lookup_lt_Some in Hi; lia|]. by exists i, k.
  - right. split; [lia|done].
Qed.

Lemma in_new i id : nh !! i = Some id → (nh ++ [t]) !! i = Some id.
Proof. intros Hi. by apply lookup_app_l_Some. Qed.

Lemma target_new : (nh ++ [t]) !! length nh = Some t.
Proof. by rewrite lookup_app_r, Nat.sub_diag by lia. Qed.

Lemma other_home id o : 0 <= id < t → id ∉ nh → slot (loc2id_ tb) o = Some id → 0 <= o < cur_loc tb →
  slot (loc2id_ tb'') o = Some id.
Proof.
  intros Hid Hidn Ho Hb. assert (o ∉ locs) as Hol by (by eapply live_not_new).
  rewrite Hoth; [by rewrite (al_same _ _ _ _ _ _ Hal)|lia| |done].
  intros [i Hi]%list_elem_of_lookup. destruct (lookup_lt_is_Some_2 nh i) as [x Hx]; [apply lookup_lt_Some in Hi; lia|].
  destruct (nlocs_home i x o Hx Hi) as (_ & _ & E & _). rewrite Ho in E. injection E as ->. apply Hidn. by eapply list_elem_of_lookup_2.
Qed.

Lemma node_at_slot id o : 0 <= id → slot (id2loc_ tb'') id = Some o → node_at s' id = disk_rec disk' o.
Proof. intros Hid Ho. unfold node_at. simpl x_tb. by rewrite (slot_id2loc tb'' id o Hid Ho). Qed.

Lemma insert_graph : graph_insert g (node_at s') t point nh attrs.
Proof.
  pose proof (ix_ids s Hs) as Hids. split.
  - exists a. split; [|done]. destruct (Hnew (length nh) t l target_new Hll) as [E _]. rewrite (node_at_slot t l); [done|lia|done].
  - intros id [i Hi]%list_elem_of_lookup. assert (0 <= id < t) as Hid by (apply Hlive; by eapply list_elem_of_lookup_2).
    destruct (node_cases id) as [->|[[_ (j & k & Hj & Hk)]|[_ Hn']]]; [lia|lia| |destruct Hn'; by eapply list_elem_of_lookup_2].
    destruct (Hnbr j id k Hj Hk) as (r & Eg & Er). destruct (home_of id Hid) as (_ & r0 & _ & _ & _ & _ & _ & Eg' & _ & [K1 K2 K3 K4]).
    rewrite Eg in Eg'. injection Eg' as <-.
    destruct (relink_spec r id t HR Hshr K1 HRpos K2) as (r' & E & El & Q1 & Q2 & Q3 & _ & _ & _ & Q4); [intros Hin; apply K4 in Hin; lia|].
    exists r, (n_nbrs r'). split_and!; [done|done| |done]. destruct (Hnew j id k (in_new _ _ Hj) Hk) as [Es _].
    rewrite (node_at_slot id k), Er, E, <- Q1, <- Q2, <- Q3 by (lia || done). by destruct r'.
  - intros id Hid Hidn. destruct (home_of id Hid) as (o & r & _ & Ho & Hb & _ & Hoi & Eg & Ed & _).
    rewrite (node_at_slot id o), (Hrest id o), Ed, Eg; [done|done|done|done|lia|by apply Hkeep].
Qed.

Lemma insert_ok : index_ok s'.
Proof.
  pose proof (ix_ids s Hs) as Hids. pose proof (al_cur _ _ _ _ _ _ Hal) as Hc. split; simpl x_tb; simpl x_cur_id; simpl x_disk; [done|lia| | |done|].
  - intros id Hid. destruct (node_cases id Hid) as [->|[[_ (i & k & Hi & Hk)]|[Hid' Hn']]].
    + exists l. destruct (Hnew _ _ _ target_new Hll) as [? ?]. split_and!; [done| | |done];
        destruct (al_free _ _ _ _ _ _ Hal l) as (? & _); [by eapply list_elem_of_lookup_2|lia|by eapply list_elem_of_lookup_2|lia].
    + exists k. destruct (Hnew _ _ _ (in_new _ _ Hi) Hk) as [? ?]. split_and!; [done| | |done];
        destruct (al_free _ _ _ _ _ _ Hal k) as (? & _); [by eapply list_elem_of_lookup_2|lia|by eapply list_elem_of_lookup_2|lia].
    + destruct (home_of id Hid') as (o & r & _ & Ho & Hb & _ & Hoi & _). exists o.
      split_and!; [by apply Hkeep|lia|lia|by apply other_home].
  - intros k x Hk Hx Hne. rewrite Hcur in Hk. destruct (decide (k ∈ locs)) as [Hin|Hkl].
    { apply list_elem_of_lookup in Hin as [i Hi]. pose proof (al_length _ _ _ _ _ _ Hal).
      destruct (lookup_lt_is_Some_2 (nh ++ [t]) i) as [y Hy]; [rewrite length_app; apply lookup_lt_Some in Hi; simpl; lia|].
      destruct (Hnew i y k Hy Hi) as [E1 E2]. rewrite Hx in E2. injection E2 as ->. split; [|done].
      apply list_elem_of_lookup_2, elem_of_app in Hy as [Hy%Hlive|Hy%list_elem_of_singleton]; lia. }
    destruct (decide (k ∈ nlocs)) as [Hin|Hkn]; [rewrite (Hold k Hin) in Hx; congruence|]. rewrite Hoth in Hx by (lia || done).
    destruct (decide (k < cur_loc tb)) as [Hlt|Hge]; [|rewrite (al_new _ _ _ _ _ _ Hal) in Hx by (lia || done); congruence].
    rewrite (al_same _ _ _ _ _ _ Hal) in Hx by (lia || done). destruct (ix_slots s Hs k x) as [Hxl Hxk]; [lia|done|done|].
    split; [lia|]. apply Hkeep; [done| |done]. intros [i Hi]%list_elem_of_lookup.
    destruct (lookup_lt_is_Some_2 nlocs i) as [o Ho]; [apply lookup_lt_Some in Hi; lia|].
    destruct (nlocs_home i x o Hi Ho) as [E _]. rewrite Hxk in E. injection E as ->. apply Hkn. by eapply list_elem_of_lookup_2.
  - intros id Hid. destruct insert_graph as [(a' & G1 & _) G2 G3]. destruct (node_cases id Hid) as [->|[[Hid' (i & k & Hi & Hk)]|[Hid' Hn']]].
    + eexists. split; [done|]. simpl. split; [done|done| |]; [intros Hin; apply Hlive in Hin; lia|intros x Hx%Hlive; lia].
    + destruct (G2 id) as (r & nb & Eg & El & Eg' & _); [by eapply list_elem_of_lookup_2|]. eexists. split; [done|]. simpl.
      destruct (home_of id Hid') as (_ & r0 & _ & _ & _ & _ & _ & Er0 & _ & [K1 K2 K3 K4]). rewrite Eg in Er0. injection Er0 as <-.
      destruct (link_spec r id t Hshr K1 HRpos K2) as (nb' & E & B1 & B2 & B3 & _); [intros Hin; apply K4 in Hin; lia|].
      rewrite El in E. injection E as <-. split; [done|done| |].
      * intros Hin. destruct (B3 id Hin) as [|]; [done|lia].
      * intros x [Hx%K4|]%B3; lia.
    + rewrite G3 by done. destruct (home_of id Hid') as (_ & r & _ & _ & _ & _ & _ & Eg & _ & [K1 K2 K3 K4]). exists r. split; [done|].
      split; [done|done|done|]. intros x Hx%K4. lia.
Qed.
End after_insert.
End pages.

End one_insert.

(** A loaded index with the equal mapping and a well-formed graph on disk. *)
Lemma loaded_index_ok disk tags tag2id :
  2 <= npoints m → fits m (init_cur_loc m) → disk_ok disk →
  (∀ id, 0 <= id < npoints m → ∃ r, disk_rec disk id = Some r ∧ nbrs_ok (npoints m) id (n_nbrs r)) →
  index_ok (mkIdx (equal_mapping m) disk (npoints m) tags tag2id).
Proof.
  intros Hn Hf Hd Hg. destruct (init_cur_loc_spec m Hm) as [_ Hb]; [lia|]. pose proof (proj1 Hf) as Hf1.
  assert (∀ id, 0 <= id < npoints m → slot (loc2id_ (equal_mapping m)) id = Some id ∧ slot (id2loc_ (equal_mapping m)) id = Some id) as Heq.
  { intros id Hid. destruct (equal_mapping_slots m id) as [He _]; [lia|lia|]. apply He. lia. }
  split; simpl x_tb; simpl x_cur_id; simpl x_disk.
  - by apply equal_mapping_ok.
  - lia.
  - intros id Hid. destruct (Heq id Hid) as [E1 E2]. exists id. split_and!; [done|lia| |done]. simpl. lia.
  - intros l x Hl Hx Hne. destruct (equal_mapping_slots m l) as [_ He]; [lia|lia|].
    destruct (decide (l < npoints m)) as [Hlt|Hge].
    + destruct (Heq l) as [E1 E2]; [lia|]. rewrite Hx in E1. injection E1 as ->. split; [lia|done].
    + simpl in Hl. rewrite He in Hx by lia. congruence.
  - done.
  - intros id Hid. destruct (Hg id Hid) as (r & Er & Hr). exists r. split; [|done]. unfold node_at. simpl x_tb.
    destruct (Heq id Hid) as [_ E]. by rewrite (slot_id2loc (equal_mapping m) id id (proj1 Hid) E).
Qed.

(** Attributes that do not fit end the process. *)
Lemma write_attrs_None attrs old : ¬ attrs_fit attrs → write_attrs attrs old = None.
Proof.
  intros Hn. destruct attrs as [a|]; simpl; [|by destruct Hn].
  destruct (Z.ltb_spec 0 (attr_size m)), (Z.ltb_spec (attr_size m) (serialized_size a)); try done;
    (destruct Hn; intros ? [= <-]; lia).
Qed.

Lemma oversized_attrs_exit coord_dist etag s point tag attrs exp hints b :
  ¬ attrs_fit attrs → insert_in_place coord_dist etag s point tag attrs exp hints b = None.
Proof.
  intros Hn.
  assert (∀ tb pbm b t l nh, write_target tb pbm b t l point nh attrs = None) as Hw.
  { intros tb pbm b0 t l nh. unfold write_target. destruct (read_node pbm b0 l) as [old|]; [|done]. simpl.
    destruct (store_nbrs nh); [|done]. simpl. by rewrite write_attrs_None. }
  destruct (insert_in_place _ _ _ _ _ _ _ _ _) eqn:E; [|done]. unfold insert_in_place in E.
  repeat (inv_some; try match goal with x : _ * _ |- _ => destruct x end). congruence.
Qed.

(** What [insert_in_place] needs of its arguments: the search returns distinct
    nodes without NaN distances, the hint pages lie in the file, the tables have
    room, and the build parameters fit the buffers and the records. *)
Record insert_args (s : index_state) (exp : list Neighbor) (hints : list Z) (b : bufs) : Prop := mkInsertArgs {
  ia_exp : Forall ok exp;
  ia_nodup : NoDup (map id exp);
  ia_live : ∀ x, x ∈ map id exp → 0 <= x < x_cur_id s;
  ia_hints : Forall (page_ok m (cur_loc (x_tb s))) hints;
  ia_bufs : bufs_ok b;
  ia_room : fits m (cur_loc (x_tb s) + Z.of_nat (R pr) + 1 + nodes_per_io m);
  ia_ids : x_cur_id s < kAllocatedID;
  ia_R : (0 < R pr ≤ MAX_N_EDGES)%nat;
  ia_range : Z.of_nat (R pr) <= range m;
  ia_alpha : alpha pr ≠ f_infinity;
  ia_shrinks : shrinks prune_fuel (alpha pr)
}.

(** C1: [insert_in_place] refines the insertion of a node into a graph, on a
    consistent index of nodes that fit a sector ([0 < nnodes_per_sector] and
    [nnodes_per_sector * max_node_len <= 4096]; the copy of a larger node can run
    out of its buffer, see the findings).  The search result holds distinct nodes of
    the index with distances that are not NaN; the hint pages lie in the file; ids
    and locations stay below the sentinels after [R + 1] allocations; [R] is
    positive, at most 2048 and at most the record's [range]; alpha is finite and the
    pruning loop's scale reaches it.  If the attributes are absent or no larger than
    [attr_size], or the index stores none, the insert succeeds, without an access
    out of the page buffers or the tables, and returns the next id; the new node
    has the point, the chosen neighbours (at most [R], the entry point only among
    the first [R / 4]), the sampled dense neighbours and the attributes; each chosen
    neighbour has the new node appended, or its list pruned to [R], and keeps its
    vector and attributes; every other node is unchanged although its page may be
    rewritten; and the index is consistent again: the tables are inverse to each
    other, every node has its record on disk and the graph is well-formed.
    Otherwise the insert ends the process. *)
Theorem insert_in_place_refines coord_dist etag s point tag attrs exp hints b :
  index_ok s → insert_args s exp hints b →
  (attrs_fit attrs →
    ∃ nh s', insert_in_place coord_dist etag s point tag attrs exp hints b = Some (x_cur_id s, s')
    ∧ index_ok s' ∧ x_cur_id s' = x_cur_id s + 1
    ∧ graph_insert (node_at s) (node_at s') (x_cur_id s) point nh attrs
    ∧ choose_nhood metric coord_dist pr (entry_point_id m) exp = Some nh
    ∧ nh ⊆ map id exp ∧ (∀ i, nh !! i = Some (entry_point_id m) → (i < Nat.div (R pr) 4)%nat)
    ∧ x_tags s' = <[x_cur_id s := tag]> (x_tags s)
    ∧ (etag = true → x_tag2id s' !! tag = Some (x_cur_id s)))
  ∧ (¬ attrs_fit attrs → insert_in_place coord_dist etag s point tag attrs exp hints b = None).
Proof.
  intros Hs [A1 A2 A3 A4 A5 A6 A7 A8 A9 A10 A11]. split; [|apply oversized_attrs_exit]. intros Hfit.
  destruct (choose_nhood_spec coord_dist (entry_point_id m) exp A1 A2 A10) as (nh & Enh & Hnd & Hsub & Hlen & Hent).
  assert (∀ x, x ∈ nh → 0 <= x < x_cur_id s) as Hlive by (intros x Hx; by apply A3, Hsub).
  destruct (alloc_loc_allocates m Hm (x_tb s) (length nh + 1) hints ∅) as (locs & need & tb' & Eal & _ & Hal);
    [apply (ix_tables s Hs)|lia|done|eapply fits_le; [done|exact A6|]|].
  { pose proof (to_cur m _ (ix_tables s Hs)). pose proof (npg_pos m Hm). lia. }
  destruct A8 as [HRpos HRmax]. destruct (nbr_locs s Hs nh locs need tb' Hal Hlive HRpos HRmax Hlen) as (nlocs & Enl & Hn & Hl).
  destruct (insert_pages s Hs nh locs need tb' Hal Hlive A7 A9 HRpos HRmax Hlen A11 nlocs Hn Hl b point attrs Hfit A5)
    as (ws & b1 & l & b2 & b3 & disk' & a & Ews & E1 & Hll & E2 & E3 & E4 & Hd' & Ht & Ha & Hnb & Hrest).
  destruct (insert_tables s Hs nh locs need tb' Hal Hnd Hlive A7 HRpos HRmax Hlen nlocs Hn Hl) as (tb'' & Epub & Htb & Hcur & Hnew & Hold & Hoth & Hkeep).
  set (tags := <[x_cur_id s := tag]> (x_tags s)).
  set (tag2id := if etag then <[tag := x_cur_id s]> (x_tag2id s) else x_tag2id s).
  exists nh, (mkIdx tb'' disk' (x_cur_id s + 1) tags tag2id). split_and!.
  - unfold insert_in_place. rewrite Enh. cbn [mbind option_bind]. rewrite Eal. cbn [mbind option_bind]. unfold nbr_reads.
    rewrite Enl. cbn [mbind option_bind]. rewrite Hl in *. fold (nlocs_reads nlocs).
    rewrite Ews. cbn [mbind option_bind]. unfold reads in E1. rewrite Hl in E1. rewrite E1. cbn [mbind option_bind].
    rewrite Hll. cbn [mbind option_bind]. rewrite E2. cbn [mbind option_bind]. rewrite E3. cbn [mbind option_bind].
    rewrite E4. cbn [mbind option_bind]. rewrite Epub. done.
  - eapply insert_ok; eauto; lia.
  - done.
  - eapply insert_graph; eauto; lia.
  - done.
  - done.
  - done.
  - done.
  - intros ->. apply lookup_insert_eq.
Qed.

End with_placement.
End insert.

(** ** A concrete insert *)

(** Eight nodes on two pages, each linked to the next, with eight bytes for the
    attributes. *)
Definition ring_meta : SSDIndexMetadata := mkMeta 0 0 8 128 0 1024 4 8 8 8 48 0 RAW 1024 48 0.
Definition attr_bytes (a : list Z) : Z := Z.of_nat (length a).
Definition ring_node (i : Z) : node Z (list Z) := mkRec i [(i + 1) mod 8] [] [0].
Definition ring_disk : gmap Z (list (node Z (list Z))) := {[1 := map ring_node [0; 1; 2; 3]; 2 := map ring_node [4; 5; 6; 7]]}.
Definition ring : index_state := mkIdx (equal_mapping ring_meta) ring_disk 8 ∅ ∅.
Definition ring_params : IndexBuildParameters := mkParams 4 10 f_1_2 false.
Definition ring_bufs : list (list (node Z (list Z))) := replicate update_buf_pages (replicate 4 (ring_node 0)).
Definition ring_found : list Neighbor := [new_neighbor 3 f_one; new_neighbor 5 FLT_MAX].

Lemma ring_placement : placement_ok ring_meta.
Proof. split; simpl; unfold SECTOR_LEN; lia. Qed.

Lemma ring_ok : index_ok ring_meta ring_params ring.
Proof.
  apply loaded_index_ok; [apply ring_placement|done|split; vm_compute; reflexivity| |].
  - intros p pg Hp. unfold ring_disk in Hp. apply lookup_insert_Some in Hp as [[_ <-]|[_ Hp]]; [done|].
    apply lookup_singleton_Some in Hp as [_ <-]. done.
  - intros id Hid. simpl in Hid. assert (id ∈ seqZ 0 8) as Hin by (apply elem_of_seqZ; lia).
    change (seqZ 0 8) with [0; 1; 2; 3; 4; 5; 6; 7] in Hin. rewrite !elem_of_cons, elem_of_nil in Hin.
    destruct_or! Hin; [subst id..]; (eexists; split; [vm_compute; reflexivity|]);
      (split; [simpl; lia|apply NoDup_singleton|by intros ?%list_elem_of_singleton|intros x ->%list_elem_of_singleton; simpl; lia]).
Qed.

Lemma insert_in_place_refines_witness :
  ∃ nh s', insert_in_place ring_meta ring_params L2 (λ _ _, f_one) (λ l, l) attr_bytes (λ _ _, f_one) true ring 100 7 (Some [1; 2; 3])
             ring_found [] ring_bufs = Some (8, s')
  ∧ index_ok ring_meta ring_params s' ∧ nh ⊆ [3; 5]
  ∧ graph_insert ring_meta ring_params L2 (λ _ _, f_one) (λ l, l) (node_at ring_meta ring) (node_at ring_meta s') 8 100 nh (Some [1; 2; 3]).
Proof.
  destruct (insert_in_place_refines ring_meta ring_params L2 (λ _ _, f_one) (λ l, l) attr_bytes ring_placement ltac:(done) (λ _ _, f_one)
              true ring 100 7 (Some [1; 2; 3]) ring_found [] ring_bufs ring_ok) as [H _];
    [|destruct H as (nh & s' & E & Hok & _ & Hg & _ & Hsub & _)].
  - split.
    + repeat constructor.
    + apply (bool_decide_unpack _). vm_compute. exact I.
    + simpl. intros x Hx. rewrite !elem_of_cons, elem_of_nil in Hx. lia.
    + constructor.
    + split; [apply length_replicate|]. by apply Forall_replicate.
    + split; vm_compute; reflexivity.
    + done.
    + simpl. unfold MAX_N_EDGES. lia.
    + simpl. lia.
    + done.
    + exists 2%nat. split; [unfold prune_fuel; lia|reflexivity].
  - intros a [= <-] _. vm_compute. discriminate.
  - exists nh, s'. exact (conj E (conj Hok (conj Hsub Hg))).
Defined.

End Insert.
