(* ===== verification/DeleteMerge.v ===== *)
(** * Merging deletions ([src/update/delete_merge.cpp])

    [SSDIndex::merge_deletes] and [reload]: deleted nodes are dropped, the others
    get new ids in the order of their locations, their neighbour lists are patched
    with the neighbours of deleted neighbours and pruned, the records are written
    to a new file through a sliding window of two batches, and the tables and tags
    restart with the equal mapping.  The ids of a chunk of locations are drawn by
    several threads, so their order within the chunk is a parameter, as is the
    iteration order of [std::unordered_set].  [cuckoohash_map::find] on a missing
    key throws: [None].

    The main theorem: the new index is consistent and holds exactly the surviving
    nodes with their vectors, attributes and tags, and no link to a deleted node. *)

From S2P Require Import Prelude Float32 Neighbor Layout LocTable InsertConc Prune Queues DirectInsert.
Local Open Scope Z_scope.

Module Merge.
Import Queues.Queues Layout.Layout Loc Conc Prune Insert.

(** A loop over [st, st + step, ...] below [n], with the locations of each turn. *)
Fixpoint chunks (fuel : nat) (st n step : Z) : list (list Z) :=
  match fuel with
  | O => []
  | S fuel => if st <? n then seqZ st (Z.min n (st + step) - st) :: chunks fuel (st + step) n step else []
  end.

(** [cuckoohash_map::insert] keeps the value of a present key. *)
Definition insert_new {B} (mp : gmap Z B) (k : Z) (v : B) : gmap Z B :=
  match mp !! k with Some _ => mp | None => <[k := v]> mp end.

Lemma seqZ_split a n k : 0 <= k <= n → seqZ a n = seqZ a k ++ seqZ (a + k) (n - k).
Proof. intros Hk. rewrite <- seqZ_app by lia. f_equal. lia. Qed.

Lemma chunks_concat fuel st n step :
  0 < step → n - st <= Z.of_nat fuel → concat (chunks fuel st n step) = seqZ st (n - st).
Proof.
  intros Hstep. revert st. induction fuel as [|fuel IH]; intros st Hf; [symmetry; apply seqZ_nil; lia|].
  simpl. destruct (Z.ltb_spec st n) as [Hlt|Hge]; [|symmetry; apply seqZ_nil; lia]. simpl. rewrite IH by lia.
  rewrite (seqZ_split st (n - st) (Z.min n (st + step) - st)) by lia. f_equal.
  destruct (decide (n <= st + step)); [rewrite !seqZ_nil by lia; done|]. f_equal; lia.
Qed.

(** A loop whose turns end at [c] splits there. *)
Lemma chunks_split fuel st n step c :
  0 < step → n - st <= Z.of_nat fuel → st <= c → (step | c - st) →
  ∃ l1 l2, chunks fuel st n step = l1 ++ l2 ∧ concat l1 = seqZ st (Z.min n c - st).
Proof.
  intros Hstep. revert st. induction fuel as [|fuel IH]; intros st Hf Hst Hd.
  { exists [], []. split; [done|]. symmetry. apply seqZ_nil. lia. }
  simpl. destruct (Z.ltb_spec st n) as [Hlt|Hge]; [|exists [], []; split; [done|symmetry; apply seqZ_nil; lia]].
  destruct (decide (c = st)) as [->|Hne].
  { eexists [], _. split; [done|]. symmetry. apply seqZ_nil. lia. }
  assert (st + step <= c) as Hle by (apply Z.divide_pos_le in Hd; lia).
  destruct (IH (st + step)) as (l1 & l2 & E & E1); [lia|done| |].
  { replace (c - (st + step)) with (c - st - step) by lia. apply Z.divide_sub_r; [done|apply Z.divide_refl]. }
  exists (seqZ st (Z.min n (st + step) - st) :: l1), l2. rewrite E. split; [done|]. simpl. rewrite E1.
  rewrite (seqZ_split st (Z.min n c - st) (Z.min n (st + step) - st)) by lia. f_equal.
  destruct (decide (n <= st + step)); [rewrite !seqZ_nil by lia; done|]. f_equal; lia.
Qed.

Section merge.
Context {V A : Type} (m : SSDIndexMetadata) (pr : IndexBuildParameters) (metric : Metric).
Context (nbr_dist : Z → Z → float) (hash_order order : list Z → list Z) (n_sampled : nat).
Context (garbage : node V A).

Local Abbreviation rec := (node V A).

Definition LOC_PER_POPULATE : Z := 128 * 8.
Definition LOC_PER_MERGE : Z := if 0 <? nnodes_per_sector m then ROUND_UP 131072 (nnodes_per_sector m) else 131072.
Definition VEC_IN_WBUF : Z := 2 * LOC_PER_MERGE.
Definition sectors_per_batch : Z :=
  if 0 <? nnodes_per_sector m then LOC_PER_MERGE / nnodes_per_sector m
  else LOC_PER_MERGE * DIV_ROUND_UP (max_node_len m) SECTOR_LEN.

Definition id2tag (tags : gmap Z Z) (id : Z) : Z := default id (tags !! id).

(** ** Step 1: neighbourhoods and ids *)

Record populated := mkPop { id_map : gmap Z Z; rev_id_map : gmap Z Z; deleted_nhoods : gmap Z (list Z); new_npoints : Z }.

Section step1.
Context (s : index_state (V:=V) (A:=A)) (deleted : gset Z).

Definition is_deleted (id : Z) : bool := bool_decide (id2tag (x_tags s) id ∈ deleted).

Definition populate_loc (p : populated) (loc : Z) : option populated :=
  id ← loc2id (x_tb s) loc;
  if id =? kInvalidID then Some p
  else if is_deleted id then
    r ← disk_rec m (x_disk s) loc;
    let nhood := filter (λ x, is_deleted x = false) (n_nbrs r) in
    Some (mkPop (id_map p) (rev_id_map p) (insert_new (deleted_nhoods p) id (take n_sampled nhood)) (new_npoints p))
  else
    Some (mkPop (insert_new (id_map p) id (new_npoints p)) (insert_new (rev_id_map p) (new_npoints p) id)
            (deleted_nhoods p) (new_npoints p + 1)).

Fixpoint populate_locs (p : populated) (locs : list Z) : option populated :=
  match locs with
  | [] => Some p
  | l :: locs => p ← populate_loc p l; populate_locs p locs
  end.

Definition populate : option populated :=
  populate_locs (mkPop ∅ ∅ ∅ 0)
    (concat (map order (chunks (Z.to_nat (cur_loc (x_tb s))) 0 (cur_loc (x_tb s)) LOC_PER_POPULATE))).

(** ** Step 2: the new records *)

(** [nhood_set]: a deleted neighbour is replaced by its surviving neighbours. *)
Fixpoint gather (p : populated) (nbrs : list Z) (set : gset Z) : option (gset Z) :=
  match nbrs with
  | [] => Some set
  | x :: nbrs =>
      if is_deleted x then nh ← deleted_nhoods p !! x; gather p nbrs (set ∪ list_to_set nh)
      else gather p nbrs ({[x]} ∪ set)
  end.

Definition merged_nhood (p : populated) (id : Z) (r : rec) : option (list Z) :=
  set ← gather p (n_nbrs r) ∅;
  let nhood := hash_order (elements (set ∖ {[id]})) in
  if Nat.ltb (R pr) (length nhood) then
    '(_, nhood) ← prune_neighbors metric nbr_dist (map (λ x, new_neighbor x (nbr_dist id x)) nhood) nhood pr;
    Some nhood
  else Some nhood.

(** The window of records, by page and position in the page. *)
Record merging := mkMrg { wbuf : gmap (Z * nat) rec; n_used_id : Z; wb_id : Z; new_tags : list Z; out : gmap Z (list rec) }.

Definition wslot (new_id : Z) : Z * nat :=
  (loc_sector_no m (new_id mod VEC_IN_WBUF) - loc_sector_no m 0, off m new_id).

Definition merged_rec (p : populated) (id : Z) (r old : rec) : option rec :=
  nhood ← merged_nhood p id r;
  nhood ← mapM (λ x, id_map p !! x) nhood;
  nbrs ← store_nbrs m nhood;
  Some (mkRec (n_coords r) nbrs [] (if 0 <? attr_size m then n_attrs r else n_attrs old)).

Definition merge_loc (p : populated) (st : merging) (loc : Z) : option merging :=
  id ← loc2id (x_tb s) loc;
  if id =? kInvalidID then Some st
  else if is_deleted id then Some st
  else
    r ← disk_rec m (x_disk s) loc;
    new_id ← id_map p !! id;
    r' ← merged_rec p id r (default garbage (wbuf st !! wslot new_id));
    tags ← vset (new_tags st) (Z.to_nat new_id) (id2tag (x_tags s) id);
    Some (mkMrg (<[wslot new_id := r']> (wbuf st)) (n_used_id st + 1) (wb_id st) tags (out st)).

Fixpoint merge_locs (p : populated) (st : merging) (locs : list Z) : option merging :=
  match locs with
  | [] => Some st
  | l :: locs => st ← merge_loc p st l; merge_locs p st locs
  end.

Definition wpage (w : gmap (Z * nat) rec) (page : Z) : list rec :=
  map (λ o, default garbage (w !! (page, o))) (seq 0 (Z.to_nat (nodes_per_io m))).

(** The pages of the ids [wb_id .. wb_id + id_delta), from one half of the window. *)
Definition write_back (st : merging) : merging :=
  let buf_id := (wb_id st mod VEC_IN_WBUF) / LOC_PER_MERGE in
  let id_delta := Z.min LOC_PER_MERGE (n_used_id st - wb_id st) in
  let npg := nodes_per_io m in
  let first := wb_id st / npg in
  let pages := seqZ first ((wb_id st + id_delta - 1) / npg - first + 1) in
  let st_sector := loc_sector_no m (wb_id st) in
  let put d q :=
    let sec := loc_sector_no m (q * npg) in
    <[sec := wpage (wbuf st) (buf_id * sectors_per_batch + (sec - st_sector))]> d in
  mkMrg (wbuf st) (n_used_id st) (wb_id st + id_delta) (new_tags st) (foldl put (out st) pages).

Definition merge_batch (p : populated) (st : merging) (locs : list Z) : option merging :=
  st ← merge_locs p st locs;
  Some (if LOC_PER_MERGE <=? n_used_id st - wb_id st then write_back st else st).

Fixpoint merge_batches (p : populated) (st : merging) (bs : list (list Z)) : option merging :=
  match bs with
  | [] => Some st
  | b :: bs => st ← merge_batch p st b; merge_batches p st bs
  end.

Fixpoint write_rest (fuel : nat) (st : merging) : option merging :=
  if wb_id st <? n_used_id st then match fuel with O => None | S fuel => write_rest fuel (write_back st) end
  else Some st.

(** ** Entry point, tables and tags *)

(** One step finds a survivor: the neighbourhoods of deleted nodes are filtered. *)
Fixpoint choose_entry (fuel : nat) (p : populated) (e : Z) : option Z :=
  if is_deleted e then
    match fuel with
    | O => None
    | S fuel => nh ← deleted_nhoods p !! e; e' ← nh !! 0%nat; choose_entry fuel p e'
    end
  else Some e.

Fixpoint reset_tables (tb : LocTables) (ids : list Z) : option LocTables :=
  match ids with
  | [] => Some tb
  | i :: ids => tb ← set_id2loc tb i i; tb ← set_loc2id tb i i; reset_tables tb ids
  end.

Fixpoint track_tags (enable_tag2id : bool) (i : Z) (ts : list Z) (tags tag2id : gmap Z Z) : gmap Z Z * gmap Z Z :=
  match ts with
  | [] => (tags, tag2id)
  | t :: ts => track_tags enable_tag2id (i + 1) ts (<[i := t]> tags) (if enable_tag2id then <[t := i]> tag2id else tag2id)
  end.

Definition merge_deletes (enable_tag2id : bool) (out0 : gmap Z (list rec))
    : option (populated * Z * index_state (V:=V) (A:=A)) :=
  p ← populate;
  let n := new_npoints p in
  let cl := cur_loc (x_tb s) in
  st ← merge_batches p (mkMrg ∅ 0 0 (replicate (Z.to_nat n) 0) out0) (chunks (Z.to_nat cl) 0 cl LOC_PER_MERGE);
  st ← write_rest (Z.to_nat (n_used_id st)) st;
  e ← choose_entry 2 p (entry_point m);
  e ← id_map p !! e;
  tb ← reset_tables (x_tb s) (seqZ 0 n);
  let '(tags, tag2id) := track_tags enable_tag2id 0 (new_tags st) ∅ (if enable_tag2id then ∅ else x_tag2id s) in
  Some (p, e, mkIdx tb (out st) (x_cur_id s) tags tag2id).

End step1.

(** ** reload *)

Definition merged_meta (n e : Z) : SSDIndexMetadata :=
  reloaded (mkMeta (nr m) (nc m) n (data_dim m) e (max_node_len m) (nnodes_per_sector m) (npts_cur_shard m) (attr_size m)
              n (range m) (R_ood m) (vector_type m) (normal_node_len m) (range_dense m) (u32 e)) false.

Fixpoint clear_locs (tb : LocTables) (locs : list Z) : option LocTables :=
  match locs with
  | [] => Some tb
  | l :: locs => tb ← set_loc2id tb l kInvalidID; clear_locs tb locs
  end.

Definition reload (m' : SSDIndexMetadata) (s : index_state (V:=V) (A:=A)) : option (index_state (V:=V) (A:=A)) :=
  let tb := x_tb s in
  let cl := init_cur_loc m' in
  tb ← clear_locs (mkLoc (id2loc_ tb) (loc2id_ tb) cl (empty_pages tb)) (seqZ (npoints m') (cl - npoints m'));
  Some (mkIdx (mkLoc (id2loc_ tb) (loc2id_ tb) cl (mkCQ [] (null_T (empty_pages tb)))) (x_disk s) (npoints m') (x_tags s) (x_tag2id s)).

(** ** Survivors *)

Section correct.
Context (Hm : placement_ok m) (Hord : ∀ l, order l ≡ₚ l) (Hhash : ∀ l, hash_order l ≡ₚ l).
Context (s : index_state (V:=V) (A:=A)) (Hs : index_ok m pr s) (deleted : gset Z).

Local Abbreviation tb := (x_tb s).
Local Abbreviation del := (is_deleted s deleted).

Definition live_at (l : Z) : option Z := x ← slot (loc2id_ tb) l; if x =? kInvalidID then None else Some x.
Definition survivor (l : Z) : option Z := id ← live_at l; if del id then None else Some id.
Definition dead (l : Z) : option Z := id ← live_at l; if del id then Some id else None.

(** What step 1 keeps of a deleted node. *)
Definition dead_nhood (id : Z) : list Z :=
  match node_at m s id with Some r => take n_sampled (filter (λ x, del x = false) (n_nbrs r)) | None => [] end.

Lemma live_facts l id :
  0 <= l < cur_loc tb → live_at l = Some id →
  0 <= id < x_cur_id s ∧ slot (id2loc_ tb) id = Some l
  ∧ ∃ r, disk_rec m (x_disk s) l = Some r ∧ node_at m s id = Some r ∧ nbrs_ok pr (x_cur_id s) id (n_nbrs r).
Proof.
  intros Hl E. unfold live_at in E. destruct (slot (loc2id_ tb) l) as [x|] eqn:Hx; [|done]. simpl in E.
  destruct (Z.eqb_spec x kInvalidID); [done|]. injection E as ->. destruct (ix_slots m pr s Hs l id Hl Hx) as [Hid Hi]; [done|].
  split; [done|]. split; [done|]. destruct (ix_graph m pr s Hs id Hid) as (r & Er & Hr). exists r. split_and!; [|done|done].
  unfold node_at in Er. by rewrite (slot_id2loc tb id l (proj1 Hid) Hi) in Er.
Qed.

Lemma survivor_live l id : survivor l = Some id ↔ live_at l = Some id ∧ del id = false.
Proof. unfold survivor. destruct (live_at l) as [x|]; simpl; [|by split; [|intros [??]]]. destruct (del x) eqn:E;
  (split; [intros [= <-]; by rewrite E|by intros [[= ->] ?]; congruence]). Qed.

Lemma dead_live l id : dead l = Some id ↔ live_at l = Some id ∧ del id = true.
Proof. unfold dead. destruct (live_at l) as [x|]; simpl; [|by split; [|intros [??]]]. destruct (del x) eqn:E;
  (split; [intros [= <-]; by rewrite E|by intros [[= ->] ?]; congruence]). Qed.

Lemma live_inj l l' id :
  0 <= l < cur_loc tb → 0 <= l' < cur_loc tb → live_at l = Some id → live_at l' = Some id → l = l'.
Proof.
  intros Hl Hl' E E'. destruct (live_facts l id Hl E) as (_ & H1 & _), (live_facts l' id Hl' E') as (_ & H2 & _). congruence.
Qed.

Lemma live_home id : 0 <= id < x_cur_id s → ∃ l, 0 <= l < cur_loc tb ∧ live_at l = Some id.
Proof.
  intros Hid. destruct (ix_home m pr s Hs id Hid) as (l & _ & Hb & E). exists l. split; [done|]. unfold live_at. rewrite E. simpl.
  pose proof (ix_ids m pr s Hs). rewrite (proj2 (Z.eqb_neq _ _)); [done|]. unfold kInvalidID, kAllocatedID in *. lia.
Qed.

Lemma NoDup_omap_live (f : Z → option Z) L :
  (∀ l id, f l = Some id → live_at l = Some id) → NoDup L → Forall (λ l, 0 <= l < cur_loc tb) L → NoDup (omap f L).
Proof.
  intros Hf. induction 1 as [|l L Hl Hnd IH]; intros HL; [constructor|]. apply Forall_cons in HL as [Hlb HL]. csimpl.
  destruct (f l) as [id|] eqn:E; [|by apply IH]. apply NoDup_cons. split; [|by apply IH].
  intros (l' & Hl' & E')%list_elem_of_omap. rewrite Forall_forall in HL. apply Hl. rewrite (live_inj l l' id); [done|done|by apply HL|by apply Hf..].
Qed.

(** ** Step 1 *)

Record pop_ok (ids dels : list Z) (p : populated) : Prop := mkPopOk {
  pk_map : ∀ id k, id_map p !! id = Some k ↔ 0 <= k ∧ ids !! Z.to_nat k = Some id;
  pk_rev : ∀ k id, rev_id_map p !! k = Some id ↔ 0 <= k ∧ ids !! Z.to_nat k = Some id;
  pk_n : new_npoints p = Z.of_nat (length ids);
  pk_dead : ∀ id nh, deleted_nhoods p !! id = Some nh ↔ id ∈ dels ∧ nh = dead_nhood id
}.

Lemma insert_new_lookup {B} (mp : gmap Z B) k v : mp !! k = None → insert_new mp k v = <[k := v]> mp.
Proof. intros E. unfold insert_new. by rewrite E. Qed.

Lemma pop_ok_survivor ids dels p id :
  pop_ok ids dels p → id ∉ ids →
  pop_ok (ids ++ [id]) dels
    (mkPop (insert_new (id_map p) id (new_npoints p)) (insert_new (rev_id_map p) (new_npoints p) id)
       (deleted_nhoods p) (new_npoints p + 1)).
Proof.
  intros [P1 P2 P3 P4] Hid.
  assert (∀ x k, 0 <= k ∧ (ids ++ [id]) !! Z.to_nat k = Some x ↔ (0 <= k ∧ ids !! Z.to_nat k = Some x) ∨ (x = id ∧ k = new_npoints p)) as Hl.
  { intros x k. rewrite lookup_snoc_Some, P3. split.
    - intros [Hk0 [[Hk E]|[Hk ->]]]; [by left|right; split; [done|lia]].
    - intros [[Hk0 E]|[-> ->]].
      + split; [done|left; split; [by eapply lookup_lt_Some|done]].
      + split; [lia|right; split; [lia|done]]. }
  rewrite !insert_new_lookup.
  - split; simpl.
    + intros x k. rewrite lookup_insert_Some, P1, Hl. split.
      * intros [[-> <-]|[_ ?]]; [by right|by left].
      * intros [[Hk E]|[-> ->]]; [|by left]. right. split; [|done]. intros ->. apply Hid. by eapply list_elem_of_lookup_2.
    + intros k x. rewrite lookup_insert_Some, P2, Hl. split.
      * intros [[<- ->]|[_ ?]]; [by right|by left].
      * intros [[Hk E]|[-> ->]]; [|by left]. right. split; [|done]. intros <-. apply lookup_lt_Some in E. lia.
    + rewrite length_app. simpl. lia.
    + done.
  - destruct (rev_id_map p !! new_npoints p) as [x|] eqn:E; [|done]. apply P2 in E as [_ E]. apply lookup_lt_Some in E. lia.
  - destruct (id_map p !! id) as [k|] eqn:E; [|done]. apply P1 in E as [_ E]. destruct Hid. by eapply list_elem_of_lookup_2.
Qed.

Lemma pop_ok_dead ids dels p id :
  pop_ok ids dels p → id ∉ dels →
  pop_ok ids (dels ++ [id]) (mkPop (id_map p) (rev_id_map p) (insert_new (deleted_nhoods p) id (dead_nhood id)) (new_npoints p)).
Proof.
  intros [P1 P2 P3 P4] Hid. rewrite insert_new_lookup.
  - split; simpl; [done|done|done|]. intros x nh. rewrite lookup_insert_Some, P4, elem_of_app, list_elem_of_singleton. split.
    + intros [[-> <-]|[_ [? ?]]]; auto.
    + intros [[Hx| ->] ->]; [|by left]. right. split; [|done]. by intros ->.
  - destruct (deleted_nhoods p !! id) as [nh|] eqn:E; [|done]. by apply P4 in E as [? _].
Qed.

Lemma populate_locs_spec L ids dels p :
  pop_ok ids dels p → Forall (λ l, 0 <= l < cur_loc tb) L → NoDup (ids ++ omap survivor L) → NoDup (dels ++ omap dead L) →
  ∃ p', populate_locs s deleted p L = Some p' ∧ pop_ok (ids ++ omap survivor L) (dels ++ omap dead L) p'.
Proof.
  revert ids dels p. induction L as [|l L IH]; intros ids dels p Hp HL Hn1 Hn2; [exists p; csimpl; by rewrite !app_nil_r|].
  apply Forall_cons in HL as [Hl HL]. csimpl in *.
  assert (∃ x, loc2id tb l = Some x ∧ slot (loc2id_ tb) l = Some x) as (x & Ex & Es).
  { pose proof (to_cur m _ (ix_tables m pr s Hs)). destruct (slot_is_Some (loc2id_ tb) l) as [x Hx]; [lia|]. exists x.
    unfold loc2id. rewrite (proj2 (Z.ltb_ge _ _)) by lia. done. }
  unfold populate_loc. rewrite Ex. cbn [mbind option_bind]. destruct (Z.eqb_spec x kInvalidID) as [->|Hne].
  { assert (survivor l = None ∧ dead l = None) as [E1 E2] by (unfold survivor, dead, live_at; rewrite Es; done).
    rewrite E1 in Hn1 |- *. rewrite E2 in Hn2 |- *. cbn [mbind option_bind]. by apply IH. }
  assert (live_at l = Some x) as El by (unfold live_at; rewrite Es; simpl; by rewrite (proj2 (Z.eqb_neq _ _))).
  destruct (del x) eqn:Ed.
  - assert (survivor l = None ∧ dead l = Some x) as [E1 E2] by (unfold survivor, dead; rewrite El; simpl; by rewrite Ed).
    rewrite E1 in Hn1 |- *. rewrite E2 in Hn2 |- *. destruct (live_facts l x Hl El) as (_ & _ & r & Er & En & _).
    rewrite Er. cbn [mbind option_bind].
    replace (take n_sampled (filter (λ y, del y = false) (n_nbrs r))) with (dead_nhood x) by (unfold dead_nhood; by rewrite En).
    rewrite cons_middle, (app_assoc dels) in Hn2 |- *. apply IH; [|done..]. apply pop_ok_dead; [done|].
    apply NoDup_app in Hn2 as (Hn2 & _). apply NoDup_app in Hn2 as (_ & Hd & _). intros Hin. apply (Hd x Hin). by left.
  - assert (survivor l = Some x ∧ dead l = None) as [E1 E2] by (unfold survivor, dead; rewrite El; simpl; by rewrite Ed).
    rewrite E1 in Hn1 |- *. rewrite E2 in Hn2 |- *. cbn [mbind option_bind].
    rewrite cons_middle, (app_assoc ids) in Hn1 |- *. apply IH; [|done..]. apply pop_ok_survivor; [done|].
    apply NoDup_app in Hn1 as (Hn1 & _). apply NoDup_app in Hn1 as (_ & Hd & _). intros Hin. apply (Hd x Hin). by left.
Qed.

Definition all_locs : list Z := concat (map order (chunks (Z.to_nat (cur_loc tb)) 0 (cur_loc tb) LOC_PER_POPULATE)).
Definition new_ids : list Z := omap survivor all_locs.

Lemma concat_order l : concat (map order l) ≡ₚ concat l.
Proof. induction l as [|a l IH]; simpl; [done|]. by rewrite IH, Hord. Qed.

Lemma cur_loc_nonneg : 0 <= cur_loc tb.
Proof. apply (to_cur m _ (ix_tables m pr s Hs)). Qed.

Lemma all_locs_perm : all_locs ≡ₚ seqZ 0 (cur_loc tb).
Proof.
  unfold all_locs. rewrite concat_order, chunks_concat; [by rewrite Z.sub_0_r|done|]. pose proof cur_loc_nonneg. lia.
Qed.

Lemma all_locs_facts : NoDup all_locs ∧ Forall (λ l, 0 <= l < cur_loc tb) all_locs.
Proof.
  split; [rewrite all_locs_perm; apply NoDup_seqZ|]. apply Forall_forall. intros l Hl.
  rewrite all_locs_perm, elem_of_seqZ in Hl. lia.
Qed.

Lemma elem_of_new_ids id : id ∈ new_ids ↔ 0 <= id < x_cur_id s ∧ del id = false.
Proof.
  unfold new_ids. rewrite list_elem_of_omap. split.
  - intros (l & Hl & E). rewrite survivor_live in E. destruct E as [E Ed]. rewrite all_locs_perm, elem_of_seqZ in Hl.
    destruct (live_facts l id) as (Hid & _); [lia|done|]. done.
  - intros [Hid Ed]. destruct (live_home id Hid) as (l & Hl & E). exists l. rewrite all_locs_perm, elem_of_seqZ.
    split; [lia|]. by apply survivor_live.
Qed.

Lemma elem_of_dels id : id ∈ omap dead all_locs ↔ 0 <= id < x_cur_id s ∧ del id = true.
Proof.
  rewrite list_elem_of_omap. split.
  - intros (l & Hl & E). rewrite dead_live in E. destruct E as [E Ed]. rewrite all_locs_perm, elem_of_seqZ in Hl.
    destruct (live_facts l id) as (Hid & _); [lia|done|]. done.
  - intros [Hid Ed]. destruct (live_home id Hid) as (l & Hl & E). exists l. rewrite all_locs_perm, elem_of_seqZ.
    split; [lia|]. by apply dead_live.
Qed.

Lemma new_ids_NoDup : NoDup new_ids.
Proof.
  destruct all_locs_facts as [Hnd HL]. apply NoDup_omap_live; [|done|done]. intros l id E. by apply survivor_live in E as [? _].
Qed.

Lemma populate_spec : ∃ p, populate s deleted = Some p ∧ pop_ok new_ids (omap dead all_locs) p.
Proof.
  destruct all_locs_facts as [Hnd HL]. destruct (populate_locs_spec all_locs [] [] (mkPop ∅ ∅ ∅ 0)) as (p & E & Hp).
  - split; simpl; [..|done|].
    + intros id k. rewrite lookup_empty, lookup_nil. by split; [|intros [_ ?]].
    + intros id k. rewrite lookup_empty, lookup_nil. by split; [|intros [_ ?]].
    + intros id nh. rewrite lookup_empty, elem_of_nil. by split; [|intros [? _]].
  - done.
  - apply new_ids_NoDup.
  - apply NoDup_omap_live; [|done|done]. intros l id E'. by apply dead_live in E' as [? _].
  - by exists p.
Qed.

(** The ids of the locations before a chunk boundary are the first ones. *)
Lemma new_ids_prefix c :
  0 <= c → (LOC_PER_POPULATE | c) →
  ∃ post, ∃ pre, new_ids = pre ++ post ∧ pre ≡ₚ omap survivor (seqZ 0 (Z.min (cur_loc tb) c)).
Proof.
  intros Hc Hd. pose proof cur_loc_nonneg.
  destruct (chunks_split (Z.to_nat (cur_loc tb)) 0 (cur_loc tb) LOC_PER_POPULATE c) as (l1 & l2 & E & E1); [done|lia|lia|by rewrite Z.sub_0_r|].
  exists (omap survivor (concat (map order l2))), (omap survivor (concat (map order l1))).
  unfold new_ids, all_locs. rewrite E, map_app, concat_app, omap_app. split; [done|]. by rewrite concat_order, E1, Z.sub_0_r.
Qed.

(** ** Patched neighbour lists *)

Section patch.
Context (p : populated) (Hp : pop_ok new_ids (omap dead all_locs) p).

(** The nodes that replace the neighbours of a node. *)
Definition candidate (nbrs : list Z) (x : Z) : Prop :=
  ∃ y, y ∈ nbrs ∧ ((del y = false ∧ x = y) ∨ (del y = true ∧ x ∈ dead_nhood y)).

Lemma gather_spec nbrs set :
  (∀ y, y ∈ nbrs → 0 <= y < x_cur_id s) →
  ∃ set', gather s deleted p nbrs set = Some set' ∧ ∀ x, x ∈ set' ↔ x ∈ set ∨ candidate nbrs x.
Proof.
  revert set. induction nbrs as [|y nbrs IH]; intros set Hlive.
  { exists set. split; [done|]. intros x. split; [by left|]. intros [?|(y & Hy & _)]; [done|by apply elem_of_nil in Hy]. }
  assert (∀ x, candidate (y :: nbrs) x ↔ ((del y = false ∧ x = y) ∨ (del y = true ∧ x ∈ dead_nhood y)) ∨ candidate nbrs x) as Hc.
  { intros x. unfold candidate. split.
    - intros (z & [->|Hz]%elem_of_cons & H); [by left|right; by exists z].
    - intros [H|(z & Hz & H)]; [exists y; split; [by left|done]|exists z; split; [by right|done]]. }
  simpl. destruct (del y) eqn:Ed.
  - assert (deleted_nhoods p !! y = Some (dead_nhood y)) as ->.
    { apply (pk_dead _ _ _ Hp). split; [|done]. apply elem_of_dels. split; [apply Hlive; by left|done]. }
    cbn [mbind option_bind]. destruct (IH (set ∪ list_to_set (dead_nhood y))) as (set' & E & Hs'); [by intros z Hz; apply Hlive; right|].
    exists set'. split; [done|]. intros x. rewrite Hs', Hc, elem_of_union, elem_of_list_to_set. intuition congruence.
  - destruct (IH ({[y]} ∪ set)) as (set' & E & Hs'); [by intros z Hz; apply Hlive; right|].
    exists set'. split; [done|]. intros x. rewrite Hs', Hc, elem_of_union, elem_of_singleton. intuition congruence.
Qed.

(** Every candidate survives. *)
Lemma candidate_survives id r x :
  0 <= id < x_cur_id s → node_at m s id = Some r → candidate (n_nbrs r) x → x ∈ new_ids.
Proof.
  intros Hid Er (y & Hy & Hx). rewrite elem_of_new_ids.
  assert (∀ i q z, 0 <= i < x_cur_id s → node_at m s i = Some q → z ∈ n_nbrs q → 0 <= z < x_cur_id s) as Hlive.
  { intros i q z Hi Eq Hz. destruct (ix_graph m pr s Hs i Hi) as (q' & Eq' & [_ _ _ K]). rewrite Eq in Eq'. injection Eq' as <-. by apply K. }
  pose proof (Hlive id r y Hid Er Hy) as Hyl. destruct Hx as [[Ed ->]|[Ed Hx]]; [done|].
  unfold dead_nhood in Hx. destruct (node_at m s y) as [q|] eqn:Eq; [|by apply elem_of_nil in Hx].
  rewrite elem_of_take in Hx. destruct Hx as (i & Hx & _). apply list_elem_of_lookup_2, list_elem_of_filter in Hx as [Hx1 Hx2].
  split; [by eapply Hlive|done].
Qed.

(** The list of a survivor in old ids. *)
Record patched (id : Z) (r : rec) (nh : list Z) : Prop := mkPatched {
  pt_len : (length nh ≤ R pr)%nat;
  pt_nodup : NoDup nh;
  pt_sub : ∀ x, x ∈ nh → x ≠ id ∧ candidate (n_nbrs r) x;
  (** all candidates are kept when they fit *)
  pt_all : ∀ l, NoDup l → (∀ x, x ∈ l ↔ x ≠ id ∧ candidate (n_nbrs r) x) → (length l ≤ R pr)%nat → nh ≡ₚ l
}.

Lemma merged_nhood_spec id r :
  (∀ x y, is_nan (nbr_dist x y) = false) → alpha pr ≠ f_infinity →
  0 <= id < x_cur_id s → node_at m s id = Some r →
  ∃ nh, merged_nhood s deleted p id r = Some nh ∧ patched id r nh.
Proof.
  intros Hnan Hinf Hid Er. destruct (ix_graph m pr s Hs id Hid) as (q & Eq & [_ _ _ K]). rewrite Er in Eq. injection Eq as <-.
  destruct (gather_spec (n_nbrs r) ∅ K) as (set & E & Hset). unfold merged_nhood. rewrite E. cbn [mbind option_bind].
  set (nh := hash_order (elements (set ∖ {[id]}))).
  assert (∀ x, x ∈ nh ↔ x ≠ id ∧ candidate (n_nbrs r) x) as Hin.
  { intros x. unfold nh. rewrite Hhash, elem_of_elements, elem_of_difference, Hset, elem_of_empty, elem_of_singleton. tauto. }
  assert (NoDup nh) as Hnd by (unfold nh; rewrite Hhash; apply NoDup_elements).
  assert (∀ l, NoDup l → (∀ x, x ∈ l ↔ x ≠ id ∧ candidate (n_nbrs r) x) → nh ≡ₚ l) as Hperm.
  { intros l Hl Hlx. apply NoDup_Permutation; [done|done|]. intros x. by rewrite Hin, Hlx. }
  destruct (Nat.ltb_spec (R pr) (length nh)) as [Hlt|Hge].
  - assert (map Neighbor.id (map (λ x, new_neighbor x (nbr_dist id x)) nh) = nh) as Eids by (rewrite map_map; simpl; apply map_id).
    destruct (prune_neighbors_pruned metric nbr_dist (map (λ x, new_neighbor x (nbr_dist id x)) nh) nh pr) as (o & Eo & [P1 P2 P3 _ _ _]).
    + destruct nh; [simpl in Hlt; lia|done].
    + apply Forall_forall. intros n (x & -> & _)%list_elem_of_fmap. unfold ok. simpl. apply Hnan.
    + by rewrite Eids.
    + done.
    + rewrite Eo. cbn [mbind option_bind]. exists o. split; [done|]. split; [done|done| |].
      * intros x Hx. apply P2 in Hx. apply Hin. rewrite <- Eids. apply list_elem_of_fmap in Hx as (n & -> & Hn).
        apply list_elem_of_fmap_2. unfold candidates in Hn. apply elem_of_take in Hn as (i & Hi & _). apply list_elem_of_lookup_2 in Hi.
        by rewrite std_sort_Permutation in Hi.
      * intros l Hl Hlx Hlen. exfalso. rewrite <- (Hperm l Hl Hlx) in Hlen. lia.
  - exists nh. split; [done|]. split; [done|done|by intros x Hx; apply Hin|]. intros l Hl Hlx _. by apply Hperm.
Qed.

(** A survivor's new record. *)
Record merged_ok (id : Z) (r r' : rec) : Prop := mkMergedOk {
  mo_coords : n_coords r' = n_coords r;
  mo_attrs : 0 < attr_size m → n_attrs r' = n_attrs r;
  mo_dense : n_dense r' = [];
  mo_nbrs : ∃ nh, patched id r nh ∧ mapM (λ x, id_map p !! x) nh = Some (n_nbrs r')
}.

Context (Hnan : ∀ x y, is_nan (nbr_dist x y) = false) (Hinf : alpha pr ≠ f_infinity) (HR : Z.of_nat (R pr) <= range m).

Lemma merged_rec_spec id r old :
  0 <= id < x_cur_id s → node_at m s id = Some r →
  ∃ r', merged_rec s deleted p id r old = Some r' ∧ merged_ok id r r'.
Proof.
  intros Hid Er. destruct (merged_nhood_spec id r Hnan Hinf Hid Er) as (nh & E & Hpt). unfold merged_rec. rewrite E. cbn [mbind option_bind].
  assert (is_Some (mapM (λ x, id_map p !! x) nh)) as [nb Enb].
  { apply mapM_is_Some_2, Forall_forall. intros x Hx. destruct (pt_sub _ _ _ Hpt x Hx) as [_ Hc].
    pose proof (candidate_survives id r x Hid Er Hc) as [i Hi]%list_elem_of_lookup. exists (Z.of_nat i).
    apply (pk_map _ _ _ Hp). split; [lia|]. by rewrite Nat2Z.id. }
  rewrite Enb. cbn [mbind option_bind]. unfold store_nbrs. pose proof (length_mapM _ _ _ Enb) as Hl. pose proof (pt_len _ _ _ Hpt).
  rewrite (proj2 (Z.leb_le _ _)) by lia. eexists. split; [done|]. split; simpl; [done| |done|by exists nh].
  intros Hpos. by rewrite (proj2 (Z.ltb_lt _ _)).
Qed.

Lemma merged_nbrs_ok id k r r' :
  0 <= id < x_cur_id s → node_at m s id = Some r → id_map p !! id = Some k → merged_ok id r r' →
  nbrs_ok pr (Z.of_nat (length new_ids)) k (n_nbrs r').
Proof.
  intros Hid Er Ek [_ _ _ (nh & [P1 P2 P3 _] & E)]. pose proof (length_mapM _ _ _ E) as Hl. apply mapM_Some in E.
  rewrite Forall2_same_length_lookup in E. destruct E as [_ E].
  assert (∀ i y, n_nbrs r' !! i = Some y → ∃ x, nh !! i = Some x ∧ 0 <= y ∧ new_ids !! Z.to_nat y = Some x) as Hback.
  { intros i y Hy. destruct (lookup_lt_is_Some_2 nh i) as [x Hx]; [apply lookup_lt_Some in Hy; lia|]. exists x. split; [done|].
    apply (pk_map _ _ _ Hp). by apply (E i). }
  split.
  - lia.
  - apply NoDup_alt. intros i j y Hi Hj. destruct (Hback i y Hi) as (x & Hx & _ & E1), (Hback j y Hj) as (x' & Hx' & _ & E2).
    rewrite E1 in E2. injection E2 as <-. by eapply NoDup_lookup.
  - intros [i Hi]%list_elem_of_lookup. destruct (Hback i k Hi) as (x & Hx & _ & E1). apply (pk_map _ _ _ Hp) in Ek as [_ Ek].
    rewrite E1 in Ek. injection Ek as ->. apply list_elem_of_lookup_2 in Hx. by apply P3 in Hx as [? _].
  - intros y [i Hi]%list_elem_of_lookup. destruct (Hback i y Hi) as (x & _ & Hy & E1). apply lookup_lt_Some in E1. lia.
Qed.

(** ** The window *)

Local Abbreviation LPM := LOC_PER_MERGE.
Local Abbreviation npg := (nodes_per_io m).

Context (Hbig : Z.of_nat (length new_ids) <= cur_loc tb).

Lemma LPM_facts : 131072 <= LPM ∧ (npg | LPM) ∧ LPM < 2 ^ 31.
Proof.
  unfold LOC_PER_MERGE, nodes_per_io. destruct (Z.ltb_spec 0 (nnodes_per_sector m)) as [Hn|Hn].
  - pose proof (nnps_bound m Hm). unfold SECTOR_LEN in *.
    destruct (round_up_spec 131072 (nnodes_per_sector m)) as [H1 H2]; [lia..|].
    split_and!; [lia|rewrite H2; apply Z.divide_factor_l|lia].
  - split_and!; [lia|apply Z.divide_1_l|lia].
Qed.

Lemma id_u32 k : 0 <= k < Z.of_nat (length new_ids) → is_u32 k.
Proof. intros Hk. apply (fits_u32 m k (cur_loc tb)); [apply (to_fits m _ (ix_tables m pr s Hs))|lia]. Qed.

Lemma vec_u32 k : is_u32 (k mod VEC_IN_WBUF).
Proof.
  destruct LPM_facts as (? & _ & ?). pose proof (Z.mod_pos_bound k VEC_IN_WBUF). unfold VEC_IN_WBUF in *. unfold is_u32. lia.
Qed.

Lemma off_vec k : off m (k mod VEC_IN_WBUF) = off m k.
Proof.
  destruct LPM_facts as (? & [d Hd] & ?). pose proof (npg_pos m Hm). unfold off, VEC_IN_WBUF. f_equal.
  rewrite Hd. replace (2 * (d * npg)) with (npg * (2 * d)) by lia. apply Z.mod_mod_divide. apply Z.divide_factor_l.
Qed.

Lemma wslot_inj lo i j : lo <= i < lo + VEC_IN_WBUF → lo <= j < lo + VEC_IN_WBUF → wslot i = wslot j → i = j.
Proof.
  intros Hi Hj E. injection E as E1 E2. destruct LPM_facts as (? & _ & _).
  assert (i mod VEC_IN_WBUF = j mod VEC_IN_WBUF) as Hmod.
  { apply (sector_off_inj m Hm); [apply vec_u32..|lia|]. by rewrite !off_vec. }
  assert (0 < VEC_IN_WBUF) by (unfold VEC_IN_WBUF; lia). generalize dependent VEC_IN_WBUF. intros w Hi Hj _ E Hw.
  pose proof (Z.div_mod i w). pose proof (Z.div_mod j w). destruct (Z.lt_trichotomy (i / w) (j / w)) as [|[He|]]; [nia| |nia].
  rewrite He, E in *. lia.
Qed.

(** A half of the window holds consecutive pages of the new file. *)
Lemma window_page wb k :
  0 <= wb → (LPM | wb) → wb <= k < wb + LPM → is_u32 k →
  (wb mod VEC_IN_WBUF) / LPM * sectors_per_batch + (loc_sector_no m k - loc_sector_no m wb)
  = loc_sector_no m (k mod VEC_IN_WBUF) - loc_sector_no m 0.
Proof.
  intros Hwb [d Hd] Hk Hku. destruct LPM_facts as (HL & [e He] & _). pose proof (npg_pos m Hm) as Hnpg.
  assert (is_u32 wb) as Hwu by (unfold is_u32 in *; lia).
  set (h := d mod 2). assert (0 <= h < 2) as Hh by (apply Z.mod_pos_bound; lia).
  assert (wb mod VEC_IN_WBUF = h * LPM) as Ewb.
  { unfold VEC_IN_WBUF. rewrite Hd, (Z.mul_comm d), (Z.mul_comm 2), Z.mul_mod_distr_l by lia. unfold h. lia. }
  assert (k mod VEC_IN_WBUF = h * LPM + (k - wb)) as Ek.
  { symmetry. apply Z.mod_unique with (d / 2); [left; unfold VEC_IN_WBUF; nia|].
    pose proof (Z.div_mod d 2 ltac:(lia)). unfold VEC_IN_WBUF, h. rewrite Hd. nia. }
  rewrite Ek, Ewb, Z.div_mul by lia. rewrite <- Ek. pose proof (vec_u32 k) as Hvu. rewrite !loc_sector_no_eq by (done || (unfold is_u32; lia)).
  rewrite Ek. unfold sectors_per_batch, nodes_per_io, sectors_per_node in *. destruct (Z.ltb_spec 0 (nnodes_per_sector m)) as [Hn|Hn]; [|nia].
  rewrite He, Z.div_mul, Z.div_0_l by lia. rewrite Hd, He.
  replace (h * (e * nnodes_per_sector m) + (k - d * (e * nnodes_per_sector m)))
    with ((k - d * (e * nnodes_per_sector m)) + (h * e) * nnodes_per_sector m) by lia.
  rewrite Z.div_add by lia. rewrite (Z.mul_assoc d), Z.div_mul by lia.
  replace k with ((k - d * e * nnodes_per_sector m) + (d * e) * nnodes_per_sector m) at 1 by lia. rewrite Z.div_add by lia. lia.
Qed.

(** ** A batch *)

Definition in_window (st : merging) (id k : Z) : Prop :=
  ∃ r r', wbuf st !! wslot k = Some r' ∧ node_at m s id = Some r ∧ merged_ok id r r'.

Lemma loc2id_in l : 0 <= l < cur_loc tb → ∃ x, loc2id tb l = Some x ∧ slot (loc2id_ tb) l = Some x.
Proof.
  intros Hl. pose proof (to_cur m _ (ix_tables m pr s Hs)). destruct (slot_is_Some (loc2id_ tb) l) as [x Hx]; [lia|]. exists x.
  unfold loc2id. rewrite (proj2 (Z.ltb_ge _ _)) by lia. done.
Qed.

Lemma merge_loc_spec st l :
  0 <= l < cur_loc tb → length (new_tags st) = length new_ids →
  match survivor l with
  | None => merge_loc s deleted p st l = Some st
  | Some id => ∃ k r r', id_map p !! id = Some k ∧ node_at m s id = Some r ∧ merged_ok id r r'
      ∧ merge_loc s deleted p st l
        = Some (mkMrg (<[wslot k := r']> (wbuf st)) (n_used_id st + 1) (wb_id st)
                  (<[Z.to_nat k := id2tag (x_tags s) id]> (new_tags st)) (out st))
  end.
Proof.
  intros Hl Hlen. destruct (loc2id_in l Hl) as (x & Ex & Es). unfold survivor, live_at, merge_loc. rewrite Ex, Es. cbn [mbind option_bind].
  destruct (Z.eqb_spec x kInvalidID) as [->|Hne]; [done|]. cbn [mbind option_bind]. destruct (del x) eqn:Ed; [done|].
  assert (live_at l = Some x) as El by (unfold live_at; rewrite Es; simpl; by rewrite (proj2 (Z.eqb_neq _ _))).
  destruct (live_facts l x Hl El) as (Hx & _ & r & Er & En & _).
  assert (x ∈ new_ids) as [i Hi]%list_elem_of_lookup by by apply elem_of_new_ids.
  assert (id_map p !! x = Some (Z.of_nat i)) as Ei by (apply (pk_map _ _ _ Hp); split; [lia|by rewrite Nat2Z.id]).
  destruct (merged_rec_spec x r (default garbage (wbuf st !! wslot (Z.of_nat i))) Hx En) as (r' & Er' & Hok).
  exists (Z.of_nat i), r, r'. split_and!; [done|done|done|]. rewrite Er, Ei. cbn [mbind option_bind]. rewrite Er'. cbn [mbind option_bind].
  rewrite vset_Some; [done|]. apply lookup_lt_Some in Hi. lia.
Qed.

Lemma merge_locs_spec L st :
  Forall (λ l, 0 <= l < cur_loc tb) L → length (new_tags st) = length new_ids → NoDup (omap survivor L) →
  (∀ id k, id ∈ omap survivor L → id_map p !! id = Some k → wb_id st <= k < wb_id st + VEC_IN_WBUF) →
  ∃ st', merge_locs s deleted p st L = Some st' ∧ wb_id st' = wb_id st ∧ out st' = out st
  ∧ n_used_id st' = n_used_id st + Z.of_nat (length (omap survivor L)) ∧ length (new_tags st') = length new_ids
  ∧ (∀ id k, id ∈ omap survivor L → id_map p !! id = Some k →
       in_window st' id k ∧ new_tags st' !! Z.to_nat k = Some (id2tag (x_tags s) id))
  ∧ (∀ id k, id ∉ omap survivor L → id_map p !! id = Some k → wb_id st <= k < wb_id st + VEC_IN_WBUF →
       wbuf st' !! wslot k = wbuf st !! wslot k)
  ∧ (∀ id k, id ∉ omap survivor L → id_map p !! id = Some k → new_tags st' !! Z.to_nat k = new_tags st !! Z.to_nat k).
Proof.
  assert (∀ a b k, id_map p !! a = Some k → id_map p !! b = Some k → a = b) as Hinj.
  { intros a b k [_ Ha]%(pk_map _ _ _ Hp) [_ Hb]%(pk_map _ _ _ Hp). congruence. }
  assert (∀ a k, id_map p !! a = Some k → 0 <= k) as Hpos by (intros a k [? _]%(pk_map _ _ _ Hp); done).
  revert st. induction L as [|l L IH]; intros st HL Hlen Hnd Hwin.
  { exists st. csimpl. split_and!; [done|done|done|lia|done| |done|done]. by intros id k ?%elem_of_nil. }
  apply Forall_cons in HL as [Hl HL]. pose proof (merge_loc_spec st l Hl Hlen) as Hone. csimpl in *.
  destruct (survivor l) as [id|]; [|rewrite Hone; cbn [mbind option_bind]; by apply IH].
  destruct Hone as (k & r & r' & Ek & En & Hok & ->). cbn [mbind option_bind]. apply NoDup_cons in Hnd as [Hid Hnd].
  assert (wb_id st <= k < wb_id st + VEC_IN_WBUF) as Hk by (apply (Hwin id k); [by left|done]).
  match goal with |- context [merge_locs _ _ _ ?x L] => set (st1 := x) end.
  destruct (IH st1) as (st' & E & E1 & E2 & E3 & E4 & H1 & H2 & H3); [done|simpl; by rewrite length_insert|done| |].
  { intros x j Hx. apply Hwin. by right. }
  exists st'. split_and!; [done|done|done| |done| | |].
  - rewrite E3. simpl. lia.
  - intros x j [->|Hx]%elem_of_cons Ej; [|by apply H1]. rewrite Ek in Ej. injection Ej as <-. split.
    + exists r, r'. split_and!; [|done|done]. rewrite (H2 id k Hid Ek Hk). simpl. apply lookup_insert_eq.
    + rewrite (H3 id k Hid Ek). simpl. apply list_lookup_insert_eq. apply (pk_map _ _ _ Hp) in Ek as [_ Ek]. apply lookup_lt_Some in Ek. lia.
  - intros x j [Hx1 Hx2]%not_elem_of_cons Ej Hj. rewrite (H2 x j Hx2 Ej Hj). simpl. apply lookup_insert_ne. intros E0.
    apply Hx1. apply (Hinj x id j Ej). by rewrite <- (wslot_inj _ k j Hk Hj E0).
  - intros x j [Hx1 Hx2]%not_elem_of_cons Ej. rewrite (H3 x j Hx2 Ej). simpl. apply list_lookup_insert_ne. intros E0.
    apply Hx1. apply (Hinj x id j Ej). pose proof (Hpos _ _ Ek). pose proof (Hpos _ _ Ej). by replace j with k by lia.
Qed.

(** ** Writing half of the window *)

Lemma foldl_put {B} (f : Z → Z) (h : Z → B) l (d : gmap Z B) x :
  foldl (λ d q, <[f q := h (f q)]> d) d l !! x = if bool_decide (x ∈ map f l) then Some (h x) else d !! x.
Proof.
  revert d. induction l as [|q l IH]; intros d; [done|]. simpl foldl. rewrite IH. simpl map.
  destruct (decide (x ∈ map f l)) as [Hin|Hin].
  - rewrite !bool_decide_true; [done|by right|done].
  - rewrite (bool_decide_false (x ∈ map f l)) by done. destruct (decide (x = f q)) as [->|Hne].
    + rewrite bool_decide_true by (by left). apply lookup_insert_eq.
    + rewrite bool_decide_false by (by apply not_elem_of_cons). by apply lookup_insert_ne.
Qed.

Lemma write_back_spec st :
  let delta := Z.min LPM (n_used_id st - wb_id st) in
  0 <= wb_id st → (LPM | wb_id st) → wb_id st < n_used_id st → n_used_id st <= Z.of_nat (length new_ids) → disk_ok m (out st) →
  wb_id (write_back st) = wb_id st + delta ∧ disk_ok m (out (write_back st))
  ∧ (∀ k r, wb_id st <= k < wb_id st + delta → wbuf st !! wslot k = Some r → disk_rec m (out (write_back st)) k = Some r)
  ∧ (∀ k, 0 <= k < wb_id st → disk_rec m (out (write_back st)) k = disk_rec m (out st) k).
Proof.
  intros delta Hwb Hdiv Hlt Hn Hd. destruct LPM_facts as (HL & Hnl & _). pose proof (npg_pos m Hm) as Hnpg.
  assert (0 < delta) as Hdelta by lia. set (wb := wb_id st) in *.
  assert ((npg | wb)) as [d Hdw] by (by etransitivity).
  set (base := (wb mod VEC_IN_WBUF) / LPM * sectors_per_batch).
  set (pages := seqZ (wb / npg) ((wb + delta - 1) / npg - wb / npg + 1)).
  set (h := λ sec, wpage (wbuf st) (base + (sec - loc_sector_no m wb))).
  assert (out (write_back st) = foldl (λ d q, <[loc_sector_no m (q * npg) := h (loc_sector_no m (q * npg))]> d) (out st) pages) as -> by done.
  assert (∀ k, 0 <= k < wb + delta → loc_sector_no m k ∈ map (λ q, loc_sector_no m (q * npg)) pages ↔ wb <= k) as Hin.
  { intros k Hk. unfold pages. rewrite list_elem_of_fmap. assert (is_u32 k) as Hku by (apply id_u32; lia).
    assert (wb / npg = d) as -> by (rewrite Hdw; apply Z.div_mul; lia). split.
    - intros (q & E & Hq). rewrite elem_of_seqZ in Hq. assert (q <= (wb + delta - 1) / npg) by lia.
      assert (q * npg <= wb + delta - 1) by (pose proof (Z.mul_div_le (wb + delta - 1) npg Hnpg); nia).
      apply (sector_eq_iff m Hm) in E; [|done|apply id_u32; nia]. rewrite Z.div_mul in E by lia.
      pose proof (Z.mul_div_le k npg Hnpg). nia.
    - intros Hle. exists (k / npg). assert (d <= k / npg) by (apply Z.div_le_lower_bound; lia).
      assert (k / npg <= (wb + delta - 1) / npg) by (apply Z.div_le_mono; lia). rewrite elem_of_seqZ. split; [|lia].
      assert (k / npg * npg <= k) by (pose proof (Z.mul_div_le k npg Hnpg); lia).
      apply (sector_eq_iff m Hm); [done|apply id_u32; nia|]. by rewrite Z.div_mul by lia. }
  split_and!; [done| | |].
  - intros x pg. rewrite foldl_put. case_bool_decide; [|by apply Hd]. intros [= <-]. unfold h, wpage. by rewrite length_map, length_seq.
  - intros k r Hk Er. unfold disk_rec. rewrite foldl_put, bool_decide_true by (apply Hin; lia). cbn [mbind option_bind].
    unfold h, base. rewrite (window_page wb k); [|done|done|lia|apply id_u32; lia]. unfold wpage. change (map ?f ?l) with (f <$> l).
    rewrite list_lookup_fmap, lookup_seq_lt by (apply off_lt; done). simpl. unfold wslot in Er. by rewrite Er.
  - intros k Hk. unfold disk_rec. rewrite foldl_put, bool_decide_false; [done|]. rewrite Hin by lia. lia.
Qed.

(** ** All batches *)

Definition ids_below (c : Z) : list Z := omap survivor (seqZ 0 (Z.min (cur_loc tb) c)).

Record batch_inv (c : Z) (st : merging) : Prop := mkBatchInv {
  bi_c : 0 <= c ∧ (LOC_PER_POPULATE | c);
  bi_used : n_used_id st = Z.of_nat (length (ids_below c));
  bi_wb : 0 <= wb_id st <= n_used_id st ∧ (LPM | wb_id st) ∧ n_used_id st < wb_id st + LPM;
  bi_win : ∀ id k, id_map p !! id = Some k → wb_id st <= k < n_used_id st → in_window st id k;
  bi_out : ∀ id k, id_map p !! id = Some k → k < wb_id st →
             ∃ r r', disk_rec m (out st) k = Some r' ∧ node_at m s id = Some r ∧ merged_ok id r r';
  bi_tags : ∀ id k, id_map p !! id = Some k → k < n_used_id st → new_tags st !! Z.to_nat k = Some (id2tag (x_tags s) id);
  bi_len : length (new_tags st) = length new_ids;
  bi_disk : disk_ok m (out st)
}.

Lemma prefix_ids c id k :
  0 <= c → (LOC_PER_POPULATE | c) → id_map p !! id = Some k →
  (id ∈ ids_below c ↔ k < Z.of_nat (length (ids_below c))) ∧ (length (ids_below c) ≤ length new_ids)%nat.
Proof.
  intros Hc Hd Ek. destruct (new_ids_prefix c Hc Hd) as (post & pre & E & Hpre). fold (ids_below c) in Hpre. rewrite <- Hpre.
  apply (pk_map _ _ _ Hp) in Ek as [Hk Ek]. rewrite E, length_app. split; [|lia]. rewrite E in Ek. split.
  - intros [i Hi]%list_elem_of_lookup. assert (Z.to_nat k = i) as Hki.
    { eapply (NoDup_lookup new_ids); [apply new_ids_NoDup| |]; rewrite E; [exact Ek|]. by apply lookup_app_l_Some. }
    apply lookup_lt_Some in Hi. lia.
  - intros Hlt. rewrite lookup_app_l in Ek by lia. by eapply list_elem_of_lookup_2.
Qed.

Lemma ids_below_le c : 0 <= c → (LOC_PER_POPULATE | c) → (length (ids_below c) ≤ length new_ids)%nat.
Proof.
  intros Hc Hd. destruct (new_ids_prefix c Hc Hd) as (post & pre & E & Hpre). fold (ids_below c) in Hpre.
  rewrite <- Hpre, E, length_app. lia.
Qed.

Lemma omap_length (L : list Z) : (length (omap survivor L) ≤ length L)%nat.
Proof. induction L as [|l L IH]; csimpl; [done|]. destruct (survivor l); simpl; lia. Qed.

Context (Halign : (LOC_PER_POPULATE | LPM)).

Lemma batch_ids c :
  0 <= c < cur_loc tb → ids_below (c + LPM) = ids_below c ++ omap survivor (seqZ c (Z.min (cur_loc tb) (c + LPM) - c)).
Proof.
  intros Hc. destruct LPM_facts as (HL & _). unfold ids_below. rewrite <- omap_app. f_equal. rewrite (Z.min_r _ c) by lia.
  rewrite (seqZ_split 0 (Z.min (cur_loc tb) (c + LPM)) c) by lia. done.
Qed.

Lemma ids_below_NoDup c : NoDup (ids_below c).
Proof.
  apply NoDup_omap_live; [|apply NoDup_seqZ|]; [by intros l id [? _]%survivor_live|].
  apply Forall_forall. intros l Hl%elem_of_seqZ. lia.
Qed.

(** The survivors of a batch have the next ids. *)
Lemma batch_next c id k :
  0 <= c < cur_loc tb → (LOC_PER_POPULATE | c) → id_map p !! id = Some k →
  id ∈ omap survivor (seqZ c (Z.min (cur_loc tb) (c + LPM) - c)) ↔
  Z.of_nat (length (ids_below c)) <= k < Z.of_nat (length (ids_below (c + LPM))).
Proof.
  intros Hc Hd Ek. destruct LPM_facts as (HL & _). pose proof (batch_ids c Hc) as E. pose proof (ids_below_NoDup (c + LPM)) as Hnd.
  rewrite E in Hnd. apply NoDup_app in Hnd as (_ & Hdis & _).
  destruct (prefix_ids c id k) as [H1 _]; [lia|done|done|].
  destruct (prefix_ids (c + LPM) id k) as [H2 _]; [lia|by apply Z.divide_add_r|done|]. rewrite E in H2 at 1. rewrite elem_of_app in H2. split.
  - intros Hin. split; [|apply H2; by right]. apply Z.nlt_ge. intros Hlt. apply (Hdis id); [by apply H1|done].
  - intros [Hge Hlt]. apply H2 in Hlt as [Hlt|]; [|done]. apply H1 in Hlt. lia.
Qed.

Lemma merge_batch_inv c st :
  batch_inv c st → c < cur_loc tb →
  ∃ st', merge_batch s deleted p st (seqZ c (Z.min (cur_loc tb) (c + LPM) - c)) = Some st' ∧ batch_inv (c + LPM) st'.
Proof.
  intros [[B1 B1'] B2 (B3 & B3' & B3'') B4 B5 B6 B7 B8] Hc. destruct LPM_facts as (HL & _). set (L := seqZ c _).
  assert (0 <= c < cur_loc tb) as Hcb by lia. pose proof (batch_ids c Hcb) as E. fold L in E.
  assert (length (ids_below (c + LPM)) = length (ids_below c) + length (omap survivor L))%nat as El by (by rewrite E, length_app).
  assert (Z.of_nat (length (omap survivor L)) <= LPM) as HLl by (pose proof (omap_length L); unfold L in *; rewrite length_seqZ in *; lia).
  assert (∀ id k, id_map p !! id = Some k → id ∈ omap survivor L ↔
            Z.of_nat (length (ids_below c)) <= k < Z.of_nat (length (ids_below (c + LPM)))) as Hnext by (intros; by apply batch_next).
  assert ((LOC_PER_POPULATE | c + LPM)) as Hd' by (by apply Z.divide_add_r).
  destruct (merge_locs_spec L st) as (st1 & E1 & Ewb & Eout & Eused & Elen & H1 & H2 & H3).
  - apply Forall_forall. intros l Hl%elem_of_seqZ. lia.
  - done.
  - pose proof (ids_below_NoDup (c + LPM)) as Hnd. rewrite E in Hnd. by apply NoDup_app in Hnd as (_ & _ & ?).
  - intros id k Hin Ek. apply (Hnext id k Ek) in Hin. unfold VEC_IN_WBUF. lia.
  - unfold merge_batch. rewrite E1. cbn [mbind option_bind]. eexists. split; [done|].
    assert (n_used_id st1 = Z.of_nat (length (ids_below (c + LPM)))) as Eu by lia.
    assert (∀ id k, id_map p !! id = Some k → wb_id st <= k < n_used_id st1 → in_window st1 id k) as Hwin.
    { intros id k Ek Hk. destruct (decide (k < n_used_id st)) as [Hlt|Hge].
      - destruct (B4 id k Ek) as (r & r' & Hr); [lia|]. exists r, r'. rewrite (H2 id k); [done| |done|unfold VEC_IN_WBUF; lia].
        rewrite (Hnext id k Ek). lia.
      - apply H1; [|done]. apply (Hnext id k Ek). lia. }
    assert (∀ id k, id_map p !! id = Some k → k < n_used_id st1 → new_tags st1 !! Z.to_nat k = Some (id2tag (x_tags s) id)) as Htags.
    { intros id k Ek Hk. destruct (decide (k < n_used_id st)) as [Hlt|Hge].
      - rewrite (H3 id k); [by apply B6| |done]. rewrite (Hnext id k Ek). lia.
      - apply H1; [|done]. apply (Hnext id k Ek). lia. }
    pose proof (ids_below_le (c + LPM) ltac:(lia) Hd') as Hle.
    destruct (Z.leb_spec LPM (n_used_id st1 - wb_id st1)) as [Hfull|Hroom].
    + destruct (write_back_spec st1) as (W1 & W2 & W3 & W4); [lia|by rewrite Ewb|lia|lia|by rewrite Eout|]. rewrite Z.min_l in W1, W3 by lia.
      split; [split; [lia|done]|done| | | |exact Htags|done|done].
      * rewrite W1, Ewb. change (n_used_id (write_back st1)) with (n_used_id st1). split_and!; [lia|lia| |lia].
        apply Z.divide_add_r; [done|apply Z.divide_refl].
      * rewrite W1. change (n_used_id (write_back st1)) with (n_used_id st1). intros id k Ek Hk. apply Hwin; [done|lia].
      * rewrite W1. intros id k Ek Hk. pose proof Ek as [Hk0 _]%(pk_map _ _ _ Hp). destruct (decide (k < wb_id st1)) as [Hlt|Hge].
        -- rewrite W4 by lia. rewrite Eout. apply B5; [done|lia].
        -- destruct (Hwin id k Ek) as (r & r' & Er & En & Hok); [lia|]. exists r, r'. split_and!; [|done|done]. apply W3; [lia|done].
    + split; [split; [lia|done]|done| |by rewrite Ewb| |exact Htags|done|by rewrite Eout].
      * rewrite Ewb. split_and!; [lia|lia|done|lia].
      * rewrite Ewb, Eout. done.
Qed.

Lemma merge_batches_inv fuel c st :
  cur_loc tb - c <= Z.of_nat fuel → batch_inv c st →
  ∃ st' c', merge_batches s deleted p st (chunks fuel c (cur_loc tb) LPM) = Some st' ∧ cur_loc tb <= c' ∧ batch_inv c' st'.
Proof.
  destruct LPM_facts as (HL & _). revert c st. induction fuel as [|fuel IH]; intros c st Hf Hinv; [exists st, c; split_and!; [done|lia|done]|].
  simpl. destruct (Z.ltb_spec c (cur_loc tb)) as [Hlt|Hge]; [|by exists st, c]. simpl.
  destruct (merge_batch_inv c st Hinv Hlt) as (st1 & -> & Hinv'). cbn [mbind option_bind]. apply IH; [lia|done].
Qed.

(** The new file. *)
Lemma merged_file out0 :
  disk_ok m out0 →
  ∃ st1 st, merge_batches s deleted p (mkMrg ∅ 0 0 (replicate (length new_ids) 0) out0)
              (chunks (Z.to_nat (cur_loc tb)) 0 (cur_loc tb) LPM) = Some st1
  ∧ write_rest (Z.to_nat (n_used_id st1)) st1 = Some st ∧ disk_ok m (out st) ∧ length (new_tags st) = length new_ids
  ∧ ∀ id k, id_map p !! id = Some k → new_tags st !! Z.to_nat k = Some (id2tag (x_tags s) id)
      ∧ ∃ r r', disk_rec m (out st) k = Some r' ∧ node_at m s id = Some r ∧ merged_ok id r r'.
Proof.
  intros Hd0. pose proof cur_loc_nonneg. destruct LPM_facts as (HL & _).
  destruct (merge_batches_inv (Z.to_nat (cur_loc tb)) 0 (mkMrg ∅ 0 0 (replicate (length new_ids) 0) out0)) as (st1 & c & E & Hc & Hinv); [lia| |].
  { split; simpl; [split; [done|apply Z.divide_0_r]| |split_and!; [done|done|apply Z.divide_0_r|lia]| | | |by rewrite length_replicate|done].
    - unfold ids_below. rewrite Z.min_r by lia. done.
    - lia.
    - intros id k [? _]%(pk_map _ _ _ Hp). lia.
    - intros id k [? _]%(pk_map _ _ _ Hp). lia. }
  destruct Hinv as [[B1 B1'] B2 (B3 & B3' & B3'') B4 B5 B6 B7 B8]. pose proof (ids_below_le c B1 B1') as Hle.
  assert (∀ id k, id_map p !! id = Some k → k < n_used_id st1) as Hall.
  { intros id k Ek. rewrite B2. apply (prefix_ids c id k B1 B1' Ek). apply (pk_map _ _ _ Hp) in Ek as [_ Ek].
    apply list_elem_of_lookup_2 in Ek. unfold ids_below. rewrite Z.min_l by lia. unfold new_ids in Ek. by rewrite all_locs_perm in Ek. }
  exists st1. destruct (Z.ltb_spec (wb_id st1) (n_used_id st1)) as [Hlt|Hge].
  - destruct (write_back_spec st1) as (W1 & W2 & W3 & W4); [lia|done|lia|lia|done|]. rewrite Z.min_r in W1, W3 by lia.
    exists (write_back st1). split_and!; [done| |done|done|].
    + destruct (Z.to_nat (n_used_id st1)) as [|f] eqn:Ef; [lia|]. cbn [write_rest]. rewrite (proj2 (Z.ltb_lt _ _)) by lia.
      destruct f; cbn [write_rest]; (rewrite (proj2 (Z.ltb_ge _ _)); [done|]); rewrite W1; simpl; lia.
    + intros id k Ek. pose proof (Hall id k Ek). pose proof Ek as [Hk0 _]%(pk_map _ _ _ Hp). split; [by apply B6|].
      destruct (decide (k < wb_id st1)) as [Hk|Hk]; [rewrite W4 by lia; by apply B5|].
      destruct (B4 id k Ek) as (r & r' & Er & En & Hok); [lia|]. exists r, r'. split_and!; [|done|done]. apply W3; [lia|done].
  - exists st1. split_and!; [done| |done|done|].
    + destruct (Z.to_nat (n_used_id st1)); cbn [write_rest]; by rewrite (proj2 (Z.ltb_ge _ _)) by lia.
    + intros id k Ek. pose proof (Hall id k Ek). split; [by apply B6|]. apply B5; [done|lia].
Qed.

End patch.

(** ** Tables and tags *)

Lemma set_loc2id_in t l x :
  0 <= l < Z.of_nat (length (loc2id_ t)) →
  ∃ t', set_loc2id t l x = Some t' ∧ slot (loc2id_ t') l = Some x ∧ length (loc2id_ t') = length (loc2id_ t)
  ∧ (∀ k, 0 <= k → k ≠ l → slot (loc2id_ t') k = slot (loc2id_ t) k)
  ∧ id2loc_ t' = id2loc_ t ∧ cur_loc t' = cur_loc t ∧ empty_pages t' = empty_pages t.
Proof.
  intros Hl. unfold set_loc2id, put, grow. rewrite (proj2 (Z.leb_gt _ _)) by lia. rewrite vset_Some by lia. simpl. eexists.
  split; [done|]. simpl. split_and!; try done; [apply slot_insert; lia|apply length_insert|]. intros k Hk Hne. apply slot_insert_ne; lia.
Qed.

Lemma set_id2loc_in t i x :
  0 <= i < Z.of_nat (length (id2loc_ t)) →
  ∃ t', set_id2loc t i x = Some t' ∧ slot (id2loc_ t') i = Some x ∧ length (id2loc_ t') = length (id2loc_ t)
  ∧ (∀ k, 0 <= k → k ≠ i → slot (id2loc_ t') k = slot (id2loc_ t) k)
  ∧ loc2id_ t' = loc2id_ t ∧ cur_loc t' = cur_loc t ∧ empty_pages t' = empty_pages t.
Proof.
  intros Hl. unfold set_id2loc, put, grow. rewrite (proj2 (Z.leb_gt _ _)) by lia. rewrite vset_Some by lia. simpl. eexists.
  split; [done|]. simpl. split_and!; try done; [apply slot_insert; lia|apply length_insert|]. intros k Hk Hne. apply slot_insert_ne; lia.
Qed.

Lemma reset_tables_spec ids t :
  NoDup ids → (∀ i, i ∈ ids → 0 <= i < Z.of_nat (length (id2loc_ t)) ∧ i < Z.of_nat (length (loc2id_ t))) →
  ∃ t', reset_tables t ids = Some t' ∧ (∀ i, i ∈ ids → slot (id2loc_ t') i = Some i ∧ slot (loc2id_ t') i = Some i)
  ∧ (∀ i, 0 <= i → i ∉ ids → slot (id2loc_ t') i = slot (id2loc_ t) i ∧ slot (loc2id_ t') i = slot (loc2id_ t) i)
  ∧ length (loc2id_ t') = length (loc2id_ t) ∧ cur_loc t' = cur_loc t ∧ empty_pages t' = empty_pages t.
Proof.
  revert t. induction ids as [|i ids IH]; intros t Hnd Hr.
  { exists t. split_and!; [done| |done..]. by intros i ?%elem_of_nil. }
  apply NoDup_cons in Hnd as [Hi Hnd]. destruct (Hr i) as [Hi1 Hi2]; [by left|].
  destruct (set_id2loc_in t i i Hi1) as (t1 & E1 & S1 & L1 & K1 & A1 & B1 & C1).
  destruct (set_loc2id_in t1 i i) as (t2 & E2 & S2 & L2 & K2 & A2 & B2 & C2); [rewrite A1; lia|].
  destruct (IH t2) as (t' & E & H1 & H2 & H3 & H4 & H5); [done| |].
  { intros j Hj. destruct (Hr j) as [? ?]; [by right|]. rewrite A2, L1, L2, A1. lia. }
  exists t'. simpl. rewrite E1. cbn [mbind option_bind]. rewrite E2. cbn [mbind option_bind]. split_and!; [done| | |congruence..].
  - intros j [->|Hj]%elem_of_cons; [|by apply H1]. destruct (H2 i) as [-> ->]; [lia|done|]. by rewrite A2.
  - intros j Hj Hjn. apply not_elem_of_cons in Hjn as [Hne Hjn]. destruct (H2 j Hj Hjn) as [-> ->].
    rewrite A2, K1, K2, A1 by done. done.
Qed.

Lemma clear_locs_spec ls t :
  (∀ l, l ∈ ls → 0 <= l < Z.of_nat (length (loc2id_ t))) →
  ∃ t', clear_locs t ls = Some t' ∧ (∀ l, l ∈ ls → slot (loc2id_ t') l = Some kInvalidID)
  ∧ (∀ l, 0 <= l → l ∉ ls → slot (loc2id_ t') l = slot (loc2id_ t) l)
  ∧ length (loc2id_ t') = length (loc2id_ t) ∧ id2loc_ t' = id2loc_ t ∧ empty_pages t' = empty_pages t.
Proof.
  revert t. induction ls as [|l ls IH]; intros t Hr.
  { exists t. split_and!; [done| |done..]. by intros l ?%elem_of_nil. }
  destruct (set_loc2id_in t l kInvalidID) as (t1 & E1 & S1 & L1 & K1 & A1 & B1 & C1); [apply Hr; by left|].
  destruct (IH t1) as (t' & E & H1 & H2 & H3 & H4 & H5); [by intros k Hk; rewrite L1; apply Hr; right|].
  exists t'. simpl. rewrite E1. cbn [mbind option_bind]. split_and!; [done| | |congruence..].
  - intros k [->|Hk]%elem_of_cons; [|by apply H1]. destruct (decide (l ∈ ls)) as [Hin|Hn]; [by apply H1|].
    rewrite H2; [done| |done]. apply Hr. by left.
  - intros k Hk Hkn. apply not_elem_of_cons in Hkn as [Hne Hkn]. by rewrite H2, K1.
Qed.

Lemma track_tags_spec e ts i tags t2i :
  0 <= i →
  let res := track_tags e i ts tags t2i in
  (∀ k, i <= k < i + Z.of_nat (length ts) → res.1 !! k = ts !! Z.to_nat (k - i)) ∧ (∀ k, k < i → res.1 !! k = tags !! k)
  ∧ ((∀ t k, t2i !! t = Some k → k < i ∧ tags !! k = Some t) → e = true → ∀ t k, res.2 !! t = Some k → res.1 !! k = Some t).
Proof.
  revert i tags t2i. induction ts as [|t ts IH]; intros i tags t2i Hi; simpl.
  { split_and!; [intros; lia|done|]. intros H _ t k Hk. by apply H. }
  destruct (IH (i + 1) (<[i := t]> tags) (if e then <[t := i]> t2i else t2i)) as (H1 & H2 & H3); [lia|]. split_and!.
  - intros k Hk. destruct (decide (k = i)) as [->|Hne].
    + rewrite H2 by lia. rewrite lookup_insert_eq, Z.sub_diag. done.
    + rewrite H1 by lia. replace (Z.to_nat (k - i)) with (S (Z.to_nat (k - (i + 1)))) by lia. done.
  - intros k Hk. rewrite H2 by lia. apply lookup_insert_ne. lia.
  - intros Hold ->. apply H3; [|done]. intros t' k [[-> <-]|[Hne Hk]]%lookup_insert_Some.
    + split; [lia|apply lookup_insert_eq].
    + destruct (Hold t' k Hk) as [Hlt E]. split; [lia|]. rewrite lookup_insert_ne by lia. done.
Qed.

(** ** The merged index *)

Lemma new_ids_bound : Z.of_nat (length new_ids) <= cur_loc tb ∧ Z.of_nat (length new_ids) <= x_cur_id s.
Proof.
  pose proof cur_loc_nonneg. pose proof (ix_ids m pr s Hs). split.
  - unfold new_ids. rewrite all_locs_perm. pose proof (omap_length (seqZ 0 (cur_loc tb))) as Hl. rewrite length_seqZ in Hl. lia.
  - assert (length new_ids ≤ length (seqZ 0 (x_cur_id s)))%nat as Hl.
    { apply submseteq_length, NoDup_submseteq; [apply new_ids_NoDup|]. intros x [Hx _]%elem_of_new_ids. apply elem_of_seqZ. lia. }
    rewrite length_seqZ in Hl. lia.
Qed.

Lemma merged_placement n e : placement_ok (merged_meta n e).
Proof. destruct Hm. by split. Qed.

Lemma merged_cur_loc n e : 0 <= n <= cur_loc tb → n <= init_cur_loc (merged_meta n e) <= cur_loc tb.
Proof.
  intros Hn. destruct (init_cur_loc_spec (merged_meta n e) (merged_placement n e)) as [[a Ha] Hb]; [simpl; lia|].
  destruct (to_align m _ (ix_tables m pr s Hs)) as [b Hb']. pose proof (npg_pos m Hm) as Hp.
  change (nodes_per_io (merged_meta n e)) with (nodes_per_io m) in *. change (npoints (merged_meta n e)) with n in *.
  assert (a < b + 1) by (apply (Z.mul_lt_mono_pos_r (nodes_per_io m)); lia). nia.
Qed.

(** The tables after the reset and [reload]. *)
Lemma merged_tables n e t disk tags t2i :
  2 <= n <= cur_loc tb → n <= x_cur_id s → reset_tables tb (seqZ 0 n) = Some t →
  ∃ t', reload (merged_meta n e) (mkIdx t disk (x_cur_id s) tags t2i) = Some (mkIdx t' disk n tags t2i)
  ∧ tables_ok (merged_meta n e) t' ∧ cur_loc t' = init_cur_loc (merged_meta n e)
  ∧ (∀ i, 0 <= i < n → slot (id2loc_ t') i = Some i ∧ slot (loc2id_ t') i = Some i)
  ∧ ∀ l, n <= l < cur_loc t' → slot (loc2id_ t') l = Some kInvalidID.
Proof.
  intros Hn Hnid Et. pose proof (ix_tables m pr s Hs) as Hok. pose proof (to_cur m _ Hok) as Hcur. pose proof (merged_cur_loc n e ltac:(lia)) as Hcl.
  assert (x_cur_id s <= Z.of_nat (length (id2loc_ tb))) as Hidl.
  { destruct (ix_home m pr s Hs (x_cur_id s - 1)) as (l & Hl & _); [lia|]. apply slot_lt in Hl. lia. }
  destruct (reset_tables_spec (seqZ 0 n) tb) as (t0 & E0 & H1 & _ & H3 & H4 & H5); [apply NoDup_seqZ| |].
  { intros i Hi%elem_of_seqZ. lia. }
  rewrite Et in E0. injection E0 as <-. set (cl := init_cur_loc (merged_meta n e)) in *.
  destruct (clear_locs_spec (seqZ n (cl - n)) (mkLoc (id2loc_ t) (loc2id_ t) cl (empty_pages t))) as (t1 & E1 & K1 & K2 & K3 & K4 & K5).
  { intros l Hl%elem_of_seqZ. simpl. lia. }
  simpl in K2, K3, K4, K5.
  assert (∀ i, 0 <= i < n → slot (id2loc_ t1) i = Some i ∧ slot (loc2id_ t1) i = Some i) as Hslots.
  { intros i Hi. destruct (H1 i) as [G1 G2]; [apply elem_of_seqZ; lia|]. rewrite K4. split; [done|].
    rewrite K2; [done|lia|]. rewrite elem_of_seqZ. lia. }
  eexists. unfold reload. simpl x_tb. change (npoints (merged_meta n e)) with n. fold cl. rewrite E1. cbn [mbind option_bind]. split; [done|].
  split_and!; simpl.
  - apply equal_tables_ok; simpl; try done; [apply merged_placement|lia| |lia|lia| |].
    + apply (fits_le m Hm cl (cur_loc tb)); [apply (to_fits m _ Hok)|lia].
    + rewrite K5, H5. by rewrite (to_null m _ Hok).
    + intros l Hl. by apply Hslots.
  - done.
  - exact Hslots.
  - intros l Hl. apply K1. apply elem_of_seqZ. lia.
Qed.

Lemma choose_entry_spec p e :
  pop_ok new_ids (omap dead all_locs) p → 0 <= e < x_cur_id s → (del e = true → dead_nhood e ≠ []) →
  ∃ e' k, choose_entry s deleted 2 p e = Some e' ∧ id_map p !! e' = Some k ∧ 0 <= k < Z.of_nat (length new_ids)
  ∧ (del e = false → e' = e) ∧ (del e = true → head (dead_nhood e) = Some e').
Proof.
  intros Hp He Hne.
  assert (∀ x, x ∈ new_ids → ∃ k, id_map p !! x = Some k ∧ 0 <= k < Z.of_nat (length new_ids)) as Hk.
  { intros x [i Hi]%list_elem_of_lookup. exists (Z.of_nat i). split; [apply (pk_map _ _ _ Hp); split; [lia|by rewrite Nat2Z.id]|].
    apply lookup_lt_Some in Hi. lia. }
  cbn [choose_entry]. destruct (del e) eqn:Ed.
  - assert (deleted_nhoods p !! e = Some (dead_nhood e)) as ->.
    { apply (pk_dead _ _ _ Hp). split; [|done]. by apply elem_of_dels. }
    cbn [mbind option_bind]. destruct (dead_nhood e) as [|y l] eqn:En; [by destruct Hne|]. cbn [lookup list_lookup mbind option_bind].
    assert (y ∈ new_ids) as Hy.
    { destruct (ix_graph m pr s Hs e He) as (r & Er & [_ _ _ K]). unfold dead_nhood in En. rewrite Er in En.
      assert (y ∈ take n_sampled (filter (λ x, del x = false) (n_nbrs r))) as Hin by (rewrite En; by left).
      rewrite elem_of_take in Hin. destruct Hin as (i & Hin & _). apply list_elem_of_lookup_2, list_elem_of_filter in Hin as [H1 H2].
      apply elem_of_new_ids. split; [by apply K|done]. }
    destruct (Hk y Hy) as (k & Ek & Hkb). apply elem_of_new_ids in Hy as [_ ->]. exists y, k. split_and!; [done|done|lia|lia|done|done].
  - destruct (Hk e) as (k & Ek & Hkb); [by apply elem_of_new_ids|]. exists e, k. split_and!; [done|done|lia|lia|done|done].
Qed.

Lemma id_map_dom p id :
  pop_ok new_ids (omap dead all_locs) p → is_Some (id_map p !! id) ↔ 0 <= id < x_cur_id s ∧ del id = false.
Proof.
  intros Hp. rewrite <- elem_of_new_ids. split; [intros [k [_ Ek]%(pk_map _ _ _ Hp)]; by eapply list_elem_of_lookup_2|].
  intros [i Hi]%list_elem_of_lookup. exists (Z.of_nat i). apply (pk_map _ _ _ Hp). split; [lia|by rewrite Nat2Z.id].
Qed.

(** An index whose tables are the equal mapping and whose nodes are the merged ones. *)
Lemma merged_index_ok p e t' disk tags t2i :
  pop_ok new_ids (omap dead all_locs) p → (2 ≤ length new_ids)%nat → disk_ok m disk →
  let n := new_npoints p in let m' := merged_meta n e in
  tables_ok m' t' → cur_loc t' = init_cur_loc m' →
  (∀ i, 0 <= i < n → slot (id2loc_ t') i = Some i ∧ slot (loc2id_ t') i = Some i) →
  (∀ l, n <= l < cur_loc t' → slot (loc2id_ t') l = Some kInvalidID) →
  (∀ id k, id_map p !! id = Some k → ∃ r r', disk_rec m disk k = Some r' ∧ node_at m s id = Some r ∧ merged_ok p id r r') →
  index_ok m' pr (mkIdx t' disk n tags t2i)
  ∧ ∀ id k, id_map p !! id = Some k →
      ∃ r r', node_at m s id = Some r ∧ node_at m' (mkIdx t' disk n tags t2i) k = Some r' ∧ merged_ok p id r r'.
Proof.
  intros Hp Htwo Hdisk n m' Hok Hcl Hsl Hinv Hall. destruct new_ids_bound as [Hb1 Hb2]. pose proof (ix_ids m pr s Hs) as Hids.
  assert (n = Z.of_nat (length new_ids)) as En by apply (pk_n _ _ _ Hp).
  assert (∀ id k, id_map p !! id = Some k →
            ∃ r r', node_at m s id = Some r ∧ node_at m' (mkIdx t' disk n tags t2i) k = Some r' ∧ merged_ok p id r r') as Hnode.
  { intros id k Ek. destruct (Hall id k Ek) as (r & r' & Er' & Er & Hmo). exists r, r'. split_and!; [done| |done].
    apply (pk_map _ _ _ Hp) in Ek as [Hk Ek]. apply lookup_lt_Some in Ek.
    unfold node_at. simpl x_tb. by rewrite (slot_id2loc t' k k Hk) by (apply Hsl; lia). }
  split; [|done]. split; simpl x_tb; simpl x_cur_id; simpl x_disk; [done|lia| | |done|].
  - intros id Hid. exists id. destruct (Hsl id Hid) as [G1 G2]. pose proof (merged_cur_loc n e ltac:(lia)) as Hcl'. fold m' in Hcl'.
    split_and!; [done|lia|lia|done].
  - intros l x Hl Hx Hx'. destruct (decide (l < n)) as [Hlt|Hge].
    + destruct (Hsl l) as [G1 G2]; [lia|]. rewrite G2 in Hx. injection Hx as <-. split; [lia|done].
    + rewrite Hinv in Hx by lia. congruence.
  - intros k Hk. destruct (lookup_lt_is_Some_2 new_ids (Z.to_nat k)) as [id Hid]; [lia|].
    assert (id_map p !! id = Some k) as Ek by (apply (pk_map _ _ _ Hp); split; [lia|done]).
    destruct (Hnode id k Ek) as (r & r' & Er & Er' & Hmo). exists r'. split; [done|]. rewrite En.
    apply list_elem_of_lookup_2, elem_of_new_ids in Hid as [Hid _]. by eapply merged_nbrs_ok.
Qed.

(** C2: [merge_deletes] followed by [reload] turns a consistent index into a
    consistent index of exactly the surviving nodes, for every order in which the
    threads draw the new ids of a chunk and every iteration order of the hash sets,
    and for every set of deleted tags that leaves at least two nodes and, when the
    entry point's tag is deleted, a surviving node among the sampled neighbours of
    the entry point (with none the code reads the first element of an empty vector,
    see the findings).  Also required: the nodes of a sector fit it
    ([placement_ok]), the handler's distances are not NaN, alpha is finite, [R] is
    at most the record's [range], and the batches end at chunk boundaries
    ([LOC_PER_POPULATE] divides [LOC_PER_MERGE]).  The new ids number the survivors
    from zero without gap; a survivor keeps its vector, attributes and tag; its new
    list has at most [R] distinct survivors, all of them old neighbours or sampled
    neighbours of deleted neighbours, and all of those when they fit; the entry
    point is the old one or the first surviving sampled neighbour of it. *)
Theorem merge_deletes_correct etag out0 :
  (∀ x y, is_nan (nbr_dist x y) = false) → alpha pr ≠ f_infinity → Z.of_nat (R pr) <= range m →
  (LOC_PER_POPULATE | LOC_PER_MERGE) → disk_ok m out0 → (2 ≤ length new_ids)%nat →
  0 <= entry_point m < x_cur_id s → (del (entry_point m) = true → dead_nhood (entry_point m) ≠ []) →
  ∃ p e s1 s', merge_deletes s deleted etag out0 = Some (p, e, s1)
  ∧ (let m' := merged_meta (new_npoints p) e in
     reload m' s1 = Some s' ∧ index_ok m' pr s' ∧ x_cur_id s' = new_npoints p
     ∧ (∀ id, is_Some (id_map p !! id) ↔ 0 <= id < x_cur_id s ∧ del id = false)
     ∧ (∀ k, (∃ id, id_map p !! id = Some k) ↔ 0 <= k < new_npoints p)
     ∧ (∀ id id' k, id_map p !! id = Some k → id_map p !! id' = Some k → id = id')
     ∧ (∀ id k, id_map p !! id = Some k → ∃ r r', node_at m s id = Some r ∧ node_at m' s' k = Some r'
          ∧ merged_ok p id r r' ∧ id2tag (x_tags s') k = id2tag (x_tags s) id)
     ∧ (etag = true → ∀ t k, x_tag2id s' !! t = Some k → id2tag (x_tags s') k = t)
     ∧ ∃ e0, id_map p !! e0 = Some e ∧ (del (entry_point m) = false → e0 = entry_point m)
          ∧ (del (entry_point m) = true → head (dead_nhood (entry_point m)) = Some e0)).
Proof.
  intros Hnan Hinf HR Halign Hd0 Htwo He Hne. destruct populate_spec as (p & Epop & Hp). destruct new_ids_bound as [Hb1 Hb2].
  pose proof (pk_n _ _ _ Hp) as En.
  destruct (merged_file p Hp Hnan Hinf HR Hb1 Halign out0 Hd0) as (st1 & st & E1 & E2 & Hdisk & Htl & Hall).
  destruct (choose_entry_spec p (entry_point m) Hp He Hne) as (e0 & e & Ee0 & Ee & Heb & Hk1 & Hk2).
  destruct (reset_tables_spec (seqZ 0 (new_npoints p)) tb) as (t & Et & _); [apply NoDup_seqZ| |].
  { intros i Hi%elem_of_seqZ. pose proof (to_cur m _ (ix_tables m pr s Hs)). pose proof (ix_ids m pr s Hs).
    destruct (ix_home m pr s Hs (x_cur_id s - 1)) as (l & Hl & _); [lia|]. apply slot_lt in Hl. lia. }
  set (tt := track_tags etag 0 (new_tags st) ∅ (if etag then ∅ else x_tag2id s)).
  destruct (track_tags_spec etag (new_tags st) 0 ∅ (if etag then ∅ else x_tag2id s)) as (T1 & _ & T3); [lia|]. fold tt in T1, T3.
  destruct (merged_tables (new_npoints p) e t (out st) tt.1 tt.2) as (t' & Erl & Hok & Hcl & Hsl & Hinv); [lia|lia|done|].
  destruct (merged_index_ok p e t' (out st) tt.1 tt.2 Hp Htwo Hdisk Hok Hcl Hsl Hinv) as [Hidx Hnode]; [intros; by apply Hall|].
  assert (∀ id k, id_map p !! id = Some k → 0 <= k < new_npoints p) as Hkb.
  { intros id k [Hk Ek]%(pk_map _ _ _ Hp). apply lookup_lt_Some in Ek. lia. }
  exists p, e, (mkIdx t (out st) (x_cur_id s) tt.1 tt.2), (mkIdx t' (out st) (new_npoints p) tt.1 tt.2). split.
  { unfold merge_deletes. rewrite Epop. cbn [mbind option_bind]. rewrite En, Nat2Z.id, E1. cbn [mbind option_bind].
    rewrite E2. cbn [mbind option_bind]. rewrite Ee0. cbn [mbind option_bind]. rewrite Ee. cbn [mbind option_bind].
    rewrite <- En, Et. cbn [mbind option_bind]. fold tt. by destruct tt. }
  split_and!; [exact Erl|done|done|intros id; by apply id_map_dom| | | | |by exists e0].
  - intros k. split; [intros [id Ek]; by eapply Hkb|]. intros Hk.
    destruct (lookup_lt_is_Some_2 new_ids (Z.to_nat k)) as [id Hid]; [lia|]. exists id. apply (pk_map _ _ _ Hp). split; [lia|done].
  - intros id id' k [_ H1]%(pk_map _ _ _ Hp) [_ H2]%(pk_map _ _ _ Hp). congruence.
  - intros id k Ek. destruct (Hnode id k Ek) as (r & r' & Er & Er' & Hmo). exists r, r'. split_and!; [done|done|done|].
    destruct (Hall id k Ek) as [Etag _]. pose proof (Hkb id k Ek). unfold id2tag at 1. simpl x_tags. rewrite T1 by lia. rewrite Z.sub_0_r.
    by rewrite Etag.
  - intros Htag t0 k Hk. unfold id2tag. simpl x_tags. subst etag. rewrite (T3 ltac:(intros ? ? []%lookup_empty_Some) eq_refl t0 k Hk). done.
Qed.

End correct.
End merge.

(** ** A concrete merge *)

(** The ring of eight nodes without the nodes of tags 2 and 5. *)
Lemma merge_deletes_correct_witness :
  ∃ p e s1 s', merge_deletes ring_meta ring_params L2 (λ _ _, f_one) (λ l, l) (λ l, l) 20 (ring_node 0) ring {[2; 5]} true ∅ = Some (p, e, s1)
  ∧ reload (merged_meta ring_meta (new_npoints p) e) s1 = Some s' ∧ index_ok (merged_meta ring_meta (new_npoints p) e) ring_params s'
  ∧ is_Some (id_map p !! 7) ∧ id_map p !! 2 = None.
Proof.
  destruct (merge_deletes_correct ring_meta ring_params L2 (λ _ _, f_one) (λ l, l) (λ l, l) 20 (ring_node 0) ring_placement
              (λ l, Permutation_refl l) (λ l, Permutation_refl l) ring ring_ok {[2; 5]} true ∅)
    as (p & e & s1 & s' & E & Hr & Hok & _ & Hdom & _).
  - done.
  - done.
  - simpl. lia.
  - exists 128. reflexivity.
  - intros q pg Hq. by rewrite lookup_empty in Hq.
  - apply Nat.leb_le. vm_compute. reflexivity.
  - simpl. lia.
  - vm_compute. discriminate.
  - exists p, e, s1, s'. split_and!; [exact E|exact Hr|exact Hok| |].
    + apply Hdom. split; [simpl; lia|reflexivity].
    + apply eq_None_not_Some. intros H2. apply Hdom in H2 as [_ H2]. vm_compute in H2. discriminate.
Defined.

End Merge.
